(* ===== verification/_CoqProject ===== *)
-Q . S2P
Prelude.v
RustInt.v
RustStr.v
PatchTypes.v
StreamingParser.v
PatchParser.v
PatchGrammar.v
SeekSequence.v
PatchErrors.v
TextFile.v
FileUpdate.v
FsInterface.v
MemFs.v
ApplyHunks.v
ApplyPatch.v
ApplyPatchFacts.v
Invocation.v
StreamText.v
TaggedLine.v
ProposedPlan.v
InlineTag.v
AssistantText.v
Utf8Stream.v
HeadTailBuffer.v
OutputStream.v
Readiness.v
TextTruncate.v
ResponseItems.v
Normalize.v
RetainedContext.v
ContextFragments.v
TranscriptHistory.v
TokenUsage.v
History.v
OutputTruncation.v
ContextManager.v
ReviewTranscript.v
ReviewSections.v
ReviewBudget.v
Template.v
UnixPath.v
AbsolutePath.v
Utf8Encode.v
PathUri.v
PathUriLaws.v
PathJoinFacts.v
PathText.v
PathSpec.v
PathMem.v
FsPolicy.v
FsPolicyFacts.v
FsDeny.v
FsSpec.v
FsMem.v
PermProfile.v
PolicyTransforms.v
ShellScript.v
DangerousCommand.v
AuthPath.v
IpAddr.v
NetPolicy.v
NetPolicyFacts.v
MitmHook.v
NetConfig.v
NetState.v
NetDecisionFacts.v
NetDecide.v
NetMem.v
MultiMap.v
ExecRule.v
ExecPolicy.v
ExecPolicySpec.v
PolicyParser.v
PolicyAmend.v
PolicyMem.v
ExecApproval.v
ExecApprovalSpec.v
ExecAmend.v
Approvals.v
Orchestrator.v
