(* ===== verification/Prelude.v ===== *)
(** * The Codex runtime of mathmodel-copilot: a verification library

    The repository runs the Codex agent runtime ([src/codex-runtime/codex-rs], Rust)
    behind a small web backend and frontend.  This library models parts of the runtime
    that decide what happens to a user's files, commands and conversation, and proves
    what makes each of them correct.  File names below are under [codex-rs/].

    ** The program and the parts modelled

    A model's reply is streamed as bytes; it is decoded, cleared of hidden markup and
    split into plans and visible text.  The commands it proposes are read off their shell
    scripts and judged by an execution policy and by heuristics for danger; they run, ask
    or are refused, in the sandbox a permission profile selects, and their output is
    streamed, capped and truncated.  What they
    ask of the network goes through a proxy with a policy of its own, and what they read
    and write is bounded by a file-system policy on path URIs of the executor.  The
    patches it proposes are parsed, verified for approval, and applied to the files of
    an environment.  What was said and done becomes the history, which is normalized
    before it is sent to the model again; beside it a thread keeps the evidence of what
    its user asked for, for the reviewers that approve its actions.

    - _apply-patch_ ([apply-patch/src]).  [PatchTypes] (data, markers, errors of
      [parser.rs]), [StreamingParser] (the line state machine of [streaming_parser.rs]),
      [PatchParser] (boundaries, [parse_patch]), [SeekSequence], [TextFile] (lines with
      their terminators), [FileUpdate] (placing and applying chunks), [PatchErrors],
      [FsInterface] (the part of [ExecutorFileSystem] and [PathUri] it calls),
      [ApplyHunks] (the hunks and the delta), [ApplyPatch] (entry points and reports),
      [Invocation] (recognising and verifying a command).
    - _stream-parser_ ([utils/stream-parser/src]).  [StreamText] (the trait, as a class),
      [TaggedLine], [ProposedPlan], [InlineTag], [AssistantText], [Utf8Stream].
    - _execpolicy_ ([execpolicy/src]).  [ExecRule] ([decision.rs], [rule.rs],
      [executable_name.rs]), [ExecPolicy] ([policy.rs]) over [MultiMap], [PolicyParser]
      ([parser.rs]), [PolicyAmend] ([amend.rs], [sandbox_migration.rs]).
    - _network proxy_ ([network-proxy/src]).  [NetPolicy] (hosts, address classes and
      domain patterns, [policy.rs]), [NetConfig] (permissions, [config.rs]), [AuthPath]
      ([authorization_path.rs]), [MitmHook] (hooks on intercepted requests,
      [mitm_hook.rs]), [NetState] (constraints, the compiled state and its updates,
      [state.rs] and [runtime.rs]), [NetDecide] (the decider, connections and
      intercepted requests, [network_policy.rs], [connect_policy.rs], [mitm.rs]).
    - _paths_ ([utils/absolute-path/src], [utils/path-uri/src]).  [UnixPath],
      [AbsolutePath], [PathUri] (validation, equality, containment, parents and joining,
      [lib.rs], [absolute_path_normalization.rs], [native_path_bytes.rs]), [PathText]
      (native text, [api_path_string.rs], [config_path.rs]).
    - _file-system policy_ ([protocol/src/permissions.rs] and [permissions/]).  [FsPolicy]
      (entries, access, full disk access, workspace metadata), [FsDeny] (the matcher of
      read denials, [target.rs], [deny_read_validator.rs], [windows_glob.rs], concrete
      workspace roots).
    - _permissions_ ([protocol/src/models.rs], [sandboxing/src/policy_transforms.rs]).
      [PermProfile] (profiles, approval settings), [PolicyTransforms] (additional
      permissions: resolving, merging, intersecting a grant with a request).
    - _shell commands_ ([shell-command/src]).  [ShellScript] ([bash.rs],
      [shell_detect.rs], [powershell.rs]: the words of a script over its syntax tree),
      [DangerousCommand] ([command_safety]: the search through wrappers).
    - _approval of commands_ ([core/src/exec_policy.rs], [core/src/exec_policy/]).
      [ExecApproval] (the requirement of a command, amendments, updating and loading the
      policy in use), [ExecApprovalSpec] (what decides it), [ExecAmend] (what an accepted
      amendment changes).
    - _running tools_ ([core/src/tools]).  [Approvals] ([approvals.rs], [sandboxing.rs],
      the choice of a sandbox of [sandboxing/src/manager.rs], patches of [safety.rs]),
      [Orchestrator] ([orchestrator.rs]: approval, attempt, retry).
    - _unified exec_ ([core/src/unified_exec]).  [HeadTailBuffer] (the capped
      transcript), [OutputStream] (frames cut between scalars, [async_watcher.rs]).
    - _truncation_ ([utils/string/src/truncate.rs], [utils/output-truncation/src]).
      [TextTruncate], [OutputTruncation].
    - _readiness_ ([utils/readiness/src/lib.rs]).  [Readiness].
    - _history_ ([core/src/context_manager], [protocol/src/models.rs], [history/src],
      [context-fragments/src]).  [ResponseItems] (the items, all variants), [Normalize]
      (pairing calls and outputs), [History] (what is sent), [ContextFragments] (texts the
      host injects, where turns begin), [TokenUsage] (reported totals, estimates),
      [ContextManager] (the state, and what records, replaces, restores and rolls it back,
      [history.rs], [history_user_authorization.rs]).
    - _evidence for reviews_ ([history/src], [guardian-context/src]).  [RetainedContext]
      (instructions and verified answers a thread owns, [retained_context.rs],
      [reconciled_retained_context.rs]), [TranscriptHistory] (the transcript kept for
      reviewers, [history.rs], [truncation.rs]).
    - _requests for reviews_ ([guardian-context/src]).  [ReviewTranscript] (the entries of a
      conversation, their selection and rendering, [entry.rs], [transcript.rs],
      [profile.rs], [profile/window.rs]), [ReviewSections] (the contributors of evidence
      and the registry, [lib.rs], [section.rs], [authorization.rs],
      [retained_instructions.rs], [verified_answers.rs], [permissions.rs], [action.rs],
      [reviews.rs], [trusted_tool.rs], [trusted_skills.rs], [images.rs], [node_repl.rs]),
      [ReviewBudget] (composition, estimates and fitting, [composition.rs], [budget.rs],
      [enforcement.rs]).
    - _templates_ ([utils/template/src/lib.rs]).  [Template].

    [Prelude], [RustStr], [RustInt], [IpAddr], [Utf8Stream], [Utf8Encode] and [UnixPath]
    hold what the source uses of the language and its standard library: results, strings as
    lists of scalar values, saturating integers, addresses, [from_utf8], UTF-8 and UTF-16
    encodings, path components.  The
    theorems on a component are at the end of its file, or in a file [<Name>Facts],
    [<Name>Laws] or [<Name>Spec] where they are many ([NetDecisionFacts] holds those on the decisions of
    [NetState], [PathJoinFacts] those on walking and joining, [PathSpec] and [FsSpec] the
    properties of paths and of the file-system policy);
    [MemFs], [PolicyMem], [NetMem], [PathMem], [FsMem], the end of [Readiness] and the
    modules [ShellMem], [GrantMem], [ExecMem], [OrchestratorMem], [RetainedMem],
    [TranscriptMem], [ManagerMem], [ReviewTranscriptMem], [ReviewSectionsMem] and
    [ReviewBudgetMem] implement the interfaces, so that theorems with laws as hypotheses are also used at concrete inputs.

    ** How state and operations correspond

    A definition has the name of the function, method or type it translates, and each
    branch of the code is a branch of it.  [&mut self] is a state passed and returned; a
    method that may return early is a computation of the monad [M], which keeps the state
    reached when an error is returned.  [Result] is [result] and a panic (a slice or index
    out of range, an underflow, [Vec::insert] past the end) is an outer [None]; the
    totality theorems show that no [None] is reached.  Integers that the code saturates or
    wraps carry their bound ([sat_add], [wrap_i32]); lengths of data in memory are [nat].
    Asynchronous code is sequential where one task runs it, and a transition system with
    one step per shared access where several do ([Readiness.pc_step]); the optimistic
    loops of [NetState] take, for each turn, what the reloader answers and what other tasks
    do to the state before the read and between the read and the write.

    Code outside the modelled parts is an interface, with laws that state its contract:
    [PathUriOps], [ExecutorFileSystem] with [FileSystemLaws] (implemented by [MemFs]; the laws
    assume a tree without hard links and without symbolic links among directories),
    [Writer], [ProcessEnv], [MultiMapOps] with [MultiMap] (implemented on finite maps),
    [AnyhowOps], [StarlarkEngine], [SerdeJson] and [PolicyFs] with their laws (implemented by
    [PolicyMem]), [MutexOps] with [MutexLaws] and [WatchOps] with [WatchLaws]
    (implemented in [Readiness]), [GlobEngine], [UrlHost] and [HttpParts] with
    [GlobLaws], [UrlLaws] and [HeaderLaws], [HttpTypes], [GlobMatchers], [MitmEnv] and
    [CredentialBroker] (implemented by [NetMem]), [UrlOps] with [FileUrlLaws] and [UrlCoding]
    with [UrlCodingLaws] (the [url], [urlencoding] and [base64] crates, implemented by
    [PathMem]), [PathGlobs] ([globset], implemented by [FsMem]), [SyntaxTree] with [SyntaxTreeLaws] and
    [BashGrammar] (tree-sitter, implemented by [ShellMem] for words joined by [&&]),
    [CommandText] (shlex and URLs in arguments) and [PowerShellParser], [RulesDir] (the
    directories of rules), [Reviewers], [NetworkApprovals] and [ToolRuntime] with
    [ToolLaws] (what the orchestrator runs and asks, implemented by [OrchestratorMem]), [JsonSizes] with [JsonSizeLaws] and [ItemSizes] (the
    lengths [serde_json] writes), [FragmentReaders] (the XML and JSON readers of fragments),
    [MediaReaders] (image and audio decoders), [Baselines] (the snapshots settings are
    compared with), [ActionJson] and [ReviewJson] (the JSON texts of actions and reviews),
    [StringSizes] with [WireLaws] (the lengths of JSON strings, contents and messages,
    implemented by [wire_laws]), [UuidV5], and [Opaque] for JSON values that are only moved around.
    [Limits] are the storage limits of retained evidence, or none.  [StreamTextParser] is the trait of the streaming parsers and [Rule] the
    one of policy rules, with their implementations as instances.

    ** What is shown

    - Patches: the parser reads exactly the documented grammar, whatever the cuts of the
      stream; placing chunks is the documented search; an update gives the file its diff
      describes and never panics; the delta of an application is the truth about the
      files, on success and on every failure; what was verified is what is applied.
    - Streams: each parser gives for every cut of its input the result of a reading of
      the whole, ends, and holds back a bounded suffix.
    - Policy: matching is the documented three stages, evaluation takes the strictest
      decision, an overlay never weakens, a file that loads has all its examples hold,
      appending a rule keeps the rest of the file.
    - Network: in every reachable state the compiled lists are those of the configuration,
      which is within its managed constraints; a host let through is covered by no denied
      pattern, by the managed list when there is one, and is outside the listed local
      ranges unless named; updates
      take effect and end; a hook acts, and secrets are injected, only on requests it was
      configured for by every matcher, whose path has a single reading.
    - Paths: the values of [PathUri] are well formed whatever constructor or operation gives them;
      equality is an equivalence that hashing respects, containment a preorder on paths
      whose names are text; walking up ends; joining is a lexical walk that stays on the
      drive or share; absolute text is rendered back.
    - File-system policy: the deepest entries decide, a denial among them before a write and
      a write before reading, in any order of the entries; claims of full access are true on POSIX hosts; denials carried
      over, validated or made concrete are never lost and grants never widen; the read
      matcher denies exactly what its denials cover; workspace metadata is protected.
      [FsMem] ends with inputs on which the code departs from what it says.
    - Permissions: a profile and its runtime policies determine each other; additional
      permissions and grants give an access only through an entry that was asked for and
      granted and is deeper than every denial; reading only takes every write away.
    - Commands: what a script is read as is all it runs; a command passes the search for
      danger exactly when no chain of wrappers leads to danger; the verdicts on the commands
      decide the requirement exactly; what runs unasked is allowed by rules or harmless and
      sandboxed; an accepted amendment settles the prompt that proposed it, and rules that
      do not count leave nothing outside the sandbox.
    - Tools: cached answers are exactly those given for the session; patches applied unasked
      write only what may be written; a run asks before it acts, is in the sandbox the policy
      asks for, retries at most once and only a denial, and never leaves a sandbox that
      denied reads or the owner's network need.  [GrantMem], [ExecMem] and [ShellMem] end with inputs on which the code departs
      from what it says.
    - Output: the transcript is the summary of the stream, frames never split a scalar
      and lose nothing while quota remains, truncation stays within its budget.
    - Readiness: the invariants of every interleaving (tokens are never handed out twice, the
      flag is set once and only for a token that was), and which waiters are woken.
    - History: normalizing pairs every call with an output, drops nothing else and is
      idempotent; dropping the oldest item keeps the pairs; no unreadable media is sent.
      Rolling back cuts exactly before the last turns and the context injected for them, and
      drops what they authorized; the versions
      readers see tell every change that could move what they have read; token totals are
      the sums of what was reported, and estimates saturate.
    - Evidence: it stays within its limits and says when something is lost; evidence said to
      be complete is all there is, and a complete instruction is the user's own words; a
      checkpoint restores to what it was taken from; completing it from live messages hides
      no gap; tool traffic never evicts what the user said from the review history.
    - Requests for reviews: the user's words and manual approvals are all shown, complete
      and in order; a rendered review cannot close the fragment it is in; images and REPL
      evidence stay within their limits; a fitted request is within its limit as the
      messages that are sent, what may not be lost is in it, and fitting is refused exactly
      when what may not be lost cannot fit.
    - Templates: printing and parsing are inverse, rendering is filling in.

    ** Fuel and bounds

    Recursion is structural wherever the code walks a list.  Elsewhere fuel is given and
    shown to be enough: the loop of [InlineTag] consumes a char or stops
    ([inline_push_str_total]); [OutputStream.emit_loop] sends a byte each turn
    ([stream_output_frames] shows it ends); [utf8_boundary] looks at three bytes at most;
    [fresh_token] meets each of the ids in use at most once ([subscribe_finds_token]);
    [Template.parse_loop] consumes a char each turn, so the length is enough;
    [uri_ancestors] gets one step per segment, and [uri_ancestors_end] shows that the walk
    ends within them.  [detect_loop] gets the length of the path, which each turn
    shortens; [pop_until] gets the length of the pool it empties, [text_parts] the length of
    the text, [search_budget] the bits of the interval it halves ([search_budget_fuel]); the
    search for danger has the code's own depth of eight wrappers, past which a
    command counts as dangerous; the walks over a syntax tree get its number of nodes, and
    [walk_plain_visit] shows that they visit each.  The turns of
    [NetState.update_loop] are those the run has, and [update_ends] shows that it is over at
    the first turn left alone.

    ** What is not modelled

    - I/O and its implementations: file systems and [exec-server], processes, the
      sandboxes of the operating systems and the transforms of a command into one,
      HTTP, MCP, SQLite ([state]), the terminal UI, the app server.  They call the modelled
      parts or are called through the interfaces above.
    - Code that is glue to a parser or engine of a third party: tree-sitter in the shell
      parsing of [invocation.rs] and in the lowering of PowerShell scripts, Starlark itself, serde derives, the unified diff text.
    - Of the reviews, what the host does around a request: history snapshots and delivery
      cursors, storing REPL responses, compaction, the model's answer and metrics.
    - Of the parts modelled: the task loop of [async_watcher.rs] (its select over timers,
      cancellation and lagging receivers) above the frames; in the context manager, the
      changes of the world's state, and [with_serialization_allowance], a product in [f64]
      given as a parameter; path canonicalization;
      host paths on Windows; the conversions of path URIs to host paths, and so the
      local-path adapters of the file-system policy, its legacy form and its runtime
      roots; the servers, certificates and credential broker of the network proxy; the
      telemetry of the orchestrator, the sessions of the guardian and the prompts, and
      the texts of errors met on loading rules.
    - The web backend and frontend, scripts and vendored code.

    ** This file

    Shared notation, automation and generic lemmas. *)
From stdpp Require Export base tactics numbers list list_numbers option gmap strings pretty.

(** ** Results and the state-and-error monad *)

(** Rust's [Result<A, E>], with the error type first so that [result E] is a
    type constructor the monad notation of stdpp applies to. *)
Inductive result (E A : Type) : Type :=
| Ok (a : A)
| Err (e : E).
Arguments Ok {E A} a.
Arguments Err {E A} e.

#[global] Instance result_ret E : MRet (result E) := λ A a, Ok a.
#[global] Instance result_bind E : MBind (result E) := λ A B f m,
  match m with Ok a => f a | Err e => Err e end.
#[global] Instance result_fmap E : FMap (result E) := λ A B f m,
  match m with Ok a => Ok (f a) | Err e => Err e end.
#[global] Instance result_eq_dec E A `{EqDecision E, EqDecision A} :
  EqDecision (result E A).
Proof. solve_decision. Defined.

Definition is_ok {E A} (r : result E A) : bool :=
  match r with Ok _ => true | Err _ => false end.

Definition map_err {E F A} (f : E → F) (r : result E A) : result F A :=
  match r with Ok a => Ok a | Err e => Err (f e) end.

Definition ok_or {E A} (e : E) (o : option A) : result E A :=
  match o with Some a => Ok a | None => Err e end.

Definition ok {E A} (r : result E A) : option A :=
  match r with Ok a => Some a | Err _ => None end.

(** When a chain of fallible steps succeeds. *)

Lemma bind_ok {E A B} (m : result E A) (f : A → result E B) b :
  m ≫= f = Ok b ↔ ∃ a, m = Ok a ∧ f a = Ok b.
Proof. destruct m; simpl; naive_solver. Qed.

Lemma ok_or_ok {E A} (e : E) (o : option A) a : ok_or e o = Ok a ↔ o = Some a.
Proof. destruct o; simpl; naive_solver. Qed.

Lemma seq_ok {E B} (m : result E unit) (n : result E B) b :
  (m ≫= λ _, n) = Ok b ↔ m = Ok tt ∧ n = Ok b.
Proof. destruct m as [[]|e]; simpl; naive_solver. Qed.

Lemma map_err_ok {E F A} (f : E → F) (r : result E A) a : map_err f r = Ok a ↔ r = Ok a.
Proof. destruct r; simpl; naive_solver. Qed.

(** [iter().map(f).collect::<Result<Vec<_>, _>>()]: the first error, or all the results. *)
Fixpoint collect {E A B} (f : A → result E B) (l : list A) : result E (list B) :=
  match l with
  | [] => Ok []
  | x :: l => y ← f x; ys ← collect f l; Ok (y :: ys)
  end.

Lemma collect_ok {E A B} (f : A → result E B) l ys :
  collect f l = Ok ys ↔ Forall2 (λ x y, f x = Ok y) l ys.
Proof.
  revert ys. induction l as [|x l IH]; intros ys; simpl.
  - split; [intros [= <-]; constructor|]. by intros ->%Forall2_nil_inv_l.
  - unfold mbind, result_bind. split.
    + destruct (f x) as [y|] eqn:Hx; [|done]. destruct (collect f l) as [ys'|]; [|done].
      intros [= <-]. constructor; [done|]. by apply IH.
    + intros (y & ys' & -> & Hl%IH & ->)%Forall2_cons_inv_l. by rewrite Hl.
Qed.

(** Code that mutates [&mut self] (or a file system) and may return early with
    [?]: the state reached so far is kept when an error is returned. *)
Definition M (S E A : Type) : Type := S → S * result E A.

#[global] Instance M_ret S E : MRet (M S E) := λ A a s, (s, Ok a).
#[global] Instance M_bind S E : MBind (M S E) := λ A B f m s,
  match m s with
  | (s', Ok a) => f a s'
  | (s', Err e) => (s', Err e)
  end.

Definition get {S E} : M S E S := λ s, (s, Ok s).
Definition put {S E} (s' : S) : M S E unit := λ _, (s', Ok tt).
Definition modify {S E} (f : S → S) : M S E unit := λ s, (f s, Ok tt).
Definition throw {S E A} (e : E) : M S E A := λ s, (s, Err e).
Definition lift {S E A} (r : result E A) : M S E A := λ s, (s, r).

(** Running a step over a list and stopping at the first error: a [for] loop
    whose body uses [?]. *)
Fixpoint for_each {S E A} (f : A → M S E unit) (l : list A) : M S E unit :=
  match l with
  | [] => mret tt
  | x :: l => f x ≫= λ _, for_each f l
  end.

Lemma M_bind_ret_l {S E A B} (a : A) (f : A → M S E B) s :
  (mret a ≫= f) s = f a s.
Proof. reflexivity. Qed.

Lemma M_bind_assoc {S E A B C} (m : M S E A) (f : A → M S E B) (g : B → M S E C) s :
  ((m ≫= f) ≫= g) s = (m ≫= λ a, f a ≫= g) s.
Proof. unfold mbind, M_bind. by destruct (m s) as [s' [a|e]]. Qed.

(** A sequence stops at its first error. *)
Lemma M_bind_inv {S E A B} (m : M S E A) (f : A → M S E B) s s' r :
  (m ≫= f) s = (s', r) →
  (∃ a s1, m s = (s1, Ok a) ∧ f a s1 = (s', r)) ∨ (∃ e, m s = (s', Err e) ∧ r = Err e).
Proof.
  unfold mbind, M_bind. destruct (m s) as [s1 [a|e]]; [intros ?; left; eauto|].
  intros [= -> <-]. right. eauto.
Qed.

Lemma for_each_app {S E A} (f : A → M S E unit) l1 l2 s :
  for_each f (l1 ++ l2) s = (for_each f l1 ≫= λ _, for_each f l2) s.
Proof.
  revert s. induction l1 as [|x l1 IH]; intros s; simpl; [done|].
  unfold mbind, M_bind in *. destruct (f x s) as [s' [[]|e]]; [|done]. by rewrite IH.
Qed.

(** The rule for a loop: an invariant kept by each successful step holds when
    the loop ends successfully. *)
Lemma for_each_inv {S E A} (P : S → Prop) (Q : A → Prop) (f : A → M S E unit) l s s' :
  (∀ x s1 s2, Q x → P s1 → f x s1 = (s2, Ok tt) → P s2) →
  Forall Q l → P s → for_each f l s = (s', Ok tt) → P s'.
Proof.
  intros Hstep Hl. revert s. induction Hl as [|x l Hx Hl IH]; intros s Hs; simpl.
  - unfold mret, M_ret. naive_solver.
  - unfold mbind, M_bind. destruct (f x s) as [s1 [[]|e]] eqn:Hf; [|naive_solver].
    intros ?. eapply IH; [|done]. eauto.
Qed.

(** ** Lists *)

Section lists.
Context {A : Type}.
Implicit Types (l : list A) (p : A → bool).

Fixpoint drop_while p l : list A :=
  match l with
  | [] => []
  | x :: l' => if p x then drop_while p l' else l
  end.

(** [drop_while] from the right. *)
Fixpoint drop_while_end p l : list A :=
  match l with
  | [] => []
  | x :: l' =>
      match drop_while_end p l' with
      | [] => if p x then [] else [x]
      | t => x :: t
      end
  end.

Lemma drop_while_suffix p l : drop_while p l `suffix_of` l.
Proof.
  induction l as [|x l IH]; simpl; [done|].
  case_match; [by apply suffix_cons_r|done].
Qed.

Lemma drop_while_end_prefix p l : drop_while_end p l `prefix_of` l.
Proof.
  induction l as [|x l IH]; simpl; [done|].
  destruct (drop_while_end p l); [case_match|].
  - apply prefix_nil.
  - apply prefix_cons, prefix_nil.
  - by apply prefix_cons.
Qed.

Lemma drop_while_none p l x l' : l = x :: l' → p x = false → drop_while p l = l.
Proof. intros -> Hx. simpl. by rewrite Hx. Qed.

Lemma drop_while_all p l : forallb p l = true → drop_while p l = [].
Proof. induction l; simpl; [done|]. by intros [-> ?]%andb_true_iff; auto. Qed.

Lemma drop_while_end_all p l : forallb p l = true → drop_while_end p l = [].
Proof.
  induction l; simpl; [done|]. intros [Hp ?]%andb_true_iff.
  rewrite IHl by done. by rewrite Hp.
Qed.

Lemma drop_while_end_nil_inv p l : drop_while_end p l = [] → forallb p l = true.
Proof.
  induction l as [|x l IH]; simpl; [done|].
  destruct (drop_while_end p l); [|done]. destruct (p x); [|done]. auto.
Qed.

Lemma drop_while_nil_inv p l : drop_while p l = [] → forallb p l = true.
Proof. induction l as [|x l IH]; simpl; [done|]. destruct (p x); [auto|done]. Qed.

Lemma drop_while_app p l1 l2 :
  drop_while p (l1 ++ l2) =
  if forallb p l1 then drop_while p l2 else drop_while p l1 ++ l2.
Proof.
  induction l1 as [|x l1 IH]; simpl; [done|].
  destruct (p x); simpl; [done|]. done.
Qed.

Lemma drop_while_end_app p l1 l2 :
  drop_while_end p (l1 ++ l2) =
  match drop_while_end p l2 with
  | [] => drop_while_end p l1
  | t => l1 ++ t
  end.
Proof.
  induction l1 as [|x l1 IH]; simpl.
  - by destruct (drop_while_end p l2).
  - rewrite IH. destruct (drop_while_end p l2); [done|].
    destruct l1; done.
Qed.

Lemma drop_while_end_last p l x : p x = false → drop_while_end p (l ++ [x]) = l ++ [x].
Proof. intros Hx. rewrite drop_while_end_app. simpl. by rewrite Hx. Qed.

Lemma drop_while_idemp p l : drop_while p (drop_while p l) = drop_while p l.
Proof.
  induction l as [|x l IH]; simpl; [done|]. destruct (p x) eqn:E; [done|].
  simpl. by rewrite E.
Qed.

Lemma drop_while_end_idemp p l :
  drop_while_end p (drop_while_end p l) = drop_while_end p l.
Proof.
  induction l as [|x l IH]; simpl; [done|].
  destruct (drop_while_end p l) as [|y t] eqn:E.
  - destruct (p x) eqn:Hx; simpl; [done|]. by rewrite Hx.
  - simpl in *. by rewrite IH.
Qed.

(** Trimming on one side and then the other commutes. *)
Lemma drop_while_drop_while_end p l :
  drop_while p (drop_while_end p l) = drop_while_end p (drop_while p l).
Proof.
  induction l as [|x l IH]; simpl; [done|].
  destruct (drop_while_end p l) as [|y t] eqn:E.
  - apply drop_while_end_nil_inv in E. destruct (p x) eqn:Hx; simpl.
    + rewrite drop_while_all by done. done.
    + rewrite Hx. by rewrite drop_while_end_all.
  - destruct (p x) eqn:Hx; simpl; rewrite Hx.
    + by rewrite <- IH.
    + by rewrite E.
Qed.

Lemma elem_of_map {B} (f : A → B) l (y : B) : y ∈ map f l ↔ ∃ x, y = f x ∧ x ∈ l.
Proof. apply list_elem_of_fmap. Qed.

Lemma elem_of_flat_map {B} (f : A → list B) l (y : B) : y ∈ flat_map f l ↔ ∃ x, x ∈ l ∧ y ∈ f x.
Proof.
  rewrite list_elem_of_In, in_flat_map. apply exist_proper. intros x. by rewrite !list_elem_of_In.
Qed.

Lemma existsb_elem (f : A → bool) l : existsb f l = true ↔ ∃ x, x ∈ l ∧ f x = true.
Proof. rewrite existsb_exists. apply exist_proper. intros x. by rewrite list_elem_of_In. Qed.

Lemma existsb_none (f : A → bool) l : (∀ z, z ∈ l → f z = false) → existsb f l = false.
Proof. intros H. apply not_true_iff_false. rewrite existsb_elem. intros (z & Hz & Hf). by rewrite H in Hf. Qed.

(** [set_last x l]: assignment through [last_mut()]. *)
Fixpoint set_last (x : A) l : list A :=
  match l with
  | [] => []
  | [_] => [x]
  | y :: l' => y :: set_last x l'
  end.

Lemma set_last_snoc x y l : set_last x (l ++ [y]) = l ++ [x].
Proof.
  induction l as [|z l IH]; simpl; [done|]. rewrite IH.
  destruct (l ++ [y]) eqn:E; [|done]. by destruct l.
Qed.

Lemma last_Some_inv l x : last l = Some x → ∃ l', l = l' ++ [x].
Proof. apply last_Some. Qed.
End lists.

(** Splitting a list at every element satisfying [p]; the result has one piece
    more than there are separators. *)
Fixpoint split_at_all {A} (p : A → bool) (l : list A) : list (list A) :=
  match l with
  | [] => [[]]
  | x :: l' =>
      if p x then [] :: split_at_all p l'
      else match split_at_all p l' with
           | [] => [[x]]
           | piece :: rest => (x :: piece) :: rest
           end
  end.

Fixpoint join_with {A} (sep : list A) (ls : list (list A)) : list A :=
  match ls with
  | [] => []
  | [l] => l
  | l :: ls' => l ++ sep ++ join_with sep ls'
  end.

Section split_join.
Context {A : Type}.
Implicit Types (p : A → bool) (l : list A) (ls : list (list A)).

Lemma split_at_all_nonempty p l : split_at_all p l ≠ [].
Proof. destruct l; simpl; [done|]. case_match; [done|]. by case_match. Qed.

Lemma split_at_all_none p l :
  forallb (negb ∘ p) l = true → split_at_all p l = [l].
Proof.
  induction l as [|x l IH]; simpl; [done|]. intros [Hx Hl]%andb_true_iff.
  apply negb_true_iff in Hx. rewrite Hx, IH by done. done.
Qed.

Lemma split_at_all_app_sep p l1 sep l2 :
  forallb (negb ∘ p) l1 = true → p sep = true →
  split_at_all p (l1 ++ sep :: l2) = l1 :: split_at_all p l2.
Proof.
  intros Hl1 Hsep. induction l1 as [|x l1 IH]; simpl in *; [by rewrite Hsep|].
  apply andb_true_iff in Hl1 as [Hx Hl1]. apply negb_true_iff in Hx.
  by rewrite Hx, IH.
Qed.

Lemma split_at_all_pieces p l :
  Forall (λ piece, forallb (negb ∘ p) piece = true) (split_at_all p l).
Proof.
  induction l as [|x l IH]; simpl; [by constructor|].
  destruct (p x) eqn:Hx; [by constructor|].
  destruct (split_at_all p l); decompose_Forall_hyps; constructor; try done.
  - simpl. by rewrite Hx.
  - simpl. rewrite Hx. done.
Qed.

Lemma join_with_cons (sep : list A) l ls :
  ls ≠ [] → join_with sep (l :: ls) = l ++ sep ++ join_with sep ls.
Proof. by destruct ls. Qed.

(** Joining the pieces with the separator gives the text back. *)
Lemma join_split (sep : A) p l :
  (∀ x, p x = true → x = sep) → join_with [sep] (split_at_all p l) = l.
Proof.
  intros Hp. induction l as [|x l IH]; simpl; [done|].
  destruct (p x) eqn:Hx.
  - rewrite join_with_cons by apply split_at_all_nonempty.
    rewrite IH. apply Hp in Hx. by subst.
  - destruct (split_at_all p l) as [|piece rest] eqn:E.
    { by apply split_at_all_nonempty in E. }
    destruct rest; simpl in *; by rewrite <- IH.
Qed.

Lemma split_join (sep : A) p ls :
  p sep = true → ls ≠ [] →
  Forall (λ l, forallb (negb ∘ p) l = true) ls →
  split_at_all p (join_with [sep] ls) = ls.
Proof.
  intros Hsep Hne Hls. induction Hls as [|l ls Hl Hls IH]; [done|].
  destruct ls as [|l' ls'].
  - simpl. by apply split_at_all_none.
  - rewrite join_with_cons, app_assoc by done.
    rewrite <- app_assoc. cbn [app]. rewrite split_at_all_app_sep by done.
    by rewrite IH.
Qed.
End split_join.

(** ** Automation *)

(** Case analysis on the tests of the code: destruct every [if] and [match] of
    the goal, then simplify the equations this leaves. *)
Ltac case_all := repeat (case_match; simplify_eq/=).

(** Open the definitions of the state-and-error monad. *)
Ltac m_unfold :=
  unfold mbind, M_bind, result_bind, mret, M_ret, result_ret, get, put, modify, throw, lift in *;
  cbn beta iota zeta in *.

(** Turn boolean tests into the propositions they decide. *)
Ltac bool_hyps :=
  repeat match goal with
  | H : _ && _ = true |- _ => apply andb_true_iff in H as [? ?]
  | H : negb _ = true |- _ => apply negb_true_iff in H
  | H : negb _ = false |- _ => apply negb_false_iff in H
  | H : bool_decide _ = true |- _ => apply bool_decide_eq_true in H
  | H : bool_decide _ = false |- _ => apply bool_decide_eq_false in H
  end.

Create HintDb codex.
Create Rewrite HintDb codex.
#[export] Hint Resolve drop_while_suffix drop_while_end_prefix split_at_all_nonempty : codex.
#[export] Hint Rewrite @drop_while_idemp @drop_while_end_idemp @set_last_snoc : codex.
