(* ===== verification/RustInt.v ===== *)
(** * RustInt: machine integers whose operations saturate

    [usize] and [u64] values that the code adds with [saturating_add] and the like are
    kept as [N] with the bound written out; lengths of lists in memory stay [nat]. *)
From S2P Require Import Prelude.

Local Open Scope N_scope.

(** [usize::MAX] on a 64-bit target, which is [u64::MAX]. *)
Definition usize_max : N := 18446744073709551615.
Definition i64_max : Z := 9223372036854775807.
Definition i64_min : Z := (-9223372036854775808).

Definition sat_add (a b : N) : N := N.min usize_max (a + b).
Definition sat_mul (a b : N) : N := N.min usize_max (a * b).
(** [saturating_sub] is the truncated subtraction of [N]. *)
Definition sat_sub (a b : N) : N := a - b.
Definition checked_sub (a b : N) : option N := if a <? b then None else Some (a - b).
Definition div_ceil (a b : N) : N := (a + (b - 1)) / b.

(** A [len()] as a machine integer. *)
Definition len {A} (l : list A) : N := N.of_nat (length l).

(** Saturation is the identity below the bound. *)
Lemma sat_add_exact a b : a + b <= usize_max → sat_add a b = a + b.
Proof. unfold sat_add. lia. Qed.

Lemma sat_add_max a b : usize_max <= a + b → sat_add a b = usize_max.
Proof. unfold sat_add. lia. Qed.

Lemma sat_add_le a b : sat_add a b <= usize_max.
Proof. unfold sat_add. lia. Qed.

(** Saturating at each addition is saturating the sum. *)
Lemma sat_add_min_l a b : sat_add (N.min usize_max a) b = sat_add a b.
Proof. unfold sat_add. lia. Qed.

Lemma sat_add_min_r a b : sat_add a (N.min usize_max b) = sat_add a b.
Proof. unfold sat_add. lia. Qed.

Lemma sat_add_assoc a b c : sat_add a (sat_add b c) = sat_add (sat_add a b) c.
Proof. unfold sat_add. lia. Qed.

Lemma sat_add_comm a b : sat_add a b = sat_add b a.
Proof. unfold sat_add. lia. Qed.

(** A [nat] counted in a machine integer that saturates. *)
Definition count (n : nat) : N := N.min usize_max (N.of_nat n).

Lemma count_add a b : sat_add (count a) (count b) = count (a + b).
Proof. unfold sat_add, count. lia. Qed.

Lemma count_add_len a b : sat_add (count a) (N.of_nat b) = count (a + b).
Proof. unfold sat_add, count. lia. Qed.

Lemma len_app {A} (l k : list A) : len (l ++ k) = len l + len k.
Proof. unfold len. rewrite length_app. lia. Qed.

#[export] Hint Resolve sat_add_le : codex.
#[export] Hint Rewrite sat_add_min_l sat_add_min_r @len_app : codex.
