(* ===== verification/RustStr.v ===== *)
(** * RustStr: Rust's [str] and [char] operations

    A [String] or [&str] is the list of its [char]s, a [char] being its Unicode
    scalar value as an [N].  Byte lengths are recovered by [str_len]; the code
    only slices at char boundaries, so a byte offset and a char offset of the
    same position are interchangeable. *)
From S2P Require Import Prelude.

Abbreviation char := N (only parsing).
Abbreviation str := (list N) (only parsing).

(** Literals of the source.  The literals modelled with [lit] are ASCII. *)
Fixpoint lit (s : string) : str :=
  match s with
  | EmptyString => []
  | String a s' => Ascii.N_of_ascii a :: lit s'
  end.
Arguments lit s%_string : simpl never.

(** [format!("{n}")] of an unsigned integer. *)
Definition fmt_N (n : N) : str := lit (pretty n).
Definition fmt_usize (n : nat) : str := fmt_N (N.of_nat n).

Definition c_tab : char := 9%N.
Definition c_nl : char := 10%N.
Definition c_cr : char := 13%N.
Definition c_space : char := 32%N.

(** [char::is_whitespace]: the Unicode property White_Space. *)
Definition is_whitespace (c : char) : bool :=
  ((9 <=? c) && (c <=? 13) || (c =? 32) || (c =? 0x85) || (c =? 0xA0)
   || (c =? 0x1680) || (0x2000 <=? c) && (c <=? 0x200A) || (c =? 0x2028)
   || (c =? 0x2029) || (c =? 0x202F) || (c =? 0x205F) || (c =? 0x3000))%N.

Definition is_ascii_digit (c : char) : bool := ((48 <=? c) && (c <=? 57))%N.
Definition is_ascii_alphabetic (c : char) : bool :=
  ((65 <=? c) && (c <=? 90) || (97 <=? c) && (c <=? 122))%N.
Definition to_ascii_lower (c : char) : char :=
  if ((65 <=? c) && (c <=? 90))%N then (c + 32)%N else c.
Definition to_ascii_lowercase (s : str) : str := map to_ascii_lower s.
Definition eq_ignore_ascii_case (s t : str) : bool :=
  bool_decide (to_ascii_lowercase s = to_ascii_lowercase t).

(** Bytes of a char's UTF-8 encoding, and of a string ([str::len]). *)
Definition len_utf8 (c : char) : nat :=
  if (c <? 0x80)%N then 1 else if (c <? 0x800)%N then 2
  else if (c <? 0x10000)%N then 3 else 4.
Fixpoint str_len (s : str) : nat :=
  match s with [] => 0 | c :: s' => len_utf8 c + str_len s' end.

Definition is_char (d c : char) : bool := (c =? d)%N.

(** ** Prefixes and suffixes *)

Fixpoint strip_prefix (p s : str) : option str :=
  match p, s with
  | [], _ => Some s
  | a :: p', b :: s' => if (a =? b)%N then strip_prefix p' s' else None
  | _ :: _, [] => None
  end.
Definition starts_with (p s : str) : bool :=
  match strip_prefix p s with Some _ => true | None => false end.
Definition strip_suffix (p s : str) : option str :=
  reverse <$> strip_prefix (reverse p) (reverse s).
Definition ends_with (p s : str) : bool :=
  match strip_suffix p s with Some _ => true | None => false end.

Lemma strip_prefix_Some p s t : strip_prefix p s = Some t ↔ s = p ++ t.
Proof.
  revert s t. induction p as [|a p IH]; intros s t; simpl; [naive_solver|].
  destruct s as [|b s]; [naive_solver|].
  destruct (N.eqb_spec a b) as [->|Hab]; [rewrite IH|]; naive_solver.
Qed.

Lemma strip_prefix_None p s : strip_prefix p s = None ↔ ¬ p `prefix_of` s.
Proof.
  split.
  - intros Hn [t ->]. assert (strip_prefix p (p ++ t) = Some t) by by apply strip_prefix_Some.
    congruence.
  - intros Hn. destruct (strip_prefix p s) as [t|] eqn:E; [|done].
    apply strip_prefix_Some in E as ->. destruct Hn. by exists t.
Qed.

Lemma strip_prefix_app p s : strip_prefix p (p ++ s) = Some s.
Proof. by apply strip_prefix_Some. Qed.

(** Two texts that differ at a common position: the way different markers are told
    apart whatever follows them. *)
Fixpoint differ (p m : str) : bool :=
  match p, m with
  | a :: p', b :: m' => negb (a =? b)%N || differ p' m'
  | _, _ => false
  end.

Lemma strip_prefix_differ p m s : differ p m = true → strip_prefix p (m ++ s) = None.
Proof.
  revert m. induction p as [|a p IH]; intros [|b m]; simpl; try done.
  destruct (a =? b)%N; [by apply IH|done].
Qed.

Lemma differ_ne p m s : differ p m = true → m ++ s ≠ p.
Proof.
  intros Hd Heq. pose proof (strip_prefix_differ p m s Hd) as Hn. rewrite Heq in Hn.
  assert (strip_prefix p p = Some []) by (apply strip_prefix_Some; by rewrite app_nil_r).
  congruence.
Qed.

Lemma starts_with_spec p s : starts_with p s = true ↔ p `prefix_of` s.
Proof.
  unfold starts_with. destruct (strip_prefix p s) as [t|] eqn:E.
  - apply strip_prefix_Some in E as ->. split; [intros _; by exists t|done].
  - apply strip_prefix_None in E. naive_solver.
Qed.

Lemma starts_with_false p s : starts_with p s = false ↔ ¬ p `prefix_of` s.
Proof. rewrite <- not_true_iff_false. by rewrite starts_with_spec. Qed.

Lemma strip_suffix_Some p s t : strip_suffix p s = Some t ↔ s = t ++ p.
Proof.
  unfold strip_suffix. rewrite fmap_Some. split.
  - intros (u & Hu%strip_prefix_Some & ->).
    rewrite <- (reverse_involutive s), Hu, reverse_app, reverse_involutive. done.
  - intros ->. exists (reverse t). rewrite reverse_app, strip_prefix_app, reverse_involutive.
    done.
Qed.

Lemma ends_with_spec p s : ends_with p s = true ↔ p `suffix_of` s.
Proof.
  unfold ends_with. destruct (strip_suffix p s) as [t|] eqn:E.
  - apply strip_suffix_Some in E as ->. split; [intros _; by exists t|done].
  - split; [done|]. intros [t ->].
    assert (strip_suffix p (t ++ p) = Some t) by by apply strip_suffix_Some. congruence.
Qed.

(** ** Trimming *)

Definition trim_start (s : str) : str := drop_while is_whitespace s.
Definition trim_end (s : str) : str := drop_while_end is_whitespace s.
Definition trim (s : str) : str := trim_end (trim_start s).
Definition trim_end_matches (c : char) (s : str) : str := drop_while_end (is_char c) s.

Definition all_whitespace (s : str) : bool := forallb is_whitespace s.

Lemma trim_start_idemp s : trim_start (trim_start s) = trim_start s.
Proof. apply drop_while_idemp. Qed.
Lemma trim_end_idemp s : trim_end (trim_end s) = trim_end s.
Proof. apply drop_while_end_idemp. Qed.
Lemma trim_start_trim_end s : trim_start (trim_end s) = trim_end (trim_start s).
Proof. apply drop_while_drop_while_end. Qed.
Lemma trim_trim_end s : trim (trim_end s) = trim s.
Proof. unfold trim. by rewrite trim_start_trim_end, trim_end_idemp. Qed.
Lemma trim_end_trim s : trim_end (trim s) = trim s.
Proof. unfold trim. apply trim_end_idemp. Qed.
Lemma trim_trim_start s : trim (trim_start s) = trim s.
Proof. unfold trim. by rewrite trim_start_idemp. Qed.
Lemma trim_idemp s : trim (trim s) = trim s.
Proof. unfold trim at 2. by rewrite trim_trim_end, trim_trim_start. Qed.

Lemma trim_start_cons c s : is_whitespace c = false → trim_start (c :: s) = c :: s.
Proof. intros Hc. unfold trim_start. simpl. by rewrite Hc. Qed.

(** A text that starts and ends with a visible char is not changed. *)
Lemma trim_end_snoc s c : is_whitespace c = false → trim_end (s ++ [c]) = s ++ [c].
Proof. apply drop_while_end_last. Qed.
Lemma trim_end_prefix s : trim_end s `prefix_of` s.
Proof. apply drop_while_end_prefix. Qed.

Lemma trim_end_app s t : trim_end (s ++ t) =
  match trim_end t with [] => trim_end s | u => s ++ u end.
Proof. apply drop_while_end_app. Qed.

Lemma trim_end_cons c l : is_whitespace c = false → trim_end (c :: l) = c :: trim_end l.
Proof.
  intros Hc. unfold trim_end. simpl. destruct (drop_while_end _ l); [|done]. by rewrite Hc.
Qed.

Lemma trim_cons c l : is_whitespace c = false → trim (c :: l) = c :: trim_end l.
Proof. intros Hc. unfold trim. by rewrite trim_start_cons, trim_end_cons. Qed.

(** A text between a visible first char and a trimmed end is kept whole. *)
Lemma trim_between c m e :
  is_whitespace c = false → e ≠ [] → trim_end e = e → trim (c :: m ++ e) = c :: m ++ e.
Proof.
  intros Hc Hne He. rewrite trim_cons, trim_end_app, He by done. by destruct e.
Qed.

#[export] Hint Rewrite trim_start_idemp trim_end_idemp trim_trim_end trim_end_trim
  trim_trim_start trim_idemp : codex.

(** ** Splitting into lines *)

Definition split_char (c : char) (s : str) : list str := split_at_all (is_char c) s.
Definition join (sep : str) (ls : list str) : str := join_with sep ls.

(** The [\r] of a [\r\n] terminator, removed once. *)
Definition strip_cr (s : str) : str := from_option id s (strip_suffix [c_cr] s).

(** [str::lines]: pieces ended by [\n] lose one trailing [\r]; the text after the
    last [\n] is a line when it is not empty, and keeps its [\r]. *)
Fixpoint lines_of_pieces (pieces : list str) : list str :=
  match pieces with
  | [] => []
  | [l] => if bool_decide (l = []) then [] else [l]
  | l :: rest => strip_cr l :: lines_of_pieces rest
  end.
Definition lines (s : str) : list str := lines_of_pieces (split_char c_nl s).

Example lines_ex : lines (lit "a" ++ [c_cr; c_nl] ++ lit "b" ++ [c_nl; c_nl] ++ lit "c" ++ [c_cr])
  = [lit "a"; lit "b"; []; lit "c" ++ [c_cr]].
Proof. reflexivity. Qed.

(** No char of the text is a line feed. *)
Definition no_nl (s : str) : bool := forallb (negb ∘ is_char c_nl) s.

Lemma no_nl_app s t : no_nl (s ++ t) = no_nl s && no_nl t.
Proof. apply forallb_app. Qed.

Lemma join_split_char c s : join [c] (split_char c s) = s.
Proof. apply join_split. intros x. apply N.eqb_eq. Qed.

Lemma split_char_join c ls :
  ls ≠ [] → Forall (λ l, forallb (negb ∘ is_char c) l = true) ls →
  split_char c (join [c] ls) = ls.
Proof. apply split_join, N.eqb_refl. Qed.

Lemma strip_cr_id s : last s ≠ Some c_cr → strip_cr s = s.
Proof.
  intros Hs. unfold strip_cr. destruct (strip_suffix [c_cr] s) as [t|] eqn:E; [|done].
  apply strip_suffix_Some in E as ->. by rewrite last_snoc in Hs.
Qed.

Lemma strip_cr_snoc s : strip_cr (s ++ [c_cr]) = s.
Proof.
  unfold strip_cr.
  assert (strip_suffix [c_cr] (s ++ [c_cr]) = Some s) as -> by by apply strip_suffix_Some.
  done.
Qed.

(** Lines that do not end in [\r], joined and not ending in an empty line, are
    the lines of the joined text. *)
Lemma lines_join ls :
  Forall (λ l, no_nl l = true ∧ last l ≠ Some c_cr) ls →
  (∀ l, last ls = Some l → l ≠ []) →
  lines (join [c_nl] ls) = ls.
Proof.
  intros Hls Hlast. destruct (decide (ls = [])) as [->|Hne]; [done|].
  unfold lines. rewrite split_char_join; [|done|eapply Forall_impl; [done|]; by intros l [? _]].
  clear Hne. induction Hls as [|l ls [_ Hl] Hls IH]; [done|].
  destruct ls as [|l' ls].
  - simpl. rewrite bool_decide_eq_false_2; [done|]. by apply Hlast.
  - change (strip_cr l :: lines_of_pieces (l' :: ls) = l :: l' :: ls).
    rewrite strip_cr_id, IH; naive_solver.
Qed.

(** ** Searching *)

(** [str::find] of a pattern: the least position it occurs at. *)
Fixpoint find (p s : str) : option nat :=
  if starts_with p s then Some 0
  else match s with
       | [] => None
       | _ :: s' => S <$> find p s'
       end.

Lemma find_Some p s n :
  find p s = Some n ↔
  p `prefix_of` drop n s ∧ n ≤ length s ∧ ∀ m, m < n → ¬ p `prefix_of` drop m s.
Proof.
  revert n. induction s as [|c s IH]; intros n; simpl.
  - destruct (starts_with p []) eqn:E.
    + apply starts_with_spec in E. split.
      * intros [= <-]. rewrite drop_0. split_and!; [done|simpl; lia|lia].
      * intros (_ & Hn & _). f_equal. simpl in Hn. lia.
    + apply starts_with_false in E. split; [done|]. intros (Hp & _ & _).
      rewrite drop_nil in Hp. done.
  - destruct (starts_with p (c :: s)) eqn:E.
    + apply starts_with_spec in E. split.
      * intros [= <-]. rewrite drop_0. split_and!; [done|lia|lia].
      * intros (_ & _ & Hm). f_equal. destruct n as [|n]; [done|].
        exfalso. apply (Hm 0); [lia|]. done.
    + apply starts_with_false in E. rewrite fmap_Some. split.
      * intros (n' & Hn' & ->). apply IH in Hn' as (H1 & H2 & H3).
        split_and!; [done|simpl; lia|]. intros [|m] Hm; [done|].
        apply H3. lia.
      * intros (H1 & H2 & H3). destruct n as [|n]; [done|].
        exists n. split; [|done]. apply IH. split_and!; [done|simpl in H2; lia|].
        intros m Hm. apply (H3 (S m)). lia.
Qed.

Lemma find_None p s : find p s = None ↔ ∀ m, m ≤ length s → ¬ p `prefix_of` drop m s.
Proof.
  induction s as [|c s IH]; simpl.
  - destruct (starts_with p []) eqn:E.
    + apply starts_with_spec in E. split; [done|]. intros Hm. exfalso.
      apply (Hm 0); [lia|done].
    + apply starts_with_false in E. split; [|done]. intros _ m _. by rewrite drop_nil.
  - destruct (starts_with p (c :: s)) eqn:E.
    + apply starts_with_spec in E. split; [done|]. intros Hm. exfalso.
      apply (Hm 0); [lia|done].
    + apply starts_with_false in E. rewrite fmap_None, IH. split.
      * intros Hm [|m] Hle; [done|]. apply Hm. lia.
      * intros Hm m Hle. apply (Hm (S m)). lia.
Qed.

Definition contains (p s : str) : bool :=
  match find p s with Some _ => true | None => false end.

(** [str::split_once]. *)
Definition split_once (c : char) (s : str) : option (str * str) :=
  match find [c] s with
  | Some n => Some (take n s, drop (S n) s)
  | None => None
  end.

(** [str::rsplit_once]. *)
Definition rsplit_once (c : char) (s : str) : option (str * str) :=
  match split_once c (reverse s) with
  | Some (b, a) => Some (reverse a, reverse b)
  | None => None
  end.

Definition count_char (c : char) (s : str) : nat := length (filter (λ d, d = c) s).

(** * What the searches and the trims of [RustStr] find *)

(** ** Searching for chars *)

Lemma contains_elem p s c : contains p s = true → c ∈ p → c ∈ s.
Proof.
  unfold contains. destruct (find p s) as [n|] eqn:Hf; [|done]. intros _ Hc.
  apply find_Some in Hf as ([more Hd] & _). apply (subseteq_drop n s). rewrite Hd. set_solver.
Qed.

Lemma contains_char c s : contains [c] s = true ↔ c ∈ s.
Proof.
  split; [intros Hc; eapply contains_elem; [done|set_solver]|].
  unfold contains. destruct (find [c] s) as [n|] eqn:Hf; [done|]. rewrite find_None in Hf.
  intros (l1 & l2 & ->)%list_elem_of_split. exfalso. apply (Hf (length l1)).
  - rewrite length_app. lia.
  - rewrite drop_app_length. by exists l2.
Qed.

Lemma contains_char_false c s : contains [c] s = false ↔ c ∉ s.
Proof. rewrite <- contains_char. destruct (contains [c] s); naive_solver. Qed.

Lemma split_once_Some c s a b :
  split_once c s = Some (a, b) ↔ s = a ++ c :: b ∧ c ∉ a.
Proof.
  unfold split_once. destruct (find [c] s) as [n|] eqn:Hf.
  - apply find_Some in Hf as ([more Hd] & Hn & Hmin). split.
    + intros [= <- <-].
      assert (drop (S n) s = more) as -> by (rewrite <- Nat.add_1_r, <- drop_drop, Hd; done).
      split; [by rewrite <- (take_drop n s) at 1; rewrite Hd|].
      intros (l1 & l2 & Hl)%list_elem_of_split. apply (Hmin (length l1)).
      * assert (length (take n s) = n) as Hlen by (rewrite length_take; lia).
        rewrite Hl, length_app in Hlen. simpl in Hlen. lia.
      * rewrite <- (take_drop n s), Hl, <- app_assoc, drop_app_length. by eexists.
    + intros [-> Hc]. assert (n = length a) as ->.
      { destruct (Nat.lt_trichotomy n (length a)) as [Hlt|[->|Hgt]]; [|done|].
        - exfalso. apply Hc. rewrite drop_app_le in Hd by lia.
          destruct (drop n a) as [|d l] eqn:Ha.
          + apply (f_equal length) in Ha. rewrite length_drop in Ha. simpl in Ha. lia.
          + injection Hd as -> _. apply (subseteq_drop n a). rewrite Ha. set_solver.
        - exfalso. apply (Hmin (length a) Hgt). rewrite drop_app_length. by eexists. }
      f_equal. f_equal; [by rewrite take_app_length|].
      by rewrite <- Nat.add_1_r, <- drop_drop, drop_app_length.
  - split; [done|]. intros [-> _]. rewrite find_None in Hf. exfalso. apply (Hf (length a)).
    + rewrite length_app. lia.
    + rewrite drop_app_length. by eexists.
Qed.

Lemma rsplit_once_Some c s a b :
  rsplit_once c s = Some (a, b) ↔ s = a ++ c :: b ∧ c ∉ b.
Proof.
  unfold rsplit_once. destruct (split_once c (reverse s)) as [[x y]|] eqn:Hs.
  - apply split_once_Some in Hs as [Hs Hc]. apply (f_equal reverse) in Hs.
    rewrite reverse_involutive, reverse_app, reverse_cons, <- app_assoc in Hs. simpl in Hs. split.
    + intros [= <- <-]. split; [done|]. by rewrite elem_of_reverse.
    + intros [Heq Hb]. assert (split_once c (reverse s) = Some (reverse b, reverse a)) as Hs2.
      { apply split_once_Some. split; [|by rewrite elem_of_reverse].
        by rewrite Heq, reverse_app, reverse_cons, <- app_assoc. }
      assert (split_once c (reverse s) = Some (x, y)) as Hs1.
      { apply split_once_Some. split; [|done]. rewrite Hs.
        by rewrite reverse_app, reverse_cons, !reverse_involutive, <- app_assoc. }
      rewrite Hs1 in Hs2. injection Hs2 as -> ->. by rewrite !reverse_involutive.
  - split; [done|]. intros [-> Hb].
    assert (split_once c (reverse (a ++ c :: b)) = Some (reverse b, reverse a)); [|congruence].
    apply split_once_Some. rewrite elem_of_reverse. by rewrite reverse_app, reverse_cons, <- app_assoc.
Qed.

(** ** Trimming a text without white space *)

Lemma trim_none s : Forall (λ c, is_whitespace c = false) s → trim s = s.
Proof.
  intros Hs. unfold trim, trim_start. destruct s as [|c s]; [done|].
  apply Forall_cons in Hs as Hc. destruct Hc as [Hc _].
  rewrite (drop_while_none _ _ c s) by done. clear Hc.
  destruct (c :: s) as [|d l _] using rev_ind; [done|]. apply Forall_app in Hs as [_ Hd].
  apply trim_end_snoc. by inversion_clear Hd.
Qed.

(** White space around a text that starts and ends with visible chars. *)
Lemma trim_around ws1 m ws2 c d :
  forallb is_whitespace ws1 = true → forallb is_whitespace ws2 = true →
  head m = Some c → is_whitespace c = false → last m = Some d → is_whitespace d = false →
  trim (ws1 ++ m ++ ws2) = m.
Proof.
  intros H1 H2 Hc Hcw Hd Hdw. unfold trim, trim_start. rewrite drop_while_app, H1.
  destruct m as [|c' m]; [done|]. injection Hc as ->.
  change ((c :: m) ++ ws2) with (c :: (m ++ ws2)). rewrite (drop_while_none _ _ c (m ++ ws2)) by done.
  rewrite app_comm_cons, trim_end_app. unfold trim_end at 1. rewrite drop_while_end_all by done.
  apply last_Some in Hd as [l ->]. by apply trim_end_snoc.
Qed.

(** ** Counting chars *)

Lemma count_char_app c s t : count_char c (s ++ t) = count_char c s + count_char c t.
Proof. unfold count_char. by rewrite filter_app, length_app. Qed.
Lemma count_char_none c s : c ∉ s → count_char c s = 0.
Proof.
  intros Hs. unfold count_char. apply length_zero_iff_nil. induction s as [|d s IH]; [done|].
  apply not_elem_of_cons in Hs as [Hd Hs]. rewrite filter_cons_False by congruence. auto.
Qed.
