(* ===== verification/PatchTypes.v ===== *)
(** * PatchTypes: the data of a parsed patch ([apply-patch/src/parser.rs])

    The markers, [ParseError], [Hunk] and [UpdateFileChunk], with the
    well-formedness invariant of the chunks a parser produces. *)
From S2P Require Import Prelude RustStr.

(** A [PathBuf] built from patch text is that text. *)
Abbreviation PathBuf := str (only parsing).

Definition BEGIN_PATCH_MARKER : str := lit "*** Begin Patch".
Definition END_PATCH_MARKER : str := lit "*** End Patch".
Definition ADD_FILE_MARKER : str := lit "*** Add File: ".
Definition DELETE_FILE_MARKER : str := lit "*** Delete File: ".
Definition UPDATE_FILE_MARKER : str := lit "*** Update File: ".
Definition MOVE_TO_MARKER : str := lit "*** Move to: ".
Definition EOF_MARKER : str := lit "*** End of File".
Definition CHANGE_CONTEXT_MARKER : str := lit "@@ ".
Definition EMPTY_CHANGE_CONTEXT_MARKER : str := lit "@@".


Inductive ParseError :=
| InvalidPatchError (message : str)
| InvalidHunkError (message : str) (line_number : nat).

#[export] Instance ParseError_eq_dec : EqDecision ParseError.
Proof. solve_decision. Defined.

Record UpdateFileChunk := mkChunk {
  change_context : option str;
  old_lines : list str;
  new_lines : list str;
  context_line_indices : list (nat * nat);
  is_end_of_file : bool;
}.

#[export] Instance UpdateFileChunk_eq_dec : EqDecision UpdateFileChunk.
Proof. solve_decision. Defined.

(** [UpdateFileChunk::default()]. *)
Definition default_chunk : UpdateFileChunk := mkChunk None [] [] [] false.

Inductive Hunk :=
| AddFile (path : PathBuf) (contents : str)
| DeleteFile (path : PathBuf)
| UpdateFile (path : PathBuf) (move_path : option PathBuf) (chunks : list UpdateFileChunk).

#[export] Instance Hunk_eq_dec : EqDecision Hunk.
Proof. solve_decision. Defined.

(** [Hunk::path]: the move destination for a rename. *)
Definition hunk_path (h : Hunk) : PathBuf :=
  match h with
  | AddFile path _ => path
  | DeleteFile path => path
  | UpdateFile _ (Some path) _ => path
  | UpdateFile path None _ => path
  end.

(** [UpdateFileChunk::push_context_line]. *)
Definition push_context_line (line : str) (c : UpdateFileChunk) : UpdateFileChunk :=
  mkChunk (change_context c)
    (old_lines c ++ [line])
    (new_lines c ++ [line])
    (context_line_indices c ++ [(length (old_lines c), length (new_lines c))])
    (is_end_of_file c).

Definition push_new_line (line : str) (c : UpdateFileChunk) : UpdateFileChunk :=
  mkChunk (change_context c) (old_lines c) (new_lines c ++ [line])
    (context_line_indices c) (is_end_of_file c).

Definition push_old_line (line : str) (c : UpdateFileChunk) : UpdateFileChunk :=
  mkChunk (change_context c) (old_lines c ++ [line]) (new_lines c)
    (context_line_indices c) (is_end_of_file c).

Definition mark_end_of_file (c : UpdateFileChunk) : UpdateFileChunk :=
  mkChunk (change_context c) (old_lines c) (new_lines c) (context_line_indices c) true.

(** The test "no line was read into this chunk yet". *)
Definition chunk_is_empty (c : UpdateFileChunk) : bool :=
  bool_decide (old_lines c = []) && bool_decide (new_lines c = []).

(** ** Well-formed chunks *)

(** The pairs of context indices increase on both sides, starting at or after
    [(o, n)], and name equal lines. *)
Fixpoint context_ok (o n : nat) (olds news : list str) (ctx : list (nat * nat)) : Prop :=
  match ctx with
  | [] => True
  | (i, j) :: ctx' =>
      o ≤ i ∧ n ≤ j ∧ (∃ line, olds !! i = Some line ∧ news !! j = Some line) ∧
      context_ok (S i) (S j) olds news ctx'
  end.

Definition chunk_ok (c : UpdateFileChunk) : Prop :=
  context_ok 0 0 (old_lines c) (new_lines c) (context_line_indices c).

Lemma context_ok_weaken o n olds news ctx olds' news' :
  context_ok o n olds news ctx → olds `prefix_of` olds' → news `prefix_of` news' →
  context_ok o n olds' news' ctx.
Proof.
  intros H [t1 ->] [t2 ->]. revert o n H.
  induction ctx as [|[i j] ctx IH]; intros o n; simpl; [done|].
  intros (Ho & Hn & (line & H1 & H2) & Hctx). split_and!; [done|done| |auto].
  exists line. split; by apply lookup_app_l_Some.
Qed.

Lemma context_ok_snoc o n olds news ctx line :
  context_ok o n olds news ctx → o ≤ length olds → n ≤ length news →
  context_ok o n (olds ++ [line]) (news ++ [line]) (ctx ++ [(length olds, length news)]).
Proof.
  revert o n. induction ctx as [|[i j] ctx IH]; intros o n; simpl.
  - intros _ Ho Hn. split_and!; [done|done| |done].
    exists line. rewrite !list_lookup_middle by done. done.
  - intros (Ho & Hn & (x & H1 & H2) & Hctx) _ _.
    pose proof (lookup_lt_Some _ _ _ H1). pose proof (lookup_lt_Some _ _ _ H2).
    split_and!; [done|done| |apply IH; [done|lia|lia]].
    exists x. by rewrite !lookup_app_l.
Qed.

Lemma default_chunk_ok : chunk_ok default_chunk.
Proof. done. Qed.

Lemma push_context_line_ok line c : chunk_ok c → chunk_ok (push_context_line line c).
Proof. intros H. apply context_ok_snoc; [done|lia|lia]. Qed.

Lemma push_new_line_ok line c : chunk_ok c → chunk_ok (push_new_line line c).
Proof. intros H. eapply context_ok_weaken; [done|done|by eexists]. Qed.

Lemma push_old_line_ok line c : chunk_ok c → chunk_ok (push_old_line line c).
Proof. intros H. eapply context_ok_weaken; [done|by eexists|done]. Qed.

Lemma mark_end_of_file_ok c : chunk_ok c → chunk_ok (mark_end_of_file c).
Proof. done. Qed.

Lemma chunk_is_empty_spec c :
  chunk_is_empty c = true ↔ old_lines c = [] ∧ new_lines c = [].
Proof. unfold chunk_is_empty. by rewrite andb_true_iff, !bool_decide_eq_true. Qed.

Lemma push_context_line_nonempty line c : chunk_is_empty (push_context_line line c) = false.
Proof.
  apply not_true_iff_false. rewrite chunk_is_empty_spec. simpl.
  intros [H _]. by apply app_nil in H as [].
Qed.
Lemma push_new_line_nonempty line c : chunk_is_empty (push_new_line line c) = false.
Proof.
  apply not_true_iff_false. rewrite chunk_is_empty_spec. simpl.
  intros [_ H]. by apply app_nil in H as [].
Qed.
Lemma push_old_line_nonempty line c : chunk_is_empty (push_old_line line c) = false.
Proof.
  apply not_true_iff_false. rewrite chunk_is_empty_spec. simpl.
  intros [H _]. by apply app_nil in H as [].
Qed.

#[export] Hint Resolve default_chunk_ok push_context_line_ok push_new_line_ok
  push_old_line_ok mark_end_of_file_ok : codex.
#[export] Hint Rewrite push_context_line_nonempty push_new_line_nonempty
  push_old_line_nonempty : codex.
