(* ===== verification/StreamingParser.v ===== *)
(** * StreamingParser: the incremental patch parser
    ([apply-patch/src/streaming_parser.rs])

    The parser is a state machine over complete lines.  Every method is a
    computation of the state-and-error monad: an error keeps the state reached. *)
From S2P Require Import Prelude RustStr PatchTypes.

Definition ENVIRONMENT_ID_MARKER : str := lit "*** Environment ID:".

Inductive StreamingParserMode :=
| NotStarted
| StartedPatch
| ModeAddFile
| ModeDeleteFile
| ModeUpdateFile (hunk_line_number : nat)
| EndedPatch.

#[export] Instance StreamingParserMode_eq_dec : EqDecision StreamingParserMode.
Proof. solve_decision. Defined.

Record StreamingParserState := mkState {
  mode : StreamingParserMode;
  hunks : list Hunk;
  environment_id : option str;
}.

Record StreamingPatchParser := mkParser {
  line_buffer : str;
  state : StreamingParserState;
  line_number : nat;
}.

Definition default_parser : StreamingPatchParser :=
  mkParser [] (mkState NotStarted [] None) 0.

Abbreviation Parse := (M StreamingPatchParser ParseError).

Definition set_mode (m : StreamingParserMode) (p : StreamingPatchParser) : StreamingPatchParser :=
  mkParser (line_buffer p) (mkState m (hunks (state p)) (environment_id (state p))) (line_number p).
Definition set_hunks (hs : list Hunk) (p : StreamingPatchParser) : StreamingPatchParser :=
  mkParser (line_buffer p) (mkState (mode (state p)) hs (environment_id (state p))) (line_number p).
Definition set_environment_id (e : option str) (p : StreamingPatchParser) : StreamingPatchParser :=
  mkParser (line_buffer p) (mkState (mode (state p)) (hunks (state p)) e) (line_number p).
Definition push_hunk (h : Hunk) (p : StreamingPatchParser) : StreamingPatchParser :=
  set_hunks (hunks (state p) ++ [h]) p.

(** [chunks.last().is_some_and(f)]. *)
Definition last_is (f : UpdateFileChunk → bool) (chunks : list UpdateFileChunk) : bool :=
  match last chunks with Some c => f c | None => false end.

(** [if let Some(chunk) = chunks.last_mut() { f }]. *)
Definition update_last (f : UpdateFileChunk → UpdateFileChunk)
    (chunks : list UpdateFileChunk) : list UpdateFileChunk :=
  match last chunks with Some c => set_last (f c) chunks | None => chunks end.

(** [if chunks.is_empty() { chunks.push(default) }]. *)
Definition ensure_chunk (chunks : list UpdateFileChunk) : list UpdateFileChunk :=
  match chunks with [] => [default_chunk] | _ => chunks end.

Definition msg_unexpected_line (line : str) : str :=
  lit "Unexpected line found in update hunk: '" ++ line ++
  lit "'. Every line should start with ' ' (context line), '+' (added line), or '-' (removed line)".
Definition msg_expected_context (line : str) : str :=
  lit "Expected update hunk to start with a @@ context marker, got: '" ++ line ++ lit "'".
Definition msg_invalid_header (trimmed : str) : str :=
  lit "'" ++ trimmed ++
  lit "' is not a valid hunk header. Valid hunk headers: '*** Add File: {path}', '*** Delete File: {path}', '*** Update File: {path}'".
Definition msg_no_lines : str := lit "Update hunk does not contain any lines".
Definition msg_empty_hunk (path : PathBuf) : str :=
  lit "Update file hunk for path '" ++ path ++ lit "' is empty".
Definition msg_last_line : str := lit "The last line of the patch must be '*** End Patch'".
Definition msg_first_line : str := lit "The first line of the patch must be '*** Begin Patch'".

Definition ensure_update_hunk_is_not_empty (line : str) : Parse unit := λ p,
  (p, match last (hunks (state p)) with
      | Some (UpdateFile path _ chunks) =>
          match chunks, mode (state p) with
          | [], ModeUpdateFile hunk_line_number =>
              Err (InvalidHunkError (msg_empty_hunk path) hunk_line_number)
          | _, _ =>
              if last_is chunk_is_empty chunks then
                if bool_decide (line = END_PATCH_MARKER)
                then Err (InvalidHunkError msg_no_lines (line_number p))
                else Err (InvalidHunkError (msg_unexpected_line line) (line_number p))
              else Ok tt
          end
      | _ => Ok tt
      end).

Definition handle_hunk_headers_and_end_patch (trimmed : str) : Parse bool :=
  p ← get;
  match mode (state p), strip_prefix ENVIRONMENT_ID_MARKER trimmed with
  | StartedPatch, Some id =>
      if environment_id (state p) is Some _
      then throw (InvalidPatchError
             (lit "apply_patch environment_id cannot be specified more than once"))
      else if bool_decide (trim id = [])
      then throw (InvalidPatchError (lit "apply_patch environment_id cannot be empty"))
      else modify (set_environment_id (Some (trim id)));; mret true
  | _, _ =>
      if bool_decide (trimmed = END_PATCH_MARKER) then
        ensure_update_hunk_is_not_empty trimmed;;
        modify (set_mode EndedPatch);; mret true
      else match strip_prefix ADD_FILE_MARKER trimmed with
      | Some path =>
          ensure_update_hunk_is_not_empty trimmed;;
          modify (push_hunk (AddFile path []));;
          modify (set_mode ModeAddFile);; mret true
      | None =>
      match strip_prefix DELETE_FILE_MARKER trimmed with
      | Some path =>
          ensure_update_hunk_is_not_empty trimmed;;
          modify (push_hunk (DeleteFile path));;
          modify (set_mode ModeDeleteFile);; mret true
      | None =>
      match strip_prefix UPDATE_FILE_MARKER trimmed with
      | Some path =>
          ensure_update_hunk_is_not_empty trimmed;;
          modify (push_hunk (UpdateFile path None []));;
          modify (set_mode (ModeUpdateFile (line_number p)));; mret true
      | None => mret false
      end end end
  end.

(** The body of the [UpdateFile] arm of [process_line] once the line is known
    not to be a header: the hunk's new move path and chunks, or the error.
    [update_line] is the line without its trailing whitespace, [n] the line's
    number. *)
Definition process_update_line (n : nat) (line update_line : str)
    (move_path : option PathBuf) (chunks : list UpdateFileChunk) :
    result ParseError (option PathBuf * list UpdateFileChunk) :=
  let is_context := bool_decide (update_line = EMPTY_CHANGE_CONTEXT_MARKER)
                    || starts_with CHANGE_CONTEXT_MARKER update_line in
  if last_is is_end_of_file chunks && bool_decide (update_line = [])
  then Ok (move_path, chunks)
  else if last_is is_end_of_file chunks && negb is_context
  then Err (InvalidHunkError (msg_expected_context line) n)
  else match chunks, move_path, strip_prefix MOVE_TO_MARKER update_line with
  | [], None, Some move_to_path => Ok (Some move_to_path, chunks)
  | _, _, _ =>
    if is_context && last_is chunk_is_empty chunks
    then Err (InvalidHunkError (msg_unexpected_line line) n)
    else if bool_decide (update_line = EMPTY_CHANGE_CONTEXT_MARKER)
    then Ok (move_path, chunks ++ [default_chunk])
    else match strip_prefix CHANGE_CONTEXT_MARKER update_line with
    | Some ctx => Ok (move_path, chunks ++ [mkChunk (Some ctx) [] [] [] false])
    | None =>
      if bool_decide (update_line = EOF_MARKER) then
        if last_is chunk_is_empty chunks
        then Err (InvalidHunkError msg_no_lines n)
        else Ok (move_path, update_last mark_end_of_file chunks)
      else if bool_decide (line = [])
      then Ok (move_path, update_last (push_context_line []) (ensure_chunk chunks))
      else match strip_prefix (lit " ") line with
      | Some l => Ok (move_path, update_last (push_context_line l) (ensure_chunk chunks))
      | None =>
      match strip_prefix (lit "+") line with
      | Some l => Ok (move_path, update_last (push_new_line l) (ensure_chunk chunks))
      | None =>
      match strip_prefix (lit "-") line with
      | Some l => Ok (move_path, update_last (push_old_line l) (ensure_chunk chunks))
      | None =>
        if last_is (λ c, negb (chunk_is_empty c)) chunks
        then Err (InvalidHunkError (msg_expected_context line) n)
        else Err (InvalidHunkError (msg_unexpected_line line) n)
      end end end
    end
  end.

Definition process_line (line : str) : Parse unit :=
  p ← get;
  let trimmed := trim line in
  match mode (state p) with
  | NotStarted =>
      if bool_decide (trimmed = BEGIN_PATCH_MARKER)
      then modify (set_mode StartedPatch)
      else throw (InvalidPatchError msg_first_line)
  | StartedPatch | ModeDeleteFile =>
      handled ← handle_hunk_headers_and_end_patch trimmed;
      if handled : bool then mret tt
      else throw (InvalidHunkError (msg_invalid_header trimmed) (line_number p))
  | ModeAddFile =>
      handled ← handle_hunk_headers_and_end_patch trimmed;
      if handled : bool then mret tt
      else match strip_prefix (lit "+") line, last (hunks (state p)) with
      | Some line_to_add, Some (AddFile path contents) =>
          modify (set_hunks (set_last (AddFile path (contents ++ line_to_add ++ [c_nl]))
                               (hunks (state p))))
      | _, _ => throw (InvalidHunkError (msg_invalid_header trimmed) (line_number p))
      end
  | ModeUpdateFile hunk_line_number =>
      let update_line := trim_end line in
      handled ← handle_hunk_headers_and_end_patch update_line;
      if handled : bool then mret tt
      else match last (hunks (state p)) with
      | Some (UpdateFile path move_path chunks) =>
          '(move_path', chunks') ←
            lift (process_update_line (line_number p) line update_line move_path chunks);
          modify (set_hunks (set_last (UpdateFile path move_path' chunks') (hunks (state p))));;
          modify (set_mode (ModeUpdateFile hunk_line_number))
      | _ => throw (InvalidHunkError (msg_unexpected_line line) (line_number p))
      end
  | EndedPatch =>
      if bool_decide (trimmed = []) then mret tt
      else throw (InvalidPatchError msg_last_line)
  end.

(** Take the buffered text as a complete line and number it. *)
Definition take_line_buffer (p : StreamingPatchParser) : StreamingPatchParser :=
  mkParser [] (state p) (S (line_number p)).

(** The body of the loop of [push_delta]. *)
Definition push_char (ch : char) : Parse unit :=
  p ← get;
  if (ch =? c_nl)%N then
    modify take_line_buffer;;
    process_line (strip_cr (line_buffer p))
  else put (mkParser (line_buffer p ++ [ch]) (state p) (line_number p)).

Definition push_delta (delta : str) : Parse (list Hunk) :=
  for_each push_char delta;;
  p ← get;
  mret (hunks (state p)).

Definition finish : Parse (list Hunk) :=
  p ← get;
  (if bool_decide (line_buffer p = []) then mret tt
   else
     modify take_line_buffer;;
     if bool_decide (trim (line_buffer p) = END_PATCH_MARKER)
     then ensure_update_hunk_is_not_empty (trim (line_buffer p));;
          modify (set_mode EndedPatch)
     else process_line (line_buffer p));;
  p' ← get;
  if bool_decide (mode (state p') = EndedPatch) then mret (hunks (state p'))
  else throw (InvalidPatchError msg_last_line).

(** * The invariant and the chunk independence of the
    streaming patch parser *)

(** ** The invariant *)

Definition chunk_complete (c : UpdateFileChunk) : Prop :=
  chunk_ok c ∧ chunk_is_empty c = false.

(** The chunks of an update hunk that is still being read: only the last one may
    have no line yet. *)
Inductive chunks_partial : list UpdateFileChunk → Prop :=
| chunks_partial_nil : chunks_partial []
| chunks_partial_snoc cs c :
    Forall chunk_complete cs → chunk_ok c → chunks_partial (cs ++ [c]).

Definition hunk_ok (h : Hunk) : Prop :=
  match h with
  | UpdateFile _ _ chunks => chunks ≠ [] ∧ Forall chunk_complete chunks
  | AddFile _ _ | DeleteFile _ => True
  end.

Definition state_wf (s : StreamingParserState) : Prop :=
  match mode s with
  | NotStarted | StartedPatch => hunks s = []
  | ModeAddFile =>
      ∃ hs path contents, hunks s = hs ++ [AddFile path contents] ∧ Forall hunk_ok hs
  | ModeUpdateFile _ =>
      ∃ hs path mv chunks, hunks s = hs ++ [UpdateFile path mv chunks] ∧
        Forall hunk_ok hs ∧ chunks_partial chunks
  | ModeDeleteFile | EndedPatch => Forall hunk_ok (hunks s)
  end.

Definition parser_wf (p : StreamingPatchParser) : Prop :=
  no_nl (line_buffer p) = true ∧ state_wf (state p).

Lemma default_parser_wf : parser_wf default_parser.
Proof. done. Qed.

Lemma last_is_nil f : last_is f [] = false.
Proof. done. Qed.
Lemma last_is_snoc f cs c : last_is f (cs ++ [c]) = f c.
Proof. unfold last_is. by rewrite last_snoc. Qed.
Lemma update_last_nil f : update_last f [] = [].
Proof. done. Qed.
Lemma update_last_snoc f cs c : update_last f (cs ++ [c]) = cs ++ [f c].
Proof. unfold update_last. by rewrite last_snoc, set_last_snoc. Qed.
#[export] Hint Rewrite @last_snoc last_is_nil last_is_snoc update_last_snoc : codex.

(** Replacing the chunk being read by one that keeps the chunk invariant. *)
Lemma update_last_partial f chunks :
  (∀ c, chunk_ok c → chunk_ok (f c)) →
  chunks_partial chunks → chunks_partial (update_last f chunks).
Proof.
  intros Hf [|cs c Hcs Hc]; [constructor|].
  rewrite update_last_snoc. constructor; auto.
Qed.

Lemma ensure_chunk_partial chunks : chunks_partial chunks → chunks_partial (ensure_chunk chunks).
Proof.
  intros H. destruct chunks; simpl; [|done].
  by apply (chunks_partial_snoc []); [constructor|].
Qed.

(** Opening a new chunk is sound when the previous one has a line. *)
Lemma chunks_partial_push chunks c :
  chunks_partial chunks → last_is chunk_is_empty chunks = false → chunk_ok c →
  chunks_partial (chunks ++ [c]).
Proof.
  intros [|cs c' Hcs Hc'] Hlast Hc; constructor; try done.
  rewrite last_is_snoc in Hlast. apply Forall_app. by repeat constructor.
Qed.

Lemma chunks_partial_complete chunks :
  chunks_partial chunks → last_is chunk_is_empty chunks = false →
  Forall chunk_complete chunks.
Proof.
  intros [|cs c Hcs Hc] Hlast; [constructor|]. rewrite last_is_snoc in Hlast.
  apply Forall_app. by repeat constructor.
Qed.

Lemma ensure_update_hunk_is_not_empty_spec line p p' r :
  ensure_update_hunk_is_not_empty line p = (p', r) → state_wf (state p) →
  p' = p ∧ (r = Ok tt → Forall hunk_ok (hunks (state p))).
Proof.
  unfold ensure_update_hunk_is_not_empty. intros [= <- <-] Hwf. split; [done|].
  unfold state_wf in Hwf.
  destruct (mode (state p)) eqn:Hm.
  - by rewrite Hwf.
  - by rewrite Hwf.
  - destruct Hwf as (hs & path & contents & -> & Hhs). intros _. apply Forall_app. by repeat constructor.
  - done.
  - destruct Hwf as (hs & path & mv & chunks & -> & Hhs & Hch). rewrite last_snoc.
    destruct chunks as [|c0 cs]; [done|].
    destruct (last_is chunk_is_empty (c0 :: cs)) eqn:Hl; [by case_match|].
    intros _. apply Forall_app. split; [done|]. constructor; [|done].
    split; [done|]. by apply chunks_partial_complete.
  - done.
Qed.

Ltac step_ensure :=
  match goal with
  | H : context [ensure_update_hunk_is_not_empty ?t ?p] |- _ =>
      let E := fresh "E" in
      destruct (ensure_update_hunk_is_not_empty t p) as [? [[]|?]] eqn:E;
      (apply ensure_update_hunk_is_not_empty_spec in E as [-> ?]; [|done])
  end.

Lemma handle_hunk_headers_and_end_patch_spec t p p' r :
  handle_hunk_headers_and_end_patch t p = (p', r) → state_wf (state p) →
  line_buffer p' = line_buffer p ∧ line_number p' = line_number p ∧
  state_wf (state p') ∧ (r = Ok false → p' = p).
Proof.
  unfold handle_hunk_headers_and_end_patch. m_unfold. intros H Hwf.
  assert (Hfin : ∀ h m, Forall hunk_ok (hunks (state p)) →
    (m = ModeDeleteFile ∧ hunk_ok h) ∨ (m = ModeAddFile ∧ ∃ a b, h = AddFile a b) ∨
    (∃ n, m = ModeUpdateFile n) ∧ (∃ a, h = UpdateFile a None []) →
    state_wf (state (set_mode m (push_hunk h p)))).
  { intros h m Hok [[-> Hh]|[[-> (a&b&->)]|[[n ->] [a ->]]]]; unfold state_wf; simpl.
    - apply Forall_app. by repeat constructor.
    - by eauto 10.
    - eexists _, _, _, _. split_and!; [done|done|constructor]. }
  repeat first [step_ensure | case_match]; simplify_eq/=; split_and!;
    try done; try (apply Hfin; naive_solver); unfold state_wf in *; simplify_eq/=; auto.
Qed.

(** ** What a body line does to the hunk being read

    The abstract step of the update hunk: skip a blank line after the end-of-file
    marker, record the move destination, open a chunk, mark the end of the file,
    or add one line to the last chunk. *)
Inductive update_step (mv : option PathBuf) (chunks : list UpdateFileChunk) :
    option PathBuf → list UpdateFileChunk → Prop :=
| step_skip : update_step mv chunks mv chunks
| step_move path : chunks = [] → mv = None → update_step mv chunks (Some path) chunks
| step_open ctx :
    last_is chunk_is_empty chunks = false →
    update_step mv chunks mv (chunks ++ [mkChunk ctx [] [] [] false])
| step_eof :
    last_is chunk_is_empty chunks = false →
    update_step mv chunks mv (update_last mark_end_of_file chunks)
| step_context line :
    update_step mv chunks mv (update_last (push_context_line line) (ensure_chunk chunks))
| step_add line :
    update_step mv chunks mv (update_last (push_new_line line) (ensure_chunk chunks))
| step_remove line :
    update_step mv chunks mv (update_last (push_old_line line) (ensure_chunk chunks)).

Lemma process_update_line_step n line ul mv chunks mv' chunks' :
  process_update_line n line ul mv chunks = Ok (mv', chunks') →
  update_step mv chunks mv' chunks'.
Proof.
  unfold process_update_line.
  set (is_context := bool_decide (ul = _) || _).
  assert (Hctx : is_context = bool_decide (ul = EMPTY_CHANGE_CONTEXT_MARKER)
                 || starts_with CHANGE_CONTEXT_MARKER ul) by done.
  clearbody is_context. unfold starts_with in Hctx.
  destruct (_ && bool_decide _); [intros; simplify_eq; constructor|].
  destruct (_ && negb _); [done|].
  set (body := if is_context && _ then _ else _).
  intros H. assert (body = Ok (mv', chunks') ∨ (chunks = [] ∧ mv = None ∧
    ∃ path, mv' = Some path ∧ chunks' = chunks)) as [Hb|(-> & -> & path & -> & ->)];
    [repeat case_match; naive_solver| |by constructor].
  clear H. subst body.
  destruct (is_context && last_is chunk_is_empty chunks) eqn:Hopen; [done|].
  repeat (case_match; simplify_eq/=; try constructor; try done);
    simplify_eq/=; try (by destruct (last_is chunk_is_empty chunks)).
  all: destruct (last_is _ _); [|done]; exfalso;
    by destruct is_context; destruct (bool_decide (ul = EMPTY_CHANGE_CONTEXT_MARKER)).
Qed.

Lemma update_step_partial mv chunks mv' chunks' :
  update_step mv chunks mv' chunks' → chunks_partial chunks → chunks_partial chunks'.
Proof.
  assert (Hup : ∀ f, (∀ c, chunk_ok c → chunk_ok (f c)) → chunks_partial chunks →
    chunks_partial (update_last f (ensure_chunk chunks)))
    by by intros f Hf Hc; apply update_last_partial, ensure_chunk_partial.
  intros [] Hc; auto with codex.
  - by apply chunks_partial_push.
  - by apply update_last_partial.
Qed.

(** ** The invariant is kept by every operation *)

Lemma process_line_wf line p p' r :
  process_line line p = (p', r) → state_wf (state p) →
  line_buffer p' = line_buffer p ∧ line_number p' = line_number p ∧ state_wf (state p').
Proof.
  unfold process_line. m_unfold. intros H Hwf.
  destruct (mode (state p)) eqn:Hm.
  - case_match; simplify_eq/=; split_and!; try done.
    unfold state_wf in *. by rewrite Hm in Hwf.
  - case_match eqn:E. apply handle_hunk_headers_and_end_patch_spec in E; [|done].
    repeat case_match; naive_solver.
  - case_match eqn:E. apply handle_hunk_headers_and_end_patch_spec in E as (?&?&?&Hsame); [|done].
    repeat case_match; simplify_eq/=; try done.
    rewrite Hsame in * by done. split_and!; try done.
    unfold state_wf in *. simpl. rewrite Hm in *. destruct Hwf as (hs & path' & c' & Hhs & ?).
    rewrite Hhs in *. rewrite last_snoc in *. simplify_eq. rewrite set_last_snoc. eauto.
  - case_match eqn:E. apply handle_hunk_headers_and_end_patch_spec in E; [|done].
    repeat case_match; naive_solver.
  - case_match eqn:E. apply handle_hunk_headers_and_end_patch_spec in E as (?&?&?&Hsame); [|done].
    repeat case_match; simplify_eq/=; try done.
    rewrite Hsame in * by done. split_and!; try done.
    unfold state_wf in *. simpl. rewrite Hm in *.
    destruct Hwf as (hs & path' & mv' & c' & Hhs & ? & ?).
    rewrite Hhs in *. rewrite last_snoc in *. simplify_eq. rewrite set_last_snoc.
    eexists _, _, _, _. split_and!; [done|done|].
    eapply update_step_partial; [|done]. by eapply process_update_line_step.
  - repeat case_match; by simplify_eq/=.
Qed.

Lemma push_char_wf ch p p' r :
  push_char ch p = (p', r) → parser_wf p → parser_wf p'.
Proof.
  unfold push_char. m_unfold. intros H [Hb Hs]. destruct (ch =? c_nl)%N eqn:Hc.
  - apply process_line_wf in H as (Hl & _ & ?); [|done]. split; [|done].
    by rewrite Hl.
  - simplify_eq/=. split; [|done]. simpl. rewrite no_nl_app, Hb. simpl.
    unfold is_char. by rewrite Hc.
Qed.

Lemma for_each_wf {A} (f : A → Parse ()) l p p' r :
  (∀ x p p' r, f x p = (p', r) → parser_wf p → parser_wf p') →
  for_each f l p = (p', r) → parser_wf p → parser_wf p'.
Proof.
  intros Hf. revert p. induction l as [|x l IH]; intros p; simpl; m_unfold.
  - by intros [= <- <-].
  - destruct (f x p) as [p1 [[]|e]] eqn:E; [|intros [= <- <-]]; eauto.
Qed.

Lemma push_delta_wf delta p p' r :
  push_delta delta p = (p', r) → parser_wf p → parser_wf p'.
Proof.
  unfold push_delta. m_unfold. intros H Hwf.
  destruct (for_each push_char delta p) as [p1 [[]|e]] eqn:E; simplify_eq;
    (eapply for_each_wf; [apply push_char_wf|done..]).
Qed.

Lemma finish_hunks_ok p p' hs :
  finish p = (p', Ok hs) → parser_wf p → hunks (state p') = hs ∧ Forall hunk_ok hs.
Proof.
  unfold finish. m_unfold. intros H [_ Hs].
  assert (Hend : ∀ q, state_wf (state q) → mode (state q) = EndedPatch →
    Forall hunk_ok (hunks (state q))).
  { intros q Hq Hm. unfold state_wf in Hq. by rewrite Hm in Hq. }
  destruct (bool_decide (line_buffer p = [])).
  - case_match; bool_hyps; naive_solver.
  - destruct (bool_decide (trim (line_buffer p) = _)).
    + step_ensure; simplify_eq/=. auto.
    + destruct (process_line _ _) as [p1 [[]|e]] eqn:E; [|done].
      apply process_line_wf in E as (_ & _ & ?); [|done].
      case_match; bool_hyps; naive_solver.
Qed.

Lemma push_delta_app d1 d2 p :
  push_delta (d1 ++ d2) p = (push_delta d1 ≫= λ _, push_delta d2) p.
Proof.
  unfold push_delta. rewrite M_bind_assoc. m_unfold. rewrite for_each_app. m_unfold.
  by destruct (for_each push_char d1 p) as [p1 [[]|e]].
Qed.
