(* ===== verification/PatchParser.v ===== *)
(** * PatchParser: patch boundaries and [parse_patch] ([apply-patch/src/parser.rs])

    The text is split into lines, the begin and end markers are checked (in
    lenient mode around a heredoc wrapper too), and the lines are fed to the
    streaming parser. *)
From S2P Require Import Prelude RustStr PatchTypes StreamingParser.

Record ApplyPatchArgs := mkArgs {
  args_patch : str;
  args_hunks : list Hunk;
  args_workdir : option str;
  args_environment_id : option str;
}.

#[export] Instance ApplyPatchArgs_eq_dec : EqDecision ApplyPatchArgs.
Proof. solve_decision. Defined.

Definition PARSE_IN_STRICT_MODE : bool := false.

Inductive ParseMode := Strict | Lenient.

Definition check_start_and_end_lines_strict (first_line last_line : option str) :
    result ParseError unit :=
  let first_line := trim <$> first_line in
  let last_line := trim <$> last_line in
  match first_line with
  | Some first =>
      if negb (bool_decide (first = BEGIN_PATCH_MARKER))
      then Err (InvalidPatchError msg_first_line)
      else match last_line with
           | Some last =>
               if bool_decide (last = END_PATCH_MARKER) then Ok tt
               else Err (InvalidPatchError msg_last_line)
           | None => Err (InvalidPatchError msg_last_line)
           end
  | None => Err (InvalidPatchError msg_last_line)
  end.

Definition check_patch_boundaries_strict (ls : list str) : result ParseError (list str) :=
  check_start_and_end_lines_strict (head ls) (last ls) ≫= λ _, mret ls.

(** The three spellings of the heredoc's first line. *)
Definition is_heredoc_start (first : str) : bool :=
  bool_decide (first = lit "<<EOF") || bool_decide (first = lit "<<'EOF'")
  || bool_decide (first = lit "<<" ++ [34%N] ++ lit "EOF" ++ [34%N]).

Definition check_patch_boundaries_lenient (original_lines : list str) :
    result ParseError (list str) :=
  match check_patch_boundaries_strict original_lines with
  | Ok ls => Ok ls
  | Err original_parse_error =>
      match original_lines with
      | first :: (_ :: _) as rest =>
          match last rest with
          | Some last_line =>
              if is_heredoc_start first && ends_with (lit "EOF") last_line
                 && (4 <=? length original_lines)
              then check_patch_boundaries_strict
                     (take (length original_lines - 2) (drop 1 original_lines))
              else Err original_parse_error
          | None => Err original_parse_error
          end
      | _ => Err original_parse_error
      end
  end.

(** The streaming parser run over a complete text, with the environment id it
    has read. *)
Definition run_parser : Parse (list Hunk * option str) :=
  hs ← finish;
  p ← get;
  mret (hs, environment_id (state p)).

Definition parse_patch_text (patch : str) (md : ParseMode) : result ParseError ApplyPatchArgs :=
  let ls := lines (trim patch) in
  patch_lines ← (match md with
                 | Strict => check_patch_boundaries_strict ls
                 | Lenient => check_patch_boundaries_lenient ls
                 end);
  let patch := join [c_nl] patch_lines in
  '(hs, env) ← snd ((push_delta patch ≫= λ _, run_parser) default_parser);
  mret (mkArgs patch hs None env).

Definition parse_patch (patch : str) : result ParseError ApplyPatchArgs :=
  let md := if PARSE_IN_STRICT_MODE then Strict else Lenient in
  parse_patch_text patch md.
