(* ===== verification/PatchGrammar.v ===== *)
(** * PatchGrammar: the documented patch grammar and its meaning

    The abstract syntax of the grammar in the module comment of
    [apply-patch/src/parser.rs], the text of a syntax tree and the hunks it
    denotes; the parser reads every well-formed text back to its meaning. *)
From S2P Require Import Prelude RustStr PatchTypes StreamingParser PatchParser.

Inductive diff_line :=
| Context (l : str)
| Added (l : str)
| Removed (l : str).

(** A [change]: its [@@] header ([None] when it is left out, which only the first
    change of a hunk may do), its lines, and the end-of-file marker. *)
Record change := mkChange {
  header : option (option str);
  body : list diff_line;
  at_eof : bool;
}.

Inductive hunk_syntax :=
| SAdd (path : str) (ls : list str)
| SDelete (path : str)
| SUpdate (path : str) (move_to : option str) (changes : list change).

Record patch_syntax := mkPatch {
  env_id : option str;
  body_hunks : list hunk_syntax;
}.

(** ** Text *)

Definition text_of_line (d : diff_line) : str :=
  match d with
  | Context l => lit " " ++ l
  | Added l => lit "+" ++ l
  | Removed l => lit "-" ++ l
  end.

Definition text_of_header (h : option (option str)) : list str :=
  match h with
  | None => []
  | Some None => [EMPTY_CHANGE_CONTEXT_MARKER]
  | Some (Some ctx) => [CHANGE_CONTEXT_MARKER ++ ctx]
  end.

Definition text_of_change (c : change) : list str :=
  text_of_header (header c) ++ map text_of_line (body c)
  ++ (if at_eof c then [EOF_MARKER] else []).

Definition text_of_hunk (h : hunk_syntax) : list str :=
  match h with
  | SAdd path ls => (ADD_FILE_MARKER ++ path) :: map (λ l, lit "+" ++ l) ls
  | SDelete path => [DELETE_FILE_MARKER ++ path]
  | SUpdate path mv changes =>
      (UPDATE_FILE_MARKER ++ path)
      :: match mv with None => [] | Some to => [MOVE_TO_MARKER ++ to] end
      ++ flat_map text_of_change changes
  end.

Definition body_lines (p : patch_syntax) : list str :=
  BEGIN_PATCH_MARKER
  :: match env_id p with None => [] | Some e => [ENVIRONMENT_ID_MARKER ++ lit " " ++ e] end
  ++ flat_map text_of_hunk (body_hunks p).

Definition patch_lines (p : patch_syntax) : list str := body_lines p ++ [END_PATCH_MARKER].

Definition patch_text (p : patch_syntax) : str := join [c_nl] (patch_lines p).

(** ** Meaning *)

Definition add_diff_line (c : UpdateFileChunk) (d : diff_line) : UpdateFileChunk :=
  match d with
  | Context l => push_context_line l c
  | Added l => push_new_line l c
  | Removed l => push_old_line l c
  end.

Definition chunk_of_change (c : change) : UpdateFileChunk :=
  let chunk := foldl add_diff_line
                 (mkChunk (default None (header c)) [] [] [] false) (body c) in
  if at_eof c then mark_end_of_file chunk else chunk.

Definition hunk_of_syntax (h : hunk_syntax) : Hunk :=
  match h with
  | SAdd path ls => AddFile path (flat_map (λ l, l ++ [c_nl]) ls)
  | SDelete path => DeleteFile path
  | SUpdate path mv changes => UpdateFile path mv (map chunk_of_change changes)
  end.

(** ** Well-formed syntax *)

(** A line of a file: no line feed, and no carriage return at its end. *)
Definition line_ok (l : str) : Prop := no_nl l = true ∧ last l ≠ Some c_cr.

(** A file name or context: one line, not blank, with no trailing whitespace. *)
Definition name_ok (l : str) : Prop := no_nl l = true ∧ l ≠ [] ∧ trim_end l = l.

Definition diff_line_ok (d : diff_line) : Prop :=
  match d with Context l | Added l | Removed l => line_ok l end.

Definition change_ok (c : change) : Prop :=
  match header c with Some (Some ctx) => name_ok ctx | _ => True end ∧
  body c ≠ [] ∧ Forall diff_line_ok (body c).

Definition hunk_syntax_ok (h : hunk_syntax) : Prop :=
  match h with
  | SAdd path ls => name_ok path ∧ Forall line_ok ls
  | SDelete path => name_ok path
  | SUpdate path mv changes =>
      name_ok path ∧ match mv with Some to => name_ok to | None => True end ∧
      changes ≠ [] ∧ Forall change_ok changes ∧
      Forall (λ c, header c ≠ None) (tail changes)
  end.

Definition patch_syntax_ok (p : patch_syntax) : Prop :=
  match env_id p with Some e => no_nl e = true ∧ e ≠ [] ∧ trim e = e | None => True end ∧
  Forall hunk_syntax_ok (body_hunks p).

(** ** Reading lines *)

(** [process_line] after the line counter moved, for each line in turn. *)
Definition read_line (l : str) : Parse unit :=
  modify take_line_buffer;; process_line l.

Lemma read_line_eq l p : read_line l p = process_line l (take_line_buffer p).
Proof. done. Qed.

Lemma push_char_other c p :
  is_char c_nl c = false →
  push_char c p = (mkParser (line_buffer p ++ [c]) (state p) (line_number p), Ok tt).
Proof. unfold push_char, is_char. m_unfold. by intros ->. Qed.

Lemma push_char_nl p :
  push_char c_nl p = read_line (strip_cr (line_buffer p)) p.
Proof. done. Qed.

Lemma push_chars_no_nl l p :
  no_nl l = true →
  for_each push_char l p = (mkParser (line_buffer p ++ l) (state p) (line_number p), Ok tt).
Proof.
  revert p. induction l as [|c l IH]; intros p; simpl.
  - intros _. rewrite app_nil_r. by destruct p.
  - intros [Hc%negb_true_iff Hl]%andb_true_iff. m_unfold.
    rewrite push_char_other, IH by done. simpl. by rewrite <- app_assoc.
Qed.

Lemma push_line l p :
  line_ok l → line_buffer p = [] →
  for_each push_char (l ++ [c_nl]) p = read_line l p.
Proof.
  intros [Hl Hcr] Hb. rewrite for_each_app. m_unfold. rewrite push_chars_no_nl by done.
  simpl. m_unfold. rewrite push_char_nl. simpl. rewrite Hb. simpl. rewrite strip_cr_id by done.
  unfold read_line. m_unfold. unfold take_line_buffer. simpl.
  by destruct (process_line _ _) as [? [[]|?]].
Qed.

Lemma process_line_buffer l p p' r :
  process_line l p = (p', r) → state_wf (state p) → line_buffer p' = line_buffer p.
Proof. intros H Hwf. by apply process_line_wf in H as [? _]. Qed.

(** Complete lines, each ended by a line feed, are read one by one. *)
Lemma push_lines ls p :
  Forall line_ok ls → line_buffer p = [] → state_wf (state p) →
  for_each push_char (flat_map (λ l, l ++ [c_nl]) ls) p = for_each read_line ls p.
Proof.
  intros Hls. revert p. induction Hls as [|l ls Hl Hls IH]; intros p Hb Hwf; [done|].
  cbn [flat_map for_each]. rewrite for_each_app. m_unfold. rewrite push_line by done.
  destruct (read_line l p) as [p1 [[]|e]] eqn:E; [|done].
  unfold read_line in E. m_unfold. apply process_line_wf in E as (Hb' & _ & ?); [|done].
  by apply IH.
Qed.

(** ** Lines that are not headers *)

Definition c_star : char := 42%N.

(** Every header starts with [*]. *)
Lemma handle_not_header t p :
  head t ≠ Some c_star → handle_hunk_headers_and_end_patch t p = (p, Ok false).
Proof.
  intros Ht. unfold handle_hunk_headers_and_end_patch. m_unfold.
  assert (∀ m l, strip_prefix (c_star :: m) t = Some l → False) as Hno.
  { intros m l Hs%strip_prefix_Some. by subst t. }
  assert (∀ m, strip_prefix (c_star :: m) t = None) as Hnone.
  { intros m. destruct (strip_prefix (c_star :: m) t) eqn:E; [|done]. by apply Hno in E. }
  rewrite (Hnone (tail ENVIRONMENT_ID_MARKER) : strip_prefix ENVIRONMENT_ID_MARKER t = None).
  rewrite (Hnone (tail ADD_FILE_MARKER) : strip_prefix ADD_FILE_MARKER t = None).
  rewrite (Hnone (tail DELETE_FILE_MARKER) : strip_prefix DELETE_FILE_MARKER t = None).
  rewrite (Hnone (tail UPDATE_FILE_MARKER) : strip_prefix UPDATE_FILE_MARKER t = None).
  rewrite bool_decide_eq_false_2 by by intros ->.
  by destruct (mode (state p)).
Qed.

(** ** Headers *)

(** A header may follow: the patch has started and the hunk read before, if it is
    an update, has a line in its last chunk. *)
Definition accepting (s : StreamingParserState) : Prop :=
  mode s ≠ NotStarted ∧ mode s ≠ EndedPatch ∧
  match last (hunks s) with
  | Some (UpdateFile _ _ chunks) => chunks ≠ [] ∧ last_is chunk_is_empty chunks = false
  | _ => True
  end.

Lemma ensure_accepting t p :
  accepting (state p) → ensure_update_hunk_is_not_empty t p = (p, Ok tt).
Proof.
  intros (_ & _ & H). unfold ensure_update_hunk_is_not_empty.
  destruct (last (hunks (state p))) as [[]|]; try done. destruct H as [Hne ->].
  by destruct chunks.
Qed.

(** A header line has no surrounding whitespace, so every mode sees it whole. *)
Lemma process_header h p p' :
  trim h = h → mode (state p) ≠ NotStarted → mode (state p) ≠ EndedPatch →
  handle_hunk_headers_and_end_patch h p = (p', Ok true) →
  process_line h p = (p', Ok tt).
Proof.
  intros Ht Hn He Hh. unfold process_line. m_unfold.
  assert (trim_end h = h) as Hte by by rewrite <- Ht, trim_end_trim.
  rewrite Ht, Hte. destruct (mode (state p)); try done; by rewrite Hh.
Qed.

Lemma name_ok_trim_end m l : name_ok l → trim_end (m ++ l) = m ++ l.
Proof. intros (_ & Hne & Hl). rewrite trim_end_app, Hl. by destruct l. Qed.

Lemma name_ok_trim m l :
  name_ok l → trim (c_star :: m ++ l) = c_star :: m ++ l.
Proof. intros Hl. rewrite trim_cons by done. by rewrite name_ok_trim_end. Qed.

Section headers.
Context (p : StreamingPatchParser) (Hacc : accepting (state p)).

Let opened (m : StreamingParserMode) (h : Hunk) : StreamingPatchParser :=
  mkParser [] (mkState m (hunks (state p) ++ [h]) (environment_id (state p)))
    (S (line_number p)).

Lemma read_header h m hk :
  trim h = h →
  handle_hunk_headers_and_end_patch h (take_line_buffer p) = (opened m hk, Ok true) →
  read_line h p = (opened m hk, Ok tt).
Proof.
  intros Ht Hh. unfold read_line. m_unfold. destruct Hacc as (? & ? & _).
  by apply process_header.
Qed.

(** A marker is recognised once the markers tested before it are ruled out. *)
Ltac solve_header :=
  apply read_header; [by apply name_ok_trim|];
  unfold handle_hunk_headers_and_end_patch; m_unfold;
  change (mode (state (take_line_buffer p))) with (mode (state p));
  rewrite (strip_prefix_differ ENVIRONMENT_ID_MARKER) by done;
  rewrite bool_decide_eq_false_2 by (by apply differ_ne);
  rewrite ?(strip_prefix_differ ADD_FILE_MARKER) by done;
  rewrite ?(strip_prefix_differ DELETE_FILE_MARKER) by done;
  rewrite strip_prefix_app; destruct (mode (state p)); cbn beta iota;
  by rewrite ensure_accepting by done.

Lemma read_add path :
  name_ok path →
  read_line (ADD_FILE_MARKER ++ path) p = (opened ModeAddFile (AddFile path []), Ok tt).
Proof. intros Hpath. solve_header. Qed.

Lemma read_delete path :
  name_ok path →
  read_line (DELETE_FILE_MARKER ++ path) p = (opened ModeDeleteFile (DeleteFile path), Ok tt).
Proof. intros Hpath. solve_header. Qed.

Lemma read_update path :
  name_ok path →
  read_line (UPDATE_FILE_MARKER ++ path) p =
    (opened (ModeUpdateFile (S (line_number p))) (UpdateFile path None []), Ok tt).
Proof. intros Hpath. solve_header. Qed.
End headers.

(** ** The lines of an added file *)

Definition adding (n : nat) (hs : list Hunk) (path contents : str) (env : option str) :=
  mkParser [] (mkState ModeAddFile (hs ++ [AddFile path contents]) env) n.

Lemma read_added_line n hs path contents env l :
  read_line (lit "+" ++ l) (adding n hs path contents env) =
  (adding (S n) hs path (contents ++ l ++ [c_nl]) env, Ok tt).
Proof.
  unfold read_line, process_line. m_unfold. cbn [state mode adding take_line_buffer].
  change (lit "+" ++ l) with (43%N :: l). rewrite trim_cons by done.
  rewrite handle_not_header by done. cbn [hunks]. rewrite last_snoc.
  change (strip_prefix (lit "+") (43%N :: l)) with (Some l).
  unfold set_hunks. cbn. rewrite set_last_snoc. done.
Qed.

Lemma read_added_lines n hs path contents env ls :
  for_each read_line (map (λ l, lit "+" ++ l) ls) (adding n hs path contents env) =
  (adding (length ls + n) hs path (contents ++ flat_map (λ l, l ++ [c_nl]) ls) env, Ok tt).
Proof.
  revert n contents. induction ls as [|l ls IH]; intros n contents.
  - simpl. by rewrite app_nil_r.
  - cbn [map for_each flat_map length]. m_unfold. rewrite read_added_line, IH.
    rewrite <- !app_assoc. by rewrite Nat.add_succ_r.
Qed.

(** ** The lines of an update *)

Definition updating (n0 n : nat) (hs : list Hunk) (path : PathBuf) (mv : option PathBuf)
    (chunks : list UpdateFileChunk) (env : option str) :=
  mkParser [] (mkState (ModeUpdateFile n0) (hs ++ [UpdateFile path mv chunks]) env) n.

Section update.
Context (n0 : nat) (hs : list Hunk) (path : PathBuf) (env : option str).
Implicit Types (n : nat) (mv : option PathBuf) (chunks : list UpdateFileChunk).

(** A body line that is no header is given to [process_update_line]. *)
Lemma read_body_line n mv chunks l mv' chunks' :
  handle_hunk_headers_and_end_patch (trim_end l)
    (updating n0 (S n) hs path mv chunks env) =
    (updating n0 (S n) hs path mv chunks env, Ok false) →
  process_update_line (S n) l (trim_end l) mv chunks = Ok (mv', chunks') →
  read_line l (updating n0 n hs path mv chunks env) =
    (updating n0 (S n) hs path mv' chunks' env, Ok tt).
Proof.
  intros Hh Hp. rewrite read_line_eq.
  change (take_line_buffer _) with (updating n0 (S n) hs path mv chunks env).
  unfold process_line. m_unfold.
  change (mode (state (updating _ _ _ _ _ _ _))) with (ModeUpdateFile n0). cbn beta iota.
  rewrite Hh. cbn [updating state hunks]. rewrite last_snoc. cbn. rewrite Hp.
  unfold set_mode, set_hunks. cbn. by rewrite set_last_snoc.
Qed.

Lemma handle_body_line n mv chunks c l :
  is_whitespace c = false → c ≠ c_star →
  handle_hunk_headers_and_end_patch (trim_end (c :: l)) (updating n0 n hs path mv chunks env)
    = (updating n0 n hs path mv chunks env, Ok false).
Proof.
  intros Hc Hstar. rewrite trim_end_cons by done. apply handle_not_header. naive_solver.
Qed.

Lemma trim_end_space_head l : head (trim_end (c_space :: l)) ≠ Some c_star.
Proof.
  unfold trim_end. simpl. destruct (drop_while_end _ l); naive_solver.
Qed.

Lemma last_is_ensure f chunks cs c :
  ensure_chunk chunks = cs ++ [c] → f default_chunk = false →
  f c = false → last_is f chunks = false.
Proof.
  destruct chunks as [|c0 chunks]; simpl; [done|]. intros -> _. by rewrite last_is_snoc.
Qed.

Lemma read_diff_line n mv chunks cs c d :
  ensure_chunk chunks = cs ++ [c] → is_end_of_file c = false →
  read_line (text_of_line d) (updating n0 n hs path mv chunks env) =
    (updating n0 (S n) hs path mv (cs ++ [add_diff_line c d]) env, Ok tt).
Proof.
  intros Hens Heof.
  assert (last_is is_end_of_file chunks = false) as Hl by by eapply last_is_ensure.
  assert (∀ f, update_last f (ensure_chunk chunks) = cs ++ [f c]) as Hup
    by (intros f; by rewrite Hens, update_last_snoc).
  destruct d as [l|l|l]; cbn [text_of_line add_diff_line].
  - change (lit " " ++ l) with (c_space :: l).
    apply read_body_line; [apply handle_not_header, trim_end_space_head|].
    pose proof (trim_end_space_head l) as Hhead.
    unfold process_update_line. rewrite Hl. cbn [andb].
    rewrite <- (Hup (push_context_line l)).
    assert (trim_end (c_space :: l) = [] ∨ ∃ t, trim_end (c_space :: l) = c_space :: t)
      as [->|[t ->]].
    { unfold trim_end. simpl. destruct (drop_while_end _ l); eauto. }
    + by destruct chunks, mv.
    + by destruct chunks, mv.
  - change (lit "+" ++ l) with (43%N :: l).
    apply read_body_line; [by apply handle_body_line|]. rewrite trim_end_cons by done.
    unfold process_update_line. rewrite Hl. cbn [andb].
    rewrite <- (Hup (push_new_line l)). by destruct chunks, mv.
  - change (lit "-" ++ l) with (45%N :: l).
    apply read_body_line; [by apply handle_body_line|]. rewrite trim_end_cons by done.
    unfold process_update_line. rewrite Hl. cbn [andb].
    rewrite <- (Hup (push_old_line l)). by destruct chunks, mv.
Qed.

Lemma add_diff_line_eof c d : is_end_of_file (add_diff_line c d) = is_end_of_file c.
Proof. by destruct d. Qed.

Lemma read_body n mv chunks cs c ds :
  ds ≠ [] → ensure_chunk chunks = cs ++ [c] → is_end_of_file c = false →
  for_each read_line (map text_of_line ds) (updating n0 n hs path mv chunks env) =
    (updating n0 (length ds + n) hs path mv (cs ++ [foldl add_diff_line c ds]) env, Ok tt).
Proof.
  intros Hne. revert n chunks c Hne.
  induction ds as [|d ds IH]; intros n chunks c Hne Hens Heof; [done|].
  cbn [map for_each length foldl]. m_unfold. rewrite (read_diff_line _ _ _ cs c) by done.
  destruct ds as [|d' ds']; [done|].
  rewrite (IH _ _ (add_diff_line c d)); [by rewrite Nat.add_succ_r|done| |].
  - by destruct cs.
  - by rewrite add_diff_line_eof.
Qed.

Lemma foldl_add_nonempty c ds :
  ds ≠ [] ∨ chunk_is_empty c = false → chunk_is_empty (foldl add_diff_line c ds) = false.
Proof.
  revert c. induction ds as [|d ds IH]; intros c H; simpl; [naive_solver|].
  apply IH. right. destruct d; simpl; auto using push_context_line_nonempty,
    push_new_line_nonempty, push_old_line_nonempty.
Qed.

(** A line of the update grammar that starts with [*] or [@] but is no header. *)
Lemma handle_marker n mv chunks t :
  mode (state (updating n0 n hs path mv chunks env)) ≠ StartedPatch →
  t ≠ END_PATCH_MARKER → strip_prefix ADD_FILE_MARKER t = None →
  strip_prefix DELETE_FILE_MARKER t = None → strip_prefix UPDATE_FILE_MARKER t = None →
  handle_hunk_headers_and_end_patch t (updating n0 n hs path mv chunks env) =
    (updating n0 n hs path mv chunks env, Ok false).
Proof.
  intros _ He Ha Hd Hu. unfold handle_hunk_headers_and_end_patch. m_unfold.
  change (mode (state (updating _ _ _ _ _ _ _))) with (ModeUpdateFile n0). cbn beta iota.
  by rewrite bool_decide_eq_false_2, Ha, Hd, Hu by done.
Qed.

Lemma read_move n to :
  name_ok to →
  read_line (MOVE_TO_MARKER ++ to) (updating n0 n hs path None [] env) =
    (updating n0 (S n) hs path (Some to) [] env, Ok tt).
Proof.
  intros Hto. apply read_body_line; rewrite name_ok_trim_end by done.
  - apply handle_marker; [done|by apply differ_ne|..]; by apply strip_prefix_differ.
  - unfold process_update_line. by rewrite strip_prefix_app.
Qed.

Lemma read_change_header n mv chunks h :
  match h with Some (Some ctx) => name_ok ctx | _ => True end →
  h ≠ None ∨ chunks = [] → last_is chunk_is_empty chunks = false →
  ∃ chunks', ensure_chunk chunks' = chunks ++ [mkChunk (default None h) [] [] [] false] ∧
  for_each read_line (text_of_header h) (updating n0 n hs path mv chunks env) =
    (updating n0 (length (text_of_header h) + n) hs path mv chunks' env, Ok tt).
Proof.
  intros Hh Hne Hl. destruct h as [[ctx|]|]; [| |].
  - exists (chunks ++ [mkChunk (Some ctx) [] [] [] false]). split; [by destruct chunks|].
    cbn [text_of_header for_each length Nat.add]. m_unfold.
    rewrite (read_body_line _ _ _ _ mv (chunks ++ [mkChunk (Some ctx) [] [] [] false]));
      [done|rewrite name_ok_trim_end by done..].
    + apply handle_marker; [done|by apply differ_ne|..]; by apply strip_prefix_differ.
    + unfold process_update_line. unfold starts_with.
      rewrite strip_prefix_app, Hl, orb_true_r. cbn [negb andb].
      rewrite bool_decide_eq_false_2, andb_false_r by done.
      rewrite strip_prefix_differ by done. cbn.
      rewrite bool_decide_eq_false_2 by (destruct Hh as (_ & Hc & _); by intros [= ->]).
      by destruct chunks, mv.
  - exists (chunks ++ [default_chunk]). split; [by destruct chunks|].
    cbn [text_of_header for_each length Nat.add]. m_unfold.
    rewrite (read_body_line _ _ _ _ mv (chunks ++ [default_chunk])); [done|by apply handle_not_header|].
    unfold process_update_line. rewrite Hl.
    change (trim_end EMPTY_CHANGE_CONTEXT_MARKER) with EMPTY_CHANGE_CONTEXT_MARKER.
    rewrite bool_decide_eq_false_2, andb_false_r by done. cbn [orb].
    rewrite bool_decide_eq_true_2 by done. cbn. rewrite andb_false_r.
    by destruct chunks, mv.
  - destruct Hne as [?| ->]; [done|]. exists []. done.
Qed.

Lemma read_eof n mv cs c :
  chunk_is_empty c = false → is_end_of_file c = false →
  read_line EOF_MARKER (updating n0 n hs path mv (cs ++ [c]) env) =
    (updating n0 (S n) hs path mv (cs ++ [mark_end_of_file c]) env, Ok tt).
Proof.
  intros Hc Heof. apply read_body_line; change (trim_end EOF_MARKER) with EOF_MARKER.
  - by apply handle_marker.
  - unfold process_update_line. rewrite !last_is_snoc, update_last_snoc, Hc, Heof.
    by destruct cs, mv.
Qed.

Lemma foldl_add_eof c ds : is_end_of_file (foldl add_diff_line c ds) = is_end_of_file c.
Proof.
  revert c. induction ds as [|d ds IH]; intros c; simpl; [done|].
  by rewrite IH, add_diff_line_eof.
Qed.

Lemma read_change n mv chunks c :
  change_ok c → header c ≠ None ∨ chunks = [] → last_is chunk_is_empty chunks = false →
  for_each read_line (text_of_change c) (updating n0 n hs path mv chunks env) =
    (updating n0 (length (text_of_change c) + n) hs path mv
       (chunks ++ [chunk_of_change c]) env, Ok tt) ∧
  chunk_is_empty (chunk_of_change c) = false.
Proof.
  intros (Hh & Hne & _) Hfirst Hl.
  destruct (read_change_header n mv chunks (header c)) as (chunks' & Hens & Hread); [done..|].
  unfold text_of_change, chunk_of_change. rewrite !for_each_app. m_unfold. rewrite Hread.
  rewrite for_each_app. m_unfold. rewrite (read_body _ _ _ chunks _ _ Hne Hens) by done.
  rewrite !length_app, length_map.
  pose proof (foldl_add_nonempty (mkChunk (default None (header c)) [] [] [] false)
    (body c) (or_introl Hne)) as Hchunk.
  destruct (at_eof c); cbn [for_each length]; m_unfold; (split; [|done]).
  - rewrite read_eof by (done || apply foldl_add_eof). do 2 f_equal. lia.
  - do 2 f_equal. lia.
Qed.

Lemma read_changes n mv chunks cs :
  Forall change_ok cs → Forall (λ c, header c ≠ None) (tail cs) →
  chunks = [] ∨ Forall (λ c, header c ≠ None) cs →
  last_is chunk_is_empty chunks = false →
  for_each read_line (flat_map text_of_change cs) (updating n0 n hs path mv chunks env) =
    (updating n0 (length (flat_map text_of_change cs) + n) hs path mv
       (chunks ++ map chunk_of_change cs) env, Ok tt).
Proof.
  intros Hcs. revert n chunks.
  induction Hcs as [|c cs Hc Hcs IH]; intros n chunks Htail Hfirst Hl; simpl.
  - by rewrite app_nil_r.
  - destruct (read_change n mv chunks c Hc) as [Hread Hne]; [|done|].
    { destruct Hfirst as [?|Hf]; [by right|left]. by inversion Hf. }
    rewrite for_each_app. m_unfold. rewrite Hread, IH.
    + rewrite <- app_assoc, length_app. do 2 f_equal. lia.
    + destruct cs; [constructor|by decompose_Forall_hyps].
    + right. done.
    + by rewrite last_is_snoc.
Qed.
End update.

(** ** Hunks *)

Lemma read_hunk h p :
  hunk_syntax_ok h → accepting (state p) → line_buffer p = [] →
  ∃ p', for_each read_line (text_of_hunk h) p = (p', Ok tt) ∧ line_buffer p' = [] ∧
    hunks (state p') = hunks (state p) ++ [hunk_of_syntax h] ∧
    environment_id (state p') = environment_id (state p) ∧ accepting (state p').
Proof.
  intros Hok Hacc Hb. destruct h as [path ls|path|path mv cs]; cbn [text_of_hunk for_each].
  - destruct Hok as [Hpath Hls]. eexists. split_and!.
    + m_unfold. rewrite read_add by done. fold (adding (S (line_number p)) (hunks (state p)) path []
        (environment_id (state p))). by rewrite read_added_lines.
    + done.
    + done.
    + done.
    + unfold accepting. cbn. by rewrite last_snoc.
  - eexists. split_and!; [m_unfold; by rewrite read_delete|done..|].
    unfold accepting. cbn. by rewrite last_snoc.
  - destruct Hok as (Hpath & Hmv & Hne & Hcs & Htail). set (n := S (line_number p)).
    set (env := environment_id (state p)). set (hs := hunks (state p)).
    assert (∃ k, for_each read_line (match mv with None => [] | Some to => [MOVE_TO_MARKER ++ to] end)
        (updating n n hs path None [] env) = (updating n (k + n) hs path mv [] env, Ok tt)) as [k Hk].
    { destruct mv as [to|]; cbn [for_each]; m_unfold; [exists 1|by exists 0].
      by rewrite read_move. }
    eexists. split_and!.
    + m_unfold. rewrite read_update by done. fold n env hs. change (mkParser _ _ _) with
        (updating n n hs path None [] env). rewrite for_each_app. m_unfold. rewrite Hk.
      rewrite read_changes by auto. done.
    + done.
    + done.
    + done.
    + unfold accepting. cbn. rewrite last_snoc. split_and!; [done..|by destruct cs|].
      destruct cs as [|c cs _] using rev_ind; [done|].
      rewrite map_app. cbn [map]. rewrite last_is_snoc. apply Forall_app in Hcs as [_ Hc]. decompose_Forall_hyps.
      unfold chunk_of_change. destruct H as (_ & Hbody & _).
      destruct (at_eof c); apply (foldl_add_nonempty _ (body c)); by left.
Qed.

Lemma read_hunks hks p :
  Forall hunk_syntax_ok hks → accepting (state p) → line_buffer p = [] →
  ∃ p', for_each read_line (flat_map text_of_hunk hks) p = (p', Ok tt) ∧ line_buffer p' = [] ∧
    hunks (state p') = hunks (state p) ++ map hunk_of_syntax hks ∧
    environment_id (state p') = environment_id (state p) ∧ accepting (state p').
Proof.
  intros Hok. revert p. induction Hok as [|h hks Hh Hhks IH]; intros p Hacc Hb.
  - exists p. cbn. rewrite app_nil_r. done.
  - destruct (read_hunk h p Hh Hacc Hb) as (p1 & Hr & Hb1 & Hh1 & He1 & Hacc1).
    destruct (IH p1 Hacc1 Hb1) as (p2 & Hr2 & Hb2 & Hh2 & He2 & Hacc2).
    exists p2. cbn [flat_map map]. rewrite for_each_app. m_unfold. rewrite Hr.
    split_and!; [done|done| |congruence|done].
    by rewrite Hh2, Hh1, <- app_assoc.
Qed.

(** Everything but the last line of a patch text. *)
Lemma read_body_lines ps :
  patch_syntax_ok ps →
  ∃ p', for_each read_line (body_lines ps) default_parser = (p', Ok tt) ∧ line_buffer p' = [] ∧
    hunks (state p') = map hunk_of_syntax (body_hunks ps) ∧
    environment_id (state p') = env_id ps ∧ accepting (state p').
Proof.
  intros [Henv Hhks]. unfold body_lines. set (p1 := mkParser [] (mkState StartedPatch [] None) 1).
  assert (read_line BEGIN_PATCH_MARKER default_parser = (p1, Ok tt)) as Hbegin by done.
  assert (∃ p2, for_each read_line
      (match env_id ps with None => [] | Some e => [ENVIRONMENT_ID_MARKER ++ lit " " ++ e] end) p1
      = (p2, Ok tt) ∧ line_buffer p2 = [] ∧ hunks (state p2) = [] ∧
      environment_id (state p2) = env_id ps ∧ accepting (state p2)) as (p2 & Hr & Hb & Hh & He & Hacc).
  { destruct (env_id ps) as [e|]; cbn [for_each].
    - destruct Henv as (_ & Hne & Htrim). exists (mkParser [] (mkState StartedPatch [] (Some e)) 2).
      split_and!; try done. m_unfold. rewrite read_line_eq.
      assert (trim_end (lit " " ++ e) = lit " " ++ e) as Hte.
      { rewrite trim_end_app. rewrite <- Htrim, trim_end_trim, Htrim. by destruct e. }
      unfold process_line. m_unfold. cbn [take_line_buffer state mode p1].
      assert (trim (ENVIRONMENT_ID_MARKER ++ lit " " ++ e) = ENVIRONMENT_ID_MARKER ++ lit " " ++ e) as ->.
      { change (ENVIRONMENT_ID_MARKER) with (c_star :: tail ENVIRONMENT_ID_MARKER).
        cbn [app]. rewrite trim_cons by done. f_equal. rewrite trim_end_app, Hte. done. }
      unfold handle_hunk_headers_and_end_patch. m_unfold. cbn [state mode environment_id].
      rewrite strip_prefix_app. change (trim (lit " " ++ e)) with (trim e). rewrite Htrim.
      by rewrite (bool_decide_eq_false_2 (e = [])).
    - by exists p1. }
  destruct (read_hunks (body_hunks ps) p2 Hhks Hacc Hb) as (p3 & Hr3 & Hb3 & Hh3 & He3 & Hacc3).
  exists p3. split_and!; [|done| | |done].
  - cbn [for_each]. m_unfold. rewrite Hbegin, for_each_app. m_unfold. by rewrite Hr.
  - by rewrite Hh3, Hh.
  - congruence.
Qed.

(** ** The whole text *)

Lemma join_snoc_text (ls : list str) (l : str) :
  join [c_nl] (ls ++ [l]) = flat_map (λ l, l ++ [c_nl]) ls ++ l.
Proof.
  induction ls as [|x ls IH]; [done|]. cbn [app flat_map]. unfold join in *.
  rewrite join_with_cons, IH by (by destruct ls). by rewrite <- !app_assoc.
Qed.

Lemma trim_end_last l c : trim_end l = l → last l = Some c → is_whitespace c = false.
Proof.
  intros Ht [l' ->]%last_Some. unfold trim_end in Ht. rewrite drop_while_end_app in Ht.
  simpl in Ht. destruct (is_whitespace c) eqn:Hc; [|done].
  apply (f_equal length) in Ht. rewrite length_app in Ht. simpl in Ht.
  pose proof (prefix_length _ _ (drop_while_end_prefix is_whitespace l')). lia.
Qed.

Lemma name_line_ok m l : no_nl m = true → name_ok l → line_ok (m ++ l).
Proof.
  intros Hm (Hl & Hne & Ht). split; [by rewrite no_nl_app, Hm|].
  rewrite last_app. destruct (last l) as [c|] eqn:Hc; [|by apply last_None in Hc].
  apply trim_end_last in Hc; [|done]. by intros [= ->].
Qed.

Lemma marked_line_ok m l : no_nl m = true → last m ≠ Some c_cr → line_ok l → line_ok (m ++ l).
Proof.
  intros Hm Hml [Hl Hcr]. split; [by rewrite no_nl_app, Hm|].
  rewrite last_app. by destruct (last l).
Qed.

Lemma change_lines_ok c : change_ok c → Forall line_ok (text_of_change c).
Proof.
  intros (Hh & _ & Hb). unfold text_of_change. rewrite !Forall_app. split_and!.
  - destruct (header c) as [[ctx|]|]; [|by apply Forall_singleton|constructor].
    by apply Forall_singleton, name_line_ok.
  - apply Forall_map. eapply Forall_impl; [done|].
    intros [l|l|l]; cbn [diff_line_ok text_of_line]; by apply marked_line_ok.
  - destruct (at_eof c); [by apply Forall_singleton|constructor].
Qed.

Lemma Forall_flat_map {A B} (P : B → Prop) (f : A → list B) l :
  Forall (λ a, Forall P (f a)) l → Forall P (flat_map f l).
Proof. induction 1; simpl; [constructor|]. by apply Forall_app. Qed.

Lemma hunk_lines_ok h : hunk_syntax_ok h → Forall line_ok (text_of_hunk h).
Proof.
  destruct h as [path ls|path|path mv cs]; cbn [hunk_syntax_ok text_of_hunk].
  - intros [Hp Hls]. constructor; [by apply name_line_ok|]. apply Forall_map.
    eapply Forall_impl; [done|]. intros l Hl. by apply marked_line_ok.
  - intros Hp. by apply Forall_singleton, name_line_ok.
  - intros (Hp & Hmv & _ & Hcs & _). constructor; [by apply name_line_ok|].
    apply Forall_app. split.
    + destruct mv; [by apply Forall_singleton, name_line_ok|constructor].
    + apply Forall_flat_map. eapply Forall_impl; [done|]. apply change_lines_ok.
Qed.

Lemma body_lines_ok ps : patch_syntax_ok ps → Forall line_ok (body_lines ps).
Proof.
  intros [He Hh]. unfold body_lines. constructor; [done|]. apply Forall_app. split.
  - destruct (env_id ps) as [e|]; [|constructor]. destruct He as (Hnl & Hne & Ht).
    apply Forall_singleton, name_line_ok; [done|]. split_and!; [done|done|].
    rewrite trim_end_app. rewrite <- Ht, trim_end_trim, Ht. by destruct e.
  - apply Forall_flat_map. eapply Forall_impl; [done|]. apply hunk_lines_ok.
Qed.

Lemma patch_text_split ps :
  patch_text ps = flat_map (λ l, l ++ [c_nl]) (body_lines ps) ++ END_PATCH_MARKER.
Proof. apply join_snoc_text. Qed.

Lemma trim_patch_text ps : trim (patch_text ps) = patch_text ps.
Proof.
  rewrite patch_text_split. change (body_lines ps) with (BEGIN_PATCH_MARKER :: tail (body_lines ps)).
  cbn [flat_map]. change BEGIN_PATCH_MARKER with (c_star :: tail BEGIN_PATCH_MARKER).
  cbn [app]. rewrite trim_cons by done. f_equal. by rewrite trim_end_app.
Qed.

Lemma patch_text_lines ps : patch_syntax_ok ps → lines (patch_text ps) = patch_lines ps.
Proof.
  intros Hok. apply lines_join.
  - unfold patch_lines. apply Forall_app. split; [by apply body_lines_ok|by apply Forall_singleton].
  - unfold patch_lines. intros l. rewrite last_snoc. by intros [= <-].
Qed.

Lemma patch_boundaries ps :
  check_patch_boundaries_lenient (patch_lines ps) = Ok (patch_lines ps).
Proof.
  unfold check_patch_boundaries_lenient, check_patch_boundaries_strict, patch_lines.
  by rewrite last_snoc.
Qed.

(** The streaming parser reads a well-formed text, in one delta, to its meaning. *)
Lemma run_patch_text ps :
  patch_syntax_ok ps →
  snd ((push_delta (patch_text ps) ≫= λ _, run_parser) default_parser) =
    Ok (map hunk_of_syntax (body_hunks ps), env_id ps).
Proof.
  intros Hok. destruct (read_body_lines ps Hok) as (p & Hr & Hb & Hh & He & Hacc).
  unfold push_delta. m_unfold. rewrite patch_text_split, for_each_app. m_unfold.
  rewrite push_lines, Hr by (done || by apply body_lines_ok).
  rewrite push_chars_no_nl by done. unfold run_parser, finish. m_unfold. cbn [line_buffer].
  rewrite Hb. cbn [app].
  rewrite (bool_decide_eq_false_2 (END_PATCH_MARKER = [])) by done.
  rewrite (bool_decide_eq_true_2 (trim END_PATCH_MARKER = END_PATCH_MARKER)) by done.
  rewrite ensure_accepting by done. by rewrite <- Hh, <- He.
Qed.

(** ** Properties *)

(** C15.  The parser accepts the text of every well-formed patch and reads it to its
    meaning: it parses to exactly the hunks and environment id it denotes, and the patch
    text kept with them is the text itself.  Well-formed ([patch_syntax_ok]) are names and
    contexts of one line, not empty and without trailing blanks, lines without a carriage
    return at their end, and updates with at least one change, none of them empty and all
    but the first with a header; a patch may have no hunk and an added file no line. *)
Theorem parse_patch_grammar ps :
  patch_syntax_ok ps →
  parse_patch (patch_text ps) =
    Ok (mkArgs (patch_text ps) (map hunk_of_syntax (body_hunks ps)) None (env_id ps)).
Proof.
  intros Hok. unfold parse_patch, parse_patch_text. cbn [PARSE_IN_STRICT_MODE].
  rewrite trim_patch_text, patch_text_lines, patch_boundaries by done.
  cbn [mbind result_bind]. fold (patch_text ps). by rewrite run_patch_text.
Qed.

Definition sample_patch : patch_syntax := mkPatch (Some (lit "remote"))
  [ SAdd (lit "a.txt") [lit "one"; []];
    SDelete (lit "b.txt");
    SUpdate (lit "c.rs") (Some (lit "d.rs"))
      [ mkChange None [Context (lit "fn f() {"); Removed (lit "  1"); Added (lit "  2")] false;
        mkChange (Some (Some (lit "mod m"))) [Added (lit "end")] true ] ].

Lemma sample_patch_ok : patch_syntax_ok sample_patch.
Proof. repeat (split || constructor); done. Qed.

Lemma parse_patch_grammar_witness :
  parse_patch (patch_text sample_patch) =
    Ok (mkArgs (patch_text sample_patch) (map hunk_of_syntax (body_hunks sample_patch))
          None (Some (lit "remote"))).
Proof. exact (parse_patch_grammar sample_patch sample_patch_ok). Defined.

(** The lines of a text wrapped in a heredoc. *)
Lemma heredoc_lines ps start :
  is_heredoc_start start = true → patch_syntax_ok ps →
  lines (trim (join [c_nl] (start :: patch_lines ps ++ [lit "EOF"]))) =
    start :: patch_lines ps ++ [lit "EOF"].
Proof.
  intros Hs Hok.
  assert (∃ t, start = 60%N :: t ∧ line_ok start) as (t & -> & Hstart).
  { unfold is_heredoc_start in Hs. rewrite !orb_true_iff, !bool_decide_eq_true in Hs.
    destruct Hs as [[->| ->]| ->]; by eexists. }
  rewrite app_comm_cons.
  assert (∀ s, trim (join [c_nl] (((60%N :: t) :: s) ++ [lit "EOF"])) =
    join [c_nl] (((60%N :: t) :: s) ++ [lit "EOF"])) as ->.
  { intros s. rewrite join_snoc_text. cbn [flat_map app]. by apply trim_between. }
  apply lines_join; [|intros l; rewrite last_snoc; by intros [= <-]].
  constructor; [done|]. apply Forall_app. split; [|by apply Forall_singleton].
  apply Forall_app. split; [by apply body_lines_ok|by apply Forall_singleton].
Qed.

Lemma check_boundaries_heredoc ps start :
  is_heredoc_start start = true →
  check_patch_boundaries_lenient (start :: patch_lines ps ++ [lit "EOF"]) = Ok (patch_lines ps).
Proof.
  intros Hs. unfold check_patch_boundaries_lenient.
  assert (check_patch_boundaries_strict (start :: patch_lines ps ++ [lit "EOF"]) =
    Err (InvalidPatchError msg_first_line)) as ->.
  { unfold is_heredoc_start in Hs. rewrite !orb_true_iff, !bool_decide_eq_true in Hs.
    unfold check_patch_boundaries_strict. rewrite app_comm_cons, last_snoc.
    by destruct Hs as [[->| ->]| ->]. }
  assert (∃ x y l, patch_lines ps = x :: y :: l) as (x & y & l & Hl).
  { unfold patch_lines, body_lines. destruct (env_id ps); simpl; [by eauto|].
    destruct (flat_map _ _); simpl; by eauto. }
  rewrite Hl. cbn [app]. rewrite <- Hl. cbn [drop].
  change (x :: y :: l ++ [lit "EOF"]) with ((x :: y :: l) ++ [lit "EOF"]).
  rewrite <- Hl, last_snoc, Hs. change (ends_with (lit "EOF") (lit "EOF")) with true.
  cbn [length]. rewrite length_app. cbn [length andb].
  rewrite (proj2 (Nat.leb_le _ _)) by (rewrite Hl; simpl; lia).
  replace (S (length (patch_lines ps) + 1) - 2) with (length (patch_lines ps)) by lia.
  rewrite take_app_length. unfold check_patch_boundaries_strict.
  unfold patch_lines. by rewrite last_snoc.
Qed.

(** Lenient mode: the text of a patch between a heredoc opening line, in any of
    its three spellings, and [EOF] parses to the same result as the text alone. *)
Theorem parse_patch_heredoc ps start :
  is_heredoc_start start = true → patch_syntax_ok ps →
  parse_patch (join [c_nl] (start :: patch_lines ps ++ [lit "EOF"])) = parse_patch (patch_text ps).
Proof.
  intros Hs Hok. unfold parse_patch, parse_patch_text. cbn [PARSE_IN_STRICT_MODE].
  rewrite heredoc_lines, check_boundaries_heredoc by done.
  by rewrite trim_patch_text, patch_text_lines, patch_boundaries by done.
Qed.

Lemma parse_patch_heredoc_witness :
  parse_patch (join [c_nl] (lit "<<'EOF'" :: patch_lines sample_patch ++ [lit "EOF"])) =
    parse_patch (patch_text sample_patch).
Proof. apply (parse_patch_heredoc sample_patch); [reflexivity|exact sample_patch_ok]. Defined.

Lemma parse_patch_wf text args : parse_patch text = Ok args → Forall hunk_ok (args_hunks args).
Proof.
  unfold parse_patch, parse_patch_text. cbn [mbind result_bind PARSE_IN_STRICT_MODE].
  destruct (check_patch_boundaries_lenient _) as [ls|]; [|done].
  m_unfold. destruct (push_delta (join [c_nl] ls) default_parser) as [p1 [hs1|]] eqn:Hp;
    [|by intros; simplify_eq/=].
  apply push_delta_wf in Hp; [|apply default_parser_wf].
  unfold run_parser. m_unfold.
  destruct (finish p1) as [p2 [hs2|]] eqn:Hf; [|by intros; simplify_eq/=].
  apply finish_hunks_ok in Hf as [_ Hf]; [|done]. intros ?. by simplify_eq/=.
Qed.

(** Whatever text is given, the hunks of a parsed patch are well formed: an
    update hunk has at least one chunk, each chunk has a line, and its context
    indices increase and name equal lines of its two sides. *)
Theorem parse_patch_hunks_ok text args :
  parse_patch text = Ok args → Forall hunk_ok (args_hunks args).
Proof. apply parse_patch_wf. Qed.

Lemma parse_patch_hunks_ok_witness :
  Forall hunk_ok (map hunk_of_syntax (body_hunks sample_patch)).
Proof.
  apply (parse_patch_hunks_ok (patch_text sample_patch)
    (mkArgs (patch_text sample_patch) (map hunk_of_syntax (body_hunks sample_patch)) None
      (Some (lit "remote")))).
  vm_compute. reflexivity.
Defined.

(** Streaming: a text may be cut into deltas anywhere.  Feeding the deltas one
    after the other leaves the parser in the same state, with the same hunks or the
    same error, as feeding the whole text at once. *)
Theorem push_delta_chunks ds p :
  for_each (λ d, push_delta d;; mret tt) ds p = (push_delta (concat ds);; mret tt) p.
Proof.
  revert p. induction ds as [|d ds IH]; intros p; [done|].
  cbn [for_each concat]. m_unfold. rewrite push_delta_app. m_unfold.
  destruct (push_delta d p) as [p1 [hs|e]]; [|done]. apply IH.
Qed.
