(* ===== verification/SeekSequence.v ===== *)
(** * SeekSequence: locating the lines of a chunk
    ([apply-patch/src/seek_sequence.rs])

    Four passes of decreasing strictness over the same range of positions. *)
From S2P Require Import Prelude RustStr.

(** How an update rebuilds the target file ([apply-patch/src/lib.rs]). *)
Inductive ApplyPatchFileUpdateMode := NormalizeToLf | PreserveLineEndings.

#[export] Instance ApplyPatchFileUpdateMode_eq_dec : EqDecision ApplyPatchFileUpdateMode.
Proof. solve_decision. Defined.

(** Typographic punctuation to its ASCII equivalent, char by char. *)
Definition normalise_char (c : char) : char :=
  if ((0x2010 <=? c) && (c <=? 0x2015) || (c =? 0x2212))%N then 45%N
  else if ((0x2018 <=? c) && (c <=? 0x201B))%N then 39%N
  else if ((0x201C <=? c) && (c <=? 0x201F))%N then 34%N
  else if ((c =? 0xA0) || (0x2002 <=? c) && (c <=? 0x200A) || (c =? 0x202F)
           || (c =? 0x205F) || (c =? 0x3000))%N then 32%N
  else c.

Definition normalise (s : str) : str := map normalise_char (trim s).

(** The pattern's lines and the lines from a position on agree under [f]. *)
Fixpoint matches_here (f : str → str) (ls pattern : list str) : bool :=
  match pattern, ls with
  | [], _ => true
  | pat :: pattern', l :: ls' => bool_decide (f l = f pat) && matches_here f ls' pattern'
  | _ :: _, [] => false
  end.

Definition matches_at (f : str → str) (ls pattern : list str) (i : nat) : bool :=
  matches_here f (drop i ls) pattern.

(** The first [i] of [start], [start + 1], ... ([n] values) satisfying [p]: a
    [for i in start..] loop that returns. *)
Fixpoint first_index (p : nat → bool) (start n : nat) : option nat :=
  match n with
  | 0 => None
  | S n' => if p start then Some start else first_index p (S start) n'
  end.

(** One pass, over [search_start..=lines.len().saturating_sub(pattern.len())]. *)
Definition pass (f : str → str) (ls pattern : list str) (search_start : nat) : option nat :=
  first_index (matches_at f ls pattern) search_start
    (S (length ls - length pattern) - search_start).

Definition search_start (ls pattern : list str) (start : nat) (eof : bool)
    (update_file_mode : ApplyPatchFileUpdateMode) : nat :=
  if eof && (length pattern <=? length ls) then
    let eof_start := length ls - length pattern in
    match update_file_mode with
    | NormalizeToLf => eof_start
    | PreserveLineEndings => eof_start `max` start
    end
  else start.

Definition or_else {A} (o1 o2 : option A) : option A :=
  match o1 with Some a => Some a | None => o2 end.

Definition seek_sequence (ls pattern : list str) (start : nat) (eof : bool)
    (update_file_mode : ApplyPatchFileUpdateMode) : option nat :=
  if bool_decide (pattern = []) then Some start
  else if length ls <? length pattern then None
  else
    let from := search_start ls pattern start eof update_file_mode in
    or_else (pass id ls pattern from)
      (or_else (pass trim_end ls pattern from)
        (or_else (pass trim ls pattern from)
          (pass normalise ls pattern from))).

(** ** Properties *)

Lemma first_index_Some p start n i :
  first_index p start n = Some i ↔
  start ≤ i < start + n ∧ p i = true ∧ ∀ j, start ≤ j < i → p j = false.
Proof.
  revert start. induction n as [|n IH]; intros start; simpl.
  - split; [done|lia].
  - destruct (p start) eqn:Hp.
    + split.
      * intros [= <-]. split_and!; [lia|lia|done|lia].
      * intros (Hi & Hpi & Hj). f_equal. destruct (decide (start = i)) as [|Hne]; [done|].
        rewrite Hj in Hp by lia. done.
    + rewrite IH. split.
      * intros (Hi & Hpi & Hj). split_and!; [lia|lia|done|]. intros j Hjr.
        destruct (decide (j = start)) as [->|]; [done|]. apply Hj. lia.
      * intros (Hi & Hpi & Hj). destruct (decide (start = i)) as [->|]; [congruence|].
        split_and!; [lia|lia|done|]. intros j Hjr. apply Hj. lia.
Qed.

Lemma first_index_None p start n :
  first_index p start n = None ↔ ∀ j, start ≤ j < start + n → p j = false.
Proof.
  revert start. induction n as [|n IH]; intros start; simpl; [split; [lia|done]|].
  destruct (p start) eqn:Hp.
  - split; [done|]. intros H. rewrite H in Hp by lia. done.
  - rewrite IH. split; intros H j Hj; [destruct (decide (j = start)) as [->|]; [done|]|];
      apply H; lia.
Qed.

(** A position the passes look at. *)
Definition in_range (ls pattern : list str) (from j : nat) : Prop :=
  from ≤ j ∧ j + length pattern ≤ length ls.

Lemma pass_Some f ls pattern from i :
  length pattern ≤ length ls → pass f ls pattern from = Some i →
  in_range ls pattern from i ∧ matches_at f ls pattern i = true ∧
  ∀ j, in_range ls pattern from j → j < i → matches_at f ls pattern j = false.
Proof.
  intros Hlen (Hi & Hm & Hj)%first_index_Some. unfold in_range. split_and!; [lia|lia|done|].
  intros j [] ?. apply Hj. lia.
Qed.

Lemma pass_None f ls pattern from j :
  length pattern ≤ length ls → pass f ls pattern from = None →
  in_range ls pattern from j → matches_at f ls pattern j = false.
Proof.
  intros Hlen Hn [? ?]. unfold pass in Hn. rewrite first_index_None in Hn. apply Hn. lia.
Qed.

(** A stricter comparison implies a looser one. *)
Lemma matches_at_mono (f g : str → str) ls pattern i :
  (∀ a b, f a = f b → g a = g b) →
  matches_at f ls pattern i = true → matches_at g ls pattern i = true.
Proof.
  intros Hfg. unfold matches_at. generalize (drop i ls) as l. clear ls.
  induction pattern as [|p pattern IH]; intros [|x l]; simpl; try done.
  intros [Hx Hl]%andb_true_iff. bool_hyps. apply andb_true_iff. split; [|auto].
  apply bool_decide_eq_true. auto.
Qed.

Lemma trim_end_eq_trim a b : trim_end a = trim_end b → trim a = trim b.
Proof. intros H. by rewrite <- (trim_trim_end a), H, trim_trim_end. Qed.

Lemma trim_eq_normalise a b : trim a = trim b → normalise a = normalise b.
Proof. unfold normalise. by intros ->. Qed.

Lemma matches_at_exact ls pattern i :
  matches_at id ls pattern i = true ↔ take (length pattern) (drop i ls) = pattern.
Proof.
  unfold matches_at. generalize (drop i ls) as l. clear ls.
  induction pattern as [|p pattern IH]; intros [|x l]; simpl; [done|done|done|].
  rewrite andb_true_iff, bool_decide_eq_true, IH. unfold id. split.
  - by intros [-> ->].
  - by intros [= -> ->].
Qed.

(** The comparisons of the four passes, strictest first. *)
Definition passes : list (str → str) := [id; trim_end; trim; normalise].

(** Every pass' matches are matches of the last, most permissive one. *)
Lemma passes_normalise f ls pattern i :
  f ∈ passes → matches_at f ls pattern i = true → matches_at normalise ls pattern i = true.
Proof.
  intros Hf. apply matches_at_mono. intros a b. unfold passes in Hf.
  rewrite !elem_of_cons, elem_of_nil in Hf.
  destruct Hf as [->|[->|[->|[->|[]]]]];
    [by intros Hab; unfold id in Hab; subst
    |eauto using trim_end_eq_trim, trim_eq_normalise..].
Qed.

Lemma seek_sequence_None_normalise ls pattern start eof md j :
  seek_sequence ls pattern start eof md = None →
  in_range ls pattern (search_start ls pattern start eof md) j →
  matches_at normalise ls pattern j = false.
Proof.
  unfold seek_sequence. case_bool_decide; [done|].
  destruct (Nat.ltb_spec (length ls) (length pattern)) as [Hlt|Hge].
  - intros _ [_ ?]. lia.
  - unfold or_else. repeat case_match; try done. intros. by eapply pass_None.
Qed.

(** The bounds of a match, and that it is a match of the loosest comparison. *)
Lemma seek_sequence_bounds ls pattern start eof md i :
  pattern ≠ [] → seek_sequence ls pattern start eof md = Some i →
  in_range ls pattern (search_start ls pattern start eof md) i ∧
  matches_at normalise ls pattern i = true.
Proof.
  intros Hne. unfold seek_sequence. rewrite bool_decide_eq_false_2 by done.
  destruct (Nat.ltb_spec (length ls) (length pattern)) as [|Hge]; [done|].
  unfold or_else. intros H.
  assert (∃ f, f ∈ passes ∧ pass f ls pattern (search_start ls pattern start eof md) = Some i)
    as (f & Hf & Hp).
  { unfold passes. repeat case_match; simplify_eq; eexists; (split; [|done]);
      repeat constructor. }
  apply pass_Some in Hp as (? & ? & _); [|done]. split; [done|]. by eapply passes_normalise.
Qed.

(** [seek_sequence] on a non-empty pattern: a result is in the searched range,
    it is the first position matching under one of the four comparisons, and no
    position of the range matches under a stricter one; without a result no
    position of the range matches even under the loosest comparison. *)
Theorem seek_sequence_spec ls pattern start eof md :
  pattern ≠ [] →
  let from := search_start ls pattern start eof md in
  match seek_sequence ls pattern start eof md with
  | Some i =>
      in_range ls pattern from i ∧
      ∃ stricter f looser, passes = stricter ++ f :: looser ∧
        matches_at f ls pattern i = true ∧
        (∀ j, in_range ls pattern from j → j < i → matches_at f ls pattern j = false) ∧
        ∀ g j, g ∈ stricter → in_range ls pattern from j → matches_at g ls pattern j = false
  | None =>
      ∀ f j, f ∈ passes → in_range ls pattern from j → matches_at f ls pattern j = false
  end.
Proof.
  intros Hne from. destruct (seek_sequence ls pattern start eof md) as [i|] eqn:Hs.
  - split; [by eapply seek_sequence_bounds|].
    unfold seek_sequence in Hs. rewrite bool_decide_eq_false_2 in Hs by done.
    destruct (Nat.ltb_spec (length ls) (length pattern)) as [|Hge]; [done|].
    fold from in Hs. unfold or_else in Hs.
    assert (Hst : ∀ f stricter looser, passes = stricter ++ f :: looser →
      Forall (λ g, pass g ls pattern from = None) stricter → pass f ls pattern from = Some i →
      ∃ stricter f looser, passes = stricter ++ f :: looser ∧
        matches_at f ls pattern i = true ∧
        (∀ j, in_range ls pattern from j → j < i → matches_at f ls pattern j = false) ∧
        ∀ g j, g ∈ stricter → in_range ls pattern from j → matches_at g ls pattern j = false).
    { intros f stricter looser Heq Hst (_ & Hm & Hmin)%pass_Some; [|done].
      exists stricter, f, looser. split_and!; [done..|]. intros g j Hg Hr.
      rewrite Forall_forall in Hst. apply pass_None with from; [done| |done]. by apply Hst. }
    repeat case_match; simplify_eq.
    + by apply (Hst id [] [trim_end; trim; normalise]); [|repeat constructor|].
    + by apply (Hst trim_end [id] [trim; normalise]); [|repeat constructor|].
    + by apply (Hst trim [id; trim_end] [normalise]); [|repeat constructor|].
    + by apply (Hst normalise [id; trim_end; trim] []); [|repeat constructor|].
  - intros f j Hf Hr. apply not_true_iff_false. intros Hm.
    apply (passes_normalise f) in Hm; [|done].
    rewrite (seek_sequence_None_normalise _ _ _ _ _ _ Hs Hr) in Hm. done.
Qed.

Lemma seek_sequence_spec_witness :
  let ls := [lit "a"; lit "b  "; lit "b"] in
  seek_sequence ls [lit "b"] 0 false NormalizeToLf = Some 2 ∧
  in_range ls [lit "b"] 0 2.
Proof.
  split; [reflexivity|].
  apply (seek_sequence_spec [lit "a"; lit "b  "; lit "b"] [lit "b"] 0 false NormalizeToLf).
  discriminate.
Defined.
