(* ===== verification/PatchErrors.v ===== *)
(** * PatchErrors: the error types of apply-patch ([apply-patch/src/lib.rs])

    [std::io::Error] as its kind and message, and the errors a patch application
    returns. *)
From S2P Require Import Prelude RustStr PatchTypes.

(** [std::io::ErrorKind]; the code only singles out [NotFound], and builds
    [InvalidInput] and [Other]. *)
Inductive ErrorKind := NotFound | InvalidInput | Other | AnotherKind (code : N).

#[export] Instance ErrorKind_eq_dec : EqDecision ErrorKind.
Proof. solve_decision. Defined.

(** [std::io::Error]: [kind()] and [to_string()]. *)
Record io_error := mkIo { kind : ErrorKind; message : str }.

#[export] Instance io_error_eq_dec : EqDecision io_error.
Proof. solve_decision. Defined.

(** [PathUriParseError] ([utils/path-uri/src/lib.rs]); the [url] crate's error is
    carried by its message. *)
Inductive PathUriParseError :=
| InvalidUri (url_error : str)
| UnsupportedScheme (scheme : str)
| InvalidFileUriPath (path : str)
| CredentialsNotAllowed
| PortNotAllowed
| QueryNotAllowed
| FragmentNotAllowed
| JoinPathMustBeDescendant (path : str).

#[export] Instance PathUriParseError_eq_dec : EqDecision PathUriParseError.
Proof. solve_decision. Defined.

Record IoError := mkIoError { context : str; source : io_error }.

(** [impl PartialEq for IoError]: the kind is not compared. *)
Definition IoError_eq (a b : IoError) : bool :=
  bool_decide (context a = context b) && bool_decide (message (source a) = message (source b)).

#[export] Instance IoError_eq_dec : EqDecision IoError.
Proof. solve_decision. Defined.

Inductive ApplyPatchError :=
| PatchParseError (e : ParseError)
| PatchIoError (e : IoError)
| ComputeReplacements (message : str)
| PatchPathUri (e : PathUriParseError)
| ImplicitInvocation.

#[export] Instance ApplyPatchError_eq_dec : EqDecision ApplyPatchError.
Proof. solve_decision. Defined.

(** [impl From<std::io::Error> for ApplyPatchError], and the copy the
    [From<&std::io::Error>] instance makes from the kind and the message. *)
Definition ApplyPatchError_from_io (err : io_error) : ApplyPatchError :=
  PatchIoError (mkIoError (lit "I/O error") err).
Definition ApplyPatchError_from_io_ref (err : io_error) : ApplyPatchError :=
  PatchIoError (mkIoError (lit "I/O error") (mkIo (kind err) (message err))).
