(* ===== verification/TextFile.v ===== *)
(** * TextFile: source files with their line endings
    ([apply-patch/src/text_file.rs])

    Parsing into lines that keep their terminators, rebuilding from
    replacements, and the abstract specification [edited] of a list edit.  The
    parser's byte cursor is modelled on chars: the bytes [\r] and [\n] occur in
    UTF-8 only as those chars. *)
From S2P Require Import Prelude RustStr.

(** [(start index, old length, new lines)]. *)
Definition Replacement : Type := nat * nat * list str.

Inductive LineEnding := Lf | CrLf | Cr.

#[export] Instance LineEnding_eq_dec : EqDecision LineEnding.
Proof. solve_decision. Defined.

Definition as_str (e : LineEnding) : str :=
  match e with Lf => [c_nl] | CrLf => [c_cr; c_nl] | Cr => [c_cr] end.

Record SourceLine := mkLine { text : str; ending : option LineEnding }.

Record SourceFile := mkFile { file_lines : list SourceLine; preferred_ending : LineEnding }.

#[export] Instance SourceLine_eq_dec : EqDecision SourceLine.
Proof. solve_decision. Defined.
#[export] Instance SourceFile_eq_dec : EqDecision SourceFile.
Proof. solve_decision. Defined.

Definition get_or_insert {A} (a : A) (o : option A) : option A :=
  match o with Some _ => o | None => Some a end.

(** The loop of [SourceFile::parse]: [acc] and [pref] are [lines] and
    [preferred_ending], [cur] is [contents[line_start..cursor]] and [cs] the text
    from the cursor on. *)
Fixpoint parse_loop (acc : list SourceLine) (pref : option LineEnding) (cur cs : str) :
    list SourceLine * option LineEnding :=
  match cs with
  | [] => (if bool_decide (cur = []) then acc else acc ++ [mkLine cur None], pref)
  | c :: cs' =>
      let push e := parse_loop (acc ++ [mkLine cur (Some e)]) (get_or_insert e pref) [] in
      if (c =? c_cr)%N then
        match cs' with
        | d :: cs'' => if (d =? c_nl)%N then push CrLf cs'' else push Cr cs'
        | [] => push Cr cs'
        end
      else if (c =? c_nl)%N then push Lf cs'
      else parse_loop acc pref (cur ++ [c]) cs'
  end.

Definition parse (contents : str) : SourceFile :=
  let '(ls, pref) := parse_loop [] None [] contents in
  mkFile ls (default Lf pref).

Definition line_texts (f : SourceFile) : list str := text <$> file_lines f.

(** The lines from [source_index] on, rebuilt; [None] is the underflow of
    [*start_idx - source_index]. *)
Fixpoint rebuild (pref : LineEnding) (source_lines : list SourceLine) (source_index : nat)
    (replacements : list Replacement) : option (list SourceLine) :=
  match replacements with
  | [] => Some source_lines
  | (start_idx, old_len, new_segment) :: replacements =>
      if start_idx <? source_index then None else
      let kept := take (start_idx - source_index) source_lines in
      let source_lines := drop old_len (drop (start_idx - source_index) source_lines) in
      rest ← rebuild pref source_lines (start_idx + old_len) replacements;
      Some (kept ++ ((λ t, mkLine t (Some pref)) <$> new_segment) ++ rest)
  end.

Definition terminate (pref : LineEnding) (l : SourceLine) : SourceLine :=
  mkLine (text l) (get_or_insert pref (ending l)).

Definition apply_replacements (replacements : list Replacement) (f : SourceFile) :
    option SourceFile :=
  new_lines ← rebuild (preferred_ending f) (file_lines f) 0 replacements;
  Some (mkFile (terminate (preferred_ending f) <$> new_lines) (preferred_ending f)).

Definition line_contents (l : SourceLine) : str :=
  text l ++ match ending l with Some e => as_str e | None => [] end.

Definition into_contents (f : SourceFile) : str := mjoin (line_contents <$> file_lines f).

(** ** Edits of a list *)

(** [edited i reps ls ls']: [ls], whose first element has index [i], becomes [ls']
    by replacing, for each [(s, n, seg)], the [n] elements at index [s] by
    [seg]; everything between the replaced segments is kept in place. *)
Inductive edited {A} : nat → list (nat * nat * list A) → list A → list A → Prop :=
| edited_nil i ls : edited i [] ls ls
| edited_cons i s n seg reps kept old rest rest' :
    i + length kept = s → length old = n →
    edited (s + n) reps rest rest' →
    edited i ((s, n, seg) :: reps) (kept ++ old ++ rest) (kept ++ seg ++ rest').

(** Replacements in source order, within [n] elements, the first at or after [i]. *)
Fixpoint in_order {A} (i n : nat) (reps : list (nat * nat * list A)) : Prop :=
  match reps with
  | [] => i ≤ n
  | (s, k, _) :: reps => i ≤ s ∧ in_order (s + k) n reps
  end.

Lemma in_order_le {A} i n (reps : list (nat * nat * list A)) : in_order i n reps → i ≤ n.
Proof.
  revert i. induction reps as [|[[s k] seg] reps IH]; intros i; simpl; [done|].
  intros [? ?%IH]. lia.
Qed.

Lemma edited_in_order {A} i reps (ls ls' : list A) :
  edited i reps ls ls' → in_order i (i + length ls) reps.
Proof.
  induction 1 as [|i s n seg reps kept old rest rest' Hs Hn He IH]; simpl; [lia|].
  split; [lia|]. rewrite !length_app.
  replace (i + (length kept + (length old + length rest))) with (s + n + length rest) by lia.
  done.
Qed.

Lemma edited_fun {A} i reps (ls l1 l2 : list A) :
  edited i reps ls l1 → edited i reps ls l2 → l1 = l2.
Proof.
  intros H1. revert l2.
  induction H1 as [|i s n seg reps kept old rest rest' Hs Hn He IH]; intros l2 H2;
    inversion H2 as [|? ? ? ? ? kept2 old2 rest2 rest2' Hs2 Hn2 He2]; subst; [done|].
  match goal with H : kept2 ++ _ = kept ++ _ |- _ => rename H into Heq end.
  apply app_inj_1 in Heq as [-> Heq]; [|lia]. apply app_inj_1 in Heq as [-> ->]; [|done].
  by rewrite (IH _ He2).
Qed.

Lemma edited_total {A} i reps (ls : list A) :
  in_order i (i + length ls) reps → ∃ ls', edited i reps ls ls'.
Proof.
  revert i ls. induction reps as [|[[s n] seg] reps IH]; intros i ls; simpl.
  { intros _. eexists. constructor. }
  intros [Hi Ho]. pose proof (in_order_le _ _ _ Ho) as Hle.
  destruct (IH (s + n) (drop (s + n - i) ls)) as [rest' Hr].
  { rewrite length_drop. by replace (s + n + (length ls - (s + n - i))) with (i + length ls) by lia. }
  exists (take (s - i) ls ++ seg ++ rest').
  rewrite <- (take_drop (s - i) ls) at 1.
  rewrite <- (take_drop n (drop (s - i) ls)), drop_drop.
  replace (s - i + n) with (s + n - i) by lia.
  constructor; [rewrite length_take; lia| |done].
  rewrite length_take, length_drop. lia.
Qed.

Definition map_replacement {A B} (f : A → B) (r : nat * nat * list A) : nat * nat * list B :=
  let '(s, n, seg) := r in (s, n, map f seg).

Lemma edited_map {A B} (f : A → B) i reps (ls ls' : list A) :
  edited i reps ls ls' → edited i (map (map_replacement f) reps) (map f ls) (map f ls').
Proof.
  induction 1 as [|i s n seg reps kept old rest rest' Hs Hn He IH]; simpl; [constructor|].
  rewrite !map_app. constructor; [by rewrite length_map..|done].
Qed.

(** [rebuild] performs the edit, the inserted lines getting the preferred ending. *)
Definition inserted (pref : LineEnding) (t : str) : SourceLine := mkLine t (Some pref).

Lemma rebuild_edited pref ls i reps :
  in_order i (i + length ls) reps →
  ∃ ls', rebuild pref ls i reps = Some ls' ∧
    edited i (map (map_replacement (inserted pref)) reps) ls ls'.
Proof.
  revert i ls. induction reps as [|[[s n] seg] reps IH]; intros i ls; simpl.
  { intros _. eexists. split; [done|constructor]. }
  intros [Hi Ho]. pose proof (in_order_le _ _ _ Ho) as Hle.
  rewrite (proj2 (Nat.ltb_ge s i)), drop_drop by lia.
  replace (s - i + n) with (s + n - i) by lia.
  destruct (IH (s + n) (drop (s + n - i) ls)) as (rest' & -> & Hr).
  { rewrite length_drop. by replace (s + n + (length ls - (s + n - i))) with (i + length ls) by lia. }
  eexists. split; [done|].
  rewrite <- (take_drop (s - i) ls) at 1.
  rewrite <- (take_drop n (drop (s - i) ls)), drop_drop.
  replace (s - i + n) with (s + n - i) by lia.
  constructor; [rewrite length_take; lia| |done].
  rewrite length_take, length_drop. lia.
Qed.

(** ** The parsed lines *)

Definition no_terminator (t : str) : bool :=
  forallb (λ c, negb (c =? c_cr)%N && negb (c =? c_nl)%N) t.

(** The lines of a file as the parser cuts them: no terminator inside a text, an
    ending on every line but a non-empty last one, and no [\r] and [\n] split
    over two lines. *)
Fixpoint lines_ok (ls : list SourceLine) : Prop :=
  match ls with
  | [] => True
  | l :: rest =>
      no_terminator (text l) = true ∧
      match ending l with
      | None => text l ≠ [] ∧ rest = []
      | Some Cr => head rest ≠ Some (mkLine [] (Some Lf))
      | Some _ => True
      end ∧ lines_ok rest
  end.

Definition first_ending (ls : list SourceLine) : option LineEnding :=
  match ls with [] => None | l :: _ => ending l end.

Definition file_ok (f : SourceFile) : Prop :=
  lines_ok (file_lines f) ∧ preferred_ending f = default Lf (first_ending (file_lines f)).

(** The lines cut from a text, given the start of the current line. *)
Fixpoint cut (cur cs : str) : list SourceLine :=
  match cs with
  | [] => if bool_decide (cur = []) then [] else [mkLine cur None]
  | c :: cs' =>
      if (c =? c_cr)%N then
        match cs' with
        | d :: cs'' =>
            if (d =? c_nl)%N then mkLine cur (Some CrLf) :: cut [] cs''
            else mkLine cur (Some Cr) :: cut [] cs'
        | [] => [mkLine cur (Some Cr)]
        end
      else if (c =? c_nl)%N then mkLine cur (Some Lf) :: cut [] cs'
      else cut (cur ++ [c]) cs'
  end.

Definition or_first (o : option LineEnding) (ls : list SourceLine) : option LineEnding :=
  match o with Some _ => o | None => first_ending ls end.

Lemma or_first_Some e o ls : or_first (get_or_insert e o) ls = or_first o (mkLine [] (Some e) :: ls).
Proof. by destruct o. Qed.

(** Induction on a text read one char or one [\r\n] at a time. *)
Lemma text_ind (P : str → Prop) :
  P [] → (∀ c cs, P cs → (∀ d cs', cs = d :: cs' → P cs') → P (c :: cs)) → ∀ cs, P cs.
Proof.
  intros H0 HS cs. enough (P cs ∧ ∀ d cs', cs = d :: cs' → P cs') as [? _] by done.
  induction cs as [|c cs [IH1 IH2]]; [done|]. split; [auto|]. by intros ? ? [= _ ->].
Qed.

Lemma parse_loop_cut acc pref cur cs :
  parse_loop acc pref cur cs = (acc ++ cut cur cs, or_first pref (cut cur cs)).
Proof.
  revert acc pref cur. induction cs as [|c cs IH1 IH2] using text_ind; intros acc pref cur.
  - simpl. case_bool_decide; simpl; [rewrite app_nil_r|]; by destruct pref.
  - cbn [parse_loop cut]. destruct (c =? c_cr)%N.
    + destruct cs as [|d cs]; [by destruct pref|].
      destruct (d =? c_nl)%N.
      * rewrite (IH2 d cs) by done. rewrite <- app_assoc. by destruct pref.
      * rewrite IH1, <- app_assoc. by destruct pref.
    + destruct (c =? c_nl)%N; [|by rewrite IH1].
      rewrite IH1, <- app_assoc. by destruct pref.
Qed.

Lemma parse_cut contents :
  parse contents = mkFile (cut [] contents) (default Lf (first_ending (cut [] contents))).
Proof. unfold parse. by rewrite parse_loop_cut. Qed.

Definition contents_of (ls : list SourceLine) : str := mjoin (line_contents <$> ls).

Lemma contents_of_cons t e ls :
  contents_of (mkLine t (Some e) :: ls) = t ++ as_str e ++ contents_of ls.
Proof. unfold contents_of, line_contents. simpl. by rewrite <- app_assoc. Qed.

Lemma cut_contents cur cs : contents_of (cut cur cs) = cur ++ cs.
Proof.
  revert cur. induction cs as [|c cs IH1 IH2] using text_ind; intros cur.
  - cbn [cut]. case_bool_decide; subst; [done|]. unfold contents_of, line_contents. simpl.
    by rewrite !app_nil_r.
  - cbn [cut]. destruct (N.eqb_spec c c_cr) as [->|_].
    + destruct cs as [|d cs]; [by rewrite contents_of_cons|].
      destruct (N.eqb_spec d c_nl) as [->|_]; rewrite contents_of_cons.
      * by rewrite (IH2 c_nl cs).
      * by rewrite IH1.
    + destruct (N.eqb_spec c c_nl) as [->|_].
      * by rewrite contents_of_cons, IH1.
      * by rewrite IH1, <- app_assoc.
Qed.

Lemma no_terminator_snoc t c :
  no_terminator t = true → (c =? c_cr)%N = false → (c =? c_nl)%N = false →
  no_terminator (t ++ [c]) = true.
Proof. intros Ht Hr Hn. unfold no_terminator in *. rewrite forallb_app. simpl. by rewrite Ht, Hr, Hn. Qed.

Lemma head_cut cur cs l : head (cut cur cs) = Some l → cur `prefix_of` text l.
Proof.
  revert cur. induction cs as [|c cs IH1 _] using text_ind; intros cur.
  - simpl. case_bool_decide; intros; by simplify_eq/=.
  - cbn [cut]. repeat case_match; intros; simplify_eq/=; try done.
    eapply prefix_app_l. eauto.
Qed.

Lemma cut_ok cur cs : no_terminator cur = true → lines_ok (cut cur cs).
Proof.
  revert cur. induction cs as [|c cs IH1 IH2] using text_ind; intros cur Hcur.
  - simpl. by case_bool_decide.
  - cbn [cut]. destruct (c =? c_cr)%N eqn:Hr.
    + destruct cs as [|d cs]; [done|]. destruct (d =? c_nl)%N eqn:Hd.
      * split_and!; [done..|]. by eapply IH2.
      * split_and!; [done| |by apply IH1]. cbn [ending]. cbn [cut]. rewrite Hd.
        destruct (d =? c_cr)%N; [by repeat case_match|].
        intros [t Ht]%head_cut. done.
    + destruct (c =? c_nl)%N eqn:Hn; [split_and!; [done..|by apply IH1]|].
      apply IH1. by apply no_terminator_snoc.
Qed.

Lemma cut_text cur t cs : no_terminator t = true → cut cur (t ++ cs) = cut (cur ++ t) cs.
Proof.
  revert cur. induction t as [|c t IH]; intros cur; [by rewrite app_nil_r|].
  simpl. intros [[Hr Hn]%andb_true_iff Ht]%andb_true_iff. bool_hyps.
  rewrite Hr, Hn, IH, <- app_assoc by done. done.
Qed.

Lemma contents_head_nl ls cs : lines_ok ls →
  head ls ≠ Some (mkLine [] (Some Lf)) → contents_of ls ≠ c_nl :: cs.
Proof.
  destruct ls as [|[t e] ls]; [done|]. intros (Ht & He & _) Hh. unfold contents_of, line_contents.
  simpl in *. destruct t as [|c t].
  - destruct e as [[| |]|]; naive_solver.
  - simpl. intros [= -> _]. done.
Qed.

Lemma cut_lines ls : lines_ok ls → cut [] (contents_of ls) = ls.
Proof.
  induction ls as [|[t e] ls IH]; [done|]. intros (Ht & He & Hls). specialize (IH Hls).
  change (contents_of (mkLine t e :: ls)) with (line_contents (mkLine t e) ++ contents_of ls).
  unfold line_contents. cbn [text ending] in *. rewrite <- app_assoc, cut_text by done.
  destruct e as [[| |]|]; cbn [as_str app].
  - simpl. by rewrite IH.
  - simpl. by rewrite IH.
  - cbn [cut]. change (c_cr =? c_cr)%N with true. cbv iota.
    pose proof (contents_head_nl ls) as Hnl.
    destruct (contents_of ls) as [|d cs] eqn:Hc; [simpl in IH; by subst|].
    destruct (N.eqb_spec d c_nl) as [->|_]; [by destruct (Hnl cs)|]. by rewrite IH.
  - destruct He as [Hne ->]. simpl. by rewrite bool_decide_eq_false_2.
Qed.

(** Parsing and printing a source file are inverse to each other: printing the
    parsed file gives the contents back byte for byte, and a file in the form the
    parser produces (the only texts with an empty tail or a [\r] before a [\n] cut
    apart are excluded) is read back line by line, with the same preferred ending. *)
Theorem parse_into_contents :
  (∀ contents, file_ok (parse contents) ∧ into_contents (parse contents) = contents) ∧
  (∀ f, file_ok f → parse (into_contents f) = f).
Proof.
  split.
  - intros contents. rewrite parse_cut. split.
    + split; [by apply cut_ok|done].
    + apply (cut_contents []).
  - intros [ls e] [Hls He]. cbn in Hls, He. rewrite parse_cut.
    change (into_contents (mkFile ls e)) with (contents_of ls).
    by rewrite cut_lines, He.
Qed.

Lemma parse_into_contents_witness :
  let f := mkFile [mkLine (lit "a") (Some CrLf); mkLine [] (Some Lf); mkLine (lit "b") None] CrLf in
  file_ok f ∧ parse (into_contents f) = f.
Proof.
  assert (file_ok (mkFile [mkLine (lit "a") (Some CrLf); mkLine [] (Some Lf);
    mkLine (lit "b") None] CrLf)) as H by (repeat split; vm_compute; discriminate).
  split; [exact H|]. by apply parse_into_contents.
Defined.

Lemma text_inserted pref reps :
  map (map_replacement text) (map (map_replacement (inserted pref)) reps) = reps.
Proof.
  rewrite map_map. rewrite <- (map_id reps) at 2. apply map_ext. intros [[s n] seg]. simpl.
  f_equal. rewrite map_map. apply map_id.
Qed.

Lemma source_replacements_Some f reps :
  in_order 0 (length (file_lines f)) reps →
  ∃ ls', edited 0 (map (map_replacement (inserted (preferred_ending f))) reps) (file_lines f) ls' ∧
    apply_replacements reps f =
      Some (mkFile (terminate (preferred_ending f) <$> ls') (preferred_ending f)).
Proof.
  intros Ho. destruct (rebuild_edited (preferred_ending f) (file_lines f) 0 reps Ho)
    as (ls' & Hr & He).
  exists ls'. split; [done|]. unfold apply_replacements. by rewrite Hr.
Qed.

Lemma apply_replacements_texts f reps ls' :
  edited 0 (map (map_replacement (inserted (preferred_ending f))) reps) (file_lines f) ls' →
  edited 0 reps (line_texts f) (text <$> (terminate (preferred_ending f) <$> ls')).
Proof.
  intros He. apply (edited_map text) in He. rewrite text_inserted in He.
  replace (text <$> (terminate (preferred_ending f) <$> ls')) with (map text ls'); [done|].
  change (map text ls' = map text (map (terminate (preferred_ending f)) ls')).
  by rewrite map_map.
Qed.

(** [SourceFile::apply_replacements] on replacements in source order never
    underflows and edits the file as the replacements say: on texts it is the list
    edit; the lines outside the replaced ranges keep the ending they had, inserted
    lines get the preferred ending, and every line ends up with an ending. *)
Theorem source_file_apply_replacements f reps :
  in_order 0 (length (file_lines f)) reps →
  ∃ f' ls', apply_replacements reps f = Some f' ∧
    preferred_ending f' = preferred_ending f ∧
    edited 0 reps (line_texts f) (line_texts f') ∧
    edited 0 (map (map_replacement (inserted (preferred_ending f))) reps) (file_lines f) ls' ∧
    Forall2 (λ l l', text l' = text l ∧
      ending l' = Some (default (preferred_ending f) (ending l))) ls' (file_lines f').
Proof.
  intros (ls' & He & ->)%source_replacements_Some.
  eexists _, ls'. split_and!; [done|done|by apply apply_replacements_texts|done|].
  cbn [file_lines]. apply Forall2_fmap_r, Forall_Forall2_diag, Forall_forall.
  intros [t [e|]]; done.
Qed.

Lemma source_file_apply_replacements_witness :
  let f := parse (lit "a" ++ [c_cr; c_nl] ++ lit "b") in
  in_order 0 (length (file_lines f)) [(1, 1, [lit "x"])] ∧
  is_Some (apply_replacements [(1, 1, [lit "x"])] f).
Proof.
  assert (in_order 0 (length (file_lines (parse (lit "a" ++ [c_cr; c_nl] ++ lit "b"))))
    [(1, 1, [lit "x"])]) as Ho by (vm_compute; split; lia).
  split; [exact Ho|].
  destruct (source_file_apply_replacements _ _ Ho) as (f' & _ & Hf & _). by exists f'.
Defined.
