(* ===== verification/FileUpdate.v ===== *)
(** * FileUpdate: from chunks to new file contents
    ([apply-patch/src/file_update.rs])

    [compute_replacements] finds the place of every chunk, [apply_replacements]
    performs the replacements.  An outer [None] is a panic of the code: an
    underflow of an index, a slice out of range or an insertion past the end. *)
From stdpp Require Import sorting.
From S2P Require Import Prelude RustStr PatchTypes SeekSequence PatchErrors TextFile.

(** [slice[a..b]]. *)
Definition slice {A} (a b : nat) (l : list A) : list A := take (b - a) (drop a l).

Definition last_is_empty (ls : list str) : bool :=
  match last ls with Some l => bool_decide (l = []) | None => false end.

Definition msg_context (ctx_line path : str) : str :=
  lit "Failed to find context '" ++ ctx_line ++ lit "' in " ++ path.
Definition msg_expected_lines (path : str) (old : list str) : str :=
  lit "Failed to find expected lines in " ++ path ++ lit ":" ++ [c_nl] ++ join [c_nl] old.

(** The insertion point of a chunk without old lines. *)
Definition insertion_idx (ls : list str) (md : ApplyPatchFileUpdateMode) : nat :=
  match md with
  | NormalizeToLf => if last_is_empty ls then length ls - 1 else length ls
  | PreserveLineEndings => length ls
  end.

(** The search for the old lines: where they are, the pattern found and the new
    lines to put there.  A trailing empty line is given up in a second try. *)
Definition locate_old_lines (ls : list str) (chunk : UpdateFileChunk) (line_index : nat)
    (md : ApplyPatchFileUpdateMode) : option (nat * list str * list str) :=
  let pattern := old_lines chunk in
  let new_slice := new_lines chunk in
  match seek_sequence ls pattern line_index (is_end_of_file chunk) md with
  | Some i => Some (i, pattern, new_slice)
  | None =>
      if last_is_empty pattern then
        let pattern := take (length pattern - 1) pattern in
        let new_slice :=
          if last_is_empty new_slice then take (length new_slice - 1) new_slice else new_slice in
        i ← seek_sequence ls pattern line_index (is_end_of_file chunk) md;
        Some (i, pattern, new_slice)
      else None
  end.

(** The replacement after the last context line that is looked at. *)
Definition context_tail (start_idx pattern_len : nat) (new_slice : list str)
    (old_start new_start : nat) : option (list Replacement) :=
  if bool_decide (old_start = pattern_len) && bool_decide (new_start = length new_slice)
  then Some []
  else if (pattern_len <? old_start) || (length new_slice <? new_start) then None
  else Some [(start_idx + old_start, pattern_len - old_start, drop new_start new_slice)].

(** The replacements between the context lines of a chunk found at [start_idx]:
    the loop over [context_line_indices] and the replacement after it. *)
Fixpoint context_replacements (start_idx pattern_len : nat) (new_slice : list str)
    (old_start new_start : nat) (ctx : list (nat * nat)) : option (list Replacement) :=
  match ctx with
  | [] => context_tail start_idx pattern_len new_slice old_start new_start
  | (old_context, new_context) :: ctx =>
      if (pattern_len <=? old_context) || (length new_slice <=? new_context)
      then context_tail start_idx pattern_len new_slice old_start new_start
      else if bool_decide (old_start = old_context) && bool_decide (new_start = new_context)
      then context_replacements start_idx pattern_len new_slice (S old_context) (S new_context) ctx
      else if (old_context <? old_start) || (new_context <? new_start) then None
      else
        rest ← context_replacements start_idx pattern_len new_slice
                 (S old_context) (S new_context) ctx;
        Some ((start_idx + old_start, old_context - old_start,
               slice new_start new_context new_slice) :: rest)
  end.

(** The line the search of a chunk starts from: after its context line. *)
Definition context_index (ls : list str) (path : str) (chunk : UpdateFileChunk)
    (line_index : nat) (md : ApplyPatchFileUpdateMode) : result ApplyPatchError nat :=
  match change_context chunk with
  | None => Ok line_index
  | Some ctx_line =>
      match seek_sequence ls [ctx_line] line_index false md with
      | Some idx => Ok (idx + 1)
      | None => Err (ComputeReplacements (msg_context ctx_line path))
      end
  end.

(** One turn of the loop over the chunks: the replacements pushed and the next
    [line_index]. *)
Definition chunk_replacements (ls : list str) (path : str) (chunk : UpdateFileChunk)
    (line_index : nat) (md : ApplyPatchFileUpdateMode) :
    option (result ApplyPatchError (list Replacement * nat)) :=
  match context_index ls path chunk line_index md with
  | Err e => Some (Err e)
  | Ok line_index =>
      if bool_decide (old_lines chunk = [])
      then Some (Ok ([(insertion_idx ls md, 0, new_lines chunk)], line_index))
      else match locate_old_lines ls chunk line_index md with
      | None => Some (Err (ComputeReplacements (msg_expected_lines path (old_lines chunk))))
      | Some (start_idx, pattern, new_slice) =>
          reps ← match md with
                 | NormalizeToLf => Some [(start_idx, length pattern, new_slice)]
                 | PreserveLineEndings =>
                     context_replacements start_idx (length pattern) new_slice 0 0
                       (context_line_indices chunk)
                 end;
          Some (Ok (reps, start_idx + length pattern))
      end
  end.

Fixpoint chunks_replacements (ls : list str) (path : str) (chunks : list UpdateFileChunk)
    (line_index : nat) (md : ApplyPatchFileUpdateMode) (replacements : list Replacement) :
    option (result ApplyPatchError (list Replacement)) :=
  match chunks with
  | [] => Some (Ok replacements)
  | chunk :: chunks =>
      r ← chunk_replacements ls path chunk line_index md;
      match r with
      | Err e => Some (Err e)
      | Ok (reps, line_index) =>
          chunks_replacements ls path chunks line_index md (replacements ++ reps)
      end
  end.

Definition start_index (r : Replacement) : nat := r.1.1.

(** The stable [sort_by_key]. *)
Fixpoint insert_by_key (r : Replacement) (rs : list Replacement) : list Replacement :=
  match rs with
  | [] => [r]
  | r' :: rs' => if start_index r <=? start_index r' then r :: rs else r' :: insert_by_key r rs'
  end.
Definition sort_by_key (rs : list Replacement) : list Replacement := foldr insert_by_key [] rs.

Definition compute_replacements (original_lines : list str) (path : str)
    (chunks : list UpdateFileChunk) (md : ApplyPatchFileUpdateMode) :
    option (result ApplyPatchError (list Replacement)) :=
  r ← chunks_replacements original_lines path chunks 0 md [];
  match r with
  | Err e => Some (Err e)
  | Ok replacements => Some (Ok (sort_by_key replacements))
  end.

(** [for _ in 0..old_len { if start_idx < lines.len() { lines.remove(start_idx) } }] *)
Fixpoint remove_lines (old_len start_idx : nat) (ls : list str) : list str :=
  match old_len with
  | 0 => ls
  | S old_len =>
      remove_lines old_len start_idx
        (if start_idx <? length ls then delete start_idx ls else ls)
  end.

(** [lines.insert(start_idx + offset, ..)] for each new line in turn. *)
Fixpoint insert_lines (idx : nat) (segment : list str) (ls : list str) : option (list str) :=
  match segment with
  | [] => Some ls
  | l :: segment =>
      if idx <=? length ls then insert_lines (S idx) segment (take idx ls ++ l :: drop idx ls)
      else None
  end.

Definition apply_replacement (ls : list str) (r : Replacement) : option (list str) :=
  let '(start_idx, old_len, new_segment) := r in
  insert_lines start_idx new_segment (remove_lines old_len start_idx ls).

Definition apply_replacements (ls : list str) (replacements : list Replacement) :
    option (list str) :=
  foldl (λ acc r, ls ← acc; apply_replacement ls r) (Some ls) (reverse replacements).

Record AppliedPatch := mkApplied { original_contents : str; new_contents : str }.

#[export] Instance AppliedPatch_eq_dec : EqDecision AppliedPatch.
Proof. solve_decision. Defined.

(** The lines of [contents.split('\n')] without the empty element after a final
    newline. *)
Definition split_lines (contents : str) : list str :=
  let ls := split_char c_nl contents in
  if last_is_empty ls then take (length ls - 1) ls else ls.

(** [derive_new_contents_from_chunks] after the file was read. *)
Definition new_contents_of (original_contents path : str) (chunks : list UpdateFileChunk)
    (md : ApplyPatchFileUpdateMode) : option (result ApplyPatchError str) :=
  match md with
  | NormalizeToLf =>
      let original_lines := split_lines original_contents in
      r ← compute_replacements original_lines path chunks md;
      match r with
      | Err e => Some (Err e)
      | Ok replacements =>
          new_lines ← apply_replacements original_lines replacements;
          let new_lines := if last_is_empty new_lines then new_lines else new_lines ++ [[]] in
          Some (Ok (join [c_nl] new_lines))
      end
  | PreserveLineEndings =>
      let source_file := parse original_contents in
      r ← compute_replacements (line_texts source_file) path chunks md;
      match r with
      | Err e => Some (Err e)
      | Ok replacements =>
          source_file ← TextFile.apply_replacements replacements source_file;
          Some (Ok (into_contents source_file))
      end
  end.

(** * Placement and application of replacements

    The replacements of an update are in source order and in bounds, applying
    them in place is the list edit [edited], and no step of the code panics. *)

Definition end_index (r : Replacement) : nat := r.1.1 + r.1.2.

(** [r] ends before [r'] starts. *)
Definition before (r r' : Replacement) : Prop := end_index r ≤ start_index r'.

(** How a replacement pushed earlier may lie to one pushed later: before it, or
    an insertion at or after its end. *)
Definition compat (r r' : Replacement) : Prop :=
  before r r' ∨ r.1.2 = 0 ∧ before r' r.

Lemma start_le_end r : start_index r ≤ end_index r.
Proof. unfold start_index, end_index. lia. Qed.

(** ** Sorting *)

Lemma insert_by_key_Permutation r rs : insert_by_key r rs ≡ₚ r :: rs.
Proof.
  induction rs as [|r' rs IH]; simpl; [done|]. case_match; [done|].
  rewrite IH. constructor.
Qed.

Lemma sort_by_key_Permutation rs : sort_by_key rs ≡ₚ rs.
Proof. induction rs as [|r rs IH]; simpl; [done|]. by rewrite insert_by_key_Permutation, IH. Qed.

Lemma insert_by_key_sorted r rs :
  StronglySorted (λ a b, start_index a ≤ start_index b) rs →
  StronglySorted (λ a b, start_index a ≤ start_index b) (insert_by_key r rs).
Proof.
  induction 1 as [|r' rs Hs IH Hr']; simpl; [by repeat constructor|].
  destruct (Nat.leb_spec (start_index r) (start_index r')).
  - constructor; [by constructor|]. constructor; [done|].
    eapply Forall_impl; [done|]. simpl. lia.
  - constructor; [done|]. rewrite insert_by_key_Permutation. constructor; [lia|done].
Qed.

Lemma sort_by_key_sorted rs :
  StronglySorted (λ a b, start_index a ≤ start_index b) (sort_by_key rs).
Proof. induction rs; simpl; [constructor|by apply insert_by_key_sorted]. Qed.

Lemma insert_by_key_before r rs :
  Forall (compat r) rs → StronglySorted before rs → StronglySorted before (insert_by_key r rs).
Proof.
  intros Hc Hs. induction Hs as [|r' rs Hs IH Hr']; simpl; [by repeat constructor|].
  inversion Hc as [|? ? Hcr Hcs]; subst. pose proof (start_le_end r). pose proof (start_le_end r').
  destruct (Nat.leb_spec (start_index r) (start_index r')).
  - constructor; [by constructor|]. apply Forall_forall. intros y Hy.
    pose proof (start_le_end y). rewrite Forall_forall in Hc, Hr'.
    assert (start_index r' ≤ start_index y).
    { apply elem_of_cons in Hy as [->|Hy]; [done|]. specialize (Hr' y Hy).
      unfold before in Hr'. lia. }
    destruct (Hc y Hy) as [|[Hz ?]]; [done|]. unfold before, end_index, start_index in *. lia.
  - constructor; [by apply IH|]. rewrite insert_by_key_Permutation. constructor; [|done].
    destruct Hcr as [|[_ ?]]; unfold before in *; [lia|done].
Qed.

(** Replacements compatible in push order are disjoint and in order once sorted. *)
Lemma sort_by_key_before rs : StronglySorted compat rs → StronglySorted before (sort_by_key rs).
Proof.
  induction 1 as [|r rs Hs IH Hr]; simpl; [constructor|]. apply insert_by_key_before; [|done].
  by rewrite sort_by_key_Permutation.
Qed.

Lemma sort_by_key_id i n rs : in_order i n rs → sort_by_key rs = rs.
Proof.
  revert i. induction rs as [|[[s k] seg] rs IH]; intros i; simpl; [done|].
  intros [_ Ho]. rewrite (IH _ Ho). destruct rs as [|[[s' k'] seg'] rs]; simpl; [done|].
  destruct Ho as [Ho _]. unfold start_index. simpl. by rewrite (proj2 (Nat.leb_le _ _)) by lia.
Qed.

(** [in_order] and its pairwise form. *)
Lemma in_order_before i n rs :
  in_order i n rs ↔
  i ≤ n ∧ StronglySorted before rs ∧ Forall (λ r, i ≤ start_index r ∧ end_index r ≤ n) rs.
Proof.
  revert i. induction rs as [|[[s k] seg] rs IH]; intros i; simpl.
  { split; [|by intros []]. intros. split_and!; [done|constructor|constructor]. }
  rewrite IH, StronglySorted_cons, Forall_cons. unfold before at 2, start_index, end_index. simpl.
  rewrite !Forall_forall. split.
  - intros (? & ? & ? & Hr). split_and!; [lia| |done|lia|lia|].
    + intros r Hin. apply Hr in Hin. lia.
    + intros r Hin. apply Hr in Hin. lia.
  - intros (? & [Hb ?] & [[] Hr]). split_and!; [lia|lia|done|].
    intros r Hin. split; [by apply Hb|by apply Hr].
Qed.

(** ** Applying replacements in place *)

Lemma apply_replacements_cons ls r rs :
  FileUpdate.apply_replacements ls (r :: rs) =
  FileUpdate.apply_replacements ls rs ≫= λ ls, apply_replacement ls r.
Proof.
  unfold FileUpdate.apply_replacements. by rewrite reverse_cons, foldl_app.
Qed.

Lemma remove_lines_app n pre old rest :
  length old = n → remove_lines n (length pre) (pre ++ old ++ rest) = pre ++ rest.
Proof.
  revert old. induction n as [|n IH]; intros [|x old] Hn; try done; simpl in *.
  rewrite (proj2 (Nat.ltb_lt _ _)) by (rewrite length_app; simpl; lia).
  rewrite delete_middle. auto.
Qed.

Lemma insert_lines_app pre seg rest :
  insert_lines (length pre) seg (pre ++ rest) = Some (pre ++ seg ++ rest).
Proof.
  revert pre. induction seg as [|x seg IH]; intros pre; [done|]. simpl.
  rewrite (proj2 (Nat.leb_le _ _)) by (rewrite length_app; lia).
  rewrite take_app_length, drop_app_length.
  specialize (IH (pre ++ [x])). rewrite length_app, <- !app_assoc, Nat.add_1_r in IH. exact IH.
Qed.

(** In-place application of replacements in source order is the list edit. *)
Lemma apply_replacements_edited pre rs ls ls' :
  edited (length pre) rs ls ls' →
  FileUpdate.apply_replacements (pre ++ ls) rs = Some (pre ++ ls').
Proof.
  intros He. remember (length pre) as i eqn:Hi. revert pre Hi.
  induction He as [i ls|i s n seg rs kept old rest rest' Hs Hn He IH]; intros pre ->; [done|].
  rewrite apply_replacements_cons.
  specialize (IH (pre ++ kept ++ old)). rewrite !length_app, <- !app_assoc in IH.
  rewrite IH by lia. cbn [mbind option_bind apply_replacement].
  rewrite (app_assoc pre kept). replace s with (length (pre ++ kept)) by (rewrite length_app; lia).
  rewrite remove_lines_app, insert_lines_app, <- app_assoc by done. done.
Qed.

Lemma length_remove_lines n s ls : s ≤ length ls → s ≤ length (remove_lines n s ls).
Proof.
  revert ls. induction n as [|n IH]; intros ls Hs; simpl; [done|]. apply IH.
  destruct (Nat.ltb_spec s (length ls)); [|done].
  rewrite length_delete by (by apply lookup_lt_is_Some). lia.
Qed.

Lemma insert_lines_Some s seg ls :
  s ≤ length ls → ∃ ls', insert_lines s seg ls = Some ls' ∧ length ls ≤ length ls'.
Proof.
  revert s ls. induction seg as [|x seg IH]; intros s ls Hs; simpl; [eauto|].
  rewrite (proj2 (Nat.leb_le _ _)) by done.
  destruct (IH (S s) (take s ls ++ x :: drop s ls)) as (ls' & -> & Hl);
    rewrite length_app in *; simpl in *; rewrite length_take, length_drop in *; [lia|].
  exists ls'. split; [done|lia].
Qed.

(** Replacements in increasing order of start never insert out of range, even
    when they overlap. *)
Lemma apply_replacements_Some rs ls :
  StronglySorted (λ a b, start_index a ≤ start_index b) rs →
  Forall (λ r, start_index r ≤ length ls) rs →
  ∃ ls', FileUpdate.apply_replacements ls rs = Some ls' ∧
    ∀ i, i ≤ length ls → Forall (λ r, i ≤ start_index r) rs → i ≤ length ls'.
Proof.
  induction rs as [|[[s n] seg] rs IH]; intros Hs Hl; [by exists ls|].
  apply StronglySorted_cons in Hs as [Hr Hs]. inversion Hl as [|? ? Hs1 Hl']; subst.
  destruct (IH Hs Hl') as (ls1 & H1 & Hlen). rewrite apply_replacements_cons, H1.
  cbn [mbind option_bind apply_replacement].
  assert (s ≤ length ls1) as Hs2 by (apply Hlen; [done|exact Hr]).
  destruct (insert_lines_Some s seg (remove_lines n s ls1)) as (ls2 & -> & Hl2).
  { by apply length_remove_lines. }
  exists ls2. split; [done|]. intros i _ Hi. inversion Hi; subst.
  pose proof (length_remove_lines n s ls1 Hs2). unfold start_index in *. simpl in *. lia.
Qed.

(** ** Where a chunk is found *)

Lemma seek_sequence_range ls pattern start eof md i :
  seek_sequence ls pattern start eof md = Some i → start ≤ length ls →
  i + length pattern ≤ length ls ∧
  (md = PreserveLineEndings ∨ eof = false → start ≤ i).
Proof.
  intros Hs Hle. destruct (decide (pattern = [])) as [->|Hne].
  { unfold seek_sequence in Hs. simpl in Hs. simplify_eq. simpl. split; [lia|done]. }
  apply seek_sequence_bounds in Hs as [[Hfrom Hto] _]; [|done]. split; [done|].
  intros Hmd. unfold search_start in Hfrom.
  destruct eof; simpl in Hfrom; [|done]. destruct Hmd as [->|]; [|done].
  destruct (length pattern <=? length ls); lia.
Qed.

Lemma locate_old_lines_range ls chunk idx md i pattern new_slice :
  locate_old_lines ls chunk idx md = Some (i, pattern, new_slice) → idx ≤ length ls →
  i + length pattern ≤ length ls ∧
  (md = PreserveLineEndings ∨ is_end_of_file chunk = false → idx ≤ i).
Proof.
  unfold locate_old_lines. intros H Hle.
  destruct (seek_sequence ls (old_lines chunk) idx _ md) eqn:Hs; [simplify_eq; eauto using seek_sequence_range|].
  destruct (last_is_empty (old_lines chunk)); [|done].
  apply bind_Some in H as (j & Hs' & ?). simplify_eq. eauto using seek_sequence_range.
Qed.

Lemma in_order_weaken {A} i i' n (rs : list (nat * nat * list A)) :
  i' ≤ i → in_order i n rs → in_order i' n rs.
Proof. destruct rs as [|[[s k] seg] rs]; simpl; [lia|]. intros ? []. split; [lia|done]. Qed.

Lemma context_tail_in_order s plen new o k :
  o ≤ plen → k ≤ length new →
  ∃ rs, context_tail s plen new o k = Some rs ∧ in_order (s + o) (s + plen) rs.
Proof.
  intros Ho Hk. unfold context_tail. case_match.
  - eexists; split; [done|]. bool_hyps. simpl. lia.
  - rewrite !(proj2 (Nat.ltb_ge _ _)) by lia. eexists; split; [done|]. simpl. lia.
Qed.

(** The replacements of a chunk between its context lines: no underflow, in order
    within the chunk's region. *)
Lemma context_replacements_in_order s plen new o k olds news ctx :
  context_ok o k olds news ctx → o ≤ plen → k ≤ length new →
  ∃ rs, context_replacements s plen new o k ctx = Some rs ∧ in_order (s + o) (s + plen) rs.
Proof.
  revert o k. induction ctx as [|[oc nc] ctx IH]; intros o k; cbn [context_ok context_replacements].
  { intros _. apply context_tail_in_order. }
  intros (Hoc & Hnc & _ & Hctx) Ho Hk.
  destruct (Nat.leb_spec plen oc); [by apply context_tail_in_order|].
  destruct (Nat.leb_spec (length new) nc); [by apply context_tail_in_order|].
  destruct (IH (S oc) (S nc) Hctx) as (rs & -> & Hrs); [lia|lia|]. cbn [orb].
  case_match.
  { eexists; split; [done|]. eapply in_order_weaken; [|done]. lia. }
  rewrite !(proj2 (Nat.ltb_ge _ _)) by lia. cbn [orb mbind option_bind].
  eexists; split; [done|]. split; [lia|]. eapply in_order_weaken; [|done]. lia.
Qed.

(** The chunks whose place respects the running line index: all of them when line
    endings are preserved, else those without the end-of-file marker, in a file
    that does not end in a blank line. *)
Definition ordered_mode (md : ApplyPatchFileUpdateMode) (ls : list str)
    (chunks : list UpdateFileChunk) : Prop :=
  md = PreserveLineEndings ∨
  (last_is_empty ls = false ∧ Forall (λ c, is_end_of_file c = false) chunks).

Lemma insertion_idx_le ls md : insertion_idx ls md ≤ length ls.
Proof. unfold insertion_idx. repeat case_match; lia. Qed.

Lemma context_index_le ls path chunk idx md idx' :
  context_index ls path chunk idx md = Ok idx' → idx ≤ length ls → idx ≤ idx' ≤ length ls.
Proof.
  unfold context_index. destruct (change_context chunk) as [ctx|]; [|naive_solver].
  destruct (seek_sequence _ _ _ _ _) eqn:Hs; [|done]. intros [= <-] Hle.
  apply seek_sequence_range in Hs as [H1 H2]; [|done]. simpl in H1.
  pose proof (H2 (or_intror eq_refl)). lia.
Qed.

(** One turn of the loop never panics; its replacements are one insertion at
    [insertion_idx], or lie in order in the region found for the chunk. *)
Lemma chunk_replacements_place ls path chunk idx md :
  chunk_ok chunk → idx ≤ length ls →
  ∃ r, chunk_replacements ls path chunk idx md = Some r ∧
    ∀ reps idx', r = Ok (reps, idx') →
      idx' ≤ length ls ∧
      (old_lines chunk = [] ∧ idx ≤ idx' ∧ reps = [(insertion_idx ls md, 0, new_lines chunk)] ∨
       ∃ i, in_order i idx' reps ∧ (ordered_mode md ls [chunk] → idx ≤ i)).
Proof.
  intros Hok Hle. unfold chunk_replacements.
  destruct (context_index ls path chunk idx md) as [j|e] eqn:Hj; [|by eexists].
  apply context_index_le in Hj as [Hj1 Hj2]; [|done].
  case_bool_decide; [eexists; split; [done|]; naive_solver|].
  destruct (locate_old_lines ls chunk j md) as [[[i pattern] new]|] eqn:Hl; [|by eexists].
  apply locate_old_lines_range in Hl as [Hl1 Hl2]; [|done].
  assert (∃ rs, match md with
    | NormalizeToLf => Some [(i, length pattern, new)]
    | PreserveLineEndings => context_replacements i (length pattern) new 0 0
                               (context_line_indices chunk)
    end = Some rs ∧ in_order i (i + length pattern) rs) as (rs & -> & Hrs).
  { destruct md; [eexists; split; [done|]; simpl; lia|].
    edestruct context_replacements_in_order as (rs & -> & Hrs); [exact Hok|lia|lia|].
    rewrite Nat.add_0_r in Hrs. eauto. }
  cbn [mbind option_bind]. eexists; split; [done|]. intros ? ? [= <- <-]. split; [lia|].
  right. exists i. split; [done|]. intros Hmd. etrans; [exact Hj1|]. apply Hl2.
  destruct Hmd as [|[_ Hmd]]; [by left|right]. by inversion Hmd.
Qed.

(** The replacements pushed so far: each ends at or before the line index or
    inserts at the end of the file. *)
Definition pushed (n idx : nat) (acc : list Replacement) : Prop :=
  StronglySorted compat acc ∧
  Forall (λ r, end_index r ≤ idx ∨ start_index r = n ∧ r.1.2 = 0) acc.

Lemma pushed_insertion n idx idx' seg acc :
  idx ≤ idx' → idx ≤ n → pushed n idx acc → pushed n idx' (acc ++ [(n, 0, seg)]).
Proof.
  intros Hidx Hn [Hs Hf]. rewrite Forall_forall in Hf. split.
  - apply StronglySorted_app_2; [|done|by repeat constructor].
    intros x y Hx Hy%list_elem_of_singleton. subst y. left. unfold before, start_index. simpl.
    destruct (Hf x Hx) as [|[Hst H0]]; [lia|]. unfold end_index, start_index in *. lia.
  - rewrite Forall_app, Forall_singleton. split; [|by right].
    apply Forall_forall. intros x Hx. destruct (Hf x Hx); [left; lia|by right].
Qed.

Lemma pushed_region n idx i idx' reps acc :
  idx ≤ i → idx' ≤ n → in_order i idx' reps → pushed n idx acc → pushed n idx' (acc ++ reps).
Proof.
  intros Hi Hn (Hle & Hb & Hr)%in_order_before [Hs Hf]. rewrite Forall_forall in Hf, Hr. split.
  - apply StronglySorted_app_2; [|done|].
    + intros x y Hx Hy. destruct (Hr y Hy) as [Hy1 Hy2]. unfold compat, before.
      destruct (Hf x Hx) as [|[Hst H0]]; [left; lia|right; split; [done|lia]].
    + clear -Hb. induction Hb as [|x l Hb IH Hx]; constructor; [done|].
      eapply Forall_impl; [done|]. intros y ?. by left.
  - apply Forall_app. split; apply Forall_forall.
    + intros x Hx. destruct (Hf x Hx); [left; lia|by right].
    + intros x Hx. left. by apply Hr.
Qed.

Lemma ordered_mode_cons md ls c chunks :
  ordered_mode md ls (c :: chunks) ↔ ordered_mode md ls [c] ∧ ordered_mode md ls chunks.
Proof. unfold ordered_mode. rewrite !Forall_cons, Forall_nil. tauto. Qed.

Lemma ordered_mode_insertion md ls chunks :
  ordered_mode md ls chunks → insertion_idx ls md = length ls.
Proof. intros [->|[Hl _]]; unfold insertion_idx; [done|]. rewrite Hl. by destruct md. Qed.

Lemma chunks_replacements_place ls path chunks idx md acc :
  Forall chunk_ok chunks → idx ≤ length ls → Forall (λ r, end_index r ≤ length ls) acc →
  ∃ r, chunks_replacements ls path chunks idx md acc = Some r ∧
    ∀ reps, r = Ok reps → Forall (λ r, end_index r ≤ length ls) reps ∧
      (ordered_mode md ls chunks → pushed (length ls) idx acc → StronglySorted compat reps).
Proof.
  intros Hok. revert idx acc. induction Hok as [|c chunks Hc Hok IH]; intros idx acc Hidx Hacc.
  { eexists. split; [done|]. intros ? [= <-]. split; [done|]. by intros _ []. }
  simpl. destruct (chunk_replacements_place ls path c idx md) as (r & -> & Hr); [done..|].
  cbn [mbind option_bind]. destruct r as [[reps idx']|e]; [|by eexists].
  destruct (Hr _ _ eq_refl) as [Hidx' Hreps].
  edestruct (IH idx' (acc ++ reps)) as (r & -> & Hres); [done| |].
  { apply Forall_app. split; [done|]. destruct Hreps as [(_ & _ & ->)|(i & Ho & _)].
    - apply Forall_singleton. unfold end_index. simpl. pose proof (insertion_idx_le ls md). lia.
    - apply in_order_before in Ho as (_ & _ & Ho). eapply Forall_impl; [exact Ho|]. simpl. lia. }
  eexists; split; [done|]. intros reps' Hreps'. destruct (Hres reps' Hreps') as [H1 H2].
  split; [done|]. intros [Hm1 Hm2]%ordered_mode_cons Hp. apply H2; [done|].
  destruct Hreps as [(_ & Hle & ->)|(i & Ho & Hi)].
  - rewrite (ordered_mode_insertion md ls [c]) by done. by apply pushed_insertion with idx.
  - apply pushed_region with idx i; auto.
Qed.

(** What [compute_replacements] returns. *)
Lemma compute_replacements_place ls path chunks md :
  Forall chunk_ok chunks →
  ∃ r, compute_replacements ls path chunks md = Some r ∧
    ∀ reps, r = Ok reps →
      StronglySorted (λ a b, start_index a ≤ start_index b) reps ∧
      Forall (λ r, end_index r ≤ length ls) reps ∧
      (ordered_mode md ls chunks → in_order 0 (length ls) reps).
Proof.
  intros Hok. unfold compute_replacements.
  destruct (chunks_replacements_place ls path chunks 0 md []) as (r & -> & Hr); [done|lia|done|].
  cbn [mbind option_bind]. destruct r as [reps|e]; [|by eexists].
  destruct (Hr _ eq_refl) as [Hend Hs]. eexists; split; [done|]. intros ? [= <-].
  assert (Forall (λ r, end_index r ≤ length ls) (sort_by_key reps)) as Hend'.
  { by rewrite sort_by_key_Permutation. }
  split_and!; [apply sort_by_key_sorted|done|]. intros Hm. apply in_order_before.
  split_and!; [lia|apply sort_by_key_before, Hs; [done|by repeat constructor]|].
  eapply Forall_impl; [done|]. intros r ?. split; [lia|done].
Qed.

(** For well-formed chunks the computed replacements are in source order and
    within the file, and they do not overlap whenever line endings are preserved
    (or no chunk is marked end-of-file and the file has no blank last line); applied
    in place they are then exactly the list edit they describe. *)
Theorem compute_replacements_ordered ls path chunks md reps :
  Forall chunk_ok chunks → compute_replacements ls path chunks md = Some (Ok reps) →
  StronglySorted (λ a b, start_index a ≤ start_index b) reps ∧
  Forall (λ r, end_index r ≤ length ls) reps ∧
  (ordered_mode md ls chunks →
    in_order 0 (length ls) reps ∧
    ∃ ls', FileUpdate.apply_replacements ls reps = Some ls' ∧ edited 0 reps ls ls').
Proof.
  intros Hok Hc. destruct (compute_replacements_place ls path chunks md Hok) as (r & Hr & Hres).
  rewrite Hc in Hr. injection Hr as <-. destruct (Hres _ eq_refl) as (Hs & He & Ho).
  split_and!; [done..|]. intros Hm. specialize (Ho Hm). split; [done|].
  destruct (edited_total 0 reps ls Ho) as [ls' He']. exists ls'. split; [|done].
  by apply (apply_replacements_edited []).
Qed.

Lemma compute_replacements_ordered_witness :
  let ls := [lit "a"; lit "b"; lit "c"] in
  let chunks := [mkChunk None [] [lit "z"] [] false; mkChunk None [lit "b"] [lit "x"] [] false] in
  compute_replacements ls (lit "p") chunks NormalizeToLf
    = Some (Ok [(1, 1, [lit "x"]); (3, 0, [lit "z"])]) ∧
  in_order 0 3 [(1, 1, [lit "x"]); (3, 0, [lit "z"])].
Proof.
  split; [reflexivity|].
  eapply (compute_replacements_ordered [lit "a"; lit "b"; lit "c"] (lit "p")
    [mkChunk None [] [lit "z"] [] false; mkChunk None [lit "b"] [lit "x"] [] false] NormalizeToLf).
  - by repeat constructor.
  - reflexivity.
  - right. split; [reflexivity|]. by repeat constructor.
Defined.

Lemma new_contents_of_Some original path chunks md :
  Forall chunk_ok chunks → ∃ r, new_contents_of original path chunks md = Some r.
Proof.
  intros Hok. unfold new_contents_of. destruct md.
  - destruct (compute_replacements_place (split_lines original) path chunks NormalizeToLf Hok)
      as (r & -> & Hr). cbn [mbind option_bind]. destruct r as [reps|e]; [|by eexists].
    destruct (Hr _ eq_refl) as (Hs & He & _).
    destruct (apply_replacements_Some reps (split_lines original)) as (ls' & -> & _);
      [done| |by eexists].
    eapply Forall_impl; [exact He|]. intros x. pose proof (start_le_end x). simpl. lia.
  - set (f := parse original).
    destruct (compute_replacements_place (line_texts f) path chunks PreserveLineEndings Hok)
      as (r & -> & Hr). cbn [mbind option_bind]. destruct r as [reps|e]; [|by eexists].
    destruct (Hr _ eq_refl) as (_ & _ & Ho).
    destruct (source_replacements_Some f reps) as (ls' & _ & ->); [|by eexists].
    specialize (Ho (or_introl eq_refl)). unfold line_texts in Ho. by rewrite length_fmap in Ho.
Qed.

(** A file update never panics: for the chunks the parser produces, in both
    modes, every index computation, slice and insertion is in range, whatever the
    file contains, and the update returns new contents or an error. *)
Theorem new_contents_of_total original path chunks md :
  Forall chunk_ok chunks → ∃ r, new_contents_of original path chunks md = Some r.
Proof. apply new_contents_of_Some. Qed.

Lemma new_contents_of_total_witness :
  ∃ r, new_contents_of (lit "a") (lit "p") [mkChunk None [lit "a"] [] [] true] NormalizeToLf = Some r.
Proof. apply (new_contents_of_total (lit "a")). by repeat constructor. Defined.

(** * Applying a diff to the file it was made for

    The abstract specification [patched] of an update (the old lines of each chunk
    are replaced, in order, where they first occur) and the theorem that the code
    computes it in both modes. *)

(** No occurrence of [pattern] starts within [skip] in [skip ++ pattern ++ rest]. *)
Definition fresh (pattern skip rest : list str) : Prop :=
  ∀ j, j < length skip →
    take (length pattern) (drop j (skip ++ pattern ++ rest)) ≠ pattern.

(** [before] ends with the chunk's context line, at its first occurrence. *)
Definition ends_at_context (c : UpdateFileChunk) (before : list str) : Prop :=
  match change_context c with
  | None => before = []
  | Some ctx => ∃ a, before = a ++ [ctx] ∧ ctx ∉ a
  end.

(** [patched cs ls ls']: applying the chunks [cs] to the lines [ls] gives [ls'].
    A chunk marked end-of-file has its old lines at the end; a last chunk without
    old lines appends, when [appendable]. *)
Inductive patched (appendable : Prop) : list UpdateFileChunk → list str → list str → Prop :=
| patched_nil ls : patched appendable [] ls ls
| patched_append c ls :
    appendable → old_lines c = [] → change_context c = None →
    patched appendable [c] ls (ls ++ new_lines c)
| patched_change c cs before skip rest rest' :
    old_lines c ≠ [] →
    ends_at_context c before →
    (if is_end_of_file c then rest = [] else fresh (old_lines c) skip rest) →
    patched appendable cs rest rest' →
    patched appendable (c :: cs) (before ++ skip ++ old_lines c ++ rest)
      (before ++ skip ++ new_lines c ++ rest').

(** ** Composing edits *)

Lemma edited_skip {A} i rs (kept ls ls' : list A) :
  edited (i + length kept) rs ls ls' → edited i rs (kept ++ ls) (kept ++ ls').
Proof.
  intros He. inversion He as [|? s n seg reps kept2 old rest rest' Hs Hn He2]; subst; [constructor|].
  rewrite !(app_assoc kept kept2). constructor; [rewrite length_app; lia|done|done].
Qed.

Lemma edited_app {A} i rs1 rs2 (l1 l1' l2 l2' : list A) :
  edited i rs1 l1 l1' → edited (i + length l1) rs2 l2 l2' →
  edited i (rs1 ++ rs2) (l1 ++ l2) (l1' ++ l2').
Proof.
  induction 1 as [|i s n seg rs1 kept old rest rest' Hs Hn He IH]; intros H2.
  - by apply edited_skip.
  - rewrite <- !app_assoc. constructor; [done|done|]. apply IH.
    rewrite !length_app in H2. by replace (s + n + length rest)
      with (i + (length kept + (length old + length rest))) by lia.
Qed.

Lemma edited_one {A} i n (seg old : list A) :
  length old = n → edited i [(i, n, seg)] old seg.
Proof.
  intros Hn. pose proof (edited_cons i i n seg [] [] old [] []) as H.
  simpl in H. rewrite !app_nil_r in H. apply H; [lia|done|constructor].
Qed.

(** ** The search finds the first exact occurrence *)

Lemma seek_sequence_exact pre skip pattern rest eof md :
  pattern ≠ [] → (if eof : bool then rest = [] else fresh pattern skip rest) →
  seek_sequence (pre ++ skip ++ pattern ++ rest) pattern (length pre) eof md
  = Some (length pre + length skip).
Proof.
  intros Hne Hf. unfold seek_sequence. rewrite bool_decide_eq_false_2 by done.
  set (ls := pre ++ skip ++ pattern ++ rest).
  assert (length ls = length pre + length skip + length pattern + length rest) as Hlen.
  { unfold ls. rewrite !length_app. lia. }
  rewrite (proj2 (Nat.ltb_ge _ _)) by lia. cbv zeta.
  unfold pass at 1, or_else. erewrite (proj2 (first_index_Some _ _ _ _)); [done|].
  split_and!.
  - unfold search_start. destruct eof; simpl; [|lia]. subst rest. simpl in Hlen.
    rewrite (proj2 (Nat.leb_le _ _)) by lia. destruct md; lia.
  - unfold search_start. destruct eof; simpl; [|lia].
    rewrite (proj2 (Nat.leb_le _ _)) by lia. destruct md; lia.
  - apply matches_at_exact. unfold ls. rewrite app_assoc.
    rewrite drop_app_length' by (rewrite length_app; lia). by rewrite take_app_length.
  - intros j Hj. apply not_true_iff_false. rewrite matches_at_exact.
    unfold search_start in Hj. destruct eof; simpl in Hj.
    { subst rest. simpl in Hlen. rewrite (proj2 (Nat.leb_le _ _)) in Hj by lia.
      destruct md; lia. }
    unfold ls. rewrite drop_app_ge by lia. apply Hf. lia.
Qed.

Lemma context_index_patched pre c before rest path md :
  ends_at_context c before →
  context_index (pre ++ before ++ rest) path c (length pre) md
  = Ok (length (pre ++ before)).
Proof.
  unfold ends_at_context, context_index. destruct (change_context c) as [ctx|].
  - intros (a & -> & Ha). rewrite <- (app_assoc a [ctx]). rewrite seek_sequence_exact; [|done|].
    + f_equal. rewrite !length_app. simpl. lia.
    + intros j Hj Heq. simpl in Heq.
      destruct (lookup_lt_is_Some_2 a j Hj) as [x Hx].
      rewrite (drop_S _ x) in Heq by (by apply lookup_app_l_Some).
      injection Heq as ->. apply Ha. by eapply list_elem_of_lookup_2.
  - intros ->. by rewrite app_nil_r.
Qed.

(** ** The replacements of a chunk whose old lines are found exactly *)

Lemma context_replacements_edited s old new o k ctx :
  context_ok o k old new ctx → o ≤ length old → k ≤ length new →
  ∃ rs, context_replacements s (length old) new o k ctx = Some rs ∧
    edited (s + o) rs (drop o old) (drop k new).
Proof.
  revert o k. induction ctx as [|[oc nc] ctx IH]; intros o k; cbn [context_ok context_replacements].
  - intros _ Ho Hk. unfold context_tail. case_match; bool_hyps.
    + subst. rewrite !drop_all. eexists; split; [done|constructor].
    + rewrite !(proj2 (Nat.ltb_ge _ _)) by lia. eexists; split; [done|].
      apply edited_one. by rewrite length_drop.
  - intros (Hoc & Hnc & (l & Hlo & Hln) & Hctx) Ho Hk.
    pose proof (lookup_lt_Some _ _ _ Hlo). pose proof (lookup_lt_Some _ _ _ Hln).
    rewrite !(proj2 (Nat.leb_gt _ _)) by lia. cbn [orb].
    destruct (IH (S oc) (S nc) Hctx) as (rs & -> & He); [lia|lia|].
    assert (edited (s + oc) rs (drop oc old) (drop nc new)) as He'.
    { rewrite (drop_S old l), (drop_S new l) by done. apply (edited_skip _ _ [l]).
      simpl. by replace (s + oc + 1) with (s + S oc) by lia. }
    case_match; bool_hyps.
    { subst. by eexists. }
    rewrite !(proj2 (Nat.ltb_ge _ _)) by lia. cbn [orb mbind option_bind].
    eexists; split; [done|].
    rewrite <- (take_drop (oc - o) (drop o old)), <- (take_drop (nc - k) (drop k new)), !drop_drop.
    replace (o + (oc - o)) with oc by lia. replace (k + (nc - k)) with nc by lia.
    unfold slice. apply (edited_cons _ _ _ _ _ []); [simpl; lia| |].
    + rewrite length_take, length_drop. lia.
    + by replace (s + o + (oc - o)) with (s + oc) by lia.
Qed.

Lemma chunk_replacements_patched pre c before skip rest path md :
  chunk_ok c → old_lines c ≠ [] → ends_at_context c before →
  (if is_end_of_file c then rest = [] else fresh (old_lines c) skip rest) →
  let start := length (pre ++ before) + length skip in
  ∃ rs, chunk_replacements (pre ++ before ++ skip ++ old_lines c ++ rest) path c (length pre) md
        = Some (Ok (rs, start + length (old_lines c))) ∧
    edited start rs (old_lines c) (new_lines c).
Proof.
  intros Hok Hne Hctx Hf start. unfold chunk_replacements.
  rewrite context_index_patched by done. rewrite bool_decide_eq_false_2 by done.
  unfold locate_old_lines. rewrite (app_assoc pre before), seek_sequence_exact by done.
  fold start. destruct md; cbn [mbind option_bind].
  - eexists; split; [done|]. by apply edited_one.
  - destruct (context_replacements_edited start _ _ 0 0 _ Hok) as (rs & -> & He); [lia|lia|].
    rewrite Nat.add_0_r in He. eexists; split; [done|exact He].
Qed.

Lemma chunks_replacements_patched (appendable : Prop) pre cs ls ls' path md acc :
  (appendable → insertion_idx (pre ++ ls) md = length (pre ++ ls)) →
  Forall chunk_ok cs → patched appendable cs ls ls' →
  ∃ rs, chunks_replacements (pre ++ ls) path cs (length pre) md acc = Some (Ok (acc ++ rs)) ∧
    edited (length pre) rs ls ls'.
Proof.
  intros Happ Hok Hp. revert pre acc Happ.
  induction Hp as [ls|c ls Ha Hold Hctx|c cs before skip rest rest' Hne Hctx Hf Hp IH];
    intros pre acc Happ.
  - exists []. rewrite app_nil_r. split; [done|constructor].
  - cbn [chunks_replacements]. unfold chunk_replacements, context_index. rewrite Hctx, Hold.
    simpl. eexists; split; [done|]. rewrite (Happ Ha), length_app.
    rewrite <- (app_nil_r ls) at 2. apply edited_skip. by apply edited_one.
  - inversion Hok as [|? ? Hc Hcs]; subst. cbn [chunks_replacements].
    destruct (chunk_replacements_patched pre c before skip rest path md) as (rs & -> & He);
      [done..|]. cbn [mbind option_bind].
    destruct (IH Hcs (pre ++ before ++ skip ++ old_lines c) (acc ++ rs)) as (rs' & Hrs' & He').
    { by rewrite <- !app_assoc. }
    rewrite <- !app_assoc in Hrs'. rewrite !length_app in *.
    rewrite !Nat.add_assoc in *. rewrite Hrs'. eexists; split; [done|].
    apply edited_skip, edited_skip, edited_app; [done|done].
Qed.

(** ** The contents written *)

(** Every line followed by a line feed. *)
Definition unlines (ls : list str) : str := mjoin ((λ l, l ++ [c_nl]) <$> ls).

(** A final blank line, dropped. *)
Definition drop_blank (ls : list str) : list str :=
  if last_is_empty ls then take (length ls - 1) ls else ls.

Lemma join_unlines ls : join [c_nl] (ls ++ [[]]) = unlines ls.
Proof.
  induction ls as [|l ls IH]; [done|]. cbn [app]. unfold join.
  rewrite join_with_cons by (by destruct ls). unfold join in IH. rewrite IH.
  unfold unlines. simpl. by rewrite <- app_assoc.
Qed.

Lemma last_is_empty_inv ls : last_is_empty ls = true → ls = take (length ls - 1) ls ++ [[]].
Proof.
  unfold last_is_empty. destruct (last ls) as [l|] eqn:Hl; [|done]. intros ?. bool_hyps. subst.
  apply last_Some in Hl as [ls' ->]. rewrite length_app. simpl.
  replace (length ls' + 1 - 1) with (length ls') by lia. by rewrite take_app_length.
Qed.

Lemma join_drop_blank ls :
  join [c_nl] (if last_is_empty ls then ls else ls ++ [[]]) = unlines (drop_blank ls).
Proof.
  unfold drop_blank. destruct (last_is_empty ls) eqn:Hl; [|apply join_unlines].
  rewrite (last_is_empty_inv ls Hl) at 1. apply join_unlines.
Qed.

Lemma compute_replacements_patched (appendable : Prop) cs ls ls' path md :
  (appendable → insertion_idx ls md = length ls) → Forall chunk_ok cs →
  patched appendable cs ls ls' →
  ∃ rs, compute_replacements ls path cs md = Some (Ok rs) ∧ edited 0 rs ls ls'.
Proof.
  intros Happ Hok Hp. unfold compute_replacements.
  destruct (chunks_replacements_patched appendable [] cs ls ls' path md []) as (rs & Hrs & He);
    [done..|]. simpl in Hrs, He. rewrite Hrs. exists rs. cbn [mbind option_bind].
  by erewrite sort_by_key_id by (by apply edited_in_order in He).
Qed.

Lemma append_idx ls : last_is_empty ls = false → insertion_idx ls NormalizeToLf = length ls.
Proof. unfold insertion_idx. by intros ->. Qed.

(** C12.  Applying a diff to the file it was made for gives the file it describes.
    Normalizing, the new contents are the patched lines, each followed by a line
    feed, except that a blank last line is dropped; preserving line endings, they
    are a file with exactly the patched lines, all terminated, in which every line
    the diff does not touch keeps its terminator. *)
Theorem new_contents_of_patched original path chunks ls' :
  Forall chunk_ok chunks →
  (patched (last_is_empty (split_lines original) = false) chunks (split_lines original) ls' →
   new_contents_of original path chunks NormalizeToLf = Some (Ok (unlines (drop_blank ls')))) ∧
  (patched True chunks (line_texts (parse original)) ls' →
   ∃ f' rs kept, new_contents_of original path chunks PreserveLineEndings
                 = Some (Ok (into_contents f')) ∧
     line_texts f' = ls' ∧
     edited 0 rs (line_texts (parse original)) ls' ∧
     edited 0 (map (map_replacement (inserted (preferred_ending (parse original)))) rs)
       (file_lines (parse original)) kept ∧
     file_lines f' = terminate (preferred_ending (parse original)) <$> kept).
Proof.
  intros Hok. split; intros Hp.
  - destruct (compute_replacements_patched _ _ _ _ path NormalizeToLf
      (append_idx (split_lines original)) Hok Hp) as (rs & Hrs & He).
    unfold new_contents_of. rewrite Hrs. cbn [mbind option_bind].
    change (split_lines original) with ([] ++ split_lines original).
    rewrite (apply_replacements_edited [] rs _ _ He). cbn [mbind option_bind app].
    by rewrite join_drop_blank.
  - set (f := parse original) in *.
    destruct (compute_replacements_patched _ _ _ _ path PreserveLineEndings
      (λ _, eq_refl) Hok Hp) as (rs & Hrs & He).
    destruct (source_replacements_Some f rs) as (kept & Hk & Ha).
    { apply edited_in_order in He. unfold line_texts in He. by rewrite length_fmap in He. }
    eexists (mkFile (terminate (preferred_ending f) <$> kept) (preferred_ending f)), rs, kept.
    split_and!; [| |done..].
    + unfold new_contents_of. fold f. rewrite Hrs. cbn [mbind option_bind]. by rewrite Ha.
    + apply (edited_fun 0 rs (line_texts f)); [|done]. by apply apply_replacements_texts.
Qed.

Lemma new_contents_of_patched_witness :
  new_contents_of (lit "a" ++ [c_nl] ++ lit "b" ++ [c_nl]) (lit "p")
    [mkChunk None [lit "b"] [lit "x"; lit "y"] [] false] NormalizeToLf
  = Some (Ok (unlines [lit "a"; lit "x"; lit "y"])).
Proof.
  apply (new_contents_of_patched _ _ _ [lit "a"; lit "x"; lit "y"]); [by repeat constructor|].
  apply (patched_change _ (mkChunk None [lit "b"] [lit "x"; lit "y"] [] false) [] []
    [lit "a"] [] []); [discriminate|reflexivity| |constructor].
  intros [|j] Hj; [vm_compute; discriminate|vm_compute in Hj; lia].
Defined.

(** In normalizing mode an end-of-file chunk may be placed inside lines an
    earlier chunk of the same update already replaced: the replacements overlap, and
    the new lines of the end-of-file chunk are lost from the result, without an
    error. *)
Theorem eof_chunk_overlaps :
  ∃ original c1 c2, Forall chunk_ok [c1; c2] ∧ is_end_of_file c2 = true ∧
    (∃ reps, compute_replacements (split_lines original) [] [c1; c2] NormalizeToLf = Some (Ok reps) ∧
      ¬ in_order 0 (length (split_lines original)) reps) ∧
    new_lines c2 ≠ [] ∧
    new_contents_of original [] [c1; c2] NormalizeToLf
    = new_contents_of original [] [c1] NormalizeToLf ∧
    (∃ e, new_contents_of original [] [c1; c2] PreserveLineEndings = Some (Err e)).
Proof.
  exists (lit "a" ++ [c_nl] ++ lit "b" ++ [c_nl] ++ lit "c" ++ [c_nl]),
    (mkChunk None [lit "b"; lit "c"] [lit "x"; lit "y"] [] false),
    (mkChunk None [lit "c"] [lit "z"] [] true).
  split_and!; [by repeat constructor|done| |done|reflexivity|].
  - eexists. split; [vm_compute; reflexivity|]. vm_compute. lia.
  - eexists. vm_compute. reflexivity.
Qed.
