(* ===== verification/FsInterface.v ===== *)
(** * FsInterface: what apply-patch needs of its environment

    The [ExecutorFileSystem] trait ([file-system/src/lib.rs]), [PathUri]
    ([utils/path-uri]) and [anyhow::Error] as classes of operations, the laws of a
    well-behaved file system as a second class, and an in-memory file system that
    satisfies them. *)
From S2P Require Import Prelude RustStr PatchTypes PatchErrors.

(** ** Paths *)

Inductive PathConvention := Posix | Windows.

#[export] Instance PathConvention_eq_dec : EqDecision PathConvention.
Proof. solve_decision. Defined.

(** [PathConvention::path_segments]. *)
Definition path_segments (c : PathConvention) (path : str) : list str :=
  split_at_all (λ ch, match c with
                      | Posix => is_char 47%N ch
                      | Windows => is_char 47%N ch || is_char 92%N ch
                      end) path.

Class PathUriOps (P : Type) := {
  path_eq_dec :: EqDecision P;
  path_countable :: Countable P;
  (** [PathUri::join]. *)
  path_join : P → str → result PathUriParseError P;
  (** [PathUri::parent]. *)
  path_parent : P → option P;
  (** [PathUri::inferred_native_path_string]. *)
  native_string : P → str;
  (** [PathUri::infer_path_convention]. *)
  infer_path_convention : P → option PathConvention;
}.

(** ** The file system *)

Record FileMetadata := mkMetadata {
  is_directory : bool;
  is_file : bool;
  is_symlink : bool;
}.

(** The operations of [&dyn ExecutorFileSystem] the crate calls, on a world [W].
    The sandbox context is the same in all calls and part of the instance.  A
    [bool] argument is [follow_symlinks]; text is written as its UTF-8 bytes. *)
Class ExecutorFileSystem (W P : Type) := {
  read_file_text : P → bool → M W io_error str;
  write_file : P → str → bool → M W io_error unit;
  (** [CreateDirectoryOptions { recursive: true, .. }]. *)
  create_directory : P → bool → M W io_error unit;
  (** [RemoveOptions { recursive: false, force: false, .. }]. *)
  remove : P → bool → M W io_error unit;
  get_metadata : P → bool → M W io_error FileMetadata;
}.

(** A metadata answer that shows a regular file, or nothing, at the path. *)
Definition regular_answer (r : result io_error FileMetadata) : bool :=
  match r with
  | Ok m => is_file m && negb (is_symlink m)
  | Err e => bool_decide (kind e = NotFound)
  end.

(** Two file contents that agree everywhere but at [p]. *)
Definition same_except {P} `{Countable P} (p : P) (v v' : gmap P str) : Prop :=
  ∀ q, q ≠ p → v' !! q = v !! q.

(** The laws of a file system without aliasing: [view] is the text of its regular
    files, [plain w p] says that [p] names a regular file or nothing.

    They are an assumption about the tree a patch is applied to, not about every disk: no
    hard link names one file twice, no symbolic link is among the directories of a path
    ([is_symlink] tells only about the path itself), and no one else writes meanwhile.  The
    local file system follows such links, so that two paths may be one file there; what is
    shown of patches is for trees without them. *)
Class FileSystemLaws (W P : Type) `{PathUriOps P, ExecutorFileSystem W P} := {
  view : W → gmap P str;
  plain : W → P → Prop;
  (** Reading, asking for metadata and creating directories change no file. *)
  read_view p b w : view (read_file_text p b w).1 = view w;
  read_plain p b w q : plain w q → plain (read_file_text p b w).1 q;
  metadata_view p b w : view (get_metadata p b w).1 = view w;
  metadata_plain p b w q : plain w q → plain (get_metadata p b w).1 q;
  create_view p b w : view (create_directory p b w).1 = view w;
  create_plain p b w q w' :
    plain w q → create_directory p b w = (w', Ok tt) → is_Some (view w !! q) → plain w' q;
  (** Creating the missing parents of a file leaves the file missing. *)
  create_plain_child p q b w w' :
    path_parent q = Some p → plain w q → create_directory p b w = (w', Ok tt) → plain w' q;
  (** Metadata tells the plain paths. *)
  metadata_regular p b w w' r :
    get_metadata p b w = (w', r) → regular_answer r = true → plain w' p;
  (** Reading a plain path returns its text; a missing file is reported as such. *)
  read_ok p b w w' s : plain w p → read_file_text p b w = (w', Ok s) → view w !! p = Some s;
  read_not_found p b w w' e :
    plain w p → read_file_text p b w = (w', Err e) → kind e = NotFound → view w !! p = None;
  (** Writing to a plain path sets its text; a failed write changes at most it. *)
  write_ok p s b w w' : plain w p → write_file p s b w = (w', Ok tt) →
    view w' = <[p := s]> (view w) ∧ plain w' p;
  write_err p s b w w' e : plain w p → write_file p s b w = (w', Err e) →
    same_except p (view w) (view w') ∧ plain w' p;
  write_plain p s b w q : plain w q → is_Some (view w !! q) → plain (write_file p s b w).1 q;
  (** Removing a plain path removes it; a failed removal removes it or changes
      nothing. *)
  remove_ok p b w w' : plain w p → remove p b w = (w', Ok tt) → view w' = delete p (view w);
  remove_err p b w w' e : plain w p → remove p b w = (w', Err e) →
    (view w' = view w ∨ view w' = delete p (view w)) ∧ plain w' p;
}.

(** ** Errors *)

(** [anyhow::Error]: the conversions, [with_context] and [bail!] the crate uses. *)
Class AnyhowOps (X : Type) := {
  any_msg : str → X;
  any_io : io_error → X;
  any_apply : ApplyPatchError → X;
  any_path : PathUriParseError → X;
  any_context : str → X → X;
  any_to_string : X → str;
  any_downcast_io : X → option io_error;
}.

(** The documented behaviour of [to_string] (the outermost message) and of
    [downcast_ref] (through contexts to the converted error). *)
Class AnyhowLaws (X : Type) `{AnyhowOps X} := {
  to_string_msg m : any_to_string (any_msg m) = m;
  to_string_io e : any_to_string (any_io e) = message e;
  to_string_context c x : any_to_string (any_context c x) = c;
  downcast_msg m : any_downcast_io (any_msg m) = None;
  downcast_io e : any_downcast_io (any_io e) = Some e;
  downcast_apply e : any_downcast_io (any_apply e) = None;
  downcast_path e : any_downcast_io (any_path e) = None;
  downcast_context c x : any_downcast_io (any_context c x) = any_downcast_io x;
}.
