(* ===== verification/MemFs.v ===== *)
(** * MemFs: an in-memory file system

    An instance of the interfaces of [FsInterface] that satisfies their laws:
    regular files, directories a file's parent must be among, and a set of locked
    paths whose writes and removals fail.  It instantiates the theorems' witnesses. *)
From S2P Require Import Prelude RustStr PatchErrors FsInterface.

Definition c_slash : char := 47%N.

(** Paths separated by [/]; a relative path is appended to the base. *)
#[export, program] Instance str_path : PathUriOps str := {|
  path_eq_dec := _;
  path_countable := _;
  path_join base p :=
    if starts_with [c_slash] p then Ok p
    else if bool_decide (p = []) then Ok base else Ok (base ++ [c_slash] ++ p);
  path_parent p := fst <$> rsplit_once c_slash p;
  native_string p := p;
  infer_path_convention _ := Some Posix;
|}.

Record MemFs := mkMem { files : gmap str str; dirs : gset str; locked : gset str }.

Definition missing : io_error := mkIo NotFound (lit "No such file or directory").
Definition denied : io_error := mkIo (AnotherKind 1) (lit "Permission denied").
Definition not_a_directory : io_error := mkIo (AnotherKind 2) (lit "File exists").

(** The parent of a path is there (or the path has none). *)
Definition has_parent (p : str) (w : MemFs) : bool :=
  match path_parent p with Some d => bool_decide (d ∈ dirs w) | None => true end.

Definition mem_read (p : str) (b : bool) : M MemFs io_error str := λ w,
  (w, ok_or missing (files w !! p)).
Definition mem_write (p s : str) (b : bool) : M MemFs io_error unit := λ w,
  if bool_decide (p ∈ dirs w) || bool_decide (p ∈ locked w) then (w, Err denied)
  else if has_parent p w then (mkMem (<[p := s]> (files w)) (dirs w) (locked w), Ok tt)
  else (w, Err missing).
Definition mem_create (p : str) (b : bool) : M MemFs io_error unit := λ w,
  match files w !! p with
  | Some _ => (w, Err not_a_directory)
  | None => (mkMem (files w) ({[p]} ∪ dirs w) (locked w), Ok tt)
  end.
Definition mem_remove (p : str) (b : bool) : M MemFs io_error unit := λ w,
  if bool_decide (p ∈ locked w) then (w, Err denied)
  else match files w !! p with
       | Some _ => (mkMem (delete p (files w)) (dirs w) (locked w), Ok tt)
       | None => (w, Err missing)
       end.
Definition mem_metadata (p : str) (b : bool) : M MemFs io_error FileMetadata := λ w,
  (w, if bool_decide (p ∈ dirs w) then Ok (mkMetadata true false false)
      else match files w !! p with
           | Some _ => Ok (mkMetadata false true false)
           | None => Err missing
           end).

#[export] Instance mem_fs : ExecutorFileSystem MemFs str := {|
  read_file_text := mem_read;
  write_file := mem_write;
  create_directory := mem_create;
  remove := mem_remove;
  get_metadata := mem_metadata;
|}.

Lemma find_length p s n : find p s = Some n → n ≤ length s.
Proof. intros (_ & ? & _)%find_Some. done. Qed.

Lemma path_parent_ne (p d : str) : path_parent p = Some d → d ≠ p.
Proof.
  unfold path_parent. simpl. unfold rsplit_once, split_once.
  destruct (find [c_slash] (reverse p)) as [n|] eqn:Hf; [|done]. intros [= <-] Heq.
  apply find_Some in Hf as ([t Ht] & Hn & _).
  apply (f_equal length) in Heq. rewrite length_reverse, length_drop, length_reverse in Heq.
  rewrite length_reverse in Hn. apply (f_equal length) in Ht. rewrite length_drop, length_reverse in Ht.
  simpl in Ht. lia.
Qed.

#[export, refine] Instance mem_fs_laws : FileSystemLaws MemFs str := {|
  view := files;
  plain w p := p ∉ dirs w;
|}.
Proof.
  all: simpl; unfold mem_read, mem_write, mem_create, mem_remove, mem_metadata, ok_or; try done.
  - intros p b w. by case_match.
  - intros p b w q w' Hq. destruct (files w !! p) eqn:Hp; [done|]. intros [= <-] [s Hs]. simpl.
    apply not_elem_of_union. split; [|done]. intros ->%elem_of_singleton.
    by assert (None = Some s) by (transitivity (files w !! p); [by symmetry|exact Hs]).
  - intros p q b w w' Hpar Hq. apply path_parent_ne in Hpar.
    destruct (files w !! p) eqn:Hp; [done|]. intros [= <-]. simpl.
    apply not_elem_of_union. split; [|done]. intros ->%elem_of_singleton. congruence.
  - intros p b w w' r [= <- <-]. case_bool_decide; simpl; [done|]. done.
  - intros p b w w' s _. destruct (files w !! p) eqn:Hp; intros; simplify_eq. exact Hp.
  - intros p b w w' e _. destruct (files w !! p) eqn:Hp; intros; simplify_eq. exact Hp.
  - intros p s b w w' Hp. repeat case_match; intros; simplify_eq; done.
  - intros p s b w w' e Hp. repeat case_match; intros; simplify_eq; done.
  - intros p s b w q. by repeat case_match.
  - intros p b w w' _. repeat case_match; intros; simplify_eq; done.
  - intros p b w w' e Hp. repeat case_match; intros; simplify_eq; (split; [by left|done]).
Defined.

(** Errors as the chain of their contexts. *)
Inductive anyhow :=
| AnyMsg (m : str)
| AnyIo (e : io_error)
| AnyApply (e : ApplyPatchError)
| AnyPath (e : PathUriParseError)
| AnyContext (c : str) (x : anyhow).

(** The messages of the two library errors are left abstract: any text would do. *)
Definition anyhow_string (x : anyhow) : str :=
  match x with
  | AnyMsg m => m
  | AnyIo e => message e
  | AnyApply _ => lit "apply_patch error"
  | AnyPath _ => lit "path error"
  | AnyContext c _ => c
  end.
Fixpoint anyhow_io (x : anyhow) : option io_error :=
  match x with AnyIo e => Some e | AnyContext _ x => anyhow_io x | _ => None end.

#[export] Instance anyhow_ops : AnyhowOps anyhow := {|
  any_msg := AnyMsg; any_io := AnyIo; any_apply := AnyApply; any_path := AnyPath;
  any_context := AnyContext; any_to_string := anyhow_string; any_downcast_io := anyhow_io;
|}.
#[export] Instance anyhow_laws : AnyhowLaws anyhow.
Proof. by split. Qed.
