(* ===== verification/ApplyHunks.v ===== *)
(** * ApplyHunks: applying a patch to a file system ([apply-patch/src/lib.rs])

    Each hunk reads, writes and removes files through the file-system interface
    and records in a delta what was committed; an error stops the application and
    keeps the delta of what was done. *)
From S2P Require Import Prelude RustStr PatchTypes StreamingParser PatchParser SeekSequence PatchErrors TextFile FileUpdate FsInterface.

Record ApplyPatchOptions := mkOptions {
  update_file_mode : ApplyPatchFileUpdateMode;
  follow_symlinks : bool;
}.

(** [ApplyPatchOptions::default()]. *)
Definition default_options : ApplyPatchOptions := mkOptions NormalizeToLf true.

Inductive AppliedPatchFileChange (P : Type) :=
| Applied_Add (content : str) (overwritten_content : option str)
| Applied_Delete (content : str)
| Applied_Update (move_path : option P) (old_content : str)
    (overwritten_move_content : option str) (new_content : str).
Arguments Applied_Add {P}.
Arguments Applied_Delete {P}.
Arguments Applied_Update {P}.

Record AppliedPatchChange (P : Type) := mkChange {
  change_path : P;
  change : AppliedPatchFileChange P;
}.
Arguments mkChange {P}.
Arguments change_path {P}.
Arguments change {P}.

Record AppliedPatchDelta (P : Type) := mkDelta {
  changes : list (AppliedPatchChange P);
  exact : bool;
}.
Arguments mkDelta {P}.
Arguments changes {P}.
Arguments exact {P}.

Definition empty_delta {P} : AppliedPatchDelta P := mkDelta [] true.

(** [AppliedPatchDelta::append]. *)
Definition append_delta {P} (d other : AppliedPatchDelta P) : AppliedPatchDelta P :=
  mkDelta (changes d ++ changes other) (exact d && exact other).

(** [AppliedPatchDelta::is_empty]. *)
Definition delta_is_empty {P} (d : AppliedPatchDelta P) : bool := bool_decide (length (changes d) = 0).

Record ApplyPatchFailure (P : Type) := mkFailure {
  failure_error : ApplyPatchError;
  failure_delta : AppliedPatchDelta P;
}.
Arguments mkFailure {P}.
Arguments failure_error {P}.
Arguments failure_delta {P}.

(** [ApplyPatchFailure::without_delta]. *)
Definition without_delta {P} (e : ApplyPatchError) : ApplyPatchFailure P := mkFailure e empty_delta.

Record AffectedPaths := mkAffected {
  added : list PathBuf;
  modified : list PathBuf;
  deleted : list PathBuf;
}.

Definition push_added (p : PathBuf) (a : AffectedPaths) : AffectedPaths :=
  mkAffected (added a ++ [p]) (modified a) (deleted a).
Definition push_modified (p : PathBuf) (a : AffectedPaths) : AffectedPaths :=
  mkAffected (added a) (modified a ++ [p]) (deleted a).
Definition push_deleted (p : PathBuf) (a : AffectedPaths) : AffectedPaths :=
  mkAffected (added a) (modified a) (deleted a ++ [p]).

(** How an application stops early: with an [anyhow::Error], or by a panic. *)
Inductive stop (X : Type) := Failed (x : X) | Panicked.
Arguments Failed {X}.
Arguments Panicked {X}.

Section apply.
Context {W P X : Type} {PU : PathUriOps P} {FS : ExecutorFileSystem W P} {AH : AnyhowOps X}.

(** The world and the [&mut AppliedPatchDelta]. *)
Record AppState := mkApp { world : W; delta : AppliedPatchDelta P }.

Abbreviation App := (M AppState (stop X)).

Definition set_exact (e : bool) (s : AppState) : AppState :=
  mkApp (world s) (mkDelta (changes (delta s)) e).
Definition push_change (c : AppliedPatchChange P) (s : AppState) : AppState :=
  mkApp (world s) (mkDelta (changes (delta s) ++ [c]) (exact (delta s))).
(** [delta.changes[i] = c]. *)
Definition set_change (i : nat) (c : AppliedPatchChange P) (s : AppState) : AppState :=
  mkApp (world s) (mkDelta (<[i := c]> (changes (delta s))) (exact (delta s))).

(** A file-system call whose result the code inspects. *)
Definition fs_op {A} (m : M W io_error A) : App (result io_error A) := λ s,
  let '(w, r) := m (world s) in (mkApp w (delta s), Ok r).

(** [?] on a result, converted into the [anyhow::Error] given. *)
Definition or_fail {A E} (f : E → X) (r : result E A) : App A :=
  lift (map_err (Failed ∘ f) r).

(** The [try_write!] macro. *)
Definition try_write {A} (m : App A) : App A := λ s,
  match m s with
  | (s', Err e) => (set_exact false s', Err e)
  | r => r
  end.

Definition resolve_path (h : Hunk) (cwd : P) : result PathUriParseError P :=
  path_join cwd (match h with UpdateFile path _ _ => path | _ => hunk_path h end).

Definition note_existing_path_delta_support (path : P) (follow : bool) : App unit :=
  metadata ← fs_op (get_metadata path follow);
  match metadata with
  | Ok m => if is_file m && negb (is_symlink m) then mret tt else modify (set_exact false)
  | Err source => if bool_decide (kind source = NotFound) then mret tt else modify (set_exact false)
  end.

Definition read_optional_file_text_for_delta (path : P) (follow : bool) : App (option str) :=
  note_existing_path_delta_support path follow;;
  r ← fs_op (read_file_text path follow);
  match r with
  | Ok content => mret (Some content)
  | Err source =>
      if bool_decide (kind source = NotFound) then mret None
      else modify (set_exact false);; mret None
  end.

Definition remove_failure_was_side_effect_free (path : P) (expected_content : option str)
    (follow : bool) : App bool :=
  match expected_content with
  | Some expected =>
      r ← fs_op (read_file_text path follow);
      mret (match r with Ok content => bool_decide (content = expected) | Err _ => false end)
  | None => mret false
  end.

Definition msg_path (prefix : str) (path : P) : str := prefix ++ native_string path.

Definition ensure_not_directory (path : P) (follow : bool) (ctx : str) : App unit :=
  metadata ← fs_op (get_metadata path follow);
  or_fail (any_context ctx ∘ any_io)
    (match metadata with
     | Ok m => if is_directory m then Err (mkIo InvalidInput (lit "path is a directory")) else Ok tt
     | Err e => Err e
     end).

Definition write_file_with_missing_parent_retry (path : P) (contents : str) (follow : bool) :
    App unit :=
  let write_ctx := any_context (msg_path (lit "Failed to write file ") path) ∘ any_io in
  r ← fs_op (write_file path contents follow);
  match r with
  | Ok _ => mret tt
  | Err err =>
      if bool_decide (kind err = NotFound) then
        (match path_parent path with
         | Some parent =>
             r ← fs_op (create_directory parent follow);
             or_fail (any_context (msg_path (lit "Failed to create parent directories for ") path)
                        ∘ any_io) r
         | None => mret tt
         end);;
        r ← fs_op (write_file path contents follow);
        or_fail write_ctx r
      else or_fail write_ctx (Err err)
  end.

(** [derive_new_contents_from_chunks] ([apply-patch/src/file_update.rs]). *)
Definition derive_new_contents_from_chunks (path : P) (chunks : list UpdateFileChunk)
    (md : ApplyPatchFileUpdateMode) (follow : bool) :
    M W (stop ApplyPatchError) AppliedPatch := λ w,
  let '(w, r) := read_file_text path follow w in
  (w, match r with
      | Err err =>
          Err (Failed (PatchIoError (mkIoError
            (msg_path (lit "Failed to read file to update ") path) err)))
      | Ok original =>
          match new_contents_of original (native_string path) chunks md with
          | None => Err Panicked
          | Some (Err e) => Err (Failed e)
          | Some (Ok new) => Ok (mkApplied original new)
          end
      end).

(** [derive_new_contents_from_chunks(..).await?]. *)
Definition derive (path : P) (chunks : list UpdateFileChunk) (o : ApplyPatchOptions) :
    App AppliedPatch := λ s,
  let '(w, r) := derive_new_contents_from_chunks path chunks (update_file_mode o)
                   (follow_symlinks o) (world s) in
  (mkApp w (delta s),
   match r with
   | Ok a => Ok a
   | Err (Failed e) => Err (Failed (any_apply e))
   | Err Panicked => Err Panicked
   end).

(** The removal of a path that was read before: on failure the delta stays exact
    only when the old text is still there. *)
Definition remove_checked (path : P) (expected_content : option str) (follow : bool) (ctx : str) :
    App unit :=
  ensure_not_directory path follow ctx;;
  r ← fs_op (remove path follow);
  match r with
  | Ok _ => mret tt
  | Err error =>
      free ← remove_failure_was_side_effect_free path expected_content follow;
      modify (λ s, set_exact (exact (delta s) && free) s);;
      throw (Failed (any_context ctx (any_io error)))
  end.

Definition apply_add (path_uri : P) (contents : str) (o : ApplyPatchOptions) : App unit :=
  overwritten ← read_optional_file_text_for_delta path_uri (follow_symlinks o);
  try_write (write_file_with_missing_parent_retry path_uri contents (follow_symlinks o));;
  modify (push_change (mkChange path_uri (Applied_Add contents overwritten))).

Definition apply_delete (path_uri : P) (o : ApplyPatchOptions) : App unit :=
  note_existing_path_delta_support path_uri (follow_symlinks o);;
  r ← fs_op (read_file_text path_uri (follow_symlinks o));
  let deleted_content := ok r in
  (match deleted_content with None => modify (set_exact false) | Some _ => mret tt end);;
  remove_checked path_uri deleted_content (follow_symlinks o)
    (msg_path (lit "Failed to delete file ") path_uri);;
  match deleted_content with
  | Some content => modify (push_change (mkChange path_uri (Applied_Delete content)))
  | None => mret tt
  end.

(** The move branch of an update. *)
Definition apply_move (path_uri dest_uri : P) (a : AppliedPatch) (o : ApplyPatchOptions) :
    App unit :=
  overwritten ← read_optional_file_text_for_delta dest_uri (follow_symlinks o);
  try_write (write_file_with_missing_parent_retry dest_uri (new_contents a) (follow_symlinks o));;
  s ← get;
  let dest_write_change_index := length (changes (delta s)) in
  modify (push_change (mkChange dest_uri (Applied_Add (new_contents a) overwritten)));;
  remove_checked path_uri (Some (original_contents a)) (follow_symlinks o)
    (msg_path (lit "Failed to remove original ") path_uri);;
  modify (set_change dest_write_change_index (mkChange path_uri
    (Applied_Update (Some dest_uri) (original_contents a) overwritten (new_contents a)))).

Definition apply_in_place (path_uri : P) (a : AppliedPatch) (o : ApplyPatchOptions) : App unit :=
  try_write (
    r ← fs_op (write_file path_uri (new_contents a) (follow_symlinks o));
    or_fail (any_context (msg_path (lit "Failed to write file ") path_uri) ∘ any_io) r);;
  modify (push_change (mkChange path_uri
    (Applied_Update None (original_contents a) None (new_contents a)))).

Definition apply_update (path_uri cwd : P) (move_path : option PathBuf)
    (chunks : list UpdateFileChunk) (o : ApplyPatchOptions) : App unit :=
  note_existing_path_delta_support path_uri (follow_symlinks o);;
  a ← derive path_uri chunks o;
  match move_path with
  | Some dest =>
      dest_uri ← or_fail any_path (path_join cwd dest);
      apply_move path_uri dest_uri a o
  | None => apply_in_place path_uri a o
  end.

(** One turn of the loop of [apply_hunks_to_files]. *)
Definition apply_hunk (o : ApplyPatchOptions) (cwd : P) (affected : AffectedPaths) (h : Hunk) :
    App AffectedPaths :=
  path_uri ← or_fail any_path (resolve_path h cwd);
  match h with
  | AddFile _ contents =>
      apply_add path_uri contents o;; mret (push_added (hunk_path h) affected)
  | DeleteFile _ =>
      apply_delete path_uri o;; mret (push_deleted (hunk_path h) affected)
  | UpdateFile _ move_path chunks =>
      apply_update path_uri cwd move_path chunks o;; mret (push_modified (hunk_path h) affected)
  end.

Fixpoint apply_hunk_list (o : ApplyPatchOptions) (cwd : P) (affected : AffectedPaths)
    (hs : list Hunk) : App AffectedPaths :=
  match hs with
  | [] => mret affected
  | h :: hs => affected ← apply_hunk o cwd affected h; apply_hunk_list o cwd affected hs
  end.

Definition apply_hunks_to_files (hs : list Hunk) (o : ApplyPatchOptions) (cwd : P) :
    App AffectedPaths :=
  match hs with
  | [] => throw (Failed (any_msg (lit "No files were modified.")))
  | _ => apply_hunk_list o cwd (mkAffected [] [] []) hs
  end.
End apply.
Arguments AppState : clear implicits.

(** * What the delta of an application says

    The delta is a log of file changes.  As long as it is marked exact, replaying it
    on the files before gives the files after, and undoing it gives them back. *)

(** ** The meaning of a delta *)

Section meaning.
Context {P : Type} `{PathUriOps P}.
Implicit Types (v : gmap P str) (c : AppliedPatchChange P).

(** What one recorded change says of the files before and after it. *)
Definition change_step c v v' : Prop :=
  let p := change_path c in
  match change c with
  | Applied_Add content overwritten => v !! p = overwritten ∧ v' = <[p := content]> v
  | Applied_Delete content => v !! p = Some content ∧ v' = delete p v
  | Applied_Update None old overwritten new =>
      v !! p = Some old ∧ overwritten = None ∧ v' = <[p := new]> v
  | Applied_Update (Some dest) old overwritten new =>
      v !! p = Some old ∧ v !! dest = overwritten ∧ v' = delete p (<[dest := new]> v)
  end.

Fixpoint delta_steps v (cs : list (AppliedPatchChange P)) v' : Prop :=
  match cs with
  | [] => v = v'
  | c :: cs => ∃ v1, change_step c v v1 ∧ delta_steps v1 cs v'
  end.

Definition restore (p : P) (o : option str) v : gmap P str :=
  match o with Some s => <[p := s]> v | None => delete p v end.

(** Doing and undoing a change with nothing but what the delta records. *)
Definition replay_change c v : gmap P str :=
  let p := change_path c in
  match change c with
  | Applied_Add content _ => <[p := content]> v
  | Applied_Delete _ => delete p v
  | Applied_Update None _ _ new => <[p := new]> v
  | Applied_Update (Some dest) _ _ new => delete p (<[dest := new]> v)
  end.
Definition undo_change c v : gmap P str :=
  let p := change_path c in
  match change c with
  | Applied_Add _ overwritten => restore p overwritten v
  | Applied_Delete content => <[p := content]> v
  | Applied_Update None old _ _ => <[p := old]> v
  | Applied_Update (Some dest) old overwritten _ => <[p := old]> (restore dest overwritten v)
  end.
Definition replay (cs : list (AppliedPatchChange P)) v : gmap P str :=
  foldl (λ v c, replay_change c v) v cs.
Definition undo (cs : list (AppliedPatchChange P)) v : gmap P str :=
  foldr undo_change v cs.

Lemma delta_steps_snoc v cs c v' :
  delta_steps v (cs ++ [c]) v' ↔ ∃ v1, delta_steps v cs v1 ∧ change_step c v1 v'.
Proof.
  revert v. induction cs as [|c' cs IH]; intros v; simpl; [naive_solver|].
  setoid_rewrite IH. naive_solver.
Qed.

Lemma replay_change_step c v v' : change_step c v v' → v' = replay_change c v.
Proof. unfold change_step, replay_change. repeat case_match; naive_solver. Qed.

Lemma restore_insert p o s v : v !! p = o → restore p o (<[p := s]> v) = v.
Proof.
  intros <-. unfold restore. destruct (v !! p) as [s'|] eqn:Hp.
  - by rewrite insert_insert_eq, insert_id.
  - by rewrite delete_insert_id.
Qed.

Lemma undo_change_step c v v' : change_step c v v' → undo_change c v' = v.
Proof.
  unfold change_step, undo_change. destruct (change c) as [s o|s|[dest|] old o s]; intros Hc.
  - destruct Hc as [Ho ->]. by apply restore_insert.
  - destruct Hc as [Ho ->]. rewrite insert_delete_eq. by apply insert_id.
  - destruct Hc as (Hold & Ho & ->). apply map_eq. intros q.
    destruct (decide (q = change_path c)) as [->|Hq]; [by rewrite lookup_insert_eq|].
    rewrite lookup_insert_ne by done. unfold restore.
    destruct (decide (q = dest)) as [->|Hd]; destruct o;
      rewrite ?lookup_insert_eq, ?lookup_delete_eq, ?lookup_insert_ne, ?lookup_delete_ne,
        ?lookup_insert_ne by done; done.
  - destruct Hc as (Hold & _ & ->). rewrite insert_insert_eq. by apply insert_id.
Qed.

Lemma replay_steps v cs v' : delta_steps v cs v' → replay cs v = v'.
Proof.
  revert v. induction cs as [|c cs IH]; intros v; simpl; [done|].
  intros (v1 & Hc & Hcs). apply replay_change_step in Hc as ->. by apply IH.
Qed.

Lemma undo_steps v cs v' : delta_steps v cs v' → undo cs v' = v.
Proof.
  revert v. induction cs as [|c cs IH]; intros v; simpl; [done|].
  intros (v1 & Hc & Hcs). rewrite (IH _ Hcs). by apply undo_change_step.
Qed.
End meaning.

(** ** The operations, one by one *)

Section facts.
Context {W P X : Type} {PU : PathUriOps P} {FS : ExecutorFileSystem W P} {AH : AnyhowOps X}.
Context `{!FileSystemLaws W P}.
Abbreviation App := (M (AppState W P) (stop X)).
Implicit Types (s : AppState W P) (p : P).

(** [s'] is reached from [s] by reads: no file changes, nothing is recorded, and
    the delta can only stop being exact. *)
Definition quiet s s' : Prop :=
  changes (delta s') = changes (delta s) ∧ view (world s') = view (world s) ∧
  (∀ q, plain (world s) q → plain (world s') q) ∧
  (exact (delta s') = true → exact (delta s) = true).

#[export] Instance quiet_preorder : PreOrder quiet.
Proof.
  split.
  - intros s. by split_and!.
  - intros s1 s2 s3 (Hc1 & Hv1 & ? & ?) (Hc2 & Hv2 & ? & ?). unfold quiet.
    rewrite Hc2, Hv2. split_and!; auto.
Qed.

Lemma fs_op_inv {A} (m : M W io_error A) s s' (r : result (stop X) (result io_error A)) :
  fs_op m s = (s', r) → ∃ w x, m (world s) = (w, x) ∧ s' = mkApp w (delta s) ∧ r = Ok x.
Proof. unfold fs_op. destruct (m (world s)) as [w x] eqn:Hm. intros [= <- <-]. eauto. Qed.

Lemma quiet_metadata p b s w x :
  get_metadata p b (world s) = (w, x) → quiet s (mkApp w (delta s)).
Proof.
  intros Hm. pose proof (metadata_view p b (world s)) as Hv. split_and!; simpl; try done.
  - by rewrite Hm in Hv.
  - intros q Hq. apply (metadata_plain p b) in Hq. by rewrite Hm in Hq.
Qed.

Lemma quiet_read p b s w x :
  read_file_text p b (world s) = (w, x) → quiet s (mkApp w (delta s)).
Proof.
  intros Hm. pose proof (read_view p b (world s)) as Hv. split_and!; simpl; try done.
  - by rewrite Hm in Hv.
  - intros q Hq. apply (read_plain p b) in Hq. by rewrite Hm in Hq.
Qed.

Lemma quiet_set_inexact s : quiet s (set_exact false s).
Proof. by split_and!. Qed.

Lemma note_spec p b s s' (r : result (stop X) unit) :
  note_existing_path_delta_support p b s = (s', r) →
  quiet s s' ∧ r = Ok tt ∧ (exact (delta s') = true → plain (world s') p).
Proof.
  unfold note_existing_path_delta_support.
  intros [(x & s1 & Hop & Hr)|(e & Hop & ->)]%M_bind_inv;
    apply fs_op_inv in Hop as (w & y & Hm & -> & [= ->]).
  pose proof (quiet_metadata _ _ _ _ _ Hm) as Hq.
  destruct (regular_answer y) eqn:Hreg.
  - assert (r = Ok tt ∧ s' = mkApp w (delta s)) as [-> ->].
    { destruct y as [m|e]; simpl in Hreg, Hr; rewrite Hreg in Hr; m_unfold; naive_solver. }
    split_and!; [done|done|]. intros _. by eapply metadata_regular.
  - assert (r = Ok tt ∧ s' = set_exact false (mkApp w (delta s))) as [-> ->].
    { destruct y as [m|e]; simpl in Hreg, Hr; rewrite Hreg in Hr; m_unfold; naive_solver. }
    split_and!; [|done|done]. etrans; [exact Hq|apply quiet_set_inexact].
Qed.

Lemma read_optional_spec p b s s' (r : result (stop X) (option str)) :
  read_optional_file_text_for_delta p b s = (s', r) →
  quiet s s' ∧ ∃ o, r = Ok o ∧
    (exact (delta s') = true → plain (world s') p ∧ view (world s') !! p = o).
Proof.
  unfold read_optional_file_text_for_delta.
  intros [(x & s1 & Hn & Hr)|(e & Hn & ->)]%M_bind_inv; apply note_spec in Hn as (Hq & ? & Hp);
    [|done].
  apply M_bind_inv in Hr as [(y & s2 & Hop & Hr)|(e & Hop & ->)];
    apply fs_op_inv in Hop as (w & y' & Hm & -> & [= ->]).
  pose proof (quiet_read _ _ _ _ _ Hm) as Hq2.
  assert (view w = view (world s1)) as Hv by apply Hq2.
  destruct y' as [content|e]; [|destruct (decide (kind e = NotFound)) as [Hk|Hk]].
  - m_unfold. simplify_eq. split; [by etrans|]. eexists; split; [done|]. intros Hex.
    apply Hp in Hex. split; [by apply Hq2|]. simpl. rewrite Hv. by eapply read_ok.
  - rewrite bool_decide_eq_true_2 in Hr by done. m_unfold. simplify_eq.
    split; [by etrans|]. eexists; split; [done|]. intros Hex.
    apply Hp in Hex. split; [by apply Hq2|]. simpl. rewrite Hv. by eapply read_not_found.
  - rewrite bool_decide_eq_false_2 in Hr by done. m_unfold. simplify_eq.
    split; [|by eexists]. etrans; [exact Hq|]. etrans; [exact Hq2|]. apply quiet_set_inexact.
Qed.

Lemma derive_spec p cs o s s' (r : result (stop X) AppliedPatch) :
  derive p cs o s = (s', r) →
  quiet s s' ∧ ∀ a, r = Ok a →
    (plain (world s) p → view (world s') !! p = Some (original_contents a)) ∧
    new_contents_of (original_contents a) (native_string p) cs (update_file_mode o)
      = Some (Ok (new_contents a)).
Proof.
  unfold derive, derive_new_contents_from_chunks.
  destruct (read_file_text p (follow_symlinks o) (world s)) as [w x] eqn:Hm.
  pose proof (quiet_read _ _ _ _ _ Hm) as Hq. intros [= <- <-]. split; [done|].
  intros a Ha. destruct x as [original|e]; [|done].
  destruct (new_contents_of _ _ _ _) as [[new|e]|] eqn:Hn; simplify_eq/=.
  split; [|done]. intros Hp. apply read_ok in Hm; [|done]. destruct Hq as (_ & Hv & _). simpl in Hv.
  by rewrite Hv.
Qed.

Lemma or_fail_inv {A E} (f : E → X) (x : result E A) s s' (r : result (stop X) A) :
  or_fail f x s = (s', r) → s' = s ∧ r = map_err (Failed ∘ f) x.
Proof. unfold or_fail. m_unfold. naive_solver. Qed.

Lemma ensure_not_directory_spec p b ctx s s' (r : result (stop X) unit) :
  ensure_not_directory p b ctx s = (s', r) → quiet s s' ∧ exact (delta s') = exact (delta s).
Proof.
  unfold ensure_not_directory.
  intros [(x & s1 & Hop & Hr)|(e & Hop & ->)]%M_bind_inv;
    apply fs_op_inv in Hop as (w & y & Hm & -> & [= ->]).
  apply or_fail_inv in Hr as [-> _]. split; [by eapply quiet_metadata|done].
Qed.

Lemma side_effect_free_spec p expected b s s' (r : result (stop X) bool) :
  remove_failure_was_side_effect_free p expected b s = (s', r) →
  quiet s s' ∧ exact (delta s') = exact (delta s) ∧ ∃ free, r = Ok free ∧
    (free = true → plain (world s) p → is_Some (view (world s) !! p)).
Proof.
  unfold remove_failure_was_side_effect_free. destruct expected as [c|].
  - intros [(x & s1 & Hop & Hr)|(e & Hop & ->)]%M_bind_inv;
      apply fs_op_inv in Hop as (w & y & Hm & -> & [= ->]).
    m_unfold. simplify_eq. split_and!; [by eapply quiet_read|done|].
    eexists; split; [done|]. intros Hfree Hp. destruct y as [content|]; [|done].
    apply read_ok in Hm; [by eexists|done].
  - m_unfold. intros [= <- <-]. split_and!; [done|done|]. by eexists.
Qed.

Lemma remove_checked_spec p expected b ctx s s' (r : result (stop X) unit) :
  remove_checked p expected b ctx s = (s', r) →
  changes (delta s') = changes (delta s) ∧ (exact (delta s') = true → exact (delta s) = true) ∧
  (plain (world s) p →
   match r with
   | Ok _ => view (world s') = delete p (view (world s))
   | Err _ => exact (delta s') = true → view (world s') = view (world s)
   end).
Proof.
  unfold remove_checked.
  intros [(x & s1 & He & Hr)|(e & He & ->)]%M_bind_inv;
    apply ensure_not_directory_spec in He as [(Hc & Hv & Hpl & Hx) Hx']; [|by split_and!].
  apply M_bind_inv in Hr as [(y & s2 & Hop & Hr)|(e & Hop & ->)];
    apply fs_op_inv in Hop as (w & y' & Hm & -> & [= ->]).
  destruct y' as [[]|err]; simpl in Hr.
  - m_unfold. simplify_eq. split_and!; [done|done|]. intros Hp%Hpl.
    rewrite <- Hv. by eapply remove_ok.
  - apply M_bind_inv in Hr as [(free & s3 & Hfree & Hr)|(e & Hfree & ->)];
      apply side_effect_free_spec in Hfree as ((Hc3 & Hv3 & _ & Hx3) & Hx3' & free' & Hf & Hsome);
      [|done].
    simplify_eq. m_unfold. simplify_eq. simpl in *. split_and!.
    + by rewrite Hc3.
    + rewrite Hx3', Hx'. by destruct (exact (delta s)).
    + intros Hp%Hpl Hex. apply andb_true_iff in Hex as [_ Hfree].
      apply remove_err in Hm as [Hview Hp2]; [|done].
      destruct (Hsome Hfree Hp2) as [c Hsm]. rewrite Hv3, <- Hv.
      destruct Hview as [|Hd]; [done|]. rewrite Hd, lookup_delete_eq in Hsm. done.
Qed.

(** A successful write, with or without the retry that creates the parents. *)
Definition written p c s s' : Prop :=
  plain (world s) p →
  view (world s') = <[p := c]> (view (world s)) ∧ plain (world s') p ∧
  ∀ q, plain (world s) q → is_Some (view (world s) !! q) → plain (world s') q.

Lemma written_write p c b s w :
  write_file p c b (world s) = (w, Ok tt) → written p c s (mkApp w (delta s)).
Proof.
  intros Hm Hp. destruct (write_ok _ _ _ _ _ Hp Hm) as [Hv Hp']. split_and!; [done|done|].
  intros q Hq Hs. pose proof (write_plain p c b (world s) q Hq Hs) as Hw. by rewrite Hm in Hw.
Qed.

(** After a failed write, and anything that changes no file, a second write. *)
Lemma written_retry p c b s w1 e w2 w3 :
  write_file p c b (world s) = (w1, Err e) →
  view w2 = view w1 → (plain w1 p → plain w2 p) →
  (∀ q, plain w1 q → is_Some (view w1 !! q) → plain w2 q) →
  write_file p c b w2 = (w3, Ok tt) → written p c s (mkApp w3 (delta s)).
Proof.
  intros H1 Hv2 Hpp Hpq H3 Hp. destruct (write_err _ _ _ _ _ _ Hp H1) as [Hsame Hp1].
  apply Hpp in Hp1. destruct (write_ok _ _ _ _ _ Hp1 H3) as [Hv Hp3]. split_and!.
  - simpl. rewrite Hv, Hv2. apply map_eq. intros q. destruct (decide (q = p)) as [->|Hq].
    + by rewrite !lookup_insert_eq.
    + rewrite !lookup_insert_ne by done. by apply Hsame.
  - done.
  - intros q Hq Hs. destruct (decide (q = p)) as [->|Hne]; [done|]. simpl.
    pose proof (write_plain p c b (world s) q Hq Hs) as Hq1. rewrite H1 in Hq1.
    assert (is_Some (view w1 !! q)) as Hs1 by (by rewrite Hsame).
    specialize (Hpq q Hq1 Hs1). rewrite <- Hv2 in Hs1.
    pose proof (write_plain p c b w2 q Hpq Hs1) as Hq3. by rewrite H3 in Hq3.
Qed.

Lemma write_retry_spec p c b s s' (r : result (stop X) unit) :
  write_file_with_missing_parent_retry p c b s = (s', r) →
  delta s' = delta s ∧ (r = Ok tt → written p c s s').
Proof.
  unfold write_file_with_missing_parent_retry.
  intros [(x & s1 & Hop & Hr)|(e & Hop & ->)]%M_bind_inv;
    apply fs_op_inv in Hop as (w1 & y & H1 & -> & [= ->]).
  destruct y as [[]|err].
  { m_unfold. simplify_eq. split; [done|]. intros _. by eapply written_write. }
  case_bool_decide; [|by apply or_fail_inv in Hr as [-> ->]].
  apply M_bind_inv in Hr as [(z & s2 & Hdir & Hr)|(e & Hdir & ->)].
  - assert (∃ w2, s2 = mkApp w2 (delta s) ∧ view w2 = view w1 ∧ (plain w1 p → plain w2 p) ∧
      ∀ q, plain w1 q → is_Some (view w1 !! q) → plain w2 q) as (w2 & -> & Hv2 & Hpp & Hpq).
    { destruct (path_parent p) as [parent|] eqn:Hpar; [|m_unfold; simplify_eq; by eexists].
      apply M_bind_inv in Hdir as [(y & s3 & Hop & Hf)|(e & Hop & ?)]; [|done].
      apply fs_op_inv in Hop as (w2 & y' & H2 & -> & [= ->]).
      apply or_fail_inv in Hf as [-> Hf]. destruct y' as [[]|e]; [|done]. exists w2.
      pose proof (create_view parent b w1) as Hcv. simpl in H2. rewrite H2 in Hcv.
      split_and!; [done|done| |]; intros; [by eapply create_plain_child|by eapply create_plain]. }
    apply M_bind_inv in Hr as [(y & s3 & Hop & Hf)|(e & Hop & ->)];
      apply fs_op_inv in Hop as (w3 & y' & H3 & -> & [= ->]).
    apply or_fail_inv in Hf as [-> Hf]. split; [done|]. intros ->.
    destruct y' as [[]|e]; [|done]. simpl in *.
    by apply (written_retry p c b s w1 err w2 w3).
  - destruct (path_parent p) as [parent|]; [|done].
    apply M_bind_inv in Hdir as [(y & s3 & Hop & Hf)|(e' & Hop & ?)];
      apply fs_op_inv in Hop as (w2 & y' & H2 & -> & ?); [|done].
    by apply or_fail_inv in Hf as [-> Hf].
Qed.

(** ** The delta stays true *)

(** As long as the delta is exact, it tells how the files of [v0] became those of
    the world. *)
Definition committed (v0 : gmap P str) s : Prop :=
  exact (delta s) = true → delta_steps v0 (changes (delta s)) (view (world s)).

Lemma committed_quiet v0 s s' : quiet s s' → committed v0 s → committed v0 s'.
Proof. intros (Hc & Hv & _ & Hx) Hs Hex. rewrite Hc, Hv. auto. Qed.

Lemma try_write_spec (m : App unit) p c s s' (r : result (stop X) unit) :
  (∀ s1 r1, m s = (s1, r1) → delta s1 = delta s ∧ (r1 = Ok tt → written p c s s1)) →
  try_write m s = (s', r) →
  (r = Ok tt ∧ delta s' = delta s ∧ written p c s s') ∨
  (is_ok r = false ∧ exact (delta s') = false).
Proof.
  intros Hm. unfold try_write. destruct (m s) as [s1 [[]|e]] eqn:Hr; intros [= <- <-].
  - left. destruct (Hm _ _ eq_refl). auto.
  - by right.
Qed.

Lemma committed_push v0 c s :
  (exact (delta s) = true → ∃ v, delta_steps v0 (changes (delta s)) v ∧
     change_step c v (view (world s))) →
  committed v0 (push_change c s).
Proof. intros Hs Hex. simpl in *. apply delta_steps_snoc. auto. Qed.

Lemma apply_add_committed v0 p contents o s s' (r : result (stop X) unit) :
  committed v0 s → apply_add p contents o s = (s', r) → committed v0 s'.
Proof.
  intros Hs. unfold apply_add.
  intros [(x & s1 & Ho & Hr)|(e & Ho & ->)]%M_bind_inv;
    apply read_optional_spec in Ho as (Hq & o' & ? & Hex); [|by eapply committed_quiet].
  simplify_eq. apply (committed_quiet v0) in Hq; [|done].
  apply M_bind_inv in Hr as [([] & s2 & Hw & Hr)|(e & Hw & ->)];
    eapply try_write_spec in Hw as [(Hok & Hd & Hw)|[Hok Hx]];
    try (intros ? ?; apply write_retry_spec); try done.
  - m_unfold. simplify_eq. apply committed_push. rewrite Hd. intros Hx.
    destruct (Hex Hx) as [Hp Ho]. destruct (Hw Hp) as (Hv & _ & _).
    exists (view (world s1)). split; [by apply Hq|]. by split.
  - intros Hx'. simpl in *. congruence.
Qed.

Lemma apply_delete_committed v0 p o s s' (r : result (stop X) unit) :
  committed v0 s → apply_delete p o s = (s', r) → committed v0 s'.
Proof.
  intros Hs. unfold apply_delete.
  intros [(x & s1 & Ho & Hr)|(e & Ho & ->)]%M_bind_inv;
    apply note_spec in Ho as (Hq1 & ? & Hplain); [|done].
  apply M_bind_inv in Hr as [(y & s2 & Hop & Hr)|(e & Hop & ->)];
    apply fs_op_inv in Hop as (w & y' & Hm & -> & [= ->]).
  pose proof (quiet_read _ _ _ _ _ Hm) as Hq2.
  apply M_bind_inv in Hr as [(z & s3 & Hx & Hr)|(e & Hx & ->)];
    [|destruct y'; m_unfold; naive_solver].
  assert (quiet s s3 ∧ (exact (delta s3) = true → plain (world s3) p ∧
    ∃ c, ok y' = Some c ∧ view (world s3) !! p = Some c)) as [Hq3 Hex].
  { destruct y' as [c|e]; simpl in Hx; m_unfold; simplify_eq.
    - split; [etrans; [exact Hq1|exact Hq2]|]. intros Hp%Hplain.
      split; [by apply Hq2|]. exists c. split; [done|].
      destruct Hq2 as (_ & Hv & _). rewrite Hv. by eapply read_ok.
    - split; [|done]. etrans; [exact Hq1|]. etrans; [exact Hq2|]. apply quiet_set_inexact. }
  pose proof (committed_quiet v0 _ _ Hq3 Hs) as Hs3.
  apply M_bind_inv in Hr as [([] & s4 & Hrm & Hr)|(e & Hrm & ->)];
    apply remove_checked_spec in Hrm as (Hc & Hxx & Hv).
  - destruct y' as [c|e]; simpl in Hr; m_unfold; simplify_eq.
    + apply committed_push. intros Hx3%Hxx. destruct (Hex Hx3) as (Hp & c' & [= <-] & Hc').
      exists (view (world s3)). rewrite Hc. split; [by apply Hs3|]. split; [done|]. auto.
    + intros Hx3%Hxx. by destruct (Hex Hx3) as (_ & c & ? & _).
  - intros Hx4. specialize (Hxx Hx4). destruct (Hex Hxx) as (Hp & _).
    rewrite Hc, (Hv Hp Hx4). by apply Hs3.
Qed.

Lemma apply_in_place_committed v0 p a o s s' (r : result (stop X) unit) :
  committed v0 s →
  (exact (delta s) = true → plain (world s) p ∧ view (world s) !! p = Some (original_contents a)) →
  apply_in_place p a o s = (s', r) → committed v0 s'.
Proof.
  intros Hs Hex. unfold apply_in_place.
  intros [([] & s2 & Hw & Hr)|(e & Hw & ->)]%M_bind_inv;
    eapply (try_write_spec _ p (new_contents a)) in Hw as [(Hok & Hd & Hw)|[Hok Hx]]; try done.
  2, 4: intros s1 r1 [(y & s3 & Hop & Hf)|(e' & Hop & ->)]%M_bind_inv;
    apply fs_op_inv in Hop as (w & y' & Hm & -> & [= ->]);
    apply or_fail_inv in Hf as [-> Hf]; split; [done|]; intros ->;
    destruct y' as [[]|]; [|done]; by eapply written_write.
  - m_unfold. simplify_eq. apply committed_push. rewrite Hd. intros Hx.
    destruct (Hex Hx) as [Hp Ho]. destruct (Hw Hp) as (Hv & _ & _).
    exists (view (world s)). split; [by apply Hs|]. by split_and!.
  - intros Hx'. simpl in *. congruence.
Qed.

Lemma insert_last {A} (l : list A) c c' : <[length l := c']> (l ++ [c]) = l ++ [c'].
Proof. rewrite <- (Nat.add_0_r (length l)), insert_app_r. done. Qed.

Lemma apply_move_committed v0 p dest a o s s' (r : result (stop X) unit) :
  committed v0 s →
  (exact (delta s) = true → plain (world s) p ∧ view (world s) !! p = Some (original_contents a)) →
  apply_move p dest a o s = (s', r) → committed v0 s'.
Proof.
  intros Hs Hex. unfold apply_move.
  intros [(x & s1 & Ho & Hr)|(e & Ho & ->)]%M_bind_inv;
    apply read_optional_spec in Ho as (Hq & o' & ? & Hdest); [|by eapply committed_quiet].
  simplify_eq. pose proof (committed_quiet v0 _ _ Hq Hs) as Hs1.
  apply M_bind_inv in Hr as [([] & s2 & Hw & Hr)|(e & Hw & ->)];
    eapply try_write_spec in Hw as [(Hok & Hd & Hw)|[Hok Hx]];
    try (intros ? ?; apply write_retry_spec); try done.
  2: { intros Hx'. simpl in *. congruence. }
  assert (exact (delta s2) = true → plain (world s2) p ∧
    view (world s2) = <[dest := new_contents a]> (view (world s1)) ∧
    view (world s1) !! p = Some (original_contents a) ∧ view (world s1) !! dest = o' ∧
    delta_steps v0 (changes (delta s2)) (view (world s1))) as Hex2.
  { rewrite Hd. intros Hx1. destruct (Hdest Hx1) as [Hpd Hod]. destruct Hq as (_ & Hv1 & Hpl1 & Hx01).
    destruct (Hex (Hx01 Hx1)) as [Hp0 Ho0]. destruct (Hw Hpd) as (Hv2 & _ & Hpq).
    rewrite <- Hv1 in Ho0. split_and!; [|done..|by apply Hs1].
    apply Hpq; [by apply Hpl1|by rewrite Ho0]. }
  assert (committed v0 (push_change (mkChange dest (Applied_Add (new_contents a) o')) s2)) as Hs2.
  { apply committed_push. intros (_ & Hv2 & _ & Hod & Hst)%Hex2. eexists. split; [exact Hst|]. by split. }
  apply M_bind_inv in Hr as [(s2' & s3 & Hg & Hr)|(e & Hg & ->)]; [|done].
  injection Hg as -> ->.
  apply M_bind_inv in Hr as [([] & s4 & Hg & Hr)|(e & Hg & ->)]; [|done].
  injection Hg as <-.
  apply M_bind_inv in Hr as [([] & s5 & Hrm & Hr)|(e & Hrm & ->)];
    apply remove_checked_spec in Hrm as (Hc & Hxx & Hv).
  - m_unfold. injection Hr as <- <-. intros Hx5. simpl in *. specialize (Hxx Hx5).
    destruct (Hex2 Hxx) as (Hp2 & Hv2 & Hp & Hod & Hst). rewrite Hc, insert_last.
    apply delta_steps_snoc. eexists; split; [exact Hst|]. rewrite (Hv Hp2). simpl.
    split_and!; [done..|by rewrite <- Hv2].
  - intros Hx5. specialize (Hxx Hx5). destruct (Hex2 Hxx) as (Hp2 & _).
    rewrite Hc, (Hv Hp2 Hx5). by apply Hs2.
Qed.

Lemma apply_update_committed v0 p cwd mv cs o s s' (r : result (stop X) unit) :
  committed v0 s → apply_update p cwd mv cs o s = (s', r) → committed v0 s'.
Proof.
  intros Hs. unfold apply_update.
  intros [(x & s1 & Ho & Hr)|(e & Ho & ->)]%M_bind_inv;
    apply note_spec in Ho as (Hq1 & ? & Hplain); [|done].
  pose proof (committed_quiet v0 _ _ Hq1 Hs) as Hs1.
  apply M_bind_inv in Hr as [(a & s2 & Hder & Hr)|(e & Hder & ->)];
    apply derive_spec in Hder as [Hq2 Ha]; [|by eapply committed_quiet].
  pose proof (committed_quiet v0 _ _ Hq2 Hs1) as Hs2. destruct (Ha a eq_refl) as [Hold _].
  assert (exact (delta s2) = true →
    plain (world s2) p ∧ view (world s2) !! p = Some (original_contents a)) as Hex.
  { intros Hx%Hq2. specialize (Hplain Hx). split; [by apply Hq2|auto]. }
  destruct mv as [dest|]; [|by eapply apply_in_place_committed].
  apply M_bind_inv in Hr as [(d & s3 & Hd & Hr)|(e & Hd & ->)];
    apply or_fail_inv in Hd as [-> Hd]; [|done].
  by eapply apply_move_committed.
Qed.

Lemma apply_hunk_committed v0 o cwd affected h s s' (r : result (stop X) AffectedPaths) :
  committed v0 s → apply_hunk o cwd affected h s = (s', r) → committed v0 s'.
Proof.
  intros Hs. unfold apply_hunk.
  intros [(p & s1 & Hd & Hr)|(e & Hd & ->)]%M_bind_inv;
    apply or_fail_inv in Hd as [-> Hd]; [|done].
  destruct h as [path c|path|path mv cs];
    apply M_bind_inv in Hr as [([] & s2 & Ho & Hr)|(e & Ho & ->)];
    try (injection Hr as <- <-);
    eauto using apply_add_committed, apply_delete_committed, apply_update_committed.
Qed.

Lemma apply_hunk_list_committed v0 o cwd affected hs s s' (r : result (stop X) AffectedPaths) :
  committed v0 s → apply_hunk_list o cwd affected hs s = (s', r) → committed v0 s'.
Proof.
  revert affected s. induction hs as [|h hs IH]; intros affected s Hs; simpl.
  { intros [= <- <-]. done. }
  intros [(a & s1 & Hh & Hr)|(e & Hh & ->)]%M_bind_inv; [eapply IH; [|done]|];
    by eapply apply_hunk_committed.
Qed.

Lemma apply_hunks_to_files_committed v0 hs o cwd s s' (r : result (stop X) AffectedPaths) :
  committed v0 s → apply_hunks_to_files hs o cwd s = (s', r) → committed v0 s'.
Proof.
  intros Hs. destruct hs as [|h hs]; [by intros [= <- <-]|]. by apply apply_hunk_list_committed.
Qed.
End facts.
