(* ===== verification/ApplyPatch.v ===== *)
(** * ApplyPatch: the entry points of apply-patch ([apply-patch/src/lib.rs])

    Parsing the patch, applying its hunks and reporting on the two output streams. *)
From S2P Require Import Prelude RustStr PatchTypes PatchErrors StreamingParser PatchParser.
From S2P Require Import SeekSequence TextFile FileUpdate FsInterface ApplyHunks.

(** [impl std::io::Write], as far as [writeln!] of one line. *)
Class Writer (O : Type) := writeln : str → M O io_error unit.

(** A [Vec<u8>] sink: it never fails. *)
#[export] Instance vec_writer : Writer str := λ line out, (out ++ line ++ [c_nl], Ok tt).

Definition print_summary {O} `{Writer O} (affected : AffectedPaths) : M O io_error unit :=
  writeln (lit "Success. Updated the following files:");;
  for_each (λ path, writeln (lit "A " ++ path)) (added affected);;
  for_each (λ path, writeln (lit "M " ++ path)) (modified affected);;
  for_each (λ path, writeln (lit "D " ++ path)) (deleted affected).

Section entry.
Context {W P X O1 O2 : Type} {PU : PathUriOps P} {FS : ExecutorFileSystem W P} {AH : AnyhowOps X}.
Context {WO : Writer O1} {WE : Writer O2}.

(** The world and the two streams. *)
Record Env := mkEnv { env_world : W; stdout : O1; stderr : O2 }.

Abbreviation Run := (M Env (stop (ApplyPatchFailure P))).

Definition to_stdout (m : M O1 io_error unit) (f : io_error → ApplyPatchFailure P) : Run unit :=
  λ env, let '(o, r) := m (stdout env) in
         (mkEnv (env_world env) o (stderr env), map_err (Failed ∘ f) r).
Definition to_stderr (m : M O2 io_error unit) (f : io_error → ApplyPatchFailure P) : Run unit :=
  λ env, let '(o, r) := m (stderr env) in
         (mkEnv (env_world env) (stdout env) o, map_err (Failed ∘ f) r).

(** The [ApplyPatchError] an [anyhow::Error] is reported as. *)
Definition failure_of (error : X) : ApplyPatchError :=
  match any_downcast_io error with
  | Some io => ApplyPatchError_from_io_ref io
  | None => PatchIoError (mkIoError (any_to_string error) (mkIo Other (any_to_string error)))
  end.

Definition apply_hunks_with_options (hs : list Hunk) (o : ApplyPatchOptions) (cwd : P) :
    Run (AppliedPatchDelta P) := λ env,
  let '(s, r) := apply_hunks_to_files (X := X) hs o cwd (mkApp (env_world env) empty_delta) in
  let fail_io e := mkFailure (ApplyPatchError_from_io e) (delta s) in
  (match r with
   | Ok affected =>
       to_stdout (print_summary affected) fail_io;;
       mret (delta s)
   | Err (Failed error) =>
       to_stderr (writeln (any_to_string error)) fail_io;;
       throw (Failed (mkFailure (failure_of error) (delta s)))
   | Err Panicked => throw Panicked
   end) (mkEnv (world s) (stdout env) (stderr env)).

Definition apply_hunks (hs : list Hunk) (cwd : P) : Run (AppliedPatchDelta P) :=
  apply_hunks_with_options hs default_options cwd.

Definition parse_error_line (e : ParseError) : str :=
  match e with
  | InvalidPatchError message => lit "Invalid patch: " ++ message
  | InvalidHunkError message line_number =>
      lit "Invalid patch hunk on line " ++ fmt_usize line_number ++ lit ": " ++ message
  end.

Definition apply_patch_with_options (patch : str) (o : ApplyPatchOptions) (cwd : P) :
    Run (AppliedPatchDelta P) :=
  match parse_patch patch with
  | Ok source => apply_hunks_with_options (args_hunks source) o cwd
  | Err e =>
      to_stderr (writeln (parse_error_line e)) (without_delta ∘ ApplyPatchError_from_io);;
      throw (Failed (without_delta (PatchParseError e)))
  end.

Definition apply_patch (patch : str) (cwd : P) : Run (AppliedPatchDelta P) :=
  apply_patch_with_options patch default_options cwd.

(** The delta a run leaves behind, whether it succeeded or failed. *)
Definition run_delta (r : result (stop (ApplyPatchFailure P)) (AppliedPatchDelta P)) :
    option (AppliedPatchDelta P) :=
  match r with
  | Ok d => Some d
  | Err (Failed f) => Some (failure_delta f)
  | Err Panicked => None
  end.
End entry.
Arguments Env : clear implicits.
