(* ===== verification/ApplyPatchFacts.v ===== *)
(** * ApplyPatchFacts: the properties of a patch application

    Exactness of the delta, refinement of the hunks' meaning, the files after a
    failure, and absence of panics. *)
From S2P Require Import Prelude RustStr PatchTypes PatchErrors StreamingParser PatchParser.
From S2P Require Import StreamingParser PatchGrammar SeekSequence TextFile FileUpdate.
From S2P Require Import FileUpdate FsInterface MemFs ApplyHunks ApplyPatch.

(** ** The meaning of hunks *)

Section meaning.
Context {P : Type} {PU : PathUriOps P}.
Implicit Types (v : gmap P str) (c : AppliedPatchChange P).

(** [hunk_applied md cwd h v v']: the hunk [h] turns the files [v] into [v']. *)
Inductive hunk_applied (md : ApplyPatchFileUpdateMode) (cwd : P) :
    Hunk → gmap P str → gmap P str → Prop :=
| applied_add path contents p v :
    path_join cwd path = Ok p →
    hunk_applied md cwd (AddFile path contents) v (<[p := contents]> v)
| applied_delete path p v :
    path_join cwd path = Ok p → is_Some (v !! p) →
    hunk_applied md cwd (DeleteFile path) v (delete p v)
| applied_update path chunks p old new v :
    path_join cwd path = Ok p → v !! p = Some old →
    new_contents_of old (native_string p) chunks md = Some (Ok new) →
    hunk_applied md cwd (UpdateFile path None chunks) v (<[p := new]> v)
| applied_move path dest chunks p d old new v :
    path_join cwd path = Ok p → path_join cwd dest = Ok d → v !! p = Some old →
    new_contents_of old (native_string p) chunks md = Some (Ok new) →
    hunk_applied md cwd (UpdateFile path (Some dest) chunks) v (delete p (<[d := new]> v)).

Fixpoint hunks_applied (md : ApplyPatchFileUpdateMode) (cwd : P) (hs : list Hunk) v v' : Prop :=
  match hs with
  | [] => v = v'
  | h :: hs => ∃ v1, hunk_applied md cwd h v v1 ∧ hunks_applied md cwd hs v1 v'
  end.

(** The files after a hunk that failed: unchanged, or, for a move that could not
    remove its source, with the destination already written. *)
Definition hunk_failed (md : ApplyPatchFileUpdateMode) (cwd : P) (h : Hunk) v v' : Prop :=
  v' = v ∨
  ∃ path dest chunks p d old new,
    h = UpdateFile path (Some dest) chunks ∧
    path_join cwd path = Ok p ∧ path_join cwd dest = Ok d ∧ v !! p = Some old ∧
    new_contents_of old (native_string p) chunks md = Some (Ok new) ∧ v' = <[d := new]> v.

(** The paths reported for the hunks. *)
Definition report (a : AffectedPaths) (h : Hunk) : AffectedPaths :=
  match h with
  | AddFile _ _ => push_added (hunk_path h) a
  | DeleteFile _ => push_deleted (hunk_path h) a
  | UpdateFile _ _ _ => push_modified (hunk_path h) a
  end.

(** The change recorded for a hunk that succeeded, ... *)
Definition recorded (md : ApplyPatchFileUpdateMode) (cwd : P) (h : Hunk) c : Prop :=
  resolve_path h cwd = Ok (change_path c) ∧
  match h, change c with
  | AddFile _ contents, Applied_Add content _ => content = contents
  | DeleteFile _, Applied_Delete _ => True
  | UpdateFile _ None chunks, Applied_Update None old _ new =>
      new_contents_of old (native_string (change_path c)) chunks md = Some (Ok new)
  | UpdateFile _ (Some dest) chunks, Applied_Update (Some d) old _ new =>
      path_join cwd dest = Ok d ∧
      new_contents_of old (native_string (change_path c)) chunks md = Some (Ok new)
  | _, _ => False
  end.

(** ... and the change a failed move may leave. *)
Definition half_recorded (md : ApplyPatchFileUpdateMode) (cwd : P) (h : Hunk) c v : Prop :=
  ∃ path dest chunks p old new overwritten,
    h = UpdateFile path (Some dest) chunks ∧
    path_join cwd path = Ok p ∧ path_join cwd dest = Ok (change_path c) ∧ v !! p = Some old ∧
    new_contents_of old (native_string p) chunks md = Some (Ok new) ∧
    change c = Applied_Add new overwritten.

Lemma recorded_applied md cwd h c v v' :
  recorded md cwd h c → change_step c v v' → hunk_applied md cwd h v v'.
Proof.
  unfold recorded, change_step. intros [Hp Hc]. destruct c as [p c]. simpl in *.
  destruct h as [path contents|path|path mv chunks], c as [s o|s|mv' old o new]; try done.
  - subst. intros [_ ->]. by constructor.
  - intros [Hv ->]. constructor; [done|by eexists].
  - by destruct mv.
  - by destruct mv.
  - destruct mv as [dest|], mv' as [d|]; try done.
    + destruct Hc as [Hd Hn]. intros (Hv & _ & ->). by econstructor.
    + intros (Hv & _ & ->). by econstructor.
Qed.

Lemma delta_steps_fun v cs v1 v2 : delta_steps v cs v1 → delta_steps v cs v2 → v1 = v2.
Proof. intros H1%replay_steps H2%replay_steps. congruence. Qed.
End meaning.

(** ** What each operation records *)

Section facts.
Context {W P X : Type} {PU : PathUriOps P} {FS : ExecutorFileSystem W P} {AH : AnyhowOps X}.
Context {FL : FileSystemLaws W P}.
Abbreviation App := (M (AppState W P) (stop X)).
Implicit Types (s : AppState W P) (p : P).

Lemma try_write_changes (m : App unit) s s' r :
  (∀ s1 r1, m s = (s1, r1) → delta s1 = delta s) → try_write m s = (s', r) →
  changes (delta s') = changes (delta s) ∧ (exact (delta s') = true → exact (delta s) = true).
Proof.
  unfold try_write. destruct (m s) as [s1 [a|e]] eqn:Hm; intros Hd [= <- <-];
    by rewrite <- (Hd _ _ eq_refl).
Qed.

Lemma apply_add_recorded p contents o s s' (r : result (stop X) unit) :
  apply_add p contents o s = (s', r) →
  match r with
  | Ok _ => ∃ ov, changes (delta s') = changes (delta s) ++ [mkChange p (Applied_Add contents ov)]
  | Err _ => changes (delta s') = changes (delta s)
  end.
Proof.
  unfold apply_add. intros [(ov & s1 & Ho & Hr)|(e & Ho & ->)]%M_bind_inv;
    apply read_optional_spec in Ho as [(Hc & _) _]; [|done].
  apply M_bind_inv in Hr as [([] & s2 & Hw & Hr)|(e & Hw & ->)];
    apply try_write_changes in Hw as [Hw Hxw]; try (by intros ? ? [? _]%write_retry_spec); [|congruence].
  m_unfold. simplify_eq. exists ov. simpl. congruence.
Qed.

Lemma apply_delete_recorded p o s s' (r : result (stop X) unit) :
  apply_delete p o s = (s', r) → exact (delta s') = true →
  match r with
  | Ok _ => ∃ c, changes (delta s') = changes (delta s) ++ [mkChange p (Applied_Delete c)]
  | Err _ => changes (delta s') = changes (delta s)
  end.
Proof.
  unfold apply_delete. intros [(x & s1 & Ho & Hr)|(e & Ho & ->)]%M_bind_inv;
    apply note_spec in Ho as [(Hc & _) _]; [|done].
  apply M_bind_inv in Hr as [(y & s2 & Hop & Hr)|(e & Hop & ->)];
    apply fs_op_inv in Hop as (w & y' & Hm & -> & [= ->]).
  apply M_bind_inv in Hr as [(z & s3 & Hx & Hr)|(e & Hx & ->)];
    [|destruct y'; m_unfold; naive_solver].
  assert (changes (delta s3) = changes (delta s1) ∧ (ok y' = None → exact (delta s3) = false))
    as [Hc3 Hx3].
  { destruct y'; simpl in Hx; m_unfold; by simplify_eq. }
  apply M_bind_inv in Hr as [([] & s4 & Hrm & Hr)|(e & Hrm & ->)];
    apply remove_checked_spec in Hrm as (Hc4 & Hx4 & _); [|intros _; congruence].
  destruct y' as [c|e]; simpl in Hr; m_unfold; simplify_eq; intros Hx5.
  - exists c. simpl. congruence.
  - rewrite Hx4 in Hx3 by done. by specialize (Hx3 eq_refl).
Qed.

Lemma apply_in_place_recorded p a o s s' (r : result (stop X) unit) :
  apply_in_place p a o s = (s', r) →
  match r with
  | Ok _ => changes (delta s') = changes (delta s) ++
      [mkChange p (Applied_Update None (original_contents a) None (new_contents a))]
  | Err _ => changes (delta s') = changes (delta s)
  end.
Proof.
  unfold apply_in_place. intros [([] & s2 & Hw & Hr)|(e & Hw & ->)]%M_bind_inv;
    apply try_write_changes in Hw as [Hw Hxw]; try done.
  2, 3: intros s1 r1 [(y & s3 & Hop & Hf)|(e' & Hop & ->)]%M_bind_inv;
    apply fs_op_inv in Hop as (w & y' & Hm & -> & [= ->]); by apply or_fail_inv in Hf as [-> _].
  m_unfold. simplify_eq. simpl. congruence.
Qed.

Lemma apply_move_recorded p dest a o s s' (r : result (stop X) unit) :
  apply_move p dest a o s = (s', r) →
  (exact (delta s') = true → exact (delta s) = true) ∧
  match r with
  | Ok _ => ∃ ov, changes (delta s') = changes (delta s) ++
      [mkChange p (Applied_Update (Some dest) (original_contents a) ov (new_contents a))]
  | Err _ => changes (delta s') = changes (delta s) ∨
      ∃ ov, changes (delta s') = changes (delta s) ++ [mkChange dest (Applied_Add (new_contents a) ov)]
  end.
Proof.
  unfold apply_move. intros [(ov & s1 & Ho & Hr)|(e & Ho & ->)]%M_bind_inv;
    apply read_optional_spec in Ho as [(Hc & _ & _ & Hx1) _]; [|split; [done|by left]].
  apply M_bind_inv in Hr as [([] & s2 & Hw & Hr)|(e & Hw & ->)];
    apply try_write_changes in Hw as [Hw Hxw]; try (by intros ? ? [? _]%write_retry_spec);
    [|split; [auto|left; congruence]].
  apply M_bind_inv in Hr as [(s2' & s3 & Hg & Hr)|(e & Hg & ->)]; [|done]. injection Hg as -> ->.
  apply M_bind_inv in Hr as [([] & s4 & Hg & Hr)|(e & Hg & ->)]; [|done]. injection Hg as <-.
  apply M_bind_inv in Hr as [([] & s5 & Hrm & Hr)|(e & Hrm & ->)];
    apply remove_checked_spec in Hrm as (Hc5 & Hx5 & _); simpl in Hc5, Hx5.
  - m_unfold. injection Hr as <- <-. split; [simpl; auto|]. exists ov. simpl.
    rewrite Hc5, insert_last. congruence.
  - split; [auto|]. right. exists ov. rewrite Hc5. congruence.
Qed.

(** What a hunk leaves in the delta, and the view it started from. *)
Definition hunk_outcome {A} (o : ApplyPatchOptions) (cwd : P) (h : Hunk) (s s' : AppState W P)
    (r : result (stop X) A) : Prop :=
  match r with
  | Ok _ => ∃ c, changes (delta s') = changes (delta s) ++ [c] ∧
              recorded (update_file_mode o) cwd h c
  | Err _ => changes (delta s') = changes (delta s) ∨
      ∃ c, changes (delta s') = changes (delta s) ++ [c] ∧
           half_recorded (update_file_mode o) cwd h c (view (world s))
  end.

Lemma apply_update_recorded path p cwd mv cs o s s' (r : result (stop X) unit) :
  path_join cwd path = Ok p → apply_update p cwd mv cs o s = (s', r) → exact (delta s') = true →
  hunk_outcome o cwd (UpdateFile path mv cs) s s' r.
Proof.
  intros Hjoin. unfold apply_update, hunk_outcome.
  intros [(x & s1 & Ho & Hr)|(e & Ho & ->)]%M_bind_inv;
    apply note_spec in Ho as ((Hc & Hv & _ & _) & _ & Hplain); [|by left].
  apply M_bind_inv in Hr as [(a & s2 & Hder & Hr)|(e & Hder & ->)];
    apply derive_spec in Hder as ((Hc2 & Hv2 & _ & Hx2) & Ha); [|left; congruence].
  destruct (Ha a eq_refl) as [Hold Hnew]. intros Hx. destruct mv as [dest|].
  - apply M_bind_inv in Hr as [(d & s3 & Hd & Hr)|(e & Hd & ->)];
      apply or_fail_inv in Hd as [-> Hd]; [|left; congruence].
    destruct (path_join cwd dest) as [d'|] eqn:Hd'; [|done]. injection Hd as ->.
    apply apply_move_recorded in Hr as [Hxm Hr]. destruct r as [u|e].
    + destruct Hr as [ov Hr]. eexists. split; [by rewrite Hr, Hc2, Hc|]. by split.
    + destruct Hr as [Hr|[ov Hr]]; [left; congruence|right]. eexists.
      split; [by rewrite Hr, Hc2, Hc|].
      exists path, dest, cs, p, (original_contents a), (new_contents a), ov.
      split_and!; try done. rewrite <- Hv, <- Hv2. auto.
  - apply apply_in_place_recorded in Hr. destruct r as [u|e]; [|left; congruence].
    eexists. split; [by rewrite Hr, Hc2, Hc|]. by split.
Qed.

Lemma apply_hunk_recorded o cwd affected h s s' (r : result (stop X) AffectedPaths) :
  apply_hunk o cwd affected h s = (s', r) → exact (delta s') = true →
  hunk_outcome o cwd h s s' r ∧ (∀ a, r = Ok a → a = report affected h).
Proof.
  unfold apply_hunk.
  intros [(p & s1 & Hd & Hr)|(e & Hd & ->)]%M_bind_inv;
    apply or_fail_inv in Hd as [-> Hd]; [|intros _; split; [by left|done]].
  destruct (resolve_path h cwd) as [p'|] eqn:Hp; [|done]. injection Hd as ->.
  destruct h as [path c|path|path mv cs];
    apply M_bind_inv in Hr as [([] & s2 & Ho & Hr)|(e & Ho & ->)];
    try (injection Hr as <- <-); intros Hx; (split; [|by intros ? [= <-]]).
  - apply apply_add_recorded in Ho as [ov Ho]. eexists. split; [exact Ho|]. by split.
  - left. by apply apply_add_recorded in Ho.
  - apply apply_delete_recorded in Ho as [ct Ho]; [|done]. eexists. split; [exact Ho|]. by split.
  - left. by apply apply_delete_recorded in Ho.
  - by eapply (apply_update_recorded path) in Ho.
  - by eapply (apply_update_recorded path) in Ho.
Qed.

(** ** Exactness is never regained, and nothing panics *)

Definition mono {A} (m : App A) : Prop :=
  ∀ s, exact (delta (m s).1) = true → exact (delta s) = true.
Definition no_panic {A} (m : App A) : Prop := ∀ s, (m s).2 ≠ Err Panicked.

Lemma mono_bind {A B} (m : App A) (f : A → App B) :
  mono m → (∀ a, mono (f a)) → mono (m ≫= f).
Proof.
  intros Hm Hf s. specialize (Hm s). unfold mbind, M_bind.
  destruct (m s) as [s1 [a|e]]; [|done]. intros Hx. by apply Hm, (Hf a).
Qed.
Lemma mono_ret {A} (a : A) : mono (mret a).
Proof. by intros s. Qed.
Lemma mono_get : mono get.
Proof. by intros s. Qed.
Lemma mono_throw {A} e : mono (A := A) (throw e).
Proof. by intros s. Qed.
Lemma mono_modify f : (∀ s, exact (delta (f s)) = true → exact (delta s) = true) → mono (modify f).
Proof. intros Hf s. apply Hf. Qed.
Lemma mono_fs_op {A} (m : M W io_error A) : mono (fs_op m).
Proof. intros s. unfold fs_op. by destruct (m (world s)). Qed.
Lemma mono_or_fail {A E} (f : E → X) (x : result E A) : mono (or_fail f x).
Proof. by intros s. Qed.
Lemma mono_try_write {A} (m : App A) : mono m → mono (try_write m).
Proof. intros Hm s. specialize (Hm s). unfold try_write. by destruct (m s) as [s1 [a|e]]. Qed.
Lemma mono_derive p cs o : mono (derive p cs o).
Proof. intros s. unfold derive. by case_match. Qed.

Lemma no_panic_bind {A B} (m : App A) (f : A → App B) :
  no_panic m → (∀ a, no_panic (f a)) → no_panic (m ≫= f).
Proof.
  intros Hm Hf s. specialize (Hm s). unfold mbind, M_bind.
  destruct (m s) as [s1 [a|e]]; [apply Hf|]. intros [= ->]. by apply Hm.
Qed.
Lemma no_panic_ret {A} (a : A) : no_panic (mret a).
Proof. by intros s. Qed.
Lemma no_panic_get : no_panic get.
Proof. by intros s. Qed.
Lemma no_panic_throw {A} x : no_panic (A := A) (throw (Failed x)).
Proof. by intros s. Qed.
Lemma no_panic_modify f : no_panic (modify f).
Proof. by intros s. Qed.
Lemma no_panic_fs_op {A} (m : M W io_error A) : no_panic (fs_op m).
Proof. intros s. unfold fs_op. by destruct (m (world s)). Qed.
Lemma no_panic_or_fail {A E} (f : E → X) (x : result E A) : no_panic (or_fail f x).
Proof. intros s. by destruct x. Qed.
Lemma no_panic_try_write {A} (m : App A) : no_panic m → no_panic (try_write m).
Proof. intros Hm s. specialize (Hm s). unfold try_write. by destruct (m s) as [s1 [a|e]]. Qed.
Lemma no_panic_derive p cs o : Forall chunk_ok cs → no_panic (derive p cs o).
Proof.
  intros Hok s. unfold derive, derive_new_contents_from_chunks.
  destruct (read_file_text _ _ _) as [w [original|e]]; [|done].
  destruct (new_contents_of_Some original (native_string p) cs (update_file_mode o) Hok)
    as [[new|e] ->]; done.
Qed.

(** Follow the structure of a computation with the rules above. *)
Ltac walk :=
  repeat first
    [ apply mono_bind; [|intros ?] | apply mono_ret | apply mono_get | apply mono_throw
    | apply mono_fs_op | apply mono_or_fail | apply mono_try_write | apply mono_derive
    | apply mono_modify; intros ?; simpl; by rewrite ?andb_true_iff; intuition
    | apply no_panic_bind; [|intros ?] | apply no_panic_ret | apply no_panic_get
    | apply no_panic_throw | apply no_panic_modify | apply no_panic_fs_op | apply no_panic_or_fail
    | apply no_panic_try_write | apply no_panic_derive; assumption | case_match ].

(** Open the operations of a hunk down to file-system calls. *)
Ltac open_hunk :=
  unfold apply_hunk, apply_add, apply_delete, apply_update, apply_move, apply_in_place,
    read_optional_file_text_for_delta, write_file_with_missing_parent_retry, remove_checked,
    ensure_not_directory, remove_failure_was_side_effect_free, note_existing_path_delta_support.

Lemma mono_apply_hunk o cwd affected h : mono (apply_hunk o cwd affected h).
Proof. open_hunk. walk. Qed.

Definition chunks_of (h : Hunk) : list UpdateFileChunk :=
  match h with UpdateFile _ _ chunks => chunks | _ => [] end.

Lemma no_panic_apply_hunk o cwd affected h :
  Forall chunk_ok (chunks_of h) → no_panic (apply_hunk o cwd affected h).
Proof.
  intros Hok. destruct h; simpl in Hok; open_hunk; walk.
Qed.

Lemma no_panic_apply_hunks hs o cwd :
  Forall (λ h, Forall chunk_ok (chunks_of h)) hs → no_panic (apply_hunks_to_files hs o cwd).
Proof.
  intros Hok. unfold apply_hunks_to_files. destruct hs as [|h0 hs0]; [apply no_panic_throw|].
  generalize (mkAffected [] [] []). generalize dependent (h0 :: hs0).
  induction 1 as [|h hs Hh Hhs IH]; intros a; simpl; [apply no_panic_ret|].
  apply no_panic_bind; [by apply no_panic_apply_hunk|apply IH].
Qed.

(** ** The files after a list of hunks *)

Lemma apply_hunk_view v0 o cwd a h s s' (r : result (stop X) AffectedPaths) :
  committed v0 s → apply_hunk o cwd a h s = (s', r) → exact (delta s') = true →
  match r with
  | Ok a' => a' = report a h ∧
      hunk_applied (update_file_mode o) cwd h (view (world s)) (view (world s'))
  | Err _ => hunk_failed (update_file_mode o) cwd h (view (world s)) (view (world s'))
  end.
Proof.
  intros Hs Hr Hx. pose proof (apply_hunk_committed _ _ _ _ _ _ _ _ Hs Hr Hx) as Hst'.
  pose proof (mono_apply_hunk o cwd a h s) as Hm. rewrite Hr in Hm. specialize (Hs (Hm Hx)).
  apply apply_hunk_recorded in Hr as [Hout Ha]; [|done].
  assert (∀ c, changes (delta s') = changes (delta s) ++ [c] →
    change_step c (view (world s)) (view (world s'))) as Hstep.
  { intros c Hc. rewrite Hc in Hst'. apply delta_steps_snoc in Hst' as (v1 & Hv1 & Hstep).
    by rewrite (delta_steps_fun _ _ _ _ Hs Hv1). }
  destruct r as [a'|e]; simpl in Hout.
  - split; [auto|]. destruct Hout as (c & Hc & Hrec). eapply recorded_applied; eauto.
  - destruct Hout as [Hc|(c & Hc & Hrec)].
    + left. rewrite Hc in Hst'. by eapply delta_steps_fun.
    + right. destruct Hrec as (path & dest & chunks & p & old & new & ov & -> & ? & ? & ? & ? & Hadd).
      apply Hstep in Hc. unfold change_step in Hc. rewrite Hadd in Hc. destruct Hc as [_ Hc].
      by exists path, dest, chunks, p, (change_path c), old, new.
Qed.

Lemma mono_apply_hunk_list o cwd a hs : mono (apply_hunk_list o cwd a hs).
Proof.
  revert a. induction hs as [|h hs IH]; intros a; simpl; [apply mono_ret|].
  apply mono_bind; [apply mono_apply_hunk|apply IH].
Qed.

Lemma apply_hunk_list_view v0 o cwd a hs s s' (r : result (stop X) AffectedPaths) :
  committed v0 s → apply_hunk_list o cwd a hs s = (s', r) → exact (delta s') = true →
  match r with
  | Ok a' => a' = foldl report a hs ∧
      hunks_applied (update_file_mode o) cwd hs (view (world s)) (view (world s'))
  | Err _ => ∃ hs1 h hs2 v1, hs = hs1 ++ h :: hs2 ∧
      hunks_applied (update_file_mode o) cwd hs1 (view (world s)) v1 ∧
      hunk_failed (update_file_mode o) cwd h v1 (view (world s'))
  end.
Proof.
  revert a s. induction hs as [|h hs IH]; intros a s Hs; simpl.
  { intros [= <- <-] _. done. }
  intros [(a1 & s1 & Hh & Hr)|(e & Hh & ->)]%M_bind_inv Hx.
  - pose proof (mono_apply_hunk_list o cwd a1 hs s1) as Hm. rewrite Hr in Hm.
    pose proof (apply_hunk_committed _ _ _ _ _ _ _ _ Hs Hh) as Hs1.
    apply (apply_hunk_view v0) in Hh as [-> Hh]; [|done|auto].
    specialize (IH _ _ Hs1 Hr Hx). destruct r as [a'|e].
    + destruct IH as [-> IH]. split; [done|]. by exists (view (world s1)).
    + destruct IH as (hs1 & h' & hs2 & v1 & -> & Hv1 & Hf).
      exists (h :: hs1), h', hs2, v1. split_and!; [done| |done]. by exists (view (world s1)).
  - apply (apply_hunk_view v0) in Hh; [|done..].
    by exists [], h, hs, (view (world s)).
Qed.

Lemma committed_start w : committed (view w) (mkApp w empty_delta).
Proof. by intros _. Qed.
End facts.

(** ** Applying a patch *)

Section entry.
Context {W P X O1 O2 : Type} {PU : PathUriOps P} {FS : ExecutorFileSystem W P} {AH : AnyhowOps X}.
Context {WO : Writer O1} {WE : Writer O2}.
Implicit Types (env : Env W O1 O2).

(** A run as the application of the hunks followed by the report. *)
Lemma apply_hunks_with_options_inv hs o (cwd : P) env env' r :
  apply_hunks_with_options (X := X) hs o cwd env = (env', r) →
  ∃ s x, apply_hunks_to_files (X := X) hs o cwd (mkApp (env_world env) empty_delta) = (s, x) ∧
    env_world env' = world s ∧ (∀ d, run_delta r = Some d → d = delta s) ∧
    (∀ d, r = Ok d → is_ok x = true).
Proof.
  unfold apply_hunks_with_options. destruct (apply_hunks_to_files _ _ _ _) as [s x].
  intros Hr. exists s, x. split; [done|].
  destruct x as [a|[e|]].
  - unfold to_stdout in Hr. m_unfold. cbn [stdout stderr env_world] in Hr.
    destruct (print_summary a (stdout env)) as [o1 [[]|e]]; simpl in Hr; simplify_eq/=;
      split_and!; naive_solver.
  - unfold to_stderr in Hr. m_unfold. cbn [stdout stderr env_world] in Hr.
    destruct (writeln _ (stderr env)) as [o1 [[]|e']]; simpl in Hr; simplify_eq/=;
      split_and!; naive_solver.
  - m_unfold. simplify_eq/=. split_and!; naive_solver.
Qed.

Lemma apply_patch_inv patch o (cwd : P) env env' r :
  apply_patch_with_options (X := X) patch o cwd env = (env', r) →
  (∃ args, parse_patch patch = Ok args ∧
     apply_hunks_with_options (X := X) (args_hunks args) o cwd env = (env', r)) ∨
  (env_world env' = env_world env ∧ run_delta r = Some empty_delta).
Proof.
  unfold apply_patch_with_options. destruct (parse_patch patch) as [args|e]; [left; eauto|].
  unfold to_stderr. m_unfold. intros Hr. right.
  destruct (writeln _ (stderr env)) as [o1 [[]|e']]; simpl in Hr; by simplify_eq/=.
Qed.

Context {FL : FileSystemLaws W P}.

Lemma apply_patch_steps patch o (cwd : P) env env' r d :
  apply_patch_with_options (X := X) patch o cwd env = (env', r) → run_delta r = Some d →
  exact d = true → delta_steps (view (env_world env)) (changes d) (view (env_world env')).
Proof.
  intros [(args & _ & Hr)|[Hw Hd]]%apply_patch_inv Hrd Hx.
  - apply apply_hunks_with_options_inv in Hr as (s & x & Ha & -> & Hd & _).
    rewrite (Hd d Hrd) in *. eapply apply_hunks_to_files_committed in Ha; [by apply Ha|].
    apply committed_start.
  - rewrite Hd in Hrd. injection Hrd as <-. simpl. by rewrite Hw.
Qed.

(** C1.  The delta of a patch application is the truth about the file system.
    Whether the run succeeds or fails at any point (a hunk, a write, the report), as
    long as its delta is marked exact each recorded change describes the files before
    and after it; so replaying the delta on the files before the run gives the files
    after it, and undoing it, from its recorded old contents alone, gives the files
    before back. *)
Theorem apply_patch_delta_exact patch o (cwd : P) env env' r d :
  apply_patch_with_options (X := X) patch o cwd env = (env', r) → run_delta r = Some d →
  exact d = true →
  delta_steps (view (env_world env)) (changes d) (view (env_world env')) ∧
  replay (changes d) (view (env_world env)) = view (env_world env') ∧
  undo (changes d) (view (env_world env')) = view (env_world env).
Proof.
  intros Hr Hd Hx. pose proof (apply_patch_steps _ _ _ _ _ _ _ Hr Hd Hx) as Hs.
  split_and!; [done|by apply replay_steps|by apply undo_steps].
Qed.

(** C9.  A successful application with an exact delta performs the hunks, in order:
    each file added gets its text, each file deleted was there and is gone, each file
    updated gets the contents [new_contents_of] derives from what it held, and each
    move leaves them at the destination and removes the source. *)
Theorem apply_hunks_refines hs o (cwd : P) env env' d :
  apply_hunks_with_options (X := X) hs o cwd env = (env', Ok d) → exact d = true →
  hs ≠ [] ∧
  hunks_applied (update_file_mode o) cwd hs (view (env_world env)) (view (env_world env')).
Proof.
  intros (s & x & Ha & Hw & Hd & Hok)%apply_hunks_with_options_inv Hx.
  rewrite (Hd d eq_refl) in Hx. specialize (Hok d eq_refl). destruct x as [a|e]; [|done].
  destruct hs as [|h hs]; [done|]. split; [done|].
  apply (apply_hunk_list_view (view (env_world env))) in Ha as [_ Ha];
    [|apply committed_start|done]. by rewrite Hw.
Qed.

(** An application that fails with an exact delta has performed a prefix of
    the hunks, and the next hunk left the files as they were or, for a move, only
    wrote its destination; or every hunk was performed and only the report failed. *)
Theorem apply_hunks_failure hs o (cwd : P) env env' f :
  apply_hunks_with_options (X := X) hs o cwd env = (env', Err (Failed f)) →
  exact (failure_delta f) = true →
  hunks_applied (update_file_mode o) cwd hs (view (env_world env)) (view (env_world env')) ∨
  ∃ hs1 h hs2 v1, hs = hs1 ++ h :: hs2 ∧
    hunks_applied (update_file_mode o) cwd hs1 (view (env_world env)) v1 ∧
    hunk_failed (update_file_mode o) cwd h v1 (view (env_world env')).
Proof.
  intros (s & x & Ha & Hw & Hd & _)%apply_hunks_with_options_inv Hx.
  rewrite (Hd _ eq_refl) in Hx. rewrite Hw. destruct hs as [|h hs].
  { left. by injection Ha as <- <-. }
  apply (apply_hunk_list_view (view (env_world env))) in Ha; [|apply committed_start|done].
  destruct x as [a|e]; [left; by apply Ha|by right].
Qed.

(** An update that moves a file onto itself loses the file: the new contents
    are written to the path and then the path is removed as the move's source; the
    application still reports success. *)
Theorem move_to_self_removes path dest chunks o (cwd p : P) env env' d :
  path_join cwd path = Ok p → path_join cwd dest = Ok p →
  apply_hunks_with_options (X := X) [UpdateFile path (Some dest) chunks] o cwd env = (env', Ok d) →
  exact d = true →
  is_Some (view (env_world env) !! p) ∧
  view (env_world env') = delete p (view (env_world env)).
Proof.
  intros Hp Hd (s & x & Ha & Hw & Hdd & Hok)%apply_hunks_with_options_inv Hx.
  rewrite (Hdd d eq_refl) in Hx. specialize (Hok d eq_refl). destruct x as [a|e]; [|done].
  apply (apply_hunk_list_view (view (env_world env))) in Ha as [_ (v1 & Hh & Hv)];
    [|apply committed_start|done]. rewrite Hw, <- Hv.
  inversion Hh as [| | |? ? ? q q' old new ? Hq Hq' Hold Hnew Heq]; subst.
  rewrite Hp in Hq. rewrite Hd in Hq'. injection Hq as <-. injection Hq' as <-.
  split; [by eexists|]. apply delete_insert_eq.
Qed.

Lemma hunk_ok_chunks h : hunk_ok h → Forall chunk_ok (chunks_of h).
Proof.
  destruct h; simpl; [done|done|]. intros [_ Hc]. eapply Forall_impl; [exact Hc|]. by intros c [].
Qed.

(** Applying a patch never panics: whatever the patch text, the files, the
    errors of the file system and those of the output streams, the run ends with a
    delta or with a failure. *)
Theorem apply_patch_no_panic patch o (cwd : P) env :
  (apply_patch_with_options (X := X) patch o cwd env).2 ≠ Err Panicked.
Proof.
  destruct (apply_patch_with_options (X := X) patch o cwd env) as [env' r] eqn:Hr. simpl. intros ->.
  apply apply_patch_inv in Hr as [(args & Hp & Hr)|[_ Hd]]; [|done].
  pose proof (no_panic_apply_hunks (W := W) (X := X) (args_hunks args) o cwd) as Hnp.
  apply parse_patch_wf in Hp.
  specialize (Hnp (Forall_impl _ _ _ Hp hunk_ok_chunks) (mkApp (env_world env) empty_delta)).
  unfold apply_hunks_with_options in Hr.
  destruct (apply_hunks_to_files _ _ _ _) as [s [a|[e|]]]; simpl in Hnp; [| |done];
    unfold to_stdout, to_stderr in Hr; m_unfold; cbn [stdout stderr env_world] in Hr.
  - destruct (print_summary a (stdout env)) as [o1 [[]|e]]; by simplify_eq/=.
  - destruct (writeln _ (stderr env)) as [o1 [[]|e']]; by simplify_eq/=.
Qed.
End entry.

(** ** The theorems at work on the in-memory file system *)

Definition sample_world : MemFs :=
  mkMem {[ lit "/r/a" := lit "one" ++ [c_nl] ++ lit "two" ++ [c_nl]; lit "/r/old" := lit "x" ]}
    {[ lit "/r" ]} ∅.
Definition sample_env : Env MemFs str str := mkEnv sample_world [] [].
Definition sample_hunks : list Hunk :=
  [AddFile (lit "sub/new") (lit "hello"); DeleteFile (lit "old");
   UpdateFile (lit "a") (Some (lit "b")) [mkChunk None [lit "two"] [lit "2"] [] false]].

Definition sample_run :=
  apply_hunks_with_options (X := anyhow) sample_hunks default_options (lit "/r") sample_env.
Definition delta_of_run {P} (r : result (stop (ApplyPatchFailure P)) (AppliedPatchDelta P)) :
    AppliedPatchDelta P := default empty_delta (run_delta r).

Lemma sample_run_ok : sample_run = (sample_run.1, Ok (delta_of_run sample_run.2)).
Proof. vm_compute. reflexivity. Qed.

Example sample_run_files :
  map_to_list (files (env_world sample_run.1)) =
  map_to_list (<[lit "/r/b" := lit "one" ++ [c_nl] ++ lit "2" ++ [c_nl]]>
    {[ lit "/r/sub/new" := lit "hello" ]} : gmap str str).
Proof. vm_compute. reflexivity. Qed.

Lemma apply_hunks_refines_witness :
  hunks_applied NormalizeToLf (lit "/r") sample_hunks (view sample_world)
    (view (env_world sample_run.1)).
Proof.
  apply (apply_hunks_refines sample_hunks default_options (lit "/r") sample_env sample_run.1
    (delta_of_run sample_run.2)); [exact sample_run_ok|vm_compute; reflexivity].
Defined.

(** A run that fails half way: the second hunk does not match its file. *)
Definition failing_hunks : list Hunk :=
  [AddFile (lit "n") (lit "hello");
   UpdateFile (lit "a") None [mkChunk None [lit "three"] [lit "3"] [] false]].
Definition failing_run :=
  apply_hunks_with_options (X := anyhow) failing_hunks default_options (lit "/r") sample_env.
Definition failure_of_run {P} (r : result (stop (ApplyPatchFailure P)) (AppliedPatchDelta P)) :
    ApplyPatchFailure P :=
  match r with Err (Failed f) => f | _ => without_delta ImplicitInvocation end.

Lemma apply_hunks_failure_witness :
  let v := view (env_world failing_run.1) in
  hunks_applied NormalizeToLf (lit "/r") failing_hunks (view sample_world) v ∨
  ∃ hs1 h hs2 v1, failing_hunks = hs1 ++ h :: hs2 ∧
    hunks_applied NormalizeToLf (lit "/r") hs1 (view sample_world) v1 ∧
    hunk_failed NormalizeToLf (lit "/r") h v1 v.
Proof.
  apply (apply_hunks_failure failing_hunks default_options (lit "/r") sample_env failing_run.1
    (failure_of_run failing_run.2)); vm_compute; reflexivity.
Defined.

Definition self_move : list UpdateFileChunk := [mkChunk None [lit "two"] [lit "2"] [] false].
Definition self_move_run :=
  apply_hunks_with_options (X := anyhow) [UpdateFile (lit "a") (Some (lit "a")) self_move]
    default_options (lit "/r") sample_env.

Lemma move_to_self_removes_witness :
  is_Some (view sample_world !! lit "/r/a") ∧
  view (env_world self_move_run.1) = delete (lit "/r/a") (view sample_world).
Proof.
  apply (move_to_self_removes (lit "a") (lit "a") self_move default_options (lit "/r") (lit "/r/a")
    sample_env self_move_run.1 (delta_of_run self_move_run.2)); vm_compute; reflexivity.
Defined.

Definition sample_patch_text : str := join [c_nl]
  [lit "*** Begin Patch"; lit "*** Add File: n"; lit "+hi"; lit "*** Delete File: old";
   lit "*** Update File: a"; lit "-two"; lit "+2";
   lit "*** Update File: gone"; lit "-two"; lit "+2"; lit "*** End Patch"].
Definition sample_patch_run :=
  apply_patch_with_options (X := anyhow) sample_patch_text default_options (lit "/r") sample_env.

Lemma apply_patch_delta_exact_witness :
  let d := default empty_delta (run_delta sample_patch_run.2) in
  length (changes d) = 3 ∧
  replay (changes d) (view sample_world) = view (env_world sample_patch_run.1) ∧
  undo (changes d) (view (env_world sample_patch_run.1)) = view sample_world.
Proof.
  split; [vm_compute; reflexivity|].
  apply (apply_patch_delta_exact sample_patch_text default_options (lit "/r") sample_env
    sample_patch_run.1 sample_patch_run.2 (default empty_delta (run_delta sample_patch_run.2)));
    vm_compute; reflexivity.
Defined.
