(* ===== verification/Invocation.v ===== *)
(** * Invocation: recognising and verifying an apply_patch command
    ([apply-patch/src/invocation.rs])

    Which command lines invoke apply_patch, and the dry run that turns a parsed
    patch into the file changes shown for approval.  The extraction of a heredoc
    from a shell script (tree-sitter) and the text of a unified diff (the similar
    crate) are parameters. *)
From S2P Require Import Prelude RustStr PatchTypes StreamingParser PatchParser PatchGrammar SeekSequence PatchErrors TextFile FileUpdate FsInterface MemFs ApplyHunks ApplyPatch ApplyPatchFacts.

Definition APPLY_PATCH_COMMANDS : list str := [lit "apply_patch"; lit "applypatch"].

Inductive ApplyPatchShell := Unix | PowerShell | Cmd.

#[export] Instance ApplyPatchShell_eq_dec : EqDecision ApplyPatchShell.
Proof. solve_decision. Defined.

(** The payloads are errors of the tree-sitter and UTF-8 libraries. *)
Inductive ExtractHeredocError (GE UE : Type) :=
| CommandDidNotStartWithApplyPatch
| FailedToLoadBashGrammar (e : GE)
| HeredocNotUtf8 (e : UE)
| FailedToParsePatchIntoAst
| FailedToFindHeredocBody.
Arguments CommandDidNotStartWithApplyPatch {GE UE}.
Arguments FailedToLoadBashGrammar {GE UE}.
Arguments HeredocNotUtf8 {GE UE}.
Arguments FailedToParsePatchIntoAst {GE UE}.
Arguments FailedToFindHeredocBody {GE UE}.

Inductive MaybeApplyPatch (HE : Type) :=
| Maybe_Body (args : ApplyPatchArgs)
| Maybe_ShellParseError (e : HE)
| Maybe_PatchParseError (e : ParseError)
| Maybe_NotApplyPatch.
Arguments Maybe_Body {HE}.
Arguments Maybe_ShellParseError {HE}.
Arguments Maybe_PatchParseError {HE}.
Arguments Maybe_NotApplyPatch {HE}.

Inductive ApplyPatchFileChange (P : Type) :=
| Change_Add (content : str)
| Change_Delete (content : str)
| Change_Update (unified_diff : str) (move_path : option P) (new_content : str).
Arguments Change_Add {P}.
Arguments Change_Delete {P}.
Arguments Change_Update {P}.

Definition classify_shell_name (shell : str) (convention : PathConvention) : option str :=
  basename ← last (path_segments convention shell);
  let stem := match rsplit_once 46%N basename with
              | Some (stem, _) => if bool_decide (stem = []) then basename else stem
              | None => basename
              end in
  Some (to_ascii_lowercase stem).

Definition is_one_of (names : list str) (s : str) : bool := bool_decide (s ∈ names).

Definition classify_shell (shell flag : str) (convention : PathConvention) :
    option ApplyPatchShell :=
  name ← classify_shell_name shell convention;
  if is_one_of [lit "bash"; lit "zsh"; lit "sh"] name && is_one_of [lit "-lc"; lit "-c"] flag
  then Some Unix
  else if is_one_of [lit "pwsh"; lit "powershell"] name && eq_ignore_ascii_case flag (lit "-command")
  then Some PowerShell
  else if bool_decide (name = lit "cmd") && eq_ignore_ascii_case flag (lit "/c") then Some Cmd
  else None.

Definition can_skip_flag (shell flag : str) (convention : PathConvention) : bool :=
  match classify_shell_name shell convention with
  | Some name =>
      is_one_of [lit "pwsh"; lit "powershell"] name && eq_ignore_ascii_case flag (lit "-noprofile")
  | None => false
  end.

Section invocation.
Context {W P GE UE : Type} {PU : PathUriOps P} {FS : ExecutorFileSystem W P}.
(** [extract_apply_patch_from_bash]: the heredoc body and the directory of a [cd]. *)
Variable extract_apply_patch_from_bash : str → result (ExtractHeredocError GE UE) (str * option str).
(** [TextDiff::from_lines(old, new).unified_diff().context_radius(n)]. *)
Variable text_diff : str → str → nat → str.

Definition parse_shell_script (argv : list str) (cwd : P) : option (ApplyPatchShell * str) :=
  convention ← infer_path_convention cwd;
  match argv with
  | [shell; flag; script] =>
      shell_type ← classify_shell shell flag convention; Some (shell_type, script)
  | [shell; skip_flag; flag; script] =>
      if negb (can_skip_flag shell skip_flag convention) then None
      else shell_type ← classify_shell shell flag convention; Some (shell_type, script)
  | _ => None
  end.

Definition extract_apply_patch_from_shell (shell : ApplyPatchShell) (script : str) :
    result (ExtractHeredocError GE UE) (str * option str) :=
  match shell with
  | Unix | PowerShell | Cmd => extract_apply_patch_from_bash script
  end.

Definition set_workdir (workdir : option str) (a : ApplyPatchArgs) : ApplyPatchArgs :=
  mkArgs (args_patch a) (args_hunks a) workdir (args_environment_id a).

Definition maybe_parse_shell (argv : list str) (cwd : P) :
    MaybeApplyPatch (ExtractHeredocError GE UE) :=
  match parse_shell_script argv cwd with
  | Some (shell, script) =>
      match extract_apply_patch_from_shell shell script with
      | Ok (body, workdir) =>
          match parse_patch body with
          | Ok source => Maybe_Body (set_workdir workdir source)
          | Err e => Maybe_PatchParseError e
          end
      | Err CommandDidNotStartWithApplyPatch => Maybe_NotApplyPatch
      | Err e => Maybe_ShellParseError e
      end
  | None => Maybe_NotApplyPatch
  end.

Definition maybe_parse_apply_patch (argv : list str) (cwd : P) :
    MaybeApplyPatch (ExtractHeredocError GE UE) :=
  match argv with
  | [cmd; body] =>
      if bool_decide (cmd ∈ APPLY_PATCH_COMMANDS) then
        match parse_patch body with
        | Ok source => Maybe_Body source
        | Err e => Maybe_PatchParseError e
        end
      else maybe_parse_shell argv cwd
  | _ => maybe_parse_shell argv cwd
  end.

(** ** Verification *)

Record ApplyPatchAction := mkAction {
  action_changes : gmap P (ApplyPatchFileChange P);
  action_update_file_mode : ApplyPatchFileUpdateMode;
  action_patch : str;
  action_cwd : P;
}.

(** [ApplyPatchAction::is_empty]. *)
Definition action_is_empty (a : ApplyPatchAction) : bool := bool_decide (action_changes a = ∅).

Inductive MaybeApplyPatchVerified :=
| Verified_Body (a : ApplyPatchAction)
| Verified_ShellParseError (e : ExtractHeredocError GE UE)
| Verified_CorrectnessError (e : ApplyPatchError)
| Verified_NotApplyPatch.

Abbreviation Verify := (M W (stop ApplyPatchError)).

(** [?] on a result whose error is converted by [f]. *)
Definition or_error {A E} (f : E → ApplyPatchError) (r : result E A) : Verify A :=
  lift (map_err (Failed ∘ f) r).

(** [Option::transpose] of [o.map(f)]. *)
Definition transpose {A B E} (f : A → result E B) (o : option A) : result E (option B) :=
  match o with
  | Some a => match f a with Ok b => Ok (Some b) | Err e => Err e end
  | None => Ok None
  end.

Record ApplyPatchFileUpdate := mkFileUpdate {
  unified_diff : str;
  original_content : str;
  content : str;
}.

Definition unified_diff_from_chunks_with_context_and_mode (path : P)
    (chunks : list UpdateFileChunk) (context : nat) (md : ApplyPatchFileUpdateMode) :
    Verify ApplyPatchFileUpdate :=
  a ← derive_new_contents_from_chunks path chunks md true;
  mret (mkFileUpdate (text_diff (original_contents a) (new_contents a) context)
          (original_contents a) (new_contents a)).

Definition unified_diff_from_chunks_with_mode (path : P) (chunks : list UpdateFileChunk)
    (md : ApplyPatchFileUpdateMode) : Verify ApplyPatchFileUpdate :=
  unified_diff_from_chunks_with_context_and_mode path chunks 1 md.

(** The change of one hunk at its resolved path. *)
Definition verify_hunk (effective_cwd path : P) (h : Hunk) (md : ApplyPatchFileUpdateMode) :
    Verify (ApplyPatchFileChange P) :=
  match h with
  | AddFile _ contents => mret (Change_Add contents)
  | DeleteFile _ => λ w,
      let '(w, r) := read_file_text path true w in
      (w, match r with
          | Ok content => Ok (Change_Delete content)
          | Err source =>
              Err (Failed (PatchIoError (mkIoError (msg_path (lit "Failed to read ") path) source)))
          end)
  | UpdateFile _ move_path chunks =>
      u ← unified_diff_from_chunks_with_mode path chunks md;
      move ← or_error PatchPathUri (transpose (path_join effective_cwd) move_path);
      mret (Change_Update (unified_diff u) move (content u))
  end.

Fixpoint verify_hunks (effective_cwd : P) (md : ApplyPatchFileUpdateMode) (hs : list Hunk)
    (changes : gmap P (ApplyPatchFileChange P)) : Verify (gmap P (ApplyPatchFileChange P)) :=
  match hs with
  | [] => mret changes
  | h :: hs =>
      path ← or_error PatchPathUri (resolve_path h effective_cwd);
      if changes !! path is Some _ then
        throw (Failed (PatchParseError (InvalidPatchError
          (lit "multiple operations target " ++ native_string path))))
      else
        c ← verify_hunk effective_cwd path h md;
        verify_hunks effective_cwd md hs (<[path := c]> changes)
  end.

Definition try_verify_apply_patch_args (args : ApplyPatchArgs) (cwd : P)
    (md : ApplyPatchFileUpdateMode) : Verify ApplyPatchAction :=
  dir ← or_error PatchPathUri (transpose (path_join cwd) (args_workdir args));
  let effective_cwd := default cwd dir in
  changes ← verify_hunks effective_cwd md (args_hunks args) ∅;
  mret (mkAction changes md (args_patch args) effective_cwd).

(** The verified command; a panic inside is the outer [None]. *)
Definition verify_apply_patch_args_with_mode (args : ApplyPatchArgs) (cwd : P)
    (md : ApplyPatchFileUpdateMode) (w : W) : W * option MaybeApplyPatchVerified :=
  let '(w, r) := try_verify_apply_patch_args args cwd md w in
  (w, match r with
      | Ok action => Some (Verified_Body action)
      | Err (Failed err) => Some (Verified_CorrectnessError err)
      | Err Panicked => None
      end).

Definition verify_apply_patch_args (args : ApplyPatchArgs) (cwd : P) (w : W) :=
  verify_apply_patch_args_with_mode args cwd NormalizeToLf w.

Definition is_raw_patch (argv : list str) : bool :=
  match argv with [body] => is_ok (parse_patch body) | _ => false end.

Definition maybe_parse_apply_patch_verified_with_mode (argv : list str) (cwd : P)
    (md : ApplyPatchFileUpdateMode) (w : W) : W * option MaybeApplyPatchVerified :=
  if is_raw_patch argv then (w, Some (Verified_CorrectnessError ImplicitInvocation))
  else if match parse_shell_script argv cwd with
          | Some (_, script) => is_ok (parse_patch script)
          | None => false
          end
  then (w, Some (Verified_CorrectnessError ImplicitInvocation))
  else match maybe_parse_apply_patch argv cwd with
       | Maybe_Body args => verify_apply_patch_args_with_mode args cwd md w
       | Maybe_ShellParseError e => (w, Some (Verified_ShellParseError e))
       | Maybe_PatchParseError e => (w, Some (Verified_CorrectnessError (PatchParseError e)))
       | Maybe_NotApplyPatch => (w, Some Verified_NotApplyPatch)
       end.

Definition maybe_parse_apply_patch_verified (argv : list str) (cwd : P) (w : W) :=
  maybe_parse_apply_patch_verified_with_mode argv cwd NormalizeToLf w.
End invocation.
Arguments ApplyPatchAction P {PU}.
Arguments MaybeApplyPatchVerified P GE UE {PU}.

(** * What verification promises

    A verified action lists one change per hunk, computed from the files as they
    are, and agrees with what applying the patch then does to them. *)

Section facts.
Context {W P : Type} {PU : PathUriOps P} {FS : ExecutorFileSystem W P}.
Context {FL : FileSystemLaws W P}.
Variable text_diff : str → str → nat → str.
Implicit Types (v : gmap P str) (p : P).

(** The change [ch] shown for the hunk [h] at [p], when the files are [v]. *)
Definition verified_change (md : ApplyPatchFileUpdateMode) (cwd : P) (h : Hunk) p v
    (ch : ApplyPatchFileChange P) : Prop :=
  match h, ch with
  | AddFile _ contents, Change_Add content => content = contents
  | DeleteFile _, Change_Delete content => v !! p = Some content
  | UpdateFile _ mv chunks, Change_Update _ move new =>
      transpose (path_join cwd) mv = Ok move ∧
      ∃ old, v !! p = Some old ∧ new_contents_of old (native_string p) chunks md = Some (Ok new)
  | _, _ => False
  end.

Lemma lift_inv {S E A} (x : result E A) (s s' : S) r : lift x s = (s', r) → s' = s ∧ r = x.
Proof. unfold lift. naive_solver. Qed.

Lemma or_error_inv {A E} (f : E → ApplyPatchError) (x : result E A) (w w' : W) r :
  or_error f x w = (w', r) → w' = w ∧ r = map_err (Failed ∘ f) x.
Proof. apply lift_inv. Qed.

Lemma derive_contents_spec p chunks md b (w w' : W) r :
  derive_new_contents_from_chunks p chunks md b w = (w', r) → plain w p →
  view w' = view w ∧ (∀ q, plain w q → plain w' q) ∧
  ∀ a, r = Ok a → view w !! p = Some (original_contents a) ∧
    new_contents_of (original_contents a) (native_string p) chunks md = Some (Ok (new_contents a)).
Proof.
  unfold derive_new_contents_from_chunks. intros Hr Hp.
  pose proof (read_view p b w) as Hv. pose proof (read_plain p b w) as Hpl.
  destruct (read_file_text p b w) as [w1 x] eqn:Hm. simplify_eq/=. split_and!; [done|done|].
  intros a Ha. destruct x as [original|e]; [|done].
  destruct (new_contents_of _ _ _ _) as [[new|e]|] eqn:Hn; simplify_eq/=.
  split; [by eapply read_ok|done].
Qed.

Lemma verify_hunk_spec cwd p h md (w w' : W) ch :
  verify_hunk text_diff cwd p h md w = (w', Ok ch) → plain w p →
  view w' = view w ∧ (∀ q, plain w q → plain w' q) ∧ verified_change md cwd h p (view w) ch.
Proof.
  intros Hr Hp. destruct h as [path contents|path|path mv chunks]; simpl in Hr.
  - m_unfold. by simplify_eq.
  - pose proof (read_view p true w) as Hv. pose proof (read_plain p true w) as Hpl.
    destruct (read_file_text p true w) as [w1 [c|e]] eqn:Hm; simplify_eq/=.
    split_and!; [done|done|by eapply read_ok].
  - unfold unified_diff_from_chunks_with_mode, unified_diff_from_chunks_with_context_and_mode in Hr.
    apply M_bind_inv in Hr as [(u & w1 & Hu & Hr)|(e & _ & ?)]; [|done].
    apply M_bind_inv in Hu as [(a & w2 & Ha & Hu)|(e & _ & ?)]; [|done].
    apply derive_contents_spec in Ha as (Hv & Hpl & Ha); [|done].
    destruct (Ha a eq_refl) as [Hold Hnew]. m_unfold. simplify_eq.
    apply M_bind_inv in Hr as [(move & w3 & Hm & Hr)|(e & _ & ?)]; [|done].
    apply or_error_inv in Hm as [-> Hm]. m_unfold. simplify_eq. split_and!; [done|done|].
    simpl. destruct (transpose _ _) as [mv'|]; simpl in Hm; simplify_eq. eauto.
Qed.

(** The hunks, the paths they resolve to and the changes listed for them. *)
Definition verified (md : ApplyPatchFileUpdateMode) (cwd : P) (hs : list Hunk) (ps : list P) v
    (cs : gmap P (ApplyPatchFileChange P)) : Prop :=
  Forall2 (λ h p, resolve_path h cwd = Ok p ∧
    ∃ ch, cs !! p = Some ch ∧ verified_change md cwd h p v ch) hs ps.

Lemma verify_hunks_spec cwd md hs cs cs' (w w' : W) :
  verify_hunks text_diff cwd md hs cs w = (w', Ok cs') →
  (∀ h p, h ∈ hs → resolve_path h cwd = Ok p → plain w p) →
  view w' = view w ∧ ∃ ps, verified md cwd hs ps (view w) cs' ∧ NoDup ps ∧
    (∀ p, p ∈ ps → cs !! p = None) ∧
    (∀ p, cs' !! p = if decide (p ∈ ps) then cs' !! p else cs !! p) ∧
    (∀ p, p ∈ ps → is_Some (cs' !! p)).
Proof.
  revert cs w. induction hs as [|h hs IH]; intros cs w; simpl.
  { m_unfold. intros [= <- <-] _. split; [done|]. exists []. split_and!; try by constructor.
    - by intros p ?%not_elem_of_nil.
    - by intros p ?%not_elem_of_nil. }
  intros [(p & w1 & Hp & Hr)|(e & _ & ?)]%M_bind_inv Hpl; [|done].
  apply or_error_inv in Hp as [-> Hp]. destruct (resolve_path h cwd) as [p'|] eqn:Hres; [|done].
  injection Hp as ->. destruct (cs !! p') as [c|] eqn:Hcs; [by injection Hr|].
  apply M_bind_inv in Hr as [(ch & w2 & Hch & Hr)|(e & _ & ?)]; [|done].
  assert (plain w p') as Hplain by (eapply Hpl; [constructor|done]).
  apply verify_hunk_spec in Hch as (Hv & Hpl2 & Hch); [|done].
  apply IH in Hr as (Hv' & ps & Hf & Hnd & Hnone & Hcs' & Hsome).
  2: { intros h' q Hh' Hq. apply Hpl2. eapply Hpl; [by constructor|done]. }
  split; [congruence|]. exists (p' :: ps).
  assert (p' ∉ ps) as Hnin.
  { intros Hin. apply Hnone in Hin. by rewrite lookup_insert_eq in Hin. }
  assert (cs' !! p' = Some ch) as Hp'.
  { rewrite Hcs', decide_False by done. apply lookup_insert_eq. }
  split_and!.
  - constructor; [eauto|]. by rewrite Hv in Hf.
  - by constructor.
  - intros q [->|Hq]%elem_of_cons; [done|]. specialize (Hnone q Hq).
    by apply lookup_insert_None in Hnone as [].
  - intros q. case_decide as Hq; [done|]. apply not_elem_of_cons in Hq as [Hqp Hq].
    rewrite Hcs', decide_False by done. by apply lookup_insert_ne.
  - intros q [->|Hq]%elem_of_cons; [by eexists|auto].
Qed.

(** ** Verification and application agree *)

(** The paths a hunk reads or writes. *)
Definition hunk_targets (cwd : P) (h : Hunk) : list P :=
  match resolve_path h cwd with Ok p => [p] | Err _ => [] end ++
  match h with
  | UpdateFile _ (Some dest) _ =>
      match path_join cwd dest with Ok d => [d] | Err _ => [] end
  | _ => []
  end.

(** What a listed change says of the files after the patch. *)
Definition shows p (ch : ApplyPatchFileChange P) v' : Prop :=
  match ch with
  | Change_Add content => v' !! p = Some content
  | Change_Delete _ => v' !! p = None
  | Change_Update _ None new => v' !! p = Some new
  | Change_Update _ (Some d) new => v' !! p = None ∧ v' !! d = Some new
  end.

(** The paths [shows] looks at. *)
Definition shown_paths p (ch : ApplyPatchFileChange P) : list P :=
  match ch with Change_Update _ (Some d) _ => [p; d] | _ => [p] end.

Lemma shows_same p ch v v' :
  (∀ q, q ∈ shown_paths p ch → v' !! q = v !! q) → shows p ch v → shows p ch v'.
Proof.
  intros Hq. destruct ch as [c|c|u [d|] new]; simpl in *.
  - rewrite Hq; [done|set_solver].
  - rewrite Hq; [done|set_solver].
  - rewrite !Hq; [done|set_solver..].
  - rewrite Hq; [done|set_solver].
Qed.

Lemma hunk_applied_same md cwd h v v' q :
  hunk_applied md cwd h v v' → q ∉ hunk_targets cwd h → v' !! q = v !! q.
Proof.
  unfold hunk_targets. destruct 1 as [? ? ? ? Hp|? ? ? Hp|? ? ? ? ? ? Hp|? ? ? ? ? ? ? ? Hp Hd];
    unfold resolve_path; simpl; rewrite ?Hp, ?Hd; simpl; intros Hq;
    rewrite ?not_elem_of_cons in Hq.
  - rewrite lookup_insert_ne; naive_solver.
  - rewrite lookup_delete_ne; naive_solver.
  - rewrite lookup_insert_ne; naive_solver.
  - rewrite lookup_delete_ne, lookup_insert_ne; naive_solver.
Qed.

Lemma shown_paths_targets md cwd h p v ch :
  resolve_path h cwd = Ok p → verified_change md cwd h p v ch →
  ∀ q, q ∈ shown_paths p ch → q ∈ hunk_targets cwd h.
Proof.
  unfold hunk_targets. intros -> Hch q Hq.
  destruct h as [path c|path|path mv cs], ch as [c'|c'|u mv' new]; simpl in *; try done.
  destruct Hch as [Hmv _]. destruct mv as [dest|]; simpl in *; [|by simplify_eq/=].
  destruct (path_join cwd dest); by simplify_eq/=.
Qed.

Lemma hunk_applied_shows md cwd h p v v1 v2 ch :
  hunk_applied md cwd h v1 v2 → resolve_path h cwd = Ok p → verified_change md cwd h p v ch →
  NoDup (hunk_targets cwd h) → (∀ q, q ∈ hunk_targets cwd h → v1 !! q = v !! q) →
  shows p ch v2.
Proof.
  intros Ha Hp Hch Hnd Hsame.
  assert (v1 !! p = v !! p) as Hv by (apply Hsame; unfold hunk_targets; rewrite Hp; set_solver).
  unfold hunk_targets in Hnd. rewrite Hp in Hnd.
  destruct Ha as [path c q v1 Hq|path q v1 Hq Hs|path cs q old new v1 Hq Hold Hnew
    |path dest cs q d old new v1 Hq Hd Hold Hnew]; unfold resolve_path in Hp; simpl in Hp;
    rewrite Hq in Hp; injection Hp as ->; destruct ch as [c'|c'|u mv' new']; simpl in Hch; try done.
  - subst. simpl. apply lookup_insert_eq.
  - simpl. apply lookup_delete_eq.
  - destruct Hch as [[= <-] (old' & Hold' & Hnew')]. simpl. rewrite lookup_insert_eq. congruence.
  - rewrite Hd in Hch, Hnd. destruct Hch as [[= <-] (old' & Hold' & Hnew')]. simpl in *.
    assert (p ≠ d) as Hne by (apply NoDup_cons in Hnd as [Hnd _]; set_solver).
    split; [apply lookup_delete_eq|].
    rewrite lookup_delete_ne, lookup_insert_eq by done. congruence.
Qed.

Lemma hunks_applied_same md cwd hs v v' q :
  hunks_applied md cwd hs v v' → q ∉ (hs ≫= hunk_targets cwd) → v' !! q = v !! q.
Proof.
  revert v. induction hs as [|h hs IH]; intros v; simpl; [by intros ->|].
  intros (v1 & Hh & Hhs). rewrite not_elem_of_app. intros [Hq1 Hq2].
  rewrite (IH v1) by done. by eapply hunk_applied_same.
Qed.

Lemma hunks_applied_shows md cwd hs ps v cs v1 v' :
  verified md cwd hs ps v cs → NoDup (hs ≫= hunk_targets cwd) →
  (∀ q, q ∈ (hs ≫= hunk_targets cwd) → v1 !! q = v !! q) →
  hunks_applied md cwd hs v1 v' → ∀ p ch, p ∈ ps → cs !! p = Some ch → shows p ch v'.
Proof.
  intros Hver. revert v1.
  induction Hver as [|h p hs ps (Hp & ch & Hcs & Hch) Hver IH]; intros v1; simpl.
  { by intros _ _ _ p ch ?%not_elem_of_nil. }
  intros (Hnd1 & Hdis & Hnd2)%NoDup_app Hsame (v2 & Hh & Hhs) p' ch' [->|Hp']%elem_of_cons Hcs'.
  - rewrite Hcs in Hcs'. injection Hcs' as <-. eapply shows_same.
    + intros q Hq. eapply hunks_applied_same; [done|].
      apply Hdis. by eapply shown_paths_targets.
    + eapply hunk_applied_shows; [done..|]. intros q Hq. apply Hsame. by apply elem_of_app; left.
  - eapply IH; [done| |done..]. intros q Hq.
    rewrite (hunk_applied_same md cwd h v1 v2) by (done || intros Hq'; by eapply Hdis).
    apply Hsame. by apply elem_of_app; right.
Qed.

Lemma try_verify_inv args cwd md (w w' : W) action :
  try_verify_apply_patch_args text_diff args cwd md w = (w', Ok action) →
  (action_cwd action = cwd ∨ ∃ d, args_workdir args = Some d ∧ path_join cwd d = Ok (action_cwd action)) ∧
  verify_hunks text_diff (action_cwd action) md (args_hunks args) ∅ w
    = (w', Ok (action_changes action)) ∧
  action_patch action = args_patch args ∧ action_update_file_mode action = md.
Proof.
  unfold try_verify_apply_patch_args.
  intros [(dir & w1 & Hd & Hr)|(e & _ & ?)]%M_bind_inv; [|done].
  apply or_error_inv in Hd as [-> Hd].
  apply M_bind_inv in Hr as [(cs & w2 & Hv & Hr)|(e & _ & ?)]; [|done].
  m_unfold. simplify_eq/=. split_and!; [|done..].
  destruct (args_workdir args) as [d|]; simpl in Hd; [|simplify_eq; by left].
  destruct (path_join cwd d) eqn:Hj; simplify_eq/=. right. eauto.
Qed.

(** A verified action lists exactly one change per hunk: the hunks resolve to
    distinct paths, which are the paths listed, and each change is what the hunk does
    to the files as they are (the text added, the text deleted, the contents the
    update derives and where they move); verification itself changes no file. *)
Theorem verified_changes args cwd md (w w' : W) action :
  try_verify_apply_patch_args text_diff args cwd md w = (w', Ok action) →
  (∀ h p, h ∈ args_hunks args → resolve_path h (action_cwd action) = Ok p → plain w p) →
  view w' = view w ∧
  ∃ ps, NoDup ps ∧ verified md (action_cwd action) (args_hunks args) ps (view w) (action_changes action) ∧
    ∀ p, is_Some (action_changes action !! p) ↔ p ∈ ps.
Proof.
  intros (_ & Hv & _)%try_verify_inv Hpl.
  apply verify_hunks_spec in Hv as (Hview & ps & Hver & Hnd & _ & Hcs & Hsome); [|done].
  split; [done|]. exists ps. split_and!; [done..|]. intros p. split; [|auto].
  specialize (Hcs p). case_decide; [done|]. rewrite Hcs, lookup_empty. by intros [].
Qed.

(** C40.  What was approved is what happens.  When a patch whose hunks touch pairwise
    different paths was verified, and its hunks are then applied to the same files,
    every change the action listed is what the files show afterwards, and no file
    outside the paths of the patch has changed. *)
Theorem verified_then_applied args cwd md (w w' : W) action v' :
  try_verify_apply_patch_args text_diff args cwd md w = (w', Ok action) →
  (∀ h p, h ∈ args_hunks args → resolve_path h (action_cwd action) = Ok p → plain w p) →
  NoDup (args_hunks args ≫= hunk_targets (action_cwd action)) →
  hunks_applied md (action_cwd action) (args_hunks args) (view w') v' →
  (∀ p ch, action_changes action !! p = Some ch → shows p ch v') ∧
  (∀ q, q ∉ (args_hunks args ≫= hunk_targets (action_cwd action)) → v' !! q = view w !! q).
Proof.
  intros (_ & Hv & _)%try_verify_inv Hpl Hnd Ha.
  apply verify_hunks_spec in Hv as (Hview & ps & Hver & _ & _ & Hcs & _); [|done].
  rewrite Hview in Ha. split.
  - intros p ch Hch. eapply hunks_applied_shows; [done..| |done].
    specialize (Hcs p). case_decide; [done|]. rewrite Hch, lookup_empty in Hcs. done.
  - intros q Hq. by eapply hunks_applied_same.
Qed.

Context {GE UE : Type}.
Variable extract : str → result (ExtractHeredocError GE UE) (str * option str).

(** A command is only turned into an action when it invokes apply_patch
    explicitly: it is [apply_patch <patch>] itself, or a recognised shell whose script
    is not itself a patch and from which a patch could be extracted; the action
    carries the text of that patch. *)
Theorem verified_body_explicit argv cwd md (w w' : W) action :
  maybe_parse_apply_patch_verified_with_mode extract text_diff argv cwd md w
    = (w', Some (Verified_Body action)) →
  is_raw_patch argv = false ∧
  ∃ args, action_patch action = args_patch args ∧
    ((∃ cmd body, argv = [cmd; body] ∧ cmd ∈ APPLY_PATCH_COMMANDS ∧ parse_patch body = Ok args) ∨
     (∃ shell script body workdir parsed, parse_shell_script argv cwd = Some (shell, script) ∧
        is_ok (parse_patch script) = false ∧ extract script = Ok (body, workdir) ∧
        parse_patch body = Ok parsed ∧ args = set_workdir workdir parsed)).
Proof.
  unfold maybe_parse_apply_patch_verified_with_mode.
  destruct (is_raw_patch argv); [done|].
  destruct (match parse_shell_script argv cwd with Some _ => _ | None => _ end) eqn:Hscript; [done|].
  intros Hr. split; [done|].
  destruct (maybe_parse_apply_patch extract argv cwd) as [args| | |] eqn:Hm; try done.
  exists args. split.
  { unfold verify_apply_patch_args_with_mode in Hr.
    destruct (try_verify_apply_patch_args _ _ _ _ _) as [w1 [a|[e|]]] eqn:Ht; simplify_eq.
    by apply try_verify_inv in Ht as (_ & _ & ? & _). }
  assert (maybe_parse_shell extract argv cwd = Maybe_Body args →
    ∃ shell script body workdir parsed, parse_shell_script argv cwd = Some (shell, script) ∧
      is_ok (parse_patch script) = false ∧ extract script = Ok (body, workdir) ∧
      parse_patch body = Ok parsed ∧ args = set_workdir workdir parsed) as Hshell.
  { unfold maybe_parse_shell. destruct (parse_shell_script argv cwd) as [[shell script]|]; [|done].
    unfold extract_apply_patch_from_shell.
    destruct (match shell with Unix => _ | _ => _ end) as [[body workdir]|e] eqn:He; [|by destruct e].
    destruct (parse_patch body) as [parsed|] eqn:Hp; [|done]. intros [= <-].
    exists shell, script, body, workdir, parsed. split_and!; try done. by destruct shell. }
  unfold maybe_parse_apply_patch in Hm.
  destruct argv as [|cmd [|body [|? ?]]]; try (right; by apply Hshell).
  case_bool_decide; [|right; by apply Hshell]. left. exists cmd, body.
  destruct (parse_patch body); naive_solver.
Qed.
End facts.

(** ** Witnesses on the in-memory file system *)

Definition no_diff (old new : str) (context : nat) : str := [].
Definition no_heredoc (s : str) : result (ExtractHeredocError unit unit) (str * option str) :=
  Err CommandDidNotStartWithApplyPatch.

Definition sample_args : ApplyPatchArgs := mkArgs [] sample_hunks None None.
Definition sample_verified :=
  try_verify_apply_patch_args no_diff sample_args (lit "/r") NormalizeToLf sample_world.
Definition sample_action : ApplyPatchAction str :=
  match sample_verified.2 with
  | Ok a => a
  | Err _ => mkAction ∅ NormalizeToLf [] []
  end.

Lemma sample_verified_ok : sample_verified = (sample_world, Ok sample_action).
Proof. vm_compute. reflexivity. Qed.

Lemma sample_plain h p :
  h ∈ sample_hunks → resolve_path h (lit "/r") = Ok p → plain sample_world p.
Proof.
  unfold sample_hunks. rewrite !elem_of_cons. intros [->|[->|[->|[]%not_elem_of_nil]]];
    intros [= <-]; vm_compute; intros Hd; set_solver.
Qed.

Lemma verified_changes_witness :
  ∃ ps : list str, NoDup ps ∧ length ps = 3 ∧
    ∀ p, is_Some (action_changes sample_action !! p) ↔ p ∈ ps.
Proof.
  destruct (verified_changes no_diff sample_args (lit "/r") NormalizeToLf sample_world sample_world
    sample_action sample_verified_ok sample_plain) as (_ & ps & Hnd & Hver & Hps).
  exists ps. split; [exact Hnd|]. split; [|exact Hps]. symmetry. exact (Forall2_length _ _ _ Hver).
Defined.

(** The files the sample hunks make of the sample world. *)
Definition sample_after : gmap str str :=
  delete (lit "/r/a") (<[lit "/r/b" := lit "one" ++ [c_nl] ++ lit "2" ++ [c_nl]]>
    (delete (lit "/r/old") (<[lit "/r/sub/new" := lit "hello"]> (view sample_world)))).

Lemma sample_applied : hunks_applied NormalizeToLf (lit "/r") sample_hunks (view sample_world) sample_after.
Proof.
  eexists; split; [by constructor|]. eexists; split.
  { constructor; [reflexivity|]. vm_compute. by eexists. }
  eexists; split; [|reflexivity].
  by eapply applied_move with (old := lit "one" ++ [c_nl] ++ lit "two" ++ [c_nl]).
Qed.

Lemma verified_then_applied_witness :
  (∀ p ch, action_changes sample_action !! p = Some ch → shows p ch sample_after) ∧
  (∀ q, q ∉ (args_hunks sample_args ≫= hunk_targets (action_cwd sample_action)) →
     sample_after !! q = view sample_world !! q).
Proof.
  apply (verified_then_applied no_diff sample_args (lit "/r") NormalizeToLf sample_world sample_world
    sample_action sample_after sample_verified_ok sample_plain); [|exact sample_applied].
  apply (bool_decide_unpack _). vm_compute. exact I.
Defined.

Definition sample_argv : list str :=
  [lit "apply_patch"; join [c_nl] [lit "*** Begin Patch"; lit "*** Delete File: old"; lit "*** End Patch"]].
Definition sample_verified_argv :=
  maybe_parse_apply_patch_verified_with_mode no_heredoc no_diff sample_argv (lit "/r") NormalizeToLf
    sample_world.
Definition sample_argv_action : ApplyPatchAction str :=
  match sample_verified_argv.2 with Some (Verified_Body a) => a | _ => sample_action end.

Lemma verified_body_explicit_witness :
  ∃ args, action_patch sample_argv_action = args_patch args ∧
    ((∃ cmd body, sample_argv = [cmd; body] ∧ cmd ∈ APPLY_PATCH_COMMANDS ∧ parse_patch body = Ok args) ∨
     (∃ shell script body workdir parsed,
        parse_shell_script sample_argv (lit "/r") = Some (shell, script) ∧
        is_ok (parse_patch script) = false ∧ no_heredoc script = Ok (body, workdir) ∧
        parse_patch body = Ok parsed ∧ args = set_workdir workdir parsed)).
Proof.
  apply (verified_body_explicit no_diff no_heredoc sample_argv (lit "/r") NormalizeToLf sample_world
    sample_world sample_argv_action).
  vm_compute. reflexivity.
Defined.
