(* ===== verification/StreamText.v ===== *)
(** * StreamText: the streaming-parser interface
    ([utils/stream-parser/src/stream_text.rs])

    [StreamTextChunk], the [StreamTextParser] trait as a class, and the run of a
    parser over a sequence of chunks. *)
From S2P Require Import Prelude RustStr.

Record StreamTextChunk (T : Type) := mkOut {
  visible_text : str;
  extracted : list T;
}.
Arguments mkOut {T}.
Arguments visible_text {T}.
Arguments extracted {T}.

(** [StreamTextChunk::default()]. *)
Definition default_out {T} : StreamTextChunk T := mkOut [] [].

(** [StreamTextChunk::is_empty]. *)
Definition out_is_empty {T} (o : StreamTextChunk T) : bool :=
  bool_decide (visible_text o = []) && bool_decide (length (extracted o) = 0).

(** The concatenation callers build from successive chunks. *)
Definition out_app {T} (o1 o2 : StreamTextChunk T) : StreamTextChunk T :=
  mkOut (visible_text o1 ++ visible_text o2) (extracted o1 ++ extracted o2).

Lemma out_app_assoc {T} (o1 o2 o3 : StreamTextChunk T) :
  out_app o1 (out_app o2 o3) = out_app (out_app o1 o2) o3.
Proof. unfold out_app. simpl. by rewrite !app_assoc. Qed.

Lemma out_app_nil_l {T} (o : StreamTextChunk T) : out_app default_out o = o.
Proof. by destruct o. Qed.

(** The [StreamTextParser] trait: [push_str] and [finish] on [&mut self]. *)
Class StreamTextParser (S : Type) := {
  Extracted : Type;
  push_str : str → S → S * StreamTextChunk Extracted;
  finish : S → S * StreamTextChunk Extracted;
}.
Arguments Extracted S {_}.

(** All the outputs of pushing the chunks and finishing, concatenated. *)
Fixpoint run_chunks {S} `{StreamTextParser S} (p : S) (chunks : list str) :
    StreamTextChunk (Extracted S) :=
  match chunks with
  | [] => (finish p).2
  | c :: chunks => let '(p, o) := push_str c p in out_app o (run_chunks p chunks)
  end.
