(* ===== verification/TaggedLine.v ===== *)
(** * TaggedLine: tag blocks on lines of their own
    ([utils/stream-parser/src/tagged_line_parser.rs])

    The parser shows text as soon as its line can no longer be a tag.  The
    specification buffers whole lines; both give the same events, however the text
    is cut into deltas. *)
From S2P Require Import Prelude RustStr.

Record TagSpec (T : Type) := mkSpec { open : str; close : str; tag : T }.
Arguments mkSpec {T}.
Arguments open {T}.
Arguments close {T}.
Arguments tag {T}.

Inductive TaggedLineSegment (T : Type) :=
| Normal (text : str)
| TagStart (t : T)
| TagDelta (t : T) (text : str)
| TagEnd (t : T).
Arguments Normal {T}.
Arguments TagStart {T}.
Arguments TagDelta {T}.
Arguments TagEnd {T}.

Record TaggedLineParser (T : Type) := mkTagged {
  specs : list (TagSpec T);
  active_tag : option T;
  detect_tag : bool;
  line_buffer : str;
}.
Arguments mkTagged {T}.
Arguments specs {T}.
Arguments active_tag {T}.
Arguments detect_tag {T}.
Arguments line_buffer {T}.

Section tagged.
Context {T : Type} `{EqDecision T}.
Implicit Types (p : TaggedLineParser T) (segments : list (TaggedLineSegment T)).

Definition new (sps : list (TagSpec T)) : TaggedLineParser T := mkTagged sps None true [].

(** Appending to the last segment of the same kind, or a new segment. *)
Definition push_segment segments (segment : TaggedLineSegment T) : list (TaggedLineSegment T) :=
  match segment with
  | Normal delta =>
      if bool_decide (delta = []) then segments
      else match last segments with
           | Some (Normal existing) => set_last (Normal (existing ++ delta)) segments
           | _ => segments ++ [Normal delta]
           end
  | TagDelta t delta =>
      if bool_decide (delta = []) then segments
      else match last segments with
           | Some (TagDelta existing_tag existing) =>
               if bool_decide (existing_tag = t)
               then set_last (TagDelta existing_tag (existing ++ delta)) segments
               else segments ++ [TagDelta t delta]
           | _ => segments ++ [TagDelta t delta]
           end
  | TagStart _ | TagEnd _ => segments ++ [segment]
  end.

Definition push_text p (text : str) segments : list (TaggedLineSegment T) :=
  match active_tag p with
  | Some t => push_segment segments (TagDelta t text)
  | None => push_segment segments (Normal text)
  end.

Definition is_tag_prefix p (slug : str) : bool :=
  let slug := trim_end slug in
  existsb (λ spec, starts_with slug (open spec) || starts_with slug (close spec)) (specs p).

Definition match_open p (slug : str) : option T :=
  tag <$> List.find (λ spec, bool_decide (open spec = slug)) (specs p).
Definition match_close p (slug : str) : option T :=
  tag <$> List.find (λ spec, bool_decide (close spec = slug)) (specs p).

Definition strip_newline (line : str) : str := default line (strip_suffix [c_nl] line).

Definition finish_line p segments : TaggedLineParser T * list (TaggedLineSegment T) :=
  let line := line_buffer p in
  let slug := trim_end (trim_start (strip_newline line)) in
  match match_open p slug, active_tag p with
  | Some t, None => (mkTagged (specs p) (Some t) true [], push_segment segments (TagStart t))
  | _, _ =>
      match match_close p slug with
      | Some t =>
          if bool_decide (active_tag p = Some t)
          then (mkTagged (specs p) None true [], push_segment segments (TagEnd t))
          else (mkTagged (specs p) (active_tag p) true [], push_text p line segments)
      | None => (mkTagged (specs p) (active_tag p) true [], push_text p line segments)
      end
  end.

(** The parser, the segments and the [run] of a call to [parse]. *)
Definition LoopState : Type := TaggedLineParser T * list (TaggedLineSegment T) * str.

Definition flush_run p (run : str) segments : list (TaggedLineSegment T) :=
  if bool_decide (run = []) then segments else push_text p run segments.

Definition parse_char (s : LoopState) (ch : char) : LoopState :=
  let '(p, segments, run) := s in
  if detect_tag p then
    let segments := flush_run p run segments in
    let p := mkTagged (specs p) (active_tag p) (detect_tag p) (line_buffer p ++ [ch]) in
    if (ch =? c_nl)%N then (finish_line p segments, [])
    else
      let slug := trim_start (line_buffer p) in
      if bool_decide (slug = []) || is_tag_prefix p slug then (p, segments, [])
      else (mkTagged (specs p) (active_tag p) false [], push_text p (line_buffer p) segments, [])
  else
    let run := run ++ [ch] in
    if (ch =? c_nl)%N
    then (mkTagged (specs p) (active_tag p) true (line_buffer p), push_text p run segments, [])
    else (p, segments, run).

Definition parse p (delta : str) : TaggedLineParser T * list (TaggedLineSegment T) :=
  let '(p, segments, run) := foldl parse_char (p, [], []) delta in
  (p, flush_run p run segments).

Definition finish_buffer p : TaggedLineParser T * list (TaggedLineSegment T) :=
  if bool_decide (line_buffer p = []) then (p, [])
  else
    let buffered := line_buffer p in
    let p := mkTagged (specs p) (active_tag p) (detect_tag p) [] in
    let slug := trim_end (trim_start (strip_newline buffered)) in
    match match_open p slug, active_tag p with
    | Some t, None =>
        (mkTagged (specs p) (Some t) (detect_tag p) [], push_segment [] (TagStart t))
    | _, _ =>
        match match_close p slug with
        | Some t =>
            if bool_decide (active_tag p = Some t)
            then (mkTagged (specs p) None (detect_tag p) [], push_segment [] (TagEnd t))
            else (p, push_text p buffered [])
        | None => (p, push_text p buffered [])
        end
    end.

Definition finish p : TaggedLineParser T * list (TaggedLineSegment T) :=
  let '(p, segments) := finish_buffer p in
  (mkTagged (specs p) None true (line_buffer p),
   match active_tag p with
   | Some t => push_segment segments (TagEnd t)
   | None => segments
   end).
End tagged.

(** * The streaming tag parser computes the line-buffered one *)

Section facts.
Context {T : Type} `{EqDecision T}.
Implicit Types (p : TaggedLineParser T) (segments : list (TaggedLineSegment T)).

(** ** Events: segments without their grouping *)

Inductive event : Type :=
| EvChar (t : option T) (c : char)
| EvStart (t : T)
| EvEnd (t : T).

(** Text inside the tag [t], or outside of tags. *)
Definition chars (t : option T) (text : str) : list event := map (EvChar t) text.

Definition segment_events (s : TaggedLineSegment T) : list event :=
  match s with
  | Normal text => chars None text
  | TagStart t => [EvStart t]
  | TagDelta t text => chars (Some t) text
  | TagEnd t => [EvEnd t]
  end.
Definition events segments : list event := mjoin (segment_events <$> segments).

Lemma chars_app t a b : chars t (a ++ b) = chars t a ++ chars t b.
Proof. apply map_app. Qed.

Lemma events_app a b : events (a ++ b) = events a ++ events b.
Proof. unfold events. by rewrite fmap_app, join_app. Qed.

Lemma events_one s : events [s] = segment_events s.
Proof. unfold events. simpl. by rewrite app_nil_r. Qed.

Lemma push_segment_events segments s :
  events (push_segment segments s) = events segments ++ segment_events s.
Proof.
  assert (∀ s', events (segments ++ [s']) = events segments ++ segment_events s') as Hnew.
  { intros s'. by rewrite events_app, events_one. }
  destruct s as [text|t|t text|t]; simpl; try apply Hnew.
  - case_bool_decide; [subst; by rewrite app_nil_r|].
    destruct (last segments) as [[existing| | |]|] eqn:Hl; try apply Hnew.
    apply last_Some in Hl as [l ->]. rewrite set_last_snoc, !events_app, !events_one. simpl.
    by rewrite chars_app, app_assoc.
  - case_bool_decide; [subst; by rewrite app_nil_r|].
    destruct (last segments) as [[| |t' existing|]|] eqn:Hl; try apply Hnew.
    case_bool_decide; [subst|apply Hnew].
    apply last_Some in Hl as [l ->]. rewrite set_last_snoc, !events_app, !events_one. simpl.
    by rewrite chars_app, app_assoc.
Qed.

Lemma push_text_events p text segments :
  events (push_text p text segments) = events segments ++ chars (active_tag p) text.
Proof. unfold push_text. case_match; by rewrite push_segment_events. Qed.

Lemma flush_run_events p run segments :
  events (flush_run p run segments) = events segments ++ chars (active_tag p) run.
Proof.
  unfold flush_run. case_bool_decide; [subst; by rewrite app_nil_r|apply push_text_events].
Qed.

(** ** The specification: whole lines *)

Section spec.
Variable sps : list (TagSpec T).

Definition open_tag (slug : str) : option T :=
  tag <$> List.find (λ spec, bool_decide (open spec = slug)) sps.
Definition close_tag (slug : str) : option T :=
  tag <$> List.find (λ spec, bool_decide (close spec = slug)) sps.

(** A line is a tag when, trimmed, it is an opening tag and no tag is active, or
    the closing tag of the active one; any other line is text. *)
Definition line_step (active : option T) (line : str) : option T * list event :=
  match open_tag (trim line), active with
  | Some t, None => (Some t, [EvStart t])
  | _, _ =>
      match close_tag (trim line) with
      | Some t => if bool_decide (active = Some t) then (None, [EvEnd t]) else (active, chars active line)
      | None => (active, chars active line)
      end
  end.

(** The line-buffered parser: the active tag, the current line and the events. *)
Definition SpecState : Type := option T * str * list event.

Definition spec_char (s : SpecState) (ch : char) : SpecState :=
  let '(active, line, evs) := s in
  if (ch =? c_nl)%N
  then let '(active, e) := line_step active (line ++ [ch]) in (active, [], evs ++ e)
  else (active, line ++ [ch], evs).

Definition spec_finish (s : SpecState) : list event :=
  let '(active, line, evs) := s in
  let '(active, e) := if bool_decide (line = []) then (active, []) else line_step active line in
  evs ++ e ++ match active with Some t => [EvEnd t] | None => [] end.

Definition spec_events (text : str) : list event :=
  spec_finish (foldl spec_char (None, [], []) text).

(** ** The simulation *)

Lemma is_whitespace_nl : is_whitespace c_nl = true.
Proof. done. Qed.

Lemma trim_strip_newline line : trim_end (trim_start (strip_newline line)) = trim line.
Proof.
  unfold strip_newline. destruct (strip_suffix [c_nl] line) as [l|] eqn:Hs; [|done].
  apply strip_suffix_Some in Hs as ->. simpl. unfold trim. rewrite <- !trim_start_trim_end.
  by rewrite trim_end_app.
Qed.

(** A line that, trimmed, equals [tg] has only prefixes that look like [tg]. *)
Lemma tag_prefix q ext tg :
  trim (q ++ ext) = tg → trim_start q ≠ [] → starts_with (trim_end (trim_start q)) tg = true.
Proof.
  intros <- Hq. apply starts_with_spec.
  assert (trim_start (q ++ ext) = trim_start q ++ ext) as Hst.
  { unfold trim_start in *. rewrite drop_while_app. destruct (forallb is_whitespace q) eqn:Hws; [|done].
    by rewrite drop_while_all in Hq. }
  unfold trim. rewrite Hst, trim_end_app. destruct (trim_end ext) as [|c e]; [done|].
  etrans; [apply trim_end_prefix|]. by eexists.
Qed.

(** The line can no longer become a tag. *)
Definition plain_line (active : option T) (line : str) : Prop :=
  ∀ ext, line_step active (line ++ ext) = (active, chars active (line ++ ext)).

Lemma find_tag_prefix (f : TagSpec T → str) slug spec :
  List.find (λ spec, bool_decide (f spec = slug)) sps = Some spec → spec ∈ sps ∧ f spec = slug.
Proof. intros [Hin Heq]%find_some. bool_hyps. split; [by apply list_elem_of_In|done]. Qed.

Lemma not_tag_prefix_plain p active q :
  specs p = sps → trim_start q ≠ [] → is_tag_prefix p (trim_start q) = false → plain_line active q.
Proof.
  intros Hsps Hq Hpre ext. unfold is_tag_prefix in Hpre. rewrite Hsps in Hpre.
  assert (∀ spec, spec ∈ sps → trim (q ++ ext) ≠ open spec ∧ trim (q ++ ext) ≠ close spec) as Hno.
  { intros spec Hin. apply not_true_iff_false in Hpre.
    split; intros Heq; apply Hpre, existsb_exists; exists spec;
      (split; [by apply list_elem_of_In|]); apply orb_true_iff; [left|right];
      by apply (tag_prefix q ext). }
  unfold line_step, open_tag, close_tag.
  destruct (List.find (λ s, bool_decide (open s = _)) sps) as [s|] eqn:Ho.
  { apply find_tag_prefix in Ho as [Hin Ho]. by destruct (Hno s Hin). }
  destruct (List.find (λ s, bool_decide (close s = _)) sps) as [s|] eqn:Hc.
  { apply find_tag_prefix in Hc as [Hin Hc]. by destruct (Hno s Hin). }
  done.
Qed.

(** The streaming state [p], having emitted [evs], is at the state of the
    specification: while a line is undecided it is buffered, afterwards its text is
    out and it cannot become a tag. *)
Definition simulates p (evs : list event) (s : SpecState) : Prop :=
  let '(active, line, spec_evs) := s in
  specs p = sps ∧ active_tag p = active ∧
  if detect_tag p then line_buffer p = line ∧ evs = spec_evs
  else line_buffer p = [] ∧ evs = spec_evs ++ chars active line ∧ plain_line active line.

Lemma finish_line_simulates p segments active line spec_evs pre :
  specs p = sps → active_tag p = active → line_buffer p = line →
  pre ++ events segments = spec_evs →
  let '(p', segments') := finish_line p segments in
  let '(active', e) := line_step active line in
  simulates p' (pre ++ events segments') (active', [], spec_evs ++ e).
Proof.
  intros Hsps <- <- <-. unfold finish_line, line_step. cbv zeta. rewrite trim_strip_newline.
  unfold match_open, match_close, open_tag, close_tag. rewrite Hsps.
  repeat case_match; simplify_eq/=; split_and!; try done;
    rewrite ?events_app, ?events_one, ?push_text_events, <- ?app_assoc; try done; congruence.
Qed.

Lemma parse_char_simulates p segments run ch pre s :
  simulates p (pre ++ events segments ++ chars (active_tag p) run) s →
  let '(p', segments', run') := parse_char (p, segments, run) ch in
  simulates p' (pre ++ events segments' ++ chars (active_tag p') run') (spec_char s ch).
Proof.
  destruct s as [[active line] spec_evs]. intros (Hsps & Hact & Hd). unfold parse_char, spec_char.
  destruct (detect_tag p) eqn:Hdet.
  - destruct Hd as [Hline Hev]. rewrite <- (flush_run_events p run) in Hev.
    set (segs := flush_run p run segments) in *.
    set (p1 := mkTagged (specs p) (active_tag p) true (line_buffer p ++ [ch])).
    destruct (ch =? c_nl)%N eqn:Hnl.
    + pose proof (finish_line_simulates p1 segs active (line ++ [ch]) spec_evs pre) as Hf.
      destruct (finish_line p1 segs) as [p' segs'], (line_step active (line ++ [ch])) as [active' e].
      simpl. rewrite app_nil_r. apply Hf; try done. simpl. by rewrite Hline.
    + destruct (bool_decide _ || is_tag_prefix p1 _) eqn:Hpre.
      { simpl. rewrite app_nil_r. split_and!; try done. by rewrite Hline. }
      apply orb_false_iff in Hpre as [Hne Hpre]. bool_hyps.
      simpl. rewrite app_nil_r, push_text_events, app_assoc, Hev. simpl.
      split_and!; try done; [by rewrite Hact, Hline|]. rewrite <- Hline.
      by eapply not_tag_prefix_plain.
  - destruct Hd as (Hbuf & Hev & Hplain). destruct (ch =? c_nl)%N eqn:Hnl.
    + rewrite Hplain. simpl. rewrite app_nil_r, push_text_events.
      split_and!; try done. rewrite !chars_app, Hact in *. rewrite !app_assoc in *. by rewrite Hev.
    + simpl. rewrite Hdet. split_and!; try done.
      * rewrite !chars_app, Hact in *. rewrite !app_assoc in *. by rewrite Hev.
      * intros ext. rewrite <- !app_assoc. apply Hplain.
Qed.

Lemma parse_simulates p delta pre s :
  simulates p pre s →
  let '(p', segments) := parse p delta in
  simulates p' (pre ++ events segments) (foldl spec_char s delta).
Proof.
  intros Hs. unfold parse.
  assert (∀ segs run p' segs' run', simulates p (pre ++ events segs ++ chars (active_tag p) run) s →
    foldl parse_char (p, segs, run) delta = (p', segs', run') →
    simulates p' (pre ++ events segs' ++ chars (active_tag p') run') (foldl spec_char s delta)) as Hgen.
  { clear Hs. revert p s. induction delta as [|ch delta IH]; intros p s segs run p' segs' run' Hs.
    - by intros [= <- <- <-].
    - cbn [foldl]. pose proof (parse_char_simulates p segs run ch pre s Hs) as Hc.
      destruct (parse_char (p, segs, run) ch) as [[p1 segs1] run1]. by apply IH. }
  destruct (foldl parse_char (p, [], []) delta) as [[p' segs'] run'] eqn:Hf.
  rewrite flush_run_events. apply (Hgen [] [] p' segs' run'); [|done]. simpl. by rewrite app_nil_r.
Qed.

Lemma finish_simulates p pre s :
  simulates p pre s →
  let '(p', segments) := finish p in
  p' = new sps ∧ pre ++ events segments = spec_finish s.
Proof.
  destruct s as [[active line] spec_evs]. intros (Hsps & Hact & Hd). unfold finish, finish_buffer.
  destruct (detect_tag p) eqn:Hdet; [destruct Hd as [Hline ->]|destruct Hd as (Hbuf & -> & Hplain)].
  - unfold spec_finish. rewrite Hline. case_bool_decide as Hne.
    { split; [by rewrite Hsps, Hline, Hne|]. simpl. rewrite Hact. by destruct active. }
    cbv zeta. rewrite trim_strip_newline. unfold line_step, match_open, match_close, open_tag, close_tag.
    rewrite Hact. cbn [specs active_tag]. rewrite Hsps.
    repeat case_match; simplify_eq/=; (split; [done|]); try congruence;
      rewrite ?events_app, ?push_segment_events; simpl; rewrite ?push_text_events; simpl;
      by rewrite <- ?app_assoc, ?app_nil_r.
  - rewrite bool_decide_eq_true_2 by done. unfold spec_finish.
    specialize (Hplain []). rewrite app_nil_r in Hplain.
    split; [by rewrite Hsps, Hbuf|]. rewrite Hact. case_bool_decide as Hne.
    + subst line. simpl. rewrite app_nil_r. by destruct active.
    + rewrite Hplain, <- app_assoc. by destruct active.
Qed.

(** All the segments of parsing the deltas and finishing. *)
Fixpoint run_parse p (deltas : list str) : list (TaggedLineSegment T) :=
  match deltas with
  | [] => (finish p).2
  | d :: deltas => let '(p, segments) := parse p d in segments ++ run_parse p deltas
  end.

Lemma run_parse_simulates p deltas pre s :
  simulates p pre s →
  pre ++ events (run_parse p deltas) = spec_finish (foldl spec_char s (mjoin deltas)).
Proof.
  revert p pre s. induction deltas as [|d deltas IH]; intros p pre s Hs; simpl.
  - apply finish_simulates in Hs. by destruct (finish p) as [p' segs], Hs.
  - pose proof (parse_simulates p d pre s Hs) as Hp. destruct (parse p d) as [p' segs].
    rewrite events_app, app_assoc, (IH _ _ _ Hp), foldl_app. done.
Qed.

Lemma new_simulates : simulates (new sps) [] (None, [], []).
Proof. done. Qed.
End spec.

(** The streaming tag parser computes the line-buffered one: however the text is
    cut into deltas, the text and tag events of all its outputs are those of deciding
    each whole line at once (a line that is, trimmed, the opening tag of some block
    while none is open, or the closing tag of the open one, is a tag; every other line
    is text of the open block or normal text, terminator included; an open block is
    closed at the end). *)
Theorem tagged_line_events (sps : list (TagSpec T)) (deltas : list str) :
  events (run_parse (new sps) deltas) = spec_events sps (mjoin deltas).
Proof. apply (run_parse_simulates sps (new sps) deltas [] (None, [], [])), new_simulates. Qed.

Lemma finish_new (sps : list (TagSpec T)) p pre s :
  simulates sps p pre s → (finish p).1 = new sps.
Proof. intros Hs%finish_simulates. by destruct (finish p), Hs. Qed.
End facts.
