(* ===== verification/ProposedPlan.v ===== *)
(** * ProposedPlan: the [<proposed_plan>] blocks of assistant text
    ([utils/stream-parser/src/proposed_plan.rs]) *)
From S2P Require Import Prelude RustStr TaggedLine StreamText.

Definition OPEN_TAG : str := lit "<proposed_plan>".
Definition CLOSE_TAG : str := lit "</proposed_plan>".

Inductive PlanTag := ProposedPlan.

#[export] Instance PlanTag_eq_dec : EqDecision PlanTag.
Proof. solve_decision. Defined.

Inductive ProposedPlanSegment :=
| PlanNormal (text : str)
| ProposedPlanStart
| ProposedPlanDelta (text : str)
| ProposedPlanEnd.

#[export] Instance ProposedPlanSegment_eq_dec : EqDecision ProposedPlanSegment.
Proof. solve_decision. Defined.

Definition ProposedPlanParser : Type := TaggedLineParser PlanTag.

Definition plan_specs : list (TagSpec PlanTag) := [mkSpec OPEN_TAG CLOSE_TAG ProposedPlan].

(** [ProposedPlanParser::new]. *)
Definition new_plan : ProposedPlanParser := TaggedLine.new plan_specs.

Definition map_segment (segment : TaggedLineSegment PlanTag) : ProposedPlanSegment :=
  match segment with
  | Normal text => PlanNormal text
  | TagStart ProposedPlan => ProposedPlanStart
  | TagDelta ProposedPlan text => ProposedPlanDelta text
  | TagEnd ProposedPlan => ProposedPlanEnd
  end.

Definition push_mapped (out : StreamTextChunk ProposedPlanSegment)
    (segment : TaggedLineSegment PlanTag) : StreamTextChunk ProposedPlanSegment :=
  let mapped := map_segment segment in
  mkOut (match mapped with PlanNormal text => visible_text out ++ text | _ => visible_text out end)
    (extracted out ++ [mapped]).

Definition map_segments (segments : list (TaggedLineSegment PlanTag)) :
    StreamTextChunk ProposedPlanSegment :=
  foldl push_mapped default_out segments.

#[export] Instance plan_parser : StreamTextParser ProposedPlanParser := {|
  Extracted := ProposedPlanSegment;
  push_str chunk p := let '(p, segments) := TaggedLine.parse p chunk in (p, map_segments segments);
  finish p := let '(p, segments) := TaggedLine.finish p in (p, map_segments segments);
|}.

Definition strip_proposed_plan_blocks (text : str) : str :=
  let '(parser, out) := push_str text new_plan in
  visible_text out ++ visible_text (finish parser).2.

(** One turn of the loop of [extract_proposed_plan_text]. *)
Definition plan_step (s : bool * str) (segment : ProposedPlanSegment) : bool * str :=
  let '(saw_plan_block, plan_text) := s in
  match segment with
  | ProposedPlanStart => (true, [])
  | ProposedPlanDelta delta => (saw_plan_block, plan_text ++ delta)
  | ProposedPlanEnd | PlanNormal _ => (saw_plan_block, plan_text)
  end.

Definition extract_proposed_plan_text (text : str) : option str :=
  let '(parser, out) := push_str text new_plan in
  let '(saw_plan_block, plan_text) :=
    foldl plan_step (false, []) (extracted out ++ extracted (finish parser).2) in
  if saw_plan_block : bool then Some plan_text else None.

(** ** The outputs and the events *)

(** The text outside of blocks, and the text of the last block. *)
Definition normal_char (e : event (T := PlanTag)) : str :=
  match e with EvChar None c => [c] | _ => [] end.
Definition normal_text (evs : list event) : str := mjoin (normal_char <$> evs).

Definition plan_event (s : bool * str) (e : event (T := PlanTag)) : bool * str :=
  match e with
  | EvStart _ => (true, [])
  | EvChar (Some _) c => (s.1, s.2 ++ [c])
  | _ => s
  end.

Lemma normal_text_app a b : normal_text (a ++ b) = normal_text a ++ normal_text b.
Proof. unfold normal_text. by rewrite fmap_app, join_app. Qed.
Lemma normal_text_chars t : normal_text (chars None t) = t.
Proof. unfold normal_text. induction t; simpl; [done|]. by f_equal. Qed.
Lemma normal_text_plan t : normal_text (chars (Some ProposedPlan) t) = [].
Proof. by induction t. Qed.

Lemma map_segments_spec segments :
  map_segments segments = mkOut (normal_text (events segments)) (map_segment <$> segments).
Proof.
  unfold map_segments. induction segments as [|s segments IH] using rev_ind; [done|].
  rewrite foldl_snoc, IH. unfold push_mapped. cbn [visible_text extracted].
  rewrite events_app, events_one, fmap_app, normal_text_app. f_equal.
  destruct s as [text|[]|[] text|[]]; simpl;
    by rewrite ?normal_text_chars, ?normal_text_plan, ?app_nil_r.
Qed.

Lemma plan_step_events segments s :
  foldl plan_step s (map_segment <$> segments) = foldl plan_event s (events segments).
Proof.
  revert s. induction segments as [|x segments IH]; intros s; [done|].
  change (x :: segments) with ([x] ++ segments). rewrite fmap_app, events_app, !foldl_app, IH.
  f_equal. rewrite events_one. destruct s as [saw plan], x as [text|[]|[] text|[]]; try done; simpl.
  - by induction text.
  - revert plan. induction text as [|c text IHt]; intros plan; simpl; [by rewrite app_nil_r|].
    rewrite <- IHt, <- app_assoc. done.
Qed.

Lemma run_chunks_plan (p : ProposedPlanParser) chunks :
  run_chunks p chunks =
  mkOut (normal_text (events (run_parse p chunks))) (map_segment <$> run_parse p chunks).
Proof.
  revert p. induction chunks as [|c chunks IH]; intros p; simpl.
  - destruct (TaggedLine.finish p) as [p' segs]. simpl. apply map_segments_spec.
  - destruct (TaggedLine.parse p c) as [p' segs]. rewrite IH, map_segments_spec. unfold out_app. simpl.
    unfold normal_text. by rewrite events_app, !fmap_app, join_app.
Qed.

Lemma strip_run text : strip_proposed_plan_blocks text = visible_text (run_chunks new_plan [text]).
Proof.
  unfold strip_proposed_plan_blocks. simpl. destruct (TaggedLine.parse new_plan text) as [p segs].
  done.
Qed.

Lemma extract_run text :
  extract_proposed_plan_text text =
  let '(saw, plan) := foldl plan_step (false, []) (extracted (run_chunks new_plan [text])) in
  if saw : bool then Some plan else None.
Proof.
  unfold extract_proposed_plan_text. simpl.
  by destruct (TaggedLine.parse new_plan text) as [p segs].
Qed.

(** ** Texts with one block *)

(** Lines, each with its line feed. *)
Definition with_nl (ls : list str) : str := mjoin ((λ l, l ++ [c_nl]) <$> ls).

Lemma with_nl_cons l ls : with_nl (l :: ls) = (l ++ [c_nl]) ++ with_nl ls.
Proof. done. Qed.

Lemma foldl_no_nl (active : option PlanTag) line evs l :
  no_nl l = true → foldl (spec_char plan_specs) (active, line, evs) l = (active, line ++ l, evs).
Proof.
  revert line. induction l as [|c l IH]; intros line; simpl; [by rewrite app_nil_r|].
  unfold is_char. intros [Hc Hl]%andb_true_iff. bool_hyps.
  rewrite Hc, IH, <- app_assoc by done. done.
Qed.

Lemma foldl_line active evs l :
  no_nl l = true →
  foldl (spec_char plan_specs) (active, [], evs) (l ++ [c_nl]) =
  let '(active', e) := line_step plan_specs active (l ++ [c_nl]) in (active', [], evs ++ e).
Proof. intros Hl. rewrite foldl_app, foldl_no_nl by done. done. Qed.

Lemma trim_nl l : trim (l ++ [c_nl]) = trim l.
Proof. unfold trim. rewrite <- !trim_start_trim_end. by rewrite trim_end_app. Qed.

(** A line that is no tag in its context: not the opening tag outside of a block,
    not the closing tag inside of one. *)
Definition text_line (active : option PlanTag) (l : str) : Prop :=
  no_nl l = true ∧ trim l ≠ match active with None => OPEN_TAG | Some _ => CLOSE_TAG end.

Lemma tag_find (f : TagSpec PlanTag → str) slug :
  tag <$> List.find (λ spec, bool_decide (f spec = slug)) plan_specs =
  if bool_decide (f (mkSpec OPEN_TAG CLOSE_TAG ProposedPlan) = slug) then Some ProposedPlan else None.
Proof. simpl. by case_bool_decide. Qed.

Lemma text_line_step active l line :
  text_line active l → trim line = trim l →
  line_step plan_specs active line = (active, chars active line).
Proof.
  intros [_ Hl] Ht. unfold line_step, open_tag, close_tag. rewrite !tag_find, Ht. simpl.
  destruct active as [[]|]; repeat case_bool_decide; try done; congruence.
Qed.

Lemma foldl_text_lines active evs ls :
  Forall (text_line active) ls →
  foldl (spec_char plan_specs) (active, [], evs) (with_nl ls)
  = (active, [], evs ++ chars active (with_nl ls)).
Proof.
  intros Hls. revert evs. induction Hls as [|l ls Hl Hls IH]; intros evs.
  { simpl. by rewrite app_nil_r. }
  rewrite with_nl_cons, foldl_app, foldl_line by apply Hl.
  rewrite (text_line_step active l), IH by (done || apply trim_nl).
  by rewrite !chars_app, !app_assoc.
Qed.

Lemma plan_event_chars s t : foldl plan_event s (chars None t) = s.
Proof. by induction t. Qed.
Lemma plan_event_plan saw plan t :
  foldl plan_event (saw, plan) (chars (Some ProposedPlan) t) = (saw, plan ++ t).
Proof.
  revert plan. induction t as [|c t IH]; intros plan; simpl; [by rewrite app_nil_r|].
  by rewrite IH, <- app_assoc.
Qed.

(** The events of a text with one block. *)
Lemma block_events pre opening body closing post tail :
  Forall (text_line None) pre → Forall (text_line (Some ProposedPlan)) body →
  Forall (text_line None) post → text_line None tail →
  no_nl opening = true → trim opening = OPEN_TAG → no_nl closing = true → trim closing = CLOSE_TAG →
  spec_events plan_specs (with_nl pre ++ (opening ++ [c_nl]) ++ with_nl body ++
    (closing ++ [c_nl]) ++ with_nl post ++ tail) =
  chars None (with_nl pre) ++ [EvStart ProposedPlan] ++ chars (Some ProposedPlan) (with_nl body) ++
    [EvEnd ProposedPlan] ++ chars None (with_nl post) ++ chars None tail.
Proof.
  intros Hpre Hbody Hpost Htail Hon Ho Hcn Hc. unfold spec_events.
  rewrite foldl_app, foldl_text_lines, foldl_app, foldl_line by done.
  assert (∀ l a, trim l = OPEN_TAG → a = None →
    line_step plan_specs a l = (Some ProposedPlan, [EvStart ProposedPlan])) as Hopen.
  { intros l a Hl ->. unfold line_step, open_tag. by rewrite tag_find, Hl. }
  rewrite Hopen by (by rewrite ?trim_nl).
  rewrite foldl_app, foldl_text_lines, foldl_app, foldl_line by done.
  assert (∀ l, trim l = CLOSE_TAG →
    line_step plan_specs (Some ProposedPlan) l = (None, [EvEnd ProposedPlan])) as Hclose.
  { intros l Hl. unfold line_step, open_tag, close_tag. by rewrite !tag_find, Hl. }
  rewrite Hclose by (by rewrite trim_nl).
  rewrite foldl_app, foldl_text_lines, foldl_no_nl by (done || apply Htail).
  unfold spec_finish. rewrite app_nil_l. case_bool_decide as Hnil.
  - subst. simpl. rewrite !app_nil_r, <- !app_assoc. done.
  - rewrite (text_line_step None tail) by done. rewrite app_nil_r, <- !app_assoc. done.
Qed.

(** Plan blocks.  A text that consists of lines, one [<proposed_plan>] line, the
    lines of the plan, one [</proposed_plan>] line and more lines, cut into chunks
    anywhere: the visible text is the text without the block, and the extracted plan is
    exactly the lines of the plan.  Tags may be indented; an opening tag inside the
    plan, or a closing tag outside of it, is ordinary text. *)
Theorem proposed_plan_block pre opening body closing post tail chunks :
  Forall (text_line None) pre → Forall (text_line (Some ProposedPlan)) body →
  Forall (text_line None) post → text_line None tail →
  no_nl opening = true → trim opening = OPEN_TAG → no_nl closing = true → trim closing = CLOSE_TAG →
  mjoin chunks = with_nl pre ++ (opening ++ [c_nl]) ++ with_nl body ++ (closing ++ [c_nl]) ++
    with_nl post ++ tail →
  visible_text (run_chunks new_plan chunks) = with_nl pre ++ with_nl post ++ tail ∧
  strip_proposed_plan_blocks (mjoin chunks) = with_nl pre ++ with_nl post ++ tail ∧
  extract_proposed_plan_text (mjoin chunks) = Some (with_nl body).
Proof.
  intros Hpre Hbody Hpost Htail Hon Ho Hcn Hc Htext.
  pose proof (block_events pre opening body closing post tail) as Hev.
  specialize (Hev Hpre Hbody Hpost Htail Hon Ho Hcn Hc). rewrite <- Htext in Hev.
  assert (∀ cs, mjoin cs = mjoin chunks →
    events (run_parse new_plan cs) = spec_events plan_specs (mjoin chunks)) as Hrun.
  { intros cs <-. apply (run_parse_simulates plan_specs new_plan cs [] (None, [], [])). done. }
  assert (mjoin [mjoin chunks] = mjoin chunks) as H1 by apply app_nil_r.
  assert (∀ cs, mjoin cs = mjoin chunks →
    visible_text (run_chunks new_plan cs) = with_nl pre ++ with_nl post ++ tail) as Hvis.
  { intros cs Hcs. rewrite run_chunks_plan. cbn [visible_text]. rewrite Hrun, Hev by done.
    rewrite !normal_text_app, !normal_text_chars, normal_text_plan. done. }
  split_and!; [by apply Hvis|rewrite strip_run; by apply Hvis|].
  rewrite extract_run, run_chunks_plan. cbn [extracted].
  rewrite plan_step_events, Hrun, Hev, !foldl_app, !plan_event_chars by done. simpl.
  by rewrite plan_event_plan.
Qed.

Lemma proposed_plan_block_witness :
  strip_proposed_plan_blocks (mjoin [lit "a" ++ [c_nl] ++ lit " <propo"; lit "sed_plan>" ++ [c_nl] ++
    lit "- x" ++ [c_nl] ++ lit "</proposed_plan>" ++ [c_nl]; lit "b"])
  = with_nl [lit "a"] ++ with_nl [] ++ lit "b".
Proof.
  apply (proposed_plan_block [lit "a"] (lit " <proposed_plan>") [lit "- x"] (lit "</proposed_plan>")
    [] (lit "b") [lit "a" ++ [c_nl] ++ lit " <propo"; lit "sed_plan>" ++ [c_nl] ++
    lit "- x" ++ [c_nl] ++ lit "</proposed_plan>" ++ [c_nl]; lit "b"]);
    repeat constructor; try reflexivity; vm_compute; discriminate.
Defined.
