(* ===== verification/InlineTag.v ===== *)
(** * InlineTag: hidden inline tags
    ([utils/stream-parser/src/inline_hidden_tag.rs])

    Positions are counted in chars: the code computes byte offsets of char
    boundaries only.  The one comparison of byte lengths, between overlapping
    opening tags, is kept. *)
From S2P Require Import Prelude RustStr StreamText.

Record ExtractedInlineTag (T : Type) := mkExtracted { extracted_tag : T; content : str }.
Arguments mkExtracted {T}.
Arguments extracted_tag {T}.
Arguments content {T}.

Record InlineTagSpec (T : Type) := mkInline { spec_tag : T; spec_open : str; spec_close : str }.
Arguments mkInline {T}.
Arguments spec_tag {T}.
Arguments spec_open {T}.
Arguments spec_close {T}.

Record ActiveTag (T : Type) := mkActive { active_tag : T; active_close : str; active_content : str }.
Arguments mkActive {T}.
Arguments active_tag {T}.
Arguments active_close {T}.
Arguments active_content {T}.

Record InlineHiddenTagParser (T : Type) := mkHidden {
  specs : list (InlineTagSpec T);
  pending : str;
  active : option (ActiveTag T);
}.
Arguments mkHidden {T}.
Arguments specs {T}.
Arguments pending {T}.
Arguments active {T}.

(** The largest [k] of [max, max - 1, .., 1] such that the first [k] chars of
    [needle] end [s], or 0. *)
Fixpoint longest_from (s needle : str) (max : nat) : nat :=
  match max with
  | 0 => 0
  | S k => if ends_with (take max needle) s then max else longest_from s needle k
  end.

Definition longest_suffix_prefix_len (s needle : str) : nat :=
  longest_from s needle (length s `min` (length needle - 1)).

Section hidden.
Context {T : Type}.
Implicit Types (p : InlineHiddenTagParser T) (out : StreamTextChunk (ExtractedInlineTag T)).

(** The assertions of [InlineHiddenTagParser::new]; [None] is their panic. *)
Definition spec_ok (s : InlineTagSpec T) : bool :=
  negb (bool_decide (spec_open s = [])) && negb (bool_decide (spec_close s = [])).
Definition new (sps : list (InlineTagSpec T)) : option (InlineHiddenTagParser T) :=
  if negb (bool_decide (length sps = 0)) && forallb spec_ok sps
  then Some (mkHidden sps [] None) else None.

(** [find_next_open]: the occurrences (position, byte length, spec), and the
    smallest: leftmost, then longest, then first. *)
Fixpoint open_occurrences (pend : str) (sps : list (InlineTagSpec T)) :
    list (nat * nat * InlineTagSpec T) :=
  match sps with
  | [] => []
  | s :: sps =>
      let rest := open_occurrences pend sps in
      match find (spec_open s) pend with
      | Some pos => (pos, str_len (spec_open s), s) :: rest
      | None => rest
      end
  end.

(** [a] comes before the later [b] in [min_by]: not greater. *)
Definition occurrence_le (a b : nat * nat * InlineTagSpec T) : bool :=
  let '(pos_a, len_a, _) := a in let '(pos_b, len_b, _) := b in
  (pos_a <? pos_b) || ((pos_a =? pos_b) && (len_b <=? len_a)).

Fixpoint min_occurrence (os : list (nat * nat * InlineTagSpec T)) :
    option (nat * nat * InlineTagSpec T) :=
  match os with
  | [] => None
  | o :: os =>
      match min_occurrence os with
      | Some m => if occurrence_le o m then Some o else Some m
      | None => Some o
      end
  end.

Definition find_next_open p : option (nat * InlineTagSpec T) :=
  match min_occurrence (open_occurrences (pending p) (specs p)) with
  | Some (pos, _, s) => Some (pos, s)
  | None => None
  end.

Definition max_open_prefix_suffix_len p : nat :=
  foldr (λ s m, longest_suffix_prefix_len (pending p) (spec_open s) `max` m) 0 (specs p).

Definition show out (text : str) : StreamTextChunk (ExtractedInlineTag T) :=
  mkOut (visible_text out ++ text) (extracted out).
Definition extract out (e : ExtractedInlineTag T) : StreamTextChunk (ExtractedInlineTag T) :=
  mkOut (visible_text out) (extracted out ++ [e]).

(** One turn of the loop of [push_str]: the new state, and whether to go on. *)
Definition push_step p out : InlineHiddenTagParser T * StreamTextChunk (ExtractedInlineTag T) * bool :=
  match active p with
  | Some a =>
      match find (active_close a) (pending p) with
      | Some close_idx =>
          (mkHidden (specs p) (drop (close_idx + length (active_close a)) (pending p)) None,
           extract out (mkExtracted (active_tag a) (active_content a ++ take close_idx (pending p))),
           true)
      | None =>
          let keep := longest_suffix_prefix_len (pending p) (active_close a) in
          let n := length (pending p) - keep in
          (mkHidden (specs p) (drop n (pending p))
             (Some (mkActive (active_tag a) (active_close a)
                      (active_content a ++ take n (pending p)))),
           out, false)
      end
  | None =>
      match find_next_open p with
      | Some (open_idx, s) =>
          (mkHidden (specs p) (drop (open_idx + length (spec_open s)) (pending p))
             (Some (mkActive (spec_tag s) (spec_close s) [])),
           show out (take open_idx (pending p)), true)
      | None =>
          let n := length (pending p) - max_open_prefix_suffix_len p in
          (mkHidden (specs p) (drop n (pending p)) None, show out (take n (pending p)), false)
      end
  end.

(** The loop; [None] when the fuel runs out. *)
Fixpoint push_loop (fuel : nat) p out :
    option (InlineHiddenTagParser T * StreamTextChunk (ExtractedInlineTag T)) :=
  match fuel with
  | 0 => None
  | S fuel =>
      let '(p, out, continue) := push_step p out in
      if continue : bool then push_loop fuel p out else Some (p, out)
  end.

Definition add_pending (chunk : str) p : InlineHiddenTagParser T :=
  mkHidden (specs p) (pending p ++ chunk) (active p).

Definition inline_push_str (chunk : str) p :
    InlineHiddenTagParser T * StreamTextChunk (ExtractedInlineTag T) :=
  let p := add_pending chunk p in
  default (p, default_out) (push_loop (S (length (pending p))) p default_out).

Definition inline_finish p : InlineHiddenTagParser T * StreamTextChunk (ExtractedInlineTag T) :=
  match active p with
  | Some a =>
      (mkHidden (specs p) [] None,
       mkOut [] [mkExtracted (active_tag a) (active_content a ++ pending p)])
  | None => (mkHidden (specs p) [] None, mkOut (pending p) [])
  end.

#[export] Instance inline_parser : StreamTextParser (InlineHiddenTagParser T) := {|
  Extracted := ExtractedInlineTag T;
  push_str := inline_push_str;
  finish := inline_finish;
|}.
End hidden.

(** * The hidden-tag parser terminates and does not depend on how
    its input is cut *)

(** ** Termination *)

Section termination.
Context {T : Type}.
Implicit Types (p : InlineHiddenTagParser T) (out : StreamTextChunk (ExtractedInlineTag T)).

(** What [new] establishes, and every step keeps: no delimiter is empty. *)
Definition parser_ok p : Prop :=
  Forall (λ s, spec_ok s = true) (specs p) ∧
  match active p with Some a => active_close a ≠ [] | None => True end.

Lemma min_occurrence_in (os : list (nat * nat * InlineTagSpec T)) o :
  min_occurrence os = Some o → o ∈ os.
Proof.
  revert o. induction os as [|x os IH]; intros o; simpl; [done|].
  destruct (min_occurrence os) as [m|].
  - destruct (occurrence_le x m); intros [= <-]; [constructor|]. constructor. by apply IH.
  - intros [= <-]. constructor.
Qed.

Lemma open_occurrences_spec pend sps pos len (s : InlineTagSpec T) :
  (pos, len, s) ∈ open_occurrences pend sps → s ∈ sps ∧ find (spec_open s) pend = Some pos.
Proof.
  induction sps as [|s' sps IH]; simpl; [by intros ?%not_elem_of_nil|].
  destruct (find (spec_open s') pend) as [pos'|] eqn:Hf.
  - intros [[= -> -> ->]|Hin]%elem_of_cons; [split; [constructor|done]|].
    apply IH in Hin as []. split; [by constructor|done].
  - intros Hin. apply IH in Hin as []. split; [by constructor|done].
Qed.

Lemma find_next_open_spec p pos s :
  find_next_open p = Some (pos, s) → s ∈ specs p ∧ find (spec_open s) (pending p) = Some pos.
Proof.
  unfold find_next_open. destruct (min_occurrence _) as [[[pos' len] s']|] eqn:Hm; [|done].
  intros [= -> ->]. apply min_occurrence_in in Hm. by eapply open_occurrences_spec.
Qed.

Lemma spec_ok_spec (s : InlineTagSpec T) :
  spec_ok s = true ↔ spec_open s ≠ [] ∧ spec_close s ≠ [].
Proof.
  unfold spec_ok. rewrite andb_true_iff, !negb_true_iff, !bool_decide_eq_false. done.
Qed.

Lemma find_occurrence q s n : find q s = Some n → s = take n s ++ q ++ drop (n + length q) s.
Proof.
  intros ([t Ht] & Hn & _)%find_Some. rewrite <- (take_drop n s) at 1. f_equal.
  rewrite <- drop_drop, Ht, drop_app_length. done.
Qed.

Lemma find_bound q s n : find q s = Some n → n + length q ≤ length s.
Proof.
  intros Hf. pose proof (find_occurrence _ _ _ Hf) as Hocc. apply find_Some in Hf as (_ & Hn & _).
  apply (f_equal length) in Hocc. rewrite !length_app, length_take, length_drop in Hocc. lia.
Qed.

(** A step that goes on consumes a delimiter. *)
Lemma push_step_ok p out p' out' continue :
  parser_ok p → push_step p out = (p', out', continue) →
  parser_ok p' ∧ specs p' = specs p ∧
  (continue = true → length (pending p') < length (pending p)).
Proof.
  intros [Hs Ha]. unfold push_step. destruct (active p) as [a|].
  - destruct (find (active_close a) (pending p)) as [n|] eqn:Hf; intros [= <- <- <-];
      (split_and!; [by split|done|]); [|done]. intros _. simpl.
    apply find_occurrence, (f_equal length) in Hf. rewrite !length_app, length_drop in *.
    assert (length (active_close a) ≠ 0) by (by destruct (active_close a)). lia.
  - destruct (find_next_open p) as [[n s]|] eqn:Hf; intros [= <- <- <-];
      [|split_and!; [by split|done|done]].
    apply find_next_open_spec in Hf as [Hin Hf]. rewrite Forall_forall in Hs.
    pose proof (proj1 (spec_ok_spec s) (Hs s Hin)) as [Ho Hc].
    split_and!; [split; [by apply Forall_forall|done]|done|]. intros _. simpl.
    apply find_occurrence, (f_equal length) in Hf. rewrite !length_app, length_drop in *.
    assert (length (spec_open s) ≠ 0) by (by destruct (spec_open s)). lia.
Qed.

Lemma push_loop_Some fuel p out :
  parser_ok p → length (pending p) < fuel →
  ∃ p' out', push_loop fuel p out = Some (p', out') ∧ parser_ok p' ∧ specs p' = specs p.
Proof.
  revert p out. induction fuel as [|fuel IH]; intros p out Hok Hlen; [lia|]. simpl.
  destruct (push_step p out) as [[p1 out1] continue] eqn:Hstep.
  apply push_step_ok in Hstep as (Hok1 & Hs1 & Hlt); [|done].
  destruct continue; [|eauto]. specialize (Hlt eq_refl).
  destruct (IH p1 out1 Hok1) as (p' & out' & -> & Hok' & Hs'); [lia|].
  exists p', out'. by rewrite Hs', Hs1.
Qed.

(** ** Buffering *)

Lemma longest_from_le s needle max : longest_from s needle max ≤ max.
Proof. induction max as [|k IH]; simpl; [done|]. case_match; lia. Qed.

Lemma longest_lt s needle :
  needle ≠ [] → longest_suffix_prefix_len s needle < length needle ∧
  longest_suffix_prefix_len s needle ≤ length s.
Proof.
  intros Hne. pose proof (longest_from_le s needle (length s `min` (length needle - 1))).
  unfold longest_suffix_prefix_len. assert (length needle ≠ 0) by (by destruct needle). lia.
Qed.

(** The delimiters a parser may be in the middle of. *)
Definition delimiters p : list str :=
  match active p with Some a => [active_close a] | None => spec_open <$> specs p end.

Lemma max_open_le p : parser_ok p → specs p ≠ [] →
  max_open_prefix_suffix_len p ≤ length (pending p) ∧
  ∃ s, s ∈ specs p ∧ max_open_prefix_suffix_len p < length (spec_open s).
Proof.
  intros [Hs _]. unfold max_open_prefix_suffix_len.
  induction Hs as [|s sps Hs Hsps IH]; [done|]. intros _.
  apply spec_ok_spec in Hs as [Ho _]. destruct (longest_lt (pending p) (spec_open s) Ho) as [H1 H2].
  cbn [foldr]. destruct (decide (sps = [])) as [->|Hne].
  { simpl. split; [lia|]. exists s. split; [constructor|lia]. }
  destruct (IH Hne) as (Hle & s' & Hin & Hlt). split; [lia|].
  destruct (decide (length (spec_open s) ≤ length (spec_open s'))) as [Hd|Hd].
  - exists s'. split; [by constructor|lia].
  - exists s. split; [constructor|lia].
Qed.

Lemma push_loop_pending fuel p out p' out' :
  parser_ok p → specs p ≠ [] → push_loop fuel p out = Some (p', out') →
  ∃ d, d ∈ delimiters p' ∧ length (pending p') < length d.
Proof.
  revert p out. induction fuel as [|fuel IH]; intros p out Hok Hne; [done|]. simpl.
  destruct (push_step p out) as [[p1 out1] continue] eqn:Hstep.
  pose proof (push_step_ok _ _ _ _ _ Hok Hstep) as (Hok1 & Hs1 & _).
  destruct continue; [apply IH; congruence|]. intros [= <- <-].
  unfold push_step in Hstep. unfold delimiters. destruct (active p) as [a|] eqn:Ha.
  - destruct (find _ _); simplify_eq/=. exists (active_close a). split; [constructor|].
    destruct Hok as [_ Hok]. rewrite Ha in Hok. destruct (longest_lt (pending p) _ Hok).
    rewrite length_drop. lia.
  - destruct (find_next_open p) as [[n s]|]; simplify_eq/=.
    destruct (max_open_le p Hok Hne) as (Hle & s & Hin & Hlt).
    exists (spec_open s). split; [by apply list_elem_of_fmap_2|]. rewrite length_drop. lia.
Qed.

Lemma new_ok (sps : list (InlineTagSpec T)) p : new sps = Some p → parser_ok p.
Proof.
  unfold new. destruct (_ && _) eqn:Hok; [|done]. intros [= <-]. split; [|done].
  apply andb_true_iff in Hok as [_ Hok]. apply Forall_forall. intros s Hs.
  eapply forallb_forall in Hok; [done|]. by apply list_elem_of_In.
Qed.

(** The hidden-tag parser always finishes a chunk and never holds back more than
    a partial delimiter: for a parser built by [new], whatever it has seen, the loop of
    [push_str] ends within one turn per pending char, keeps the parser well formed, and
    leaves pending strictly less text than the longest delimiter it waits for. *)
Theorem inline_push_str_total p chunk :
  parser_ok p → specs p ≠ [] →
  let '(p', out) := inline_push_str chunk p in
  push_loop (S (length (pending p ++ chunk))) (add_pending chunk p) default_out = Some (p', out) ∧
  parser_ok p' ∧ specs p' = specs p ∧
  ∃ d, d ∈ delimiters p' ∧ length (pending p') < length d.
Proof.
  intros Hok Hne. unfold inline_push_str. cbv zeta.
  assert (parser_ok (add_pending chunk p)) as Hok' by done.
  destruct (push_loop_Some (S (length (pending (add_pending chunk p)))) (add_pending chunk p)
    default_out Hok') as (p' & out & Hl & Hok2 & Hs2); [lia|].
  rewrite Hl. simpl. split_and!; [done..|]. by eapply push_loop_pending in Hl.
Qed.

End termination.

Lemma inline_push_str_total_witness :
  let p := mkHidden [mkInline 0 (lit "<a>") (lit "</a>")] [] None in
  parser_ok p ∧ parser_ok (inline_push_str (lit "x<a>y</a>z<") p).1.
Proof.
  assert (parser_ok (mkHidden [mkInline 0 (lit "<a>") (lit "</a>")] [] None)) as Hok.
  { split; [|done]. by repeat constructor. }
  split; [exact Hok|].
  apply (inline_push_str_total _ (lit "x<a>y</a>z<") Hok). discriminate.
Defined.
(** ** One tag: independence of the chunks *)

Lemma find_app_l q s c n : find q s = Some n → find q (s ++ c) = Some n.
Proof.
  intros Hf. pose proof (find_bound _ _ _ Hf) as Hb.
  apply find_Some in Hf as (Hp & Hn & Hmin). apply find_Some. split_and!.
  - rewrite drop_app_le by done. by apply prefix_app_r.
  - rewrite length_app. lia.
  - intros m Hm [t Ht]. apply (Hmin m Hm).
    rewrite drop_app_le in Ht by lia. exists (take (length s - m - length q) t).
    apply (f_equal (take (length s - m))) in Ht.
    rewrite take_app_length' in Ht by (rewrite length_drop; lia).
    rewrite Ht, take_app_ge by lia. done.
Qed.

Lemma find_skip q e r :
  (∀ m, m < length e → ¬ q `prefix_of` drop m (e ++ r)) →
  find q (e ++ r) = (λ n, length e + n) <$> find q r.
Proof.
  induction e as [|c e IH]; intros Hno.
  - simpl. by destruct (find q r).
  - cbn [app find]. rewrite (proj2 (starts_with_false _ _)) by (apply (Hno 0); simpl; lia).
    rewrite IH; [by destruct (find q r)|]. intros m Hm. apply (Hno (S m)). simpl. lia.
Qed.

Lemma longest_from_ge s needle max k :
  0 < k ≤ max → ends_with (take k needle) s = true → k ≤ longest_from s needle max.
Proof.
  induction max as [|m IH]; intros Hk He; [lia|]. simpl.
  destruct (decide (k = S m)) as [->|]; [by rewrite He|].
  case_match; [lia|]. apply IH; [lia|done].
Qed.

(** What is held back is enough: an occurrence in [s ++ c] that is not in [s] starts
    in the part of [s] that is kept. *)
Lemma find_held q s c :
  q ≠ [] → find q s = None →
  let n := length s - longest_suffix_prefix_len s q in
  find q (s ++ c) = (λ m, n + m) <$> find q (drop n s ++ c).
Proof.
  intros Hq Hnone n. destruct (longest_lt s q Hq) as [Hlt Hle].
  rewrite <- (take_drop n s) at 1. rewrite <- app_assoc.
  assert (length (take n s) = n) as Hn by (rewrite length_take; unfold n; lia).
  rewrite find_skip, Hn; [done|]. intros m Hm. rewrite Hn in Hm.
  rewrite app_assoc, take_drop, drop_app_le by (unfold n in Hm; lia). intros [t Ht].
  destruct (decide (length q ≤ length s - m)) as [Hlen|Hlen].
  - rewrite find_None in Hnone. apply (Hnone m); [unfold n in Hm; lia|].
    apply (f_equal (take (length s - m))) in Ht.
    rewrite take_app_length', take_app_ge in Ht by (rewrite ?length_drop; lia).
    rewrite Ht. by eexists.
  - assert (drop m s = take (length s - m) q) as Hsuf.
    { apply (f_equal (take (length s - m))) in Ht.
      rewrite take_app_length', take_app_le in Ht by (rewrite ?length_drop; lia). done. }
    assert (length s - m ≤ longest_suffix_prefix_len s q); [|unfold n in Hm; lia].
    apply longest_from_ge; [unfold n in Hm; lia|]. apply ends_with_spec. rewrite <- Hsuf.
    exists (take m s). by rewrite take_drop.
Qed.

Lemma find_drop_None q s n : q ≠ [] → find q s = None → find q (drop n s) = None.
Proof.
  intros Hq Hnone. rewrite find_None in *. intros m Hm. rewrite drop_drop.
  destruct (decide (n + m ≤ length s)); [by apply Hnone|].
  rewrite drop_ge by lia. intros ->%prefix_nil_inv. done.
Qed.

Section single.
Context {T : Type} (tag0 : T) (op cl : str).
Implicit Types (p : InlineHiddenTagParser T) (out : StreamTextChunk (ExtractedInlineTag T)).

(** [hidden s v xs]: the text [s], outside of tags, shows [v] and hides the contents
    [xs]; [inside a s v xs]: the same inside a tag whose content so far is [a]. *)
Inductive hidden : str → str → list str → Prop :=
| hidden_plain s : find op s = None → hidden s s []
| hidden_open s n v xs :
    find op s = Some n → inside [] (drop (n + length op) s) v xs →
    hidden s (take n s ++ v) xs
with inside : str → str → str → list str → Prop :=
| inside_unclosed a s : find cl s = None → inside a s [] [a ++ s]
| inside_close a s n v xs :
    find cl s = Some n → hidden (drop (n + length cl) s) v xs →
    inside a s v ((a ++ take n s) :: xs).

Hypothesis Hop : op ≠ [].
Hypothesis Hcl : cl ≠ [].

Definition single p : Prop :=
  specs p = [mkInline tag0 op cl] ∧
  match active p with Some a => active_close a = cl | None => True end.

(** What the parser means for the text still to come. *)
Definition meaning p (c v : str) (xs : list str) : Prop :=
  match active p with
  | None => hidden (pending p ++ c) v xs
  | Some a => inside (active_content a) (pending p ++ c) v xs
  end.

(** The pending text holds no whole delimiter. *)
Definition idle p : Prop :=
  match active p with
  | None => find op (pending p) = None
  | Some _ => find cl (pending p) = None
  end.

Lemma hidden_held s c v xs :
  find op s = None →
  let n := length s - longest_suffix_prefix_len s op in
  hidden (drop n s ++ c) v xs → hidden (s ++ c) (take n s ++ v) xs.
Proof.
  intros Hs n Hh. pose proof (find_held op s c Hop Hs) as Hf. cbv zeta in Hf. fold n in Hf.
  assert (n ≤ length s) as Hn by (unfold n; lia).
  inversion Hh as [? Hnone|? m v' ? Hm Hin]; subst; rewrite ?Hnone, ?Hm in Hf; simpl in Hf.
  - rewrite app_assoc, take_drop. by constructor.
  - replace (take n s ++ take m (drop n s ++ c) ++ v') with (take (n + m) (s ++ c) ++ v').
    + econstructor; [done|]. rewrite <- Nat.add_assoc, <- drop_drop, drop_app_le by done. done.
    + rewrite app_assoc. f_equal. rewrite <- (take_drop n s) at 1. rewrite <- app_assoc.
      rewrite take_app_add' by (rewrite length_take; lia). done.
Qed.

Lemma inside_held a s c v xs :
  find cl s = None →
  let n := length s - longest_suffix_prefix_len s cl in
  inside (a ++ take n s) (drop n s ++ c) v xs → inside a (s ++ c) v xs.
Proof.
  intros Hs n Hh. pose proof (find_held cl s c Hcl Hs) as Hf. cbv zeta in Hf. fold n in Hf.
  assert (n ≤ length s) as Hn by (unfold n; lia).
  inversion Hh as [? ? Hnone|? ? m ? ? Hm Hin]; subst; rewrite ?Hnone, ?Hm in Hf; simpl in Hf.
  - rewrite <- app_assoc, (app_assoc (take n s)), take_drop. by constructor.
  - replace ((a ++ take n s) ++ take m (drop n s ++ c)) with (a ++ take (n + m) (s ++ c)).
    + econstructor; [done|]. rewrite <- Nat.add_assoc, <- drop_drop, drop_app_le by done. done.
    + rewrite <- app_assoc. f_equal. rewrite <- (take_drop n s) at 1. rewrite <- app_assoc.
      rewrite take_app_add' by (rewrite length_take; lia). done.
Qed.

Lemma find_next_open_single p :
  specs p = [mkInline tag0 op cl] →
  find_next_open p = (λ n, (n, mkInline tag0 op cl)) <$> find op (pending p).
Proof. intros Hs. unfold find_next_open. rewrite Hs. simpl. by destruct (find op (pending p)). Qed.

Lemma take_found q s c n : find q s = Some n → take n (s ++ c) = take n s.
Proof. intros (_ & Hn & _)%find_Some. by rewrite take_app_le. Qed.

Lemma drop_found q s c n :
  find q s = Some n → drop (n + length q) (s ++ c) = drop (n + length q) s ++ c.
Proof.
  intros Hf. apply drop_app_le. by apply find_bound.
Qed.

(** One turn: what it outputs and what it leaves to parse make up what there was. *)
Lemma push_step_meaning p out p' out' continue :
  single p → push_step p out = (p', out', continue) →
  single p' ∧ (continue = false → idle p') ∧
  ∃ d, out' = out_app out d ∧
    ∀ c v xs, meaning p' c v xs →
      meaning p c (visible_text d ++ v) ((content <$> extracted d) ++ xs).
Proof.
  intros [Hs Hc]. unfold push_step, meaning, idle. destruct (active p) as [a|] eqn:Ha.
  - rewrite Hc. destruct (find cl (pending p)) as [n|] eqn:Hf; intros [= <- <- <-]; cbn [active pending active_content].
    + split_and!; [by split|done|].
      exists (mkOut [] [mkExtracted (active_tag a) (active_content a ++ take n (pending p))]).
      split; [unfold out_app, extract; simpl; by rewrite app_nil_r|].
      intros c v xs Hh. simpl. rewrite <- (take_found cl (pending p) c n Hf).
      econstructor; [by apply find_app_l|]. by rewrite (drop_found _ _ _ _ Hf).
    + split_and!; [by split|intros _; by apply find_drop_None|].
      exists default_out. split; [unfold out_app; simpl; rewrite !app_nil_r; by destruct out|].
      intros c v xs Hh. by apply inside_held.
  - rewrite find_next_open_single by done.
    destruct (find op (pending p)) as [n|] eqn:Hf; intros [= <- <- <-]; cbn [active pending active_content].
    + split_and!; [by split|done|]. exists (mkOut (take n (pending p)) []).
      split; [unfold out_app, show; simpl; by rewrite app_nil_r|].
      intros c v xs Hh. simpl. rewrite <- (take_found op (pending p) c n Hf).
      econstructor; [by apply find_app_l|]. by rewrite (drop_found _ _ _ _ Hf).
    + unfold max_open_prefix_suffix_len. rewrite Hs. cbn [foldr spec_open].
      rewrite Nat.max_0_r.
      split_and!; [by split|intros _; by apply find_drop_None|]. 
      exists (mkOut (take (length (pending p) - longest_suffix_prefix_len (pending p) op) (pending p)) []).
      split; [unfold out_app, show; simpl; by rewrite app_nil_r|].
      intros c v xs Hh. by apply hidden_held.
Qed.

Lemma push_loop_meaning fuel p out p' out' :
  single p → push_loop fuel p out = Some (p', out') →
  single p' ∧ idle p' ∧ ∃ d, out' = out_app out d ∧
    ∀ c v xs, meaning p' c v xs →
      meaning p c (visible_text d ++ v) ((content <$> extracted d) ++ xs).
Proof.
  revert p out. induction fuel as [|fuel IH]; intros p out Hs; [done|]. simpl.
  destruct (push_step p out) as [[p1 out1] continue] eqn:Hstep.
  apply push_step_meaning in Hstep as (Hs1 & Hidle & d & -> & Hm); [|done].
  destruct continue; [|intros [= <- <-]; split_and!; [done|auto|by exists d]].
  intros (Hs2 & Hidle2 & d2 & -> & Hm2)%IH; [|done]. split_and!; [done..|].
  exists (out_app d d2). split; [symmetry; apply out_app_assoc|].
  intros c v xs Hh%Hm2%Hm. unfold out_app. simpl. by rewrite fmap_app, <- !app_assoc.
Qed.

Lemma single_ok p : single p → parser_ok p ∧ specs p ≠ [].
Proof.
  intros [Hs Ha]. unfold parser_ok. rewrite Hs. split; [|done]. split.
  - constructor; [|done]. by apply spec_ok_spec.
  - by destruct (active p) as [a|]; [rewrite Ha|].
Qed.

Lemma meaning_add p chunk c v xs : meaning (add_pending chunk p) c v xs ↔ meaning p (chunk ++ c) v xs.
Proof. unfold meaning. simpl. by rewrite <- app_assoc. Qed.

(** The outputs over a sequence of chunks are the meaning of their concatenation. *)
Lemma run_chunks_meaning p chunks :
  single p → idle p →
  let out := run_chunks p chunks in
  meaning p (mjoin chunks) (visible_text out) (content <$> extracted out).
Proof.
  revert p. induction chunks as [|chunk chunks IH]; intros p Hs Hidle; simpl.
  - unfold meaning, idle, inline_finish in *. rewrite app_nil_r.
    destruct (active p); simpl; by constructor.
  - unfold inline_push_str. destruct (single_ok p Hs) as [Hok _].
    destruct (push_loop_Some (S (length (pending (add_pending chunk p)))) (add_pending chunk p)
      default_out Hok) as (p' & out & Hl & _); [lia|]. rewrite Hl. simpl.
    apply push_loop_meaning in Hl as (Hs' & Hidle' & d & -> & Hm); [|done].
    rewrite out_app_nil_l. apply meaning_add. rewrite fmap_app. by apply Hm, IH.
Qed.

(** The meaning is a function of the text. *)
Scheme hidden_mut := Induction for hidden Sort Prop
  with inside_mut := Induction for inside Sort Prop.

Lemma hidden_fun s v1 xs1 v2 xs2 :
  hidden s v1 xs1 → hidden s v2 xs2 → v1 = v2 ∧ xs1 = xs2.
Proof.
  intros H1. revert v2 xs2. revert s v1 xs1 H1.
  apply (hidden_mut
    (λ s v1 xs1 _, ∀ v2 xs2, hidden s v2 xs2 → v1 = v2 ∧ xs1 = xs2)
    (λ a s v1 xs1 _, ∀ v2 xs2, inside a s v2 xs2 → v1 = v2 ∧ xs1 = xs2)).
  - intros s Hf v2 xs2 H2. inversion H2; subst; [done|congruence].
  - intros s n v xs Hf _ IH v2 xs2 H2. inversion H2 as [|? n' v' ? Hf' Hin]; subst; [congruence|].
    rewrite Hf in Hf'. injection Hf' as <-. by apply IH in Hin as [-> ->].
  - intros a s Hf v2 xs2 H2. inversion H2; subst; [done|congruence].
  - intros a s n v xs Hf _ IH v2 xs2 H2. inversion H2 as [|? ? n' v' xs' Hf' Hin]; subst; [congruence|].
    rewrite Hf in Hf'. injection Hf' as <-. by apply IH in Hin as [-> ->].
Qed.
End single.
