(* ===== verification/AssistantText.v ===== *)
(** * AssistantText: citations and plans in streamed assistant text
    ([utils/stream-parser/src/citation.rs], [assistant_text.rs])

    The citation parser is the hidden-tag parser with one tag; in plan mode its
    visible text goes through the plan parser. *)
From S2P Require Import Prelude RustStr StreamText TaggedLine ProposedPlan InlineTag.

Import InlineTag.

Inductive CitationTag := Citation.

Definition CITATION_OPEN : str := lit "<oai-mem-citation>".
Definition CITATION_CLOSE : str := lit "</oai-mem-citation>".

Record CitationStreamParser := mkCitation { hidden_tags : InlineHiddenTagParser CitationTag }.

Definition citation_specs : list (InlineTagSpec CitationTag) :=
  [mkInline Citation CITATION_OPEN CITATION_CLOSE].

(** [CitationStreamParser::new]; [None] would be the panic of an assertion. *)
Definition new_citations_checked : option CitationStreamParser :=
  mkCitation <$> InlineTag.new citation_specs.
Definition new_citations : CitationStreamParser := mkCitation (mkHidden citation_specs [] None).

Lemma new_citations_ok : new_citations_checked = Some new_citations.
Proof. reflexivity. Qed.

(** The tags of a chunk as plain strings. *)
Definition citation_out (inner : StreamTextChunk (ExtractedInlineTag CitationTag)) :
    StreamTextChunk str :=
  mkOut (visible_text inner) (content <$> extracted inner).

Definition citations_push_str (chunk : str) (p : CitationStreamParser) :
    CitationStreamParser * StreamTextChunk str :=
  let '(tags, inner) := push_str chunk (hidden_tags p) in (mkCitation tags, citation_out inner).
Definition citations_finish (p : CitationStreamParser) : CitationStreamParser * StreamTextChunk str :=
  let '(tags, inner) := StreamText.finish (hidden_tags p) in (mkCitation tags, citation_out inner).

#[export] Instance citation_parser : StreamTextParser CitationStreamParser := {|
  Extracted := str;
  push_str := citations_push_str;
  StreamText.finish := citations_finish;
|}.

Definition strip_citations (text : str) : str * list str :=
  let '(parser, out) := push_str text new_citations in
  let '(_, tail) := StreamText.finish parser in
  (visible_text out ++ visible_text tail, extracted out ++ extracted tail).

(** ** Assistant text *)

Record AssistantTextChunk := mkAssistant {
  assistant_visible : str;
  assistant_citations : list str;
  plan_segments : list ProposedPlanSegment;
}.

Definition assistant_is_empty (c : AssistantTextChunk) : bool :=
  bool_decide (assistant_visible c = []) && bool_decide (assistant_citations c = []) &&
  bool_decide (plan_segments c = []).

Record AssistantTextStreamParser := mkAssistantParser {
  plan_mode : bool;
  citations : CitationStreamParser;
  plan : ProposedPlanParser;
}.

(** [AssistantTextStreamParser::new]. *)
Definition new_assistant (plan_mode : bool) : AssistantTextStreamParser :=
  mkAssistantParser plan_mode new_citations new_plan.

Definition parse_visible_text (text : str) (p : AssistantTextStreamParser) :
    AssistantTextStreamParser * AssistantTextChunk :=
  if plan_mode p then
    let '(plan, plan_chunk) := push_str text (plan p) in
    (mkAssistantParser (plan_mode p) (citations p) plan,
     mkAssistant (visible_text plan_chunk) [] (extracted plan_chunk))
  else (p, mkAssistant text [] []).

Definition assistant_push_str (chunk : str) (p : AssistantTextStreamParser) :
    AssistantTextStreamParser * AssistantTextChunk :=
  let '(cits, citation_chunk) := push_str chunk (citations p) in
  let '(p, out) := parse_visible_text (visible_text citation_chunk)
                     (mkAssistantParser (plan_mode p) cits (plan p)) in
  (p, mkAssistant (assistant_visible out) (extracted citation_chunk) (plan_segments out)).

Definition assistant_finish (p : AssistantTextStreamParser) :
    AssistantTextStreamParser * AssistantTextChunk :=
  let '(cits, citation_chunk) := StreamText.finish (citations p) in
  let '(p, out) := parse_visible_text (visible_text citation_chunk)
                     (mkAssistantParser (plan_mode p) cits (plan p)) in
  let '(p, out) :=
    if plan_mode p then
      let '(plan, tail) := StreamText.finish (plan p) in
      (mkAssistantParser (plan_mode p) (citations p) plan,
       if out_is_empty tail then out
       else mkAssistant (assistant_visible out ++ visible_text tail) (assistant_citations out)
              (plan_segments out ++ extracted tail))
    else (p, out) in
  (p, mkAssistant (assistant_visible out) (extracted citation_chunk) (plan_segments out)).

(** What a caller collects over a whole stream. *)
Definition assistant_app (a b : AssistantTextChunk) : AssistantTextChunk :=
  mkAssistant (assistant_visible a ++ assistant_visible b)
    (assistant_citations a ++ assistant_citations b) (plan_segments a ++ plan_segments b).
Fixpoint run_assistant (p : AssistantTextStreamParser) (chunks : list str) : AssistantTextChunk :=
  match chunks with
  | [] => (assistant_finish p).2
  | c :: chunks =>
      let '(p, o) := assistant_push_str c p in assistant_app o (run_assistant p chunks)
  end.

(** * What is shown and extracted does not depend on chunking *)

(** The visible pieces and the citations of a run of the citation parser: one piece
    per chunk and one at the end. *)
Fixpoint citation_run (p : CitationStreamParser) (chunks : list str) : list str * list str :=
  match chunks with
  | [] => let o := (citations_finish p).2 in ([visible_text o], extracted o)
  | c :: chunks =>
      let '(p, o) := citations_push_str c p in
      let '(vs, xs) := citation_run p chunks in (visible_text o :: vs, extracted o ++ xs)
  end.

(** The citation parser gives the output of the hidden-tag parser as plain strings. *)
Lemma run_chunks_citations p chunks :
  run_chunks p chunks = citation_out (run_chunks (hidden_tags p) chunks).
Proof.
  revert p. induction chunks as [|c chunks IH]; intros [tags]; simpl.
  - unfold citations_finish. simpl. by destruct (inline_finish tags).
  - unfold citations_push_str. simpl. destruct (inline_push_str c tags) as [tags' o].
    rewrite IH. unfold citation_out, out_app. simpl. by rewrite fmap_app.
Qed.

Lemma citation_run_chunks p chunks :
  let '(vs, xs) := citation_run p chunks in run_chunks p chunks = mkOut (mjoin vs) xs.
Proof.
  revert p. induction chunks as [|c chunks IH]; intros p; simpl.
  - rewrite app_nil_r. by destruct (citations_finish p).2.
  - destruct (citations_push_str c p) as [p' o]. specialize (IH p').
    destruct (citation_run p' chunks) as [vs xs]. by rewrite IH.
Qed.

(** The specification of the citation parser on a text. *)
Definition cited : str → str → list str → Prop := hidden CITATION_OPEN CITATION_CLOSE.

Lemma citation_run_cited chunks :
  let '(vs, xs) := citation_run new_citations chunks in cited (mjoin chunks) (mjoin vs) xs.
Proof.
  pose proof (citation_run_chunks new_citations chunks) as Hrun.
  destruct (citation_run new_citations chunks) as [vs xs]. rewrite run_chunks_citations in Hrun.
  injection Hrun as <- <-.
  apply (run_chunks_meaning Citation CITATION_OPEN CITATION_CLOSE ltac:(discriminate)
    ltac:(discriminate) (mkHidden citation_specs [] None) chunks); [by split|done].
Qed.

Lemma strip_citations_cited text : cited text (strip_citations text).1 (strip_citations text).2.
Proof.
  pose proof (citation_run_cited [text]) as Hc. simpl in Hc.
  unfold strip_citations.
  change (push_str text new_citations) with (citations_push_str text new_citations).
  destruct (citations_push_str text new_citations) as [p o].
  change (StreamText.finish p) with (citations_finish p).
  destruct (citations_finish p) as [p' t]. simpl in *. by rewrite !app_nil_r in Hc.
Qed.

Lemma cited_fun s v1 xs1 v2 xs2 : cited s v1 xs1 → cited s v2 xs2 → v1 = v2 ∧ xs1 = xs2.
Proof. apply hidden_fun. Qed.

Lemma citation_run_strip chunks :
  let '(vs, xs) := citation_run new_citations chunks in
  strip_citations (mjoin chunks) = (mjoin vs, xs).
Proof.
  pose proof (citation_run_cited chunks) as Hc.
  destruct (citation_run new_citations chunks) as [vs xs].
  destruct (cited_fun _ _ _ _ _ (strip_citations_cited (mjoin chunks)) Hc).
  destruct (strip_citations (mjoin chunks)). by simplify_eq/=.
Qed.

(** A run of the whole parser: the plan parser reads the visible pieces. *)
Lemma run_assistant_spec p chunks :
  let '(vs, xs) := citation_run (citations p) chunks in
  run_assistant p chunks =
  if plan_mode p
  then mkAssistant (visible_text (run_chunks (plan p) vs)) xs (extracted (run_chunks (plan p) vs))
  else mkAssistant (mjoin vs) xs [].
Proof.
  revert p. induction chunks as [|c chunks IH]; intros [md cits pl]; simpl.
  - unfold assistant_finish, parse_visible_text. simpl.
    destruct (citations_finish cits) as [cits' o]. simpl.
    destruct md; simpl; [|by rewrite app_nil_r].
    destruct (TaggedLine.parse pl (visible_text o)) as [pl' segs]. simpl.
    destruct (TaggedLine.finish pl') as [pl2 segs2]. simpl.
    destruct (out_is_empty (map_segments segs2)) eqn:He; [|done].
    unfold out_is_empty in He. bool_hyps. unfold out_app. simpl.
    destruct (map_segments segs2) as [v [|x xs]]; [|done]. simpl in *. subst. by rewrite !app_nil_r.
  - unfold assistant_push_str, parse_visible_text. simpl. destruct (citations_push_str c cits) as [cits' o]. simpl.
    destruct md; simpl.
    + destruct (TaggedLine.parse pl (visible_text o)) as [pl' segs] eqn:Hp. simpl.
      specialize (IH (mkAssistantParser true cits' pl')). simpl in IH.
      destruct (citation_run cits' chunks) as [vs xs]. rewrite IH. simpl. by rewrite Hp.
    + specialize (IH (mkAssistantParser false cits' pl)). simpl in IH.
      destruct (citation_run cits' chunks) as [vs xs]. by rewrite IH.
Qed.

Lemma run_chunks_plan_join vs v :
  mjoin vs = v →
  visible_text (run_chunks new_plan vs) = strip_proposed_plan_blocks v ∧
  foldl plan_step (false, []) (extracted (run_chunks new_plan vs)) =
  foldl plan_step (false, []) (extracted (run_chunks new_plan [v])).
Proof.
  intros Hv. rewrite strip_run, !run_chunks_plan. cbn [visible_text extracted].
  rewrite !plan_step_events.
  assert (∀ cs, mjoin cs = v → events (run_parse new_plan cs) = spec_events plan_specs v) as Hev.
  { intros cs <-. apply (run_parse_simulates plan_specs new_plan cs [] (None, [], [])). done. }
  rewrite !Hev by (done || apply app_nil_r). done.
Qed.

(** Citations.  [strip_citations] computes what its documentation says: outside of
    a citation the text up to the first opening tag is visible, inside of one the text
    up to the first closing tag is the citation, an unclosed citation extends to the
    end, tags do not nest; and a text streamed in any chunks gives the same visible
    text and the same citations, a tag split over chunks included. *)
Theorem citations_chunks chunks :
  let '(visible, cits) := strip_citations (mjoin chunks) in
  cited (mjoin chunks) visible cits ∧ run_chunks new_citations chunks = mkOut visible cits.
Proof.
  pose proof (strip_citations_cited (mjoin chunks)) as Hs.
  pose proof (citation_run_strip chunks) as Hc. pose proof (citation_run_chunks new_citations chunks) as Hr.
  destruct (citation_run new_citations chunks) as [vs xs]. rewrite Hc in *. by split.
Qed.

(** Assistant text.  For every way of cutting a stream into chunks, the citations
    are those of the whole text; the visible text is the whole text without citations
    and, in plan mode, without the plan blocks of what remains; and the plan segments
    carry the same last plan as [extract_proposed_plan_text] finds in it. *)
Theorem assistant_text_chunks plan_mode chunks :
  let '(visible, cits) := strip_citations (mjoin chunks) in
  let out := run_assistant (new_assistant plan_mode) chunks in
  assistant_citations out = cits ∧
  assistant_visible out = (if plan_mode then strip_proposed_plan_blocks visible else visible) ∧
  (if plan_mode
   then extract_proposed_plan_text visible =
        (let '(saw, text) := foldl plan_step (false, []) (plan_segments out) in
         if saw : bool then Some text else None)
   else plan_segments out = []).
Proof.
  pose proof (citation_run_strip chunks) as Hc.
  pose proof (run_assistant_spec (new_assistant plan_mode) chunks) as Hr. simpl in Hr.
  destruct (citation_run new_citations chunks) as [vs xs]. rewrite Hc, Hr.
  destruct plan_mode; [|done]. cbn [assistant_citations assistant_visible plan_segments].
  destruct (run_chunks_plan_join vs (mjoin vs) eq_refl) as [Hv Hp].
  split_and!; [done|done|]. by rewrite extract_run, <- Hp.
Qed.
