(* ===== verification/Utf8Stream.v ===== *)
(** * Utf8Stream: byte streams decoded into text streams
    ([utils/stream-parser/src/utf8_stream.rs])

    [std::str::from_utf8] with its [valid_up_to] and [error_len], and the wrapper
    that holds back an incomplete code point. *)
From S2P Require Import Prelude RustStr StreamText InlineTag AssistantText.

(** A [u8] is its value. *)
Abbreviation byte := N (only parsing).

(** ** [std::str::from_utf8] *)

Record Utf8Error := mkUtf8Error { valid_up_to : nat; error_len : option nat }.

#[export] Instance Utf8Error_eq_dec : EqDecision Utf8Error.
Proof. solve_decision. Defined.

Definition in_range (lo hi b : N) : bool := ((lo <=? b) && (b <=? hi))%N.
Definition is_cont (b : byte) : bool := in_range 0x80 0xBF b.

(** The second bytes a three- or four-byte lead allows (no overlong form, no
    surrogate, nothing above U+10FFFF). *)
Definition second_ok (b0 b1 : byte) : bool :=
  if (b0 =? 0xE0)%N then in_range 0xA0 0xBF b1
  else if (b0 =? 0xED)%N then in_range 0x80 0x9F b1
  else if (b0 =? 0xF0)%N then in_range 0x90 0xBF b1
  else if (b0 =? 0xF4)%N then in_range 0x80 0x8F b1
  else is_cont b1.

Inductive decoded :=
| DChar (c : char) (width : nat)
| DIncomplete
| DInvalid (len : nat).

(** The first code point of a non-empty byte string. *)
Definition decode_one (b0 : byte) (rest : list byte) : decoded :=
  if (b0 <? 0x80)%N then DChar b0 1
  else if in_range 0xC2 0xDF b0 then
    match rest with
    | [] => DIncomplete
    | b1 :: _ =>
        if is_cont b1 then DChar ((b0 - 0xC0) * 64 + (b1 - 0x80))%N 2 else DInvalid 1
    end
  else if in_range 0xE0 0xEF b0 then
    match rest with
    | [] => DIncomplete
    | b1 :: rest =>
        if negb (second_ok b0 b1) then DInvalid 1
        else match rest with
             | [] => DIncomplete
             | b2 :: _ =>
                 if is_cont b2
                 then DChar ((b0 - 0xE0) * 4096 + (b1 - 0x80) * 64 + (b2 - 0x80))%N 3
                 else DInvalid 2
             end
    end
  else if in_range 0xF0 0xF4 b0 then
    match rest with
    | [] => DIncomplete
    | b1 :: rest =>
        if negb (second_ok b0 b1) then DInvalid 1
        else match rest with
             | [] => DIncomplete
             | b2 :: rest =>
                 if negb (is_cont b2) then DInvalid 2
                 else match rest with
                      | [] => DIncomplete
                      | b3 :: _ =>
                          if is_cont b3
                          then DChar ((b0 - 0xF0) * 262144 + (b1 - 0x80) * 4096
                                      + (b2 - 0x80) * 64 + (b3 - 0x80))%N 4
                          else DInvalid 3
                      end
             end
    end
  else DInvalid 1.

(** How decoding stops. *)
Inductive stop_reason := AtEnd | Truncated | Invalid (len : nat).

(** The text of the longest valid prefix, the bytes after it and why it ends. *)
Fixpoint decode_fuel (fuel : nat) (bs : list byte) : str * list byte * stop_reason :=
  match fuel, bs with
  | _, [] => ([], [], AtEnd)
  | 0, _ => ([], bs, AtEnd)
  | S fuel, b0 :: rest =>
      match decode_one b0 rest with
      | DChar c width =>
          let '(text, rem, st) := decode_fuel fuel (drop (width - 1) rest) in (c :: text, rem, st)
      | DIncomplete => ([], bs, Truncated)
      | DInvalid len => ([], bs, Invalid len)
      end
  end.
Definition decode (bs : list byte) : str * list byte * stop_reason := decode_fuel (length bs) bs.

Definition from_utf8 (bs : list byte) : result Utf8Error str :=
  let '(text, rem, st) := decode bs in
  match st with
  | AtEnd => Ok text
  | Truncated => Err (mkUtf8Error (length bs - length rem) None)
  | Invalid len => Err (mkUtf8Error (length bs - length rem) (Some len))
  end.

Example from_utf8_ok : from_utf8 [0x61; 0xC3; 0xA9; 0xF0; 0x9F; 0x98; 0x80]%N = Ok [0x61; 0xE9; 0x1F600]%N.
Proof. reflexivity. Qed.
Example from_utf8_split : from_utf8 [0x61; 0xF0; 0x9F]%N = Err (mkUtf8Error 1 None).
Proof. reflexivity. Qed.
Example from_utf8_surrogate : from_utf8 [0x61; 0xED; 0xA0; 0x80]%N = Err (mkUtf8Error 1 (Some 1)).
Proof. reflexivity. Qed.

(** ** The stream parser *)

Inductive Utf8StreamParserError :=
| InvalidUtf8 (valid_up_to error_len : nat)
| IncompleteUtf8AtEof.

#[export] Instance Utf8StreamParserError_eq_dec : EqDecision Utf8StreamParserError.
Proof. solve_decision. Defined.

Record Utf8StreamParser (S : Type) := mkUtf8 { inner : S; pending_utf8 : list byte }.
Arguments mkUtf8 {S}.
Arguments inner {S}.
Arguments pending_utf8 {S}.

Section utf8.
Context {S : Type} `{StreamTextParser S}.
Implicit Types p : Utf8StreamParser S.

Definition new (i : S) : Utf8StreamParser S := mkUtf8 i [].

Definition push_bytes (chunk : list byte) p :
    Utf8StreamParser S * result Utf8StreamParserError (StreamTextChunk (Extracted S)) :=
  let old_len := length (pending_utf8 p) in
  let buffered := pending_utf8 p ++ chunk in
  match from_utf8 buffered with
  | Ok text => let '(i, out) := push_str text (inner p) in (mkUtf8 i [], Ok out)
  | Err err =>
      match error_len err with
      | Some len => (mkUtf8 (inner p) (take old_len buffered), Err (InvalidUtf8 (valid_up_to err) len))
      | None =>
          if valid_up_to err =? 0 then (mkUtf8 (inner p) buffered, Ok default_out)
          else match from_utf8 (take (valid_up_to err) buffered) with
               | Ok text =>
                   let '(i, out) := push_str text (inner p) in
                   (mkUtf8 i (drop (valid_up_to err) buffered), Ok out)
               | Err prefix_err =>
                   (mkUtf8 (inner p) (take old_len buffered),
                    Err (InvalidUtf8 (valid_up_to prefix_err) (default 0 (error_len prefix_err))))
               end
      end
  end.

(** The error of bytes left over at the end. *)
Definition leftover_error (err : Utf8Error) : Utf8StreamParserError :=
  match error_len err with
  | Some len => InvalidUtf8 (valid_up_to err) len
  | None => IncompleteUtf8AtEof
  end.

Definition utf8_finish p :
    Utf8StreamParser S * result Utf8StreamParserError (StreamTextChunk (Extracted S)) :=
  match pending_utf8 p with
  | [] => let '(i, tail) := finish (inner p) in (mkUtf8 i [], Ok (out_app default_out tail))
  | _ :: _ =>
      match from_utf8 (pending_utf8 p) with
      | Err err => (p, Err (leftover_error err))
      | Ok text =>
          let '(i, out) := push_str text (inner p) in
          let '(i, tail) := finish i in (mkUtf8 i [], Ok (out_app out tail))
      end
  end.

Definition into_inner p : result Utf8StreamParserError S :=
  match pending_utf8 p with
  | [] => Ok (inner p)
  | _ :: _ =>
      match from_utf8 (pending_utf8 p) with
      | Ok _ => Ok (inner p)
      | Err err => Err (leftover_error err)
      end
  end.

Definition into_inner_lossy p : S := inner p.

(** All the outputs of pushing the chunks and finishing, or the first error. *)
Fixpoint run_bytes p (chunks : list (list byte)) :
    result Utf8StreamParserError (StreamTextChunk (Extracted S)) :=
  match chunks with
  | [] => (utf8_finish p).2
  | c :: chunks =>
      let '(p, r) := push_bytes c p in
      match r with
      | Ok out =>
          match run_bytes p chunks with Ok rest => Ok (out_app out rest) | Err e => Err e end
      | Err e => Err e
      end
  end.

End utf8.

(** ** Decoding a prefix *)

Lemma decode_one_app b0 rest more :
  match decode_one b0 rest with
  | DIncomplete => length rest ≤ 2
  | r => decode_one b0 (rest ++ more) = r
  end.
Proof.
  unfold decode_one. destruct (b0 <? 0x80)%N; [done|].
  destruct (in_range 0xC2 0xDF b0); [destruct rest as [|b1 rest]; simpl; [lia|by destruct (is_cont b1)]|].
  destruct (in_range 0xE0 0xEF b0); [|destruct (in_range 0xF0 0xF4 b0); [|done]];
    destruct rest as [|b1 rest]; cbn [length app]; [lia| |lia|];
    destruct (negb (second_ok b0 b1)); try done;
    destruct rest as [|b2 rest]; cbn [length app]; [lia| |lia|];
    [by destruct (is_cont b2)|]; destruct (negb (is_cont b2)); try done;
    destruct rest as [|b3 rest]; cbn [length app]; [lia|by destruct (is_cont b3)].
Qed.

Lemma decode_one_width b0 rest c w :
  decode_one b0 rest = DChar c w → 1 ≤ w ∧ w - 1 ≤ length rest.
Proof.
  unfold decode_one. destruct (b0 <? 0x80)%N; [intros [= <- <-]; lia|].
  repeat case_match; intros; simplify_eq; simpl; lia.
Qed.

Lemma decode_fuel_enough fuel bs :
  length bs ≤ fuel → decode_fuel fuel bs = decode bs.
Proof.
  unfold decode. remember (length bs) as n eqn:Hn. revert bs fuel Hn.
  induction n as [n IH] using lt_wf_ind. intros bs fuel -> Hf.
  destruct bs as [|b0 rest]; [by destruct fuel|]. destruct fuel as [|fuel]; [simpl in Hf; lia|].
  cbn [decode_fuel length]. destruct (decode_one b0 rest) as [c w| |] eqn:Hd; try done.
  apply decode_one_width in Hd as [Hw1 Hw2].
  assert (length (drop (w - 1) rest) ≤ length rest) as Hl by (rewrite length_drop; lia).
  simpl in Hf. assert (length (drop (w - 1) rest) < S (length rest)) as Hlt by lia.
  by rewrite (IH _ Hlt _ fuel eq_refl), (IH _ Hlt _ (length rest) eq_refl) by lia.
Qed.

Lemma decode_cons b0 rest :
  decode (b0 :: rest) =
  match decode_one b0 rest with
  | DChar c width =>
      let '(text, rem, st) := decode (drop (width - 1) rest) in (c :: text, rem, st)
  | DIncomplete => ([], b0 :: rest, Truncated)
  | DInvalid len => ([], b0 :: rest, Invalid len)
  end.
Proof.
  unfold decode at 1. cbn [decode_fuel length]. destruct (decode_one b0 rest); try done.
  rewrite decode_fuel_enough by (rewrite length_drop; lia). done.
Qed.

(** Why a byte string stops, said of what is left of it. *)
Lemma decode_stop bs text rem st :
  decode bs = (text, rem, st) →
  decode rem = ([], rem, st) ∧ rem `suffix_of` bs ∧
  match st with AtEnd => rem = [] | Truncated => rem ≠ [] ∧ length rem ≤ 3 | Invalid _ => rem ≠ [] end.
Proof.
  remember (length bs) as n eqn:Hn. revert bs Hn text.
  induction n as [n IH] using lt_wf_ind. intros bs -> text.
  destruct bs as [|b0 rest]; [by intros [= <- <- <-]|]. rewrite decode_cons.
  pose proof (decode_one_app b0 rest []) as Happ.
  destruct (decode_one b0 rest) as [c w| |len] eqn:Hd.
  - apply decode_one_width in Hd as [Hw1 Hw2].
    destruct (decode (drop (w - 1) rest)) as [[t r] s] eqn:Hdec. intros [= <- <- <-].
    apply (IH (length (drop (w - 1) rest))) in Hdec as (H1 & H2 & H3);
      [|simpl; rewrite length_drop; lia|done].
    split_and!; [done| |done]. etrans; [exact H2|]. apply suffix_cons_r.
    exists (take (w - 1) rest). by rewrite take_drop.
  - intros [= <- <- <-]. rewrite decode_cons, Hd. split_and!; [done..|simpl; lia].
  - intros [= <- <- <-]. rewrite decode_cons, Hd. by split_and!.
Qed.

(** Decoding goes on where it stopped. *)
Lemma decode_app a b :
  decode (a ++ b) =
  let '(text, rem, st) := decode a in
  match st with
  | Invalid len => (text, rem ++ b, Invalid len)
  | _ => let '(text', rem', st') := decode (rem ++ b) in (text ++ text', rem', st')
  end.
Proof.
  remember (length a) as n eqn:Hn. revert a Hn.
  induction n as [n IH] using lt_wf_ind. intros a ->.
  destruct a as [|b0 rest]; [simpl; by destruct (decode b) as [[? ?] ?]|].
  cbn [app]. rewrite !decode_cons. pose proof (decode_one_app b0 rest b) as Happ.
  destruct (decode_one b0 rest) as [c w| |len] eqn:Hd; rewrite ?Happ.
  - pose proof (decode_one_width _ _ _ _ Hd) as [Hw1 Hw2].
    rewrite drop_app_le by done. rewrite (IH (length (drop (w - 1) rest))); [|simpl; rewrite length_drop; lia|done].
    destruct (decode (drop (w - 1) rest)) as [[t r] [| |]]; try done;
      by destruct (decode (r ++ b)) as [[? ?] ?].
  - rewrite <- (app_comm_cons rest b b0), decode_cons.
    destruct (decode_one b0 (rest ++ b)); [|done..].
    by destruct (decode (drop _ (rest ++ b))) as [[? ?] ?].
  - done.
Qed.

Lemma from_utf8_Ok bs text : from_utf8 bs = Ok text ↔ decode bs = (text, [], AtEnd).
Proof.
  unfold from_utf8. destruct (decode bs) as [[t r] [| |]] eqn:Hd; [|naive_solver..].
  apply decode_stop in Hd as (_ & _ & ->). naive_solver.
Qed.

Lemma decode_one_take b0 rest c w :
  decode_one b0 rest = DChar c w → decode_one b0 (take (w - 1) rest) = DChar c w.
Proof.
  unfold decode_one. destruct (b0 <? 0x80)%N; [by intros [= <- <-]|].
  destruct (in_range 0xC2 0xDF b0).
  { destruct rest as [|b1 rest]; [done|]. destruct (is_cont b1) eqn:E; [|done]. intros [= <- <-]. simpl. by rewrite E. }
  destruct (in_range 0xE0 0xEF b0); [|destruct (in_range 0xF0 0xF4 b0); [|done]];
    destruct rest as [|b1 rest]; try done;
    destruct (negb (second_ok b0 b1)) eqn:E1; try done;
    destruct rest as [|b2 rest]; try done.
  - destruct (is_cont b2) eqn:E2; [|done]. intros [= <- <-]. simpl. by rewrite E1, E2.
  - destruct (negb (is_cont b2)) eqn:E2; [done|]. destruct rest as [|b3 rest]; [done|].
    destruct (is_cont b3) eqn:E3; [|done]. intros [= <- <-]. simpl. by rewrite E1, E2, E3.
Qed.

(** The valid prefix is a valid string. *)
Lemma decode_prefix bs text rem st :
  decode bs = (text, rem, st) → from_utf8 (take (length bs - length rem) bs) = Ok text.
Proof.
  intros Hd. apply from_utf8_Ok. remember (length bs) as n eqn:Hn. revert bs Hn text Hd.
  induction n as [n IH] using lt_wf_ind. intros bs -> text Hd.
  destruct bs as [|b0 rest]; [by injection Hd as <- <- <-|]. rewrite decode_cons in Hd.
  destruct (decode_one b0 rest) as [c w| |len] eqn:Hone;
    [|injection Hd as <- <- <-; by rewrite Nat.sub_diag..].
  destruct (decode (drop (w - 1) rest)) as [[t r] s] eqn:Hdec. injection Hd as <- <- <-.
  pose proof (decode_one_width _ _ _ _ Hone) as [Hw1 Hw2].
  pose proof (decode_stop _ _ _ _ Hdec) as (_ & Hsuf & _). apply suffix_length in Hsuf.
  rewrite length_drop in Hsuf.
  apply (IH (length (drop (w - 1) rest))) in Hdec; [|simpl; rewrite length_drop; lia|done].
  rewrite length_drop in Hdec. cbn [length].
  replace (S (length rest) - length r) with (S ((w - 1) + (length rest - (w - 1) - length r))) by lia.
  cbn [take]. rewrite <- take_take_drop, decode_cons.
  pose proof (decode_one_app b0 (take (w - 1) rest)
    (take (length rest - (w - 1) - length r) (drop (w - 1) rest))) as Happ.
  rewrite (decode_one_take _ _ _ _ Hone) in Happ. rewrite Happ.
  rewrite drop_app_length' by (rewrite length_take; lia). by rewrite Hdec.
Qed.

(** * Decoding a byte stream chunk by chunk *)

(** ** One push *)

(** Nothing is decoded exactly when nothing is consumed. *)
Lemma decode_text_length bs text rem st :
  decode bs = (text, rem, st) → length bs - length rem = 0 ↔ text = [].
Proof.
  intros Hd. destruct bs as [|b0 rest]; [by injection Hd as <- <- <-|]. rewrite decode_cons in Hd.
  destruct (decode_one b0 rest) as [c w| |len]; [|injection Hd as <- <- <-; simpl; naive_solver lia..].
  destruct (decode (drop (w - 1) rest)) as [[t r] s] eqn:Hdec. injection Hd as <- <- <-.
  pose proof (decode_stop _ _ _ _ Hdec) as (_ & Hsuf & _). apply suffix_length in Hsuf.
  rewrite length_drop in Hsuf. split; [simpl; lia|done].
Qed.

Lemma suffix_drop {A} (l k : list A) : l `suffix_of` k → drop (length k - length l) k = l.
Proof. intros [k' ->]. rewrite length_app, Nat.add_sub. by rewrite drop_app_length. Qed.

Section run.
Context {S : Type} {parser : StreamTextParser S}.
Implicit Types p : Utf8StreamParser S.

(** The invariant of the parser: the buffered bytes are the beginning of one code
    point that is not complete yet. *)
Definition settled p : Prop :=
  pending_utf8 p = [] ∨ decode (pending_utf8 p) = ([], pending_utf8 p, Truncated).

Lemma new_settled i : settled (new i).
Proof. by left. Qed.

Lemma settled_short p : settled p → length (pending_utf8 p) ≤ 3.
Proof. intros [->|Hd]; [simpl; lia|]. by apply decode_stop in Hd as (_ & _ & _ & ?). Qed.

(** The result of pushing the bytes that decode to [text] and leave [rem]. *)
Definition pushed p (text : str) (rem : list byte) (st : stop_reason) :
    Utf8StreamParser S * StreamTextChunk (Extracted S) :=
  match st, text with
  | Truncated, [] => (mkUtf8 (inner p) rem, default_out)
  | _, _ => let '(i, out) := push_str text (inner p) in (mkUtf8 i rem, out)
  end.

Lemma pushed_pending p text rem st : pending_utf8 (pushed p text rem st).1 = rem.
Proof. unfold pushed. destruct (push_str text (inner p)) eqn:E. by destruct st, text; rewrite ?E. Qed.

Lemma push_bytes_decode chunk p :
  push_bytes chunk p =
  let '(text, rem, st) := decode (pending_utf8 p ++ chunk) in
  match st with
  | Invalid len =>
      (p, Err (InvalidUtf8 (length (pending_utf8 p ++ chunk) - length rem) len))
  | _ => let '(p', out) := pushed p text rem st in (p', Ok out)
  end.
Proof.
  destruct p as [i pend]. unfold push_bytes. cbn [pending_utf8 inner].
  remember (pend ++ chunk) as bs eqn:Hbs. unfold from_utf8 at 1.
  destruct (decode bs) as [[text rem] st] eqn:Hd.
  pose proof (decode_prefix _ _ _ _ Hd) as Hpre. pose proof (decode_text_length _ _ _ _ Hd) as Hlen.
  pose proof (decode_stop _ _ _ _ Hd) as (_ & Hsuf & Hst). destruct st as [| |len]; cbn [error_len valid_up_to].
  - subst rem. unfold pushed. cbn [inner]. by destruct (push_str text i).
  - rewrite Hpre, suffix_drop by done. destruct (Nat.eqb_spec (length bs - length rem) 0) as [H0|H0].
    + apply Hlen in H0 as Ht. subst text. simpl. destruct Hsuf as [k ->]. rewrite length_app in H0.
      assert (k = []) as -> by (apply nil_length_inv; lia). done.
    + unfold pushed. cbn [inner]. destruct text; [naive_solver|]. by destruct (push_str _ i).
  - by rewrite Hbs, take_app_length.
Qed.

Lemma push_bytes_settled chunk p :
  settled p → settled (push_bytes chunk p).1.
Proof.
  intros Hp. rewrite push_bytes_decode.
  destruct (decode (pending_utf8 p ++ chunk)) as [[text rem] st] eqn:Hd.
  pose proof (decode_stop _ _ _ _ Hd) as (Hrem & _ & Hst).
  pose proof (pushed_pending p text rem st) as Hpend. unfold settled.
  destruct st; [| |done]; destruct (pushed p text rem _) as [p' out]; simpl in *; rewrite Hpend.
  - by left.
  - by right.
Qed.

(** ** A whole stream *)

Lemma utf8_finish_settled p :
  settled p →
  (utf8_finish p).2 =
  match pending_utf8 p with [] => Ok (run_chunks (inner p) []) | _ => Err IncompleteUtf8AtEof end.
Proof.
  unfold utf8_finish. intros [->|Hd].
  - simpl. destruct (finish (inner p)). simpl. by rewrite out_app_nil_l.
  - destruct (decode_stop _ _ _ _ Hd) as (_ & _ & Hne & _). unfold from_utf8. rewrite Hd.
    by destruct (pending_utf8 p).
Qed.

Lemma run_bytes_decode chunks p :
  settled p →
  let '(text, rem, st) := decode (pending_utf8 p ++ mjoin chunks) in
  match st with
  | AtEnd => ∃ pieces, mjoin pieces = text ∧ run_bytes p chunks = Ok (run_chunks (inner p) pieces)
  | Truncated => run_bytes p chunks = Err IncompleteUtf8AtEof
  | Invalid len => ∃ offset, run_bytes p chunks = Err (InvalidUtf8 offset len)
  end.
Proof.
  revert p. induction chunks as [|c chunks IH]; intros p Hp; cbn [run_bytes].
  - change (mjoin []) with (@nil byte). rewrite app_nil_r, utf8_finish_settled by done. destruct Hp as [->|Hd].
    + by exists [].
    + rewrite Hd. destruct (decode_stop _ _ _ _ Hd) as (_ & _ & Hne & _). by destruct (pending_utf8 p).
  - pose proof (push_bytes_settled c p Hp) as Hset. rewrite push_bytes_decode in *.
    change (mjoin (c :: chunks)) with (c ++ mjoin chunks). rewrite app_assoc, decode_app.
    destruct (decode (pending_utf8 p ++ c)) as [[text rem] st] eqn:Hd.
    destruct st as [| |len]; [..|by eexists].
    all: pose proof (pushed_pending p text rem) as Hpend.
    1: specialize (Hpend AtEnd); destruct (pushed p text rem AtEnd) as [p' out] eqn:Hpush.
    2: specialize (Hpend Truncated); destruct (pushed p text rem Truncated) as [p' out] eqn:Hpush.
    all: simpl in Hpend, Hset; specialize (IH p' Hset); rewrite Hpend in IH;
      destruct (decode (rem ++ mjoin chunks)) as [[text' rem'] [| |len']];
      [|by rewrite IH|by destruct IH as [o ->]; eexists].
    + destruct IH as (pieces & <- & ->). exists (text :: pieces). split; [done|].
      simpl. unfold pushed in Hpush. destruct (push_str text (inner p)) as [i o]. by injection Hpush as <- <-.
    + destruct IH as (pieces & <- & ->). unfold pushed in Hpush. destruct text as [|x text].
      * injection Hpush as <- <-. exists pieces. split; [done|]. simpl. by destruct (run_chunks (inner p) pieces).
      * exists ((x :: text) :: pieces). split; [done|]. simpl.
        destruct (push_str (x :: text) (inner p)) as [i o]. by injection Hpush as <- <-.
Qed.

End run.

(** A byte stream cut at any positions, inside of code points too, gives the
    wrapped parser the text that decoding all the bytes at once gives, in some pieces,
    and the outputs are those of the wrapped parser; bytes that are not UTF-8 as a whole
    make the run fail with the error of the whole, whatever the chunks. *)
Theorem run_bytes_decoded {S} `{StreamTextParser S} (i : S) chunks :
  match from_utf8 (mjoin chunks) with
  | Ok text =>
      ∃ pieces, mjoin pieces = text ∧ run_bytes (new i) chunks = Ok (run_chunks i pieces)
  | Err err =>
      match error_len err with
      | None => run_bytes (new i) chunks = Err IncompleteUtf8AtEof
      | Some len => ∃ offset, run_bytes (new i) chunks = Err (InvalidUtf8 offset len)
      end
  end.
Proof.
  pose proof (run_bytes_decode chunks (new i) (new_settled i)) as Hr. simpl in Hr.
  unfold from_utf8. by destruct (decode (mjoin chunks)) as [[text rem] [| |len]].
Qed.

(** The invariant of the byte parser: it holds back at most three bytes, the
    beginning of one code point; each push keeps this, a push that fails rolls back to
    the parser as it was before (the wrapped parser has seen nothing of the chunk), and
    a push that succeeds has decoded a prefix of the buffered and the new bytes and
    keeps the others. *)
Theorem push_bytes_rollback {S} `{StreamTextParser S} chunk (p : Utf8StreamParser S) :
  settled p →
  let '(p', r) := push_bytes chunk p in
  settled p' ∧ length (pending_utf8 p') ≤ 3 ∧
  match r with
  | Err _ => p' = p
  | Ok out =>
      ∃ seen text, pending_utf8 p ++ chunk = seen ++ pending_utf8 p' ∧ from_utf8 seen = Ok text ∧
        (text = [] ∧ inner p' = inner p ∧ out = default_out ∨
         push_str text (inner p) = (inner p', out))
  end.
Proof.
  intros Hp. pose proof (push_bytes_settled chunk p Hp) as Hset. revert Hset.
  rewrite push_bytes_decode.
  destruct (decode (pending_utf8 p ++ chunk)) as [[text rem] st] eqn:Hd.
  pose proof (decode_prefix _ _ _ _ Hd) as Hpre.
  pose proof (decode_stop _ _ _ _ Hd) as (_ & Hsuf & _).
  pose proof (take_drop (length (pending_utf8 p ++ chunk) - length rem) (pending_utf8 p ++ chunk)) as Hsplit.
  rewrite (suffix_drop _ _ Hsuf) in Hsplit.
  pose proof (pushed_pending p text rem st) as Hpend. unfold pushed in *.
  destruct st; simpl; [| |intros ?; split_and!; [done|by apply settled_short|done]].
  all: intros Hset.
  - destruct (push_str text (inner p)) as [i out] eqn:Hpush. simpl in *.
    split_and!; [done|by apply (settled_short _ Hset)|]. eexists _, text. split_and!; [done|done|by right].
  - destruct text as [|x text]; simpl in *.
    + split_and!; [done|by apply (settled_short _ Hset)|]. eexists _, []. split_and!; [done|done|by left].
    + destruct (push_str (x :: text) (inner p)) as [i out] eqn:Hpush. simpl in *.
      split_and!; [done|by apply (settled_short _ Hset)|]. eexists _, (x :: text). split_and!; [done|done|by right].
Qed.

(** The push of the second half of an "é" and the first byte of a three-byte code point. *)
Lemma push_bytes_rollback_witness :
  let p := mkUtf8 new_citations [0xC3%N] in
  let '(p', r) := push_bytes [0xA9; 0xE2]%N p in
  settled p' ∧ length (pending_utf8 p') ≤ 3 ∧
  match r with
  | Err _ => p' = p
  | Ok out =>
      ∃ seen text, pending_utf8 p ++ [0xA9; 0xE2]%N = seen ++ pending_utf8 p' ∧
        from_utf8 seen = Ok text ∧
        (text = [] ∧ inner p' = inner p ∧ out = default_out ∨
         push_str text (inner p) = (inner p', out))
  end.
Proof. apply (push_bytes_rollback [0xA9; 0xE2]%N (mkUtf8 new_citations [0xC3%N])). right. reflexivity. Defined.

(** Citations out of bytes.  For a reply whose bytes are UTF-8 and arrive cut at
    any positions, the byte parser around the citation parser succeeds and gives the
    visible text and the citations that [strip_citations] gives of the decoded reply. *)
Theorem citations_from_bytes chunks text :
  from_utf8 (mjoin chunks) = Ok text →
  run_bytes (Utf8Stream.new new_citations) chunks =
  Ok (mkOut (strip_citations text).1 (strip_citations text).2).
Proof.
  intros Htext.
  pose proof (run_bytes_decode chunks (Utf8Stream.new new_citations) (new_settled _)) as Hr. simpl in Hr.
  apply from_utf8_Ok in Htext. rewrite Htext in Hr. destruct Hr as (pieces & <- & Hrun).
  rewrite Hrun. pose proof (citation_run_strip pieces) as Hc. pose proof (citation_run_chunks new_citations pieces) as Hp.
  destruct (citation_run new_citations pieces) as [vs xs]. by rewrite Hc, Hp.
Qed.

Lemma citations_from_bytes_witness :
  run_bytes (Utf8Stream.new new_citations) [[0x61; 0xC3]; [0xA9]]%N =
  Ok (mkOut (strip_citations [0x61; 0xE9]%N).1 (strip_citations [0x61; 0xE9]%N).2).
Proof. apply (citations_from_bytes [[0x61; 0xC3]; [0xA9]]%N). reflexivity. Defined.
