(* ===== verification/HeadTailBuffer.v ===== *)
(** * HeadTailBuffer: output kept to a prefix and a suffix
    ([core/src/unified_exec/head_tail_buffer.rs])

    The capped buffer of the unified-exec tool: bytes go to a head until its budget
    is full, then to a tail that drops its oldest bytes, and the dropped bytes are
    counted.  A buffer is specified by the byte stream it stands for: [summary s] is
    the one buffer a stream [s] leads to, and the operations are shown to act on it as
    appending does on streams. *)
From S2P Require Import Prelude RustStr RustInt Utf8Stream.

(** [UNIFIED_EXEC_OUTPUT_MAX_BYTES]: 1 MiB. *)
Definition UNIFIED_EXEC_OUTPUT_MAX_BYTES : N := (1024 * 1024)%N.

(** [format_output_omission_marker]; the text is ASCII, so its chars are its bytes. *)
Definition format_output_omission_marker (omitted_bytes : N) : str :=
  lit "... " ++ fmt_N omitted_bytes ++ lit " bytes omitted ...".

Record HeadTailBuffer := mkBuffer {
  head : list byte;
  tail : list byte;
  omitted_bytes : N;
}.

#[export] Instance HeadTailBuffer_eq_dec : EqDecision HeadTailBuffer.
Proof. solve_decision. Defined.

(** [HeadTailBuffer::default()]. *)
Definition default_buffer : HeadTailBuffer := mkBuffer [] [] 0.

Section buffer.
Context (MAX_BYTES : nat).

Definition HEAD_BUDGET : nat := MAX_BYTES / 2.
Definition TAIL_BUDGET : nat := MAX_BYTES - HEAD_BUDGET.

Definition retained_bytes (b : HeadTailBuffer) : N := sat_add (len (head b)) (len (tail b)).
Definition total_bytes (b : HeadTailBuffer) : N := sat_add (retained_bytes b) (omitted_bytes b).

(** [fill_head]: the buffer, and the bytes that did not fit. *)
Definition fill_head (chunk : list byte) (b : HeadTailBuffer) : HeadTailBuffer * list byte :=
  let remaining_head := HEAD_BUDGET - length (head b) in
  let '(chunk_head, chunk_tail) :=
    if remaining_head <=? length chunk
    then (take remaining_head chunk, drop remaining_head chunk) else (chunk, []) in
  (mkBuffer (head b ++ chunk_head) (tail b) (omitted_bytes b), chunk_tail).

Definition push_tail (chunk : list byte) (b : HeadTailBuffer) : HeadTailBuffer :=
  let remaining_tail := TAIL_BUDGET - length (tail b) in
  let excess_tail := length chunk - remaining_tail in
  let omitted := sat_add (omitted_bytes b) (N.of_nat excess_tail) in
  let '(t, chunk) :=
    if excess_tail <? length (tail b) then (drop excess_tail (tail b), chunk)
    else ([], drop (excess_tail - length (tail b)) chunk) in
  mkBuffer (head b) (t ++ chunk) omitted.

Definition push_chunk (chunk : list byte) (b : HeadTailBuffer) : HeadTailBuffer :=
  let '(b, chunk) := fill_head chunk b in push_tail chunk b.

Definition to_bytes (b : HeadTailBuffer) : list byte := head b ++ tail b.

Definition to_bytes_with_omission_marker (b : HeadTailBuffer) : list byte :=
  if (omitted_bytes b =? 0)%N then to_bytes b
  else head b ++ [c_nl] ++ format_output_omission_marker (omitted_bytes b) ++ [c_nl] ++ tail b.

(** [push_buffer]; [VecDeque::as_slices] cuts the later buffer's tail where its ring
    wraps, at a position [k] the contents do not determine. *)
Definition push_buffer (k : nat) (buffer b : HeadTailBuffer) : HeadTailBuffer :=
  let b := mkBuffer (head b) (tail b) (sat_add (omitted_bytes b) (omitted_bytes buffer)) in
  let '(b, overflow) :=
    if bool_decide (head b = [])
    then (mkBuffer (head buffer) (tail b) (omitted_bytes b), [])
    else fill_head (head buffer) b in
  if length (tail buffer) =? TAIL_BUDGET then
    mkBuffer (head b) (tail buffer)
      (sat_add (sat_add (omitted_bytes b) (len (tail b))) (len overflow))
  else
    let b := push_tail overflow b in
    if bool_decide (tail b = []) then mkBuffer (head b) (tail buffer) (omitted_bytes b)
    else let '(first, second) := (take k (tail buffer), drop k (tail buffer)) in
         push_tail second (push_tail first b).

(** ** The stream a buffer stands for *)

(** The last [n] elements. *)
Definition last_n {A} (n : nat) (l : list A) : list A := drop (length l - n) l.

(** What is kept of a whole stream. *)
Definition summary (s : list byte) : HeadTailBuffer :=
  mkBuffer (take HEAD_BUDGET s) (last_n TAIL_BUDGET (drop HEAD_BUDGET s))
    (count (length s - MAX_BYTES)).

Lemma budgets : HEAD_BUDGET + TAIL_BUDGET = MAX_BYTES.
Proof.
  unfold TAIL_BUDGET, HEAD_BUDGET. pose proof (Nat.Div0.mul_div_le MAX_BYTES 2). lia.
Qed.

Lemma head_le_tail : HEAD_BUDGET ≤ TAIL_BUDGET.
Proof. unfold TAIL_BUDGET, HEAD_BUDGET. pose proof (Nat.Div0.mul_div_le MAX_BYTES 2). lia. Qed.

Lemma last_n_all {A} n (l : list A) : length l ≤ n → last_n n l = l.
Proof. intros ?. unfold last_n. by replace (length l - n) with 0 by lia. Qed.

Lemma length_last_n {A} n (l : list A) : length (last_n n l) = n `min` length l.
Proof. unfold last_n. rewrite length_drop. lia. Qed.

(** The newest elements of a concatenation. *)
Lemma last_n_app {A} n (l k : list A) :
  last_n n (l ++ k) = drop (length l + length k - n) l ++ drop (length k - n) k.
Proof.
  unfold last_n. rewrite length_app, drop_app.
  by replace (length l + length k - n - length l) with (length k - n) by lia.
Qed.

Lemma last_n_last_n_app {A} n (l k : list A) : last_n n (last_n n l ++ k) = last_n n (l ++ k).
Proof.
  rewrite !last_n_app. f_equal. unfold last_n. rewrite length_drop, drop_drop. f_equal. lia.
Qed.

(** The tail after a push: the newest bytes of the tail followed by the chunk. *)
Lemma push_tail_spec chunk b :
  length (tail b) ≤ TAIL_BUDGET →
  push_tail chunk b =
  mkBuffer (head b) (last_n TAIL_BUDGET (tail b ++ chunk))
    (sat_add (omitted_bytes b) (N.of_nat (length (tail b) + length chunk - TAIL_BUDGET))).
Proof.
  intros Hb. unfold push_tail. rewrite last_n_app.
  replace (length chunk - (TAIL_BUDGET - length (tail b)))
    with (length (tail b) + length chunk - TAIL_BUDGET) by lia.
  destruct (_ <? _) eqn:E.
  - apply Nat.ltb_lt in E. by replace (length chunk - TAIL_BUDGET) with 0 by lia.
  - apply Nat.ltb_ge in E. rewrite (drop_ge (tail b)) by lia.
    by replace (length (tail b) + length chunk - TAIL_BUDGET - length (tail b))
      with (length chunk - TAIL_BUDGET) by lia.
Qed.

Lemma fill_head_spec chunk b :
  length (head b) ≤ HEAD_BUDGET →
  fill_head chunk b =
  (mkBuffer (take HEAD_BUDGET (head b ++ chunk)) (tail b) (omitted_bytes b),
   drop (HEAD_BUDGET - length (head b)) chunk).
Proof.
  intros Hb. unfold fill_head. rewrite take_app, (take_ge (head b)) by lia.
  destruct (_ <=? _) eqn:E; [done|]. apply Nat.leb_gt in E. by rewrite take_ge, drop_ge by lia.
Qed.

(** ** The operations on summaries *)

Lemma summary_head_short s : length (head (summary s)) ≤ HEAD_BUDGET.
Proof. simpl. rewrite length_take. lia. Qed.

Lemma summary_tail_short s : length (tail (summary s)) ≤ TAIL_BUDGET.
Proof. simpl. rewrite length_last_n. lia. Qed.

Lemma drop_head_app (s c : list byte) :
  drop HEAD_BUDGET (s ++ c) = drop HEAD_BUDGET s ++ drop (HEAD_BUDGET - length s) c.
Proof. apply drop_app. Qed.

(** Pushing what is left of a chunk once the head is filled. *)
Lemma push_tail_summary s c d :
  push_tail (drop (HEAD_BUDGET - length s) c)
    (mkBuffer (take HEAD_BUDGET (s ++ d)) (last_n TAIL_BUDGET (drop HEAD_BUDGET s))
       (count (length s - MAX_BYTES))) =
  mkBuffer (take HEAD_BUDGET (s ++ d)) (last_n TAIL_BUDGET (drop HEAD_BUDGET (s ++ c)))
    (count (length s + length c - MAX_BYTES)).
Proof.
  pose proof budgets as Hb. rewrite push_tail_spec by apply (summary_tail_short s).
  cbn [head tail omitted_bytes]. rewrite drop_head_app, last_n_last_n_app. f_equal.
  rewrite count_add_len, length_last_n, !length_drop. f_equal. lia.
Qed.

Lemma push_chunk_summary s c : push_chunk c (summary s) = summary (s ++ c).
Proof.
  unfold push_chunk. rewrite fill_head_spec by apply summary_head_short.
  cbn [head tail omitted_bytes summary].
  assert (take HEAD_BUDGET (take HEAD_BUDGET s ++ c) = take HEAD_BUDGET (s ++ c)) as Ht.
  { rewrite !take_app, take_take, length_take. f_equal; f_equal; lia. }
  replace (drop (HEAD_BUDGET - length (take HEAD_BUDGET s)) c)
    with (drop (HEAD_BUDGET - length s) c) by (f_equal; rewrite length_take; lia).
  rewrite Ht, push_tail_summary. unfold summary. by rewrite length_app.
Qed.

(** Two pushes to the tail are one. *)
Lemma push_tail_app c1 c2 b :
  length (tail b) ≤ TAIL_BUDGET → push_tail c2 (push_tail c1 b) = push_tail (c1 ++ c2) b.
Proof.
  intros Hb. rewrite (push_tail_spec c1), (push_tail_spec (c1 ++ c2)) by done.
  rewrite push_tail_spec by (cbn [tail]; rewrite length_last_n; lia).
  cbn [head tail omitted_bytes]. rewrite last_n_last_n_app, app_assoc. f_equal.
  rewrite <- sat_add_assoc, length_last_n, !length_app. unfold sat_add. lia.
Qed.

(** The head of a concatenation, and what a later head has left over. *)
Lemma push_buffer_head (s1 s2 : list byte) om :
  (if bool_decide (take HEAD_BUDGET s1 = [])
   then (mkBuffer (take HEAD_BUDGET s2) (last_n TAIL_BUDGET (drop HEAD_BUDGET s1)) om, [])
   else fill_head (take HEAD_BUDGET s2)
          (mkBuffer (take HEAD_BUDGET s1) (last_n TAIL_BUDGET (drop HEAD_BUDGET s1)) om)) =
  (mkBuffer (take HEAD_BUDGET (s1 ++ s2)) (last_n TAIL_BUDGET (drop HEAD_BUDGET s1)) om,
   drop (HEAD_BUDGET - length s1) (take HEAD_BUDGET s2)).
Proof.
  case_bool_decide as Hs.
  - assert (HEAD_BUDGET `min` length s1 = 0) by by rewrite <- length_take, Hs.
    rewrite (drop_ge (take _ s2)) by (rewrite length_take; lia). do 2 f_equal.
    rewrite take_app, Hs. cbn [app]. f_equal. lia.
  - rewrite fill_head_spec by (cbn [head]; rewrite length_take; lia). cbn [head].
    rewrite !take_app, take_take, length_take, Nat.min_id, take_take.
    replace (HEAD_BUDGET - HEAD_BUDGET `min` length s1) with (HEAD_BUDGET - length s1) by lia.
    by rewrite Nat.min_l by lia.
Qed.

(** A full later tail is the tail of the concatenation. *)
Lemma last_n_drop_full (s1 s2 : list byte) :
  TAIL_BUDGET ≤ length s2 - HEAD_BUDGET →
  last_n TAIL_BUDGET (drop HEAD_BUDGET (s1 ++ s2)) = last_n TAIL_BUDGET (drop HEAD_BUDGET s2).
Proof.
  intros Hs. pose proof head_le_tail. unfold last_n. rewrite !length_drop, !drop_drop, length_app, drop_app.
  rewrite drop_ge by lia. cbn [app]. f_equal. lia.
Qed.

Lemma push_buffer_summary k s1 s2 :
  push_buffer k (summary s2) (summary s1) = summary (s1 ++ s2).
Proof.
  pose proof budgets as HM. unfold push_buffer. cbn [head tail omitted_bytes summary].
  rewrite push_buffer_head, length_last_n, length_drop. cbn [head tail omitted_bytes].
  case (Nat.eqb_spec (TAIL_BUDGET `min` (length s2 - HEAD_BUDGET)) TAIL_BUDGET) as [Hfull|Hpart].
  - unfold summary. rewrite last_n_drop_full by lia. f_equal. unfold len.
    rewrite length_last_n, !length_drop, length_take, length_app.
    rewrite count_add, !count_add_len. f_equal. lia.
  - rewrite (last_n_all TAIL_BUDGET (drop HEAD_BUDGET s2)) by (rewrite length_drop; lia).
    replace (sat_add _ _) with (count (length s1 - MAX_BYTES))
      by (rewrite count_add; f_equal; lia).
    pose proof (push_tail_summary s1 (take HEAD_BUDGET s2) s2) as Hp.
    rewrite length_take in Hp. unfold mbind in *. rewrite Hp. cbn [head tail omitted_bytes].
    case_bool_decide as Ht.
    + apply (f_equal length) in Ht. rewrite length_last_n, length_drop, length_app, length_take in Ht.
      cbn [length] in Ht. unfold summary. rewrite length_app, drop_app. f_equal; [|f_equal; lia].
      destruct (decide (s1 = [])) as [->|Hs1].
      * cbn [length app]. rewrite drop_nil, Nat.sub_0_r. cbn [app].
        by rewrite last_n_all by (rewrite length_drop; lia).
      * assert (length s1 ≠ 0) by by destruct s1. by rewrite !drop_ge by lia.
    + rewrite push_tail_app, take_drop, push_tail_spec
        by (cbn [tail]; rewrite length_last_n; lia).
      cbn [head tail omitted_bytes]. rewrite last_n_last_n_app.
      assert (HEAD_BUDGET < length s1 + HEAD_BUDGET `min` length s2) as Hlt.
      { destruct (decide (HEAD_BUDGET < length s1 + HEAD_BUDGET `min` length s2)); [done|].
        destruct Ht. rewrite drop_ge by (rewrite length_app, length_take; lia).
        by unfold last_n. }
      unfold summary. f_equal.
      * rewrite <- (take_drop HEAD_BUDGET s2) at 3. rewrite app_assoc.
        by rewrite (drop_app_le (s1 ++ _)) by (rewrite length_app, length_take; lia).
      * rewrite count_add_len, length_last_n, !length_drop, !length_app, length_take.
        f_equal. lia.
Qed.

(** The buffer after pushing the chunks in order. *)
Definition run_pushes (chunks : list (list byte)) : HeadTailBuffer :=
  foldl (λ b c, push_chunk c b) default_buffer chunks.

Lemma summary_nil : summary [] = default_buffer.
Proof. unfold summary, last_n. by rewrite take_nil, !drop_nil. Qed.

Lemma run_pushes_summary chunks : run_pushes chunks = summary (mjoin chunks).
Proof.
  unfold run_pushes. rewrite <- summary_nil. change (mjoin chunks) with ([] ++ mjoin chunks).
  generalize (@nil byte) as s. induction chunks as [|c chunks IH]; intros s; cbn [foldl].
  - by rewrite app_nil_r.
  - change (mjoin (c :: chunks)) with (c ++ mjoin chunks).
    by rewrite push_chunk_summary, IH, <- app_assoc.
Qed.

Lemma summary_short s : length s ≤ MAX_BYTES → to_bytes (summary s) = s ∧ omitted_bytes (summary s) = 0%N.
Proof.
  intros Hs. pose proof budgets. unfold to_bytes. cbn [head tail omitted_bytes summary].
  rewrite last_n_all by (rewrite length_drop; lia). rewrite take_drop. split; [done|].
  unfold count. lia.
Qed.
End buffer.

(** C37.  Whatever chunks the output of a process arrives in, the buffer is the summary
    of the stream they form: its first half budget of bytes, the newest bytes of the
    rest, and the count of the others.  Appending a later buffer, wherever its ring
    wraps, gives the buffer of the concatenated streams. *)
Theorem head_tail_buffer_stream MAX_BYTES chunks more k :
  run_pushes MAX_BYTES chunks = summary MAX_BYTES (mjoin chunks) ∧
  push_buffer MAX_BYTES k (run_pushes MAX_BYTES more) (run_pushes MAX_BYTES chunks) =
  run_pushes MAX_BYTES (chunks ++ more).
Proof.
  split; [apply run_pushes_summary|].
  rewrite !run_pushes_summary, push_buffer_summary. f_equal.
  induction chunks as [|c chunks IH]; [done|].
  change (mjoin (c :: chunks)) with (c ++ mjoin chunks). by rewrite <- app_assoc, IH.
Qed.

(** What is shown of a stream of bytes: never more than the cap of its own bytes;
    all of it when it fits; and otherwise its beginning and its end around a marker
    that states how many bytes were left out, the total being the stream's length. *)
Theorem head_tail_buffer_shown MAX_BYTES chunks :
  let s := mjoin chunks in
  let b := run_pushes MAX_BYTES chunks in
  (N.of_nat (length s) <= usize_max)%N →
  length (to_bytes b) = MAX_BYTES `min` length s ∧
  total_bytes b = len s ∧
  to_bytes_with_omission_marker b =
    (if length s <=? MAX_BYTES then s
     else take (MAX_BYTES / 2) s ++ [c_nl]
          ++ format_output_omission_marker (N.of_nat (length s - MAX_BYTES)) ++ [c_nl]
          ++ last_n (MAX_BYTES - MAX_BYTES / 2) s).
Proof.
  intros s b Hs. unfold b. rewrite run_pushes_summary. fold s.
  pose proof (budgets MAX_BYTES) as HM. pose proof (head_le_tail MAX_BYTES).
  assert (length (head (summary MAX_BYTES s)) = HEAD_BUDGET MAX_BYTES `min` length s) as Hh
    by apply length_take.
  assert (length (tail (summary MAX_BYTES s)) =
    TAIL_BUDGET MAX_BYTES `min` (length s - HEAD_BUDGET MAX_BYTES)) as Ht
    by (cbn [tail summary]; by rewrite length_last_n, length_drop).
  split_and!.
  - unfold to_bytes. rewrite length_app, Hh, Ht. lia.
  - unfold total_bytes, retained_bytes, len. rewrite Hh, Ht.
    cbn [omitted_bytes summary]. unfold sat_add, count. lia.
  - unfold to_bytes_with_omission_marker. case (Nat.leb_spec (length s) MAX_BYTES) as [Hle|Hlt].
    + destruct (summary_short MAX_BYTES s Hle) as [-> ->]. done.
    + assert (omitted_bytes (summary MAX_BYTES s) = N.of_nat (length s - MAX_BYTES)) as ->
        by (cbn [omitted_bytes summary]; unfold count; lia).
      rewrite (proj2 (N.eqb_neq _ 0)) by lia. cbn [head tail summary]. do 4 f_equal.
      unfold last_n. rewrite drop_drop, length_drop. f_equal. fold (HEAD_BUDGET MAX_BYTES).
      fold (TAIL_BUDGET MAX_BYTES). lia.
Qed.

Lemma head_tail_buffer_shown_witness :
  let b := run_pushes 4 [[1; 2]; [3]; [4; 5; 6]]%N in
  length (to_bytes b) = 4 ∧ total_bytes b = 6%N ∧
  to_bytes_with_omission_marker b =
    ([1; 2] ++ [c_nl] ++ format_output_omission_marker 2 ++ [c_nl] ++ [5; 6])%N.
Proof. apply (head_tail_buffer_shown 4 [[1; 2]; [3]; [4; 5; 6]]%N). vm_compute. discriminate. Defined.
