(* ===== verification/OutputStream.v ===== *)
(** * OutputStream: process output sent as frames
    ([core/src/unified_exec/async_watcher.rs])

    The task that reads a process appends each chunk to the transcript and emits it as
    [ExecCommandOutputDelta] frames: at most [MAX_BYTES] long, cut so that an incomplete
    UTF-8 scalar waits for its remaining bytes, and limited in number. *)
From S2P Require Import Prelude RustInt RustStr StreamText Utf8Stream HeadTailBuffer.

(** The longest UTF-8 scalar: [char::MAX.len_utf8()]. *)
Definition MAX_LEN_UTF8 : nat := 4.
Definition UNIFIED_EXEC_OUTPUT_DELTA_MAX_BYTES : N := 8192%N.
Definition MAX_EXEC_OUTPUT_DELTAS_PER_CALL : N := 10000%N.

(** ** Where a frame is cut *)

(** The scan from [boundary]; it starts at most three bytes before the end and every
    turn that goes on passes at least one byte, so four turns are enough. *)
Fixpoint utf8_boundary_loop (fuel boundary : nat) (bytes : list byte) : nat :=
  match fuel with
  | 0 => length bytes
  | S fuel =>
      if boundary <? length bytes then
        match from_utf8 (drop boundary bytes) with
        | Ok s => boundary + str_len s
        | Err error =>
            let boundary := boundary + valid_up_to error in
            match error_len error with
            | Some invalid_len => utf8_boundary_loop fuel (boundary + invalid_len) bytes
            | None => boundary
            end
        end
      else length bytes
  end.
Definition utf8_boundary (bytes : list byte) : nat :=
  utf8_boundary_loop 4 (length bytes - (MAX_LEN_UTF8 - 1)) bytes.

(** ** The emitter *)

(** The quota left, and the frames the session received so far. *)
Record Emitter := mkEmitter { remaining_deltas : nat; sent : list (list byte) }.

(** [make_chunk] changes what it captures, here [A]; it is only called while quota
    remains. *)
Definition emit {A} (make_chunk : A → list byte * A) (captured : A) (e : Emitter) :
    Emitter * A * bool :=
  match remaining_deltas e with
  | 0 => (e, captured, false)
  | S remaining =>
      let '(chunk, captured) := make_chunk captured in
      if bool_decide (chunk = []) then (e, captured, false)
      else (mkEmitter remaining (sent e ++ [chunk]), captured, true)
  end.

Record Buffer := mkOutput {
  pending : list byte;
  transcript : HeadTailBuffer;
  emitter : Emitter;
}.

Section frames.
Context (TRANSCRIPT_MAX_BYTES MAX_BYTES : nat).

(** [start_streaming_output]: an empty buffer with the whole quota. *)
Definition start (quota : nat) : Buffer := mkOutput [] default_buffer (mkEmitter quota []).

(** The closure of the first case of [push]: the producer's chunk is the frame. *)
Definition whole_chunk (bytes pending : list byte) : list byte * list byte :=
  let complete := utf8_boundary bytes in (take complete bytes, pending ++ drop complete bytes).

(** The closure [next_chunk] of the loop, over [pending] and the bytes left. *)
Definition next_chunk (st : list byte * list byte) : list byte * (list byte * list byte) :=
  let '(pending, bytes) := st in
  let space := MAX_BYTES - length pending in
  let '(prefix, rest) :=
    if space <=? length bytes then (take space bytes, drop space bytes) else (bytes, []) in
  let chunk := pending ++ prefix in
  let complete := utf8_boundary chunk in
  (take complete chunk, (drop complete chunk, rest)).

(** [while emitter.emit(&mut next_chunk).await {}]; [None] is running out of fuel. *)
Fixpoint emit_loop (fuel : nat) (st : list byte * list byte) (e : Emitter) :
    option (Emitter * (list byte * list byte)) :=
  match fuel with
  | 0 => None
  | S fuel =>
      match emit next_chunk st e with
      | (e, st, true) => emit_loop fuel st e
      | (e, st, false) => Some (e, st)
      end
  end.

(** [Buffer::push]; each turn of the loop sends at least one byte. *)
Definition push (bytes : list byte) (b : Buffer) : option Buffer :=
  let t := push_chunk TRANSCRIPT_MAX_BYTES bytes (transcript b) in
  if bool_decide (pending b = []) && (length bytes <=? MAX_BYTES) then
    let '(e, p, _) := emit (whole_chunk bytes) (pending b) (emitter b) in
    Some (mkOutput p t e)
  else
    '(e, (p, _)) ← emit_loop (S (length (pending b) + length bytes)) (pending b, bytes) (emitter b);
    Some (mkOutput p t e).

(** [Buffer::finish]: the emitter at the end. *)
Definition finish_output (b : Buffer) : Emitter :=
  (emit (λ p, (p, p)) (pending b) (emitter b)).1.1.

(** The task: every chunk received, in order, then the end of the output. *)
Fixpoint push_all (chunks : list (list byte)) (b : Buffer) : option Buffer :=
  match chunks with
  | [] => Some b
  | c :: chunks => b ← push c b; push_all chunks b
  end.
Definition stream_output (quota : nat) (chunks : list (list byte)) :
    option (Emitter * HeadTailBuffer) :=
  b ← push_all chunks (start quota); Some (finish_output b, transcript b).
End frames.

(** [String::from_utf8_lossy]: each invalid sequence becomes U+FFFD. *)
Fixpoint from_utf8_lossy_fuel (fuel : nat) (bs : list byte) : str :=
  match fuel with
  | 0 => []
  | S fuel =>
      let '(text, rem, st) := decode bs in
      match st with
      | AtEnd => text
      | Truncated => text ++ [0xFFFD%N]
      | Invalid n => text ++ [0xFFFD%N] ++ from_utf8_lossy_fuel fuel (drop n rem)
      end
  end.
Definition from_utf8_lossy (bs : list byte) : str := from_utf8_lossy_fuel (S (length bs)) bs.

(** [resolve_aggregated_output]. *)
Definition resolve_aggregated_output (t : HeadTailBuffer) (fallback : str) : str :=
  if (retained_bytes t =? 0)%N then fallback
  else from_utf8_lossy (to_bytes_with_omission_marker t).

(** The output texts of [emit_failed_exec_end_for_unified_exec]: stdout and the
    aggregated output. *)
Definition failed_exec_output (t : HeadTailBuffer) (fallback_output message : str) : str * str :=
  let stdout :=
    if bool_decide (fallback_output = []) then resolve_aggregated_output t fallback_output
    else fallback_output in
  (stdout, if bool_decide (stdout = []) then message else stdout ++ [c_nl] ++ message).

(** A snowman split over two chunks is sent whole; a frame never exceeds the limit. *)
Example stream_output_ex :
  (λ r, (r.1).(sent)) <$> stream_output 100 4 10 [[0x61; 0xE2]; [0x98]; [0x83; 0x62; 0x63; 0x64; 0x65; 0xC3]]%N
  = Some [[0x61]; [0xE2; 0x98; 0x83; 0x62]; [0x63; 0x64; 0x65]; [0xC3]]%N.
Proof. reflexivity. Qed.

(** * Frames are the stream, cut at char boundaries

    The theorems on [OutputStream]: the frames of a run concatenate to the bytes
    received, within their length and number; a valid stream is cut into valid frames;
    the transcript is the summary of the stream. *)

(** ** Decoded chars and their bytes *)

Ltac in_range_all :=
  repeat match goal with
  | H : in_range _ _ _ = true |- _ =>
      unfold in_range in H; apply andb_true_iff in H as [?%N.leb_le ?%N.leb_le]
  | H : in_range _ _ _ = false |- _ =>
      unfold in_range in H; apply andb_false_iff in H as [?%N.leb_gt|?%N.leb_gt]
  | H : (_ <? _)%N = true |- _ => apply N.ltb_lt in H
  | H : (_ <? _)%N = false |- _ => apply N.ltb_ge in H
  | H : (_ =? _)%N = true |- _ => apply N.eqb_eq in H
  | H : (_ =? _)%N = false |- _ => apply N.eqb_neq in H
  end.

(** A second byte is a continuation byte, and high enough after [E0] and [F0]. *)
Lemma second_ok_range b0 b1 :
  second_ok b0 b1 = true →
  (0x80 ≤ b1 ≤ 0xBF ∧ (b0 = 0xE0 → 0xA0 ≤ b1) ∧ (b0 = 0xF0 → 0x90 ≤ b1))%N.
Proof. unfold second_ok, is_cont. intros H. repeat case_match; in_range_all; lia. Qed.

Lemma is_cont_range b : is_cont b = true ↔ (0x80 ≤ b ≤ 0xBF)%N.
Proof. unfold is_cont, in_range. rewrite andb_true_iff, !N.leb_le. done. Qed.

Lemma len_utf8_range c :
  len_utf8 c =
  if decide (c < 0x80)%N then 1 else if decide (c < 0x800)%N then 2
  else if decide (c < 0x10000)%N then 3 else 4.
Proof.
  unfold len_utf8. repeat case_decide; repeat case_match; in_range_all; lia.
Qed.

(** A decoded char takes as many bytes as its encoding, and the bytes after the first
    are continuation bytes. *)
Lemma decode_one_DChar b0 rest c w :
  decode_one b0 rest = DChar c w →
  len_utf8 c = w ∧ Forall (λ b, is_cont b = true) (take (w - 1) rest).
Proof.
  unfold decode_one. intros H.
  repeat case_match; simplify_eq/=;
    repeat match goal with
    | H : negb _ = false |- _ => apply negb_false_iff in H
    | H : second_ok _ _ = true |- _ => apply second_ok_range in H
    | H : is_cont _ = true |- _ => apply is_cont_range in H
    end; in_range_all;
    (split; [rewrite len_utf8_range; repeat case_decide; lia|]);
    repeat (apply Forall_cons; split; [apply is_cont_range; lia|]); try constructor.
Qed.

Lemma decode_str_len bs text rem st :
  decode bs = (text, rem, st) → str_len text + length rem = length bs.
Proof.
  remember (length bs) as n eqn:Hn. revert bs text Hn.
  induction n as [n IH] using lt_wf_ind. intros bs text -> Hd.
  destruct bs as [|b0 rest]; [by injection Hd as <- <- <-|]. rewrite decode_cons in Hd.
  destruct (decode_one b0 rest) as [c w| |] eqn:Hone; [|injection Hd as <- <- <-; done..].
  pose proof (decode_one_width _ _ _ _ Hone) as [Hw1 Hw2].
  apply decode_one_DChar in Hone as [Hlen _].
  destruct (decode (drop (w - 1) rest)) as [[t r] s] eqn:Hdec. injection Hd as <- <- <-.
  apply (IH (length (drop (w - 1) rest))) in Hdec; [|simpl; rewrite length_drop; lia|done].
  rewrite length_drop in Hdec. cbn [str_len length]. lia.
Qed.

(** A continuation byte alone is invalid. *)
Lemma decode_cont b rest : is_cont b = true → decode (b :: rest) = ([], b :: rest, Invalid 1).
Proof.
  intros Hb%is_cont_range. rewrite decode_cons. unfold decode_one.
  repeat case_match; simplify_eq; in_range_all; try done; lia.
Qed.

Lemma decode_one_DInvalid b0 rest n : decode_one b0 rest = DInvalid n → 1 ≤ n ≤ S (length rest).
Proof. unfold decode_one. intros H. repeat case_match; simplify_eq/=; lia. Qed.

Lemma decode_Invalid bs text rem n :
  decode bs = (text, rem, Invalid n) → 1 ≤ n ≤ length rem.
Proof.
  intros Hd. apply decode_stop in Hd as (Hd & _ & Hrem). destruct rem as [|b0 rest]; [done|].
  rewrite decode_cons in Hd. destruct (decode_one b0 rest) as [c w| |] eqn:Hone; [|done|].
  - by destruct (decode (drop (w - 1) rest)) as [[? ?] ?].
  - injection Hd as ->. by apply decode_one_DInvalid in Hone.
Qed.

(** From any position, valid bytes are what is left of one char followed by chars. *)
Lemma decode_from bs text rem st p :
  decode bs = (text, rem, st) → p ≤ length bs - length rem →
  ∃ conts bs' text', drop p bs = conts ++ bs' ∧ Forall (λ b, is_cont b = true) conts ∧
    decode bs' = (text', rem, st).
Proof.
  remember (length bs) as n eqn:Hn. revert bs text p Hn.
  induction n as [n IH] using lt_wf_ind. intros bs text p -> Hd Hp.
  destruct (decide (p = 0)) as [->|Hp0]; [by exists [], bs, text; rewrite drop_0|].
  destruct bs as [|b0 rest]; [simpl in Hp; lia|]. pose proof Hd as Hd'. rewrite decode_cons in Hd'.
  destruct (decode_one b0 rest) as [c w| |] eqn:Hone;
    [|injection Hd' as <- <- <-; simpl in Hp; lia..].
  pose proof (decode_one_width _ _ _ _ Hone) as [Hw1 Hw2].
  apply decode_one_DChar in Hone as [_ Hc].
  destruct (decode (drop (w - 1) rest)) as [[t r] s] eqn:Hdec. injection Hd' as <- <- <-.
  destruct (decide (w ≤ p)) as [Hwp|Hwp].
  - destruct (IH (length (drop (w - 1) rest))) with (bs := drop (w - 1) rest) (text := t) (p := p - w)
      as (conts & bs' & text' & H1 & H2 & H3); [simpl; rewrite length_drop; lia|done|done| |].
    { rewrite length_drop. simpl in Hp. lia. }
    exists conts, bs', text'. split_and!; [|done..]. rewrite <- H1, drop_drop.
    destruct p as [|p]; [done|]. cbn [drop]. f_equal. lia.
  - exists (take (w - p) (drop (p - 1) rest)), (drop (w - 1) rest), t.
    split_and!; [| |done].
    + destruct p as [|p]; [done|]. cbn [drop]. rewrite <- (take_drop (w - S p) (drop p rest)) at 1.
      rewrite drop_drop. repeat f_equal; lia.
    + replace (w - p) with (w - 1 - (p - 1)) by lia. rewrite take_drop_commute.
      replace (p - 1 + (w - 1 - (p - 1))) with (w - 1) by lia. by apply Forall_drop.
Qed.

(** ** Where a frame is cut *)

Lemma utf8_boundary_loop_bounds fuel b bs :
  b ≤ length bs → b ≤ utf8_boundary_loop fuel b bs ≤ length bs.
Proof.
  revert b. induction fuel as [|fuel IH]; intros b Hb; cbn [utf8_boundary_loop]; [lia|].
  case_match; [|lia]. unfold from_utf8.
  destruct (decode (drop b bs)) as [[text rem] st] eqn:Hd.
  pose proof (decode_str_len _ _ _ _ Hd) as Hl. rewrite length_drop in Hl.
  destruct st as [| |n]; cbn [valid_up_to error_len]; rewrite ?length_drop; [lia|lia|].
  apply decode_Invalid in Hd.
  assert (b + (length bs - b - length rem) + n ≤ length bs) as Hn by lia.
  specialize (IH _ Hn). lia.
Qed.

Lemma utf8_boundary_bounds bs : length bs - 3 ≤ utf8_boundary bs ≤ length bs.
Proof. apply utf8_boundary_loop_bounds. lia. Qed.

(** The scan passes the rest of a char and stops where decoding stops. *)
Lemma utf8_boundary_loop_from fuel b bs conts bs' text rem st :
  drop b bs = conts ++ bs' → Forall (λ b, is_cont b = true) conts →
  decode bs' = (text, rem, st) → (∀ n, st ≠ Invalid n) → length conts < fuel → b ≤ length bs →
  utf8_boundary_loop fuel b bs = length bs - length rem.
Proof.
  intros Hdrop Hc. revert fuel b Hdrop.
  induction Hc as [|c conts Hc Hcs IH]; intros fuel b Hdrop Hd Hst Hf Hb;
    (destruct fuel as [|fuel]; [simpl in Hf; lia|]); cbn [utf8_boundary_loop];
    pose proof (f_equal length Hdrop) as Hlen; rewrite length_drop, length_app in Hlen.
  - cbn [app length] in *. rewrite Hdrop. unfold from_utf8. rewrite Hd.
    pose proof (decode_str_len _ _ _ _ Hd). pose proof (decode_stop _ _ _ _ Hd) as (_ & _ & Hrem).
    destruct (Nat.ltb_spec b (length bs)) as [Hlt|Hge].
    + destruct st as [| |n]; [|cbn [valid_up_to error_len]; lia|by destruct (Hst n)].
      subst rem. cbn [length]. simpl in *. lia.
    + destruct st as [| |n]; [subst rem; simpl; lia|simpl in *; lia|by destruct (Hst n)].
  - cbn [length] in Hlen, Hf. rewrite (proj2 (Nat.ltb_lt _ _)) by lia.
    rewrite Hdrop. cbn [app]. unfold from_utf8. rewrite decode_cont by done.
    cbn [valid_up_to error_len]. rewrite Nat.sub_diag, Nat.add_0_r.
    apply IH; [|done|done|lia|lia].
    by rewrite <- drop_drop, Hdrop.
Qed.

Lemma utf8_boundary_decode bs text rem st :
  decode bs = (text, rem, st) → (∀ n, st ≠ Invalid n) →
  utf8_boundary bs = length bs - length rem.
Proof.
  intros Hd Hst. assert (length rem ≤ 3) as Hrem.
  { pose proof (decode_stop _ _ _ _ Hd) as (_ & _ & H).
    destruct st as [| |n]; [subst; simpl; lia|by destruct H|by destruct (Hst n)]. }
  pose proof (decode_str_len _ _ _ _ Hd) as Hlen.
  destruct (decode_from bs text rem st (length bs - 3)) as (conts & bs' & text' & H1 & H2 & H3);
    [done|lia|].
  apply (utf8_boundary_loop_from 4 _ bs conts bs' text' rem st H1 H2 H3 Hst);
    [|unfold MAX_LEN_UTF8; lia].
  apply (f_equal length) in H1. rewrite length_drop, length_app in H1. lia.
Qed.

(** ** Valid bytes *)

Definition valid_utf8 (bs : list byte) : bool := is_ok (from_utf8 bs).

Lemma valid_utf8_decode bs : valid_utf8 bs = true ↔ ∃ text, decode bs = (text, [], AtEnd).
Proof.
  unfold valid_utf8. split.
  - destruct (from_utf8 bs) as [text|] eqn:E; [|done]. intros _. apply from_utf8_Ok in E. eauto.
  - intros [text Hd]. apply from_utf8_Ok in Hd. by rewrite Hd.
Qed.

(** After valid bytes, validity is that of what follows. *)
Lemma valid_utf8_app a b : valid_utf8 a = true → valid_utf8 (a ++ b) = valid_utf8 b.
Proof.
  intros [text Ha]%valid_utf8_decode. unfold valid_utf8, from_utf8. rewrite decode_app, Ha.
  cbn [app]. by destruct (decode b) as [[text' rem] [| |]].
Qed.

Lemma valid_utf8_join fs : Forall (λ f, valid_utf8 f = true) fs → valid_utf8 (mjoin fs) = true.
Proof.
  induction 1 as [|f fs Hf Hfs IH]; [done|].
  change (mjoin (f :: fs)) with (f ++ mjoin fs). by rewrite valid_utf8_app.
Qed.

(** The beginning of valid bytes is cut into valid bytes. *)
Lemma cut_valid chunk future :
  valid_utf8 (chunk ++ future) = true → valid_utf8 (take (utf8_boundary chunk) chunk) = true.
Proof.
  intros [text Hd]%valid_utf8_decode. rewrite decode_app in Hd.
  destruct (decode chunk) as [[t rem] st] eqn:Hc.
  assert (∀ n, st ≠ Invalid n) as Hst by (intros n ->; done).
  rewrite (utf8_boundary_decode _ _ _ _ Hc Hst). apply decode_prefix in Hc.
  unfold valid_utf8. by rewrite Hc.
Qed.

(** ** The frames of a run *)

Section frames.
Context (TRANSCRIPT_MAX_BYTES MAX_BYTES : nat) (Hmax : MAX_LEN_UTF8 ≤ MAX_BYTES).

Definition frame_ok (f : list byte) : Prop := f ≠ [] ∧ length f ≤ MAX_BYTES.

(** What an emitter with the quota [q] and the bytes [p] held back have sent of the
    stream [s]. *)
Record accounted (q : nat) (s : list byte) (e : Emitter) (p : list byte) : Prop := {
  acc_frames : Forall frame_ok (sent e);
  acc_quota : length (sent e) + remaining_deltas e = q;
  acc_pending : length p ≤ 3;
  acc_stream : ∃ rest, mjoin (sent e) ++ rest = s ∧ (remaining_deltas e ≠ 0 → rest = p);
  acc_utf8 : ∀ future, valid_utf8 (s ++ future) = true →
    Forall (λ f, valid_utf8 f = true) (sent e);
}.

Lemma accounted_start q : accounted q [] (mkEmitter q []) [].
Proof. constructor; simpl; [done|done|lia|by exists []|done]. Qed.

(** Once the quota is used, what arrives is not sent. *)
Lemma accounted_exhausted q s e p x :
  remaining_deltas e = 0 → accounted q s e p → accounted q (s ++ x) e p.
Proof.
  intros He [? ? ? (rest & Hs & _) Hu]. constructor; [done|done|done| |].
  - exists (rest ++ x). rewrite app_assoc, Hs. naive_solver.
  - intros future Hv. apply (Hu (x ++ future)). by rewrite app_assoc.
Qed.

(** One frame: the bytes held back and [x], cut where a char ends. *)
Lemma accounted_emit q s e p x n :
  remaining_deltas e = S n → length (p ++ x) ≤ MAX_BYTES → accounted q s e p →
  let k := utf8_boundary (p ++ x) in
  accounted q (s ++ x)
    (if bool_decide (take k (p ++ x) = []) then e else mkEmitter n (sent e ++ [take k (p ++ x)]))
    (drop k (p ++ x)).
Proof.
  intros He Hl [Hf Hq Hp (rest & Hs & Hrest) Hu] k. specialize (Hrest ltac:(lia)). subst rest.
  pose proof (utf8_boundary_bounds (p ++ x)) as Hk. fold k in Hk.
  assert (length (drop k (p ++ x)) ≤ 3) by (rewrite length_drop; lia).
  assert (∀ future, valid_utf8 ((s ++ x) ++ future) = true →
    Forall (λ f, valid_utf8 f = true) (sent e)) as Hu'.
  { intros future Hv. apply (Hu (x ++ future)). by rewrite app_assoc. }
  case_bool_decide as Hk0.
  - constructor; [done..| |done]. exists (drop k (p ++ x)). split; [|done].
    assert (drop k (p ++ x) = p ++ x) as ->.
    { rewrite <- (take_drop k (p ++ x)) at 2. by rewrite Hk0. }
    by rewrite app_assoc, Hs.
  - constructor; cbn [sent remaining_deltas]; [| |done| |].
    + apply Forall_app. split; [done|]. apply Forall_singleton. split; [done|].
      rewrite length_take. lia.
    + rewrite length_app. simpl. lia.
    + exists (drop k (p ++ x)). split; [|done].
      rewrite join_app. simpl. rewrite app_nil_r.
      rewrite <- !app_assoc, take_drop. by rewrite app_assoc, Hs.
    + intros future Hv. pose proof (Hu' future Hv) as Hsent.
      apply Forall_app. split; [done|]. apply Forall_singleton. apply (cut_valid _ future).
      rewrite <- (valid_utf8_app (mjoin (sent e))) by by apply valid_utf8_join.
      by rewrite !app_assoc, Hs in *.
Qed.

Lemma emit_loop_accounted q fuel s e p bytes :
  accounted q s e p → length p + length bytes < fuel →
  ∃ e' p' bytes', emit_loop MAX_BYTES fuel (p, bytes) e = Some (e', (p', bytes')) ∧
    accounted q (s ++ bytes) e' p'.
Proof.
  revert s e p bytes. induction fuel as [|fuel IH]; intros s e p bytes Hacc Hf; [lia|].
  cbn [emit_loop]. unfold emit. destruct (remaining_deltas e) as [|n] eqn:He.
  { exists e, p, bytes. split; [done|]. by apply accounted_exhausted. }
  unfold next_chunk. pose proof (acc_pending _ _ _ _ Hacc) as Hp. unfold MAX_LEN_UTF8 in Hmax.
  set (prefix := take (MAX_BYTES - length p) bytes).
  set (rest := drop (MAX_BYTES - length p) bytes).
  assert ((if MAX_BYTES - length p <=? length bytes then (prefix, rest) else (bytes, [])) =
    (prefix, rest)) as ->.
  { destruct (Nat.leb_spec (MAX_BYTES - length p) (length bytes)); [done|].
    unfold prefix, rest. by rewrite take_ge, drop_ge by lia. }
  assert (length prefix = (MAX_BYTES - length p) `min` length bytes) as Hpre by apply length_take.
  assert (length rest = length bytes - (MAX_BYTES - length p)) as Hrest by apply length_drop.
  assert (prefix ++ rest = bytes) as Hbytes by apply take_drop.
  assert (length (p ++ prefix) ≤ MAX_BYTES) as Hlen by (rewrite length_app; lia).
  pose proof (accounted_emit q s e p prefix n He Hlen Hacc) as Hacc'. cbv zeta in Hacc'.
  set (chunk := p ++ prefix) in *.
  pose proof (utf8_boundary_bounds chunk) as Hk. set (k := utf8_boundary chunk) in *.
  assert (length chunk = length p + length prefix) as Hchunk by apply length_app.
  case_bool_decide as Hk0.
  - exists e, (drop k chunk), rest. split; [done|].
    apply (f_equal length) in Hk0. rewrite length_take in Hk0. cbn [length] in Hk0.
    assert (rest = []) as Hr by (apply nil_length_inv; lia).
    by rewrite <- Hbytes, Hr, app_nil_r.
  - destruct (IH _ _ _ rest Hacc') as (e' & p' & bytes' & Hloop & Hacc2).
    { assert (length (take k chunk) ≠ 0) as Hne by by intros ?%nil_length_inv.
      rewrite length_take in Hne. rewrite length_drop. lia. }
    exists e', p', bytes'. split; [done|]. by rewrite <- app_assoc, Hbytes in Hacc2.
Qed.

(** The state of the task after the stream [s] was received. *)
Definition received (q : nat) (s : list byte) (b : Buffer) : Prop :=
  transcript b = summary TRANSCRIPT_MAX_BYTES s ∧ accounted q s (emitter b) (pending b).

Lemma push_received q s b c :
  received q s b → ∃ b', push TRANSCRIPT_MAX_BYTES MAX_BYTES c b = Some b' ∧ received q (s ++ c) b'.
Proof.
  intros [Ht Hacc]. unfold push, received. rewrite Ht, push_chunk_summary.
  destruct (bool_decide (pending b = []) && (length c <=? MAX_BYTES)) eqn:Hcase.
  - apply andb_true_iff in Hcase as [Hp%bool_decide_eq_true Hc%Nat.leb_le].
    rewrite Hp in *. unfold emit, whole_chunk. destruct (remaining_deltas (emitter b)) as [|n] eqn:He.
    + eexists. split; [done|]. split; [done|]. by apply accounted_exhausted.
    + pose proof (accounted_emit q s (emitter b) [] c n He Hc Hacc) as Hacc'. cbn [app] in *.
      case_bool_decide; (eexists; split; [done|]; split; [done|]; done).
  - destruct (emit_loop_accounted q (S (length (pending b) + length c)) s (emitter b) (pending b) c Hacc)
      as (e' & p' & bytes' & Hloop & Hacc'); [lia|].
    rewrite Hloop. eexists. by split.
Qed.

Lemma push_all_received q s b chunks :
  received q s b →
  ∃ b', push_all TRANSCRIPT_MAX_BYTES MAX_BYTES chunks b = Some b' ∧ received q (s ++ mjoin chunks) b'.
Proof.
  revert s b. induction chunks as [|c chunks IH]; intros s b Hb; cbn [push_all].
  - exists b. rewrite app_nil_r. done.
  - destruct (push_received q s b c Hb) as (b1 & -> & Hb1).
    destruct (IH _ _ Hb1) as (b2 & Hb2 & Hr). exists b2. split; [done|].
    change (mjoin (c :: chunks)) with (c ++ mjoin chunks). by rewrite app_assoc.
Qed.

(** The end of the output: everything was sent unless the quota is used. *)
Lemma finish_output_received q s b :
  received q s b →
  let e := finish_output b in
  Forall frame_ok (sent e) ∧ length (sent e) ≤ q ∧
  (∃ rest, mjoin (sent e) ++ rest = s ∧ (rest ≠ [] → length (sent e) = q)) ∧
  (valid_utf8 s = true → Forall (λ f, valid_utf8 f = true) (sent e)).
Proof.
  intros [_ [Hf Hq Hp (rest & Hs & Hrest) Hu]]. unfold finish_output, emit.
  assert (valid_utf8 s = true → Forall (λ f, valid_utf8 f = true) (sent (emitter b))) as Hu0.
  { intros Hv. apply (Hu []). by rewrite app_nil_r. }
  destruct (remaining_deltas (emitter b)) as [|n] eqn:He; cbn [fst].
  { split_and!; [done|lia| |done]. exists rest. split; [done|]. lia. }
  specialize (Hrest ltac:(lia)). subst rest. case_bool_decide as Hp0; cbn [fst sent].
  - split_and!; [done|lia| |done]. exists []. rewrite Hp0 in Hs. naive_solver.
  - rewrite length_app. cbn [length]. split_and!; [|lia| |].
    + apply Forall_app. split; [done|]. apply Forall_singleton. split; [done|].
      unfold MAX_LEN_UTF8 in Hmax. lia.
    + exists []. rewrite app_nil_r, join_app. simpl. by rewrite app_nil_r, Hs.
    + intros Hv. apply Forall_app. split; [by apply Hu0|]. apply Forall_singleton.
      rewrite <- (valid_utf8_app (mjoin (sent (emitter b)))); [by rewrite Hs|].
      by apply valid_utf8_join, Hu0.
Qed.
End frames.

(** The task that streams a process's output ends for any chunks, and its frames
    are the stream: each is not empty and within the limit, they are at most the
    quota, and together they are the bytes received, up to where the quota was used.
    The transcript is the summary of the whole stream, and when the stream is valid
    UTF-8 each frame is. *)
Theorem stream_output_frames TRANSCRIPT_MAX_BYTES MAX_BYTES quota chunks :
  MAX_LEN_UTF8 ≤ MAX_BYTES →
  ∃ e, stream_output TRANSCRIPT_MAX_BYTES MAX_BYTES quota chunks =
         Some (e, summary TRANSCRIPT_MAX_BYTES (mjoin chunks)) ∧
    Forall (frame_ok MAX_BYTES) (sent e) ∧ length (sent e) ≤ quota ∧
    (∃ rest, mjoin (sent e) ++ rest = mjoin chunks ∧ (rest ≠ [] → length (sent e) = quota)) ∧
    (valid_utf8 (mjoin chunks) = true → Forall (λ f, valid_utf8 f = true) (sent e)).
Proof.
  intros Hmax.
  destruct (push_all_received TRANSCRIPT_MAX_BYTES MAX_BYTES Hmax quota [] (start quota) chunks)
    as (b & Hb & Hr).
  { split; [symmetry; apply summary_nil|by apply accounted_start]. }
  exists (finish_output b). unfold stream_output. rewrite Hb. cbn. destruct Hr as [Ht Hacc].
  rewrite Ht. split; [done|]. by apply (finish_output_received TRANSCRIPT_MAX_BYTES).
Qed.

Lemma stream_output_frames_witness :
  ∃ e, stream_output 8 4 2 [[0x61; 0xE2]; [0x98; 0x83; 0x62; 0x63]]%N =
         Some (e, summary 8 [0x61; 0xE2; 0x98; 0x83; 0x62; 0x63]%N) ∧
    Forall (frame_ok 4) (sent e) ∧ length (sent e) ≤ 2 ∧
    (∃ rest, mjoin (sent e) ++ rest = [0x61; 0xE2; 0x98; 0x83; 0x62; 0x63]%N ∧
       (rest ≠ [] → length (sent e) = 2)) ∧
    (valid_utf8 [0x61; 0xE2; 0x98; 0x83; 0x62; 0x63]%N = true →
       Forall (λ f, valid_utf8 f = true) (sent e)).
Proof.
  apply (stream_output_frames 8 4 2 [[0x61; 0xE2]; [0x98; 0x83; 0x62; 0x63]]%N).
  unfold MAX_LEN_UTF8. lia.
Defined.
