(* ===== verification/Readiness.v ===== *)
(** * Readiness: a flag marked ready by token holders
    ([utils/readiness/src/lib.rs])

    [ReadinessFlag] as a transition system.  Each call is a thread; a step is one access
    to the shared state (an atomic, the token lock, the watch channel), so that a
    schedule is any interleaving the code allows.  Tokio's mutex and watch channel are
    interfaces whose laws are their documented contracts. *)
From stdpp Require Import sets.
From stdpp Require Import sets fin_maps infinite.
From S2P Require Import Prelude.

(** ** Tokio's primitives *)

Class MutexOps (L : Type) := {
  mutex_new : L;
  (** The mutex with the lock taken, when it was free. *)
  try_lock : L → option L;
  unlock : L → L;
}.

Class MutexLaws (L : Type) `{MutexOps L} : Prop := {
  mutex_new_free : is_Some (try_lock mutex_new);
  try_lock_held l l' : try_lock l = Some l' → try_lock l' = None;
  unlock_free l : try_lock l = None → is_Some (try_lock (unlock l));
}.

(** A [tokio::sync::watch] channel of a [bool]: [W] is the channel with what each
    receiver has seen, [Rx] a receiver. *)
Class WatchOps (W Rx : Type) := {
  new_channel : bool → W * Rx;
  subscribe_rx : W → W * Rx;
  drop_rx : Rx → W → W;
  (** The channel, and whether the value was sent. *)
  send : bool → W → W * bool;
  borrow : W → bool;
  (** A value the receiver has not seen: [changed().await] returns and marks it seen. *)
  has_changed : Rx → W → bool;
  mark_seen : Rx → W → W;
}.

Class WatchLaws (W Rx : Type) `{WatchOps W Rx} := {
  live : Rx → W → Prop;
  new_channel_borrow v : borrow (new_channel v).1 = v;
  new_channel_live v r : live r (new_channel v).1 ↔ r = (new_channel v).2;
  (** Earlier messages are marked as seen by a new receiver. *)
  subscribe_fresh w : ¬ live (subscribe_rx w).2 w;
  subscribe_live w r : live r (subscribe_rx w).1 ↔ live r w ∨ r = (subscribe_rx w).2;
  subscribe_borrow w : borrow (subscribe_rx w).1 = borrow w;
  subscribe_seen w : has_changed (subscribe_rx w).2 (subscribe_rx w).1 = false;
  subscribe_other w r : live r w → has_changed r (subscribe_rx w).1 = has_changed r w;
  drop_live rx w r : live r (drop_rx rx w) ↔ live r w ∧ r ≠ rx;
  drop_borrow rx w : borrow (drop_rx rx w) = borrow w;
  drop_other rx w r : r ≠ rx → has_changed r (drop_rx rx w) = has_changed r w;
  (** Without a receiver [send] fails and the value is not made available to later
      receivers. *)
  send_closed v w : (∀ r, ¬ live r w) → (send v w).2 = false;
  send_failed v w : (send v w).2 = false → (send v w).1 = w;
  send_open v w r : live r w → (send v w).2 = true;
  send_borrow v w : (send v w).2 = true → borrow (send v w).1 = v;
  send_live v w r : live r (send v w).1 ↔ live r w;
  send_changed v w r : live r w → has_changed r (send v w).1 = true;
  seen_live rx w r : live r (mark_seen rx w) ↔ live r w;
  seen_borrow rx w : borrow (mark_seen rx w) = borrow w;
  seen_other rx w r : r ≠ rx → has_changed r (mark_seen rx w) = has_changed r w;
}.

(** ** The flag *)

(** [Token(i32)]. *)
Abbreviation Token := Z (only parsing).

(** [fetch_add] on an [AtomicI32] wraps around. *)
Definition wrap_i32 (z : Z) : Z := (z + 2 ^ 31) `mod` 2 ^ 32 - 2 ^ 31.

Inductive ReadinessError := TokenLockFailed | FlagAlreadyReady.

(** What a call returns. *)
Inductive returned :=
| RIsReady (b : bool)
| RSubscribe (r : result ReadinessError Token)
| RMarkReady (r : result ReadinessError bool)
| RWaitReady.

(** [is_ready] is called on its own or at the start of [wait_ready]. *)
Inductive caller := Direct | InWait.

Section flag.
Context {L W Rx : Type} {mutex_ops : MutexOps L} {watch_ops : WatchOps W Rx}.

(** Where a call is: the access it makes next. *)
Inductive pc :=
| IsReady_load (k : caller)                        (* self.load_ready() *)
| IsReady_try_lock (k : caller)                    (* self.tokens.try_lock() *)
| IsReady_locked (k : caller)                      (* tokens.is_empty(), then swap *)
| IsReady_drop (k : caller) (was_ready : bool)     (* drop(tokens) after the swap *)
| IsReady_send (k : caller)                        (* self.tx.send(true) *)
| IsReady_skip (k : caller)                        (* tokens not empty: guard dropped *)
| IsReady_last (k : caller)                        (* the final self.load_ready() *)
| Subscribe_load | Subscribe_lock | Subscribe_locked
| Subscribe_unlock (token : option Token)
| Mark_load (t : Token) | Mark_lock (t : Token) | Mark_locked (t : Token)
| Mark_clear                                       (* set.clear() after the store *)
| Mark_unlock (marked : bool)
| Mark_send
| Wait_subscribe                                   (* self.tx.subscribe() *)
| Wait_borrow (rx : Rx)                            (* the check before awaiting *)
| Wait_changed (rx : Rx)                           (* rx.changed().await *)
| Wait_check (rx : Rx)                             (* the check after a change *)
| Return (r : returned).

Record ReadinessFlag := mkFlag {
  ready : bool;
  next_id : Z;
  lock : L;
  tokens : gset Token;
  tx : W;
}.

(** The flag and the calls made on it. *)
Record system := mkSystem { flag : ReadinessFlag; threads : gmap nat pc }.

(** [ReadinessFlag::new]: the first receiver is dropped at once. *)
Definition new_flag : ReadinessFlag :=
  let '(w, rx) := new_channel false in mkFlag false 1 mutex_new ∅ (drop_rx rx w).

Definition set_ready b f := mkFlag b (next_id f) (lock f) (tokens f) (tx f).
Definition set_lock l f := mkFlag (ready f) (next_id f) l (tokens f) (tx f).
Definition set_tokens ts f := mkFlag (ready f) (next_id f) (lock f) ts (tx f).
Definition set_tx w f := mkFlag (ready f) (next_id f) (lock f) (tokens f) w.

(** The loop of [subscribe]: the next id that is not zero and not in use.  One of the
    first [size ts + 2] ids is, there being that few others. *)
Fixpoint fresh_token (fuel : nat) (id : Z) (ts : gset Token) : option (Token * Z) :=
  match fuel with
  | 0 => None
  | S fuel =>
      if bool_decide (id ≠ 0%Z ∧ id ∉ ts) then Some (id, wrap_i32 (id + 1)%Z)
      else fresh_token fuel (wrap_i32 (id + 1)%Z) ts
  end.

(** Where [is_ready] goes with its answer. *)
Definition is_ready_returns (k : caller) (b : bool) : pc :=
  match k, b with
  | Direct, _ => Return (RIsReady b)
  | InWait, true => Return RWaitReady
  | InWait, false => Wait_subscribe
  end.

(** A step of a call, by itself or with its lock timeout; [None] when it waits or has
    returned. *)
Inductive action := Run | LockTimeout.

Definition acquire (f : ReadinessFlag) (p : pc) : option (ReadinessFlag * pc) :=
  l ← try_lock (lock f); Some (set_lock l f, p).

(** [time::timeout] fires only while the lock is held by another call. *)
Definition acquire_timeout (f : ReadinessFlag) (r : returned) : option (ReadinessFlag * pc) :=
  match try_lock (lock f) with Some _ => None | None => Some (f, Return r) end.

Definition release (f : ReadinessFlag) : ReadinessFlag := set_lock (unlock (lock f)) f.

Definition pc_step (a : action) (f : ReadinessFlag) (p : pc) : option (ReadinessFlag * pc) :=
  match p, a with
  | IsReady_load k, Run =>
      Some (f, if ready f then is_ready_returns k true else IsReady_try_lock k)
  | IsReady_try_lock k, Run =>
      match try_lock (lock f) with
      | Some l => Some (set_lock l f, IsReady_locked k)
      | None => Some (f, IsReady_last k)
      end
  | IsReady_locked k, Run =>
      if bool_decide (tokens f = ∅) then Some (set_ready true f, IsReady_drop k (ready f))
      else Some (f, IsReady_skip k)
  | IsReady_drop k was_ready, Run =>
      Some (release f, if was_ready then is_ready_returns k true else IsReady_send k)
  | IsReady_send k, Run => Some (set_tx (send true (tx f)).1 f, is_ready_returns k true)
  | IsReady_skip k, Run => Some (release f, IsReady_last k)
  | IsReady_last k, Run => Some (f, is_ready_returns k (ready f))
  | Subscribe_load, Run =>
      Some (f, if ready f then Return (RSubscribe (Err FlagAlreadyReady)) else Subscribe_lock)
  | Subscribe_lock, Run => acquire f Subscribe_locked
  | Subscribe_lock, LockTimeout => acquire_timeout f (RSubscribe (Err TokenLockFailed))
  | Subscribe_locked, Run =>
      if ready f then Some (f, Subscribe_unlock None)
      else
        '(token, id) ← fresh_token (size (tokens f) + 2) (next_id f) (tokens f);
        Some (mkFlag (ready f) id (lock f) ({[token]} ∪ tokens f) (tx f),
              Subscribe_unlock (Some token))
  | Subscribe_unlock token, Run =>
      Some (release f, Return (RSubscribe (ok_or FlagAlreadyReady token)))
  | Mark_load t, Run =>
      Some (f, if ready f || (t =? 0)%Z then Return (RMarkReady (Ok false)) else Mark_lock t)
  | Mark_lock t, Run => acquire f (Mark_locked t)
  | Mark_lock t, LockTimeout => acquire_timeout f (RMarkReady (Err TokenLockFailed))
  | Mark_locked t, Run =>
      if bool_decide (t ∈ tokens f)
      then Some (set_ready true (set_tokens (tokens f ∖ {[t]}) f), Mark_clear)
      else Some (f, Mark_unlock false)
  | Mark_clear, Run => Some (set_tokens ∅ f, Mark_unlock true)
  | Mark_unlock marked, Run =>
      Some (release f, if marked then Mark_send else Return (RMarkReady (Ok false)))
  | Mark_send, Run => Some (set_tx (send true (tx f)).1 f, Return (RMarkReady (Ok true)))
  | Wait_subscribe, Run =>
      let '(w, rx) := subscribe_rx (tx f) in Some (set_tx w f, Wait_borrow rx)
  | Wait_borrow rx, Run =>
      if borrow (tx f) then Some (set_tx (drop_rx rx (tx f)) f, Return RWaitReady)
      else Some (f, Wait_changed rx)
  | Wait_changed rx, Run =>
      if has_changed rx (tx f) then Some (set_tx (mark_seen rx (tx f)) f, Wait_check rx) else None
  | Wait_check rx, Run =>
      if borrow (tx f) then Some (set_tx (drop_rx rx (tx f)) f, Return RWaitReady)
      else Some (f, Wait_changed rx)
  | _, _ => None
  end.

(** The calls of the trait, by the access each begins with. *)
Inductive call := is_ready | subscribe | mark_ready (t : Token) | wait_ready.
Definition call_pc (c : call) : pc :=
  match c with
  | is_ready => IsReady_load Direct
  | subscribe => Subscribe_load
  | mark_ready t => Mark_load t
  | wait_ready => IsReady_load InWait
  end.

(** An event of a schedule: a call starts, or one in progress makes a step.  A step
    that cannot be made leaves the system as it is. *)
Inductive event := Start (i : nat) (c : call) | Step (i : nat) (a : action).

Definition sys_step (s : system) (e : event) : system :=
  match e with
  | Start i c =>
      match threads s !! i with
      | None => mkSystem (flag s) (<[i := call_pc c]> (threads s))
      | Some _ => s
      end
  | Step i a =>
      match threads s !! i with
      | None => s
      | Some p =>
          match pc_step a (flag s) p with
          | Some (f, p) => mkSystem f (<[i := p]> (threads s))
          | None => s
          end
      end
  end.

Definition run (s : system) (sched : list event) : system := foldl sys_step s sched.
Definition init : system := mkSystem new_flag ∅.
Definition reachable (s : system) : Prop := ∃ sched, s = run init sched.
End flag.
Arguments pc : clear implicits.
Arguments ReadinessFlag : clear implicits.
Arguments system : clear implicits.

(** * What every interleaving of the calls keeps

    The invariants of [Readiness] over all schedules, which waiters are woken, and a lock
    and a channel in memory on which the theorems are used. *)

(** The cases of a step [Hs : pc_step a f p = Some (f', p')]. *)
Ltac pc_cases p a Hs :=
  destruct p, a; cbn in Hs; unfold acquire, acquire_timeout, release in Hs;
  repeat case_match; simplify_option_eq;
  repeat match goal with x : (_ * _)%type |- _ => destruct x end; simplify_eq/=.

(** ** Threads *)

Section threads.
Context {P : Type}.
Implicit Types (th : gmap nat P) (Q : P → bool).

(** At most one thread is at a point satisfying [Q]. *)
Definition at_most_one Q th : Prop :=
  ∀ i j p q, th !! i = Some p → th !! j = Some q → Q p = true → Q q = true → i = j.

Definition some_thread Q th : Prop := ∃ i p, th !! i = Some p ∧ Q p = true.

Lemma at_most_one_insert Q th i p :
  at_most_one Q th → (Q p = true → ∀ j q, j ≠ i → th !! j = Some q → Q q = false) →
  at_most_one Q (<[i:=p]> th).
Proof.
  intros H Hp j k q r. rewrite !lookup_insert. repeat case_decide; simplify_eq; [done|..].
  - intros [= <-] Hr Hq HQ. by rewrite (Hp Hq k r) in HQ.
  - intros Hr [= <-] HQ Hq. by rewrite (Hp Hq j q) in HQ.
  - apply H.
Qed.

(** A thread that keeps being at such a point, or leaves it. *)
Lemma at_most_one_keep Q th i p p' :
  at_most_one Q th → th !! i = Some p → (Q p' = true → Q p = true) →
  at_most_one Q (<[i:=p']> th).
Proof.
  intros H Hi Hp. apply at_most_one_insert; [done|]. intros Hp' j q Hj Hq.
  apply not_true_iff_false. intros HQ. destruct Hj. apply (H _ _ _ _ Hq Hi); auto.
Qed.

Lemma some_thread_insert Q th i p p' :
  th !! i = Some p → Q p = Q p' → some_thread Q (<[i:=p']> th) ↔ some_thread Q th.
Proof.
  intros Hi HQ. split.
  - intros (j & q & Hj & Hq). rewrite lookup_insert in Hj. case_decide; simplify_eq.
    + exists j, p. by rewrite HQ.
    + by exists j, q.
  - intros (j & q & Hj & Hq). destruct (decide (i = j)) as [->|].
    + exists j, p'. rewrite lookup_insert_eq. simplify_eq. by rewrite <- HQ.
    + exists j, q. by rewrite lookup_insert_ne.
Qed.
End threads.

Section facts.
Context {L W Rx : Type} {mutex_ops : MutexOps L} {mutex_laws : MutexLaws L}
  {watch_ops : WatchOps W Rx} {watch_laws : WatchLaws W Rx}.
Implicit Types (f : ReadinessFlag L W) (p q : pc Rx) (s : system L W Rx).

(** ** The token lock *)

(** The points of the code where the guard of [tokens] is held. *)
Definition holds_lock p : bool :=
  match p with
  | IsReady_locked _ | IsReady_drop _ _ | IsReady_skip _
  | Subscribe_locked | Subscribe_unlock _
  | Mark_locked _ | Mark_clear | Mark_unlock _ => true
  | _ => false
  end.

Lemma is_ready_returns_free k b : holds_lock (is_ready_returns k b) = false.
Proof. by destruct k, b. Qed.

(** A step takes the lock, gives it back, or leaves it alone. *)
Lemma pc_step_lock a f p f' p' :
  pc_step a f p = Some (f', p') →
  (holds_lock p = false ∧ holds_lock p' = true ∧ try_lock (lock f) = Some (lock f')) ∨
  (holds_lock p = true ∧ holds_lock p' = false ∧ lock f' = unlock (lock f)) ∨
  (holds_lock p' = holds_lock p ∧ lock f' = lock f).
Proof.
  intros Hs. pc_cases p a Hs; rewrite ?is_ready_returns_free; auto.
Qed.

Definition lock_inv s : Prop :=
  at_most_one holds_lock (threads s) ∧
  (try_lock (lock (flag s)) = None ↔ some_thread holds_lock (threads s)).

Lemma lock_inv_step s e : lock_inv s → lock_inv (sys_step s e).
Proof.
  intros [H1 H2]. destruct e as [i c|i a]; cbn [sys_step].
  - destruct (threads s !! i) eqn:Hi; [done|]. split; cbn [flag threads].
    + apply at_most_one_insert; [done|]. by destruct c.
    + rewrite H2. split; intros (j & q & Hj & Hq); exists j, q; (split; [|done]).
      * rewrite lookup_insert_ne; [done|]. intros ->. congruence.
      * rewrite lookup_insert in Hj. case_decide; simplify_eq; [by destruct c|done].
  - destruct (threads s !! i) as [p|] eqn:Hi; [|done].
    destruct (pc_step a (flag s) p) as [[f' p']|] eqn:Hp; [|done].
    unfold lock_inv. cbn [flag threads].
    apply pc_step_lock in Hp as [(Hp & Hp' & Hl)|[(Hp & Hp' & Hl)|(Hp & Hl)]].
    + split.
      * apply at_most_one_insert; [done|]. intros _ j q _ Hj. apply not_true_iff_false.
        intros Hq. rewrite (proj2 H2) in Hl by by exists j, q. done.
      * apply try_lock_held in Hl. split; [|done]. intros _. exists i, p'. by rewrite lookup_insert_eq.
    + split.
      * apply (at_most_one_keep _ _ _ p); [done..|]. by rewrite Hp'.
      * rewrite Hl. assert (try_lock (lock (flag s)) = None) as Hn by (apply H2; by exists i, p).
        apply unlock_free in Hn as [l Hn]. rewrite Hn. split; [done|].
        intros (j & q & Hj & Hq). destruct (decide (i = j)) as [->|Hij]; simplify_map_eq; [congruence|].
        destruct Hij. by apply (H1 i j p q).
    + rewrite Hl, H2. split; [by apply (at_most_one_keep _ _ _ p); [..|congruence]|].
      by rewrite (some_thread_insert _ _ _ p).
Qed.

Lemma lock_inv_init : lock_inv (init (L:=L) (W:=W) (Rx:=Rx)).
Proof.
  unfold lock_inv, init, new_flag. destruct (new_channel false) as [w rx]. cbn.
  split; [intros i j p q Hi; by rewrite lookup_empty in Hi|].
  destruct mutex_new_free as [l ->]. split; [done|]. intros (i & p & Hi & _).
  by rewrite lookup_empty in Hi.
Qed.

(** ** Tokens *)

(** A call of [mark_ready] that found its token. *)
Definition marked p : bool :=
  match p with
  | Mark_clear | Mark_unlock true | Mark_send | Return (RMarkReady (Ok true)) => true
  | _ => false
  end.
Definition is_clear p : bool := match p with Mark_clear => true | _ => false end.

(** The token a call of [subscribe] got, from the step that inserts it on. *)
Definition token_of p : option Token :=
  match p with
  | Subscribe_unlock o => o
  | Return (RSubscribe r) => ok r
  | _ => None
  end.

Lemma ok_of_option {A E} (e : E) (o : option A) : ok (ok_or e o) = o.
Proof. by destruct o. Qed.
Lemma is_ready_returns_token k b : token_of (is_ready_returns k b) = None.
Proof. by destruct k, b. Qed.
Lemma is_ready_returns_marked k b : marked (is_ready_returns k b) = false.
Proof. by destruct k, b. Qed.
Lemma is_ready_returns_clear k b : is_clear (is_ready_returns k b) = false.
Proof. by destruct k, b. Qed.

Lemma fresh_token_new fuel id ts t id' :
  fresh_token fuel id ts = Some (t, id') → t ≠ 0%Z ∧ t ∉ ts ∧ id' = wrap_i32 (t + 1).
Proof.
  revert id. induction fuel as [|fuel IH]; intros id; cbn [fresh_token]; [done|].
  case_bool_decide as Hid; [|apply IH]. intros [= <- <-]. naive_solver.
Qed.

(** The effect of a step on the flag and the tokens. *)
Inductive flag_effect f p f' p' : Prop :=
| effect_none :
    ready f' = ready f → tokens f' = tokens f → next_id f' = next_id f →
    marked p' = marked p → is_clear p' = is_clear p → token_of p' = token_of p →
    flag_effect f p f' p'
| effect_unsubscribed k :
    p = IsReady_locked k → tokens f = ∅ → ready f' = true → tokens f' = ∅ →
    next_id f' = next_id f → p' = IsReady_drop k (ready f) → flag_effect f p f' p'
| effect_subscribed t :
    p = Subscribe_locked → ready f = false → t ≠ 0%Z → t ∉ tokens f → ready f' = false →
    tokens f' = {[t]} ∪ tokens f → next_id f' = wrap_i32 (t + 1) →
    p' = Subscribe_unlock (Some t) → flag_effect f p f' p'
| effect_marked t :
    p = Mark_locked t → t ∈ tokens f → ready f' = true → tokens f' = tokens f ∖ {[t]} →
    next_id f' = next_id f → p' = Mark_clear → flag_effect f p f' p'
| effect_cleared :
    p = Mark_clear → ready f' = ready f → tokens f' = ∅ → next_id f' = next_id f →
    p' = Mark_unlock true → flag_effect f p f' p'.

Lemma pc_step_effect a f p f' p' : pc_step a f p = Some (f', p') → flag_effect f p f' p'.
Proof.
  intros Hs. pc_cases p a Hs;
    try (apply effect_none; cbn;
      rewrite ?is_ready_returns_marked, ?is_ready_returns_clear, ?is_ready_returns_token, ?ok_of_option; done).
  - by eapply effect_unsubscribed.
  - apply fresh_token_new in Heqo as (? & ? & ?). by eapply effect_subscribed.
  - by eapply effect_marked.
  - by eapply effect_cleared.
Qed.

Record token_inv s : Prop := {
  ti_nonzero : 0%Z ∉ tokens (flag s);
  ti_range : (- 2 ^ 31 ≤ next_id (flag s) < 2 ^ 31)%Z;
  ti_cleared : ready (flag s) = true → tokens (flag s) = ∅ ∨ some_thread is_clear (threads s);
  ti_marked : some_thread marked (threads s) → ready (flag s) = true;
  ti_once : at_most_one marked (threads s);
}.

Lemma wrap_i32_range z : (- 2 ^ 31 ≤ wrap_i32 z < 2 ^ 31)%Z.
Proof. unfold wrap_i32. pose proof (Z.mod_pos_bound (z + 2 ^ 31) (2 ^ 32) ltac:(lia)). lia. Qed.

(** A thread about to mark is the only one that ever does. *)
Lemma marks_first s i t :
  lock_inv s → token_inv s → threads s !! i = Some (Mark_locked t) → t ∈ tokens (flag s) →
  ∀ j q, threads s !! j = Some q → marked q = false.
Proof.
  intros [Hx _] [_ _ Hc Hm _] Hi Ht j q Hj. apply not_true_iff_false. intros Hq.
  destruct Hc as [He|(k & r & Hk & Hr)]; [apply Hm; by exists j, q|rewrite He in Ht; set_solver|].
  assert (k = i) as -> by (apply (Hx k i r (Mark_locked t)); [done..| |done]; by destruct r).
  by simplify_eq.
Qed.

Lemma some_thread_start Q (th : gmap nat (pc Rx)) i p :
  th !! i = None → Q p = false → some_thread Q (<[i:=p]> th) ↔ some_thread Q th.
Proof.
  intros Hi Hp. split; intros (j & q & Hj & Hq); exists j, q; (split; [|done]).
  - destruct (decide (i = j)) as [->|]; simplify_map_eq; [congruence|done].
  - rewrite lookup_insert_ne; [done|]. intros ->. congruence.
Qed.

Lemma token_inv_step s e : lock_inv s → token_inv s → token_inv (sys_step s e).
Proof.
  intros Hlock Hinv. destruct e as [i c|i a]; cbn [sys_step].
  - destruct (threads s !! i) eqn:Hi; [done|]. destruct Hinv as [H1 H2 H3 H4 H5].
    constructor; cbn [flag threads]; rewrite ?some_thread_start by (done || by destruct c); try done.
    apply at_most_one_insert; [done|]. by destruct c.
  - destruct (threads s !! i) as [p|] eqn:Hi; [|done].
    destruct (pc_step a (flag s) p) as [[f' p']|] eqn:Hp; [|done].
    pose proof (marks_first s i) as Hfirst. destruct Hinv as [H1 H2 H3 H4 H5].
    apply pc_step_effect in Hp as [Hr Ht Hn Hm Hc _|k -> He Hr Ht Hn ->|t -> Hr0 H0 Hnew Hr Ht Hn ->
      |t -> Hin Hr Ht Hn ->| -> Hr Ht Hn ->]; constructor; cbn [flag threads];
      rewrite ?Hr, ?Ht, ?Hn; try done.
    all: try (rewrite (some_thread_insert _ _ _ _ _ Hi) by done; auto; fail).
    all: try (apply (at_most_one_keep _ _ _ _ _ H5 Hi); cbn; congruence).
    + rewrite elem_of_union, elem_of_singleton. intros [?|?]; congruence.
    + apply wrap_i32_range.
    + rewrite (some_thread_insert _ _ _ _ _ Hi) by done. intros Hs. apply H4 in Hs. congruence.
    + rewrite elem_of_difference. by intros [? _].
    + right. exists i, Mark_clear. by rewrite lookup_insert_eq.
    + apply at_most_one_insert; [done|]. intros _ j q _ Hj. by apply (Hfirst t) with (j := j).
    + by left.
Qed.

Lemma token_inv_init : token_inv (init (L:=L) (W:=W) (Rx:=Rx)).
Proof.
  unfold init, new_flag. destruct (new_channel false) as [w rx].
  constructor; cbn; [set_solver|lia|done| |]; intros i; intros; simplify_map_eq.
  destruct i as (? & ? & ? & ?). simplify_map_eq.
Qed.

Lemma run_app s l1 l2 : run s (l1 ++ l2) = run (run s l1) l2.
Proof. apply foldl_app. Qed.

Lemma reachable_ind_step (P : system L W Rx → Prop) :
  P init → (∀ s e, reachable s → P s → P (sys_step s e)) → ∀ s, reachable s → P s.
Proof.
  intros H0 Hstep s [sched ->]. induction sched as [|e sched IH] using rev_ind; [done|].
  rewrite run_app. apply Hstep; [by exists sched|done].
Qed.

Lemma reachable_run s sched : reachable s → reachable (run s sched).
Proof. intros [l ->]. exists (l ++ sched). by rewrite run_app. Qed.

Lemma reachable_lock_inv s : reachable s → lock_inv s.
Proof. revert s. apply reachable_ind_step; [apply lock_inv_init|]. intros. by apply lock_inv_step. Qed.

Lemma reachable_token_inv s : reachable s → token_inv s.
Proof.
  revert s. apply reachable_ind_step; [apply token_inv_init|].
  intros s e Hr. apply token_inv_step, reachable_lock_inv, Hr.
Qed.

(** The tokens out are those of the calls that got one, and no two got the same. *)
Record issued_inv s : Prop := {
  ii_distinct i j p q t : threads s !! i = Some p → threads s !! j = Some q →
    token_of p = Some t → token_of q = Some t → i = j;
  ii_nonzero i p t : threads s !! i = Some p → token_of p = Some t → t ≠ 0%Z;
  ii_out i p t : threads s !! i = Some p → token_of p = Some t → ready (flag s) = false →
    t ∈ tokens (flag s);
  ii_back t : ready (flag s) = false → t ∈ tokens (flag s) →
    ∃ i p, threads s !! i = Some p ∧ token_of p = Some t;
}.

(** A thread moves and the tokens held stay. *)
Lemma issued_inv_keep s f' i p p' :
  issued_inv s → threads s !! i = Some p ∨ (threads s !! i = None ∧ token_of p = None) →
  token_of p' = token_of p →
  (ready f' = false → ready (flag s) = false ∧ tokens f' = tokens (flag s)) →
  issued_inv (mkSystem f' (<[i:=p']> (threads s))).
Proof.
  intros [H1 H2 H3 H4] Hi Hp Hf.
  assert (∀ j q t, <[i:=p']> (threads s) !! j = Some q → token_of q = Some t →
    ∃ q', threads s !! j = Some q' ∧ token_of q' = Some t) as Hold.
  { intros j q t Hj Ht. destruct (decide (i = j)) as [->|]; simplify_map_eq; [|by exists q].
    exists p. rewrite <- Hp. destruct Hi as [?|[_ ?]]; [done|congruence]. }
  constructor; cbn [flag threads].
  - intros j k q r t Hj Hk Hq Hr. destruct (Hold _ _ _ Hj Hq) as (? & ? & ?).
    destruct (Hold _ _ _ Hk Hr) as (? & ? & ?). by eapply H1.
  - intros j q t Hj Hq. destruct (Hold _ _ _ Hj Hq) as (? & ? & ?). by eapply H2.
  - intros j q t Hj Hq Hr. destruct (Hold _ _ _ Hj Hq) as (? & ? & ?), (Hf Hr) as [? ->]. by eapply H3.
  - intros t Hr Ht. destruct (Hf Hr) as [Hr' Heq]. rewrite Heq in Ht.
    destruct (H4 t Hr' Ht) as (j & q & Hj & Hq). destruct (decide (i = j)) as [->|].
    + exists j, p'. rewrite lookup_insert_eq, Hp. destruct Hi as [?|[? _]]; simplify_eq. done.
    + exists j, q. by rewrite lookup_insert_ne.
Qed.

(** A new subscription: its token is out and nobody else's. *)
Lemma issued_inv_subscribed s f' i t :
  issued_inv s → threads s !! i = Some Subscribe_locked → t ≠ 0%Z → t ∉ tokens (flag s) →
  ready (flag s) = false → tokens f' = {[t]} ∪ tokens (flag s) →
  issued_inv (mkSystem f' (<[i:=Subscribe_unlock (Some t)]> (threads s))).
Proof.
  intros [H1 H2 H3 H4] Hi H0 Hnew Hr Ht.
  assert (∀ j q u, <[i:=Subscribe_unlock (Some t)]> (threads s) !! j = Some q → token_of q = Some u →
    j = i ∧ u = t ∨ j ≠ i ∧ threads s !! j = Some q ∧ u ∈ tokens (flag s)) as Hold.
  { intros j q u Hj Hu. destruct (decide (i = j)) as [->|]; simplify_map_eq; [by left|right]. eauto. }
  constructor; cbn [flag threads].
  - intros j k q r u Hj Hk Hq Hr'. destruct (Hold _ _ _ Hj Hq) as [[-> ->]|(? & ? & ?)],
      (Hold _ _ _ Hk Hr') as [[-> ?]|(? & ? & ?)]; simplify_eq; try done. by eapply H1.
  - intros j q u Hj Hq. destruct (Hold _ _ _ Hj Hq) as [[-> ->]|(? & ? & ?)]; [done|]. by eapply H2.
  - intros j q u Hj Hq _. rewrite Ht, elem_of_union, elem_of_singleton.
    destruct (Hold _ _ _ Hj Hq) as [[-> ->]|(? & ? & ?)]; auto.
  - intros u _. rewrite Ht, elem_of_union, elem_of_singleton. intros [->|Hu].
    + exists i, (Subscribe_unlock (Some t)). by rewrite lookup_insert_eq.
    + destruct (H4 u Hr Hu) as (j & q & Hj & Hq). exists j, q. rewrite lookup_insert_ne; [done|].
      intros ->. by simplify_eq.
Qed.

Lemma issued_inv_step s e : token_inv s → issued_inv s → issued_inv (sys_step s e).
Proof.
  intros Htok Hinv. destruct e as [i c|i a]; cbn [sys_step]; (destruct (threads s !! i) as [p|] eqn:Hi); try done.
  - apply (issued_inv_keep _ _ _ (call_pc c)); try done. right. by destruct c.
  - destruct (pc_step a (flag s) p) as [[f' p']|] eqn:Hp; [|done].
    apply pc_step_effect in Hp as [Hr Ht _ _ _ Hsame|k -> _ Hr _ _ ->|t -> Hr0 H0 Hnew Hr Ht _ ->
      |t -> _ Hr _ _ ->| -> Hr Ht _ ->].
    2, 4: eapply issued_inv_keep; [done|by left|done|congruence].
    + eapply issued_inv_keep; [done|by left|done|]. split; congruence.
    + by apply issued_inv_subscribed.
    + eapply issued_inv_keep; [done|by left|done|]. intros Hf.
      rewrite Hr, (ti_marked _ Htok) in Hf; [done|]. by exists i, Mark_clear.
Qed.

Lemma reachable_issued_inv s : reachable s → issued_inv s.
Proof.
  revert s. apply reachable_ind_step.
  - unfold init, new_flag. destruct (new_channel false). constructor; cbn; intros; by simplify_map_eq.
  - intros s e Hr. apply issued_inv_step, reachable_token_inv, Hr.
Qed.

(** The flag is never reset, and it is set by the holder of a subscribed token or when
    no token is out. *)
Lemma ready_step s e :
  ready (flag (sys_step s e)) = ready (flag s) ∨
  ready (flag (sys_step s e)) = true ∧ ∃ i,
    (∃ t, threads s !! i = Some (Mark_locked t) ∧ t ∈ tokens (flag s)) ∨
    (∃ k, threads s !! i = Some (IsReady_locked k) ∧ tokens (flag s) = ∅).
Proof.
  destruct e as [i c|i a]; cbn [sys_step]; (destruct (threads s !! i) as [p|] eqn:Hi; [|by left]);
    [by left|].
  destruct (pc_step a (flag s) p) as [[f' p']|] eqn:Hp; [|by left]. cbn [flag].
  apply pc_step_effect in Hp. destruct Hp; subst; auto; [right|left; congruence|right].
  all: split; [done|]; exists i; eauto.
Qed.

Lemma ready_run s sched : ready (flag s) = true → ready (flag (run s sched)) = true.
Proof.
  revert s. induction sched as [|e sched IH]; intros s Hs; [done|]. apply IH.
  destruct (ready_step s e) as [->|[? _]]; done.
Qed.

(** ** The watch channel *)

Definition rx_of p : option Rx :=
  match p with Wait_borrow rx | Wait_changed rx | Wait_check rx => Some rx | _ => None end.

(** The points the value is sent from. *)
Definition about_to_send p : bool :=
  match p with IsReady_send _ | Mark_send => true | _ => false end.

Inductive channel_effect f p f' p' : Prop :=
| channel_none :
    tx f' = tx f → rx_of p' = rx_of p →
    (∀ rx, p' = Wait_changed rx → borrow (tx f) = false) → channel_effect f p f' p'
| channel_send :
    tx f' = (send true (tx f)).1 → about_to_send p = true → rx_of p' = None →
    rx_of p = None → channel_effect f p f' p'
| channel_subscribe :
    p = Wait_subscribe → tx f' = (subscribe_rx (tx f)).1 →
    p' = Wait_borrow (subscribe_rx (tx f)).2 → channel_effect f p f' p'
| channel_drop rx :
    rx_of p = Some rx → tx f' = drop_rx rx (tx f) → rx_of p' = None → channel_effect f p f' p'
| channel_seen rx :
    p = Wait_changed rx → tx f' = mark_seen rx (tx f) → p' = Wait_check rx →
    channel_effect f p f' p'.

Lemma is_ready_returns_rx k b : rx_of (is_ready_returns k b) = None.
Proof. by destruct k, b. Qed.
Lemma is_ready_returns_changed k b rx : is_ready_returns k b ≠ Wait_changed (rx : Rx).
Proof. by destruct k, b. Qed.

Lemma pc_step_channel a f p f' p' : pc_step a f p = Some (f', p') → channel_effect f p f' p'.
Proof.
  intros Hs. pc_cases p a Hs;
    try (apply channel_none; cbn; rewrite ?is_ready_returns_rx; try done;
      intros rx' Hrx; by apply is_ready_returns_changed in Hrx);
    try (apply channel_send; cbn; rewrite ?is_ready_returns_rx; done);
    try (by eapply channel_drop); try (by eapply channel_seen).
  apply channel_subscribe; cbn; by rewrite ?H.
Qed.

Record chan_inv s : Prop := {
  ci_live : ∀ i p rx, threads s !! i = Some p → rx_of p = Some rx → live rx (tx (flag s));
  ci_own : ∀ i j p q rx, threads s !! i = Some p → threads s !! j = Some q →
    rx_of p = Some rx → rx_of q = Some rx → i = j;
  ci_changed : ∀ i rx, threads s !! i = Some (Wait_changed rx) →
    borrow (tx (flag s)) = true → has_changed rx (tx (flag s)) = true;
}.

Lemma chan_inv_start s i p :
  chan_inv s → threads s !! i = None → rx_of p = None →
  chan_inv (mkSystem (flag s) (<[i := p]> (threads s))).
Proof.
  intros [H1 H2 H3] Hi Hp. constructor; cbn [flag threads].
  - intros j q rx Hj Hq. destruct (decide (i = j)) as [->|]; simplify_map_eq; eauto.
  - intros j k q r rx Hj Hk Hq Hr.
    destruct (decide (i = j)) as [<-|], (decide (i = k)) as [<-|]; simplify_map_eq; eauto.
  - intros j rx Hj. destruct (decide (i = j)) as [->|]; simplify_map_eq; eauto.
Qed.

Lemma chan_inv_step s e : chan_inv s → chan_inv (sys_step s e).
Proof.
  intros Hinv. destruct e as [i c|i a]; cbn [sys_step].
  { destruct (threads s !! i) eqn:Hi; [done|]. apply chan_inv_start; [done..|by destruct c]. }
  destruct (threads s !! i) as [p|] eqn:Hi; [|done].
  destruct (pc_step a (flag s) p) as [[f' p']|] eqn:Hp; [|done].
  destruct Hinv as [H1 H2 H3].
  apply pc_step_channel in Hp as [Ht Hrx Hb|Ht _ Hrx Hrx0| -> Ht -> |rx Hrx Ht Hrx'|rx -> Ht -> ].
  - constructor; cbn [flag threads]; rewrite ?Ht.
    + intros j q rx Hj Hq. destruct (decide (i = j)) as [->|]; simplify_map_eq; [|by eauto].
      rewrite Hrx in Hq. eauto.
    + intros j k q r rx Hj Hk Hq Hr.
      destruct (decide (i = j)) as [<-|], (decide (i = k)) as [<-|]; simplify_map_eq;
        rewrite ?Hrx in *; eauto.
    + intros j rx Hj Hbt. destruct (decide (i = j)) as [->|]; simplify_map_eq; [|by eauto].
      rewrite (Hb rx) in Hbt; done.
  - constructor; cbn [flag threads]; rewrite ?Ht.
    + intros j q rx Hj Hq. rewrite send_live.
      destruct (decide (i = j)) as [->|]; simplify_map_eq; eauto.
    + intros j k q r rx Hj Hk Hq Hr.
      destruct (decide (i = j)) as [<-|], (decide (i = k)) as [<-|]; simplify_map_eq; eauto.
    + intros j rx Hj Hbt. destruct (decide (i = j)) as [->|]; simplify_map_eq.
      apply send_changed. by eapply H1.
  - constructor; cbn [flag threads]; rewrite ?Ht.
    + intros j q rx Hj Hq. rewrite subscribe_live.
      destruct (decide (i = j)) as [->|]; simplify_map_eq; eauto.
    + intros j k q r rx Hj Hk Hq Hr.
      pose proof (subscribe_fresh (tx (flag s))) as Hfresh.
      destruct (decide (i = j)) as [<-|], (decide (i = k)) as [<-|]; simplify_map_eq; eauto;
        destruct Hfresh; eauto.
    + intros j rx Hj Hbt. destruct (decide (i = j)) as [->|]; simplify_map_eq.
      rewrite subscribe_borrow in Hbt. rewrite subscribe_other by by eapply H1. eauto.
  - constructor; cbn [flag threads]; rewrite ?Ht.
    + intros j q r Hj Hq. rewrite drop_live.
      destruct (decide (i = j)) as [->|]; simplify_map_eq. split; [by eauto|]. intros ->. eauto.
    + intros j k q r rx' Hj Hk Hq Hr.
      destruct (decide (i = j)) as [<-|], (decide (i = k)) as [<-|]; simplify_map_eq; eauto.
    + intros j r Hj Hbt. destruct (decide (i = j)) as [->|]; simplify_map_eq.
      rewrite drop_borrow in Hbt. rewrite drop_other; [by eauto|]. intros ->. eauto.
  - constructor; cbn [flag threads]; rewrite ?Ht.
    + intros j q r Hj Hq. rewrite seen_live.
      destruct (decide (i = j)) as [->|]; simplify_map_eq; eauto.
    + intros j k q r rx' Hj Hk Hq Hr.
      destruct (decide (i = j)) as [<-|], (decide (i = k)) as [<-|]; simplify_map_eq; eauto.
    + intros j r Hj Hbt. destruct (decide (i = j)) as [->|]; simplify_map_eq.
      rewrite seen_borrow in Hbt. rewrite seen_other; [by eauto|]. intros ->. eauto.
Qed.

Lemma reachable_chan_inv s : reachable s → chan_inv s.
Proof.
  revert s. apply reachable_ind_step; [|intros s e _; apply chan_inv_step].
  constructor; intros; cbn in *; simplify_map_eq.
Qed.

(** ** Waiters that are woken *)

Lemma send_true_kept w : borrow w = true → borrow (send true w).1 = true.
Proof.
  intros Hw. destruct ((send true w).2) eqn:Hs; [by apply send_borrow|].
  by rewrite send_failed.
Qed.

Lemma borrow_step s e :
  borrow (tx (flag s)) = true → borrow (tx (flag (sys_step s e))) = true.
Proof.
  intros Hb. destruct e as [i c|i a]; cbn [sys_step]; (destruct (threads s !! i) as [p|]; [|done]);
    [done|]. destruct (pc_step a (flag s) p) as [[f' p']|] eqn:Hp; [|done]. cbn [flag].
  apply pc_step_channel in Hp as [Ht|Ht|_ Ht _|rx _ Ht _|rx _ Ht _]; rewrite Ht;
    rewrite ?subscribe_borrow, ?drop_borrow, ?seen_borrow; auto using send_true_kept.
Qed.

(** A thread is moved by its own steps only. *)
Lemma other_step s e i p :
  threads s !! i = Some p → (∀ a, e ≠ Step i a) → threads (sys_step s e) !! i = Some p.
Proof.
  intros Hi He. destruct e as [j c|j a]; cbn [sys_step].
  - destruct (threads s !! j) eqn:Hj; [done|]. cbn [threads].
    rewrite lookup_insert_ne; [done|]. intros ->. congruence.
  - destruct (threads s !! j) as [q|] eqn:Hj; [|done].
    destruct (pc_step a (flag s) q) as [[f' q']|]; [|done]. cbn [threads].
    rewrite lookup_insert_ne; [done|]. intros ->. by destruct (He a).
Qed.

(** Steps a waiter with a receiver still makes once the value was sent. *)
Definition wait_rank p : option nat :=
  match p with
  | Return RWaitReady => Some 0
  | Wait_borrow _ | Wait_check _ => Some 1
  | Wait_changed _ => Some 2
  | _ => None
  end.

Definition is_step (i : nat) (e : event) : bool :=
  match e with Step j Run => bool_decide (i = j) | _ => false end.
(** The steps a schedule gives to a thread. *)
Definition own_steps (i : nat) (sched : list event) : nat := length (filter (is_step i) sched).

Lemma wait_step s e i p n :
  chan_inv s → borrow (tx (flag s)) = true → threads s !! i = Some p → wait_rank p = Some n →
  ∃ p', threads (sys_step s e) !! i = Some p' ∧
    wait_rank p' = Some (if is_step i e then pred n else n).
Proof.
  intros Hc Hb Hi Hn.
  assert ((∀ a, e ≠ Step i a) → ∃ p', threads (sys_step s e) !! i = Some p' ∧ wait_rank p' = Some n)
    as Hother by (intros He; exists p; split; [by apply other_step|done]).
  destruct e as [j c|j a]; [by apply Hother|].
  destruct (decide (i = j)) as [<-|Hij].
  2: { assert (is_step i (Step j a) = false) as ->.
       { destruct a; [|done]. by apply bool_decide_eq_false_2. }
       apply Hother. intros a' [= <- _]. done. }
  cbn [sys_step is_step]. rewrite Hi. destruct a.
  - rewrite bool_decide_eq_true_2 by done.
    destruct p as [| | | | | | | | | | | | | | | | | |rx|rx|rx|[]]; try done;
      injection Hn as <-; cbn [pc_step]; rewrite ?Hb, ?(ci_changed _ Hc _ _ Hi Hb);
      cbn [threads]; rewrite ?lookup_insert_eq; eauto.
  - exists p. destruct p as [| | | | | | | | | | | | | | | | | |rx|rx|rx|[]]; try done.
Qed.

Lemma wait_run s sched i p n :
  chan_inv s → borrow (tx (flag s)) = true → threads s !! i = Some p → wait_rank p = Some n →
  ∃ p', threads (run s sched) !! i = Some p' ∧ wait_rank p' = Some (n - own_steps i sched).
Proof.
  revert s p n. induction sched as [|e sched IH]; intros s p n Hc Hb Hi Hn.
  { exists p. cbn. by rewrite Nat.sub_0_r. }
  destruct (wait_step s e i p n Hc Hb Hi Hn) as (p1 & Hi1 & Hn1).
  destruct (IH _ _ _ (chan_inv_step _ e Hc) (borrow_step _ e Hb) Hi1 Hn1) as (p2 & Hi2 & Hn2).
  exists p2. split; [done|]. rewrite Hn2. unfold own_steps.
  rewrite filter_cons. f_equal. destruct (is_step i e); case_decide; simpl; try done; lia.
Qed.

Lemma wait_rank_returned p : wait_rank p = Some 0 → p = Return RWaitReady.
Proof. by destruct p as [| | | | | | | | | | | | | | | | | | | | |[]]. Qed.
(** ** A waiter that is not *)

Lemma run_start s i c l :
  threads s !! i = None →
  run s (Start i c :: l) = run (mkSystem (flag s) (<[i := call_pc c]> (threads s))) l.
Proof. intros Hi. unfold run. cbn [foldl sys_step]. by rewrite Hi. Qed.

Lemma run_step s i a l p f' p' :
  threads s !! i = Some p → pc_step a (flag s) p = Some (f', p') →
  run s (Step i a :: l) = run (mkSystem f' (<[i := p']> (threads s))) l.
Proof. intros Hi Hp. unfold run. cbn [foldl sys_step]. by rewrite Hi, Hp. Qed.

(** The calls that will still send. *)
Definition will_send p : bool :=
  match p with
  | IsReady_drop _ false | IsReady_send _ | Mark_clear | Mark_unlock true | Mark_send => true
  | _ => false
  end.

(** The flag is ready, nobody is going to say so any more, and [i] waits to hear it. *)
Record stuck (i : nat) (rx : Rx) s : Prop := {
  st_ready : ready (flag s) = true;
  st_tokens : tokens (flag s) = ∅;
  st_waits : threads s !! i = Some (Wait_changed rx);
  st_unseen : has_changed rx (tx (flag s)) = false;
  st_senders : ∀ j p, threads s !! j = Some p → will_send p = false;
}.

Lemma is_ready_returns_will_send k b : will_send (is_ready_returns k b) = false.
Proof. by destruct k, b. Qed.

(** On a ready flag without tokens, a step never makes a sender. *)
Lemma pc_step_no_sender a f p f' p' :
  ready f = true → tokens f = ∅ → will_send p = false → pc_step a f p = Some (f', p') →
  ready f' = true ∧ tokens f' = ∅ ∧ will_send p' = false.
Proof.
  intros Hr Ht Hp Hs.
  assert (∀ t, t ∉ tokens f) as Hno by (rewrite Ht; set_solver).
  pc_cases p a Hs; rewrite ?is_ready_returns_will_send, ?Hr; try done; try congruence; exfalso; eauto.
Qed.

Lemma stuck_step i rx s e : chan_inv s → stuck i rx s → stuck i rx (sys_step s e).
Proof.
  intros Hc [H1 H2 H3 H4 H5]. destruct e as [j c|j a]; cbn [sys_step].
  - destruct (threads s !! j) eqn:Hj; [done|]. constructor; cbn [flag threads]; try done.
    + rewrite lookup_insert_ne; [done|]. intros ->. congruence.
    + intros k p Hk. destruct (decide (j = k)) as [<-|]; simplify_map_eq; [by destruct c|eauto].
  - destruct (threads s !! j) as [p|] eqn:Hj; [|done].
    destruct (pc_step a (flag s) p) as [[f' p']|] eqn:Hp; [|done].
    pose proof (pc_step_no_sender _ _ _ _ _ H1 H2 (H5 _ _ Hj) Hp) as (Hr & Ht & Hw).
    assert (j ≠ i) as Hji.
    { intros ->. rewrite Hj in H3. injection H3 as ->. cbn [pc_step] in Hp.
      destruct a; [|done]. by rewrite H4 in Hp. }
    constructor; cbn [flag threads]; [done..| | |].
    + by rewrite lookup_insert_ne.
    + pose proof (ci_live _ Hc _ _ rx H3 eq_refl) as Hlive.
      apply pc_step_channel in Hp as [Htx|_ Hs _ _|_ Htx _|r Hrx Htx _|r -> Htx _].
      * by rewrite Htx.
      * exfalso. specialize (H5 _ _ Hj). by destruct p.
      * by rewrite Htx, subscribe_other.
      * rewrite Htx, drop_other; [done|]. intros ->. destruct Hji. by apply (ci_own _ Hc j i p (Wait_changed r) r).
      * rewrite Htx, seen_other; [done|]. intros ->. destruct Hji. by apply (ci_own _ Hc j i (Wait_changed r) (Wait_changed r) r).
    + intros k q Hk. destruct (decide (j = k)) as [<-|]; simplify_map_eq; eauto.
Qed.

Lemma stuck_run i rx s sched : chan_inv s → stuck i rx s → stuck i rx (run s sched).
Proof.
  revert s. induction sched as [|e sched IH]; intros s Hc Hs; [done|].
  apply IH; [by apply chan_inv_step|by apply stuck_step].
Qed.

(** One call subscribes; a second finds the flag not ready in [wait_ready]; a third
    marks the flag and sends while there is no receiver; only then does the second
    subscribe to the channel. *)
Definition lost_wakeup_schedule : list event :=
  Start 0 subscribe :: replicate 4 (Step 0 Run) ++
  Start 1 wait_ready :: replicate 5 (Step 1 Run) ++
  Start 2 (mark_ready 1) :: replicate 6 (Step 2 Run) ++
  replicate 2 (Step 1 Run).

Lemma lost_wakeup_state :
  ∃ s rx, run init lost_wakeup_schedule = s ∧ stuck 1 rx s ∧
    threads s !! 0 = Some (Return (RSubscribe (Ok 1%Z))) ∧
    threads s !! 2 = Some (Return (RMarkReady (Ok true))) ∧ dom (threads s) = {[0; 1; 2]}.
Proof.
  assert (∃ w, new_flag = mkFlag false 1%Z (mutex_new (L:=L)) ∅ w ∧ borrow w = false ∧
    ∀ r : Rx, ¬ live r w) as (w & Hnew & Hb & Hw).
  { unfold new_flag. destruct (new_channel false) as [w rx] eqn:E. exists (drop_rx rx w).
    pose proof (new_channel_borrow false) as Hb. rewrite E in Hb.
    split_and!; [done|by rewrite drop_borrow|]. intros r [Hr Hne]%drop_live.
    destruct Hne. assert (live r (new_channel false).1) as Hr' by by rewrite E.
    apply new_channel_live in Hr'. by rewrite E in Hr'. }
  destruct (mutex_new_free (L:=L)) as [l1 E1].
  destruct (unlock_free l1) as [l2 E2]; [by apply try_lock_held in E1|].
  destruct (unlock_free l2) as [l3 E3]; [by apply try_lock_held in E2|].
  assert (size (∅ : gset Z) = 0) as Hsize by done.
  assert (fresh_token 2 1 ∅ = Some (1, 2)%Z) as Hfresh by done.
  assert (bool_decide ({[1%Z]} ∪ ∅ = (∅ : gset Z)) = false) as Hne by (by vm_compute).
  assert (bool_decide (1%Z ∈ ({[1%Z]} ∪ ∅ : gset Z)) = true) as Hin by (by vm_compute).
  assert ((send true w).1 = w) as Hsend by (by apply send_failed, send_closed).
  set (w' := (subscribe_rx w).1). set (rx := (subscribe_rx w).2).
  assert (subscribe_rx w = (w', rx)) as Hsub by (by destruct (subscribe_rx w)).
  assert (borrow w' = false) as Hb' by (unfold w'; by rewrite subscribe_borrow).
  eexists _, rx. split.
  - unfold lost_wakeup_schedule, init. rewrite Hnew. cbn [replicate app].
    do 50 (lazymatch goal with
      | |- run _ (Start _ _ :: _) = _ =>
          rewrite run_start by (cbn [threads]; rewrite ?lookup_insert_ne by done; done);
          cbn [flag threads call_pc]
      | |- run _ (Step _ _ :: _) = _ =>
          erewrite run_step;
            [ | cbn [threads]; rewrite ?lookup_insert_ne by done; apply lookup_insert_eq
              | unfold pc_step, acquire, release; cbn;
                rewrite ?E1, ?E2, ?E3, ?Hsize, ?Hne, ?Hin, ?Hsend, ?Hsub, ?Hb'; cbn; reflexivity ];
          cbn [flag threads]
      | |- run _ [] = _ => idtac end).
    unfold run. cbn [foldl]. reflexivity.
  - split_and!; [|done|done|by vm_compute].
    constructor; cbn [flag threads]; [done|done|by vm_compute| |].
    + cbn. unfold w', rx. apply subscribe_seen.
    + intros j p Hj.
      destruct (decide (j = 0)) as [->|]; [vm_compute in Hj; by injection Hj as <-|].
      destruct (decide (j = 1)) as [->|]; [vm_compute in Hj; by injection Hj as <-|].
      destruct (decide (j = 2)) as [->|]; [vm_compute in Hj; by injection Hj as <-|].
      by rewrite !lookup_insert_ne in Hj by done.
Qed.

(** The token loop ends: among [size ts + 2] consecutive ids one is neither zero nor
    in use. *)
Fixpoint ids (n : nat) (id : Z) : list Z :=
  match n with 0 => [] | S n => id :: ids n (wrap_i32 (id + 1)) end.

Lemma wrap_i32_id z : (- 2 ^ 31 ≤ z < 2 ^ 31)%Z → wrap_i32 z = z.
Proof. intros Hz. unfold wrap_i32. rewrite Z.mod_small by lia. lia. Qed.

Lemma wrap_i32_add z k : wrap_i32 (wrap_i32 z + k) = wrap_i32 (z + k).
Proof.
  unfold wrap_i32. replace ((z + 2 ^ 31) `mod` 2 ^ 32 - 2 ^ 31 + k + 2 ^ 31)%Z
    with ((z + 2 ^ 31) `mod` 2 ^ 32 + k)%Z by lia.
  rewrite Zplus_mod_idemp_l. do 2 f_equal. lia.
Qed.

Lemma ids_lookup n id k z :
  (- 2 ^ 31 ≤ id < 2 ^ 31)%Z → ids n id !! k = Some z → z = wrap_i32 (id + Z.of_nat k).
Proof.
  revert id k. induction n as [|n IH]; intros id k Hid; [done|]. destruct k as [|k]; cbn.
  - intros [= <-]. rewrite Z.add_0_r. by rewrite wrap_i32_id.
  - intros Hk. apply IH in Hk as ->; [|apply wrap_i32_range]. rewrite wrap_i32_add. f_equal. lia.
Qed.

Lemma ids_NoDup n id :
  (- 2 ^ 31 ≤ id < 2 ^ 31)%Z → (Z.of_nat n ≤ 2 ^ 32)%Z → NoDup (ids n id).
Proof.
  intros Hid Hn. apply NoDup_alt. intros j k z Hj Hk.
  assert (length (ids n id) = n) as Hlen by (clear; revert id; induction n; simpl; auto).
  pose proof (lookup_lt_Some _ _ _ Hj). pose proof (lookup_lt_Some _ _ _ Hk).
  apply ids_lookup in Hj, Hk; [|done..]. subst z. unfold wrap_i32 in Hk.
  assert ((id + Z.of_nat j + 2 ^ 31) `mod` 2 ^ 32 = (id + Z.of_nat k + 2 ^ 31) `mod` 2 ^ 32)%Z as Hm
    by lia.
  destruct (Z.lt_trichotomy (Z.of_nat j) (Z.of_nat k)) as [Hlt|[Heq|Hlt]]; [exfalso|lia|exfalso].
  all: pose proof (Z.div_mod (id + Z.of_nat j + 2 ^ 31) (2 ^ 32) ltac:(lia)).
  all: pose proof (Z.div_mod (id + Z.of_nat k + 2 ^ 31) (2 ^ 32) ltac:(lia)).
  all: nia.
Qed.

Lemma fresh_token_range fuel id ts t id' :
  (- 2 ^ 31 ≤ id < 2 ^ 31)%Z → fresh_token fuel id ts = Some (t, id') → (- 2 ^ 31 ≤ t < 2 ^ 31)%Z.
Proof.
  revert id. induction fuel as [|fuel IH]; intros id Hid; cbn [fresh_token]; [done|].
  case_bool_decide; [by intros [= <- _]|]. apply IH, wrap_i32_range.
Qed.

Lemma fresh_token_None fuel id ts :
  fresh_token fuel id ts = None → ∀ z, z ∈ ids fuel id → z = 0%Z ∨ z ∈ ts.
Proof.
  revert id. induction fuel as [|fuel IH]; intros id; cbn [fresh_token ids].
  - intros _ z Hz. by apply not_elem_of_nil in Hz.
  - case_bool_decide as Hid; [done|]. intros Hf z [->|Hz]%elem_of_cons; [|eauto].
    destruct (decide (id = 0%Z)), (decide (id ∈ ts)); auto. destruct Hid. by split.
Qed.

Lemma fresh_token_found id ts :
  (- 2 ^ 31 ≤ id < 2 ^ 31)%Z → (Z.of_nat (size ts) + 2 ≤ 2 ^ 32)%Z →
  is_Some (fresh_token (size ts + 2) id ts).
Proof.
  intros Hid Hsize. destruct (fresh_token (size ts + 2) id ts) eqn:Hf; [done|exfalso].
  pose proof (fresh_token_None _ _ _ Hf) as Hall.
  assert (NoDup (ids (size ts + 2) id)) as Hnd by (apply ids_NoDup; [done|lia]).
  assert (list_to_set (ids (size ts + 2) id) ⊆ {[0%Z]} ∪ ts) as Hsub.
  { intros z Hz%elem_of_list_to_set. apply Hall in Hz. set_solver. }
  apply subseteq_size in Hsub. rewrite size_list_to_set in Hsub by done.
  assert (length (ids (size ts + 2) id) = size ts + 2) as Hlen
    by (clear; revert id; induction (size ts + 2); simpl; auto).
  pose proof (size_union_alt ({[0%Z]} : gset Z) ts) as Hu.
  assert (size (ts ∖ {[0%Z]}) ≤ size ts) by (apply subseteq_size; set_solver).
  rewrite size_singleton in Hu. lia.
Qed.
End facts.

Section properties.
Context {L W Rx : Type} {mutex_ops : MutexOps L} {mutex_laws : MutexLaws L}
  {watch_ops : WatchOps W Rx} {watch_laws : WatchLaws W Rx}.
Implicit Types s : system L W Rx.

(** C34.  In every reachable state of the flag: one call at most holds the token lock;
    the tokens that calls of [subscribe] got are not zero and no two calls got the same;
    while the flag is not ready, the tokens that are out are exactly those; one
    [mark_ready] at most ever succeeds, and then the flag is ready; the flag is never
    reset, whatever runs later; and a step sets it only for a [mark_ready] of a token
    that some call of [subscribe] got, or for an [is_ready] when none got any. *)
Theorem readiness_safe s :
  reachable s →
  at_most_one holds_lock (threads s) ∧
  (∀ i j p q t, threads s !! i = Some p → threads s !! j = Some q →
     token_of p = Some t → token_of q = Some t → i = j ∧ t ≠ 0%Z) ∧
  (ready (flag s) = false → ∀ t, t ∈ tokens (flag s) ↔
     ∃ i p, threads s !! i = Some p ∧ token_of p = Some t) ∧
  at_most_one marked (threads s) ∧ (some_thread marked (threads s) → ready (flag s) = true) ∧
  (ready (flag s) = true → ∀ sched, ready (flag (run s sched)) = true) ∧
  (∀ e, ready (flag s) = false → ready (flag (sys_step s e)) = true →
     ∃ i, (∃ t j q, threads s !! i = Some (Mark_locked t) ∧ threads s !! j = Some q ∧
             token_of q = Some t) ∨
          (∃ k, threads s !! i = Some (IsReady_locked k) ∧
             ∀ j q, threads s !! j = Some q → token_of q = None)).
Proof.
  intros Hs. pose proof (reachable_lock_inv s Hs) as [Hl _].
  destruct (reachable_token_inv s Hs) as [_ _ _ H4 H5], (reachable_issued_inv s Hs) as [I1 I2 I3 I4].
  split_and!; try done.
  - split; [by eapply I1|by eapply I2].
  - intros Hr t. split; [by apply I4|]. intros (i & p & ? & ?). by eapply I3.
  - intros Hr sched. by apply ready_run.
  - intros e Hr Hr'. destruct (ready_step s e) as [Heq|(_ & i & [(t & Hi & Ht)|(k & Hi & He)])];
      [congruence|exists i; left|exists i; right].
    + destruct (I4 t Hr Ht) as (j & q & ? & ?). by exists t, j, q.
    + exists k. split; [done|]. intros j q Hj. destruct (token_of q) as [t|] eqn:Hq; [|done].
      pose proof (I3 _ _ _ Hj Hq Hr) as Ht. rewrite He in Ht. by apply not_elem_of_empty in Ht.
Qed.

(** [subscribe] ends its loop on the wrapping 32-bit counter: as long as fewer
    than 2^32 - 2 tokens are out, a call holding the lock of a flag that is not ready
    gets, in its next step, a token that is not zero and not in use. *)
Theorem subscribe_finds_token s i :
  reachable s → threads s !! i = Some Subscribe_locked → ready (flag s) = false →
  (Z.of_nat (size (tokens (flag s))) + 2 ≤ 2 ^ 32)%Z →
  ∃ t, threads (sys_step s (Step i Run)) !! i = Some (Subscribe_unlock (Some t)) ∧
    (- 2 ^ 31 ≤ t < 2 ^ 31)%Z ∧ t ≠ 0%Z ∧ t ∉ tokens (flag s) ∧
    tokens (flag (sys_step s (Step i Run))) = {[t]} ∪ tokens (flag s).
Proof.
  intros Hs Hi Hr Hsize. pose proof (ti_range _ (reachable_token_inv s Hs)) as Hid.
  destruct (fresh_token_found (next_id (flag s)) (tokens (flag s)) Hid Hsize) as [[t id'] Hf].
  exists t. cbn [sys_step]. rewrite Hi. cbn [pc_step]. rewrite Hr, Hf. cbn.
  apply fresh_token_range in Hf as Ht; [|done].
  apply fresh_token_new in Hf as (? & ? & _). by rewrite lookup_insert_eq.
Qed.

(** C39.  A call of [wait_ready] that has its receiver when the value is sent returns:
    after the step that sends, every schedule that gives it two steps of its own ends
    with it returned, whatever the other calls do. *)
Theorem wait_ready_woken s i w p q :
  reachable s → threads s !! i = Some p → about_to_send p = true →
  threads s !! w = Some q → rx_of q ≠ None →
  ∀ sched, 2 ≤ own_steps w sched →
    threads (run s (Step i Run :: sched)) !! w = Some (Return RWaitReady).
Proof.
  intros Hs Hi Hp Hw Hq sched Hn. pose proof (reachable_chan_inv s Hs) as Hc.
  destruct (rx_of q) as [rx|] eqn:Hrx; [|done].
  pose proof (ci_live _ Hc _ _ _ Hw Hrx) as Hlive.
  assert (i ≠ w) as Hiw by (intros ->; simplify_eq; by destruct p).
  assert (threads (sys_step s (Step i Run)) !! w = Some q) as Hw'
    by (apply other_step; [done|by intros a [= ? _]]).
  assert (borrow (tx (flag (sys_step s (Step i Run)))) = true) as Hb.
  { cbn [sys_step]. rewrite Hi. destruct p; try done; cbn; by apply send_borrow, send_open with rx. }
  assert (∃ n, wait_rank q = Some n ∧ n ≤ 2) as (n & Hrank & Hle)
    by (destruct q; try done; eexists; (split; [done|lia])).
  destruct (wait_run (sys_step s (Step i Run)) sched w q n) as (q' & Hq' & Hr);
    [by apply chan_inv_step|done..|].
  replace (n - own_steps w sched) with 0 in Hr by lia.
  apply wait_rank_returned in Hr as ->. done.
Qed.

(** The wake-up can be lost.  There is a reachable state in which the flag is
    ready, the call that marked it has returned true, and a call of [wait_ready] waits
    for a change that no schedule brings: when [mark_ready] sent, no receiver existed,
    and [send] without a receiver does not keep the value for later ones. *)
Theorem wait_ready_lost_wakeup :
  ∃ s rx, reachable s ∧ ready (flag s) = true ∧
    threads s !! 2 = Some (Return (RMarkReady (Ok true))) ∧
    ∀ sched, threads (run s sched) !! 1 = Some (Wait_changed rx).
Proof.
  destruct lost_wakeup_state as (s & rx & Hs & Hstuck & _ & Hm & _).
  assert (reachable s) as Hr by (by exists lost_wakeup_schedule).
  exists s, rx. split_and!; [done|by destruct Hstuck|done|]. intros sched.
  eapply st_waits, stuck_run; [|done]. by apply reachable_chan_inv.
Qed.
End properties.

(** * A mutex and a watch channel in memory

    The smallest mutex and watch channel with the contracts [Readiness] relies on, and
    the theorems of [ReadinessFacts] at concrete schedules over them. *)

(** Whether the lock is held. *)
#[export] Instance mem_mutex : MutexOps bool := {|
  mutex_new := false;
  try_lock held := if held then None else Some true;
  unlock _ := false;
|}.

#[export] Instance mem_mutex_laws : MutexLaws bool.
Proof. split; [by eexists|by intros [] ?; simpl; intros; simplify_eq|by eexists]. Qed.

(** The value, and for each receiver whether it has something to see. *)
Record watch := mkWatch { value : bool; receivers : gmap nat bool }.

#[export] Instance mem_watch : WatchOps watch nat := {|
  new_channel v := (mkWatch v {[0 := false]}, 0);
  subscribe_rx w :=
    let rx := fresh (dom (receivers w)) in (mkWatch (value w) (<[rx := false]> (receivers w)), rx);
  drop_rx rx w := mkWatch (value w) (delete rx (receivers w));
  send v w :=
    if bool_decide (receivers w = ∅) then (w, false)
    else (mkWatch v ((λ _, true) <$> receivers w), true);
  borrow := value;
  has_changed rx w := default false (receivers w !! rx);
  mark_seen rx w := mkWatch (value w) (alter (λ _, false) rx (receivers w));
|}.

#[export] Instance mem_watch_laws : WatchLaws watch nat.
Proof.
  refine {| live r w := is_Some (receivers w !! r) |}; intros; cbn in *.
  - done.
  - rewrite lookup_singleton_is_Some. split; congruence.
  - pose proof (is_fresh (dom (receivers w))) as Hf. by rewrite elem_of_dom in Hf.
  - rewrite lookup_insert_is_Some'. split; intros [?|?]; auto.
  - done.
  - by rewrite lookup_insert_eq.
  - pose proof (is_fresh (dom (receivers w))) as Hf. rewrite elem_of_dom in Hf.
    rewrite lookup_insert_ne; [done|]. intros Heq. by rewrite Heq in Hf.
  - rewrite lookup_delete_is_Some. split; intros [? ?]; auto.
  - done.
  - by rewrite lookup_delete_ne.
  - rewrite bool_decide_eq_true_2; [done|]. apply map_empty. intros r.
    by apply eq_None_not_Some.
  - case_bool_decide; done.
  - case_bool_decide as Hw; [|done]. rewrite Hw, lookup_empty in H. by destruct H.
  - case_bool_decide; done.
  - case_bool_decide; [done|]. cbn. by rewrite lookup_fmap, fmap_is_Some.
  - case_bool_decide as Hw; cbn.
    + rewrite Hw, lookup_empty in H. by destruct H.
    + rewrite lookup_fmap. by destruct H as [b ->].
  - by rewrite lookup_alter_is_Some.
  - done.
  - by rewrite lookup_alter_ne.
Qed.

Definition mem_init : system bool watch nat := init.

(** Two calls subscribe, one of them marks. *)
Definition two_subscribers : list event :=
  Start 0 subscribe :: Start 1 subscribe :: replicate 4 (Step 0 Run) ++ replicate 4 (Step 1 Run) ++
  Start 2 (mark_ready 2) :: replicate 6 (Step 2 Run).

Example two_subscribers_run :
  let s := run mem_init two_subscribers in
  (ready (flag s), elements (tokens (flag s)), threads s !! 2) =
  (true, [], Some (Return (RMarkReady (Ok true)))).
Proof. vm_compute. reflexivity. Qed.

Lemma readiness_safe_witness :
  let s := run mem_init two_subscribers in
  at_most_one holds_lock (threads s) ∧
  (∀ i j p q t, threads s !! i = Some p → threads s !! j = Some q →
     token_of p = Some t → token_of q = Some t → i = j ∧ t ≠ 0%Z) ∧
  (ready (flag s) = false → ∀ t, t ∈ tokens (flag s) ↔
     ∃ i p, threads s !! i = Some p ∧ token_of p = Some t) ∧
  at_most_one marked (threads s) ∧ (some_thread marked (threads s) → ready (flag s) = true) ∧
  (ready (flag s) = true → ∀ sched, ready (flag (run s sched)) = true) ∧
  (∀ e, ready (flag s) = false → ready (flag (sys_step s e)) = true →
     ∃ i, (∃ t j q, threads s !! i = Some (Mark_locked t) ∧ threads s !! j = Some q ∧
             token_of q = Some t) ∨
          (∃ k, threads s !! i = Some (IsReady_locked k) ∧
             ∀ j q, threads s !! j = Some q → token_of q = None)).
Proof. apply (readiness_safe (run mem_init two_subscribers)). by exists two_subscribers. Defined.

Lemma subscribe_finds_token_witness :
  let s := run mem_init [Start 0 subscribe; Step 0 Run; Step 0 Run] in
  ∃ t, threads (sys_step s (Step 0 Run)) !! 0 = Some (Subscribe_unlock (Some t)) ∧
    (- 2 ^ 31 ≤ t < 2 ^ 31)%Z ∧ t ≠ 0%Z ∧ t ∉ tokens (flag s) ∧
    tokens (flag (sys_step s (Step 0 Run))) = {[t]} ∪ tokens (flag s).
Proof.
  apply (subscribe_finds_token (run mem_init [Start 0 subscribe; Step 0 Run; Step 0 Run]) 0);
    [by eexists|reflexivity|reflexivity|].
  vm_compute. discriminate.
Defined.

(** A waiter subscribes before the flag is marked. *)
Definition early_waiter : list event :=
  Start 0 subscribe :: replicate 4 (Step 0 Run) ++
  Start 1 wait_ready :: replicate 8 (Step 1 Run) ++
  Start 2 (mark_ready 1) :: replicate 5 (Step 2 Run).

Lemma wait_ready_woken_witness :
  let s := run mem_init early_waiter in
  threads s !! 1 = Some (Wait_changed 0) ∧
  threads (run s [Step 2 Run; Step 1 Run; Step 0 Run; Step 1 Run]) !! 1 = Some (Return RWaitReady).
Proof.
  split; [reflexivity|].
  apply (wait_ready_woken (run mem_init early_waiter) 2 1 Mark_send (Wait_changed 0));
    [by exists early_waiter|reflexivity|reflexivity|reflexivity|discriminate|].
  vm_compute. lia.
Defined.

Lemma wait_ready_lost_wakeup_witness :
  ∃ (s : system bool watch nat) rx, reachable s ∧ ready (flag s) = true ∧
    threads s !! 2 = Some (Return (RMarkReady (Ok true))) ∧
    ∀ sched, threads (run s sched) !! 1 = Some (Wait_changed rx).
Proof. apply (wait_ready_lost_wakeup (L:=bool) (W:=watch) (Rx:=nat)). Defined.
