(* ===== verification/TextTruncate.v ===== *)
(** * TextTruncate: the middle of a text cut out
    ([utils/string/src/truncate.rs], [TruncationPolicy] of [protocol/src/protocol.rs])

    Byte budgets are machine integers; a [&s[a..b]] slice is given by byte offsets and
    panics, here [None], unless they fall between chars. *)
From S2P Require Import Prelude RustInt RustStr.

(** [str::len] as a machine integer. *)
Definition slen (s : str) : N := N.of_nat (str_len s).
Definition clen (c : char) : N := N.of_nat (len_utf8 c).

(** [s.split_at(n)]: both sides of a byte offset. *)
Fixpoint split_at (n : N) (s : str) : option (str * str) :=
  if (n =? 0)%N then Some ([], s)
  else match s with
       | [] => None
       | c :: s' =>
           if (n <? clen c)%N then None
           else '(a, b) ← split_at (n - clen c) s'; Some (c :: a, b)
       end.

(** ** Token estimates *)

Definition APPROX_BYTES_PER_TOKEN : N := 4.

Definition approx_token_count (text : str) : N :=
  (sat_add (slen text) (sat_sub APPROX_BYTES_PER_TOKEN 1) / APPROX_BYTES_PER_TOKEN)%N.
Definition approx_bytes_for_tokens (tokens : N) : N := sat_mul tokens APPROX_BYTES_PER_TOKEN.
Definition approx_tokens_from_byte_count (bytes : N) : N :=
  (sat_add bytes (sat_sub APPROX_BYTES_PER_TOKEN 1) / APPROX_BYTES_PER_TOKEN)%N.
Definition approx_tokens_from_byte_count_i64 (bytes : Z) : Z :=
  if (bytes <=? 0)%Z then 0%Z
  else Z.min i64_max (Z.of_N (approx_tokens_from_byte_count (Z.to_N bytes))).

(** ** Splitting *)

Record split_state := mkSplit {
  prefix_end : N;
  suffix_start : N;
  removed_chars : N;
  suffix_started : bool;
}.

(** The loop over [char_indices], from the byte offset [idx]. *)
Fixpoint split_loop (beginning_bytes tail_start_target : N) (idx : N) (s : str)
    (st : split_state) : split_state :=
  match s with
  | [] => st
  | ch :: s =>
      let char_end := (idx + clen ch)%N in
      let st :=
        if (char_end <=? beginning_bytes)%N
        then mkSplit char_end (suffix_start st) (removed_chars st) (suffix_started st)
        else if (tail_start_target <=? idx)%N then
          if suffix_started st then st
          else mkSplit (prefix_end st) idx (removed_chars st) true
        else mkSplit (prefix_end st) (suffix_start st) (sat_add (removed_chars st) 1)
               (suffix_started st) in
      split_loop beginning_bytes tail_start_target char_end s st
  end.

Definition split_string (s : str) (beginning_bytes end_bytes : N) : option (N * str * str) :=
  if bool_decide (s = []) then Some (0%N, [], [])
  else
    let len := slen s in
    let tail_start_target := sat_sub len end_bytes in
    let st := split_loop beginning_bytes tail_start_target 0 s (mkSplit 0 len 0 false) in
    let suffix_start :=
      if (suffix_start st <? prefix_end st)%N then prefix_end st else suffix_start st in
    before ← fst <$> split_at (prefix_end st) s;
    after ← snd <$> split_at suffix_start s;
    Some (removed_chars st, before, after).

Definition split_budget (budget : N) : N * N :=
  let left := (budget / 2)%N in (left, (budget - left)%N).

(** The ellipsis U+2026 of the markers. *)
Definition c_ellipsis : char := 0x2026%N.

Definition format_truncation_marker (use_tokens : bool) (removed_count : N) : str :=
  if use_tokens
  then [c_ellipsis] ++ fmt_N removed_count ++ lit " tokens truncated" ++ [c_ellipsis]
  else [c_ellipsis] ++ fmt_N removed_count ++ lit " chars truncated" ++ [c_ellipsis].

Definition removed_units (use_tokens : bool) (removed_bytes removed_chars : N) : N :=
  if use_tokens then approx_tokens_from_byte_count removed_bytes else removed_chars.

Definition assemble_truncated_output (prefix suffix marker : str) : str :=
  prefix ++ marker ++ suffix.

Definition truncate_with_byte_estimate (s : str) (max_bytes : N) (use_tokens : bool) :
    option str :=
  if bool_decide (s = []) then Some []
  else
    let total_chars := len s in
    if (max_bytes =? 0)%N then
      Some (format_truncation_marker use_tokens (removed_units use_tokens (slen s) total_chars))
    else if (slen s <=? max_bytes)%N then Some s
    else
      let total_bytes := slen s in
      let '(left_budget, right_budget) := split_budget max_bytes in
      '(removed_chars, before, after) ← split_string s left_budget right_budget;
      let marker := format_truncation_marker use_tokens
        (removed_units use_tokens (sat_sub total_bytes max_bytes) removed_chars) in
      Some (assemble_truncated_output before after marker).

Definition truncate_middle_chars (s : str) (max_bytes : N) : option str :=
  truncate_with_byte_estimate s max_bytes false.

Definition truncate_middle_with_token_budget (s : str) (max_tokens : N) :
    option (str * option N) :=
  if bool_decide (s = []) then Some ([], None)
  else if (0 <? max_tokens)%N && (slen s <=? approx_bytes_for_tokens max_tokens)%N
  then Some (s, None)
  else
    truncated ← truncate_with_byte_estimate s (approx_bytes_for_tokens max_tokens) true;
    let total_tokens := approx_token_count s in
    Some (if bool_decide (truncated = s) then (truncated, None) else (truncated, Some total_tokens)).

(** ** Policies *)

Inductive TruncationPolicy := Bytes (limit : N) | Tokens (limit : N).

#[export] Instance TruncationPolicy_eq_dec : EqDecision TruncationPolicy.
Proof. solve_decision. Defined.

Definition token_budget (p : TruncationPolicy) : N :=
  match p with Bytes bytes => approx_tokens_from_byte_count bytes | Tokens tokens => tokens end.
Definition byte_budget (p : TruncationPolicy) : N :=
  match p with Bytes bytes => bytes | Tokens tokens => approx_bytes_for_tokens tokens end.

Definition truncate_text (content : str) (policy : TruncationPolicy) : option str :=
  match policy with
  | Bytes bytes => truncate_middle_chars content bytes
  | Tokens tokens => fst <$> truncate_middle_with_token_budget content tokens
  end.

Definition formatted_truncate_text (content : str) (policy : TruncationPolicy) : option str :=
  if (slen content <=? byte_budget policy)%N then Some content
  else
    result ← truncate_text content policy;
    Some (lit "Warning: truncated output (original token count: "
          ++ fmt_N (approx_token_count content) ++ lit ")" ++ [c_nl]
          ++ lit "Total output lines: " ++ fmt_usize (length (lines content))
          ++ [c_nl; c_nl] ++ result).

Example truncate_ex :
  truncate_middle_chars (lit "abcdefghij") 4 =
  Some (lit "ab" ++ [c_ellipsis] ++ lit "6 chars truncated" ++ [c_ellipsis] ++ lit "ij").
Proof. reflexivity. Qed.
Example truncate_zero_ex :
  truncate_middle_with_token_budget (lit "abcdefgh") 0 =
  Some ([c_ellipsis] ++ lit "2 tokens truncated" ++ [c_ellipsis], Some 2%N).
Proof. reflexivity. Qed.

(** * What is kept of a truncated text

    The theorems on [TextTruncate]: no slice falls inside a char, the two kept parts
    are the longest that fit their budgets, and the count of the marker is exact. *)

Local Open Scope N_scope.

Lemma slen_nil : slen [] = 0.
Proof. done. Qed.
Lemma slen_cons c s : slen (c :: s) = clen c + slen s.
Proof. unfold slen, clen. simpl. lia. Qed.
Lemma slen_app s t : slen (s ++ t) = slen s + slen t.
Proof. induction s as [|c s IH]; [done|]. rewrite <- app_comm_cons, !slen_cons, IH. lia. Qed.
Lemma clen_pos c : 1 <= clen c <= 4.
Proof. unfold clen, len_utf8. repeat case_match; lia. Qed.

Lemma slen_zero s : slen s = 0 ↔ s = [].
Proof.
  split; [|by intros ->]. destruct s as [|c s]; [done|]. rewrite slen_cons.
  pose proof (clen_pos c). lia.
Qed.

#[export] Hint Rewrite slen_cons slen_app slen_nil : codex.

(** A split at the end of a part gives the parts. *)
Lemma split_at_app a b : split_at (slen a) (a ++ b) = Some (a, b).
Proof.
  induction a as [|c a IH]; cbn [app].
  - by destruct b.
  - cbn [split_at]. rewrite slen_cons. pose proof (clen_pos c).
    rewrite (proj2 (N.eqb_neq _ 0)), (proj2 (N.ltb_ge _ _)) by lia.
    replace (clen c + slen a - clen c) with (slen a) by lia. by rewrite IH.
Qed.

(** ** The longest parts that fit *)

Fixpoint fit_prefix (budget : N) (s : str) : str * str :=
  match s with
  | [] => ([], [])
  | c :: s' =>
      if clen c <=? budget
      then let '(a, b) := fit_prefix (budget - clen c) s' in (c :: a, b)
      else ([], s)
  end.

Fixpoint fit_suffix (budget : N) (s : str) : str * str :=
  match s with
  | [] => ([], [])
  | c :: s' =>
      if slen s <=? budget then ([], s)
      else let '(a, b) := fit_suffix budget s' in (c :: a, b)
  end.

Lemma fit_prefix_spec budget s :
  let '(a, b) := fit_prefix budget s in
  s = a ++ b ∧ slen a <= budget ∧ ∀ c b', b = c :: b' → budget < slen a + clen c.
Proof.
  revert budget. induction s as [|c s IH]; intros budget; cbn [fit_prefix].
  - split_and!; [done|rewrite slen_nil; lia|done].
  - destruct (N.leb_spec (clen c) budget) as [Hc|Hc].
    + specialize (IH (budget - clen c)). destruct (fit_prefix _ s) as [a b].
      destruct IH as (-> & Ha & Hb). rewrite slen_cons. split_and!; [done|lia|].
      intros d b' Hd. specialize (Hb d b' Hd). lia.
    + split_and!; [done|rewrite slen_nil; lia|]. intros d b' [= <- _]. rewrite slen_nil. lia.
Qed.

Lemma fit_suffix_spec budget s :
  let '(a, b) := fit_suffix budget s in
  s = a ++ b ∧ slen b <= budget ∧ ∀ a' c, a = a' ++ [c] → budget < clen c + slen b.
Proof.
  induction s as [|c s IH]; cbn [fit_suffix].
  - split_and!; [done|rewrite slen_nil; lia|]. by intros [] ?.
  - destruct (N.leb_spec (slen (c :: s)) budget) as [Hc|Hc].
    + split_and!; [done|done|]. by intros [] ?.
    + destruct (fit_suffix budget s) as [a b]. destruct IH as (-> & Hb & Ha).
      split_and!; [done|done|]. intros a' d Hd. destruct a' as [|x a'].
      * injection Hd as <- ->. cbn [app] in Hc. by rewrite slen_cons in Hc.
      * injection Hd as _ ->. by apply (Ha a').
Qed.

(** ** The loop *)

Section loop.
Context (B E total : N).
Notation T := (sat_sub total E).

(** Past the prefix, chars are removed until the suffix starts. *)
Lemma split_loop_suffix idx s st :
  suffix_started st = true → B < idx + (if s is c :: _ then clen c else 1) →
  T <= idx → split_loop B T idx s st = st.
Proof.
  revert idx. induction s as [|c s IH]; intros idx Hst HB HT; cbn [split_loop]; [done|].
  destruct (N.leb_spec (idx + clen c) B); [lia|]. destruct (N.leb_spec T idx); [|lia].
  rewrite Hst. pose proof (clen_pos c). apply IH; [done| |lia]. destruct s as [|d s]; [lia|].
  pose proof (clen_pos d). lia.
Qed.

Lemma split_loop_middle idx s st n :
  suffix_started st = false → removed_chars st = count n → suffix_start st = total →
  B < idx + (if s is c :: _ then clen c else 1) → idx + slen s = total →
  let '(a, b) := fit_suffix E s in
  ∃ started, split_loop B T idx s st =
    mkSplit (prefix_end st) (total - slen b) (count (n + length a)) started.
Proof.
  revert idx st n. induction s as [|c s IH]; intros idx st n Hst Hn Hs HB Htot; cbn [fit_suffix split_loop].
  - exists false. destruct st; simpl in *. subst. rewrite Nat.add_0_r, slen_nil. f_equal. lia.
  - rewrite slen_cons in *. destruct (N.leb_spec (idx + clen c) B); [lia|]. unfold sat_sub in *.
    pose proof (clen_pos c) as Hc.
    assert (B < idx + clen c + (if s is c :: _ then clen c else 1)) as HB'.
    { destruct s as [|d s]; [lia|]. pose proof (clen_pos d). lia. }
    destruct (N.leb_spec (clen c + slen s) E) as [Hfit|Hfit].
    + destruct (N.leb_spec (total - E) idx); [|lia]. rewrite Hst. exists true.
      pose proof (split_loop_suffix (idx + clen c) s (mkSplit (prefix_end st) idx (removed_chars st) true)) as Hl.
      unfold sat_sub in Hl. rewrite Hl by (done || lia). simpl. rewrite Hn, Nat.add_0_r, slen_cons.
      f_equal. lia.
    + destruct (N.leb_spec (total - E) idx); [lia|].
      specialize (IH (idx + clen c) (mkSplit (prefix_end st) (suffix_start st)
        (sat_add (removed_chars st) 1) (suffix_started st)) (n + 1)%nat).
      destruct (fit_suffix E s) as [a b]. destruct IH as [started IH]; simpl; [done| |done|done|lia|].
      { rewrite Hn. apply (count_add_len n 1). }
      exists started. rewrite IH. simpl. f_equal. f_equal. lia.
Qed.

Lemma split_loop_prefix idx s st :
  suffix_started st = false → removed_chars st = count 0 → suffix_start st = total →
  prefix_end st = idx → idx <= B → idx + slen s = total →
  let '(before, rest) := fit_prefix (B - idx) s in
  let '(a, b) := fit_suffix E rest in
  ∃ started, split_loop B T idx s st =
    mkSplit (idx + slen before) (total - slen b) (count (length a)) started.
Proof.
  revert idx st. induction s as [|c s IH]; intros idx st Hst Hn Hs Hp HB Htot; cbn [fit_prefix].
  - cbn [fit_suffix split_loop]. exists false. destruct st; simpl in *. subst. rewrite slen_nil.
    f_equal; lia.
  - rewrite slen_cons in Htot. pose proof (clen_pos c).
    destruct (N.leb_spec (clen c) (B - idx)) as [Hc|Hc].
    + cbn [split_loop]. destruct (N.leb_spec (idx + clen c) B); [|lia].
      specialize (IH (idx + clen c) (mkSplit (idx + clen c) (suffix_start st) (removed_chars st)
        (suffix_started st))).
      replace (B - (idx + clen c)) with (B - idx - clen c) in IH by lia.
      destruct (fit_prefix (B - idx - clen c) s) as [a b].
      destruct (fit_suffix E b) as [a2 b2].
      destruct IH as [started IH]; simpl; [done|done|done|done|lia|lia|].
      exists started. rewrite IH, slen_cons. f_equal. lia.
    + pose proof (split_loop_middle idx (c :: s) st 0 Hst Hn Hs) as Hm.
      destruct (fit_suffix E (c :: s)) as [a b]. destruct Hm as [started Hm];
        [lia|rewrite slen_cons; lia|]. exists started. rewrite Hm, Hp, slen_nil.
      simpl. f_equal. lia.
Qed.
End loop.

(** [split_string] never slices inside a char. *)
Lemma split_string_fit s B E :
  let '(before, rest) := fit_prefix B s in
  let '(mid, after) := fit_suffix E rest in
  split_string s B E = Some (count (length mid), before, after).
Proof.
  pose proof (fit_prefix_spec B s) as Hp. pose proof (split_loop_prefix B E (slen s) 0 s
    (mkSplit 0 (slen s) 0 false) eq_refl eq_refl eq_refl eq_refl) as Hl.
  rewrite N.sub_0_r in Hl. destruct (fit_prefix B s) as [before rest] eqn:Hfp.
  pose proof (fit_suffix_spec E rest) as Hs. destruct (fit_suffix E rest) as [mid after].
  destruct Hp as (Hsplit & _ & _), Hs as (Hrest & _ & _).
  destruct Hl as [started Hl]; [lia|lia|]. unfold split_string. case_bool_decide as Hs0.
  { subst s. by destruct before, rest, mid, after. }
  rewrite Hl. cbn [prefix_end suffix_start removed_chars]. rewrite N.add_0_l.
  assert (slen s = slen before + slen mid + slen after) as Hlen
    by (rewrite Hsplit, Hrest, !slen_app; lia).
  destruct (N.ltb_spec (slen s - slen after) (slen before)); [lia|].
  replace (slen s - slen after) with (slen (before ++ mid)) by (rewrite slen_app; lia).
  assert (split_at (slen before) s = Some (before, rest)) as -> by (rewrite Hsplit; apply split_at_app).
  assert (split_at (slen (before ++ mid)) s = Some (before ++ mid, after)) as ->
    by (rewrite Hsplit, Hrest, app_assoc; apply split_at_app).
  done.
Qed.

(** ** Truncated texts *)

(** The parts of a text cut to a budget: the longest beginning and end whose bytes fit
    its two halves. *)
Record cut (s : str) (budget : N) (before mid after : str) : Prop := {
  cut_text : s = before ++ mid ++ after;
  cut_removed : mid ≠ [];
  cut_before : slen before <= budget / 2;
  cut_after : slen after <= budget - budget / 2;
  cut_before_longest c rest : mid ++ after = c :: rest → budget / 2 < slen before + clen c;
  cut_after_longest mid' c : mid = mid' ++ [c] → budget - budget / 2 < clen c + slen after;
}.

Lemma half_le n : n / 2 <= n.
Proof. pose proof (N.Div0.mul_div_le n 2). lia. Qed.

Lemma split_string_cut s budget :
  budget < slen s →
  ∃ before mid after, cut s budget before mid after ∧
    split_string s (budget / 2) (budget - budget / 2) = Some (count (length mid), before, after).
Proof.
  intros Hs. pose proof (split_string_fit s (budget / 2) (budget - budget / 2)) as Hf.
  pose proof (fit_prefix_spec (budget / 2) s) as Hp. destruct (fit_prefix _ s) as [before rest].
  pose proof (fit_suffix_spec (budget - budget / 2) rest) as Hr.
  destruct (fit_suffix _ rest) as [mid after]. destruct Hp as (H1 & H2 & H3), Hr as (H4 & H5 & H6).
  exists before, mid, after. split; [|done]. constructor; try done.
  - by rewrite <- H4.
  - intros ->. subst. cbn [app] in *. rewrite slen_app in Hs. pose proof (half_le budget). lia.
  - intros c rest' Hc. apply (H3 c rest'). by rewrite H4.
Qed.

Lemma cut_all s : s ≠ [] → cut s 0 [] s [].
Proof.
  intros Hs. constructor; rewrite ?slen_nil; try done; try lia.
  - by rewrite app_nil_r.
  - intros c rest _. pose proof (clen_pos c). change (0 / 2) with 0. lia.
  - intros mid' c _. pose proof (clen_pos c). change (0 - 0 / 2) with 0. lia.
Qed.

(** The units a marker counts: the chars removed, or the tokens of the excess bytes. *)
Definition marker_count (use_tokens : bool) (s : str) (budget : N) (mid : str) : N :=
  if use_tokens then div_ceil (slen s - budget) APPROX_BYTES_PER_TOKEN else len mid.

Lemma removed_units_exact use_tokens s budget mid :
  slen s + 3 <= usize_max → (len mid <= slen s) →
  removed_units use_tokens (sat_sub (slen s) budget) (count (length mid)) =
  marker_count use_tokens s budget mid.
Proof.
  intros Hs Hm. unfold removed_units, marker_count. destruct use_tokens.
  - unfold approx_tokens_from_byte_count, div_ceil, sat_sub, APPROX_BYTES_PER_TOKEN.
    by rewrite sat_add_exact by lia.
  - unfold count, len in *. lia.
Qed.

Lemma len_le_slen s : len s <= slen s.
Proof.
  induction s as [|c s IH]; [done|]. rewrite slen_cons. pose proof (clen_pos c).
  unfold len in *. simpl. lia.
Qed.

Lemma truncate_with_byte_estimate_cut s budget use_tokens :
  slen s + 3 <= usize_max →
  if decide (slen s <= budget) then truncate_with_byte_estimate s budget use_tokens = Some s
  else ∃ before mid after, cut s budget before mid after ∧
    truncate_with_byte_estimate s budget use_tokens =
    Some (before ++ format_truncation_marker use_tokens (marker_count use_tokens s budget mid) ++ after).
Proof.
  intros Hmax. unfold truncate_with_byte_estimate. case_decide as Hle; case_bool_decide as Hs.
  - by subst.
  - assert (slen s ≠ 0) by by rewrite slen_zero.
    rewrite (proj2 (N.eqb_neq budget 0)), (proj2 (N.leb_le (slen s) budget)) by lia. done.
  - subst. rewrite slen_nil in Hle. lia.
  - destruct (N.eqb_spec budget 0) as [->|Hb].
    + exists [], s, []. split; [by apply cut_all|]. cbn [app]. rewrite app_nil_r.
      rewrite <- removed_units_exact by (done || apply len_le_slen). do 3 f_equal.
      * unfold sat_sub. lia.
      * pose proof (len_le_slen s). unfold count, len in *. lia.
    + destruct (N.leb_spec (slen s) budget); [lia|]. unfold split_budget.
      destruct (split_string_cut s budget) as (before & mid & after & Hcut & ->); [lia|].
      exists before, mid, after. split; [done|]. cbn. unfold assemble_truncated_output.
      rewrite removed_units_exact; [done|done|]. pose proof (len_le_slen s) as Hl.
      rewrite (cut_text _ _ _ _ _ Hcut) in Hl at 1. rewrite !len_app in Hl. lia.
Qed.

(** A string in memory is shorter than [isize::MAX]. *)
Lemma in_memory s : slen s <= Z.to_N i64_max → slen s + 3 <= usize_max.
Proof. intros Hs. etrans; [apply N.add_le_mono_r, Hs|]. by vm_compute. Qed.

Lemma truncate_with_byte_estimate_total s budget use_tokens :
  slen s + 3 <= usize_max → ∃ r, truncate_with_byte_estimate s budget use_tokens = Some r.
Proof.
  intros Hs. pose proof (truncate_with_byte_estimate_cut s budget use_tokens Hs) as Ht.
  case_decide; [eauto|]. destruct Ht as (before & mid & after & _ & Ht). eauto.
Qed.

Lemma truncate_text_total content policy :
  slen content <= Z.to_N i64_max → ∃ r, truncate_text content policy = Some r.
Proof.
  intros Hs%in_memory. destruct policy as [limit|limit]; cbn [truncate_text].
  - by apply truncate_with_byte_estimate_total.
  - unfold truncate_middle_with_token_budget.
    destruct (truncate_with_byte_estimate_total content (approx_bytes_for_tokens limit) true Hs) as [r ->].
    repeat case_match; cbn; repeat case_match; simplify_eq/=; eauto.
Qed.

(** [truncate_text] of a text that fits in memory never fails: a text within its
    budget is returned as it is; any other keeps the longest beginning and the longest
    end that fit half the byte budget each, whole chars only, around a marker with the
    exact number of chars removed, or of the tokens of the excess bytes. *)
Theorem truncate_text_cut content policy :
  slen content <= Z.to_N i64_max →
  let budget := byte_budget policy in
  let use_tokens := if policy is Tokens _ then true else false in
  if decide (slen content <= budget) then truncate_text content policy = Some content
  else ∃ before mid after, cut content budget before mid after ∧
    truncate_text content policy = Some (before ++
      format_truncation_marker use_tokens (marker_count use_tokens content budget mid) ++ after).
Proof.
  intros Hmax%in_memory.
  destruct policy as [limit|limit]; cbn [byte_budget truncate_text].
  - apply (truncate_with_byte_estimate_cut content limit false Hmax).
  - unfold truncate_middle_with_token_budget.
    pose proof (truncate_with_byte_estimate_cut content (approx_bytes_for_tokens limit) true Hmax) as Ht.
    assert (approx_bytes_for_tokens limit = 0 ↔ limit = 0) as Hz.
    { unfold approx_bytes_for_tokens, sat_mul, APPROX_BYTES_PER_TOKEN, usize_max. lia. }
    case_decide as Hle; case_bool_decide as Hs.
    + by subst.
    + assert (slen content ≠ 0) by by rewrite slen_zero.
      destruct (N.ltb_spec 0 limit); [|lia]. by rewrite (proj2 (N.leb_le _ _)).
    + subst. rewrite slen_nil in Hle. lia.
    + destruct Ht as (before & mid & after & Hcut & Ht). exists before, mid, after. split; [done|].
      destruct (N.leb_spec (slen content) (approx_bytes_for_tokens limit)); [lia|].
      rewrite andb_false_r, Ht. cbn. by case_bool_decide.
Qed.

Lemma truncate_text_cut_witness :
  ∃ before mid after, cut (lit "abcdefghij") 4 before mid after ∧
    truncate_text (lit "abcdefghij") (Tokens 1) = Some (before ++
      format_truncation_marker true (marker_count true (lit "abcdefghij") 4 mid) ++ after).
Proof.
  apply (truncate_text_cut (lit "abcdefghij") (Tokens 1)). by vm_compute.
Defined.
