(* ===== verification/ResponseItems.v ===== *)
(** * ResponseItems: the items of a conversation
    ([protocol/src/models.rs], [history/src/lib.rs], [context-fragments])

    The model-history items with all their variants and fields, their envelopes, and
    the reading and writing of a message's content with its classifications.  JSON
    values and the records of executed tool calls, which the modelled code only moves
    around, are the types of [Opaque]. *)
From S2P Require Import Prelude RustStr.

Class Opaque := { JsonValue : Type; JsonNumber : Type; ExecutedToolCall : Type }.

(** [ResponseItemId(String)]. *)
Abbreviation ResponseItemId := (list N) (only parsing).

Inductive ImageDetail := DetailAuto | DetailLow | DetailHigh | DetailOriginal.

Inductive ContentItem :=
| InputText (text : str)
| InputImage (image_url : str) (detail : option ImageDetail)
| InputAudio (audio_url : str)
| OutputText (text : str).

Inductive AgentMessageInputContent :=
| AgentInputText (text : str)
| AgentEncryptedContent (encrypted_content : str).

Inductive MessagePhase := Commentary | FinalAnswer.
Inductive ReasoningItemReasoningSummary := SummaryText (text : str).
Inductive ReasoningItemContent := ReasoningText (text : str) | ReasoningPlainText (text : str).
Inductive LocalShellStatus := ShellCompleted | ShellInProgress | ShellIncomplete.

Record LocalShellExecAction := mkExecAction {
  exec_command : list str;
  exec_timeout_ms : option N;
  exec_working_directory : option str;
  exec_env : option (gmap str str);
  exec_user : option str;
}.
Inductive LocalShellAction := Exec (a : LocalShellExecAction).

Inductive WebSearchAction :=
| WebSearch (query : option str) (queries : option (list str))
| WebOpenPage (url : option str)
| WebFindInPage (url pattern : option str)
| WebOther.

Inductive ReasoningEffort :=
| EffortNone | EffortMinimal | EffortLow | EffortMedium | EffortHigh | EffortXHigh | EffortMax
| EffortUltra | EffortPersistent | EffortCustom (value : str).
Record ConfigurationReasoning := mkConfigurationReasoning { effort : ReasoningEffort }.

(** ** Outputs of function calls *)

Inductive FunctionCallOutputContentItem :=
| OutInputText (text : str)
| OutInputImage (image_url : str) (detail : option ImageDetail)
| OutInputAudio (audio_url : str)
| OutEncryptedContent (encrypted_content : str).

Inductive FunctionCallOutputBody :=
| TextBody (content : str)
| ContentItems (items : list FunctionCallOutputContentItem).

Record FunctionCallOutputPayload := mkPayload {
  body : FunctionCallOutputBody;
  success : option bool;
}.

Definition from_text (content : str) : FunctionCallOutputPayload :=
  mkPayload (TextBody content) None.

Definition content_items (p : FunctionCallOutputPayload) :
    option (list FunctionCallOutputContentItem) :=
  match body p with TextBody _ => None | ContentItems items => Some items end.

(** Writing through [content_items_mut]. *)
Definition map_content_items
    (f : list FunctionCallOutputContentItem → list FunctionCallOutputContentItem)
    (p : FunctionCallOutputPayload) : FunctionCallOutputPayload :=
  match body p with
  | TextBody _ => p
  | ContentItems items => mkPayload (ContentItems (f items)) (success p)
  end.

(** A content item and its classification. *)
Abbreviation AnnotatedContent := (ContentItem * list N)%type (only parsing).

(** ** Items *)

Section items.
Context `{Opaque}.

Record MessageMetadata := mkMetadata {
  turn_id_field : option str;
  create_time : option JsonNumber;
  content_item_kinds : option (list str);
  cell_id : option str;
  executed_tool_calls : option (list ExecutedToolCall);
  tool_calls_complete : option bool;
}.
Definition default_metadata : MessageMetadata := mkMetadata None None None None None None.
Definition set_kinds (ks : option (list str)) (m : MessageMetadata) : MessageMetadata :=
  mkMetadata (turn_id_field m) (create_time m) ks (cell_id m) (executed_tool_calls m)
    (tool_calls_complete m).

(** [meta] is the field [internal_chat_message_metadata_passthrough]. *)
Inductive ResponseItem :=
| AdditionalTools (id : option ResponseItemId) (role : str) (tools : list JsonValue)
| Message (id : option ResponseItemId) (role : str) (content : list ContentItem)
    (phase : option MessagePhase) (meta : option MessageMetadata)
| AgentMessage (id : option ResponseItemId) (author recipient : str)
    (content : list AgentMessageInputContent) (meta : option MessageMetadata)
| Reasoning (id : option ResponseItemId) (summary : list ReasoningItemReasoningSummary)
    (content : option (list ReasoningItemContent)) (encrypted_content : option str)
    (meta : option MessageMetadata)
| LocalShellCall (id : option ResponseItemId) (call_id : option str) (status : LocalShellStatus)
    (action : LocalShellAction) (meta : option MessageMetadata)
| FunctionCall (id : option ResponseItemId) (name : str) (namespace : option str)
    (arguments : str) (encrypted_function_args : option (list str)) (call_id : str)
    (meta : option MessageMetadata)
| ToolSearchCall (id : option ResponseItemId) (call_id : option str) (status : option str)
    (execution : str) (arguments : JsonValue) (meta : option MessageMetadata)
| FunctionCallOutput (id : option ResponseItemId) (call_id : option str) (name : option str)
    (namespace : option str) (output : FunctionCallOutputPayload) (meta : option MessageMetadata)
| CustomToolCall (id : option ResponseItemId) (status : option str) (call_id name : str)
    (namespace : option str) (input : str) (meta : option MessageMetadata)
| CustomToolCallOutput (id : option ResponseItemId) (call_id : str) (name : option str)
    (output : FunctionCallOutputPayload) (meta : option MessageMetadata)
| ToolSearchOutput (id : option ResponseItemId) (call_id : option str) (status execution : str)
    (tools : list JsonValue) (meta : option MessageMetadata)
| WebSearchCall (id : option ResponseItemId) (status : option str)
    (action : option WebSearchAction) (meta : option MessageMetadata)
| ImageGenerationCall (id : option ResponseItemId) (status : str) (revised_prompt : option str)
    (result : str) (meta : option MessageMetadata)
| Compaction (id : option ResponseItemId) (encrypted_content : str) (meta : option MessageMetadata)
| ConfigurationUpdate (reasoning : ConfigurationReasoning)
| CompactionTrigger
| ContextCompaction (id : option ResponseItemId) (encrypted_content : option str)
    (meta : option MessageMetadata)
| OtherItem.

(** [ResponseItem::id]. *)
Definition item_id (item : ResponseItem) : option ResponseItemId :=
  match item with
  | AdditionalTools id _ _ | Message id _ _ _ _ | AgentMessage id _ _ _ _ | Reasoning id _ _ _ _
  | LocalShellCall id _ _ _ _ | FunctionCall id _ _ _ _ _ _ | ToolSearchCall id _ _ _ _ _
  | FunctionCallOutput id _ _ _ _ _ | CustomToolCall id _ _ _ _ _ _
  | CustomToolCallOutput id _ _ _ _ | ToolSearchOutput id _ _ _ _ _ | WebSearchCall id _ _ _
  | ImageGenerationCall id _ _ _ _ | Compaction id _ _ | ContextCompaction id _ _ => id
  | ConfigurationUpdate _ | CompactionTrigger | OtherItem => None
  end.

Definition is_user_message (item : ResponseItem) : bool :=
  match item with Message _ role _ _ _ => bool_decide (role = lit "user") | _ => false end.

Definition item_metadata (item : ResponseItem) : option MessageMetadata :=
  match item with
  | Message _ _ _ _ m | AgentMessage _ _ _ _ m | Reasoning _ _ _ _ m | LocalShellCall _ _ _ _ m
  | FunctionCall _ _ _ _ _ _ m | ToolSearchCall _ _ _ _ _ m | FunctionCallOutput _ _ _ _ _ m
  | CustomToolCall _ _ _ _ _ _ m | CustomToolCallOutput _ _ _ _ m | ToolSearchOutput _ _ _ _ _ m
  | WebSearchCall _ _ _ m | ImageGenerationCall _ _ _ _ m | Compaction _ _ m
  | ContextCompaction _ _ m => m
  | ConfigurationUpdate _ | CompactionTrigger | AdditionalTools _ _ _ | OtherItem => None
  end.

(** [turn_id]: the turn ID stamped on the item, when it is not empty. *)
Definition turn_id (item : ResponseItem) : option str :=
  match item_metadata item ≫= turn_id_field with
  | Some t => if bool_decide (t = []) then None else Some t
  | None => None
  end.

(** ** Envelopes *)

Record CodexHarnessMetadata := mkHarness {
  client_authored : bool;
  history_truncation_token_limit : option N;
  harness_authored_configuration : bool;
  compaction_model_hash : option str;
  user_input_order : option N;
  inherited_user_message : bool;
}.

Record ResponseItemEnvelope := mkEnvelope {
  item : ResponseItem;
  metadata : option CodexHarnessMetadata;
}.
Definition envelope (i : ResponseItem) : ResponseItemEnvelope := mkEnvelope i None.
Definition with_item (f : ResponseItem → ResponseItem) (e : ResponseItemEnvelope) :
    ResponseItemEnvelope := mkEnvelope (f (item e)) (metadata e).

(** ** Annotated content *)

(** The classifications, continued with ["unknown"]. *)
Fixpoint annotate (content : list ContentItem) (kinds : list str) : list AnnotatedContent :=
  match content, kinds with
  | [], _ => []
  | c :: content, k :: kinds => (c, k) :: annotate content kinds
  | c :: content, [] => (c, lit "unknown") :: annotate content []
  end.

(** [to_annotated_content] of a message: it takes the content and the classifications
    out of the item, which is returned without them. *)
Definition to_annotated_content (i : ResponseItem) : option (ResponseItem * list AnnotatedContent) :=
  match i with
  | Message id role content phase meta =>
      let kinds := default [] (meta ≫= content_item_kinds) in
      Some (Message id role [] phase (set_kinds None <$> meta), annotate content kinds)
  | _ => None
  end.

Definition set_annotated_content (i : ResponseItem) (ac : list AnnotatedContent) :
    option ResponseItem :=
  match i with
  | Message id role _ phase meta =>
      let m := default default_metadata meta in
      Some (Message id role (fst <$> ac) phase (Some (set_kinds (Some (snd <$> ac)) m)))
  | _ => None
  end.
End items.
