(* ===== verification/Normalize.v ===== *)
(** * Normalize: calls and outputs kept in pairs
    ([core/src/context_manager/normalize.rs])

    What is done to the history before it is sent: outputs missing for a call are
    added, outputs without a call are dropped, media the model cannot read are
    replaced by a note. *)
From stdpp Require Import sets.
From S2P Require Import Prelude RustStr ResponseItems.

(** [UUID::new_v5] and the [Display] of a UUID are the [uuid] crate's. *)
Class UuidV5 := { new_v5 : N → str → str }.

Definition SYNTHETIC_OUTPUT_ID_NAMESPACE : N := 0x90d38d3e6a5b4d52bfe22f1e634bfac4%N.

(** A computation that panics is [None]. *)
Definition error_or_panic (debug_assertions : bool) : option unit :=
  if debug_assertions then None else Some tt.

Section normalize.
Context `{Opaque, UuidV5}.
(** [cfg!(debug_assertions)] of the build. *)
Context (debug_assertions : bool).
Implicit Types (items : list ResponseItemEnvelope).

(** [ResponseItemId::with_suffix]. *)
Definition with_suffix (prefix suffix : str) : ResponseItemId := prefix ++ lit "_" ++ suffix.

Definition synthetic_output_id (prefix : str) (item_id : option str) : option ResponseItemId :=
  match item_id with
  | Some source_id =>
      if bool_decide (source_id = []) then None
      else
        let name := prefix ++ lit ":" ++ source_id in
        Some (with_suffix prefix (new_v5 SYNTHETIC_OUTPUT_ID_NAMESPACE name))
  | None => None
  end.

(** ** Outputs that are missing *)

(** The sets of output ids, one per kind of output. *)
Record id_sets := mkIds {
  function_ids : gset str;
  tool_search_ids : gset str;
  custom_tool_ids : gset str;
}.
Definition no_ids : id_sets := mkIds ∅ ∅ ∅.

Definition add_output_id (ids : id_sets) (e : ResponseItemEnvelope) : id_sets :=
  match item e with
  | FunctionCallOutput _ (Some call_id) _ _ _ _ =>
      mkIds ({[call_id]} ∪ function_ids ids) (tool_search_ids ids) (custom_tool_ids ids)
  | ToolSearchOutput _ (Some call_id) _ _ _ _ =>
      mkIds (function_ids ids) ({[call_id]} ∪ tool_search_ids ids) (custom_tool_ids ids)
  | CustomToolCallOutput _ call_id _ _ _ =>
      mkIds (function_ids ids) (tool_search_ids ids) ({[call_id]} ∪ custom_tool_ids ids)
  | _ => ids
  end.
Definition output_ids items : id_sets := foldl add_output_id no_ids items.

(** The synthetic output of a call without one; the custom and the shell calls are
    reported as errors first. *)
Definition missing_output (ids : id_sets) (e : ResponseItemEnvelope) :
    option (option ResponseItemEnvelope) :=
  match item e with
  | FunctionCall id _ _ _ _ call_id _ =>
      if bool_decide (call_id ∈ function_ids ids) then Some None
      else Some (Some (envelope (FunctionCallOutput (synthetic_output_id (lit "fco") id)
                  (Some call_id) None None (from_text (lit "aborted")) None)))
  | ToolSearchCall id (Some call_id) _ _ _ _ =>
      if bool_decide (call_id ∈ tool_search_ids ids) then Some None
      else Some (Some (envelope (ToolSearchOutput (synthetic_output_id (lit "tso") id)
                  (Some call_id) (lit "completed") (lit "client") [] None)))
  | CustomToolCall id _ call_id _ _ _ _ =>
      if bool_decide (call_id ∈ custom_tool_ids ids) then Some None
      else
        error_or_panic debug_assertions;;
        Some (Some (envelope (CustomToolCallOutput (synthetic_output_id (lit "ctco") id)
                  call_id None (from_text (lit "aborted")) None)))
  | LocalShellCall id (Some call_id) _ _ _ =>
      if bool_decide (call_id ∈ function_ids ids) then Some None
      else
        error_or_panic debug_assertions;;
        Some (Some (envelope (FunctionCallOutput (synthetic_output_id (lit "fco") id)
                  (Some call_id) None None (from_text (lit "aborted")) None)))
  | _ => Some None
  end.

(** The loop over the items with their positions. *)
Fixpoint missing_outputs (ids : id_sets) (idx : nat) items :
    option (list (nat * ResponseItemEnvelope)) :=
  match items with
  | [] => Some []
  | e :: items =>
      o ← missing_output ids e;
      rest ← missing_outputs ids (S idx) items;
      Some (match o with Some out => (idx, out) :: rest | None => rest end)
  end.

(** [Vec::insert]; an index past the end panics. *)
Definition vec_insert {A} (idx : nat) (x : A) (l : list A) : option (list A) :=
  if idx <=? length l then Some (take idx l ++ x :: drop idx l) else None.

(** The insertions, in reverse index order. *)
Fixpoint insert_all (l : list (nat * ResponseItemEnvelope)) items :
    option (list ResponseItemEnvelope) :=
  match l with
  | [] => Some items
  | (idx, output_item) :: l => items ← vec_insert (idx + 1) output_item items; insert_all l items
  end.

Definition ensure_call_outputs_present items : option (list ResponseItemEnvelope) :=
  missing ← missing_outputs (output_ids items) 0 items;
  insert_all (reverse missing) items.

(** ** Outputs without a call *)

Definition add_call_id (ids : id_sets) (e : ResponseItemEnvelope) : id_sets :=
  match item e with
  | FunctionCall _ _ _ _ _ call_id _ | LocalShellCall _ (Some call_id) _ _ _ =>
      mkIds ({[call_id]} ∪ function_ids ids) (tool_search_ids ids) (custom_tool_ids ids)
  | ToolSearchCall _ (Some call_id) _ _ _ _ =>
      mkIds (function_ids ids) ({[call_id]} ∪ tool_search_ids ids) (custom_tool_ids ids)
  | CustomToolCall _ _ call_id _ _ _ _ =>
      mkIds (function_ids ids) (tool_search_ids ids) ({[call_id]} ∪ custom_tool_ids ids)
  | _ => ids
  end.
Definition call_ids items : id_sets := foldl add_call_id no_ids items.

Definition is_orphan (ids : id_sets) (e : ResponseItemEnvelope) : bool :=
  match item e with
  | FunctionCallOutput _ (Some call_id) _ _ _ _ => bool_decide (call_id ∉ function_ids ids)
  | CustomToolCallOutput _ call_id _ _ _ => bool_decide (call_id ∉ custom_tool_ids ids)
  | ToolSearchOutput _ (Some call_id) _ execution _ _ =>
      bool_decide (execution ≠ lit "server") && bool_decide (call_id ∉ tool_search_ids ids)
  | _ => false
  end.

(** The positions of the orphans; each is reported as an error. *)
Fixpoint orphan_positions (ids : id_sets) (position : nat) items : option (list nat) :=
  match items with
  | [] => Some []
  | e :: items =>
      if is_orphan ids e then
        error_or_panic debug_assertions;;
        rest ← orphan_positions ids (S position) items; Some (position :: rest)
      else orphan_positions ids (S position) items
  end.

(** [retain] with the peekable positions. *)
Fixpoint retain_positions (orphans : list nat) (position : nat) items : list ResponseItemEnvelope :=
  match items with
  | [] => []
  | e :: items =>
      match orphans with
      | o :: orphans' =>
          if o =? position then retain_positions orphans' (S position) items
          else e :: retain_positions orphans (S position) items
      | [] => e :: retain_positions [] (S position) items
      end
  end.

Definition remove_orphan_outputs items : option (list ResponseItemEnvelope) :=
  positions ← orphan_positions (call_ids items) 0 items;
  Some (match positions with [] => items | _ => retain_positions positions 0 items end).

(** ** The counterpart of an item *)

(** The first item satisfying [p], removed. *)
Fixpoint remove_first_matching (p : ResponseItem → bool) items : list ResponseItemEnvelope :=
  match items with
  | [] => []
  | e :: items => if p (item e) then items else e :: remove_first_matching p items
  end.
Definition has_matching (p : ResponseItem → bool) items : bool := existsb (p ∘ item) items.

Definition is_function_call (call_id : str) (i : ResponseItem) : bool :=
  match i with FunctionCall _ _ _ _ _ existing _ => bool_decide (existing = call_id) | _ => false end.
Definition is_local_shell_call (call_id : str) (i : ResponseItem) : bool :=
  match i with
  | LocalShellCall _ (Some existing) _ _ _ => bool_decide (existing = call_id) | _ => false end.
Definition is_function_call_output (call_id : str) (i : ResponseItem) : bool :=
  match i with
  | FunctionCallOutput _ (Some existing) _ _ _ _ => bool_decide (existing = call_id) | _ => false end.
Definition is_tool_search_call (call_id : str) (i : ResponseItem) : bool :=
  match i with
  | ToolSearchCall _ (Some existing) _ _ _ _ => bool_decide (existing = call_id) | _ => false end.
Definition is_tool_search_output (call_id : str) (i : ResponseItem) : bool :=
  match i with
  | ToolSearchOutput _ (Some existing) _ _ _ _ => bool_decide (existing = call_id) | _ => false end.
Definition is_custom_tool_call (call_id : str) (i : ResponseItem) : bool :=
  match i with CustomToolCall _ _ existing _ _ _ _ => bool_decide (existing = call_id) | _ => false end.
Definition is_custom_tool_call_output (call_id : str) (i : ResponseItem) : bool :=
  match i with
  | CustomToolCallOutput _ existing _ _ _ => bool_decide (existing = call_id) | _ => false end.

Definition remove_corresponding_for (i : ResponseItem) items : list ResponseItemEnvelope :=
  match i with
  | FunctionCall _ _ _ _ _ call_id _ | LocalShellCall _ (Some call_id) _ _ _ =>
      remove_first_matching (is_function_call_output call_id) items
  | FunctionCallOutput _ (Some call_id) _ _ _ _ =>
      if has_matching (is_function_call call_id) items
      then remove_first_matching (is_function_call call_id) items
      else remove_first_matching (is_local_shell_call call_id) items
  | ToolSearchCall _ (Some call_id) _ _ _ _ =>
      remove_first_matching (is_tool_search_output call_id) items
  | ToolSearchOutput _ (Some call_id) _ _ _ _ =>
      remove_first_matching (is_tool_search_call call_id) items
  | CustomToolCall _ _ call_id _ _ _ _ =>
      remove_first_matching (is_custom_tool_call_output call_id) items
  | CustomToolCallOutput _ call_id _ _ _ =>
      remove_first_matching (is_custom_tool_call call_id) items
  | _ => items
  end.
End normalize.

(** * Every call has its output, every output its call

    The theorems on [Normalize]: the insertions and the removals as one pass over the
    items, the pairing they establish, and the removal that keeps it. *)

Section facts.
Context `{Opaque, UuidV5}.
Implicit Types (items : list ResponseItemEnvelope) (e : ResponseItemEnvelope) (ids : id_sets).

(** ** What pairs a call with its output *)

(** The three name spaces of call ids. *)
Inductive call_kind := KFunction | KToolSearch | KCustomTool.
#[export] Instance call_kind_eq_dec : EqDecision call_kind.
Proof. solve_decision. Defined.

Definition call_key e : option (call_kind * str) :=
  match item e with
  | FunctionCall _ _ _ _ _ call_id _ => Some (KFunction, call_id)
  | LocalShellCall _ call_id _ _ _ => pair KFunction <$> call_id
  | ToolSearchCall _ call_id _ _ _ _ => pair KToolSearch <$> call_id
  | CustomToolCall _ _ call_id _ _ _ _ => Some (KCustomTool, call_id)
  | _ => None
  end.

Definition output_key e : option (call_kind * str) :=
  match item e with
  | FunctionCallOutput _ call_id _ _ _ _ => pair KFunction <$> call_id
  | ToolSearchOutput _ call_id _ _ _ _ => pair KToolSearch <$> call_id
  | CustomToolCallOutput _ call_id _ _ _ => Some (KCustomTool, call_id)
  | _ => None
  end.

(** Outputs of the server's own tool searches stand alone. *)
Definition needs_call e : bool :=
  match item e with
  | ToolSearchOutput _ _ _ execution _ _ => bool_decide (execution ≠ lit "server")
  | _ => true
  end.

(** Every call has its output. *)
Definition complete items : Prop :=
  ∀ e k, e ∈ items → call_key e = Some k → ∃ o, o ∈ items ∧ output_key o = Some k.
(** Every output that needs it has its call. *)
Definition no_orphans items : Prop :=
  ∀ o k, o ∈ items → output_key o = Some k → needs_call o = true →
    ∃ e, e ∈ items ∧ call_key e = Some k.
Definition paired items : Prop := complete items ∧ no_orphans items.

(** The call ids and the output ids are each used once. *)
Definition unique_ids items : Prop := NoDup (omap call_key items) ∧ NoDup (omap output_key items).

Lemma call_not_output e k : call_key e = Some k → output_key e = None.
Proof. unfold call_key, output_key. by destruct (item e) as [| | | |? []| |? []| | | | | | | | | | |]. Qed.

Definition in_ids ids (k : call_kind * str) : Prop :=
  match k with
  | (KFunction, c) => c ∈ function_ids ids
  | (KToolSearch, c) => c ∈ tool_search_ids ids
  | (KCustomTool, c) => c ∈ custom_tool_ids ids
  end.
#[export] Instance in_ids_dec ids k : Decision (in_ids ids k).
Proof. destruct k as [[] c]; simpl; apply _. Defined.

(** The sets hold the keys of the items. *)
Lemma output_ids_spec items k :
  in_ids (output_ids items) k ↔ ∃ o, o ∈ items ∧ output_key o = Some k.
Proof.
  unfold output_ids. rewrite <- (or_False (∃ o, _)).
  assert (in_ids no_ids k ↔ False) as <- by (destruct k as [[] c]; simpl; set_solver).
  generalize no_ids as ids. induction items as [|e items IH]; intros ids; cbn [foldl].
  - split; [by right|]. intros [(o & Ho%not_elem_of_nil & _)|]; done.
  - rewrite IH. setoid_rewrite elem_of_cons.
    assert (in_ids (add_output_id ids e) k ↔ output_key e = Some k ∨ in_ids ids k) as ->.
    { unfold add_output_id, output_key. destruct k as [kd c].
      destruct (item e) as [| | | | | | |? []| | |? []| | | | | | |], kd; simpl;
        rewrite ?elem_of_union, ?elem_of_singleton; naive_solver. }
    naive_solver.
Qed.

Lemma call_ids_spec items k :
  in_ids (call_ids items) k ↔ ∃ e, e ∈ items ∧ call_key e = Some k.
Proof.
  unfold call_ids. rewrite <- (or_False (∃ o, _)).
  assert (in_ids no_ids k ↔ False) as <- by (destruct k as [[] c]; simpl; set_solver).
  generalize no_ids as ids. induction items as [|e items IH]; intros ids; cbn [foldl].
  - split; [by right|]. intros [(o & Ho%not_elem_of_nil & _)|]; done.
  - rewrite IH. setoid_rewrite elem_of_cons.
    assert (in_ids (add_call_id ids e) k ↔ call_key e = Some k ∨ in_ids ids k) as ->.
    { unfold add_call_id, call_key. destruct k as [kd c].
      destruct (item e) as [| | | |? []| |? []| | | | | | | | | | |], kd; simpl;
        rewrite ?elem_of_union, ?elem_of_singleton; naive_solver. }
    naive_solver.
Qed.

(** The pairing can be decided. *)
#[export] Instance key_in_dec ids o : Decision (from_option (in_ids ids) True o).
Proof. destruct o; apply _. Defined.

Lemma complete_alt items :
  complete items ↔ Forall (λ e, from_option (in_ids (output_ids items)) True (call_key e)) items.
Proof.
  rewrite Forall_forall. split.
  - intros Hc e He. destruct (call_key e) as [k|] eqn:Hk; [|done]. apply output_ids_spec. eauto.
  - intros Hf e k He Hk. specialize (Hf e He). rewrite Hk in Hf. by apply output_ids_spec.
Qed.

Lemma no_orphans_alt items :
  no_orphans items ↔
  Forall (λ o, from_option (in_ids (call_ids items)) True (if needs_call o then output_key o else None)) items.
Proof.
  rewrite Forall_forall. split.
  - intros Hn o Ho. destruct (needs_call o) eqn:Hnc; [|done].
    destruct (output_key o) as [k|] eqn:Hk; [|done]. apply call_ids_spec. eauto.
  - intros Hf o k Ho Hk Hnc. specialize (Hf o Ho). rewrite Hnc, Hk in Hf. by apply call_ids_spec.
Qed.

#[export] Instance paired_dec items : Decision (paired items).
Proof.
  refine (cast_if_and
    (decide (Forall (λ e, from_option (in_ids (output_ids items)) True (call_key e)) items))
    (decide (Forall (λ o, from_option (in_ids (call_ids items)) True
       (if needs_call o then output_key o else None)) items)));
    unfold paired; rewrite complete_alt, no_orphans_alt; naive_solver.
Defined.

#[export] Instance unique_ids_dec items : Decision (unique_ids items).
Proof. unfold unique_ids. apply _. Defined.

(** ** One pass *)

(** The output made for a call that has none, and whether that is an error. *)
Definition synthetic ids e : list ResponseItemEnvelope :=
  match missing_output false ids e with Some (Some o) => [o] | _ => [] end.
Definition missing_is_error ids e : bool :=
  match item e with
  | CustomToolCall _ _ _ _ _ _ _ | LocalShellCall _ _ _ _ _ =>
      bool_decide (synthetic ids e ≠ [])
  | _ => false
  end.

Lemma missing_output_release ids e :
  missing_output false ids e = Some (head (synthetic ids e)).
Proof.
  unfold synthetic. destruct (missing_output false ids e) as [[o|]|] eqn:E; [done..|].
  unfold missing_output in E. repeat case_match; simplify_eq/=.
Qed.

(** A synthetic output has the key of its call, which had none. *)
Lemma synthetic_spec ids e :
  (∃ k o, call_key e = Some k ∧ ¬ in_ids ids k ∧ synthetic ids e = [o] ∧ output_key o = Some k ∧
     call_key o = None) ∨
  (synthetic ids e = [] ∧ ∀ k, call_key e = Some k → in_ids ids k).
Proof.
  unfold synthetic, missing_output, call_key.
  destruct (item e) as [| | | |? [c|]| |? [c|]| | | | | | | | | | |]; simpl; try case_bool_decide; simpl;
    try (left; eexists (_, _), _; split_and!; done); right; (split; [done|]); naive_solver.
Qed.

Definition with_synthetic ids items : list ResponseItemEnvelope := items ≫= λ e, e :: synthetic ids e.

Lemma missing_outputs_release ids idx items :
  ∃ m, missing_outputs false ids idx items = Some m ∧
    ∀ pre, length pre = idx → insert_all (reverse m) (pre ++ items) = Some (pre ++ with_synthetic ids items).
Proof.
  revert idx. induction items as [|e items IH]; intros idx; cbn [missing_outputs].
  - exists []. split; [done|]. intros pre _. cbn. done.
  - destruct (IH (S idx)) as (m & Hm & Hins). rewrite missing_output_release, Hm.
    cbn [mbind option_bind].
    assert (∀ pre, length pre = idx →
      insert_all (reverse m) (pre ++ e :: items) = Some ((pre ++ [e]) ++ with_synthetic ids items)) as Hins'.
    { intros pre Hpre. rewrite <- (Hins (pre ++ [e])), <- app_assoc; [done|].
      rewrite length_app. simpl. lia. }
    unfold with_synthetic in *. rewrite bind_cons.
    destruct (head (synthetic ids e)) as [o|] eqn:Ho; (eexists; split; [done|]); intros pre Hpre.
    + rewrite reverse_cons.
      assert (∀ l1 l2 its, insert_all (l1 ++ l2) its = insert_all l1 its ≫= insert_all l2) as Happ.
      { intros l1. induction l1 as [|[j x] l1 IHl]; intros l2 its; [done|]. cbn [insert_all app].
        destruct (vec_insert (j + 1) x its); [|done]. cbn. apply IHl. }
      rewrite Happ, Hins' by done. cbn [mbind option_bind insert_all]. unfold vec_insert.
      rewrite (proj2 (Nat.leb_le _ _)) by (rewrite !length_app; simpl; lia). cbn.
      rewrite take_app_length', drop_app_length' by (rewrite length_app; simpl; lia).
      assert (synthetic ids e = [o]) as ->.
      { unfold synthetic in *. repeat case_match; simplify_eq/=; done. }
      by rewrite <- app_assoc.
    + rewrite Hins' by done. assert (synthetic ids e = []) as ->.
      { unfold synthetic in *. repeat case_match; simplify_eq/=; done. }
      by rewrite <- app_assoc.
Qed.

Lemma ensure_call_outputs_release items :
  ensure_call_outputs_present false items = Some (with_synthetic (output_ids items) items).
Proof.
  unfold ensure_call_outputs_present.
  destruct (missing_outputs_release (output_ids items) 0 items) as (m & -> & Hins).
  cbn. by apply (Hins []).
Qed.

Definition without_orphans ids items : list ResponseItemEnvelope :=
  filter (λ e, is_orphan ids e = false) items.

Lemma orphan_positions_release ids pos items :
  ∃ ps, orphan_positions false ids pos items = Some ps ∧ Forall (λ p, pos ≤ p) ps ∧
    retain_positions ps pos items = without_orphans ids items.
Proof.
  unfold without_orphans. revert pos. induction items as [|e items IH]; intros pos; cbn [orphan_positions].
  - by exists [].
  - destruct (IH (S pos)) as (ps & -> & Hge & Hret). rewrite filter_cons. destruct (is_orphan ids e) eqn:Ho.
    + exists (pos :: ps). cbn [mbind option_bind error_or_panic retain_positions].
      rewrite Nat.eqb_refl. split_and!; [done| |by case_decide].
      constructor; [done|]. eapply Forall_impl; [done|]. simpl. lia.
    + exists ps. split_and!; [done|eapply Forall_impl; [done|]; simpl; lia|].
      case_decide; [|done]. destruct ps as [|p ps]; cbn [retain_positions].
      * by rewrite Hret.
      * apply Forall_cons in Hge as [Hp _]. destruct (Nat.eqb_spec p pos); [lia|]. by rewrite Hret.
Qed.

Lemma remove_orphan_outputs_release items :
  remove_orphan_outputs false items = Some (without_orphans (call_ids items) items).
Proof.
  unfold remove_orphan_outputs.
  destruct (orphan_positions_release (call_ids items) 0 items) as (ps & -> & _ & Hret).
  cbn. destruct ps; [|by rewrite <- Hret]. f_equal. rewrite <- Hret.
  clear Hret. generalize 0 as pos. induction items as [|e items IH]; intros pos; [done|].
  cbn [retain_positions]. by rewrite <- IH.
Qed.

(** ** The pairing *)

(** The first two passes of [normalize_history]. *)
Definition normalize_calls (debug : bool) items : option (list ResponseItemEnvelope) :=
  ensure_call_outputs_present debug items ≫= remove_orphan_outputs debug.

Lemma with_synthetic_elem ids items e :
  e ∈ with_synthetic ids items ↔ e ∈ items ∨ ∃ c, c ∈ items ∧ e ∈ synthetic ids c.
Proof.
  unfold with_synthetic. rewrite list_elem_of_bind. setoid_rewrite elem_of_cons. naive_solver.
Qed.

(** Synthetic outputs are no calls: the call ids stay the same. *)
Lemma with_synthetic_call ids items k :
  (∃ e, e ∈ with_synthetic ids items ∧ call_key e = Some k) ↔ ∃ e, e ∈ items ∧ call_key e = Some k.
Proof.
  split; intros (e & He & Hk); exists e; (split; [|done]); [|apply with_synthetic_elem; by left].
  apply with_synthetic_elem in He as [|(c & Hc & He)]; [done|].
  destruct (synthetic_spec ids c) as [(k' & o & _ & _ & Hs & _ & Ho)|[Hs _]]; rewrite Hs in He.
  - apply list_elem_of_singleton in He as ->. congruence.
  - by apply not_elem_of_nil in He.
Qed.

Lemma is_orphan_spec ids e :
  is_orphan ids e = true ↔ ∃ k, output_key e = Some k ∧ needs_call e = true ∧ ¬ in_ids ids k.
Proof.
  unfold is_orphan, output_key, needs_call.
  destruct (item e) as [| | | | | | |? [c|]| | |? [c|]| | | | | | |]; simpl;
    rewrite ?andb_true_iff, ?bool_decide_eq_true;
    try (split; [done|by intros (k & [=] & _)]);
    (split; [intros Hc; eexists; split; [done|]|intros (k & [= <-] & Hx & Hc)]).
  - exact (conj eq_refl Hc).
  - exact Hc.
  - exact (conj eq_refl Hc).
  - exact Hc.
  - rewrite bool_decide_eq_true. exact Hc.
  - by apply bool_decide_eq_true in Hx.
Qed.

Lemma is_orphan_false ids e k :
  is_orphan ids e = false → output_key e = Some k → needs_call e = true → in_ids ids k.
Proof.
  intros Ho Hk Hn. destruct (decide (in_ids ids k)) as [|Hids]; [done|].
  assert (is_orphan ids e = true) by (apply is_orphan_spec; eauto). congruence.
Qed.

Lemma call_no_orphan ids e k : call_key e = Some k → is_orphan ids e = false.
Proof.
  intros Hk. apply not_true_iff_false. intros (k' & Hk' & _)%is_orphan_spec.
  apply call_not_output in Hk. congruence.
Qed.

Lemma in_ids_ext ids ids' : (∀ k, in_ids ids k ↔ in_ids ids' k) → ids = ids'.
Proof.
  intros Hk. destruct ids as [a b c], ids' as [a' b' c']. f_equal; apply set_eq; intros x.
  - apply (Hk (KFunction, x)).
  - apply (Hk (KToolSearch, x)).
  - apply (Hk (KCustomTool, x)).
Qed.

(** What an item becomes: nothing for an orphan, and a call without output is followed
    by its synthetic one. *)
Definition normalized items e : list ResponseItemEnvelope :=
  if is_orphan (call_ids items) e then [] else e :: synthetic (output_ids items) e.

Lemma normalize_calls_release items :
  normalize_calls false items = Some (items ≫= normalized items).
Proof.
  unfold normalize_calls. rewrite ensure_call_outputs_release. cbn [mbind option_bind].
  rewrite remove_orphan_outputs_release. f_equal.
  assert (call_ids (with_synthetic (output_ids items) items) = call_ids items) as ->.
  { apply in_ids_ext. intros k. rewrite !call_ids_spec. apply with_synthetic_call. }
  assert (∀ l, l ⊆ items → without_orphans (call_ids items) (with_synthetic (output_ids items) l) =
    l ≫= normalized items) as Hl.
  { unfold with_synthetic, without_orphans. induction l as [|e l IH]; intros Hsub; [done|].
    rewrite !bind_cons, filter_app, IH by set_solver. f_equal. unfold normalized.
    rewrite filter_cons. assert (e ∈ items) as He by (apply Hsub; by left).
    assert (filter (λ e, is_orphan (call_ids items) e = false) (synthetic (output_ids items) e) =
      synthetic (output_ids items) e) as ->.
    { destruct (synthetic_spec (output_ids items) e)
        as [(k & o & Hk & _ & -> & Ho & _)|[-> _]]; [|done].
      rewrite filter_cons. case_decide as Hor; [done|]. destruct Hor. apply not_true_iff_false.
      intros (k' & Hk' & _ & Hids)%is_orphan_spec. destruct Hids. rewrite call_ids_spec.
      exists e. split; [done|congruence]. }
    destruct (is_orphan (call_ids items) e) eqn:Ho; case_decide as Hd; try done.
    apply is_orphan_spec in Ho as (k & Hk & _).
    destruct (synthetic_spec (output_ids items) e) as [(k' & o & Hk' & _)|[-> _]]; [|done].
    apply call_not_output in Hk'. congruence. }
  by apply Hl.
Qed.

Lemma normalized_elem items e :
  e ∈ items ≫= normalized items ↔
  (e ∈ items ∧ is_orphan (call_ids items) e = false) ∨
  ∃ c, c ∈ items ∧ e ∈ synthetic (output_ids items) c.
Proof.
  rewrite list_elem_of_bind. unfold normalized. split.
  - intros (c & He & Hc). destruct (is_orphan (call_ids items) c) eqn:Ho.
    + by apply not_elem_of_nil in He.
    + apply elem_of_cons in He as [->|He]; eauto.
  - intros [[He Ho]|(c & Hc & He)].
    + exists e. rewrite Ho. split; [by left|done].
    + exists c. split; [|done].
      destruct (synthetic_spec (output_ids items) c) as [(k & o & Hk & _)|[Hs _]].
      * rewrite (call_no_orphan _ _ _ Hk). by right.
      * rewrite Hs in He. by apply not_elem_of_nil in He.
Qed.

Lemma normalized_paired items : paired (items ≫= normalized items).
Proof.
  split.
  - intros e k [[He Ho]|(c & Hc & He)]%normalized_elem Hk.
    + destruct (synthetic_spec (output_ids items) e) as [(k' & o & Hk' & _ & Hs & Ho' & _)|[_ Hin]].
      * exists o. split; [|congruence]. apply normalized_elem. right. exists e. rewrite Hs.
        split; [done|by left].
      * specialize (Hin k Hk). apply output_ids_spec in Hin as (o & Hoi & Hok).
        exists o. split; [|done]. apply normalized_elem. left. split; [done|].
        apply not_true_iff_false. intros (k' & Hk' & _ & Hids)%is_orphan_spec. destruct Hids.
        apply call_ids_spec. exists e. split; [done|congruence].
    + destruct (synthetic_spec (output_ids items) c) as [(k' & o & _ & _ & Hs & _ & Hoc)|[Hs _]];
        rewrite Hs in He; [apply list_elem_of_singleton in He as ->; congruence|by apply not_elem_of_nil in He].
  - intros o k [[Ho Hor]|(c & Hc & Ho)]%normalized_elem Hk Hn.
    + pose proof (is_orphan_false _ _ _ Hor Hk Hn) as Hids. apply call_ids_spec in Hids as (e & He & Hek).
      exists e. split; [|done]. apply normalized_elem. left. split; [done|]. by eapply call_no_orphan.
    + destruct (synthetic_spec (output_ids items) c) as [(k' & o' & Hck & _ & Hs & Hok & _)|[Hs _]];
        rewrite Hs in Ho; [|by apply not_elem_of_nil in Ho].
      apply list_elem_of_singleton in Ho as ->. exists c. split; [|congruence].
      apply normalized_elem. left. split; [done|]. by eapply call_no_orphan.
Qed.

(** A paired history is left as it is. *)
Lemma paired_normalized items : paired items → items ≫= normalized items = items.
Proof.
  intros [Hc Hn].
  assert (∀ l, l ⊆ items → l ≫= normalized items = l) as Hl; [|by apply Hl].
  induction l as [|e l IH]; intros Hsub; [done|]. rewrite bind_cons, IH by set_solver.
  assert (e ∈ items) as He by (apply Hsub; by left).
  assert (normalized items e = [e]) as ->; [|done]. unfold normalized.
  assert (is_orphan (call_ids items) e = false) as ->.
  { apply not_true_iff_false. intros (k & Hk & Hnc & Hids)%is_orphan_spec. destruct Hids.
    apply call_ids_spec. by apply (Hn e k). }
  f_equal. destruct (synthetic_spec (output_ids items) e) as [(k & o & Hk & Hids & _)|[-> _]]; [|done].
  destruct Hids. apply output_ids_spec. by apply (Hc e k).
Qed.

(** ** Builds with debug assertions *)

Lemma missing_output_debug ids e :
  missing_output true ids e =
  if missing_is_error ids e then None else missing_output false ids e.
Proof.
  unfold missing_is_error, synthetic, missing_output.
  destruct (item e) as [| | | |? [c|]| |? [c|]| | | | | | | | | | |]; simpl; try done;
    case_bool_decide; simpl; done.
Qed.

Lemma missing_outputs_debug ids idx items :
  missing_outputs true ids idx items =
  if existsb (missing_is_error ids) items then None else missing_outputs false ids idx items.
Proof.
  revert idx. induction items as [|e items IH]; intros idx; [done|]. cbn [missing_outputs existsb].
  rewrite missing_output_debug, IH. destruct (missing_is_error ids e); [done|]. cbn [orb].
  rewrite missing_output_release. by destruct (existsb _ items).
Qed.

Lemma orphan_positions_debug ids pos items :
  orphan_positions true ids pos items =
  if existsb (is_orphan ids) items then None else orphan_positions false ids pos items.
Proof.
  revert pos. induction items as [|e items IH]; intros pos; [done|]. cbn [orphan_positions existsb].
  rewrite IH. by destruct (is_orphan ids e).
Qed.

(** ** Removing an item and its counterpart *)

Lemma remove_first_subset p items e : e ∈ remove_first_matching p items → e ∈ items.
Proof.
  induction items as [|x items IH]; cbn [remove_first_matching]; [done|].
  destruct (p (item x)); [by right|]. intros [->|He]%elem_of_cons; [by left|right; auto].
Qed.

Lemma remove_first_other p items e :
  e ∈ items → p (item e) = false → e ∈ remove_first_matching p items.
Proof.
  intros He Hp. induction items as [|x items IH]; cbn [remove_first_matching]; [by apply not_elem_of_nil in He|].
  apply elem_of_cons in He as [<-|He].
  - rewrite Hp. by left.
  - destruct (p (item x)); [done|]. right. auto.
Qed.

Lemma remove_first_sublist p items : remove_first_matching p items `sublist_of` items.
Proof.
  induction items as [|x items IH]; cbn [remove_first_matching]; [done|].
  destruct (p (item x)); [by apply sublist_cons|by apply sublist_skip].
Qed.

Lemma omap_sublist {A B} (f : A → option B) l k : l `sublist_of` k → omap f l `sublist_of` omap f k.
Proof.
  induction 1 as [|x l k _ IH|x l k _ IH]; cbn; [done|..]; destruct (f x); try done.
  - by apply sublist_skip.
  - by apply sublist_cons.
Qed.

(** When a key is used once, removing it leaves none. *)
Lemma remove_first_key {K} (key : ResponseItemEnvelope → option K) (k : K) p items :
  (∀ e, e ∈ items → p (item e) = true ↔ key e = Some k) → NoDup (omap key items) →
  ∀ e, e ∈ remove_first_matching p items → key e ≠ Some k.
Proof.
  induction items as [|x items IH]; cbn [remove_first_matching]; intros Hp Hnd e He Hk.
  { by apply not_elem_of_nil in He. }
  pose proof (Hp x ltac:(by left)) as Hpx'.
  assert (∀ y k', y ∈ items → key y = Some k' → k' ∈ omap key items) as Hin
    by (intros y k' Hy Hyk; apply list_elem_of_omap; eauto).
  destruct (p (item x)) eqn:Hpx.
  - pose proof (proj1 Hpx' eq_refl) as Hxk. cbn in Hnd. rewrite Hxk in Hnd. apply NoDup_cons in Hnd as [Hx _].
    destruct Hx. eauto.
  - apply elem_of_cons in He as [->|He].
    + by apply Hpx' in Hk.
    + apply IH with (e := e); [by intros y Hy; apply Hp; right| |done|done]. cbn in Hnd. destruct (key x); [|done].
      by apply NoDup_cons in Hnd as [_ Hnd].
Qed.

Lemma has_matching_spec p items :
  has_matching p items = true ↔ ∃ e, e ∈ items ∧ p (item e) = true.
Proof.
  unfold has_matching. rewrite existsb_exists. setoid_rewrite <- list_elem_of_In. done.
Qed.

(** The counterpart of an item: the output of its call, the call of its output. *)
Lemma remove_corresponding_call e k items :
  call_key e = Some k →
  ∃ p, remove_corresponding_for (item e) items = remove_first_matching p items ∧
    ∀ o, p (item o) = true ↔ output_key o = Some k.
Proof.
  unfold call_key, remove_corresponding_for, output_key.
  destruct (item e) as [| | | |? [c|]| |? [c|]| | | | | | | | | | |]; intros [= <-];
    (eexists; split; [done|]); intros o;
    destruct (item o) as [| | | | | | |? [c'|]| | |? [c'|]| | | | | | |]; cbn;
    rewrite ?bool_decide_eq_true; split; congruence.
Qed.

Lemma key_unique {K} (key : ResponseItemEnvelope → option K) (k : K) items x y :
  NoDup (omap key items) → x ∈ items → y ∈ items → key x = Some k → key y = Some k → x = y.
Proof.
  induction items as [|z items IH]; intros Hnd Hx Hy Hxk Hyk; [by apply not_elem_of_nil in Hx|].
  assert (∀ w, w ∈ items → key w = Some k → k ∈ omap key items) as Hin
    by (intros w Hw Hwk; apply list_elem_of_omap; eauto).
  cbn in Hnd. apply elem_of_cons in Hx as [->|Hx], Hy as [->|Hy]; [done|..].
  - rewrite Hxk in Hnd. apply NoDup_cons in Hnd as [Hz _]. destruct Hz. eauto.
  - rewrite Hyk in Hnd. apply NoDup_cons in Hnd as [Hz _]. destruct Hz. eauto.
  - apply IH; try done. destruct (key z); [by apply NoDup_cons in Hnd as [_ Hnd]|done].
Qed.

Lemma remove_corresponding_output e k items :
  output_key e = Some k → NoDup (omap call_key items) →
  ∃ p, remove_corresponding_for (item e) items = remove_first_matching p items ∧
    ∀ o, o ∈ items → p (item o) = true ↔ call_key o = Some k.
Proof.
  intros Hk Hnd. unfold output_key in Hk. unfold remove_corresponding_for.
  destruct (item e) as [| | | | | | |? [c|]| | |? [c|]| | | | | | |]; simplify_eq/=.
  - assert (∀ o, is_function_call c (item o) = true → call_key o = Some (KFunction, c)) as Hf.
    { intros o. unfold call_key. destruct (item o); try done. cbn. by intros ->%bool_decide_eq_true. }
    destruct (has_matching (is_function_call c) items) eqn:Hm; (eexists; split; [done|]); intros o Ho.
    + apply has_matching_spec in Hm as (f & Hfi & Hfc). split; [apply Hf|]. intros Hok.
      by rewrite (key_unique call_key (KFunction, c) items o f Hnd Ho Hfi Hok (Hf f Hfc)).
    + assert (is_function_call c (item o) = false) as Hno.
      { apply not_true_iff_false. intros Hof. rewrite <- not_true_iff_false, has_matching_spec in Hm.
        destruct Hm. eauto. }
      unfold call_key. destruct (item o) as [| | | |? [c'|]| |? [c'|]| | | | | | | | | | |]; cbn in *;
        rewrite ?bool_decide_eq_true, ?bool_decide_eq_false in *; split; congruence.
  - eexists; split; [done|]. intros o _. unfold call_key.
    destruct (item o) as [| | | |? [c'|]| |? [c'|]| | | | | | | | | | |]; cbn;
      rewrite ?bool_decide_eq_true; split; congruence.
  - eexists; split; [done|]. intros o _. unfold call_key.
    destruct (item o) as [| | | |? [c'|]| |? [c'|]| | | | | | | | | | |]; cbn;
      rewrite ?bool_decide_eq_true; split; congruence.
Qed.

Lemma remove_corresponding_none e items :
  call_key e = None → output_key e = None → remove_corresponding_for (item e) items = items.
Proof.
  unfold call_key, output_key.
  by destruct (item e) as [| | | |? [c|]| |? [c|]|? [c|]| | |? [c|]| | | | | | |].
Qed.

Lemma unique_ids_sublist items items' :
  items' `sublist_of` items → unique_ids items → unique_ids items'.
Proof.
  intros Hs [H1 H2].
  split; [apply sublist_NoDup with (1 := H1)|apply sublist_NoDup with (1 := H2)]; by apply omap_sublist.
Qed.

Lemma remove_corresponding_sublist i items : remove_corresponding_for i items `sublist_of` items.
Proof.
  unfold remove_corresponding_for. repeat case_match; try done; apply remove_first_sublist.
Qed.

Lemma paired_remove e items :
  paired (e :: items) → unique_ids (e :: items) →
  paired (remove_corresponding_for (item e) items).
Proof.
  intros [Hc Hn] [Hu1 Hu2].
  assert (∀ {K} (key : ResponseItemEnvelope → option K) k, NoDup (omap key (e :: items)) →
    key e = Some k → ∀ x, x ∈ items → key x ≠ Some k) as Hother.
  { intros K key k Hnd Hk x Hx Hxk. cbn in Hnd. rewrite Hk in Hnd.
    apply NoDup_cons in Hnd as [Hnk _]. destruct Hnk. apply list_elem_of_omap. eauto. }
  assert (NoDup (omap call_key items) ∧ NoDup (omap output_key items)) as [Hi1 Hi2]
    by (apply (unique_ids_sublist (e :: items)); [by apply sublist_cons|by split]).
  destruct (call_key e) as [k|] eqn:Hck; [|destruct (output_key e) as [k|] eqn:Hok].
  - pose proof (call_not_output _ _ Hck) as Hok.
    destruct (remove_corresponding_call e k items Hck) as (p & -> & Hp).
    assert (∀ o, o ∈ remove_first_matching p items → output_key o ≠ Some k) as Hgone
      by (apply remove_first_key; [naive_solver|done]).
    split.
    + intros c k' Hci Hk'. apply remove_first_subset in Hci as Hci'.
      destruct (Hc c k') as (o & Ho & Hok'); [by right|done|].
      exists o. split; [|done]. apply elem_of_cons in Ho as [->|Ho]; [congruence|].
      apply remove_first_other; [done|]. apply not_true_iff_false. rewrite Hp. intros Hpo.
      apply (Hother _ call_key k Hu1 Hck c Hci'). congruence.
    + intros o k' Ho Hk' Hnc. apply remove_first_subset in Ho as Ho'.
      destruct (Hn o k') as (c & Hci & Hck'); [by right|done|done|].
      exists c. split; [|done]. apply elem_of_cons in Hci as [->|Hci].
      * destruct (Hgone o Ho). congruence.
      * apply remove_first_other; [done|]. apply not_true_iff_false. rewrite Hp. intros Hpc.
        apply call_not_output in Hck'. congruence.
  - destruct (remove_corresponding_output e k items Hok Hi1) as (p & -> & Hp).
    assert (∀ o, o ∈ remove_first_matching p items → call_key o ≠ Some k) as Hgone
      by (apply remove_first_key; [naive_solver|done]).
    split.
    + intros c k' Hci Hk'. apply remove_first_subset in Hci as Hci'.
      destruct (Hc c k') as (o & Ho & Hok'); [by right|done|].
      exists o. split; [|done]. apply elem_of_cons in Ho as [->|Ho].
      { destruct (Hgone c Hci). congruence. }
      apply remove_first_other; [done|]. apply not_true_iff_false. rewrite Hp by done. intros Hpo.
      apply call_not_output in Hpo. congruence.
    + intros o k' Ho Hk' Hnc. apply remove_first_subset in Ho as Ho'.
      destruct (Hn o k') as (c & Hci & Hck'); [by right|done|done|].
      exists c. split; [|done]. apply elem_of_cons in Hci as [->|Hci]; [congruence|].
      apply remove_first_other; [done|]. apply not_true_iff_false. rewrite Hp by done. intros Hpc.
      apply (Hother _ output_key k Hu2 Hok o Ho'). congruence.
  - rewrite remove_corresponding_none by done. split.
    + intros c k' Hci Hk'. destruct (Hc c k') as (o & Ho & Hok'); [by right|done|].
      exists o. split; [|done]. apply elem_of_cons in Ho as [->|Ho]; [congruence|done].
    + intros o k' Ho Hk' Hnc. destruct (Hn o k') as (c & Hci & Hck'); [by right|done|done|].
      exists c. split; [|done]. apply elem_of_cons in Hci as [->|Hci]; [congruence|done].
Qed.
End facts.

Section properties.
Context `{Opaque, UuidV5}.
Implicit Types (items : list ResponseItemEnvelope).

(** C38.  Normalizing never fails in a release build, and what it does to the calls and
    outputs is one pass: an output without its call goes, a call without its output is
    followed by a synthetic one, every other item stays where it is.  Afterwards every
    call has an output and every output that needs it a call, and normalizing again
    changes nothing. *)
Theorem normalize_pairs items :
  ∃ out, normalize_calls false items = Some out ∧
    out = items ≫= normalized items ∧
    filter (λ e, is_orphan (call_ids items) e = false) items `sublist_of` out ∧
    paired out ∧ normalize_calls false out = Some out.
Proof.
  exists (items ≫= normalized items). rewrite !normalize_calls_release. split_and!; [done|done| | |].
  - assert (∀ l, filter (λ e, is_orphan (call_ids items) e = false) l `sublist_of`
      l ≫= normalized items) as Hl; [|done].
    induction l as [|e l IH]; [done|]. rewrite filter_cons, bind_cons. unfold normalized at 1.
    destruct (is_orphan (call_ids items) e) eqn:Ho; case_decide; try done.
    apply sublist_skip. by apply sublist_inserts_l.
  - apply normalized_paired.
  - f_equal. apply paired_normalized, normalized_paired.
Qed.

(** In a build with debug assertions normalizing panics exactly when it would
    hide an error: a custom tool call or a shell call without its output, or an output
    without its call.  Otherwise it does what the release build does. *)
Theorem normalize_debug_panics items :
  normalize_calls true items =
  if existsb (missing_is_error (output_ids items)) items || existsb (is_orphan (call_ids items)) items
  then None else normalize_calls false items.
Proof.
  unfold normalize_calls at 1, ensure_call_outputs_present. rewrite missing_outputs_debug.
  destruct (existsb (missing_is_error (output_ids items)) items); [done|]. cbn [orb].
  change (missing_outputs false (output_ids items) 0 items ≫= _) with
    (ensure_call_outputs_present false items).
  unfold normalize_calls. rewrite ensure_call_outputs_release. cbn [mbind option_bind].
  unfold remove_orphan_outputs. rewrite orphan_positions_debug.
  set (w := with_synthetic (output_ids items) items).
  assert (call_ids w = call_ids items) as ->.
  { apply in_ids_ext. intros k. rewrite !call_ids_spec. apply with_synthetic_call. }
  assert (existsb (is_orphan (call_ids items)) w = existsb (is_orphan (call_ids items)) items) as ->;
    [|by destruct (existsb _ items)].
  apply eq_true_iff_eq. rewrite !existsb_exists. setoid_rewrite <- list_elem_of_In. split.
  - intros (e & [He|(c & Hc & He)]%with_synthetic_elem & Ho); [eauto|].
    destruct (synthetic_spec (output_ids items) c) as [(k & o & Hk & _ & Hs & Hok & _)|[Hs _]];
      rewrite Hs in He; [|by apply not_elem_of_nil in He].
    apply list_elem_of_singleton in He as ->. apply is_orphan_spec in Ho as (k' & Hk' & _ & Hids).
    destruct Hids. apply call_ids_spec. exists c. split; [done|congruence].
  - intros (e & He & Ho). exists e. split; [|done]. apply with_synthetic_elem. by left.
Qed.

(** Dropping an item with its counterpart, as the oldest item is dropped to make
    room, keeps the pairing of a history whose call ids are used once, keeps them
    used once, and removes nothing else from its place. *)
Theorem remove_corresponding_keeps_pairs e items :
  paired (e :: items) → unique_ids (e :: items) →
  let rest := remove_corresponding_for (item e) items in
  paired rest ∧ unique_ids rest ∧ rest `sublist_of` items ∧ length items ≤ S (length rest).
Proof.
  intros Hp Hu rest. split_and!.
  - by apply paired_remove.
  - apply (unique_ids_sublist (e :: items)); [|done].
    apply sublist_cons, remove_corresponding_sublist.
  - apply remove_corresponding_sublist.
  - assert (∀ p l, length l ≤ S (length (remove_first_matching p l))) as Hl.
    { intros p l. induction l as [|x l IH]; cbn [remove_first_matching]; [simpl; lia|].
      destruct (p (item x)); simpl; lia. }
    unfold rest, remove_corresponding_for. repeat case_match; try apply Hl; lia.
Qed.
End properties.

(** A payload and a UUID that print as given. *)
#[export] Instance unit_opaque : Opaque := {| JsonValue := unit; JsonNumber := unit; ExecutedToolCall := unit |}.
#[export] Instance name_uuid : UuidV5 := {| new_v5 _ name := name |}.

Definition call_ex (c : string) : ResponseItemEnvelope :=
  envelope (FunctionCall (Some (lit "fc_1")) (lit "shell") None (lit "{}") None (lit c) None).
Definition output_ex (c : string) : ResponseItemEnvelope :=
  envelope (FunctionCallOutput None (Some (lit c)) None None (from_text (lit "done")) None).

(** The call [b] gets its output right after it; the output [c] goes. *)
Example normalize_ex :
  normalize_calls false [call_ex "a"; call_ex "b"; output_ex "a"; output_ex "c"] =
  Some [call_ex "a"; call_ex "b";
        envelope (FunctionCallOutput (Some (lit "fco_fco:fc_1")) (Some (lit "b")) None None
          (from_text (lit "aborted")) None); output_ex "a"].
Proof. vm_compute. reflexivity. Qed.

Lemma remove_corresponding_keeps_pairs_witness :
  let e := call_ex "a" in
  let items := [call_ex "b"; output_ex "a"; output_ex "b"] in
  let rest := remove_corresponding_for (item e) items in
  paired rest ∧ unique_ids rest ∧ rest `sublist_of` items ∧ length items ≤ S (length rest).
Proof.
  apply (remove_corresponding_keeps_pairs (call_ex "a") [call_ex "b"; output_ex "a"; output_ex "b"]).
  - apply (bool_decide_unpack _). vm_compute. exact I.
  - apply (bool_decide_unpack _). vm_compute. exact I.
Defined.
