(* ===== verification/RetainedContext.v ===== *)
(** * RetainedContext: host-owned evidence outside the model's window
    ([history/src/retained_context.rs], [history/src/reconciled_retained_context.rs])

    The user's instructions and the verified answers a thread keeps for its reviewers:
    recording them under limits, restoring them from a checkpoint, rolling them back, and
    completing them from the live messages.  [u64] counters saturate.  Sizes of serialized
    values are those of [serde_json]. *)
From Stdlib Require Import Sorted.
From S2P Require Import Prelude RustInt RustStr ResponseItems.

Definition MAX_FAMILY_RECORDS : nat := 8.
Definition MAX_RECORD_BYTES : N := 16384.
Definition MAX_FAMILY_BYTES : N := 65536.

(** ** Data *)

Record VerifiedQuestionAnswer := mkQuestion { question : str; answer : str }.

Record VerifiedAnswer := mkAnswer {
  answer_turn_id : str;
  answer_call_id : str;
  questions : list VerifiedQuestionAnswer;
}.

Record RetainedUserMessage := mkMessage {
  message_turn_id : str;
  message_id : option str;
  message_text : str;
  complete : bool;
}.

Inductive RetainedInputSource := Local (order : option N) | Inherited.

#[export] Instance VerifiedAnswer_eq_dec : EqDecision VerifiedAnswer.
Proof. assert (EqDecision VerifiedQuestionAnswer) by solve_decision. solve_decision. Defined.
#[export] Instance RetainedUserMessage_eq_dec : EqDecision RetainedUserMessage.
Proof. solve_decision. Defined.
#[export] Instance RetainedInputSource_eq_dec : EqDecision RetainedInputSource.
Proof. solve_decision. Defined.

Definition acceptance_order (source : RetainedInputSource) : option N :=
  match source with Local order => order | Inherited => None end.

(** [From<Option<&CodexHarnessMetadata>>]. *)
Definition input_source (metadata : option CodexHarnessMetadata) : RetainedInputSource :=
  if from_option inherited_user_message false metadata then Inherited
  else Local (metadata ≫= user_input_order).

Record Ordered (T : Type) := mkOrdered { inherited : bool; order : N; value : T }.
Arguments mkOrdered {T}.
Arguments inherited {T}.
Arguments order {T}.
Arguments value {T}.

Inductive RetainedContextOrder := KeyInherited (order : N) | KeyLocal (order : N).

#[export] Instance RetainedContextOrder_eq_dec : EqDecision RetainedContextOrder.
Proof. solve_decision. Defined.

(** The derived order. *)
Definition key_ltb (a b : RetainedContextOrder) : bool :=
  match a, b with
  | KeyInherited x, KeyInherited y | KeyLocal x, KeyLocal y => (x <? y)%N
  | KeyInherited _, KeyLocal _ => true
  | KeyLocal _, KeyInherited _ => false
  end.

Inductive RetainedContextEntry :=
| EntryUserMessage (message : RetainedUserMessage)
| EntryVerifiedAnswer (a : VerifiedAnswer).

Inductive RetainedContextEvent :=
| EventVerifiedAnswer (a : VerifiedAnswer) (event_order : option N).

Record RetainedContext := mkRetained {
  verified_answers : list (Ordered VerifiedAnswer);
  verified_answers_incomplete : bool;
  user_messages : list (Ordered RetainedUserMessage);
  user_messages_incomplete : bool;
  next_order : N;
}.

(** [Default]. *)
Definition empty_context : RetainedContext := mkRetained [] false [] false 0.

(** ** Keys *)

Section keys.
Context {T : Type}.
Implicit Types (e : Ordered T) (es : list (Ordered T)).

Definition key e : RetainedContextOrder :=
  if inherited e then KeyInherited (order e) else KeyLocal (order e).

(** The stable [sort_by_key]. *)
Fixpoint insert_by (A : Type) (k : A → RetainedContextOrder) (x : A) (l : list A) : list A :=
  match l with
  | [] => [x]
  | y :: l' => if key_ltb (k y) (k x) then y :: insert_by A k x l' else x :: l
  end.
Definition sort_by {A} (k : A → RetainedContextOrder) (l : list A) : list A := foldr (insert_by A k) [] l.

(** [map_or(true, |bytes| bytes.len() > limit)] on the result of [serde_json::to_vec]. *)
Definition exceeds (limit : N) (size : option N) : bool :=
  match size with Some n => (limit <? n)%N | None => true end.

(** The loop of [bound_family]; an empty family serializes to two bytes, which ends it. *)
Fixpoint evict (over : list (Ordered T) → bool) es : list (Ordered T) * bool :=
  if over es then match es with [] => ([], false) | _ :: es => ((evict over es).1, true) end
  else (es, false).

Definition bound_family (over : list (Ordered T) → bool) es (incomplete : bool) : list (Ordered T) * bool :=
  let '(es, evicted) := evict over (sort_by key es) in (es, incomplete || evicted).

Definition set_value e (v : T) : Ordered T := mkOrdered (inherited e) (order e) v.
End keys.
Arguments insert_by {A}.

(** ** Sizes and limits *)

(** [serde_json::to_vec(_)], its length or an error. *)
Class JsonSizes := {
  message_size : RetainedUserMessage → option N;
  answer_size : VerifiedAnswer → option N;
  messages_size : list (Ordered RetainedUserMessage) → option N;
  answers_size : list (Ordered VerifiedAnswer) → option N;
}.

(** When a family is over its limits. *)
Class Limits := {
  over_messages : list (Ordered RetainedUserMessage) → bool;
  over_answers : list (Ordered VerifiedAnswer) → bool;
}.

(** The condition of the loop in [bound_family]. *)
Definition storage_limits `{JsonSizes} : Limits := {|
  over_messages es := (MAX_FAMILY_RECORDS <? length es) || exceeds MAX_FAMILY_BYTES (messages_size es);
  over_answers es := (MAX_FAMILY_RECORDS <? length es) || exceeds MAX_FAMILY_BYTES (answers_size es);
|}.

(** [s.truncate(s.floor_char_boundary(n))]. *)
Fixpoint floor_truncate (n : nat) (s : str) : str :=
  match s with
  | [] => []
  | c :: s => if n <? len_utf8 c then [] else c :: floor_truncate (n - len_utf8 c) s
  end.
Definition ID_BYTES : nat := 1024.

Section records.
Context `{JsonSizes}.

(** [RetainedUserMessage::bound]. *)
Definition bound_message (m : RetainedUserMessage) : RetainedUserMessage :=
  if exceeds MAX_RECORD_BYTES (message_size m)
  then mkMessage (floor_truncate ID_BYTES (message_turn_id m)) (floor_truncate ID_BYTES <$> message_id m) [] false
  else m.

(** [RetainedContextEvent::bound]. *)
Definition bound_answer (a : VerifiedAnswer) : VerifiedAnswer :=
  if exceeds MAX_RECORD_BYTES (answer_size a)
  then mkAnswer (floor_truncate ID_BYTES (answer_turn_id a)) (floor_truncate ID_BYTES (answer_call_id a)) []
  else a.
Definition bound_event (event : RetainedContextEvent) : RetainedContextEvent :=
  match event with EventVerifiedAnswer a event_order => EventVerifiedAnswer (bound_answer a) event_order end.
End records.

(** ** Setters *)

Definition set_answers (es : list (Ordered VerifiedAnswer)) (incomplete : bool) (c : RetainedContext) : RetainedContext :=
  mkRetained es incomplete (user_messages c) (user_messages_incomplete c) (next_order c).
Definition set_messages (es : list (Ordered RetainedUserMessage)) (incomplete : bool) (c : RetainedContext) : RetainedContext :=
  mkRetained (verified_answers c) (verified_answers_incomplete c) es incomplete (next_order c).
Definition set_next_order (n : N) (c : RetainedContext) : RetainedContext :=
  mkRetained (verified_answers c) (verified_answers_incomplete c) (user_messages c) (user_messages_incomplete c) n.

(** ** Operations *)

Section operations.
Context `{JsonSizes} {L : Limits}.
Implicit Types (c : RetainedContext).

(** [self.next_order.max(order.saturating_add(1))]. *)
Definition advance (order : N) c : RetainedContext := set_next_order (N.max (next_order c) (sat_add order 1)) c.

Definition reserve_order c : RetainedContext * N := (set_next_order (sat_add (next_order c) 1) c, next_order c).
Definition record_order (accepted : option N) c : RetainedContext * N :=
  let order := default (next_order c) accepted in (advance order c, order).

Definition verified_answers_complete c : bool :=
  negb (verified_answers_incomplete c)
  && forallb (λ e, negb (bool_decide (questions (value e) = []))) (verified_answers c).
Definition has_missing_user_messages c : bool := user_messages_incomplete c.
Definition user_messages_complete c : bool :=
  negb (has_missing_user_messages c) && forallb (λ e, complete (value e)) (user_messages c).
Definition mark_user_messages_incomplete c : RetainedContext := set_messages (user_messages c) true c.
Definition has_inherited_user_messages c : bool := existsb inherited (user_messages c).

Definition entries_of c : list (RetainedContextOrder * RetainedContextEntry) :=
  map (λ e, (key e, EntryVerifiedAnswer (value e))) (verified_answers c)
  ++ map (λ e, (key e, EntryUserMessage (value e))) (user_messages c).
Definition ordered_entries c : list (RetainedContextOrder * RetainedContextEntry) := sort_by fst (entries_of c).

(** The next place of the copied prefix. *)
Definition prefix_order (es : list (Ordered RetainedUserMessage)) : N :=
  foldr (λ e n, if inherited e then N.max (sat_add (order e) 1) n else n) 0%N es.

Definition same_message (m : RetainedUserMessage) (e : Ordered RetainedUserMessage) : bool :=
  bool_decide (message_id m ≠ None) && bool_decide (message_id (value e) = message_id m).

Definition bound_messages c : RetainedContext :=
  let '(es, incomplete) := bound_family over_messages (user_messages c) (user_messages_incomplete c) in
  set_messages es incomplete c.
Definition bound_answers c : RetainedContext :=
  let '(es, incomplete) := bound_family over_answers (verified_answers c) (verified_answers_incomplete c) in
  set_answers es incomplete c.

Definition push_message (inherited : bool) (order : N) (m : RetainedUserMessage) c : RetainedContext :=
  set_messages (user_messages c ++ [mkOrdered inherited order m]) (user_messages_incomplete c) c.
Definition push_answer (order : N) (a : VerifiedAnswer) c : RetainedContext :=
  set_answers (verified_answers c ++ [mkOrdered false order a]) (verified_answers_incomplete c) c.

Definition record_user_message (m : RetainedUserMessage) (source : RetainedInputSource) c : RetainedContext :=
  let m := bound_message m in
  let is_inherited := bool_decide (source = Inherited) in
  let c := set_answers (verified_answers c) (verified_answers_incomplete c || is_inherited) c in
  let found := list_find (λ e, same_message m e = true) (user_messages c) in
  let same := match found with
              | Some (_, e) => bool_decide (value e = m) && bool_decide (inherited e = is_inherited)
              | None => false
              end in
  if same then c
  else
    let c := match found with
             | Some (index, _) => set_messages (delete index (user_messages c)) (user_messages_incomplete c) c
             | None => c
             end in
    let '(c, order) :=
      if is_inherited then (c, prefix_order (user_messages c)) else record_order (acceptance_order source) c in
    bound_messages (push_message is_inherited order m c).

(** The text an entry recovers, under the limits of a record. *)
Definition recover_entry (excerpt_for_id : str → option str) (e : Ordered RetainedUserMessage) : Ordered RetainedUserMessage :=
  let m := value e in
  if bool_decide (message_text m = []) && negb (complete m) then
    match message_id m ≫= excerpt_for_id with
    | Some text => set_value e (bound_message (mkMessage (message_turn_id m) (message_id m) text (complete m)))
    | None => e
    end
  else e.
Definition recover_user_message_excerpts (excerpt_for_id : str → option str) c : RetainedContext :=
  bound_messages (set_messages (map (recover_entry excerpt_for_id) (user_messages c)) (user_messages_incomplete c) c).

Definition same_call (a : VerifiedAnswer) (e : Ordered VerifiedAnswer) : bool :=
  bool_decide (answer_turn_id (value e) = answer_turn_id a) && bool_decide (answer_call_id (value e) = answer_call_id a).

(** [record]; whether anything was recorded. *)
Definition record (event : RetainedContextEvent) c : RetainedContext * bool :=
  match bound_event event with
  | EventVerifiedAnswer a accepted =>
      let found := list_find (λ e, same_call a e = true) (verified_answers c) in
      let same := match found with Some (_, e) => bool_decide (value e = a) | None => false end in
      if same then (c, false)
      else
        let c := match found with
                 | Some (index, _) => set_answers (delete index (verified_answers c)) (verified_answers_incomplete c) c
                 | None => c
                 end in
        let '(c, order) := record_order accepted c in
        (bound_answers (push_answer order a c), true)
  end.
End operations.

Section restoring.
Context `{Opaque, JsonSizes} {L : Limits}.
Implicit Types (c : RetainedContext).

(** The orders that surviving items of the thread itself carry. *)
Definition local_input_order (e : ResponseItemEnvelope) : option N :=
  metadata ← metadata e;
  if negb (inherited_user_message metadata) then user_input_order metadata else None.

Definition restore_answer c (e : Ordered VerifiedAnswer) : RetainedContext :=
  advance (order e)
    (set_answers (verified_answers c ++ [set_value e (bound_answer (value e))]) (verified_answers_incomplete c) c).
Definition restore_message c (e : Ordered RetainedUserMessage) : RetainedContext :=
  let c := set_messages (user_messages c ++ [set_value e (bound_message (value e))]) (user_messages_incomplete c) c in
  let c := set_answers (verified_answers c) (verified_answers_incomplete c || inherited e) c in
  if inherited e then c else advance (order e) c.

(** [restore]: the entries are rewritten in place, here by rebuilding the two families. *)
Definition restore (checkpoint : option RetainedContext) (surviving_items : list ResponseItemEnvelope) : RetainedContext :=
  let c := default (mark_user_messages_incomplete empty_context) checkpoint in
  let c' := foldl restore_answer (set_answers [] (verified_answers_incomplete c) c) (verified_answers c) in
  let c' := foldl restore_message (set_messages [] (user_messages_incomplete c') c') (user_messages c) in
  let c' := foldl (λ c order, advance order c) c' (omap local_input_order surviving_items) in
  bound_messages (bound_answers c').
End restoring.

Section rollback.
Implicit Types (c : RetainedContext).

Definition retain_answers (keep : VerifiedAnswer → bool) c : RetainedContext :=
  set_answers (filter (λ e, keep (value e) = true) (verified_answers c)) (verified_answers_incomplete c) c.

(** The key of the boundary, from its order or from the retained message. *)
Definition rollback_boundary (first_removed_message_id : option str) (source : RetainedInputSource) c :
    option RetainedContextOrder :=
  match acceptance_order source with
  | Some order => Some (KeyLocal order)
  | None =>
      id ← first_removed_message_id;
      '(_, e) ← list_find (λ e, message_id (value e) = Some id) (user_messages c);
      Some (key e)
  end.

Definition rollback (turn_ids : list str) (first_removed_message_id : option str) (source : RetainedInputSource) c :
    RetainedContext :=
  match rollback_boundary first_removed_message_id source c with
  | Some boundary =>
      let c := set_answers (filter (λ e, key_ltb (key e) boundary = true) (verified_answers c)) (verified_answers_incomplete c) c in
      set_messages (filter (λ e, key_ltb (key e) boundary = true) (user_messages c)) (user_messages_incomplete c) c
  | None =>
      let lost := bool_decide (first_removed_message_id ≠ None)
                  || existsb (λ e, bool_decide (message_turn_id (value e) ∈ turn_ids)) (user_messages c) in
      let c := set_answers (filter (λ e, source ≠ Inherited ∧ answer_turn_id (value e) ∉ turn_ids) (verified_answers c))
                 (verified_answers_incomplete c) c in
      set_messages (filter (λ e, (source ≠ Inherited ∨ inherited e = true) ∧ message_turn_id (value e) ∉ turn_ids) (user_messages c))
        (user_messages_incomplete c || lost) c
  end.
End rollback.

(** ** Completing the evidence from live messages ([reconciled_retained_context.rs]) *)

Record ReconciledRetainedContext := mkReconciled {
  retained_context : option RetainedContext;
  recovered : list (RetainedContextOrder * RetainedUserMessage);
  missing_user_messages : bool;
}.

Definition matches_source (m : RetainedUserMessage) (e : RetainedContextEntry) : bool :=
  match e with
  | EntryUserMessage retained =>
      match message_id retained with
      | Some id => bool_decide (message_id m = Some id)
      | None => bool_decide (message_turn_id m = message_turn_id retained) && bool_decide (message_text m = message_text retained)
      end
  | EntryVerifiedAnswer _ => false
  end.

(** The first retained entry of the message that is not matched yet. *)
Fixpoint find_source (m : RetainedUserMessage) (matched : list nat) (index : nat) (es : list RetainedContextEntry) : option nat :=
  match es with
  | [] => None
  | e :: es =>
      if matches_source m e && negb (bool_decide (index ∈ matched)) then Some index
      else find_source m matched (S index) es
  end.

Fixpoint reconcile_loop (es : list RetainedContextEntry) (matched : list nat) (used_orders : list RetainedContextOrder)
    (live : list (option N * RetainedUserMessage)) : list (RetainedContextOrder * RetainedUserMessage) * bool :=
  match live with
  | [] => ([], false)
  | (order, m) :: live =>
      match find_source m matched 0 es with
      | Some index => reconcile_loop es (index :: matched) used_orders live
      | None =>
          match KeyLocal <$> order with
          | Some order =>
              if bool_decide (order ∈ used_orders)
              then ((reconcile_loop es matched used_orders live).1, true)
              else let '(rest, missing) := reconcile_loop es matched (order :: used_orders) live in ((order, m) :: rest, missing)
          | None => ((reconcile_loop es matched used_orders live).1, true)
          end
      end
  end.

(** [ReconciledRetainedContext::new]. *)
Definition reconcile (retained : option RetainedContext) (live_messages : list (option N * RetainedUserMessage)) :
    ReconciledRetainedContext :=
  let missing := from_option has_missing_user_messages true retained in
  let retained_entries := default [] (ordered_entries <$> retained) in
  if negb (from_option user_messages_complete false retained) then
    let '(recovered, lost) := reconcile_loop (map snd retained_entries) [] (map fst retained_entries) live_messages in
    mkReconciled retained recovered (missing || lost)
  else mkReconciled retained [] missing.

Definition reconciled_entries (r : ReconciledRetainedContext) : list (RetainedContextOrder * RetainedContextEntry) :=
  sort_by fst (default [] (ordered_entries <$> retained_context r)
               ++ map (λ '(order, m), (order, EntryUserMessage m)) (recovered r)).

(** * What the evidence is worth *)

(** ** Sorted families *)

Definition key_le (a b : RetainedContextOrder) : Prop := key_ltb b a = false.

#[export] Instance key_le_preorder : PreOrder key_le.
Proof.
  unfold key_le. split.
  - intros []; simpl; apply N.ltb_irrefl.
  - intros [x|x] [y|y] [z|z]; simpl; rewrite ?N.ltb_ge; (done || lia).
Qed.

Lemma key_ltb_le a b : key_ltb a b = true → key_le a b.
Proof. unfold key_le. destruct a, b; simpl; rewrite ?N.ltb_lt, ?N.ltb_ge; (done || lia). Qed.

Section sorting.
Context {A : Type} (k : A → RetainedContextOrder).
Implicit Types (l : list A).

Definition sorted_by l : Prop := StronglySorted (λ x y, key_le (k x) (k y)) l.

Lemma insert_by_perm x l : insert_by k x l ≡ₚ x :: l.
Proof.
  induction l as [|y l IH]; [done|]. simpl. destruct (key_ltb _ _); [|done]. rewrite IH. apply Permutation_swap.
Qed.

Lemma sort_by_perm l : sort_by k l ≡ₚ l.
Proof. unfold sort_by. induction l as [|x l IH]; [done|]. simpl. by rewrite insert_by_perm, IH. Qed.

Lemma insert_by_sorted x l : sorted_by l → sorted_by (insert_by k x l).
Proof.
  induction 1 as [|y l Hl IH Hy]; simpl; [by repeat constructor|].
  destruct (key_ltb (k y) (k x)) eqn:E.
  - constructor; [done|]. apply Forall_forall. intros z Hz. rewrite insert_by_perm in Hz.
    apply elem_of_cons in Hz as [->|Hz]; [by apply key_ltb_le|]. rewrite Forall_forall in Hy. by apply Hy.
  - constructor; [by constructor|]. constructor; [done|]. eapply Forall_impl; [exact Hy|]. intros z Hz. by etrans.
Qed.

Lemma sort_by_sorted l : sorted_by (sort_by k l).
Proof. unfold sort_by. induction l as [|x l IH]; [constructor|]. by apply insert_by_sorted. Qed.

Lemma sort_by_id l : sorted_by l → sort_by k l = l.
Proof.
  unfold sort_by. induction 1 as [|x l Hl IH Hx]; [done|]. simpl. rewrite IH. destruct Hx as [|y l Hxy]; [done|].
  simpl. by rewrite Hxy.
Qed.

Lemma sorted_sublist l l' : l `sublist_of` l' → sorted_by l' → sorted_by l.
Proof.
  induction 1 as [|x l l' Hl IH|x l l' Hl IH]; [constructor| |].
  - intros [Hl' Hx]%StronglySorted_inv. constructor; [by apply IH|]. rewrite Forall_forall in *. intros y Hy.
    apply Hx. by eapply sublist_subseteq.
  - intros [Hl' _]%StronglySorted_inv. by apply IH.
Qed.
End sorting.

(** ** Eviction *)

Section eviction.
Context {T : Type} (over : list (Ordered T) → bool).
Implicit Types (es : list (Ordered T)).

Lemma evict_sublist es : (evict over es).1 `sublist_of` es.
Proof.
  induction es as [|e es IH]; simpl; [by destruct (over [])|]. destruct (over _); [|done].
  simpl. by apply sublist_cons.
Qed.

Lemma evict_under es : over [] = false → over (evict over es).1 = false.
Proof.
  intros H0. induction es as [|e es IH]; simpl; [by rewrite H0|]. by destruct (over (e :: es)) eqn:E.
Qed.

Lemma evict_id es : over es = false → evict over es = (es, false).
Proof. destruct es; simpl; by intros ->. Qed.

(** Only a loss changes the family, and it is told. *)
Lemma evict_told es es' : evict over es = (es', false) → es' = es.
Proof. destruct es; simpl; destruct (over _); naive_solver. Qed.

Lemma bound_family_id es incomplete : sorted_by key es → over es = false → bound_family over es incomplete = (es, incomplete).
Proof. intros Hs Ho. unfold bound_family. rewrite sort_by_id, evict_id by done. by rewrite orb_false_r. Qed.

Lemma bound_family_spec es incomplete : over [] = false →
  let r := bound_family over es incomplete in
  sorted_by key r.1 ∧ over r.1 = false ∧ (incomplete = true → r.2 = true) ∧ ∀ e, e ∈ r.1 → e ∈ es.
Proof.
  intros H0. unfold bound_family. pose proof (evict_sublist (sort_by key es)) as Hsub.
  pose proof (evict_under (sort_by key es) H0). destruct (evict over _) as [es' lost]. simpl in *. split_and!.
  - eapply sorted_sublist, sort_by_sorted. exact Hsub.
  - done.
  - by intros ->.
  - intros e He. rewrite <- (sort_by_perm key es). by eapply sublist_subseteq.
Qed.
End eviction.

(** ** Limits of records *)

Section records_facts.
Context `{JsonSizes}.

Lemma len_utf8_pos c : 0 < len_utf8 c.
Proof. unfold len_utf8. repeat case_match; lia. Qed.

Lemma floor_truncate_idemp n s : floor_truncate n (floor_truncate n s) = floor_truncate n s.
Proof.
  revert n. induction s as [|c s IH]; intros n; [done|]. simpl. destruct (n <? len_utf8 c) eqn:E; [done|].
  simpl. by rewrite E, IH.
Qed.

Lemma bound_message_idemp m : bound_message (bound_message m) = bound_message m.
Proof.
  unfold bound_message at 2 3. destruct (exceeds _ (message_size m)) eqn:E; unfold bound_message; [|by rewrite E].
  case_match; [|done]. simpl. rewrite floor_truncate_idemp. f_equal.
  destruct (message_id m) as [id|]; [|done]. simpl. by rewrite floor_truncate_idemp.
Qed.

Lemma bound_answer_idemp a : bound_answer (bound_answer a) = bound_answer a.
Proof.
  unfold bound_answer at 2 3. destruct (exceeds _ (answer_size a)) eqn:E; unfold bound_answer; [|by rewrite E].
  case_match; [|done]. simpl. by rewrite !floor_truncate_idemp.
Qed.

(** What is cut is not complete. *)
Lemma bound_message_complete m : complete (bound_message m) = true → bound_message m = m.
Proof. unfold bound_message. by destruct (exceeds _ _). Qed.
End records_facts.

(** ** Every operation *)

Inductive operation `{Opaque} :=
| OpReserve
| OpUserMessage (m : RetainedUserMessage) (source : RetainedInputSource)
| OpEvent (event : RetainedContextEvent)
| OpMarkIncomplete
| OpRecover (excerpt_for_id : str → option str)
| OpRestore (checkpoint : option RetainedContext) (surviving_items : list ResponseItemEnvelope)
| OpRetainAnswers (keep : VerifiedAnswer → bool)
| OpRollback (turn_ids : list str) (first_removed_message_id : option str) (source : RetainedInputSource).

(** The context an unbounded record would be. *)
Definition no_limits : Limits := {| over_messages _ := false; over_answers _ := false |}.

Class LimitLaws (L : Limits) := {
  over_messages_nil : over_messages [] = false;
  over_answers_nil : over_answers [] = false;
  over_messages_sublist es es' : es `sublist_of` es' → over_messages es' = false → over_messages es = false;
  over_answers_sublist es es' : es `sublist_of` es' → over_answers es' = false → over_answers es = false;
}.

#[export] Instance no_limits_laws : LimitLaws no_limits.
Proof. by split. Qed.

(** An empty sequence serializes to [[]], and a sequence without some of its elements is not longer. *)
Class JsonSizeLaws (J : JsonSizes) := {
  messages_size_nil : messages_size [] = Some 2%N;
  answers_size_nil : answers_size [] = Some 2%N;
  messages_size_sublist es es' n : es `sublist_of` es' → messages_size es' = Some n →
    ∃ m, messages_size es = Some m ∧ (m ≤ n)%N;
  answers_size_sublist es es' n : es `sublist_of` es' → answers_size es' = Some n →
    ∃ m, answers_size es = Some m ∧ (m ≤ n)%N;
}.

Lemma exceeds_le limit s s' : (∀ n, s' = Some n → ∃ m, s = Some m ∧ (m ≤ n)%N) →
  exceeds limit s' = false → exceeds limit s = false.
Proof.
  unfold exceeds. destruct s' as [n|]; [|done]. intros H. destruct (H n eq_refl) as (m & -> & Hm).
  rewrite !N.ltb_ge. lia.
Qed.

#[export] Instance storage_limits_laws `{J : JsonSizes} {JL : JsonSizeLaws J} : LimitLaws storage_limits.
Proof.
  split; simpl.
  - by rewrite messages_size_nil.
  - by rewrite answers_size_nil.
  - intros es es' Hs [Hl He]%orb_false_iff. apply Nat.ltb_ge in Hl. apply sublist_length in Hs as Hlen.
    apply orb_false_iff. split; [apply Nat.ltb_ge; lia|]. eapply exceeds_le; [|exact He]. intros n. by apply messages_size_sublist.
  - intros es es' Hs [Hl He]%orb_false_iff. apply Nat.ltb_ge in Hl. apply sublist_length in Hs as Hlen.
    apply orb_false_iff. split; [apply Nat.ltb_ge; lia|]. eapply exceeds_le; [|exact He]. intros n. by apply answers_size_sublist.
Qed.

Section runs.
Context `{Opaque, J : JsonSizes} {L : Limits}.

Definition apply_operation (c : RetainedContext) (op : operation) : RetainedContext :=
  match op with
  | OpReserve => (reserve_order c).1
  | OpUserMessage m source => record_user_message m source c
  | OpEvent event => (record event c).1
  | OpMarkIncomplete => mark_user_messages_incomplete c
  | OpRecover excerpt_for_id => recover_user_message_excerpts excerpt_for_id c
  | OpRestore checkpoint surviving_items => restore checkpoint surviving_items
  | OpRetainAnswers keep => retain_answers keep c
  | OpRollback turn_ids first_removed_message_id source => rollback turn_ids first_removed_message_id source c
  end.

Definition run_operations (ops : list operation) : RetainedContext := foldl apply_operation empty_context ops.
End runs.

(** ** The invariant *)

Section invariant.
Context `{Opaque, J : JsonSizes} {L : Limits} {LL : LimitLaws L}.
Implicit Types (c : RetainedContext).

Definition answer_ok (next : N) (e : Ordered VerifiedAnswer) : Prop :=
  bound_answer (value e) = value e ∧ (sat_add (order e) 1 ≤ next)%N.
Definition message_ok (next : N) (answers_lost : bool) (e : Ordered RetainedUserMessage) : Prop :=
  bound_message (value e) = value e ∧
  if inherited e then answers_lost = true else (sat_add (order e) 1 ≤ next)%N.

(** What holds of every entry. *)
Definition entries_ok c : Prop :=
  Forall (answer_ok (next_order c)) (verified_answers c) ∧
  Forall (message_ok (next_order c) (verified_answers_incomplete c)) (user_messages c).

Record well_kept c : Prop := {
  kept_entries : entries_ok c;
  kept_answers_sorted : sorted_by key (verified_answers c);
  kept_messages_sorted : sorted_by key (user_messages c);
  kept_answers_within : over_answers (verified_answers c) = false;
  kept_messages_within : over_messages (user_messages c) = false;
}.

Lemma Forall_sublist {A} (P : A → Prop) l l' : l `sublist_of` l' → Forall P l' → Forall P l.
Proof. rewrite !Forall_forall. intros Hs HP x Hx. by eapply HP, sublist_subseteq. Qed.

Lemma filter_sublist {A} (P : A → Prop) `{∀ x, Decision (P x)} l : filter P l `sublist_of` l.
Proof.
  induction l as [|x l IH]; [done|]. rewrite filter_cons. case_decide; [by apply sublist_skip|by apply sublist_cons].
Qed.

Lemma delete_sublist {A} (i : nat) (l : list A) : delete i l `sublist_of` l.
Proof. apply sublist_delete. Qed.

(** Fewer entries and more flags. *)
Lemma entries_ok_shrink c c' : entries_ok c →
  verified_answers c' `sublist_of` verified_answers c → user_messages c' `sublist_of` user_messages c →
  (∀ o, sat_add o 1 ≤ next_order c → sat_add o 1 ≤ next_order c')%N → (verified_answers_incomplete c = true → verified_answers_incomplete c' = true) →
  entries_ok c'.
Proof.
  intros [Ha Hm] Hsa Hsm Hn Hv. split.
  - apply (Forall_sublist _ _ _ Hsa). eapply Forall_impl; [exact Ha|]. intros e [? ?]. split; [done|auto].
  - apply (Forall_sublist _ _ _ Hsm). eapply Forall_impl; [exact Hm|]. intros e [? He]. split; [done|].
    destruct (inherited e); auto.
Qed.

Lemma well_kept_shrink c c' : well_kept c →
  verified_answers c' `sublist_of` verified_answers c → user_messages c' `sublist_of` user_messages c →
  (∀ o, sat_add o 1 ≤ next_order c → sat_add o 1 ≤ next_order c')%N → (verified_answers_incomplete c = true → verified_answers_incomplete c' = true) →
  well_kept c'.
Proof.
  intros [He Ha Hm Hla Hlm] Hsa Hsm Hn Hv. split.
  - by eapply entries_ok_shrink.
  - by eapply sorted_sublist.
  - by eapply sorted_sublist.
  - by eapply over_answers_sublist.
  - by eapply over_messages_sublist.
Qed.

(** Bounding a family puts it in order and within its limits. *)
Lemma bound_messages_kept c : entries_ok c → sorted_by key (verified_answers c) → over_answers (verified_answers c) = false →
  well_kept (bound_messages c).
Proof.
  intros [Ha Hm] Hs Ho. unfold bound_messages.
  pose proof (bound_family_spec over_messages (user_messages c) (user_messages_incomplete c) over_messages_nil) as (Hsm & Hom & _ & Hin).
  destruct (bound_family _ _ _) as [es inc]. simpl in *. split; [|done..]. split; [done|]. simpl.
  rewrite Forall_forall in *. eauto.
Qed.

Lemma bound_answers_kept c : entries_ok c → sorted_by key (user_messages c) → over_messages (user_messages c) = false →
  well_kept (bound_answers c).
Proof.
  intros [Ha Hm] Hs Ho. unfold bound_answers.
  pose proof (bound_family_spec over_answers (verified_answers c) (verified_answers_incomplete c) over_answers_nil) as (Hsa & Hoa & Hinc & Hin).
  destruct (bound_family _ _ _) as [es inc]. simpl in *. split; [|done..]. split; simpl.
  - rewrite Forall_forall in *. eauto.
  - eapply Forall_impl; [exact Hm|]. intros e [? He]. split; [done|]. destruct (inherited e); auto.
Qed.

Lemma well_kept_empty : well_kept empty_context.
Proof.
  split; [split; constructor|constructor|constructor|apply over_answers_nil|apply over_messages_nil].
Qed.

Lemma advance_kept order c : well_kept c → well_kept (advance order c).
Proof. intros Hc. eapply well_kept_shrink; [exact Hc|done|done|simpl; lia|done]. Qed.

Lemma delete_found_sublist {A} (es : list A) (found : option (nat * A)) :
  (match found with Some (index, _) => delete index es | None => es end) `sublist_of` es.
Proof. destruct found as [[i x]|]; [apply delete_sublist|done]. Qed.

Lemma prefix_order_spec es e : e ∈ es → inherited e = true → (sat_add (order e) 1 ≤ prefix_order es)%N.
Proof.
  induction es as [|x es IH]; [by intros ?%elem_of_nil|]. intros [->|Hin]%elem_of_cons Hi; simpl.
  - rewrite Hi. lia.
  - specialize (IH Hin Hi). destruct (inherited x); lia.
Qed.

Lemma record_user_message_kept m source c : well_kept c → well_kept (record_user_message m source c).
Proof.
  intros Hc. unfold record_user_message. set (i := bool_decide (source = Inherited)).
  set (c1 := set_answers _ (_ || i) c).
  assert (well_kept c1) as Hc1 by (eapply well_kept_shrink; [exact Hc|done|done|done|by simpl; intros Hv; rewrite Hv]).
  assert (i = true → verified_answers_incomplete c1 = true) as Hi by (intros ->; apply orb_true_r).
  set (found := list_find _ _). destruct (match found with Some _ => _ | None => _ end); [done|].
  set (c2 := match found with Some _ => _ | None => c1 end).
  assert (well_kept c2 ∧ verified_answers_incomplete c2 = verified_answers_incomplete c1) as [Hc2 Hv].
  { subst c2. destruct found as [[j e]|]; [|done]. split; [|done].
    eapply well_kept_shrink; [exact Hc1|done|apply delete_sublist|done|done]. }
  clearbody c1 c2 i. clear found Hc Hc1. rewrite <- Hv in Hi. clear Hv c1.
  destruct i.
  - destruct Hc2 as [[Ha Hm] Hsa Hsm Hla Hlm]. apply bound_messages_kept; [|done..]. split; [done|]. simpl.
    apply Forall_app. split; [done|]. apply Forall_singleton. split; [apply bound_message_idemp|by apply Hi].
  - apply (advance_kept (default (next_order c2) (acceptance_order source))) in Hc2 as [[Ha Hm] Hsa Hsm Hla Hlm].
    apply bound_messages_kept; [|done..]. split; [done|]. simpl.
    apply Forall_app. split; [done|]. apply Forall_singleton. split; [apply bound_message_idemp|simpl; lia].
Qed.

Lemma record_kept event c : well_kept c → well_kept (record event c).1.
Proof.
  intros Hc. unfold record. destruct event as [a accepted]. simpl. set (found := list_find _ _).
  destruct (match found with Some _ => _ | None => _ end); [done|].
  set (c2 := match found with Some _ => _ | None => c end).
  assert (well_kept c2) as Hc2.
  { subst c2. destruct found as [[j e]|]; [|done]. eapply well_kept_shrink; [exact Hc|apply delete_sublist|done|done|done]. }
  clearbody c2. simpl. apply (advance_kept (default (next_order c2) accepted)) in Hc2 as [[Ha Hm] Hsa Hsm Hla Hlm].
  apply bound_answers_kept; [|done..]. split; [|done]. simpl. apply Forall_app. split; [done|]. apply Forall_singleton.
  split; [apply bound_answer_idemp|simpl; lia].
Qed.

Lemma recover_entry_ok excerpt next lost e : message_ok next lost e → message_ok next lost (recover_entry excerpt e).
Proof.
  intros [Hb Ho]. unfold recover_entry. destruct (_ && _); [|done]. destruct (_ ≫= _); [|done].
  split; [apply bound_message_idemp|done].
Qed.

Lemma recover_kept excerpt c : well_kept c → well_kept (recover_user_message_excerpts excerpt c).
Proof.
  intros [[Ha Hm] Hsa Hsm Hla Hlm]. apply bound_messages_kept; [|done..]. split; [done|]. simpl.
  apply Forall_fmap. eapply Forall_impl; [exact Hm|]. intros e. apply recover_entry_ok.
Qed.

Lemma foldl_kept {B} (P : RetainedContext → Prop) (f : RetainedContext → B → RetainedContext) l c :
  (∀ c x, P c → P (f c x)) → P c → P (foldl f c l).
Proof. intros Hf. revert c. induction l as [|x l IH]; intros c Hc; [done|]. simpl. auto. Qed.

Lemma advance_entries order c : entries_ok c → entries_ok (advance order c).
Proof. intros Hc. eapply entries_ok_shrink; [exact Hc|done|done|simpl; lia|done]. Qed.

Lemma restore_answer_entries c e : entries_ok c → entries_ok (restore_answer c e).
Proof.
  intros [Ha Hm]%(advance_entries (order e)). split; [|done]. simpl. apply Forall_app. split; [done|].
  apply Forall_singleton. split; [apply bound_answer_idemp|simpl; lia].
Qed.

Lemma restore_message_entries c e : entries_ok c → entries_ok (restore_message c e).
Proof.
  intros Hc. unfold restore_message. destruct (inherited e) eqn:Hi.
  - destruct Hc as [Ha Hm]. split; [done|]. simpl. apply Forall_app. split.
    + eapply Forall_impl; [exact Hm|]. intros x [? Hx]. split; [done|]. destruct (inherited x); [apply orb_true_r|done].
    + apply Forall_singleton. split; [apply bound_message_idemp|]. simpl. rewrite Hi. apply orb_true_r.
  - apply (advance_entries (order e)) in Hc as [Ha Hm]. split; [done|]. simpl. rewrite orb_false_r.
    apply Forall_app. split; [done|]. apply Forall_singleton. split; [apply bound_message_idemp|]. simpl. rewrite Hi. lia.
Qed.

(** Whatever the checkpoint holds. *)
Lemma restore_kept checkpoint items : well_kept (restore checkpoint items).
Proof.
  unfold restore. set (c := default _ checkpoint). set (c1 := foldl restore_answer _ _). set (c2 := foldl restore_message _ _).
  set (c3 := foldl _ c2 _).
  assert (entries_ok (set_messages [] (user_messages_incomplete c1) c1)) as H1.
  { assert (∀ l c', Forall (answer_ok (next_order c')) (verified_answers c') →
      Forall (answer_ok (next_order (foldl restore_answer c' l))) (verified_answers (foldl restore_answer c' l))) as Hl.
    { induction l as [|e l IH]; intros c' Ha; [done|]. apply IH.
      destruct (restore_answer_entries (set_messages [] true c') e) as [? _]; [by split|done]. }
    split; [|constructor]. apply Hl. constructor. }
  assert (entries_ok c2) as H2 by (apply foldl_kept; [intros; by apply restore_message_entries|exact H1]).
  assert (entries_ok c3) as [Ha Hm] by (apply foldl_kept; [intros; by apply advance_entries|exact H2]).
  assert (∀ x, entries_ok x → entries_ok (bound_answers x) ∧ sorted_by key (verified_answers (bound_answers x)) ∧
    over_answers (verified_answers (bound_answers x)) = false) as Hb.
  { intros x [Hxa Hxm]. unfold bound_answers.
    pose proof (bound_family_spec over_answers (verified_answers x) (verified_answers_incomplete x) over_answers_nil) as (Hsa & Hoa & Hinc & Hin).
    destruct (bound_family _ _ _) as [es inc]. simpl in *. split_and!; [split; simpl|done..].
    - rewrite Forall_forall in *. eauto.
    - eapply Forall_impl; [exact Hxm|]. intros e [? He]. split; [done|]. destruct (inherited e); auto. }
  destruct (Hb c3) as (? & ? & ?); [done|]. by apply bound_messages_kept.
Qed.

Lemma rollback_kept turn_ids first_removed source c : well_kept c → well_kept (rollback turn_ids first_removed source c).
Proof.
  intros Hc. unfold rollback. destruct (rollback_boundary _ _ _).
  - eapply well_kept_shrink; [exact Hc|apply filter_sublist|apply filter_sublist|done|done].
  - eapply well_kept_shrink; [exact Hc|apply filter_sublist|apply filter_sublist|done|done].
Qed.

Lemma apply_operation_kept op c : well_kept c → well_kept (apply_operation c op).
Proof.
  intros Hc. destruct op; simpl.
  - eapply well_kept_shrink; [exact Hc|done|done|simpl; unfold sat_add; lia|done].
  - by apply record_user_message_kept.
  - by apply record_kept.
  - by eapply well_kept_shrink.
  - by apply recover_kept.
  - apply restore_kept.
  - eapply well_kept_shrink; [exact Hc|apply filter_sublist|done|done|done].
  - by apply rollback_kept.
Qed.
End invariant.

(** ** Bounded and unbounded evidence *)

Section exact.
Context `{Opaque, J : JsonSizes} {L : Limits}.
Implicit Types (c u : RetainedContext).

Definition told c : bool := verified_answers_incomplete c || user_messages_incomplete c.

Lemma bound_family_told {T} (over : list (Ordered T) → bool) es incomplete :
  (bound_family over es incomplete).2 = true ∨
  bound_family over es incomplete = bound_family (λ _, false) es incomplete ∧ incomplete = false.
Proof.
  unfold bound_family. destruct (evict over (sort_by key es)) as [es' lost] eqn:He. destruct lost.
  - left. apply orb_true_r.
  - apply evict_told in He as ->. rewrite evict_id by done. destruct incomplete; [by left|by right].
Qed.

Lemma bound_messages_told c : told (bound_messages c) = true ∨ bound_messages c = bound_messages (L := no_limits) c.
Proof.
  unfold bound_messages, told. destruct (bound_family_told over_messages (user_messages c) (user_messages_incomplete c)) as [Ht|[He _]].
  - left. destruct (bound_family _ _ _). simpl in *. rewrite Ht. apply orb_true_r.
  - right. by rewrite He.
Qed.

Lemma bound_answers_told c : told (bound_answers c) = true ∨ bound_answers c = bound_answers (L := no_limits) c.
Proof.
  unfold bound_answers, told. destruct (bound_family_told over_answers (verified_answers c) (verified_answers_incomplete c)) as [Ht|[He _]].
  - left. destruct (bound_family _ _ _). simpl in *. by rewrite Ht.
  - right. by rewrite He.
Qed.

Lemma bound_family_flag {T} (over : list (Ordered T) → bool) es : (bound_family over es true).2 = true.
Proof. unfold bound_family. by destruct (evict _ _). Qed.

(** A loss once told stays told. *)
Lemma bound_messages_keeps_told c : told c = true → told (bound_messages c) = true.
Proof.
  unfold told, bound_messages. intros [Ha|Hm]%orb_true_iff.
  - destruct (bound_family _ _ _). simpl. by rewrite Ha.
  - rewrite Hm. pose proof (bound_family_flag over_messages (user_messages c)) as Hf. destruct (bound_family _ _ _).
    simpl in *. rewrite Hf. apply orb_true_r.
Qed.

Lemma bound_answers_keeps_told c : told c = true → told (bound_answers c) = true.
Proof.
  unfold told, bound_answers. intros [Ha|Hm]%orb_true_iff.
  - rewrite Ha. pose proof (bound_family_flag over_answers (verified_answers c)) as Hf. destruct (bound_family _ _ _).
    simpl in *. by rewrite Hf.
  - destruct (bound_family _ _ _). simpl. rewrite Hm. apply orb_true_r.
Qed.

Lemma record_user_message_told m source c :
  (told c = true → told (record_user_message m source c) = true) ∧
  (told (record_user_message m source c) = true ∨ record_user_message m source c = record_user_message (L := no_limits) m source c).
Proof.
  unfold record_user_message. set (i := bool_decide (source = Inherited)). set (c1 := set_answers _ (_ || i) c).
  assert (told c = true → told c1 = true) as H1.
  { unfold told. simpl. intros [->| ->]%orb_true_iff; [done|apply orb_true_r]. }
  set (found := list_find _ _). destruct (match found with Some _ => _ | None => _ end); [by split; [|right]|].
  set (c2 := match found with Some _ => _ | None => c1 end).
  assert (told c2 = told c1) as H2 by by destruct found as [[]|].
  destruct (if i then _ else _) as [c3 o] eqn:H3.
  assert (told c3 = told c2) as H3' by (destruct i; injection H3 as <- _; done).
  split; [|apply bound_messages_told]. intros Ht. apply bound_messages_keeps_told.
  transitivity (told c3); [done|]. rewrite H3', H2. auto.
Qed.

Lemma record_told event c :
  (told c = true → told (record event c).1 = true) ∧
  (told (record event c).1 = true ∨ record event c = record (L := no_limits) event c).
Proof.
  unfold record. destruct event as [a accepted]. simpl. set (found := list_find _ _).
  destruct (match found with Some _ => _ | None => _ end); [by split; [|right]|].
  set (c2 := match found with Some _ => _ | None => c end).
  assert (told c2 = told c) as H2 by by destruct found as [[]|].
  simpl. set (c3 := push_answer _ _ _). assert (told c3 = told c) as H3 by done. split.
  - intros Ht. apply bound_answers_keeps_told. by rewrite H3.
  - destruct (bound_answers_told c3) as [?|He]; [by left|right]. by rewrite He.
Qed.

Lemma apply_operation_told op c u : told c = true ∨ c = u →
  told (apply_operation c op) = true ∨ apply_operation c op = apply_operation (L := no_limits) u op.
Proof.
  intros Hc. destruct op as [|m source|event| |excerpt|checkpoint items|keep|ids first source]; simpl.
  - destruct Hc as [?| ->]; [by left|by right].
  - destruct (record_user_message_told m source c) as [Hk He]. destruct Hc as [?| <-]; [left; auto|done].
  - destruct (record_told event c) as [Hk He]. destruct Hc as [?| <-]; [left; auto|].
    destruct He as [?|He]; [by left|right]. by rewrite He.
  - left. unfold told. simpl. apply orb_true_r.
  - unfold recover_user_message_excerpts. destruct Hc as [Ht| <-]; [|apply bound_messages_told].
    left. by apply bound_messages_keeps_told.
  - unfold restore. set (c3 := foldl _ (foldl restore_message _ _) _).
    destruct (bound_answers_told c3) as [Ht|He]; [left; by apply bound_messages_keeps_told|].
    rewrite He. apply bound_messages_told.
  - destruct Hc as [?| ->]; [by left|by right].
  - destruct Hc as [Ht| ->]; [|by right]. left. unfold rollback. destruct (rollback_boundary _ _ _); [done|].
    unfold told in *. simpl. apply orb_true_iff in Ht as [->| ->]; [done|]. simpl. by rewrite orb_true_r.
Qed.

Lemma run_from_told ops c u : told c = true ∨ c = u →
  told (foldl apply_operation c ops) = true ∨ foldl apply_operation c ops = foldl (apply_operation (L := no_limits)) u ops.
Proof. revert c u. induction ops as [|op ops IH]; intros c u Hc; [done|]. by apply IH, apply_operation_told. Qed.
End exact.

(** ** What unbounded evidence keeps *)

Section unbounded.
Context `{Opaque, J : JsonSizes}.
Implicit Types (c : RetainedContext).
Local Existing Instance no_limits.

(** Operations that take nothing back: all but restoring, rolling back and dropping answers,
    recovering texts, and recording a message of the same source. *)
Definition keeps (m : RetainedUserMessage) (op : operation) : Prop :=
  match op with
  | OpReserve | OpEvent _ | OpMarkIncomplete => True
  | OpUserMessage m' _ => message_id (bound_message m') = None ∨ message_id (bound_message m') ≠ message_id (bound_message m)
  | OpRecover _ | OpRestore _ _ | OpRetainAnswers _ | OpRollback _ _ _ => False
  end.

Definition holds (m : RetainedUserMessage) c : Prop := ∃ e, e ∈ user_messages c ∧ value e = bound_message m.

Lemma unbounded_family {T} (es : list (Ordered T)) incomplete e : e ∈ es → e ∈ (bound_family (λ _, false) es incomplete).1.
Proof. intros He. unfold bound_family. rewrite evict_id by done. simpl. by rewrite sort_by_perm. Qed.

Lemma bound_messages_elem c e : e ∈ user_messages c → e ∈ user_messages (bound_messages c).
Proof.
  intros He. unfold bound_messages. pose proof (unbounded_family _ (user_messages_incomplete c) _ He).
  unfold over_messages, no_limits. by destruct (bound_family _ _ _).
Qed.

Lemma delete_other {A} (P : A → Prop) `{∀ x, Decision (P x)} l i x y : list_find P l = Some (i, x) → y ∈ l → ¬ P y → y ∈ delete i l.
Proof.
  intros (Hi & HP & _)%list_find_Some Hy Hn. apply list_elem_of_lookup in Hy as [j Hj].
  rewrite delete_take_drop, elem_of_app. destruct (decide (j < i)).
  - left. apply list_elem_of_lookup. exists j. by rewrite lookup_take_lt.
  - right. assert (j ≠ i) by naive_solver. apply list_elem_of_lookup. exists (j - S i). rewrite lookup_drop. by replace (S i + (j - S i)) with j by lia.
Qed.

Lemma record_user_message_holds m source c : holds m (record_user_message m source c).
Proof.
  unfold record_user_message. set (i := bool_decide (source = Inherited)). set (c1 := set_answers _ (_ || i) c).
  destruct (list_find _ _) as [[j e]|] eqn:Hf; cbv zeta.
  - destruct (bool_decide (value e = _) && _) eqn:Hs.
    + apply andb_true_iff in Hs as [Hv%bool_decide_eq_true _]. exists e. split; [|done].
      apply list_find_Some in Hf as (Hj & _). by eapply list_elem_of_lookup_2.
    + destruct (if i then _ else _) as [c3 o]. eexists (mkOrdered i o (bound_message m)). split; [|done].
      apply bound_messages_elem. simpl. apply elem_of_app. right. left.
  - destruct (if i then _ else _) as [c3 o]. eexists (mkOrdered i o (bound_message m)). split; [|done].
    apply bound_messages_elem. simpl. apply elem_of_app. right. left.
Qed.

Lemma record_other_holds m m' source c : keeps m (OpUserMessage m' source) → holds m c → holds m (record_user_message m' source c).
Proof.
  intros Hk (e & He & Hv). simpl in Hk.
  assert (same_message (bound_message m') e = false) as Hd.
  { unfold same_message. rewrite Hv. destruct Hk as [->|Hk]; [by rewrite bool_decide_false by naive_solver|].
    rewrite (bool_decide_false (message_id (bound_message m) = _)) by congruence. apply andb_false_r. }
  exists e. split; [|done]. unfold record_user_message. set (i := bool_decide (source = Inherited)). set (c1 := set_answers _ (_ || i) c).
  assert (e ∈ user_messages c1) as He1 by done. destruct (list_find _ _) as [[j x]|] eqn:Hf; cbv zeta.
  - destruct (bool_decide (value x = _) && _); [done|].
    set (c2 := set_messages _ _ c1). assert (e ∈ user_messages c2) as He2.
    { simpl. eapply delete_other; [exact Hf|done|]. cbv beta. congruence. }
    destruct (if i then _ else _) as [c3 o] eqn:H3. assert (user_messages c3 = user_messages c2) as Hc3 by (destruct i; injection H3 as <- _; done).
    apply bound_messages_elem. simpl. rewrite elem_of_app, Hc3. by left.
  - destruct (if i then _ else _) as [c3 o] eqn:H3. assert (user_messages c3 = user_messages c1) as Hc3 by (destruct i; injection H3 as <- _; done).
    apply bound_messages_elem. simpl. rewrite elem_of_app, Hc3. by left.
Qed.

Lemma record_messages event c : user_messages (record event c).1 = user_messages c.
Proof.
  unfold record. destruct event as [a accepted]. simpl. set (found := list_find _ _).
  destruct (match found with Some _ => _ | None => _ end); [done|]. simpl.
  unfold bound_answers. destruct (bound_family _ _ _). by destruct found as [[]|].
Qed.

Lemma keeps_holds m op c : keeps m op → holds m c → holds m (apply_operation c op).
Proof.
  destruct op as [|m' source|event| | | | |]; try done; simpl; intros Hk Hh.
  - by apply record_other_holds.
  - destruct Hh as (e & He & Hv). exists e. by rewrite record_messages.
Qed.

Lemma run_holds m ops c : Forall (keeps m) ops → holds m c → holds m (foldl apply_operation c ops).
Proof. intros Hops. revert c. induction Hops as [|op ops Hop _ IH]; intros c Hc; [done|]. by apply IH, keeps_holds. Qed.
End unbounded.

(** ** Checkpoints *)

Section checkpoints.
Context `{Opaque, J : JsonSizes} {L : Limits}.
Implicit Types (c : RetainedContext).

Lemma advance_id order c : (sat_add order 1 ≤ next_order c)%N → advance order c = c.
Proof. intros Ho. unfold advance. rewrite N.max_l by done. by destruct c. Qed.

Lemma restore_answers_id c es pre : Forall (answer_ok (next_order c)) es →
  foldl restore_answer (set_answers pre (verified_answers_incomplete c) c) es =
  set_answers (pre ++ es) (verified_answers_incomplete c) c.
Proof.
  intros Hes. revert pre. induction Hes as [|e es [Hb Ho] _ IH]; intros pre; simpl; [by rewrite app_nil_r|].
  unfold restore_answer at 2. rewrite advance_id by done. simpl. rewrite Hb.
  assert (set_value e (value e) = e) as -> by by destruct e.
  rewrite (cons_middle e pre es), app_assoc. apply IH.
Qed.

Lemma restore_messages_id c es pre : Forall (message_ok (next_order c) (verified_answers_incomplete c)) es →
  foldl restore_message (set_messages pre (user_messages_incomplete c) c) es =
  set_messages (pre ++ es) (user_messages_incomplete c) c.
Proof.
  intros Hes. revert pre. induction Hes as [|e es [Hb Ho] _ IH]; intros pre; simpl; [by rewrite app_nil_r|].
  assert (restore_message (set_messages pre (user_messages_incomplete c) c) e =
    set_messages (pre ++ [e]) (user_messages_incomplete c) c) as ->; [|rewrite IH; by rewrite <- app_assoc].
  unfold restore_message. simpl. rewrite Hb. assert (set_value e (value e) = e) as -> by by destruct e.
  destruct (inherited e).
  - rewrite Ho. simpl. unfold set_answers, set_messages. simpl. by rewrite Ho.
  - rewrite orb_false_r. by rewrite advance_id.
Qed.

Lemma foldl_advance_fields orders c :
  let c' := foldl (λ c order, advance order c) c orders in
  verified_answers c' = verified_answers c ∧ user_messages c' = user_messages c.
Proof. revert c. induction orders as [|o orders IH]; intros c; [done|]. simpl. apply (IH (advance o c)). Qed.

Lemma restore_kept_context {LL : LimitLaws L} c items : well_kept c →
  restore (Some c) items = foldl (λ c order, advance order c) c (omap local_input_order items).
Proof.
  intros Hc. pose proof Hc as [[Ha Hm] Hsa Hsm Hla Hlm]. unfold restore.
  change (default (mark_user_messages_incomplete empty_context) (Some c)) with c. cbv zeta.
  assert (foldl restore_answer (set_answers [] (verified_answers_incomplete c) c) (verified_answers c) = c) as ->.
  { rewrite restore_answers_id by done. by destruct c. }
  assert (foldl restore_message (set_messages [] (user_messages_incomplete c) c) (user_messages c) = c) as ->.
  { rewrite restore_messages_id by done. by destruct c. }
  destruct (foldl_advance_fields (omap local_input_order items) c) as [Hfa Hfm].
  set (c' := foldl _ c _) in *. clearbody c'.
  assert (bound_answers c' = c') as ->.
  { unfold bound_answers. rewrite Hfa, bound_family_id by done. rewrite <- Hfa. by destruct c'. }
  unfold bound_messages. rewrite Hfm, bound_family_id by done. rewrite <- Hfm. by destruct c'.
Qed.
End checkpoints.

(** ** Reconciling *)

Lemma find_source_Some m matched index es i : find_source m matched index es = Some i →
  ∃ e, e ∈ es ∧ matches_source m e = true.
Proof.
  revert index. induction es as [|e es IH]; intros index; simpl; [done|]. destruct (matches_source m e) eqn:Hm; simpl.
  - destruct (negb _); [exists e; split; [left|done]|]. intros (x & ? & ?)%IH. exists x. split; [by right|done].
  - intros (x & ? & ?)%IH. exists x. split; [by right|done].
Qed.

Lemma reconcile_loop_spec es matched used live :
  let r := reconcile_loop es matched used live in
  NoDup (map fst r.1) ∧ (∀ k, k ∈ map fst r.1 → k ∉ used) ∧
  (r.2 = false → ∀ order m, (order, m) ∈ live →
     (∃ e, e ∈ es ∧ matches_source m e = true) ∨ ∃ o, order = Some o ∧ (KeyLocal o, m) ∈ r.1).
Proof.
  revert matched used. induction live as [|[order m] live IH]; intros matched used; simpl.
  { split_and!; [constructor|by intros k ?%elem_of_nil|by intros _ o m ?%elem_of_nil]. }
  destruct (find_source m matched 0 es) as [i|] eqn:Hf.
  { destruct (IH (i :: matched) used) as (Hn & Hu & Hl). split_and!; [done..|]. intros Hr o m' [[= -> ->]|Hin]%elem_of_cons; [|auto].
    left. by eapply find_source_Some. }
  destruct order as [o|]; simpl; [|destruct (IH matched used) as (Hn & Hu & _); by split_and!].
  case_bool_decide as Hin; [destruct (IH matched used) as (Hn & Hu & _); by split_and!|].
  destruct (IH matched (KeyLocal o :: used)) as (Hn & Hu & Hl). destruct (reconcile_loop _ _ _ _) as [rest missing]. simpl in *.
  split_and!.
  - constructor; [|done]. intros Hx%Hu. apply Hx. left.
  - intros k [->|Hk]%elem_of_cons; [done|]. intros Hx. apply (Hu k Hk). by right.
  - intros Hr o' m' [[= -> ->]|Hm]%elem_of_cons.
    + right. exists o. split; [done|]. left.
    + destruct (Hl Hr o' m' Hm) as [?|(k & -> & Hk)]; [by left|right]. exists k. split; [done|]. by right.
Qed.

(** * The properties *)

Section properties.
Context `{Opaque, J : JsonSizes}.
Local Existing Instance storage_limits.

(** Whatever is recorded, restored and rolled back, the evidence stays within its limits:
    at most eight records and 64 KiB in each family, in the order of acceptance with the
    inherited prefix first, every record cut to its own limit, no local order ahead of the
    counter, and an adopted prefix is always told to the answers. *)
Theorem retained_evidence_within {JL : JsonSizeLaws J} ops :
  let c := run_operations ops in
  length (user_messages c) ≤ MAX_FAMILY_RECORDS ∧ length (verified_answers c) ≤ MAX_FAMILY_RECORDS ∧
  (∃ n, messages_size (user_messages c) = Some n ∧ (n ≤ MAX_FAMILY_BYTES)%N) ∧
  (∃ n, answers_size (verified_answers c) = Some n ∧ (n ≤ MAX_FAMILY_BYTES)%N) ∧
  sorted_by key (user_messages c) ∧ sorted_by key (verified_answers c) ∧
  (∀ e, e ∈ user_messages c → bound_message (value e) = value e ∧
     if inherited e then verified_answers_incomplete c = true else (sat_add (order e) 1 ≤ next_order c)%N) ∧
  (∀ e, e ∈ verified_answers c → bound_answer (value e) = value e ∧ (sat_add (order e) 1 ≤ next_order c)%N).
Proof.
  intros c. assert (well_kept c) as [[Ha Hm] Hsa Hsm Hla Hlm].
  { unfold c, run_operations. apply foldl_kept; [intros; by apply apply_operation_kept|apply well_kept_empty]. }
  simpl in Hla, Hlm. apply orb_false_iff in Hla as [Hla%Nat.ltb_ge Hba], Hlm as [Hlm%Nat.ltb_ge Hbm].
  rewrite Forall_forall in Ha. rewrite Forall_forall in Hm. unfold exceeds in *. split_and!; try done.
  - destruct (messages_size _) as [n|]; [|done]. exists n. split; [done|]. by apply N.ltb_ge.
  - destruct (answers_size _) as [n|]; [|done]. exists n. split; [done|]. by apply N.ltb_ge.
Qed.

(** C17.  Evidence that is said to be complete is all there is: it is then exactly what an
    unbounded record of the same operations would be, and an instruction recorded in them,
    with nothing taken back since, is in it word for word. *)
Theorem retained_evidence_exact ops :
  let c := run_operations ops in
  (user_messages_incomplete c = false → verified_answers_incomplete c = false →
   c = run_operations (L := no_limits) ops) ∧
  (user_messages_complete c = true → verified_answers_complete c = true →
   ∀ before m source later, ops = before ++ OpUserMessage m source :: later → Forall (keeps m) later →
     ∃ e, e ∈ user_messages c ∧ value e = m).
Proof.
  intros c. assert (user_messages_incomplete c = false → verified_answers_incomplete c = false →
    c = run_operations (L := no_limits) ops) as He.
  { intros Hm Ha. destruct (run_from_told ops empty_context empty_context) as [Ht|]; [by right| |done].
    unfold told in Ht. unfold c, run_operations in *. rewrite Hm, Ha in Ht. done. }
  split; [done|]. intros [Hm Hall]%andb_true_iff [Ha _]%andb_true_iff before m source later -> Hk.
  apply negb_true_iff in Hm, Ha. specialize (He Hm Ha).
  assert (holds m c) as (e & Hin & Hv).
  { rewrite He. unfold run_operations. rewrite foldl_app. simpl. apply run_holds; [done|]. apply record_user_message_holds. }
  exists e. split; [done|]. rewrite Hv. apply bound_message_complete. rewrite <- Hv.
  rewrite forallb_forall in Hall. apply Hall. by apply list_elem_of_In.
Qed.

(** A checkpoint taken at any time restores to the evidence it was taken from; only the
    counter moves, past the orders of the surviving items. *)
Theorem retained_checkpoint_round_trip {JL : JsonSizeLaws J} ops items :
  let c := run_operations ops in
  restore (Some c) items = foldl (λ c order, advance order c) c (omap local_input_order items) ∧
  restore (Some c) [] = c.
Proof.
  intros c. assert (well_kept c) as Hc.
  { unfold c, run_operations. apply foldl_kept; [intros; by apply apply_operation_kept|apply well_kept_empty]. }
  by rewrite !restore_kept_context.
Qed.

(** Completing the evidence loses none of it and never hides a gap: every retained entry
    stays, recovered messages have orders of their own, what was missing stays missing, and
    where nothing is, every live message is a retained one or is recovered at its own order
    (or the retained instructions were complete). *)
Theorem reconciled_evidence retained live :
  let r := reconcile retained live in
  (∀ c k e, retained = Some c → (k, e) ∈ entries_of c → (k, e) ∈ reconciled_entries r) ∧
  sorted_by fst (reconciled_entries r) ∧
  NoDup (map fst (recovered r)) ∧
  (∀ c k e, retained = Some c → (k, e) ∈ entries_of c → k ∉ map fst (recovered r)) ∧
  (missing_user_messages r = false → ∃ c, retained = Some c ∧ user_messages_incomplete c = false ∧
     (user_messages_complete c = true ∨
      ∀ order m, (order, m) ∈ live →
        (∃ k e, (k, e) ∈ reconciled_entries r ∧ matches_source m e = true) ∨
        ∃ o, order = Some o ∧ (KeyLocal o, EntryUserMessage m) ∈ reconciled_entries r)).
Proof.
  intros r. assert (retained_context r = retained) as Hret.
  { unfold r, reconcile. destruct (negb _); [|done]. by destruct (reconcile_loop _ _ _ _). }
  assert (∀ c k e, retained = Some c → (k, e) ∈ entries_of c → (k, e) ∈ reconciled_entries r) as Hkept.
  { intros c k e -> Hin. unfold reconciled_entries. rewrite Hret, sort_by_perm, elem_of_app. left. simpl.
    unfold ordered_entries. by rewrite sort_by_perm. }
  split; [done|]. split; [apply sort_by_sorted|]. unfold r, reconcile in *. clear r.
  set (entries := default [] (ordered_entries <$> retained)) in *.
  pose proof (reconcile_loop_spec (map snd entries) [] (map fst entries) live) as (Hn & Hu & Hl).
  destruct (reconcile_loop _ _ _ _) as [rec lost]. simpl in Hn, Hu, Hl.
  destruct (negb (from_option user_messages_complete false retained)) eqn:Hc; cbn [recovered missing_user_messages] in *.
  - split_and!; [done| |].
    + intros c k e -> Hin Hk. apply (Hu k Hk). apply elem_of_map. exists (k, e). split; [done|].
      unfold entries. simpl. unfold ordered_entries. by rewrite sort_by_perm.
    + intros [Hm Hlost]%orb_false_iff. destruct retained as [c|]; [|done]. exists c. split_and!; [done..|].
      right. intros order m Hin. destruct (Hl Hlost order m Hin) as [(e & He & Hs)|(o & -> & Ho)].
      * left. apply elem_of_map in He as ([k e'] & -> & He). exists k, e'. split; [|done].
        unfold entries in He. simpl in He. unfold ordered_entries in He. rewrite sort_by_perm in He. by apply (Hkept c).
      * right. exists o. split; [done|]. unfold reconciled_entries. simpl. rewrite sort_by_perm, elem_of_app. right.
        apply elem_of_map. by exists (KeyLocal o, m).
  - split_and!; [constructor|by intros c k e _ _ ?%elem_of_nil|]. intros Hm. destruct retained as [c|]; [|done].
    exists c. split_and!; [done..|]. left. by apply negb_false_iff in Hc.
Qed.
End properties.

(** * A thread in memory *)

Module RetainedMem.

#[export] Instance mem_opaque : Opaque := {| JsonValue := unit; JsonNumber := unit; ExecutedToolCall := unit |}.

Definition text_size (s : str) : N := N.of_nat (str_len s).
Definition sum_sizes {T} (f : T → N) (es : list (Ordered T)) : N := foldr (λ e n, f (value e) + n)%N 2%N es.

Definition mem_message_size (m : RetainedUserMessage) : N := (64 + text_size (message_text m))%N.
Definition mem_answer_size (a : VerifiedAnswer) : N := foldr (λ q n, text_size (question q) + text_size (answer q) + n)%N 64%N (questions a).

#[export] Instance mem_sizes : JsonSizes := {|
  message_size m := Some (mem_message_size m);
  answer_size a := Some (mem_answer_size a);
  messages_size es := Some (sum_sizes mem_message_size es);
  answers_size es := Some (sum_sizes mem_answer_size es);
|}.

Lemma sum_sizes_sublist {T} (f : T → N) es es' : es `sublist_of` es' → (sum_sizes f es ≤ sum_sizes f es')%N.
Proof. unfold sum_sizes. induction 1; simpl; lia. Qed.

#[export] Instance mem_sizes_laws : JsonSizeLaws mem_sizes.
Proof.
  split; simpl; [done|done| |].
  - intros es es' n Hs [= <-]. eexists. split; [done|]. by apply sum_sizes_sublist.
  - intros es es' n Hs [= <-]. eexists. split; [done|]. by apply sum_sizes_sublist.
Qed.

Definition instruction (id text : str) : RetainedUserMessage := mkMessage (lit "t1") (Some id) text true.
Definition approved : VerifiedAnswer := mkAnswer (lit "t1") (lit "c1") [mkQuestion (lit "Push?") (lit "No")].

(** A queued instruction is recorded after an answer accepted later. *)
Definition session : list operation :=
  [OpUserMessage (instruction (lit "m1") (lit "fix the tests")) (Local None); OpReserve;
   OpEvent (EventVerifiedAnswer approved None);
   OpUserMessage (instruction (lit "m2") (lit "do not push")) (Local (Some 1%N))].

Example session_order : map snd (ordered_entries (run_operations (L := storage_limits) session)) =
  [EntryUserMessage (instruction (lit "m1") (lit "fix the tests")); EntryUserMessage (instruction (lit "m2") (lit "do not push"));
   EntryVerifiedAnswer approved].
Proof. vm_compute. reflexivity. Qed.

Lemma retained_evidence_within_witness :
  length (user_messages (run_operations (L := storage_limits) session)) = 2 ∧ 2 ≤ MAX_FAMILY_RECORDS.
Proof.
  destruct (retained_evidence_within session) as (H & _). split; [vm_compute; reflexivity|].
  assert (length (user_messages (run_operations (L := storage_limits) session)) = 2) as <- by (vm_compute; reflexivity). exact H.
Defined.

Lemma retained_evidence_exact_witness :
  ∃ e, e ∈ user_messages (run_operations (L := storage_limits) session) ∧ value e = instruction (lit "m1") (lit "fix the tests").
Proof.
  destruct (retained_evidence_exact session) as [_ H].
  apply (H ltac:(vm_compute; reflexivity) ltac:(vm_compute; reflexivity) [] _ (Local None) (tail session)); [reflexivity|].
  apply Forall_cons; split; [exact I|]. apply Forall_cons; split; [exact I|].
  apply Forall_cons; split; [right; vm_compute; discriminate|constructor].
Defined.

Lemma retained_checkpoint_round_trip_witness :
  restore (L := storage_limits) (Some (run_operations (L := storage_limits) session)) [] = run_operations (L := storage_limits) session.
Proof. apply (retained_checkpoint_round_trip session []). Defined.

(** Nine instructions are one too many: the first is lost, and that is told. *)
Definition crowded : list operation :=
  map (λ n, OpUserMessage (instruction [n] (lit "x")) (Local None)) [1; 2; 3; 4; 5; 6; 7; 8; 9]%N.
Example crowded_told :
  let c := run_operations (L := storage_limits) crowded in
  map (message_id ∘ value) (user_messages c) = map Some [[2]; [3]; [4]; [5]; [6]; [7]; [8]; [9]]%N ∧ user_messages_complete c = false.
Proof. vm_compute. done. Qed.
End RetainedMem.
