(* ===== verification/ContextFragments.v ===== *)
(** * ContextFragments: texts the host injects, and where turns begin
    ([context-fragments/src/fragment.rs], [core/src/context/contextual_user_message.rs],
    [core/src/event_mapping.rs])

    Injected fragments are recognized by their markers; what is not injected is the user's.
    The XML reader of hook prompts and the JSON reader of messages between agents are
    interfaces. *)
From S2P Require Import Prelude RustInt RustStr TextTruncate ResponseItems.

(** [from_xml_str::<HookPromptXml>], its text and run id, and whether a text reads as an
    [InterAgentCommunication]. *)
Class FragmentReaders := {
  hook_prompt_xml : str → option (str * str);
  reads_as_communication : str → bool;
}.

(** ** Markers ([fragment.rs]) *)

(** [s.get(..p.len()).is_some_and(|c| c.eq_ignore_ascii_case(p))] for an ASCII [p], and the
    same at the end. *)
Definition starts_with_ignore_case (p s : str) : bool := eq_ignore_ascii_case (take (length p) s) p.
Definition ends_with_ignore_case (p s : str) : bool := eq_ignore_ascii_case (drop (length s - length p) s) p.

Definition matches_marked_text (start_marker end_marker text : str) : bool :=
  if bool_decide (start_marker = []) || bool_decide (end_marker = []) then false
  else
    let trimmed := trim_start text in
    let starts_with_marker := starts_with_ignore_case start_marker trimmed in
    let trimmed := trim_end trimmed in
    let ends_with_marker := ends_with_ignore_case end_marker trimmed in
    starts_with_marker && ends_with_marker.

(** ** Internal context ([internal_model_context.rs]) *)

Definition c_quote : char := 34%N.
Definition c_underscore : char := 95%N.
Definition CONTEXT_START_MARKER : str := lit "<codex_internal_context".
Definition CONTEXT_END_MARKER : str := lit "</codex_internal_context>".
Definition LEGACY_GOAL_CONTEXT_START_MARKER : str := lit "<goal_context>".
Definition LEGACY_GOAL_CONTEXT_END_MARKER : str := lit "</goal_context>".
Definition SOURCE_ATTR_START : str := lit " source=" ++ [c_quote].
Definition SOURCE_ATTR_END : str := [c_quote] ++ lit ">".

Definition is_ascii_lowercase (c : char) : bool := (97 <=? c)%N && (c <=? 122)%N.
Definition is_valid_source (source : str) : bool :=
  match source with
  | [] => false
  | first :: chars =>
      is_ascii_lowercase first
      && forallb (λ ch, is_ascii_lowercase ch || is_ascii_digit ch || is_char c_underscore ch) chars
  end.
Definition matches_legacy_goal_context (text : str) : bool :=
  starts_with LEGACY_GOAL_CONTEXT_START_MARKER text && ends_with LEGACY_GOAL_CONTEXT_END_MARKER text.

(** [split_once] with a text: at its first occurrence. *)
Fixpoint split_once_str (p s : str) : option (str * str) :=
  match strip_prefix p s with
  | Some rest => Some ([], rest)
  | None => match s with [] => None | c :: s => '(before, after) ← split_once_str p s; Some (c :: before, after) end
  end.

Definition internal_context_matches (text : str) : bool :=
  let trimmed := trim text in
  if matches_legacy_goal_context trimmed then true
  else
    match (rest ← strip_prefix CONTEXT_START_MARKER trimmed;
           rest ← strip_prefix SOURCE_ATTR_START rest;
           split_once_str SOURCE_ATTR_END rest) with
    | None => false
    | Some (source, body_and_close) => is_valid_source source && ends_with CONTEXT_END_MARKER body_and_close
    end.

(** ** Additional context ([additional_context.rs]) *)

Definition ADDITIONAL_CONTEXT_START_MARKER_PREFIX : str := lit "<external_".
(** [ADDITIONAL_CONTEXT_END_MARKER_SUFFIX], a single char. *)
Definition c_greater : char := 62%N.

Definition MAX_ADDITIONAL_CONTEXT_VALUE_TOKENS : N := 1000.

(** The value is cut in the middle; [render] puts the body between the two markers. *)
Definition additional_context_body (k value : str) : option str :=
  value ← fst <$> truncate_middle_with_token_budget value MAX_ADDITIONAL_CONTEXT_VALUE_TOKENS;
  Some (k ++ [c_greater] ++ value ++ lit "</external_" ++ k).
Definition render_additional_context (k value : str) : option str :=
  body ← additional_context_body k value;
  Some (ADDITIONAL_CONTEXT_START_MARKER_PREFIX ++ body ++ [c_greater]).

Definition additional_context_matches (text : str) : bool :=
  match (rest ← strip_prefix ADDITIONAL_CONTEXT_START_MARKER_PREFIX (trim text); split_once c_greater rest) with
  | None => false
  | Some (k, value_and_close) => ends_with (lit "</external_" ++ k ++ [c_greater]) value_and_close
  end.

(** ** Contextual messages of the user ([contextual_user_message.rs]) *)

(** The matchers of warnings of earlier versions. *)
Definition legacy_unified_exec_warning (text : str) : bool :=
  starts_with (lit "Warning: The maximum number of unified exec processes you can keep open is") (trim text).
Definition legacy_apply_patch_warning (text : str) : bool :=
  let trimmed := trim text in
  starts_with (lit "Warning: apply_patch was requested via ") trimmed
  && ends_with (lit "Use the apply_patch tool instead of exec_command.") trimmed.
Definition legacy_model_mismatch_warning (text : str) : bool :=
  starts_with (lit "Warning: Your account was flagged for potentially high-risk cyber activity") (trim text).

Definition CONTEXTUAL_USER_FRAGMENT_MATCHERS : list (str → bool) :=
  [matches_marked_text (lit "# AGENTS.md instructions") (lit "</INSTRUCTIONS>");
   matches_marked_text (lit "<environment_context>") (lit "</environment_context>");
   additional_context_matches;
   matches_marked_text (lit "<skill>") (lit "</skill>");
   matches_marked_text (lit "<user_shell_command>") (lit "</user_shell_command>");
   matches_marked_text (lit "<turn_aborted>") (lit "</turn_aborted>");
   matches_marked_text (lit "<subagent_notification>") (lit "</subagent_notification>");
   internal_context_matches;
   matches_marked_text (lit "<recommended_plugins>") (lit "</recommended_plugins>");
   legacy_unified_exec_warning; legacy_apply_patch_warning; legacy_model_mismatch_warning].

Definition is_standard_contextual_user_text (text : str) : bool :=
  existsb (λ matches_text, matches_text text) CONTEXTUAL_USER_FRAGMENT_MATCHERS.

Section fragments.
Context `{Opaque, FragmentReaders}.

Definition parse_hook_prompt_fragment (text : str) : option (str * str) :=
  '(text, hook_run_id) ← hook_prompt_xml (trim text);
  if bool_decide (trim hook_run_id = []) then None else Some (text, hook_run_id).

Definition is_contextual_user_fragment (c : ContentItem) : bool :=
  match c with
  | InputText text => bool_decide (is_Some (parse_hook_prompt_fragment text)) || is_standard_contextual_user_text text
  | _ => false
  end.

(** The fragments of a message that is only a hook prompt and context. *)
Fixpoint hook_fragments (content : list ContentItem) : option (list (str * str)) :=
  match content with
  | [] => Some []
  | InputText text :: content =>
      match parse_hook_prompt_fragment text with
      | Some fragment => (λ l, fragment :: l) <$> hook_fragments content
      | None => if is_standard_contextual_user_text text then hook_fragments content else None
      end
  | _ :: _ => None
  end.
Definition parse_visible_hook_prompt_message (content : list ContentItem) : option (list (str * str)) :=
  match hook_fragments content with Some [] | None => None | Some fragments => Some fragments end.

(** Whether a message may change what the user authorized, by its annotations. *)
Definition authorizing_kind (kind : str) : bool :=
  starts_with (lit "user.") kind
  || existsb (λ k, bool_decide (kind = k))
       [[]; lit "unknown"; lit "images.preparation_error"; lit "images.unsupported"; lit "audio.unsupported"].
Definition is_user_authorization_message (i : ResponseItem) : bool :=
  match i with
  | Message _ role content _ meta =>
      bool_decide (role = lit "user")
      && match meta ≫= content_item_kinds with
         | None => true
         | Some kinds =>
             bool_decide (kinds = []) || negb (length kinds =? length content) || existsb authorizing_kind kinds
         end
  | _ => false
  end.

(** ** Contextual messages of the developer ([event_mapping.rs]) *)

Definition CONTEXTUAL_DEVELOPER_PREFIXES : list str :=
  [lit "<permissions instructions>"; lit "Approved command prefix saved:"; lit "<model_switch>";
   lit "<managed_developer_instructions>"; lit "<persistent_mode>"; lit "<apps_instructions>";
   lit "<collaboration_mode>"; lit "<multi_agent_role>"; lit "<multi_agent_mode>"; lit "<environments_instructions>";
   lit "<git_attribution>"; lit "<plugins_instructions>"; lit "<realtime_conversation>"; lit "<skills_instructions>";
   lit "<tools>"; lit "<personality_spec>"; lit "<token_budget>"; lit "<context_window>";
   lit "<context_window_guidance>"; lit "<rollout_budget>"].

Definition is_contextual_dev_fragment (c : ContentItem) : bool :=
  match c with
  | InputText text =>
      let trimmed := trim_start text in
      existsb (λ prefix, starts_with_ignore_case prefix trimmed) CONTEXTUAL_DEVELOPER_PREFIXES
  | _ => false
  end.

Definition is_contextual_user_message_content (message : list ContentItem) : bool :=
  existsb is_contextual_user_fragment message.
Definition is_contextual_dev_message_content (message : list ContentItem) : bool :=
  existsb is_contextual_dev_fragment message.
Definition has_non_contextual_dev_message_content (message : list ContentItem) : bool :=
  existsb (λ c, negb (is_contextual_dev_fragment c)) message.

(** ** The text of a user's turn *)

Definition is_open_tag (tag name_prefix text : str) : bool :=
  bool_decide (text = tag)
  || match strip_prefix name_prefix text with Some rest => ends_with (lit ">") rest | None => false end.

Definition is_image (c : option ContentItem) : bool := match c with Some (InputImage _ _) => true | _ => false end.
Definition is_audio (c : option ContentItem) : bool := match c with Some (InputAudio _) => true | _ => false end.

(** The labels around an image or audio, which are not the user's text. *)
Definition is_media_label (previous next : option ContentItem) (text : str) : bool :=
  is_open_tag (lit "<image>") (lit "<image name=") text && is_image next
  || bool_decide (text = lit "</image>") && is_image previous
  || is_open_tag (lit "<audio>") (lit "<audio name=") text && is_audio next
  || bool_decide (text = lit "</audio>") && is_audio previous.

Fixpoint user_texts (previous : option ContentItem) (message : list ContentItem) : list str :=
  match message with
  | [] => []
  | c :: message =>
      match c with
      | InputText text => if is_media_label previous (head message) text then [] else [text]
      | _ => []
      end ++ user_texts (Some c) message
  end.

(** [parse_user_message], and the [message] of what it gives. *)
Definition parse_user_message (message : list ContentItem) : option str :=
  if is_contextual_user_message_content message then None else Some (concat (user_texts None message)).

(** [parse_turn_item] where it gives a user message, with its text. *)
Definition user_turn_message (i : ResponseItem) : option str :=
  match i with
  | Message _ role content _ _ =>
      if bool_decide (role = lit "user") then
        match parse_visible_hook_prompt_message content with Some _ => None | None => parse_user_message content end
      else None
  | _ => None
  end.

(** ** Where turns begin ([history.rs]) *)

(** [InterAgentCommunication::is_message_content]. *)
Definition is_inter_agent_instruction_content (content : list ContentItem) : bool :=
  match content with [InputText text] | [OutputText text] => reads_as_communication text | _ => false end.

Definition is_user_turn_boundary (i : ResponseItem) : bool :=
  match i with
  | AgentMessage _ _ _ _ _ => true
  | Message _ role content _ _ =>
      bool_decide (role = lit "user") && negb (is_contextual_user_message_content content)
      || bool_decide (role = lit "assistant") && is_inter_agent_instruction_content content
  | _ => false
  end.

(** A user message that is context, which the review history and the snapshots leave out. *)
Definition is_contextual_user_message (i : ResponseItem) : bool :=
  match i with
  | Message _ role content _ _ => bool_decide (role = lit "user") && is_contextual_user_message_content content
  | _ => false
  end.
End fragments.

(** * Recognition *)

(** A text between non-empty markers is recognized, whatever its case and surrounding space. *)
Lemma eq_ignore_refl s : eq_ignore_ascii_case s s = true.
Proof. apply bool_decide_eq_true_2. done. Qed.

Lemma starts_with_ignore_app p s : starts_with_ignore_case p (p ++ s) = true.
Proof. unfold starts_with_ignore_case. rewrite take_app_length. apply eq_ignore_refl. Qed.

Lemma ends_with_ignore_app p s : ends_with_ignore_case p (s ++ p) = true.
Proof.
  unfold ends_with_ignore_case. rewrite length_app. replace (length s + length p - length p) with (length s) by lia.
  rewrite drop_app_length. apply eq_ignore_refl.
Qed.

(** [render] and [matches_text] of a marked fragment fit together. *)
Lemma rendered_fragment_matches start_marker end_marker body :
  start_marker ≠ [] → end_marker ≠ [] →
  trim_start (start_marker ++ body ++ end_marker) = start_marker ++ body ++ end_marker →
  trim_end (start_marker ++ body ++ end_marker) = start_marker ++ body ++ end_marker →
  matches_marked_text start_marker end_marker (start_marker ++ body ++ end_marker) = true.
Proof.
  intros Hs He Hts Hte. unfold matches_marked_text. rewrite !bool_decide_false by done. simpl.
  rewrite Hts, Hte, starts_with_ignore_app. simpl. rewrite app_assoc. apply ends_with_ignore_app.
Qed.

(** Additional context is recognized when its key has no [>], whatever its value. *)
Lemma trim_framed a s b : is_whitespace a = false → is_whitespace b = false → trim (a :: s ++ [b]) = a :: s ++ [b].
Proof.
  intros Ha Hb. unfold trim, trim_start, trim_end. cbn [drop_while]. rewrite Ha, app_comm_cons, drop_while_end_app.
  cbn [drop_while_end]. by rewrite Hb.
Qed.

Lemma additional_context_recognized k value text : c_greater ∉ k → render_additional_context k value = Some text →
  additional_context_matches text = true.
Proof.
  intros Hk Hr. unfold render_additional_context, additional_context_body in Hr.
  apply bind_Some in Hr as (body & (v & _ & Hb)%bind_Some & Ht). apply Some_inj in Hb, Ht. subst body text.
  unfold additional_context_matches. set (rest := k ++ [c_greater] ++ v ++ lit "</external_" ++ k).
  assert (trim (ADDITIONAL_CONTEXT_START_MARKER_PREFIX ++ rest ++ [c_greater]) = ADDITIONAL_CONTEXT_START_MARKER_PREFIX ++ rest ++ [c_greater]) as ->.
  { rewrite app_assoc. by apply (trim_framed 60%N (lit "external_" ++ rest) c_greater). }
  rewrite strip_prefix_app. cbn [mbind option_bind]. unfold rest.
  assert (split_once c_greater ((k ++ [c_greater] ++ v ++ lit "</external_" ++ k) ++ [c_greater]) = Some (k, v ++ lit "</external_" ++ k ++ [c_greater])) as ->.
  { apply split_once_Some. split; [|done]. by rewrite <- !app_assoc. }
  apply ends_with_spec. by exists v.
Qed.

(** A key with [>] is not recognized in its own rendering: the context opens a turn. *)
Example greater_key_unrecognized :
  render_additional_context (lit "a>b") (lit "value") = Some (lit "<external_a>b>value</external_a>b>") ∧
  additional_context_matches (lit "<external_a>b>value</external_a>b>") = false.
Proof. vm_compute. done. Qed.
