(* ===== verification/TranscriptHistory.v ===== *)
(** * TranscriptHistory: bounded evidence for reviews
    ([guardian-context/src/history.rs], [guardian-context/src/truncation.rs])

    The items a review sees, kept beside the model's window: recording one, replacing all,
    cutting at a rolled-back boundary; and the truncation of the texts reviewers get. *)
From S2P Require Import Prelude RustInt RustStr TextTruncate ResponseItems RetainedContext.

(** ** Truncation of texts ([truncation.rs]) *)

(** The end of a text that fits [n] bytes: the first char boundary at or after the cut. *)
Definition ceil_suffix (n : nat) (s : str) : str := reverse (floor_truncate n (reverse s)).

Definition omission_marker (omitted_tokens : N) : str :=
  lit "<truncated omitted_approx_tokens=" ++ [34%N] ++ fmt_N omitted_tokens ++ [34%N] ++ lit " />".

Definition truncate_review_text (text : str) (max_tokens : N) : str :=
  let max_bytes := byte_budget (Tokens max_tokens) in
  if (slen text <=? max_bytes)%N then text
  else
    let omitted_tokens := token_budget (Bytes (sat_sub (slen text) max_bytes)) in
    let marker := omission_marker omitted_tokens in
    if (max_bytes <=? slen marker)%N then marker
    else
      let available_bytes := (max_bytes - slen marker)%N in
      let prefix_bytes := (available_bytes / 2)%N in
      let suffix_bytes := (available_bytes - prefix_bytes)%N in
      floor_truncate (N.to_nat prefix_bytes) text ++ marker ++ ceil_suffix (N.to_nat suffix_bytes) text.

(** ** The history *)

Definition MAX_ITEMS_PER_KIND : nat := 128.
Definition MAX_BYTES_PER_KIND : N := 4 * 1024 * 1024.

(** What is counted: [size_of::<ResponseItem>()] and the bytes [serde_json] writes for an
    item, for the content of a reasoning item, for the other fields of a message and for one
    of its texts; [None] is an error of serialization. *)
Class ItemSizes `{Opaque} := {
  size_of_item : N;
  item_json_size : ResponseItem → option N;
  reasoning_json_size : option (list ReasoningItemContent) → option N;
  header_json_size : option ResponseItemId → str → option MessagePhase → option MessageMetadata → option N;
  content_json_size : ContentItem → option N;
}.

Section history.
Context `{Opaque} {Sizes : ItemSizes}.
Context `{ItemEq : !EqDecision ResponseItem}.

Record TranscriptHistory := mkTranscript {
  transcript : list (ResponseItem * N);
  generation : N;
}.
Implicit Types (h : TranscriptHistory) (i : ResponseItem).

(** [TranscriptHistory::new] and [items]. *)
Definition new_transcript (generation : N) : TranscriptHistory := mkTranscript [] generation.
Definition transcript_items h : list ResponseItem := map fst (transcript h).

(** Writing through [BoundedSize]: an error once the budget is passed. *)
Definition write_size (size : option N) (bytes : N) : option N :=
  n ← size; if (bytes + n <=? MAX_BYTES_PER_KIND)%N then Some (bytes + n)%N else None.

Definition measure i : option N :=
  bytes ← write_size (item_json_size i) size_of_item;
  match i with
  | Reasoning _ _ content _ _ => write_size (reasoning_json_size content) bytes
  | _ => Some bytes
  end.

Definition is_text (c : ContentItem) : bool := match c with InputText _ | OutputText _ => true | _ => false end.

(** The texts of an oversized message of the user with images, when there are any. *)
Fixpoint measure_texts (bytes : N) (texts : list ContentItem) : option N :=
  match texts with [] => Some bytes | c :: texts => bytes ← write_size (content_json_size c) bytes; measure_texts bytes texts end.
Definition text_only i : option ResponseItem :=
  match i with
  | Message id role content phase meta =>
      if bool_decide (role = lit "user") && existsb (λ c, match c with InputImage _ _ => true | _ => false end) content then
        let text := filter (λ c, is_text c = true) content in
        bytes ← write_size (header_json_size id role phase meta) size_of_item;
        _ ← measure_texts bytes text;
        if bool_decide (text = []) then None else Some (Message id role text phase meta)
      else None
  | _ => None
  end.

(** The entries of the kind of the new one are dropped from the front while they are too
    many or too large. *)
Definition same_kind (is_user : bool) (e : ResponseItem * N) : bool := Bool.eqb (is_user_message e.1) is_user.
Fixpoint trim_kind (is_user : bool) (retained_count : nat) (count : nat) (bytes : N) (es : list (ResponseItem * N)) :
    list (ResponseItem * N) :=
  match es with
  | [] => []
  | e :: es =>
      if same_kind is_user e && ((retained_count <? count) || (MAX_BYTES_PER_KIND <? bytes)%N)
      then trim_kind is_user retained_count (count - 1) (bytes - e.2)%N es
      else e :: trim_kind is_user retained_count count bytes es
  end.

Definition sum_bytes (es : list (ResponseItem * N)) : N := foldr (λ e n, (e.2 + n)%N) 0%N es.

Definition push_measured i (size : N) h : TranscriptHistory :=
  let is_user := is_user_message i in
  let same := filter (λ e, same_kind is_user e = true) (transcript h) in
  let count := length same in
  let bytes := (size + sum_bytes same)%N in
  let h :=
    if (MAX_ITEMS_PER_KIND <=? count) || (MAX_BYTES_PER_KIND <? bytes)%N then
      let retained_count := if is_user then MAX_ITEMS_PER_KIND - 1 else count / 2 in
      mkTranscript (trim_kind is_user retained_count count bytes (transcript h)) (sat_add (generation h) 1)
    else h in
  mkTranscript (transcript h ++ [(i, size)]) (generation h).

(** [record]; the text of an oversized message has no images, so it is not reduced again. *)
Definition record_item i h : TranscriptHistory :=
  match measure i with
  | Some size => push_measured i size h
  | None =>
      match text_only i with
      | Some i => match measure i with Some size => push_measured i size h | None => h end
      | None => h
      end
  end.

Definition reset (items : list ResponseItem) h : TranscriptHistory :=
  foldl (λ h i, record_item i h) (mkTranscript [] (sat_add (generation h) 1)) items.

(** The same id, or the same item. *)
Definition is_boundary (boundary : ResponseItem) (e : ResponseItem * N) : bool :=
  match item_id e.1, item_id boundary with Some id, Some id' => bool_decide (id = id') | _, _ => false end
  || bool_decide (e.1 = boundary).
Definition truncate_before (boundary : ResponseItem) h : TranscriptHistory :=
  let index := fst <$> list_find (λ e, is_boundary boundary e = true) (transcript h) in
  mkTranscript (take (default 0 index) (transcript h)) (sat_add (generation h) 1).
End history.

(** * What a review sees *)

Section facts.
Context `{Opaque} {Sizes : ItemSizes}.
Context `{ItemEq : !EqDecision ResponseItem}.
Implicit Types (h : TranscriptHistory) (i : ResponseItem) (e : ResponseItem * N) (es : list (ResponseItem * N)) (k : bool).

(** The entries of one kind. *)
Definition of_kind k es : list (ResponseItem * N) := filter (λ e, same_kind k e = true) es.

Lemma of_kind_app k es es' : of_kind k (es ++ es') = of_kind k es ++ of_kind k es'.
Proof. apply filter_app. Qed.

Lemma of_kind_cons k e es : of_kind k (e :: es) = if same_kind k e then e :: of_kind k es else of_kind k es.
Proof. unfold of_kind. rewrite filter_cons. destruct (same_kind k e); [by rewrite decide_True|by rewrite decide_False]. Qed.

Lemma same_kind_negb k e : same_kind (negb k) e = negb (same_kind k e).
Proof. unfold same_kind. by destruct (is_user_message e.1), k. Qed.

Lemma sum_bytes_app es es' : sum_bytes (es ++ es') = (sum_bytes es + sum_bytes es')%N.
Proof. induction es as [|e es IH]; simpl; lia. Qed.

(** Eviction drops the oldest entries of one kind, until the rest fits. *)
Lemma trim_kind_spec k retained size es :
  let r := trim_kind k retained (length (of_kind k es)) (size + sum_bytes (of_kind k es))%N es in
  of_kind (negb k) r = of_kind (negb k) es ∧ r `sublist_of` es ∧ of_kind k r `suffix_of` of_kind k es ∧
  length (of_kind k r) ≤ retained ∧ ((size ≤ MAX_BYTES_PER_KIND)%N → (size + sum_bytes (of_kind k r) ≤ MAX_BYTES_PER_KIND)%N).
Proof.
  induction es as [|e es IH]; simpl; [split_and!; [done|done|done|lia|lia]|].
  rewrite !of_kind_cons, same_kind_negb. destruct (same_kind k e) eqn:He; simpl.
  - destruct (_ || _) eqn:Hover.
    + rewrite Nat.sub_0_r. replace (size + (e.2 + sum_bytes (of_kind k es)) - e.2)%N with (size + sum_bytes (of_kind k es))%N by lia.
      destruct IH as (Hn & Hs & Hsuf & Hl & Hb). split_and!; [done|by apply sublist_cons|by apply suffix_cons_r|done|done].
    + apply orb_false_iff in Hover as [Hc%Nat.ltb_ge Hb%N.ltb_ge].
      assert (∀ count bytes es', count ≤ retained → (bytes ≤ MAX_BYTES_PER_KIND)%N → trim_kind k retained count bytes es' = es') as Hid.
      { intros count bytes es' Hc' Hb'. induction es' as [|x es' IH']; [done|]. simpl.
        rewrite (proj2 (Nat.ltb_ge _ _) Hc'), (proj2 (N.ltb_ge _ _) Hb'), andb_false_r. by rewrite IH'. }
      rewrite Hid by done. rewrite !of_kind_cons, same_kind_negb, He. simpl. split_and!; [done|done|done|done|].
      intros _. lia.
  - destruct IH as (Hn & Hs & Hsuf & Hl & Hb). rewrite !of_kind_cons, same_kind_negb, He. simpl.
    split_and!; [by rewrite Hn|by apply sublist_skip|done|done|done].
Qed.

(** Within the limits of both kinds. *)
Definition kind_within k es : Prop :=
  length (of_kind k es) ≤ MAX_ITEMS_PER_KIND ∧ (sum_bytes (of_kind k es) ≤ MAX_BYTES_PER_KIND)%N.
Definition within_limits h : Prop := ∀ k, kind_within k (transcript h).

Lemma write_size_le size bytes n : write_size size bytes = Some n → (n ≤ MAX_BYTES_PER_KIND)%N.
Proof. unfold write_size. destruct size as [m|]; [|done]. simpl. destruct (_ <=? _)%N eqn:E; [|done]. intros [= <-]. by apply N.leb_le. Qed.

Lemma measure_le i size : measure i = Some size → (size ≤ MAX_BYTES_PER_KIND)%N.
Proof.
  unfold measure. intros (bytes & Hb & Hs)%bind_Some. apply write_size_le in Hb.
  destruct i; try (by injection Hs as <-). by apply write_size_le in Hs.
Qed.

(** What recording an item of a measured size does: only the oldest of its kind go, and then
    the generation tells. *)
Definition recorded i size h h' : Prop :=
  let k := is_user_message i in
  ∃ kept, transcript h' = kept ++ [(i, size)] ∧ kept `sublist_of` transcript h ∧
    of_kind (negb k) kept = of_kind (negb k) (transcript h) ∧
    of_kind k kept `suffix_of` of_kind k (transcript h) ∧
    (kept = transcript h ∧ generation h' = generation h ∨ generation h' = sat_add (generation h) 1).

Lemma push_measured_spec i size h : (size ≤ MAX_BYTES_PER_KIND)%N → within_limits h →
  recorded i size h (push_measured i size h) ∧ within_limits (push_measured i size h).
Proof.
  intros Hsize Hh. set (k := is_user_message i).
  assert (∀ kept, of_kind (negb k) kept = of_kind (negb k) (transcript h) → length (of_kind k kept) < MAX_ITEMS_PER_KIND →
    (size + sum_bytes (of_kind k kept) ≤ MAX_BYTES_PER_KIND)%N → ∀ k', kind_within k' (kept ++ [(i, size)])) as Hwithin.
  { intros kept Hn Hl Hb k'. assert (same_kind k (i, size) = true) as Hk by apply eqb_reflx.
    unfold kind_within. rewrite of_kind_app, of_kind_cons. destruct (decide (k' = k)) as [->|Hk'].
    - rewrite Hk, length_app, sum_bytes_app. simpl. split; lia.
    - assert (k' = negb k) as -> by by destruct k', k. rewrite same_kind_negb, Hk. simpl. rewrite app_nil_r, Hn. apply Hh. }
  unfold recorded, push_measured. fold k. fold (of_kind k (transcript h)).
  destruct ((MAX_ITEMS_PER_KIND <=? _) || _) eqn:Hover; cbn [transcript generation].
  - pose proof (trim_kind_spec k (if k then MAX_ITEMS_PER_KIND - 1 else length (of_kind k (transcript h)) / 2) size (transcript h))
      as (Hn & Hs & Hsuf & Hl & Hb). set (kept := trim_kind _ _ _ _ _) in *.
    assert ((if k then MAX_ITEMS_PER_KIND - 1 else length (of_kind k (transcript h)) / 2) < MAX_ITEMS_PER_KIND) as Hr.
    { destruct (Hh k) as [Hc _]. destruct k; [unfold MAX_ITEMS_PER_KIND; lia|].
      apply Nat.Div0.div_lt_upper_bound. unfold MAX_ITEMS_PER_KIND in *. lia. }
    split; [exists kept; split_and!; [done..|by right]|]. intros k'. apply Hwithin; [done|lia|by apply Hb].
  - apply orb_false_iff in Hover as [Hc%Nat.leb_gt Hb%N.ltb_ge].
    split; [exists (transcript h); split_and!; [done..|by left]|]. intros k'. by apply Hwithin.
Qed.

(** Recording an item: it, or the texts of it, is added, or nothing changes. *)
Lemma record_item_cases i h : within_limits h →
  record_item i h = h ∨ ∃ i' size, (i' = i ∨ text_only i = Some i') ∧ measure i' = Some size ∧
    recorded i' size h (record_item i h) ∧ within_limits (record_item i h).
Proof.
  intros Hh. unfold record_item. destruct (measure i) as [size|] eqn:Hm.
  - right. exists i, size. split; [by left|]. split; [done|]. apply push_measured_spec; [by eapply measure_le|done].
  - destruct (text_only i) as [i'|] eqn:Ht; [|by left]. destruct (measure i') as [size|] eqn:Hm'; [|by left].
    right. exists i', size. split; [by right|]. split; [done|]. apply push_measured_spec; [by eapply measure_le|done].
Qed.

Lemma text_only_user i i' : text_only i = Some i' → is_user_message i = true ∧ is_user_message i' = true.
Proof.
  destruct i; try done. simpl. destruct (_ && _) eqn:Hc; [|done]. apply andb_true_iff in Hc as [Hr _].
  intros (bytes & _ & (u & _ & Ht)%bind_Some)%bind_Some. destruct (bool_decide (filter _ _ = [])); [done|].
  injection Ht as <-. done.
Qed.

Lemma within_record i h : within_limits h → within_limits (record_item i h).
Proof. intros Hh. destruct (record_item_cases i h Hh) as [->|(? & ? & _ & _ & _ & ?)]; done. Qed.

Lemma within_empty g : within_limits (mkTranscript [] g).
Proof. intros k. split; [simpl; lia|done]. Qed.

Lemma within_prefix es h : es `prefix_of` transcript h → within_limits h → ∀ g, within_limits (mkTranscript es g).
Proof.
  intros [rest Hr] Hh g k. destruct (Hh k) as [Hl Hb]. rewrite Hr, of_kind_app, length_app, sum_bytes_app in *.
  split; simpl; lia.
Qed.

(** ** Reachable histories *)

Inductive review_step : TranscriptHistory → TranscriptHistory → Prop :=
| step_record i h : review_step h (record_item i h)
| step_reset items h : review_step h (reset items h)
| step_truncate boundary h : review_step h (truncate_before boundary h).

Lemma review_step_within h h' : review_step h h' → within_limits h → within_limits h'.
Proof.
  intros [i|items|boundary] Hh.
  - by apply within_record.
  - unfold reset. assert (∀ items h, within_limits h → within_limits (foldl (λ h i, record_item i h) h items)) as Hf.
    { clear. induction items as [|i items IH]; intros h Hh; [done|]. simpl. by apply IH, within_record. }
    apply Hf, within_empty.
  - eapply within_prefix; [apply prefix_take|exact Hh].
Qed.

(** C29.  The review history stays within 128 items and 4 MiB for the user's messages and the
    same for all else, whatever is recorded, reset and cut; and recording an item adds it
    (or the texts of an oversized message) at the end, drops only the oldest items of its
    own kind, so that tool traffic never evicts what the user said, and moves the generation
    whenever it drops any. *)
Theorem review_history_bounded g h : rtc review_step (new_transcript g) h →
  (∀ k, length (of_kind k (transcript h)) ≤ MAX_ITEMS_PER_KIND ∧ (sum_bytes (of_kind k (transcript h)) ≤ MAX_BYTES_PER_KIND)%N) ∧
  ∀ i, let h' := record_item i h in
    h' = h ∨
    ∃ i' size, (i' = i ∨ text_only i = Some i') ∧ is_user_message i' = is_user_message i ∧ recorded i' size h h'.
Proof.
  intros Hr. assert (within_limits h) as Hh.
  { assert (within_limits (new_transcript g)) as H0 by apply within_empty. revert H0.
    induction Hr as [|h1 h2 h3 Hs _ IH]; [done|]. intros H1. by eapply IH, review_step_within. }
  split; [exact Hh|]. intros i. destruct (record_item_cases i h Hh) as [?|(i' & size & Hi & _ & Hrec & _)]; [by left|].
  right. exists i', size. split; [done|]. split; [|done]. destruct Hi as [->|Ht]; [done|].
  apply text_only_user in Ht as [-> ->]. done.
Qed.

(** ** Truncated texts *)

Lemma floor_truncate_le n s : str_len (floor_truncate n s) ≤ n ∧ floor_truncate n s `prefix_of` s.
Proof.
  revert n. induction s as [|c s IH]; intros n; simpl; [split; [lia|done]|].
  destruct (n <? len_utf8 c) eqn:E; [split; [simpl; lia|apply prefix_nil]|].
  apply Nat.ltb_ge in E. destruct (IH (n - len_utf8 c)) as [Hl Hp]. simpl. split; [lia|]. by apply prefix_cons.
Qed.

Lemma str_len_app s t : str_len (s ++ t) = str_len s + str_len t.
Proof. induction s as [|c s IH]; simpl; lia. Qed.

Lemma str_len_rev s : str_len (reverse s) = str_len s.
Proof. induction s as [|c s IH]; [done|]. rewrite reverse_cons, str_len_app, IH. simpl. lia. Qed.

Lemma ceil_suffix_le n s : str_len (ceil_suffix n s) ≤ n ∧ ceil_suffix n s `suffix_of` s.
Proof.
  unfold ceil_suffix. rewrite str_len_rev. destruct (floor_truncate_le n (reverse s)) as [? Hp]. split; [done|].
  apply suffix_prefix_reverse. by rewrite reverse_involutive.
Qed.

(** A text is shown whole, or as a beginning and an end of it around the marker within the
    budget, or as the marker alone when that does not fit. *)
Lemma truncate_review_text_spec text max_tokens :
  let out := truncate_review_text text max_tokens in
  let budget := byte_budget (Tokens max_tokens) in
  out = text ∨ ∃ omitted,
    out = omission_marker omitted ∧ (budget ≤ slen out)%N ∨
    ∃ front back, out = front ++ omission_marker omitted ++ back ∧ front `prefix_of` text ∧ back `suffix_of` text ∧ (slen out ≤ budget)%N.
Proof.
  intros out budget. unfold out, truncate_review_text. fold budget. destruct (slen text <=? budget)%N; [by left|]. right.
  set (omitted := token_budget _). exists omitted. destruct (budget <=? slen (omission_marker omitted))%N eqn:Hm.
  - left. split; [done|]. by apply N.leb_le.
  - apply N.leb_gt in Hm. right. set (available := (budget - _)%N).
    destruct (floor_truncate_le (N.to_nat (available / 2)) text) as [Hf Hpre].
    destruct (ceil_suffix_le (N.to_nat (available - available / 2)) text) as [Hc Hsuf].
    do 2 eexists. split; [done|]. split; [done|]. split; [done|]. unfold slen in *. rewrite !str_len_app.
    assert (available / 2 ≤ available)%N by (apply N.Div0.div_le_upper_bound; lia). lia.
Qed.
End facts.

(** * A history in memory *)

Module TranscriptMem.
Export RetainedMem.

#[export] Instance JsonValue_eq : EqDecision JsonValue := unit_eq_dec.
#[export] Instance JsonNumber_eq : EqDecision JsonNumber := unit_eq_dec.
#[export] Instance ExecutedToolCall_eq : EqDecision ExecutedToolCall := unit_eq_dec.
#[export] Instance MessageMetadata_eq : EqDecision MessageMetadata.
Proof. solve_decision. Defined.
#[export] Instance ResponseItem_eq : EqDecision ResponseItem.
Proof.
  assert (EqDecision ImageDetail) by solve_decision. assert (EqDecision ContentItem) by solve_decision.
  assert (EqDecision AgentMessageInputContent) by solve_decision. assert (EqDecision MessagePhase) by solve_decision.
  assert (EqDecision ReasoningItemReasoningSummary) by solve_decision. assert (EqDecision ReasoningItemContent) by solve_decision.
  assert (EqDecision LocalShellStatus) by solve_decision. assert (EqDecision LocalShellExecAction) by solve_decision.
  assert (EqDecision LocalShellAction) by solve_decision. assert (EqDecision WebSearchAction) by solve_decision.
  assert (EqDecision ReasoningEffort) by solve_decision. assert (EqDecision ConfigurationReasoning) by solve_decision.
  assert (EqDecision FunctionCallOutputContentItem) by solve_decision. assert (EqDecision FunctionCallOutputBody) by solve_decision.
  assert (EqDecision FunctionCallOutputPayload) by solve_decision.
  solve_decision.
Defined.

(** Sizes of texts; an image counts what its URL does. *)
Definition mem_content_size (c : ContentItem) : N :=
  match c with InputText t | OutputText t | InputAudio t | InputImage t _ => text_size t end.
#[export] Instance mem_item_sizes : ItemSizes := {|
  size_of_item := 256;
  item_json_size i := Some (match i with Message _ _ content _ _ => foldr (λ c n, (mem_content_size c + n)%N) 0%N content | _ => 64%N end);
  reasoning_json_size _ := Some 0%N;
  header_json_size _ _ _ _ := Some 32%N;
  content_json_size c := Some (mem_content_size c);
|}.

Definition says (role text : str) : ResponseItem := Message None role [InputText text] None None.

Lemma review_history_bounded_witness :
  rtc review_step (new_transcript 0) (record_item (says (lit "user") (lit "do not push")) (new_transcript 0)) ∧
  length (transcript (record_item (says (lit "user") (lit "do not push")) (new_transcript 0))) = 1.
Proof.
  assert (rtc review_step (new_transcript 0) (record_item (says (lit "user") (lit "do not push")) (new_transcript 0))) as Hr.
  { apply rtc_once, step_record. }
  destruct (review_history_bounded 0 _ Hr) as [_ _]. split; [exact Hr|]. vm_compute. reflexivity.
Defined.
End TranscriptMem.
