(* ===== verification/TokenUsage.v ===== *)
(** * TokenUsage: tokens reported and estimated
    ([TokenUsage] of [protocol/src/protocol.rs], the estimates of
    [core/src/context_manager/history.rs])

    Usage that responses report is added up in [i64]; items the server has not seen are
    estimated from their serialized size, with inline media and encrypted content replaced
    by estimates of their own.  [None] is a panic of an overflow check. *)
From S2P Require Import Prelude RustInt RustStr TextTruncate ResponseItems RetainedContext ContextFragments TranscriptHistory.

Local Open Scope Z_scope.

(** ** Signed machine integers *)

Definition in_i64 (z : Z) : bool := (i64_min <=? z) && (z <=? i64_max).
Definition wrap_i64 (z : Z) : Z := (z - i64_min) mod 2 ^ 64 + i64_min.
(** [a + b] and [a - b] under overflow checks, which follow [debug_assertions]. *)
Definition i64_of (debug_assertions : bool) (z : Z) : option Z :=
  if in_i64 z then Some z else if debug_assertions then None else Some (wrap_i64 z).
(** [saturating_add] and [saturating_sub]. *)
Definition i64_sat (z : Z) : Z := Z.max i64_min (Z.min i64_max z).
(** [i64::try_from(n).unwrap_or(i64::MAX)]. *)
Definition to_i64 (n : N) : Z := Z.min i64_max (Z.of_N n).

(** ** Reported usage *)

Section usage.
Context `{Opaque}.
Context (debug_assertions : bool).

Record TokenUsage := mkUsage {
  input_tokens : Z;
  cached_input_tokens : Z;
  cache_write_input_tokens : Z;
  output_tokens : Z;
  reasoning_output_tokens : Z;
  total_tokens : Z;
  codex_rollout_budget_units : option JsonNumber;
}.
(** [Default]. *)
Definition no_usage : TokenUsage := mkUsage 0 0 0 0 0 0 None.
Definition usage_of_total (total : Z) : TokenUsage := mkUsage 0 0 0 0 0 total None.

Definition add_assign (self other : TokenUsage) : option TokenUsage :=
  input ← i64_of debug_assertions (input_tokens self + input_tokens other);
  cached ← i64_of debug_assertions (cached_input_tokens self + cached_input_tokens other);
  cache_write ← i64_of debug_assertions (cache_write_input_tokens self + cache_write_input_tokens other);
  output ← i64_of debug_assertions (output_tokens self + output_tokens other);
  reasoning ← i64_of debug_assertions (reasoning_output_tokens self + reasoning_output_tokens other);
  total ← i64_of debug_assertions (total_tokens self + total_tokens other);
  Some (mkUsage input cached cache_write output reasoning total (codex_rollout_budget_units self)).

Record TokenUsageInfo := mkUsageInfo {
  total_token_usage : TokenUsage;
  last_token_usage : TokenUsage;
  model_context_window : option Z;
}.

Definition append_last_usage (last : TokenUsage) (info : TokenUsageInfo) : option TokenUsageInfo :=
  total ← add_assign (total_token_usage info) last;
  Some (mkUsageInfo total last (model_context_window info)).

(** [new_or_append]; the outer option is a panic. *)
Definition new_or_append (info : option TokenUsageInfo) (last : option TokenUsage) (window : option Z) :
    option (option TokenUsageInfo) :=
  match info, last with
  | None, None => Some None
  | _, _ =>
      let info := default (mkUsageInfo no_usage no_usage window) info in
      info ← match last with Some last => append_last_usage last info | None => Some info end;
      Some (Some (match window with
                  | Some _ => mkUsageInfo (total_token_usage info) (last_token_usage info) window
                  | None => info
                  end))
  end.

Definition fill_to_context_window (context_window : Z) (info : TokenUsageInfo) : option TokenUsageInfo :=
  delta ← i64_of debug_assertions (context_window - total_tokens (total_token_usage info));
  Some (mkUsageInfo (usage_of_total context_window) (usage_of_total (Z.max delta 0)) (Some context_window)).

Definition full_context_window (context_window : Z) : option TokenUsageInfo :=
  fill_to_context_window context_window (mkUsageInfo no_usage no_usage (Some context_window)).
End usage.

(** ** Inline media *)

Definition parse_base64_data_url (url media_type_prefix : str) : option str :=
  if negb (starts_with_ignore_case (lit "data:") url) then None
  else
    '(metadata, payload) ← split_once 44%N url;
    match split_char 59%N (drop 5 metadata) with
    | [] => None
    | mime_type :: parameters =>
        let has_base64_marker := existsb (eq_ignore_ascii_case (lit "base64")) parameters in
        if starts_with_ignore_case media_type_prefix mime_type && has_base64_marker then Some payload else None
    end.
Definition parse_base64_image_data_url (url : str) : option str := parse_base64_data_url url (lit "image/").
Definition parse_base64_audio_data_url (url : str) : option str := parse_base64_data_url url (lit "audio/").

Definition RESIZED_IMAGE_BYTES_ESTIMATE : Z := 7373.
Definition ORIGINAL_IMAGE_PATCH_SIZE : Z := 32.
Definition ORIGINAL_IMAGE_MAX_PATCHES : N := 10000.

(** What decoders say: the width and height of the image a base64 payload holds, and the
    tokens of the audio of a URL. *)
Class MediaReaders := {
  image_dimensions : str → option (N * N);
  estimate_audio_token_count : str → N;
}.

Definition patches (side : N) : Z :=
  Z.quot (i64_sat (Z.of_N side + i64_sat (ORIGINAL_IMAGE_PATCH_SIZE - 1))) ORIGINAL_IMAGE_PATCH_SIZE.

Section media.
Context `{MediaReaders}.

(** The cache is keyed by a digest of the URL, whose estimate it holds. *)
Definition estimate_original_image_bytes (image_url : str) : option Z :=
  payload ← parse_base64_image_data_url image_url;
  '(width, height) ← image_dimensions payload;
  let patch_count := Z.to_N (i64_sat (patches width * patches height)) in
  Some (to_i64 (approx_bytes_for_tokens (N.min patch_count ORIGINAL_IMAGE_MAX_PATCHES))).

Definition estimate_image_bytes (image_url : str) (detail : option ImageDetail) : Z :=
  match detail with
  | Some DetailOriginal => default RESIZED_IMAGE_BYTES_ESTIMATE (estimate_original_image_bytes image_url)
  | _ => RESIZED_IMAGE_BYTES_ESTIMATE
  end.

(** [payload_bytes] and [replacement_bytes]. *)
Definition accumulate (payload replacement : Z) (acc : Z * Z) : Z * Z :=
  (i64_sat (acc.1 + payload), i64_sat (acc.2 + replacement)).

Definition accumulate_image (acc : Z * Z) (image : str * option ImageDetail) : Z * Z :=
  match parse_base64_image_data_url image.1 with
  | Some payload => accumulate (to_i64 (slen payload)) (estimate_image_bytes image.1 image.2) acc
  | None => acc
  end.
Definition accumulate_audio (acc : Z * Z) (audio_url : str) : Z * Z :=
  match parse_base64_audio_data_url audio_url with
  | Some payload =>
      accumulate (to_i64 (slen payload)) (to_i64 (approx_bytes_for_tokens (estimate_audio_token_count audio_url))) acc
  | None => acc
  end.

Definition estimate_encrypted_function_output_length (encoded_len : N) : N := div_ceil (sat_mul encoded_len 9) 16.
Definition accumulate_encrypted (acc : Z * Z) (encrypted_content : str) : Z * Z :=
  accumulate (to_i64 (slen encrypted_content))
    (to_i64 (estimate_encrypted_function_output_length (slen encrypted_content))) acc.
End media.

Definition content_image (c : ContentItem) : option (str * option ImageDetail) :=
  match c with InputImage image_url detail => Some (image_url, detail) | _ => None end.
Definition content_audio (c : ContentItem) : option str := match c with InputAudio audio_url => Some audio_url | _ => None end.
Definition output_image (c : FunctionCallOutputContentItem) : option (str * option ImageDetail) :=
  match c with OutInputImage image_url detail => Some (image_url, detail) | _ => None end.
Definition output_audio (c : FunctionCallOutputContentItem) : option str :=
  match c with OutInputAudio audio_url => Some audio_url | _ => None end.
Definition output_encrypted (c : FunctionCallOutputContentItem) : option str :=
  match c with OutEncryptedContent encrypted_content => Some encrypted_content | _ => None end.
Definition agent_encrypted (c : AgentMessageInputContent) : option str :=
  match c with AgentEncryptedContent encrypted_content => Some encrypted_content | _ => None end.

(** ** Items *)

Section items.
Context `{Opaque} {Sizes : ItemSizes} `{MediaReaders}.
Implicit Types (i : ResponseItem).

Definition image_data_url_estimate_adjustment i : Z * Z :=
  match i with
  | Message _ _ content _ _ => foldl accumulate_image (0, 0) (omap content_image content)
  | FunctionCallOutput _ _ _ _ output _ | CustomToolCallOutput _ _ _ output _ =>
      foldl accumulate_image (0, 0) (omap output_image (default [] (content_items output)))
  | _ => (0, 0)
  end.

Definition audio_data_url_estimate_adjustment i : Z * Z :=
  match i with
  | Message _ _ content _ _ => foldl accumulate_audio (0, 0) (omap content_audio content)
  | FunctionCallOutput _ _ _ _ output _ | CustomToolCallOutput _ _ _ output _ =>
      foldl accumulate_audio (0, 0) (omap output_audio (default [] (content_items output)))
  | _ => (0, 0)
  end.

Definition encrypted_function_output_estimate_adjustment i : Z * Z :=
  match i with
  | FunctionCallOutput _ _ _ _ output _ =>
      foldl accumulate_encrypted (0, 0) (omap output_encrypted (default [] (content_items output)))
  | AgentMessage _ _ _ content _ => foldl accumulate_encrypted (0, 0) (omap agent_encrypted content)
  | _ => (0, 0)
  end.

Definition estimate_reasoning_length (encoded_len : N) : N := sat_sub (sat_mul encoded_len 3 / 4) 650.

(** The bytes removed and added for one modality. *)
Definition adjust (adjustment : Z * Z) (raw : Z) : Z := i64_sat (i64_sat (raw - adjustment.1) + adjustment.2).

Definition estimate_response_item_model_visible_bytes i : Z :=
  match i with
  | Reasoning _ _ _ (Some content) _ | Compaction _ content _ | ContextCompaction _ (Some content) _ =>
      to_i64 (estimate_reasoning_length (slen content))
  | _ =>
      let raw := from_option to_i64 0 (item_json_size i) in
      adjust (encrypted_function_output_estimate_adjustment i)
        (adjust (audio_data_url_estimate_adjustment i) (adjust (image_data_url_estimate_adjustment i) raw))
  end.

Definition estimate_item_token_count i : Z :=
  approx_tokens_from_byte_count_i64 (estimate_response_item_model_visible_bytes i).

(** [fold(0i64, i64::saturating_add)]. *)
Definition sum_estimates (its : list ResponseItem) : Z :=
  foldl (λ total n, i64_sat (total + n)) 0 (map estimate_item_token_count its).
End items.

(** * What the counts are *)

(** ** Reported totals *)

Lemma wrap_i64_id z : in_i64 z = true → wrap_i64 z = z.
Proof.
  unfold in_i64, wrap_i64, i64_min, i64_max. rewrite andb_true_iff, !Z.leb_le. intros [? ?].
  rewrite Z.mod_small; lia.
Qed.

Lemma wrap_i64_range z : in_i64 (wrap_i64 z) = true.
Proof.
  unfold in_i64, wrap_i64, i64_min, i64_max. pose proof (Z.mod_pos_bound (z - -9223372036854775808) (2 ^ 64)).
  rewrite andb_true_iff, !Z.leb_le. lia.
Qed.

Lemma wrap_i64_add a b : wrap_i64 (wrap_i64 a + b) = wrap_i64 (a + b).
Proof.
  unfold wrap_i64. f_equal. replace ((a - i64_min) mod 2 ^ 64 + i64_min + b - i64_min) with ((a - i64_min) mod 2 ^ 64 + b) by lia.
  rewrite Z.add_mod_idemp_l by lia. f_equal. lia.
Qed.

(** A release build wraps, and a debug build only goes on with what fits. *)
Lemma i64_of_wraps debug z z' : i64_of debug z = Some z' → z' = wrap_i64 z.
Proof. unfold i64_of. destruct (in_i64 z) eqn:E; [intros [= <-]; by rewrite wrap_i64_id|]. by destruct debug; intros [= <-]. Qed.

Lemma i64_of_debug z z' : i64_of true z = Some z' → z' = z.
Proof. unfold i64_of. by destruct (in_i64 z); intros [= <-]. Qed.

Section totals.
Context `{Opaque}.

(** Counting one kind of token. *)
Definition counters : list (TokenUsage → Z) :=
  [input_tokens; cached_input_tokens; cache_write_input_tokens; output_tokens; reasoning_output_tokens; total_tokens].
Definition sum_of (f : TokenUsage → Z) (us : list TokenUsage) : Z := foldr (λ u n, f u + n) 0 us.

(** [update_token_info] for one response after another. *)
Fixpoint record_usages (debug : bool) (window : option Z) (us : list TokenUsage) (info : option TokenUsageInfo) :
    option (option TokenUsageInfo) :=
  match us with
  | [] => Some info
  | u :: us => info ← new_or_append debug info (Some u) window; record_usages debug window us info
  end.

Lemma add_assign_counter debug a b c f : f ∈ counters → add_assign debug a b = Some c →
  i64_of debug (f a + f b) = Some (f c).
Proof.
  unfold add_assign. intros Hf (n1 & H1 & (n2 & H2 & (n3 & H3 & (n4 & H4 & (n5 & H5 & (n6 & H6 & [= <-])%bind_Some)%bind_Some)%bind_Some)%bind_Some)%bind_Some)%bind_Some.
  unfold counters in Hf. repeat (apply elem_of_cons in Hf as [->|Hf]; [done|]). by apply elem_of_nil in Hf.
Qed.

Lemma add_assign_total a b : ∃ c, add_assign false a b = Some c.
Proof. unfold add_assign, i64_of. repeat case_match; eauto. Qed.

Lemma new_or_append_inv debug info u window info' : new_or_append debug info (Some u) window = Some info' →
  ∃ i', info' = Some i' ∧ last_token_usage i' = u ∧ (∀ w, window = Some w → model_context_window i' = Some w) ∧
    add_assign debug (total_token_usage (default (mkUsageInfo no_usage no_usage window) info)) u = Some (total_token_usage i').
Proof.
  intros Hn. assert (∃ i, append_last_usage debug u (default (mkUsageInfo no_usage no_usage window) info) = Some i ∧
    info' = Some (match window with Some _ => mkUsageInfo (total_token_usage i) (last_token_usage i) window | None => i end)) as (i & Hi & ->).
  { destruct info; apply bind_Some in Hn as (i & Hi & [= <-]); eauto. }
  unfold append_last_usage in Hi. apply bind_Some in Hi as (c & Hc & [= <-]).
  eexists. split; [done|]. destruct window; simpl; naive_solver.
Qed.

(** Every counter of the total is the sum of what the responses reported, modulo the width
    of the integers (and exactly, where overflows are checked); the last usage and window
    are the last ones; and a release build always goes on. *)
Theorem usage_totals_exact debug window us u :
  (debug = false → is_Some (record_usages debug window (us ++ [u]) None)) ∧
  ∀ r, record_usages debug window (us ++ [u]) None = Some r →
    ∃ info, r = Some info ∧ last_token_usage info = u ∧ (∀ w, window = Some w → model_context_window info = Some w) ∧
      ∀ f, f ∈ counters →
        let sum := sum_of f (us ++ [u]) in
        f (total_token_usage info) = wrap_i64 sum ∧ (debug = true ∨ in_i64 sum = true → f (total_token_usage info) = sum).
Proof.
  set (start := mkUsageInfo no_usage no_usage window).
  assert (∀ us info, debug = false → is_Some (record_usages debug window us info)) as Htotal.
  { clear. intros us info ->. revert info. induction us as [|u us IH]; intros info; [by eexists|]. simpl.
    assert (∃ i, new_or_append false info (Some u) window = Some i) as [i ->]; [|apply IH].
    destruct (add_assign_total (total_token_usage (default (mkUsageInfo no_usage no_usage window) info)) u) as [c Hc].
    unfold new_or_append, append_last_usage. destruct info; rewrite Hc; simpl; eauto. }
  split; [apply Htotal|].
  assert (∀ us info r, record_usages debug window (us ++ [u]) info = Some r →
    ∃ i, r = Some i ∧ last_token_usage i = u ∧ (∀ w, window = Some w → model_context_window i = Some w) ∧
      ∀ f, f ∈ counters → f (total_token_usage i) = wrap_i64 (f (total_token_usage (default start info)) + sum_of f (us ++ [u])) ∧
        (debug = true → f (total_token_usage i) = f (total_token_usage (default start info)) + sum_of f (us ++ [u]))) as Hrec.
  { clear us. induction us as [|v us IH]; intros info r; simpl.
    - intros (i & Hi & [= <-])%bind_Some. apply new_or_append_inv in Hi as (i' & -> & Hl & Hw & Ha).
      exists i'. split_and!; [done..|]. intros f Hf. apply (add_assign_counter _ _ _ _ f Hf) in Ha as Hs. fold start in Hs.
      rewrite Z.add_0_r. split; [by apply i64_of_wraps in Hs|]. intros ->. by apply i64_of_debug in Hs.
    - intros (i & Hi & Hr)%bind_Some. apply new_or_append_inv in Hi as (i' & -> & _ & _ & Ha).
      apply IH in Hr as (i & -> & Hl & Hw & Hf). exists i. split_and!; [done..|]. intros f Hc.
      destruct (Hf f Hc) as [H1 H2]. apply (add_assign_counter _ _ _ _ f Hc) in Ha as Hs. fold start in Hs. simpl in H1, H2.
      split; [|intros ->; rewrite H2 by done; apply i64_of_debug in Hs; lia].
      rewrite H1. apply i64_of_wraps in Hs as ->. rewrite wrap_i64_add. f_equal. lia. }
  intros r Hr. apply Hrec in Hr as (i & -> & Hl & Hw & Hf). exists i. split_and!; [done..|]. intros f Hc.
  destruct (Hf f Hc) as [H1 H2]. assert (f (total_token_usage start) = 0) as H0.
  { unfold counters in Hc. repeat (apply elem_of_cons in Hc as [->|Hc]; [done|]). by apply elem_of_nil in Hc. }
  cbn [default from_option] in H1, H2. rewrite H0, Z.add_0_l in H1, H2. split; [done|].
  intros [Hd|Hin]; [by apply H2|]. rewrite H1. by apply wrap_i64_id.
Qed.
End totals.

(** ** Estimates *)

Section estimates.
Context `{Opaque} {Sizes : ItemSizes} `{MediaReaders}.
Implicit Types (i : ResponseItem) (its : list ResponseItem).

Lemma estimate_item_range i : 0 ≤ estimate_item_token_count i ≤ i64_max.
Proof.
  unfold estimate_item_token_count, approx_tokens_from_byte_count_i64, i64_max.
  destruct (_ <=? 0); lia.
Qed.

(** Saturating at every step is saturating the sum. *)
Lemma sum_estimates_exact its :
  sum_estimates its = Z.min i64_max (foldr (λ i n, estimate_item_token_count i + n) 0 its).
Proof.
  assert (∀ its, 0 ≤ foldr (λ i n, estimate_item_token_count i + n) 0 its) as Hpos.
  { intros l. induction l as [|i l IH]; simpl; [lia|]. pose proof (estimate_item_range i). lia. }
  unfold sum_estimates. enough (∀ total, 0 ≤ total ≤ i64_max →
    foldl (λ total n, i64_sat (total + n)) total (map estimate_item_token_count its) =
    Z.min i64_max (total + foldr (λ i n, estimate_item_token_count i + n) 0 its)) as ->; [done|unfold i64_max; lia|].
  induction its as [|i its IH]; intros total Ht; simpl; [lia|]. pose proof (estimate_item_range i) as Hi.
  pose proof (Hpos its). rewrite IH; unfold i64_sat, i64_min, i64_max in *; lia.
Qed.
End estimates.

(** Inline payloads are recognized whatever the case of the markers. *)
Example image_payload :
  parse_base64_image_data_url (lit "DATA:Image/PNG;charset=x;BASE64,QUJD") = Some (lit "QUJD") ∧
  parse_base64_image_data_url (lit "data:image/png,QUJD") = None ∧
  parse_base64_image_data_url (lit "data:audio/wav;base64,QUJD") = None.
Proof. vm_compute. done. Qed.
