(* ===== verification/History.v ===== *)
(** * History: the history prepared for a prompt
    ([core/src/context_manager/history.rs], the media part of [normalize.rs])

    Which items are recorded, the history as sent to the model, and the removal of its
    oldest item.  The context manager's other state (review history, retained context,
    token usage) does not take part in these operations. *)
From S2P Require Import Prelude RustStr ResponseItems Normalize.

Inductive InputModality := ModalityText | ModalityImage | ModalityAudio.

#[export] Instance InputModality_eq_dec : EqDecision InputModality.
Proof. solve_decision. Defined.

(** [UnsupportedMedia]: the note that replaces media, and its classification. *)
Record UnsupportedMedia := mkUnsupported { note_text : str; note_kind : str }.
Definition UNSUPPORTED_IMAGE : UnsupportedMedia :=
  mkUnsupported (lit "image content omitted because you do not support image input")
    (lit "images.unsupported").
Definition UNSUPPORTED_AUDIO : UnsupportedMedia :=
  mkUnsupported (lit "audio content omitted because you do not support audio input")
    (lit "audio.unsupported").

Definition is_input_image (c : ContentItem) : bool :=
  match c with InputImage _ _ => true | _ => false end.
Definition is_input_audio (c : ContentItem) : bool :=
  match c with InputAudio _ => true | _ => false end.
Definition is_out_image (c : FunctionCallOutputContentItem) : bool :=
  match c with OutInputImage _ _ => true | _ => false end.
Definition is_out_audio (c : FunctionCallOutputContentItem) : bool :=
  match c with OutInputAudio _ => true | _ => false end.

Section history.
Context `{Opaque, UuidV5}.
Context (debug_assertions : bool).
Implicit Types (items : list ResponseItemEnvelope).

(** [is_api_message]. *)
Definition is_api_message (message : ResponseItem) (metadata : option CodexHarnessMetadata) : bool :=
  match message with
  | Message _ role _ _ _ => bool_decide (role ≠ lit "system")
  | ConfigurationUpdate _ => from_option harness_authored_configuration false metadata
  | CompactionTrigger | OtherItem => false
  | _ => true
  end.

Definition is_model_generated_item (i : ResponseItem) : bool :=
  match i with
  | Message _ role _ _ _ => bool_decide (role = lit "assistant")
  | Reasoning _ _ _ _ _ | FunctionCall _ _ _ _ _ _ _ | ToolSearchCall _ _ _ _ _ _
  | WebSearchCall _ _ _ _ | ImageGenerationCall _ _ _ _ _ | CustomToolCall _ _ _ _ _ _ _
  | LocalShellCall _ _ _ _ _ | Compaction _ _ _ | ContextCompaction _ _ _ => true
  | _ => false
  end.

(** ** Media the model does not read *)

(** Replacing the annotated content of a message in place. *)
Definition replace_content (p : ContentItem → bool) (u : UnsupportedMedia) (i : ResponseItem) :
    ResponseItem :=
  match to_annotated_content i with
  | None => i
  | Some (i, content) =>
      let content := (λ ck : AnnotatedContent,
        if p ck.1 then (InputText (note_text u), note_kind u) else ck) <$> content in
      default i (set_annotated_content i content)
  end.

Definition replace_output (p : FunctionCallOutputContentItem → bool) (u : UnsupportedMedia)
    (output : FunctionCallOutputPayload) : FunctionCallOutputPayload :=
  map_content_items (fmap (λ c, if p c then OutInputText (note_text u) else c)) output.

Definition strip_image (i : ResponseItem) : ResponseItem :=
  match i with
  | Message _ _ _ _ _ => replace_content is_input_image UNSUPPORTED_IMAGE i
  | FunctionCallOutput id call_id name namespace output m =>
      FunctionCallOutput id call_id name namespace
        (replace_output is_out_image UNSUPPORTED_IMAGE output) m
  | CustomToolCallOutput id call_id name output m =>
      CustomToolCallOutput id call_id name (replace_output is_out_image UNSUPPORTED_IMAGE output) m
  | ImageGenerationCall id status revised_prompt _ m =>
      ImageGenerationCall id status revised_prompt [] m
  | _ => i
  end.

Definition strip_images_when_unsupported (input_modalities : list InputModality) items :
    list ResponseItemEnvelope :=
  if bool_decide (ModalityImage ∈ input_modalities) then items else with_item strip_image <$> items.

Definition strip_audio (i : ResponseItem) : ResponseItem :=
  match i with
  | Message _ _ _ _ _ => replace_content is_input_audio UNSUPPORTED_AUDIO i
  | FunctionCallOutput id call_id name namespace output m =>
      FunctionCallOutput id call_id name namespace
        (replace_output is_out_audio UNSUPPORTED_AUDIO output) m
  | CustomToolCallOutput id call_id name output m =>
      CustomToolCallOutput id call_id name (replace_output is_out_audio UNSUPPORTED_AUDIO output) m
  | _ => i
  end.

Definition strip_audio_when_unsupported (input_modalities : list InputModality) items :
    list ResponseItemEnvelope :=
  if bool_decide (ModalityAudio ∈ input_modalities) then items else with_item strip_audio <$> items.

(** ** The prompt *)

Definition normalize_history (input_modalities : list InputModality) items :
    option (list ResponseItemEnvelope) :=
  items ← ensure_call_outputs_present debug_assertions items;
  items ← remove_orphan_outputs debug_assertions items;
  let items := strip_images_when_unsupported input_modalities items in
  Some (strip_audio_when_unsupported input_modalities items).

Definition for_prompt_annotated (input_modalities : list InputModality) items :
    option (list ResponseItemEnvelope) := normalize_history input_modalities items.
Definition for_prompt (input_modalities : list InputModality) items : option (list ResponseItem) :=
  map item <$> for_prompt_annotated input_modalities items.

(** [remove_first_item]: the oldest item and its counterpart. *)
Definition remove_first_item items : list ResponseItemEnvelope :=
  match items with
  | [] => []
  | removed :: items => remove_corresponding_for (item removed) items
  end.

(** [items_after_last_model_generated_item]: what was added locally since. *)
Definition items_after_last_model_generated_item items : list ResponseItem :=
  let start := from_option (λ i, S i) (length items)
    ((λ i, length items - 1 - i) <$>
       (fst <$> list_find (λ e, is_model_generated_item (item e)) (reverse items))) in
  item <$> drop start items.
End history.

(** * What the model is sent

    The invariants [normalize_history] promises, on the history prepared for a prompt. *)

Section facts.
Context `{Opaque, UuidV5}.
Implicit Types (items : list ResponseItemEnvelope) (e : ResponseItemEnvelope) (i : ResponseItem).

(** An item shows an image, or audio. *)
Definition shows_image i : bool :=
  match i with
  | Message _ _ content _ _ => existsb is_input_image content
  | FunctionCallOutput _ _ _ _ output _ | CustomToolCallOutput _ _ _ output _ =>
      from_option (existsb is_out_image) false (content_items output)
  | ImageGenerationCall _ _ _ result _ => bool_decide (result ≠ [])
  | _ => false
  end.
Definition shows_audio i : bool :=
  match i with
  | Message _ _ content _ _ => existsb is_input_audio content
  | FunctionCallOutput _ _ _ _ output _ | CustomToolCallOutput _ _ _ output _ =>
      from_option (existsb is_out_audio) false (content_items output)
  | _ => false
  end.

(** ** Replacing content *)

Lemma annotate_content content kinds : (annotate content kinds).*1 = content.
Proof.
  revert kinds. induction content as [|c content IH]; intros [|k kinds]; cbn; try done; by rewrite IH.
Qed.

Definition replace_one (p : ContentItem → bool) (u : UnsupportedMedia) (c : ContentItem) : ContentItem :=
  if p c then InputText (note_text u) else c.

(** A message keeps its id, role and phase, and each content item not replaced. *)
Lemma replace_content_message p u id role content phase meta :
  ∃ meta', replace_content p u (Message id role content phase meta) =
    Message id role (replace_one p u <$> content) phase meta'.
Proof.
  unfold replace_content. cbn. eexists. f_equal.
  rewrite <- list_fmap_compose. generalize (default [] (meta ≫= content_item_kinds)) as kinds.
  induction content as [|c content IH]; intros [|k kinds]; cbn; try done;
    (f_equal; [unfold replace_one; by destruct (p c)|apply IH]).
Qed.

Lemma existsb_fmap_replace {A} (p q : A → bool) (f : A → A) (l : list A) :
  (∀ x, q (f x) = p x) → existsb q (f <$> l) = existsb p l.
Proof. intros Hf. induction l as [|x l IH]; cbn; [done|]. by rewrite Hf, IH. Qed.

Lemma content_items_replace p u output :
  content_items (replace_output p u output) =
  map (λ c, if p c then OutInputText (note_text u) else c) <$> content_items output.
Proof. by destruct output as [[]]. Qed.

Lemma strip_image_none i : shows_image (strip_image i) = false.
Proof.
  destruct i as [|id role content phase meta| | | | | | | | | | | | | | | |]; try done; cbn [strip_image].
  - destruct (replace_content_message is_input_image UNSUPPORTED_IMAGE id role content phase meta)
      as [meta' ->]. cbn.
    rewrite (existsb_fmap_replace (λ _, false)); [by apply existsb_none|by intros []].
  - cbn. rewrite content_items_replace. destruct (content_items output); cbn; [|done].
    rewrite (existsb_fmap_replace (λ _, false)); [by apply existsb_none|by intros []].
  - cbn. rewrite content_items_replace. destruct (content_items output); cbn; [|done].
    rewrite (existsb_fmap_replace (λ _, false)); [by apply existsb_none|by intros []].
Qed.

Lemma strip_audio_none i : shows_audio (strip_audio i) = false.
Proof.
  destruct i as [|id role content phase meta| | | | | | | | | | | | | | | |]; try done; cbn [strip_audio].
  - destruct (replace_content_message is_input_audio UNSUPPORTED_AUDIO id role content phase meta)
      as [meta' ->]. cbn.
    rewrite (existsb_fmap_replace (λ _, false)); [by apply existsb_none|by intros []].
  - cbn. rewrite content_items_replace. destruct (content_items output); cbn; [|done].
    rewrite (existsb_fmap_replace (λ _, false)); [by apply existsb_none|by intros []].
  - cbn. rewrite content_items_replace. destruct (content_items output); cbn; [|done].
    rewrite (existsb_fmap_replace (λ _, false)); [by apply existsb_none|by intros []].
Qed.

(** Removing the audio shows no new image. *)
Lemma strip_audio_image i : shows_image (strip_audio i) = shows_image i.
Proof.
  destruct i as [|id role content phase meta| | | | | | | | | | | | | | | |]; try done; cbn [strip_audio].
  - destruct (replace_content_message is_input_audio UNSUPPORTED_AUDIO id role content phase meta)
      as [meta' ->]. cbn. apply existsb_fmap_replace. by intros [].
  - cbn. rewrite content_items_replace. destruct (content_items output); cbn; [|done].
    apply existsb_fmap_replace. by intros [].
  - cbn. rewrite content_items_replace. destruct (content_items output); cbn; [|done].
    apply existsb_fmap_replace. by intros [].
Qed.

(** ** The pairing is kept *)

(** What identifies an item and pairs it. *)
Definition same_keys (f : ResponseItem → ResponseItem) : Prop :=
  ∀ i m, call_key (mkEnvelope (f i) m) = call_key (mkEnvelope i m) ∧
    output_key (mkEnvelope (f i) m) = output_key (mkEnvelope i m) ∧
    needs_call (mkEnvelope (f i) m) = needs_call (mkEnvelope i m) ∧
    item_id (f i) = item_id i.

Lemma strip_image_keys : same_keys strip_image.
Proof. intros i m. by destruct i. Qed.

Lemma strip_audio_keys : same_keys strip_audio.
Proof. intros i m. by destruct i. Qed.

Lemma paired_with_item f items : same_keys f → paired items → paired (with_item f <$> items).
Proof.
  intros Hf [Hc Hn]. split.
  - intros e k ([i m] & -> & He)%list_elem_of_fmap Hk. destruct (Hf i m) as (H1 & _).
    destruct (Hc (mkEnvelope i m) k) as ([o mo] & Ho & Hok); [done|by rewrite <- H1|].
    exists (with_item f (mkEnvelope o mo)). split; [by apply list_elem_of_fmap_2|].
    destruct (Hf o mo) as (_ & H2 & _). by rewrite <- Hok.
  - intros o k ([i m] & -> & Ho)%list_elem_of_fmap Hk Hnc. destruct (Hf i m) as (_ & H2 & H3 & _).
    destruct (Hn (mkEnvelope i m) k) as ([e me] & He & Hek);
      [done|by rewrite <- H2|by rewrite <- H3|].
    exists (with_item f (mkEnvelope e me)). split; [by apply list_elem_of_fmap_2|].
    destruct (Hf e me) as (H1 & _). by rewrite <- Hek.
Qed.

Lemma ids_with_item f items :
  same_keys f → item_id ∘ item <$> (with_item f <$> items) = item_id ∘ item <$> items.
Proof.
  intros Hf. rewrite <- list_fmap_compose. apply list_fmap_ext. intros _ e _. cbn.
  by destruct (Hf (item e) (metadata e)) as (_ & _ & _ & ->).
Qed.
End facts.

(** The history sent to a model satisfies what [normalize_history] promises,
    whatever was recorded: every call has an output and every output that needs it a
    call; nothing shows an image to a model without image input, nor audio to one
    without audio input; and the items are those of the normalized history, with
    their ids and their metadata. *)
Theorem for_prompt_invariants `{Opaque, UuidV5} input_modalities items :
  ∃ out, for_prompt_annotated false input_modalities items = Some out ∧ paired out ∧
    (ModalityImage ∉ input_modalities → Forall (λ e, shows_image (item e) = false) out) ∧
    (ModalityAudio ∉ input_modalities → Forall (λ e, shows_audio (item e) = false) out) ∧
    item_id ∘ item <$> out = item_id ∘ item <$> (items ≫= normalized items) ∧
    metadata <$> out = metadata <$> (items ≫= normalized items).
Proof.
  unfold for_prompt_annotated, normalize_history.
  pose proof (normalize_calls_release items) as Hn. unfold normalize_calls in Hn.
  destruct (ensure_call_outputs_present false items) as [items1|]; [|done]. cbn in Hn |- *.
  rewrite Hn. cbn. pose proof (normalized_paired items) as Hp.
  set (n := items ≫= normalized items) in *.
  unfold strip_images_when_unsupported, strip_audio_when_unsupported.
  eexists. split; [done|]. split_and!.
  - repeat case_bool_decide; auto using paired_with_item, strip_image_keys, strip_audio_keys.
  - intros Hi. rewrite (bool_decide_eq_false_2 _ Hi). case_bool_decide.
    + apply Forall_fmap, Forall_true. intros e. apply strip_image_none.
    + apply Forall_fmap, Forall_fmap, Forall_true. intros e. cbn. rewrite strip_audio_image.
      apply strip_image_none.
  - intros Ha. rewrite (bool_decide_eq_false_2 _ Ha). apply Forall_fmap, Forall_true. intros e.
    apply strip_audio_none.
  - repeat case_bool_decide; rewrite ?ids_with_item; auto using strip_image_keys, strip_audio_keys.
  - repeat case_bool_decide; rewrite <- ?list_fmap_compose; done.
Qed.
