(* ===== verification/OutputTruncation.v ===== *)
(** * OutputTruncation: tool outputs cut to a budget
    ([utils/output-truncation/src/lib.rs])

    The text of a function-call output truncated under a policy, with images and
    encrypted content kept.  [None] is a panic of the slicing underneath. *)
From S2P Require Import Prelude RustInt RustStr TextTruncate ResponseItems.

(** The text segments of the items, joined by line feeds. *)
Definition text_of (i : FunctionCallOutputContentItem) : option str :=
  match i with OutInputText text => Some text | _ => None end.

Definition combine_segments (segments : list str) : str :=
  foldl (λ combined text,
    (if bool_decide (combined = []) then combined else combined ++ [c_nl]) ++ text) [] segments.

Definition formatted_truncate_text_content_items_with_policy
    (items : list FunctionCallOutputContentItem) (policy : TruncationPolicy) :
    option (list FunctionCallOutputContentItem * option N) :=
  let text_segments := omap text_of items in
  if bool_decide (text_segments = []) then Some (items, None)
  else
    let combined := combine_segments text_segments in
    if (slen combined <=? byte_budget policy)%N then Some (items, None)
    else
      let original_token_count := approx_token_count combined in
      text ← formatted_truncate_text combined policy;
      Some (OutInputText text :: filter (λ i, text_of i = None) items, Some original_token_count).

(** ** Item by item *)

Record trunc_state := mkTrunc {
  kept : list FunctionCallOutputContentItem;
  remaining_budget : N;
  omitted_text_items : N;
  omitted_audio_items : N;
}.

Definition policy_budget (policy : TruncationPolicy) : N :=
  match policy with Bytes _ => byte_budget policy | Tokens _ => token_budget policy end.
Definition text_cost (policy : TruncationPolicy) (text : str) : N :=
  match policy with Bytes _ => slen text | Tokens _ => approx_token_count text end.
Definition snippet_policy (policy : TruncationPolicy) (remaining : N) : TruncationPolicy :=
  match policy with Bytes _ => Bytes remaining | Tokens _ => Tokens remaining end.

Section items.
(** The caller's [estimate_audio_token_count]. *)
Context (estimate_audio_token_count : str → N).

Definition audio_cost (policy : TruncationPolicy) (audio_url : str) : N :=
  let token_cost := estimate_audio_token_count audio_url in
  match policy with Bytes _ => approx_bytes_for_tokens token_cost | Tokens _ => token_cost end.

Definition push_item (i : FunctionCallOutputContentItem) (cost : N) (st : trunc_state) : trunc_state :=
  mkTrunc (kept st ++ [i]) (sat_sub (remaining_budget st) cost) (omitted_text_items st)
    (omitted_audio_items st).
Definition omit_text (st : trunc_state) : trunc_state :=
  mkTrunc (kept st) (remaining_budget st) (omitted_text_items st + 1) (omitted_audio_items st).
Definition omit_audio (st : trunc_state) : trunc_state :=
  mkTrunc (kept st) (remaining_budget st) (omitted_text_items st) (omitted_audio_items st + 1).
Definition exhaust (st : trunc_state) : trunc_state :=
  mkTrunc (kept st) 0 (omitted_text_items st) (omitted_audio_items st).

(** One turn of the loop. *)
Definition truncate_item (policy : TruncationPolicy) (st : trunc_state)
    (i : FunctionCallOutputContentItem) : option trunc_state :=
  match i with
  | OutInputText text =>
      if bool_decide (text = []) then Some st
      else if (remaining_budget st =? 0)%N then Some (omit_text st)
      else
        let cost := text_cost policy text in
        if (cost <=? remaining_budget st)%N then Some (push_item i cost st)
        else
          snippet ← truncate_text text (snippet_policy policy (remaining_budget st));
          Some (exhaust
            (if bool_decide (snippet = []) then omit_text st
             else push_item (OutInputText snippet) 0 st))
  | OutInputImage _ _ => Some (push_item i 0 st)
  | OutInputAudio audio_url =>
      let cost := audio_cost policy audio_url in
      Some (if (cost <=? remaining_budget st)%N then push_item i cost st else omit_audio st)
  | OutEncryptedContent _ => Some (push_item i 0 st)
  end.

Fixpoint truncate_loop (policy : TruncationPolicy) (st : trunc_state)
    (items : list FunctionCallOutputContentItem) : option trunc_state :=
  match items with
  | [] => Some st
  | i :: items => st ← truncate_item policy st i; truncate_loop policy st items
  end.

Definition omission_notes (st : trunc_state) : list FunctionCallOutputContentItem :=
  (if (0 <? omitted_text_items st)%N
   then [OutInputText (lit "[omitted " ++ fmt_N (omitted_text_items st) ++ lit " text items ...]")]
   else []) ++
  (if (0 <? omitted_audio_items st)%N
   then [OutInputText (lit "[omitted " ++ fmt_N (omitted_audio_items st) ++ lit " audio items ...]")]
   else []).

Definition truncate_function_output_items_with_policy
    (items : list FunctionCallOutputContentItem) (policy : TruncationPolicy) :
    option (list FunctionCallOutputContentItem) :=
  st ← truncate_loop policy (mkTrunc [] (policy_budget policy) 0 0) items;
  Some (kept st ++ omission_notes st).

Definition truncate_function_output_payload (output : FunctionCallOutputPayload)
    (policy : TruncationPolicy) : option FunctionCallOutputPayload :=
  b ← match body output with
      | TextBody text => TextBody <$> truncate_text text policy
      | ContentItems items => ContentItems <$> truncate_function_output_items_with_policy items policy
      end;
  Some (mkPayload b (success output)).
End items.

(** * What a truncated output keeps *)

Section facts.
Context (estimate_audio_token_count : str → N).
Notation truncate_item := (truncate_item estimate_audio_token_count).
Notation truncate_loop := (truncate_loop estimate_audio_token_count).
Notation audio_cost := (audio_cost estimate_audio_token_count).

(** What becomes of an item: kept, cut to a snippet, or left out. *)
Inductive fate := Kept | Cut (snippet : str) | Dropped.

Definition fate_items (i : FunctionCallOutputContentItem) (f : fate) :
    list FunctionCallOutputContentItem :=
  match f with Kept => [i] | Cut s => [OutInputText s] | Dropped => [] end.

(** The budget an item kept whole uses. *)
Definition item_cost (policy : TruncationPolicy) (i : FunctionCallOutputContentItem) (f : fate) : N :=
  match i, f with
  | OutInputText text, Kept => text_cost policy text
  | OutInputAudio url, Kept => audio_cost policy url
  | _, _ => 0
  end.

(** The fates the code may give: images and encrypted content stay; only a text that
    is not empty is cut, to what [truncate_text] gives for some smaller budget. *)
Definition fate_ok (policy : TruncationPolicy) (i : FunctionCallOutputContentItem) (f : fate) : Prop :=
  match i, f with
  | OutInputImage _ _, _ | OutEncryptedContent _, _ => f = Kept
  | OutInputText text, Cut s => s ≠ [] ∧ ∃ remaining,
      (0 < remaining < text_cost policy text)%N ∧
      (remaining <= policy_budget policy)%N ∧
      truncate_text text (snippet_policy policy remaining) = Some s
  | OutInputText text, Kept => text ≠ []
  | OutInputText _, Dropped => True
  | OutInputAudio _, Cut _ => False
  | OutInputAudio _, _ => True
  end.

Definition is_cut (f : fate) : bool := match f with Cut _ => true | _ => false end.
Definition text_left_out (i : FunctionCallOutputContentItem) (f : fate) : bool :=
  match i, f with OutInputText (_ :: _), Dropped => true | _, _ => false end.
Definition audio_left_out (i : FunctionCallOutputContentItem) (f : fate) : bool :=
  match i, f with OutInputAudio _, Dropped => true | _, _ => false end.

Definition count_if (p : FunctionCallOutputContentItem → fate → bool)
    (items : list FunctionCallOutputContentItem) (fs : list fate) : N :=
  foldr (λ x n, if p x.1 x.2 then n + 1 else n)%N 0%N (zip items fs).
Definition total_cost policy (items : list FunctionCallOutputContentItem) (fs : list fate) : N :=
  foldr (λ x n, item_cost policy x.1 x.2 + n)%N 0%N (zip items fs).

Definition fits_memory (i : FunctionCallOutputContentItem) : Prop :=
  match i with OutInputText text => (slen text <= Z.to_N i64_max)%N | _ => True end.

Lemma text_cost_pos policy text :
  text ≠ [] → (slen text <= Z.to_N i64_max)%N → (0 < text_cost policy text)%N.
Proof.
  intros Hne Hmem. assert (slen text ≠ 0%N) by by rewrite slen_zero.
  destruct policy; cbn; [lia|]. unfold approx_token_count, APPROX_BYTES_PER_TOKEN, sat_sub.
  rewrite sat_add_exact by (apply in_memory in Hmem; lia).
  assert (4 * 1 ≤ slen text + (4 - 1))%N as Hle by lia. apply N.div_le_lower_bound in Hle; lia.
Qed.

(** One turn of the loop gives the item a fate. *)
Lemma truncate_item_fate policy st i :
  fits_memory i → (remaining_budget st <= policy_budget policy)%N →
  ∃ f st', truncate_item policy st i = Some st' ∧ fate_ok policy i f ∧
    kept st' = kept st ++ fate_items i f ∧
    (item_cost policy i f + remaining_budget st' <= remaining_budget st)%N ∧
    (is_cut f = true → remaining_budget st ≠ 0%N ∧ remaining_budget st' = 0%N) ∧
    omitted_text_items st' = (omitted_text_items st + if text_left_out i f then 1 else 0)%N ∧
    omitted_audio_items st' = (omitted_audio_items st + if audio_left_out i f then 1 else 0)%N.
Proof.
  intros Hmem Hb. destruct i as [text|url detail|url|enc]; cbn [OutputTruncation.truncate_item].
  - case_bool_decide as Ht.
    { exists Dropped, st. subst. cbn. rewrite app_nil_r. split_and!; try done; lia. }
    destruct (N.eqb_spec (remaining_budget st) 0) as [Hr|Hr].
    { exists Dropped, (omit_text st). destruct text; [done|]. cbn. rewrite app_nil_r.
      split_and!; try done; lia. }
    destruct (N.leb_spec (text_cost policy text) (remaining_budget st)) as [Hc|Hc].
    { exists Kept. eexists. split; [done|]. cbn. unfold sat_sub. split_and!; try done; try lia.
      destruct text; lia. }
    destruct (truncate_text_total text (snippet_policy policy (remaining_budget st)) Hmem)
      as [snippet Hs]. rewrite Hs. cbn [mbind option_bind]. case_bool_decide as Hsn.
    + exists Dropped. eexists. split; [done|]. destruct text; [done|]. cbn. rewrite app_nil_r.
      split_and!; try done; lia.
    + exists (Cut snippet). eexists. split; [done|]. cbn. split_and!; try done; try lia.
      exists (remaining_budget st). split_and!; [lia|done|done|done].
      destruct text; lia.
  - exists Kept. eexists. split; [done|]. cbn. unfold sat_sub. split_and!; try done; lia.
  - destruct (N.leb_spec (audio_cost policy url) (remaining_budget st)) as [Hc|Hc].
    + exists Kept. eexists. split; [done|]. cbn. unfold sat_sub. split_and!; try done; lia.
    + exists Dropped. eexists. split; [done|]. cbn. rewrite app_nil_r. split_and!; try done; lia.
  - exists Kept. eexists. split; [done|]. cbn. unfold sat_sub. split_and!; try done; lia.
Qed.

Lemma truncate_loop_fates policy items st :
  Forall fits_memory items → (remaining_budget st <= policy_budget policy)%N →
  ∃ fs st', truncate_loop policy st items = Some st' ∧ Forall2 (fate_ok policy) items fs ∧
    kept st' = kept st ++ mjoin (zip_with fate_items items fs) ∧
    (total_cost policy items fs + remaining_budget st' <= remaining_budget st)%N ∧
    length (filter is_cut fs) ≤ 1 ∧
    (remaining_budget st = 0%N → Forall (λ f, is_cut f = false) fs) ∧
    omitted_text_items st' = (omitted_text_items st + count_if text_left_out items fs)%N ∧
    omitted_audio_items st' = (omitted_audio_items st + count_if audio_left_out items fs)%N.
Proof.
  revert st. induction items as [|i items IH]; intros st Hmem Hb; cbn [OutputTruncation.truncate_loop].
  { exists [], st. cbn. rewrite app_nil_r. split_and!; try done; try lia. }
  apply Forall_cons in Hmem as [Hi Hmem].
  destruct (truncate_item_fate policy st i Hi Hb) as (f & st1 & -> & Hf & Hk & Hc & Hcut & Ht & Ha).
  cbn [mbind option_bind].
  destruct (IH st1) as (fs & st' & -> & Hfs & Hk' & Hc' & Hcut' & Hno & Ht' & Ha'); [done|lia|].
  exists (f :: fs), st'. split_and!.
  - done.
  - by constructor.
  - rewrite Hk', Hk, <- app_assoc. done.
  - unfold total_cost in *. cbn. lia.
  - rewrite filter_cons. case_decide as Hf1; [|done]. assert (is_cut f = true) as Hcf by by destruct (is_cut f).
    destruct (Hcut Hcf) as [_ Hz]. specialize (Hno Hz). cbn.
    assert (filter is_cut fs = []) as ->; [|done].
    clear -Hno. induction Hno as [|g fs Hg _ IHf]; [done|]. rewrite filter_cons, Hg. by case_decide.
  - intros Hz. constructor; [|apply Hno; lia].
    destruct (is_cut f) eqn:Hf1; [|done]. destruct Hcut; done.
  - rewrite Ht', Ht. unfold count_if. cbn. destruct (text_left_out i f); lia.
  - rewrite Ha', Ha. unfold count_if. cbn. destruct (audio_left_out i f); lia.
Qed.
End facts.

(** Cutting a structured output to a budget never fails and gives each item one
    fate: images and encrypted content stay, in their order; texts and audio are kept
    whole, at a total cost within the budget, or left out; at most one text is cut, to
    what was left of the budget; and the notes at the end count the texts that are not
    empty and the audio that were left out. *)
Theorem truncate_output_items estimate policy items :
  Forall fits_memory items →
  ∃ fs, truncate_function_output_items_with_policy estimate items policy =
      Some (mjoin (zip_with fate_items items fs) ++
            omission_notes (mkTrunc [] 0 (count_if text_left_out items fs)
              (count_if audio_left_out items fs))) ∧
    Forall2 (fate_ok policy) items fs ∧
    (total_cost estimate policy items fs <= policy_budget policy)%N ∧
    length (filter is_cut fs) ≤ 1.
Proof.
  intros Hmem.
  destruct (truncate_loop_fates estimate policy items (mkTrunc [] (policy_budget policy) 0 0) Hmem)
    as (fs & st' & Hl & Hf & Hk & Hc & Hcut & _ & Ht & Ha); [cbn; lia|].
  exists fs. unfold truncate_function_output_items_with_policy. rewrite Hl. cbn [mbind option_bind].
  cbn [kept remaining_budget omitted_text_items omitted_audio_items app] in *.
  rewrite N.add_0_l in Ht, Ha. split_and!; [|done|lia|done].
  rewrite Hk. unfold omission_notes. cbn [omitted_text_items omitted_audio_items]. by rewrite Ht, Ha.
Qed.

Lemma truncate_output_items_witness :
  ∃ fs, truncate_function_output_items_with_policy (λ _, 7%N)
      [OutInputText (lit "abcd"); OutInputImage (lit "u") None; OutInputText (lit "efghij");
       OutInputAudio (lit "v"); OutInputText (lit "k")] (Bytes 8) =
      Some (mjoin (zip_with fate_items
              [OutInputText (lit "abcd"); OutInputImage (lit "u") None; OutInputText (lit "efghij");
               OutInputAudio (lit "v"); OutInputText (lit "k")] fs) ++
            omission_notes (mkTrunc [] 0 (count_if text_left_out
              [OutInputText (lit "abcd"); OutInputImage (lit "u") None; OutInputText (lit "efghij");
               OutInputAudio (lit "v"); OutInputText (lit "k")] fs)
              (count_if audio_left_out
              [OutInputText (lit "abcd"); OutInputImage (lit "u") None; OutInputText (lit "efghij");
               OutInputAudio (lit "v"); OutInputText (lit "k")] fs))) ∧
    Forall2 (fate_ok (Bytes 8))
      [OutInputText (lit "abcd"); OutInputImage (lit "u") None; OutInputText (lit "efghij");
       OutInputAudio (lit "v"); OutInputText (lit "k")] fs ∧
    (total_cost (λ _, 7%N) (Bytes 8)
      [OutInputText (lit "abcd"); OutInputImage (lit "u") None; OutInputText (lit "efghij");
       OutInputAudio (lit "v"); OutInputText (lit "k")] fs <= policy_budget (Bytes 8))%N ∧
    length (filter is_cut fs) ≤ 1.
Proof.
  apply (truncate_output_items (λ _, 7%N) (Bytes 8)). repeat constructor; vm_compute; discriminate.
Defined.
