(* ===== verification/ContextManager.v ===== *)
(** * ContextManager: the history of a thread and what its reviewers may rely on
    ([core/src/context_manager/history.rs], [history_user_authorization.rs])

    The state of the context manager and its operations: recording, replacing and compacting
    items, restoring from a checkpoint, rolling turns back, the snapshots readers take, and
    token counts.  Each [Arc] is written through [make_mut], so its value is the state's own.
    [None] is a panic of the truncation or of an overflow check. *)
From S2P Require Import Prelude RustInt RustStr TextTruncate ResponseItems Normalize RetainedContext ContextFragments TranscriptHistory TokenUsage History OutputTruncation.

Inductive GuardianContextMode := Legacy | ThreadOwned.
#[export] Instance GuardianContextMode_eq_dec : EqDecision GuardianContextMode.
Proof. solve_decision. Defined.

(** What of the source of a session is read; the details of the last two are not. *)
Inductive SessionSource := Cli | VSCode | Exec | Mcp | Custom (name : str) | Internal | SubAgent | UnknownSource.
Definition is_non_root_agent (source : SessionSource) : bool :=
  match source with Internal | SubAgent => true | _ => false end.

Inductive UserMessageSource := Original | Checkpoint.

(** The baselines the next turn is compared with, which are only kept here. *)
Class Baselines := { TurnContextItem : Type; WorldStateSnapshot : Type }.

Definition GUARDIAN_MAX_ROOT_MESSAGE_TOKENS : N := 900.

(** [guardian_truncate_text]. *)
Definition guardian_truncate_text (content : str) (token_cap : N) : str * bool :=
  (truncate_review_text content token_cap, (approx_bytes_for_tokens token_cap <? slen content)%N).

(** ** Annotations of the user's input *)

Definition content_text (c : ContentItem) : option str :=
  match c with InputText text | OutputText text => Some text | _ => None end.
Definition joined_text (content : list ContentItem) : str := join [c_nl] (omap content_text content).

(** Every content item is a text classified as the user's own. *)
Definition annotated_by_user `{Opaque} (content : list ContentItem) (meta : option MessageMetadata) : bool :=
  match meta ≫= content_item_kinds with
  | Some kinds => (length kinds =? length content) && forallb (starts_with (lit "user.")) kinds
  | None => false
  end.

Section manager.
Context `{Opaque, FragmentReaders, JsonSizes, Baselines} {Sizes : ItemSizes} `{ItemEq : !EqDecision ResponseItem} `{MediaReaders}.
(** The [f64] product of [with_serialization_allowance]. *)
Context (debug_assertions : bool) (with_serialization_allowance : TruncationPolicy → TruncationPolicy).
#[local] Existing Instance storage_limits.

Record ContextManager := mkManager {
  manager_items : list ResponseItemEnvelope;
  review_history : option TranscriptHistory;
  manager_retained : RetainedContext;
  guardian_context_mode : GuardianContextMode;
  retain_inherited_user_messages : bool;
  history_version : N;
  user_message_revision : N;
  token_info : option TokenUsageInfo;
  reference_context_item : option TurnContextItem;
  world_state_baseline : option WorldStateSnapshot;
}.
Implicit Types (m : ContextManager) (e : ResponseItemEnvelope) (es : list ResponseItemEnvelope) (i : ResponseItem).

(** ** Writing the fields *)

Definition set_items es m : ContextManager :=
  mkManager es (review_history m) (manager_retained m) (guardian_context_mode m) (retain_inherited_user_messages m)
    (history_version m) (user_message_revision m) (token_info m) (reference_context_item m) (world_state_baseline m).
Definition set_review (h : option TranscriptHistory) m : ContextManager :=
  mkManager (manager_items m) h (manager_retained m) (guardian_context_mode m) (retain_inherited_user_messages m)
    (history_version m) (user_message_revision m) (token_info m) (reference_context_item m) (world_state_baseline m).
Definition set_retained (c : RetainedContext) m : ContextManager :=
  mkManager (manager_items m) (review_history m) c (guardian_context_mode m) (retain_inherited_user_messages m)
    (history_version m) (user_message_revision m) (token_info m) (reference_context_item m) (world_state_baseline m).
Definition bump_version m : ContextManager :=
  mkManager (manager_items m) (review_history m) (manager_retained m) (guardian_context_mode m) (retain_inherited_user_messages m)
    (sat_add (history_version m) 1) (user_message_revision m) (token_info m) (reference_context_item m) (world_state_baseline m).
Definition bump_revision m : ContextManager :=
  mkManager (manager_items m) (review_history m) (manager_retained m) (guardian_context_mode m) (retain_inherited_user_messages m)
    (history_version m) (sat_add (user_message_revision m) 1) (token_info m) (reference_context_item m) (world_state_baseline m).
Definition set_token_info (info : option TokenUsageInfo) m : ContextManager :=
  mkManager (manager_items m) (review_history m) (manager_retained m) (guardian_context_mode m) (retain_inherited_user_messages m)
    (history_version m) (user_message_revision m) info (reference_context_item m) (world_state_baseline m).
Definition set_reference_context_item (reference : option TurnContextItem) m : ContextManager :=
  mkManager (manager_items m) (review_history m) (manager_retained m) (guardian_context_mode m) (retain_inherited_user_messages m)
    (history_version m) (user_message_revision m) (token_info m) reference (world_state_baseline m).
Definition set_baseline (baseline : option WorldStateSnapshot) m : ContextManager :=
  mkManager (manager_items m) (review_history m) (manager_retained m) (guardian_context_mode m) (retain_inherited_user_messages m)
    (history_version m) (user_message_revision m) (token_info m) (reference_context_item m) baseline.

(** ** Creation *)

(** [new]: no usage has been reported. *)
Definition new_manager : ContextManager := mkManager [] None empty_context Legacy false 0 0 None None None.
Definition with_guardian_context_mode (mode : GuardianContextMode) (source : SessionSource) : ContextManager :=
  mkManager [] None empty_context mode (bool_decide (mode = ThreadOwned) && negb (is_non_root_agent source)) 0 0 None None None.

Definition raw_items m : list ResponseItem := item <$> manager_items m.

(** ** Snapshots ([SharedConversationHistory]) *)

Record SharedConversationHistory := mkShared {
  shared_items : list ResponseItemEnvelope;
  shared_review_history : option TranscriptHistory;
  shared_retained_context : RetainedContext;
  shared_mode : GuardianContextMode;
  shared_history_version : N;
  shared_user_message_revision : N;
}.

Definition conversation_history_snapshot m : SharedConversationHistory :=
  mkShared (manager_items m) (review_history m) (manager_retained m) (guardian_context_mode m) (history_version m) (user_message_revision m).

Definition is_compaction e : bool := match item e with Compaction _ _ _ | ContextCompaction _ _ _ => true | _ => false end.

Definition latest_compaction_model_hash (s : SharedConversationHistory) : option str :=
  '(_, e) ← list_find (λ e, is_compaction e = true) (reverse (shared_items s));
  metadata e ≫= compaction_model_hash.
Definition snapshot_retained_context (s : SharedConversationHistory) : option RetainedContext :=
  if bool_decide (shared_mode s = ThreadOwned) then Some (shared_retained_context s) else None.
(** Not the context the host injects for the user. *)
Definition without_context (its : list ResponseItem) : list ResponseItem :=
  filter (λ i, is_contextual_user_message i = false) its.
Definition snapshot_items (s : SharedConversationHistory) : list ResponseItem := without_context (item <$> shared_items s).
Definition review_items (s : SharedConversationHistory) : list ResponseItem :=
  match shared_review_history s with Some h => transcript_items h | None => snapshot_items s end.
Definition review_history_version (s : SharedConversationHistory) : N :=
  from_option generation (shared_history_version s) (shared_review_history s).

(** ** Evidence *)

Definition reserve_input_order m : ContextManager * N :=
  let '(c, order) := reserve_order (manager_retained m) in (set_retained c m, order).

Definition record_retained_context (event : RetainedContextEvent) m : ContextManager * bool :=
  let '(c, recorded) := record event (manager_retained m) in
  let m := set_retained c m in
  if negb recorded then (m, false) else (bump_revision m, true).

Definition record_user_authorization i (metadata : option CodexHarnessMetadata) (source : UserMessageSource) m : ContextManager :=
  if negb (is_user_authorization_message i) then m
  else
    let inherited := from_option inherited_user_message false metadata in
    let m :=
      match guardian_context_mode m with
      | Legacy => set_retained (mark_user_messages_incomplete (manager_retained m)) m
      | ThreadOwned =>
          match i with
          | Message _ _ content _ meta =>
              if negb inherited || retain_inherited_user_messages m then
                let original := match source with Original => true | Checkpoint => false end in
                let complete := original && annotated_by_user content meta && forallb is_text content in
                let '(text, truncated) := guardian_truncate_text (joined_text content) GUARDIAN_MAX_ROOT_MESSAGE_TOKENS in
                set_retained
                  (record_user_message (mkMessage (default [] (turn_id i)) (item_id i) text (complete && negb truncated))
                     (input_source metadata) (manager_retained m)) m
              else m
          | _ => m
          end
      end in
    bump_revision m.

(** [GuardianHistoryCheckpoint]: the items of a review history. *)
Definition guardian_history_checkpoint m : option (list ResponseItem) :=
  if bool_decide (guardian_context_mode m = ThreadOwned) then None else transcript_items <$> review_history m.

Definition is_inherited e : bool := from_option inherited_user_message false (metadata e).

Definition restore_retained_context (checkpoint : option RetainedContext) m : ContextManager :=
  let m := set_retained (restore checkpoint (manager_items m)) m in
  if retain_inherited_user_messages m && negb (has_inherited_user_messages (manager_retained m)) then
    foldl (λ m e, record_user_authorization (item e) (metadata e) Checkpoint m) m
      (filter (λ e, is_inherited e = true) (manager_items m))
  else m.

(** The excerpt of a message found by its id, in the checkpoint first. *)
Definition excerpt_for_id (checkpoint : option (list ResponseItem)) (its : list ResponseItem) (id : str) : option str :=
  '(_, original) ← list_find (λ i, item_id i = Some id) (default [] checkpoint ++ its);
  text ← user_turn_message original;
  Some (guardian_truncate_text text GUARDIAN_MAX_ROOT_MESSAGE_TOKENS).1.

Definition restore_review_context (retained : option RetainedContext) (checkpoint : option (list ResponseItem)) m : ContextManager :=
  let m := restore_retained_context retained m in
  match guardian_context_mode m with
  | ThreadOwned =>
      set_review None
        (set_retained (recover_user_message_excerpts (excerpt_for_id checkpoint (raw_items m)) (manager_retained m)) m)
  | Legacy =>
      let next := sat_add (from_option generation (history_version m) (review_history m)) 1 in
      set_review ((λ its, reset its (new_transcript next)) <$> checkpoint) m
  end.

(** ** Recording *)

(** The item with its output cut, under the limit of its metadata if it has one. *)
Definition history_policy (policy : TruncationPolicy) (metadata : option CodexHarnessMetadata) : TruncationPolicy :=
  from_option Tokens (with_serialization_allowance policy) (metadata ≫= history_truncation_token_limit).
Definition processed_item (policy : TruncationPolicy) i : option ResponseItem :=
  match i with
  | FunctionCallOutput id call_id name namespace output meta =>
      output ← truncate_function_output_payload estimate_audio_token_count output policy;
      Some (FunctionCallOutput id call_id name namespace output meta)
  | CustomToolCallOutput id call_id name output meta =>
      output ← truncate_function_output_payload estimate_audio_token_count output policy;
      Some (CustomToolCallOutput id call_id name output meta)
  | _ => Some i
  end.

Definition record_one (policy : TruncationPolicy) m e : option ContextManager :=
  if negb (is_api_message (item e) (metadata e)) then Some m
  else
    processed ← processed_item (history_policy policy (metadata e)) (item e);
    let m := match review_history m with
             | Some h => if negb (is_contextual_user_message (item e)) then set_review (Some (record_item processed h)) m else m
             | None => m
             end in
    let m := set_items (manager_items m ++ [mkEnvelope processed (metadata e)]) m in
    Some (record_user_authorization (item e) (metadata e) Original m).

Fixpoint record_items_with_metadata es (policy : TruncationPolicy) m : option ContextManager :=
  match es with
  | [] => Some m
  | e :: es => m ← record_one policy m e; record_items_with_metadata es policy m
  end.
Definition record_annotated_items := record_items_with_metadata.
Definition record_items (its : list ResponseItem) : TruncationPolicy → ContextManager → option ContextManager :=
  record_items_with_metadata (envelope <$> its).

Definition manager_remove_first_item m : ContextManager :=
  if bool_decide (manager_items m = []) then m else set_baseline None (set_items (remove_first_item (manager_items m)) m).

(** ** Replacing *)

Definition replace_annotated es m : ContextManager :=
  let m := bump_revision (set_retained empty_context m) in
  let m := match review_history m with
           | Some h => set_review (Some (reset (without_context (item <$> es)) h)) m
           | None => m
           end in
  set_baseline None (bump_version (set_items es m)).

Definition replace_compacted es m : ContextManager :=
  let m :=
    match guardian_context_mode m, review_history m with
    | Legacy, None =>
        set_review (Some (foldl (λ h i, record_item i h) (new_transcript (sat_add (history_version m) 1)) (without_context (raw_items m)))) m
    | _, _ => m
    end in
  set_baseline None (bump_version (set_items es m)).

Inductive HistoryReplacement := ReplaceCompaction | ReplaceReset.
Definition replace_history (replacement : HistoryReplacement) es m : ContextManager :=
  match replacement with ReplaceCompaction => replace_compacted es m | ReplaceReset => replace_annotated es m end.

(** What the reconstruction of a rollout does with a compaction that kept no history: the
    items are those rebuilt, and the evidence is put back ([rollout_reconstruction.rs]). *)
Definition rebuild_compacted (rebuilt : list ResponseItemEnvelope) m : ContextManager :=
  restore_retained_context (Some (manager_retained m)) (replace_annotated rebuilt m).

(** ** Rolling turns back *)

Definition is_boundary_envelope e : bool := is_user_turn_boundary (item e).

(** The positions, counted from [index]. *)
Fixpoint positions_from (index : nat) es : list nat :=
  match es with
  | [] => []
  | e :: es => (if is_boundary_envelope e then [index] else []) ++ positions_from (S index) es
  end.
Definition user_message_positions es : list nat := positions_from 0 es.

(** The cut walked back over the context injected before it, and whether the reference
    context is lost. *)
Fixpoint trim_pre_turn_context_updates (snapshot : list ResponseItemEnvelope) (first cut : nat) : nat * bool :=
  if first <? cut then
    match cut with
    | 0 => (0, false)
    | S before =>
        match item <$> snapshot !! before with
        | Some (Message _ role content _ _) =>
            if bool_decide (role = lit "developer") && is_contextual_dev_message_content content then
              let '(cut, lost) := trim_pre_turn_context_updates snapshot first before in
              (cut, has_non_contextual_dev_message_content content || lost)
            else if bool_decide (role = lit "user") && is_contextual_user_message_content content then
              trim_pre_turn_context_updates snapshot first before
            else (cut, false)
        | _ => (cut, false)
        end
    end
  else (cut, false).

(** The fragments that the next step rebuilds: [ModelSwitchInstructions], [PersistentModeState]. *)
Definition is_rebuilt_fragment (c : ContentItem) : bool :=
  match c with
  | InputText text =>
      matches_marked_text (lit "<model_switch>") (lit "</model_switch>") text
      || matches_marked_text (lit "<persistent_mode>") (lit "</persistent_mode>") text
  | _ => false
  end.

Definition is_developer_message i : bool :=
  match i with Message _ role _ _ _ => bool_decide (role = lit "developer") | _ => false end.

(** A developer message of the first turn, which is all that is left of it; [None] is removed. *)
Definition retain_first_turn (first_turn_id : str) e : option ResponseItemEnvelope :=
  if bool_decide (turn_id (item e) = Some first_turn_id) && is_developer_message (item e) then
    '(i, content) ← to_annotated_content (item e);
    let content := filter (λ c, is_rebuilt_fragment c.1 = false) content in
    if bool_decide (content = []) then None else i ← set_annotated_content i content; Some (mkEnvelope i (metadata e))
  else Some e.

Definition is_call_of (a : VerifiedAnswer) e : bool :=
  bool_decide (turn_id (item e) = Some (answer_turn_id a))
  && match item e with FunctionCall _ _ _ _ _ call_id _ => bool_decide (call_id = answer_call_id a) | _ => false end.

(** [rposition]. *)
Definition rposition (p : ResponseItemEnvelope → bool) es : option nat :=
  (λ back, length es - 1 - back) <$> (fst <$> list_find (λ e, p e = true) (reverse es)).

(** The answers whose call is before the cut, or, without one, of a turn that stays. *)
Definition answer_survives es (cut : nat) (removed_turns : list str) (a : VerifiedAnswer) : bool :=
  match rposition (is_call_of a) es with
  | Some source_index => source_index <? cut
  | None => negb (bool_decide (answer_turn_id a ∈ removed_turns))
  end.

Definition retained_items (snapshot : list ResponseItemEnvelope) (first cut : nat) : list ResponseItemEnvelope :=
  let kept := take cut snapshot in
  if cut =? first then
    match snapshot !! first ≫= (λ e, turn_id (item e)) with
    | Some first_turn_id => omap (retain_first_turn first_turn_id) kept
    | None => kept
    end
  else kept.

(** The tentative cut: the position of the first boundary to drop. *)
Definition rollback_cut (positions : list nat) (first num_turns : nat) : nat :=
  if length positions <=? num_turns then first else nth (length positions - num_turns) positions 0.

Definition drop_last_n_user_turns (num_turns : nat) m : ContextManager :=
  if num_turns =? 0 then m
  else
    let snapshot := manager_items m in
    match user_message_positions snapshot with
    | [] => set_retained (manager_retained m) (replace_annotated snapshot m)
    | first :: _ =>
        let cut := rollback_cut (user_message_positions snapshot) first num_turns in
        match snapshot !! cut with
        | None => m (* the cut is a position of the snapshot *)
        | Some boundary =>
            let review := truncate_before (item boundary) <$> review_history m in
            let '(cut, lost) := trim_pre_turn_context_updates snapshot first cut in
            let m := if lost then set_reference_context_item None m else m in
            let removed_turns := omap (λ e, turn_id (item e)) (drop cut snapshot) in
            let retained :=
              match guardian_context_mode m with
              | ThreadOwned => rollback removed_turns (item_id (item boundary)) (input_source (metadata boundary)) (manager_retained m)
              | Legacy => retain_answers (answer_survives snapshot cut removed_turns) (manager_retained m)
              end in
            set_review review
              (set_retained retained (replace_annotated (retained_items snapshot first cut) (set_review None m)))
        end
    end.

(** ** Tokens *)

Definition update_token_info (usage : TokenUsage) (window : option Z) m : option ContextManager :=
  info ← new_or_append debug_assertions (token_info m) (Some usage) window;
  Some (set_token_info info m).
Definition set_token_usage_full (context_window : Z) m : option ContextManager :=
  info ← match token_info m with
         | Some info => fill_to_context_window debug_assertions context_window info
         | None => full_context_window debug_assertions context_window
         end;
  Some (set_token_info (Some info) m).

(** [None] is never given; the code returns an [Option]. *)
Definition estimate_token_count_with_base_instructions (base_instructions : str) m : option Z :=
  let base_tokens := to_i64 (approx_token_count base_instructions) in
  Some (i64_sat (base_tokens + sum_estimates (raw_items m))).

Definition has_encrypted_reasoning i : bool :=
  match i with Reasoning _ _ _ (Some _) _ => true | _ => false end.
Definition get_non_last_reasoning_items_tokens m : Z :=
  match rposition is_boundary_envelope (manager_items m) with
  | None => 0%Z
  | Some last_user_index =>
      sum_estimates (filter (λ i, has_encrypted_reasoning i = true) (item <$> take last_user_index (manager_items m)))
  end.
Definition estimated_tokens_after_last_model_generated_item m : Z :=
  sum_estimates (items_after_last_model_generated_item (manager_items m)).
Definition get_total_token_usage (server_reasoning_included : bool) m : Z :=
  let last_tokens := from_option (λ info, total_tokens (last_token_usage info)) 0%Z (token_info m) in
  let after := estimated_tokens_after_last_model_generated_item m in
  if server_reasoning_included then i64_sat (last_tokens + after)
  else i64_sat (i64_sat (last_tokens + get_non_last_reasoning_items_tokens m) + after).
End manager.

(** * Rolling back *)

Section rollback_facts.
Context `{Opaque, FragmentReaders, JsonSizes, Baselines} {Sizes : ItemSizes} `{ItemEq : !EqDecision ResponseItem}.
Implicit Types (m : ContextManager) (e : ResponseItemEnvelope) (es : list ResponseItemEnvelope) (i : ResponseItem).

(** ** Positions of the boundaries *)

Definition boundaries es : list ResponseItemEnvelope := filter (λ e, is_boundary_envelope e = true) es.
Definition turn_boundaries m : list ResponseItemEnvelope := boundaries (manager_items m).

Lemma boundaries_app es es' : boundaries (es ++ es') = boundaries es ++ boundaries es'.
Proof. apply filter_app. Qed.

Lemma boundaries_cons e es : boundaries (e :: es) = (if is_boundary_envelope e then [e] else []) ++ boundaries es.
Proof. unfold boundaries. rewrite filter_cons. by destruct (is_boundary_envelope e). Qed.

Lemma boundaries_none es : Forall (λ e, is_boundary_envelope e = false) es → boundaries es = [].
Proof. induction 1 as [|e es He _ IH]; [done|]. by rewrite boundaries_cons, He, IH. Qed.

Lemma length_positions k es : length (positions_from k es) = length (boundaries es).
Proof.
  revert k. induction es as [|e es IH]; intros k; [done|]. rewrite boundaries_cons. simpl. rewrite !length_app, IH.
  by destruct (is_boundary_envelope e).
Qed.

Lemma positions_app k es es' : positions_from k (es ++ es') = positions_from k es ++ positions_from (k + length es) es'.
Proof.
  revert k. induction es as [|e es IH]; intros k; simpl; [by rewrite Nat.add_0_r|]. rewrite IH, app_assoc.
  by replace (S k + length es) with (k + S (length es)) by lia.
Qed.

(** The positions in a prefix are the first ones. *)
Lemma positions_prefix c es : user_message_positions (take c es) = take (length (boundaries (take c es))) (user_message_positions es).
Proof.
  unfold user_message_positions. rewrite <- (length_positions 0).
  rewrite <- (take_drop c es) at 3. rewrite positions_app, take_app_length'; done.
Qed.

Lemma positions_lookup k es j p : positions_from k es !! j = Some p →
  k ≤ p ∧ ∃ e, es !! (p - k) = Some e ∧ boundaries es !! j = Some e ∧ boundaries (take (p - k) es) = take j (boundaries es).
Proof.
  revert k j. induction es as [|e es IH]; intros k j; [by rewrite lookup_nil|]. rewrite boundaries_cons. simpl.
  destruct (is_boundary_envelope e) eqn:He; simpl.
  - destruct j as [|j]; simpl.
    + intros [= <-]. rewrite Nat.sub_diag. split; [done|]. exists e. done.
    + intros (Hk & x & Hx & Hb & Ht)%IH. split; [lia|]. replace (p - k) with (S (p - S k)) by lia. exists x. simpl.
      rewrite boundaries_cons, He. simpl. by rewrite Ht.
  - intros (Hk & x & Hx & Hb & Ht)%IH. split; [lia|]. replace (p - k) with (S (p - S k)) by lia. exists x. simpl.
    by rewrite boundaries_cons, He.
Qed.

Lemma position_at es j p : user_message_positions es !! j = Some p →
  ∃ e, es !! p = Some e ∧ boundaries es !! j = Some e ∧ boundaries (take p es) = take j (boundaries es).
Proof. intros (_ & H4)%positions_lookup. by rewrite Nat.sub_0_r in H4. Qed.

(** ** Context around a turn *)

Lemma developer_not_boundary i : is_developer_message i = true → is_user_turn_boundary i = false.
Proof. destruct i; try done. simpl. rewrite bool_decide_eq_true. by intros ->. Qed.

Lemma context_not_boundary i : is_contextual_user_message i = true → is_user_turn_boundary i = false.
Proof. destruct i; try done. simpl. intros [->%bool_decide_eq_true ->]%andb_true_iff. done. Qed.

Lemma trim_le es first cut c lost : trim_pre_turn_context_updates es first cut = (c, lost) → c ≤ cut.
Proof.
  revert c lost. induction cut as [|before IH]; intros c lost; cbn [trim_pre_turn_context_updates].
  { destruct (first <? 0); by intros [= <- <-]. }
  assert ((S before, false) = (c, lost) → c ≤ S before) as Hstop by by intros [= <- _].
  destruct (first <? S before); [|done]. destruct (item <$> es !! before) as [[]|]; try done.
  destruct (_ && is_contextual_dev_message_content _).
  - destruct (trim_pre_turn_context_updates es first before) as [c' l]. intros [= <- _]. specialize (IH _ _ eq_refl). lia.
  - destruct (_ && is_contextual_user_message_content _); [|done]. intros H'%IH. lia.
Qed.

Lemma trim_spec es first cut c lost : first ≤ cut ≤ length es →
  (∀ e, es !! first = Some e → is_boundary_envelope e = true) →
  trim_pre_turn_context_updates es first cut = (c, lost) →
  first ≤ c ≤ cut ∧ (first < cut → first < c) ∧ boundaries (take c es) = boundaries (take cut es).
Proof.
  intros Hcut Hfirst. revert c lost. induction cut as [|before IH]; intros c lost; cbn [trim_pre_turn_context_updates].
  - rewrite (proj2 (Nat.ltb_ge first 0)) by lia. intros [= <- <-]. split_and!; (done || lia).
  - destruct (first <? S before) eqn:Hlt; [|intros [= <- <-]; apply Nat.ltb_ge in Hlt; split_and!; (done || lia)].
    apply Nat.ltb_lt in Hlt. destruct (lookup_lt_is_Some_2 es before) as [e He]; [lia|]. rewrite He. simpl.
    assert (∀ c lost, is_user_turn_boundary (item e) = false → trim_pre_turn_context_updates es first before = (c, lost) →
      first ≤ c ≤ S before ∧ (first < S before → first < c) ∧ boundaries (take c es) = boundaries (take (S before) es)) as Hstep.
    { intros c' lost' Hb Ht. assert (first ≠ before) as Hne.
      { intros ->. apply Hfirst in He. unfold is_boundary_envelope in He. congruence. }
      apply IH in Ht as (? & ? & Hbd); [|lia]. split_and!; [lia|lia|lia|]. rewrite Hbd.
      erewrite (take_S_r es before) by done. rewrite boundaries_app, boundaries_cons. unfold is_boundary_envelope. rewrite Hb.
      by rewrite !app_nil_r. }
    assert ((S before, false) = (c, lost) → first ≤ c ≤ S before ∧ (first < S before → first < c) ∧ boundaries (take c es) = boundaries (take (S before) es)) as Hstop.
    { intros [= <- <-]. split_and!; (done || lia). }
    destruct (item e) as [|id role content phase meta| | | | | | | | | | | | | | | |] eqn:Hi; try exact Hstop.
    destruct (_ && is_contextual_dev_message_content _) eqn:Hd.
    + destruct (trim_pre_turn_context_updates es first before) as [c' lost'] eqn:Ht. intros [= <- _].
      eapply Hstep; [|done]. apply developer_not_boundary. by apply andb_true_iff in Hd as [? _].
    + destruct (_ && is_contextual_user_message_content _) eqn:Hu; [|exact Hstop].
      apply Hstep. by apply context_not_boundary.
Qed.

(** Only what is before the cut is looked at. *)
Lemma trim_take es n first cut : cut ≤ n →
  trim_pre_turn_context_updates (take n es) first cut = trim_pre_turn_context_updates es first cut.
Proof.
  induction cut as [|before IH]; intros Hn; [done|]. simpl. rewrite lookup_take_lt by lia. by rewrite IH by lia.
Qed.

Lemma retain_first_turn_boundary t e e' : is_boundary_envelope e = false → retain_first_turn t e = Some e' → is_boundary_envelope e' = false.
Proof.
  intros He. unfold retain_first_turn. destruct (_ && is_developer_message _) eqn:Hd; [|by intros [= <-]].
  apply andb_true_iff in Hd as [_ Hd]. intros ([i content] & Hi & Hc)%bind_Some. destruct (bool_decide _); [done|].
  apply bind_Some in Hc as (i' & Hi' & [= <-]). apply developer_not_boundary.
  destruct (item e); try done. injection Hi as <- _. by injection Hi' as <-.
Qed.

(** ** The items that stay *)

Definition rolled_back (n : nat) es : list ResponseItemEnvelope :=
  if n =? 0 then es
  else match user_message_positions es with
       | [] => es
       | first :: _ =>
           retained_items es first
             (trim_pre_turn_context_updates es first (rollback_cut (user_message_positions es) first n)).1
       end.

(** The first boundary to drop, and its position. *)
Lemma rollback_cut_at es first rest n : user_message_positions es = first :: rest → n ≠ 0 →
  user_message_positions es !! (length (boundaries es) - n) = Some (rollback_cut (user_message_positions es) first n).
Proof.
  intros Hp Hn. rewrite <- (length_positions 0). fold (user_message_positions es). unfold rollback_cut.
  destruct (_ <=? n) eqn:Hle.
  - apply Nat.leb_le in Hle. rewrite Hp in *. replace (_ - n) with 0 by lia. done.
  - apply Nat.leb_gt in Hle. destruct (lookup_lt_is_Some_2 (user_message_positions es) (length (user_message_positions es) - n)) as [p Hlk]; [lia|].
    rewrite Hlk. f_equal. symmetry. by apply nth_lookup_Some.
Qed.

(** The two ways a rollback goes: all turns go, or a prefix with the first turns stays. *)
Lemma rolled_back_cases n es : let count := length (boundaries es) in
  (n = 0 ∨ count = 0) ∧ rolled_back n es = es ∨
  (0 < count ≤ n ∧ boundaries (rolled_back n es) = [] ∧
    ∃ first, user_message_positions es !! 0 = Some first ∧ rolled_back n es = retained_items es first first) ∨
  0 < n < count ∧ ∃ first cut c lost, user_message_positions es !! 0 = Some first ∧ user_message_positions es !! (count - n) = Some cut ∧
    trim_pre_turn_context_updates es first cut = (c, lost) ∧ first < c ≤ cut ∧ cut < length es ∧
    rolled_back n es = take c es ∧ boundaries (take c es) = take (count - n) (boundaries es).
Proof.
  intros count. unfold rolled_back. destruct (n =? 0) eqn:Hn; [left; apply Nat.eqb_eq in Hn; auto|]. apply Nat.eqb_neq in Hn.
  pose proof (length_positions 0 es) as Hlen. fold (user_message_positions es) count in Hlen.
  destruct (user_message_positions es) as [|first rest] eqn:Hp; [left; simpl in Hlen; auto|].
  right. pose proof (rollback_cut_at es first rest n Hp Hn) as Hcut. rewrite Hp in Hcut. fold count in Hcut.
  assert (user_message_positions es !! 0 = Some first) as Hp0 by by rewrite Hp.
  destruct (position_at es 0 first Hp0) as (e0 & He0 & Hb0 & Ht0).
  set (cut := rollback_cut (first :: rest) first n) in *. rewrite <- Hp in Hcut.
  destruct (position_at es _ cut Hcut) as (e & He & Hb & Ht). apply lookup_lt_Some in He as Hlt.
  assert (∀ e, es !! first = Some e → is_boundary_envelope e = true) as Hfirst.
  { intros x Hx. rewrite He0 in Hx. injection Hx as <-. apply list_elem_of_lookup_2, list_elem_of_filter in Hb0. by destruct Hb0. }
  assert (first ≤ cut) as Hfc.
  { destruct (decide (cut < first)) as [Hc|]; [|lia]. exfalso.
    enough (boundaries (take first es) ≠ []) as Hnil by (apply Hnil; by rewrite Ht0).
    apply (elem_of_not_nil e), list_elem_of_filter. split.
    - apply list_elem_of_lookup_2, list_elem_of_filter in Hb. by destruct Hb.
    - apply (list_elem_of_lookup_2 _ cut). by rewrite lookup_take_lt. }
  destruct (trim_pre_turn_context_updates es first cut) as [c lost] eqn:Htrim. cbn [fst].
  destruct (trim_spec es first cut c lost ltac:(lia) Hfirst Htrim) as (Hc & Hc' & Hbc).
  destruct (decide (count ≤ n)) as [Hge|Hlt'].
  - left. split; [simpl in Hlen; lia|]. assert (cut = first) as ->.
    { replace (count - n) with 0 in Hcut by lia. congruence. }
    assert (c = first) as -> by lia. split; [|by exists first].
    unfold retained_items. rewrite Nat.eqb_refl. simpl in Ht0. destruct (_ ≫= _) as [t|]; [|done].
    apply boundaries_none. apply Forall_forall. intros x (y & Hy & Hr)%list_elem_of_omap.
    eapply retain_first_turn_boundary; [|exact Hr]. destruct (is_boundary_envelope y) eqn:Hby; [|done]. exfalso.
    assert (y ∈ boundaries (take first es)) as Hin by by apply list_elem_of_filter. rewrite Ht0 in Hin. by apply elem_of_nil in Hin.
  - right. split; [lia|]. assert (first < cut) as Hne.
    { destruct (decide (first = cut)) as [<-|]; [|lia]. exfalso. rewrite Ht0 in Ht. apply (f_equal length) in Ht.
      rewrite !length_take in Ht. lia. }
    exists first, cut, c, lost. split_and!; [done|by rewrite <- Hp|done|by apply Hc'|lia|done| |by rewrite Hbc].
    unfold retained_items. destruct (c =? first) eqn:Ecf; [apply Nat.eqb_eq in Ecf; lia|done].
Qed.

Lemma boundaries_rolled_back n es : boundaries (rolled_back n es) = take (length (boundaries es) - n) (boundaries es).
Proof.
  destruct (rolled_back_cases n es) as [[Hn ->]|[(Hn & Hb & _)|(_ & first & cut & c & lost & _ & _ & _ & _ & _ & -> & ->)]]; [| |done].
  - destruct Hn as [->|Hn]; [by rewrite take_ge by lia|]. apply length_zero_iff_nil in Hn. by rewrite Hn.
  - rewrite Hb. by replace (_ - n) with 0 by lia.
Qed.

(** Rolling back twice is rolling back once by the sum. *)
Lemma rolled_back_add n k es : rolled_back k (rolled_back n es) = rolled_back (n + k) es.
Proof.
  set (count := length (boundaries es)).
  destruct (rolled_back_cases n es) as [[Hn ->]|[(Hn & Hb & first & Hf & He)|(Hn & first & cut & c & lost & Hf & Hcut & _ & Hc & Hlt & He & Hb)]].
  - destruct Hn as [->|Hn]; [done|]. unfold rolled_back. rewrite <- (length_positions 0) in Hn. fold (user_message_positions es) in Hn.
    apply length_zero_iff_nil in Hn. rewrite Hn. by destruct (k =? 0), (n + k =? 0).
  - assert (rolled_back (n + k) es = rolled_back n es) as ->.
    { destruct (rolled_back_cases (n + k) es) as [[? _]|[(_ & _ & first' & Hf' & ->)|[? _]]]; [lia| |lia]. rewrite He. congruence. }
    destruct (rolled_back_cases k (rolled_back n es)) as [[_ ?]|[[? _]|[? _]]]; [done|rewrite Hb in *; simpl in *; lia..].
  - fold count in Hn, Hcut, Hb. rewrite He. assert (length (boundaries (take c es)) = count - n) as Hl by (rewrite Hb, length_take; lia).
    assert (user_message_positions (take c es) = take (count - n) (user_message_positions es)) as Hp by by rewrite positions_prefix, Hl.
    assert (∀ j, j < count - n → user_message_positions (take c es) !! j = user_message_positions es !! j) as Hpj.
    { intros j Hj. rewrite Hp. by apply lookup_take_lt. }
    destruct (rolled_back_cases k (take c es)) as [[Hk ->]|[(Hk & _ & first' & Hf' & ->)|(Hk & first' & cut' & c' & lost' & Hf' & Hcut' & Ht' & Hc' & _ & -> & _)]].
    + destruct Hk as [->|Hk]; [by rewrite Nat.add_0_r|lia].
    + rewrite Hpj, Hf in Hf' by lia. injection Hf' as <-.
      destruct (rolled_back_cases (n + k) es) as [[? _]|[(_ & _ & first' & Hf' & ->)|[? _]]]; [lia| |lia].
      assert (first' = first) as -> by congruence. unfold retained_items. rewrite Nat.eqb_refl, take_take, Nat.min_l by lia.
      by rewrite lookup_take_lt by lia.
    + rewrite Hl in Hk, Hcut'. rewrite Hpj, Hf in Hf' by lia. injection Hf' as <-. rewrite Hpj in Hcut' by lia.
      destruct (rolled_back_cases (n + k) es) as [[? _]|[[? _]|(_ & first' & cut2 & c2 & lost2 & Hf2 & Hcut2 & Ht2 & _ & _ & -> & _)]]; [lia|lia|].
      assert (first' = first) as -> by congruence. fold count in Hcut2. replace (count - (n + k)) with (count - n - k) in Hcut2 by lia.
      assert (cut2 = cut') as -> by congruence.
      assert (cut' < c) as Hcc.
      { assert (user_message_positions (take c es) !! (count - n - k) = Some cut') as Hin by (rewrite Hpj by lia; done).
        apply position_at in Hin as (x & Hx%lookup_lt_Some & _). rewrite length_take in Hx. lia. }
      rewrite trim_take in Ht' by lia. rewrite take_take, Nat.min_l by lia. congruence.
Qed.
(** ** The whole operation *)

(** What a rollback does: nothing, a reset that keeps the evidence, or a cut at a boundary. *)
Lemma drop_cases n m :
  n = 0 ∧ drop_last_n_user_turns n m = m ∨
  (n ≠ 0 ∧ turn_boundaries m = [] ∧
    drop_last_n_user_turns n m = set_retained (manager_retained m) (replace_annotated (manager_items m) m)) ∨
  n ≠ 0 ∧ ∃ e cut lost removed_turns, turn_boundaries m !! (length (turn_boundaries m) - n) = Some e ∧
    let m0 := if lost : bool then set_reference_context_item None m else m in
    drop_last_n_user_turns n m =
      set_review (truncate_before (item e) <$> review_history m)
        (set_retained
           match guardian_context_mode m with
           | ThreadOwned => rollback removed_turns (item_id (item e)) (input_source (metadata e)) (manager_retained m)
           | Legacy => retain_answers (answer_survives (manager_items m) cut removed_turns) (manager_retained m)
           end
           (replace_annotated (rolled_back n (manager_items m)) (set_review None m0))).
Proof.
  unfold drop_last_n_user_turns, rolled_back, turn_boundaries. destruct (n =? 0) eqn:Hn; [left; by apply Nat.eqb_eq in Hn|].
  apply Nat.eqb_neq in Hn. right. destruct (user_message_positions (manager_items m)) as [|first rest] eqn:Hp.
  - left. split_and!; [done| |done]. apply length_zero_iff_nil. rewrite <- (length_positions 0).
    fold (user_message_positions (manager_items m)). by rewrite Hp.
  - right. split; [done|]. pose proof (rollback_cut_at _ first rest n Hp Hn) as Hcut.
    destruct (position_at _ _ _ Hcut) as (e & He & Hb & _). rewrite Hp in He. rewrite He.
    destruct (trim_pre_turn_context_updates (manager_items m) first _) as [c lost]. cbn [fst].
    exists e, c, lost, (omap (λ e, turn_id (item e)) (drop c (manager_items m))). split; [done|].
    by destruct lost.
Qed.

Lemma items_drop n m : manager_items (drop_last_n_user_turns n m) = rolled_back n (manager_items m).
Proof.
  destruct (drop_cases n m) as [[-> ->]|[(Hn & Hb & ->)|(_ & e & cut & lost & ts & _ & ->)]].
  - done.
  - assert (rolled_back n (manager_items m) = manager_items m) as ->; [|by destruct m as [? []]].
    destruct (rolled_back_cases n (manager_items m)) as [[_ ?]|[[? _]|[? _]]]; [done|..];
      unfold turn_boundaries in Hb; rewrite Hb in *; simpl in *; lia.
  - by destruct lost.
Qed.

(** An entry of either family. *)
Lemma ordered_entries_elem c x : x ∈ ordered_entries c ↔
  (∃ a, a ∈ verified_answers c ∧ x = (key a, EntryVerifiedAnswer (value a))) ∨
  (∃ u, u ∈ user_messages c ∧ x = (key u, EntryUserMessage (value u))).
Proof.
  unfold ordered_entries. rewrite sort_by_perm. unfold entries_of. rewrite elem_of_app, !list_elem_of_fmap. naive_solver.
Qed.

Lemma rollback_entries turn_ids first_removed o c x :
  x ∈ ordered_entries (rollback turn_ids first_removed (Local (Some o)) c) ↔
  x ∈ ordered_entries c ∧ key_ltb x.1 (KeyLocal o) = true.
Proof.
  rewrite !ordered_entries_elem. simpl. setoid_rewrite list_elem_of_filter. naive_solver.
Qed.

(** *** What a rollback takes away *)

(** Context injected before a turn: a developer or user message with a contextual fragment. *)
Definition pre_turn_update e : bool :=
  match item e with
  | Message _ role content _ _ =>
      (bool_decide (role = lit "developer") && is_contextual_dev_message_content content)
      || (bool_decide (role = lit "user") && is_contextual_user_message_content content)
  | _ => false
  end.

(** A developer message that holds more than contextual fragments. *)
Definition mixed_update e : bool :=
  is_developer_message (item e)
  && match item e with Message _ _ content _ _ => has_non_contextual_dev_message_content content | _ => false end.

(** What precedes the first turn, when it goes: of the developer messages of that turn the
    fragments the next step rebuilds go, and the message with its last part; all else stays. *)
Inductive pruned (t : option str) : list ResponseItemEnvelope → list ResponseItemEnvelope → Prop :=
| pruned_nil : pruned t [] []
| pruned_other e es es' :
    ¬ (is_Some t ∧ turn_id (item e) = t ∧ is_developer_message (item e) = true) → pruned t es es' → pruned t (e :: es) (e :: es')
| pruned_gone e es es' id role content phase meta :
    turn_id (item e) = t → item e = Message id role content phase meta →
    Forall (λ c, is_rebuilt_fragment c = true) content → pruned t es es' → pruned t (e :: es) es'
| pruned_part e es es' id role content phase meta meta' :
    turn_id (item e) = t → item e = Message id role content phase meta → role = lit "developer" →
    filter (λ c, is_rebuilt_fragment c = false) content ≠ [] → pruned t es es' →
    pruned t (e :: es)
      (mkEnvelope (Message id role (filter (λ c, is_rebuilt_fragment c = false) content) phase meta') (metadata e) :: es').

(** The same item for the review: of the same id, or equal. *)
Definition same_item (i i' : ResponseItem) : Prop := (∃ id, item_id i = Some id ∧ item_id i' = Some id) ∨ i = i'.

Lemma is_boundary_spec i (x : ResponseItem * N) : is_boundary i x = true ↔ same_item i x.1.
Proof.
  unfold is_boundary, same_item. rewrite orb_true_iff, bool_decide_eq_true.
  destruct (item_id x.1), (item_id i); rewrite ?bool_decide_eq_true; naive_solver.
Qed.

Lemma truncate_before_exact boundary h : let h' := truncate_before boundary h in
  Forall (λ x, ¬ same_item boundary x.1) (transcript h') ∧
  ((∃ x after, transcript h = transcript h' ++ x :: after ∧ same_item boundary x.1) ∨
   transcript h' = [] ∧ Forall (λ x, ¬ same_item boundary x.1) (transcript h)).
Proof.
  unfold truncate_before. cbn [transcript]. destruct (list_find _ _) as [[j x]|] eqn:Hf; simpl.
  - apply list_find_Some in Hf as (Hj & Hx & Hbefore). split.
    + apply Forall_lookup. intros j' y (Hy & Hlt)%lookup_take_Some. rewrite <- is_boundary_spec. by eapply Hbefore.
    + left. exists x, (drop (S j) (transcript h)). split; [|by apply is_boundary_spec].
      by rewrite <- (take_drop_middle _ _ _ Hj) at 1.
  - split; [constructor|]. right. split; [done|]. apply list_find_None in Hf. eapply Forall_impl; [exact Hf|].
    intros x Hx. by rewrite <- is_boundary_spec.
Qed.

Lemma omap_pruned t es : pruned (Some t) es (omap (retain_first_turn t) es).
Proof.
  induction es as [|e es IH]; [constructor|]. cbn [omap list_omap]. unfold retain_first_turn at 1.
  destruct (bool_decide _ && _) eqn:Hd.
  - apply andb_true_iff in Hd as [Ht%bool_decide_eq_true Hd].
    destruct (item e) as [|id role content phase meta| | | | | | | | | | | | | | | |] eqn:Hi; try done. rewrite <- Hi in Ht.
    cbn [to_annotated_content mbind option_bind set_annotated_content].
    set (kinds := default [] (meta ≫= content_item_kinds)).
    assert ((filter (λ c, is_rebuilt_fragment c.1 = false) (annotate content kinds)).*1 = filter (λ c, is_rebuilt_fragment c = false) content) as Hfst.
    { rewrite <- (annotate_content content kinds) at 2. induction (annotate content kinds) as [|c l IH']; [done|].
      rewrite fmap_cons, !filter_cons. case_decide; [exact (f_equal (cons c.1) IH')|exact IH']. }
    case_bool_decide as Hnil.
    + eapply pruned_gone; [done|exact Hi| |done]. rewrite Hnil in Hfst. apply Forall_forall. intros c Hc.
      destruct (is_rebuilt_fragment c) eqn:Hr; [done|]. exfalso. apply (not_elem_of_nil c). simpl in Hfst. rewrite Hfst.
      by apply list_elem_of_filter.
    + change (fst <$> ?l) with (l.*1). rewrite Hfst. eapply pruned_part; [done|exact Hi| | |done].
      * by apply bool_decide_eq_true in Hd.
      * rewrite <- Hfst. intros Hx%fmap_nil_inv. done.
  - apply pruned_other; [|done]. intros (_ & Ht & Hdev). rewrite Ht, Hdev, bool_decide_true in Hd by done. done.
Qed.

Lemma pruned_refl es : pruned None es es.
Proof. induction es as [|e es IH]; constructor; [|done]. by intros [[? [=]] _]. Qed.

Lemma trim_exact es first cut c lost : cut ≤ length es → trim_pre_turn_context_updates es first cut = (c, lost) →
  Forall (λ e, pre_turn_update e = true) (drop c (take cut es)) ∧ lost = existsb mixed_update (drop c (take cut es)) ∧
  (first < c → ∀ e, last (take c es) = Some e → pre_turn_update e = false).
Proof.
  revert c lost. induction cut as [|before IH]; intros c lost Hcut; cbn [trim_pre_turn_context_updates].
  { destruct (first <? 0); intros [= <- <-]; (split_and!; [constructor|done|]); by intros. }
  destruct (first <? S before) eqn:Hlt.
  2: { intros [= <- <-]. rewrite drop_ge by (rewrite length_take; lia). split_and!; [constructor|done|]. apply Nat.ltb_ge in Hlt. lia. }
  destruct (lookup_lt_is_Some_2 es before) as [e He]; [lia|]. rewrite He. simpl fmap.
  assert (∀ c l, pre_turn_update e = true → trim_pre_turn_context_updates es first before = (c, l) →
    Forall (λ e, pre_turn_update e = true) (drop c (take (S before) es)) ∧ l || mixed_update e = existsb mixed_update (drop c (take (S before) es)) ∧
    (first < c → ∀ e, last (take c es) = Some e → pre_turn_update e = false)) as Hgo.
  { intros c' l He' Ht. destruct (IH c' l ltac:(lia) Ht) as (Hf & -> & Hl).
    assert (c' ≤ before) as Hc' by by eapply trim_le. rewrite (take_S_r es before e He), drop_app_le by (rewrite length_take; lia).
    split_and!; [|by rewrite existsb_app; simpl; rewrite orb_false_r|done]. apply Forall_app. split; [done|by apply Forall_singleton]. }
  assert (pre_turn_update e = false → (S before, false) = (c, lost) →
    Forall (λ e, pre_turn_update e = true) (drop c (take (S before) es)) ∧ lost = existsb mixed_update (drop c (take (S before) es)) ∧
    (first < c → ∀ e, last (take c es) = Some e → pre_turn_update e = false)) as Hstop.
  { intros Hn [= <- <-]. rewrite drop_ge by (rewrite length_take; lia). split_and!; [constructor|done|].
    intros _ x. rewrite (take_S_r es before e He), last_snoc. by intros [= <-]. }
  unfold pre_turn_update in Hgo, Hstop at 1. unfold mixed_update in Hgo at 1.
  destruct (item e) as [|id role content phase meta| | | | | | | | | | | | | | | |] eqn:Hi; try by apply Hstop.
  cbn [is_developer_message] in Hgo.
  destruct (bool_decide (role = lit "developer") && is_contextual_dev_message_content content) eqn:Hd.
  - destruct (trim_pre_turn_context_updates es first before) as [c' l'] eqn:Ht. intros [= <- <-].
    apply andb_true_iff in Hd as [Hd _]. rewrite Hd in Hgo. rewrite orb_comm. by apply Hgo.
  - destruct (bool_decide (role = lit "user") && _) eqn:Hu; [|by apply Hstop]. intros Ht.
    apply andb_true_iff in Hu as [->%bool_decide_eq_true _]. destruct (Hgo c lost eq_refl Ht) as (? & <- & ?).
    split_and!; [done|by rewrite orb_false_r|done].
Qed.

(** Where a rollback cuts, and what it takes of what precedes the cut. *)
Lemma drop_exact n m e : n ≠ 0 → turn_boundaries m !! (length (turn_boundaries m) - n) = Some e →
  let m' := drop_last_n_user_turns n m in
  ∃ before updates after, manager_items m = before ++ updates ++ e :: after ∧
    boundaries before = take (length (turn_boundaries m) - n) (turn_boundaries m) ∧
    Forall (λ x, pre_turn_update x = true) updates ∧
    (if length (turn_boundaries m) <=? n then updates = [] ∧ pruned (turn_id (item e)) before (manager_items m')
     else manager_items m' = before ∧ ∀ x, last before = Some x → pre_turn_update x = false) ∧
    reference_context_item m' = if existsb mixed_update updates then None else reference_context_item m.
Proof.
  intros Hn He m'. set (es := manager_items m) in *. unfold turn_boundaries in *. fold es in He |- *. set (count := length (boundaries es)) in *.
  assert (m' = drop_last_n_user_turns n m) as Hm' by done. clearbody m'. unfold drop_last_n_user_turns in Hm'.
  rewrite (proj2 (Nat.eqb_neq n 0) Hn) in Hm'. fold es in Hm'. pose proof (length_positions 0 es) as Hlen.
  fold (user_message_positions es) count in Hlen. apply lookup_lt_Some in He as Hcount. fold count in Hcount.
  destruct (user_message_positions es) as [|first rest] eqn:Hp; [simpl in Hlen; lia|].
  pose proof (rollback_cut_at es first rest n Hp Hn) as Hcut. rewrite Hp in Hcut. fold count in Hcut.
  set (cut := rollback_cut (first :: rest) first n) in *.
  assert (count ≤ n → cut = first) as Hall.
  { intros Hge. replace (count - n) with 0 in Hcut by lia. simpl in Hcut. congruence. }
  rewrite <- Hp in Hcut. destruct (position_at es _ cut Hcut) as (e' & He' & Hb & Ht). assert (e' = e) as -> by congruence.
  rewrite He' in Hm'. apply lookup_lt_Some in He' as Hlt. destruct (trim_pre_turn_context_updates es first cut) as [c lost] eqn:Htrim.
  assert (user_message_positions es !! 0 = Some first) as Hp0 by by rewrite Hp.
  destruct (position_at es 0 first Hp0) as (e0 & He0 & Hb0 & Ht0).
  assert (first ≤ cut) as Hfc.
  { destruct (decide (count ≤ n)) as [Hge|]; [by rewrite Hall|]. destruct (decide (cut < first)) as [Hc|]; [|lia]. exfalso.
    assert (boundaries (take cut es) `prefix_of` boundaries (take first es)) as Hpre%prefix_length.
    { replace (take cut es) with (take cut (take first es)) by (rewrite take_take; f_equal; lia).
      rewrite <- (take_drop cut (take first es)) at 2. rewrite boundaries_app. by apply prefix_app_r. }
    rewrite Ht, Ht0, !length_take in Hpre. fold count in Hpre. lia. }
  destruct (trim_exact es first cut c lost ltac:(lia) Htrim) as (Hup & Hlost & Hlast).
  assert (∀ e, es !! first = Some e → is_boundary_envelope e = true) as Hfirst.
  { intros x Hx. rewrite He0 in Hx. injection Hx as <-. apply list_elem_of_lookup_2, list_elem_of_filter in Hb0. by destruct Hb0. }
  destruct (trim_spec es first cut c lost ltac:(lia) Hfirst Htrim) as (Hc & Hc' & Hbc).
  exists (take c es), (drop c (take cut es)), (drop (S cut) es). split_and!.
  - rewrite <- (take_drop_middle _ _ _ He') at 1. rewrite app_assoc. f_equal.
    rewrite <- (take_drop c (take cut es)) at 1. by rewrite take_take, Nat.min_l by lia.
  - by rewrite Hbc, Ht.
  - done.
  - assert (manager_items m' = retained_items es first c) as -> by (rewrite Hm'; by destruct lost, m as [? []]).
    unfold retained_items. destruct (count <=? n) eqn:Hle.
    + apply Nat.leb_le, Hall in Hle. assert (c = first) as -> by lia. rewrite Nat.eqb_refl, Hle. split.
      * apply drop_ge. rewrite length_take. lia.
      * rewrite <- Hle, He'. simpl. destruct (turn_id (item e)) as [t|]; [apply omap_pruned|apply pruned_refl].
    + apply Nat.leb_gt in Hle. assert (first < cut) as Hfc'.
      { destruct (decide (first = cut)) as [<-|]; [|lia]. exfalso. rewrite Ht0 in Ht. apply (f_equal length) in Ht.
        rewrite !length_take in Ht. fold count in Ht. lia. }
      specialize (Hc' Hfc'). rewrite (proj2 (Nat.eqb_neq c first)) by lia. split; [done|]. by apply Hlast.
  - rewrite <- Hlost, Hm'. unfold replace_annotated, set_review, set_retained, set_reference_context_item. simpl. by destruct lost.
Qed.

(** C13.  Rolling turns back removes exactly the last turns: the boundaries that stay are the
    others, and rolling back twice leaves the items of one rollback by the sum.  Cut off is
    everything from the first removed turn on, with the context injected directly before it
    and nothing else, so that the replies of the turns that stay are kept; when no turn
    stays, the developer messages of the first one lose the fragments the next step
    rebuilds.  The reference context is forgotten exactly when injected context that
    held more than that was cut.  Of the evidence a thread owns exactly what was accepted
    before the first removed turn stays, when that turn has a place in the order of
    acceptance of this thread; and the review history keeps exactly what is before that
    turn in it, nothing if it is not there. *)
Theorem rollback_drops_last_turns n k m :
  let m' := drop_last_n_user_turns n m in
  let count := length (turn_boundaries m) in
  turn_boundaries m' = take (count - n) (turn_boundaries m) ∧
  manager_items (drop_last_n_user_turns k m') = manager_items (drop_last_n_user_turns (n + k) m) ∧
  (n = 0 → m' = m) ∧
  (count = 0 → manager_items m' = manager_items m ∧ manager_retained m' = manager_retained m) ∧
  ∀ e, turn_boundaries m !! (count - n) = Some e →
    (∃ before updates after, manager_items m = before ++ updates ++ e :: after ∧
       boundaries before = take (count - n) (turn_boundaries m) ∧ Forall (λ x, pre_turn_update x = true) updates ∧
       (if count <=? n then updates = [] ∧ pruned (turn_id (item e)) before (manager_items m')
        else manager_items m' = before ∧ ∀ x, last before = Some x → pre_turn_update x = false) ∧
       reference_context_item m' = if existsb mixed_update updates then None else reference_context_item m) ∧
    (∀ o, guardian_context_mode m = ThreadOwned → input_source (metadata e) = Local (Some o) →
       ∀ x, x ∈ ordered_entries (manager_retained m') ↔ x ∈ ordered_entries (manager_retained m) ∧ key_ltb x.1 (KeyLocal o) = true) ∧
    (∀ h, review_history m = Some h →
       ∃ h', review_history m' = Some h' ∧ Forall (λ x, ¬ same_item (item e) x.1) (transcript h') ∧
         ((∃ x after, transcript h = transcript h' ++ x :: after ∧ same_item (item e) x.1) ∨
          transcript h' = [] ∧ Forall (λ x, ¬ same_item (item e) x.1) (transcript h))).
Proof.
  intros m' count. split_and!.
  - unfold turn_boundaries, m'. by rewrite items_drop, boundaries_rolled_back.
  - unfold m'. by rewrite !items_drop, rolled_back_add.
  - intros ->. done.
  - intros Hnil%length_zero_iff_nil. unfold m'. destruct (drop_cases n m) as [[_ ->]|[(_ & _ & ->)|(_ & e & _ & _ & _ & He & _)]]; [done|by destruct m as [? []]|].
    by rewrite Hnil in He.
  - intros e He. assert (n ≠ 0) as Hn.
    { intros ->. rewrite Nat.sub_0_r in He. apply lookup_lt_Some in He. unfold count in He. lia. }
    split; [by apply drop_exact|]. unfold m'.
    destruct (drop_cases n m) as [[-> _]|[(_ & Hb & _)|(_ & e' & cut & lost & ts & He' & ->)]]; [done|by rewrite Hb in He|].
    assert (e' = e) as -> by (unfold count in He; congruence). split.
    + intros o Hmode Ho x. rewrite Hmode, Ho. apply rollback_entries.
    + intros h Hh. rewrite Hh. eexists. split; [done|]. apply truncate_before_exact.
Qed.
End rollback_facts.

(** * Operations of a manager *)

Section operations.
Context `{Opaque, FragmentReaders, JsonSizes, Baselines} {Sizes : ItemSizes} `{ItemEq : !EqDecision ResponseItem} `{MediaReaders}.
Context (debug_assertions : bool) (with_serialization_allowance : TruncationPolicy → TruncationPolicy).
#[local] Existing Instance storage_limits.

(** All that changes a manager, but for dropping the oldest item, which compaction only does
    to a copy, and the baseline of the world's state, which depends on that state. *)
Inductive manager_operation :=
| MReserve
| MRetained (event : RetainedContextEvent)
| MRecord (es : list ResponseItemEnvelope) (policy : TruncationPolicy)
| MReplace (replacement : HistoryReplacement) (es : list ResponseItemEnvelope)
| MRollback (num_turns : nat)
| MRestore (retained : option RetainedContext) (checkpoint : option (list ResponseItem))
| MRebuild (rebuilt : list ResponseItemEnvelope)
| MUsage (usage : TokenUsage) (window : option Z)
| MUsageFull (context_window : Z)
| MReference (reference : option TurnContextItem)
| MBaseline (baseline : WorldStateSnapshot).

Definition apply_manager (m : ContextManager) (op : manager_operation) : option ContextManager :=
  match op with
  | MReserve => Some (reserve_input_order m).1
  | MRetained event => Some (record_retained_context event m).1
  | MRecord es policy => record_items_with_metadata with_serialization_allowance es policy m
  | MReplace replacement es => Some (replace_history replacement es m)
  | MRollback num_turns => Some (drop_last_n_user_turns num_turns m)
  | MRestore retained checkpoint => Some (restore_review_context retained checkpoint m)
  | MRebuild rebuilt => Some (rebuild_compacted rebuilt m)
  | MUsage usage window => update_token_info debug_assertions usage window m
  | MUsageFull context_window => set_token_usage_full debug_assertions context_window m
  | MReference reference => Some (set_reference_context_item reference m)
  | MBaseline baseline => Some (set_baseline (Some baseline) m)
  end.

Fixpoint run_manager (ops : list manager_operation) (m : ContextManager) : option ContextManager :=
  match ops with
  | [] => Some m
  | op :: ops => m ← apply_manager m op; run_manager ops m
  end.
End operations.

(** * What readers of the evidence may rely on *)

(** ** The texts of complete instructions *)

Section provenance.
Context `{Opaque, JsonSizes} {L : Limits}.
Implicit Types (c : RetainedContext) (u : RetainedUserMessage).

(** Complete instructions of [c'] are among those of [c] or satisfy [P]. *)
Definition complete_from (P : RetainedUserMessage → Prop) c c' : Prop :=
  ∀ e, e ∈ user_messages c' → complete (value e) = true → (∃ e0, e0 ∈ user_messages c ∧ value e0 = value e) ∨ P (value e).

Lemma complete_from_sub (P : RetainedUserMessage → Prop) c c' : (∀ e, e ∈ user_messages c' → e ∈ user_messages c) → complete_from P c c'.
Proof. intros Hs e He _. left. exists e. auto. Qed.

Lemma complete_from_trans P c1 c2 c3 : complete_from P c1 c2 → complete_from P c2 c3 → complete_from P c1 c3.
Proof.
  intros H12 H23 e He Hc. destruct (H23 e He Hc) as [(e2 & He2 & Hv)|HP]; [|by right]. rewrite <- Hv in *. by apply H12.
Qed.

Lemma bound_messages_in c e : e ∈ user_messages (bound_messages c) → e ∈ user_messages c.
Proof.
  unfold bound_messages, bound_family. pose proof (evict_sublist over_messages (sort_by key (user_messages c))) as Hs.
  destruct (evict _ _) as [es lost]. simpl in *. intros He. rewrite <- (sort_by_perm key (user_messages c)). by eapply sublist_subseteq.
Qed.

Lemma record_complete_from u source c :
  complete_from (λ v, v = bound_message u) c (record_user_message u source c).
Proof.
  unfold record_user_message. set (i := bool_decide (source = Inherited)). set (c1 := set_answers _ (_ || i) c).
  assert (user_messages c1 = user_messages c) as H1 by done. set (found := list_find _ _).
  destruct (match found with Some _ => _ | None => _ end); [apply complete_from_sub; by rewrite H1|].
  set (c2 := match found with Some _ => _ | None => c1 end).
  assert (∀ e, e ∈ user_messages c2 → e ∈ user_messages c) as H2.
  { intros e. subst c2. destruct found as [[j x]|]; [|done]. intros He. simpl in He.
    eapply sublist_subseteq; [apply delete_sublist|done]. }
  destruct (if i then _ else _) as [c3 o] eqn:H3. assert (user_messages c3 = user_messages c2) as H3' by (destruct i; injection H3 as <- _; done).
  intros e He _. apply bound_messages_in in He. simpl in He. rewrite H3' in He. apply elem_of_app in He as [He|He%list_elem_of_singleton].
  - left. exists e. auto.
  - right. by rewrite He.
Qed.

Lemma recover_complete_from excerpt c : complete_from (λ _, False) c (recover_user_message_excerpts excerpt c).
Proof.
  intros e He Hc. unfold recover_user_message_excerpts in He. apply bound_messages_in in He. simpl in He.
  apply list_elem_of_fmap in He as (x & -> & Hx). left. exists x. split; [done|]. revert Hc. unfold recover_entry.
  destruct (_ && negb _) eqn:Hg; [|done]. apply andb_true_iff in Hg as [_ Hn%negb_true_iff]. destruct (_ ≫= _); [|done].
  simpl. intros Hc. pose proof (bound_message_complete _ Hc) as Hb. rewrite Hb in Hc. simpl in Hc. congruence.
Qed.

Lemma rollback_messages_in turn_ids first_removed source c e :
  e ∈ user_messages (rollback turn_ids first_removed source c) → e ∈ user_messages c.
Proof. unfold rollback. destruct (rollback_boundary _ _ _); simpl; by intros [_ ?]%list_elem_of_filter. Qed.

Lemma record_event_messages event c : user_messages (record event c).1 = user_messages c.
Proof.
  destruct event as [a accepted]. unfold record, bound_event. set (found := list_find _ _).
  destruct (match found with Some _ => _ | None => false end); [done|]. unfold bound_answers. cbn [fst record_order].
  destruct (bound_family _ _ _). by destruct found as [[]|].
Qed.
End provenance.

Section restored.
Context `{Opaque, JsonSizes} {L : Limits}.
Implicit Types (c : RetainedContext).

Lemma restore_answers_messages es c : user_messages (foldl restore_answer c es) = user_messages c.
Proof. revert c. induction es as [|e es IH]; intros c; [done|]. simpl. by rewrite IH. Qed.

Lemma restore_messages_all es c :
  user_messages (foldl restore_message c es) = user_messages c ++ map (λ e, set_value e (bound_message (value e))) es.
Proof.
  revert c. induction es as [|e es IH]; intros c; simpl; [by rewrite app_nil_r|]. rewrite IH. unfold restore_message.
  by destruct (inherited e); simpl; rewrite <- app_assoc.
Qed.

Lemma restore_messages_in checkpoint items e : e ∈ user_messages (restore checkpoint items) →
  ∃ c x, checkpoint = Some c ∧ x ∈ user_messages c ∧ value e = bound_message (value x).
Proof.
  unfold restore. intros He%bound_messages_in. unfold bound_answers in He. destruct (bound_family _ _ _). simpl in He.
  set (c := default _ checkpoint) in *.
  rewrite (proj2 (foldl_advance_fields _ _)), restore_messages_all in He. simpl in He. apply list_elem_of_fmap in He as (x & -> & Hx).
  destruct checkpoint as [c0|]; [|by apply elem_of_nil in Hx]. by exists c0, x.
Qed.
End restored.

Section instructions.
Context `{Opaque, FragmentReaders, JsonSizes, Baselines} {Sizes : ItemSizes} `{ItemEq : !EqDecision ResponseItem} `{MediaReaders}.
Context (debug_assertions : bool) (with_serialization_allowance : TruncationPolicy → TruncationPolicy).
#[local] Existing Instance storage_limits.
Implicit Types (m : ContextManager) (e : ResponseItemEnvelope) (es : list ResponseItemEnvelope) (i : ResponseItem) (u : RetainedUserMessage).
Notation apply_manager := (apply_manager debug_assertions with_serialization_allowance).
Notation run_manager := (run_manager debug_assertions with_serialization_allowance).

(** The instruction is the whole text of an item of the user, classified as such. *)
Definition verbatim (retain : bool) e u : Prop :=
  ∃ content phase meta, item e = Message (message_id u) (lit "user") content phase meta ∧
    annotated_by_user content meta = true ∧ forallb is_text content = true ∧ message_text u = joined_text content ∧
    (is_inherited e = true → retain = true).

(** Where a complete instruction comes from: an item that was recorded, or a checkpoint. *)
Definition sourced (retain : bool) (ops : list manager_operation) u : Prop :=
  (∃ es policy e, MRecord es policy ∈ ops ∧ e ∈ es ∧ verbatim retain e u) ∨
  (∃ c checkpoint x, MRestore (Some c) checkpoint ∈ ops ∧ x ∈ user_messages c ∧ value x = u).

Lemma truncate_review_whole text cap : (approx_bytes_for_tokens cap <? slen text)%N = false → truncate_review_text text cap = text.
Proof. unfold truncate_review_text. intros Hle%N.ltb_ge. simpl. by rewrite (proj2 (N.leb_le _ _) Hle). Qed.

(** Authorization writes the retained context and the revision only. *)
Definition auth_frame m m' : Prop :=
  manager_items m' = manager_items m ∧ review_history m' = review_history m ∧ guardian_context_mode m' = guardian_context_mode m ∧
  retain_inherited_user_messages m' = retain_inherited_user_messages m ∧ history_version m' = history_version m ∧
  (m' = m ∨ user_message_revision m' = sat_add (user_message_revision m) 1).

Lemma auth_framed i md source m : auth_frame m (record_user_authorization i md source m).
Proof.
  unfold record_user_authorization. destruct (negb _); [by repeat split; left|].
  unfold auth_frame. repeat case_match; simpl; split_and!; try done; by right.
Qed.

Lemma auth_complete_from i md source m :
  complete_from (λ u, source = Original ∧ verbatim (retain_inherited_user_messages m) (mkEnvelope i md) u)
    (manager_retained m) (manager_retained (record_user_authorization i md source m)).
Proof.
  unfold record_user_authorization. destruct (is_user_authorization_message i) eqn:Hu; simpl; [|by apply complete_from_sub].
  destruct (guardian_context_mode m); [by apply complete_from_sub|].
  destruct i as [|id role content phase meta| | | | | | | | | | | | | | | |]; try done. simpl in Hu. apply andb_true_iff in Hu as [->%bool_decide_eq_true _].
  destruct (_ || _) eqn:Hinh; [|by apply complete_from_sub]. simpl.
  intros e He Hc. destruct (record_complete_from _ _ _ e He Hc) as [?|Hv]; [by left|right]. rewrite Hv in *.
  pose proof (bound_message_complete _ Hc) as Hb. rewrite Hb in *. simpl in Hc. rewrite !andb_true_iff in Hc.
  destruct Hc as [[[Hs Ha] Ht] Htr%negb_true_iff]. split; [by destruct source|]. exists content, phase, meta. simpl.
  split_and!; try done; [by apply truncate_review_whole|]. unfold is_inherited. simpl. intros Hi. rewrite Hi in Hinh. done.
Qed.

Lemma foldl_auth_complete es m : 
  retain_inherited_user_messages (foldl (λ m e, record_user_authorization (item e) (metadata e) Checkpoint m) m es) = retain_inherited_user_messages m ∧
  complete_from (λ _, False) (manager_retained m)
    (manager_retained (foldl (λ m e, record_user_authorization (item e) (metadata e) Checkpoint m) m es)).
Proof.
  revert m. induction es as [|e es IH]; intros m; simpl; [split; [done|by apply complete_from_sub]|].
  destruct (IH (record_user_authorization (item e) (metadata e) Checkpoint m)) as [Hr Hc].
  split; [rewrite Hr; apply auth_framed|]. eapply complete_from_trans; [|exact Hc].
  intros x Hx Hcx. destruct (auth_complete_from _ _ _ _ x Hx Hcx) as [?|[? _]]; [by left|done].
Qed.

(** A step adds complete instructions only from its own sources. *)
Lemma sourced_mono retain ops ops' u : (∀ op, op ∈ ops → op ∈ ops') → sourced retain ops u → sourced retain ops' u.
Proof. unfold sourced. naive_solver. Qed.

Lemma complete_from_weaken (P Q : RetainedUserMessage → Prop) c c' : (∀ u, P u → Q u) → complete_from P c c' → complete_from Q c c'.
Proof. intros HPQ Hc e He Hce. destruct (Hc e He Hce); auto. Qed.

Definition steps_from (retain : bool) (ops : list manager_operation) m m' : Prop :=
  retain_inherited_user_messages m' = retain_inherited_user_messages m ∧
  (retain_inherited_user_messages m = retain → complete_from (sourced retain ops) (manager_retained m) (manager_retained m')).

Lemma record_one_from retain es policy m m' e : e ∈ es → record_one with_serialization_allowance policy m e = Some m' →
  steps_from retain [MRecord es policy] m m'.
Proof.
  intros He. unfold record_one. destruct (negb _); [intros [= <-]; split; [done|intros _; by apply complete_from_sub]|].
  intros (i & _ & [= <-])%bind_Some. set (m1 := set_items _ _).
  assert (manager_retained m1 = manager_retained m ∧ retain_inherited_user_messages m1 = retain_inherited_user_messages m) as [Hm Hr].
  { subst m1. destruct (review_history m); [|done]. by destruct (negb _). }
  split; [rewrite <- Hr; apply auth_framed|]. intros Hret. rewrite <- Hm. eapply complete_from_weaken, auth_complete_from.
  intros u [_ Hv]. left. exists es, policy, e. split; [by apply list_elem_of_singleton|]. split; [done|]. rewrite Hr, Hret in Hv. by destruct e.
Qed.

Lemma steps_from_trans retain ops m1 m2 m3 : steps_from retain ops m1 m2 → steps_from retain ops m2 m3 → steps_from retain ops m1 m3.
Proof.
  intros [Hr1 Hc1] [Hr2 Hc2]. split; [by rewrite Hr2|]. intros Hr. eapply complete_from_trans; [by apply Hc1|]. apply Hc2. by rewrite Hr1.
Qed.

Lemma record_items_from retain es0 es policy m m' : (∀ e, e ∈ es → e ∈ es0) →
  record_items_with_metadata with_serialization_allowance es policy m = Some m' → steps_from retain [MRecord es0 policy] m m'.
Proof.
  revert m. induction es as [|e es IH]; intros m Hes; simpl; [intros [= <-]; split; [done|intros _; by apply complete_from_sub]|].
  intros (m1 & Hm1 & Hm2)%bind_Some. eapply steps_from_trans.
  - eapply record_one_from; [|exact Hm1]. apply Hes. by left.
  - apply IH; [|done]. intros x Hx. apply Hes. by right.
Qed.

Lemma replace_annotated_fields es m :
  retain_inherited_user_messages (replace_annotated es m) = retain_inherited_user_messages m ∧
  user_messages (manager_retained (replace_annotated es m)) = [].
Proof. unfold replace_annotated. simpl. by destruct (review_history m). Qed.

Lemma drop_from retain n m : steps_from retain [MRollback n] m (drop_last_n_user_turns n m).
Proof.
  destruct (drop_cases n m) as [[-> ->]|[(_ & _ & ->)|(_ & e & cut & lost & ts & _ & ->)]].
  - split; [done|intros _; by apply complete_from_sub].
  - split; [apply replace_annotated_fields|]. intros _. by apply complete_from_sub.
  - split; [by destruct lost|]. intros _. apply complete_from_sub. simpl.
    destruct (guardian_context_mode m); [done|]. intros x. apply rollback_messages_in.
Qed.

(** Restoring adds what was complete in the checkpoint. *)
Lemma restore_retained_from retain (P : RetainedUserMessage → Prop) c m :
  (∀ c0 x, c = Some c0 → x ∈ user_messages c0 → complete (value x) = true → P (value x)) →
  let m' := restore_retained_context c m in
  retain_inherited_user_messages m' = retain_inherited_user_messages m ∧
  (retain_inherited_user_messages m = retain → complete_from P (manager_retained m) (manager_retained m')).
Proof.
  intros HP. unfold restore_retained_context. set (m1 := set_retained _ m).
  assert (complete_from P (manager_retained m) (manager_retained m1)) as Hm1.
  { intros e (c0 & x & -> & Hx & Hv)%restore_messages_in Hce. right. rewrite Hv in *.
    apply bound_message_complete in Hce as Hb. rewrite Hb in *. by eapply HP. }
  simpl. destruct (_ && _); [|done].
  destruct (foldl_auth_complete (filter (λ e, is_inherited e = true) (manager_items m1)) m1) as [Hf1 Hf2].
  split; [exact Hf1|]. intros _. eapply complete_from_trans; [exact Hm1|]. eapply complete_from_weaken; [|exact Hf2]. done.
Qed.

Lemma restore_from retain c checkpoint m : steps_from retain [MRestore c checkpoint] m (restore_review_context c checkpoint m).
Proof.
  destruct (restore_retained_from retain (sourced retain [MRestore c checkpoint]) c m) as [Hr Hc].
  { intros c0 x -> Hx _. right. exists c0, checkpoint, x. by split; [left|]. }
  unfold restore_review_context. destruct (guardian_context_mode _); [by split|]. split; [done|]. intros Hret. simpl.
  eapply complete_from_trans; [by apply Hc|]. eapply complete_from_weaken, recover_complete_from. done.
Qed.

Lemma rebuild_from retain rebuilt m : steps_from retain [MRebuild rebuilt] m (rebuild_compacted rebuilt m).
Proof.
  unfold rebuild_compacted. destruct (replace_annotated_fields rebuilt m) as [Hr Hu].
  set (P u := ∃ x : Ordered RetainedUserMessage, x ∈ user_messages (manager_retained m) ∧ value x = u).
  destruct (restore_retained_from retain P (Some (manager_retained m)) (replace_annotated rebuilt m)) as [Hr' Hc].
  { intros c0 x [= <-] Hx _. by exists x. }
  split; [by rewrite Hr'|]. intros Hret e He Hce. left. destruct (Hc ltac:(by rewrite Hr) e He Hce) as [(e0 & He0 & _)|?]; [|done].
  change (e0 ∈ user_messages (manager_retained (replace_annotated rebuilt m))) in He0. rewrite Hu in He0. by apply elem_of_nil in He0.
Qed.

Lemma apply_manager_from retain op m m' : apply_manager m op = Some m' → steps_from retain [op] m m'.
Proof.
  assert (∀ m', retain_inherited_user_messages m' = retain_inherited_user_messages m →
    user_messages (manager_retained m') = user_messages (manager_retained m) → steps_from retain [op] m m') as Hsame.
  { intros m1 Hr Hu. split; [done|]. intros _. apply complete_from_sub. by rewrite Hu. }
  destruct op as [|event|es policy|[] es|n|c checkpoint|rebuilt|usage window|w|reference|baseline]; cbn [ContextManager.apply_manager].
  - intros [= <-]. by apply Hsame.
  - intros [= <-]. unfold record_retained_context. pose proof (record_event_messages event (manager_retained m)) as Hu.
    destruct (record _ _) as [c []]; by apply Hsame.
  - by apply record_items_from.
  - intros [= <-]. unfold replace_history, replace_compacted. destruct (guardian_context_mode m), (review_history m); by apply Hsame.
  - intros [= <-]. destruct (replace_annotated_fields es m) as [Hr Hu]. split; [done|]. intros _ e He. change (e ∈ user_messages (manager_retained (replace_annotated es m))) in He. rewrite Hu in He. by apply elem_of_nil in He.
  - intros [= <-]. apply drop_from.
  - intros [= <-]. apply restore_from.
  - intros [= <-]. apply rebuild_from.
  - intros (info & _ & [= <-])%bind_Some. by apply Hsame.
  - intros (info & _ & [= <-])%bind_Some. by apply Hsame.
  - intros [= <-]. by apply Hsame.
  - intros [= <-]. by apply Hsame.
Qed.

Lemma run_manager_from retain ops0 ops m m' : (∀ op, op ∈ ops → op ∈ ops0) → run_manager ops m = Some m' → steps_from retain ops0 m m'.
Proof.
  revert m. induction ops as [|op ops IH]; intros m Hops; simpl; [intros [= <-]; split; [done|intros _; by apply complete_from_sub]|].
  intros (m1 & Hm1 & Hm2)%bind_Some. eapply steps_from_trans; [|apply IH; [|exact Hm2]; intros x Hx; apply Hops; by right].
  apply (apply_manager_from retain) in Hm1 as [Hr Hc]. split; [done|]. intros Hret. eapply complete_from_weaken; [|by apply Hc].
  intros u. apply sourced_mono. intros x ->%list_elem_of_singleton. apply Hops. by left.
Qed.

(** C4.  An instruction that a thread retains as complete is, word for word, the text of a
    message recorded in it whose every part was classified as the user's own text, or was
    already complete in a checkpoint it was restored from; nothing shortened, recovered from
    an excerpt or adopted from a copy is ever called complete, and a worker takes none from
    the messages it inherits. *)
Theorem complete_instructions_verbatim mode source ops m :
  run_manager ops (with_guardian_context_mode mode source) = Some m →
  retain_inherited_user_messages m = bool_decide (mode = ThreadOwned) && negb (is_non_root_agent source) ∧
  ∀ x, x ∈ user_messages (manager_retained m) → complete (value x) = true →
    sourced (retain_inherited_user_messages m) ops (value x).
Proof.
  intros Hr. apply (run_manager_from (bool_decide (mode = ThreadOwned) && negb (is_non_root_agent source)) ops) in Hr as [Hret Hc]; [|done].
  split; [done|]. intros x Hx Hcx. rewrite Hret. destruct (Hc eq_refl x Hx Hcx) as [(e0 & He0 & _)|?]; [by apply elem_of_nil in He0|done].
Qed.
End instructions.

(** ** Versions *)

Section versions.
Context `{Opaque, FragmentReaders, J : JsonSizes, Baselines} {JL : JsonSizeLaws J} {Sizes : ItemSizes} `{ItemEq : !EqDecision ResponseItem} `{MediaReaders}.
Context (debug_assertions : bool) (with_serialization_allowance : TruncationPolicy → TruncationPolicy).
#[local] Existing Instance storage_limits.
Implicit Types (m : ContextManager) (e : ResponseItemEnvelope) (es : list ResponseItemEnvelope) (i : ResponseItem).
Notation apply_manager := (apply_manager debug_assertions with_serialization_allowance).
Notation run_manager := (run_manager debug_assertions with_serialization_allowance).

(** What holds of every manager. *)
Record manager_ok m : Prop := {
  ok_mode : guardian_context_mode m = ThreadOwned → review_history m = None;
  ok_review : ∀ h, review_history m = Some h → within_limits h ∧ (generation h ≤ usize_max)%N;
  ok_versions : (history_version m ≤ usize_max ∧ user_message_revision m ≤ usize_max)%N;
  ok_retained : well_kept (manager_retained m);
}.

Abbreviation version m := (review_history_version (conversation_history_snapshot m)).
Abbreviation reviewed m := (review_items (conversation_history_snapshot m)).

(** The versions only grow, and what was reviewed is still there while its version is the same
    (below the bound at which versions stay). *)
Record grows m m' : Prop := {
  grows_history : (history_version m ≤ history_version m')%N;
  grows_revision : (user_message_revision m ≤ user_message_revision m')%N;
  grows_review : (version m ≤ version m')%N;
  grows_items : version m' = version m → (version m' < usize_max)%N → reviewed m `prefix_of` reviewed m';
}.

Lemma grows_refl m : grows m m.
Proof. by split. Qed.

Lemma grows_trans m1 m2 m3 : grows m1 m2 → grows m2 m3 → grows m1 m3.
Proof.
  intros [Hh1 Hr1 Hv1 Hi1] [Hh2 Hr2 Hv2 Hi2]. split; [lia|lia|lia|]. intros Hv Hlt. etrans; [apply Hi1; lia|apply Hi2; lia].
Qed.

(** The evidence but for the counter of orders. *)
Definition evidence m : RetainedContext := set_next_order 0 (manager_retained m).

(** A change of the evidence is told by the revision. *)
Definition tells m m' : Prop :=
  user_message_revision m' = user_message_revision m → (user_message_revision m' < usize_max)%N → evidence m' = evidence m.

Lemma sat_add_grows a : (a ≤ usize_max → a ≤ sat_add a 1)%N.
Proof. unfold sat_add. lia. Qed.

Lemma sat_add_same a : (sat_add a 1 = a → sat_add a 1 < usize_max → False)%N.
Proof. unfold sat_add. lia. Qed.

(** ** Recording *)

Lemma record_item_grows i h : within_limits h → (generation h ≤ usize_max)%N → let h' := record_item i h in
  within_limits h' ∧ (generation h ≤ generation h' ≤ usize_max)%N ∧
  (generation h' = generation h → (generation h' < usize_max)%N → transcript_items h `prefix_of` transcript_items h').
Proof.
  intros Hw Hg h'. split; [by apply within_record|]. unfold h'.
  destruct (record_item_cases i h Hw) as [->|(i' & size & _ & _ & (kept & Ht & _ & _ & _ & Hk) & _)]; [done|].
  destruct Hk as [[-> Hg']|Hg'].
  - rewrite Hg'. split; [done|]. intros _ _. unfold transcript_items. rewrite Ht, map_app. by apply prefix_app_r.
  - rewrite Hg'. pose proof (sat_add_grows _ Hg). pose proof (sat_add_le (generation h) 1). split; [lia|].
    intros Hs Hlt. by destruct (sat_add_same _ Hs Hlt).
Qed.

Lemma auth_kept i md source m : well_kept (manager_retained m) → well_kept (manager_retained (record_user_authorization i md source m)).
Proof.
  intros Hk. unfold record_user_authorization. destruct (negb _); [done|].
  destruct (guardian_context_mode m); [by apply (apply_operation_kept OpMarkIncomplete)|].
  destruct i; try done. destruct (_ || _); [|done]. by apply (record_user_message_kept _ _ (manager_retained m)).
Qed.

Lemma auth_ok i md source m : manager_ok m → let m' := record_user_authorization i md source m in manager_ok m' ∧ grows m m' ∧ tells m m'.
Proof.
  intros [Hm Hr [Hv Hu] Hk] m'. destruct (auth_framed i md source m) as (Hi & Hrev & Hmode & _ & Hh & Hrv). fold m' in Hi, Hrev, Hmode, Hh, Hrv.
  assert (version m' = version m ∧ reviewed m' = reviewed m) as [Hver Hits].
  { unfold review_history_version, review_items, snapshot_items. simpl. by rewrite Hrev, Hi, Hh. }
  split_and!.
  - split; rewrite ?Hmode, ?Hrev, ?Hh; [done..| |by apply auth_kept]. split; [done|]. destruct Hrv as [->| ->]; [done|apply sat_add_le].
  - split; rewrite ?Hver, ?Hits, ?Hh; try done. destruct Hrv as [->| ->]; [done|by apply sat_add_grows].
  - intros Hs Hlt. destruct Hrv as [->|He]; [done|]. rewrite He in Hs, Hlt. by destruct (sat_add_same _ Hs Hlt).
Qed.

Lemma without_context_app its its' : without_context (its ++ its') = without_context its ++ without_context its'.
Proof. apply filter_app. Qed.

(** A step of an operation that only records. *)
Definition records m m' : Prop := manager_ok m' ∧ grows m m' ∧ tells m m'.

Lemma records_trans m1 m2 m3 : records m1 m2 → records m2 m3 → records m1 m3.
Proof.
  intros (_ & Hg1 & Ht1) (Ho & Hg2 & Ht2). split_and!; [done|by eapply grows_trans|]. intros Hs Hlt.
  pose proof (grows_revision _ _ Hg1). pose proof (grows_revision _ _ Hg2). etrans; [apply Ht2; lia|apply Ht1; lia].
Qed.

(** A manager that keeps its versions, evidence and mode, and extends what is reviewed. *)
Lemma extends_ok m m' : manager_ok m → guardian_context_mode m' = guardian_context_mode m → history_version m' = history_version m →
  user_message_revision m' = user_message_revision m → manager_retained m' = manager_retained m →
  (∀ h', review_history m' = Some h' → ∃ h, review_history m = Some h ∧ within_limits h' ∧ (generation h ≤ generation h' ≤ usize_max)%N ∧
     (generation h' = generation h → (generation h' < usize_max)%N → transcript_items h `prefix_of` transcript_items h')) →
  (review_history m' = None → review_history m = None ∧ manager_items m `prefix_of` manager_items m') → records m m'.
Proof.
  intros [Hm Hr Hv Hk] Hmode Hh Hu Hret Hsome Hnone. split_and!.
  - split; rewrite ?Hmode, ?Hh, ?Hu, ?Hret; [|naive_solver|done|done]. intros Ho%Hm. destruct (review_history m') as [h'|]; [|done].
    destruct (Hsome h' eq_refl) as (h & Hh' & _). congruence.
  - split; unfold review_history_version, review_items, snapshot_items; simpl; rewrite ?Hh, ?Hu; [reflexivity|reflexivity|..];
      (destruct (review_history m') as [h'|];
       [destruct (Hsome h' eq_refl) as (h & -> & _ & Hg & Hi); simpl|destruct (Hnone eq_refl) as [-> [rest Hrest]]; simpl]).
    + lia.
    + reflexivity.
    + exact Hi.
    + intros _ _. rewrite Hrest, fmap_app, without_context_app. by apply prefix_app_r.
  - intros _ _. unfold evidence. by rewrite Hret.
Qed.

Lemma record_one_ok policy m e m' : manager_ok m → record_one with_serialization_allowance policy m e = Some m' → records m m'.
Proof.
  intros Hok. unfold record_one. destruct (negb _); [intros [= <-]; split_and!; [done|apply grows_refl|done]|].
  intros (i & _ & [= <-])%bind_Some. set (m1 := set_items _ _).
  assert (records m m1) as Hm1; [|eapply records_trans; [exact Hm1|]; apply auth_ok, Hm1]. unfold m1.
  destruct (review_history m) as [h|] eqn:Hrev.
  - destruct (ok_review _ Hok h Hrev) as [Hw Hg]. destruct (negb _).
    + destruct (record_item_grows i h Hw Hg) as (? & ? & ?). apply extends_ok; try done. intros h' [= <-]. by exists h.
    + apply extends_ok; try done; [|simpl; by rewrite Hrev]. intros h' Hh'. simpl in Hh'. exists h. assert (h' = h) as -> by congruence. done.
  - apply extends_ok; try done; simpl; [by rewrite Hrev|]. intros _. split; [done|]. by apply prefix_app_r.
Qed.

Lemma record_items_ok es policy m m' : manager_ok m → record_items_with_metadata with_serialization_allowance es policy m = Some m' → records m m'.
Proof.
  revert m. induction es as [|e es IH]; intros m Hok; simpl; [intros [= <-]; split_and!; [done|apply grows_refl|done]|].
  intros (m1 & Hm1 & Hm2)%bind_Some. apply record_one_ok in Hm1; [|done]. eapply records_trans; [exact Hm1|]. eapply IH; [apply Hm1|done].
Qed.

(** ** Replacing *)

Lemma reset_spec its h : within_limits (reset its h) ∧ (generation h ≤ usize_max → generation h ≤ generation (reset its h) ≤ usize_max)%N ∧
  (generation (reset its h) = generation h → (generation (reset its h) < usize_max)%N → (generation h ≤ usize_max)%N → False).
Proof.
  unfold reset. set (h0 := mkTranscript [] _). assert (within_limits h0) as Hw by apply within_empty.
  assert (∀ its h, within_limits h → (generation h ≤ usize_max)%N → within_limits (foldl (λ h i, record_item i h) h its) ∧
    (generation h ≤ generation (foldl (λ h i, record_item i h) h its) ≤ usize_max)%N) as Hf.
  { clear. induction its as [|i its IH]; intros h Hw Hg; simpl; [done|]. destruct (record_item_grows i h Hw Hg) as (Hw' & Hg' & _).
    destruct (IH (record_item i h) Hw') as [? ?]; [lia|]. split; [done|lia]. }
  pose proof (sat_add_le (generation h) 1) as Hle. destruct (Hf its h0 Hw Hle) as [? Hg]. simpl in Hg. split; [done|].
  split; [intros Hh; pose proof (sat_add_grows _ Hh); lia|]. intros Hs Hlt Hh. pose proof (sat_add_grows _ Hh).
  apply (sat_add_same (generation h)); lia.
Qed.

(** A new history version or generation makes no promise about the items. *)
Lemma renewed m m' : (history_version m ≤ history_version m')%N → (user_message_revision m ≤ user_message_revision m')%N →
  (version m ≤ version m')%N → (version m' = version m → (version m' < usize_max)%N → False) → grows m m'.
Proof. intros Hh Hu Hv Hs. split; [done..|]. intros He Hlt. by destruct (Hs He Hlt). Qed.

Lemma replace_annotated_ok es m : manager_ok m → records m (replace_annotated es m).
Proof.
  intros [Hm Hr [Hv Hu] Hk]. pose proof (sat_add_grows _ Hv) as Hgv. pose proof (sat_add_grows _ Hu) as Hgu.
  pose proof (sat_add_le (history_version m) 1). pose proof (sat_add_le (user_message_revision m) 1).
  unfold replace_annotated. destruct (review_history m) as [h|] eqn:Hrev; simpl; rewrite ?Hrev.
  - destruct (Hr h eq_refl) as [Hw Hg]. destruct (reset_spec (without_context (item <$> es)) h) as (Hrw & Hrg & Hrs). specialize (Hrg Hg). split_and!.
    + split; simpl; [intros Ho; by apply Hm in Ho|intros h' [= <-]; split; [done|apply Hrg]|done|by apply well_kept_empty].
    + apply renewed; unfold review_history_version; simpl; rewrite ?Hrev; simpl; [done|done|lia|]. intros Hs Hlt. by eapply Hrs.
    + intros Hs Hlt. by destruct (sat_add_same _ Hs Hlt).
  - split_and!.
    + split; simpl; rewrite ?Hrev; [done|done|done|by apply well_kept_empty].
    + apply renewed; unfold review_history_version; simpl; rewrite ?Hrev; simpl; [done|done|done|]. apply sat_add_same.
    + intros Hs Hlt. by destruct (sat_add_same _ Hs Hlt).
Qed.

Lemma replace_compacted_ok es m : manager_ok m → records m (replace_compacted es m).
Proof.
  intros [Hm Hr [Hv Hu] Hk]. pose proof (sat_add_grows _ Hv) as Hgv. pose proof (sat_add_le (history_version m) 1) as Hle.
  unfold replace_compacted. destruct (guardian_context_mode m) eqn:Hmode, (review_history m) as [h|] eqn:Hrev.
  - split_and!; [split; simpl; rewrite ?Hmode, ?Hrev; by auto| |done].
    split; unfold review_history_version, review_items; simpl; rewrite ?Hrev; done.
  - destruct (reset_spec (without_context (raw_items m)) (new_transcript (history_version m))) as (Hrw & Hrg & Hrs). unfold reset, new_transcript in *. simpl in *.
    specialize (Hrg Hv). split_and!.
    + split; simpl; rewrite ?Hmode; [done|intros h [= <-]; split; [done|apply Hrg]|done|done].
    + apply renewed; unfold review_history_version; simpl; rewrite ?Hrev; simpl; [done|done|lia|]. intros Hs Hlt. by eapply Hrs.
    + done.
  - by specialize (Hm eq_refl).
  - split_and!; [split; simpl; rewrite ?Hmode, ?Hrev; by auto| |done].
    apply renewed; unfold review_history_version; simpl; rewrite ?Hrev; simpl; [done|done|done|]. apply sat_add_same.
Qed.
(** ** Rolling back and restoring *)

Lemma drop_ok n m : manager_ok m → records m (drop_last_n_user_turns n m).
Proof.
  intros Hok. destruct (drop_cases n m) as [[_ ->]|[(_ & _ & ->)|(_ & e & cut & lost & ts & _ & ->)]].
  - split_and!; [done|apply grows_refl|done].
  - destruct (replace_annotated_ok (manager_items m) m Hok) as ([Hm Hr Hv Hk] & [Hgh Hgu Hgv Hgi] & Ht). split_and!; [by split; [..|apply Hok]|by split|].
    intros Hs Hlt. pose proof (sat_add_same (user_message_revision m)) as Hf. simpl in Hs, Hlt. unfold replace_annotated in Hs, Hlt.
    destruct (review_history m); by destruct (Hf Hs Hlt).
  - destruct Hok as [Hm Hr [Hv Hu] Hk]. pose proof (sat_add_grows _ Hv) as Hgv. pose proof (sat_add_grows _ Hu) as Hgu.
    pose proof (sat_add_le (history_version m) 1). pose proof (sat_add_le (user_message_revision m) 1).
    set (m0 := if lost then _ else m). assert (history_version m0 = history_version m ∧ user_message_revision m0 = user_message_revision m ∧
      guardian_context_mode m0 = guardian_context_mode m) as (Hh0 & Hu0 & Hm0) by by destruct lost.
    unfold replace_annotated. simpl. split_and!.
    + split; simpl; rewrite ?Hh0, ?Hu0, ?Hm0; [by intros ->%Hm| |done|].
      * intros h (h0 & Hh & ->)%fmap_Some_1. destruct (Hr h0 Hh) as [Hw _]. split; [|apply sat_add_le].
        eapply within_prefix; [apply prefix_take|exact Hw].
      * destruct (guardian_context_mode m); [by apply (apply_operation_kept (OpRetainAnswers _))|by apply rollback_kept].
    + apply renewed; unfold review_history_version; simpl; rewrite ?Hh0, ?Hu0; [done|done|..];
        destruct (review_history m) as [h|] eqn:Hrev; simpl; rewrite ?Hh0.
      * apply sat_add_grows. by apply Hr.
      * done.
      * apply sat_add_same.
      * apply sat_add_same.
    + intros Hs Hlt. simpl in Hs, Hlt. rewrite Hu0 in Hs, Hlt. by destruct (sat_add_same _ Hs Hlt).
Qed.

Lemma foldl_auth_ok es m : manager_ok m →
  let m' := foldl (λ m e, record_user_authorization (item e) (metadata e) Checkpoint m) m es in manager_ok m' ∧ grows m m' ∧
  review_history m' = review_history m ∧ history_version m' = history_version m ∧ guardian_context_mode m' = guardian_context_mode m ∧ manager_items m' = manager_items m.
Proof.
  revert m. induction es as [|e es IH]; intros m Hok; simpl; [split_and!; [done|apply grows_refl|done..]|].
  destruct (auth_ok (item e) (metadata e) Checkpoint m Hok) as (Hok' & Hg & _).
  destruct (auth_framed (item e) (metadata e) Checkpoint m) as (Hi & Hrev & Hmode & _ & Hh & _).
  destruct (IH _ Hok') as (? & Hg' & Hr2 & Hh2 & Hm2 & Hi2). split_and!; [done|by eapply grows_trans|congruence..].
Qed.

(** Restoring without a checkpoint of the review history would forget its version. *)
Definition keeps_review (op : manager_operation) m : Prop :=
  match op with MRestore _ None => guardian_context_mode m = ThreadOwned ∨ review_history m = None | _ => True end.

Lemma restore_retained_ok c m : manager_ok m →
  let m1 := restore_retained_context c m in
  manager_ok m1 ∧ grows m m1 ∧ review_history m1 = review_history m ∧ history_version m1 = history_version m ∧
  guardian_context_mode m1 = guardian_context_mode m ∧ manager_items m1 = manager_items m.
Proof.
  intros Hok. unfold restore_retained_context. set (m0 := set_retained _ m).
  assert (manager_ok m0) as Hok0 by (destruct Hok as [Hm Hr Hv Hk]; split; [done..|]; apply restore_kept).
  assert (grows m m0) as Hg0 by by split.
  simpl. destruct (_ && _); [|done]. destruct (foldl_auth_ok (filter (λ e, is_inherited e = true) (manager_items m0)) m0 Hok0) as (? & Hg & ?).
  split; [done|]. split; [by eapply grows_trans|]. done.
Qed.

Lemma rebuild_ok rebuilt m : manager_ok m → records m (rebuild_compacted rebuilt m).
Proof.
  intros Hok. destruct (replace_annotated_ok rebuilt m Hok) as (Hok1 & Hg1 & _).
  destruct (restore_retained_ok (Some (manager_retained m)) _ Hok1) as (Hok2 & Hg2 & _). fold (rebuild_compacted rebuilt m) in Hok2, Hg2.
  split_and!; [done|by eapply grows_trans|]. intros Hs Hlt. exfalso. apply grows_revision in Hg2.
  assert (user_message_revision (replace_annotated rebuilt m) = sat_add (user_message_revision m) 1) as Hr.
  { unfold replace_annotated. by destruct (review_history _). }
  pose proof (sat_add_grows _ (proj2 (ok_versions _ Hok))). eapply (sat_add_same (user_message_revision m)); lia.
Qed.

Lemma restore_ok c checkpoint m : manager_ok m →
  let m' := restore_review_context c checkpoint m in
  manager_ok m' ∧ (history_version m ≤ history_version m')%N ∧ (user_message_revision m ≤ user_message_revision m')%N ∧
  (keeps_review (MRestore c checkpoint) m → grows m m').
Proof.
  intros Hok. destruct (restore_retained_ok c m Hok) as (Hok1 & Hg1 & Hr1 & Hh1 & Hm1 & Hi1). set (m1 := restore_retained_context c m) in *.
  unfold restore_review_context. fold m1. destruct Hg1 as [Hgh Hgu Hgv Hgi]. destruct Hok1 as [Hmode Hr [Hv Hu] Hk].
  rewrite Hm1. rewrite Hm1 in Hmode. destruct (guardian_context_mode m) eqn:Hmd.
  - rewrite Hr1, Hh1. set (gen := from_option generation (history_version m) (review_history m)).
    assert (gen ≤ usize_max)%N as Hgen.
    { unfold gen. rewrite Hr1 in Hr. destruct (review_history m) as [h|]; [by apply Hr|]. simpl. apply Hok. }
    pose proof (sat_add_grows _ Hgen) as Hgg. pose proof (sat_add_le gen 1) as Hgle.
    simpl. split_and!; [|done|done|].
    + split; simpl; [by rewrite Hm1| |done|done]. intros h (its & _ & ->)%fmap_Some_1.
      destruct (reset_spec its (new_transcript (sat_add gen 1))) as (Hw & Hb & _). split; [done|]. by apply Hb.
    + intros Hkeep. destruct checkpoint as [its|]; simpl.
      * destruct (reset_spec its (new_transcript (sat_add gen 1))) as (_ & Hb & Hs). specialize (Hb Hgle). simpl in Hb.
        apply renewed; unfold review_history_version; simpl; [done|done|fold gen; lia|]. fold gen. intros He Hlt.
        apply (sat_add_same gen); lia.
      * destruct Hkeep as [?|Hnone]; [congruence|]. split; unfold review_history_version, review_items, snapshot_items; simpl; rewrite ?Hnone, ?Hh1, ?Hi1; done.
  - assert (review_history m = None) as Hnone by (rewrite <- Hr1; by apply Hmode). simpl. split_and!; [|done|done|].
    + split; simpl; [done|done|done|]. by apply (apply_operation_kept (OpRecover _)).
    + intros _. split; unfold review_history_version, review_items, snapshot_items; simpl; rewrite ?Hnone, ?Hi1, ?Hh1; done.
Qed.

(** ** Every operation *)

Definition is_restore (op : manager_operation) : bool := match op with MRestore _ _ => true | _ => false end.

Lemma apply_manager_ok op m m' : manager_ok m → apply_manager m op = Some m' →
  manager_ok m' ∧ (history_version m ≤ history_version m')%N ∧ (user_message_revision m ≤ user_message_revision m')%N ∧
  (keeps_review op m → grows m m') ∧ (is_restore op = false → tells m m').
Proof.
  intros Hok Ha. assert (records m m' → manager_ok m' ∧ (history_version m ≤ history_version m')%N ∧
    (user_message_revision m ≤ user_message_revision m')%N ∧ (keeps_review op m → grows m m') ∧ (is_restore op = false → tells m m')) as Hrec.
  { intros (? & Hg & ?). destruct Hg as [? ? ? ?] eqn:E. split_and!; done. }
  destruct Hok as [Hmode Hr Hv Hk] eqn:Hok'.
  assert (∀ m', manager_items m' = manager_items m → review_history m' = review_history m → guardian_context_mode m' = guardian_context_mode m →
    history_version m' = history_version m → user_message_revision m' = user_message_revision m → evidence m' = evidence m →
    well_kept (manager_retained m') → records m m') as Hsame.
  { intros m1 Hi Hrv Hm Hh Hu He Hk1. split_and!; [split; by rewrite ?Hrv, ?Hm, ?Hh, ?Hu| |by intros _ _].
    split; unfold review_history_version, review_items, snapshot_items; simpl; by rewrite ?Hi, ?Hrv, ?Hh, ?Hu. }
  destruct op as [|event|es policy|[] es|n|c checkpoint|rebuilt|usage window|w|reference|baseline]; cbn [ContextManager.apply_manager] in Ha.
  - injection Ha as <-. apply Hrec, Hsame; try done. by apply (apply_operation_kept OpReserve).
  - injection Ha as <-. apply Hrec. unfold record_retained_context. pose proof (record_kept event _ Hk) as Hk'.
    destruct (record event (manager_retained m)) as [c []] eqn:Hc; simpl in *.
    + split_and!.
      * split; simpl; [done..| |done]. split; [by apply Hv|apply sat_add_le].
      * split; unfold review_history_version, review_items, snapshot_items; simpl; try done. by apply sat_add_grows, Hv.
      * intros Hs Hlt. by destruct (sat_add_same _ Hs Hlt).
    + assert (c = manager_retained m) as ->.
      { revert Hc. unfold record. destruct (bound_event event) as [a o]. destruct (match list_find _ _ with Some _ => _ | None => _ end); [by intros [= <-]|].
        by destruct (record_order _ _). }
      by apply Hsame.
  - apply Hrec. by eapply record_items_ok.
  - injection Ha as <-. by apply Hrec, replace_compacted_ok.
  - injection Ha as <-. by apply Hrec, replace_annotated_ok.
  - injection Ha as <-. by apply Hrec, drop_ok.
  - injection Ha as <-. destruct (restore_ok c checkpoint m Hok) as (? & ? & ? & ?). by split_and!.
  - injection Ha as <-. by apply Hrec, rebuild_ok.
  - apply bind_Some in Ha as (info & _ & [= <-]). by apply Hrec, Hsame.
  - apply bind_Some in Ha as (info & _ & [= <-]). by apply Hrec, Hsame.
  - injection Ha as <-. by apply Hrec, Hsame.
  - injection Ha as <-. by apply Hrec, Hsame.
Qed.

Lemma with_mode_ok mode source : manager_ok (with_guardian_context_mode mode source).
Proof. split; simpl; [done|done|done|apply well_kept_empty]. Qed.

Lemma run_manager_ok ops m m' : manager_ok m → run_manager ops m = Some m' → manager_ok m'.
Proof.
  revert m. induction ops as [|op ops IH]; intros m Hok; simpl; [by intros [= <-]|].
  intros (m1 & Hm1 & Hm2)%bind_Some. eapply IH; [|exact Hm2]. by eapply apply_manager_ok.
Qed.

(** C14.  In every state a thread reaches, the evidence it retains is within its limits, and so
    is the review history, which exists only when the thread does not own its evidence.  The
    version of the history and the revision of the user's messages never decrease, nor
    does the version of the review, except by restoring a legacy thread that has a review
    history without a checkpoint of it.  With the same exception, as long as the version
    of the review stays (below the largest), what was reviewed before is a prefix of what
    is reviewed now, so that a reader's offset stays valid across recording, compaction,
    resets and rollbacks; and as long as the revision of the user's messages stays (below
    the largest), the retained evidence is the same, unless the operation restored it from
    a checkpoint. *)
Theorem review_versions_tell mode source ops m :
  run_manager ops (with_guardian_context_mode mode source) = Some m →
  manager_ok m ∧
  ∀ op m', apply_manager m op = Some m' →
    (history_version m ≤ history_version m')%N ∧ (user_message_revision m ≤ user_message_revision m')%N ∧
    (keeps_review op m →
       (version m ≤ version m')%N ∧
       (version m' = version m → (version m' < usize_max)%N → reviewed m `prefix_of` reviewed m')) ∧
    (is_restore op = false →
       user_message_revision m' = user_message_revision m → (user_message_revision m' < usize_max)%N → evidence m' = evidence m).
Proof.
  intros Hr. assert (manager_ok m) as Hok by (eapply run_manager_ok; [apply with_mode_ok|exact Hr]). split; [done|].
  intros op m' Ha. destruct (apply_manager_ok op m m' Hok Ha) as (_ & ? & ? & Hg & Ht). split_and!; [done..| |done].
  intros Hk. destruct (Hg Hk). by split.
Qed.
End versions.

(** * A thread in memory *)

Module ManagerMem.
Export TranscriptMem.

#[export] Instance mem_readers : FragmentReaders := {| hook_prompt_xml _ := None; reads_as_communication _ := false |}.
#[export] Instance mem_baselines : Baselines := {| TurnContextItem := unit; WorldStateSnapshot := unit |}.
#[export] Instance mem_media : MediaReaders := {| image_dimensions _ := None; estimate_audio_token_count _ := 0%N |}.

(** A text of the user, with its place in the order of acceptance. *)
Definition instructs (id turn text : str) (order : N) : ResponseItemEnvelope :=
  mkEnvelope
    (Message (Some id) (lit "user") [InputText text] None
       (Some (mkMetadata (Some turn) None (Some [lit "user.text"]) None None None)))
    (Some (mkHarness true None false None (Some order) false)).
Definition answers (turn text : str) : ResponseItemEnvelope :=
  mkEnvelope (Message None (lit "assistant") [OutputText text] None (Some (mkMetadata (Some turn) None None None None None))) None.
Definition context : ResponseItemEnvelope :=
  envelope (Message None (lit "developer") [InputText (lit "<token_budget>10</token_budget>")] None None).

Definition two_turns : list ResponseItemEnvelope :=
  [instructs (lit "m1") (lit "t1") (lit "fix the tests") 0; answers (lit "t1") (lit "done"); context;
   instructs (lit "m2") (lit "t2") (lit "push it") 1; answers (lit "t2") (lit "pushed")].
Definition thread : list manager_operation := [MRecord two_turns (Bytes 1000)].

Definition run_thread (ops : list manager_operation) : option ContextManager :=
  run_manager true id ops (with_guardian_context_mode ThreadOwned Cli).

(** Rolling the second turn back removes its context and what it authorized. *)
Example second_turn_dropped :
  (λ m, (map (λ i, item_id i) (raw_items m), map (λ x : Ordered RetainedUserMessage, message_text (value x)) (user_messages (manager_retained m)), history_version m))
    <$> run_thread (thread ++ [MRollback 1]) = Some ([Some (lit "m1"); None], [lit "fix the tests"], 1%N).
Proof. vm_compute. reflexivity. Qed.

Lemma complete_instructions_verbatim_witness :
  ∃ m, run_thread thread = Some m ∧
    map (λ x : Ordered RetainedUserMessage, (message_text (value x), complete (value x))) (user_messages (manager_retained m)) =
      [(lit "fix the tests", true); (lit "push it", true)] ∧
    ∀ x, x ∈ user_messages (manager_retained m) → sourced true thread (value x).
Proof.
  destruct (run_thread thread) as [m|] eqn:Hm; [|vm_compute in Hm; discriminate Hm].
  destruct (complete_instructions_verbatim true id ThreadOwned Cli thread m Hm) as [Hr Hc].
  exists m. split; [reflexivity|]. vm_compute in Hm. injection Hm as <-. split; [vm_compute; reflexivity|].
  intros x Hx. apply (Hc x Hx). simpl in Hx. apply elem_of_cons in Hx as [->|Hx]; [reflexivity|].
  apply elem_of_cons in Hx as [->|Hx]; [reflexivity|by apply elem_of_nil in Hx].
Defined.

Lemma review_versions_tell_witness :
  ∃ m, run_thread thread = Some m ∧ length (user_messages (manager_retained m)) = 2 ∧
    ∀ m', apply_manager true id m (MRollback 1) = Some m' → (history_version m ≤ history_version m')%N.
Proof.
  destruct (run_thread thread) as [m|] eqn:Hm; [|vm_compute in Hm; discriminate Hm].
  destruct (review_versions_tell true id ThreadOwned Cli thread m Hm) as [_ Hstep].
  exists m. split; [reflexivity|]. split; [vm_compute in Hm; injection Hm as <-; vm_compute; reflexivity|].
  intros m' Ha. by destruct (Hstep _ m' Ha).
Defined.
End ManagerMem.
