(* ===== verification/ReviewTranscript.v ===== *)
(** * ReviewTranscript: the conversation shown to a reviewer
    ([guardian-context/src]: [entry.rs], [transcript.rs], [profile.rs], [profile/window.rs])

    The entries collected from a history, with complete words of the user and capped others;
    the selection of the synchronous reviewer, newest first, and the window of the
    asynchronous one, whose pools evict in chunks; the rendered items with what may become of
    them when a request is too large.  The window keeps its limits, and whatever the limits
    the user's words and manual approvals are all shown, complete and in order. *)
From Stdlib Require Import Sorted.
From S2P Require Import Prelude RustInt RustStr TextTruncate ResponseItems RetainedContext ContextFragments TranscriptHistory.

(** ** Entries ([entry.rs]) *)

Inductive ConversationTranscriptEntryKind :=
| EntryUser
| EntryDeveloper
| EntryAssistant
| EntryProtectedAssistant
| EntryToolCall (label : str)
| EntryToolOutput (label : str)
| EntryNodeReplToolOutput (label : str)
| EntryReasoning.

Definition role (k : ConversationTranscriptEntryKind) : str :=
  match k with
  | EntryUser => lit "user"
  | EntryDeveloper => lit "developer"
  | EntryAssistant | EntryProtectedAssistant => lit "assistant"
  | EntryToolCall label | EntryToolOutput label | EntryNodeReplToolOutput label => label
  | EntryReasoning => lit "reasoning"
  end.

Record ConversationTranscriptEntry := mkEntry {
  entry_kind : ConversationTranscriptEntryKind;
  entry_text : str;
  original_bytes : N;
}.

(** ** Settings *)

Definition MANUAL_APPROVAL_DEVELOPER_PREFIX : str :=
  lit "The user has manually approved a specific action that was previously `Rejected`.".

Record ConversationTranscriptOptions := mkTranscriptOptions {
  include_tool_calls : bool;
  include_tool_outputs : bool;
  include_reasoning : bool;
}.
Record TranscriptEntryLimits := mkEntryLimits {
  message_entry_tokens : N;
  tool_entry_tokens : N;
  node_repl_output_tokens : N;
}.
Record TranscriptRetentionConfig := mkRetentionConfig {
  max_message_transcript_tokens : N;
  max_tool_transcript_tokens : N;
  max_recent_non_user_entries : nat;
}.
Record ConversationTranscriptConfig := mkTranscriptConfig {
  options : ConversationTranscriptOptions;
  entry_limits : TranscriptEntryLimits;
}.

Inductive ContextTarget := Sync | Async.

Record ContextProfile := mkProfile {
  target : ContextTarget;
  profile_transcript : ConversationTranscriptConfig;
  retention_config : TranscriptRetentionConfig;
  include_images : bool;
}.

Definition default_transcript_options : ConversationTranscriptOptions := mkTranscriptOptions true true false.
Definition synchronous : ContextProfile :=
  mkProfile Sync (mkTranscriptConfig default_transcript_options (mkEntryLimits 5000 1000 1000))
    (mkRetentionConfig 20000 10000 40) false.
Definition asynchronous : ContextProfile :=
  mkProfile Async (mkTranscriptConfig default_transcript_options (mkEntryLimits 2000 1000 1000))
    (mkRetentionConfig 10000 10000 40) true.

(** ** Tools backed by a REPL ([protocol/src/mcp.rs]) *)

Definition is_node_repl_backed_server (server : str) : bool :=
  bool_decide (server = lit "node_repl") || bool_decide (server = lit "cua_repl").

Definition is_node_repl_backed_tool (name : str) (namespace : option str) : bool :=
  match namespace with
  | Some namespace =>
      let namespace := default namespace (strip_prefix (lit "mcp__") namespace) in
      is_node_repl_backed_server (default namespace (strip_suffix (lit "__") namespace))
  | None =>
      let name := default name (strip_prefix (lit "mcp__") name) in
      match split_once_str (lit "__") name with
      | Some (server, _) => is_node_repl_backed_server server
      | None => false
      end
  end.

(** ** Texts of items *)

(** [text.trim().is_empty()]. *)
Definition is_blank (text : str) : bool := bool_decide (trim text = []).

Definition shown_text (c : ContentItem) : option str :=
  match c with
  | InputText text | OutputText text => if bool_decide (text = []) then None else Some text
  | InputImage _ _ | InputAudio _ => None
  end.
Definition shown_texts (content : list ContentItem) : str := join [c_nl] (omap shown_text content).

Definition agent_text (part : AgentMessageInputContent) : option str :=
  match part with AgentInputText text => Some text | AgentEncryptedContent _ => None end.
Definition plaintext_agent_message_content (content : list AgentMessageInputContent) : option str :=
  parts ← mapM agent_text content;
  let text := join [c_nl] parts in
  if is_blank text then None else Some text.

Definition output_text_segment (i : FunctionCallOutputContentItem) : option str :=
  match i with OutInputText text => if is_blank text then None else Some text | _ => None end.
Definition function_call_output_content_items_to_text (items : list FunctionCallOutputContentItem) : option str :=
  let text_segments := omap output_text_segment items in
  if bool_decide (text_segments = []) then None else Some (join [c_nl] text_segments).
Definition to_text (b : FunctionCallOutputBody) : option str :=
  match b with TextBody content => Some content | ContentItems items => function_call_output_content_items_to_text items end.

Definition summary_text (s : ReasoningItemReasoningSummary) : str := match s with SummaryText text => text end.
Definition reasoning_text (c : ReasoningItemContent) : str :=
  match c with ReasoningText text | ReasoningPlainText text => text end.

(** What [serde_json] writes for the action of a call; [None] is its error. *)
Class ActionJson := {
  shell_action_json : LocalShellAction → option str;
  web_action_json : WebSearchAction → option str;
}.

(** ** Collection ([transcript.rs]) *)

Section collect.
Context `{Opaque, FragmentReaders, ActionJson}.
Implicit Types (i : ResponseItem).

(** The names of the calls seen so far. *)
Definition ToolNames : Type := gmap str (str * option str).

Definition message_entry (msg_role : str) (content : list ContentItem) (phase : option MessagePhase) :
    option (ConversationTranscriptEntryKind * str) :=
  let text := shown_texts content in
  if bool_decide (msg_role = lit "user") then Some (EntryUser, text)
  else if bool_decide (msg_role = lit "developer") && starts_with MANUAL_APPROVAL_DEVELOPER_PREFIX text
  then Some (EntryDeveloper, text)
  else if bool_decide (msg_role = lit "assistant") then
    match phase with
    | None | Some FinalAnswer =>
        if is_inter_agent_instruction_content content then Some (EntryAssistant, text)
        else Some (EntryProtectedAssistant, text)
    | Some Commentary => Some (EntryAssistant, text)
    end
  else None.

Definition call_output_kind (names : ToolNames) (call_id : str) : ConversationTranscriptEntryKind :=
  match names !! call_id with
  | Some (name, namespace) =>
      let label := lit "tool " ++ name ++ lit " result" in
      if is_node_repl_backed_tool name namespace then EntryNodeReplToolOutput label else EntryToolOutput label
  | None => EntryToolOutput (lit "tool result")
  end.

(** One item: the names known after it, and its kind and text. *)
Definition item_entry (opts : ConversationTranscriptOptions) (names : ToolNames) i :
    ToolNames * option (ConversationTranscriptEntryKind * str) :=
  let call (name : str) namespace arguments call_id :=
    (<[call_id := (name, namespace)]> names,
     if include_tool_calls opts then Some (EntryToolCall (lit "tool " ++ name ++ lit " call"), arguments) else None) in
  let result call_id output :=
    (names,
     if include_tool_outputs opts
     then text ← to_text (body output); Some (call_output_kind names call_id, text) else None) in
  match i with
  | Message _ msg_role content phase _ => (names, message_entry msg_role content phase)
  | AgentMessage _ author _ content _ =>
      (names, text ← plaintext_agent_message_content content;
              Some (EntryAssistant, lit "Agent message from " ++ author ++ lit ":" ++ [c_nl] ++ text))
  | FunctionCall _ name namespace arguments _ call_id _ => call name namespace arguments call_id
  | CustomToolCall _ _ call_id name namespace input _ => call name namespace input call_id
  | FunctionCallOutput _ (Some call_id) _ _ output _ => result call_id output
  | CustomToolCallOutput _ call_id _ output _ => result call_id output
  | FunctionCallOutput _ None (Some name) namespace output _ =>
      (names,
       if include_tool_outputs opts then
         let label := match namespace with
                      | Some namespace => lit "tool " ++ namespace ++ lit "." ++ name ++ lit " result"
                      | None => lit "tool " ++ name ++ lit " result"
                      end in
         Some (EntryToolOutput label, default (lit "[non-text output]") (to_text (body output)))
       else None)
  | Reasoning _ summary content _ _ =>
      (names,
       if include_reasoning opts then
         let texts := map summary_text summary ++ map reasoning_text (default [] content) in
         Some (EntryReasoning, join [c_nl] (filter (λ text, is_blank text = false) texts))
       else None)
  | LocalShellCall _ _ _ action _ =>
      (names, if include_tool_calls opts
              then text ← shell_action_json action; Some (EntryToolCall (lit "tool shell call"), text) else None)
  | WebSearchCall _ _ action _ =>
      (names, if include_tool_calls opts
              then action ← action; text ← web_action_json action;
                   Some (EntryToolCall (lit "tool web_search call"), text)
              else None)
  | FunctionCallOutput _ None None _ _ _ | AdditionalTools _ _ _ | ImageGenerationCall _ _ _ _ _
  | ToolSearchCall _ _ _ _ _ _ | ToolSearchOutput _ _ _ _ _ _ | Compaction _ _ _ | ConfigurationUpdate _
  | CompactionTrigger | ContextCompaction _ _ _ | OtherItem => (names, None)
  end.

Definition capped_text (limits : TranscriptEntryLimits) (kind : ConversationTranscriptEntryKind) (text : str) : str :=
  match kind with
  | EntryUser | EntryDeveloper => text
  | EntryAssistant | EntryProtectedAssistant | EntryReasoning => truncate_review_text text (message_entry_tokens limits)
  | EntryToolCall _ | EntryToolOutput _ => truncate_review_text text (tool_entry_tokens limits)
  | EntryNodeReplToolOutput _ => truncate_review_text text (node_repl_output_tokens limits)
  end.

Definition kept_entry (limits : TranscriptEntryLimits) (e : option (ConversationTranscriptEntryKind * str)) :
    option ConversationTranscriptEntry :=
  '(kind, text) ← e;
  if is_blank text then None else Some (mkEntry kind (capped_text limits kind text) (slen text)).

Fixpoint collect_from (config : ConversationTranscriptConfig) (names : ToolNames) (items : list ResponseItem) :
    list ConversationTranscriptEntry :=
  match items with
  | [] => []
  | i :: items =>
      let '(names, e) := item_entry (options config) names i in
      match kept_entry (entry_limits config) e with
      | Some entry => entry :: collect_from config names items
      | None => collect_from config names items
      end
  end.
Definition collect_transcript (items : list ResponseItem) (config : ConversationTranscriptConfig) :
    list ConversationTranscriptEntry := collect_from config ∅ items.
End collect.

(** ** Numbered entries ([profile.rs]) *)

Definition MIN_RECENT_TOOL_ENTRIES : nat := 5.

Inductive TranscriptEntryKind := KindUser | KindManualApproval | KindProtectedMessage | KindMessage | KindTool.
#[export] Instance TranscriptEntryKind_eq : EqDecision TranscriptEntryKind.
Proof. solve_decision. Defined.

Record TranscriptEntry := mkTranscriptEntry {
  kind : TranscriptEntryKind;
  rendered : str;
  tokens : N;
  entry_original_bytes : N;
  entry_retained_bytes : N;
}.

Definition transcript_entry_kind (k : ConversationTranscriptEntryKind) : TranscriptEntryKind :=
  match k with
  | EntryUser => KindUser
  | EntryDeveloper => KindManualApproval
  | EntryProtectedAssistant => KindProtectedMessage
  | EntryAssistant | EntryReasoning => KindMessage
  | EntryToolCall _ | EntryToolOutput _ | EntryNodeReplToolOutput _ => KindTool
  end.

Definition entry_line (t : ContextTarget) (number : N) (e : ConversationTranscriptEntry) : str :=
  lit "[" ++ fmt_N number ++ lit "] " ++ role (entry_kind e) ++ lit ": " ++ entry_text e
    ++ match t with Sync => [] | Async => [c_nl] end.

Definition numbered_entry (t : ContextTarget) (number : N) (e : ConversationTranscriptEntry) : TranscriptEntry :=
  let text := entry_line t number e in
  mkTranscriptEntry (transcript_entry_kind (entry_kind e)) text (token_budget (Bytes (slen text)))
    (original_bytes e) (slen (entry_text e)).

Fixpoint number_from (t : ContextTarget) (number : N) (es : list ConversationTranscriptEntry) : list TranscriptEntry :=
  match es with
  | [] => []
  | e :: es => numbered_entry t number e :: number_from t (number + 1) es
  end.

Definition is_authorization (k : TranscriptEntryKind) : bool :=
  match k with KindUser | KindManualApproval => true | _ => false end.

Definition authorization_tokens (es : list TranscriptEntry) : N :=
  foldl (λ n e, if is_authorization (kind e) then sat_add n (tokens e) else n) 0%N es.

(** ** The synchronous selection *)

(** The loop from the newest entry; the flags are those of the entries seen. *)
Record SyncSelection := mkSyncSelection {
  message_tokens : N;
  tool_tokens : N;
  retained_non_user_entries : nat;
  included_flags : list bool;
}.

Definition sync_step (config : TranscriptRetentionConfig) (e : TranscriptEntry) (s : SyncSelection) : SyncSelection :=
  if is_authorization (kind e)
  then mkSyncSelection (message_tokens s) (tool_tokens s) (retained_non_user_entries s) (true :: included_flags s)
  else if max_recent_non_user_entries config <=? retained_non_user_entries s
  then mkSyncSelection (message_tokens s) (tool_tokens s) (retained_non_user_entries s) (false :: included_flags s)
  else if decide (kind e = KindTool) then
    if (sat_add (tool_tokens s) (tokens e) <=? max_tool_transcript_tokens config)%N
    then mkSyncSelection (message_tokens s) (tool_tokens s + tokens e) (S (retained_non_user_entries s)) (true :: included_flags s)
    else mkSyncSelection (message_tokens s) (tool_tokens s) (retained_non_user_entries s) (false :: included_flags s)
  else
    if (sat_add (message_tokens s) (tokens e) <=? max_message_transcript_tokens config)%N
    then mkSyncSelection (message_tokens s + tokens e) (tool_tokens s) (S (retained_non_user_entries s)) (true :: included_flags s)
    else mkSyncSelection (message_tokens s) (tool_tokens s) (retained_non_user_entries s) (false :: included_flags s).

Definition sync_selection (config : TranscriptRetentionConfig) (es : list TranscriptEntry) : SyncSelection :=
  foldr (sync_step config) (mkSyncSelection (authorization_tokens es) 0 0 []) es.

(** ** The asynchronous window ([window.rs]) *)

(** The oldest index is the head. *)
Record EntryPool := mkPool { indices : list nat; pool_tokens : N }.
Definition empty_pool : EntryPool := mkPool [] 0.

Inductive PoolKind := ProtectedMessages | OrdinaryMessages | Tools.
#[export] Instance PoolKind_eq : EqDecision PoolKind.
Proof. solve_decision. Defined.

(** No pool holds the entries that are selected separately; asking for theirs is
    unreachable in the code. *)
Definition pool_kind (k : TranscriptEntryKind) : option PoolKind :=
  match k with
  | KindUser | KindManualApproval => None
  | KindProtectedMessage => Some ProtectedMessages
  | KindMessage => Some OrdinaryMessages
  | KindTool => Some Tools
  end.

Section window.
(** [entries[index].tokens], the retention limits and what is left for messages. *)
Context (entry_tokens : nat → N) (config : TranscriptRetentionConfig) (message_token_budget : N).

Record TranscriptWindow := mkWindow {
  protected_messages : EntryPool;
  ordinary_messages : EntryPool;
  tools : EntryPool;
}.
Implicit Types (w : TranscriptWindow) (p : EntryPool) (k : PoolKind).

Definition new_window : TranscriptWindow := mkWindow empty_pool empty_pool empty_pool.

Definition push p (index : nat) (n : N) : EntryPool := mkPool (indices p ++ [index]) (pool_tokens p + n).
Definition pop_oldest p : EntryPool :=
  match indices p with
  | index :: rest => mkPool rest (pool_tokens p - entry_tokens index)
  | [] => p
  end.
Definition evict_oldest p (count : nat) : EntryPool :=
  Nat.iter (count `min` length (indices p)) pop_oldest p.

Definition pool w k : EntryPool :=
  match k with ProtectedMessages => protected_messages w | OrdinaryMessages => ordinary_messages w | Tools => tools w end.
(** Writing through [pool_mut]. *)
Definition set_pool w k p : TranscriptWindow :=
  match k with
  | ProtectedMessages => mkWindow p (ordinary_messages w) (tools w)
  | OrdinaryMessages => mkWindow (protected_messages w) p (tools w)
  | Tools => mkWindow (protected_messages w) (ordinary_messages w) p
  end.

Definition has_token_capacity w k (n token_budget : N) : bool :=
  let retained_tokens :=
    match k with
    | ProtectedMessages | OrdinaryMessages =>
        sat_add (pool_tokens (protected_messages w)) (pool_tokens (ordinary_messages w))
    | Tools => pool_tokens (tools w)
    end in
  (sat_add retained_tokens n <=? token_budget)%N.

(** The [while] loop, which ends when the pool of [ek] is empty. *)
Fixpoint pop_until (fuel : nat) w k ek (n token_budget : N) : TranscriptWindow :=
  match fuel with
  | O => w
  | S fuel =>
      if has_token_capacity w k n token_budget then w
      else match indices (pool w ek) with
           | [] => w
           | _ :: _ => pop_until fuel (set_pool w ek (pop_oldest (pool w ek))) k ek n token_budget
           end
  end.

Definition half_up (n : nat) : nat := Nat.div2 (S n).

(** One kind of the eviction order; once there is capacity the others are left alone. *)
Definition evict_for k (n token_budget : N) w ek : TranscriptWindow :=
  if has_token_capacity w k n token_budget then w
  else
    let pool_len := length (indices (pool w ek)) in
    if pool_len =? 0 then w
    else
      let w := set_pool w ek (evict_oldest (pool w ek) (half_up pool_len)) in
      pop_until pool_len w k ek n token_budget.

Definition kind_token_budget k : N :=
  match k with
  | ProtectedMessages | OrdinaryMessages => message_token_budget
  | Tools => max_tool_transcript_tokens config
  end.
Definition eviction_order k : list PoolKind :=
  match k with
  | ProtectedMessages => [OrdinaryMessages; ProtectedMessages]
  | OrdinaryMessages => [OrdinaryMessages]
  | Tools => [Tools]
  end.

Definition make_room_for_token_budget w k (n : N) : TranscriptWindow * bool :=
  let token_budget := kind_token_budget k in
  let protected_tokens :=
    if decide (k = OrdinaryMessages) then pool_tokens (protected_messages w) else 0%N in
  if (token_budget <? sat_add protected_tokens n)%N then (w, false)
  else
    let w := foldl (evict_for k n token_budget) w (eviction_order k) in
    (w, has_token_capacity w k n token_budget).

(** The pool that holds the oldest removable evidence; there is one while some is removable. *)
Definition evidence_pool (minimum_existing_tools : nat) w : option PoolKind :=
  let oldest_tool :=
    if minimum_existing_tools <? length (indices (tools w)) then head (indices (tools w)) else None in
  match head (indices (ordinary_messages w)), oldest_tool with
  | Some message, Some tool => if message <? tool then Some OrdinaryMessages else Some Tools
  | None, Some _ => Some Tools
  | Some _, None => Some OrdinaryMessages
  | None, None => None
  end.
Definition evict_evidence (minimum_existing_tools : nat) w : TranscriptWindow :=
  match evidence_pool minimum_existing_tools w with
  | Some k => set_pool w k (pop_oldest (pool w k))
  | None => w
  end.

Definition retained_count w : nat :=
  length (indices (protected_messages w)) + length (indices (ordinary_messages w)) + length (indices (tools w)).

Definition make_room_for_entry_limit w k : TranscriptWindow * bool :=
  let max_entries := max_recent_non_user_entries config in
  if retained_count w <? max_entries then (w, true)
  else
    let minimum_existing_tools :=
      MIN_RECENT_TOOL_ENTRIES `min` (max_entries - 1) - (if decide (k = Tools) then 1 else 0) in
    let removable_tools := length (indices (tools w)) - minimum_existing_tools in
    let removable_count := length (indices (ordinary_messages w)) + removable_tools in
    if 0 <? removable_count then
      let evidence_count := length (indices (ordinary_messages w)) + length (indices (tools w)) in
      let eviction_count := half_up evidence_count `min` removable_count in
      (Nat.iter eviction_count (evict_evidence minimum_existing_tools) w, true)
    else if decide (k = OrdinaryMessages) then (w, false)
    else
      let protected_count := length (indices (protected_messages w)) in
      (set_pool w ProtectedMessages (evict_oldest (protected_messages w) (half_up protected_count)), true).

Definition window_insert w (index : nat) (entry_kind : TranscriptEntryKind) : TranscriptWindow :=
  match pool_kind entry_kind with
  | None => w
  | Some k =>
      if max_recent_non_user_entries config =? 0 then w
      else
        let '(w, room) := make_room_for_token_budget w k (entry_tokens index) in
        if negb room then w
        else
          let '(w, room) := make_room_for_entry_limit w k in
          if negb room then w else set_pool w k (push (pool w k) index (entry_tokens index))
  end.

(** The insertions of [for index in 0..entries.len()]. *)
Fixpoint insert_from w (index : nat) (es : list TranscriptEntry) : TranscriptWindow :=
  match es with
  | [] => w
  | e :: es => insert_from (window_insert w index (kind e)) (S index) es
  end.

Definition into_indices w : list nat :=
  indices (protected_messages w) ++ indices (ordinary_messages w) ++ indices (tools w).
End window.

(** ** What may become of an item *)

(** Older items of the same priority go first; the order is that of the constructors. *)
Inductive BudgetPriority := PriorityToolDescription | PriorityCommentary | PriorityTool | PriorityImage.
Inductive Retention := Required | Historical | Optional (priority : BudgetPriority).
#[export] Instance BudgetPriority_eq : EqDecision BudgetPriority.
Proof. solve_decision. Defined.
#[export] Instance Retention_eq : EqDecision Retention.
Proof. solve_decision. Defined.

Record Budgeted (T : Type) := mkBudgeted { content : T; retention : Retention }.
Arguments mkBudgeted {T}.
Arguments content {T}.
Arguments retention {T}.

Record TruncationObservation := mkObservation {
  component : string;
  observed_original_bytes : N;
  observed_retained_bytes : N;
}.

Record RenderedTranscript := mkRenderedTranscript {
  items : list (Budgeted str);
  omission_note : option str;
  truncations : list TruncationObservation;
}.

(** ** Rendering *)

Definition included (p : ContextProfile) (es : list TranscriptEntry) : list bool :=
  match target p with
  | Sync => included_flags (sync_selection (retention_config p) es)
  | Async =>
      let available := sat_sub (max_message_transcript_tokens (retention_config p)) (authorization_tokens es) in
      let entry_tokens index := from_option tokens 0%N (es !! index) in
      let w := insert_from entry_tokens (retention_config p) available new_window 0 es in
      imap (λ index e, is_authorization (kind e) || bool_decide (index ∈ into_indices w)) es
  end.

Definition kind_retention (k : TranscriptEntryKind) : Retention :=
  match k with
  | KindUser | KindManualApproval => Historical
  | KindProtectedMessage => Required
  | KindMessage => Optional PriorityCommentary
  | KindTool => Optional PriorityTool
  end.
Definition kind_component (k : TranscriptEntryKind) : string :=
  match k with
  | KindUser => "transcript_user"
  | KindManualApproval | KindProtectedMessage | KindMessage => "transcript_message"
  | KindTool => "transcript_tool"
  end.

Definition selected (flagged : list (bool * TranscriptEntry)) : list TranscriptEntry :=
  omap (λ fe : bool * TranscriptEntry, if fe.1 then Some fe.2 else None) flagged.

Definition transcript_truncation (t : ContextTarget) (fe : bool * TranscriptEntry) : option TruncationObservation :=
  let retained_bytes := if fe.1 then entry_retained_bytes fe.2 else 0%N in
  match t with
  | Async =>
      if (retained_bytes <? entry_original_bytes fe.2)%N
      then Some (mkObservation (kind_component (kind fe.2)) (entry_original_bytes fe.2) retained_bytes) else None
  | Sync => None
  end.

(** The newest [n] tool items are required. *)
Definition is_tool_item (i : Budgeted str) : bool := bool_decide (retention i = Optional PriorityTool).
Definition require_recent_tools (rs : list (Budgeted str)) : nat * list (Budgeted str) :=
  foldr (λ i '(n, rs),
    match n with
    | S n' => if is_tool_item i then (n', mkBudgeted (content i) Required :: rs) else (n, i :: rs)
    | O => (n, i :: rs)
    end) (MIN_RECENT_TOOL_ENTRIES, []) rs.

Definition render_transcript (p : ContextProfile) (entries : list ConversationTranscriptEntry) (entry_number_offset : N) :
    RenderedTranscript :=
  let es := number_from (target p) (entry_number_offset + 1) entries in
  let flagged := zip (included p es) es in
  let omitted := existsb (λ fe : bool * TranscriptEntry, negb fe.1) flagged in
  mkRenderedTranscript
    (require_recent_tools (map (λ e, mkBudgeted (rendered e) (kind_retention (kind e))) (selected flagged))).2
    (match target p with
     | Sync => if omitted then Some (lit "Some conversation entries were omitted.") else None
     | Async => None
     end)
    (omap (transcript_truncation (target p)) flagged).

(** * The window keeps its limits *)

Fixpoint sum_by {A} (f : A → N) (l : list A) : N :=
  match l with [] => 0%N | x :: l => (f x + sum_by f l)%N end.

Lemma sum_by_app {A} (f : A → N) l k : sum_by f (l ++ k) = (sum_by f l + sum_by f k)%N.
Proof. induction l as [|x l IH]; [done|]. simpl. rewrite IH. lia. Qed.

Lemma sum_by_submseteq {A} (f : A → N) l k : l ⊆+ k → (sum_by f l ≤ sum_by f k)%N.
Proof. induction 1; simpl; lia. Qed.

Lemma sum_by_suffix {A} (f : A → N) l k : l `suffix_of` k → (sum_by f l ≤ sum_by f k)%N.
Proof. intros [d ->]. rewrite sum_by_app. lia. Qed.

Lemma half_up_pos n : 0 < n → 0 < half_up n.
Proof. intros Hn. unfold half_up. destruct n as [|n]; [lia|]. simpl. apply Nat.lt_0_succ. Qed.

Section window_facts.
Context (entry_tokens : nat → N) (config : TranscriptRetentionConfig) (message_token_budget : N).
Implicit Types (w : TranscriptWindow) (p : EntryPool) (k : PoolKind).

Definition pool_ok p : Prop := pool_tokens p = sum_by entry_tokens (indices p).

(** What is left of a pool, or of the pools of a window, after evictions of the oldest. *)
Definition pool_left p p' : Prop := pool_ok p' ∧ indices p' `suffix_of` indices p.
Definition left_over w w' : Prop := ∀ k, pool_left (pool w k) (pool w' k).
Definition all_pools_ok w : Prop := ∀ k, pool_ok (pool w k).

Lemma left_over_refl w : all_pools_ok w → left_over w w.
Proof. intros Hw k. by split. Qed.

Lemma left_over_trans w1 w2 w3 : left_over w1 w2 → left_over w2 w3 → left_over w1 w3.
Proof. intros H12 H23 k. destruct (H12 k) as [_ Ha], (H23 k) as [Hok Hb]. split; [done|]. by etrans. Qed.

Lemma left_over_ok w w' : left_over w w' → all_pools_ok w'.
Proof. intros Hl k. apply Hl. Qed.

Lemma left_tokens w w' k : all_pools_ok w → left_over w w' → (pool_tokens (pool w' k) ≤ pool_tokens (pool w k))%N.
Proof. intros Hw Hl. destruct (Hl k) as [Hok Hs]. rewrite Hok, (Hw k). by apply sum_by_suffix. Qed.

Lemma pop_left p : pool_ok p → pool_left p (pop_oldest entry_tokens p).
Proof.
  intros Hp. unfold pool_left, pool_ok, pop_oldest in *. destruct (indices p) as [|i rest] eqn:E; [by rewrite E|].
  simpl. rewrite Hp. simpl. split; [lia|]. by apply suffix_cons_r.
Qed.

Lemma pop_length p : length (indices (pop_oldest entry_tokens p)) = length (indices p) - 1.
Proof. unfold pop_oldest. destruct (indices p) eqn:E; simpl; [by rewrite E|lia]. Qed.

Lemma evict_oldest_left p n :
  pool_ok p → pool_left p (evict_oldest entry_tokens p n) ∧
  length (indices (evict_oldest entry_tokens p n)) = length (indices p) - n.
Proof.
  intros Hp. unfold evict_oldest. set (m := n `min` length (indices p)).
  replace (length (indices p) - n) with (length (indices p) - m) by lia. clearbody m.
  induction m as [|m [[Hok Hs] Hl]]; simpl; [split; [done|lia]|].
  destruct (pop_left _ Hok) as [Hok' Hs']. split; [split; [done|by etrans]|]. rewrite pop_length. lia.
Qed.

Lemma pool_set_pool w k p k' : pool (set_pool w k p) k' = if decide (k = k') then p else pool w k'.
Proof. by destruct k, k'. Qed.

Lemma set_pool_left w k p : all_pools_ok w → pool_left (pool w k) p → left_over w (set_pool w k p).
Proof. intros Hw Hp k'. rewrite pool_set_pool. destruct (decide (k = k')) as [<-|]; [done|]. by apply left_over_refl. Qed.

Lemma retained_count_left w w' : left_over w w' → retained_count w' ≤ retained_count w.
Proof.
  intros Hl. unfold retained_count. pose proof (suffix_length _ _ (proj2 (Hl ProtectedMessages))).
  pose proof (suffix_length _ _ (proj2 (Hl OrdinaryMessages))). pose proof (suffix_length _ _ (proj2 (Hl Tools))).
  simpl in *. lia.
Qed.

Lemma retained_count_set w k p :
  retained_count (set_pool w k p) + length (indices (pool w k)) = retained_count w + length (indices p).
Proof. unfold retained_count. destruct k; simpl; lia. Qed.

(** The popping loop stops only with capacity or an empty pool. *)
Lemma pop_until_left fuel w k ek n b :
  all_pools_ok w → left_over w (pop_until entry_tokens fuel w k ek n b) ∧
  (length (indices (pool w ek)) ≤ fuel →
   has_token_capacity (pop_until entry_tokens fuel w k ek n b) k n b = true ∨
   indices (pool (pop_until entry_tokens fuel w k ek n b) ek) = []).
Proof.
  revert w. induction fuel as [|fuel IH]; intros w Hw; simpl.
  { split; [by apply left_over_refl|]. intros Hl. right. destruct (indices _); [done|]. simpl in Hl. lia. }
  destruct (has_token_capacity w k n b) eqn:Hc; [split; [by apply left_over_refl|by left]|].
  destruct (indices (pool w ek)) as [|i rest] eqn:E; [split; [by apply left_over_refl|by right]|].
  assert (left_over w (set_pool w ek (pop_oldest entry_tokens (pool w ek)))) as H1'.
  { apply set_pool_left; [done|]. by apply pop_left. }
  destruct (IH _ (left_over_ok _ _ H1')) as [Hl Hd]. split; [by eapply left_over_trans|]. intros Hf. apply Hd.
  rewrite pool_set_pool, decide_True by done. rewrite pop_length, E. simpl in *. lia.
Qed.

Lemma evict_for_left k n b w ek : all_pools_ok w → left_over w (evict_for entry_tokens k n b w ek).
Proof.
  intros Hw. unfold evict_for. destruct (has_token_capacity _ _ _ _); [by apply left_over_refl|].
  destruct (_ =? 0); [by apply left_over_refl|].
  assert (left_over w (set_pool w ek (evict_oldest entry_tokens (pool w ek) (half_up (length (indices (pool w ek))))))) as H1'.
  { apply set_pool_left; [done|]. by apply evict_oldest_left. }
  eapply left_over_trans; [exact H1'|]. by apply pop_until_left, (left_over_ok _ _ H1').
Qed.

Lemma evict_for_all k n b eks w :
  all_pools_ok w → left_over w (foldl (evict_for entry_tokens k n b) w eks).
Proof.
  revert w. induction eks as [|ek eks IH]; intros w Hw; simpl; [by apply left_over_refl|].
  pose proof (evict_for_left k n b w ek Hw) as H1'. eapply left_over_trans; [exact H1'|]. by apply IH, (left_over_ok _ _ H1').
Qed.

Lemma make_room_tokens w k n w' room :
  all_pools_ok w → make_room_for_token_budget entry_tokens config message_token_budget w k n = (w', room) →
  left_over w w' ∧ (room = true → has_token_capacity w' k n (kind_token_budget config message_token_budget k) = true).
Proof.
  intros Hw. unfold make_room_for_token_budget. destruct (_ <? _)%N.
  - intros [= <- <-]. split; [by apply left_over_refl|done].
  - intros [= <- <-]. split; [by apply evict_for_all|done].
Qed.

Lemma evict_evidence_left m w : all_pools_ok w → left_over w (evict_evidence entry_tokens m w).
Proof.
  intros Hw. unfold evict_evidence. destruct (evidence_pool m w) as [k|]; [|by apply left_over_refl].
  apply set_pool_left; [done|]. by apply pop_left.
Qed.

Lemma evict_evidence_iter m c w : all_pools_ok w → left_over w (Nat.iter c (evict_evidence entry_tokens m) w).
Proof.
  intros Hw. induction c as [|c IH]; simpl; [by apply left_over_refl|].
  eapply left_over_trans; [exact IH|]. by apply evict_evidence_left, (left_over_ok _ _ IH).
Qed.

(** While something is removable, a step removes it. *)
Lemma evict_evidence_lt m w :
  0 < length (indices (ordinary_messages w)) + (length (indices (tools w)) - m) →
  retained_count (evict_evidence entry_tokens m w) < retained_count w.
Proof.
  intros Hr. unfold evict_evidence.
  assert (∃ k, evidence_pool m w = Some k ∧ 0 < length (indices (pool w k))) as (k & -> & Hk).
  { unfold evidence_pool. destruct (indices (ordinary_messages w)) as [|i l] eqn:Ho; simpl.
    - simpl in Hr. rewrite (proj2 (Nat.ltb_lt _ _)) by lia.
      destruct (indices (tools w)) eqn:Ht; simpl in *; [lia|]. exists Tools. simpl. rewrite Ht. simpl. split; [done|lia].
    - assert (0 < length (indices (pool w OrdinaryMessages))) by (simpl; rewrite Ho; simpl; lia).
      destruct (m <? length (indices (tools w))); [|by exists OrdinaryMessages].
      destruct (indices (tools w)) as [|j l'] eqn:Ht; simpl; [by exists OrdinaryMessages|].
      destruct (i <? j); [by exists OrdinaryMessages|]. exists Tools. simpl. rewrite Ht. simpl. split; [done|lia]. }
  pose proof (retained_count_set w k (pop_oldest entry_tokens (pool w k))) as Hs. rewrite pop_length in Hs. lia.
Qed.

Lemma make_room_entries w k w' room :
  all_pools_ok w → 0 < max_recent_non_user_entries config → retained_count w ≤ max_recent_non_user_entries config →
  make_room_for_entry_limit entry_tokens config w k = (w', room) →
  left_over w w' ∧ (room = true → retained_count w' < max_recent_non_user_entries config).
Proof.
  intros Hw Hmax Hc. unfold make_room_for_entry_limit. destruct (retained_count w <? _) eqn:E.
  { apply Nat.ltb_lt in E. intros [= <- <-]. split; [by apply left_over_refl|done]. }
  set (m := MIN_RECENT_TOOL_ENTRIES `min` _ - _). destruct (0 <? _) eqn:Er.
  - apply Nat.ltb_lt in Er. intros [= <- <-]. split; [by apply evict_evidence_iter|]. intros _.
    set (c := _ `min` _). assert (0 < c) as Hcp.
    { unfold c. apply Nat.min_glb_lt; [|lia]. apply half_up_pos. lia. }
    destruct c as [|c]; [lia|]. rewrite Nat.iter_succ_r. pose proof (evict_evidence_lt m w Er) as Hlt.
    pose proof (evict_evidence_left m w Hw) as Hl.
    pose proof (retained_count_left _ _ (evict_evidence_iter m c _ (left_over_ok _ _ Hl))). lia.
  - apply Nat.ltb_ge in Er. apply Nat.ltb_ge in E. destruct (decide (k = OrdinaryMessages)).
    { intros [= <- <-]. split; [by apply left_over_refl|done]. }
    intros [= <- <-]. set (half := half_up (length (indices (protected_messages w)))).
    destruct (evict_oldest_left (protected_messages w) half (Hw ProtectedMessages)) as [Hl Hn].
    split; [by apply (set_pool_left w ProtectedMessages)|]. intros _.
    pose proof (retained_count_set w ProtectedMessages (evict_oldest entry_tokens (protected_messages w) half)) as Hs.
    unfold retained_count in E. assert (0 < length (indices (protected_messages w))) as Hp.
    { destruct (decide (k = Tools)); unfold m, MIN_RECENT_TOOL_ENTRIES in *; lia. }
    pose proof (half_up_pos _ Hp) as Hhalf. fold half in Hhalf. simpl in Hs. rewrite Hn in Hs. lia.
Qed.
End window_facts.

Section window_inv.
Context (es : list TranscriptEntry) (config : TranscriptRetentionConfig) (message_token_budget : N).
Let entry_tokens index := from_option tokens 0%N (es !! index).
Implicit Types (w : TranscriptWindow) (k : PoolKind).
Context (messages_fit : (message_token_budget < usize_max)%N)
  (tools_fit : (max_tool_transcript_tokens config < usize_max)%N).

Definition within_limits w : Prop :=
  retained_count w ≤ max_recent_non_user_entries config ∧
  (pool_tokens (protected_messages w) + pool_tokens (ordinary_messages w) ≤ message_token_budget)%N ∧
  (pool_tokens (tools w) ≤ max_tool_transcript_tokens config)%N.
Definition of_kinds w : Prop :=
  ∀ k i, i ∈ indices (pool w k) → ∃ e, es !! i = Some e ∧ pool_kind (kind e) = Some k.
Definition window_inv w : Prop := all_pools_ok entry_tokens w ∧ within_limits w ∧ of_kinds w.

Lemma window_inv_new : window_inv new_window.
Proof.
  split; [by intros []|]. split; [unfold within_limits, retained_count; simpl; lia|].
  intros [] i Hi; by apply elem_of_nil in Hi.
Qed.

Lemma window_inv_left w w' : window_inv w → left_over entry_tokens w w' → window_inv w'.
Proof.
  intros (Hok & (Hc & Hm & Ht) & Hk) Hl. split; [by eapply left_over_ok|]. split.
  - split; [pose proof (retained_count_left _ _ _ Hl); lia|].
    pose proof (left_tokens _ _ _ ProtectedMessages Hok Hl). pose proof (left_tokens _ _ _ OrdinaryMessages Hok Hl).
    pose proof (left_tokens _ _ _ Tools Hok Hl). simpl in *. lia.
  - intros k i Hi. apply Hk. destruct (Hl k) as [_ [d Hd]]. rewrite Hd, elem_of_app. by right.
Qed.

Lemma capacity_left w w' k n b :
  all_pools_ok entry_tokens w → left_over entry_tokens w w' →
  has_token_capacity w k n b = true → has_token_capacity w' k n b = true.
Proof.
  intros Hok Hl. pose proof (left_tokens _ _ _ ProtectedMessages Hok Hl). pose proof (left_tokens _ _ _ OrdinaryMessages Hok Hl).
  pose proof (left_tokens _ _ _ Tools Hok Hl). unfold has_token_capacity, sat_add. simpl in *.
  destruct k; rewrite !N.leb_le; lia.
Qed.

Lemma window_inv_push w k i e :
  window_inv w → es !! i = Some e → pool_kind (kind e) = Some k →
  retained_count w < max_recent_non_user_entries config →
  has_token_capacity w k (entry_tokens i) (kind_token_budget config message_token_budget k) = true →
  window_inv (set_pool w k (push (pool w k) i (entry_tokens i))).
Proof.
  intros (Hok & (_ & Hm & Ht) & Hk) He Hkind Hc Hcap. split; [|split].
  - intros k'. rewrite pool_set_pool. destruct (decide (k = k')) as [<-|]; [|apply Hok].
    unfold pool_ok. simpl. rewrite sum_by_app. simpl. rewrite (Hok k). lia.
  - pose proof (retained_count_set w k (push (pool w k) i (entry_tokens i))) as Hs. simpl in Hs. rewrite length_app in Hs.
    simpl in Hs. split; [lia|]. unfold has_token_capacity, sat_add in Hcap. apply N.leb_le in Hcap.
    destruct k; simpl in *; lia.
  - intros k' j. rewrite pool_set_pool. destruct (decide (k = k')) as [<-|]; [|apply Hk].
    simpl. rewrite elem_of_app, list_elem_of_singleton. intros [Hj| ->]; [by apply Hk|eauto].
Qed.

Lemma window_inv_insert w i e :
  es !! i = Some e → window_inv w →
  window_inv (window_insert entry_tokens config message_token_budget w i (kind e)).
Proof.
  intros He Hw. unfold window_insert. destruct (pool_kind (kind e)) as [k|] eqn:Hk; [|done].
  destruct (_ =? 0) eqn:E0; [done|]. apply Nat.eqb_neq in E0.
  destruct (make_room_for_token_budget _ _ _ _ _ _) as [w1 room1] eqn:E1.
  destruct (make_room_tokens _ _ _ _ _ _ _ _ (proj1 Hw) E1) as [Hl1 Hcap].
  pose proof (window_inv_left _ _ Hw Hl1) as Hw1. destruct room1; [|done]. simpl.
  destruct (make_room_for_entry_limit _ _ _ _) as [w2 room2] eqn:E2.
  destruct (make_room_entries entry_tokens config w1 k w2 room2) as [Hl2 Hlt]; [apply Hw1|lia|apply Hw1|done|].
  pose proof (window_inv_left _ _ Hw1 Hl2) as Hw2. destruct room2; [|done]. simpl.
  apply window_inv_push with e; try done; [by apply Hlt|]. eapply capacity_left; [apply Hw1|exact Hl2|by apply Hcap].
Qed.

Lemma window_inv_from w done rest :
  es = done ++ rest → window_inv w →
  window_inv (insert_from entry_tokens config message_token_budget w (length done) rest).
Proof.
  revert done w. induction rest as [|e rest IH]; intros done w Hes Hw; simpl; [exact Hw|].
  replace (S (length done)) with (length (done ++ [e])) by (rewrite length_app; simpl; lia).
  apply IH; [by rewrite <- app_assoc|]. apply window_inv_insert; [|exact Hw]. by rewrite Hes, list_lookup_middle.
Qed.
End window_inv.

(** * The selection keeps its limits *)

Definition is_message_kind (k : TranscriptEntryKind) : bool :=
  match k with KindProtectedMessage | KindMessage => true | _ => false end.
Definition is_tool_kind (k : TranscriptEntryKind) : bool := bool_decide (k = KindTool).
Definition of_kind (f : TranscriptEntryKind → bool) (es : list TranscriptEntry) : list TranscriptEntry :=
  List.filter (λ e, f (kind e)) es.

(** The shown entries of some kinds: how many, and their tokens. *)
Definition tokens_of (f : TranscriptEntryKind → bool) (es : list TranscriptEntry) : N :=
  sum_by tokens (of_kind f es).

Record selection_ok (config : TranscriptRetentionConfig) (es sel : list TranscriptEntry) : Prop := {
  sel_sublist : sel `sublist_of` es;
  sel_authorization : of_kind is_authorization sel = of_kind is_authorization es;
  sel_count : length (of_kind (negb ∘ is_authorization) sel) ≤ max_recent_non_user_entries config;
  sel_tools : (tokens_of is_tool_kind sel ≤ max_tool_transcript_tokens config)%N;
  sel_messages :
    (tokens_of is_message_kind sel ≤ max_message_transcript_tokens config - authorization_tokens es)%N;
}.

Lemma selected_cons (b : bool) fs e (es : list TranscriptEntry) :
  selected (zip (b :: fs) (e :: es)) = (if b then [e] else []) ++ selected (zip fs es).
Proof. by destruct b. Qed.

Lemma selected_sublist fs es : selected (zip fs es) `sublist_of` es.
Proof.
  revert fs. induction es as [|e es IH]; intros [|b fs]; try apply sublist_nil_l.
  rewrite selected_cons. destruct b; simpl; by constructor.
Qed.

(** ** Synchronous *)

Lemma sync_invariant config auth es :
  (max_tool_transcript_tokens config < usize_max)%N → (max_message_transcript_tokens config < usize_max)%N →
  let s := foldr (sync_step config) (mkSyncSelection auth 0 0 []) es in
  let sel := selected (zip (included_flags s) es) in
  length (included_flags s) = length es ∧
  of_kind is_authorization sel = of_kind is_authorization es ∧
  retained_non_user_entries s = length (of_kind (negb ∘ is_authorization) sel) ∧
  retained_non_user_entries s ≤ max_recent_non_user_entries config ∧
  tool_tokens s = tokens_of is_tool_kind sel ∧ (tool_tokens s ≤ max_tool_transcript_tokens config)%N ∧
  message_tokens s = (auth + tokens_of is_message_kind sel)%N ∧
  (tokens_of is_message_kind sel ≤ max_message_transcript_tokens config - auth)%N.
Proof.
  intros Htool Hmsg. induction es as [|e es IH]; simpl.
  { split_and!; try done; unfold tokens_of; simpl; lia. }
  set (s := foldr _ _ es) in *. simpl in IH. destruct IH as (Hl & Ha & Hn & Hmax & Ht & Htm & Hm & Hmm).
  unfold sync_step, tokens_of, sat_add in *. destruct e as [k text n ob rb].
  destruct k; simpl; repeat (case_match; simpl); rewrite ?selected_cons; simpl;
    rewrite ?N.leb_le, ?N.leb_gt, ?Nat.leb_gt in *; split_and!; try done; try congruence; try lia.
Qed.

(** ** Asynchronous *)

(** The places of the shown entries of some kinds. *)
Definition places (f : nat → TranscriptEntry → bool) (g : TranscriptEntryKind → bool) (es : list TranscriptEntry) : list nat :=
  List.filter (λ i, match es !! i with Some e => f i e && g (kind e) | None => false end) (seq 0 (length es)).

Lemma filter_map {A B} (h : A → B) (q : B → bool) l : List.filter q (map h l) = map h (List.filter (λ x, q (h x)) l).
Proof. induction l as [|x l IH]; [done|]. simpl. destruct (q (h x)); simpl; by rewrite IH. Qed.

Lemma places_cons f g e es :
  places f g (e :: es) = (if f 0 e && g (kind e) then [0] else []) ++ map S (places (λ i, f (S i)) g es).
Proof.
  unfold places. simpl. rewrite <- seq_shift, filter_map. simpl. by destruct (f 0 e && g (kind e)).
Qed.

Lemma sum_by_map {A B} (h : A → B) (q : B → N) l : sum_by q (map h l) = sum_by (λ x, q (h x)) l.
Proof. induction l as [|x l IH]; [done|]. simpl. by rewrite IH. Qed.

Lemma of_kind_split g es es' : of_kind g (es ++ es') = of_kind g es ++ of_kind g es'.
Proof. apply List.filter_app. Qed.

Lemma places_spec f g es :
  let shown := of_kind g (selected (zip (imap f es) es)) in
  length shown = length (places f g es) ∧
  sum_by tokens shown = sum_by (λ i, from_option tokens 0%N (es !! i)) (places f g es).
Proof.
  simpl. revert f. induction es as [|e es IH]; intros f; [done|].
  change (imap f (e :: es)) with (f 0 e :: imap (λ i, f (S i)) es). rewrite places_cons, selected_cons, of_kind_split.
  destruct (IH (λ i, f (S i))) as [Hl Hs]. rewrite !length_app, length_map, !sum_by_app, sum_by_map, Hl, Hs. simpl.
  destruct (f 0 e); simpl; [|done]. by destruct (g (kind e)).
Qed.

Lemma places_in f g es i : i ∈ places f g es → ∃ e, es !! i = Some e ∧ f i e = true ∧ g (kind e) = true.
Proof.
  unfold places. rewrite list_elem_of_In, List.filter_In. intros [_ Hi]. destruct (es !! i) as [e|]; [|done].
  apply andb_true_iff in Hi. eauto.
Qed.

Lemma places_within f g es (l : list nat) (q : nat → N) :
  (∀ i, i ∈ places f g es → i ∈ l) →
  length (places f g es) ≤ length l ∧ (sum_by q (places f g es) ≤ sum_by q l)%N.
Proof.
  intros Hin. assert (places f g es ⊆+ l) as Hs.
  { apply NoDup_submseteq; [|done]. apply NoDup_ListNoDup, List.NoDup_filter, NoDup_ListNoDup, NoDup_seq. }
  split; [by apply submseteq_length|by apply sum_by_submseteq].
Qed.

Lemma selected_all_authorization f es :
  (∀ i e, is_authorization (kind e) = true → f i e = true) →
  of_kind is_authorization (selected (zip (imap f es) es)) = of_kind is_authorization es.
Proof.
  revert f. induction es as [|e es IH]; intros f Hf; [done|].
  change (imap f (e :: es)) with (f 0 e :: imap (λ i, f (S i)) es). rewrite selected_cons, of_kind_split.
  rewrite IH by (intros; by apply Hf). change (e :: es) with ([e] ++ es). rewrite of_kind_split. f_equal.
  destruct (is_authorization (kind e)) eqn:E; [by rewrite Hf|]. destruct (f 0 e); simpl; by rewrite ?E.
Qed.

Section async.
Context (p : ContextProfile) (es : list TranscriptEntry).
Let config := retention_config p.
Let available := (max_message_transcript_tokens config - authorization_tokens es)%N.
Let entry_tokens index := from_option tokens 0%N (es !! index).
Let w := insert_from entry_tokens config available new_window 0 es.
Let shown (i : nat) (e : TranscriptEntry) := is_authorization (kind e) || bool_decide (i ∈ into_indices w).
Context (messages_fit : (max_message_transcript_tokens config < usize_max)%N)
  (tools_fit : (max_tool_transcript_tokens config < usize_max)%N).

Lemma final_window : window_inv es config available w.
Proof.
  assert (available < usize_max)%N as Ha by (unfold available; lia).
  apply (window_inv_from es config available Ha tools_fit new_window [] es); [done|].
  by apply window_inv_new.
Qed.

(** A shown entry of a pool's kinds has its place in the pools of those kinds. *)
Lemma place_pool g i :
  (∀ k, g k = true → is_authorization k = false) → i ∈ places shown g es →
  ∃ e k, es !! i = Some e ∧ g (kind e) = true ∧ pool_kind (kind e) = Some k ∧ i ∈ indices (pool w k).
Proof.
  intros Hg Hi. destruct (places_in _ _ _ _ Hi) as (e & He & Hs & Hk). unfold shown in Hs. rewrite (Hg _ Hk) in Hs.
  simpl in Hs. apply bool_decide_eq_true in Hs. destruct final_window as (_ & _ & Hkinds).
  assert (∃ k, i ∈ indices (pool w k)) as [k Hin].
  { unfold into_indices in Hs. rewrite !elem_of_app in Hs.
    destruct Hs as [Hs|[Hs|Hs]]; [by exists ProtectedMessages|by exists OrdinaryMessages|by exists Tools]. }
  destruct (Hkinds _ _ Hin) as (e' & He' & Hpk). rewrite He in He'. injection He' as <-. eauto 6.
Qed.

Lemma async_selection_ok : selection_ok config es (selected (zip (imap shown es) es)).
Proof.
  destruct final_window as (Hok & (Hc & Hm & Ht) & _). split.
  - apply selected_sublist.
  - apply selected_all_authorization. intros i e He. unfold shown. by rewrite He.
  - rewrite (proj1 (places_spec shown _ es)). etrans; [|exact Hc]. unfold retained_count.
    rewrite <- !length_app, <- app_assoc.
    apply (places_within _ _ _ (into_indices w) entry_tokens). intros i Hi.
    destruct (place_pool (negb ∘ is_authorization) i ltac:(by intros []) Hi) as (e & k & _ & _ & _ & Hin). unfold into_indices.
    rewrite !elem_of_app. destruct k; auto.
  - unfold tokens_of. rewrite (proj2 (places_spec shown _ es)). etrans; [|exact Ht]. rewrite (Hok Tools).
    apply places_within. intros i Hi.
    destruct (place_pool is_tool_kind i ltac:(by intros []) Hi) as (e & k & _ & Hk & Hpk & Hin).
    by destruct (kind e); simplify_eq/=.
  - unfold tokens_of. rewrite (proj2 (places_spec shown _ es)). etrans; [|exact Hm].
    rewrite (Hok ProtectedMessages), (Hok OrdinaryMessages), <- sum_by_app. apply places_within. intros i Hi.
    destruct (place_pool is_message_kind i ltac:(by intros []) Hi) as (e & k & _ & Hk & Hpk & Hin).
    rewrite elem_of_app. destruct (kind e); simplify_eq/=; auto.
Qed.
End async.

Lemma selected_ok p es :
  (max_message_transcript_tokens (retention_config p) < usize_max)%N →
  (max_tool_transcript_tokens (retention_config p) < usize_max)%N →
  length (included p es) = length es ∧
  selection_ok (retention_config p) es (selected (zip (included p es) es)).
Proof.
  intros Hm Ht. unfold included, sync_selection. destruct (target p).
  - destruct (sync_invariant (retention_config p) (authorization_tokens es) es Ht Hm) as (Hl & Ha & Hn & Hmax & Htt & Htm & Hmt & Hmm).
    split; [done|]. split; [apply selected_sublist|done|by rewrite <- Hn|by rewrite <- Htt|done].
  - split; [apply length_imap|]. by apply async_selection_ok.
Qed.

(** * What the reviewer is shown *)

Definition is_historical (i : Budgeted str) : bool := bool_decide (retention i = Historical).

(** The item of an entry: its line, with the retention of its kind or, for a tool, required. *)
Definition item_of (i : Budgeted str) (e : TranscriptEntry) : Prop :=
  content i = rendered e ∧
  (retention i = kind_retention (kind e) ∨ kind e = KindTool ∧ retention i = Required).

Definition plain_items (sel : list TranscriptEntry) : list (Budgeted str) :=
  map (λ e, mkBudgeted (rendered e) (kind_retention (kind e))) sel.

Lemma is_tool_item_kind e :
  is_tool_item (mkBudgeted (rendered e) (kind_retention (kind e))) = is_tool_kind (kind e).
Proof. by destruct (kind e). Qed.

Lemma require_recent_items sel :
  Forall2 item_of (require_recent_tools (plain_items sel)).2 sel.
Proof.
  induction sel as [|e sel IH]; simpl; [constructor|]. unfold require_recent_tools in *. simpl.
  destruct (foldr _ _ _) as [n rs]. simpl in *. destruct n as [|n]; simpl.
  { constructor; [|done]. split; [done|by left]. }
  rewrite is_tool_item_kind. destruct (is_tool_kind (kind e)) eqn:E; simpl; constructor; try done; split; try done.
  - right. split; [|done]. by apply bool_decide_eq_true in E.
  - by left.
Qed.

(** How many of the newest tools may still be promoted, and none is left optional meanwhile. *)
Lemma require_recent_left sel :
  (require_recent_tools (plain_items sel)).1 = MIN_RECENT_TOOL_ENTRIES - length (of_kind is_tool_kind sel) ∧
  (length (of_kind is_tool_kind sel) ≤ MIN_RECENT_TOOL_ENTRIES →
   Forall (λ i, retention i ≠ Optional PriorityTool) (require_recent_tools (plain_items sel)).2).
Proof.
  unfold require_recent_tools. generalize MIN_RECENT_TOOL_ENTRIES as most. intros most.
  induction sel as [|e sel [IHn IHf]]; [split; [simpl; lia|constructor]|]. simpl. destruct (foldr _ _ _) as [n rs]. simpl in *. subst n.
  destruct (most - _) as [|n] eqn:En; rewrite ?is_tool_item_kind;
    destruct (is_tool_kind (kind e)) eqn:E; simpl; (split; [lia|]); intros Hle.
  - lia.
  - constructor; [|apply IHf; lia]. simpl. by destruct (kind e).
  - constructor; [done|apply IHf; lia].
  - constructor; [|apply IHf; lia]. simpl. by destruct (kind e).
Qed.

Lemma require_recent_drop n sel :
  drop n (require_recent_tools (plain_items sel)).2 = (require_recent_tools (plain_items (drop n sel))).2.
Proof.
  revert n. induction sel as [|e sel IH]; intros [|n]; try done. simpl drop at 2. rewrite <- IH.
  unfold require_recent_tools. simpl. destruct (foldr _ _ _) as [[|m] rs]; simpl; [done|].
  by destruct (is_tool_item _).
Qed.

Lemma historical_items rs sel :
  Forall2 item_of rs sel →
  map content (List.filter is_historical rs) = map rendered (of_kind is_authorization sel).
Proof.
  induction 1 as [|i e rs sel [Hc Hr] _ IH]; [done|]. simpl.
  assert (is_historical i = is_authorization (kind e)) as ->.
  { unfold is_historical. destruct Hr as [-> | [-> ->]]; [by destruct (kind e)|done]. }
  destruct (is_authorization (kind e)); simpl; [by rewrite Hc, IH|done].
Qed.

(** ** The user's words *)

Section words.
Context `{Opaque, FragmentReaders, ActionJson}.
Implicit Types (i : ResponseItem) (history : list ResponseItem) (e : ConversationTranscriptEntry).

(** What of an item is the user's: a message of theirs, or the record of a manual approval. *)
Definition authorization_words i : option (str * str) :=
  match i with
  | Message _ msg_role content _ _ =>
      let text := shown_texts content in
      if is_blank text then None
      else if bool_decide (msg_role = lit "user") then Some (lit "user", text)
      else if bool_decide (msg_role = lit "developer") && starts_with MANUAL_APPROVAL_DEVELOPER_PREFIX text
      then Some (lit "developer", text)
      else None
  | _ => None
  end.

Definition entry_words e : option (str * str) :=
  if is_authorization (transcript_entry_kind (entry_kind e)) then Some (role (entry_kind e), entry_text e) else None.

Lemma no_words limits o :
  (∀ k text, o = Some (k, text) → is_authorization (transcript_entry_kind k) = false) →
  kept_entry limits o ≫= entry_words = None.
Proof.
  intros Ho. unfold kept_entry. destruct o as [[k text]|]; [|done]. simpl. destruct (is_blank text); [done|].
  simpl. unfold entry_words. simpl. by rewrite (Ho k text).
Qed.

Lemma message_words limits id msg_role content phase meta :
  kept_entry limits (message_entry msg_role content phase) ≫= entry_words =
  authorization_words (Message id msg_role content phase meta).
Proof.
  unfold message_entry, authorization_words. set (text := shown_texts content).
  destruct (bool_decide (msg_role = lit "user")).
  { simpl. by destruct (is_blank text). }
  destruct (_ && _).
  { simpl. by destruct (is_blank text). }
  rewrite no_words; [by destruct (is_blank text)|]. intros k t. repeat case_match; by intros [= <- <-].
Qed.

Lemma kept_entry_words limits opts names i :
  kept_entry limits (item_entry opts names i).2 ≫= entry_words = authorization_words i.
Proof.
  destruct i as [| | | | | | |? call_id name| | | | | | | | | |]; try apply message_words;
    cbn [authorization_words]; apply no_words; cbn [item_entry snd];
    try destruct call_id; try destruct name; cbn [item_entry snd]; intros k t Hk;
    repeat case_match; simplify_option_eq; try done.
  all: unfold call_output_kind; by repeat case_match.
Qed.

Lemma collect_words config names history :
  omap entry_words (collect_from config names history) = omap authorization_words history.
Proof.
  revert names. induction history as [|i history IH]; intros names; [done|].
  cbn [collect_from omap list_omap]. pose proof (kept_entry_words (entry_limits config) (options config) names i) as Hw.
  destruct (item_entry (options config) names i) as [names' o]. cbn [snd] in Hw.
  destruct (kept_entry _ o) as [entry|]; simpl in Hw; rewrite <- Hw; [|apply IH].
  cbn [omap list_omap]. by rewrite IH.
Qed.

(** The line of a text of the user under its number. *)
Definition word_line (t : ContextTarget) (number : N) (w : str * str) : str :=
  lit "[" ++ fmt_N number ++ lit "] " ++ w.1 ++ lit ": " ++ w.2 ++ match t with Sync => [] | Async => [c_nl] end.

Lemma numbered_words t number entries :
  ∃ numbers, StronglySorted N.lt numbers ∧ Forall (λ n, number ≤ n)%N numbers ∧
    length numbers = length (omap entry_words entries) ∧
    map rendered (of_kind is_authorization (number_from t number entries)) =
    zip_with (word_line t) numbers (omap entry_words entries).
Proof.
  revert number. induction entries as [|e entries IH]; intros number.
  { exists []. by repeat constructor. }
  destruct (IH (number + 1)%N) as (numbers & Hs & Hf & Hl & Hm). cbn [omap list_omap number_from].
  unfold of_kind in *. cbn [List.filter numbered_entry kind].
  destruct (is_authorization (transcript_entry_kind (entry_kind e))) eqn:E.
  - assert (entry_words e = Some (role (entry_kind e), entry_text e)) as -> by (unfold entry_words; by rewrite E).
    exists (number :: numbers). simpl. rewrite Hl, Hm. split_and!; try done.
    + constructor; [done|]. eapply Forall_impl; [exact Hf|]. intros n. simpl. lia.
    + constructor; [lia|]. eapply Forall_impl; [exact Hf|]. intros n. simpl. lia.
  - assert (entry_words e = None) as -> by (unfold entry_words; by rewrite E).
    exists numbers. split_and!; try done. eapply Forall_impl; [exact Hf|]. intros n. simpl. lia.
Qed.

(** C5.  Whatever the limits, the rendered transcript shows every text of the user and every
    record of a manual approval of the history, complete, in order, under increasing numbers
    and as the items that are never dropped; what else it shows is numbered entries in order
    within the limits on their count and on the tokens of messages and of tools, and the
    newest five tool entries that are shown are required. *)
Theorem user_words_shown p history offset :
  (max_message_transcript_tokens (retention_config p) < usize_max)%N →
  (max_tool_transcript_tokens (retention_config p) < usize_max)%N →
  let entries := collect_transcript history (profile_transcript p) in
  let shown := items (render_transcript p entries offset) in
  (∃ numbers, StronglySorted N.lt numbers ∧ Forall (λ n, offset < n)%N numbers ∧
     length numbers = length (omap authorization_words history) ∧
     map content (List.filter is_historical shown) =
     zip_with (word_line (target p)) numbers (omap authorization_words history)) ∧
  ∃ sel, Forall2 item_of shown sel ∧
    selection_ok (retention_config p) (number_from (target p) (offset + 1) entries) sel ∧
    ∀ n, length (of_kind is_tool_kind (drop n sel)) ≤ MIN_RECENT_TOOL_ENTRIES →
         Forall (λ it : Budgeted str, retention it ≠ Optional PriorityTool) (drop n shown).
Proof.
  intros Hm Ht entries shown. set (es := number_from (target p) (offset + 1) entries).
  destruct (selected_ok p es Hm Ht) as [_ Hok]. set (sel := selected (zip (included p es) es)) in Hok.
  assert (Forall2 item_of shown sel) as Hitems by apply require_recent_items.
  split.
  - destruct (numbered_words (target p) (offset + 1) entries) as (numbers & Hs & Hf & Hl & Hw).
    fold es in Hw. rewrite (historical_items _ _ Hitems), (sel_authorization _ _ _ Hok), Hw.
    unfold entries, collect_transcript in *. rewrite collect_words in *. exists numbers. split_and!; try done.
    eapply Forall_impl; [exact Hf|]. intros n. simpl. lia.
  - exists sel. split; [done|]. split; [done|]. intros n Hn. unfold shown, render_transcript. simpl. fold es sel.
    fold (plain_items sel). rewrite require_recent_drop. by apply require_recent_left.
Qed.
End words.

(** * A transcript in memory *)

Module ReviewTranscriptMem.
Export TranscriptMem.

#[export] Instance review_readers : FragmentReaders := {| hook_prompt_xml _ := None; reads_as_communication _ := false |}.
#[export] Instance review_actions : ActionJson :=
  {| shell_action_json _ := Some (lit "{}"); web_action_json _ := None |}.

Definition call (id name : str) : ResponseItem := FunctionCall None name None (lit "{}") None id None.

(** One entry besides the user's fits. *)
Definition narrow (t : ContextTarget) : ContextProfile :=
  mkProfile t (profile_transcript synchronous) (mkRetentionConfig 20 20 1) false.
Definition talk : list ResponseItem :=
  [says (lit "user") (lit "do not push"); says (lit "assistant") (lit "done");
   call (lit "c1") (lit "git"); says (lit "user") (lit "never")].

Lemma user_words_shown_witness :
  ∃ sel,
    map content (items (render_transcript (narrow Async) (collect_transcript talk (profile_transcript (narrow Async))) 0)) =
    map rendered sel ∧ length sel = 3.
Proof.
  destruct (user_words_shown (narrow Async) talk 0 ltac:(vm_compute; reflexivity) ltac:(vm_compute; reflexivity))
    as [_ (sel & Hi & _ & _)].
  exists sel. split.
  - clear -Hi. induction Hi as [|i e rs sel [Hc _] _ IH]; [reflexivity|]. simpl. rewrite Hc. f_equal. exact IH.
  - rewrite <- (Forall2_length _ _ _ Hi). vm_compute. reflexivity.
Defined.

(** The oldest optional entry yields to the newest. *)
Example narrow_window :
  map content (items (render_transcript (narrow Async) (collect_transcript talk (profile_transcript (narrow Async))) 0)) =
  [lit "[1] user: do not push" ++ [c_nl]; lit "[3] tool git call: {}" ++ [c_nl]; lit "[4] user: never" ++ [c_nl]].
Proof. vm_compute. reflexivity. Qed.
End ReviewTranscriptMem.
