(* ===== verification/Template.v ===== *)
(** * Template: strict prompt templates
    ([utils/template/src/lib.rs])

    [{{ name }}] placeholders with [{{{{] and [}}}}] for the literal delimiters.
    Positions are byte offsets; a [BTreeSet] or [BTreeMap] of strings is its list in
    increasing order. *)
From Stdlib Require Import Sorted.
From S2P Require Import Prelude RustStr.

Inductive TemplateParseError :=
| EmptyPlaceholder (start : nat)
| NestedPlaceholder (start : nat)
| UnmatchedClosingDelimiter (start : nat)
| UnterminatedPlaceholder (start : nat).

Inductive TemplateRenderError :=
| DuplicateValue (name : str)
| ExtraValue (name : str)
| MissingValue (name : str).

Inductive TemplateError := ParseFailed (e : TemplateParseError) | RenderFailed (e : TemplateRenderError).

(** [Display]; a doubled brace of a format string prints one brace. *)
Definition parse_error_message (e : TemplateParseError) : str :=
  match e with
  | EmptyPlaceholder start =>
      lit "template placeholder at byte " ++ fmt_usize start ++ lit " is empty"
  | NestedPlaceholder start =>
      lit "template placeholder starting at byte " ++ fmt_usize start ++ lit " contains a nested `{`"
  | UnmatchedClosingDelimiter start =>
      lit "template contains an unmatched `}` at byte " ++ fmt_usize start
  | UnterminatedPlaceholder start =>
      lit "template placeholder starting at byte " ++ fmt_usize start ++ lit " is missing `}`"
  end.
Definition render_error_message (e : TemplateRenderError) : str :=
  match e with
  | DuplicateValue name => lit "template value `" ++ name ++ lit "` was provided more than once"
  | ExtraValue name => lit "template value `" ++ name ++ lit "` is not used by this template"
  | MissingValue name => lit "template placeholder `" ++ name ++ lit "` is missing a value"
  end.

(** ** Ordered sets and maps of strings *)

(** [Ord] on strings: lexicographic, on bytes as on scalar values. *)
Fixpoint str_lt (a b : str) : bool :=
  match a, b with
  | [], [] => false
  | [], _ :: _ => true
  | _ :: _, [] => false
  | x :: a, y :: b => if (x =? y)%N then str_lt a b else (x <? y)%N
  end.

(** [BTreeMap::insert]; the flag says whether the key had a value. *)
Fixpoint btree_insert {V} (k : str) (v : V) (m : list (str * V)) : list (str * V) * bool :=
  match m with
  | [] => ([(k, v)], false)
  | (k', v') :: m' =>
      if bool_decide (k = k') then ((k, v) :: m', true)
      else if str_lt k k' then ((k, v) :: m, false)
      else let '(m', old) := btree_insert k v m' in ((k', v') :: m', old)
  end.
Fixpoint btree_get {V} (k : str) (m : list (str * V)) : option V :=
  match m with
  | [] => None
  | (k', v) :: m => if bool_decide (k = k') then Some v else btree_get k m
  end.
Abbreviation btree_set := (list (list N * unit)) (only parsing).
Definition set_insert (k : str) (s : btree_set) : btree_set := (btree_insert k tt s).1.
Definition btree_mem {V} (k : str) (m : list (str * V)) : bool :=
  match btree_get k m with Some _ => true | None => false end.

(** ** Parsing *)

Inductive Segment := Literal (text : str) | Placeholder (name : str).

#[export] Instance Segment_eq_dec : EqDecision Segment.
Proof. solve_decision. Defined.

Record Template := mkTemplate { placeholders : btree_set; segments : list Segment }.

Definition OPEN : str := lit "{{".
Definition CLOSE : str := lit "}}".
Definition ESC_OPEN : str := lit "{{{{".
Definition ESC_CLOSE : str := lit "}}}}".

Definition push_literal (segs : list Segment) (literal : str) : list Segment :=
  if bool_decide (literal = []) then segs
  else match last segs with
       | Some (Literal existing) => set_last (Literal (existing ++ literal)) segs
       | _ => segs ++ [Literal literal]
       end.

(** The scan of [parse_placeholder] from [cursor]; [acc] is the text since the opening
    delimiter.  It returns the name, the cursor after the closing delimiter and the
    text there. *)
Fixpoint placeholder_scan (start cursor : nat) (acc rest : str) :
    result TemplateParseError (str * nat * str) :=
  match rest with
  | [] => Err (UnterminatedPlaceholder start)
  | ch :: rest' =>
      if starts_with OPEN rest then Err (NestedPlaceholder start)
      else match strip_prefix CLOSE rest with
           | Some after =>
               let placeholder := trim acc in
               if bool_decide (placeholder = []) then Err (EmptyPlaceholder start)
               else Ok (placeholder, cursor + str_len CLOSE, after)
           | None => placeholder_scan start (cursor + len_utf8 ch) (acc ++ [ch]) rest'
           end
  end.
Definition parse_placeholder (start : nat) (after_open : str) :
    result TemplateParseError (str * nat * str) :=
  placeholder_scan start (start + str_len OPEN) [] after_open.

(** The loop of [Template::parse]: [literal] is the source from [literal_start] to
    [cursor], [rest] what follows.  Each turn consumes a char at least, so as many
    turns as chars are enough. *)
Fixpoint parse_loop (fuel cursor : nat) (literal rest : str) (phs : btree_set) (segs : list Segment) :
    result TemplateParseError Template :=
  match fuel, rest with
  | _, [] => Ok (mkTemplate phs (push_literal segs literal))
  | 0, _ => Err (UnterminatedPlaceholder cursor)
  | S fuel, ch :: rest' =>
      match strip_prefix ESC_OPEN rest with
      | Some after =>
          parse_loop fuel (cursor + str_len ESC_OPEN) [] after phs
            (push_literal (push_literal segs literal) OPEN)
      | None =>
      match strip_prefix ESC_CLOSE rest with
      | Some after =>
          parse_loop fuel (cursor + str_len ESC_CLOSE) [] after phs
            (push_literal (push_literal segs literal) CLOSE)
      | None =>
      match strip_prefix OPEN rest with
      | Some after_open =>
          let segs := push_literal segs literal in
          match parse_placeholder cursor after_open with
          | Err e => Err e
          | Ok (placeholder, next_cursor, after) =>
              parse_loop fuel next_cursor [] after (set_insert placeholder phs)
                (segs ++ [Placeholder placeholder])
          end
      | None =>
          if starts_with CLOSE rest then Err (UnmatchedClosingDelimiter cursor)
          else parse_loop fuel (cursor + len_utf8 ch) (literal ++ [ch]) rest' phs segs
      end end end
  end.
Definition parse_template (source : str) : result TemplateParseError Template :=
  parse_loop (length source) 0 [] source [] [].

(** ** Rendering *)

Fixpoint variable_map (variables : list (str * str)) (m : list (str * str)) :
    result TemplateRenderError (list (str * str)) :=
  match variables with
  | [] => Ok m
  | (name, value) :: variables =>
      let '(m, old) := btree_insert name value m in
      if old then Err (DuplicateValue name) else variable_map variables m
  end.
Definition build_variable_map (variables : list (str * str)) :
    result TemplateRenderError (list (str * str)) := variable_map variables [].

Fixpoint render_segments (m : list (str * str)) (segs : list Segment) (rendered : str) :
    result TemplateRenderError str :=
  match segs with
  | [] => Ok rendered
  | Literal literal :: segs => render_segments m segs (rendered ++ literal)
  | Placeholder name :: segs =>
      match btree_get name m with
      | None => Err (MissingValue name)
      | Some value => render_segments m segs (rendered ++ value)
      end
  end.

Definition template_render (t : Template) (variables : list (str * str)) :
    result TemplateRenderError str :=
  match build_variable_map variables with
  | Err e => Err e
  | Ok m =>
      match list_find (λ p, btree_mem p.1 m = false) (placeholders t) with
      | Some (_, (placeholder, _)) => Err (MissingValue placeholder)
      | None =>
          match list_find (λ kv, btree_mem kv.1 (placeholders t) = false) m with
          | Some (_, (name, _)) => Err (ExtraValue name)
          | None => render_segments m (segments t) []
          end
      end
  end.

Definition render (template : str) (variables : list (str * str)) : result TemplateError str :=
  match parse_template template with
  | Err e => Err (ParseFailed e)
  | Ok t => map_err RenderFailed (template_render t variables)
  end.

Example render_ex :
  render (lit "open: {{{{, {{ name }}{{x}} }}}}") [(lit "x", lit "!"); (lit "name", lit "Codex")] =
  Ok (lit "open: {{, Codex! }}").
Proof. vm_compute. reflexivity. Qed.
Example parse_error_ex :
  parse_template (lit "Hello, {{ outer {{ inner }} }}.") = Err (NestedPlaceholder 7).
Proof. vm_compute. reflexivity. Qed.

(** * A template says what its text says

    Printing the segments of a template and parsing the text are inverse to each other,
    and rendering fills the placeholders or names the first of its errors. *)

(** ** The order of strings and the maps ordered by it *)

Lemma str_lt_irrefl a : str_lt a a = false.
Proof. induction a as [|x a IH]; simpl; [done|]. by rewrite N.eqb_refl. Qed.

Lemma str_lt_trans a b c : str_lt a b = true → str_lt b c = true → str_lt a c = true.
Proof.
  revert b c. induction a as [|x a IH]; intros [|y b] [|z c]; simpl; try done.
  destruct (N.eqb_spec x y) as [->|Hxy], (N.eqb_spec y z) as [->|Hyz].
  - by apply IH.
  - done.
  - by rewrite (proj2 (N.eqb_neq _ _) Hxy).
  - rewrite !N.ltb_lt. intros H1 H2. destruct (N.eqb_spec x z); [lia|]. apply N.ltb_lt. lia.
Qed.

Lemma str_lt_total a b : str_lt a b = false → a = b ∨ str_lt b a = true.
Proof.
  revert b. induction a as [|x a IH]; intros [|y b]; simpl; [by left|done|by right|].
  rewrite (N.eqb_sym y x). destruct (N.eqb_spec x y) as [->|Hxy].
  - intros [-> | ?]%IH; auto.
  - rewrite N.ltb_ge, N.ltb_lt. lia.
Qed.

Definition keys {V} (m : list (str * V)) : list str := m.*1.
Definition ordered {V} (m : list (str * V)) : Prop :=
  StronglySorted (λ a b, str_lt a b = true) (keys m).

Section btree.
Context {V : Type}.
Implicit Types (m : list (str * V)) (k : str).

Lemma btree_get_insert k k' v m :
  btree_get k' (btree_insert k v m).1 = if bool_decide (k' = k) then Some v else btree_get k' m.
Proof.
  induction m as [|[k0 v0] m IH]; simpl; [done|].
  destruct (bool_decide_reflect (k = k0)) as [<-|Hk]; simpl.
  { by destruct (bool_decide_reflect (k' = k)). }
  destruct (str_lt k k0); simpl; [done|].
  destruct (btree_insert k v m) as [m' old] eqn:E; simpl in *.
  destruct (bool_decide_reflect (k' = k0)) as [->|]; [|done].
  by rewrite bool_decide_eq_false_2 by congruence.
Qed.

Lemma elem_of_btree_insert k k' v m :
  k' ∈ keys (btree_insert k v m).1 ↔ k' = k ∨ k' ∈ keys m.
Proof.
  unfold keys. induction m as [|[k0 v0] m IH]; simpl.
  { rewrite elem_of_cons. set_solver. }
  destruct (bool_decide_reflect (k = k0)) as [<-|Hk]; simpl; [set_solver|].
  destruct (str_lt k k0); simpl; [set_solver|].
  destruct (btree_insert k v m) as [m' old]; simpl in *. set_solver.
Qed.

Lemma btree_mem_keys k m : btree_mem k m = true ↔ k ∈ keys m.
Proof.
  unfold btree_mem, keys. induction m as [|[k0 v0] m IH]; simpl; [set_solver|].
  rewrite elem_of_cons. destruct (bool_decide_reflect (k = k0)); naive_solver.
Qed.

Lemma ordered_insert k v m : ordered m → ordered (btree_insert k v m).1.
Proof.
  unfold ordered. induction m as [|[k0 v0] m IH]; simpl; intros Hm; [by repeat constructor|].
  apply StronglySorted_inv in Hm as [Hm Hk0].
  destruct (bool_decide_reflect (k = k0)) as [<-|Hk]; simpl; [by constructor|].
  destruct (str_lt k k0) eqn:Hlt; simpl.
  - constructor; [by constructor|]. constructor; [done|].
    eapply Forall_impl; [exact Hk0|]. intros y. by apply str_lt_trans.
  - destruct (btree_insert k v m) as [m' old] eqn:E. simpl in *.
    constructor; [by apply IH|]. apply Forall_forall. intros y Hy.
    pose proof (elem_of_btree_insert k y v m) as Hel. rewrite E in Hel.
    destruct (proj1 Hel Hy) as [->|Hin].
    + by destruct (str_lt_total _ _ Hlt).
    + by apply (proj1 (Forall_forall _ _) Hk0).
Qed.

(** The flag of an insertion says whether the key was there. *)
Lemma btree_insert_old k v m : ordered m → (btree_insert k v m).2 = btree_mem k m.
Proof.
  unfold ordered, btree_mem. induction m as [|[k0 v0] m IH]; simpl; intros Hm; [done|].
  apply StronglySorted_inv in Hm as [Hm Hk0].
  destruct (bool_decide_reflect (k = k0)) as [<-|Hk]; simpl; [done|].
  destruct (str_lt k k0) eqn:Hlt; simpl.
  - fold (btree_mem k m). symmetry. apply not_true_is_false. intros Hin%btree_mem_keys.
    pose proof (proj1 (Forall_forall _ _) Hk0 _ Hin) as Hlt'.
    pose proof (str_lt_trans _ _ _ Hlt Hlt') as Hkk. by rewrite str_lt_irrefl in Hkk.
  - destruct (btree_insert k v m) as [m' old] eqn:E. simpl in *. by apply IH.
Qed.

(** The first entry of an ordered map that fails a test has the least key that does. *)
Lemma ordered_find (P : str * V → Prop) `{∀ x, base.Decision (P x)} m i k v :
  ordered m → list_find P m = Some (i, (k, v)) →
  k ∈ keys m ∧ P (k, v) ∧ ∀ k' v', (k', v') ∈ m → P (k', v') → k' = k ∨ str_lt k k' = true.
Proof.
  unfold ordered, keys. revert i. induction m as [|[k0 v0] m IH]; simpl; intros i Hm Hf; [done|].
  apply StronglySorted_inv in Hm as [Hm Hk0]. case_decide as HP.
  - injection Hf as _ <- <-. split_and!; [set_solver|done|].
    intros k' v' [[= -> ->] | Hin]%elem_of_cons _; [by left|right].
    apply (proj1 (Forall_forall _ _) Hk0). apply list_elem_of_fmap. by exists (k', v').
  - apply fmap_Some in Hf as ([j [k1 v1]] & Hf & [= -> -> ->]).
    destruct (IH _ Hm Hf) as (Hin & HPk & Hle). split_and!; [set_solver|done|].
    intros k' v' [[= -> ->] | Hin']%elem_of_cons HP'; [done|eauto].
Qed.
End btree.

(** ** What a list of segments names, prints and says *)

Definition seg_names (segs : list Segment) : list str :=
  omap (λ s, match s with Placeholder n => Some n | Literal _ => None end) segs.
Definition name_set (segs : list Segment) : btree_set :=
  fold_left (λ s n, set_insert n s) (seg_names segs) [].
(** The text of a segment under an assignment. *)
Definition fill (variables : list (str * str)) (s : Segment) : str :=
  match s with
  | Literal l => l
  | Placeholder n => default [] (btree_get n variables)
  end.

Lemma seg_names_app l k : seg_names (l ++ k) = seg_names l ++ seg_names k.
Proof. apply omap_app. Qed.

Lemma name_set_snoc segs n :
  name_set (segs ++ [Placeholder n]) = set_insert n (name_set segs).
Proof. unfold name_set. by rewrite seg_names_app, fold_left_app. Qed.

Lemma push_literal_names segs l : seg_names (push_literal segs l) = seg_names segs.
Proof.
  unfold push_literal. destruct (bool_decide _); [done|].
  destruct (last segs) as [[e|n]|] eqn:E;
    [apply last_Some in E as [k ->]; rewrite set_last_snoc|..]; rewrite !seg_names_app; simpl;
    by rewrite ?app_nil_r.
Qed.

Lemma elem_of_name_set segs n : n ∈ keys (name_set segs) ↔ n ∈ seg_names segs.
Proof.
  unfold name_set.
  cut (∀ l s, n ∈ keys (fold_left (λ s n, set_insert n s) l s) ↔ n ∈ l ∨ n ∈ keys s).
  { intros ->. unfold keys. simpl. set_solver. }
  induction l as [|x l IH]; intros s; simpl; [set_solver|].
  rewrite IH. unfold set_insert. rewrite elem_of_btree_insert. set_solver.
Qed.

Lemma ordered_name_set segs : ordered (name_set segs).
Proof.
  unfold name_set. generalize (seg_names segs).
  cut (∀ s l, ordered s → ordered (fold_left (λ s n, set_insert n s) l s)).
  { intros H l. apply H. constructor. }
  intros s l. revert s. induction l as [|x l IH]; intros s Hs; simpl; [done|].
  apply IH. by apply ordered_insert.
Qed.

(** A parsed template lists the names of its placeholders. *)
Lemma parse_loop_names fuel cursor literal rest phs segs t :
  phs = name_set segs → parse_loop fuel cursor literal rest phs segs = Ok t →
  placeholders t = name_set (segments t).
Proof.
  revert cursor literal rest phs segs.
  induction fuel as [|fuel IH]; intros cursor literal rest phs segs -> Hp;
    destruct rest as [|ch rest]; cbn [parse_loop] in Hp.
  2: done.
  1,2: injection Hp as <-; cbn; unfold name_set; by rewrite push_literal_names.
  case_match; [|case_match; [|case_match; [case_match; [do 2 case_match|]|case_match]]];
    try done; (eapply IH; [|exact Hp]);
    rewrite ?name_set_snoc; unfold name_set; by rewrite ?push_literal_names.
Qed.

(** ** Rendering *)

Lemma variable_map_ok variables m m' :
  ordered m → variable_map variables m = Ok m' →
  ordered m' ∧ NoDup variables.*1 ∧ (∀ n, n ∈ variables.*1 → n ∉ keys m) ∧
  (∀ n, n ∈ keys m' ↔ n ∈ variables.*1 ∨ n ∈ keys m) ∧
  ∀ n, btree_get n m' = match btree_get n m with Some v => Some v | None => btree_get n variables end.
Proof.
  revert m. induction variables as [|[k v] vs IH]; intros m Hm; simpl.
  { intros [= <-]. unfold keys. split_and!; [done|constructor|set_solver|set_solver|].
    intros n. by destruct (btree_get n m). }
  pose proof (btree_insert_old k v m Hm) as Hold. pose proof (ordered_insert k v m Hm) as Hm1.
  pose proof (λ k', elem_of_btree_insert k k' v m) as Hel.
  pose proof (λ k', btree_get_insert k k' v m) as Hget.
  destruct (btree_insert k v m) as [m1 old]. simpl in *. destruct old; [done|].
  assert (k ∉ keys m) as Hk by (rewrite <- btree_mem_keys; congruence).
  intros Hr. destruct (IH _ Hm1 Hr) as (Hm' & Hnd & Hfresh & Hkeys & Hg).
  split_and!; [done|constructor; [|done]| | |].
  - intros Hin. apply (Hfresh _ Hin), Hel. by left.
  - intros n [-> | Hin]%elem_of_cons; [done|]. intros Hn. apply (Hfresh _ Hin), Hel. by right.
  - intros n. rewrite Hkeys, Hel. set_solver.
  - intros n. rewrite Hg, Hget. destruct (bool_decide_reflect (n = k)) as [->|Hnk]; [|done].
    unfold btree_mem in Hold. by destruct (btree_get k m).
Qed.

Lemma variable_map_err variables m e :
  ordered m → variable_map variables m = Err e →
  ∃ n pre v post, e = DuplicateValue n ∧ variables = pre ++ (n, v) :: post ∧
    NoDup pre.*1 ∧ (∀ x, x ∈ pre.*1 → x ∉ keys m) ∧ (n ∈ keys m ∨ n ∈ pre.*1).
Proof.
  revert m. induction variables as [|[k v] vs IH]; intros m Hm; simpl; [done|].
  pose proof (btree_insert_old k v m Hm) as Hold. pose proof (ordered_insert k v m Hm) as Hm1.
  pose proof (λ k', elem_of_btree_insert k k' v m) as Hel.
  destruct (btree_insert k v m) as [m1 old]. simpl in *. destruct old.
  - intros [= <-]. exists k, [], v, vs. simpl. split_and!; [done|done|constructor|set_solver|].
    left. by apply btree_mem_keys.
  - assert (k ∉ keys m) as Hk by (rewrite <- btree_mem_keys; congruence).
    intros (n & pre & v' & post & -> & -> & Hnd & Hfresh & Hin)%IH; [|done].
    exists n, ((k, v) :: pre), v', post. simpl. split_and!; [done|done| | |].
    + constructor; [|done]. intros Hpre. apply (Hfresh _ Hpre), Hel. by left.
    + intros x [-> | Hx]%elem_of_cons; [done|]. intros Hm'. apply (Hfresh _ Hx), Hel. by right.
    + rewrite elem_of_cons. rewrite Hel in Hin. tauto.
Qed.

Lemma render_segments_ok m segs out :
  (∀ n, n ∈ seg_names segs → n ∈ keys m) →
  render_segments m segs out = Ok (out ++ mjoin (fill m <$> segs)).
Proof.
  revert out. induction segs as [|[l|n] segs IH]; intros out Hn; simpl.
  - by rewrite app_nil_r.
  - rewrite IH by done. by rewrite app_assoc.
  - assert (n ∈ keys m) as Hin by (apply Hn; by left).
    apply btree_mem_keys in Hin. unfold btree_mem in Hin. destruct (btree_get n m); [|done].
    rewrite IH by (intros k Hk; apply Hn; by right). by rewrite app_assoc.
Qed.

Lemma fill_ext m m' segs :
  (∀ n, btree_get n m = btree_get n m') → mjoin (fill m <$> segs) = mjoin (fill m' <$> segs).
Proof. intros H. f_equal. apply list_fmap_ext. intros _ [l|n] _; simpl; [done|]. by rewrite H. Qed.

(** [n] is the least string of [l] that is not in [k]. *)
Definition least_missing (n : str) (l k : list str) : Prop :=
  n ∈ l ∧ n ∉ k ∧ ∀ q, q ∈ l → q ∉ k → q = n ∨ str_lt n q = true.

Lemma find_missing {V W} (m : list (str * V)) (m' : list (str * W)) i k v l l' :
  ordered m → (∀ n, n ∈ keys m ↔ n ∈ l) → (∀ n, n ∈ keys m' ↔ n ∈ l') →
  list_find (λ p : str * V, btree_mem p.1 m' = false) m = Some (i, (k, v)) →
  least_missing k l l'.
Proof.
  intros Hm Hl Hl' Hf. apply ordered_find in Hf as (Hin & Hnot & Hle); [|done].
  assert (∀ q, btree_mem q m' = false ↔ q ∉ l') as Hq.
  { intros q. by rewrite <- Hl', <- btree_mem_keys, not_true_iff_false. }
  split_and!; [by apply Hl|by apply Hq|]. intros q Hql%Hl Hqk.
  apply list_elem_of_fmap in Hql as ([q' w] & -> & Hqw).
  apply (Hle _ w); [done|]. by apply Hq.
Qed.

(** Rendering a parsed template succeeds exactly when the variables have distinct
    names and are the placeholders of the template, and then gives its text with every
    placeholder replaced.  Every failure names its cause, in the order of the checks: the
    first variable given twice, else the least placeholder without a value, else the least
    variable that is not used; the lookup of a segment itself never fails. *)
Theorem template_render_spec source t variables :
  parse_template source = Ok t →
  match template_render t variables with
  | Ok out =>
      NoDup variables.*1 ∧ (∀ n, n ∈ variables.*1 ↔ n ∈ seg_names (segments t)) ∧
      out = mjoin (fill variables <$> segments t)
  | Err (DuplicateValue n) =>
      ∃ pre v post, variables = pre ++ (n, v) :: post ∧ NoDup pre.*1 ∧ n ∈ pre.*1
  | Err (MissingValue n) =>
      NoDup variables.*1 ∧ least_missing n (seg_names (segments t)) variables.*1
  | Err (ExtraValue n) =>
      NoDup variables.*1 ∧ (∀ q, q ∈ seg_names (segments t) → q ∈ variables.*1) ∧
      least_missing n variables.*1 (seg_names (segments t))
  end.
Proof.
  intros Hp. apply parse_loop_names in Hp; [|done]. destruct t as [phs segs]. simpl in *. subst phs.
  unfold template_render, build_variable_map. cbn [placeholders segments].
  assert (ordered ([] : list (str * str))) as H0 by constructor.
  destruct (variable_map variables []) as [m|e] eqn:Hv.
  2: { apply variable_map_err in Hv as (n & pre & v & post & -> & -> & Hnd & _ & Hin); [|done].
       exists pre, v, post. unfold keys in Hin. set_solver. }
  apply variable_map_ok in Hv as (Hm & Hnd & _ & Hkeys & Hget); [|done].
  assert (∀ n, n ∈ keys m ↔ n ∈ variables.*1) as Hk.
  { intros n. rewrite Hkeys. unfold keys. set_solver. }
  destruct (list_find _ (name_set segs)) as [[i [n []]]|] eqn:Hf.
  { split; [done|]. exact (find_missing _ _ _ _ _ _ _ (ordered_name_set _) (elem_of_name_set _) Hk Hf). }
  apply list_find_None in Hf.
  assert (∀ q, q ∈ seg_names segs → q ∈ keys m) as Hall.
  { intros q Hq%elem_of_name_set. apply list_elem_of_fmap in Hq as (p & -> & Hp).
    apply btree_mem_keys, not_false_iff_true, (proj1 (Forall_forall _ _) Hf _ Hp). }
  destruct (list_find _ m) as [[i [n v]]|] eqn:Hf'.
  { split_and!; [done|intros q Hq; by apply Hk, Hall|].
    exact (find_missing _ _ _ _ _ _ _ Hm Hk (elem_of_name_set _) Hf'). }
  apply list_find_None in Hf'. rewrite render_segments_ok by done. split_and!; [done| |].
  - intros n. split; [|intros Hn; by apply Hk, Hall].
    intros Hn%Hk. apply list_elem_of_fmap in Hn as (p & -> & Hp).
    apply elem_of_name_set, btree_mem_keys, not_false_iff_true, (proj1 (Forall_forall _ _) Hf' _ Hp).
  - by apply fill_ext.
Qed.

Lemma template_render_spec_witness :
  ∃ t, parse_template (lit "Hi {{ a }}{{b}}!") = Ok t ∧
  match template_render t [(lit "b", lit "2"); (lit "a", lit "1")] with
  | Ok out => out = mjoin (fill [(lit "b", lit "2"); (lit "a", lit "1")] <$> segments t)
  | Err _ => False
  end.
Proof.
  eexists. split; [vm_compute; reflexivity|].
  pose proof (template_render_spec (lit "Hi {{ a }}{{b}}!") _
    [(lit "b", lit "2"); (lit "a", lit "1")] eq_refl) as H.
  exact (proj2 (proj2 H)).
Defined.

(** ** Printing *)

Definition c_open : char := 123%N.
Definition c_close : char := 125%N.
Definition is_brace (c : char) : bool := is_char c_open c || is_char c_close c.

(** The text of a literal: from the left, two equal braces are doubled. *)
Fixpoint escape (l : str) : str :=
  match l with
  | [] => []
  | a :: l' =>
      match l' with
      | b :: l'' =>
          if (a =? b)%N && is_brace a then a :: a :: a :: a :: escape l'' else a :: escape l'
      | [] => [a]
      end
  end.
Definition print_segment (s : Segment) : str :=
  match s with
  | Literal l => escape l
  | Placeholder n => OPEN ++ [c_space] ++ n ++ [c_space] ++ CLOSE
  end.
Definition print_segments (segs : list Segment) : str := mjoin (print_segment <$> segs).

(** A literal with an odd number of opening braces at its end: no placeholder can follow. *)
Definition open_end (l : str) : bool :=
  fold_left (λ odd c, if is_char c_open c then negb odd else false) l false.
Definition name_ok (n : str) : bool :=
  negb (bool_decide (n = [])) && bool_decide (trim n = n) &&
  negb (contains OPEN n) && negb (contains CLOSE n).
Definition seg_ok (s : Segment) : bool :=
  match s with Literal l => negb (bool_decide (l = [])) | Placeholder n => name_ok n end.
(** May [q] be the segment after [p]?  Literals are merged. *)
Definition follows (p q : Segment) : bool :=
  match p, q with
  | Literal _, Literal _ => false
  | Literal l, Placeholder _ => negb (open_end l)
  | Placeholder _, _ => true
  end.
Fixpoint wf_segs (segs : list Segment) : bool :=
  match segs with
  | [] => true
  | s :: segs' =>
      seg_ok s && match segs' with [] => true | q :: _ => follows s q end && wf_segs segs'
  end.

Lemma contains_None p s :
  contains p s = false ↔ ∀ u v, s ≠ u ++ p ++ v.
Proof.
  unfold contains. destruct (find p s) as [n|] eqn:E.
  - split; [done|]. intros H. apply find_Some in E as ([v Hv] & Hn & _).
    destruct (H (take n s) v). by rewrite <- Hv, take_drop.
  - split; [|done]. intros _ u v ->. apply (proj1 (find_None _ _) E (length u)).
    + rewrite length_app. lia.
    + rewrite drop_app_length. by exists v.
Qed.

Lemma contains_infix p u s v : contains p (u ++ s ++ v) = false → contains p s = false.
Proof.
  rewrite !contains_None. intros H x y ->. apply (H (u ++ x) (y ++ v)).
  by rewrite <- !app_assoc.
Qed.

Lemma push_literal_app segs a b : push_literal (push_literal segs a) b = push_literal segs (a ++ b).
Proof.
  unfold push_literal at 2. destruct (bool_decide_reflect (a = [])) as [->|Ha]; [done|].
  destruct b as [|c b].
  { rewrite app_nil_r. unfold push_literal. by rewrite (bool_decide_eq_false_2 (a = [])). }
  unfold push_literal. rewrite !bool_decide_eq_false_2 by (try done; by destruct a).
  destruct (last segs) as [[e|n]|] eqn:E.
  - apply last_Some in E as [k ->]. rewrite !set_last_snoc, last_snoc, set_last_snoc.
    by rewrite app_assoc.
  - by rewrite last_snoc, set_last_snoc.
  - by rewrite last_snoc, set_last_snoc.
Qed.

(** ** Reading what was printed *)

(** One turn of the loop on a char that starts no delimiter. *)
Lemma parse_loop_char fuel c acc ch rest phs segs :
  (is_brace ch = true → head rest ≠ Some ch) →
  parse_loop (S fuel) c acc (ch :: rest) phs segs =
  parse_loop fuel (c + len_utf8 ch) (acc ++ [ch]) rest phs segs.
Proof.
  intros Hb. cbn [parse_loop].
  assert (∀ d n, is_brace d = true → strip_prefix (d :: d :: n) (ch :: rest) = None) as Hno.
  { intros d n Hd. simpl. destruct (N.eqb_spec d ch) as [->|]; [|done].
    destruct rest as [|d' rest]; [done|]. simpl. destruct (N.eqb_spec ch d') as [->|]; [|done].
    by destruct (Hb Hd). }
  unfold starts_with. change ESC_OPEN with (c_open :: c_open :: [c_open; c_open]).
  change ESC_CLOSE with (c_close :: c_close :: [c_close; c_close]).
  change OPEN with (c_open :: c_open :: []). change CLOSE with (c_close :: c_close :: []).
  by rewrite !Hno by done.
Qed.

Lemma head_escape l : head (escape l) = head l.
Proof. destruct l as [|a [|b l]]; [done|done|]. simpl. by destruct (_ && _). Qed.

Lemma escape_pair_cases a l :
  (∃ l', l = a :: l' ∧ is_brace a = true ∧ escape (a :: l) = a :: a :: a :: a :: escape l') ∨
  ((is_brace a = true → head l ≠ Some a) ∧ escape (a :: l) = a :: escape l).
Proof.
  destruct l as [|b l]; [right; done|]. simpl.
  destruct (N.eqb_spec a b) as [->|Hab]; simpl.
  - destruct (is_brace b) eqn:Hb; [left|right]; naive_solver.
  - right. split; [|done]. naive_solver.
Qed.

Lemma is_brace_cases a : is_brace a = true → a = c_open ∨ a = c_close.
Proof. unfold is_brace, is_char. rewrite orb_true_iff, !N.eqb_eq. naive_solver. Qed.

Lemma open_end_single a l :
  (is_brace a = true → head l ≠ Some a) → open_end l = true → open_end (a :: l) = true.
Proof.
  unfold open_end, is_brace. intros Ha. simpl. destruct (is_char c_open a) eqn:E; simpl; [|done].
  apply N.eqb_eq in E as ->. destruct l as [|b l]; [done|]. simpl.
  destruct (is_char c_open b) eqn:Eb; [|done]. apply N.eqb_eq in Eb as ->. by destruct Ha.
Qed.

Lemma parse_loop_literal l fuel c acc phs segs tail :
  (open_end l = true → head tail ≠ Some c_open) → (head tail ≠ Some c_close) →
  length (escape l ++ tail) ≤ fuel →
  ∃ fuel' c' acc' segs', length tail ≤ fuel' ∧
    push_literal segs' acc' = push_literal (push_literal segs acc) l ∧
    parse_loop fuel c acc (escape l ++ tail) phs segs = parse_loop fuel' c' acc' tail phs segs'.
Proof.
  remember (length l) as n eqn:Hn. revert l fuel c acc segs Hn.
  induction (lt_wf n) as [n _ IH]. intros l fuel c acc segs -> Hopen Hclose Hfuel.
  destruct l as [|a l].
  { exists fuel, c, acc, segs. simpl in *. done. }
  destruct fuel as [|fuel]; [destruct (escape_pair_cases a l) as [(?&_&_&E)|[_ E]];
    rewrite E in Hfuel; simpl in Hfuel; lia|].
  destruct (escape_pair_cases a l) as [(l' & -> & Hb & E)|[Hb E]]; rewrite E in *; simpl in Hfuel.
  - destruct (IH (length l') ltac:(simpl; lia) l' fuel (c + 4) []
      (push_literal (push_literal segs acc) [a; a])) as (f' & c' & a' & s' & Hf' & Hs' & Hp).
    + done.
    + destruct (is_brace_cases _ Hb) as [->| ->]; done.
    + done.
    + lia.
    + exists f', c', a', s'. split; [done|]. split.
      * rewrite Hs'. by rewrite !push_literal_app.
      * rewrite <- Hp. destruct (is_brace_cases _ Hb) as [->| ->]; done.
  - destruct (IH (length l) ltac:(simpl; lia) l fuel (c + len_utf8 a) (acc ++ [a]) segs)
      as (f' & c' & a' & s' & Hf' & Hs' & Hp).
    + done.
    + intros Ho. by apply Hopen, open_end_single.
    + done.
    + lia.
    + exists f', c', a', s'. split; [done|]. split.
      * rewrite Hs'. by rewrite !push_literal_app, <- app_assoc.
      * rewrite <- Hp. cbn [app]. apply parse_loop_char. intros Ha.
        destruct l as [|b l]; [|rewrite head_app, head_escape; by apply Hb].
        destruct (is_brace_cases _ Ha) as [->| ->]; [by apply Hopen|done].
Qed.

(** ** A placeholder *)

Lemma starts_with_no_pair d c y s :
  d ≠ c_space → contains [d; d] (c :: y) = false → starts_with [d; d] ((c :: y) ++ c_space :: s) = false.
Proof.
  intros Hd Hc. apply starts_with_false. intros [v Hv]. destruct y as [|b y]; simpl in Hv.
  - injection Hv as _ Hv _. by destruct Hd.
  - injection Hv as -> -> _. apply (proj1 (contains_None _ _) Hc [] y). done.
Qed.

Lemma contains_cons_false p c y : contains p (c :: y) = false → contains p y = false.
Proof.
  intros H. apply (contains_infix p [c] y []). by rewrite app_nil_r.
Qed.

Lemma placeholder_scan_ok start y cur acc after :
  contains OPEN y = false → contains CLOSE y = false →
  ∃ cur', placeholder_scan start cur acc (y ++ c_space :: CLOSE ++ after) =
    let placeholder := trim (acc ++ y ++ [c_space]) in
    if bool_decide (placeholder = []) then Err (EmptyPlaceholder start)
    else Ok (placeholder, cur', after).
Proof.
  revert cur acc. induction y as [|c y IH]; intros cur acc Ho Hc.
  - eexists. reflexivity.
  - destruct (IH (cur + len_utf8 c) (acc ++ [c])) as [cur' IH'];
      [by eapply contains_cons_false..|].
    exists cur'. rewrite <- app_assoc in IH'. cbn [app] in IH' |- *.
    rewrite <- IH'. cbn [placeholder_scan].
    pose proof (starts_with_no_pair c_open c y (CLOSE ++ after) ltac:(done) Ho) as Ho'.
    pose proof (starts_with_no_pair c_close c y (CLOSE ++ after) ltac:(done) Hc) as Hc'.
    change [c_open; c_open] with OPEN in Ho'. change [c_close; c_close] with CLOSE in Hc'.
    cbn [app] in Ho', Hc'. rewrite Ho'. unfold starts_with in Hc'.
    by destruct (strip_prefix CLOSE _).
Qed.

Lemma trim_pad n : trim n = n → trim (c_space :: n ++ [c_space]) = n.
Proof.
  intros Hn. rewrite <- Hn at 2. unfold trim at 1.
  change (trim_start (c_space :: n ++ [c_space])) with (trim_start (n ++ [c_space])).
  rewrite <- trim_start_trim_end. change (trim_end (n ++ [c_space])) with (trim_end (n ++ [c_space])).
  rewrite trim_end_app. apply trim_start_trim_end.
Qed.

Lemma contains_pad p d n :
  d ≠ c_space → contains (d :: p) n = false → contains (d :: p) (c_space :: n) = false.
Proof.
  rewrite !contains_None. intros Hd H [|x u] v Heq; simpl in Heq.
  - injection Heq as Heq _. by destruct Hd.
  - injection Heq as _ Heq. by apply (H u v).
Qed.

Lemma parse_loop_placeholder n fuel c acc phs segs tail :
  name_ok n = true →
  ∃ c', parse_loop (S fuel) c acc (print_segment (Placeholder n) ++ tail) phs segs =
    parse_loop fuel c' [] tail (set_insert n phs) (push_literal segs acc ++ [Placeholder n]).
Proof.
  unfold name_ok. intros Hn. bool_hyps.
  destruct (placeholder_scan_ok c (c_space :: n) (c + 2) [] tail) as [c' Hs].
  - by apply (contains_pad [c_open] c_open).
  - by apply (contains_pad [c_close] c_close).
  - cbn zeta in Hs. cbn [app] in Hs. rewrite trim_pad, bool_decide_eq_false_2 in Hs by done.
    exists c'.
    assert (print_segment (Placeholder n) ++ tail =
      c_open :: c_open :: c_space :: n ++ c_space :: CLOSE ++ tail) as ->.
    { unfold print_segment. rewrite <- !app_assoc. reflexivity. }
    cbn [parse_loop].
    change (strip_prefix ESC_OPEN (c_open :: c_open :: c_space :: n ++ c_space :: CLOSE ++ tail))
      with (@None str).
    change (strip_prefix ESC_CLOSE (c_open :: c_open :: c_space :: n ++ c_space :: CLOSE ++ tail))
      with (@None str).
    change (strip_prefix OPEN (c_open :: c_open :: c_space :: n ++ c_space :: CLOSE ++ tail))
      with (Some (c_space :: n ++ c_space :: CLOSE ++ tail)).
    unfold parse_placeholder. cbn iota. change (str_len OPEN) with 2. by rewrite Hs.
Qed.

(** The segments [done] may be continued by [segs]. *)
Definition joins (done segs : list Segment) : bool :=
  match last done, head segs with Some p, Some q => follows p q | _, _ => true end.

Lemma push_literal_snoc segs l rest :
  joins segs (Literal l :: rest) = true → l ≠ [] → push_literal segs l = segs ++ [Literal l].
Proof.
  unfold joins, push_literal. intros Hj Hl. rewrite bool_decide_eq_false_2 by done.
  by destruct (last segs) as [[e|n]|].
Qed.

Lemma joins_snoc segs s rest : joins (segs ++ [s]) rest = 
  match rest with [] => true | q :: _ => follows s q end.
Proof. unfold joins. rewrite last_snoc. by destruct rest. Qed.

Lemma parse_loop_print segs fuel c acc phs done' :
  wf_segs segs = true → joins (push_literal done' acc) segs = true →
  length (print_segments segs) ≤ fuel →
  parse_loop fuel c acc (print_segments segs) phs done' =
  Ok (mkTemplate (fold_left (λ s n, set_insert n s) (seg_names segs) phs)
                 (push_literal done' acc ++ segs)).
Proof.
  revert fuel c acc phs done'. induction segs as [|s segs IH]; intros fuel c acc phs done' Hwf Hj Hf.
  { rewrite app_nil_r. by destruct fuel. }
  simpl in Hwf. apply andb_true_iff in Hwf as [[Hs Hfo]%andb_true_iff Hwf].
  change (print_segments (s :: segs)) with (print_segment s ++ print_segments segs) in *.
  destruct s as [l|n]; cbn [seg_ok] in Hs; bool_hyps.
  - destruct (parse_loop_literal l fuel c acc phs done' (print_segments segs))
      as (f' & c' & acc' & s' & Hf' & Hs' & Hp).
    + destruct segs as [|[l'|n'] segs]; [done|done|]. intros Ho.
      simpl in Hfo. by rewrite Ho in Hfo.
    + destruct segs as [|[l'|n'] segs]; done.
    + done.
    + cbn [print_segment]. rewrite Hp, IH; [|done| |done].
      * rewrite Hs', (push_literal_snoc _ l segs) by done. by rewrite <- app_assoc.
      * rewrite Hs', (push_literal_snoc _ l segs), joins_snoc by done. exact Hfo.
  - destruct fuel as [|fuel]; [simpl in Hf; lia|].
    destruct (parse_loop_placeholder n fuel c acc phs done' (print_segments segs) Hs) as [c' ->].
    rewrite IH; [|done| |].
    + change (push_literal (push_literal done' acc ++ [Placeholder n]) [])
        with (push_literal done' acc ++ [Placeholder n]). by rewrite <- app_assoc.
    + change (push_literal (push_literal done' acc ++ [Placeholder n]) [])
        with (push_literal done' acc ++ [Placeholder n]). rewrite joins_snoc. exact Hfo.
    + rewrite length_app in Hf. simpl in Hf. lia.
Qed.

(** ** What parsing produces *)

Definition ends_open (segs : list Segment) : bool :=
  match last segs with Some (Literal l) => open_end l | _ => false end.

Lemma wf_segs_snoc segs s :
  wf_segs (segs ++ [s]) = wf_segs segs && joins segs [s] && seg_ok s.
Proof.
  unfold joins. induction segs as [|q segs IH]; simpl; [by rewrite !andb_true_r|].
  rewrite IH. destruct segs as [|q' segs]; simpl.
  - by destruct (seg_ok q), (follows q s), (seg_ok s).
  - destruct (seg_ok q), (follows q q'); simpl; try done; by rewrite ?andb_assoc.
Qed.

Lemma push_literal_shape segs l :
  wf_segs segs = true → l ≠ [] →
  ∃ k e, push_literal segs l = k ++ [Literal (e ++ l)] ∧ wf_segs k = true ∧
    joins k [Literal (e ++ l)] = true ∧ ends_open segs = open_end e.
Proof.
  intros Hwf Hl. unfold push_literal, ends_open. rewrite bool_decide_eq_false_2 by done.
  destruct (last segs) as [[e|n]|] eqn:E.
  - apply last_Some in E as [k ->]. rewrite wf_segs_snoc in Hwf. bool_hyps.
    exists k, e. by rewrite set_last_snoc.
  - exists segs, []. unfold joins. rewrite E. done.
  - exists segs, []. unfold joins. by rewrite E.
Qed.

Lemma push_literal_wf segs l : wf_segs segs = true → wf_segs (push_literal segs l) = true.
Proof.
  intros Hwf. destruct (decide (l = [])) as [->|Hl]; [done|].
  destruct (push_literal_shape segs l Hwf Hl) as (k & e & -> & Hk & Hj & _).
  rewrite wf_segs_snoc, Hk, Hj. simpl. rewrite bool_decide_eq_false_2; [done|].
  by destruct e.
Qed.

Lemma push_literal_ends_open segs l :
  wf_segs segs = true →
  ends_open (push_literal segs l) =
  fold_left (λ odd c, if is_char c_open c then negb odd else false) l (ends_open segs).
Proof.
  intros Hwf. destruct (decide (l = [])) as [->|Hl]; [done|].
  destruct (push_literal_shape segs l Hwf Hl) as (k & e & -> & _ & _ & ->).
  unfold ends_open, open_end. by rewrite last_snoc, fold_left_app.
Qed.

Lemma contains_cons p c x s :
  ¬ p `prefix_of` ((c :: x) ++ s) → contains p x = false → contains p (c :: x) = false.
Proof.
  rewrite !contains_None. intros Hp Hx [|u0 u] v Heq.
  - apply Hp. exists (v ++ s). rewrite Heq. cbn [app]. by rewrite <- app_assoc.
  - injection Heq as _ Heq. by apply (Hx u v).
Qed.

Lemma placeholder_scan_inv start cur acc rest n cur' after :
  placeholder_scan start cur acc rest = Ok (n, cur', after) →
  ∃ x, rest = x ++ CLOSE ++ after ∧ n = trim (acc ++ x) ∧ n ≠ [] ∧
    contains OPEN x = false ∧ contains CLOSE x = false.
Proof.
  revert cur acc. induction rest as [|ch rest IH]; intros cur acc; cbn [placeholder_scan]; [done|].
  destruct (starts_with OPEN (ch :: rest)) eqn:Ho; [done|].
  destruct (strip_prefix CLOSE (ch :: rest)) as [a|] eqn:Hc.
  - apply strip_prefix_Some in Hc. case_bool_decide as He; [done|]. intros [= <- _ <-].
    exists []. rewrite app_nil_r. done.
  - intros (x & -> & -> & Hne & Hox & Hcx)%IH. exists (ch :: x). rewrite <- app_assoc in *.
    split_and!; [done|done|done| |].
    + apply (contains_cons _ _ _ (CLOSE ++ after)); [|done]. by apply starts_with_false.
    + apply (contains_cons _ _ _ (CLOSE ++ after)); [|done]. by apply strip_prefix_None.
Qed.

Lemma trim_infix s : ∃ u v, s = u ++ trim s ++ v.
Proof.
  destruct (drop_while_suffix is_whitespace s) as [u Hu].
  destruct (trim_end_prefix (trim_start s)) as [v Hv].
  exists u, v. fold (trim_start s) in Hu. unfold trim. by rewrite <- Hv.
Qed.

Lemma parse_placeholder_name start rest n cur' after :
  parse_placeholder start rest = Ok (n, cur', after) → name_ok n = true.
Proof.
  intros (x & _ & -> & Hne & Ho & Hc)%placeholder_scan_inv. unfold name_ok.
  destruct (trim_infix x) as (u & v & Hx). cbn [app] in *.
  rewrite (bool_decide_eq_false_2 _ Hne), bool_decide_eq_true_2 by apply trim_idemp.
  rewrite Hx in Ho, Hc. apply contains_infix in Ho, Hc. by rewrite Ho, Hc.
Qed.

Lemma parse_loop_wf fuel cursor literal rest phs segs t :
  wf_segs segs = true →
  (ends_open (push_literal segs literal) = true → head rest ≠ Some c_open) →
  parse_loop fuel cursor literal rest phs segs = Ok t → wf_segs (segments t) = true.
Proof.
  revert cursor literal rest phs segs.
  induction fuel as [|fuel IH]; intros cursor literal rest phs segs Hwf Hend Hp;
    destruct rest as [|ch rest]; cbn [parse_loop] in Hp.
  2: done.
  1,2: injection Hp as <-; cbn; by apply push_literal_wf.
  pose proof (push_literal_wf segs literal Hwf) as Hwf1.
  destruct (strip_prefix ESC_OPEN (ch :: rest)) as [after|] eqn:E1.
  { apply strip_prefix_Some in E1 as E1'. assert (Some ch = Some c_open) as [= ->] by exact (f_equal head E1').
    destruct (ends_open (push_literal segs literal)) eqn:He; [by destruct Hend|].
    eapply IH; [| |exact Hp]; [by apply push_literal_wf|].
    change (push_literal (push_literal (push_literal segs literal) OPEN) [])
      with (push_literal (push_literal segs literal) OPEN).
    rewrite push_literal_ends_open, He by done. done. }
  destruct (strip_prefix ESC_CLOSE (ch :: rest)) as [after|] eqn:E2.
  { eapply IH; [| |exact Hp]; [by apply push_literal_wf|].
    change (push_literal (push_literal (push_literal segs literal) CLOSE) [])
      with (push_literal (push_literal segs literal) CLOSE).
    rewrite push_literal_ends_open by done. done. }
  destruct (strip_prefix OPEN (ch :: rest)) as [after|] eqn:E3.
  { apply strip_prefix_Some in E3 as E3'. assert (Some ch = Some c_open) as [= ->] by exact (f_equal head E3').
    destruct (parse_placeholder cursor after) as [[[n c'] after']|e] eqn:Hn; [|done].
    assert (name_ok n = true) as Hok by by eapply parse_placeholder_name.
    eapply IH; [| |exact Hp].
    - rewrite wf_segs_snoc, Hwf1. simpl. rewrite Hok, andb_true_r. unfold joins.
      unfold ends_open in Hend. destruct (last (push_literal segs literal)) as [[l|?]|]; [|done..]. simpl.
      destruct (open_end l); [by destruct Hend|done].
    - change (push_literal (push_literal segs literal ++ [Placeholder n]) [])
        with (push_literal segs literal ++ [Placeholder n]).
      unfold ends_open. by rewrite last_snoc. }
  destruct (starts_with CLOSE (ch :: rest)); [done|].
  eapply IH; [exact Hwf| |exact Hp]. rewrite <- push_literal_app, push_literal_ends_open by done.
  simpl. destruct (is_char c_open ch) eqn:Ec; [|done]. apply N.eqb_eq in Ec as ->.
  intros _. destruct rest as [|d rest]; [done|]. intros [= ->]. done.
Qed.

(** Printing segments and parsing the text are inverse to each other: every list of
    segments a template can have — no empty literal or name, literals merged, names trimmed
    and without delimiters, no odd opening brace before a placeholder — is read back from
    its text, with escapes for the delimiters in literals; and the segments of every
    template that parses are such a list. *)
Theorem parse_template_print :
  (∀ segs, wf_segs segs = true →
     parse_template (print_segments segs) = Ok (mkTemplate (name_set segs) segs)) ∧
  (∀ source t, parse_template source = Ok t →
     wf_segs (segments t) = true ∧ parse_template (print_segments (segments t)) = Ok t).
Proof.
  assert (∀ segs, wf_segs segs = true →
    parse_template (print_segments segs) = Ok (mkTemplate (name_set segs) segs)) as Hprint.
  { intros segs Hwf. unfold parse_template. by rewrite parse_loop_print. }
  split; [done|]. intros source t Hp.
  assert (wf_segs (segments t) = true) as Hwf by (by eapply parse_loop_wf; [| |exact Hp]).
  split; [done|]. rewrite Hprint by done. apply parse_loop_names in Hp; [|done].
  rewrite <- Hp. by destruct t.
Qed.

Example escape_ex :
  print_segments [Literal (lit "{{{ }}"); Placeholder (lit "a"); Literal (lit "}")] =
  lit "{{{{{ }}}}{{ a }}}".
Proof. vm_compute. reflexivity. Qed.
