(* ===== verification/UnixPath.v ===== *)
(** * UnixPath: the parts of [std::path] the program uses, on Unix

    [Path] equality compares components, so a path is the list of its components;
    [components] reads a path string the way [Path::components] does. *)
From S2P Require Import Prelude RustStr.

(** [std::path::Component] (a [Prefix] only exists on Windows). *)
Inductive Component := RootDir | CurDir | ParentDir | Normal (name : str).

#[export] Instance Component_eq_dec : EqDecision Component.
Proof. solve_decision. Defined.

Abbreviation Path := (list Component) (only parsing).

Definition c_slash : char := 47%N.
Definition dot : str := lit ".".
Definition dotdot : str := lit "..".

(** A piece between separators: empty pieces and [.] are dropped. *)
Definition piece_component (piece : str) : option Component :=
  if bool_decide (piece = []) || bool_decide (piece = dot) then None
  else if bool_decide (piece = dotdot) then Some ParentDir else Some (Normal piece).

(** [Path::components]: a leading [.] of a relative path is kept. *)
Definition components (raw : str) : Path :=
  let body := omap piece_component (split_char c_slash raw) in
  if starts_with [c_slash] raw then RootDir :: body
  else match split_char c_slash raw with
       | piece :: _ => if bool_decide (piece = dot) then CurDir :: body else body
       | [] => body
       end.

(** [Path::is_absolute]. *)
Definition is_absolute (p : Path) : bool :=
  match p with RootDir :: _ => true | _ => false end.

(** [Path::join]. *)
Definition path_concat (base p : Path) : Path :=
  if is_absolute p then p
  else match base, p with
       | _ :: _, CurDir :: p => base ++ p
       | _, _ => base ++ p
       end.

(** [Path::parent]; [PathBuf::pop] truncates to it. *)
Definition parent (p : Path) : option Path :=
  match last p with
  | None | Some RootDir => None
  | Some _ => Some (take (length p - 1) p)
  end.
Definition pop (p : Path) : Path := default p (parent p).

(** [PathBuf::push] of one component. *)
Definition push (p : Path) (c : Component) : Path :=
  match c with RootDir => [RootDir] | _ => p ++ [c] end.

(** [Path::file_name] and [OsStr::to_str]. *)
Definition file_name (p : Path) : option str :=
  match last p with Some (Normal name) => Some name | _ => None end.

(** [Path::ancestors]: the path itself and its parents. *)
Fixpoint ancestors_fuel (fuel : nat) (p : Path) : list Path :=
  match fuel with
  | 0 => [p]
  | S fuel => p :: match parent p with Some q => ancestors_fuel fuel q | None => [] end
  end.
Definition ancestors (p : Path) : list Path := ancestors_fuel (length p) p.

(** [Path::display] of a path: its components with separators. *)
Definition component_str (c : Component) : str :=
  match c with RootDir => [] | CurDir => dot | ParentDir => dotdot | Normal s => s end.
Definition path_str (p : Path) : str :=
  match p with
  | [RootDir] => [c_slash]
  | _ => join [c_slash] (component_str <$> p)
  end.

Example components_ex :
  components (lit "/a//./b/../c/") = [RootDir; Normal (lit "a"); Normal (lit "b"); ParentDir; Normal (lit "c")].
Proof. reflexivity. Qed.
Example components_rel_ex : components (lit "./bin/git") = [CurDir; Normal (lit "bin"); Normal (lit "git")].
Proof. reflexivity. Qed.
Example ancestors_ex :
  path_str <$> ancestors (components (lit "/a/b")) = [lit "/a/b"; lit "/a"; lit "/"].
Proof. reflexivity. Qed.

(** ** Facts *)

(** A component that a piece of a path can be. *)
Definition component_ok (c : Component) : Prop :=
  match c with
  | Normal s => s ≠ [] ∧ s ≠ dot ∧ s ≠ dotdot ∧ forallb (negb ∘ is_char c_slash) s = true
  | _ => True
  end.

Definition is_normal (c : Component) : Prop := match c with Normal _ => True | _ => False end.

#[export] Instance is_normal_dec c : Decision (is_normal c).
Proof. destruct c; simpl; apply _. Defined.

Lemma components_ok raw : Forall component_ok (components raw).
Proof.
  pose proof (split_at_all_pieces (is_char c_slash) raw) as Hp.
  assert (Forall component_ok (omap piece_component (split_char c_slash raw))) as Hb.
  { unfold split_char. induction Hp as [|piece ls Hpiece Hp IH]; simpl; [by constructor|].
    unfold piece_component at 1. repeat case_bool_decide; simpl; try done; by constructor. }
  unfold components. destruct (starts_with _ _); [by constructor|].
  destruct (split_char c_slash raw); [done|]. case_bool_decide; [by constructor|done].
Qed.

Lemma parent_snoc p c : c ≠ RootDir → parent (p ++ [c]) = Some p.
Proof.
  intros Hc. unfold parent. rewrite last_snoc, length_app. simpl. rewrite Nat.add_sub, take_app_length.
  by destruct c.
Qed.

Lemma file_name_snoc p s : file_name (p ++ [Normal s]) = Some s.
Proof. unfold file_name. by rewrite last_snoc. Qed.

Lemma file_name_Some p s : file_name p = Some s ↔ ∃ q, p = q ++ [Normal s].
Proof.
  split; [|intros [q ->]; apply file_name_snoc].
  unfold file_name. destruct (last p) as [[]|] eqn:Hl; [done..| |done].
  intros [= ->]. apply last_Some in Hl as [q ->]. eauto.
Qed.
