(* ===== verification/AbsolutePath.v ===== *)
(** * AbsolutePath: absolute, lexically normalized paths
    ([utils/absolute-path/src/lib.rs], [absolutize.rs], compiled for Unix)

    The process environment (working directory, home directory) is a class; the
    thread-local base and home overrides are explicit state. *)
From S2P Require Import Prelude RustStr PatchErrors UnixPath.

(** [std::env::current_dir] and [dirs::home_dir]. *)
Class ProcessEnv := {
  current_dir : result io_error Path;
  home_dir : option Path;
}.

(** The thread-locals [ABSOLUTE_PATH_BASE] and [ABSOLUTE_PATH_HOME]. *)
Record PathLocals := mkLocals { path_base : option Path; path_home : option Path }.
Definition initial_locals : PathLocals := mkLocals None None.

(** ** [absolutize.rs] *)

Definition normalize_step (normalized : Path) (component : Component) : Path :=
  match component with
  | CurDir => normalized
  | ParentDir => pop normalized
  | RootDir | Normal _ => push normalized component
  end.

Definition normalize_path (path : Path) : Path :=
  match foldl normalize_step [] path with
  | [] => [CurDir]
  | normalized => normalized
  end.

Definition path_with_base (path base_path : Path) : Path :=
  if is_absolute path then path else path_concat base_path path.

Definition absolutize_from (path base_path : Path) : Path :=
  normalize_path (path_with_base path base_path).

(** ** Windows device paths, recognised on any host *)

Definition is_windows_drive_absolute_path (path : str) : bool :=
  match path with
  | drive :: colon :: sep :: _ =>
      is_ascii_alphabetic drive && is_char 58%N colon && (is_char 92%N sep || is_char c_slash sep)
  | _ => false
  end.

Definition normalize_windows_device_path (path : str) : option str :=
  match strip_prefix (lit "\\?\UNC\") path with
  | Some unc => Some (lit "\\" ++ unc)
  | None =>
      match strip_prefix (lit "\\.\UNC\") path with
      | Some unc => Some (lit "\\" ++ unc)
      | None =>
          let drive p := match p with
                         | Some path => if is_windows_drive_absolute_path path then Some path else None
                         | None => None
                         end in
          match drive (strip_prefix (lit "\\?\") path) with
          | Some path => Some path
          | None => drive (strip_prefix (lit "\\.\") path)
          end
      end
  end.

Example device_drive : normalize_windows_device_path (lit "\\?\C:\a") = Some (lit "C:\a").
Proof. reflexivity. Qed.
Example device_unc : normalize_windows_device_path (lit "\\.\UNC\srv\s") = Some (lit "\\srv\s").
Proof. reflexivity. Qed.
Example device_none : normalize_windows_device_path (lit "\\?\pipe") = None.
Proof. reflexivity. Qed.

(** [normalize_path_for_platform]: only Windows rewrites a path. *)
Definition normalize_path_for_platform (path : Path) : Path := path.

(** ** [AbsolutePathBuf] *)

(** The newtype over [PathBuf]; its field is private, its constructors are below. *)
Abbreviation AbsolutePathBuf := (list Component) (only parsing).

Section env.
Context {Env : ProcessEnv}.

Definition absolutize (path : Path) : result io_error Path :=
  if is_absolute path then Ok (normalize_path path)
  else cwd ← current_dir; Ok (absolutize_from path cwd).

(** [AbsolutePathBufGuard::home_directory]: the override, or the user's. *)
Definition home_directory (t : PathLocals) : option Path :=
  match path_home t with Some home => Some home | None => home_dir end.

Definition maybe_expand_home_directory (t : PathLocals) (path : str) : Path :=
  match strip_prefix (lit "~") path, home_directory t with
  | Some rest, Some home =>
      match rest with
      | [] => home
      | _ => match strip_prefix [c_slash] rest with
             | Some rest => path_concat home (components (drop_while (is_char c_slash) rest))
             | None => components path
             end
      end
  | _, _ => components path
  end.

Definition resolve_path_against_base (t : PathLocals) (path : str) (base_path : Path) : AbsolutePathBuf :=
  absolutize_from (normalize_path_for_platform (maybe_expand_home_directory t path))
                  (normalize_path_for_platform base_path).

(** [from_absolute_path], which is also [TryFrom<String>] and its siblings. *)
Definition from_absolute_path (t : PathLocals) (path : str) : result io_error AbsolutePathBuf :=
  absolutize (normalize_path_for_platform (maybe_expand_home_directory t path)).

Definition from_absolute_path_checked (t : PathLocals) (path : str) : result io_error AbsolutePathBuf :=
  let expanded := normalize_path_for_platform (maybe_expand_home_directory t path) in
  if is_absolute expanded then Ok (absolutize_from expanded [RootDir])
  else Err (mkIo InvalidInput (lit "path is not absolute: " ++ path)).

Definition relative_to_current_dir (t : PathLocals) (path : str) : result io_error AbsolutePathBuf :=
  cwd ← current_dir; Ok (resolve_path_against_base t path cwd).

Definition abs_join (t : PathLocals) (self : AbsolutePathBuf) (path : str) : AbsolutePathBuf :=
  resolve_path_against_base t path self.

(** [parent] and [ancestors] wrap those of [Path]. *)
Definition abs_parent (self : AbsolutePathBuf) : option AbsolutePathBuf := parent self.
Definition abs_ancestors (self : AbsolutePathBuf) : list AbsolutePathBuf := ancestors self.

(** ** The guards *)

(** [AbsolutePathBufGuard::new] and its [Drop]. *)
Definition guard_new (base_path : Path) (t : PathLocals) : PathLocals :=
  mkLocals (Some base_path) (path_home t).
Definition guard_drop (t : PathLocals) : PathLocals := mkLocals None (path_home t).

Definition deserialization_base (t : PathLocals) (path : Path) : result str (option Path) :=
  match path_base t with
  | None => if is_absolute path then Ok None
            else Err (lit "AbsolutePathBuf deserialized without a base path")
  | Some base => Ok (Some base)
  end.

(** [with_home_directory]: the guard puts the previous home back. *)
Definition with_home_directory {T} (home_directory : Path)
    (operation : PathLocals → PathLocals * T) (t : PathLocals) : PathLocals * T :=
  let previous_home := path_home t in
  let '(t, r) := operation (mkLocals (path_base t) (Some home_directory)) in
  (mkLocals (path_base t) previous_home, r).

(** [Deserialize for AbsolutePathBuf], from the path that was read. *)
Definition deserialize (t : PathLocals) (path : str) : result str AbsolutePathBuf :=
  base ← deserialization_base t (components path);
  match base with
  | Some base => Ok (resolve_path_against_base t path base)
  | None => map_err message (from_absolute_path t path)
  end.

End env.

(** * An [AbsolutePathBuf] is absolute and normalized *)

(** ** Normalization *)

(** The root followed by ordinary names. *)
Definition abs_normal (p : Path) : Prop :=
  match p with RootDir :: names => Forall is_normal names | _ => False end.

#[export] Instance abs_normal_dec p : Decision (abs_normal p).
Proof. destruct p as [|[] p]; apply _. Defined.

Lemma abs_normal_is_absolute p : abs_normal p → is_absolute p = true.
Proof. by destruct p as [|[] p]. Qed.

(** Taking the parent takes the last name away, if there is one. *)
Lemma abs_normal_parent p q : abs_normal p → parent p = Some q → abs_normal q.
Proof.
  destruct p as [|[] names]; try done. simpl. intros Hp.
  destruct names as [|c names _] using rev_ind; [done|].
  apply Forall_app in Hp as [Hp Hc]. inversion_clear Hc.
  rewrite app_comm_cons, parent_snoc by by destruct c. by intros [= <-].
Qed.

Lemma pop_abs_normal p : abs_normal p → abs_normal (pop p).
Proof.
  unfold pop. destruct (parent p) as [q|] eqn:Hq; [|done]. intros Hp. by eapply abs_normal_parent.
Qed.

Lemma normalize_step_abs p c : abs_normal p → abs_normal (normalize_step p c).
Proof.
  destruct c; simpl; [done|done|apply pop_abs_normal|].
  destruct p as [|[] p]; try done. simpl. intros Hp. apply Forall_app. by split; [|constructor].
Qed.

Lemma normalize_fold_abs cs p : abs_normal p → abs_normal (foldl normalize_step p cs).
Proof. revert p. induction cs as [|c cs IH]; intros p Hp; simpl; [done|]. by apply IH, normalize_step_abs. Qed.

Lemma normalize_path_fold cs : is_absolute cs = true → normalize_path cs = foldl normalize_step [] cs.
Proof.
  destruct cs as [|[] cs]; try done. intros _. unfold normalize_path. simpl.
  pose proof (normalize_fold_abs cs [RootDir] ltac:(by constructor)) as Hn.
  by destruct (foldl normalize_step [RootDir] cs).
Qed.

Lemma normalize_path_abs cs : is_absolute cs = true → abs_normal (normalize_path cs).
Proof.
  intros Ha. rewrite normalize_path_fold by done. destruct cs as [|[] cs]; try done. simpl.
  apply normalize_fold_abs. by constructor.
Qed.

(** Names are kept as they are. *)
Lemma normalize_fold_names names p :
  Forall is_normal names → foldl normalize_step p names = p ++ names.
Proof.
  intros Hn. revert p. induction Hn as [|c names Hc Hn IH]; intros p; simpl; [by rewrite app_nil_r|].
  destruct c; try done. simpl. by rewrite IH, <- app_assoc.
Qed.

Lemma normalize_path_id p : abs_normal p → normalize_path p = p.
Proof.
  intros Hp. rewrite normalize_path_fold by by apply abs_normal_is_absolute.
  destruct p as [|[] p]; try done. simpl. by rewrite normalize_fold_names.
Qed.

Lemma path_with_base_absolute p base :
  is_absolute base = true → is_absolute (path_with_base p base) = true.
Proof.
  intros Hb. unfold path_with_base, path_concat. destruct (is_absolute p) eqn:Hp; [done|].
  destruct base as [|b base]; [done|]. by destruct p as [|[] p].
Qed.

Lemma absolutize_from_abs p base :
  is_absolute base = true → abs_normal (absolutize_from p base).
Proof. intros Hb. by apply normalize_path_abs, path_with_base_absolute. Qed.

Lemma absolutize_from_absolute p base : is_absolute p = true → absolutize_from p base = normalize_path p.
Proof. unfold absolutize_from, path_with_base. by intros ->. Qed.

(** A relative path is applied to its base component by component. *)
Lemma absolutize_from_relative p base :
  is_absolute base = true → is_absolute p = false →
  absolutize_from p base = foldl normalize_step (normalize_path base) p.
Proof.
  intros Hb Hp. unfold absolutize_from.
  rewrite normalize_path_fold by by apply path_with_base_absolute. rewrite normalize_path_fold by done.
  unfold path_with_base. rewrite Hp. unfold path_concat. rewrite Hp.
  destruct base as [|b base]; [done|]. rewrite <- foldl_app. destruct p as [|[] p]; try done.
  by rewrite !foldl_app.
Qed.

(** ** Printing and reading a path *)

Lemma omap_piece_names names :
  Forall component_ok (Normal <$> names) → omap piece_component names = Normal <$> names.
Proof.
  induction names as [|s names IH]; [done|]. intros [(Hn & Hd & Hdd & _) Hs]%Forall_cons.
  assert (piece_component s = Some (Normal s)) as Hpiece.
  { unfold piece_component. by rewrite !bool_decide_eq_false_2. }
  change (omap piece_component (s :: names)) with
    (match piece_component s with Some y => y :: omap piece_component names | None => omap piece_component names end).
  by rewrite Hpiece, IH.
Qed.

Lemma abs_normal_names p :
  abs_normal p → ∃ names, p = RootDir :: (Normal <$> names).
Proof.
  destruct p as [|[] p]; try done. simpl. intros Hp. induction Hp as [|c p Hc Hp [names [= ->]]].
  - by exists [].
  - destruct c as [| | |s]; try done. by exists (s :: names).
Qed.

Lemma path_str_slash names : ∃ rest, path_str (RootDir :: (Normal <$> names)) = c_slash :: rest.
Proof. destruct names as [|s names]; [by eexists|]. simpl. by eexists. Qed.

Lemma components_path_str p :
  abs_normal p → Forall component_ok p → components (path_str p) = p.
Proof.
  intros [names ->]%abs_normal_names. rewrite Forall_cons. intros [_ Hok].
  destruct (path_str_slash names) as [rest Hs]. unfold components. assert (starts_with [c_slash] (path_str (RootDir :: (Normal <$> names))) = true) as -> by by rewrite Hs.
  clear Hs. f_equal.
  destruct names as [|s names]; [reflexivity|]. unfold path_str. cbn [fmap list_fmap].
  change (component_str RootDir :: component_str (Normal s) :: _)
    with (([] : str) :: s :: (component_str <$> (Normal <$> names))).
  rewrite <- list_fmap_compose.
  replace (component_str ∘ Normal <$> names) with names by (symmetry; apply list_fmap_id).
  rewrite split_char_join; [|done|].
  - change (omap piece_component ([] :: s :: names)) with (omap piece_component (s :: names)).
    by apply (omap_piece_names (s :: names)).
  - constructor; [done|]. apply Forall_forall. intros l Hl.
    rewrite Forall_forall in Hok. destruct (Hok (Normal l)) as (_ & _ & _ & Hsl); [|exact Hsl].
    by apply (list_elem_of_fmap_2 Normal (s :: names)).
Qed.

(** ** Joining texts *)

Definition body (raw : str) : Path := omap piece_component (split_char c_slash raw).

(** A text that is neither absolute nor relative to the home directory. *)
Definition plain_relative (raw : str) : bool :=
  negb (starts_with [c_slash] raw) && negb (starts_with (lit "~") raw).

Lemma body_no_root raw : Forall (λ c, c ≠ RootDir) (body raw).
Proof.
  unfold body. induction (split_char c_slash raw) as [|piece ls IH]; [by constructor|].
  simpl. unfold piece_component at 1. repeat case_bool_decide; simpl; try done; by constructor.
Qed.

Lemma components_relative raw :
  starts_with [c_slash] raw = false → components raw = body raw ∨ components raw = CurDir :: body raw.
Proof.
  intros Hs. unfold components, body. rewrite Hs. destruct (split_char c_slash raw); [by left|].
  case_bool_decide; [by right|by left].
Qed.

Lemma components_not_absolute raw :
  starts_with [c_slash] raw = false → is_absolute (components raw) = false.
Proof.
  intros Hs. destruct (components_relative raw Hs) as [-> | ->]; [|done].
  pose proof (body_no_root raw) as Hb. destruct (body raw) as [|c b]; [done|].
  apply Forall_cons in Hb as [Hc _]. by destruct c.
Qed.

Lemma fold_components raw p :
  starts_with [c_slash] raw = false →
  foldl normalize_step p (components raw) = foldl normalize_step p (body raw).
Proof. intros Hs. by destruct (components_relative raw Hs) as [-> | ->]. Qed.

Lemma body_slash a b : body (a ++ c_slash :: b) = body a ++ body b.
Proof.
  unfold body, split_char. rewrite <- omap_app. f_equal.
  induction a as [|c a IH]; [done|]. simpl. rewrite IH.
  destruct (is_char c_slash c); [done|]. pose proof (split_at_all_nonempty (is_char c_slash) a) as Hne.
  by destruct (split_at_all (is_char c_slash) a).
Qed.

Lemma starts_with_app (p a b : str) : length p ≤ length a → starts_with p (a ++ b) = starts_with p a.
Proof.
  revert a. induction p as [|c p IH]; intros a Ha; [done|]. destruct a as [|d a]; [simpl in Ha; lia|].
  simpl in Ha. specialize (IH a ltac:(lia)). unfold starts_with in *. simpl. by destruct (c =? d)%N.
Qed.

Section env.
Context {Env : ProcessEnv}.
Implicit Types t : PathLocals.

Lemma expand_plain t raw : starts_with (lit "~") raw = false → maybe_expand_home_directory t raw = components raw.
Proof.
  unfold maybe_expand_home_directory, starts_with. by destruct (strip_prefix (lit "~") raw).
Qed.

Lemma abs_join_plain t self raw :
  is_absolute self = true → plain_relative raw = true →
  abs_join t self raw = foldl normalize_step (normalize_path self) (body raw).
Proof.
  unfold plain_relative. intros Hself [Hs Ht]%andb_true_iff.
  apply negb_true_iff in Hs, Ht. unfold abs_join, resolve_path_against_base, normalize_path_for_platform.
  rewrite expand_plain by done.
  rewrite absolutize_from_relative by (done || by apply components_not_absolute).
  by apply fold_components.
Qed.

Lemma path_str_not_home p : abs_normal p → starts_with (lit "~") (path_str p) = false.
Proof. intros [names ->]%abs_normal_names. by destruct (path_str_slash names) as [rest ->]. Qed.

Lemma absolutize_abs p q :
  (∀ cwd, current_dir = Ok cwd → is_absolute cwd = true) → absolutize p = Ok q → abs_normal q.
Proof.
  intros Hcwd. unfold absolutize. destruct (is_absolute p) eqn:Hp; [intros [= <-]; by apply normalize_path_abs|].
  unfold mbind, result_bind. destruct current_dir as [cwd|] eqn:Hc; [|done]. intros [= <-].
  by apply absolutize_from_abs, Hcwd.
Qed.

Lemma ancestors_abs self p : abs_normal self → p ∈ abs_ancestors self → abs_normal p.
Proof.
  unfold abs_ancestors, ancestors. generalize (length self) as fuel.
  intros fuel. revert self. induction fuel as [|fuel IH]; intros self Hself; simpl.
  - by intros ->%list_elem_of_singleton.
  - intros [->|Hp]%elem_of_cons; [done|]. destruct (parent self) as [q|] eqn:Hq.
    + eapply IH; [|exact Hp]. by eapply abs_normal_parent.
    + by apply not_elem_of_nil in Hp.
Qed.

(** An [AbsolutePathBuf] "is guaranteed to be absolute and normalized": with an
    absolute working directory (and base, when one is set), every constructor, from
    whatever text, with or without home expansion, gives the root followed by names
    only, without [.] and [..]; and joining any text, taking the parent or an ancestor
    keep this. *)
Theorem absolute_path_invariant t :
  (∀ cwd, current_dir = Ok cwd → is_absolute cwd = true) →
  (∀ base, path_base t = Some base → is_absolute base = true) →
  (∀ raw p, from_absolute_path t raw = Ok p ∨ from_absolute_path_checked t raw = Ok p ∨
            relative_to_current_dir t raw = Ok p ∨ deserialize t raw = Ok p → abs_normal p) ∧
  (∀ self, abs_normal self →
     (∀ raw, abs_normal (abs_join t self raw)) ∧
     (∀ p, abs_parent self = Some p ∨ p ∈ abs_ancestors self → abs_normal p)).
Proof.
  intros Hcwd Hbase. split.
  - intros raw p [Hp|[Hp|[Hp|Hp]]].
    + by eapply absolutize_abs.
    + unfold from_absolute_path_checked in Hp. destruct (is_absolute _); [|done].
      injection Hp as <-. by apply absolutize_from_abs.
    + unfold relative_to_current_dir, mbind, result_bind in Hp. destruct current_dir as [cwd|] eqn:Hc; [|done].
      injection Hp as <-. by apply absolutize_from_abs, Hcwd.
    + unfold deserialize, deserialization_base in Hp. destruct (path_base t) as [base|] eqn:Hb; simpl in Hp.
      * injection Hp as <-. by apply absolutize_from_abs, Hbase.
      * destruct (is_absolute (components raw)); [|done]. simpl in Hp.
        destruct (from_absolute_path t raw) as [q|] eqn:Hq; [|done]. injection Hp as <-. by eapply absolutize_abs.
  - intros self Hself. split.
    + intros raw. by apply absolutize_from_abs, abs_normal_is_absolute.
    + intros p [Hp|Hp]; [by eapply abs_normal_parent|by eapply ancestors_abs].
Qed.

(** Absolute paths as texts.  Printing an absolute path and reading it back gives
    the same path, alone or joined to any base, whatever the working directory and
    the home; and joining two relative texts one after the other is joining them at
    once with a slash between them. *)
Theorem absolute_path_texts t self :
  abs_normal self → Forall component_ok self →
  from_absolute_path t (path_str self) = Ok self ∧
  (∀ base, abs_join t base (path_str self) = self) ∧
  (∀ a b, plain_relative a = true → plain_relative b = true → a ≠ [] →
     abs_join t (abs_join t self a) b = abs_join t self (a ++ c_slash :: b)).
Proof.
  intros Hself Hok. pose proof (abs_normal_is_absolute _ Hself) as Habs. split_and!.
  - unfold from_absolute_path, normalize_path_for_platform.
    rewrite expand_plain, components_path_str by (done || by apply path_str_not_home).
    unfold absolutize. by rewrite Habs, normalize_path_id.
  - intros base. unfold abs_join, resolve_path_against_base, normalize_path_for_platform.
    rewrite expand_plain, components_path_str by (done || by apply path_str_not_home).
    by rewrite absolutize_from_absolute, normalize_path_id.
  - intros a b Ha Hb Hne.
    assert (plain_relative (a ++ c_slash :: b) = true) as Hab.
    { unfold plain_relative in *. destruct a as [|c a]; [done|]. by rewrite !starts_with_app by (simpl; lia). }
    assert (abs_normal (abs_join t self a)) as Hja by by apply absolutize_from_abs.
    rewrite (abs_join_plain t (abs_join t self a)) by (done || by apply abs_normal_is_absolute).
    rewrite normalize_path_id by done. rewrite !abs_join_plain by done.
    by rewrite body_slash, foldl_app.
Qed.

End env.

(** A process in [/work] whose user lives in [/home/u]. *)
Definition sample_env : ProcessEnv := {|
  current_dir := Ok (components (lit "/work"));
  home_dir := Some (components (lit "/home/u"));
|}.

Lemma absolute_path_invariant_witness :
  abs_normal [RootDir; Normal (lit "home"); Normal (lit "u"); Normal (lit "x")] ∧
  from_absolute_path (Env := sample_env) initial_locals (lit "~/a/../x") =
    Ok [RootDir; Normal (lit "home"); Normal (lit "u"); Normal (lit "x")].
Proof.
  split; [|reflexivity].
  destruct (absolute_path_invariant (Env := sample_env) initial_locals) as [Hnew _].
  - intros cwd Hc. simpl in Hc. by injection Hc as <-.
  - done.
  - apply (Hnew (lit "~/a/../x")). by left.
Defined.

Lemma absolute_path_texts_witness :
  let self := components (lit "/work/src") in
  abs_join (Env := sample_env) initial_locals (abs_join (Env := sample_env) initial_locals self (lit "../a")) (lit "./b/../c")
  = abs_join (Env := sample_env) initial_locals self (lit "../a/./b/../c").
Proof.
  apply (absolute_path_texts (Env := sample_env) initial_locals (components (lit "/work/src")));
    [by repeat constructor|apply components_ok|reflexivity|reflexivity|done].
Defined.
