(* ===== verification/Utf8Encode.v ===== *)
(** * Utf8Encode: the bytes and the UTF-16 units of a string

    [str::as_bytes], [str::encode_utf16] and [String::from_utf16_lossy], with the round
    trip of UTF-8. *)
From Stdlib Require Import ZifyBool.
From S2P Require Import Prelude RustStr Utf8Stream OutputStream.

(** ** UTF-8 *)

Definition utf8_char (c : char) : list byte :=
  (if c <? 0x80 then [c]
   else if c <? 0x800 then [0xC0 + c / 64; 0x80 + c mod 64]
   else if c <? 0x10000 then [0xE0 + c / 4096; 0x80 + c / 64 mod 64; 0x80 + c mod 64]
   else [0xF0 + c / 262144; 0x80 + c / 4096 mod 64; 0x80 + c / 64 mod 64; 0x80 + c mod 64])%N.

(** [str::as_bytes]. *)
Definition as_bytes (s : str) : list byte := flat_map utf8_char s.

(** A Unicode scalar value, which every [char] is. *)
Definition is_scalar (c : N) : bool := ((c <? 0xD800) || (0xE000 <=? c) && (c <? 0x110000))%N.
Definition is_str (s : str) : bool := forallb is_scalar s.
(** Values of [u8]. *)
Definition is_bytes (bs : list N) : bool := forallb (λ b, (b <? 256)%N) bs.
Definition is_ascii (s : list N) : bool := forallb (λ c, (c <? 0x80)%N) s.

(** ** UTF-16 *)

(** [char::encode_utf16] and [str::encode_utf16]. *)
Definition utf16_char (c : char) : list N :=
  (if c <? 0x10000 then [c]
   else [0xD800 + (c - 0x10000) / 1024; 0xDC00 + (c - 0x10000) mod 1024])%N.
Definition encode_utf16 (s : str) : list N := flat_map utf16_char s.

(** [u16::to_le_bytes] and [u16::from_le_bytes] on whole lists;
    [chunks_exact(2)] drops an odd byte. *)
Definition to_le_bytes (u : N) : list byte := [(u mod 256)%N; (u / 256)%N].
Fixpoint units_from_le_bytes (bs : list byte) : list N :=
  match bs with
  | lo :: hi :: bs => (lo + 256 * hi)%N :: units_from_le_bytes bs
  | _ => []
  end.

(** [String::from_utf16_lossy]: an unpaired surrogate becomes U+FFFD. *)
Fixpoint from_utf16_lossy (us : list N) : str :=
  match us with
  | [] => []
  | u :: us' =>
      (if in_range 0xD800 0xDBFF u then
         match us' with
         | v :: us'' =>
             if in_range 0xDC00 0xDFFF v
             then 0x10000 + (u - 0xD800) * 1024 + (v - 0xDC00) :: from_utf16_lossy us''
             else 0xFFFD :: from_utf16_lossy us'
         | [] => [0xFFFD]
         end
       else if in_range 0xDC00 0xDFFF u then 0xFFFD :: from_utf16_lossy us'
       else u :: from_utf16_lossy us')%N
  end.

(** ** Round trips *)

Lemma as_bytes_app s t : as_bytes (s ++ t) = as_bytes s ++ as_bytes t.
Proof. unfold as_bytes. apply flat_map_app. Qed.

Lemma as_bytes_ascii s : is_ascii s = true → as_bytes s = s.
Proof.
  induction s as [|c s IH]; simpl; [done|]. intros [Hc Hs]%andb_true_iff.
  unfold utf8_char. rewrite Hc. simpl. by rewrite IH.
Qed.

Local Ltac Zify.zify_post_hook ::= Z.to_euclidean_division_equations.

Lemma decode_utf8_char c rest :
  is_scalar c = true → decode (utf8_char c ++ rest) = let '(t, r, st) := decode rest in (c :: t, r, st).
Proof.
  intros Hc. unfold is_scalar in Hc. unfold utf8_char.
  assert (∃ b0 tl, utf8_char c = b0 :: tl ∧
    decode_one b0 (tl ++ rest) = DChar c (S (length tl))) as (b0 & tl & Heq & Hone).
  2: { unfold utf8_char in Heq. rewrite Heq. cbn [app]. rewrite decode_cons, Hone.
       cbn [Nat.sub]. rewrite Nat.sub_0_r, drop_app_length. done. }
  unfold utf8_char, decode_one.
  destruct (c <? 0x80)%N eqn:E1; [|destruct (c <? 0x800)%N eqn:E2; [|destruct (c <? 0x10000)%N eqn:E3]];
    eexists _, _; (split; [reflexivity|]); cbn [app length].
  - by rewrite E1.
  - assert (0xC0 + c / 64 <? 0x80 = false)%N as -> by lia.
    assert (in_range 0xC2 0xDF (0xC0 + c / 64) = true) as -> by (unfold in_range; lia).
    assert (is_cont (0x80 + c mod 64) = true) as -> by (unfold is_cont, in_range; lia).
    f_equal. lia.
  - assert (0xE0 + c / 4096 <? 0x80 = false)%N as -> by lia.
    assert (in_range 0xC2 0xDF (0xE0 + c / 4096) = false) as -> by (unfold in_range; lia).
    assert (in_range 0xE0 0xEF (0xE0 + c / 4096) = true) as -> by (unfold in_range; lia).
    assert (second_ok (0xE0 + c / 4096) (0x80 + c / 64 mod 64) = true) as ->
      by (unfold second_ok, is_cont, in_range; repeat case_match; lia).
    assert (is_cont (0x80 + c mod 64) = true) as -> by (unfold is_cont, in_range; lia).
    cbn [negb]. f_equal. lia.
  - assert (0xF0 + c / 262144 <? 0x80 = false)%N as -> by lia.
    assert (in_range 0xC2 0xDF (0xF0 + c / 262144) = false) as -> by (unfold in_range; lia).
    assert (in_range 0xE0 0xEF (0xF0 + c / 262144) = false) as -> by (unfold in_range; lia).
    assert (in_range 0xF0 0xF4 (0xF0 + c / 262144) = true) as -> by (unfold in_range; lia).
    assert (second_ok (0xF0 + c / 262144) (0x80 + c / 4096 mod 64) = true) as ->
      by (unfold second_ok, is_cont, in_range; repeat case_match; lia).
    assert (is_cont (0x80 + c / 64 mod 64) = true) as -> by (unfold is_cont, in_range; lia).
    assert (is_cont (0x80 + c mod 64) = true) as -> by (unfold is_cont, in_range; lia).
    cbn [negb]. f_equal. lia.
Qed.

(** The bytes of a string are its UTF-8. *)
Lemma from_utf8_as_bytes s : is_str s = true → from_utf8 (as_bytes s) = Ok s.
Proof.
  intros Hs. apply from_utf8_Ok. induction s as [|c s IH]; [done|].
  simpl in Hs. apply andb_true_iff in Hs as [Hc Hs].
  change (as_bytes (c :: s)) with (utf8_char c ++ as_bytes s).
  by rewrite decode_utf8_char, IH.
Qed.

(** ASCII text has one spelling. *)
Lemma from_utf8_ascii bs s : from_utf8 bs = Ok s → is_ascii s = true → bs = s.
Proof.
  rewrite from_utf8_Ok. remember (length bs) as n eqn:Hn. revert bs s Hn.
  induction n as [n IH] using lt_wf_ind. intros bs s -> Hd Ha. destruct bs as [|b rest]; [by injection Hd as <-|].
  rewrite decode_cons in Hd. destruct (decode_one b rest) as [c w| |] eqn:E; [|done..].
  destruct (decode (drop (w - 1) rest)) as [[t r] st] eqn:E1. injection Hd as <- -> ->.
  simpl in Ha. apply andb_true_iff in Ha as [Hc Ha]. apply decode_one_DChar in E as Hw. destruct Hw as [Hw _].
  unfold len_utf8 in Hw. rewrite Hc in Hw. subst w.
  assert (b = c) as ->. { unfold decode_one in E. repeat case_match; by simplify_eq. }
  f_equal. simpl in E1. rewrite drop_0 in E1. by eapply (IH (length rest)); [simpl; lia|done|..].
Qed.

(** What UTF-8 decodes to is a string. *)
Lemma decode_one_scalar b0 rest c w : decode_one b0 rest = DChar c w → is_scalar c = true.
Proof.
  unfold decode_one, second_ok, is_cont, in_range, is_scalar. intros H.
  repeat case_match; simplify_eq; lia.
Qed.

Lemma from_utf8_str bs s : from_utf8 bs = Ok s → is_str s = true.
Proof.
  rewrite from_utf8_Ok. remember (length bs) as n eqn:Hn. revert bs s Hn.
  induction n as [n IH] using lt_wf_ind. intros bs s -> Hd. destruct bs as [|b rest]; [by injection Hd as <-|].
  rewrite decode_cons in Hd. destruct (decode_one b rest) as [c w| |] eqn:E; [|done..].
  destruct (decode (drop (w - 1) rest)) as [[t r] st] eqn:E1. injection Hd as <- -> ->.
  simpl. apply andb_true_iff. split; [by eapply decode_one_scalar|].
  eapply (IH (length (drop (w - 1) rest))); [|reflexivity|exact E1]. rewrite length_drop. simpl. lia.
Qed.

Lemma units_le_bytes us :
  forallb (λ u, (u <? 0x10000)%N) us = true → units_from_le_bytes (flat_map to_le_bytes us) = us.
Proof.
  induction us as [|u us IH]; [done|]. simpl. intros [Hu Hus]%andb_true_iff.
  rewrite IH by done. f_equal. lia.
Qed.

Lemma from_utf16_encode s : is_str s = true → from_utf16_lossy (encode_utf16 s) = s.
Proof.
  induction s as [|c s IH]; [done|]. simpl. intros [Hc Hs]%andb_true_iff.
  unfold is_scalar in Hc. unfold utf16_char. destruct (c <? 0x10000)%N eqn:E; simpl.
  - assert (in_range 0xD800 0xDBFF c = false) as -> by (unfold in_range; lia).
    assert (in_range 0xDC00 0xDFFF c = false) as -> by (unfold in_range; lia). by rewrite IH.
  - assert (in_range 0xD800 0xDBFF (0xD800 + (c - 0x10000) / 1024) = true) as -> by (unfold in_range; lia).
    assert (in_range 0xDC00 0xDFFF (0xDC00 + (c - 0x10000) mod 1024) = true) as -> by (unfold in_range; lia).
    rewrite IH by done. f_equal. lia.
Qed.

Lemma encode_utf16_units s : is_str s = true → forallb (λ u, (u <? 0x10000)%N) (encode_utf16 s) = true.
Proof.
  induction s as [|c s IH]; [done|]. simpl. intros [Hc Hs]%andb_true_iff.
  rewrite forallb_app, IH, andb_true_r by done. unfold is_scalar in Hc. unfold utf16_char.
  destruct (c <? 0x10000)%N eqn:E; simpl; [by rewrite E|]. apply andb_true_iff; split; [|rewrite andb_true_r]; lia.
Qed.

Lemma as_bytes_is_bytes s : is_str s = true → is_bytes (as_bytes s) = true.
Proof.
  induction s as [|c s IH]; [done|]. simpl. intros [Hc Hs]%andb_true_iff. unfold is_bytes in *.
  rewrite forallb_app, IH, andb_true_r by done. unfold is_scalar in Hc. unfold utf8_char.
  repeat case_match; simpl; rewrite ?andb_true_r; repeat (apply andb_true_iff; split); lia.
Qed.

Lemma utf16_is_bytes s : is_str s = true → is_bytes (flat_map to_le_bytes (encode_utf16 s)) = true.
Proof.
  intros Hs. apply encode_utf16_units in Hs. unfold is_bytes.
  induction (encode_utf16 s) as [|u us IH]; [done|]. simpl in *. apply andb_true_iff in Hs as [Hu Hus].
  rewrite IH, andb_true_r by done. apply andb_true_iff; split; lia.
Qed.

#[export] Hint Rewrite as_bytes_app : codex.
