(* ===== verification/PathUri.v ===== *)
(** * PathUri: file URIs as paths of either convention
    ([utils/path-uri/src/lib.rs], [absolute_path_normalization.rs], [native_path_bytes.rs])

    A [PathUri] is a [url::Url] that [try_from] accepted.  The [url] crate, the
    percent-coding of [urlencoding] and [base64] are classes of operations; their
    documented behaviour is stated by the laws of [PathUriLaws]. *)
From S2P Require Import Prelude RustStr UnixPath AbsolutePath Utf8Stream Utf8Encode PatchErrors FsInterface.

(** [url::Url].  The [segments] operations are those of [path_segments_mut], which is
    [Ok] for every [file:] URL. *)
Class UrlOps (U : Type) := {
  url_eq_dec :: EqDecision U;
  url_inhabited :: Inhabited U;
  url_parse : str → result str U;
  (** [from_file_path], on the bytes of a path; [None] is its error. *)
  url_from_file_path : list byte → option U;
  url_as_str : U → str;
  url_scheme : U → str;
  url_username : U → str;
  url_password : U → option str;
  url_port : U → option N;
  url_query : U → option str;
  url_fragment : U → option str;
  url_host_str : U → option str;
  url_path : U → str;
  url_path_segments : U → option (list str);
  (** [set_host(None)], which cannot fail on a [file:] URL, and [set_host(Some(host))]. *)
  url_clear_host : U → U;
  url_set_host : str → U → option U;
  url_set_path : str → U → U;
  segments_clear : U → U;
  segments_pop : U → U;
  segments_pop_if_empty : U → U;
  segments_push : str → U → U;
}.

(** [urlencoding::decode_binary] and [encode_binary], and the URL-safe unpadded alphabet
    of [base64]. *)
Class UrlCoding := {
  decode_binary : list byte → list byte;
  encode_binary : list byte → str;
  base64_encode : list byte → str;
  base64_decode : str → option (list byte);
}.

Definition FILE_SCHEME : str := lit "file".
Definition BAD_PATH_URI_PREFIX : str := lit "file:///%00/bad/path/".

Definition c_colon : char := 58%N.
Definition c_backslash : char := 92%N.
Definition is_windows_separator (c : N) : bool := is_char c_backslash c || is_char c_slash c.

(** [filter(|segment| !segment.is_empty())]. *)
Definition nonempty_segments (segments : list str) : list str :=
  filter (λ s, s ≠ []) segments.

(** [matches!(segment.as_bytes(), [drive, b':'] | [drive, b'%', b'3', b'A' | b'a'])] *)
Definition is_windows_drive_uri_segment (segment : str) : bool :=
  match segment with
  | [drive; colon] => is_ascii_alphabetic drive && is_char c_colon colon
  | [drive; p; three; a] =>
      is_ascii_alphabetic drive && is_char 37%N p && is_char 51%N three
      && (is_char 65%N a || is_char 97%N a)
  | _ => false
  end.

Definition infer_opaque_path_convention (path_bytes : list byte) : option PathConvention :=
  if starts_with [c_slash] path_bytes then Some Posix
  else if negb (Nat.even (length path_bytes)) then None
  else match units_from_le_bytes path_bytes with
       | first :: second :: _ =>
           let has_drive := is_ascii_alphabetic first && is_char c_colon second in
           let has_unc_prefix := is_char c_backslash first && is_char c_backslash second in
           if has_drive || has_unc_prefix then Some Windows else None
       | _ => None
       end.

(** [PathConvention::native] on Unix. *)
Definition native_convention : PathConvention := Posix.

(** [PathConvention::home_relative_suffix]. *)
Definition home_relative_suffix (c : PathConvention) (path : str) : option str :=
  match strip_prefix (lit "~") path with
  | None => None
  | Some suffix =>
      if bool_decide (suffix = []) || starts_with [c_slash] suffix
         || bool_decide (c = Windows) && starts_with [c_backslash] suffix
      then Some suffix else None
  end.

Section uri.
Context {U : Type} {UO : UrlOps U} {UC : UrlCoding}.
Implicit Types (u url self base other : U).

(** ** Opaque fallbacks *)

Definition decode_bad_path_uri url : option (list byte) :=
  encoded_path ← strip_prefix BAD_PATH_URI_PREFIX (url_as_str url);
  if bool_decide (encoded_path = []) || contains [c_slash] encoded_path then None
  else
    path_bytes ← base64_decode encoded_path;
    if bool_decide (base64_encode path_bytes = encoded_path) then Some path_bytes else None.

Definition opaque_fallback_bytes self : option (list byte) := decode_bad_path_uri self.
Definition uri_is_opaque self : bool := bool_decide (is_Some (opaque_fallback_bytes self)).

(** ** Validation *)

Definition without_localhost_authority url : U :=
  if bool_decide (url_host_str url = Some (lit "localhost")) then url_clear_host url else url.

Definition with_normalized_windows_drive_letter url : U :=
  match url_host_str url with
  | Some _ => url
  | None =>
      let path := url_path url in
      let rest := drop_while (is_char c_slash) path in
      match rest with
      | [] => url
      | _ =>
          let drive := default [] (head (split_char c_slash rest)) in
          match drive with
          | letter :: _ =>
              if negb (is_windows_drive_uri_segment drive) || ((65 <=? letter) && (letter <=? 90))%N
              then url
              else
                let drive_start := length path - length rest in
                url_set_path (take drive_start path ++ [(letter - 32)%N] ++ drop (drive_start + 1) path) url
          | [] => url
          end
      end
  end.

Definition validate_common_known_uri url : result PathUriParseError unit :=
  if negb (bool_decide (url_username url = [])) || bool_decide (is_Some (url_password url))
  then Err CredentialsNotAllowed
  else if bool_decide (is_Some (url_port url)) then Err PortNotAllowed
  else if bool_decide (is_Some (url_query url)) then Err QueryNotAllowed
  else if bool_decide (is_Some (url_fragment url)) then Err FragmentNotAllowed
  else Ok tt.

Definition validate_file_url url : result PathUriParseError unit :=
  _ ← validate_common_known_uri url;
  if bool_decide (0%N ∈ decode_binary (url_path url)) && bool_decide (decode_bad_path_uri url = None)
  then Err (InvalidFileUriPath (url_as_str url))
  else Ok tt.

(** [TryFrom<Url>]. *)
Definition uri_try_from url : result PathUriParseError U :=
  if negb (bool_decide (url_scheme url = FILE_SCHEME)) then Err (UnsupportedScheme (url_scheme url))
  else
    _ ← validate_file_url url;
    Ok (with_normalized_windows_drive_letter (without_localhost_authority url)).

(** [PathUri::parse]. *)
Definition uri_parse (uri : str) : result PathUriParseError U :=
  match url_parse uri with
  | Ok url => uri_try_from url
  | Err e => Err (InvalidUri e)
  end.

(** The [unreachable!] of the code is an arbitrary URI here; it is shown not to be
    reached. *)
Definition from_opaque_path_bytes (path_bytes : list byte) : U :=
  match uri_parse (BAD_PATH_URI_PREFIX ++ base64_encode path_bytes) with
  | Ok uri => uri
  | Err _ => inhabitant
  end.

(** ** The convention *)

Definition uri_convention self : option PathConvention :=
  match opaque_fallback_bytes self with
  | Some path_bytes => infer_opaque_path_convention path_bytes
  | None =>
      match url_host_str self with
      | Some _ => Some Windows
      | None =>
          let first := segments ← url_path_segments self; head (nonempty_segments segments) in
          match first with
          | Some segment => if is_windows_drive_uri_segment segment then Some Windows else Some Posix
          | None => Some Posix
          end
      end
  end.

(** ** Equality and hashing *)

Definition has_separator (c : PathConvention) (segment : str) : bool :=
  existsb (λ b, is_char c_slash b || bool_decide (c = Windows) && is_char c_backslash b)
    (decode_binary segment).

Definition windows_identity_path_bytes self : option (list byte) :=
  if negb (bool_decide (uri_convention self = Some Windows)) || uri_is_opaque self then None
  else
    segments ← url_path_segments self;
    if existsb (has_separator Windows) segments then None
    else Some (decode_binary (url_path self)).

(** [impl PartialEq for PathUri]. *)
Definition uri_eq self other : bool :=
  if bool_decide (self = other) then true
  else match windows_identity_path_bytes self, windows_identity_path_bytes other with
       | Some path, Some other_path =>
           bool_decide (url_host_str self = url_host_str other) && eq_ignore_ascii_case path other_path
       | _, _ => false
       end.

(** What [Hash] feeds the hasher. *)
Inductive hash_write := HashUrl (url : U) | HashHost (host : option str) | HashLen (n : nat) | HashByte (b : byte).

Definition uri_hash self : list hash_write :=
  match windows_identity_path_bytes self with
  | None => [HashUrl self]
  | Some path =>
      HashHost (url_host_str self) :: HashLen (length path)
      :: map (λ b, HashByte (to_ascii_lower b)) path
  end.

(** ** Lexical inspection *)

Definition decode_uri_path (path : str) : str :=
  match from_utf8 (decode_binary path) with Ok s => s | Err _ => path end.

Definition uri_basename self : option str :=
  if bool_decide (is_Some (decode_bad_path_uri self)) then None
  else
    segments ← url_path_segments self;
    decode_uri_path <$> last (nonempty_segments segments).

(** The segments an upward step may not remove: a drive or a share. *)
Definition anchor_depth (c : PathConvention) : nat :=
  match c with Windows => 1 | Posix => 0 end.

Definition uri_parent self : option U :=
  if bool_decide (is_Some (decode_bad_path_uri self)) then None
  else
    convention ← uri_convention self;
    segments ← url_path_segments self;
    if length (nonempty_segments segments) <=? anchor_depth convention then None
    else Some (segments_pop (segments_pop_if_empty self)).

(** [std::iter::successors(Some(self.clone()), Self::parent)]; there are no more steps
    than segments, empty ones included. *)
Fixpoint uri_ancestors_fuel (fuel : nat) self : list U :=
  self :: match fuel, uri_parent self with
          | S fuel, Some up => uri_ancestors_fuel fuel up
          | _, _ => []
          end.
Definition uri_ancestors self : list U :=
  uri_ancestors_fuel (length (default [] (url_path_segments self))) self.

Definition containment_path_segments url (c : PathConvention) : option (list str) :=
  segments ← url_path_segments url;
  let segments := nonempty_segments segments in
  if existsb (has_separator c) segments then None else Some segments.

Definition segment_matches (c : PathConvention) (path base : str) : bool :=
  match c with
  | Posix => bool_decide (decode_binary path = decode_binary base)
  | Windows => eq_ignore_ascii_case path base
               || eq_ignore_ascii_case (decode_uri_path path) (decode_uri_path base)
  end.

Definition native_path_segments_start_with (path_segments base_segments : list str) (c : PathConvention) : bool :=
  (length base_segments <=? length path_segments)
  && forallb (λ '(path, base), segment_matches c path base) (zip path_segments base_segments).

Definition uri_starts_with self base : bool :=
  if uri_eq self base then true
  else if bool_decide (is_Some (decode_bad_path_uri self)) || bool_decide (is_Some (decode_bad_path_uri base))
  then false
  else if negb (bool_decide (url_host_str self = url_host_str base)) then false
  else
    let convention := uri_convention self in
    if negb (bool_decide (convention = uri_convention base)) then false
    else
      let convention := default Posix convention in
      match containment_path_segments self convention, containment_path_segments base convention with
      | Some path_segments, Some base_segments =>
          native_path_segments_start_with path_segments base_segments convention
      | _, _ => false
      end.

Definition uri_lexical_depth self : option nat :=
  if bool_decide (is_Some (decode_bad_path_uri self)) then None
  else
    convention ← uri_convention self;
    length <$> containment_path_segments self convention.

Definition uri_overlaps self other : option bool :=
  if uri_eq self other then Some true
  else
    _ ← uri_lexical_depth self;
    _ ← uri_lexical_depth other;
    Some (uri_starts_with self other || uri_starts_with other self).

Definition uri_relative_path_from self base : option str :=
  if uri_eq self base then Some []
  else if bool_decide (is_Some (decode_bad_path_uri self)) || bool_decide (is_Some (decode_bad_path_uri base))
          || negb (bool_decide (url_host_str self = url_host_str base))
          || negb (bool_decide (uri_convention self = uri_convention base))
  then None
  else
    convention ← uri_convention self;
    path_segments ← containment_path_segments self convention;
    base_segments ← containment_path_segments base convention;
    if negb (native_path_segments_start_with path_segments base_segments convention) then None
    else
      let separator := match convention with Posix => c_slash | Windows => c_backslash end in
      Some (join [separator] (map decode_uri_path (drop (length base_segments) path_segments))).

(** ** Native path text *)

(** [path_uri_from_segments]: the normalized segments, their number, and whether the
    text ended with a separator. *)
Definition normalize_segment (anchor : nat) (st : list str * nat * bool) (segment : str) : list str * nat * bool :=
  let '(normalized, depth, trailing) := st in
  if bool_decide (segment = []) then (normalized, depth, true)
  else if bool_decide (segment = dot) then (normalized, depth, false)
  else if bool_decide (segment = dotdot) then
    if anchor <? depth then (take (length normalized - 1) normalized, depth - 1, false)
    else (normalized, depth, false)
  else (normalized ++ [segment], S depth, false).

Definition path_uri_from_segments (c : PathConvention) (host : option str) (segments : list str) : option U :=
  url ← ok (url_parse (lit "file:///"));
  url ← match host with Some host => url_set_host host url | None => Some url end;
  let '(normalized, depth, trailing) := foldl (normalize_segment (anchor_depth c)) ([], 0, false) segments in
  let normalized :=
    if trailing || bool_decide (c = Windows) && bool_decide (host = None) && (depth =? anchor_depth c)
    then normalized ++ [[]] else normalized in
  ok (uri_try_from (foldl (λ url s, segments_push s url) (segments_clear url) normalized)).

Definition windows_opaque_path_uri (path : str) : U :=
  from_opaque_path_bytes (flat_map to_le_bytes (encode_utf16 path)).

Definition parse_posix_path (path : str) : option U :=
  rest ← strip_prefix [c_slash] path;
  if contains [0%N] rest then Some (from_opaque_path_bytes (as_bytes ([c_slash] ++ rest)))
  else path_uri_from_segments Posix None (split_char c_slash rest).

Definition uses_namespace (path : str) : bool :=
  match path with
  | first :: second :: namespace :: separator :: _ =>
      (is_char 46%N namespace || is_char 63%N namespace)
      && is_windows_separator first && is_windows_separator second && is_windows_separator separator
  | _ => false
  end.

(** [matches!(name, "." | "..")]. *)
Definition is_dots (s : str) : bool := bool_decide (s = dot) || bool_decide (s = dotdot).

Definition parse_unc_path (path : str) : option U :=
  match split_at_all is_windows_separator (drop 2 path) with
  | host :: share :: components =>
      if bool_decide (host = []) || bool_decide (share = []) then None
      else if is_dots host || is_dots share then Some (windows_opaque_path_uri path)
      else
        match path_uri_from_segments Windows (Some host) (share :: components) with
        | Some uri =>
            if match url_host_str uri with Some parsed => eq_ignore_ascii_case parsed host | None => false end
            then Some uri else Some (windows_opaque_path_uri path)
        | None => Some (windows_opaque_path_uri path)
        end
  | _ => None
  end.

Definition parse_unnormalized_windows_path (path : str) : option U :=
  if uses_namespace path || contains [0%N] path then Some (windows_opaque_path_uri path)
  else match path with
       | first :: second :: rest =>
           if is_ascii_alphabetic first && is_char c_colon second
              && match rest with separator :: _ => is_windows_separator separator | [] => false end
           then path_uri_from_segments Windows None
                  (take 2 path :: split_at_all is_windows_separator (drop 3 path))
           else if is_windows_separator first && is_windows_separator second then parse_unc_path path
           else None
       | _ => None
       end.

Definition unc_components_missing (normalized_path : str) : bool :=
  match strip_prefix (lit "\\") normalized_path with
  | None => false
  | Some unc_path =>
      let bad o := match o with None => true | Some s => bool_decide (s = []) || is_dots s end in
      let components := split_at_all is_windows_separator unc_path in
      bad (head components) || bad (head (tail components))
  end.

Definition parse_windows_path (path : str) : option U :=
  match normalize_windows_device_path path with
  | Some normalized_path =>
      if unc_components_missing normalized_path then Some (windows_opaque_path_uri path)
      else
        match parse_unnormalized_windows_path normalized_path with
        | Some uri =>
            if bool_decide (uri_convention uri = Some Windows)
               && bool_decide (opaque_fallback_bytes uri = None)
               && (negb (starts_with (lit "\\") normalized_path)
                   || match url_host_str uri with Some host => negb (bool_decide (host = [])) | None => false end)
            then Some uri else Some (windows_opaque_path_uri path)
        | None => Some (windows_opaque_path_uri path)
        end
  | None => parse_unnormalized_windows_path path
  end.

(** [PathUri::from_absolute_native_path]. *)
Definition from_absolute_native_path (path : str) (c : PathConvention) : option U :=
  uri ← match c with Posix => parse_posix_path path | Windows => parse_windows_path path end;
  if negb (bool_decide (url_host_str uri = Some [])) && bool_decide (uri_convention uri = Some c)
  then Some uri
  else Some (match c with
             | Posix => from_opaque_path_bytes (as_bytes path)
             | Windows => windows_opaque_path_uri path
             end).

(** ** Paths of the host (Unix) *)

(** [PathUri::from_abs_path]. *)
Definition from_abs_path (path : AbsolutePathBuf) : U :=
  let path_bytes := as_bytes (path_str path) in
  match uri_try_from <$> url_from_file_path path_bytes with
  | Some (Ok uri) =>
      if negb (bool_decide (url_host_str uri = Some [])) && bool_decide (uri_convention uri = Some native_convention)
      then uri else from_opaque_path_bytes path_bytes
  | _ => from_opaque_path_bytes path_bytes
  end.

(** [PathUri::from_host_native_path]. *)
Definition from_host_native_path {Env : ProcessEnv} (t : PathLocals) (path : str) : result io_error U :=
  path ← map_err (λ e, mkIo InvalidInput (message e)) (from_absolute_path_checked t path);
  Ok (from_abs_path path).

(** ** Joining *)

(** One component of the joined text. *)
Definition join_component (anchor : nat) (st : U * nat) (component : str) : U * nat :=
  let '(url, depth) := st in
  if bool_decide (component = []) || bool_decide (component = dot) then (url, depth)
  else if bool_decide (component = dotdot) then
    if anchor <? depth then (segments_pop url, depth - 1) else (url, depth)
  else (segments_push component url, S depth).

(** [while depth > anchor_depth { segments.pop(); depth -= 1; }] *)
Definition pop_to_anchor (anchor : nat) (st : U * nat) : U * nat :=
  let '(url, depth) := st in (Nat.iter (depth - anchor) segments_pop url, Nat.min depth anchor).

Definition drive_prefixed (path : str) : option char :=
  match path with
  | drive :: colon :: _ => if is_ascii_alphabetic drive && is_char c_colon colon then Some drive else None
  | _ => None
  end.

(** The drive of a drive-relative path is the one of the base, and is dropped. *)
Definition strip_same_drive self (path : str) : result PathUriParseError str :=
  match drive_prefixed path with
  | None => Ok path
  | Some drive =>
      let same_drive :=
        match (segments ← url_path_segments self; head (nonempty_segments segments)) with
        | Some segment =>
            is_windows_drive_uri_segment segment
            && match segment with d :: _ => (to_ascii_lower d =? to_ascii_lower drive)%N | [] => false end
        | None => false
        end in
      if same_drive then Ok (drop 2 path) else Err (InvalidFileUriPath path)
  end.

Definition windows_root_relative (path : str) : bool :=
  match path with
  | first :: rest =>
      is_windows_separator first && negb (match rest with c :: _ => is_windows_separator c | [] => false end)
  | [] => false
  end.

Definition join_relative self (c : PathConvention) (path : str) : result PathUriParseError U :=
  if bool_decide (is_Some (decode_bad_path_uri self)) then Err (InvalidFileUriPath (url_as_str self))
  else
    let anchor := anchor_depth c in
    let depth := match url_path_segments self with
                 | Some segments => length (nonempty_segments segments) | None => 0 end in
    let st := (segments_pop_if_empty self, depth) in
    let st := if bool_decide (c = Windows) && windows_root_relative path then pop_to_anchor anchor st else st in
    uri_try_from (foldl (join_component anchor) st (path_segments c path)).1.

Definition uri_join self (path : str) : result PathUriParseError U :=
  if contains [0%N] path then Err (InvalidFileUriPath path)
  else if bool_decide (path = []) then Ok self
  else
    convention ← ok_or (InvalidFileUriPath (url_as_str self)) (uri_convention self);
    match from_absolute_native_path path convention with
    | Some absolute => Ok absolute
    | None =>
        path ← match convention with Windows => strip_same_drive self path | Posix => Ok path end;
        join_relative self convention path
    end.

Definition uri_join_descendant self (path : str) : result PathUriParseError U :=
  descendant ← uri_join self path;
  let windows := bool_decide (uri_convention self = Some Windows) in
  if starts_with [c_slash] path
     || windows && (starts_with [c_backslash] path
                    || existsb (contains [c_colon]) (path_segments Windows path))
     || negb (uri_starts_with descendant self)
  then Err (JoinPathMustBeDescendant path)
  else Ok descendant.

(** ** [native_path_bytes.rs] *)

Definition join_byte_component (segments : list str) (component : list byte) : list str :=
  if bool_decide (component = []) || bool_decide (component = dot) then segments
  else if bool_decide (component = dotdot) then take (length segments - 1) segments
  else segments ++ [encode_binary component].

Definition uri_join_native_bytes self (path : list byte) : result PathUriParseError U :=
  match from_utf8 path with
  | Ok text => uri_join self text
  | Err _ =>
      if negb (bool_decide (uri_convention self = Some Posix))
         || bool_decide (is_Some (opaque_fallback_bytes self)) || bool_decide (0%N ∈ path)
      then Err (InvalidFileUriPath (url_as_str self))
      else
        let segments :=
          if starts_with [c_slash] path then []
          else nonempty_segments (split_char c_slash (url_path self)) in
        let segments := foldl join_byte_component segments (split_char c_slash path) in
        uri ← uri_try_from (url_set_path ([c_slash] ++ join [c_slash] segments) self);
        if negb (bool_decide (uri_convention uri = Some Posix))
        then Err (InvalidFileUriPath (url_as_str uri)) else Ok uri
  end.
End uri.

Arguments hash_write U : clear implicits.
