(* ===== verification/PathUriLaws.v ===== *)
(** * PathUriLaws: the documented behaviour of the [url] crate and of percent-coding

    Laws for the classes of [PathUri], and what follows of them for decoding and for
    comparisons that ignore ASCII case. *)
From Stdlib Require Import ZifyBool.
From S2P Require Import Prelude RustStr PatchErrors FsInterface Utf8Stream UnixPath AbsolutePath Utf8Encode PathUri.

(** ** Laws *)

(** Percent-decoding: [%XX] is a byte, anything else stands for itself. *)
Definition hex_value (c : N) : option N :=
  (if is_ascii_digit c then Some (c - 48)
   else if (65 <=? c) && (c <=? 70) then Some (c - 55)
   else if (97 <=? c) && (c <=? 102) then Some (c - 87) else None)%N.
Fixpoint pct_decode (bs : list byte) : list byte :=
  match bs with
  | [] => []
  | c :: rest =>
      if (c =? 37)%N then
        match rest with
        | h :: l :: rest' =>
            match hex_value h, hex_value l with
            | Some h, Some l => (16 * h + l)%N :: pct_decode rest'
            | _, _ => c :: pct_decode rest
            end
        | _ => c :: pct_decode rest
        end
      else c :: pct_decode rest
  end.

Definition base64_char (c : char) : bool :=
  is_ascii_alphabetic c || is_ascii_digit c || is_char 45%N c || is_char 95%N c.

(** The documentation of [urlencoding] and of [base64] (URL-safe, no padding). *)
Class UrlCodingLaws (UC : UrlCoding) := {
  decode_binary_spec bs : decode_binary bs = pct_decode bs;
  base64_round_trip bs : is_bytes bs = true → base64_decode (base64_encode bs) = Some bs;
  base64_alphabet bs : Forall (λ c, base64_char c = true) (base64_encode bs);
  base64_nonempty bs : bs ≠ [] → base64_encode bs ≠ [];
}.

(** Two URLs that agree on everything but the path and the host. *)
Definition same_origin {U} `{UrlOps U} (u v : U) : Prop :=
  url_scheme u = url_scheme v ∧ url_username u = url_username v ∧ url_password u = url_password v ∧
  url_port u = url_port v ∧ url_query u = url_query v ∧ url_fragment u = url_fragment v.
Definition same_but_path {U} `{UrlOps U} (u v : U) : Prop :=
  same_origin u v ∧ url_host_str u = url_host_str v.

(** A [file:] URL with nothing but a host and a path. *)
Definition plain_file {U} `{UrlOps U} (u : U) : Prop :=
  url_scheme u = FILE_SCHEME ∧ url_username u = [] ∧ url_password u = None ∧
  url_port u = None ∧ url_query u = None ∧ url_fragment u = None.

(** A segment pushed after [ss]; the path [/] has one, empty, segment. *)
Definition push_onto (ss : list str) (t : str) : list str :=
  if bool_decide (ss = [[]]) then [t] else ss ++ [t].
Definition or_root (ss : list str) : list str := if bool_decide (ss = []) then [[]] else ss.
Definition pop_last (ss : list str) : list str := or_root (take (length ss - 1) ss).
Definition pop_if_empty_last (ss : list str) : list str :=
  if bool_decide (last ss = Some []) && (1 <? length ss) then take (length ss - 1) ss else ss.

(** A drive spelled with a bar, which the parser of [file:] URLs rewrites. *)
Definition is_drive_bar (s : str) : bool :=
  match s with [d; b] => is_ascii_alphabetic d && is_char 124%N b | _ => false end.

(** Text without tabs, line feeds and carriage returns, which the parser of URLs leaves out. *)
Definition no_tab_newline (s : str) : bool := forallb (λ c, negb (is_char 9 c || is_char 10 c || is_char 13 c)) s.

(** The documentation of [url::Url], [path_segments] and [PathSegmentsMut], on [file:]
    URLs. *)
Class FileUrlLaws (U : Type) {UO : UrlOps U} {UC : UrlCoding} := {
  file_segments u : url_scheme u = FILE_SCHEME →
    ∃ p, url_path u = c_slash :: p ∧ url_path_segments u = Some (split_char c_slash p);
  file_serialization u : plain_file u →
    url_as_str u = lit "file://" ++ default [] (url_host_str u) ++ url_path u;
  host_no_slash u h : url_host_str u = Some h → c_slash ∉ h;
  clear_host_spec u : url_scheme u = FILE_SCHEME →
    same_origin (url_clear_host u) u ∧ url_host_str (url_clear_host u) = None ∧
    url_path (url_clear_host u) = url_path u;
  (** A path that differs from a URL's in the case of letters is kept as it is. *)
  set_path_case u p : url_scheme u = FILE_SCHEME → url_host_str u = None →
    to_ascii_lowercase p = to_ascii_lowercase (url_path u) →
    same_but_path (url_set_path p u) u ∧ url_path (url_set_path p u) = p;
  clear_spec u : url_scheme u = FILE_SCHEME →
    same_but_path (segments_clear u) u ∧ url_path_segments (segments_clear u) = Some [[]];
  pop_spec u ss : url_scheme u = FILE_SCHEME → url_path_segments u = Some ss →
    same_but_path (segments_pop u) u ∧ url_path_segments (segments_pop u) = Some (pop_last ss);
  pop_if_empty_spec u ss : url_scheme u = FILE_SCHEME → url_path_segments u = Some ss →
    same_but_path (segments_pop_if_empty u) u ∧
    url_path_segments (segments_pop_if_empty u) = Some (pop_if_empty_last ss);
  (** A pushed segment is encoded; [C|] becomes the drive [C:] where it is the first. *)
  push_spec u ss s : url_scheme u = FILE_SCHEME → url_path_segments u = Some ss → is_dots s = false → no_tab_newline s = true →
    same_but_path (segments_push s u) u ∧
    ∃ t, url_path_segments (segments_push s u) = Some (push_onto ss t) ∧
         c_slash ∉ t ∧
         (decode_binary t = as_bytes s ∨
          ss = [[]] ∧ is_drive_bar s = true ∧ is_windows_drive_uri_segment t = true);
  (** The URL the code starts from. *)
  parse_empty_file : ∃ u, url_parse (lit "file:///") = Ok u ∧ plain_file u ∧
    url_host_str u = None ∧ url_path_segments u = Some [[]];
  (** Parsing a URL that is serialized already. *)
  parse_bad_path enc : Forall (λ c, base64_char c = true) enc →
    ∃ u, url_parse (BAD_PATH_URI_PREFIX ++ enc) = Ok u ∧ plain_file u ∧
         url_host_str u = None ∧ url_as_str u = BAD_PATH_URI_PREFIX ++ enc;
}.

(** ** Percent-decoding *)

Section coding.
Context {UC : UrlCoding} {UCL : UrlCodingLaws UC}.

Lemma pct_decode_app_slash a b : pct_decode (a ++ c_slash :: b) = pct_decode a ++ c_slash :: pct_decode b.
Proof.
  remember (length a) as n eqn:Hn. revert a Hn. induction n as [n IH] using lt_wf_ind. intros a ->.
  destruct a as [|c a]; [done|]. cbn [app pct_decode].
  destruct (c =? 37)%N; [|rewrite (IH (length a)) by (done || simpl; lia); done].
  destruct a as [|h a]; [by destruct b|]. destruct a as [|l a].
  - cbn [app]. assert (hex_value c_slash = None) as -> by done.
    change (h :: c_slash :: b) with ([h] ++ c_slash :: b). rewrite (IH 1) by (done || simpl; lia).
    by destruct (hex_value h).
  - cbn [app]. destruct (hex_value h), (hex_value l).
    1: by rewrite (IH (length a)) by (done || simpl; lia).
    all: change (h :: l :: a ++ c_slash :: b) with ((h :: l :: a) ++ c_slash :: b);
      by rewrite (IH (length (h :: l :: a))) by (done || simpl; lia).
Qed.

Lemma decode_slash a b : decode_binary (a ++ c_slash :: b) = decode_binary a ++ c_slash :: decode_binary b.
Proof. rewrite !decode_binary_spec. apply pct_decode_app_slash. Qed.

(** Decoding a joined path decodes its segments. *)
Lemma decode_join ss : decode_binary (join [c_slash] ss) = join [c_slash] (map decode_binary ss).
Proof.
  induction ss as [|s ss IH]; [by rewrite decode_binary_spec|].
  destruct ss as [|s' ss]; [done|].
  unfold join in *. rewrite join_with_cons by done. cbn [map] in *.
  rewrite (join_with_cons [c_slash] (decode_binary s)) by done.
  cbn [app]. by rewrite decode_slash, IH.
Qed.

Lemma decode_nil : decode_binary [] = [].
Proof. by rewrite decode_binary_spec. Qed.

Lemma decode_cons_slash p : decode_binary (c_slash :: p) = c_slash :: decode_binary p.
Proof. pose proof (decode_slash [] p) as H. by rewrite decode_nil in H. Qed.

Lemma decode_nil_inv s : decode_binary s = [] → s = [].
Proof.
  rewrite decode_binary_spec. destruct s as [|c s]; [done|]. simpl. repeat case_match; done.
Qed.

Lemma decode_ascii_plain s : 37%N ∉ s → decode_binary s = s.
Proof.
  rewrite decode_binary_spec. induction s as [|c s IH]; [done|]. rewrite not_elem_of_cons. intros [Hc Hs].
  simpl. destruct (N.eqb_spec c 37); [done|]. by rewrite IH.
Qed.
End coding.

(** ** ASCII case *)

Lemma to_ascii_lower_cases c d :
  to_ascii_lower c = to_ascii_lower d → c = d ∨ (c < 0x80 ∧ d < 0x80)%N.
Proof. unfold to_ascii_lower. repeat case_match; lia. Qed.

Lemma hex_value_lower c d : to_ascii_lower c = to_ascii_lower d → hex_value c = hex_value d.
Proof.
  unfold to_ascii_lower, hex_value, is_ascii_digit. intros H.
  repeat case_match; try done; try (f_equal; lia); lia.
Qed.

Lemma pct_decode_lower s t :
  to_ascii_lowercase s = to_ascii_lowercase t →
  to_ascii_lowercase (pct_decode s) = to_ascii_lowercase (pct_decode t).
Proof.
  remember (length s) as n eqn:Hn. revert s t Hn. induction n as [n IH] using lt_wf_ind. intros s t ->.
  destruct s as [|c s], t as [|d t]; try done. intros [= Hc Hs]. cbn [pct_decode].
  assert ((c =? 37)%N = (d =? 37)%N) as <-.
  { unfold to_ascii_lower in Hc. repeat case_match; lia. }
  assert (to_ascii_lowercase (pct_decode s) = to_ascii_lowercase (pct_decode t)) as Hrest
    by (eapply IH; [|done..]; simpl; lia).
  destruct (c =? 37)%N; [|cbn [map to_ascii_lowercase] in *; unfold to_ascii_lowercase in *; simpl; by f_equal].
  destruct s as [|h s], t as [|h' t]; try done.
  { cbn. by f_equal. }
  injection Hs as Hh Hs. destruct s as [|l s], t as [|l' t]; try done.
  { unfold to_ascii_lowercase in *. simpl in *. by f_equal. }
  injection Hs as Hl Hs. rewrite <- (hex_value_lower _ _ Hh), <- (hex_value_lower _ _ Hl).
  destruct (hex_value h), (hex_value l);
    [|unfold to_ascii_lowercase in *; simpl in *; by f_equal..].
  unfold to_ascii_lowercase in *. simpl. f_equal. eapply IH; [|done..]. simpl; lia.
Qed.

(** Decoding does not look at the case of letters. *)
Lemma decode_one_lower b rest b' rest' c w :
  to_ascii_lower b = to_ascii_lower b' → to_ascii_lowercase rest = to_ascii_lowercase rest' →
  decode_one b rest = DChar c w →
  ∃ c', decode_one b' rest' = DChar c' w ∧ to_ascii_lower c = to_ascii_lower c'.
Proof.
  intros Hb Hr. apply to_ascii_lower_cases in Hb as Hb'. unfold decode_one.
  destruct Hb' as [<-|[H1 H2]].
  2: { apply N.ltb_lt in H1, H2. rewrite H1, H2. intros [= <- <-]. eauto. }
  assert (∀ x y, to_ascii_lower x = to_ascii_lower y → is_cont x = true → y = x) as Hcont.
  { intros x y Hxy Hx. apply to_ascii_lower_cases in Hxy as [->|[]]; [done|].
    unfold is_cont, in_range in Hx. lia. }
  assert (∀ x y, to_ascii_lower x = to_ascii_lower y → second_ok b x = true → y = x) as Hsec.
  { intros x y Hxy Hx. apply to_ascii_lower_cases in Hxy as [->|[]]; [done|].
    unfold second_ok, is_cont, in_range in Hx. repeat case_match; lia. }
  destruct (b <? 0x80)%N; [intros [= <- <-]; eauto|].
  unfold to_ascii_lowercase in Hr.
  repeat match goal with
  | |- context [if in_range ?a ?b ?x then _ else _] => destruct (in_range a b x)
  end; try done;
  destruct rest as [|b1 rest], rest' as [|b1' rest']; try done; injection Hr as H1 Hr.
  - destruct (is_cont b1) eqn:E; [|done]. rewrite (Hcont b1 b1'), E by done. eauto.
  - destruct (second_ok b b1) eqn:E; [|done]. rewrite (Hsec b1 b1'), E by done. cbn [negb].
    destruct rest as [|b2 rest], rest' as [|b2' rest']; try done; injection Hr as H2 Hr.
    destruct (is_cont b2) eqn:E2; [|done]. rewrite (Hcont b2 b2'), E2 by done. eauto.
  - destruct (second_ok b b1) eqn:E; [|done]. rewrite (Hsec b1 b1'), E by done. cbn [negb].
    destruct rest as [|b2 rest], rest' as [|b2' rest']; try done; injection Hr as H2 Hr.
    destruct (is_cont b2) eqn:E2; [|done]. rewrite (Hcont b2 b2'), E2 by done. cbn [negb].
    destruct rest as [|b3 rest], rest' as [|b3' rest']; try done; injection Hr as H3 Hr.
    destruct (is_cont b3) eqn:E3; [|done]. rewrite (Hcont b3 b3'), E3 by done. eauto.
Qed.

Lemma from_utf8_lower bs bs' s :
  to_ascii_lowercase bs = to_ascii_lowercase bs' → from_utf8 bs = Ok s →
  ∃ s', from_utf8 bs' = Ok s' ∧ to_ascii_lowercase s = to_ascii_lowercase s'.
Proof.
  setoid_rewrite from_utf8_Ok.
  remember (length bs) as n eqn:Hn. revert bs bs' s Hn. induction n as [n IH] using lt_wf_ind.
  intros bs bs' s -> Hl Hd. destruct bs as [|b rest], bs' as [|b' rest']; try done; [by exists s|].
  injection Hl as Hb Hr. rewrite decode_cons in Hd. rewrite decode_cons.
  destruct (decode_one b rest) as [c w| |] eqn:E; [|done..].
  destruct (decode_one_lower _ _ _ _ _ _ Hb Hr E) as (c' & -> & Hc).
  destruct (decode (drop (w - 1) rest)) as [[t r] st] eqn:E1. injection Hd as <- -> ->.
  destruct (IH (length (drop (w - 1) rest))
    ltac:(rewrite length_drop; simpl; lia) (drop (w - 1) rest) (drop (w - 1) rest') t eq_refl) as (t' & Ht & Hlt).
  { unfold to_ascii_lowercase in *. by rewrite <- !skipn_map, Hr. }
  { done. }
  rewrite Ht. exists (c' :: t'). split; [done|]. unfold to_ascii_lowercase in *. simpl. by rewrite Hc, Hlt.
Qed.

(** * What holds of file URIs

    Equality, hashing and containment; the invariant of [PathUri] values; parents and
    ancestors; joining as a lexical walk. *)

(** ** Equality and hashing *)

Lemma eq_ignore_ascii_case_spec s t :
  eq_ignore_ascii_case s t = true ↔ to_ascii_lowercase s = to_ascii_lowercase t.
Proof. unfold eq_ignore_ascii_case. by rewrite bool_decide_eq_true. Qed.

Section equality.
Context {U : Type} {UO : UrlOps U} {UC : UrlCoding}.
Implicit Types (u v w : U).

(** The equality of [PathUri] values: the same URL, or Windows paths of one host that
    decode to the same bytes up to ASCII case. *)
Definition uri_equiv u v : Prop := uri_eq u v = true.

Lemma uri_equiv_spec u v :
  uri_equiv u v ↔ u = v ∨
    url_host_str u = url_host_str v ∧ ∃ p q, windows_identity_path_bytes u = Some p ∧
      windows_identity_path_bytes v = Some q ∧ to_ascii_lowercase p = to_ascii_lowercase q.
Proof.
  unfold uri_equiv, uri_eq. case_bool_decide as He; [naive_solver|].
  destruct (windows_identity_path_bytes u) as [p|], (windows_identity_path_bytes v) as [q|];
    rewrite ?andb_true_iff, ?bool_decide_eq_true, ?eq_ignore_ascii_case_spec; naive_solver.
Qed.

#[export] Instance uri_equiv_equivalence : Equivalence uri_equiv.
Proof.
  split.
  - intros u. apply uri_equiv_spec. by left.
  - intros u v. rewrite !uri_equiv_spec. naive_solver.
  - intros u v w. rewrite !uri_equiv_spec. intros [->|(H1 & p & q & H2 & H3 & H4)]; [done|].
    intros [<-|(H5 & q' & r & H6 & H7 & H8)]; right; [eauto 10|]. simplify_eq.
    split; [congruence|]. exists p, r. split_and!; congruence.
Qed.

Lemma uri_hash_equiv u v : uri_equiv u v → uri_hash u = uri_hash v.
Proof.
  rewrite uri_equiv_spec. intros [->|(Hh & p & q & Hp & Hq & He)]; [done|].
  unfold uri_hash. rewrite Hp, Hq, Hh. do 2 f_equal.
  - f_equal. apply (f_equal length) in He. unfold to_ascii_lowercase in He. by rewrite !length_map in He.
  - apply (f_equal (map (@HashByte U))) in He. unfold to_ascii_lowercase in He. by rewrite !map_map in He.
Qed.

#[export] Instance uri_hash_proper : Proper (uri_equiv ==> eq) uri_hash.
Proof. intros u v. apply uri_hash_equiv. Qed.

Lemma uri_starts_with_self u : uri_starts_with u u = true.
Proof. unfold uri_starts_with, uri_eq. by rewrite bool_decide_true. Qed.
End equality.

(** ** Containment *)

(** What containment compares of a segment. *)
Definition segment_key `{UrlCoding} (c : PathConvention) (s : str) : str :=
  match c with
  | Posix => decode_binary s
  | Windows => to_ascii_lowercase (decode_uri_path s)
  end.

Section containment.
Context {U : Type} {UO : UrlOps U} {UC : UrlCoding} {UCL : UrlCodingLaws UC}.
Implicit Types (u v w base : U) (c : PathConvention).

Lemma segment_matches_key c s t : segment_matches c s t = true ↔ segment_key c s = segment_key c t.
Proof.
  destruct c; simpl; [apply bool_decide_eq_true|].
  rewrite orb_true_iff, !eq_ignore_ascii_case_spec. split; [|by right]. intros [Hl|]; [|done].
  unfold decode_uri_path. rewrite !decode_binary_spec. apply pct_decode_lower in Hl as Hd.
  destruct (from_utf8 (pct_decode s)) as [x|e] eqn:E.
  - destruct (from_utf8_lower _ _ _ Hd E) as (y & -> & ->). done.
  - destruct (from_utf8 (pct_decode t)) as [y|e'] eqn:E'; [|done].
    destruct (from_utf8_lower _ _ _ (eq_sym Hd) E') as (x & ? & _). congruence.
Qed.

Lemma segments_start_with_key c ss bs :
  native_path_segments_start_with ss bs c = true ↔
  map (segment_key c) bs `prefix_of` map (segment_key c) ss.
Proof.
  unfold native_path_segments_start_with. revert ss. induction bs as [|b bs IH]; intros ss; simpl.
  { destruct ss; simpl; split; [intros _; apply prefix_nil|done|intros _; apply prefix_nil|done]. }
  destruct ss as [|s ss]; simpl.
  { split; [done|]. intros H%prefix_nil_inv. done. }
  rewrite andb_true_iff, andb_true_iff, segment_matches_key, Nat.leb_le in *.
  specialize (IH ss). rewrite andb_true_iff, Nat.leb_le in IH.
  split.
  - intros (Hlen & Hk & Hall). rewrite Hk. apply prefix_cons, IH. split; [lia|done].
  - intros Hp. apply prefix_cons_inv_1 in Hp as Hk. apply prefix_cons_inv_2 in Hp.
    apply IH in Hp as [??]. split; [lia|done].
Qed.

(** Where a URI lies: its host, its convention and the keys of its segments; none for
    opaque URIs and for those with an encoded separator. *)
Definition uri_place u : option (option str * PathConvention * list str) :=
  if decide (decode_bad_path_uri u = None) then
    c ← uri_convention u;
    ss ← containment_path_segments u c;
    Some (url_host_str u, c, map (segment_key c) ss)
  else None.

Lemma uri_place_Some u h c ks :
  uri_place u = Some (h, c, ks) ↔
  decode_bad_path_uri u = None ∧ url_host_str u = h ∧ uri_convention u = Some c ∧
  ∃ ss, containment_path_segments u c = Some ss ∧ ks = map (segment_key c) ss.
Proof.
  unfold uri_place. case_decide as Hd; [|naive_solver]. split.
  - destruct (uri_convention u) as [c'|]; [|done]. simpl.
    destruct (containment_path_segments u c') as [ss|] eqn:Hs; [|done]. intros [= <- <- <-]. eauto 10.
  - intros (_ & <- & -> & ss & Hs & ->). simpl. by rewrite Hs.
Qed.

Lemma uri_place_depth u :
  uri_lexical_depth u = (λ '(_, ks), length ks) <$> uri_place u.
Proof.
  unfold uri_lexical_depth, uri_place. case_bool_decide as H1; case_decide as H2.
  - rewrite H2 in H1. by apply is_Some_None in H1.
  - done.
  - destruct (uri_convention u) as [c|]; [|done]. simpl.
    destruct (containment_path_segments u c); simpl; [|done]. by rewrite length_map.
  - destruct (decode_bad_path_uri u); [|done]. exfalso. by apply H1.
Qed.

(** A URI that is not opaque has a convention. *)
Lemma uri_convention_Some u : decode_bad_path_uri u = None → is_Some (uri_convention u).
Proof. unfold uri_convention, opaque_fallback_bytes. intros ->. repeat case_match; eauto. Qed.

(** Containment is equality, or a prefix of keys at one host and convention. *)
Lemma uri_starts_with_spec u base :
  uri_starts_with u base = true ↔
  uri_equiv u base ∨
  ∃ h c ks bs, uri_place u = Some (h, c, ks) ∧ uri_place base = Some (h, c, bs) ∧ bs `prefix_of` ks.
Proof.
  unfold uri_starts_with, uri_equiv. destruct (uri_eq u base); [by split; [left|]|]. split.
  - intros H. right.
    case_bool_decide as Hu; [done|]. case_bool_decide as Hb; [done|]. cbn [orb] in H.
    rewrite <- eq_None_not_Some in Hu, Hb.
    case_bool_decide as Hh; [|done]. case_bool_decide as Hc; [|done]. cbn [negb] in H.
    destruct (uri_convention_Some u Hu) as [c Hcu]. rewrite Hcu in H, Hc. change (default Posix (Some c)) with c in H.
    destruct (containment_path_segments u c) as [ss|] eqn:Hs; [|done].
    destruct (containment_path_segments base c) as [bs|] eqn:Hbs; [|done].
    apply segments_start_with_key in H. do 4 eexists. rewrite !uri_place_Some. eauto 15.
  - intros [[=]|(h & c & ks & bs & Hu & Hb & Hp)].
    apply uri_place_Some in Hu as (Hu & Hh & Hc & ss & Hs & ->).
    apply uri_place_Some in Hb as (Hb & Hh' & Hc' & bs' & Hbs & ->).
    rewrite Hu, Hb, Hc, Hc', Hh, Hh'. rewrite bool_decide_false by apply is_Some_None.
    cbn [orb]. rewrite !bool_decide_true by done. simpl. rewrite Hs, Hbs.
    by apply segments_start_with_key.
Qed.

#[export] Instance uri_starts_with_refl : Reflexive (λ u v, uri_starts_with u v = true).
Proof. intros u. apply uri_starts_with_spec. left. reflexivity. Qed.

(** A URI whose names are text, if it is a Windows path. *)
Definition text_names u : Prop :=
  uri_convention u = Some Windows →
  ∀ ss, url_path_segments u = Some ss → Forall (λ s, is_ok (from_utf8 (decode_binary s)) = true) ss.

(** On POSIX paths equality is that of URLs. *)
Lemma uri_equiv_posix u v : uri_convention u = Some Posix → uri_equiv u v → u = v.
Proof.
  intros Hc. rewrite uri_equiv_spec. intros [?|(_ & p & q & H & _)]; [done|].
  unfold windows_identity_path_bytes in H. rewrite Hc in H. done.
Qed.

(** The decoded names of a path are its identity, cut at the separators. *)
Lemma to_ascii_lowercase_join ss :
  to_ascii_lowercase (join [c_slash] ss) = join [c_slash] (map to_ascii_lowercase ss).
Proof.
  induction ss as [|s ss IH]; [done|]. destruct ss as [|s' ss]; [done|].
  unfold join in *. rewrite join_with_cons by done. cbn [map] in *.
  rewrite (join_with_cons [c_slash] (to_ascii_lowercase s)), <- IH by done.
  unfold to_ascii_lowercase. by rewrite !map_app.
Qed.

Lemma has_separator_slash c s : has_separator c s = false → c_slash ∉ decode_binary s.
Proof.
  unfold has_separator. intros H [n Hn]%list_elem_of_lookup.
  apply not_true_iff_false in H. apply H. apply existsb_exists. exists c_slash.
  split; [by eapply list_elem_of_In, list_elem_of_lookup_2|done].
Qed.

Lemma lower_no_slash s : c_slash ∉ s → forallb (negb ∘ is_char c_slash) (to_ascii_lowercase s) = true.
Proof.
  intros Hs. apply forallb_forall. intros x Hx. apply list_elem_of_In in Hx.
  unfold to_ascii_lowercase in Hx. apply list_elem_of_In, in_map_iff in Hx as (y & <- & Hy).
  apply list_elem_of_In in Hy. simpl. apply negb_true_iff. unfold is_char, to_ascii_lower, c_slash in *.
  assert (y ≠ 47%N) by by intros ->. case_match; lia.
Qed.

Lemma identity_names ss vs :
  ss ≠ [] → vs ≠ [] → existsb (has_separator Windows) ss = false → existsb (has_separator Windows) vs = false →
  to_ascii_lowercase (decode_binary (join [c_slash] ss)) = to_ascii_lowercase (decode_binary (join [c_slash] vs)) →
  map (to_ascii_lowercase ∘ decode_binary) ss = map (to_ascii_lowercase ∘ decode_binary) vs.
Proof.
  intros Hs Hv Hss Hvs. rewrite !decode_join, !to_ascii_lowercase_join, !map_map. intros Heq.
  assert (∀ xs, existsb (has_separator Windows) xs = false →
    Forall (λ l, forallb (negb ∘ is_char c_slash) l = true) (map (to_ascii_lowercase ∘ decode_binary) xs)) as Hno.
  { intros xs Hxs. apply Forall_forall. intros l Hl. apply list_elem_of_In, in_map_iff in Hl as (x & <- & Hx).
    apply lower_no_slash, (has_separator_slash Windows). apply not_true_iff_false. intros Ht.
    apply not_true_iff_false in Hxs. apply Hxs, existsb_exists. eauto. }
  apply (f_equal (split_char c_slash)) in Heq. unfold split_char, join in Heq.
  rewrite !(split_join c_slash) in Heq; try done; try by apply Hno.
  - by destruct vs.
  - by destruct ss.
Qed.

Lemma identity_keys ss vs :
  map (to_ascii_lowercase ∘ decode_binary) ss = map (to_ascii_lowercase ∘ decode_binary) vs →
  Forall (λ s, is_ok (from_utf8 (decode_binary s)) = true) ss →
  Forall (λ s, is_ok (from_utf8 (decode_binary s)) = true) vs →
  map (segment_key Windows) (nonempty_segments ss) = map (segment_key Windows) (nonempty_segments vs).
Proof.
  revert vs. induction ss as [|s ss IH]; intros [|v vs] Heq Hs Hv; try done.
  injection Heq as He Heq. apply Forall_cons in Hs as [Hs1 Hs], Hv as [Hv1 Hv].
  specialize (IH vs Heq Hs Hv). unfold nonempty_segments in *. rewrite !filter_cons.
  assert (s = [] ↔ v = []) as Hiff.
  { split; intros ->; apply decode_nil_inv; rewrite decode_nil in He; unfold to_ascii_lowercase in He.
    - by destruct (decode_binary v).
    - by destruct (decode_binary s). }
  case_decide as H1; case_decide as H2; try tauto. cbn [map]. f_equal; [|done].
  simpl. unfold decode_uri_path. destruct (from_utf8 (decode_binary s)) as [x|] eqn:E; [|done].
  by destruct (from_utf8_lower _ _ _ He E) as (y & -> & ?).
Qed.

Context {UL : FileUrlLaws U}.

Lemma file_path u : url_scheme u = FILE_SCHEME →
  ∃ ss, ss ≠ [] ∧ url_path_segments u = Some ss ∧ url_path u = c_slash :: join [c_slash] ss ∧
        Forall (λ s, c_slash ∉ s) ss.
Proof.
  intros (p & Hp & Hs)%file_segments. exists (split_char c_slash p). split_and!; [|done|by rewrite join_split_char|].
  - apply split_at_all_nonempty.
  - eapply Forall_impl; [apply split_at_all_pieces|]. intros s Hall Hin.
    rewrite forallb_forall in Hall. by apply list_elem_of_In, Hall in Hin.
Qed.

Lemma existsb_nonempty c ss :
  existsb (has_separator c) ss = false → existsb (has_separator c) (nonempty_segments ss) = false.
Proof.
  intros H. apply not_true_iff_false. intros (x & Hx & ?)%existsb_exists.
  apply not_true_iff_false in H. apply H, existsb_exists. exists x. split; [|done].
  apply list_elem_of_In, list_elem_of_filter in Hx as [_ ?]. by apply list_elem_of_In.
Qed.

(** Equal URIs lie at the same place. *)
Lemma uri_equiv_place u v :
  url_scheme u = FILE_SCHEME → url_scheme v = FILE_SCHEME → text_names u → text_names v →
  uri_equiv u v → uri_place u = uri_place v.
Proof.
  intros Hu Hv Htu Htv. rewrite uri_equiv_spec. intros [->|(Hh & p & q & Hp & Hq & Hl)]; [done|].
  destruct (file_path u Hu) as (ss & Hss & Hseg & Hpath & _).
  destruct (file_path v Hv) as (vs & Hvs & Hseg' & Hpath' & _).
  unfold windows_identity_path_bytes in Hp, Hq. rewrite Hseg in Hp. rewrite Hseg' in Hq.
  destruct (_ || _) eqn:E1 in Hp; [done|]. destruct (_ || _) eqn:E2 in Hq; [done|].
  simpl in Hp, Hq. destruct (existsb _ ss) eqn:E3; [done|]. destruct (existsb _ vs) eqn:E4; [done|].
  injection Hp as <-. injection Hq as <-. rewrite Hpath, Hpath', !decode_cons_slash in Hl.
  injection Hl as Hl. apply identity_names in Hl; [|done..].
  apply orb_false_iff in E1 as [E1 E1'], E2 as [E2 E2']. bool_hyps.
  assert (∀ x, uri_is_opaque x = false → decode_bad_path_uri x = None) as Hop.
  { unfold uri_is_opaque, opaque_fallback_bytes. intros x Hx. bool_hyps. by apply eq_None_not_Some. }
  specialize (Htu E1 _ Hseg). specialize (Htv E2 _ Hseg').
  assert (∃ x, uri_place u = Some x) as [[[h c] ks] Hx].
  { eexists (_, _, _). apply uri_place_Some. split_and!; [auto|done|done|].
    unfold containment_path_segments. rewrite Hseg. simpl. rewrite existsb_nonempty by done. eauto. }
  rewrite Hx. symmetry. apply uri_place_Some in Hx as (_ & <- & Hc & ws & Hws & ->).
  assert (c = Windows) as -> by congruence.
  apply uri_place_Some. split_and!; [auto|done|done|].
  unfold containment_path_segments in *. rewrite Hseg in Hws. simpl in Hws. rewrite existsb_nonempty in Hws by done.
  injection Hws as <-. rewrite Hseg'. simpl. rewrite existsb_nonempty by done.
  eexists. split; [done|]. by apply identity_keys.
Qed.

(** Containment is transitive. *)
Lemma uri_starts_with_transitive u v w :
  Forall (λ x, url_scheme x = FILE_SCHEME ∧ text_names x) [u; v; w] →
  uri_starts_with u v = true → uri_starts_with v w = true → uri_starts_with u w = true.
Proof.
  rewrite !Forall_cons. intros ((Hu & Htu) & (Hv & Htv) & (Hw & Htw) & _). rewrite !uri_starts_with_spec.
  intros [He|(h & c & ks & bs & H1 & H2 & H3)] [He'|(h' & c' & ks' & bs' & H4 & H5 & H6)].
  - left. by etrans.
  - right. rewrite (uri_equiv_place u v) by done. eauto 10.
  - right. rewrite <- (uri_equiv_place v w) by done. eauto 10.
  - right. simplify_eq. do 4 eexists. split_and!; [done..|]. by etrans.
Qed.

(** What contains lies no deeper. *)
Lemma uri_starts_with_depth u v n m :
  url_scheme u = FILE_SCHEME → url_scheme v = FILE_SCHEME → text_names u → text_names v →
  uri_starts_with u v = true → uri_lexical_depth u = Some n → uri_lexical_depth v = Some m → m ≤ n.
Proof.
  intros Hu Hv Htu Htv. rewrite uri_starts_with_spec, !uri_place_depth.
  intros [He|(h & c & ks & bs & H1 & H2 & H3)].
  - rewrite (uri_equiv_place u v) by done. intros. simplify_eq. lia.
  - rewrite H1, H2. simpl. intros. simplify_eq. by apply prefix_length.
Qed.
End containment.

(** ** [PathUri] values *)

Section values.
Context {U : Type} {UO : UrlOps U} {UC : UrlCoding} {UCL : UrlCodingLaws UC} {UL : FileUrlLaws U}.
Implicit Types (u v w base : U) (ss : list str).

Definition uri_segments u : list str := default [] (url_path_segments u).
(** The decoded names of a path. *)
Definition uri_names u : list (list byte) := map decode_binary (nonempty_segments (uri_segments u)).

Definition ascii_upper (c : char) : bool := ((65 <=? c) && (c <=? 90))%N.

(** What every [PathUri] satisfies: a [file:] URL with a host and a path only, no [NUL]
    unless opaque, no [localhost], drives in upper case. *)
Record valid_uri u : Prop := {
  valid_plain : plain_file u;
  valid_nul : 0%N ∈ decode_binary (url_path u) → decode_bad_path_uri u ≠ None;
  valid_local : url_host_str u ≠ Some (lit "localhost");
  valid_drive s : url_host_str u = None → head (nonempty_segments (uri_segments u)) = Some s →
    is_windows_drive_uri_segment s = true → ∃ d rest, s = d :: rest ∧ ascii_upper d = true;
}.

Lemma plain_scheme u : plain_file u → url_scheme u = FILE_SCHEME.
Proof. by intros []. Qed.

Lemma same_origin_plain u v : same_origin u v → plain_file v → plain_file u.
Proof. unfold same_origin, plain_file. intros (-> & -> & -> & -> & -> & ->). done. Qed.

Lemma valid_scheme u : valid_uri u → url_scheme u = FILE_SCHEME.
Proof. intros Hv. apply plain_scheme, Hv. Qed.
Hint Resolve plain_scheme valid_scheme valid_plain : core.

Lemma file_segments_eq u ss : url_scheme u = FILE_SCHEME → url_path_segments u = Some ss →
  ss ≠ [] ∧ url_path u = c_slash :: join [c_slash] ss ∧ Forall (λ s, c_slash ∉ s) ss.
Proof. intros Hu Hs. destruct (file_path u Hu) as (ss' & ? & Hs' & ? & ?). by simplify_eq. Qed.

Lemma elem_of_join (c sep : N) ls : c ≠ sep → c ∈ join [sep] ls ↔ Exists (λ l, c ∈ l) ls.
Proof.
  intros Hne. induction ls as [|l ls IH]; [by rewrite Exists_nil, elem_of_nil|].
  rewrite Exists_cons, <- IH. destruct ls as [|l' ls].
  - simpl. rewrite elem_of_nil. tauto.
  - unfold join. rewrite join_with_cons by done. rewrite !elem_of_app, list_elem_of_singleton. tauto.
Qed.

Lemma nul_in_path u ss : url_scheme u = FILE_SCHEME → url_path_segments u = Some ss →
  0%N ∈ decode_binary (url_path u) ↔ Exists (λ s, 0%N ∈ decode_binary s) ss.
Proof.
  intros Hu Hs. destruct (file_segments_eq u ss Hu Hs) as (_ & -> & _).
  rewrite decode_cons_slash, elem_of_cons, decode_join, elem_of_join, Exists_exists, Exists_exists by done.
  split.
  - intros [[=]|(l & Hl & H0)]. apply list_elem_of_In, in_map_iff in Hl as (s & <- & Hs').
    apply list_elem_of_In in Hs'. eauto.
  - intros (s & Hs' & H0). right. exists (decode_binary s). split; [|done].
    by apply list_elem_of_In, in_map, list_elem_of_In.
Qed.

(** An opaque URI has the encoded [NUL] that marks it. *)
Lemma opaque_path u bs : plain_file u → decode_bad_path_uri u = Some bs →
  default [] (url_host_str u) = [] ∧
  ∃ enc, url_path u = lit "/%00/bad/path/" ++ enc ∧ c_slash ∉ enc.
Proof.
  intros Hu. unfold decode_bad_path_uri. rewrite (file_serialization u Hu).
  destruct (strip_prefix _ _) as [enc|] eqn:E; [|done]. simpl. case_match eqn:Hc; [done|]. intros _.
  apply orb_false_iff in Hc as [_ Hc%contains_char_false].
  apply strip_prefix_Some in E. unfold BAD_PATH_URI_PREFIX in E.
  change (lit "file:///%00/bad/path/") with (lit "file://" ++ lit "/%00/bad/path/") in E.
  rewrite <- app_assoc in E. apply app_inv_head in E.
  destruct (url_host_str u) as [[|c h]|] eqn:Hh; simpl in E |- *.
  - eauto.
  - exfalso. apply (f_equal head) in E. injection E as ->. by apply (host_no_slash _ _ Hh), list_elem_of_here.
  - eauto.
Qed.

Lemma opaque_has_nul u bs : plain_file u → decode_bad_path_uri u = Some bs → 0%N ∈ decode_binary (url_path u).
Proof.
  intros Hu (_ & enc & -> & _)%opaque_path; [|done].
  change (lit "/%00/bad/path/" ++ enc) with (c_slash :: lit "%00" ++ c_slash :: lit "bad/path/" ++ enc).
  rewrite decode_cons_slash, decode_slash, decode_binary_spec. cbn. right. left.
Qed.

Lemma no_nul_not_opaque u : plain_file u → 0%N ∉ decode_binary (url_path u) → decode_bad_path_uri u = None.
Proof.
  intros Hu Hn. destruct (decode_bad_path_uri u) eqn:E; [|done]. by apply opaque_has_nul in E.
Qed.

Lemma valid_not_opaque u : valid_uri u →
  decode_bad_path_uri u = None ↔ 0%N ∉ decode_binary (url_path u).
Proof.
  intros Hv. split; [|apply no_nul_not_opaque; auto]. intros Hn H0. by apply (valid_nul u Hv) in H0.
Qed.

(** ** What [try_from] does to a drive *)

Lemma first_segment p :
  head (nonempty_segments (split_char c_slash p)) =
  match drop_while (is_char c_slash) p with [] => None | r => head (split_char c_slash r) end.
Proof.
  induction p as [|c p IH]; [done|]. unfold split_char in *. cbn [split_at_all drop_while].
  destruct (is_char c_slash c) eqn:Hc.
  - unfold nonempty_segments in *. rewrite filter_cons_False by (intros H; by apply H). done.
  - cbn [split_at_all]. rewrite Hc. destruct (split_at_all _ p) as [|q qs]; unfold nonempty_segments;
      by rewrite filter_cons_True by done.
Qed.

Lemma first_name_of_path u : url_scheme u = FILE_SCHEME →
  head (nonempty_segments (uri_segments u)) =
  match drop_while (is_char c_slash) (url_path u) with [] => None | r => head (split_char c_slash r) end.
Proof.
  intros (p & Hp & Hs)%file_segments. unfold uri_segments. rewrite Hs, Hp.
  change (drop_while (is_char c_slash) (c_slash :: p)) with (drop_while (is_char c_slash) p).
  apply first_segment.
Qed.

(** The first named segment of a URL without host is not a drive in lower case. *)
Definition drive_in_upper_case u : Prop :=
  ∀ s, url_host_str u = None → head (nonempty_segments (uri_segments u)) = Some s →
    is_windows_drive_uri_segment s = true → ∃ d rest, s = d :: rest ∧ ascii_upper d = true.

Lemma drive_letter s : is_windows_drive_uri_segment s = true →
  ∃ d rest, s = d :: rest ∧ is_ascii_alphabetic d = true ∧
    ∀ d', is_ascii_alphabetic d' = true → is_windows_drive_uri_segment (d' :: rest) = true.
Proof.
  unfold is_windows_drive_uri_segment. repeat case_match; intros H'; try done;
    (eexists _, _; split; [done|]; bool_hyps; split; [done|]); intros d' Hd'; simpl;
    repeat match goal with H : _ = true |- _ => rewrite H end; done.
Qed.

Definition starts_on_drive u : Prop :=
  ∃ s, head (nonempty_segments (uri_segments u)) = Some s ∧ is_windows_drive_uri_segment s = true.

Lemma norm_spec u : url_scheme u = FILE_SCHEME →
  let v := with_normalized_windows_drive_letter u in
  same_but_path v u ∧ to_ascii_lowercase (url_path v) = to_ascii_lowercase (url_path u) ∧
  drive_in_upper_case v ∧ (drive_in_upper_case u → v = u) ∧
  (starts_on_drive u → starts_on_drive v).
Proof.
  intros Hu. unfold with_normalized_windows_drive_letter.
  assert (∀ w, same_but_path w w) as Hrefl by (intros w; repeat split).
  destruct (url_host_str u) as [h|] eqn:Hh.
  { split; [apply Hrefl|split; [done|split; [intros s H; congruence|done]]]. }
  pose proof (first_name_of_path u Hu) as Hfirst.
  destruct (drop_while (is_char c_slash) (url_path u)) as [|letter rest] eqn:Hrest.
  { split; [apply Hrefl|split; [done|split; [intros s _ Hs; congruence|done]]]. }
  destruct (drop_while_suffix (is_char c_slash) (url_path u)) as [pre Hpre]. rewrite Hrest in Hpre.
  assert (drop_while (is_char c_slash) (letter :: rest) = letter :: rest) as Hdw.
  { rewrite <- Hrest at 1. by rewrite drop_while_idemp. }
  assert (is_char c_slash letter = false) as Hl.
  { cbn [drop_while] in Hdw. destruct (is_char c_slash letter) eqn:E; [|done].
    exfalso. pose proof (suffix_length _ _ (drop_while_suffix (is_char c_slash) rest)).
    rewrite Hdw in H. simpl in H. lia. }
  assert (∃ tl, ∀ l, is_char c_slash l = false → head (split_char c_slash (l :: rest)) = Some (l :: tl)) as [tl Htl].
  { unfold split_char. cbn [split_at_all]. destruct (split_at_all (is_char c_slash) rest) as [|q qs].
    - exists []. intros l ->. done.
    - exists q. intros l ->. done. }
  rewrite (Htl letter Hl) in Hfirst |- *. cbn [from_option id].
  destruct (is_windows_drive_uri_segment (letter :: tl)) eqn:Hd; cbn [negb orb].
  2: { split; [apply Hrefl|]. split; [done|]. split; [|done]. intros s _ Hs. rewrite Hfirst in Hs.
       injection Hs as <-. congruence. }
  destruct ((65 <=? letter)%N && (letter <=? 90)%N) eqn:Hup.
  { split; [apply Hrefl|]. split; [done|]. split; [|done]. intros s _ Hs. rewrite Hfirst in Hs.
    injection Hs as <-. eauto. }
  apply drive_letter in Hd as (d & r & [= <- <-] & Ha & Hd).
  assert (length (url_path u) - length (letter :: rest) = length pre) as ->
    by (rewrite Hpre, length_app; lia).
  set (v := url_set_path _ u).
  assert (is_ascii_alphabetic (letter - 32) = true ∧ ascii_upper (letter - 32) = true ∧
    to_ascii_lower (letter - 32) = to_ascii_lower letter ∧ is_char c_slash (letter - 32) = false)
    as (Ha' & Hup' & Hlow & Hnl).
  { unfold is_ascii_alphabetic, ascii_upper, to_ascii_lower, is_char, c_slash in *. repeat case_match; lia. }
  assert (take (length pre) (url_path u) ++ [(letter - 32)%N] ++ drop (length pre + 1) (url_path u)
    = pre ++ (letter - 32)%N :: rest) as Hp.
  { rewrite Hpre, take_app_length, drop_app_add. done. }
  destruct (set_path_case u (pre ++ (letter - 32)%N :: rest) Hu Hh) as [Hs Hpath].
  { rewrite Hpre. unfold to_ascii_lowercase. rewrite !map_app. simpl. by rewrite Hlow. }
  unfold v in *. rewrite Hp in *. clear v.
  assert (head (nonempty_segments (uri_segments (url_set_path (pre ++ (letter - 32)%N :: rest) u)))
    = Some ((letter - 32)%N :: tl)) as Hnew.
  { rewrite first_name_of_path by (by destruct Hs as [[-> _] _]). rewrite Hpath.
    assert (forallb (is_char c_slash) pre = true) as Hall.
    { rewrite Hpre, drop_while_app in Hrest. destruct (forallb _ pre) eqn:E; [done|].
      apply (f_equal length) in Hrest. rewrite length_app in Hrest. destruct (drop_while _ pre) eqn:E2; [|simpl in Hrest; lia].
      apply drop_while_nil_inv in E2. congruence. }
    rewrite drop_while_app, Hall. cbn [drop_while]. rewrite Hnl. exact (Htl _ Hnl). }
  split; [done|]. split; [|split; [|split]].
  - rewrite Hpath, Hpre. unfold to_ascii_lowercase. rewrite !map_app. simpl. by rewrite Hlow.
  - intros s _ Hfs _. rewrite Hnew in Hfs. injection Hfs as <-. eauto.
  - intros Hcase. exfalso. destruct (Hcase _ Hh Hfirst (Hd _ Ha)) as (d & r & [= <- <-] & Hd').
    unfold ascii_upper in Hd'. congruence.
  - intros _. exists ((letter - 32)%N :: tl). auto.
Qed.

Lemma nul_lower bs bs' : to_ascii_lowercase bs = to_ascii_lowercase bs' → 0%N ∈ bs → 0%N ∈ bs'.
Proof.
  intros Heq Hin. assert (0%N ∈ to_ascii_lowercase bs) as H.
  { apply list_elem_of_In, (in_map to_ascii_lower _ 0%N). by apply list_elem_of_In. }
  rewrite Heq in H. apply list_elem_of_In, in_map_iff in H as (x & Hx & Hin').
  unfold to_ascii_lower in Hx. destruct (_ && _) eqn:E in Hx; [lia|]. subst. by apply list_elem_of_In.
Qed.

Lemma validate_common_ok u : validate_common_known_uri u = Ok tt ↔
  url_username u = [] ∧ url_password u = None ∧ url_port u = None ∧ url_query u = None ∧ url_fragment u = None.
Proof.
  unfold validate_common_known_uri.
  assert (∀ {A} (o : option A), o = None ↔ ¬ is_Some o) as Hn by (intros; apply eq_None_not_Some).
  rewrite !Hn. case_bool_decide; case_bool_decide; cbn [negb orb]; try naive_solver.
  repeat case_bool_decide; naive_solver.
Qed.

Lemma try_from_ok u v : uri_try_from u = Ok v →
  plain_file u ∧ (0%N ∈ decode_binary (url_path u) → decode_bad_path_uri u ≠ None) ∧
  v = with_normalized_windows_drive_letter (without_localhost_authority u).
Proof.
  unfold uri_try_from, validate_file_url. case_bool_decide as Hs; [|done]. cbn [negb].
  intros (() & [Hc Hn]%seq_ok & [= <-])%bind_ok. apply validate_common_ok in Hc as (? & ? & ? & ? & ?).
  split_and!; [done| |done]. case_bool_decide; [|done]. case_bool_decide; done.
Qed.

(** The invariant of [PathUri]: what [try_from] accepts satisfies it. *)
Lemma try_from_valid u v : uri_try_from u = Ok v → valid_uri v.
Proof.
  intros (Hp & Hn & ->)%try_from_ok. set (w := without_localhost_authority u).
  assert (plain_file w ∧ url_path w = url_path u ∧ url_host_str w ≠ Some (lit "localhost") ∧
    (0%N ∈ decode_binary (url_path u) → w = u)) as (Hpw & Hpath & Hloc & Hnul).
  { unfold w, without_localhost_authority. case_bool_decide as Hl; [|done].
    destruct (clear_host_spec u) as (Ho & Hh & Hpa); [auto|]. split_and!.
    - by eapply same_origin_plain.
    - done.
    - by rewrite Hh.
    - intros [bs Hb]%Hn%not_eq_None_Some. apply opaque_path in Hb as [Hd _]; [|done]. by rewrite Hl in Hd. }
  destruct (norm_spec w) as ([Ho Hh] & Hcase & Hdrive & Hid & _); [auto|]. constructor.
  - by eapply same_origin_plain.
  - intros H0. assert (0%N ∈ decode_binary (url_path u)) as H1.
    { rewrite <- Hpath. eapply nul_lower; [|exact H0]. rewrite !decode_binary_spec. by apply pct_decode_lower. }
    pose proof (Hnul H1) as ->. rewrite Hid; [auto|].
    intros s Hs Hf Hdr. exfalso. destruct (decode_bad_path_uri u) as [bs|] eqn:E; [|by apply Hn in H1].
    apply opaque_path in E as (_ & enc & Hpa & _); [|done].
    rewrite first_name_of_path, Hpa in Hf by auto. injection Hf as <-. done.
  - by rewrite Hh.
  - exact Hdrive.
Qed.

(** It leaves such a URL alone. *)
Lemma try_from_valid_id u : valid_uri u → uri_try_from u = Ok u.
Proof.
  intros Hv. destruct (valid_plain u Hv) as (Hs & ? & ? & ? & ? & ?). unfold uri_try_from, validate_file_url.
  rewrite bool_decide_true by done. cbn [negb].
  assert (validate_common_known_uri u = Ok tt) as -> by by apply validate_common_ok. simpl.
  destruct (bool_decide (0%N ∈ _) && _) eqn:E.
  { bool_hyps. by apply (valid_nul u Hv) in H4. }
  simpl. unfold without_localhost_authority. rewrite bool_decide_false by apply Hv.
  f_equal. apply norm_spec; [done|]. intros s. apply Hv.
Qed.
End values.
