(* ===== verification/PathJoinFacts.v ===== *)
(** * PathJoinFacts: walking the segments of a URI

    Parents and ancestors end at the root and contain the path they start from; joining
    native text is a lexical walk on the decoded names, which cannot leave the drive or
    the share of the base. *)
From Stdlib Require Import ZifyBool.
From S2P Require Import Prelude RustStr UnixPath AbsolutePath Utf8Stream Utf8Encode PatchErrors FsInterface PathUri PathUriLaws.

(** ** Lists of segments *)

Lemma nonempty_app ss ts : nonempty_segments (ss ++ ts) = nonempty_segments ss ++ nonempty_segments ts.
Proof. apply filter_app. Qed.

Lemma nonempty_or_root ss : nonempty_segments (or_root ss) = nonempty_segments ss.
Proof. unfold or_root. case_bool_decide; by subst. Qed.

Lemma nonempty_id ss : Forall (λ s, s ≠ []) ss → nonempty_segments ss = ss.
Proof.
  unfold nonempty_segments. induction 1 as [|s ss Hs _ IH]; [done|]. by rewrite filter_cons_True, IH by done.
Qed.

Lemma nonempty_take k ss : nonempty_segments (take k ss) `prefix_of` nonempty_segments ss.
Proof. rewrite <- (take_drop k ss) at 2. rewrite nonempty_app. by apply prefix_app_r. Qed.

Lemma nonempty_take_length k ss :
  length (nonempty_segments ss) ≤ length (nonempty_segments (take k ss)) + (length ss - k).
Proof.
  rewrite <- (take_drop k ss) at 1. rewrite nonempty_app, length_app.
  pose proof (length_filter (λ s : str, s ≠ []) (drop k ss)). unfold nonempty_segments.
  rewrite length_drop in H. lia.
Qed.

(** One step up keeps a beginning of the segments, and all the named ones but one. *)
Lemma step_up ss : ss ≠ [] → ∃ k, k < length ss ∧
  pop_last (pop_if_empty_last ss) = or_root (take k ss) ∧
  length (nonempty_segments ss) ≤ S (length (nonempty_segments (take k ss))).
Proof.
  intros Hss. assert (0 < length ss) as Hpos by (destruct ss; [done|simpl; lia]).
  unfold pop_if_empty_last, pop_last. case_match eqn:E.
  - bool_hyps. apply Nat.ltb_lt in H0. exists (length ss - 1 - 1). rewrite length_take, take_take.
    replace (min _ (length ss - 1)) with (length ss - 1 - 1) by lia.
    replace (length ss - 1 `min` length ss - 1) with (length ss - 1 - 1) by lia.
    split_and!; [lia|done|]. apply last_Some in H as [ss' ->].
    rewrite nonempty_app, length_app. rewrite !length_app. cbn [length].
    rewrite take_app_le by lia. pose proof (nonempty_take_length (length ss' + 1 - 1 - 1) ss').
    simpl. lia.
  - exists (length ss - 1). split_and!; [lia|done|].
    pose proof (nonempty_take_length (length ss - 1) ss). lia.
Qed.

Section parents.
Context {U : Type} {UO : UrlOps U} {UC : UrlCoding} {UCL : UrlCodingLaws UC} {UL : FileUrlLaws U}.
Implicit Types (u v w base : U) (ss : list str).

(** [v] is [u] with the segments after the first [k] removed. *)
Definition cut_at u v (k : nat) : Prop :=
  same_but_path v u ∧ url_path_segments v = Some (or_root (take k (uri_segments u))).

Lemma valid_segments u : valid_uri u →
  url_path_segments u = Some (uri_segments u) ∧ uri_segments u ≠ [] ∧
  url_path u = c_slash :: join [c_slash] (uri_segments u).
Proof.
  intros Hv. destruct (file_path u (valid_scheme u Hv)) as (ss & ? & Hs & Hp & _).
  unfold uri_segments. by rewrite Hs.
Qed.

Lemma cut_segments u v k : cut_at u v k → nonempty_segments (uri_segments v) = nonempty_segments (take k (uri_segments u)).
Proof. intros [_ Hs]. unfold uri_segments at 1. rewrite Hs. apply nonempty_or_root. Qed.

Lemma cut_at_valid u v k : valid_uri u → decode_bad_path_uri u = None → cut_at u v k →
  valid_uri v ∧ decode_bad_path_uri v = None.
Proof.
  intros Hv Hb Hcut. pose proof Hcut as [[Ho Hh] Hs].
  assert (plain_file v) as Hp by (by eapply same_origin_plain, valid_plain).
  assert (0%N ∉ decode_binary (url_path v)) as H0.
  { rewrite (nul_in_path v _ (plain_scheme v Hp) Hs). intros H.
    apply valid_not_opaque in Hb; [|done]. apply Hb.
    destruct (valid_segments u Hv) as (Hsu & _). rewrite (nul_in_path u _ (valid_scheme u Hv) Hsu).
    unfold or_root in H. destruct (bool_decide (take k (uri_segments u) = [])).
    - apply Exists_cons in H as [H|H%Exists_nil]; [|done]. rewrite decode_nil in H. by apply elem_of_nil in H.
    - rewrite <- (take_drop k (uri_segments u)). apply Exists_app. by left. }
  split; [|by apply no_nul_not_opaque]. constructor; [done| |by rewrite Hh; apply Hv|].
  - done.
  - intros s Hh' Hf. rewrite Hh in Hh'. apply (valid_drive u Hv); [done|].
    rewrite (cut_segments u v k Hcut) in Hf. destruct (nonempty_take k (uri_segments u)) as [r ->].
    by destruct (nonempty_segments (take k _)).
Qed.

Lemma uri_convention_plain u : decode_bad_path_uri u = None →
  uri_convention u = Some (match url_host_str u with
    | Some _ => Windows
    | None => match head (nonempty_segments (uri_segments u)) with
              | Some s => if is_windows_drive_uri_segment s then Windows else Posix
              | None => Posix
              end
    end).
Proof.
  unfold uri_convention, opaque_fallback_bytes, uri_segments. intros ->.
  destruct (url_host_str u); [done|]. destruct (url_path_segments u) as [ss|]; [|done]. simpl.
  repeat case_match; done.
Qed.

(** Cutting keeps the convention as long as the anchor stays. *)
Lemma cut_convention u v k c : valid_uri u → decode_bad_path_uri u = None → cut_at u v k →
  uri_convention u = Some c → anchor_depth c ≤ length (nonempty_segments (take k (uri_segments u))) →
  uri_convention v = Some c.
Proof.
  intros Hv Hb Hcut Hc Ha. destruct (cut_at_valid u v k Hv Hb Hcut) as [_ Hb'].
  rewrite uri_convention_plain in Hc |- * by done. rewrite (cut_segments u v k Hcut).
  destruct Hcut as [[_ Hh] _]. rewrite Hh. destruct (url_host_str u); [done|].
  destruct (nonempty_take k (uri_segments u)) as [r Hr]. rewrite Hr in Hc.
  destruct (nonempty_segments (take k (uri_segments u))) as [|s l]; simpl in *; [|done].
  destruct c; [done|]. simpl in Ha. lia.
Qed.

Lemma prefix_map {A B} (f : A → B) l k : l `prefix_of` k → map f l `prefix_of` map f k.
Proof. intros [r ->]. rewrite map_app. by apply prefix_app_r. Qed.

Lemma cut_place u v k h c ks : valid_uri u → cut_at u v k →
  anchor_depth c ≤ length (nonempty_segments (take k (uri_segments u))) →
  uri_place u = Some (h, c, ks) →
  ∃ ks', uri_place v = Some (h, c, ks') ∧ ks' `prefix_of` ks ∧
         length ks' = length (nonempty_segments (take k (uri_segments u))).
Proof.
  intros Hv Hcut Ha (Hb & Hh & Hc & ss & Hss & ->)%uri_place_Some.
  destruct (cut_at_valid u v k Hv Hb Hcut) as [_ Hb'].
  pose proof (cut_convention u v k c Hv Hb Hcut Hc Ha) as Hc'.
  unfold containment_path_segments in Hss. destruct (valid_segments u Hv) as (Hsu & _). rewrite Hsu in Hss.
  simpl in Hss. destruct (existsb _ _) eqn:Hsep in Hss; [done|]. injection Hss as <-.
  pose proof (nonempty_take k (uri_segments u)) as Hpre.
  exists (map (segment_key c) (nonempty_segments (take k (uri_segments u)))). split_and!.
  - apply uri_place_Some. split_and!; [done| |done|].
    + destruct Hcut as [[_ ->] _]. done.
    + eexists. split; [|done]. unfold containment_path_segments.
      pose proof (cut_segments u v k Hcut) as Hn. unfold uri_segments in Hn at 1.
      destruct Hcut as [_ Hs]. rewrite Hs in Hn |- *. simpl in *. rewrite Hn.
      destruct Hpre as [r Hr]. rewrite Hr, existsb_app in Hsep. apply orb_false_iff in Hsep as [-> _]. done.
  - by apply prefix_map.
  - apply length_map.
Qed.

(** ** Parents *)

Lemma uri_parent_cut u v : valid_uri u → uri_parent u = Some v →
  decode_bad_path_uri u = None ∧ nonempty_segments (uri_segments u) ≠ [] ∧ ∃ k c, uri_convention u = Some c ∧ k < length (uri_segments u) ∧ cut_at u v k ∧
    anchor_depth c ≤ length (nonempty_segments (take k (uri_segments u))) ∧
    (take k (uri_segments u) = [] → nonempty_segments (uri_segments v) = []).
Proof.
  intros Hv. unfold uri_parent. case_bool_decide as Hb; [done|].
  apply eq_None_not_Some in Hb. destruct (uri_convention u) as [c|] eqn:Hc; [|done].
  destruct (valid_segments u Hv) as (Hs & Hne & _). rewrite Hs. simpl.
  destruct (Nat.leb_spec (length (nonempty_segments (uri_segments u))) (anchor_depth c)); [done|].
  intros [= <-]. split; [done|].
  split; [intros E; rewrite E in *; simpl in *; lia|]. destruct (step_up (uri_segments u) Hne) as (k & Hk & Heq & Hlen).
  assert (cut_at u (segments_pop (segments_pop_if_empty u)) k) as Hcut.
  { destruct (pop_if_empty_spec u _ (valid_scheme u Hv) Hs) as [[Ho1 Hh1] Hs1].
    assert (url_scheme (segments_pop_if_empty u) = FILE_SCHEME) as Hsch
      by (destruct Ho1 as [-> _]; by apply valid_scheme).
    destruct (pop_spec _ _ Hsch Hs1) as [[Ho2 Hh2] Hs2]. split; [split|].
    - unfold same_origin in *. destruct Ho1 as (? & ? & ? & ? & ? & ?), Ho2 as (? & ? & ? & ? & ? & ?).
      split_and!; congruence.
    - congruence.
    - by rewrite Hs2, Heq. }
  exists k, c. do 2 (split; [done|]). split; [exact Hcut|]. split; [lia|]. intros Ht. rewrite (cut_segments u _ k Hcut). by rewrite Ht.
Qed.

Lemma uri_parent_valid u v : valid_uri u → uri_parent u = Some v →
  valid_uri v ∧ decode_bad_path_uri v = None ∧ uri_convention v = uri_convention u.
Proof.
  intros Hv (Hb & _ & k & c & Hc & _ & Hcut & Ha & _)%uri_parent_cut; [|done].
  destruct (cut_at_valid u v k Hv Hb Hcut). split_and!; [done..|]. rewrite Hc.
  exact (cut_convention u v k c Hv Hb Hcut Hc Ha).
Qed.

Lemma uri_parent_contains u v : valid_uri u → is_Some (uri_lexical_depth u) → uri_parent u = Some v →
  uri_starts_with u v = true ∧ is_Some (uri_lexical_depth v).
Proof.
  intros Hv Hd (Hb & _ & k & c & Hc & _ & Hcut & Ha & _)%uri_parent_cut; [|done].
  rewrite uri_place_depth in Hd. destruct (uri_place u) as [[[h c'] ks]|] eqn:Hp; [|by apply is_Some_None in Hd].
  assert (c' = c) as -> by (apply uri_place_Some in Hp as (_ & _ & ? & _); congruence).
  destruct (cut_place u v k h c ks Hv Hcut Ha Hp) as (ks' & Hp' & Hpre & _).
  split; [|rewrite uri_place_depth, Hp'; eauto]. apply uri_starts_with_spec. right. eauto 10.
Qed.

(** ** Ancestors *)

Definition steps_left u : nat :=
  if bool_decide (nonempty_segments (uri_segments u) = []) then 0 else length (uri_segments u).

Lemma uri_parent_steps u v : valid_uri u → uri_parent u = Some v → steps_left v < steps_left u.
Proof.
  intros Hv (Hb & Hne & k & c & Hc & Hk & Hcut & Ha & Hroot)%uri_parent_cut; [|done].
  unfold steps_left. rewrite (bool_decide_false _ Hne).
  case_bool_decide as Hn; [lia|]. destruct Hcut as [_ Hs]. unfold uri_segments at 1. rewrite Hs. simpl.
  unfold or_root. case_bool_decide as Ht; [by apply Hroot in Ht|]. rewrite length_take. lia.
Qed.

(** An ancestor: valid, and at a place above. *)
Definition above u a : Prop :=
  valid_uri a ∧ ∀ h c ks, uri_place u = Some (h, c, ks) →
    ∃ ks', uri_place a = Some (h, c, ks') ∧ ks' `prefix_of` ks.

Lemma ancestors_fuel_spec n u : valid_uri u → steps_left u ≤ n →
  Forall (above u) (uri_ancestors_fuel n u) ∧
  ∃ r, last (uri_ancestors_fuel n u) = Some r ∧ uri_parent r = None.
Proof.
  revert u. induction n as [|n IH]; intros u Hv Hn.
  - assert (uri_parent u = None) as Hnone.
    { destruct (uri_parent u) as [v|] eqn:E; [|done]. apply uri_parent_steps in E; [lia|done]. }
    simpl. split; [|by eexists]. apply Forall_singleton. split; [done|]. eauto.
  - cbn [uri_ancestors_fuel]. destruct (uri_parent u) as [v|] eqn:E.
    2: { split; [|by eexists]. apply Forall_singleton. split; [done|]. eauto. }
    destruct (uri_parent_valid u v Hv E) as (Hv' & Hb' & Hc').
    destruct (IH v Hv') as [Hall (r & Hr & Hnone)].
    { apply uri_parent_steps in E; [lia|done]. }
    split.
    + apply Forall_cons. split; [split; [done|eauto]|]. eapply Forall_impl; [exact Hall|].
      intros a [Ha Hpl]. split; [done|]. intros h c ks Hks.
      apply uri_parent_cut in E as (Hb & _ & k & c' & Hc & _ & Hcut & Hanc & _); [|done].
      assert (c' = c) as -> by (apply uri_place_Some in Hks as (_ & _ & ? & _); congruence).
      destruct (cut_place u v k h c ks Hv Hcut Hanc Hks) as (ks1 & H1 & Hp1 & _).
      destruct (Hpl h c ks1 H1) as (ks2 & H2 & Hp2). exists ks2. split; [done|]. by etrans.
    + exists r. split; [|done]. rewrite last_cons, Hr. done.
Qed.

Lemma uri_ancestors_spec u : valid_uri u →
  Forall (above u) (uri_ancestors u) ∧ ∃ r, last (uri_ancestors u) = Some r ∧ uri_parent r = None.
Proof.
  intros Hv. apply ancestors_fuel_spec; [done|]. unfold steps_left. by case_bool_decide; [lia|].
Qed.

Lemma above_starts_with u a : above u a → is_Some (uri_lexical_depth u) → uri_starts_with u a = true.
Proof.
  intros [_ Ha] Hd. rewrite uri_place_depth in Hd.
  destruct (uri_place u) as [[[h c] ks]|] eqn:Hp; [|by apply is_Some_None in Hd].
  destruct (Ha h c ks eq_refl) as (ks' & Hp' & Hpre). apply uri_starts_with_spec. right. eauto 10.
Qed.

(** A POSIX path without a parent is the root. *)
Lemma uri_root_posix r : valid_uri r → uri_convention r = Some Posix → is_Some (uri_lexical_depth r) →
  uri_parent r = None → uri_place r = Some (None, Posix, []).
Proof.
  intros Hv Hc Hd Hn. rewrite uri_place_depth in Hd.
  destruct (uri_place r) as [[[h c] ks]|] eqn:Hp; [|by apply is_Some_None in Hd].
  apply uri_place_Some in Hp as (Hb & Hh & Hc' & ss & Hss & ->). assert (c = Posix) as -> by congruence.
  unfold uri_parent in Hn. rewrite bool_decide_false, Hc in Hn by by rewrite Hb; apply is_Some_None.
  destruct (valid_segments r Hv) as (Hs & _). rewrite Hs in Hn. simpl in Hn.
  unfold containment_path_segments in Hss. rewrite Hs in Hss. simpl in Hss.
  destruct (nonempty_segments (uri_segments r)); [|done]. simpl in Hss. injection Hss as <-.
  rewrite uri_convention_plain in Hc by done. rewrite Hh in Hc. by destruct h.
Qed.
End parents.

(** ** Joining *)

(** The walk that joining is: [.] and empty components stay, [..] goes up unless at the
    anchor, any other name goes down. *)
Definition lexical_step (anchor : nat) (names : list (list byte)) (component : str) : list (list byte) :=
  if bool_decide (component = []) || bool_decide (component = dot) then names
  else if bool_decide (component = dotdot) then
    if anchor <? length names then take (length names - 1) names else names
  else names ++ [as_bytes component].

(** Where the walk starts: at the base, or at its anchor for a rooted Windows path. *)
Definition walk_start (c : PathConvention) (names : list (list byte)) (path : str) : list (list byte) :=
  if bool_decide (c = Windows) && windows_root_relative path then take (anchor_depth c) names else names.

Section joining.
Context {U : Type} {UO : UrlOps U} {UC : UrlCoding} {UCL : UrlCodingLaws UC} {UL : FileUrlLaws U}.
Implicit Types (u v w base self : U) (ss ns : list str).

(** No empty segment, but for a trailing separator. *)
Definition canonical u : Prop :=
  ∃ ns, Forall (λ s, s ≠ []) ns ∧
    (uri_segments u = or_root ns ∨ ns ≠ [] ∧ uri_segments u = ns ++ [[]]).

(** The state of the walk on URLs stands for [ns]. *)
Record walked base ns (st : U * nat) : Prop := {
  walked_base : same_but_path st.1 base;
  walked_segments : url_path_segments st.1 = Some (or_root ns);
  walked_named : Forall (λ s, s ≠ []) ns;
  walked_depth : st.2 = length ns;
  walked_nul : Forall (λ s, 0%N ∉ decode_binary s) ns;
}.

Lemma same_but_path_trans u v w : same_but_path u v → same_but_path v w → same_but_path u w.
Proof.
  unfold same_but_path, same_origin. intros [(? & ? & ? & ? & ? & ?) ?] [(? & ? & ? & ? & ? & ?) ?].
  split_and!; congruence.
Qed.

Lemma walked_scheme base ns st : url_scheme base = FILE_SCHEME → walked base ns st → url_scheme st.1 = FILE_SCHEME.
Proof. intros Hb [[[-> _] _] _ _ _ _]. done. Qed.

Lemma pop_or_root ns : pop_last (or_root ns) = or_root (take (length ns - 1) ns).
Proof.
  destruct ns as [|n ns]; [done|]. unfold pop_last. by assert (or_root (n :: ns) = n :: ns) as -> by done.
Qed.

Lemma walked_pop base ns st : url_scheme base = FILE_SCHEME → walked base ns st →
  walked base (take (length ns - 1) ns) (segments_pop st.1, st.2 - 1).
Proof.
  intros Hb Hw. pose proof (walked_scheme _ _ _ Hb Hw) as Hs. destruct Hw as [H1 H2 H3 H4 H5].
  destruct (pop_spec _ _ Hs H2) as [Hp1 Hp2]. constructor; simpl.
  - by eapply same_but_path_trans.
  - by rewrite Hp2, pop_or_root.
  - by apply Forall_take.
  - rewrite length_take. lia.
  - by apply Forall_take.
Qed.

Lemma zero_as_bytes s : 0%N ∈ as_bytes s → 0%N ∈ s.
Proof.
  intros H. apply list_elem_of_In, in_flat_map in H as (c & Hc & H).
  assert (c = 0%N) as ->; [|by apply list_elem_of_In].
  unfold utf8_char in H. repeat case_match; simpl in H;
    repeat match goal with H : _ ∨ _ |- _ => destruct H as [H|H] end; try done; apply N.eq_add_0 in H as [? _]; done.
Qed.

Lemma as_bytes_nil_inv s : as_bytes s = [] → s = [].
Proof. destruct s as [|c s]; [done|]. simpl. unfold utf8_char. repeat case_match; done. Qed.

Lemma walked_push base ns st component : url_scheme base = FILE_SCHEME → walked base ns st →
  component ≠ [] → is_dots component = false → is_drive_bar component = false → 0%N ∉ component → no_tab_newline component = true →
  ∃ t, walked base (ns ++ [t]) (segments_push component st.1, S st.2) ∧ decode_binary t = as_bytes component.
Proof.
  intros Hb Hw Hne Hdots Hbar H0 Htab. pose proof (walked_scheme _ _ _ Hb Hw) as Hs. destruct Hw as [H1 H2 H3 H4 H5].
  destruct (push_spec _ _ component Hs H2 Hdots Htab) as [Hp1 (t & Hp2 & Ht & Hdec)].
  assert (decode_binary t = as_bytes component) as Hd by (destruct Hdec as [?|(_ & ? & _)]; congruence).
  assert (t ≠ []) as Htn.
  { intros ->. rewrite decode_nil in Hd. symmetry in Hd. by apply as_bytes_nil_inv in Hd. }
  exists t. split; [|done]. constructor; simpl.
  - by eapply same_but_path_trans.
  - rewrite Hp2. unfold push_onto, or_root. f_equal.
    destruct ns as [|n ns]; [done|]. rewrite (bool_decide_false ((n :: ns) = [])) by done.
    rewrite bool_decide_false; [|by intros [= -> ->]; inv H3]. by rewrite bool_decide_false by by destruct ns.
  - by apply Forall_app_2; [|apply Forall_singleton].
  - rewrite length_app. simpl. lia.
  - apply Forall_app_2; [done|]. apply Forall_singleton. rewrite Hd. intros ?%zero_as_bytes. done.
Qed.

Lemma take_keep {A} (a : nat) (l : list A) : a < length l → take a (take (length l - 1) l) = take a l.
Proof. intros H. rewrite take_take. f_equal. lia. Qed.

(** The walk on URLs follows the walk on names and keeps the anchor. *)
Lemma walk_spec base anchor components ns st :
  url_scheme base = FILE_SCHEME → walked base ns st →
  Forall (λ comp, is_drive_bar comp = false ∧ 0%N ∉ comp ∧ no_tab_newline comp = true) components →
  ∃ ns', walked base ns' (foldl (join_component anchor) st components) ∧
    map decode_binary ns' = foldl (lexical_step anchor) (map decode_binary ns) components ∧
    (anchor ≤ length ns → anchor ≤ length ns' ∧ take anchor ns' = take anchor ns).
Proof.
  intros Hb Hw Hc. revert ns st Hw. induction Hc as [|comp comps (Hbar & H0 & Htab) Hc IH]; intros ns st Hw; [by exists ns|].
  cbn [foldl]. unfold join_component at 2, lexical_step at 2. destruct st as [url depth].
  destruct (bool_decide (comp = []) || bool_decide (comp = dot)) eqn:E1; [by apply IH|].
  apply orb_false_iff in E1 as [E1 E2]. bool_hyps. rewrite length_map.
  pose proof (walked_depth _ _ _ Hw) as Hd. simpl in Hd. rewrite Hd.
  case_bool_decide as E3.
  - destruct (Nat.ltb_spec anchor (length ns)) as [Hlt|]; [|rewrite Hd in Hw; by apply IH].
    pose proof (walked_pop _ _ _ Hb Hw) as Hw'. simpl in Hw'. rewrite Hd in Hw'.
    destruct (IH _ _ Hw') as (ns' & H1 & H2 & H3). exists ns'. split; [done|]. split.
    + by rewrite H2, <- firstn_map.
    + intros _. rewrite length_take in H3. destruct H3 as [? ->]; [lia|]. split; [done|]. by apply take_keep.
  - destruct (walked_push _ _ _ comp Hb Hw) as (t & Hw' & Ht); [done| |done|done|done|].
    { unfold is_dots. by rewrite !bool_decide_false by done. }
    simpl in Hw'. rewrite Hd in Hw'. destruct (IH _ _ Hw') as (ns' & H1 & H2 & H3). exists ns'. split; [done|]. split.
    + rewrite H2, map_app. simpl. by rewrite Ht.
    + intros Ha. rewrite length_app in H3. simpl in H3. destruct H3 as [? ->]; [lia|]. split; [done|].
      by apply take_app_le.
Qed.

(** An edited URL without [NUL] passes [try_from], which changes it only where it makes
    a drive. *)
Lemma edited_try_from base w ss : plain_file base → url_host_str base ≠ Some (lit "localhost") →
  same_but_path w base → url_path_segments w = Some ss → Forall (λ s, 0%N ∉ decode_binary s) ss →
  let v := with_normalized_windows_drive_letter w in
  decode_bad_path_uri w = None ∧ uri_try_from w = Ok v ∧ same_but_path v base ∧
  (drive_in_upper_case w ∨ uri_convention v = Some Posix → v = w).
Proof.
  intros Hb Hl Hsame Hs Hn v. pose proof Hsame as [Ho Hh]. pose proof (same_origin_plain _ _ Ho Hb) as Hp.
  assert (0%N ∉ decode_binary (url_path w)) as H0.
  { rewrite (nul_in_path w ss) by (done || by apply plain_scheme). intros (s & Hin & H)%Exists_exists.
    rewrite Forall_forall in Hn. by apply (Hn s). }
  pose proof (no_nul_not_opaque w Hp H0) as Hbad.
  destruct (norm_spec w) as (Hvw & Hcase & Hup & Hid & Hdr); [by apply plain_scheme|]. fold v in Hvw, Hcase, Hup, Hid, Hdr.
  split; [done|]. split; [|split; [by eapply same_but_path_trans|]].
  - destruct Hp as (Hs1 & Hrest). unfold uri_try_from, validate_file_url. rewrite bool_decide_true by done. cbn [negb].
    assert (validate_common_known_uri w = Ok tt) as -> by (apply validate_common_ok; naive_solver).
    cbn [mbind result_bind]. rewrite (bool_decide_false (0%N ∈ _)) by done. cbn [andb].
    unfold without_localhost_authority. by rewrite bool_decide_false by congruence.
  - intros [Hd|Hc]; [by apply Hid|]. apply Hid. intros s Hh' Hf Hdrive. exfalso.
    assert (decode_bad_path_uri v = None) as Hbv.
    { apply no_nul_not_opaque; [eapply same_origin_plain; [apply Hvw|done]|]. intros H. apply H0.
      eapply nul_lower; [|exact H]. rewrite !decode_binary_spec. by apply pct_decode_lower. }
    destruct (Hdr ltac:(by eexists)) as (s' & Hf' & Hdrive'). rewrite uri_convention_plain in Hc by done.
    destruct Hvw as [_ Hvh]. rewrite Hvh, Hh', Hf', Hdrive' in Hc. done.
Qed.

(** The text that is walked, once a drive is taken off. *)
Definition relative_text self (c : PathConvention) (path : str) : result PathUriParseError str :=
  match c with Windows => strip_same_drive self path | Posix => Ok path end.

Lemma pop_if_empty_canonical u : canonical u →
  ∃ ns, Forall (λ s, s ≠ []) ns ∧ pop_if_empty_last (uri_segments u) = or_root ns ∧
        nonempty_segments (uri_segments u) = ns.
Proof.
  intros (ns & Hns & Hs). exists ns. split; [done|]. unfold pop_if_empty_last. destruct Hs as [->|[Hne ->]].
  - rewrite nonempty_or_root, nonempty_id by done. split; [|done].
    destruct ns as [|n ns]; [done|]. assert (or_root (n :: ns) = n :: ns) as -> by done.
    rewrite bool_decide_false; [done|]. intros Hlast. remember (n :: ns) as l eqn:El; clear El. apply last_Some in Hlast as [ns' ->]. apply Forall_app in Hns as [_ Hns]. by inv Hns.
  - rewrite nonempty_app, (nonempty_id ns) by done. change (nonempty_segments [[]]) with (@nil str). rewrite app_nil_r.
    split; [|done]. rewrite last_snoc, bool_decide_true, length_app by done. cbn [length andb].
    destruct (Nat.ltb_spec 1 (length ns + 1)); [|destruct ns; [done|simpl in *; lia]].
    rewrite take_app_le by lia. rewrite take_ge by lia. unfold or_root. by rewrite bool_decide_false.
Qed.

Lemma iter_pop base k ns st : url_scheme base = FILE_SCHEME → walked base ns st → k ≤ length ns →
  walked base (take (length ns - k) ns) (Nat.iter k segments_pop st.1, st.2 - k).
Proof.
  intros Hb Hw. induction k as [|k IH]; intros Hk.
  - simpl. rewrite !Nat.sub_0_r, firstn_all. by destruct st.
  - pose proof (walked_pop _ _ _ Hb (IH ltac:(lia))) as H. cbn [fst snd] in H.
    rewrite length_take, take_take in H. replace (_ `min` _) with (length ns - S k) in H by lia.
    cbn [Nat.iter nat_rect]. by replace (st.2 - S k) with (st.2 - k - 1) by lia.
Qed.

(** Joining is the lexical walk from the base. *)
Lemma join_lexical self path c rel : valid_uri self → canonical self → decode_bad_path_uri self = None →
  uri_convention self = Some c → 0%N ∉ path → path ≠ [] → from_absolute_native_path path c = None →
  relative_text self c path = Ok rel →
  Forall (λ comp, is_drive_bar comp = false ∧ 0%N ∉ comp ∧ no_tab_newline comp = true) (path_segments c rel) →
  ∃ v, uri_join self path = Ok v ∧ valid_uri v ∧ url_host_str v = url_host_str self ∧
    (c = Windows ∨ uri_convention v = Some Posix →
     uri_names v = foldl (lexical_step (anchor_depth c)) (walk_start c (uri_names self) rel) (path_segments c rel) ∧
     canonical v).
Proof.
  intros Hv Hcan Hbad Hc H0 Hne Habs Hrel Hcomps. pose proof (valid_scheme self Hv) as Hsch.
  destruct (valid_segments self Hv) as (Hseg & _).
  destruct (pop_if_empty_canonical self Hcan) as (ns & Hns & Hpop & Hnames).
  destruct (pop_if_empty_spec self _ Hsch Hseg) as [Hsame Hseg']. rewrite Hpop in Hseg'.
  assert (Forall (λ s, 0%N ∉ decode_binary s) ns) as Hnul.
  { apply valid_not_opaque in Hbad; [|done]. rewrite (nul_in_path self _ Hsch Hseg) in Hbad.
    apply Forall_forall. intros s Hin H. apply Hbad, Exists_exists. exists s. split; [|done].
    rewrite <- Hnames in Hin. by apply list_elem_of_filter in Hin as [_ ?]. }
  assert (walked self ns (segments_pop_if_empty self, length ns)) as Hw by (by constructor).
  set (st := (segments_pop_if_empty self, length ns)) in *.
  set (st' := if bool_decide (c = Windows) && windows_root_relative rel then pop_to_anchor (anchor_depth c) st else st).
  set (start := if bool_decide (c = Windows) && windows_root_relative rel then take (anchor_depth c) ns else ns).
  assert (walked self start st') as Hw'.
  { unfold start, st'. destruct (_ && _); [|done]. unfold pop_to_anchor, st.
    pose proof (iter_pop self (length ns - anchor_depth c) ns st Hsch Hw ltac:(lia)) as H. cbn [fst snd st] in H.
    replace (length ns - (length ns - anchor_depth c)) with (length ns `min` anchor_depth c) in H by lia.
    replace (take (length ns `min` anchor_depth c) ns) with (take (anchor_depth c) ns) in H; [done|].
    rewrite Nat.min_comm, <- take_take. by rewrite firstn_all. }
  destruct (walk_spec self (anchor_depth c) (path_segments c rel) start st' Hsch Hw' Hcomps)
    as (ns' & [F1 F2 F3 _ F5] & Hmap & Hanchor).
  set (w := (foldl (join_component (anchor_depth c)) st' (path_segments c rel)).1) in *.
  assert (Forall (λ s, 0%N ∉ decode_binary s) (or_root ns')) as F5'.
  { unfold or_root. case_bool_decide; [|done]. apply Forall_singleton. rewrite decode_nil. by apply not_elem_of_nil. }
  destruct (edited_try_from self w _ (valid_plain self Hv) (valid_local self Hv) F1 F2 F5') as (Hbw & Htry & Hsv & Hid).
  exists (with_normalized_windows_drive_letter w). split; [|split; [by eapply try_from_valid|split; [by apply Hsv|]]].
  { unfold uri_join. rewrite (proj2 (contains_char_false 0%N path) H0), bool_decide_false, Hc by done.
    cbn [ok_or mbind result_bind]. rewrite Habs. unfold relative_text in Hrel. rewrite Hrel.
    cbn [mbind result_bind]. unfold join_relative. rewrite Hbad, bool_decide_false by apply is_Some_None.
    rewrite Hseg, Hnames. exact Htry. }
  intros Hkind. assert (uri_names self = map decode_binary ns) as -> by (unfold uri_names; by rewrite Hnames).
  rewrite Hid.
  - unfold uri_names, uri_segments. rewrite F2. cbn [default from_option]. unfold id.
    rewrite nonempty_or_root, nonempty_id by done. split; [|exists ns'; unfold uri_segments; rewrite F2; auto].
    rewrite Hmap. f_equal. unfold walk_start, start.
    destruct (_ && _); [by rewrite firstn_map|done].
  - destruct Hkind as [->|?]; [left|by right]. intros s Hh Hf Hd.
    destruct F1 as [_ Hhost]. rewrite Hhost in Hh.
    rewrite uri_convention_plain, Hh, Hnames in Hc by done.
    destruct ns as [|n ns]; [done|]. simpl in Hc. destruct (is_windows_drive_uri_segment n) eqn:Hdn; [|done].
    assert (1 ≤ length start ∧ take 1 start = [n]) as [Hl Ht].
    { unfold start. destruct (_ && _); simpl; (split; [lia|done]). }
    destruct (Hanchor Hl) as [Hl' Ht']. cbn [anchor_depth] in Hl', Ht'. rewrite Ht in Ht'.
    unfold uri_segments in Hf. rewrite F2 in Hf. cbn [default from_option] in Hf. unfold id in Hf.
    rewrite nonempty_or_root, nonempty_id in Hf by done.
    destruct ns' as [|n' ns'']; [done|]. injection Ht' as ->. injection Hf as <-.
    apply (valid_drive self Hv n Hh); [by rewrite Hnames|done].
Qed.
End joining.
