(* ===== verification/PathText.v ===== *)
(** * PathText: native path text of either convention
    ([utils/path-uri/src/api_path_string.rs], [config_path.rs], and
    [inferred_native_path_string] of [lib.rs])

    A [LegacyAppPathString] is its text. *)
From Stdlib Require Import ZifyBool.
From S2P Require Import Prelude RustStr PatchErrors FsInterface Utf8Stream OutputStream UnixPath AbsolutePath Utf8Encode PathUri PathUriLaws PathJoinFacts.

Inductive LegacyAppPathStringError :=
| OpaqueFallback (path : str)
| IncompatibleConvention (path : str) (convention : PathConvention)
| InvalidNativePath (path : str) (convention : option PathConvention)
| UnsupportedConfigPath (path : str) (convention : PathConvention)
| MissingBaseConvention (cwd : str)
| MissingHomeDirectory (path : str)
| MismatchedConvention (path : str) (path_convention : PathConvention) (cwd : str) (convention : PathConvention)
| LegacyPathUri (e : PathUriParseError).

#[export] Instance LegacyAppPathStringError_eq_dec : EqDecision LegacyAppPathStringError.
Proof. solve_decision. Defined.

(** [LegacyAppPathString::infer_absolute_path_convention]. *)
Definition infer_absolute_path_convention (path : str) : option PathConvention :=
  let has_windows_drive_root :=
    match path with
    | drive :: colon :: separator :: _ =>
        is_ascii_alphabetic drive && is_char c_colon colon && is_windows_separator separator
    | _ => false
    end in
  if has_windows_drive_root || starts_with (lit "\\") path then Some Windows
  else if starts_with [c_slash] path then Some Posix else None.

(** [contains_glob_metacharacter]. *)
Definition contains_glob_metacharacter (path : str) : bool :=
  existsb (λ c, existsb (is_char c) (lit "*?[]{}")) path.

Definition render_windows_opaque_fallback (path_bytes : list byte) : option str :=
  if negb (Nat.even (length path_bytes)) then None
  else
    let path_wide := units_from_le_bytes path_bytes in
    let has_drive_root :=
      match path_wide with
      | drive :: colon :: separator :: _ =>
          is_ascii_alphabetic drive && is_char c_colon colon && is_windows_separator separator
      | _ => false
      end in
    let has_namespace_or_unc_root :=
      match path_wide with
      | first :: second :: _ => is_windows_separator first && is_windows_separator second
      | _ => false
      end in
    if has_drive_root || has_namespace_or_unc_root then Some (from_utf16_lossy path_wide) else None.

(** [PathUri::validate_config_path_text]: a colon in a component, but for a drive. *)
Definition component_colon (index : nat) (segment : str) : bool :=
  let segment :=
    match index, segment with
    | 0, d :: c :: rest => if is_ascii_alphabetic d && is_char c_colon c then rest else segment
    | _, _ => segment
    end in
  contains [c_colon] segment.

Definition mixed_separators (suffix : str) : bool :=
  starts_with [c_slash] suffix && starts_with [c_backslash] (drop_while (is_char c_slash) suffix)
  || starts_with [c_backslash] suffix && starts_with [c_slash] (drop_while (is_char c_backslash) suffix).

Definition is_bare_windows_drive (path : str) : bool :=
  match path with [drive; colon] => is_ascii_alphabetic drive && is_char c_colon colon | _ => false end.

Definition validate_config_path_text (input : str) (c : PathConvention) : result LegacyAppPathStringError unit :=
  let native_input := default input (normalize_windows_device_path input) in
  let windows := bool_decide (c = Windows) in
  let has_windows_component_colon :=
    windows && existsb id (imap component_colon (path_segments c native_input)) in
  let mixed_home_separators :=
    windows && match home_relative_suffix c input with Some suffix => mixed_separators suffix | None => false end in
  let bare_windows_drive := windows && is_bare_windows_drive native_input in
  if contains [0%N] input || has_windows_component_colon || mixed_home_separators || bare_windows_drive
  then Err (UnsupportedConfigPath input c) else Ok tt.

Section text.
Context {U : Type} {UO : UrlOps U} {UC : UrlCoding}.
Implicit Types (u self path cwd : U).

(** ** Rendering *)

Definition incompatible_convention {A} path (c : PathConvention) : result LegacyAppPathStringError A :=
  Err (IncompatibleConvention (url_as_str path) c).

Definition decode_native_segment (segment : str) : str := from_utf8_lossy (decode_binary segment).

(** [url.path_segments()], which every [PathUri] has. *)
Definition text_segments path : list str := default [] (url_path_segments path).

Definition render_posix_path path : result LegacyAppPathStringError str :=
  match url_host_str path with
  | Some _ => incompatible_convention path Posix
  | None => Ok (flat_map (λ segment, [c_slash] ++ decode_native_segment segment) (text_segments path))
  end.

Definition windows_tail (segments : list str) : str :=
  flat_map (λ segment, [c_backslash] ++ decode_native_segment segment) segments.

Definition render_windows_path path : result LegacyAppPathStringError str :=
  head ← match url_host_str path, text_segments path with
         | Some host, share :: segments =>
             let share := decode_native_segment share in
             if bool_decide (share = []) then incompatible_convention path Windows
             else Ok (lit "\\" ++ host ++ [c_backslash] ++ share, segments)
         | None, drive :: segments =>
             let drive := decode_native_segment drive in
             if is_bare_windows_drive drive then Ok (drive, segments) else incompatible_convention path Windows
         | _, [] => incompatible_convention path Windows
         end;
  let rendered := head.1 ++ windows_tail head.2 in
  Ok (match rendered with
      | [_; colon] => if is_char c_colon colon then rendered ++ [c_backslash] else rendered
      | _ => rendered
      end).

Definition render_opaque_fallback path (path_bytes : list byte) (c : PathConvention) : result LegacyAppPathStringError str :=
  let rendered :=
    match c with
    | Posix => if starts_with [c_slash] path_bytes then Some (from_utf8_lossy path_bytes) else None
    | Windows => render_windows_opaque_fallback path_bytes
    end in
  ok_or (OpaqueFallback (url_as_str path)) rendered.

(** [LegacyAppPathString::from_path_uri]. *)
Definition text_from_path_uri path (c : PathConvention) : result LegacyAppPathStringError str :=
  match opaque_fallback_bytes path with
  | Some path_bytes => render_opaque_fallback path path_bytes c
  | None => match c with Posix => render_posix_path path | Windows => render_windows_path path end
  end.

(** [PathUri::inferred_native_path_string], which is also [From<PathUri>]. *)
Definition inferred_native_path_string self : str :=
  default (url_as_str self) (c ← uri_convention self; ok (text_from_path_uri self c)).

(** ** Resolving *)

(** [LegacyAppPathString::to_path_uri]. *)
Definition text_to_path_uri (path : str) (c : PathConvention) : result LegacyAppPathStringError U :=
  ok_or (InvalidNativePath path (Some c)) (from_absolute_native_path path c).

(** [TryFrom<LegacyAppPathString> for PathUri]. *)
Definition text_to_inferred_path_uri (path : str) : result LegacyAppPathStringError U :=
  match infer_absolute_path_convention path with
  | None => Err (InvalidNativePath path None)
  | Some c => text_to_path_uri path c
  end.

(** [LegacyAppPathString::render_for_ui]. *)
Definition render_for_ui (path : str) : str :=
  match text_to_inferred_path_uri path with Ok u => inferred_native_path_string u | Err _ => path end.

Definition lift_join (r : result PathUriParseError U) : result LegacyAppPathStringError U := map_err LegacyPathUri r.

(** [trim_start_matches] of the separators of a home-relative path. *)
Definition trim_separators (windows : bool) (s : str) : str :=
  drop_while (λ c, is_char c_slash c || windows && is_char c_backslash c) s.

(** [LegacyAppPathString::resolve_against]. *)
Definition resolve_against (path : str) cwd (user_home_dir : option U) : result LegacyAppPathStringError U :=
  convention ← ok_or (MissingBaseConvention (url_as_str cwd)) (uri_convention cwd);
  let is_windows := bool_decide (convention = Windows) in
  match home_relative_suffix convention path with
  | Some suffix =>
      home ← ok_or (MissingHomeDirectory path) user_home_dir;
      lift_join (uri_join home (trim_separators is_windows suffix))
  | None =>
      if is_windows && (starts_with (lit "//") path || starts_with (lit "\\") path)
      then text_to_path_uri path Windows
      else match infer_absolute_path_convention path with
           | Some path_convention =>
               if bool_decide (path_convention = convention) then text_to_path_uri path convention
               else if bool_decide (path_convention = Posix) && is_windows then lift_join (uri_join cwd path)
               else Err (MismatchedConvention path path_convention (url_as_str cwd) convention)
           | None => lift_join (uri_join cwd path)
           end
  end.

(** ** [config_path.rs] *)

Definition validate_config_path self (c : PathConvention) : result LegacyAppPathStringError unit :=
  if negb (bool_decide (uri_convention self = Some c)) then incompatible_convention self c
  else
    let bytes := decode_binary (url_path self) in
    if bool_decide (uri_lexical_depth self = None) || bool_decide (0%N ∈ bytes) || negb (is_ok (from_utf8 bytes))
    then Err (LegacyPathUri (InvalidFileUriPath (url_as_str self)))
    else
      text ← text_from_path_uri self c;
      validate_config_path_text text c.

Definition validate_glob_directory self (c : PathConvention) : result LegacyAppPathStringError unit :=
  _ ← validate_config_path self c;
  path ← text_from_path_uri self c;
  if contains_glob_metacharacter path || bool_decide (c = Posix) && contains [c_backslash] path
  then Err (UnsupportedConfigPath path c) else Ok tt.

(** What [resolve_config_path_uri] asks of the home or the base. *)
Definition validate_config_base self (c : PathConvention) (input : str) : result LegacyAppPathStringError unit :=
  _ ← validate_config_path self c;
  if contains_glob_metacharacter input then validate_glob_directory self c else Ok tt.

Definition resolve_config_path_uri (input : str) (c : PathConvention) (base user_home_dir : option U) :
    result LegacyAppPathStringError U :=
  _ ← validate_config_path_text input c;
  resolved ← match home_relative_suffix c input with
             | Some _ =>
                 home ← ok_or (MissingHomeDirectory input) user_home_dir;
                 _ ← validate_config_base home c input;
                 resolve_against input home (Some home)
             | None =>
                 match text_to_path_uri input c with
                 | Ok absolute => Ok absolute
                 | Err error =>
                     base ← ok_or error base;
                     _ ← validate_config_base base c input;
                     resolve_against input base None
                 end
             end;
  _ ← validate_config_path resolved c;
  lift_join (uri_join resolved dot).

Definition to_config_path_string self (c : PathConvention) : result LegacyAppPathStringError str :=
  rendered ← text_from_path_uri self c;
  Ok (if bool_decide (is_Some (url_host_str self)) && bool_decide (uri_parent self = None)
      then rendered ++ [c_backslash] else rendered).

Definition resolve_config_path (input : str) (c : PathConvention) (base user_home_dir : option U) :
    result LegacyAppPathStringError str :=
  u ← resolve_config_path_uri input c base user_home_dir; to_config_path_string u c.
End text.

(** * Native text and URIs

    Opaque URIs keep the bytes they were made of; absolute POSIX text survives the trip
    through a URI; configuration paths are what their validation says. *)

Lemma base64_not_slash c : base64_char c = true → c ≠ c_slash.
Proof. intros H ->. done. Qed.

Lemma from_utf8_lossy_as_bytes s : is_str s = true → from_utf8_lossy (as_bytes s) = s.
Proof.
  intros Hs. apply from_utf8_as_bytes in Hs. apply from_utf8_Ok in Hs.
  unfold from_utf8_lossy. cbn [from_utf8_lossy_fuel]. by rewrite Hs.
Qed.

Section facts.
Context {U : Type} {UO : UrlOps U} {UC : UrlCoding} {UCL : UrlCodingLaws UC} {UL : FileUrlLaws U}.
Implicit Types (u v w base self : U) (ss : list str).

(** ** Opaque URIs *)

(** The [unreachable!] of [from_opaque_path_bytes] is not reached. *)
Lemma from_opaque_spec bs : bs ≠ [] → is_bytes bs = true →
  uri_parse (BAD_PATH_URI_PREFIX ++ base64_encode bs) = Ok (from_opaque_path_bytes bs : U) ∧
  valid_uri (from_opaque_path_bytes bs : U) ∧
  opaque_fallback_bytes (from_opaque_path_bytes bs : U) = Some bs.
Proof.
  intros Hne Hby. destruct (parse_bad_path (base64_encode bs) (base64_alphabet bs)) as (u & Hu & Hp & Hh & Hs).
  assert (decode_bad_path_uri u = Some bs) as Hbad.
  { unfold decode_bad_path_uri. rewrite Hs, strip_prefix_app. simpl.
    rewrite bool_decide_false by by apply base64_nonempty.
    rewrite (proj2 (contains_char_false c_slash (base64_encode bs))).
    - rewrite base64_round_trip by done. simpl. by rewrite bool_decide_true.
    - intros Hin. pose proof (base64_alphabet bs) as Ha. rewrite Forall_forall in Ha.
      by apply Ha, base64_not_slash in Hin. }
  assert (valid_uri u) as Hv.
  { constructor; [done| |congruence|].
    - by rewrite Hbad.
    - intros s _ Hf Hd. exfalso. apply opaque_path in Hbad as (_ & enc & Hpa & _); [|done].
      rewrite first_name_of_path, Hpa in Hf by by apply plain_scheme. injection Hf as <-. done. }
  assert (uri_parse (BAD_PATH_URI_PREFIX ++ base64_encode bs) = Ok u) as Hparse.
  { unfold uri_parse. rewrite Hu. by apply try_from_valid_id. }
  unfold from_opaque_path_bytes. rewrite Hparse. done.
Qed.

(** ** Absolute POSIX text *)

(** [path_uri_from_segments] pushes text that is normalized already as it is. *)
Definition plain_component (s : str) : Prop := s ≠ [] ∧ is_dots s = false ∧ no_tab_newline s = true.

Lemma normalize_plain anchor cs ns d t : Forall plain_component cs →
  foldl (normalize_segment anchor) (ns, d, t) cs =
  (ns ++ cs, d + length cs, if bool_decide (cs = []) then t else false).
Proof.
  intros Hcs. revert ns d t. induction Hcs as [|s cs (Hs & Hd & _) Hcs IH]; intros ns d t.
  - by rewrite app_nil_r, Nat.add_0_r.
  - cbn [foldl]. unfold normalize_segment at 2. unfold is_dots in Hd. apply orb_false_iff in Hd as [H1 H2].
    rewrite bool_decide_false, H1, H2 by done. rewrite IH, <- app_assoc. cbn [app length].
    f_equal; [f_equal; lia|]. by case_bool_decide.
Qed.

(** Text without tabs and line ends whose components but the last are names, the last one a
    name or empty. *)
Definition normalized_posix (path : str) : Prop :=
  ∃ cs l, path = c_slash :: join [c_slash] (cs ++ [l]) ∧ Forall (λ s, c_slash ∉ s) (cs ++ [l]) ∧
    Forall plain_component cs ∧ is_dots l = false ∧ no_tab_newline l = true.

(** Pushing after a first segment that is not empty appends. *)
Lemma push_all base ss u cs : url_scheme base = FILE_SCHEME → same_but_path u base →
  url_path_segments u = Some ss → ss ≠ [] → head ss ≠ Some [] → Forall (λ s, is_dots s = false ∧ no_tab_newline s = true) cs →
  ∃ ts, same_but_path (foldl (λ url s, segments_push s url) u cs) base ∧
    url_path_segments (foldl (λ url s, segments_push s url) u cs) = Some (ss ++ ts) ∧
    map decode_binary ts = map as_bytes cs.
Proof.
  intros Hb Hu Hs Hne Hh Hcs. revert u ss Hu Hs Hne Hh.
  induction Hcs as [|s cs [Hd Htab] Hcs IH]; intros u ss Hu Hs Hne Hh; [exists []; by rewrite app_nil_r|].
  assert (url_scheme u = FILE_SCHEME) as Hsu by (destruct Hu as [[-> _] _]; done).
  destruct (push_spec u ss s Hsu Hs Hd Htab) as [Hsame (t & Ht & _ & Hdec)].
  assert (ss ≠ [[]]) as Hss by by intros ->.
  assert (decode_binary t = as_bytes s) as Htd by (destruct Hdec as [?|[? _]]; done).
  unfold push_onto in Ht. rewrite bool_decide_false in Ht by done.
  destruct (IH (segments_push s u) (ss ++ [t])) as (ts & H1 & H2 & H3).
  - by eapply same_but_path_trans.
  - done.
  - by destruct ss.
  - by destruct ss.
  - exists (t :: ts). cbn [foldl map]. rewrite H2, <- app_assoc, H3, Htd. done.
Qed.

Lemma decoded_text ts cs : map decode_binary ts = map as_bytes cs → Forall (λ s, is_str s = true) cs →
  flat_map (λ segment, [c_slash] ++ decode_native_segment segment) ts = flat_map (λ s, [c_slash] ++ s) cs.
Proof.
  revert cs. induction ts as [|t ts IH]; intros [|c cs] Heq Hcs; try done.
  injection Heq as Ht Heq. apply Forall_cons in Hcs as [Hc Hcs]. cbn [flat_map].
  rewrite (IH cs) by done. unfold decode_native_segment. by rewrite Ht, from_utf8_lossy_as_bytes.
Qed.

Lemma join_flat_map cs : cs ≠ [] → flat_map (λ s, [c_slash] ++ s) cs = c_slash :: join [c_slash] cs.
Proof.
  intros Hne. induction cs as [|c cs IH]; [done|]. destruct cs as [|c' cs].
  - simpl. by rewrite app_nil_r.
  - unfold join in *. rewrite join_with_cons by done. cbn [flat_map] in *. rewrite IH by done. done.
Qed.

(** The URL [path_uri_from_segments] builds of plain components. *)
Lemma segments_of_components base cs l : plain_file base → url_host_str base = None →
  Forall plain_component cs → is_dots l = false → no_tab_newline l = true →
  let w := foldl (λ url s, segments_push s url) (segments_clear base) (cs ++ [l]) in
  same_but_path w base ∧ ∃ ts, url_path_segments w = Some ts ∧
    (map decode_binary ts = map as_bytes (cs ++ [l]) ∨
     starts_on_drive w ∧ is_drive_bar (default [] (head (cs ++ [l]))) = true ∧ map decode_binary (tail ts) = tail (map as_bytes (cs ++ [l]))).
Proof.
  intros Hb Hh Hcs Hl Hltab w. destruct (clear_spec base) as [Hsame Hs]; [by apply plain_scheme|].
  assert (∃ c0 rest, cs ++ [l] = c0 :: rest ∧ is_dots c0 = false ∧ no_tab_newline c0 = true ∧ Forall (λ s, is_dots s = false ∧ no_tab_newline s = true) rest ∧
    (rest = [] ∨ c0 ≠ [])) as (c0 & rest & Heq & H0 & Htab0 & Hrest & Hor).
  { destruct Hcs as [|c cs (Hc1 & Hc2 & Hc3) Hcs]; [by exists l, []; split_and!; auto|]. exists c, (cs ++ [l]). split_and!; auto.
    apply Forall_app_2; [|by apply Forall_singleton]. eapply Forall_impl; [exact Hcs|]. by intros s (_ & ? & ?). }
  unfold w. cbn [foldl]. rewrite Heq. cbn [foldl].
  assert (url_scheme (segments_clear base) = FILE_SCHEME) as Hsc by (destruct Hsame as [[-> _] _]; by apply plain_scheme).
  destruct (push_spec _ _ c0 Hsc Hs H0 Htab0) as [Hsame0 (t0 & Ht0 & _ & Hdec)].
  change (push_onto [[]] t0) with [t0] in Ht0.
  assert (same_but_path (segments_push c0 (segments_clear base)) base) as Hsb by by eapply same_but_path_trans.
  assert (rest = [] ∨ t0 ≠ []) as Hor'.
  { destruct Hor as [?|Hc0]; [by left|right]. intros ->. destruct Hdec as [Hd|(_ & _ & ?)]; [|done].
    rewrite decode_nil in Hd. symmetry in Hd. by apply as_bytes_nil_inv in Hd. }
  assert (∃ ts, same_but_path (foldl (λ url s, segments_push s url) (segments_push c0 (segments_clear base)) rest) base ∧
    url_path_segments (foldl (λ url s, segments_push s url) (segments_push c0 (segments_clear base)) rest) = Some (t0 :: ts) ∧
    map decode_binary ts = map as_bytes rest) as (ts & F1 & F2 & F3).
  { destruct Hor' as [->|Hne]; [by exists []|].
    apply (push_all base [t0]); try done; [by apply plain_scheme|simpl; congruence]. }
  split; [done|]. exists (t0 :: ts). split; [done|]. cbn [map tail].
  destruct Hdec as [->|(_ & Hbar & Hdrive)]; [left; by rewrite F3|right]. split; [|by split].
  exists t0. unfold uri_segments. rewrite F2. simpl. split; [|done].
  unfold nonempty_segments. rewrite filter_cons_True; [done|]. by intros ->.
Qed.

Lemma normalized_pushes cs l : Forall plain_component cs → is_dots l = false →
  ∃ d t, foldl (normalize_segment 0) ([], 0, false) (cs ++ [l]) = (if bool_decide (l = []) then cs else cs ++ [l], d, t) ∧
    (if t then cs ++ [[]] else if bool_decide (l = []) then cs else cs ++ [l]) = cs ++ [l].
Proof.
  intros Hcs Hl. rewrite foldl_app, normalize_plain by done. cbn [foldl app]. unfold normalize_segment.
  case_bool_decide as He.
  - subst. eexists _, true. split; [done|done].
  - unfold is_dots in Hl. apply orb_false_iff in Hl as [-> ->]. by eexists _, false.
Qed.

Lemma joined_str cs : is_str (join [c_slash] cs) = true → Forall (λ s, is_str s = true) cs.
Proof.
  intros H. apply Forall_forall. intros s Hs. apply forallb_forall. intros x Hx.
  assert (x ∈ join [c_slash] cs ∨ x = c_slash) as [Hin| ->]; [|by eapply forallb_forall in H; [|by apply list_elem_of_In]|done].
  destruct (decide (x = c_slash)); [by right|left]. apply elem_of_join; [done|].
  apply Exists_exists. exists s. split; [done|]. by apply list_elem_of_In.
Qed.

Lemma joined_no_nul cs ts : 0%N ∉ join [c_slash] cs → map decode_binary ts = map as_bytes cs →
  Forall (λ s, 0%N ∉ decode_binary s) ts.
Proof.
  intros H0 Hm. rewrite elem_of_join, Exists_exists in H0 by done. apply Forall_forall. intros t Ht Hin.
  assert (decode_binary t ∈ map as_bytes cs) as H.
  { rewrite <- Hm. by apply list_elem_of_In, in_map, list_elem_of_In. }
  apply list_elem_of_In, in_map_iff in H as (c & Hc & Hcin). apply H0. exists c.
  split; [by apply list_elem_of_In|]. apply zero_as_bytes. by rewrite Hc.
Qed.

Lemma drive_no_nul s : is_windows_drive_uri_segment s = true → 0%N ∉ decode_binary s.
Proof.
  rewrite decode_binary_spec. unfold is_windows_drive_uri_segment, is_char.
  assert (∀ d, is_ascii_alphabetic d = true → (d =? 37)%N = false ∧ d ≠ 0%N) as Hd by (unfold is_ascii_alphabetic; lia).
  destruct s as [|d [|c [|p [|a [|]]]]]; intros H; try done.
  - apply andb_true_iff in H as [[Hd1 Hd2]%Hd ->%N.eqb_eq]. cbn [pct_decode]. rewrite Hd1. simpl.
    rewrite !elem_of_cons, elem_of_nil. naive_solver.
  - apply andb_true_iff in H as [[[[Hd1 Hd2]%Hd ->%N.eqb_eq]%andb_true_iff ->%N.eqb_eq]%andb_true_iff Ha].
    cbn [pct_decode]. rewrite Hd1. apply orb_true_iff in Ha as [->%N.eqb_eq| ->%N.eqb_eq]; simpl;
      rewrite !elem_of_cons, elem_of_nil; naive_solver.
Qed.

Lemma from_native_opaque path : path ≠ [] → is_str path = true →
  text_from_path_uri (from_opaque_path_bytes (as_bytes path) : U) Posix =
  if starts_with [c_slash] (as_bytes path) then Ok path
  else Err (OpaqueFallback (url_as_str (from_opaque_path_bytes (as_bytes path) : U))).
Proof.
  intros Hne Hs. destruct (from_opaque_spec (as_bytes path)) as (_ & _ & Ho).
  { by intros ?%as_bytes_nil_inv. }
  { by apply as_bytes_is_bytes. }
  unfold text_from_path_uri. rewrite Ho. unfold render_opaque_fallback. rewrite from_utf8_lossy_as_bytes by done.
  by destruct (starts_with _ _).
Qed.

Lemma posix_text_ordinary base cs l : plain_file base → url_host_str base = None →
  Forall plain_component cs → is_dots l = false → no_tab_newline l = true → is_str (join [c_slash] (cs ++ [l])) = true →
  0%N ∉ join [c_slash] (cs ++ [l]) →
  ∃ v, uri_try_from (foldl (λ url s, segments_push s url) (segments_clear base) (cs ++ [l])) = Ok v ∧
    url_host_str v = None ∧
    (uri_convention v = Some Posix → text_from_path_uri v Posix = Ok (c_slash :: join [c_slash] (cs ++ [l]))).
Proof.
  intros Hb Hh Hcs Hl Hltab Hstr H0.
  destruct (segments_of_components base cs l Hb Hh Hcs Hl Hltab) as (Hsame & ts & Hts & Hor).
  set (w := foldl _ _ _) in *. assert (Forall (λ s, 0%N ∉ decode_binary s) ts) as Hnul.
  { destruct Hor as [Hm|(Hd & _ & Hm)]; [by eapply joined_no_nul|]. destruct ts as [|t ts]; [done|].
    apply Forall_cons. split.
    - destruct Hd as (s & Hs & Hd). unfold uri_segments in Hs. rewrite Hts in Hs. simpl in Hs.
      destruct (decide (t = [])) as [->|Hne]; [rewrite decode_nil; by apply not_elem_of_nil|].
      unfold nonempty_segments in Hs. rewrite filter_cons_True in Hs by done. injection Hs as ->. by apply drive_no_nul.
    - eapply (joined_no_nul (tail (cs ++ [l]))); [|cbn [tail] in Hm; rewrite Hm; by destruct (cs ++ [l])].
      intros H. apply H0. rewrite elem_of_join, Exists_exists in H |- * by done.
      destruct H as (x & Hx & ?). exists x. split; [|done]. destruct (cs ++ [l]); [done|]. by right. }
  destruct (edited_try_from base w ts Hb ltac:(congruence) Hsame Hts Hnul) as (Hbad & Htry & Hsv & Hid).
  eexists. split; [exact Htry|]. split; [destruct Hsv as [_ ->]; done|]. intros Hc. rewrite Hid in Hc |- * by auto.
  assert (url_host_str w = None) as Hhw by (destruct Hsame as [_ ->]; done).
  assert (map decode_binary ts = map as_bytes (cs ++ [l])) as Hm.
  { destruct Hor as [?|[(s & Hs & Hd) _]]; [done|]. by rewrite uri_convention_plain, Hhw, Hs, Hd in Hc. }
  unfold text_from_path_uri, opaque_fallback_bytes. rewrite Hbad. unfold render_posix_path, text_segments.
  rewrite Hhw, Hts. cbn [default from_option]. unfold id.
  rewrite (decoded_text ts (cs ++ [l])), join_flat_map; [done|by destruct cs|done|by apply joined_str].
Qed.

(** Absolute POSIX text that is normalized is the text of its URI, whatever else it contains. *)
Lemma posix_text_round_trip path : is_str path = true → normalized_posix path →
  ∃ v : U, from_absolute_native_path path Posix = Some v ∧ text_from_path_uri v Posix = Ok path.
Proof.
  intros Hstr (cs & l & -> & Hns & Hcs & Hl & Hltab).
  assert (∀ v : U, v = from_opaque_path_bytes (as_bytes (c_slash :: join [c_slash] (cs ++ [l]))) →
    text_from_path_uri v Posix = Ok (c_slash :: join [c_slash] (cs ++ [l]))) as Hopaque.
  { intros v ->. by rewrite from_native_opaque. }
  unfold from_absolute_native_path, parse_posix_path. assert (∀ x, strip_prefix [c_slash] (c_slash :: x) = Some x) as -> by done.
  cbn [mbind option_bind].
  destruct (contains [0%N] (join [c_slash] (cs ++ [l]))) eqn:H0.
  { cbn [mbind option_bind app]. destruct (negb _ && _); eexists; (split; [done|]); by apply Hopaque. }
  apply contains_char_false in H0.
  assert (split_char c_slash (join [c_slash] (cs ++ [l])) = cs ++ [l]) as ->.
  { apply split_char_join; [by destruct cs|]. eapply Forall_impl; [exact Hns|]. intros s Hs.
    apply forallb_forall. intros x Hx%list_elem_of_In. apply negb_true_iff, N.eqb_neq. by intros ->. }
  destruct parse_empty_file as (base & Hparse & Hb & Hh & _).
  unfold path_uri_from_segments. rewrite Hparse. cbn [ok mbind option_bind anchor_depth].
  destruct (normalized_pushes cs l Hcs Hl) as (d & t & Hf & Heq). rewrite Hf.
  rewrite (bool_decide_false (Posix = Windows)) by done. cbn [andb]. rewrite orb_false_r.
  assert ((if t then (if bool_decide (l = []) then cs else cs ++ [l]) ++ [[]]
           else if bool_decide (l = []) then cs else cs ++ [l]) = cs ++ [l]) as ->.
  { revert Heq. case_bool_decide; [by subst; destruct t|]. destruct t; [|done].
    intros [_ [=]]%app_inj_tail. done. }
  destruct (posix_text_ordinary base cs l Hb Hh Hcs Hl Hltab) as (v & -> & Hvh & Hv).
  { unfold is_str in *. simpl in Hstr. exact Hstr. }
  { done. }
  cbn [ok mbind option_bind]. rewrite Hvh. cbn [negb].
  rewrite (bool_decide_false (None = Some [])) by done. cbn [negb andb].
  destruct (bool_decide (uri_convention v = Some Posix)) eqn:Hc; eexists; (split; [done|]).
  - apply bool_decide_eq_true in Hc. by apply Hv.
  - by apply Hopaque.
Qed.

(** [/tmp] on a POSIX path. *)
Lemma join_slash_tmp self : uri_convention self = Some Posix →
  ∃ t, uri_join self (lit "/tmp") = Ok t ∧ valid_uri t ∧ uri_place t = Some (None, Posix, [lit "tmp"]).
Proof.
  intros Hc. destruct parse_empty_file as (base & Hparse & Hb & Hh & _).
  destruct (segments_of_components base [] (lit "tmp") Hb Hh ltac:(constructor) eq_refl eq_refl) as (Hsame & ts & Hts & Hor).
  cbn [app] in *. set (w := foldl _ _ _) in *.
  destruct Hor as [Hm|(_ & [=] & _)]. destruct ts as [|t0 [|]]; [done| |done]. injection Hm as Ht0.
  assert (t0 ≠ []) as Hne by by intros ->; rewrite decode_nil in Ht0.
  assert (Forall (λ s, 0%N ∉ decode_binary s) [t0]) as Hnul.
  { apply Forall_singleton. rewrite Ht0. by apply (bool_decide_unpack _). }
  destruct (edited_try_from base w _ Hb ltac:(congruence) Hsame Hts Hnul) as (Hbad & Htry & Hsv & Hid).
  assert (url_host_str w = None) as Hhw by (destruct Hsame as [_ ->]; done).
  assert (nonempty_segments (uri_segments w) = [t0]) as Hns.
  { unfold uri_segments. rewrite Hts. unfold nonempty_segments. simpl. by rewrite filter_cons_True. }
  assert (is_windows_drive_uri_segment t0 = false) as Hdrive.
  { apply not_true_iff_false. intros Hd. apply (f_equal length) in Ht0. revert Ht0.
    rewrite decode_binary_spec. unfold is_windows_drive_uri_segment, is_char in Hd.
    assert (∀ d, is_ascii_alphabetic d = true → (d =? 37)%N = false) as Hal by (unfold is_ascii_alphabetic; lia).
    destruct t0 as [|d [|c [|q [|a [|]]]]]; try done.
    - apply andb_true_iff in Hd as [Hd1%Hal ->%N.eqb_eq]. cbn [pct_decode]. by rewrite Hd1.
    - apply andb_true_iff in Hd as [[[Hd1%Hal ->%N.eqb_eq]%andb_true_iff ->%N.eqb_eq]%andb_true_iff Ha].
      cbn [pct_decode]. rewrite Hd1. by apply orb_true_iff in Ha as [->%N.eqb_eq| ->%N.eqb_eq]. }
  assert (uri_convention w = Some Posix) as Hcw.
  { rewrite uri_convention_plain, Hhw, Hns by done. cbn [head]. by rewrite Hdrive. }
  rewrite Hid in Htry by (left; intros s _ Hs ?; rewrite Hns in Hs; injection Hs as <-; congruence).
  exists w. split; [|split; [by eapply try_from_valid|]].
  - unfold uri_join. cbn -[uri_convention]. rewrite Hc. cbn [ok_or mbind result_bind].
    assert (from_absolute_native_path (lit "/tmp") Posix = Some w) as ->; [|done].
    assert (path_uri_from_segments Posix None [lit "tmp"] = Some w) as Hp.
    { unfold path_uri_from_segments. rewrite Hparse. change (ok (uri_try_from w) = Some w). by rewrite Htry. }
    assert (parse_posix_path (lit "/tmp") = Some w) as Hparsed by exact Hp.
    unfold from_absolute_native_path. rewrite Hparsed. cbn [mbind option_bind].
    by rewrite Hhw, Hcw, (bool_decide_true (Some Posix = Some Posix)) by done.
  - apply uri_place_Some. split_and!; [done..|]. exists [t0]. unfold containment_path_segments.
    unfold uri_segments in Hns. rewrite Hts in Hns |- *. cbn [default from_option mbind option_bind] in *. unfold id in Hns.
    rewrite Hns. unfold has_separator. cbn [existsb map segment_key]. rewrite Ht0. done.
Qed.
End facts.
