(* ===== verification/PathSpec.v ===== *)
(** * PathSpec: what path URIs promise

    The values the constructors give are well formed, equality and containment are
    relations of the right kind, walking up ends, joining is a lexical walk that stays
    below the anchor, and native text is read back. *)
From S2P Require Import Prelude RustStr UnixPath AbsolutePath Utf8Stream Utf8Encode PatchErrors FsInterface PathUri PathUriLaws PathJoinFacts PathText.

Section spec.
Context {U : Type} {UO : UrlOps U} {UC : UrlCoding}.
Implicit Types (u v w base self root : U).

(** Equality of path URIs is an equivalence that hashing respects, containment is
    reflexive for it, and on POSIX paths it is equality of URLs. *)
Theorem uri_equality :
  Equivalence (uri_equiv (U := U)) ∧
  (∀ u v, uri_equiv u v → uri_hash u = uri_hash v ∧ uri_starts_with u v = true) ∧
  (∀ u v, uri_convention u = Some Posix → uri_equiv u v → u = v).
Proof.
  split; [apply uri_equiv_equivalence|]. split; [|apply uri_equiv_posix].
  intros u v H. split; [by apply uri_hash_equiv|]. unfold uri_starts_with. by rewrite H.
Qed.
End spec.

Section values.
Context {U : Type} {UO : UrlOps U} {UC : UrlCoding} {UCL : UrlCodingLaws UC} {UL : FileUrlLaws U}.
Implicit Types (u v w base self root : U).

(** ** Well-formed values *)

Lemma is_str_app s t : is_str (s ++ t) = is_str s && is_str t.
Proof. apply forallb_app. Qed.

Lemma opaque_valid bs : bs ≠ [] → is_bytes bs = true → valid_uri (from_opaque_path_bytes bs : U).
Proof. intros. by apply from_opaque_spec. Qed.

Lemma windows_opaque_valid path : path ≠ [] → is_str path = true → valid_uri (windows_opaque_path_uri path : U).
Proof.
  intros Hne Hs. apply opaque_valid; [|by apply utf16_is_bytes].
  destruct path as [|c path]; [done|]. simpl. unfold utf16_char. by case_match.
Qed.

Lemma posix_opaque_valid path : path ≠ [] → is_str path = true → valid_uri (from_opaque_path_bytes (as_bytes path) : U).
Proof. intros Hne Hs. apply opaque_valid; [by intros ?%as_bytes_nil_inv|by apply as_bytes_is_bytes]. Qed.

Lemma from_segments_valid c host segments v : path_uri_from_segments (U := U) c host segments = Some v → valid_uri v.
Proof.
  unfold path_uri_from_segments. destruct (url_parse _) as [url|]; [|done]. simpl.
  intros (url' & _ & H)%bind_Some. destruct (foldl _ _ _) as [[ns d] t]. unfold ok in H.
  case_match eqn:E; [|done]. injection H as <-. by eapply try_from_valid.
Qed.

Lemma parse_posix_valid path v : is_str path = true → parse_posix_path (U := U) path = Some v → valid_uri v.
Proof.
  intros Hs. unfold parse_posix_path. destruct (strip_prefix [c_slash] path) as [rest|] eqn:E; [|done].
  apply strip_prefix_Some in E as ->. cbn [mbind option_bind]. case_match; [intros [= <-]|apply from_segments_valid].
  by apply (posix_opaque_valid ([c_slash] ++ rest)).
Qed.

Lemma parse_unc_valid path v : path ≠ [] → is_str path = true → parse_unc_path (U := U) path = Some v → valid_uri v.
Proof.
  intros Hne Hs. pose proof (windows_opaque_valid path Hne Hs) as Ho. unfold parse_unc_path.
  destruct (split_at_all _ _) as [|host [|share comps]]; [done..|].
  case_match; [done|]. case_match; [by intros [= <-]|]. destruct (path_uri_from_segments _ _ _) as [w|] eqn:E.
  - case_match; case_match; intros [= <-]; try done; by eapply from_segments_valid.
  - by intros [= <-].
Qed.

Lemma parse_unnormalized_valid path v : is_str path = true → parse_unnormalized_windows_path (U := U) path = Some v → valid_uri v.
Proof.
  intros Hs. unfold parse_unnormalized_windows_path. destruct (_ || _) eqn:E.
  - intros [= <-]. apply windows_opaque_valid; [|done]. by intros ->.
  - destruct path as [|a [|b rest]]; intros H; [discriminate H|discriminate H|].
    revert H. cbv iota beta. destruct (_ && _ && _); [apply from_segments_valid|].
    destruct (_ && _); [by apply parse_unc_valid|done].
Qed.

Lemma device_path_str path p : is_str path = true → normalize_windows_device_path path = Some p → is_str p = true.
Proof.
  unfold normalize_windows_device_path. intros Hs.
  assert (∀ pre r, strip_prefix pre path = Some r → is_str r = true) as Hpre.
  { intros pre r ->%strip_prefix_Some. rewrite is_str_app in Hs. by apply andb_true_iff in Hs as [_ ?]. }
  assert (∀ r, is_str r = true → is_str (lit "\\" ++ r) = true) as Hunc by (intros r Hr; by rewrite is_str_app, Hr).
  repeat case_match; intros; simplify_eq; eauto.
Qed.

Lemma parse_windows_valid path v : is_str path = true → parse_windows_path (U := U) path = Some v → valid_uri v.
Proof.
  intros Hs. unfold parse_windows_path. destruct (normalize_windows_device_path path) as [p|] eqn:E.
  2: { by apply parse_unnormalized_valid. }
  pose proof (device_path_str path p Hs E) as Hp.
  assert (valid_uri (windows_opaque_path_uri path : U)) as Ho by (apply windows_opaque_valid; [by intros ->|done]).
  case_match; [by intros [= <-]|]. destruct (parse_unnormalized_windows_path p) as [w|] eqn:Ew; [|by intros [= <-]].
  case_match; intros [= <-]; [|done]. by eapply parse_unnormalized_valid.
Qed.

Lemma native_path_valid path c v : is_str path = true → from_absolute_native_path (U := U) path c = Some v → valid_uri v.
Proof.
  intros Hs. unfold from_absolute_native_path. intros (w & Hw & H)%bind_Some.
  assert (path ≠ []) as Hne by (intros ->; by destruct c).
  destruct (_ && _); injection H as <-.
  - destruct c; [by eapply parse_posix_valid|by eapply parse_windows_valid].
  - destruct c; [by apply posix_opaque_valid|by apply windows_opaque_valid].
Qed.

Lemma uri_join_valid self path v : valid_uri self → is_str path = true → uri_join self path = Ok v → valid_uri v.
Proof.
  intros Hv Hs. unfold uri_join. case_match; [done|]. case_bool_decide; [by intros [= <-]|].
  destruct (uri_convention self) as [c|]; [|done]. cbn [ok_or mbind result_bind].
  destruct (from_absolute_native_path path c) as [w|] eqn:E; [intros [= <-]; by eapply native_path_valid|].
  intros (rel & _ & Hrel)%bind_ok. unfold join_relative in Hrel.
  destruct (bool_decide (is_Some _)) in Hrel; [done|]. by eapply try_from_valid.
Qed.

(** Paths of the host are text with the texts of their parts. *)
Definition text_path (p : Path) : Prop := Forall (λ c, is_str (component_str c) = true) p.

Lemma joined_is_str (ss : list str) : Forall (λ s, is_str s = true) ss → is_str (join [c_slash] ss) = true.
Proof.
  induction 1 as [|s ss Hs Hss IH]; [done|]. destruct ss as [|s' ss]; [simpl; exact Hs|].
  unfold join in *. rewrite join_with_cons by done. by rewrite !is_str_app, Hs, IH.
Qed.

Lemma text_path_str p : text_path p → is_str (path_str p) = true.
Proof.
  intros Hp. assert (is_str (join [c_slash] (component_str <$> p)) = true) as H by by apply joined_is_str, Forall_fmap.
  by destruct p as [|[] []].
Qed.

Lemma components_text raw : is_str raw = true → text_path (components raw).
Proof.
  intros Hs. assert (Forall (λ s, is_str s = true) (split_char c_slash raw)) as Hpieces.
  { apply joined_str. unfold join, split_char. rewrite join_split; [done|]. intros x ?%N.eqb_eq. done. }
  assert (text_path (omap piece_component (split_char c_slash raw))) as Hbody.
  { induction Hpieces as [|s ss Hp _ IH]; [constructor|]. simpl. unfold piece_component at 1.
    repeat case_bool_decide; simpl; try done; by constructor. }
  unfold components. destruct (starts_with _ _); [by constructor|]. destruct (split_char c_slash raw); [done|].
  case_bool_decide; [by constructor|done].
Qed.

Lemma normalize_fold_text cs p : text_path cs → text_path p → text_path (foldl normalize_step p cs).
Proof.
  intros Hcs. revert p. induction Hcs as [|c cs Hc _ IH]; intros p Hp; [done|]. simpl. apply IH.
  destruct c; simpl; [by repeat constructor|done| |by apply Forall_app_2; [|constructor]].
  unfold pop, parent. destruct (last p) as [[]|]; simpl; try done; by apply Forall_take.
Qed.

Lemma concat_text wd p : text_path wd → text_path p → text_path (path_concat wd p).
Proof.
  intros Hb Hp. unfold path_concat. destruct (is_absolute p); [done|].
  destruct wd as [|b wd], p as [|[] p]; try by apply Forall_app_2.
  inversion Hp; subst. by apply Forall_app_2.
Qed.

Lemma from_abs_path_valid path : abs_normal path → text_path path → valid_uri (from_abs_path path : U).
Proof.
  intros Ha Ht. assert (valid_uri (from_opaque_path_bytes (as_bytes (path_str path)) : U)) as Ho.
  { apply posix_opaque_valid; [|by apply text_path_str]. by destruct path as [|[] [|? ?]]. }
  unfold from_abs_path. destruct (url_from_file_path _) as [w|]; [|done]. simpl. destruct (uri_try_from w) as [v|] eqn:Hv; [|done].
  destruct (_ && _); [by eapply try_from_valid|done].
Qed.

(** C33.  Every value that the constructors (parsing, a URL, an absolute path of the host or of
    either convention) and the operations (joining text or bytes, parents, ancestors) give
    is well formed: a [file:] URL of a host and a path only, free of [NUL] unless it stands
    for opaque bytes, never on [localhost], its drive in upper case; and building such a
    value again changes nothing. *)
Theorem path_uri_values_valid {Env : ProcessEnv} :
  (∀ v : U, valid_uri v → uri_try_from v = Ok v) ∧
  (∀ text u, uri_parse (U := U) text = Ok u → valid_uri u) ∧
  (∀ url u, uri_try_from (U := U) url = Ok u → valid_uri u) ∧
  (∀ path, abs_normal path → text_path path → valid_uri (from_abs_path path : U)) ∧
  (∀ t path u, is_str path = true → (∀ home, home_directory t = Some home → text_path home) →
     from_host_native_path (U := U) t path = Ok u → valid_uri u) ∧
  (∀ path c u, is_str path = true → from_absolute_native_path (U := U) path c = Some u → valid_uri u) ∧
  (∀ self path u, valid_uri self → is_str path = true →
     uri_join self path = Ok u ∨ uri_join_descendant self path = Ok u → valid_uri u) ∧
  (∀ self path u, valid_uri self → uri_join_native_bytes self path = Ok u → valid_uri u) ∧
  (∀ self u, valid_uri self → uri_parent self = Some u ∨ u ∈ uri_ancestors self → valid_uri u).
Proof.
  split_and!.
  - apply try_from_valid_id.
  - intros text u. unfold uri_parse. destruct (url_parse text); [apply try_from_valid|done].
  - apply try_from_valid.
  - apply from_abs_path_valid.
  - intros t path u Hs Hh (abs & Habs & [= <-])%bind_ok. apply map_err_ok in Habs. unfold from_absolute_path_checked in Habs.
    destruct (is_absolute _) eqn:Ha in Habs; [|done]. injection Habs as <-. apply from_abs_path_valid; [by apply absolutize_from_abs|].
    rewrite absolutize_from_absolute by done. rewrite normalize_path_fold by done. apply normalize_fold_text; [|constructor].
    unfold normalize_path_for_platform, maybe_expand_home_directory. destruct (strip_prefix (lit "~") path) as [rest|] eqn:Hr; [|by apply components_text].
    destruct (home_directory t) as [home|]; [|by apply components_text]. specialize (Hh home eq_refl).
    apply strip_prefix_Some in Hr as ->. destruct rest as [|c rest]; [done|]. destruct (strip_prefix [c_slash] (c :: rest)) as [tail|] eqn:Hc; [|by apply components_text].
    apply strip_prefix_Some in Hc. rewrite Hc in Hs. apply concat_text; [done|]. apply components_text.
    rewrite !is_str_app in Hs. apply andb_true_iff in Hs as [_ Hs]. apply andb_true_iff in Hs as [_ Hs]. clear -Hs.
    induction tail as [|x tail IH]; [done|]. simpl in Hs |- *. apply andb_true_iff in Hs as [Hx Hs']. destruct (is_char c_slash x); [by apply IH|]. simpl. by rewrite Hx.
  - apply native_path_valid.
  - intros self path u Hv Hs [H|(w & Hw & H)%bind_ok]; [by eapply uri_join_valid|].
    cbv zeta in H. destruct (_ || negb (uri_starts_with w self)) in H; [done|]. injection H as <-. by eapply uri_join_valid.
  - intros self path u Hv. unfold uri_join_native_bytes. destruct (from_utf8 path) as [text|] eqn:E.
    + apply uri_join_valid; [done|]. by eapply from_utf8_str.
    + destruct (_ || _ || _); [done|]. intros (w & Hw & H)%bind_ok. destruct (negb _) in H; [done|].
      injection H as <-. by eapply try_from_valid.
  - intros self u Hv [H|H]; [by eapply uri_parent_valid|].
    destruct (uri_ancestors_spec self Hv) as [Hall _]. rewrite Forall_forall in Hall. by apply Hall.
Qed.

(** ** Containment *)

(** Containment is a preorder on the paths whose names are text: it is transitive, two
    paths that contain each other are at one place, and a path is at least as deep as
    what contains it. *)
Theorem uri_containment_order u v w :
  Forall (λ x, valid_uri x ∧ text_names x) [u; v; w] →
  uri_starts_with u u = true ∧
  (uri_starts_with u v = true → uri_starts_with v w = true → uri_starts_with u w = true) ∧
  (uri_starts_with u v = true → uri_starts_with v u = true → uri_place u = uri_place v) ∧
  (∀ n m, uri_starts_with u v = true → uri_lexical_depth u = Some n → uri_lexical_depth v = Some m → m ≤ n).
Proof.
  rewrite !Forall_cons. intros ((Hu & Htu) & (Hv & Htv) & (Hw & Htw) & _).
  pose proof (valid_scheme u Hu). pose proof (valid_scheme v Hv). pose proof (valid_scheme w Hw). split_and!.
  - apply uri_starts_with_self.
  - apply uri_starts_with_transitive. rewrite !Forall_cons. by split_and!.
  - rewrite !uri_starts_with_spec. intros [?|(h & c & ks & bs & H3 & H4 & H5)]; [intros _; by apply uri_equiv_place|].
    intros [?|(h' & c' & ks' & bs' & H6 & H7 & H8)]; [symmetry; by apply uri_equiv_place|].
    rewrite H4 in H6. rewrite H3 in H7. injection H6 as <- <- <-. injection H7 as <-.
    rewrite H3, H4. do 3 f_equal. by apply (anti_symm prefix).
  - intros n m. by apply uri_starts_with_depth.
Qed.

(** ** Ancestors *)

(** More fuel than segments gives the same ancestors. *)
Lemma ancestors_fuel_enough n m u : valid_uri u → steps_left u ≤ n → steps_left u ≤ m →
  uri_ancestors_fuel n u = uri_ancestors_fuel m u.
Proof.
  revert m u. induction n as [|n IH]; intros m u Hv Hn Hm.
  - assert (uri_parent u = None) as E by (destruct (uri_parent u) as [v|] eqn:E; [apply uri_parent_steps in E; [lia|done]|done]).
    destruct m; [done|]. cbn [uri_ancestors_fuel]. by rewrite E.
  - destruct (uri_parent u) as [v|] eqn:E; [|destruct m; cbn [uri_ancestors_fuel]; by rewrite E].
    pose proof (uri_parent_steps u v Hv E). destruct m as [|m]; [lia|]. cbn [uri_ancestors_fuel]. rewrite E. f_equal.
    apply IH; [by eapply uri_parent_valid|lia..].
Qed.

Lemma ancestors_chain n u i a b : uri_ancestors_fuel n u !! i = Some a → uri_ancestors_fuel n u !! S i = Some b →
  uri_parent a = Some b.
Proof.
  revert u i. induction n as [|n IH]; intros u i; [by destruct i|]. cbn [uri_ancestors_fuel].
  destruct (uri_parent u) as [v|] eqn:E; [|by destruct i]. destruct i as [|i].
  - intros [= <-]. destruct n; simpl; by intros [= <-].
  - apply IH.
Qed.

(** C36.  The iteration over parents ends: the ancestors start at the path, each next one is
    the parent of the one before, the last one has no parent, the bound of the model cuts
    nothing off, and each contains the path where its depth is defined (a path with an
    encoded separator is contained in nothing, by design). *)
Theorem uri_ancestors_end u : valid_uri u →
  head (uri_ancestors u) = Some u ∧
  (∀ i a b, uri_ancestors u !! i = Some a → uri_ancestors u !! S i = Some b → uri_parent a = Some b) ∧
  (∃ r, last (uri_ancestors u) = Some r ∧ uri_parent r = None) ∧
  (∀ fuel, length (uri_segments u) ≤ fuel → uri_ancestors_fuel fuel u = uri_ancestors u) ∧
  (is_Some (uri_lexical_depth u) → Forall (λ a, uri_starts_with u a = true) (uri_ancestors u)).
Proof.
  intros Hv. destruct (uri_ancestors_spec u Hv) as [Hall Hlast].
  assert (steps_left u ≤ length (uri_segments u)) as Hs by (unfold steps_left; case_bool_decide; lia).
  split_and!.
  - unfold uri_ancestors. by destruct (length _).
  - intros i a b. apply ancestors_chain.
  - exact Hlast.
  - intros fuel Hf. apply ancestors_fuel_enough; [done|lia|exact Hs].
  - intros Hd. eapply Forall_impl; [exact Hall|]. intros a Ha. by apply above_starts_with.
Qed.

(** ** Joining *)

Lemma lexical_walk_anchor anchor names components : anchor ≤ length names →
  anchor ≤ length (foldl (lexical_step anchor) names components) ∧
  take anchor (foldl (lexical_step anchor) names components) = take anchor names.
Proof.
  revert names. induction components as [|comp comps IH]; intros names Ha; [done|]. cbn [foldl].
  assert (anchor ≤ length (lexical_step anchor names comp) ∧
          take anchor (lexical_step anchor names comp) = take anchor names) as [H1 H2].
  { unfold lexical_step. destruct (_ || _); [done|]. destruct (bool_decide (comp = dotdot)).
    - destruct (Nat.ltb_spec anchor (length names)); [|done]. rewrite length_take. split; [lia|]. by apply take_keep.
    - rewrite length_app. split; [lia|]. by apply take_app_le. }
  destruct (IH _ H1) as [H3 H4]. split; [done|]. by rewrite H4.
Qed.

(** Joining relative text without tabs and line ends to a path succeeds and is the lexical
    walk over its decoded names: empty and [.] components stay, [..] goes up but not above the drive or the
    share, other names go down; so the result keeps the host and the anchor of the base. *)
Theorem uri_join_lexical self path c rel : valid_uri self → canonical self → decode_bad_path_uri self = None →
  uri_convention self = Some c → 0%N ∉ path → path ≠ [] → from_absolute_native_path path c = None →
  relative_text self c path = Ok rel →
  Forall (λ comp, is_drive_bar comp = false ∧ 0%N ∉ comp ∧ no_tab_newline comp = true) (path_segments c rel) →
  ∃ v, uri_join self path = Ok v ∧ url_host_str v = url_host_str self ∧
    (c = Windows ∨ uri_convention v = Some Posix →
     uri_names v = foldl (lexical_step (anchor_depth c)) (walk_start c (uri_names self) rel) (path_segments c rel) ∧
     (anchor_depth c ≤ length (uri_names self) →
      take (anchor_depth c) (uri_names v) = take (anchor_depth c) (uri_names self)) ∧
     canonical v).
Proof.
  intros Hv Hcan Hbad Hc H0 Hne Habs Hrel Hcomps.
  destruct (join_lexical self path c rel Hv Hcan Hbad Hc H0 Hne Habs Hrel Hcomps) as (v & Hj & _ & Hh & Hw).
  exists v. split; [done|]. split; [done|]. intros [Hn Hcv]%Hw. split; [done|]. split; [|done].
  intros Ha. rewrite Hn.
  assert (anchor_depth c ≤ length (walk_start c (uri_names self) rel) ∧
    take (anchor_depth c) (walk_start c (uri_names self) rel) = take (anchor_depth c) (uri_names self)) as [H1 <-].
  { unfold walk_start. destruct (_ && _); [|done]. rewrite length_take, take_take. split; [lia|]. f_equal. lia. }
  by apply lexical_walk_anchor.
Qed.

(** ** Text *)

Lemma even_le_bytes us : Nat.even (length (flat_map to_le_bytes us)) = true.
Proof. by induction us. Qed.

Lemma utf16_ascii c s : (c < 0x80)%N → encode_utf16 (c :: s) = c :: encode_utf16 s.
Proof. intros Hc. cbn [encode_utf16 flat_map]. unfold utf16_char. destruct (N.ltb_spec c 0x10000); [done|lia]. Qed.

Lemma windows_text_head path : infer_absolute_path_convention path = Some Windows →
  (∃ drive separator rest, path = drive :: c_colon :: separator :: rest ∧ is_ascii_alphabetic drive = true ∧
     is_windows_separator separator = true) ∨
  ∃ rest, path = c_backslash :: c_backslash :: rest.
Proof.
  unfold infer_absolute_path_convention. intros Hi. destruct (_ || starts_with _ path) eqn:E; [clear Hi|by case_match].
  apply orb_true_iff in E as [E|[rest ->]%starts_with_spec]; [left|by right; exists rest].
  destruct path as [|d [|co [|sep rest]]]; try done. bool_hyps. exists d, sep, rest.
  split_and!; [|done..]. do 2 f_equal. by apply N.eqb_eq.
Qed.

Lemma starts_with_head (c d : char) s : c ≠ d → starts_with [c] (d :: s) = false.
Proof. intros Hne. apply starts_with_false. intros [k Hk]. by injection Hk. Qed.

Lemma windows_opaque_text path : infer_absolute_path_convention path = Some Windows → is_str path = true →
  let bytes := flat_map to_le_bytes (encode_utf16 path) in
  bytes ≠ [] ∧ infer_opaque_path_convention bytes = Some Windows ∧ render_windows_opaque_fallback bytes = Some path.
Proof.
  intros Hi Hs bytes. unfold infer_opaque_path_convention, render_windows_opaque_fallback, bytes.
  rewrite even_le_bytes, units_le_bytes by by apply encode_utf16_units. rewrite from_utf16_encode by done.
  destruct (windows_text_head path Hi) as [(d & sep & rest & -> & Hd & Hsep)|[rest ->]].
  - assert (d < 0x80 ∧ sep < 0x80)%N as [Hd1 Hs1].
    { revert Hd Hsep. unfold is_ascii_alphabetic, is_windows_separator, is_char, c_slash, c_backslash. lia. }
    rewrite !utf16_ascii by done. cbn [flat_map app to_le_bytes negb]. rewrite (N.mod_small d 256) by lia.
    split; [done|]. rewrite starts_with_head by (intros <-; discriminate Hd).
    unfold is_char. rewrite Hd, Hsep. split; done.
  - rewrite !utf16_ascii by done. split_and!; [done| |]; cbn -[encode_utf16]; by rewrite ?orb_true_r.
Qed.

(** A path URI keeps the native text it was made from: an absolute POSIX path in normal
    form is rendered as it was, and so is the text of a Windows path kept opaque. *)
Theorem native_text_round_trip path : is_str path = true →
  (normalized_posix path →
   ∃ v : U, from_absolute_native_path path Posix = Some v ∧ text_from_path_uri v Posix = Ok path) ∧
  (infer_absolute_path_convention path = Some Windows →
   uri_convention (windows_opaque_path_uri path : U) = Some Windows ∧ text_from_path_uri (windows_opaque_path_uri path : U) Windows = Ok path).
Proof.
  intros Hs. split; [by apply posix_text_round_trip|]. intros Hi.
  destruct (windows_opaque_text path Hi Hs) as (Hne & Hc & Hr).
  destruct (from_opaque_spec (U := U) _ Hne (utf16_is_bytes path Hs)) as (_ & _ & Ho).
  unfold windows_opaque_path_uri, uri_convention, text_from_path_uri, render_opaque_fallback.
  by rewrite Ho, Hc, Hr.
Qed.
End values.
