(* ===== verification/PathMem.v ===== *)
(** * PathMem: file URLs in memory

    A URL with a host and a path, percent-coding, and base64, which satisfy the laws of
    [PathUriLaws]: the theorems on paths are used at concrete inputs through them. *)
From Stdlib Require Import ZifyBool.
From S2P Require Import Prelude RustStr UnixPath AbsolutePath Utf8Stream Utf8Encode PatchErrors FsInterface PathUri PathUriLaws.

Module PathMem.

(** ** Coding *)

Definition hex_digit (n : N) : char := (if n <? 10 then 48 + n else 55 + n)%N.
Definition encode_byte (b : byte) : str :=
  (if base64_char b || is_char 46 b || is_char 126 b || is_char 58 b || (255 <? b) then [b]
   else [37; hex_digit (b / 16); hex_digit (b mod 16)])%N.
Definition encode_bytes (bs : list byte) : str := flat_map encode_byte bs.

Definition digit64 (n : N) : char :=
  (if n <? 26 then 65 + n else if n <? 52 then 71 + n else if n <? 62 then n - 4
   else if n =? 62 then 45 else 95)%N.
Definition value64 (c : char) : option N :=
  (if (65 <=? c) && (c <=? 90) then Some (c - 65)
   else if (97 <=? c) && (c <=? 122) then Some (c - 71)
   else if (48 <=? c) && (c <=? 57) then Some (c + 4)
   else if c =? 45 then Some 62 else if c =? 95 then Some 63 else None)%N.

Fixpoint encode64 (bs : list byte) : str :=
  (match bs with
   | [] => []
   | [a] => [digit64 (a / 4); digit64 (a mod 4 * 16)]
   | [a; b] => [digit64 (a / 4); digit64 (a mod 4 * 16 + b / 16); digit64 (b mod 16 * 4)]
   | a :: b :: c :: rest =>
       digit64 (a / 4) :: digit64 (a mod 4 * 16 + b / 16) :: digit64 (b mod 16 * 4 + c / 64)
       :: digit64 (c mod 64) :: encode64 rest
   end)%N.
Fixpoint decode64 (s : str) : option (list byte) :=
  (match s with
   | [] => Some []
   | [w; x] => w ← value64 w; x ← value64 x; Some [w * 4 + x / 16]
   | [w; x; y] => w ← value64 w; x ← value64 x; y ← value64 y;
       Some [w * 4 + x / 16; x mod 16 * 16 + y / 4]
   | w :: x :: y :: z :: rest =>
       w ← value64 w; x ← value64 x; y ← value64 y; z ← value64 z; rest ← decode64 rest;
       Some (w * 4 + x / 16 :: x mod 16 * 16 + y / 4 :: y mod 4 * 64 + z :: rest)
   | _ => None
   end)%N.

#[export] Instance mem_coding : UrlCoding := {
  decode_binary := pct_decode;
  encode_binary := encode_bytes;
  base64_encode := encode64;
  base64_decode := decode64;
}.

Local Ltac Zify.zify_post_hook ::= Z.to_euclidean_division_equations.

Lemma value64_digit n : (n < 64)%N → value64 (digit64 n) = Some n.
Proof. intros H. unfold digit64, value64. repeat case_match; try lia; f_equal; lia. Qed.

Lemma digit64_char n : base64_char (digit64 n) = true.
Proof.
  unfold digit64, base64_char, is_ascii_alphabetic, is_ascii_digit, is_char. repeat case_match; lia.
Qed.

Lemma list_ind3 {A} (P : list A → Prop) :
  P [] → (∀ a, P [a]) → (∀ a b, P [a; b]) → (∀ a b c l, P l → P (a :: b :: c :: l)) → ∀ l, P l.
Proof.
  intros H0 H1 H2 H3. fix IH 1. intros [|a [|b [|c l]]]; [exact H0|apply H1|apply H2|apply H3, IH].
Qed.

Lemma decode64_encode bs : is_bytes bs = true → decode64 (encode64 bs) = Some bs.
Proof.
  induction bs as [|a|a b|a b c bs IH] using list_ind3; simpl; intros H; bool_hyps.
  - done.
  - rewrite !value64_digit by lia. simpl. do 2 f_equal. lia.
  - rewrite !value64_digit by lia. simpl. f_equal. f_equal; [lia|]. f_equal. lia.
  - rewrite !value64_digit by lia. simpl. rewrite IH by done. simpl. f_equal.
    f_equal; [lia|]. f_equal; [lia|]. f_equal. lia.
Qed.

Lemma hex_value_digit n : (n < 16)%N → hex_value (hex_digit n) = Some n.
Proof. intros H. unfold hex_digit, hex_value, is_ascii_digit. repeat case_match; try lia; f_equal; lia. Qed.

Lemma decode_encode bs : pct_decode (encode_bytes bs) = bs.
Proof.
  induction bs as [|b bs IH]; [done|]. change (encode_bytes (b :: bs)) with (encode_byte b ++ encode_bytes bs).
  unfold encode_byte. destruct (_ || _) eqn:E.
  - cbn [app pct_decode]. destruct (N.eqb_spec b 37); [subst; done|]. by rewrite IH.
  - apply orb_false_iff in E as [_ E]. cbn [app pct_decode]. simpl (37 =? 37)%N. cbn match.
    rewrite !hex_value_digit by lia. rewrite IH. f_equal. lia.
Qed.

#[export] Instance mem_coding_laws : UrlCodingLaws mem_coding.
Proof.
  split.
  - done.
  - apply decode64_encode.
  - intros bs. induction bs as [|a|a b|a b c bs IH] using list_ind3; cbn -[N.div N.modulo];
      repeat (apply Forall_cons; split; [apply digit64_char|]); done.
  - intros [|a [|b [|c bs]]]; done.
Qed.

(** ** URLs *)

(** A [file:] URL: a host and the path after its first slash. *)
Record MemUrl := mkUrl { m_host : option str; m_path : str }.

#[export] Instance MemUrl_eq_dec : EqDecision MemUrl.
Proof. solve_decision. Defined.

Definition m_segments (u : MemUrl) : list str := split_char c_slash (m_path u).
Definition with_segments (u : MemUrl) (ss : list str) : MemUrl := mkUrl (m_host u) (join [c_slash] ss).
Definition no_slash (s : str) : str := filter (λ c, c ≠ c_slash) s.

Definition m_parse (s : str) : result str MemUrl :=
  match strip_prefix (lit "file://") s with
  | None => Err (lit "relative URL without a base")
  | Some rest =>
      match split_once c_slash rest with
      | Some (host, path) => Ok (mkUrl (if bool_decide (host = []) then None else Some host) path)
      | None => Ok (mkUrl (if bool_decide (rest = []) then None else Some rest) [])
      end
  end.

Definition m_encode (ss : list str) (s : str) : str :=
  if bool_decide (ss = [[]]) && is_drive_bar s then take 1 s ++ [c_colon] else encode_bytes (as_bytes s).

#[export] Instance mem_urls : UrlOps MemUrl := {
  url_inhabited := populate (mkUrl None []);
  url_parse := m_parse;
  url_from_file_path bs :=
    match strip_prefix [c_slash] bs with
    | Some rest => Some (mkUrl None (join [c_slash] (map encode_bytes (split_char c_slash rest))))
    | None => None
    end;
  url_as_str u := lit "file://" ++ default [] (no_slash <$> m_host u) ++ c_slash :: m_path u;
  url_scheme _ := lit "file";
  url_username _ := [];
  url_password _ := None;
  url_port _ := None;
  url_query _ := None;
  url_fragment _ := None;
  url_host_str u := no_slash <$> m_host u;
  url_path u := c_slash :: m_path u;
  url_path_segments u := Some (m_segments u);
  url_clear_host u := mkUrl None (m_path u);
  url_set_host h u := if bool_decide (h = []) then None else Some (mkUrl (Some h) (m_path u));
  url_set_path p u := mkUrl (m_host u) (tail p);
  segments_clear u := mkUrl (m_host u) [];
  segments_pop u := with_segments u (pop_last (m_segments u));
  segments_pop_if_empty u := with_segments u (pop_if_empty_last (m_segments u));
  segments_push s u := if is_dots s then u else with_segments u (push_onto (m_segments u) (m_encode (m_segments u) s));
}.

Lemma m_segments_no_slash u : Forall (λ s, forallb (negb ∘ is_char c_slash) s = true) (m_segments u).
Proof. apply split_at_all_pieces. Qed.

Lemma segments_with u ss : ss ≠ [] → Forall (λ s, forallb (negb ∘ is_char c_slash) s = true) ss →
  m_segments (with_segments u ss) = ss.
Proof. intros. by apply split_char_join. Qed.

Lemma hex_digit_plain n : (n < 16)%N → hex_digit n ≠ c_slash.
Proof. unfold hex_digit, c_slash. repeat case_match; lia. Qed.

Lemma m_encode_no_slash ss s : forallb (negb ∘ is_char c_slash) (m_encode ss s) = true.
Proof.
  unfold m_encode. destruct (_ && _) eqn:E.
  - bool_hyps. unfold is_drive_bar in H0. destruct s as [|d [|b [|]]]; try done. bool_hyps.
    simpl. unfold is_char, c_slash, is_ascii_alphabetic in *. lia.
  - clear E. induction (as_bytes s) as [|b bs IH]; [done|].
    change (encode_bytes (b :: bs)) with (encode_byte b ++ encode_bytes bs). rewrite forallb_app, IH, andb_true_r.
    unfold encode_byte. destruct (_ || _) eqn:E; simpl.
    + rewrite andb_true_r. unfold compose, base64_char, is_char, c_slash, is_ascii_alphabetic, is_ascii_digit in *. lia.
    + apply orb_false_iff in E as [_ E]. unfold is_char.
      destruct (N.eqb_spec (hex_digit (b / 16)) c_slash) as [Hh|]; [exfalso; revert Hh; apply hex_digit_plain; lia|].
      destruct (N.eqb_spec (hex_digit (b mod 16)) c_slash) as [Hh|]; [exfalso; revert Hh; apply hex_digit_plain; lia|done].
Qed.

Lemma forall_no_slash s : forallb (negb ∘ is_char c_slash) s = true → c_slash ∉ s.
Proof. intros H Hin. rewrite forallb_forall in H. by apply list_elem_of_In, H in Hin. Qed.

Lemma or_root_ne ss : or_root ss ≠ [].
Proof. unfold or_root. by case_bool_decide. Qed.

Lemma or_root_Forall (P : str → Prop) ss : P [] → Forall P ss → Forall P (or_root ss).
Proof. unfold or_root. case_bool_decide; [by constructor|done]. Qed.

Lemma m_parse_bad enc : Forall (λ c, base64_char c = true) enc →
  ∃ u : MemUrl, url_parse (BAD_PATH_URI_PREFIX ++ enc) = Ok u ∧ plain_file u ∧
    url_host_str u = None ∧ url_as_str u = BAD_PATH_URI_PREFIX ++ enc.
Proof.
  intros _. exists (mkUrl None (lit "%00/bad/path/" ++ enc)). split; [|split; [done|split; done]].
  reflexivity.
Qed.

#[export] Instance mem_url_laws : FileUrlLaws MemUrl.
Proof.
  split.
  - intros u _. by exists (m_path u).
  - done.
  - intros u h. simpl. intros (h' & _ & ->)%fmap_Some. unfold no_slash.
    intros [? _]%list_elem_of_filter. done.
  - intros u _. done.
  - intros u [|c p] _ Hh Hl; [done|]. injection Hl as Hc Hl. simpl.
    assert (c = c_slash) as ->. { unfold to_ascii_lower, c_slash in *. repeat case_match; lia. } done.
  - intros u _. done.
  - intros u ss _ [= <-]. split; [done|]. simpl. f_equal. apply segments_with; [apply or_root_ne|].
    apply or_root_Forall; [done|]. apply Forall_take, m_segments_no_slash.
  - intros u ss _ [= <-]. split; [done|]. simpl. f_equal. unfold pop_if_empty_last.
    pose proof (m_segments_no_slash u) as Hns. destruct (_ && _) eqn:E; [|apply segments_with; [apply split_at_all_nonempty|done]].
    apply segments_with; [|by apply Forall_take]. bool_hyps. apply Nat.ltb_lt in H0. intros Ht.
    apply (f_equal length) in Ht. rewrite length_take in Ht. simpl in Ht. lia.
  - intros u ss s _ [= <-] Hd _. simpl. rewrite Hd. split; [done|].
    exists (m_encode (m_segments u) s). split_and!.
    + f_equal. unfold push_onto. case_bool_decide.
      * apply segments_with; [done|]. constructor; [apply m_encode_no_slash|done].
      * apply segments_with; [by destruct (m_segments u)|]. apply Forall_app_2; [apply m_segments_no_slash|].
        constructor; [apply m_encode_no_slash|done].
    + apply forall_no_slash, m_encode_no_slash.
    + unfold m_encode. destruct (_ && _) eqn:E; [right|left; apply decode_encode].
      bool_hyps. split_and!; [done..|]. unfold is_drive_bar in H0. destruct s as [|d [|b [|]]]; try done.
      bool_hyps. simpl. by rewrite H0.
  - by exists (mkUrl None []).
  - apply m_parse_bad.
Qed.

(** A URL from its text. *)
Definition url (s : str) : MemUrl := match uri_parse s with Ok u => u | Err _ => mkUrl None [] end.

Example url_posix : uri_convention (url (lit "file:///home/u/a.rs")) = Some Posix.
Proof. reflexivity. Qed.
Example url_drive : url (lit "file:///c:/src") = mkUrl None (lit "C:/src").
Proof. reflexivity. Qed.
Example url_local : url (lit "file://localhost/etc") = mkUrl None (lit "etc").
Proof. reflexivity. Qed.
Example url_of_path :
  from_abs_path (components (lit "/home/u/a b")) = url (lit "file:///home/u/a%20b") ∧
  uri_is_opaque (from_abs_path (components (lit "/C:/x")) : MemUrl) = true.
Proof. vm_compute. done. Qed.
Example url_unc : uri_convention (url (lit "file://server/share/x")) = Some Windows.
Proof. reflexivity. Qed.
Example url_join_up : uri_join (url (lit "file:///home/u")) (lit "../v/./w") = Ok (url (lit "file:///home/v/w")).
Proof. reflexivity. Qed.
Example url_join_drive : uri_join (url (lit "file:///C:/a")) (lit "..\..\b") = Ok (url (lit "file:///C:/b")).
Proof. reflexivity. Qed.
End PathMem.
