(* ===== verification/FsPolicy.v ===== *)
(** * FsPolicy: the file-system sandbox policy
    ([protocol/src/permissions.rs])

    Entries that grant or deny access to paths, the access they give a path, and the
    protection of workspace metadata.  Paths are [PathUri]s and are resolved against the
    executor's context; the adapters that project paths onto the local host are not here. *)
From S2P Require Import Prelude RustStr UnixPath Utf8Stream Utf8Encode PatchErrors FsInterface PathUri PathText.

(** ** Data *)

(** Derived [Ord]: [Read < Write < Deny]. *)
Inductive FileSystemAccessMode := Read | Write | Deny.

#[export] Instance FileSystemAccessMode_eq_dec : EqDecision FileSystemAccessMode.
Proof. solve_decision. Defined.

Definition access_rank (a : FileSystemAccessMode) : nat :=
  match a with Read => 0 | Write => 1 | Deny => 2 end.
Definition can_read (a : FileSystemAccessMode) : bool :=
  match a with Deny => false | _ => true end.
Definition can_write (a : FileSystemAccessMode) : bool :=
  match a with Write => true | _ => false end.

Inductive FileSystemSpecialPath :=
| Root
| Minimal
| ProjectRoots (subpath : option str)
| Tmpdir
| SlashTmp
| Unknown (path : str) (subpath : option str).

#[export] Instance FileSystemSpecialPath_eq_dec : EqDecision FileSystemSpecialPath.
Proof. solve_decision. Defined.

Inductive FileSystemPath (U : Type) :=
| PathEntry (path : U)
| GlobPattern (pattern : str)
| Special (value : FileSystemSpecialPath).
Arguments PathEntry {U}.
Arguments GlobPattern {U}.
Arguments Special {U}.

Inductive MissingPathBehavior := Skip.

#[export] Instance MissingPathBehavior_eq_dec : EqDecision MissingPathBehavior.
Proof. solve_decision. Defined.

Record FileSystemSandboxEntry (U : Type) := mkEntry {
  entry_path : FileSystemPath U;
  entry_access : FileSystemAccessMode;
  missing_path_behavior : option MissingPathBehavior;
}.
Arguments mkEntry {U}.
Arguments entry_path {U}.
Arguments entry_access {U}.
Arguments missing_path_behavior {U}.

Inductive FileSystemSandboxKind := Restricted | Unrestricted | ExternalSandbox.

#[export] Instance FileSystemSandboxKind_eq_dec : EqDecision FileSystemSandboxKind.
Proof. solve_decision. Defined.

Record FileSystemSandboxPolicy (U : Type) := mkPolicy {
  policy_kind : FileSystemSandboxKind;
  glob_scan_max_depth : option N;
  entries : list (FileSystemSandboxEntry U);
}.
Arguments mkPolicy {U}.
Arguments policy_kind {U}.
Arguments glob_scan_max_depth {U}.
Arguments entries {U}.

Record FileSystemSandboxPolicyContext (U : Type) := mkContext {
  cwd : U;
  workspace_roots : list U;
  user_home_dir : option U;
  temporary_directories : option (list U);
}.
Arguments mkContext {U}.
Arguments cwd {U}.
Arguments workspace_roots {U}.
Arguments user_home_dir {U}.
Arguments temporary_directories {U}.

Definition PROTECTED_METADATA_PATH_NAMES : list str := [lit ".git"; lit ".agents"; lit ".codex"].

(** [is_protected_metadata_name]. *)
Definition is_protected_metadata_name (name : str) : bool :=
  existsb (λ metadata_name, bool_decide (name = metadata_name)) PROTECTED_METADATA_PATH_NAMES.

Section data.
Context {U : Type}.

(** [FileSystemSandboxEntry::new] and [skip_missing_path]. *)
Definition new_entry (path : FileSystemPath U) (access : FileSystemAccessMode) : FileSystemSandboxEntry U :=
  mkEntry path access None.
Definition skip_missing_path (path : FileSystemPath U) (access : FileSystemAccessMode) : FileSystemSandboxEntry U :=
  mkEntry path access (Some Skip).
Definition skips_missing_path (e : FileSystemSandboxEntry U) : bool :=
  bool_decide (missing_path_behavior e = Some Skip).

Definition restricted (es : list (FileSystemSandboxEntry U)) : FileSystemSandboxPolicy U :=
  mkPolicy Restricted None es.
Definition unrestricted : FileSystemSandboxPolicy U := mkPolicy Unrestricted None [].
Definition external_sandbox : FileSystemSandboxPolicy U := mkPolicy ExternalSandbox None [].
Definition read_only_file_system_entries : list (FileSystemSandboxEntry U) := [new_entry (Special Root) Read].
Definition read_only : FileSystemSandboxPolicy U := restricted read_only_file_system_entries.

Definition with_entries (p : FileSystemSandboxPolicy U) (es : list (FileSystemSandboxEntry U)) : FileSystemSandboxPolicy U :=
  mkPolicy (policy_kind p) (glob_scan_max_depth p) es.

Definition remove_skip_missing_path_entries (p : FileSystemSandboxPolicy U) : FileSystemSandboxPolicy U :=
  with_entries p (filter (λ e, skips_missing_path e = false) (entries p)).

Definition is_restricted (p : FileSystemSandboxPolicy U) : bool := bool_decide (policy_kind p = Restricted).

Definition is_special_root (path : FileSystemPath U) : bool :=
  match path with Special Root => true | _ => false end.

Definition has_root_access (p : FileSystemSandboxPolicy U) (predicate : FileSystemAccessMode → bool) : bool :=
  is_restricted p && existsb (λ e, is_special_root (entry_path e) && predicate (entry_access e)) (entries p).

Definition is_deny (e : FileSystemSandboxEntry U) : bool := bool_decide (entry_access e = Deny).

(** [has_denied_read_restrictions]; [SlashTmp] counts on Unix. *)
Definition has_denied_read_restrictions (p : FileSystemSandboxPolicy U) : bool :=
  is_restricted p && existsb is_deny (entries p).

Definition has_full_disk_read_access (p : FileSystemSandboxPolicy U) : bool :=
  match policy_kind p with
  | Unrestricted | ExternalSandbox => true
  | Restricted => has_root_access p can_read && negb (has_denied_read_restrictions p)
  end.

Definition include_platform_defaults (p : FileSystemSandboxPolicy U) : bool :=
  negb (has_full_disk_read_access p) && is_restricted p
  && existsb (λ e, match entry_path e with Special Minimal => can_read (entry_access e) | _ => false end) (entries p).
End data.

Section policy.
Context {U : Type} {UO : UrlOps U} {UC : UrlCoding}.
Implicit Types (p self existing : FileSystemSandboxPolicy U) (e : FileSystemSandboxEntry U)
  (ctx : FileSystemSandboxPolicyContext U) (path root : U).

(** ** Derived equality, with that of [PathUri] *)

Definition fs_path_eq (a b : FileSystemPath U) : bool :=
  match a, b with
  | PathEntry a, PathEntry b => uri_eq a b
  | GlobPattern a, GlobPattern b => bool_decide (a = b)
  | Special a, Special b => bool_decide (a = b)
  | _, _ => false
  end.
Definition entry_eq (a b : FileSystemSandboxEntry U) : bool :=
  fs_path_eq (entry_path a) (entry_path b) && bool_decide (entry_access a = entry_access b)
  && bool_decide (missing_path_behavior a = missing_path_behavior b).
Definition contains_entry (es : list (FileSystemSandboxEntry U)) e : bool := existsb (λ x, entry_eq x e) es.

(** ** Entries with the same target *)

Definition special_path_matches_path_uri (value : FileSystemSpecialPath) path : bool :=
  match value with
  | Root => bool_decide (is_Some (uri_lexical_depth path)) && bool_decide (uri_parent path = None)
  | SlashTmp =>
      bool_decide (uri_convention path = Some Posix) && bool_decide (uri_lexical_depth path = Some 1)
      && bool_decide (uri_basename path = Some (lit "tmp"))
  | _ => false
  end.

Definition special_paths_share_target (left right : FileSystemSpecialPath) : bool :=
  match left, right with
  | Root, Root | Minimal, Minimal | Tmpdir, Tmpdir | SlashTmp, SlashTmp => true
  | ProjectRoots l, ProjectRoots r => bool_decide (l = r)
  | Unknown l ls, Unknown r rs => bool_decide (l = r) && bool_decide (ls = rs)
  | _, _ => false
  end.

Definition file_system_paths_share_target (left right : FileSystemPath U) (c : PathConvention) : bool :=
  match left, right with
  | PathEntry a, PathEntry b => uri_eq a b
  | Special a, Special b => special_paths_share_target a b
  | PathEntry path, Special value | Special value, PathEntry path =>
      bool_decide (uri_convention path = Some c) && special_path_matches_path_uri value path
  | GlobPattern a, GlobPattern b => bool_decide (a = b)
  | GlobPattern _, _ | _, GlobPattern _ => false
  end.

(** ** Full access *)

Definition has_same_target_write_override p e (c : PathConvention) : bool :=
  existsb (λ candidate,
    can_write (entry_access candidate)
    && (access_rank (entry_access e) <? access_rank (entry_access candidate))
    && file_system_paths_share_target (entry_path candidate) (entry_path e) c) (entries p).

Definition narrows_write p (c : PathConvention) e : bool :=
  if can_write (entry_access e) then false
  else match entry_path e with
       | PathEntry _ => negb (has_same_target_write_override p e c)
       | GlobPattern _ => true
       | Special Root => is_deny e
       | Special (Minimal | Unknown _ _) => false
       | Special SlashTmp =>
           if bool_decide (c = Windows) then false else negb (has_same_target_write_override p e c)
       | Special _ => negb (has_same_target_write_override p e c)
       end.
Definition has_write_narrowing_entries p (c : PathConvention) : bool :=
  is_restricted p && existsb (narrows_write p c) (entries p).

Definition has_full_disk_write_access_for_convention p (c : option PathConvention) : bool :=
  match policy_kind p with
  | Unrestricted | ExternalSandbox => true
  | Restricted =>
      match c with
      | Some c => has_root_access p can_write && negb (has_write_narrowing_entries p c)
      | None => false
      end
  end.
Definition has_full_disk_write_access p : bool := has_full_disk_write_access_for_convention p (Some native_convention).
Definition has_full_disk_write_access_with_context p ctx : bool :=
  has_full_disk_write_access_for_convention p (uri_convention (cwd ctx)).

(** ** Resolving entries *)

Definition file_system_root ctx : option U :=
  _ ← uri_lexical_depth (cwd ctx); last (uri_ancestors (cwd ctx)).

Definition resolve_special ctx (value : FileSystemSpecialPath) : list U :=
  match value with
  | Root => option_list (file_system_root ctx)
  | ProjectRoots subpath =>
      omap (λ root, match subpath with
                    | Some subpath => ok (uri_join root subpath)
                    | None => Some root
                    end) (workspace_roots ctx)
  | Tmpdir => default [] (temporary_directories ctx)
  | SlashTmp =>
      if bool_decide (uri_convention (cwd ctx) = Some Posix)
      then option_list (ok (uri_join (cwd ctx) (lit "/tmp"))) else []
  | Minimal | Unknown _ _ => []
  end.

Definition resolve_entry ctx e : list (U * FileSystemAccessMode) :=
  let paths := match entry_path e with
               | PathEntry path => [path]
               | GlobPattern _ => []
               | Special value => resolve_special ctx value
               end in
  map (λ path, (path, entry_access e))
    (filter (λ path, uri_convention path = uri_convention (cwd ctx)) paths).

Definition resolved_entries p ctx : list (U * FileSystemAccessMode) :=
  flat_map (resolve_entry ctx) (entries p).

(** ** Access *)

(** The [try_fold]: each root with its depth; opaque roots are left out, and a root whose
    components are ambiguous stops the fold. *)
Fixpoint with_depths (es : list (U * FileSystemAccessMode)) : option (list (U * FileSystemAccessMode * nat)) :=
  match es with
  | [] => Some []
  | (root, access) :: es =>
      match uri_lexical_depth root with
      | Some depth => rest ← with_depths es; Some ((root, access, depth) :: rest)
      | None => if uri_is_opaque root then with_depths es else None
      end
  end.

(** [max_by_key] on [(depth, access)]: the last of the greatest. *)
Definition key_lt (a b : nat * FileSystemAccessMode) : bool :=
  (a.1 <? b.1) || (a.1 =? b.1) && (access_rank a.2 <? access_rank b.2).
Definition entry_key (x : U * FileSystemAccessMode * nat) : nat * FileSystemAccessMode := (x.2, x.1.2).
Definition max_by_key (xs : list (U * FileSystemAccessMode * nat)) : option (U * FileSystemAccessMode * nat) :=
  foldl (λ best x, match best with
                   | None => Some x
                   | Some b => if key_lt (entry_key x) (entry_key b) then Some b else Some x
                   end) None xs.

Definition resolve_access p path ctx : FileSystemAccessMode :=
  match policy_kind p with
  | Unrestricted | ExternalSandbox => Write
  | Restricted =>
      match uri_convention (cwd ctx) with
      | None => Deny
      | Some convention =>
          if negb (bool_decide (uri_convention path = Some convention))
             || bool_decide (uri_lexical_depth path = None) || bool_decide (uri_lexical_depth (cwd ctx) = None)
          then Deny
          else match with_depths (resolved_entries p ctx) with
               | None => Deny
               | Some es =>
                   match max_by_key (filter (λ x, uri_starts_with path x.1.1 = true) es) with
                   | Some (_, access, _) => access
                   | None => Deny
                   end
               end
      end
  end.

(** [FileSystemSandboxPolicy::can_read_path] ([permissions/target.rs]). *)
Definition can_read_path p path ctx : bool := can_read (resolve_access p path ctx).

(** ** Workspace metadata *)

(** The protected directory under [root] that [path] lies in. *)
Definition protected_under path root : option (U * str) :=
  head (omap (λ metadata_name,
          protected ← ok (uri_join_descendant root metadata_name);
          if uri_starts_with path protected then Some (protected, metadata_name) else None)
        PROTECTED_METADATA_PATH_NAMES).

Definition writable_roots p ctx : list U :=
  map fst (filter (λ x, can_write x.2 = true) (resolved_entries p ctx)).

Definition metadata_write_denial p path ctx : option str :=
  if negb (is_restricted p) then None
  else
    found ← head (omap (protected_under path) (writable_roots p ctx));
    let '(protected, metadata_name) := found in
    if existsb (λ root, uri_starts_with path root && uri_starts_with root protected) (writable_roots p ctx)
    then None else Some metadata_name.

Definition can_write_path p path ctx : bool :=
  can_write (resolve_access p path ctx)
  && (has_full_disk_write_access_with_context p ctx || bool_decide (metadata_write_denial p path ctx = None)).

(** [forbidden_agent_metadata_write], on the executor's paths. *)
Definition forbidden_metadata_write p path ctx : option str :=
  if negb (is_restricted p) then None
  else
    name ← metadata_write_denial p path ctx;
    if can_write_path p path ctx then None else Some name.

Definition has_configured_writable_roots p ctx : bool :=
  negb (has_full_disk_write_access_with_context p ctx)
  && existsb (λ '(path, access), can_write access && can_write_path p path ctx) (resolved_entries p ctx).

(** ** Changing a policy *)

(** [for deny_entry in existing: push it unless an equal entry is there]. *)
Definition push_missing (es : list (FileSystemSandboxEntry U)) e : list (FileSystemSandboxEntry U) :=
  if contains_entry es e then es else es ++ [e].
Definition deny_entries p : list (FileSystemSandboxEntry U) := filter (λ e, is_deny e = true) (entries p).

Definition preserve_deny_read_restrictions_from self existing : FileSystemSandboxPolicy U :=
  let has_deny_read_entries := existsb is_deny (entries existing) in
  let self :=
    if bool_decide (policy_kind self = Unrestricted) && has_deny_read_entries
    then restricted [new_entry (Special Root) Write] else self in
  if negb (is_restricted self) then self
  else
    mkPolicy (policy_kind self)
      (match glob_scan_max_depth self with None => glob_scan_max_depth existing | d => d end)
      (foldl push_missing (entries self) (deny_entries existing)).

(** [append_default_read_only_entry_if_no_explicit_rule]. *)
Definition append_default_read_only_entry (es : list (FileSystemSandboxEntry U)) (path : FileSystemPath U) :
    list (FileSystemSandboxEntry U) :=
  if existsb (λ e, file_system_paths_share_target (entry_path e) path native_convention) es then es
  else es ++ [skip_missing_path path Read].

(** [workspace_write] without concrete roots. *)
Definition workspace_write (exclude_tmpdir_env_var exclude_slash_tmp : bool) : FileSystemSandboxPolicy U :=
  let es := [new_entry (Special Root) Read; new_entry (Special (ProjectRoots None)) Write]
            ++ (if exclude_slash_tmp then [] else [new_entry (Special SlashTmp) Write])
            ++ (if exclude_tmpdir_env_var then [] else [new_entry (Special Tmpdir) Write]) in
  restricted (foldl (λ es subpath, append_default_read_only_entry es (Special (ProjectRoots (Some subpath))))
                es PROTECTED_METADATA_PATH_NAMES).
End policy.
