(* ===== verification/FsPolicyFacts.v ===== *)
(** * FsPolicyFacts: what access a policy gives

    The access of a path is the one of its most specific entry; it does not depend on the
    order of the entries; claims of full access are true; denials that are carried over
    only narrow a policy; workspace metadata is protected. *)
From Stdlib Require Import ZifyBool.
From S2P Require Import Prelude RustStr PatchErrors FsInterface Utf8Stream UnixPath Utf8Encode PathUri PathUriLaws PathJoinFacts PathText FsPolicy.

(** ** Keys *)

Lemma access_rank_inj a b : access_rank a = access_rank b → a = b.
Proof. by destruct a, b. Qed.

Lemma key_lt_spec a b : key_lt a b = true ↔ a.1 < b.1 ∨ a.1 = b.1 ∧ access_rank a.2 < access_rank b.2.
Proof. unfold key_lt. lia. Qed.

(** Keys that are not less than each other are the same. *)
Lemma key_total a b : key_lt a b = false → key_lt b a = false → a = b.
Proof.
  destruct a as [n a], b as [m b]. unfold key_lt. simpl. intros. assert (n = m) as -> by lia.
  f_equal. apply access_rank_inj. lia.
Qed.

Lemma key_lt_trans a b c : key_lt a b = false → key_lt b c = false → key_lt a c = false.
Proof. unfold key_lt. lia. Qed.

Lemma key_lt_irrefl a : key_lt a a = false.
Proof. unfold key_lt. lia. Qed.

Section access.
Context {U : Type} {UO : UrlOps U} {UC : UrlCoding}.
Implicit Types (p : FileSystemSandboxPolicy U) (e : FileSystemSandboxEntry U)
  (ctx : FileSystemSandboxPolicyContext U) (path root : U) (x y : U * FileSystemAccessMode * nat).

(** [x] is among [xs], and none has a greater key. *)
Definition greatest x (xs : list (U * FileSystemAccessMode * nat)) : Prop :=
  x ∈ xs ∧ ∀ y, y ∈ xs → key_lt (entry_key x) (entry_key y) = false.

Lemma max_by_key_spec xs :
  match max_by_key xs with Some x => greatest x xs | None => xs = [] end.
Proof.
  unfold max_by_key. induction xs as [|y xs IH] using rev_ind; [done|]. rewrite foldl_app. cbn [foldl].
  destruct (foldl _ None xs) as [b|].
  - destruct IH as [Hb Hmax]. destruct (key_lt (entry_key y) (entry_key b)) eqn:E.
    + split; [apply elem_of_app; by left|]. intros z [Hz|Hz]%elem_of_app; [by apply Hmax|].
      apply list_elem_of_singleton in Hz as ->. clear -E. unfold key_lt in *. lia.
    + split; [apply elem_of_app; right; by apply list_elem_of_singleton|].
      intros z [Hz|Hz]%elem_of_app; [by eapply key_lt_trans, Hmax|].
      apply list_elem_of_singleton in Hz as ->. apply key_lt_irrefl.
  - subst. split; [by apply list_elem_of_singleton|]. intros z ->%list_elem_of_singleton. apply key_lt_irrefl.
Qed.

Lemma greatest_key x y xs ys : (∀ z, z ∈ xs ↔ z ∈ ys) → greatest x xs → greatest y ys → entry_key x = entry_key y.
Proof.
  intros Hiff [Hx Hmx] [Hy Hmy]. apply key_total; [apply Hmx|apply Hmy]; by apply Hiff.
Qed.

(** ** The access of a path *)

(** The path and the working directory can be compared with entries. *)
Definition in_context path ctx (c : PathConvention) : Prop :=
  uri_convention (cwd ctx) = Some c ∧ uri_convention path = Some c ∧
  is_Some (uri_lexical_depth path) ∧ is_Some (uri_lexical_depth (cwd ctx)).

Definition applicable path (es : list (U * FileSystemAccessMode * nat)) : list (U * FileSystemAccessMode * nat) :=
  filter (λ x, uri_starts_with path x.1.1 = true) es.

Lemma resolve_access_in_context p path ctx c : policy_kind p = Restricted → in_context path ctx c →
  resolve_access p path ctx =
  match with_depths (resolved_entries p ctx) with
  | None => Deny
  | Some es => match max_by_key (applicable path es) with Some (_, access, _) => access | None => Deny end
  end.
Proof.
  intros Hk (Hc & Hp & [n Hn] & [m Hm]). unfold resolve_access. rewrite Hk, Hc, Hp, Hn, Hm.
  rewrite bool_decide_true by done. by rewrite !bool_decide_false by done.
Qed.

Lemma in_some_context path ctx : (∃ c, in_context path ctx c) ∨ ¬ ∃ c, in_context path ctx c.
Proof.
  destruct (uri_convention (cwd ctx)) as [c|] eqn:Hc; [|right; intros (c & ? & _); congruence].
  destruct (decide (uri_convention path = Some c)); [|right; intros (c' & ? & ? & _); congruence].
  destruct (decide (is_Some (uri_lexical_depth path))); [|right; intros (c' & ? & ? & ? & _); done].
  destruct (decide (is_Some (uri_lexical_depth (cwd ctx)))); [|right; intros (c' & ? & ? & ? & ?); done].
  left. by exists c.
Qed.

Lemma resolve_access_outside p path ctx : policy_kind p = Restricted →
  (¬ ∃ c, in_context path ctx c) → resolve_access p path ctx = Deny.
Proof.
  intros Hk Hout. unfold resolve_access. rewrite Hk. destruct (uri_convention (cwd ctx)) as [c|] eqn:Hc; [|done].
  destruct (negb _ || _ || _) eqn:E; [done|]. exfalso. apply Hout. exists c.
  apply orb_false_iff in E as [[E1 E2]%orb_false_iff E3]. bool_hyps.
  split_and!; try done; by apply not_eq_None_Some.
Qed.

(** The access is that of the applicable entry of the greatest depth, and of the
    strictest access at that depth. *)
Lemma resolve_access_greatest p path ctx c es :
  policy_kind p = Restricted → in_context path ctx c → with_depths (resolved_entries p ctx) = Some es →
  (applicable path es = [] ∧ resolve_access p path ctx = Deny) ∨
  ∃ x, greatest x (applicable path es) ∧ resolve_access p path ctx = x.1.2.
Proof.
  intros Hk Hin Hes. rewrite (resolve_access_in_context p path ctx c Hk Hin), Hes.
  pose proof (max_by_key_spec (applicable path es)) as H. destruct (max_by_key _) as [[[r a] d]|]; [|auto].
  right. by eexists.
Qed.

(** ** Depths *)

Definition has_depth (r : U * FileSystemAccessMode) : Prop := is_Some (uri_lexical_depth r.1) ∨ uri_is_opaque r.1 = true.

Lemma with_depths_None es : with_depths es = None ↔ ¬ Forall has_depth es.
Proof.
  induction es as [|[r a] es IH]; simpl; [split; [done|]; intros H; by destruct H|].
  rewrite Forall_cons. unfold has_depth at 1. cbn [fst].
  destruct (uri_lexical_depth r) as [d|] eqn:Hd.
  - destruct (with_depths es); simpl; naive_solver.
  - destruct (uri_is_opaque r); [naive_solver|]. split; [|done]. intros _ [[[? ?]|?] _]; congruence.
Qed.

Lemma with_depths_elem es ds r a d : with_depths es = Some ds →
  (r, a, d) ∈ ds ↔ (r, a) ∈ es ∧ uri_lexical_depth r = Some d.
Proof.
  revert ds. induction es as [|[r' a'] es IH]; simpl; intros ds Hds.
  - injection Hds as <-. rewrite !elem_of_nil. naive_solver.
  - rewrite elem_of_cons. destruct (uri_lexical_depth r') as [d'|] eqn:Hd.
    + destruct (with_depths es) as [ds'|] eqn:E; [|done]. injection Hds as <-.
      rewrite elem_of_cons, (IH ds' eq_refl). naive_solver.
    + destruct (uri_is_opaque r'); [|done]. rewrite (IH ds Hds). naive_solver.
Qed.

(** What an applicable entry is. *)
Lemma applicable_elem p ctx es path r a d : with_depths (resolved_entries p ctx) = Some es →
  (r, a, d) ∈ applicable path es ↔
  (r, a) ∈ resolved_entries p ctx ∧ uri_lexical_depth r = Some d ∧ uri_starts_with path r = true.
Proof.
  intros Hes. unfold applicable. rewrite list_elem_of_filter, (with_depths_elem _ _ _ _ _ Hes). cbn [fst]. tauto.
Qed.

Lemma resolved_elem p ctx r a :
  (r, a) ∈ resolved_entries p ctx ↔ ∃ e, e ∈ entries p ∧ entry_access e = a ∧
    uri_convention r = uri_convention (cwd ctx) ∧
    match entry_path e with
    | PathEntry q => r = q
    | GlobPattern _ => False
    | Special v => r ∈ resolve_special ctx v
    end.
Proof.
  unfold resolved_entries. rewrite elem_of_flat_map.
  apply exist_proper. intros e. unfold resolve_entry. rewrite elem_of_map.
  setoid_rewrite list_elem_of_filter. split.
  - intros (He & x & [= -> <-] & Hc & Hx). split_and!; [done..|].
    destruct (entry_path e); [by apply list_elem_of_singleton in Hx|by apply elem_of_nil in Hx|done].
  - intros (He & <- & Hc & Hx). split; [done|]. exists r. split_and!; [done..|].
    destruct (entry_path e); [by apply list_elem_of_singleton|done|done].
Qed.

(** ** The deepest entries that contain a path *)

(** The roots an entry names: its path, or the paths its special path stands for, written
    as those of the working directory are. *)
Definition entry_names ctx e root : Prop :=
  uri_convention root = uri_convention (cwd ctx) ∧
  match entry_path e with
  | PathEntry q => root = q
  | GlobPattern _ => False
  | Special v => root ∈ resolve_special ctx v
  end.

(** An entry of the policy that contains the path from a root of that depth. *)
Definition covered_at p path ctx (access : FileSystemAccessMode) (depth : nat) : Prop :=
  ∃ e root, e ∈ entries p ∧ entry_access e = access ∧ entry_names ctx e root ∧
    uri_lexical_depth root = Some depth ∧ uri_starts_with path root = true.

(** Every root can be compared with the path, or is opaque and is left out. *)
Definition comparable_roots p ctx : Prop :=
  ∀ e root, e ∈ entries p → entry_names ctx e root → is_Some (uri_lexical_depth root) ∨ uri_is_opaque root = true.

Lemma resolved_names p ctx r a : (r, a) ∈ resolved_entries p ctx ↔
  ∃ e, e ∈ entries p ∧ entry_access e = a ∧ entry_names ctx e r.
Proof. rewrite resolved_elem. unfold entry_names. naive_solver. Qed.

Lemma comparable_has_depth p ctx : comparable_roots p ctx ↔ Forall has_depth (resolved_entries p ctx).
Proof.
  rewrite Forall_forall. unfold comparable_roots, has_depth. split.
  - intros H [r a] (e & He & _ & Hn)%resolved_names. by eapply H.
  - intros H e r He Hn. apply (H (r, entry_access e)). apply resolved_names. by exists e.
Qed.

Lemma applicable_covered p ctx es path a d : with_depths (resolved_entries p ctx) = Some es →
  (∃ r, (r, a, d) ∈ applicable path es) ↔ covered_at p path ctx a d.
Proof.
  intros Hes. unfold covered_at. setoid_rewrite (applicable_elem p ctx es path _ a d Hes). setoid_rewrite resolved_names. naive_solver.
Qed.

(** The access is one that covers the path at the greatest depth, and the strictest there. *)
Lemma resolve_access_deepest p path ctx c : policy_kind p = Restricted → in_context path ctx c → comparable_roots p ctx →
  ((∀ a n, ¬ covered_at p path ctx a n) ∧ resolve_access p path ctx = Deny) ∨
  ∃ n, covered_at p path ctx (resolve_access p path ctx) n ∧
    ∀ a m, covered_at p path ctx a m → m < n ∨ m = n ∧ access_rank a ≤ access_rank (resolve_access p path ctx).
Proof.
  intros Hk Hin Hcomp%comparable_has_depth. destruct (with_depths (resolved_entries p ctx)) as [es|] eqn:Hes; [|by apply with_depths_None in Hes].
  destruct (resolve_access_greatest p path ctx c es Hk Hin Hes) as [[Hnil Ha]|([[r a] d] & [Hx Hmax] & Ha)]; [left|right].
  - split; [|done]. intros a n (r & Hr)%(applicable_covered p ctx es path a n Hes). rewrite Hnil in Hr. by apply elem_of_nil in Hr.
  - exists d. simpl in Ha. rewrite Ha. split; [apply (applicable_covered p ctx es path a d Hes); by exists r|].
    intros a' m (r' & Hr')%(applicable_covered p ctx es path a' m Hes). apply Hmax in Hr'. apply not_true_iff_false in Hr'.
    rewrite key_lt_spec in Hr'. simpl in Hr'. lia.
Qed.

(** ** The order of entries does not matter *)

Lemma resolve_access_same_entries p p' path ctx :
  policy_kind p = policy_kind p' →
  (∀ e, e ∈ entries p ↔ e ∈ entries p') →
  resolve_access p path ctx = resolve_access p' path ctx.
Proof.
  intros Hk He. destruct (policy_kind p) eqn:Hkp; symmetry in Hk;
    [|unfold resolve_access; by rewrite Hkp, Hk|unfold resolve_access; by rewrite Hkp, Hk].
  assert (∀ r a, (r, a) ∈ resolved_entries p ctx ↔ (r, a) ∈ resolved_entries p' ctx) as Hr.
  { intros r a. rewrite !resolved_elem. by setoid_rewrite He. }
  destruct (in_some_context path ctx) as [[c Hin]|Hout]; [|by rewrite !resolve_access_outside].
  rewrite (resolve_access_in_context p path ctx c), (resolve_access_in_context p' path ctx c) by done.
  assert (with_depths (resolved_entries p ctx) = None ↔ with_depths (resolved_entries p' ctx) = None) as Hnone.
  { rewrite !with_depths_None. apply not_iff_compat. rewrite !Forall_forall. split; intros H [r a] Hra; by apply H, Hr. }
  destruct (with_depths (resolved_entries p ctx)) as [es|] eqn:Hes;
    destruct (with_depths (resolved_entries p' ctx)) as [es'|] eqn:Hes'; [|naive_solver..].
  assert (∀ x, x ∈ applicable path es ↔ x ∈ applicable path es') as Happ.
  { intros [[r a] d]. rewrite (applicable_elem p ctx es), (applicable_elem p' ctx es'), Hr by done. done. }
  pose proof (max_by_key_spec (applicable path es)) as H1. pose proof (max_by_key_spec (applicable path es')) as H2.
  destruct (max_by_key (applicable path es)) as [x|], (max_by_key (applicable path es')) as [x'|].
  - pose proof (greatest_key _ _ _ _ Happ H1 H2) as Heq. destruct x as [[? ?] ?], x' as [[? ?] ?].
    by injection Heq.
  - destruct H1 as [Hx _]. rewrite Happ, H2 in Hx. by apply elem_of_nil in Hx.
  - destruct H2 as [Hx _]. rewrite <- Happ, H1 in Hx. by apply elem_of_nil in Hx.
  - done.
Qed.

(** ** More denials narrow *)

(** [p'] is [p] with denials added at the end. *)
Definition adds_denials p p' : Prop :=
  policy_kind p = Restricted ∧ policy_kind p' = Restricted ∧
  ∃ added, entries p' = entries p ++ added ∧ Forall (λ e, entry_access e = Deny) added.

Lemma adds_denials_resolved p p' ctx : adds_denials p p' →
  ∃ added, resolved_entries p' ctx = resolved_entries p ctx ++ added ∧ Forall (λ z, z.2 = Deny) added.
Proof.
  intros (_ & _ & added & He & Hd). exists (flat_map (resolve_entry ctx) added). split.
  - unfold resolved_entries. by rewrite He, flat_map_app.
  - apply Forall_forall. intros [r a] (e & Hin & Hr)%elem_of_flat_map. unfold resolve_entry in Hr.
    apply elem_of_map in Hr as (q & [= -> ->] & _). rewrite Forall_forall in Hd. by apply Hd.
Qed.

Lemma adds_denials_access p p' path ctx : adds_denials p p' →
  resolve_access p' path ctx = resolve_access p path ctx ∨ resolve_access p' path ctx = Deny.
Proof.
  intros Hadd. pose proof Hadd as (Hk & Hk' & _). destruct (adds_denials_resolved p p' ctx Hadd) as (added & Hr & Hd).
  destruct (in_some_context path ctx) as [[c Hin]|Hout]; [|right; by apply resolve_access_outside].
  destruct (with_depths (resolved_entries p' ctx)) as [es'|] eqn:Hes'.
  2: { right. rewrite (resolve_access_in_context p' path ctx c) by done. by rewrite Hes'. }
  destruct (with_depths (resolved_entries p ctx)) as [es|] eqn:Hes.
  2: { exfalso. apply with_depths_None in Hes. apply Hes.
       destruct (decide (Forall has_depth (resolved_entries p' ctx))) as [Hf|Hf]; [rewrite Hr in Hf; by apply Forall_app in Hf as [? _]|].
       apply with_depths_None in Hf. congruence. }
  assert (∀ r a d, (r, a, d) ∈ applicable path es' → a = Deny ∨ (r, a, d) ∈ applicable path es) as Hold.
  { intros r a d. rewrite (applicable_elem p' ctx es'), (applicable_elem p ctx es), Hr, elem_of_app by done.
    intros ([?|H] & ? & ?); [by right|left]. rewrite Forall_forall in Hd. by apply (Hd (r, a)). }
  assert (∀ x, x ∈ applicable path es → x ∈ applicable path es') as Hsub.
  { intros [[r a] d]. rewrite (applicable_elem p' ctx es'), (applicable_elem p ctx es), Hr, elem_of_app by done. tauto. }
  destruct (resolve_access_greatest p' path ctx c es' Hk' Hin Hes') as [[_ ?]|(x' & [Hx' Hmax] & Ha')]; [by right|].
  destruct x' as [[r' a'] d']. destruct (Hold _ _ _ Hx') as [->|Hx]; [by right|left].
  rewrite Ha'. destruct (resolve_access_greatest p path ctx c es Hk Hin Hes) as [[H _]|(x & Hx1 & ->)].
  { rewrite H in Hx. by apply elem_of_nil in Hx. }
  assert (entry_key (r', a', d') = entry_key x) as Heq.
  { apply (greatest_key _ _ (applicable path es) (applicable path es)); [done| |done]. split; [done|].
    intros y Hy. by apply Hmax, Hsub. }
  destruct x as [[? ?] ?]. by injection Heq.
Qed.

Lemma adds_denials_writable_roots p p' ctx : adds_denials p p' → writable_roots p' ctx = writable_roots p ctx.
Proof.
  intros Hadd. destruct (adds_denials_resolved p p' ctx Hadd) as (added & Hr & Hd).
  unfold writable_roots. rewrite Hr, filter_app, map_app.
  assert (filter (λ x : U * FileSystemAccessMode, can_write x.2 = true) added = []) as ->; [|by rewrite app_nil_r].
  clear Hr. induction Hd as [|[r a] added Ha Hd IH]; [done|]. simpl in Ha. subst.
  rewrite filter_cons_False by (by simpl). done.
Qed.

Lemma existsb_app_impl {A} (f g : A → bool) l k : (∀ z, f z = true → g z = true) →
  existsb f l = true → existsb g (l ++ k) = true.
Proof.
  intros H. rewrite !existsb_elem. intros (x & Hx & Hf). exists x. split; [|auto]. apply elem_of_app. by left.
Qed.

Lemma adds_denials_override p p' e c : adds_denials p p' →
  has_same_target_write_override p' e c = has_same_target_write_override p e c.
Proof.
  intros (_ & _ & added & He & Hd). unfold has_same_target_write_override. rewrite He, existsb_app.
  rewrite (existsb_none _ added); [by rewrite orb_false_r|].
  intros z Hz. rewrite Forall_forall in Hd. by rewrite (Hd z Hz).
Qed.

Lemma adds_denials_full_write p p' c : adds_denials p p' →
  has_full_disk_write_access_for_convention p' c = true → has_full_disk_write_access_for_convention p c = true.
Proof.
  intros Hadd. pose proof Hadd as (Hk & Hk' & added & He & Hd). unfold has_full_disk_write_access_for_convention.
  rewrite Hk, Hk'. destruct c as [c|]; [|done]. rewrite !andb_true_iff, !negb_true_iff.
  unfold has_root_access, has_write_narrowing_entries, is_restricted. rewrite Hk, Hk', !bool_decide_true by done.
  cbn [andb]. intros [Hroot Hn]. split.
  - rewrite He, existsb_app in Hroot. apply orb_true_iff in Hroot as [?|Hroot]; [done|].
    apply existsb_elem in Hroot as (x & Hx & Hf). rewrite Forall_forall in Hd. rewrite (Hd x Hx), andb_false_r in Hf. done.
  - apply not_true_iff_false. intros H. apply not_true_iff_false in Hn. apply Hn. rewrite He.
    eapply existsb_app_impl; [|exact H]. intros e. unfold narrows_write. by rewrite (adds_denials_override p p').
Qed.

Lemma adds_denials_can_write p p' path ctx : adds_denials p p' →
  can_write_path p' path ctx = true → can_write_path p path ctx = true.
Proof.
  intros Hadd. unfold can_write_path. rewrite !andb_true_iff, !orb_true_iff. intros [Hw Hf]. split.
  - destruct (adds_denials_access p p' path ctx Hadd) as [<-|H]; [done|by rewrite H in Hw].
  - unfold metadata_write_denial in *. rewrite (adds_denials_writable_roots p p' ctx Hadd) in Hf.
    unfold is_restricted in *. destruct Hadd as (Hk & Hk' & Hrest). rewrite Hk, Hk' in *.
    destruct Hf as [Hf|Hf]; [left|by right]. eapply (adds_denials_full_write p p'); [by split|done].
Qed.

(** [push_missing] appends the entries that are not there. *)
Lemma entry_eq_refl e : entry_eq e e = true.
Proof.
  unfold entry_eq. rewrite !bool_decide_true by done. rewrite !andb_true_r.
  destruct (entry_path e); simpl; [apply (reflexivity (R := uri_equiv))|by rewrite bool_decide_true..].
Qed.

Lemma contains_entry_elem es e : e ∈ es → contains_entry es e = true.
Proof. intros. apply existsb_elem. exists e. split; [done|apply entry_eq_refl]. Qed.

Lemma contains_entry_app es es' e : contains_entry es e = true → contains_entry (es ++ es') e = true.
Proof. unfold contains_entry. by apply existsb_app_impl. Qed.

Lemma push_all_missing ds es : ∃ added, foldl push_missing es ds = es ++ added ∧ Forall (λ e, e ∈ ds) added ∧
  Forall (λ e, contains_entry (es ++ added) e = true) ds.
Proof.
  revert es. induction ds as [|d ds IH]; intros es; [exists []; by rewrite app_nil_r|]. cbn [foldl].
  destruct (IH (push_missing es d)) as (added & H1 & H2 & H3). unfold push_missing in *.
  destruct (contains_entry es d) eqn:E.
  - exists added. split; [done|]. split; [eapply Forall_impl; [exact H2|]; intros; by right|].
    apply Forall_cons. split; [|done]. by apply contains_entry_app.
  - exists (d :: added). rewrite H1, <- app_assoc. split; [done|]. split.
    + apply Forall_cons. split; [left|]. eapply Forall_impl; [exact H2|]. intros; by right.
    + apply Forall_cons. split; [|by rewrite <- app_assoc in H3]. apply contains_entry_elem, elem_of_app.
      right. left.
Qed.
End access.

(** * What the file-system policy promises

    Full access on POSIX hosts, denials carried over, protected metadata. *)

Section spec.
Context {U : Type} {UO : UrlOps U} {UC : UrlCoding} {UCL : UrlCodingLaws UC} {UL : FileUrlLaws U}.
Implicit Types (p : FileSystemSandboxPolicy U) (e : FileSystemSandboxEntry U)
  (ctx : FileSystemSandboxPolicyContext U) (path root q : U).

(** ** POSIX hosts *)

Lemma posix_place path : uri_convention path = Some Posix → is_Some (uri_lexical_depth path) →
  ∃ ks, uri_place path = Some (None, Posix, ks).
Proof.
  intros Hc Hd. rewrite uri_place_depth in Hd. destruct (uri_place path) as [[[h c] ks]|] eqn:Hp; [|by destruct Hd].
  pose proof Hp as (Hb & Hh & Hc' & _)%uri_place_Some. assert (c = Posix) as -> by congruence.
  rewrite uri_convention_plain, Hh in Hc by done. destruct h; [done|eauto].
Qed.

(** The root of the file system contains every path. *)
Lemma posix_root ctx : valid_uri (cwd ctx) → uri_convention (cwd ctx) = Some Posix →
  is_Some (uri_lexical_depth (cwd ctx)) →
  ∃ r, file_system_root ctx = Some r ∧ valid_uri r ∧ uri_place r = Some (None, Posix, []).
Proof.
  intros Hv Hc Hd. destruct (posix_place _ Hc Hd) as [ks Hks].
  destruct (uri_ancestors_spec (cwd ctx) Hv) as (Hall & r & Hr & Hn).
  assert (above (cwd ctx) r) as [Hvr Har].
  { rewrite Forall_forall in Hall. apply Hall. apply last_Some in Hr as [l ->].
    apply elem_of_app. right. by left. }
  destruct (Har _ _ _ Hks) as (ks' & Hp & _). exists r. split_and!.
  - unfold file_system_root. destruct Hd as [n ->]. simpl. done.
  - done.
  - apply uri_root_posix; [done| | |done].
    + by apply uri_place_Some in Hp as (_ & _ & ? & _).
    + rewrite uri_place_depth, Hp. eauto.
Qed.

Lemma place_starts_with u v h c ks : uri_place u = Some (h, c, ks) → uri_place v = Some (h, c, []) → uri_starts_with u v = true.
Proof. intros Hu Hv. apply uri_starts_with_spec. right. do 4 eexists. split_and!; [done..|]. apply prefix_nil. Qed.

Lemma same_place_starts_with path u v : uri_convention u = Some Posix → uri_place u = uri_place v →
  is_Some (uri_place u) → uri_starts_with path u = true → uri_starts_with path v = true.
Proof.
  intros Hc Heq [x Hx] [He|(h & c & ks & bs & H1 & H2 & H3)]%uri_starts_with_spec; apply uri_starts_with_spec.
  - symmetry in He. apply uri_equiv_posix in He as <-; [|done]. right. destruct x as [[h c] ks].
    do 4 eexists. split_and!; [done|by rewrite <- Heq|done].
  - right. do 4 eexists. split_and!; [done|by rewrite <- Heq|done].
Qed.

(** What the root entry gives on a POSIX host: an applicable entry of depth zero. *)
Lemma root_entry_applies p ctx es path r a : with_depths (resolved_entries p ctx) = Some es →
  in_context path ctx Posix → file_system_root ctx = Some r → uri_place r = Some (None, Posix, []) →
  (∃ e, e ∈ entries p ∧ entry_path e = Special Root ∧ entry_access e = a) →
  (r, a, 0) ∈ applicable path es.
Proof.
  intros Hes (Hc & Hp & Hd & _) Hr Hpl (e & He & Hpath & <-). apply (applicable_elem p ctx es); [done|].
  pose proof Hpl as (_ & _ & Hcr & _)%uri_place_Some. split_and!.
  - apply resolved_elem. exists e. rewrite Hpath. cbn [resolve_special]. rewrite Hr. split_and!; [done|done|congruence|].
    by apply list_elem_of_singleton.
  - rewrite uri_place_depth, Hpl. done.
  - destruct (posix_place path Hp Hd) as [ks Hks]. by eapply place_starts_with.
Qed.

Lemma has_root_access_elem p f : has_root_access p f = true →
  ∃ e, e ∈ entries p ∧ entry_path e = Special Root ∧ f (entry_access e) = true.
Proof.
  unfold has_root_access. intros [_ (e & He & [Hr Hf]%andb_true_iff)%existsb_elem]%andb_true_iff.
  exists e. split_and!; [done| |done]. unfold is_special_root in Hr. by repeat case_match.
Qed.

Lemma full_disk_read p path ctx : in_context path ctx Posix → valid_uri (cwd ctx) →
  Forall has_depth (resolved_entries p ctx) →
  has_full_disk_read_access p = true → can_read_path p path ctx = true.
Proof.
  intros Hin Hv Hdep Hfull. unfold can_read_path. destruct (policy_kind p) eqn:Hk;
    [|unfold resolve_access; by rewrite Hk..]. unfold has_full_disk_read_access in Hfull. rewrite Hk in Hfull.
  apply andb_true_iff in Hfull as [(e & He & Hroot & Hread)%has_root_access_elem Hdeny].
  destruct (with_depths (resolved_entries p ctx)) as [es|] eqn:Hes; [|by apply with_depths_None in Hes].
  destruct Hin as (Hc & Hin). destruct (posix_root ctx Hv Hc) as (r & Hr & _ & Hpl); [naive_solver|].
  assert ((r, entry_access e, 0) ∈ applicable path es) as Happ.
  { eapply root_entry_applies; [done|by split|done|done|eauto]. }
  destruct (resolve_access_greatest p path ctx Posix es Hk) as [[H _]|([[r' a] d] & [Hx _] & ->)]; [by split|done| |].
  { rewrite H in Happ. by apply elem_of_nil in Happ. }
  apply (applicable_elem p ctx es) in Hx as ((e' & He' & <- & _)%resolved_elem & _); [|done]. cbn [fst snd].
  destruct (entry_access e') eqn:Ha; [done|done|]. exfalso.
  apply negb_true_iff in Hdeny. apply not_true_iff_false in Hdeny. apply Hdeny.
  unfold has_denied_read_restrictions, is_restricted. rewrite Hk, bool_decide_true by done. simpl.
  apply existsb_elem. exists e'. split; [done|]. by apply bool_decide_true.
Qed.

(** ** Targets *)

Lemma basename_tmp_place x : valid_uri x → uri_convention x = Some Posix → uri_lexical_depth x = Some 1 →
  uri_basename x = Some (lit "tmp") → uri_place x = Some (None, Posix, [lit "tmp"]).
Proof.
  intros Hv Hc Hd Hb. destruct (posix_place x Hc ltac:(by eexists)) as [ks Hks].
  rewrite uri_place_depth, Hks in Hd. injection Hd as Hlen.
  rewrite Hks. do 2 f_equal. pose proof Hks as (Hbad & _ & _ & ss & Hss & ->)%uri_place_Some.
  unfold containment_path_segments in Hss. unfold uri_basename in Hb.
  rewrite Hbad, bool_decide_false in Hb by apply is_Some_None.
  destruct (url_path_segments x) as [xs|]; [|done]. cbn [mbind option_bind] in Hss, Hb.
  destruct (existsb _ _); [done|]. injection Hss as <-. rewrite length_map in Hlen.
  destruct (nonempty_segments xs) as [|s [|]]; [done| |done]. injection Hb as Hb. cbn [map segment_key]. f_equal.
  unfold decode_uri_path in Hb. destruct (from_utf8 (decode_binary s)) as [t|err] eqn:E.
  - subst. by apply from_utf8_ascii in E.
  - subst. by rewrite decode_binary_spec in E.
Qed.

Lemma special_match_place ctx v x : valid_uri x → valid_uri (cwd ctx) → uri_convention (cwd ctx) = Some Posix →
  is_Some (uri_lexical_depth (cwd ctx)) → uri_convention x = Some Posix → special_path_matches_path_uri v x = true →
  ∃ y, resolve_special ctx v = [y] ∧ uri_place y = uri_place x.
Proof.
  intros Hx Hv Hc Hd Hcx Hm. destruct v as [| | | | |]; try done; simpl in Hm.
  - apply andb_true_iff in Hm as [Hdx Hp]. bool_hyps. destruct (posix_root ctx Hv Hc Hd) as (r & Hr & _ & Hpl).
    exists r. simpl. rewrite Hr. split; [done|]. rewrite Hpl. symmetry. by apply uri_root_posix.
  - apply andb_true_iff in Hm as [[Hm1 Hm2]%andb_true_iff Hm3]. bool_hyps.
    destruct (join_slash_tmp (cwd ctx) Hc) as (t & Ht & _ & Hpl). exists t. simpl.
    rewrite (bool_decide_true _ Hc), Ht. split; [done|]. rewrite Hpl. symmetry. by apply basename_tmp_place.
Qed.

(** What an entry's path resolves to. *)
Definition targets ctx (a : FileSystemPath U) : list U :=
  match a with PathEntry x => [x] | GlobPattern _ => [] | Special v => resolve_special ctx v end.

Lemma resolved_targets p ctx r a :
  (r, a) ∈ resolved_entries p ctx ↔
  ∃ e, e ∈ entries p ∧ entry_access e = a ∧ uri_convention r = uri_convention (cwd ctx) ∧ r ∈ targets ctx (entry_path e).
Proof.
  rewrite resolved_elem. apply exist_proper. intros e. destruct (entry_path e); simpl;
    rewrite ?list_elem_of_singleton, ?elem_of_nil; done.
Qed.

(** Two entries with the same target resolve to roots at the same place. *)
Lemma share_target_posix a b ctx r : uri_convention (cwd ctx) = Some Posix → valid_uri (cwd ctx) →
  is_Some (uri_lexical_depth (cwd ctx)) →
  (∀ x, a = PathEntry x ∨ b = PathEntry x → valid_uri x) →
  file_system_paths_share_target a b Posix = true →
  uri_convention r = Some Posix → is_Some (uri_place r) → r ∈ targets ctx b →
  ∃ r', r' ∈ targets ctx a ∧ uri_convention r' = Some Posix ∧ uri_place r' = uri_place r.
Proof.
  intros Hc Hvc Hdc Hval Hshare Hr Hpl Hb.
  assert (∀ v w, special_paths_share_target v w = true → v = w) as Hsame.
  { intros [] []; simpl; try done; intros; bool_hyps; by subst. }
  destruct a as [x|g|v], b as [y|g'|w]; simpl in Hshare, Hb |- *; try done.
  - apply list_elem_of_singleton in Hb as ->. assert (uri_equiv y x) as He by (symmetry; done).
    apply uri_equiv_posix in He as <-; [|done]. exists y. split_and!; [by apply list_elem_of_singleton|done..].
  - bool_hyps. destruct (special_match_place ctx w x) as (y & Hy & Hpy); auto. rewrite Hy in Hb.
    apply list_elem_of_singleton in Hb as ->. exists x. split_and!; [by apply list_elem_of_singleton|done..].
  - by apply elem_of_nil in Hb.
  - bool_hyps. apply list_elem_of_singleton in Hb as ->.
    destruct (special_match_place ctx v y) as (z & Hz & Hpz); auto. exists z. rewrite Hz.
    split_and!; [by apply list_elem_of_singleton| |done].
    destruct Hpl as [[[h c] ks] Hk]. rewrite Hk in Hpz. apply uri_place_Some in Hk as (_ & _ & ? & _).
    apply uri_place_Some in Hpz as (_ & _ & ? & _). congruence.
  - apply Hsame in Hshare as ->. by exists r.
Qed.

(** ** Full write access *)

Definition valid_entries p : Prop := Forall (λ e, ∀ x, entry_path e = PathEntry x → valid_uri x) (entries p).

(** An entry that does not narrow has a writable one at the same place, unless it is
    writable itself or below the root entry. *)
Lemma not_narrowing p ctx e r : uri_convention (cwd ctx) = Some Posix → valid_uri (cwd ctx) →
  is_Some (uri_lexical_depth (cwd ctx)) → valid_entries p → e ∈ entries p →
  narrows_write p Posix e = false → uri_convention r = Some Posix → is_Some (uri_place r) →
  r ∈ targets ctx (entry_path e) →
  can_write (entry_access e) = true ∨
  entry_access e = Read ∧
    (entry_path e = Special Root ∨ ∃ r', (r', Write) ∈ resolved_entries p ctx ∧ uri_convention r' = Some Posix ∧ uri_place r' = uri_place r).
Proof.
  intros Hc Hvc Hdc Hval He Hn Hr Hpl Ht. unfold narrows_write in Hn.
  destruct (can_write (entry_access e)) eqn:Hw; [by left|right].
  assert (has_same_target_write_override p e Posix = true →
    entry_access e = Read ∧ ∃ r', (r', Write) ∈ resolved_entries p ctx ∧ uri_convention r' = Some Posix ∧ uri_place r' = uri_place r) as Hover.
  { intros (z & Hz & Hf)%existsb_elem. apply andb_true_iff in Hf as [[Hzw Hlt]%andb_true_iff Hshare].
    destruct (entry_access z) eqn:Ez; try done. split; [by destruct (entry_access e)|].
    destruct (share_target_posix (entry_path z) (entry_path e) ctx r) as (r' & H1 & H2 & H3); try done.
    { unfold valid_entries in Hval. rewrite Forall_forall in Hval.
      intros x [Hx|Hx]; [by apply (Hval z Hz)|by apply (Hval e He)]. }
    exists r'. split; [|done]. apply resolved_targets. exists z. split_and!; [done|done|congruence|done]. }
  destruct (entry_path e) as [x|g|v] eqn:Ep.
  - apply negb_false_iff, Hover in Hn as [? ?]. split; [done|by right].
  - done.
  - destruct v as [| |sub| | |pa sub].
    + split; [|by left]. unfold is_deny in Hn. destruct (entry_access e); done.
    + simpl in Ht. by apply elem_of_nil in Ht.
    + apply negb_false_iff, Hover in Hn as [? ?]. split; [done|by right].
    + apply negb_false_iff, Hover in Hn as [? ?]. split; [done|by right].
    + rewrite bool_decide_false in Hn by done. apply negb_false_iff, Hover in Hn as [? ?]. split; [done|by right].
    + simpl in Ht. by apply elem_of_nil in Ht.
Qed.

Lemma full_disk_write p path ctx : in_context path ctx Posix → valid_uri (cwd ctx) → valid_entries p →
  Forall has_depth (resolved_entries p ctx) →
  has_full_disk_write_access_with_context p ctx = true → can_write_path p path ctx = true.
Proof.
  intros Hin Hv Hval Hdep Hfull. unfold can_write_path. rewrite Hfull, orb_true_l, andb_true_r.
  unfold has_full_disk_write_access_with_context, has_full_disk_write_access_for_convention in Hfull.
  destruct (policy_kind p) eqn:Hk; [|unfold resolve_access; by rewrite Hk..].
  pose proof Hin as (Hc & Hcp & Hdp & Hdc). rewrite Hc in Hfull.
  apply andb_true_iff in Hfull as [(e & He & Hroot & Hw)%has_root_access_elem Hn].
  unfold has_write_narrowing_entries, is_restricted in Hn. rewrite Hk, bool_decide_true in Hn by done. simpl in Hn.
  apply negb_true_iff in Hn.
  destruct (with_depths (resolved_entries p ctx)) as [es|] eqn:Hes; [|by apply with_depths_None in Hes].
  destruct (posix_root ctx Hv Hc Hdc) as (r & Hr & _ & Hpl).
  assert ((r, Write, 0) ∈ applicable path es) as Happ.
  { eapply root_entry_applies; try done. exists e. split_and!; [done..|]. by destruct (entry_access e). }
  destruct (resolve_access_greatest p path ctx Posix es Hk Hin Hes) as [[H _]|([[r' a] d] & [Hx Hmax] & ->)].
  { rewrite H in Happ. by apply elem_of_nil in Happ. }
  apply (applicable_elem p ctx es) in Hx as ((e' & He' & <- & Hcr & Ht)%resolved_targets & Hd & Hst); [|done].
  cbn [fst snd]. rewrite uri_place_depth in Hd. apply fmap_Some in Hd as ([[h c] ks] & Hpl' & ->).
  assert (narrows_write p Posix e' = false) as Hnn.
  { apply not_true_iff_false. intros E. apply not_true_iff_false in Hn. apply Hn, existsb_elem. eauto. }
  destruct (not_narrowing p ctx e' r' Hc Hv Hdc Hval He' Hnn ltac:(congruence) ltac:(by eexists) Ht)
    as [?|(Ha & Hor)]; [done|].
  exfalso. rewrite Ha in Hmax. destruct Hor as [Hp|(r2 & Hr2 & Hc2 & Hpl2)].
  - rewrite Hp in Ht. simpl in Ht. rewrite Hr in Ht. apply list_elem_of_singleton in Ht as ->.
    rewrite Hpl in Hpl'. injection Hpl' as <- <- <-. by apply Hmax in Happ.
  - assert ((r2, Write, length ks) ∈ applicable path es) as Happ2.
    { apply (applicable_elem p ctx es); [done|]. split_and!; [done| |].
      - rewrite uri_place_depth, Hpl2, Hpl'. done.
      - eapply (same_place_starts_with path r' r2); [congruence|done|by eexists|done]. }
    apply Hmax in Happ2. unfold key_lt in Happ2. simpl in Happ2. lia.
Qed.

(** ** Workspace metadata *)

Lemma protected_under_Some path root name q :
  protected_under path root = Some (q, name) →
  name ∈ PROTECTED_METADATA_PATH_NAMES ∧ uri_join_descendant root name = Ok q ∧ uri_starts_with path q = true.
Proof.
  unfold protected_under. intros H. apply head_Some in H as [l H].
  assert ((q, name) ∈ omap (λ metadata_name,
          protected ← ok (uri_join_descendant root metadata_name);
          if uri_starts_with path protected then Some (protected, metadata_name) else None)
        PROTECTED_METADATA_PATH_NAMES) as Hin by (rewrite H; left).
  apply list_elem_of_omap in Hin as (m & Hm & Hq).
  destruct (uri_join_descendant root m) as [z|] eqn:Hz; [|done]. simpl in Hq.
  destruct (uri_starts_with path z) eqn:E; [|done]. injection Hq as -> ->. by split_and!.
Qed.

Lemma head_is_Some {A} (l : list A) y : y ∈ l → is_Some (head l).
Proof. destruct l; [by intros ?%elem_of_nil|eauto]. Qed.

Lemma protected_under_is_Some path root name q :
  name ∈ PROTECTED_METADATA_PATH_NAMES → uri_join_descendant root name = Ok q → uri_starts_with path q = true →
  is_Some (protected_under path root).
Proof.
  intros Hn Hq Hs. apply (head_is_Some _ (q, name)). apply list_elem_of_omap. exists name.
  split; [done|]. rewrite Hq. simpl. by rewrite Hs.
Qed.

(** A protected directory of a writable root, and the root it belongs to. *)
Definition in_protected p path ctx q : Prop :=
  ∃ root name, root ∈ writable_roots p ctx ∧ name ∈ PROTECTED_METADATA_PATH_NAMES ∧
    uri_join_descendant root name = Ok q ∧ uri_starts_with path q = true.

Lemma metadata_denied p path ctx q :
  is_restricted p = true → in_protected p path ctx q →
  (∀ q' r, in_protected p path ctx q' → r ∈ writable_roots p ctx →
     uri_starts_with path r = true → uri_starts_with r q' = false) →
  is_Some (metadata_write_denial p path ctx).
Proof.
  intros Hk (root & name & Hroot & Hn & Hq & Hs) Hno. unfold metadata_write_denial. rewrite Hk. cbn [negb].
  destruct (protected_under_is_Some path root name q Hn Hq Hs) as [y Hy].
  destruct (head_is_Some (omap (protected_under path) (writable_roots p ctx)) y) as [[q' m] Hhead].
  { apply list_elem_of_omap. eauto. }
  rewrite Hhead. cbn [mbind option_bind]. rewrite existsb_none; [eauto|].
  intros r Hr. apply andb_false_iff. destruct (uri_starts_with path r) eqn:E; [right|by left].
  apply head_Some in Hhead as [l Hl].
  assert ((q', m) ∈ omap (protected_under path) (writable_roots p ctx)) as Hin by (rewrite Hl; left).
  apply list_elem_of_omap in Hin as (root' & Hroot' & Hp). apply protected_under_Some in Hp as (? & ? & ?).
  eapply Hno; [|done..]. by exists root', m.
Qed.

Lemma denial_name p path ctx name : metadata_write_denial p path ctx = Some name → is_protected_metadata_name name = true.
Proof.
  unfold metadata_write_denial. destruct (negb _); [done|]. intros ([q m] & Hh & H)%bind_Some.
  destruct (existsb _ _) in H; [done|]. injection H as ->. apply head_Some in Hh as [l Hl].
  assert ((q, name) ∈ omap (protected_under path) (writable_roots p ctx)) as Hin by (rewrite Hl; left).
  apply list_elem_of_omap in Hin as (r & _ & (Hn & _)%protected_under_Some).
  apply existsb_elem. exists name. split; [done|]. by apply bool_decide_true.
Qed.

Lemma metadata_not_writable p path ctx q :
  is_restricted p = true → has_full_disk_write_access_with_context p ctx = false → in_protected p path ctx q →
  (∀ q' r, in_protected p path ctx q' → r ∈ writable_roots p ctx →
     uri_starts_with path r = true → uri_starts_with r q' = false) →
  can_write_path p path ctx = false ∧ is_Some (forbidden_metadata_write p path ctx).
Proof.
  intros Hk Hfull Hin Hno. destruct (metadata_denied p path ctx q Hk Hin Hno) as [m Hm].
  assert (can_write_path p path ctx = false) as Hw.
  { unfold can_write_path. by rewrite Hfull, Hm, bool_decide_false, orb_false_r, andb_false_r. }
  split; [done|]. unfold forbidden_metadata_write. rewrite Hk, Hm. simpl. rewrite Hw. eauto.
Qed.
End spec.
