(* ===== verification/FsDeny.v ===== *)
(** * FsDeny: read denials, and workspace roots made concrete
    ([protocol/src/permissions.rs], [permissions/target.rs],
    [permissions/deny_read_validator.rs], [permissions/windows_glob.rs])

    The matcher of denied roots and globs, the validation of managed denials, and the
    replacement of [:workspace_roots] entries by entries of concrete roots. *)
From Stdlib Require Import ZifyBool.
From S2P Require Import Prelude RustStr PatchErrors FsInterface Utf8Stream UnixPath Utf8Encode PathUri PathUriLaws PathText FsPolicy FsPolicyFacts.

(** [globset], with [literal_separator(true)] and [allow_unclosed_class(true)]:
    [build_glob escape insensitive pattern] and [is_match_candidate]. *)
Class PathGlobs := {
  GlobMatcher : Type;
  build_glob : bool → bool → str → result str GlobMatcher;
  is_match : GlobMatcher → list byte → bool;
}.

(** The error texts of this part, by what they are built of. *)
Inductive DenyReadError :=
| GlobWithoutHome (pattern : str)
| GlobDirectory (e : LegacyAppPathStringError)
| GlobUnresolvable (pattern : str)
| GlobInvalid (pattern err : str)
| InvalidPath
| TemporaryUnavailable
| TemporaryUnsafe
| Shadowed.

(** [InvalidDenyReadGlobBehavior]. *)
Inductive InvalidGlobBehavior := FailClosed | ReturnError.

Definition to_forward_slashes (s : str) : str := map (λ c, if is_char c_backslash c then c_slash else c) s.

Definition PROJECT_ROOTS_GLOB_PATTERN_PREFIX : str := lit "codex-project-roots://".
(** [project_roots_glob_pattern]. *)
Definition project_roots_glob_pattern (subpath : str) : str := PROJECT_ROOTS_GLOB_PATTERN_PREFIX ++ subpath.

(** [~/] or, on Windows, [~\]. *)
Definition home_glob_suffix (is_windows : bool) (pattern : str) : option str :=
  match strip_prefix (lit "~/") pattern with
  | Some suffix => Some suffix
  | None => if is_windows then strip_prefix (lit "~\") pattern else None
  end.

(** ** [windows_glob.rs] *)

Record WindowsDenyReadGlobScan := mkScan {
  scan_root : str;
  pattern_suffix : str;
  scan_max_depth : option nat;
}.

Definition is_glob_start (c : char) : bool := is_char 42%N c || is_char 63%N c || is_char 91%N c.

(** [rfind(['/', '\\'])]. *)
Fixpoint rfind_separator (s : str) : option nat :=
  match s with
  | [] => None
  | c :: s' => match rfind_separator s' with
               | Some n => Some (S n)
               | None => if is_windows_separator c then Some 0 else None
               end
  end.

Definition literal_prefix (pattern : str) : str :=
  take (length pattern - length (drop_while (negb ∘ is_glob_start) pattern)) pattern.

Definition windows_deny_read_glob_scan (pattern : str) (configured_max_depth : option nat) : WindowsDenyReadGlobScan :=
  let prefix := literal_prefix pattern in
  let '(root, suffix) :=
    match rfind_separator prefix with
    | Some index =>
        let drive_root := (0 <? index) && bool_decide (prefix !! (index - 1) = Some c_colon) in
        let last := if (index =? 0) || drive_root then index + 1 else index in
        (take last prefix, drop (index + 1) pattern)
    | None => (lit ".", pattern)
    end in
  let components := nonempty_segments (path_segments Windows suffix) in
  let max_depth :=
    if existsb (λ s, bool_decide (s = lit "**")) components then configured_max_depth
    else Some (match configured_max_depth with
               | None => length components
               | Some depth => Nat.min depth (length components)
               end) in
  mkScan root suffix max_depth.

Section deny.
Context {U : Type} {UO : UrlOps U} {UC : UrlCoding} {PG : PathGlobs}.
Implicit Types (p self : FileSystemSandboxPolicy U) (e : FileSystemSandboxEntry U)
  (ctx : FileSystemSandboxPolicyContext U) (path root : U).

(** ** The matcher *)

Record PreparedReadDenyMatcher := mkMatcher {
  denied_roots : list U;
  deny_read_matchers : list GlobMatcher;
  invalid_pattern : bool;
}.

Definition build_glob_matcher (pattern : str) (c : PathConvention) : result str GlobMatcher :=
  let windows := bool_decide (c = Windows) in
  build_glob (negb windows) windows (if windows then to_forward_slashes pattern else pattern).

(** One denied glob, as native text. *)
Definition deny_read_glob ctx (pattern : str) : result DenyReadError str :=
  let is_windows := bool_decide (uri_convention (cwd ctx) = Some Windows) in
  rooted ← match home_glob_suffix is_windows pattern with
           | Some suffix =>
               match user_home_dir ctx with
               | Some home => Ok (home, trim_separators is_windows suffix)
               | None => Err (GlobWithoutHome pattern)
               end
           | None => Ok (cwd ctx, pattern)
           end;
  let '(root, pattern) := rooted in
  let convention := if is_windows then Windows else Posix in
  _ ← match (text_to_path_uri pattern convention : result _ U) with
      | Ok _ => Ok tt
      | Err _ => map_err GlobDirectory (validate_glob_directory root convention)
      end;
  match uri_join root pattern with
  | Ok path => Ok (inferred_native_path_string path)
  | Err _ => Err (GlobUnresolvable pattern)
  end.

Definition deny_patterns p : list str :=
  omap (λ e, if is_deny e then match entry_path e with GlobPattern pattern => Some pattern | _ => None end else None)
    (entries p).

Definition deny_read_globs p ctx : result DenyReadError (list str) :=
  collect (deny_read_glob ctx) (deny_patterns p).

(** The denied roots, but for the root of the file system. *)
Definition denied_roots_of p ctx : list U :=
  let is_file_system_root root :=
    match file_system_root ctx with
    | Some fs_root => uri_starts_with root fs_root && uri_starts_with fs_root root
    | None => false
    end in
  map fst (filter (λ x, x.2 = Deny ∧ is_file_system_root x.1 = false) (resolved_entries p ctx)).

Definition glob_step (b : InvalidGlobBehavior) (c : PathConvention)
    (st : list GlobMatcher * bool) (pattern : str) : result DenyReadError (list GlobMatcher * bool) :=
  match build_glob_matcher pattern c with
  | Ok m => Ok (st.1 ++ [m], st.2)
  | Err err => match b with
               | FailClosed => Ok (st.1, true)
               | ReturnError => Err (GlobInvalid pattern err)
               end
  end.
Fixpoint build_all (b : InvalidGlobBehavior) (c : PathConvention) (patterns : list str)
    (st : list GlobMatcher * bool) : result DenyReadError (list GlobMatcher * bool) :=
  match patterns with
  | [] => Ok st
  | pattern :: patterns => st ← glob_step b c st pattern; build_all b c patterns st
  end.

Definition prepare_deny_read_matcher p ctx (b : InvalidGlobBehavior) : result DenyReadError PreparedReadDenyMatcher :=
  let roots := denied_roots_of p ctx in
  match uri_convention (cwd ctx) with
  | None => Ok (mkMatcher roots [] true)
  | Some convention =>
      match deny_read_globs p ctx, b with
      | Err _, FailClosed => Ok (mkMatcher roots [] true)
      | Err err, ReturnError => Err err
      | Ok patterns, _ =>
          st ← build_all b convention patterns ([], false);
          Ok (mkMatcher roots st.1 st.2)
      end
  end.

(** What a glob is matched against. *)
Definition match_candidate path (c : PathConvention) : list byte :=
  match c with
  | Posix => decode_binary (url_path path)
  | Windows => as_bytes (to_forward_slashes (inferred_native_path_string path))
  end.

Definition matches_prepared_read_deny path ctx (m : PreparedReadDenyMatcher) : bool :=
  match uri_convention (cwd ctx) with
  | None => true
  | Some convention =>
      if negb (bool_decide (uri_convention path = Some convention))
         || bool_decide (uri_lexical_depth path = None) || bool_decide (uri_lexical_depth (cwd ctx) = None)
      then true
      else if invalid_pattern m then true
      else existsb (uri_starts_with path) (denied_roots m)
           || existsb (λ g, is_match g (match_candidate path convention)) (deny_read_matchers m)
  end.

(** [ReadDenyMatcher::from_context] and [is_read_denied_uri]. *)
Definition matcher_from_context p ctx : option PreparedReadDenyMatcher :=
  if existsb is_deny (entries p) then ok (prepare_deny_read_matcher p ctx FailClosed) else None.
Definition is_read_denied_uri (m : PreparedReadDenyMatcher) path ctx : bool := matches_prepared_read_deny path ctx m.

(** ** [deny_read_validator.rs] and [target.rs] *)

Definition has_context_read_denials p ctx : bool :=
  is_restricted p
  && existsb (λ e, is_deny e
       && negb (match entry_path e with
                | Special SlashTmp => negb (bool_decide (uri_convention (cwd ctx) = Some Posix))
                | _ => false
                end)) (entries p).

Record DenyReadValidator := mkValidator {
  required_entries : list (FileSystemSandboxEntry U);
  validator_matcher : option PreparedReadDenyMatcher;
}.

Inductive DenyReadViolation := MissingRequiredDeny | ReadablePath (path : U).

Definition new_validator p ctx : result DenyReadError DenyReadValidator :=
  matcher ← (if has_context_read_denials p ctx
             then m ← prepare_deny_read_matcher p ctx ReturnError; Ok (Some m) else Ok None);
  Ok (mkValidator (entries p) matcher).

(** A readable concrete path the matcher denies. *)
Definition violating_path (v : DenyReadValidator) ctx e : option U :=
  if can_read (entry_access e) then
    match entry_path e with
    | PathEntry path =>
        if negb (bool_decide (uri_convention path = uri_convention (cwd ctx))) then None
        else match validator_matcher v with
             | Some m => if matches_prepared_read_deny path ctx m then Some path else None
             | None => None
             end
    | _ => None
    end
  else None.

Definition validate (v : DenyReadValidator) (selected : FileSystemSandboxPolicy U) ctx : result DenyReadViolation unit :=
  let missing_required_deny := existsb (λ e, negb (contains_entry (entries selected) e)) (required_entries v) in
  match head (omap (violating_path v ctx) (entries selected)) with
  | Some path => Err (ReadablePath path)
  | None => if missing_required_deny then Err MissingRequiredDeny else Ok tt
  end.

Definition validate_managed_deny_read p (required : FileSystemSandboxPolicy U) ctx : result DenyReadError unit :=
  v ← new_validator required ctx;
  map_err (λ _, Shadowed) (validate v p ctx).

Definition valid_in (c : PathConvention) path : bool :=
  bool_decide (uri_convention path = Some c) && bool_decide (is_Some (uri_lexical_depth path)).

Definition validate_context_entry ctx (c : PathConvention) e : result DenyReadError unit :=
  match entry_path e with
  | PathEntry path => if valid_in c path then Ok tt else Err InvalidPath
  | Special Tmpdir =>
      directories ← ok_or TemporaryUnavailable (temporary_directories ctx);
      if forallb (valid_in c) directories then Ok tt else Err TemporaryUnsafe
  | Special (ProjectRoots (Some subpath)) =>
      if existsb (λ root, negb (is_ok (uri_join root subpath))) (workspace_roots ctx) then Err InvalidPath else Ok tt
  | GlobPattern pattern =>
      if bool_decide (is_Some (home_glob_suffix (bool_decide (c = Windows)) pattern))
         && negb (match user_home_dir ctx with Some home => valid_in c home | None => false end)
      then Err InvalidPath else Ok tt
  | _ => Ok tt
  end.

Definition validate_context_paths p ctx : result DenyReadError unit :=
  convention ← ok_or InvalidPath (uri_convention (cwd ctx));
  if negb (valid_in convention (cwd ctx)) || negb (forallb (valid_in convention) (workspace_roots ctx))
  then Err InvalidPath
  else _ ← collect (validate_context_entry ctx convention) (entries p); Ok tt.

(** [ReadDenyMatcher::try_new_with_context]. *)
Definition try_new_with_context p ctx : result DenyReadError (option PreparedReadDenyMatcher) :=
  if negb (has_context_read_denials p ctx) then Ok None
  else
    _ ← validate_context_paths p ctx;
    m ← prepare_deny_read_matcher p ctx ReturnError; Ok (Some m).

(** ** Concrete workspace roots *)

Definition resolve_scoped_workspace_path root (subpath : str) : option U :=
  convention ← uri_convention root;
  let windows := bool_decide (convention = Windows) in
  let segments := path_segments convention subpath in
  if starts_with [c_slash] subpath || windows && starts_with [c_backslash] subpath
     || existsb is_dots segments || windows && existsb (contains [c_colon]) segments
  then None
  else
    path ← ok (uri_join root subpath);
    if uri_starts_with path root then Some path else None.

(** The subpath an entry names under each workspace root, and whether it is a glob. *)
Definition project_subpath (path : FileSystemPath U) : option (option str * bool) :=
  match path with
  | Special (ProjectRoots subpath) => Some (subpath, false)
  | GlobPattern pattern =>
      match strip_prefix PROJECT_ROOTS_GLOB_PATTERN_PREFIX pattern with
      | Some rest => Some (Some rest, true)
      | None => None
      end
  | _ => None
  end.

(** The target under one root.  A root that cannot be written in a glob has none. *)
Definition materialized_path (subpath : option str) (is_glob : bool) root : option U :=
  if is_glob && match uri_convention root with
                | Some convention => negb (is_ok (validate_glob_directory root convention))
                | None => true
                end
  then None
  else match subpath with
       | None => Some root
       | Some subpath => resolve_scoped_workspace_path root subpath
       end.

(** The entry for one root; none where a grant has no target. *)
Definition materialize_for_root e (subpath : option str) (is_glob : bool) root : option (FileSystemSandboxEntry U) :=
  match materialized_path subpath is_glob root with
  | Some path =>
      Some (mkEntry (if is_glob then GlobPattern (inferred_native_path_string path) else PathEntry path)
              (entry_access e) (missing_path_behavior e))
  | None =>
      if negb (can_write (entry_access e)) then Some (mkEntry (PathEntry root) Deny (missing_path_behavior e))
      else None
  end.

(** [None] when a home-relative denial has an unknown target. *)
Definition materialize_entry (roots : list U) e : option (list (FileSystemSandboxEntry U)) :=
  match project_subpath (entry_path e) with
  | None => Some [e]
  | Some (subpath, is_glob) =>
      let home_relative :=
        match subpath with
        | Some subpath =>
            existsb (λ root, match uri_convention root with
                             | Some c => bool_decide (is_Some (home_relative_suffix c subpath))
                             | None => false
                             end) roots
        | None => false
        end in
      if is_deny e && home_relative then None
      else Some (omap (materialize_for_root e subpath is_glob) roots)
  end.

Fixpoint materialize_entries (roots : list U) (es : list (FileSystemSandboxEntry U)) :
    option (list (FileSystemSandboxEntry U)) :=
  match es with
  | [] => Some []
  | e :: es => concrete ← materialize_entry roots e; rest ← materialize_entries roots es; Some (concrete ++ rest)
  end.

Definition try_materialize_project_roots_with_path_uris self (roots : list U) : option (FileSystemSandboxPolicy U) :=
  es ← materialize_entries roots (entries self); Some (with_entries self es).

Definition materialize_project_roots_with_path_uris self (roots : list U) : FileSystemSandboxPolicy U :=
  default (restricted []) (try_materialize_project_roots_with_path_uris self roots).

Definition with_materialized_project_roots_for_path_uris self (roots : list U) : FileSystemSandboxPolicy U :=
  match try_materialize_project_roots_with_path_uris self roots with
  | None => restricted []
  | Some materialized => with_entries self (foldl push_missing (entries self) (entries materialized))
  end.

(** [workspace_write_with_path_uris]. *)
Definition workspace_write_with_path_uris (roots : list U) (exclude_tmpdir_env_var exclude_slash_tmp : bool) :
    FileSystemSandboxPolicy U :=
  with_materialized_project_roots_for_path_uris (workspace_write exclude_tmpdir_env_var exclude_slash_tmp) roots.
End deny.

Arguments PreparedReadDenyMatcher U {PG}.
Arguments DenyReadValidator U {PG}.
Arguments DenyReadViolation U : clear implicits.

(** * What the read denials promise

    The matcher lets through exactly the paths no denial covers, and nothing when a
    pattern cannot be used; what validation accepts; making workspace roots concrete keeps
    the access and never loses a denial; the bounds of a Windows glob scan. *)

Section deny.
Context {U : Type} {UO : UrlOps U} {UC : UrlCoding} {PG : PathGlobs}.
Implicit Types (p self : FileSystemSandboxPolicy U) (e : FileSystemSandboxEntry U)
  (ctx : FileSystemSandboxPolicyContext U) (path root : U) (m : PreparedReadDenyMatcher U).

(** ** Building the globs *)

Lemma build_all_ok b c patterns st st' : build_all b c patterns st = Ok st' →
  (st'.2 = false ↔ st.2 = false ∧ Forall (λ pat, is_ok (build_glob_matcher pat c) = true) patterns) ∧
  ∃ ms, st'.1 = st.1 ++ ms ∧ ∀ g, g ∈ ms ↔ ∃ pat, pat ∈ patterns ∧ build_glob_matcher pat c = Ok g.
Proof.
  revert st. induction patterns as [|pat patterns IH]; intros [gs inval] H; simpl in H.
  - injection H as <-. simpl. split; [naive_solver|]. exists []. split; [by rewrite app_nil_r|]. set_solver.
  - apply bind_ok in H as ([gs1 inval1] & Hstep & H). apply IH in H as [H1 (ms & H2 & H3)]. unfold glob_step in Hstep.
    simpl in *. rewrite Forall_cons. destruct (build_glob_matcher pat c) as [g|err] eqn:Hg.
    + injection Hstep as <- <-. simpl. split; [tauto|]. exists (g :: ms). rewrite H2, <- app_assoc. split; [done|].
      intros g'. rewrite elem_of_cons, H3. split.
      * intros [->|(pat' & ? & ?)]; [exists pat|exists pat']; (split; [|done]); apply elem_of_cons; auto.
      * intros (pat' & [->|?]%elem_of_cons & Hg'); [left; congruence|right; eauto].
    + destruct b; [|done]. injection Hstep as <- <-. simpl.
      split; [split; [intros [? _]%H1|intros [_ [? _]]]; done|]. exists ms. split; [done|].
      intros g'. rewrite H3. split.
      * intros (pat' & ? & ?). exists pat'. split; [|done]. apply elem_of_cons. auto.
      * intros (pat' & [->|?]%elem_of_cons & Hg'); [congruence|eauto].
Qed.

Lemma build_all_fail_closed c patterns st : ∃ st', build_all FailClosed c patterns st = Ok st'.
Proof.
  revert st. induction patterns as [|pat patterns IH]; intros [gs inval]; simpl; [eauto|].
  unfold glob_step. destruct (build_glob_matcher pat c); simpl; apply IH.
Qed.

Lemma build_all_strict c patterns st st' : build_all ReturnError c patterns st = Ok st' →
  build_all FailClosed c patterns st = Ok st'.
Proof.
  revert st. induction patterns as [|pat patterns IH]; intros st; simpl; [done|].
  intros (st1 & Hs & H)%bind_ok. unfold glob_step in *. destruct (build_glob_matcher pat c); [|done].
  injection Hs as <-. simpl. by apply IH.
Qed.

(** ** The matcher *)

(** The native text of a denied glob: below the home directory if it starts with [~/] (or
    [~\] on Windows), with further separators dropped, else below the working directory.
    A glob that is not an absolute path itself needs a directory that can be written in one. *)
Definition glob_text ctx (pattern text : str) : Prop :=
  let windows := bool_decide (uri_convention (cwd ctx) = Some Windows) in
  let convention := if windows then Windows else Posix in
  ∃ root rest q,
    ((∃ suffix, (pattern = lit "~/" ++ suffix ∨ windows = true ∧ pattern = lit "~\" ++ suffix) ∧
        user_home_dir ctx = Some root ∧ rest = trim_separators windows suffix) ∨
     ¬ lit "~/" `prefix_of` pattern ∧ (windows = true → ¬ lit "~\" `prefix_of` pattern) ∧ root = cwd ctx ∧ rest = pattern) ∧
    (is_ok (text_to_path_uri rest convention : result _ U) = true ∨ is_ok (validate_glob_directory root convention) = true) ∧
    uri_join root rest = Ok q ∧ text = inferred_native_path_string q.

(** The globs of an executor: case matters on POSIX and not on Windows, where separators are
    forward slashes. *)
Definition glob_of (c : PathConvention) (text : str) : result str GlobMatcher :=
  match c with
  | Posix => build_glob true false text
  | Windows => build_glob false true (to_forward_slashes text)
  end.

(** A denied glob of a policy. *)
Definition denies_glob p (pattern : str) : Prop :=
  ∃ e, e ∈ entries p ∧ entry_access e = Deny ∧ entry_path e = GlobPattern pattern.

(** The root of the file system, as far as containment tells. *)
Definition is_disk_root ctx root : Prop :=
  ∃ disk, file_system_root ctx = Some disk ∧ uri_starts_with root disk = true ∧ uri_starts_with disk root = true.

(** The paths the denials of a policy leave readable: every denied glob can be used and does
    not match, and no denied root but that of the file system contains the path. *)
Definition spared p path ctx : Prop :=
  ∃ c, in_context path ctx c ∧
    (∀ pattern, denies_glob p pattern → ∃ text g, glob_text ctx pattern text ∧ glob_of c text = Ok g ∧
       is_match g (match_candidate path c) = false) ∧
    (∀ e root, e ∈ entries p → entry_access e = Deny → entry_names ctx e root → ¬ is_disk_root ctx root →
       uri_starts_with path root = false).

Lemma deny_read_glob_text ctx pattern text : deny_read_glob ctx pattern = Ok text ↔ glob_text ctx pattern text.
Proof.
  unfold deny_read_glob, glob_text, home_glob_suffix. set (windows := bool_decide _). set (c := if windows then Windows else Posix).
  assert (∀ root rest, (_ ← match (text_to_path_uri rest c : result _ U) with
      | Ok _ => Ok tt | Err _ => map_err GlobDirectory (validate_glob_directory root c) end;
      match uri_join root rest with Ok path => Ok (inferred_native_path_string path) | Err _ => Err (GlobUnresolvable rest) end) = Ok text ↔
    ∃ q, (is_ok (text_to_path_uri rest c : result _ U) = true ∨ is_ok (validate_glob_directory root c) = true) ∧
      uri_join root rest = Ok q ∧ text = inferred_native_path_string q) as Hrest.
  { intros root rest. destruct (text_to_path_uri rest c), (validate_glob_directory root c) as [[]|], (uri_join root rest); simpl; naive_solver. }
  destruct (strip_prefix (lit "~/") pattern) as [suffix|] eqn:Hs.
  - apply strip_prefix_Some in Hs as ->. transitivity (∃ root, user_home_dir ctx = Some root ∧
      ∃ q, (is_ok (text_to_path_uri (trim_separators windows suffix) c : result _ U) = true ∨ is_ok (validate_glob_directory root c) = true) ∧
      uri_join root (trim_separators windows suffix) = Ok q ∧ text = inferred_native_path_string q).
    + destruct (user_home_dir ctx) as [home|]; [|by split; [|intros (? & ? & _)]]. cbn [mbind result_bind]. rewrite Hrest. naive_solver.
    + split.
      * intros (root & Hh & q & Hq). exists root, (trim_separators windows suffix), q. split; [|done]. left. exists suffix. eauto.
      * intros (root & rest & q & [(suffix' & Hp & Hh & ->)|(Hn & _)] & Hq); [|by destruct Hn; exists suffix].
        destruct Hp as [Hp|[_ Hp]]; [|discriminate Hp]. injection Hp as <-. eauto.
  - apply strip_prefix_None in Hs. destruct (if windows then strip_prefix (lit "~\") pattern else None) as [suffix|] eqn:Hw.
    + destruct windows eqn:Ew; [|done]. apply strip_prefix_Some in Hw as ->. transitivity (∃ root, user_home_dir ctx = Some root ∧
      ∃ q, (is_ok (text_to_path_uri (trim_separators true suffix) c : result _ U) = true ∨ is_ok (validate_glob_directory root c) = true) ∧
      uri_join root (trim_separators true suffix) = Ok q ∧ text = inferred_native_path_string q).
      * destruct (user_home_dir ctx) as [home|]; [|by split; [|intros (? & ? & _)]]. cbn [mbind result_bind]. rewrite Hrest. naive_solver.
      * split.
        -- intros (root & Hh & q & Hq). exists root, (trim_separators true suffix), q. split; [|done]. left. exists suffix. eauto.
        -- intros (root & rest & q & [(suffix' & Hp & Hh & ->)|(_ & Hn & _)] & Hq); [|by destruct (Hn eq_refl); exists suffix].
           destruct Hp as [Hp|[_ Hp]]; [discriminate Hp|]. injection Hp as <-. eauto.
    + assert (windows = true → ¬ lit "~\" `prefix_of` pattern) as Hn by (intros Ew; rewrite Ew in Hw; by apply strip_prefix_None).
      cbn [mbind result_bind]. rewrite Hrest. split.
      * intros (q & Hq). exists (cwd ctx), pattern, q. split; [|done]. right. by split_and!.
      * intros (root & rest & q & [(suffix & Hp & _)|(_ & _ & -> & ->)] & Hq); [|by exists q].
        destruct Hp as [->|[Ew ->]]; [by destruct Hs; exists suffix|by destruct (Hn Ew); exists suffix].
Qed.

Lemma build_glob_of c text : build_glob_matcher text c = glob_of c text.
Proof. by destruct c. Qed.

Lemma deny_patterns_elem p pattern : pattern ∈ deny_patterns p ↔ denies_glob p pattern.
Proof.
  unfold deny_patterns, denies_glob. rewrite list_elem_of_omap. apply exist_proper. intros e. unfold is_deny.
  case_bool_decide; destruct (entry_path e); naive_solver.
Qed.

Lemma denied_roots_elem p ctx root : root ∈ denied_roots_of p ctx ↔
  ∃ e, e ∈ entries p ∧ entry_access e = Deny ∧ entry_names ctx e root ∧ ¬ is_disk_root ctx root.
Proof.
  unfold denied_roots_of. rewrite elem_of_map. setoid_rewrite list_elem_of_filter.
  assert (∀ r, match file_system_root ctx with
    | Some fs_root => uri_starts_with r fs_root && uri_starts_with fs_root r | None => false end = false ↔ ¬ is_disk_root ctx r) as Hd.
  { intros r. unfold is_disk_root. destruct (file_system_root ctx) as [fs|]; [|naive_solver].
    rewrite <- not_true_iff_false, andb_true_iff. naive_solver. }
  split.
  - intros ([r a] & -> & [Ha Hr] & Hin). simpl in *. subst a. apply resolved_names in Hin as (e & ? & ? & ?). exists e. rewrite <- Hd. done.
  - intros (e & He & Ha & Hn & Hr). exists (root, Deny). rewrite Hd. split_and!; [done|done|done|]. apply resolved_names. by exists e.
Qed.

(** The same, through the lists the matcher is made of. *)
Definition spared_by_lists p path ctx : Prop :=
  ∃ c, in_context path ctx c ∧ ∃ patterns, deny_read_globs p ctx = Ok patterns ∧
    (∀ pat, pat ∈ patterns → ∃ g, build_glob_matcher pat c = Ok g ∧ is_match g (match_candidate path c) = false) ∧
    (∀ root, root ∈ denied_roots_of p ctx → uri_starts_with path root = false).

Lemma deny_read_globs_ok p ctx : is_ok (deny_read_globs p ctx) = true ↔ ∀ pattern, denies_glob p pattern → ∃ text, glob_text ctx pattern text.
Proof.
  setoid_rewrite <- deny_patterns_elem. setoid_rewrite <- deny_read_glob_text. unfold deny_read_globs. induction (deny_patterns p) as [|x l IH]; simpl.
  - setoid_rewrite elem_of_nil. naive_solver.
  - transitivity ((∃ t, deny_read_glob ctx x = Ok t) ∧ is_ok (collect (deny_read_glob ctx) l) = true).
    + destruct (deny_read_glob ctx x) as [t|]; simpl; [|split; [done|]; by intros [[? [=]] _]].
      destruct (collect (deny_read_glob ctx) l); simpl; [|by split; [|intros [_ ?]]]. split; [|done]. intros _. split; [by exists t|done].
    + rewrite IH. setoid_rewrite elem_of_cons. split; [intros [? ?] y [->|?]; auto|intros Hall; split; auto].
Qed.

Lemma deny_read_globs_elem p ctx patterns text : deny_read_globs p ctx = Ok patterns →
  text ∈ patterns ↔ ∃ pattern, denies_glob p pattern ∧ glob_text ctx pattern text.
Proof.
  unfold deny_read_globs. rewrite collect_ok. setoid_rewrite <- deny_patterns_elem. setoid_rewrite <- deny_read_glob_text.
  induction 1 as [|x y l k Hxy _ IH].
  - split; [by intros ?%elem_of_nil|by intros (? & ?%elem_of_nil & _)].
  - rewrite elem_of_cons, IH. split.
    + intros [->|(z & ? & ?)]; [exists x; split; [by left|done]|exists z; split; [by right|done]].
    + intros (z & [->|?]%elem_of_cons & Hz); [left; congruence|right; by exists z].
Qed.

Lemma glob_text_inj ctx pattern text text' : glob_text ctx pattern text → glob_text ctx pattern text' → text = text'.
Proof. rewrite <- !deny_read_glob_text. congruence. Qed.

Lemma spared_lists p path ctx : spared p path ctx ↔ spared_by_lists p path ctx.
Proof.
  unfold spared, spared_by_lists. apply exist_proper. intros c. setoid_rewrite denied_roots_elem. setoid_rewrite build_glob_of.
  apply and_iff_compat_l. split.
  - intros [Hg Hr]. assert (is_ok (deny_read_globs p ctx) = true) as Hok.
    { apply deny_read_globs_ok. intros pat (text & _ & Ht & _)%Hg. by exists text. }
    destruct (deny_read_globs p ctx) as [patterns|] eqn:Hp; [|done]. exists patterns. split_and!; [done| |naive_solver].
    intros text (pat & Hpat & Ht)%(deny_read_globs_elem p ctx _ _ Hp). destruct (Hg pat Hpat) as (text' & g & Ht' & Hb).
    rewrite (glob_text_inj ctx pat text text' Ht Ht'). by exists g.
  - intros (patterns & Hp & Hg & Hr). split; [|naive_solver]. intros pat Hpat.
    assert (is_ok (deny_read_globs p ctx) = true) as Hok by by rewrite Hp. rewrite deny_read_globs_ok in Hok.
    destruct (Hok pat Hpat) as [text Ht]. destruct (Hg text) as (g & Hb & Hm); [apply (deny_read_globs_elem p ctx _ _ Hp); by exists pat|].
    by exists text, g.
Qed.

Lemma existsb_false {A} (f : A → bool) l : existsb f l = false ↔ ∀ z, z ∈ l → f z = false.
Proof.
  split; [|apply existsb_none]. intros H z Hz. apply not_true_iff_false. intros Hf.
  apply not_true_iff_false in H. apply H, existsb_elem. eauto.
Qed.

Lemma matches_in_context path ctx c m : in_context path ctx c →
  matches_prepared_read_deny path ctx m =
  invalid_pattern m || existsb (uri_starts_with path) (denied_roots m)
  || existsb (λ g, is_match g (match_candidate path c)) (deny_read_matchers m).
Proof.
  intros (Hc & Hp & [n Hn] & [k Hk]). unfold matches_prepared_read_deny. rewrite Hc, Hp, Hn, Hk.
  rewrite bool_decide_true by done. rewrite !bool_decide_false by done. cbn [negb orb].
  by destruct (invalid_pattern m).
Qed.

Lemma matches_outside path ctx m : (¬ ∃ c, in_context path ctx c) → matches_prepared_read_deny path ctx m = true.
Proof.
  intros Hout. unfold matches_prepared_read_deny. destruct (uri_convention (cwd ctx)) as [c|] eqn:Hc; [|done].
  destruct (negb _ || _ || _) eqn:E; [done|]. exfalso. apply Hout. exists c.
  apply orb_false_iff in E as [[E1 E2]%orb_false_iff E3]. bool_hyps.
  split_and!; try done; by apply not_eq_None_Some.
Qed.

Lemma matcher_spares p ctx m : prepare_deny_read_matcher p ctx FailClosed = Ok m →
  ∀ path, matches_prepared_read_deny path ctx m = false ↔ spared p path ctx.
Proof.
  intros Hm path. rewrite spared_lists. destruct (in_some_context path ctx) as [[c Hin]|Hout].
  2: { rewrite matches_outside by done. split; [done|]. intros (c & Hin & _). destruct Hout. by exists c. }
  pose proof Hin as (Hc & _). rewrite (matches_in_context path ctx c m Hin), !orb_false_iff, !existsb_false.
  unfold prepare_deny_read_matcher in Hm. rewrite Hc in Hm. unfold spared_by_lists.
  destruct (deny_read_globs p ctx) as [patterns|err].
  2: { injection Hm as <-. simpl. split; [naive_solver|]. intros (_ & _ & ? & [=] & _). }
  apply bind_ok in Hm as (st & Hst & [= <-]). apply build_all_ok in Hst as [H1 (ms & H2 & H3)]. simpl in *.
  rewrite H1, Forall_forall, H2. split.
  - intros [[[_ Hok] Hroots] Hg]. exists c. split; [done|]. exists patterns. split; [done|]. split; [|done].
    intros pat Hpat. specialize (Hok pat Hpat). destruct (build_glob_matcher pat c) as [g|] eqn:Eg; [|done].
    exists g. split; [done|]. apply Hg, H3. eauto.
  - intros (c' & (Hc' & _) & pats & [= <-] & Hpats & Hroots). assert (c' = c) as -> by congruence.
    split_and!; [done| |done|].
    + intros pat Hpat. destruct (Hpats pat Hpat) as (g & -> & _). done.
    + intros g (pat & Hpat & Eg)%H3. destruct (Hpats pat Hpat) as (g' & Eg' & Hf). congruence.
Qed.

Lemma prepare_fail_closed p ctx : ∃ m, prepare_deny_read_matcher p ctx FailClosed = Ok m.
Proof.
  unfold prepare_deny_read_matcher. destruct (uri_convention (cwd ctx)) as [c|]; [|eauto].
  destruct (deny_read_globs p ctx) as [patterns|err]; [|eauto].
  destruct (build_all_fail_closed c patterns ([], false)) as [st ->]. simpl. eauto.
Qed.

(** The strict constructor only differs in reporting errors. *)
Lemma prepare_strict p ctx m : prepare_deny_read_matcher p ctx ReturnError = Ok m →
  prepare_deny_read_matcher p ctx FailClosed = Ok m.
Proof.
  unfold prepare_deny_read_matcher. destruct (uri_convention (cwd ctx)) as [c|]; [|done].
  destruct (deny_read_globs p ctx) as [patterns|err]; [|done].
  intros (st & Hst%build_all_strict & [= <-])%bind_ok. rewrite Hst. done.
Qed.

(** Every denied glob has a text and can be built. *)
Definition globs_usable p ctx : Prop :=
  ∀ c, uri_convention (cwd ctx) = Some c → ∀ pattern, denies_glob p pattern →
    ∃ text g, glob_text ctx pattern text ∧ glob_of c text = Ok g.

Lemma build_all_strict_ok c patterns st :
  is_ok (build_all ReturnError c patterns st) = true ↔ ∀ text, text ∈ patterns → ∃ g, glob_of c text = Ok g.
Proof.
  revert st. induction patterns as [|pat patterns IH]; intros st; simpl; [split; [|done]; by intros _ text ?%elem_of_nil|].
  unfold glob_step. rewrite build_glob_of. destruct (glob_of c pat) as [g|] eqn:Hg; simpl.
  - rewrite IH. setoid_rewrite elem_of_cons. split; [intros ? y [->|?]; eauto|auto].
  - split; [done|]. intros Hall. destruct (Hall pat) as [g ?]; [by left|congruence].
Qed.

Lemma prepare_strict_ok p ctx : is_ok (prepare_deny_read_matcher p ctx ReturnError) = true ↔ globs_usable p ctx.
Proof.
  unfold prepare_deny_read_matcher, globs_usable. destruct (uri_convention (cwd ctx)) as [c|]; [|by split].
  pose proof (deny_read_globs_ok p ctx) as Hok. destruct (deny_read_globs p ctx) as [patterns|err] eqn:Hp.
  - transitivity (is_ok (build_all ReturnError c patterns ([], false)) = true).
    { by destruct (build_all _ _ _ _). }
    rewrite build_all_strict_ok. setoid_rewrite (deny_read_globs_elem p ctx _ _ Hp). split.
    + intros Hall c' [= <-] pat Hpat. destruct (proj1 Hok eq_refl pat Hpat) as [text Ht]. destruct (Hall text) as [g Hg]; [by exists pat|]. by exists text, g.
    + intros Hall text (pat & Hpat & Ht). destruct (Hall c eq_refl pat Hpat) as (text' & g & Ht' & Hg). exists g.
      by rewrite (glob_text_inj ctx pat text text' Ht Ht').
  - simpl in *. split; [done|]. intros Hall. apply Hok. intros pat Hpat. destruct (Hall c eq_refl pat Hpat) as (text & _ & Ht & _). by exists text.
Qed.

(** A policy that denies reads on the executor: [SlashTmp] only counts on POSIX. *)
Definition denies_reads p ctx : Prop :=
  policy_kind p = Restricted ∧
  ∃ e, e ∈ entries p ∧ entry_access e = Deny ∧ (entry_path e = Special SlashTmp → uri_convention (cwd ctx) = Some Posix).

Lemma has_context_read_denials_spec p ctx : has_context_read_denials p ctx = true ↔ denies_reads p ctx.
Proof.
  unfold has_context_read_denials, denies_reads, is_restricted, is_deny. rewrite andb_true_iff, bool_decide_eq_true, existsb_elem.
  apply and_iff_compat_l. apply exist_proper. intros e. apply and_iff_compat_l. rewrite andb_true_iff, bool_decide_eq_true.
  apply and_iff_compat_l. destruct (entry_path e) as [| |[]]; simpl; try naive_solver. rewrite negb_involutive, bool_decide_eq_true. naive_solver.
Qed.

(** ** Validation *)

Lemma head_None {A} (l : list A) : head l = None ↔ l = [].
Proof. by destruct l. Qed.

(** What a validation accepts: every required entry is present, and no concrete path is
    granted that the required denials cover. *)
Lemma validate_ok v (selected : FileSystemSandboxPolicy U) ctx : validate v selected ctx = Ok tt ↔
  Forall (λ e, contains_entry (entries selected) e = true) (required_entries v) ∧
  ∀ e path m, e ∈ entries selected → entry_path e = PathEntry path → can_read (entry_access e) = true →
    uri_convention path = uri_convention (cwd ctx) → validator_matcher v = Some m →
    matches_prepared_read_deny path ctx m = false.
Proof.
  unfold validate. destruct (head (omap (violating_path v ctx) (entries selected))) as [q|] eqn:Hh.
  - split; [done|]. intros [_ Hno]. exfalso. apply head_Some in Hh as [l Hl].
    assert (q ∈ omap (violating_path v ctx) (entries selected)) as Hq by (rewrite Hl; left).
    apply list_elem_of_omap in Hq as (e & He & Hv). unfold violating_path in Hv.
    destruct (can_read (entry_access e)) eqn:Hr; [|done]. destruct (entry_path e) eqn:Hp; try done.
    destruct (negb _) eqn:Hc in Hv; [done|]. destruct (validator_matcher v) as [m|] eqn:Hm; [|done].
    destruct (matches_prepared_read_deny path ctx m) eqn:Hd; [|done].
    bool_hyps. by rewrite (Hno e path m) in Hd.
  - apply head_None in Hh. split.
    + intros H. destruct (existsb _ _) eqn:Hmiss in H; [done|]. split.
      * apply Forall_forall. intros e He. rewrite existsb_false in Hmiss. apply negb_false_iff. by apply Hmiss.
      * intros e path m He Hp Hr Hc Hm. destruct (matches_prepared_read_deny path ctx m) eqn:Hd; [|done].
        exfalso. assert (path ∈ omap (violating_path v ctx) (entries selected)) as Hin.
        { apply list_elem_of_omap. exists e. split; [done|]. unfold violating_path.
          rewrite Hr, Hp, Hm, (bool_decide_true _ Hc), Hd. done. }
        rewrite Hh in Hin. by apply elem_of_nil in Hin.
    + intros [Hreq _]. rewrite existsb_none; [done|]. intros e He. rewrite Forall_forall in Hreq. by rewrite Hreq.
Qed.

(** ** Concrete workspace roots *)

Lemma materialized_inside subpath is_glob root q :
  materialized_path subpath is_glob root = Some q → uri_starts_with q root = true.
Proof.
  unfold materialized_path. destruct (is_glob && _); [done|]. destruct subpath as [sub|].
  - unfold resolve_scoped_workspace_path. destruct (uri_convention root) as [c|]; [|done]. simpl.
    destruct (_ || _ || _ || _); [done|]. destruct (uri_join root sub) as [z|]; [|done]. simpl.
    destruct (uri_starts_with z root) eqn:E; [|done]. by intros [= <-].
  - intros [= <-]. apply uri_starts_with_self.
Qed.

Lemma materialize_entries_elem roots es es' : materialize_entries roots es = Some es' →
  ∀ e', e' ∈ es' ↔ ∃ e l, e ∈ es ∧ materialize_entry roots e = Some l ∧ e' ∈ l.
Proof.
  revert es'. induction es as [|e es IH]; intros es' H; simpl in H.
  - injection H as <-. intros e'. split; [by intros ?%elem_of_nil|]. by intros (? & ? & ?%elem_of_nil & _).
  - destruct (materialize_entry roots e) as [l|] eqn:El; [|done]. simpl in H.
    destruct (materialize_entries roots es) as [rest|]; [|done]. injection H as <-. intros e'.
    rewrite elem_of_app, (IH rest eq_refl). split.
    + intros [?|(e0 & l0 & ? & ? & ?)].
      * exists e, l. split_and!; [by left|done..].
      * exists e0, l0. split_and!; [by right|done..].
    + intros (e0 & l0 & [->|?]%elem_of_cons & Hl & ?); [left; congruence|right; eauto].
Qed.

(** Every entry of the source is in the image. *)
Lemma materialize_entries_total roots es es' e : materialize_entries roots es = Some es' → e ∈ es →
  ∃ l, materialize_entry roots e = Some l ∧ ∀ x, x ∈ l → x ∈ es'.
Proof.
  intros H He. assert (is_Some (materialize_entry roots e)) as [l Hl].
  { revert es' H. induction es as [|e0 es IH]; intros es' H; [by apply elem_of_nil in He|]. simpl in H.
    destruct (materialize_entry roots e0) as [l0|] eqn:E0; [|done]. simpl in H.
    destruct (materialize_entries roots es) as [rest|] eqn:Er; [|done].
    apply elem_of_cons in He as [->|He]; [by eexists|by eapply IH]. }
  exists l. split; [done|]. intros x Hx. apply (materialize_entries_elem _ _ _ H). eauto.
Qed.

(** An entry with a target in a root. *)
Definition entry_within root e : Prop :=
  ∃ q, uri_starts_with q root = true ∧
    (entry_path e = PathEntry q ∨ entry_path e = GlobPattern (inferred_native_path_string q)).

Lemma materialize_for_root_within e sub g root e' : materialize_for_root e sub g root = Some e' →
  entry_within root e' ∧ (entry_access e' = entry_access e ∨ entry_access e' = Deny).
Proof.
  unfold materialize_for_root. destruct (materialized_path sub g root) as [q|] eqn:Hq.
  - intros [= <-]. split; [|by left]. exists q. split; [by eapply materialized_inside|]. destruct g; auto.
  - destruct (negb _); [|done]. intros [= <-]. split; [|by right]. exists root.
    split; [apply uri_starts_with_self|by left].
Qed.

(** The entries that name workspace roots: the special path, and globs with its prefix. *)
Inductive symbolic e : option str → bool → Prop :=
| symbolic_path subpath : entry_path e = Special (ProjectRoots subpath) → symbolic e subpath false
| symbolic_glob rest : entry_path e = GlobPattern (PROJECT_ROOTS_GLOB_PATTERN_PREFIX ++ rest) → symbolic e (Some rest) true.

Lemma project_subpath_spec e subpath is_glob : project_subpath (entry_path e) = Some (subpath, is_glob) ↔ symbolic e subpath is_glob.
Proof.
  split.
  - destruct (entry_path e) as [q|pat|v] eqn:Ep; cbn [project_subpath]; [done| |].
    + destruct (strip_prefix PROJECT_ROOTS_GLOB_PATTERN_PREFIX pat) as [rest|] eqn:Hs; [|done]. intros [= <- <-]. apply strip_prefix_Some in Hs as ->. by apply symbolic_glob.
    + destruct v; try done. intros [= <- <-]. by apply symbolic_path.
  - intros [sub ->|rest ->]; [done|]. cbn [project_subpath]. by rewrite strip_prefix_app.
Qed.

(** A subpath that stays inside a root: relative, without dots, and on Windows without
    drives and streams. *)
Definition scoped_subpath (c : PathConvention) (subpath : str) : Prop :=
  ¬ lit "/" `prefix_of` subpath ∧ (c = Windows → ¬ lit "\" `prefix_of` subpath) ∧
  ∀ segment, segment ∈ path_segments c subpath → segment ≠ lit "." ∧ segment ≠ lit ".." ∧ (c = Windows → contains (lit ":") segment = false).

(** The target of a symbolic entry in a root, which for a glob must be writable in one. *)
Definition target_in (subpath : option str) (is_glob : bool) root q : Prop :=
  (is_glob = true → ∃ c, uri_convention root = Some c ∧ is_ok (validate_glob_directory root c) = true) ∧
  match subpath with
  | None => q = root
  | Some subpath => ∃ c, uri_convention root = Some c ∧ scoped_subpath c subpath ∧ uri_join root subpath = Ok q ∧ uri_starts_with q root = true
  end.

Lemma scoped_subpath_spec c subpath :
  (let windows := bool_decide (c = Windows) in
   starts_with [c_slash] subpath || windows && starts_with [c_backslash] subpath
     || existsb is_dots (path_segments c subpath) || windows && existsb (contains [c_colon]) (path_segments c subpath)) = false ↔
  scoped_subpath c subpath.
Proof.
  unfold scoped_subpath. cbv zeta. rewrite !orb_false_iff. setoid_rewrite <- (not_true_iff_false (starts_with [c_slash] subpath)).
  rewrite starts_with_spec, existsb_false. unfold is_dots, dot, dotdot. setoid_rewrite orb_false_iff. setoid_rewrite bool_decide_eq_false.
  destruct c; simpl.
  - naive_solver.
  - rewrite existsb_false. setoid_rewrite <- (not_true_iff_false (starts_with [c_backslash] subpath)). rewrite starts_with_spec. naive_solver.
Qed.

Lemma materialized_target subpath is_glob root q : materialized_path subpath is_glob root = Some q ↔ target_in subpath is_glob root q.
Proof.
  unfold materialized_path, target_in. transitivity ((is_glob = true → ∃ c, uri_convention root = Some c ∧ is_ok (validate_glob_directory root c) = true) ∧
    match subpath with None => Some root | Some subpath => resolve_scoped_workspace_path root subpath end = Some q).
  - destruct is_glob; simpl; [|by split; [split|intros [_ ?]]]. destruct (uri_convention root) as [c|]; [|split; [done|]; intros [(c & [=] & _) _]; done].
    destruct (is_ok (validate_glob_directory root c)) eqn:E; simpl.
    + split; [|by intros [_ ?]]. intros ?. split; [|done]. intros _. by exists c.
    + split; [done|]. intros [(c' & [= <-] & ?) _]; congruence.
  - apply and_iff_compat_l. destruct subpath as [sub|]; [|naive_solver]. unfold resolve_scoped_workspace_path.
    destruct (uri_convention root) as [c|]; [|split; [done|]; by intros (? & [=] & _)]. cbn [mbind option_bind].
    pose proof (scoped_subpath_spec c sub) as Hs. cbv zeta in Hs. destruct (_ || _ || _ || _).
    + split; [done|]. intros (c' & [= <-] & Hsc & _). by apply Hs in Hsc.
    + assert (scoped_subpath c sub) as Hsc by by apply Hs. destruct (uri_join root sub) as [z|e] eqn:Ej; simpl.
      * destruct (uri_starts_with z root) eqn:E; split; [intros [= <-]; by exists c|intros (? & _ & _ & ? & _); congruence|done|].
        intros (? & _ & _ & [= <-] & ?). congruence.
      * split; [done|]. by intros (? & _ & _ & ? & _).
Qed.

(** A denial whose subpath a root reads as home-relative. *)
Definition home_relative_denial self (roots : list U) : Prop :=
  ∃ e suffix is_glob root c, e ∈ entries self ∧ entry_access e = Deny ∧ symbolic e (Some (lit "~" ++ suffix)) is_glob ∧
    root ∈ roots ∧ uri_convention root = Some c ∧
    (suffix = [] ∨ lit "/" `prefix_of` suffix ∨ c = Windows ∧ lit "\" `prefix_of` suffix).

Lemma home_relative_spec c (text : str) : is_Some (home_relative_suffix c text) ↔
  ∃ suffix, text = lit "~" ++ suffix ∧ (suffix = [] ∨ lit "/" `prefix_of` suffix ∨ c = Windows ∧ lit "\" `prefix_of` suffix).
Proof.
  unfold home_relative_suffix. destruct (strip_prefix (lit "~") text) as [suffix|] eqn:Hs.
  - apply strip_prefix_Some in Hs as ->. transitivity (suffix = [] ∨ lit "/" `prefix_of` suffix ∨ c = Windows ∧ lit "\" `prefix_of` suffix).
    + rewrite <- (starts_with_spec (lit "/")), <- (starts_with_spec (lit "\")).
      change (starts_with (lit "/") suffix) with (starts_with [c_slash] suffix). change (starts_with (lit "\") suffix) with (starts_with [c_backslash] suffix).
      destruct (bool_decide (suffix = []) || _ || _) eqn:E.
      * apply orb_true_iff in E as [[?%bool_decide_eq_true|?]%orb_true_iff|[?%bool_decide_eq_true ?]%andb_true_iff]; split; eauto.
      * apply orb_false_iff in E as [[E1%bool_decide_eq_false E2]%orb_false_iff E3]. split; [intros []%is_Some_None|].
        intros [?|[?|[-> Hb]]]; [done|congruence|]. rewrite bool_decide_true in E3 by done. simpl in E3. congruence.
    + split; [intros ?; by exists suffix|]. intros (suffix' & [= <-] & ?). done.
  - apply strip_prefix_None in Hs. split; [intros []%is_Some_None|]. intros (suffix & -> & _). destruct Hs. by exists suffix.
Qed.

Lemma materialize_entries_none roots es : materialize_entries roots es = None ↔ ∃ e, e ∈ es ∧ materialize_entry roots e = None.
Proof.
  induction es as [|e es IH]; simpl; [split; [done|]; by intros (? & ?%elem_of_nil & _)|].
  setoid_rewrite elem_of_cons. destruct (materialize_entry roots e) as [l|] eqn:E; simpl.
  - transitivity (materialize_entries roots es = None); [by destruct (materialize_entries roots es)|]. rewrite IH. split.
    + intros (x & ? & ?). exists x. auto.
    + intros (x & [->|?] & ?); [congruence|by exists x].
  - split; [|done]. intros _. exists e. auto.
Qed.

Lemma materialize_refused self roots :
  try_materialize_project_roots_with_path_uris self roots = None ↔ home_relative_denial self roots.
Proof.
  unfold try_materialize_project_roots_with_path_uris. transitivity (materialize_entries roots (entries self) = None).
  { by destruct (materialize_entries _ _). }
  rewrite materialize_entries_none. unfold home_relative_denial. apply exist_proper. intros e. unfold materialize_entry.
  destruct (project_subpath (entry_path e)) as [[subpath g]|] eqn:Hp.
  2: { split; [by intros [_ ?]|]. intros (suffix & g & root & c & _ & _ & Hs%project_subpath_spec & _). congruence. }
  set (home := match subpath with Some _ => _ | None => false end).
  assert (home = true ↔ ∃ suffix root c, subpath = Some (lit "~" ++ suffix) ∧ root ∈ roots ∧ uri_convention root = Some c ∧
    (suffix = [] ∨ lit "/" `prefix_of` suffix ∨ c = Windows ∧ lit "\" `prefix_of` suffix)) as Hhome.
  { unfold home. destruct subpath as [sub|]; [|split; [done|]; by intros (? & ? & ? & ? & _)]. rewrite existsb_elem. split.
    - intros (root & Hr & Hm). destruct (uri_convention root) as [c|] eqn:Hc; [|done].
      apply bool_decide_eq_true, home_relative_spec in Hm as (suffix & -> & Hm). by exists suffix, root, c.
    - intros (suffix & root & c & [= ->] & Hr & Hc & Hm). exists root. split; [done|]. rewrite Hc. apply bool_decide_eq_true, home_relative_spec. by exists suffix. }
  transitivity (e ∈ entries self ∧ entry_access e = Deny ∧ home = true).
  { apply and_iff_compat_l. unfold is_deny. case_bool_decide; destruct home; simpl; naive_solver. }
  rewrite Hhome. split.
  - intros (He & Hd & suffix & root & c & -> & Hrest). apply project_subpath_spec in Hp. by exists suffix, g, root, c.
  - intros (suffix & g' & root & c & He & Hd & Hs%project_subpath_spec & Hrest). assert (subpath = Some (lit "~" ++ suffix)) by congruence.
    split; [done|]. split; [done|]. by exists suffix, root, c.
Qed.

(** The entries of the image, exactly. *)
Lemma materialize_image self roots p' e' : try_materialize_project_roots_with_path_uris self roots = Some p' →
  e' ∈ entries p' ↔
  (e' ∈ entries self ∧ ∀ subpath is_glob, ¬ symbolic e' subpath is_glob) ∨
  ∃ e subpath is_glob root, e ∈ entries self ∧ symbolic e subpath is_glob ∧ root ∈ roots ∧
    ((∃ q, target_in subpath is_glob root q ∧
        e' = mkEntry (if is_glob then GlobPattern (inferred_native_path_string q) else PathEntry q) (entry_access e) (missing_path_behavior e)) ∨
     (∀ q, ¬ target_in subpath is_glob root q) ∧ entry_access e ≠ Write ∧ e' = mkEntry (PathEntry root) Deny (missing_path_behavior e)).
Proof.
  unfold try_materialize_project_roots_with_path_uris. intros H.
  destruct (materialize_entries roots (entries self)) as [es'|] eqn:Hes; [|done]. injection H as <-. simpl.
  rewrite (materialize_entries_elem _ _ _ Hes).
  assert (∀ e subpath g root, materialize_for_root e subpath g root = Some e' ↔
    ((∃ q, target_in subpath g root q ∧
        e' = mkEntry (if g then GlobPattern (inferred_native_path_string q) else PathEntry q) (entry_access e) (missing_path_behavior e)) ∨
     (∀ q, ¬ target_in subpath g root q) ∧ entry_access e ≠ Write ∧ e' = mkEntry (PathEntry root) Deny (missing_path_behavior e))) as Hroot.
  { intros e subpath g root. unfold materialize_for_root. setoid_rewrite <- materialized_target.
    destruct (materialized_path subpath g root) as [q|].
    - split; [intros [= <-]; left; by exists q|]. by intros [(q' & [= <-] & ->)|[Hn _]]; [|destruct (Hn q)].
    - destruct (entry_access e); simpl; (split; [try (intros [= <-])|]); try done; try (right; by split_and!);
        intros [(q' & [=] & _)|(_ & Hw & ->)]; done. }
  split.
  - intros (e & l & He & Hl & Hin). unfold materialize_entry in Hl. destruct (project_subpath (entry_path e)) as [[subpath g]|] eqn:Hp.
    + destruct (is_deny e && _); [done|]. injection Hl as <-. apply list_elem_of_omap in Hin as (root & Hr & Hm%Hroot).
      right. exists e, subpath, g, root. by rewrite <- project_subpath_spec.
    + injection Hl as <-. apply list_elem_of_singleton in Hin as ->. left. split; [done|]. intros subpath g Hs%project_subpath_spec. congruence.
  - intros [[He Hn]|(e & subpath & g & root & He & Hs & Hr & Hm)].
    + exists e', [e']. split; [done|]. split; [|by left]. unfold materialize_entry.
      destruct (project_subpath (entry_path e')) as [[subpath g]|] eqn:Hp; [|done]. by apply project_subpath_spec, Hn in Hp.
    + destruct (materialize_entries_total _ _ _ e Hes He) as (l & Hl & _). exists e, l. split; [done|]. split; [done|].
      unfold materialize_entry in Hl. apply project_subpath_spec in Hs. rewrite Hs in Hl. destruct (is_deny e && _); [done|]. injection Hl as <-.
      apply list_elem_of_omap. exists root. split; [done|]. by apply Hroot.
Qed.

(** Nothing is granted outside the roots that was not granted before, and no denial is
    lost: each becomes, for each root, a denial within it. *)
Lemma materialize_confined self roots p' e' : try_materialize_project_roots_with_path_uris self roots = Some p' →
  e' ∈ entries p' →
  (e' ∈ entries self ∧ project_subpath (entry_path e') = None) ∨
  ∃ e root, e ∈ entries self ∧ root ∈ roots ∧ entry_within root e' ∧
    (entry_access e' = entry_access e ∨ entry_access e' = Deny).
Proof.
  unfold try_materialize_project_roots_with_path_uris. intros H He'.
  destruct (materialize_entries roots (entries self)) as [es'|] eqn:Hes; [|done]. injection H as <-. simpl in He'.
  apply (materialize_entries_elem _ _ _ Hes) in He' as (e & l & He & Hl & Hin). unfold materialize_entry in Hl.
  destruct (project_subpath (entry_path e)) as [[sub g]|] eqn:Hp.
  - destruct (is_deny e && _); [done|]. injection Hl as <-. apply list_elem_of_omap in Hin as (root & Hr & Hm).
    right. exists e, root. split_and!; [done..|by eapply materialize_for_root_within|by eapply materialize_for_root_within].
  - injection Hl as <-. apply list_elem_of_singleton in Hin as ->. by left.
Qed.

Lemma materialize_denials self roots p' e : try_materialize_project_roots_with_path_uris self roots = Some p' →
  e ∈ entries self → entry_access e = Deny →
  match project_subpath (entry_path e) with
  | None => e ∈ entries p'
  | Some _ => ∀ root, root ∈ roots → ∃ e', e' ∈ entries p' ∧ entry_access e' = Deny ∧ entry_within root e'
  end.
Proof.
  unfold try_materialize_project_roots_with_path_uris. intros H He Hd.
  destruct (materialize_entries roots (entries self)) as [es'|] eqn:Hes; [|done]. injection H as <-. simpl.
  destruct (materialize_entries_total _ _ _ e Hes He) as (l & Hl & Hsub). unfold materialize_entry in Hl.
  destruct (project_subpath (entry_path e)) as [[sub g]|] eqn:Hp.
  - destruct (is_deny e && _); [done|]. injection Hl as <-. intros root Hr.
    assert (is_Some (materialize_for_root e sub g root)) as [e' He'].
    { unfold materialize_for_root. destruct (materialized_path sub g root); [eauto|]. rewrite Hd. simpl. eauto. }
    exists e'. split; [apply Hsub, list_elem_of_omap; eauto|].
    destruct (materialize_for_root_within _ _ _ _ _ He') as [? [Ha|?]]; [|done]. split; [congruence|done].
  - injection Hl as <-. apply Hsub. by apply list_elem_of_singleton.
Qed.

Lemma omap_cons {A B} (f : A → option B) z l :
  omap f (z :: l) = match f z with Some y => y :: omap f l | None => omap f l end.
Proof. done. Qed.

(** With every target resolved, the concrete entries resolve as the symbolic ones do. *)
Lemma materialize_entry_resolved ctx e l : materialize_entry (workspace_roots ctx) e = Some l →
  (∀ sub g root, project_subpath (entry_path e) = Some (sub, g) → root ∈ workspace_roots ctx →
     is_Some (materialized_path sub g root)) →
  flat_map (resolve_entry ctx) l = resolve_entry ctx e.
Proof.
  unfold materialize_entry. destruct (project_subpath (entry_path e)) as [[sub g]|] eqn:Hp.
  2: { intros [= <-] _. simpl. apply app_nil_r. }
  destruct (is_deny e && _); [done|]. intros [= <-] Hall. specialize (Hall sub g).
  unfold resolve_entry at 2. destruct (entry_path e) as [q|pat|v] eqn:Ep; [done| |]; unfold project_subpath in Hp.
  - destruct (strip_prefix _ _); [|done]. injection Hp as <- <-. simpl.
    induction (workspace_roots ctx) as [|root roots IH]; [done|]. simpl.
    destruct (Hall root eq_refl) as [q Hq]; [left|]. unfold materialize_for_root. rewrite Hq. simpl.
    apply IH. intros r ? ?. apply Hall; [done|by right].
  - destruct v as [| |s| | |]; try done. injection Hp as <- <-. cbn [resolve_special].
    induction (workspace_roots ctx) as [|root roots IH]; [done|]. rewrite !omap_cons.
    destruct (Hall root eq_refl) as [q Hq]; [left|].
    assert (materialize_for_root e s false root = Some (mkEntry (PathEntry q) (entry_access e) (missing_path_behavior e)))
      as -> by (unfold materialize_for_root; by rewrite Hq).
    cbn [flat_map]. rewrite IH by (intros r ? ?; apply Hall; [done|by right]).
    unfold resolve_entry at 1. cbn [entry_path entry_access].
    assert (match s with Some subpath => ok (uri_join root subpath) | None => Some root end = Some q) as ->.
    { unfold materialized_path in Hq. cbn [andb] in Hq. destruct s as [sp|]; [|done].
      unfold resolve_scoped_workspace_path in Hq. destruct (uri_convention root); [|done]. simpl in Hq.
      destruct (_ || _ || _ || _); [done|]. destruct (uri_join root sp) as [z|]; [|done]. simpl in *.
      by destruct (uri_starts_with z root). }
    rewrite !filter_cons, filter_nil. by case_decide.
Qed.

Lemma materialize_resolved self p' ctx :
  try_materialize_project_roots_with_path_uris self (workspace_roots ctx) = Some p' →
  (∀ e sub g root, e ∈ entries self → project_subpath (entry_path e) = Some (sub, g) →
     root ∈ workspace_roots ctx → is_Some (materialized_path sub g root)) →
  policy_kind p' = policy_kind self ∧ resolved_entries p' ctx = resolved_entries self ctx.
Proof.
  unfold try_materialize_project_roots_with_path_uris. intros H Hall.
  destruct (materialize_entries (workspace_roots ctx) (entries self)) as [es'|] eqn:Hes; [|done]. injection H as <-.
  split; [done|]. unfold resolved_entries. simpl. revert es' Hes.
  induction (entries self) as [|e es IH]; intros es' Hes; simpl in Hes; [by injection Hes as <-|].
  destruct (materialize_entry _ e) as [l|] eqn:Hl; [|done]. simpl in Hes.
  destruct (materialize_entries _ es) as [rest|]; [|done]. injection Hes as <-.
  rewrite flat_map_app. simpl. f_equal.
  - apply materialize_entry_resolved; [done|]. intros sub g root. apply Hall. left.
  - apply IH; [|done]. intros e0 sub g root ?. apply Hall. by right.
Qed.

Lemma same_resolved_access self p' path ctx : policy_kind p' = policy_kind self →
  resolved_entries p' ctx = resolved_entries self ctx →
  resolve_access p' path ctx = resolve_access self path ctx ∧
  metadata_write_denial p' path ctx = metadata_write_denial self path ctx.
Proof.
  intros Hk Hr. unfold resolve_access, metadata_write_denial, writable_roots, is_restricted. by rewrite Hk, Hr.
Qed.
End deny.
