(* ===== verification/FsSpec.v ===== *)
(** * FsSpec: the properties of the file-system policy

    Which entry decides, what full access means, what carrying denials over, validating
    them and making workspace roots concrete guarantee, and the scan of a Windows glob. *)
From Stdlib Require Import ZifyBool.
From S2P Require Import Prelude RustStr UnixPath Utf8Stream Utf8Encode PatchErrors FsInterface PathUri PathUriLaws PathJoinFacts PathText FsPolicy FsDeny FsPolicyFacts.

Section policy.
Context {U : Type} {UO : UrlOps U} {UC : UrlCoding}.
Implicit Types (p self existing : FileSystemSandboxPolicy U) (e : FileSystemSandboxEntry U)
  (ctx : FileSystemSandboxPolicyContext U) (path root q : U).

(** C25.  In a restricted policy the deepest entries that contain a path decide: it is denied
    exactly if one of them denies, else writable exactly if one of them writes, and only
    readable exactly if all of them read.  The order of the entries does not matter, nor do
    shallower entries; a path that no entry contains, or that cannot be compared with the
    working directory or with every root, is denied. *)
Theorem access_most_specific p path ctx : policy_kind p = Restricted →
  (∀ c, in_context path ctx c → comparable_roots p ctx →
     ((∀ a n, ¬ covered_at p path ctx a n) → resolve_access p path ctx = Deny) ∧
     ∀ n, (∃ a, covered_at p path ctx a n) → (∀ a m, covered_at p path ctx a m → m ≤ n) →
       (resolve_access p path ctx = Deny ↔ covered_at p path ctx Deny n) ∧
       (resolve_access p path ctx = Write ↔ covered_at p path ctx Write n ∧ ¬ covered_at p path ctx Deny n) ∧
       (resolve_access p path ctx = Read ↔ ∀ a, covered_at p path ctx a n → a = Read)) ∧
  ((¬ ∃ c, in_context path ctx c) ∨ ¬ comparable_roots p ctx → resolve_access p path ctx = Deny) ∧
  (∀ p', policy_kind p' = Restricted → (∀ e, e ∈ entries p ↔ e ∈ entries p') →
     resolve_access p' path ctx = resolve_access p path ctx).
Proof.
  intros Hk. split_and!.
  - intros c Hin Hcomp. destruct (resolve_access_deepest p path ctx c Hk Hin Hcomp) as [[Hno Ha]|(n & Hn & Hmax)].
    { split; [done|]. intros n [a Ha']. by destruct (Hno a n). }
    split; [intros Hno; by destruct (Hno _ _ Hn)|]. intros m [a0 Ha0] Hdeep.
    assert (m = n) as -> by (pose proof (Hdeep _ _ Hn); destruct (Hmax _ _ Ha0); lia).
    assert (∀ a, covered_at p path ctx a n → access_rank a ≤ access_rank (resolve_access p path ctx)) as Hr.
    { intros a Ha. destruct (Hmax a n Ha); lia. }
    pose proof (Hr Deny) as Hd. pose proof (Hr Write) as Hw. pose proof (Hr Read) as Hre. simpl in Hd, Hw, Hre.
    destruct (resolve_access p path ctx) eqn:E; simpl in *.
    + split_and!; [split; [done|]; intros ?%Hd; lia|split; [done|]; intros [?%Hw _]; lia|split; [|done]]. intros _ a Ha.
      destruct a; [done|apply Hw in Ha; lia|apply Hd in Ha; lia].
    + split_and!; [split; [done|]; intros ?%Hd; lia|split; [|done]; intros _; split; [done|]; intros ?%Hd; lia|split; [done|]].
      intros Hall. by discriminate (Hall _ Hn).
    + split_and!; [done|split; [done|]; by intros [_ ?]|split; [done|]]. intros Hall. by discriminate (Hall _ Hn).
  - intros [H|H]; [by apply resolve_access_outside|].
    destruct (in_some_context path ctx) as [[c Hin]|]; [|by apply resolve_access_outside].
    rewrite (resolve_access_in_context p path ctx c) by done. rewrite comparable_has_depth in H. by apply with_depths_None in H as ->.
  - intros p' Hk' He. symmetry. apply resolve_access_same_entries; [congruence|done].
Qed.

(** ** Denials carried over *)

Lemma preserve_adds self existing : policy_kind self = Restricted →
  adds_denials self (preserve_deny_read_restrictions_from self existing) ∧
  Forall (λ e, contains_entry (entries (preserve_deny_read_restrictions_from self existing)) e = true) (deny_entries existing).
Proof.
  intros Hk. unfold preserve_deny_read_restrictions_from. rewrite bool_decide_false by congruence. cbn [andb].
  unfold is_restricted. rewrite bool_decide_true by done. cbn [negb entries policy_kind].
  destruct (push_all_missing (deny_entries existing) (entries self)) as (added & -> & Hin & Hall).
  split; [|done]. split_and!; [done..|]. exists added. split; [done|].
  eapply Forall_impl; [exact Hin|]. intros e [He _]%list_elem_of_filter. unfold is_deny in He. by bool_hyps.
Qed.

Lemma unrestricted_all p path ctx : policy_kind p ≠ Restricted →
  can_read_path p path ctx = true ∧ can_write_path p path ctx = true.
Proof.
  intros Hk. unfold can_read_path, can_write_path, resolve_access, has_full_disk_write_access_with_context,
    has_full_disk_write_access_for_convention. by destruct (policy_kind p).
Qed.

Lemma push_all_contained ds es : Forall (λ e, contains_entry es e = true) ds → foldl push_missing es ds = es.
Proof. revert es. induction 1 as [|d ds Hd _ IH]; [done|]. cbn [foldl]. unfold push_missing at 2. by rewrite Hd. Qed.

Lemma has_deny_elem p : existsb is_deny (entries p) = true ↔ ∃ e, e ∈ entries p ∧ entry_access e = Deny.
Proof. rewrite existsb_elem. unfold is_deny. by setoid_rewrite bool_decide_eq_true. Qed.

Lemma preserve_again self existing : policy_kind self = Restricted →
  Forall (λ e, contains_entry (entries self) e = true) (deny_entries existing) →
  (glob_scan_max_depth self = None → glob_scan_max_depth existing = None) →
  preserve_deny_read_restrictions_from self existing = self.
Proof.
  intros Hk Hall Hg. unfold preserve_deny_read_restrictions_from. rewrite bool_decide_false by congruence. cbn [andb].
  unfold is_restricted. rewrite bool_decide_true by done. cbn [negb]. rewrite push_all_contained by done.
  destruct self as [k [d|] es]; simpl in *; [done|]. by rewrite Hg.
Qed.

Lemma preserve_depth self existing : policy_kind self = Restricted →
  glob_scan_max_depth (preserve_deny_read_restrictions_from self existing) = None → glob_scan_max_depth existing = None.
Proof.
  intros Hk. unfold preserve_deny_read_restrictions_from. rewrite bool_decide_false by congruence. cbn [andb].
  unfold is_restricted. rewrite bool_decide_true by done. cbn [negb glob_scan_max_depth].
  by destruct (glob_scan_max_depth self).
Qed.

(** A policy without restrictions becomes one that writes the root and holds the denials. *)
Lemma preserve_unrestricted self existing : policy_kind self = Unrestricted → existsb is_deny (entries existing) = true →
  preserve_deny_read_restrictions_from self existing =
  preserve_deny_read_restrictions_from (restricted [new_entry (Special Root) Write]) existing.
Proof.
  intros Hk Hd. unfold preserve_deny_read_restrictions_from. by rewrite (bool_decide_true _ Hk), Hd.
Qed.

Lemma preserve_other self existing :
  policy_kind self = ExternalSandbox ∨ policy_kind self = Unrestricted ∧ existsb is_deny (entries existing) = false →
  preserve_deny_read_restrictions_from self existing = self.
Proof.
  unfold preserve_deny_read_restrictions_from, is_restricted. intros [Hk|[Hk ->]]; rewrite Hk.
  - rewrite (bool_decide_false (ExternalSandbox = Unrestricted)) by done. cbn [andb]. by rewrite Hk.
  - rewrite andb_false_r, Hk. done.
Qed.

(** Carrying the read denials of a policy over to another never widens it: nothing gets
    readable or writable that was not; a policy that can be restricted then holds every
    denial, and carrying them over again changes nothing. *)
Theorem preserve_deny_narrows self existing :
  let p := preserve_deny_read_restrictions_from self existing in
  (∀ path ctx, can_read_path p path ctx = true → can_read_path self path ctx = true) ∧
  (∀ path ctx, can_write_path p path ctx = true → can_write_path self path ctx = true) ∧
  (policy_kind self ≠ ExternalSandbox → ∀ e, e ∈ entries existing → entry_access e = Deny →
     policy_kind p = Restricted ∧ contains_entry (entries p) e = true) ∧
  preserve_deny_read_restrictions_from p existing = p.
Proof.
  assert (∀ s, policy_kind s = Restricted → let p := preserve_deny_read_restrictions_from s existing in
    adds_denials s p ∧ (∀ e, e ∈ entries existing → entry_access e = Deny →
       policy_kind p = Restricted ∧ contains_entry (entries p) e = true) ∧
    preserve_deny_read_restrictions_from p existing = p) as Hres.
  { intros s Hk p. destruct (preserve_adds s existing Hk) as [Hadd Hall]. fold p in Hadd, Hall.
    pose proof Hadd as (_ & Hk' & _). split; [done|]. split; [|apply preserve_again; [done..|by apply preserve_depth]].
    intros e He Hd. split; [done|]. rewrite Forall_forall in Hall. apply Hall, list_elem_of_filter.
    split; [by apply bool_decide_true|done]. }
  intros p. destruct (decide (policy_kind self = Restricted)) as [Hk|Hk].
  { destruct (Hres self Hk) as (Hadd & Hall & Hid). split_and!; [| |by intros _|done]; intros path ctx.
    - unfold can_read_path. destruct (adds_denials_access self p path ctx Hadd) as [->| ->]; done.
    - by apply adds_denials_can_write. }
  split; [intros; by apply unrestricted_all|]. split; [intros; by apply unrestricted_all|].
  destruct (decide (policy_kind self = Unrestricted ∧ existsb is_deny (entries existing) = true)) as [[Hu He]|Hn].
  - unfold p. rewrite preserve_unrestricted by done. destruct (Hres (restricted [new_entry (Special Root) Write]) eq_refl) as (_ & Hall & Hid).
    split; [intros _; exact Hall|exact Hid].
  - assert (p = self) as Hp.
    { apply preserve_other. destruct (policy_kind self); [done| |by left]. right. split; [done|].
      apply not_true_iff_false. by intros ?; apply Hn. }
    rewrite Hp. split; [|exact Hp]. intros Hext e He Hd. exfalso. apply Hn.
    split; [by destruct (policy_kind self)|]. apply has_deny_elem. eauto.
Qed.
End policy.

Section laws.
Context {U : Type} {UO : UrlOps U} {UC : UrlCoding} {UCL : UrlCodingLaws UC} {UL : FileUrlLaws U}.
Implicit Types (p self existing : FileSystemSandboxPolicy U) (e : FileSystemSandboxEntry U)
  (ctx : FileSystemSandboxPolicyContext U) (path root q : U).

(** On a POSIX host, where a policy claims full access to the disk every path of the
    context can be read, or written: the shortcut agrees with asking path by path. *)
Theorem full_disk_access_posix p path ctx : in_context path ctx Posix → valid_uri (cwd ctx) → valid_entries p →
  Forall has_depth (resolved_entries p ctx) →
  (has_full_disk_read_access p = true → can_read_path p path ctx = true) ∧
  (has_full_disk_write_access_with_context p ctx = true → can_write_path p path ctx = true).
Proof.
  intros Hin Hv Hval Hdep. split; [by eapply full_disk_read|by eapply full_disk_write].
Qed.

(** Below a [.git], [.agents] or [.codex] of a writable root nothing can be written, and
    the refusal names the directory, unless a writable root lies inside a protected
    directory the path is in. *)
Theorem metadata_protected p path ctx q :
  policy_kind p = Restricted → has_full_disk_write_access_with_context p ctx = false → in_protected p path ctx q →
  (∀ q' r, in_protected p path ctx q' → r ∈ writable_roots p ctx →
     uri_starts_with path r = true → uri_starts_with r q' = false) →
  can_write_path p path ctx = false ∧
  ∃ name, forbidden_metadata_write p path ctx = Some name ∧ is_protected_metadata_name name = true.
Proof.
  intros Hk Hfull Hin Hno. destruct (metadata_not_writable p path ctx q) as [Hw [name Hn]]; [by apply bool_decide_true|done..|].
  split; [done|]. exists name. split; [done|]. unfold forbidden_metadata_write in Hn.
  destruct (negb _); [done|]. apply bind_Some in Hn as (m & Hm & Hn). rewrite Hw in Hn. injection Hn as ->.
  by eapply denial_name.
Qed.
End laws.

Section deny.
Context {U : Type} {UO : UrlOps U} {UC : UrlCoding} {PG : PathGlobs}.
Implicit Types (p self : FileSystemSandboxPolicy U) (e : FileSystemSandboxEntry U)
  (ctx : FileSystemSandboxPolicyContext U) (path root : U) (m : PreparedReadDenyMatcher U).

(** C32.  The matcher of read denials always exists, and lets through exactly the paths that no
    denied root contains, other than that of the file system, and no denied glob matches;
    none when a glob cannot be resolved or built.  The strict constructor gives the same
    matcher, or an error exactly when a glob cannot be resolved or built.  A denied root of
    the file system is left to the entries, which allow only what they name anyway. *)
Theorem read_deny_matcher_exact p ctx :
  (∃ m, prepare_deny_read_matcher p ctx FailClosed = Ok m ∧
     (∀ path, matches_prepared_read_deny path ctx m = false ↔ spared p path ctx) ∧
     (∀ m', prepare_deny_read_matcher p ctx ReturnError = Ok m' ↔ m' = m ∧ globs_usable p ctx)) ∧
  (is_Some (matcher_from_context p ctx) ↔ ∃ e, e ∈ entries p ∧ entry_access e = Deny).
Proof.
  destruct (prepare_fail_closed p ctx) as [m Hm]. split.
  - exists m. split; [done|]. split; [by apply matcher_spares|].
    intros m'. rewrite <- prepare_strict_ok. split.
    + intros H. split; [|by rewrite H]. apply prepare_strict in H. congruence.
    + intros [-> H]. destruct (prepare_deny_read_matcher p ctx ReturnError) as [m''|] eqn:E; [|done].
      apply prepare_strict in E. congruence.
  - rewrite <- has_deny_elem. unfold matcher_from_context. rewrite Hm. destruct (existsb _ _); simpl.
    + by split; [|eexists].
    + by split; [intros []%is_Some_None|].
Qed.

(** C35.  A policy passes the managed denials exactly when the denials can be prepared, the
    policy holds every required entry, and the denials spare every concrete path it makes
    readable.  The denials are those of a restricted policy with at least one entry that denies on
    the executor, without which only the entries are compared; a denied root of the file
    system, as such, covers nothing ([spared]). *)
Theorem deny_validation_exact p (required : FileSystemSandboxPolicy U) ctx :
  validate_managed_deny_read p required ctx = Ok tt ↔
  Forall (λ e, ∃ x, x ∈ entries p ∧ entry_eq x e = true) (entries required) ∧
  (denies_reads required ctx → globs_usable required ctx ∧
   ∀ e path, e ∈ entries p → entry_path e = PathEntry path → entry_access e ≠ Deny →
     uri_convention path = uri_convention (cwd ctx) → spared required path ctx).
Proof.
  rewrite <- has_context_read_denials_spec, <- prepare_strict_ok.
  assert (Forall (λ e, ∃ x, x ∈ entries p ∧ entry_eq x e = true) (entries required) ↔
    Forall (λ e, contains_entry (entries p) e = true) (entries required)) as ->.
  { unfold contains_entry. by setoid_rewrite existsb_elem. }
  assert (∀ e, entry_access e ≠ Deny ↔ can_read (entry_access e) = true) as Hread by (intros e; by destruct (entry_access e)).
  setoid_rewrite Hread. unfold validate_managed_deny_read, new_validator. destruct (has_context_read_denials required ctx).
  - destruct (prepare_deny_read_matcher required ctx ReturnError) as [m|err] eqn:Hm; simpl; [|naive_solver]. apply prepare_strict in Hm.
    rewrite map_err_ok, validate_ok. cbn [required_entries validator_matcher]. apply and_iff_compat_l. split.
    + intros Hall _. split; [done|]. intros e path He Hp Hr Hc. apply (matcher_spares required ctx m Hm). by eapply Hall.
    + intros Hall e path m' He Hp Hr Hc [= <-]. apply (matcher_spares required ctx m Hm). destruct (Hall eq_refl) as [_ H]. by eapply H.
  - simpl. rewrite map_err_ok, validate_ok. cbn [required_entries validator_matcher]. naive_solver.
Qed.

(** C28.  Making workspace roots concrete is refused exactly when a denial names a place of a
    home directory.  Otherwise the entries that name no roots stay, and every other one
    becomes, for each root, the same entry at its target, or, without a target, a denial of
    the whole root unless it grants writing; there are no others.  Where every target
    resolves that changes no access and no protection; nothing is granted outside a root;
    and every denial stays, one within each root for a symbolic one. *)
Theorem materialize_keeps_access self ctx :
  (try_materialize_project_roots_with_path_uris self (workspace_roots ctx) = None ↔
     home_relative_denial self (workspace_roots ctx)) ∧
  ∀ p, try_materialize_project_roots_with_path_uris self (workspace_roots ctx) = Some p →
  (policy_kind p = policy_kind self ∧ glob_scan_max_depth p = glob_scan_max_depth self) ∧
  (∀ e', e' ∈ entries p ↔
     (e' ∈ entries self ∧ ∀ subpath is_glob, ¬ symbolic e' subpath is_glob) ∨
     ∃ e subpath is_glob root, e ∈ entries self ∧ symbolic e subpath is_glob ∧ root ∈ workspace_roots ctx ∧
       ((∃ q, target_in subpath is_glob root q ∧
           e' = mkEntry (if is_glob then GlobPattern (inferred_native_path_string q) else PathEntry q) (entry_access e) (missing_path_behavior e)) ∨
        (∀ q, ¬ target_in subpath is_glob root q) ∧ entry_access e ≠ Write ∧ e' = mkEntry (PathEntry root) Deny (missing_path_behavior e))) ∧
  ((∀ e subpath is_glob root, e ∈ entries self → symbolic e subpath is_glob →
      root ∈ workspace_roots ctx → ∃ q, target_in subpath is_glob root q) →
   ∀ path, resolve_access p path ctx = resolve_access self path ctx ∧
           metadata_write_denial p path ctx = metadata_write_denial self path ctx) ∧
  (∀ e', e' ∈ entries p →
     (e' ∈ entries self ∧ ∀ subpath is_glob, ¬ symbolic e' subpath is_glob) ∨
     ∃ e root, e ∈ entries self ∧ root ∈ workspace_roots ctx ∧ entry_within root e' ∧
       (entry_access e' = entry_access e ∨ entry_access e' = Deny)) ∧
  (∀ e, e ∈ entries self → entry_access e = Deny →
     (∀ subpath is_glob, ¬ symbolic e subpath is_glob) ∧ e ∈ entries p ∨
     ∀ root, root ∈ workspace_roots ctx → ∃ e', e' ∈ entries p ∧ entry_access e' = Deny ∧ entry_within root e').
Proof.
  split; [apply materialize_refused|]. intros p H.
  assert (∀ e, (∀ subpath is_glob, ¬ symbolic e subpath is_glob) ↔ project_subpath (entry_path e) = None) as Hsym.
  { intros e. setoid_rewrite <- project_subpath_spec. destruct (project_subpath (entry_path e)) as [[sub g]|]; [|done].
    split; [|done]. intros Hn. by destruct (Hn sub g). }
  split_and!.
  - unfold try_materialize_project_roots_with_path_uris in H. destruct (materialize_entries _ _); [|done]. by injection H as <-.
  - unfold try_materialize_project_roots_with_path_uris in H. destruct (materialize_entries _ _); [|done]. by injection H as <-.
  - intros e'. by apply materialize_image.
  - intros Hall path. destruct (materialize_resolved self p ctx H) as [? ?]; [|by apply same_resolved_access].
    intros e sub g root He Hp Hr. apply project_subpath_spec in Hp. destruct (Hall e sub g root He Hp Hr) as [q Hq].
    exists q. by apply materialized_target.
  - intros e'. rewrite Hsym. by apply (materialize_confined self (workspace_roots ctx)).
  - intros e He Hd. pose proof (materialize_denials self (workspace_roots ctx) p e H He Hd) as Hm.
    destruct (project_subpath (entry_path e)) as [[sub g]|] eqn:Hp; [by right|left]. split; [by apply Hsym|done].
Qed.
End deny.

(** ** The scan of a Windows glob *)

Lemma literal_prefix_spec s :
  s = literal_prefix s ++ drop_while (negb ∘ is_glob_start) s ∧
  forallb (negb ∘ is_glob_start) (literal_prefix s) = true.
Proof.
  unfold literal_prefix. induction s as [|c s [IH1 IH2]]; [done|]. cbn [drop_while].
  change ((negb ∘ is_glob_start) c) with (negb (is_glob_start c)).
  destruct (is_glob_start c) eqn:Hc; cbn [negb]; [rewrite Nat.sub_diag; by split|].
  set (d := drop_while (negb ∘ is_glob_start) s) in *.
  assert (length d ≤ length s) as Hl. { rewrite IH1 at 1. rewrite length_app, length_take. lia. }
  replace (length (c :: s) - length d) with (S (length s - length d)) by (simpl; lia).
  cbn [take app forallb]. split; [by f_equal|]. apply andb_true_iff. split; [|done].
  change (negb (is_glob_start c) = true). by rewrite Hc.
Qed.

Lemma rfind_separator_spec s i : rfind_separator s = Some i →
  ∃ c, s !! i = Some c ∧ is_windows_separator c = true.
Proof.
  revert i. induction s as [|c s IH]; intros i; [done|]. cbn [rfind_separator].
  destruct (rfind_separator s) as [n|]; [intros [= <-]; by apply IH|].
  case_match; [intros [= <-]; by exists c|done].
Qed.

Lemma take_cut {A} (i : nat) (l : list A) c : l !! i = Some c → take (i + 1) l = take i l ++ [c].
Proof. intros H. rewrite Nat.add_1_r. by apply take_S_r. Qed.

Lemma forallb_take {A} (f : A → bool) n l : forallb f l = true → forallb f (take n l) = true.
Proof. rewrite <- (take_drop n l) at 1. rewrite forallb_app. by intros [? _]%andb_true_iff. Qed.

(** The directory a denied Windows glob is scanned from holds no glob character and is a
    prefix of the pattern, at most one separator before the rest; the depth of the scan is
    at most the configured one, and at most the number of components unless one is a
    recursive wildcard. *)
Theorem windows_scan_bounds pattern configured :
  let scan := windows_deny_read_glob_scan pattern configured in
  let components := nonempty_segments (path_segments Windows (pattern_suffix scan)) in
  forallb (negb ∘ is_glob_start) (scan_root scan) = true ∧
  (scan_root scan = lit "." ∧ pattern_suffix scan = pattern ∨
   ∃ separator, pattern = scan_root scan ++ separator ++ pattern_suffix scan ∧
     forallb is_windows_separator separator = true ∧ length separator ≤ 1) ∧
  match scan_max_depth scan with
  | None => configured = None ∧ lit "**" ∈ components
  | Some depth => (∀ n, configured = Some n → depth ≤ n) ∧ (lit "**" ∈ components ∨ depth ≤ length components)
  end.
Proof.
  intros scan components. destruct (literal_prefix_spec pattern) as [Hp Hlit].
  assert (∀ r s, scan_max_depth (let comps := nonempty_segments (path_segments Windows s) in mkScan r s
      (if existsb (λ s, bool_decide (s = lit "**")) comps then configured
       else Some (match configured with None => length comps | Some depth => Nat.min depth (length comps) end))) =
    scan_max_depth scan → s = pattern_suffix scan →
    match scan_max_depth scan with
    | None => configured = None ∧ lit "**" ∈ components
    | Some depth => (∀ n, configured = Some n → depth ≤ n) ∧ (lit "**" ∈ components ∨ depth ≤ length components)
    end) as Hdepth.
  { intros r s <- ->. cbn [scan_max_depth]. fold components. destruct (existsb _ components) eqn:E.
    - apply existsb_elem in E as (x & Hx & ->%bool_decide_eq_true).
      destruct configured; [split; [by intros ? [= <-]|by left]|by split].
    - split; [intros n ->; lia|right]. destruct configured; lia. }
  unfold scan, windows_deny_read_glob_scan in *. clear scan.
  destruct (rfind_separator (literal_prefix pattern)) as [i|] eqn:Hi.
  2: { split; [done|]. split; [by left|]. by eapply Hdepth. }
  apply rfind_separator_spec in Hi as (c & Hc & Hsep).
  assert (pattern = (take i (literal_prefix pattern) ++ [c]) ++ drop (i + 1) pattern) as Hcut.
  { rewrite <- (take_cut i _ c Hc). rewrite <- (take_drop (i + 1) pattern) at 1. f_equal.
    rewrite Hp at 1. apply take_app_le. apply lookup_lt_Some in Hc. lia. }
  cbn [scan_root pattern_suffix]. split; [by apply forallb_take|]. split; [right|by eapply Hdepth].
  destruct (_ || _).
  - exists []. rewrite (take_cut i _ c Hc). split; [exact Hcut|]. split; [done|simpl; lia].
  - exists [c]. rewrite app_assoc. split; [exact Hcut|]. split; [|simpl; lia]. simpl. by rewrite Hsep.
Qed.
