(* ===== verification/FsMem.v ===== *)
(** * FsMem: paths and policies at concrete inputs

    The theorems on path URIs and on the file-system policy, used through [PathMem] and a
    small glob matcher; and inputs on which the code does not do what it says. *)
From S2P Require Import Prelude RustStr UnixPath AbsolutePath Utf8Stream Utf8Encode PatchErrors FsInterface PathUri PathUriLaws PathJoinFacts PathText PathSpec PathMem FsPolicy FsDeny FsPolicyFacts FsSpec.

Module FsMem.
Export PathMem.

(** ** Globs: [*] stays inside a component *)

Fixpoint glob_match (p : str) : list byte → bool :=
  match p with
  | [] => λ s, bool_decide (s = [])
  | c :: p' =>
      if is_char 42%N c
      then fix star s := glob_match p' s || match s with d :: s' => negb (is_char c_slash d) && star s' | [] => false end
      else λ s, match s with d :: s' => is_char c d && glob_match p' s' | [] => false end
  end.

#[export] Instance mem_globs : PathGlobs := {
  GlobMatcher := str;
  build_glob _ _ pattern := if contains (lit "{") pattern then Err (lit "unclosed alternate group") else Ok pattern;
  is_match := glob_match;
}.

Lemma mem_valid (u : MemUrl) : uri_try_from u = Ok u → valid_uri u.
Proof. apply try_from_valid. Qed.

(** The hypotheses of the theorems, as tests. *)
Definition valid_entry (e : FileSystemSandboxEntry MemUrl) : bool :=
  match entry_path e with
  | PathEntry x => match uri_try_from x with Ok y => bool_decide (y = x) | Err _ => false end
  | _ => true
  end.

Lemma mem_valid_entries (p : FileSystemSandboxPolicy MemUrl) : forallb valid_entry (entries p) = true → valid_entries p.
Proof.
  intros H. apply Forall_forall. intros e He x Hx. rewrite forallb_forall in H.
  apply list_elem_of_In, H in He. unfold valid_entry in He. rewrite Hx in He.
  apply mem_valid. destruct (uri_try_from x); [|done]. by apply bool_decide_eq_true in He as ->.
Qed.

Definition no_nested_root (p : FileSystemSandboxPolicy MemUrl) path ctx : bool :=
  forallb (λ root, forallb (λ name,
    match uri_join_descendant root name with
    | Ok q => negb (uri_starts_with path q)
              || forallb (λ r, negb (uri_starts_with path r && uri_starts_with r q)) (writable_roots p ctx)
    | Err _ => true
    end) PROTECTED_METADATA_PATH_NAMES) (writable_roots p ctx).

Lemma no_nested_root_spec p path ctx : no_nested_root p path ctx = true →
  ∀ q r, in_protected p path ctx q → r ∈ writable_roots p ctx → uri_starts_with path r = true →
  uri_starts_with r q = false.
Proof.
  intros H q r (root & name & Hroot & Hname & Hq & Hs) Hr Hp. unfold no_nested_root in H. rewrite forallb_forall in H.
  apply list_elem_of_In, H in Hroot. rewrite forallb_forall in Hroot. apply list_elem_of_In, Hroot in Hname.
  rewrite Hq, Hs in Hname. cbn [negb orb] in Hname. rewrite forallb_forall in Hname. apply list_elem_of_In, Hname in Hr. rewrite Hp in Hr. by apply negb_true_iff in Hr.
Qed.

Ltac decided := apply (bool_decide_unpack _); vm_compute; exact I.
Ltac valid := apply mem_valid; vm_compute; reflexivity.

(** ** Paths *)

Lemma uri_equality_witness :
  uri_hash (url (lit "file:///C:/A/x")) = uri_hash (url (lit "file:///c:/a/X")).
Proof. apply (uri_equality (U := MemUrl)). vm_compute. reflexivity. Defined.

Lemma path_uri_values_valid_witness :
  valid_uri (url (lit "file:///C:/b")).
Proof.
  apply (proj1 (proj2 (proj2 (proj2 (proj2 (proj2 (proj2 (path_uri_values_valid (U := MemUrl) (Env := sample_env)))))))) (url (lit "file:///C:/a")) (lit "..\..\b")).
  - valid.
  - reflexivity.
  - left. vm_compute. reflexivity.
Defined.

Lemma uri_containment_order_witness :
  uri_starts_with (url (lit "file:///C:/a/b/c")) (url (lit "file:///c:/A")) = true.
Proof.
  assert (∀ u : MemUrl, uri_try_from u = Ok u →
    forallb (λ s, is_ok (from_utf8 (decode_binary s))) (m_segments u) = true → valid_uri u ∧ text_names u) as H.
  { intros u Hu Hn. split; [by apply mem_valid|]. intros _ ss [= <-]. by apply Forall_forall; intros s Hs;
      rewrite forallb_forall in Hn; apply Hn, list_elem_of_In. }
  apply (uri_containment_order (url (lit "file:///C:/a/b/c")) (url (lit "file:///C:/A/B")) (url (lit "file:///c:/A"))).
  - repeat (apply Forall_cons; split; [apply H; vm_compute; reflexivity|]). apply Forall_nil. exact I.
  - vm_compute. reflexivity.
  - vm_compute. reflexivity.
Defined.

Lemma uri_ancestors_end_witness :
  ∃ r, last (uri_ancestors (url (lit "file:///a//b/c/"))) = Some r ∧ uri_parent r = None.
Proof. apply (uri_ancestors_end (url (lit "file:///a//b/c/"))). valid. Defined.

Lemma uri_join_lexical_witness :
  ∃ v, uri_join (url (lit "file:///C:/a")) (lit "..\..\b") = Ok v ∧ uri_names v = [lit "C:"; lit "b"].
Proof.
  destruct (uri_join_lexical (url (lit "file:///C:/a")) (lit "..\..\b") Windows (lit "..\..\b")) as (v & Hj & _ & Hn).
  - valid.
  - exists [lit "C:"; lit "a"]. split; [decided|left; reflexivity].
  - reflexivity.
  - reflexivity.
  - decided.
  - decided.
  - vm_compute. reflexivity.
  - reflexivity.
  - decided.
  - exists v. split; [exact Hj|]. apply Hn. left. reflexivity.
Defined.

Lemma native_text_round_trip_witness :
  ∃ v : MemUrl, from_absolute_native_path (lit "/a/b c/") Posix = Some v ∧ text_from_path_uri v Posix = Ok (lit "/a/b c/").
Proof.
  apply (native_text_round_trip (U := MemUrl) (lit "/a/b c/")); [reflexivity|].
  exists [lit "a"; lit "b c"], []. split; [reflexivity|]. split; [decided|]. split; [decided|].
  split; reflexivity.
Defined.

(** ** The policy *)

Definition here (ss : list str) : FileSystemSandboxPolicyContext MemUrl :=
  mkContext (url (lit "file:///w")) (map url ss) (Some (url (lit "file:///home/u"))) None.
Definition path_entry (s : str) (a : FileSystemAccessMode) : FileSystemSandboxEntry MemUrl := new_entry (PathEntry (url s)) a.

(** The root readable, the workspace writable, a secret denied. *)
Definition sample : FileSystemSandboxPolicy MemUrl :=
  restricted [new_entry (Special Root) Read; new_entry (Special (ProjectRoots None)) Write;
              path_entry (lit "file:///w/secret") Deny].

Lemma access_most_specific_witness :
  resolve_access (restricted (rev (entries sample))) (url (lit "file:///w/secret/k")) (here [lit "file:///w"]) = Deny.
Proof.
  transitivity (resolve_access sample (url (lit "file:///w/secret/k")) (here [lit "file:///w"])); [|vm_compute; reflexivity].
  apply (access_most_specific sample (url (lit "file:///w/secret/k")) (here [lit "file:///w"])); [reflexivity|reflexivity|].
  intros e. cbn [entries rev app sample restricted]. rewrite !elem_of_cons. tauto.
Defined.

(** With the root writable and nothing narrowing, [can_write_path] agrees. *)
Lemma full_disk_access_posix_witness :
  can_write_path (restricted [new_entry (Special Root) Write; path_entry (lit "file:///w") Write])
    (url (lit "file:///etc/passwd")) (here []) = true.
Proof.
  apply (full_disk_access_posix (restricted [new_entry (Special Root) Write; path_entry (lit "file:///w") Write])
           (url (lit "file:///etc/passwd")) (here [])).
  - decided.
  - valid.
  - apply mem_valid_entries. vm_compute. reflexivity.
  - decided.
  - vm_compute. reflexivity.
Defined.

Lemma preserve_deny_narrows_witness :
  policy_kind (preserve_deny_read_restrictions_from unrestricted sample) = Restricted ∧
  contains_entry (entries (preserve_deny_read_restrictions_from unrestricted sample)) (path_entry (lit "file:///w/secret") Deny) = true.
Proof.
  apply (preserve_deny_narrows unrestricted sample); [discriminate| |reflexivity].
  right. right. left.
Defined.

Definition home_writable : FileSystemSandboxPolicy MemUrl :=
  restricted [new_entry (Special Root) Read; path_entry (lit "file:///h") Write].

Lemma metadata_protected_witness :
  can_write_path home_writable (url (lit "file:///h/.git/config")) (here []) = false.
Proof.
  apply (metadata_protected home_writable (url (lit "file:///h/.git/config")) (here []) (url (lit "file:///h/.git"))).
  - reflexivity.
  - vm_compute. reflexivity.
  - exists (url (lit "file:///h")), (lit ".git"). split; [|split; [|split]].
    + left.
    + left.
    + vm_compute. reflexivity.
    + vm_compute. reflexivity.
  - apply no_nested_root_spec. vm_compute. reflexivity.
Defined.

(** ** Denials *)

Definition denying : FileSystemSandboxPolicy MemUrl :=
  restricted [new_entry (Special Root) Read; new_entry (GlobPattern (lit "*.pem")) Deny].

Lemma read_deny_matcher_exact_witness :
  ∃ m, prepare_deny_read_matcher denying (here []) FailClosed = Ok m ∧
    (matches_prepared_read_deny (url (lit "file:///w/k.pem")) (here []) m = false ↔
     spared denying (url (lit "file:///w/k.pem")) (here [])).
Proof.
  destruct (read_deny_matcher_exact denying (here [])) as [(m & Hm & Hall & _) _]. exists m.
  split; [exact Hm|apply Hall].
Defined.

Lemma deny_validation_exact_witness :
  validate_managed_deny_read (restricted (entries denying ++ [path_entry (lit "file:///w/k.pem") Read])) denying (here []) ≠ Ok tt.
Proof.
  intros H. apply (deny_validation_exact _ denying (here [])) in H as [_ H]. destruct H as [_ H].
  { split; [reflexivity|]. exists (new_entry (GlobPattern (lit "*.pem")) Deny). split; [right; left|split; [reflexivity|discriminate]]. }
  destruct (H (path_entry (lit "file:///w/k.pem") Read) (url (lit "file:///w/k.pem"))) as (c & Hin & Hg & _).
  - right. right. left.
  - reflexivity.
  - discriminate.
  - reflexivity.
  - destruct (Hg (lit "*.pem")) as (text & g & Ht & Hb & Hf).
    { exists (new_entry (GlobPattern (lit "*.pem")) Deny). split; [right; left|split; reflexivity]. }
    assert (text = lit "/w/*.pem") as ->.
    { apply deny_read_glob_text in Ht. vm_compute in Ht. injection Ht as <-. vm_compute. reflexivity. }
    destruct Hin as (Hc & _). injection Hc as <-. injection Hb as <-. vm_compute in Hf. discriminate Hf.
Defined.

Lemma materialize_keeps_access_witness :
  ∃ p, try_materialize_project_roots_with_path_uris sample [url (lit "file:///w"); url (lit "file:///v")] = Some p ∧
    resolve_access p (url (lit "file:///v/x")) (here [lit "file:///w"; lit "file:///v"]) = Write.
Proof.
  eexists. split; [vm_compute; reflexivity|].
  etransitivity; [|transitivity (resolve_access sample (url (lit "file:///v/x")) (here [lit "file:///w"; lit "file:///v"]));
                   [|vm_compute; reflexivity]]; [reflexivity|].
  refine (proj1 (proj1 (proj2 (proj2 (proj2 (materialize_keeps_access sample (here [lit "file:///w"; lit "file:///v"])) _ _))) _ _)).
  - vm_compute. reflexivity.
  - intros e sub g root He Hs Hr. destruct Hs as [sub Hs|rest Hs].
    + repeat (apply elem_of_cons in He as [->|He]; [|]); try (by apply elem_of_nil in He); try discriminate Hs.
      injection Hs as <-. exists root. split; [discriminate|reflexivity].
    + repeat (apply elem_of_cons in He as [->|He]; [discriminate Hs|]). by apply elem_of_nil in He.
Defined.

Lemma windows_scan_bounds_witness :
  scan_max_depth (windows_deny_read_glob_scan (lit "C:\a\*.pem") None) = Some 1.
Proof. destruct (windows_scan_bounds (lit "C:\a\*.pem") None). vm_compute. reflexivity. Defined.

(** ** Where the code does not do what it says *)

Definition nested_first : list (FileSystemSandboxEntry MemUrl) :=
  [path_entry (lit "file:///h/.codex/wt") Write; path_entry (lit "file:///h") Write].

(** Whether metadata of a nested writable root is protected depends on the order of the
    entries, which [resolve_access] does not: only the first protected directory found
    is checked for a writable root inside it. *)
Example metadata_denial_order :
  can_write_path (restricted (new_entry (Special Root) Read :: nested_first))
    (url (lit "file:///h/.codex/wt/.git/config")) (here []) = false ∧
  can_write_path (restricted (new_entry (Special Root) Read :: rev nested_first))
    (url (lit "file:///h/.codex/wt/.git/config")) (here []) = true.
Proof. vm_compute. done. Qed.

(** An empty segment is not counted as a component, but a step up removes it. *)
Example join_empty_segment :
  uri_join (url (lit "file:///a//b")) (lit "../../c") = Ok (url (lit "file:///a/c")) ∧
  uri_join (url (lit "file:///a/b")) (lit "../../c") = Ok (url (lit "file:///c")).
Proof. vm_compute. done. Qed.

(** Two equal paths with a name that is not text are not contained in the same ones. *)
Example containment_not_congruent :
  let spelled := url (lit "file:///C:/%FF%61") in let plain := url (lit "file:///C:/%FFa") in
  uri_eq plain spelled = true ∧ uri_starts_with (url (lit "file:///C:/%FFa/x")) plain = true ∧
  uri_starts_with (url (lit "file:///C:/%FFa/x")) spelled = false.
Proof. vm_compute. done. Qed.

(** On Windows the root entry is the drive of the working directory: full access is
    claimed, and another drive is refused. *)
Example windows_full_write :
  let p := restricted [new_entry (Special Root) Write] in
  let ctx := mkContext (url (lit "file:///C:/w")) [] None None in
  has_full_disk_write_access_with_context p ctx = true ∧ can_write_path p (url (lit "file:///D:/x")) ctx = false.
Proof. vm_compute. done. Qed.
End FsMem.
