(* ===== verification/PermProfile.v ===== *)
(** * PermProfile: permission profiles and what a session may ask
    ([protocol/src/models.rs], [protocol/src/permissions.rs], [protocol/src/protocol.rs])

    The profile a session runs under, its conversions to and from the two runtime
    policies, the overlay of additional permissions, and the approval settings.  Paths are
    those of the executor.  The serialized forms and the legacy [SandboxPolicy] are not here. *)
From S2P Require Import Prelude RustStr UnixPath Utf8Stream Utf8Encode PatchErrors FsInterface PathUri PathText FsPolicy FsPolicyFacts FsDeny.

(** ** Approval settings *)

Record GranularApprovalConfig := mkGranular {
  sandbox_approval : bool;
  rules_approval : bool;
  skill_approval : bool;
  request_permissions : bool;
  mcp_elicitations : bool;
}.

Inductive AskForApproval := UnlessTrusted | OnRequest | Granular (config : GranularApprovalConfig) | Never.

#[export] Instance AskForApproval_eq_dec : EqDecision AskForApproval.
Proof. assert (EqDecision GranularApprovalConfig) by solve_decision. solve_decision. Defined.

Inductive WindowsSandboxLevel := LevelDisabled | RestrictedToken | Elevated.

#[export] Instance WindowsSandboxLevel_eq_dec : EqDecision WindowsSandboxLevel.
Proof. solve_decision. Defined.

Inductive SandboxPermissions := UseDefault | RequireEscalated | WithAdditionalPermissions.

#[export] Instance SandboxPermissions_eq_dec : EqDecision SandboxPermissions.
Proof. solve_decision. Defined.

Definition requires_escalated_permissions (s : SandboxPermissions) : bool :=
  match s with RequireEscalated => true | _ => false end.
Definition requests_sandbox_override (s : SandboxPermissions) : bool :=
  match s with UseDefault => false | _ => true end.
Definition uses_additional_permissions (s : SandboxPermissions) : bool :=
  match s with WithAdditionalPermissions => true | _ => false end.

(** ** Network *)

Inductive NetworkSandboxPolicy := NetRestricted | NetEnabled.

#[export] Instance NetworkSandboxPolicy_eq_dec : EqDecision NetworkSandboxPolicy.
Proof. solve_decision. Defined.

Definition net_is_enabled (n : NetworkSandboxPolicy) : bool :=
  match n with NetEnabled => true | NetRestricted => false end.

Record NetworkPermissions := mkNetworkPermissions { net_enabled : option bool }.

#[export] Instance NetworkPermissions_eq_dec : EqDecision NetworkPermissions.
Proof. solve_decision. Defined.

Definition network_permissions_is_empty (n : NetworkPermissions) : bool := bool_decide (net_enabled n = None).
Definition network_permissions_from (n : NetworkSandboxPolicy) : NetworkPermissions :=
  mkNetworkPermissions (Some (net_is_enabled n)).

(** ** File systems *)

Inductive SandboxEnforcement := EnforceManaged | EnforceDisabled | EnforceExternal.

#[export] Instance SandboxEnforcement_eq_dec : EqDecision SandboxEnforcement.
Proof. solve_decision. Defined.

(** [NonZeroUsize::new]; [usize::from] is [Npos]. *)
Definition nonzero (n : N) : option positive := match n with N0 => None | Npos p => Some p end.

Inductive ManagedFileSystemPermissions (U : Type) :=
| ManagedRestricted (managed_entries : list (FileSystemSandboxEntry U)) (managed_depth : option positive)
| ManagedUnrestricted.
Arguments ManagedRestricted {U}.
Arguments ManagedUnrestricted {U}.

Inductive PermissionProfile (U : Type) :=
| Managed (file_system : ManagedFileSystemPermissions U) (network : NetworkSandboxPolicy)
| Disabled
| External (network : NetworkSandboxPolicy).
Arguments Managed {U}.
Arguments Disabled {U}.
Arguments External {U}.

(** [FileSystemPermissions]. *)
Record FileSystemPermissions (U : Type) := mkFsPermissions {
  fs_entries : list (FileSystemSandboxEntry U);
  fs_depth : option positive;
}.
Arguments mkFsPermissions {U}.
Arguments fs_entries {U}.
Arguments fs_depth {U}.

(** The overlay of one command, or of a session's grants. *)
Record AdditionalPermissionProfile (U : Type) := mkAdditional {
  network : option NetworkPermissions;
  file_system : option (FileSystemPermissions U);
}.
Arguments mkAdditional {U}.
Arguments network {U}.
Arguments file_system {U}.

Section profile.
Context {U : Type} {UO : UrlOps U} {UC : UrlCoding}.
Implicit Types (p : FileSystemSandboxPolicy U) (profile : PermissionProfile U) (roots : list U).

(** [FileSystemPermissions::from_paths], [is_empty] and the conversions. *)
Definition fs_is_empty (f : FileSystemPermissions U) : bool := match fs_entries f with [] => true | _ => false end.
Definition from_read_write_path_uris (read write : option (list U)) : FileSystemPermissions U :=
  mkFsPermissions (map (λ path, new_entry (PathEntry path) Read) (default [] read)
                   ++ map (λ path, new_entry (PathEntry path) Write) (default [] write)) None.
Definition fs_permissions_from p : FileSystemPermissions U :=
  mkFsPermissions
    (match policy_kind p with
     | Restricted => entries p
     | Unrestricted | ExternalSandbox => [new_entry (Special Root) Write]
     end)
    (glob_scan_max_depth p ≫= nonzero).
Definition fs_permissions_policy (f : FileSystemPermissions U) : FileSystemSandboxPolicy U :=
  mkPolicy Restricted (Npos <$> fs_depth f) (fs_entries f).
Definition additional_is_empty (a : AdditionalPermissionProfile U) : bool :=
  match network a, file_system a with None, None => true | _, _ => false end.

(** [ManagedFileSystemPermissions]: the external kind is an [unreachable!]. *)
Definition from_sandbox_policy p : option (ManagedFileSystemPermissions U) :=
  match policy_kind p with
  | Restricted => Some (ManagedRestricted (entries p) (glob_scan_max_depth p ≫= nonzero))
  | Unrestricted => Some ManagedUnrestricted
  | ExternalSandbox => None
  end.
Definition to_sandbox_policy (m : ManagedFileSystemPermissions U) : FileSystemSandboxPolicy U :=
  match m with
  | ManagedRestricted es depth => mkPolicy Restricted (Npos <$> depth) es
  | ManagedUnrestricted => unrestricted
  end.

(** ** Profiles *)

Definition default_profile : PermissionProfile U := Managed (ManagedRestricted [] None) NetRestricted.

Definition enforcement profile : SandboxEnforcement :=
  match profile with
  | Managed _ _ => EnforceManaged
  | Disabled => EnforceDisabled
  | External _ => EnforceExternal
  end.
Definition file_system_sandbox_policy profile : FileSystemSandboxPolicy U :=
  match profile with
  | Managed file_system _ => to_sandbox_policy file_system
  | Disabled => unrestricted
  | External _ => external_sandbox
  end.
Definition network_sandbox_policy profile : NetworkSandboxPolicy :=
  match profile with Managed _ network | External network => network | Disabled => NetEnabled end.
Definition to_runtime_permissions profile : FileSystemSandboxPolicy U * NetworkSandboxPolicy :=
  (file_system_sandbox_policy profile, network_sandbox_policy profile).

Definition from_runtime_permissions_with_enforcement (enforcement : SandboxEnforcement) p
    (network : NetworkSandboxPolicy) : option (PermissionProfile U) :=
  match policy_kind p with
  | ExternalSandbox => Some (External network)
  | Unrestricted =>
      if bool_decide (enforcement = EnforceDisabled) then Some Disabled
      else file_system ← from_sandbox_policy p; Some (Managed file_system network)
  | Restricted => file_system ← from_sandbox_policy p; Some (Managed file_system network)
  end.
Definition from_runtime_permissions p (network : NetworkSandboxPolicy) : option (PermissionProfile U) :=
  from_runtime_permissions_with_enforcement
    (match policy_kind p with
     | Restricted | Unrestricted => EnforceManaged
     | ExternalSandbox => EnforceExternal
     end) p network.

Definition read_only_profile : option (PermissionProfile U) :=
  file_system ← from_sandbox_policy read_only; Some (Managed file_system NetRestricted).

(** The outer [None] is a panic, the inner one the answer for external enforcement. *)
Definition read_only_access (a : FileSystemAccessMode) : FileSystemAccessMode :=
  match a with Read | Write => Read | Deny => Deny end.
Definition with_access (e : FileSystemSandboxEntry U) (a : FileSystemAccessMode) : FileSystemSandboxEntry U :=
  mkEntry (entry_path e) a (missing_path_behavior e).
Definition intersect_with_read_only profile : option (option (PermissionProfile U)) :=
  let file_system := file_system_sandbox_policy profile in
  match policy_kind file_system with
  | Restricted =>
      Some <$> from_runtime_permissions
        (with_entries file_system (map (λ e, with_access e (read_only_access (entry_access e))) (entries file_system)))
        NetRestricted
  | Unrestricted => Some <$> from_runtime_permissions read_only NetRestricted
  | ExternalSandbox => Some None
  end.

Definition workspace_write_profile roots (network : NetworkSandboxPolicy)
    (exclude_tmpdir_env_var exclude_slash_tmp : bool) : option (PermissionProfile U) :=
  file_system ← from_sandbox_policy (workspace_write_with_path_uris roots exclude_tmpdir_env_var exclude_slash_tmp);
  Some (Managed file_system network).

Definition materialize_project_roots_with profile
    (materialize : FileSystemSandboxPolicy U → FileSystemSandboxPolicy U) : option (PermissionProfile U) :=
  match profile with
  | Managed file_system network =>
      file_system ← from_sandbox_policy (materialize (to_sandbox_policy file_system));
      Some (Managed file_system network)
  | Disabled => Some Disabled
  | External network => Some (External network)
  end.
Definition materialize_profile profile roots : option (PermissionProfile U) :=
  materialize_project_roots_with profile (λ p, materialize_project_roots_with_path_uris p roots).

(** [From<LegacyPermissionProfile>]: the shape older rollout files hold. *)
Definition from_legacy_profile (net : option NetworkPermissions) (fs : option (FileSystemPermissions U)) :
    PermissionProfile U :=
  Managed
    (match fs with
     | None => ManagedRestricted [] None
     | Some permissions => ManagedRestricted (fs_entries permissions) (fs_depth permissions)
     end)
    (if default false (n ← net; net_enabled n) then NetEnabled else NetRestricted).
End profile.

(** * What profiles promise *)

Section facts.
Context {U : Type} {UO : UrlOps U} {UC : UrlCoding}.
Implicit Types (p : FileSystemSandboxPolicy U) (profile : PermissionProfile U) (path : U)
  (ctx : FileSystemSandboxPolicyContext U) (x : U * FileSystemAccessMode * nat).

Lemma nonzero_Npos (d : option positive) : (Npos <$> d) ≫= nonzero = d.
Proof. by destruct d. Qed.

(** ** Converting *)

Lemma from_runtime_total e p n : is_Some (from_runtime_permissions_with_enforcement e p n).
Proof.
  unfold from_runtime_permissions_with_enforcement, from_sandbox_policy.
  destruct (policy_kind p); [eauto| |eauto]. case_bool_decide; eauto.
Qed.

(** What becomes of the runtime policies: the kind stays, and so do the entries of a
    restricted policy and the network policy, but where nothing is enforced. *)
Lemma from_runtime_policy e p n q : from_runtime_permissions_with_enforcement e p n = Some q →
  policy_kind (file_system_sandbox_policy q) = policy_kind p ∧
  (policy_kind p = Restricted → entries (file_system_sandbox_policy q) = entries p) ∧
  (policy_kind p = Unrestricted ∧ e = EnforceDisabled ∨ network_sandbox_policy q = n).
Proof.
  unfold from_runtime_permissions_with_enforcement, from_sandbox_policy.
  destruct (policy_kind p); simpl; [|case_bool_decide|]; intros [= <-]; simpl;
    (split_and!; [done|done|auto]).
Qed.

Lemma from_runtime_round_trip profile :
  from_runtime_permissions_with_enforcement (enforcement profile)
    (file_system_sandbox_policy profile) (network_sandbox_policy profile) = Some profile.
Proof. destruct profile as [[es d|] n| |n]; try done. cbn. by rewrite nonzero_Npos. Qed.

(** ** Reading only *)

Definition read_only_key x : U * FileSystemAccessMode * nat := (x.1.1, read_only_access x.1.2, x.2).

Lemma read_only_key_lt x y : key_lt (entry_key x) (entry_key y) = false →
  key_lt (entry_key (read_only_key x)) (entry_key (read_only_key y)) = false.
Proof.
  destruct x as [[r a] n], y as [[s b] m]. unfold entry_key, read_only_key. simpl.
  intros H. apply not_true_iff_false in H. apply not_true_iff_false. rewrite key_lt_spec in *. simpl in *.
  destruct a, b; simpl in *; lia.
Qed.

Definition read_only_entries p : FileSystemSandboxPolicy U :=
  with_entries p (map (λ e, with_access e (read_only_access (entry_access e))) (entries p)).

Lemma read_only_resolved p ctx :
  resolved_entries (read_only_entries p) ctx =
  map (λ z, (z.1, read_only_access z.2)) (resolved_entries p ctx).
Proof.
  unfold resolved_entries, read_only_entries. simpl. induction (entries p) as [|e es IH]; [done|]. simpl.
  rewrite IH, map_app. f_equal. unfold resolve_entry. simpl. by rewrite map_map.
Qed.

Lemma read_only_depths (es : list (U * FileSystemAccessMode)) :
  with_depths (map (λ z, (z.1, read_only_access z.2)) es) = map read_only_key <$> with_depths es.
Proof.
  induction es as [|[r a] es IH]; [done|]. simpl. rewrite IH.
  destruct (uri_lexical_depth r); [by destruct (with_depths es)|]. by destruct (uri_is_opaque r).
Qed.

Lemma read_only_applicable path ds : applicable path (map read_only_key ds) = map read_only_key (applicable path ds).
Proof.
  unfold applicable. induction ds as [|x ds IH]; [done|]. simpl. rewrite !filter_cons. cbn [read_only_key fst].
  case_decide; simpl; by rewrite IH.
Qed.

(** Lowering every entry to reading lowers the access of every path. *)
Lemma read_only_access_of p path ctx : policy_kind p = Restricted →
  resolve_access (read_only_entries p) path ctx = read_only_access (resolve_access p path ctx).
Proof.
  intros Hk. destruct (in_some_context path ctx) as [[c Hin]|Hout].
  2: { by rewrite !resolve_access_outside. }
  rewrite !(resolve_access_in_context _ path ctx c) by done. rewrite read_only_resolved, read_only_depths.
  destruct (with_depths (resolved_entries p ctx)) as [ds|]; [|done]. cbn [fmap option_fmap option_map].
  rewrite read_only_applicable.
  pose proof (max_by_key_spec (applicable path ds)) as H.
  pose proof (max_by_key_spec (map read_only_key (applicable path ds))) as H'.
  destruct (max_by_key (applicable path ds)) as [[[r a] d]|].
  2: { rewrite H in *. done. }
  destruct H as [Hx Hmax].
  assert (greatest (read_only_key (r, a, d)) (map read_only_key (applicable path ds))) as Hg.
  { split; [by apply elem_of_map; eauto|]. intros z (y & -> & Hy)%elem_of_map. by apply read_only_key_lt, Hmax. }
  destruct (max_by_key (map _ _)) as [[[r' a'] d']|].
  - pose proof (greatest_key _ _ _ _ (λ _, iff_refl _) H' Hg) as Heq. by injection Heq.
  - destruct Hg as [Hg _]. rewrite H' in Hg. by apply elem_of_nil in Hg.
Qed.

Lemma read_only_no_write p path ctx : Forall (λ e, entry_access e ≠ Write) (entries p) → policy_kind p = Restricted →
  resolve_access p path ctx ≠ Write.
Proof.
  intros Hall Hk. rewrite <- (resolve_access_same_entries (read_only_entries p) p).
  - rewrite read_only_access_of by done. by destruct (resolve_access p path ctx).
  - done.
  - intros e. unfold read_only_entries, with_entries. simpl. rewrite elem_of_map. rewrite Forall_forall in Hall. split.
    + intros (e' & -> & He'). specialize (Hall e' He'). by destruct e' as [? [] ?].
    + intros He. exists e. split; [|done]. specialize (Hall e He). by destruct e as [? [] ?].
Qed.
End facts.
