(* ===== verification/PolicyTransforms.v ===== *)
(** * PolicyTransforms: additional permissions
    ([sandboxing/src/policy_transforms.rs])

    Normalizing and resolving the permissions a command asks for, merging grants, keeping
    of a grant what was asked for, and the policies and profile in effect with them. *)
From S2P Require Import Prelude RustStr UnixPath Utf8Stream Utf8Encode PatchErrors FsInterface PathUri PathUriLaws PathText FsPolicy FsPolicyFacts FsDeny PermProfile PathMem FsMem.

Inductive GlobScanDepth := Bounded (depth : N) | Unbounded.

Section transforms.
Context {U : Type} {UO : UrlOps U} {UC : UrlCoding} {PG : PathGlobs}.
Implicit Types (p : FileSystemSandboxPolicy U) (e : FileSystemSandboxEntry U) (es : list (FileSystemSandboxEntry U))
  (ctx : FileSystemSandboxPolicyContext U) (path : U) (a : AdditionalPermissionProfile U).

(** ** Normalizing *)

Definition is_glob e : bool := match entry_path e with GlobPattern _ => true | _ => false end.

Fixpoint normalize_entries (acc es : list (FileSystemSandboxEntry U)) : result str (list (FileSystemSandboxEntry U)) :=
  match es with
  | [] => Ok acc
  | e :: es =>
      if is_glob e && negb (is_deny e)
      then Err (lit "glob file system permissions only support deny-read entries")
      else normalize_entries (push_missing acc e) es
  end.

(** [Option::filter]. *)
Definition keep {A} (f : A → bool) (o : option A) : option A := x ← o; if f x then Some x else None.

Definition normalize_additional_permissions a : result str (AdditionalPermissionProfile U) :=
  let net := keep (negb ∘ network_permissions_is_empty) (network a) in
  match file_system a with
  | Some fs =>
      es ← normalize_entries [] (fs_entries fs);
      let fs := mkFsPermissions es (fs_depth fs) in
      Ok (mkAdditional net (if fs_is_empty fs then None else Some fs))
  | None => Ok (mkAdditional net None)
  end.

Definition fits_context ctx path : bool :=
  negb (bool_decide (uri_convention path = None))
  && bool_decide (uri_convention path = uri_convention (cwd ctx))
  && is_ok (uri_join path dot).

Fixpoint check_context ctx es : result str unit :=
  match es with
  | [] => Ok tt
  | e :: es =>
      match entry_path e with
      | PathEntry path =>
          if fits_context ctx path then check_context ctx es
          else Err (lit "permission path `" ++ url_as_str path ++ lit "` does not match executor cwd `"
                    ++ url_as_str (cwd ctx) ++ lit "`")
      | _ => check_context ctx es
      end
  end.

Definition normalize_additional_permissions_with_context a ctx : result str (AdditionalPermissionProfile U) :=
  normalized ← normalize_additional_permissions a;
  match file_system normalized with
  | Some fs => _ ← check_context ctx (fs_entries fs); Ok normalized
  | None => Ok normalized
  end.

(** ** Resolving *)

Definition resolve_permission_path (target : FileSystemPath U) ctx : option U :=
  match target with
  | PathEntry path => Some path
  | GlobPattern _ => None
  | Special Root => file_system_root ctx
  | Special (ProjectRoots subpath) =>
      root ← head (workspace_roots ctx);
      match subpath with Some subpath => ok (uri_join root subpath) | None => Some root end
  | Special Tmpdir => temporary_directories ctx ≫= head
  | Special SlashTmp =>
      if bool_decide (uri_convention (cwd ctx) = Some Posix) then ok (uri_join (cwd ctx) (lit "/tmp")) else None
  | Special (Minimal | Unknown _ _) => None
  end.

(** The part after [~], which on Windows may be followed by a backslash. *)
Definition home_relative_pattern (is_windows : bool) (pattern : str) : option str :=
  match strip_prefix (lit "~/") pattern with
  | Some suffix => Some suffix
  | None =>
      if bool_decide (pattern = lit "~") then Some []
      else if is_windows then strip_prefix (lit "~\") pattern else None
  end.

Definition materialize_cwd_dependent_entry e ctx : option (FileSystemSandboxEntry U) :=
  match entry_path e with
  | GlobPattern pattern =>
      let is_windows := bool_decide (uri_convention (cwd ctx) = Some Windows) in
      rooted ← match home_relative_pattern is_windows pattern with
               | Some suffix => home ← user_home_dir ctx; Some (home, trim_separators is_windows suffix)
               | None => Some (cwd ctx, pattern)
               end;
      path ← ok (uri_join rooted.1 rooted.2);
      Some (mkEntry (GlobPattern (inferred_native_path_string path)) (entry_access e) (missing_path_behavior e))
  | PathEntry _ | Special _ => Some e
  end.

Definition materialized_path_entry e path : FileSystemSandboxEntry U :=
  mkEntry (PathEntry path) (entry_access e) (missing_path_behavior e).

Definition with_root ctx root : FileSystemSandboxPolicyContext U :=
  mkContext (cwd ctx) [root] (user_home_dir ctx) (temporary_directories ctx).

(** The loop over the workspace roots: a denial that has no target stops it. *)
Fixpoint materialize_roots e ctx (roots : list U) : option (list (FileSystemSandboxEntry U)) :=
  match roots with
  | [] => Some []
  | root :: roots =>
      match resolve_permission_path (entry_path e) (with_root ctx root) with
      | None => if is_deny e then None else materialize_roots e ctx roots
      | Some path => rest ← materialize_roots e ctx roots; Some (materialized_path_entry e path :: rest)
      end
  end.

(** What one entry becomes. *)
Definition materialize_context_entry e ctx : option (list (FileSystemSandboxEntry U)) :=
  match entry_path e with
  | Special (ProjectRoots _) =>
      resolved ← materialize_roots e ctx (workspace_roots ctx);
      if is_deny e && match resolved with [] => true | _ => false end then None else Some resolved
  | Special Tmpdir =>
      match temporary_directories ctx with
      | None => if is_deny e then None else Some [e]
      | Some directories => Some (map (materialized_path_entry e) directories)
      end
  | Special Root => _ ← resolve_permission_path (entry_path e) ctx; Some [e]
  | _ =>
      match materialize_cwd_dependent_entry e ctx with
      | None => if is_deny e then None else Some []
      | Some e => Some [e]
      end
  end.
Fixpoint materialize_context_dependent_entries es ctx : option (list (FileSystemSandboxEntry U)) :=
  match es with
  | [] => Some []
  | e :: es =>
      l ← materialize_context_entry e ctx; rest ← materialize_context_dependent_entries es ctx; Some (l ++ rest)
  end.

Definition materialize_additional_permissions_with_context a ctx : result str (AdditionalPermissionProfile U) :=
  match file_system a with
  | Some fs =>
      es ← ok_or (lit "unable to resolve permission path in `" ++ url_as_str (cwd ctx) ++ lit "`")
                 (materialize_context_dependent_entries (fs_entries fs) ctx);
      normalize_additional_permissions_with_context
        (mkAdditional (network a) (Some (mkFsPermissions es (fs_depth fs)))) ctx
  | None => normalize_additional_permissions_with_context a ctx
  end.

(** ** Depths *)

Definition effective_glob_scan_depth es (depth : option N) : option GlobScanDepth :=
  if existsb (λ e, is_deny e && is_glob e) es
  then Some (match depth with Some depth => Bounded depth | None => Unbounded end) else None.

Definition merge_glob_scan_max_depth (left_entries : list (FileSystemSandboxEntry U)) (left_depth : option N)
    (right_entries : list (FileSystemSandboxEntry U)) (right_depth : option N) : option N :=
  match effective_glob_scan_depth left_entries left_depth, effective_glob_scan_depth right_entries right_depth with
  | Some Unbounded, _ | _, Some Unbounded => None
  | Some (Bounded n), Some (Bounded m) => Some (N.max n m)
  | Some (Bounded depth), None | None, Some (Bounded depth) => Some depth
  | None, None => None
  end.

(** ** Merging *)

Definition merge_permission_entries (base permissions : list (FileSystemSandboxEntry U)) :
    list (FileSystemSandboxEntry U) := foldl push_missing [] (base ++ permissions).

Definition enabled_network (n : option NetworkPermissions) : bool :=
  bool_decide (n = Some (mkNetworkPermissions (Some true))).

Definition usize_depth (d : option positive) : option N := Npos <$> d.

Definition merge_permission_profiles (base permissions : option (AdditionalPermissionProfile U)) :
    option (AdditionalPermissionProfile U) :=
  match permissions with
  | None => base
  | Some permissions =>
      match base with
      | Some base =>
          let net := if enabled_network (network base) || enabled_network (network permissions)
                     then Some (mkNetworkPermissions (Some true)) else None in
          let fs := match file_system base, file_system permissions with
                    | Some b, Some q =>
                        keep (negb ∘ fs_is_empty)
                          (Some (mkFsPermissions (merge_permission_entries (fs_entries b) (fs_entries q))
                             (merge_glob_scan_max_depth (fs_entries b) (usize_depth (fs_depth b))
                                (fs_entries q) (usize_depth (fs_depth q)) ≫= nonzero)))
                    | Some b, None => Some b
                    | None, q => q
                    end in
          keep (negb ∘ additional_is_empty) (Some (mkAdditional net fs))
      | None => keep (negb ∘ additional_is_empty) (Some permissions)
      end
  end.

(** ** Keeping of a grant what was asked for *)

Definition access_covers (requested granted : FileSystemAccessMode) : bool :=
  match granted with Read => can_read requested | Write => can_write requested | Deny => false end.

Definition is_root_entry e : bool := is_special_root (entry_path e).

Definition is_slash_tmp (target : FileSystemPath U) : bool := match target with Special SlashTmp => true | _ => false end.

Definition granted_file_system_entry_within_request (requested : FileSystemPermissions U) (requested_policy : FileSystemSandboxPolicy U)
    (requested_read_deny_matcher : option (PreparedReadDenyMatcher U)) granted_entry ctx : bool :=
  if negb (can_read (entry_access granted_entry))
     || is_slash_tmp (entry_path granted_entry) && negb (bool_decide (uri_convention (cwd ctx) = Some Posix))
  then false
  else if bool_decide (uri_convention (cwd ctx) = Some Windows) && is_root_entry granted_entry
          && negb (existsb (λ e, is_root_entry e && access_covers (entry_access e) (entry_access granted_entry))
                     (fs_entries requested))
  then false
  else match resolve_permission_path (entry_path granted_entry) ctx with
       | Some path =>
           if negb (bool_decide (uri_convention path = uri_convention (cwd ctx)))
              || match requested_read_deny_matcher with
                 | Some matcher => is_read_denied_uri matcher path ctx
                 | None => false
                 end
           then false
           else access_covers (resolve_access requested_policy path ctx) (entry_access granted_entry)
       | None =>
           existsb (λ e, access_covers (entry_access e) (entry_access granted_entry)
                         && fs_path_eq (entry_path e) (entry_path granted_entry)) (fs_entries requested)
       end.

(** The text before the first metacharacter, and the directory it certainly names. *)
Definition is_glob_metacharacter (c : N) : bool :=
  is_char 42%N c || is_char 63%N c || is_char 91%N c || is_char 93%N c.
Fixpoint before_glob (pattern : str) : str * bool :=
  match pattern with
  | [] => ([], false)
  | c :: pattern =>
      if is_glob_metacharacter c then ([], true)
      else let '(prefix, found) := before_glob pattern in (c :: prefix, found)
  end.
Definition glob_static_prefix_path (pattern : str) ctx : option U :=
  let is_windows := bool_decide (uri_convention (cwd ctx) = Some Windows) in
  let '(prefix, found) := before_glob pattern in
  if found && bool_decide (prefix = []) then None
  else
    let wildcard_in_segment :=
      found && negb (ends_with [c_slash] prefix || is_windows && ends_with [c_backslash] prefix) in
    prefix ← ok (uri_join (cwd ctx) prefix);
    if wildcard_in_segment then uri_parent prefix else Some prefix.

Definition paths_overlap (x y : U) : bool := default true (uri_overlaps x y).

Definition deny_entry_constrains_accepted_grant deny_entry (accepted : list (FileSystemSandboxEntry U)) ctx : bool :=
  existsb (λ e,
    can_read (entry_access e)
    && (is_root_entry e
        || match resolve_permission_path (entry_path e) ctx with
           | None => true
           | Some grant_path =>
               match entry_path deny_entry with
               | GlobPattern pattern =>
                   match glob_static_prefix_path pattern ctx with
                   | Some prefix => paths_overlap prefix grant_path
                   | None => true
                   end
               | PathEntry _ | Special _ =>
                   match resolve_permission_path (entry_path deny_entry) ctx with
                   | Some deny_path => paths_overlap deny_path grant_path
                   | None => true
                   end
               end
           end)) accepted.

(** The constraining denials of a list, and the output with them added. *)
Definition constraining_denials (source_entries accepted : list (FileSystemSandboxEntry U)) ctx :
    list (FileSystemSandboxEntry U) :=
  filter (λ e, is_deny e && deny_entry_constrains_accepted_grant e accepted ctx = true) source_entries.
Definition retain_constraining_deny_entries (source_entries accepted : list (FileSystemSandboxEntry U)) ctx
    (output_entries : list (FileSystemSandboxEntry U)) : list (FileSystemSandboxEntry U) * list (FileSystemSandboxEntry U) :=
  let retained := constraining_denials source_entries accepted ctx in
  (foldl push_missing output_entries retained, retained).

Definition accepted_grants (requested granted : FileSystemPermissions U)
    (requested_entries granted_entries : list (FileSystemSandboxEntry U)) ctx : list (FileSystemSandboxEntry U) :=
  let requested_policy := restricted requested_entries in
  foldl push_missing []
    (filter (λ e, granted_file_system_entry_within_request requested requested_policy
                    (matcher_from_context requested_policy ctx) e ctx = true) granted_entries).

Definition intersect_file_systems (requested granted : FileSystemPermissions U) ctx : option (FileSystemPermissions U) :=
  requested_entries ← materialize_context_dependent_entries (fs_entries requested) ctx;
  granted_entries ← materialize_context_dependent_entries (fs_entries granted) ctx;
  let accepted := accepted_grants requested granted requested_entries granted_entries ctx in
  let '(es, requested_retained) := retain_constraining_deny_entries requested_entries accepted ctx accepted in
  let '(es, granted_retained) := retain_constraining_deny_entries granted_entries accepted ctx es in
  Some (mkFsPermissions es
          (merge_glob_scan_max_depth requested_retained (usize_depth (fs_depth requested))
             granted_retained (usize_depth (fs_depth granted)) ≫= nonzero)).

Definition intersect_permission_profiles_with_context (requested granted : AdditionalPermissionProfile U) ctx :
    AdditionalPermissionProfile U :=
  let fs := requested_fs ← file_system requested;
            intersect_file_systems requested_fs (default (mkFsPermissions [] None) (file_system granted)) ctx in
  let net := if enabled_network (network requested) && enabled_network (network granted)
             then Some (mkNetworkPermissions (Some true)) else None in
  mkAdditional net (keep (negb ∘ fs_is_empty) fs).

(** ** The policies in effect *)

Definition merge_file_system_policy_with_additional_permissions p (fs : FileSystemPermissions U) : FileSystemSandboxPolicy U :=
  match policy_kind p with
  | Restricted =>
      mkPolicy Restricted
        (merge_glob_scan_max_depth (entries p) (glob_scan_max_depth p) (fs_entries fs) (usize_depth (fs_depth fs)))
        (foldl push_missing (entries p) (fs_entries fs))
  | Unrestricted | ExternalSandbox => p
  end.

Definition effective_file_system_sandbox_policy p (additional : option (AdditionalPermissionProfile U)) :
    FileSystemSandboxPolicy U :=
  match additional ≫= file_system with
  | None => p
  | Some fs => if fs_is_empty fs then p else merge_file_system_policy_with_additional_permissions p fs
  end.

Definition merge_network_access (base_network_access : bool) a : bool :=
  base_network_access || default false (n ← network a; net_enabled n).

Definition effective_network_sandbox_policy (network_policy : NetworkSandboxPolicy)
    (additional : option (AdditionalPermissionProfile U)) : NetworkSandboxPolicy :=
  match additional with
  | Some a => if merge_network_access (net_is_enabled network_policy) a then NetEnabled else NetRestricted
  | None => network_policy
  end.

Definition effective_permission_profile (profile : PermissionProfile U)
    (additional : option (AdditionalPermissionProfile U)) : option (PermissionProfile U) :=
  let '(file_system_policy, network_policy) := to_runtime_permissions profile in
  from_runtime_permissions_with_enforcement (enforcement profile)
    (effective_file_system_sandbox_policy file_system_policy additional)
    (effective_network_sandbox_policy network_policy additional).

Definition should_require_platform_sandbox p (network_policy : NetworkSandboxPolicy)
    (has_managed_network_requirements : bool) : bool :=
  if has_managed_network_requirements then true
  else if negb (net_is_enabled network_policy) then negb (bool_decide (policy_kind p = ExternalSandbox))
  else match policy_kind p with
       | Restricted => negb (has_full_disk_write_access p)
       | Unrestricted | ExternalSandbox => false
       end.
End transforms.

(** * What additional permissions do *)

Section facts.
Context {U : Type} {UO : UrlOps U} {UC : UrlCoding} {PG : PathGlobs}.
Implicit Types (p q : FileSystemSandboxPolicy U) (e : FileSystemSandboxEntry U) (es : list (FileSystemSandboxEntry U))
  (ctx : FileSystemSandboxPolicyContext U) (path r : U) (a : AdditionalPermissionProfile U).

Lemma keep_Some {A} (f : A → bool) o x : keep f o = Some x ↔ o = Some x ∧ f x = true.
Proof.
  unfold keep. destruct o as [y|]; simpl; [|naive_solver]. destruct (f y) eqn:Hf; naive_solver congruence.
Qed.

(** ** Adding entries to a policy *)

Lemma resolved_app_elem p es added ctx r acc : entries p = es ++ added →
  (r, acc) ∈ resolved_entries p ctx ↔
  (r, acc) ∈ flat_map (resolve_entry ctx) es ∨ (r, acc) ∈ flat_map (resolve_entry ctx) added.
Proof. intros He. unfold resolved_entries. by rewrite He, flat_map_app, elem_of_app. Qed.

(** Access that is not denied comes from an entry that no covering entry beats. *)
Lemma access_from_entry p path ctx : policy_kind p = Restricted → resolve_access p path ctx ≠ Deny →
  ∃ c ds r d, in_context path ctx c ∧ with_depths (resolved_entries p ctx) = Some ds ∧
    greatest (r, resolve_access p path ctx, d) (applicable path ds).
Proof.
  intros Hk Hne. destruct (in_some_context path ctx) as [[c Hin]|Hout].
  2: { destruct Hne. by apply resolve_access_outside. }
  destruct (with_depths (resolved_entries p ctx)) as [ds|] eqn:Hds.
  2: { destruct Hne. rewrite (resolve_access_in_context p path ctx c) by done. by rewrite Hds. }
  destruct (resolve_access_greatest p path ctx c ds Hk Hin Hds) as [[_ H]|([[r acc] d] & Hg & Heq)]; [done|].
  exists c, ds, r, d. rewrite Heq. by split_and!.
Qed.

(** What is not beaten by a denial lies deeper. *)
Lemma deeper_than_denial r acc d r' d' xs : acc ≠ Deny → greatest (r, acc, d) xs → (r', Deny, d') ∈ xs → d' < d.
Proof.
  intros Hne [_ Hmax] Hin. specialize (Hmax _ Hin). apply not_true_iff_false in Hmax.
  rewrite key_lt_spec in Hmax. cbn in Hmax. destruct acc; try done; cbn in Hmax; lia.
Qed.

Lemma with_depths_sub (xs ys : list (U * FileSystemAccessMode)) ds : (∀ z, z ∈ xs → z ∈ ys) →
  with_depths ys = Some ds → is_Some (with_depths xs).
Proof.
  intros Hsub Hds. destruct (with_depths xs) as [|] eqn:E; [eauto|].
  apply with_depths_None in E. destruct E. apply Forall_forall. intros z Hz. apply Hsub in Hz.
  destruct (decide (Forall has_depth ys)) as [Hall|Hn]; [rewrite Forall_forall in Hall; by apply Hall|].
  apply with_depths_None in Hn. congruence.
Qed.

(** ** The policy in effect *)

Lemma effective_entries p a fs : policy_kind p = Restricted → file_system a = Some fs →
  let q := effective_file_system_sandbox_policy p (Some a) in
  policy_kind q = Restricted ∧
  ∃ added, entries q = entries p ++ added ∧ (∀ e, e ∈ added → e ∈ fs_entries fs) ∧
    Forall (λ e, contains_entry (entries q) e = true) (fs_entries fs).
Proof.
  intros Hk Hfs. unfold effective_file_system_sandbox_policy. cbn [mbind option_bind]. rewrite Hfs.
  unfold fs_is_empty. destruct (fs_entries fs) as [|e0 es] eqn:Hes.
  { split; [done|]. exists []. rewrite app_nil_r. split; [done|]. split; [done|]. constructor. }
  unfold merge_file_system_policy_with_additional_permissions. rewrite Hk, Hes. split; [done|]. cbn [entries].
  destruct (push_all_missing (e0 :: es) (entries p)) as (added & Hadd & Hin & Hall).
  exists added. rewrite Hadd. split; [done|]. split; [|done]. rewrite Forall_forall in Hin. exact Hin.
Qed.

(** Where the additional permissions give a path access it did not have, they hold an
    entry that contains it, deeper than every denial of the policy. *)
Lemma additional_access p a fs path ctx : policy_kind p = Restricted → file_system a = Some fs →
  let acc := resolve_access (effective_file_system_sandbox_policy p (Some a)) path ctx in
  acc = Deny ∨ acc = resolve_access p path ctx ∨
  ∃ r d, (r, acc) ∈ flat_map (resolve_entry ctx) (fs_entries fs) ∧ uri_starts_with path r = true ∧
    uri_lexical_depth r = Some d ∧
    ∀ r' d', (r', Deny) ∈ resolved_entries p ctx → uri_starts_with path r' = true →
      uri_lexical_depth r' = Some d' → d' < d.
Proof.
  intros Hk Hfs acc. destruct (effective_entries p a fs Hk Hfs) as (Hkq & added & Hq & Hadd & _).
  fold acc. unfold acc. set (q := effective_file_system_sandbox_policy p (Some a)) in *.
  destruct (decide (resolve_access q path ctx = Deny)) as [|Hne]; [by left|]. right.
  destruct (access_from_entry q path ctx Hkq Hne) as (c & ds & r & d & Hin & Hds & Hg).
  pose proof Hg as [Hr _]. rewrite (applicable_elem q ctx ds) in Hr by done. destruct Hr as (Hr & Hd & Hs).
  assert (∀ z, z ∈ resolved_entries p ctx → z ∈ resolved_entries q ctx) as Hsub.
  { intros [z b] Hz. apply (resolved_app_elem q _ _ ctx z b Hq). by left. }
  apply (resolved_app_elem q _ _ ctx _ _ Hq) in Hr as [Hr|Hr].
  - left. destruct (with_depths_sub _ _ _ Hsub Hds) as [ds' Hds'].
    destruct (resolve_access_greatest p path ctx c ds' Hk Hin Hds') as [[Hnil _]|(y & Hy & ->)].
    { assert ((r, resolve_access q path ctx, d) ∈ applicable path ds') as H by by apply (applicable_elem p ctx ds').
      rewrite Hnil in H. by apply elem_of_nil in H. }
    assert (greatest (r, resolve_access q path ctx, d) (applicable path ds')) as Hg'.
    { split; [by apply (applicable_elem p ctx ds')|]. intros [[z b] n] Hz. apply Hg.
      apply (applicable_elem q ctx ds); [done|]. apply (applicable_elem p ctx ds') in Hz as (? & ? & ?); [|done].
      split_and!; auto. }
    pose proof (greatest_key _ _ _ _ (λ _, iff_refl _) Hg' Hy) as Heq. by injection Heq.
  - right. exists r, d. split_and!; [|done..|].
    + apply elem_of_flat_map in Hr as (e & He & Hr). apply elem_of_flat_map. exists e. eauto.
    + intros r' d' Hr' Hs' Hd'. apply (deeper_than_denial r (resolve_access q path ctx) d r' d' (applicable path ds)); [done..|].
      apply (applicable_elem q ctx ds); [done|]. split_and!; auto.
Qed.

(** ** Entries made concrete *)

Lemma materialize_context_elem es es' ctx : materialize_context_dependent_entries es ctx = Some es' →
  ∀ e', e' ∈ es' → ∃ e l, e ∈ es ∧ materialize_context_entry e ctx = Some l ∧ e' ∈ l.
Proof.
  revert es'. induction es as [|e es IH]; intros es' H e' He'; simpl in H.
  - injection H as <-. by apply elem_of_nil in He'.
  - apply bind_Some in H as (l & Hl & (rest & Hrest & [= <-])%bind_Some).
    apply elem_of_app in He' as [He'|He']; [exists e, l; split_and!; [left|done..]|].
    destruct (IH _ Hrest e' He') as (e0 & l0 & ? & ? & ?). exists e0, l0. split_and!; [by right|done..].
Qed.

Lemma materialize_roots_elem e ctx roots l e' : materialize_roots e ctx roots = Some l → e' ∈ l →
  ∃ path, e' = materialized_path_entry e path.
Proof.
  revert l. induction roots as [|root roots IH]; intros l H He'; simpl in H.
  - injection H as <-. by apply elem_of_nil in He'.
  - destruct (resolve_permission_path _ _) as [path|].
    + apply bind_Some in H as (rest & Hrest & [= <-]). apply elem_of_cons in He' as [->|He']; [eauto|]. by eapply IH.
    + destruct (is_deny e); [done|]. by eapply IH.
Qed.

(** A concrete entry stands for one path. *)
Definition single e ctx : Prop :=
  ∀ r, r ∈ match entry_path e with
           | PathEntry path => [path]
           | GlobPattern _ => []
           | Special v => resolve_special ctx v
           end → resolve_permission_path (entry_path e) ctx = Some r.

Lemma single_path e path ctx : entry_path e = PathEntry path → single e ctx.
Proof. intros He r. rewrite He. by intros ->%list_elem_of_singleton. Qed.

Lemma materialized_single es es' ctx e : materialize_context_dependent_entries es ctx = Some es' → e ∈ es' → single e ctx.
Proof.
  intros Hes He. destruct (materialize_context_elem _ _ _ Hes e He) as (e0 & l & _ & Hl & Hin). clear Hes He.
  unfold materialize_context_entry in Hl.
  destruct (entry_path e0) as [path|pattern|[| |sub| | |name sub]] eqn:Hp.
  - unfold materialize_cwd_dependent_entry in Hl. rewrite Hp in Hl. injection Hl as <-.
    apply list_elem_of_singleton in Hin as ->. by eapply single_path.
  - unfold materialize_cwd_dependent_entry in Hl. rewrite Hp in Hl.
    destruct (_ ≫= _) as [e'|] eqn:E in Hl; [|destruct (is_deny e0); [done|]; injection Hl as <-; by apply elem_of_nil in Hin].
    injection Hl as <-. apply list_elem_of_singleton in Hin as ->.
    apply bind_Some in E as (rooted & _ & (q & _ & [= <-])%bind_Some). intros r. by intros ?%elem_of_nil.
  - apply bind_Some in Hl as (r & Hr & [= <-]). apply list_elem_of_singleton in Hin as ->.
    intros r'. rewrite Hp. simpl in *. rewrite Hr. simpl. by intros ->%list_elem_of_singleton.
  - unfold materialize_cwd_dependent_entry in Hl. rewrite Hp in Hl. injection Hl as <-.
    apply list_elem_of_singleton in Hin as ->. intros r. rewrite Hp. by intros ?%elem_of_nil.
  - apply bind_Some in Hl as (l' & Hl' & Hl). destruct (is_deny e0 && _); [done|]. injection Hl as <-.
    destruct (materialize_roots_elem _ _ _ _ _ Hl' Hin) as [path ->]. by eapply single_path.
  - destruct (temporary_directories ctx) as [dirs|] eqn:Hd.
    + injection Hl as <-. apply elem_of_map in Hin as (path & -> & _). by eapply single_path.
    + destruct (is_deny e0); [done|]. injection Hl as <-. apply list_elem_of_singleton in Hin as ->.
      intros r. rewrite Hp. simpl. rewrite Hd. by intros ?%elem_of_nil.
  - unfold materialize_cwd_dependent_entry in Hl. rewrite Hp in Hl. injection Hl as <-.
    apply list_elem_of_singleton in Hin as ->. intros r. rewrite Hp. simpl. case_bool_decide; [|by intros ?%elem_of_nil].
    destruct (ok _); [|by intros ?%elem_of_nil]. by intros ->%list_elem_of_singleton.
  - unfold materialize_cwd_dependent_entry in Hl. rewrite Hp in Hl. injection Hl as <-.
    apply list_elem_of_singleton in Hin as ->. intros r. rewrite Hp. by intros ?%elem_of_nil.
Qed.

End facts.

Section intersect.
Context {U : Type} {UO : UrlOps U} {UC : UrlCoding} {UCL : UrlCodingLaws UC} {UL : FileUrlLaws U} {PG : PathGlobs}.
Implicit Types (p q : FileSystemSandboxPolicy U) (e : FileSystemSandboxEntry U) (es : list (FileSystemSandboxEntry U))
  (ctx : FileSystemSandboxPolicyContext U) (path r : U) (a : AdditionalPermissionProfile U).

(** Two targets that contain the same path overlap. *)
Lemma containing_overlap path r r' d d' : uri_convention path = Some Posix →
  uri_starts_with path r = true → uri_starts_with path r' = true →
  uri_lexical_depth r = Some d → uri_lexical_depth r' = Some d' → paths_overlap r r' = true.
Proof.
  intros Hc Hr Hr' Hd Hd'. unfold paths_overlap, uri_overlaps. destruct (uri_eq r r') eqn:He; [done|].
  rewrite Hd, Hd'. simpl.
  assert (∀ u n, uri_starts_with path u = true → uri_lexical_depth u = Some n →
    ∃ h c us ks, uri_place path = Some (h, c, ks) ∧ uri_place u = Some (h, c, us) ∧ us `prefix_of` ks) as Hplace.
  { intros u n [Heq|(h & c & ks & us & ? & ? & ?)]%uri_starts_with_spec Hn; [|by exists h, c, us, ks].
    apply uri_equiv_posix in Heq as <-; [|done]. rewrite uri_place_depth in Hn.
    destruct (uri_place path) as [[[h c] ks]|]; [|done]. by exists h, c, ks, ks. }
  destruct (Hplace r d Hr Hd) as (h & c & us & ks & Hp & Hu & Hpre).
  destruct (Hplace r' d' Hr' Hd') as (h' & c' & us' & ks' & Hp' & Hu' & Hpre'). simplify_eq.
  apply orb_true_iff. rewrite !uri_starts_with_spec.
  destruct (prefix_weak_total _ _ _ Hpre Hpre'); [right|left]; right; eauto 10.
Qed.

(** ** Grants kept within a request *)

Lemma entry_eq_resolved e e' ctx r : entry_eq e e' = true → uri_convention (cwd ctx) = Some Posix →
  r ∈ map fst (resolve_entry ctx e') → (r, entry_access e') ∈ resolve_entry ctx e.
Proof.
  unfold entry_eq. intros [[Hp Ha]%andb_true_iff _]%andb_true_iff Hc. bool_hyps. unfold resolve_entry.
  rewrite Ha, map_map. intros (q & -> & Hq)%elem_of_map. cbn [fst]. apply elem_of_map. exists q. split; [done|].
  destruct (entry_path e) as [u|g|v], (entry_path e') as [u'|g'|v']; try done; simpl in Hp.
  - apply list_elem_of_filter in Hq as [Hcq ->%list_elem_of_singleton].
    assert (uri_equiv u' u) as Heq by (symmetry; exact Hp).
    apply uri_equiv_posix in Heq as <-; [|congruence]. apply list_elem_of_filter. split; [done|]. by apply list_elem_of_singleton.
  - by apply bool_decide_eq_true in Hp as ->.
Qed.

Lemma accepted_elem requested granted req gr ctx e : e ∈ accepted_grants requested granted req gr ctx →
  e ∈ gr ∧ granted_file_system_entry_within_request requested (restricted req)
             (matcher_from_context (restricted req) ctx) e ctx = true.
Proof.
  unfold accepted_grants. intros He.
  destruct (push_all_missing (filter (λ e, granted_file_system_entry_within_request requested (restricted req)
                    (matcher_from_context (restricted req) ctx) e ctx = true) gr) []) as (added & H & Hin & _).
  rewrite H in He. rewrite Forall_forall in Hin. by apply Hin, list_elem_of_filter in He as [? ?].
Qed.

(** What a request covers when the granted entry has a path. *)
Lemma within_request_covers requested p m e ctx r :
  granted_file_system_entry_within_request requested p m e ctx = true →
  resolve_permission_path (entry_path e) ctx = Some r →
  access_covers (resolve_access p r ctx) (entry_access e) = true ∧
  match m with Some m => is_read_denied_uri m r ctx = false | None => True end.
Proof.
  unfold granted_file_system_entry_within_request. intros H Hr. rewrite Hr in H.
  destruct (_ || _) eqn:E1 in H; [done|]. destruct (_ && _) eqn:E2 in H; [done|].
  destruct (negb _ || _) eqn:E3 in H; [done|]. apply orb_false_iff in E3 as [_ E3]. split; [done|]. by destruct m.
Qed.

Lemma intersect_entries requested granted ctx fs : intersect_file_systems requested granted ctx = Some fs →
  ∃ req gr, materialize_context_dependent_entries (fs_entries requested) ctx = Some req ∧
    materialize_context_dependent_entries (fs_entries granted) ctx = Some gr ∧
    let accepted := accepted_grants requested granted req gr ctx in
    (∀ e, e ∈ fs_entries fs → e ∈ accepted ∨ entry_access e = Deny ∧ (e ∈ req ∨ e ∈ gr)) ∧
    (∀ e, e ∈ accepted → e ∈ fs_entries fs) ∧
    (∀ e, e ∈ req ∨ e ∈ gr → entry_access e = Deny → deny_entry_constrains_accepted_grant e accepted ctx = true →
       contains_entry (fs_entries fs) e = true).
Proof.
  unfold intersect_file_systems, retain_constraining_deny_entries.
  intros (req & Hreq & (gr & Hgr & [= <-])%bind_Some)%bind_Some. exists req, gr. split; [done|]. split; [done|].
  cbn [fs_entries]. set (accepted := accepted_grants _ _ _ _ _).
  destruct (push_all_missing (constraining_denials req accepted ctx) accepted) as (l1 & -> & Hin1 & Hall1).
  destruct (push_all_missing (constraining_denials gr accepted ctx) (accepted ++ l1)) as (l2 & -> & Hin2 & Hall2).
  rewrite Forall_forall in Hin1, Hin2, Hall1, Hall2. unfold constraining_denials in *.
  setoid_rewrite list_elem_of_filter in Hin1. setoid_rewrite list_elem_of_filter in Hin2.
  setoid_rewrite list_elem_of_filter in Hall1. setoid_rewrite list_elem_of_filter in Hall2. cbn zeta. split_and!.
  - intros e. rewrite !elem_of_app. unfold is_deny in *. intros [[?|He]|He]; [by left|right..].
    + destruct (Hin1 e He) as [[Hd _]%andb_true_iff ?]. bool_hyps. auto.
    + destruct (Hin2 e He) as [[Hd _]%andb_true_iff ?]. bool_hyps. auto.
  - intros e He. rewrite !elem_of_app. auto.
  - intros e He Hd Hc. assert (is_deny e = true) as Hdeny by (by apply bool_decide_true).
    destruct He as [He|He]; [apply contains_entry_app, Hall1|apply Hall2]; (split; [by rewrite Hdeny, Hc|done]).
Qed.

Lemma can_read_not_deny acc : can_read acc = true ↔ acc ≠ Deny.
Proof. by destruct acc. Qed.

(** What the kept grants let a path do was granted at an entry that contains it and that
    the request covers, deeper than every denial on either side. *)
Lemma intersection_access requested granted ctx fs : uri_convention (cwd ctx) = Some Posix →
  intersect_file_systems requested granted ctx = Some fs →
  ∃ req gr, materialize_context_dependent_entries (fs_entries requested) ctx = Some req ∧
    materialize_context_dependent_entries (fs_entries granted) ctx = Some gr ∧
    ∀ path, let acc := resolve_access (restricted (fs_entries fs)) path ctx in acc ≠ Deny →
    ∃ e r d, e ∈ gr ∧ entry_access e = acc ∧ resolve_permission_path (entry_path e) ctx = Some r ∧
      uri_starts_with path r = true ∧ uri_lexical_depth r = Some d ∧
      access_covers (resolve_access (restricted req) r ctx) acc = true ∧
      ∀ r' d', (r', Deny) ∈ resolved_entries (restricted (req ++ gr)) ctx → uri_starts_with path r' = true →
        uri_lexical_depth r' = Some d' → d' < d.
Proof.
  intros Hc Hfs. destruct (intersect_entries _ _ _ _ Hfs) as (req & gr & Hreq & Hgr & Hin & Hacc & Hden).
  exists req, gr. split; [done|]. split; [done|]. intros path acc Hne.
  destruct (access_from_entry (restricted (fs_entries fs)) path ctx eq_refl Hne) as (c & ds & r & d & Hctx & Hds & Hg).
  assert (c = Posix) as -> by (destruct Hctx; congruence).
  fold acc in Hg. pose proof Hg as [Hr _]. rewrite (applicable_elem (restricted (fs_entries fs)) ctx ds) in Hr by done.
  destruct Hr as (Hr & Hd & Hs). apply resolved_elem in Hr as (e & He & Ha & Hcr & Hr). cbn [entries restricted] in He.
  destruct (Hin e He) as [He'|[? _]]; [|congruence]. destruct (accepted_elem _ _ _ _ _ _ He') as [Hegr Hw].
  assert (resolve_permission_path (entry_path e) ctx = Some r) as Hrp.
  { apply (materialized_single _ _ _ _ Hgr Hegr). destruct (entry_path e); [by apply list_elem_of_singleton|done..]. }
  destruct (within_request_covers _ _ _ _ _ _ Hw Hrp) as [Hcov _]. rewrite Ha in Hcov.
  exists e, r, d. split_and!; [done..|].
  intros r' d' Hr' Hs' Hd'. apply (deeper_than_denial r acc d r' d' (applicable path ds)); [done..|].
  apply (applicable_elem (restricted (fs_entries fs)) ctx ds); [done|]. split; [|by split].
  pose proof Hr' as Hr''. apply resolved_elem in Hr' as (e' & He'' & Ha' & Hcr' & Hr').
  cbn [entries restricted] in He''. apply elem_of_app in He''.
  assert (resolve_permission_path (entry_path e') ctx = Some r') as Hrp'.
  { destruct He'' as [H|H]; [apply (materialized_single _ _ _ _ Hreq H)|apply (materialized_single _ _ _ _ Hgr H)];
      (destruct (entry_path e'); [by apply list_elem_of_singleton|done..]). }
  assert (contains_entry (fs_entries fs) e' = true) as Hcont.
  { apply Hden; [done|done|]. apply existsb_elem. exists e. split; [done|].
    rewrite Ha. apply andb_true_iff. split; [by apply can_read_not_deny|]. rewrite Hrp, Hrp'. apply orb_true_iff. right.
    assert (paths_overlap r' r = true) as Hov.
    { destruct Hctx as (_ & Hcp & _). by apply (containing_overlap path r' r d' d). }
    destruct (entry_path e'); done. }
  apply existsb_elem in Hcont as (e'' & Hin'' & Heq). unfold resolved_entries. apply elem_of_flat_map. exists e''. split; [done|].
  rewrite <- Ha'. apply entry_eq_resolved; [done..|]. unfold resolve_entry. rewrite map_map. apply elem_of_map.
  exists r'. split; [done|]. apply list_elem_of_filter. split; [done|].
  destruct (entry_path e'); [by apply list_elem_of_singleton|done..].
Qed.
End intersect.

(** ** Properties *)

Section properties.
Context {U : Type} {UO : UrlOps U} {UC : UrlCoding} {PG : PathGlobs}.
Implicit Types (p : FileSystemSandboxPolicy U) (profile : PermissionProfile U) (a : AdditionalPermissionProfile U)
  (ctx : FileSystemSandboxPolicyContext U) (path : U).

Lemma effective_network_enabled n a :
  effective_network_sandbox_policy n (Some a) = NetEnabled ↔
  n = NetEnabled ∨ network a = Some (mkNetworkPermissions (Some true)).
Proof.
  unfold effective_network_sandbox_policy, merge_network_access.
  destruct n, (network a) as [[[[]|]]|]; simpl; naive_solver.
Qed.

Lemma effective_kind p additional : policy_kind (effective_file_system_sandbox_policy p additional) = policy_kind p.
Proof.
  unfold effective_file_system_sandbox_policy. destruct (_ ≫= _) as [fs|]; [|done]. destruct (fs_is_empty fs); [done|].
  unfold merge_file_system_policy_with_additional_permissions. by destruct (policy_kind p) eqn:Hk.
Qed.

(** Equal kinds, and equal entries of restricted policies, give equal access. *)
Lemma same_policy_access p p' path ctx : policy_kind p = policy_kind p' →
  (policy_kind p' = Restricted → entries p = entries p') → resolve_access p path ctx = resolve_access p' path ctx.
Proof.
  intros Hk He. destruct (policy_kind p') eqn:Hk'.
  - apply resolve_access_same_entries; [congruence|]. intros e. by rewrite He.
  - unfold resolve_access. by rewrite Hk, Hk'.
  - unfold resolve_access. by rewrite Hk, Hk'.
Qed.

(** A profile is kept by taking its runtime policies and building it again, and the
    policies can always be built into a profile, which has their kind, entries and, unless
    nothing is enforced, their network access. *)
Theorem profile_round_trip profile e p n :
  from_runtime_permissions_with_enforcement (enforcement profile)
    (to_runtime_permissions profile).1 (to_runtime_permissions profile).2 = Some profile ∧
  ∃ q, from_runtime_permissions_with_enforcement e p n = Some q ∧
    policy_kind (file_system_sandbox_policy q) = policy_kind p ∧
    (policy_kind p = Restricted → entries (file_system_sandbox_policy q) = entries p) ∧
    (policy_kind p = Unrestricted ∧ e = EnforceDisabled ∨ network_sandbox_policy q = n).
Proof.
  split; [apply from_runtime_round_trip|]. destruct (from_runtime_total e p n) as [q Hq].
  exists q. split; [done|]. by apply (from_runtime_policy e).
Qed.

(** The read-only intersection of a profile exists but under an external sandbox; it has
    no network and writes nothing, reads nothing the profile does not, and reads all that
    a restricted profile does. *)
Theorem read_only_intersection profile path ctx :
  ∃ answer, intersect_with_read_only profile = Some answer ∧
    (answer = None ↔ policy_kind (file_system_sandbox_policy profile) = ExternalSandbox) ∧
    ∀ q, answer = Some q →
      network_sandbox_policy q = NetRestricted ∧
      can_write_path (file_system_sandbox_policy q) path ctx = false ∧
      (can_read_path (file_system_sandbox_policy q) path ctx = true →
         can_read_path (file_system_sandbox_policy profile) path ctx = true) ∧
      (policy_kind (file_system_sandbox_policy profile) = Restricted →
         can_read_path (file_system_sandbox_policy q) path ctx = can_read_path (file_system_sandbox_policy profile) path ctx).
Proof.
  set (p := file_system_sandbox_policy profile). unfold intersect_with_read_only. fold p.
  assert (∀ p' q, policy_kind p' = Restricted → (∀ e, e ∈ entries p' → entry_access e ≠ Write) →
    from_runtime_permissions p' NetRestricted = Some q → network_sandbox_policy q = NetRestricted ∧
    can_write_path (file_system_sandbox_policy q) path ctx = false ∧
    resolve_access (file_system_sandbox_policy q) path ctx = resolve_access p' path ctx) as Hq.
  { intros p' q Hk Hall Hf. unfold from_runtime_permissions in Hf. rewrite Hk in Hf.
    destruct (from_runtime_policy _ _ _ _ Hf) as (Hkq & He & Hn). split; [destruct Hn as [[? _]|]; congruence|].
    assert (resolve_access (file_system_sandbox_policy q) path ctx = resolve_access p' path ctx) as Heq
      by (apply same_policy_access; auto).
    split; [|done]. unfold can_write_path. rewrite Heq. apply andb_false_iff. left.
    pose proof (read_only_no_write p' path ctx) as Hw. destruct (resolve_access p' path ctx); try done.
    exfalso. apply Hw; [by apply Forall_forall|done..]. }
  assert (∀ p' : FileSystemSandboxPolicy U, ∃ q, from_runtime_permissions p' NetRestricted = Some q) as Htot
    by (intros p'; apply from_runtime_total).
  destruct (policy_kind p) eqn:Hk.
  - destruct (Htot (read_only_entries p)) as [q Hf]. unfold read_only_entries in Hf. rewrite Hf. exists (Some q).
    split; [done|]. split; [done|]. intros q' [= <-].
    destruct (Hq (read_only_entries p) q) as (Hn & Hw & Ha); [done| |done|].
    { intros e (e' & -> & _)%elem_of_map. by destruct e' as [? [] ?]. }
    split; [done|]. split; [done|]. unfold can_read_path. rewrite Ha, read_only_access_of by done.
    by destruct (resolve_access p path ctx).
  - destruct (Htot read_only) as [q Hf]. rewrite Hf. exists (Some q). split; [done|]. split; [done|].
    intros q' [= <-]. destruct (Hq read_only q) as (Hn & Hw & _); [done| |done|].
    { intros e. cbn. by intros ->%list_elem_of_singleton. }
    split; [done|]. split; [done|]. split; [|done]. intros _. unfold can_read_path, resolve_access. by rewrite Hk.
  - exists None. split; [done|]. split; [done|]. done.
Qed.

(** C23.  The profile in effect with additional permissions exists and is enforced in the same
    way; the network is open if it was or that is asked for; and no path has an access it
    had not, unless an additional entry that gives it contains the path and is deeper than
    every denial of the profile that does. *)
Theorem additional_permissions_confined profile a path ctx :
  ∃ q, effective_permission_profile profile (Some a) = Some q ∧ enforcement q = enforcement profile ∧
    (network_sandbox_policy q = NetEnabled ↔
       network_sandbox_policy profile = NetEnabled ∨ network a = Some (mkNetworkPermissions (Some true))) ∧
    let p := file_system_sandbox_policy profile in
    let acc := resolve_access (file_system_sandbox_policy q) path ctx in
    acc = Deny ∨ acc = resolve_access p path ctx ∨
    ∃ fs r d, file_system a = Some fs ∧ (r, acc) ∈ flat_map (resolve_entry ctx) (fs_entries fs) ∧
      uri_starts_with path r = true ∧ uri_lexical_depth r = Some d ∧
      ∀ r' d', (r', Deny) ∈ resolved_entries p ctx → uri_starts_with path r' = true →
        uri_lexical_depth r' = Some d' → d' < d.
Proof.
  unfold effective_permission_profile, to_runtime_permissions.
  set (p := file_system_sandbox_policy profile). set (p' := effective_file_system_sandbox_policy p (Some a)).
  destruct (from_runtime_total (enforcement profile) p' (effective_network_sandbox_policy (network_sandbox_policy profile) (Some a)))
    as [q Hq]. exists q. split; [done|]. pose proof (from_runtime_policy _ _ _ _ Hq) as (Hk & He & Hn).
  assert (policy_kind p' = policy_kind p) as Hkp by apply effective_kind.
  assert (resolve_access (file_system_sandbox_policy q) path ctx = resolve_access p' path ctx) as Hacc
    by (apply same_policy_access; auto).
  split.
  { unfold from_runtime_permissions_with_enforcement, from_sandbox_policy in Hq. rewrite Hkp in Hq.
    destruct profile as [[es d|] n| |n]; simpl in Hq; by injection Hq as <-. }
  split.
  { rewrite <- effective_network_enabled. destruct Hn as [[Hu Hd]|<-]; [|done].
    destruct profile; try done. rewrite effective_network_enabled. simpl in Hq.
    unfold from_runtime_permissions_with_enforcement in Hq. rewrite Hu in Hq. simpl in Hq. injection Hq as <-. naive_solver. }
  cbv zeta. rewrite Hacc.
  destruct (decide (policy_kind p = Restricted)) as [Hr|Hr].
  - destruct (file_system a) as [fs|] eqn:Hfs.
    + destruct (additional_access p a fs path ctx Hr Hfs) as [?|[?|(r & d & Hrest)]]; [by left|by right; left|].
      right. right. exists fs, r, d. by split.
    + right. left. unfold p', effective_file_system_sandbox_policy. cbn [mbind option_bind]. by rewrite Hfs.
  - right. left. apply same_policy_access; [done|]. intros. done.
Qed.
End properties.

Section grants.
Context {U : Type} {UO : UrlOps U} {UC : UrlCoding} {UCL : UrlCodingLaws UC} {UL : FileUrlLaws U} {PG : PathGlobs}.
Implicit Types (ctx : FileSystemSandboxPolicyContext U) (requested granted : AdditionalPermissionProfile U).

(** C11.  What is kept of a grant (POSIX): network exactly when both sides enable it, and of
    the file system nothing is readable or writable but through an entry that was granted,
    contains the path, is covered by the request where the entry points, and lies deeper
    than every denied path of the request and of the grant that contains the path.  Denied
    globs are not among them, and what the request has below the place the entry points to
    is not compared ([GrantMem.narrowed_request_widened]). *)
Theorem grant_within_request requested granted ctx path :
  uri_convention (cwd ctx) = Some Posix →
  let kept := intersect_permission_profiles_with_context requested granted ctx in
  (is_Some (network kept) ↔ network requested = Some (mkNetworkPermissions (Some true)) ∧
                            network granted = Some (mkNetworkPermissions (Some true))) ∧
  ∀ fs, file_system kept = Some fs → resolve_access (restricted (fs_entries fs)) path ctx ≠ Deny →
  let acc := resolve_access (restricted (fs_entries fs)) path ctx in
  ∃ asked given req gr, file_system requested = Some asked ∧ file_system granted = Some given ∧
    materialize_context_dependent_entries (fs_entries asked) ctx = Some req ∧
    materialize_context_dependent_entries (fs_entries given) ctx = Some gr ∧
  ∃ e r d, e ∈ gr ∧ entry_access e = acc ∧ resolve_permission_path (entry_path e) ctx = Some r ∧
    uri_starts_with path r = true ∧ uri_lexical_depth r = Some d ∧
    access_covers (resolve_access (restricted req) r ctx) acc = true ∧
    ∀ r' d', (r', Deny) ∈ resolved_entries (restricted (req ++ gr)) ctx → uri_starts_with path r' = true →
      uri_lexical_depth r' = Some d' → d' < d.
Proof.
  intros Hc kept. split.
  { unfold kept, intersect_permission_profiles_with_context, enabled_network. cbn [network].
    do 2 case_bool_decide; simpl; split; try naive_solver; by intros ?%is_Some_None. }
  intros fs Hfs Hne acc. apply keep_Some in Hfs as [Hfs _]. apply bind_Some in Hfs as (asked & Hasked & Hfs).
  destruct (intersection_access _ _ _ _ Hc Hfs) as (req & gr & Hreq & Hgr & Hall).
  destruct (Hall path Hne) as (e & r & d & He & Hrest). destruct (file_system granted) as [given|].
  - exists asked, given, req, gr. split_and!; [done..|]. by exists e, r, d.
  - simpl in Hgr. injection Hgr as <-. by apply elem_of_nil in He.
Qed.
End grants.

(** * Concrete grants *)

Module GrantMem.
Export FsMem.

Definition asks (es : list (FileSystemSandboxEntry MemUrl)) : AdditionalPermissionProfile MemUrl :=
  mkAdditional None (Some (mkFsPermissions es None)).
Definition requested : AdditionalPermissionProfile MemUrl :=
  asks [path_entry (lit "file:///w") Write; path_entry (lit "file:///w/ro") Read].
Definition granted : AdditionalPermissionProfile MemUrl := asks [path_entry (lit "file:///w/src") Write].

Lemma grant_within_request_witness :
  let kept := intersect_permission_profiles_with_context requested granted (here [lit "file:///w"]) in
  ∃ fs, file_system kept = Some fs ∧
    resolve_access (restricted (fs_entries fs)) (url (lit "file:///w/src/x")) (here [lit "file:///w"]) = Write ∧
    ∃ asked, file_system requested = Some asked.
Proof.
  intros kept.
  destruct (file_system kept) as [fs|] eqn:Hfs; [|vm_compute in Hfs; done].
  destruct (grant_within_request requested granted (here [lit "file:///w"]) (url (lit "file:///w/src/x"))) as [_ H]; [reflexivity|].
  assert (resolve_access (restricted (fs_entries fs)) (url (lit "file:///w/src/x")) (here [lit "file:///w"]) = Write) as Hw.
  { vm_compute in Hfs. injection Hfs as <-. vm_compute. reflexivity. }
  destruct (H fs Hfs) as (asked & _ & _ & _ & Ha & _); [by rewrite Hw|].
  exists fs. split; [reflexivity|]. split; [exact Hw|]. exists asked. exact Ha.
Defined.

(** A narrowing of the request does not survive when the grant names the directory above:
    the request asks to write in [/w] and only to read in [/w/ro], the grant lets it write
    in [/w], and what is kept lets it write in [/w/ro]. *)
Example narrowed_request_widened :
  let kept := intersect_permission_profiles_with_context requested (asks [path_entry (lit "file:///w") Write]) (here [lit "file:///w"]) in
  let access (a : AdditionalPermissionProfile MemUrl) :=
    match file_system a with
    | Some fs => resolve_access (restricted (fs_entries fs)) (url (lit "file:///w/ro/x")) (here [lit "file:///w"])
    | None => Deny
    end in
  access requested = Read ∧ access kept = Write.
Proof. vm_compute. done. Qed.
End GrantMem.
