(* ===== verification/ShellScript.v ===== *)
(** * ShellScript: the commands of a shell script
    ([shell-command/src/bash.rs], [shell-command/src/shell_detect.rs],
    [shell-command/src/powershell.rs])

    Recognising [bash -lc script] and [pwsh -Command script], and reading the commands of
    a script off its syntax tree: all of them when the script is only plain commands, or
    the words that are literal in any script. *)
From Stdlib Require Import Sorted.
From S2P Require Import Prelude RustStr UnixPath.

(** ** Shells ([shell_detect.rs]) *)

Inductive ShellType := Zsh | Bash | PowerShell | Sh | Cmd.

#[export] Instance ShellType_eq_dec : EqDecision ShellType.
Proof. solve_decision. Defined.

Definition shell_of_name (name : str) : option ShellType :=
  if bool_decide (name = lit "zsh") then Some Zsh
  else if bool_decide (name = lit "sh") then Some Sh
  else if bool_decide (name = lit "cmd") then Some Cmd
  else if bool_decide (name = lit "bash") then Some Bash
  else if bool_decide (name = lit "pwsh") then Some PowerShell
  else if bool_decide (name = lit "powershell") then Some PowerShell
  else None.

(** [Path::file_stem]: the name up to its last dot, unless nothing precedes it. *)
Definition file_stem (path : Path) : option str :=
  name ← file_name path;
  match rsplit_once 46%N name with
  | Some (before, _) => Some (if bool_decide (before = []) then name else before)
  | None => Some name
  end.

(** The recursion takes the name of a path, and then an extension off it each time; paths
    are compared by components. *)
Fixpoint detect_loop (fuel : nat) (shell_path : str) : option ShellType :=
  match shell_of_name shell_path with
  | Some shell => Some shell
  | None =>
      match fuel with
      | O => None
      | S fuel =>
          match file_stem (components shell_path) with
          | Some shell_name =>
              if bool_decide (components shell_name ≠ components shell_path) then detect_loop fuel shell_name else None
          | None => None
          end
      end
  end.
Definition detect_shell_type (shell_path : str) : option ShellType := detect_loop (S (length shell_path)) shell_path.

(** ** Syntax trees *)

(** What the code uses of [tree_sitter] with the grammar of [tree_sitter_bash]: the root
    of the tree of a text, and a node's kind, children and text. *)
Class SyntaxTree := {
  Node : Type;
  try_parse_shell : str → option Node;
  kind : Node → str;
  is_named : Node → bool;
  has_error : Node → bool;
  start_byte : Node → nat;
  children : Node → list Node;
  (** The node and all below it. *)
  descendant_count : Node → nat;
  (** The text of the node in the source, if it is UTF-8. *)
  utf8_text : Node → str → option str;
}.

(** The counts are right, so trees are finite. *)
Class SyntaxTreeLaws (T : SyntaxTree) := {
  descendant_count_eq n : descendant_count n = S (sum_list (map descendant_count (children n)));
}.

Section scripts.
Context {T : SyntaxTree}.
Implicit Types (node : Node) (src : str).

Definition named_children node : list Node := filter (λ child, is_named child = true) (children node).

Definition kind_is (k : str) node : bool := bool_decide (kind node = k).
Definition one_of (ks : list str) (k : str) : bool := bool_decide (k ∈ ks).

Definition ALLOWED_KINDS : list str :=
  [lit "program"; lit "list"; lit "pipeline"; lit "command"; lit "command_name"; lit "word"; lit "string";
   lit "string_content"; lit "raw_string"; lit "number"; lit "concatenation"].
(** The last but one is a double quote. *)
Definition ALLOWED_PUNCT_TOKENS : list str := [lit "&&"; lit "||"; lit ";"; lit "|"; [34%N]; lit "'"].

Definition is_word_kind (k : str) : bool := one_of [lit "word"; lit "number"] k.

(** Braces, globs, escapes, tildes, zsh globs, comments and expansions. *)
Definition is_shell_special (c : N) : bool :=
  existsb (λ d, is_char d c) (lit "{}*?[]\~^#$`").

Definition is_literal_word_or_number node src : bool :=
  is_word_kind (kind node)
  && match named_children node with [] => true | _ => false end
  && match utf8_text node src with
     | Some word => negb (starts_with (lit "=") word) && negb (existsb is_shell_special word)
     | None => false
     end.

(** A backslash before a char it escapes inside double quotes. *)
Fixpoint has_escape (s : str) : bool :=
  match s with
  | c :: (d :: _) as s' =>
      is_char 92%N c && existsb (λ e, is_char e d) [36%N; 96%N; 34%N; 92%N; 10%N] || has_escape s'
  | _ => false
  end.

Definition parse_double_quoted_string node src : option str :=
  if negb (kind_is (lit "string") node) then None
  else if existsb (λ part, negb (kind_is (lit "string_content") part)) (named_children node) then None
  else
    raw ← utf8_text node src;
    text ← strip_prefix [34%N] raw;
    stripped ← strip_suffix [34%N] text;
    if has_escape stripped then None else Some stripped.

Definition parse_raw_string node src : option str :=
  if negb (kind_is (lit "raw_string") node) then None
  else
    raw_string ← utf8_text node src;
    text ← strip_prefix (lit "'") raw_string; strip_suffix (lit "'") text.

(** [collect] for [option]. *)
Fixpoint sequence {A B} (f : A → option B) (l : list A) : option (list B) :=
  match l with [] => Some [] | x :: l => y ← f x; ys ← sequence f l; Some (y :: ys) end.

(** ** Plain commands *)

Definition plain_part node src : option str :=
  if is_word_kind (kind node) then utf8_text node src
  else if kind_is (lit "string") node then parse_double_quoted_string node src
  else if kind_is (lit "raw_string") node then parse_raw_string node src
  else None.

Definition nonempty_text (s : str) : option str := if bool_decide (s = []) then None else Some s.

Definition plain_child node src : option str :=
  if kind_is (lit "command_name") node then
    word_node ← head (named_children node);
    if kind_is (lit "word") word_node then utf8_text word_node src else None
  else if kind_is (lit "concatenation") node then
    parts ← sequence (λ part, plain_part part src) (named_children node); nonempty_text (mjoin parts)
  else plain_part node src.

Definition parse_plain_command_from_node cmd src : option (list str) :=
  if negb (kind_is (lit "command") cmd) then None
  else sequence (λ child, plain_child child src) (named_children cmd).

Definition permitted node src : bool :=
  if is_named node then
    one_of ALLOWED_KINDS (kind node) && (negb (is_word_kind (kind node)) || is_literal_word_or_number node src)
  else if existsb (λ c, is_char 38%N c || is_char 59%N c || is_char 124%N c) (kind node)
          && negb (one_of ALLOWED_PUNCT_TOKENS (kind node))
  then false
  else one_of ALLOWED_PUNCT_TOKENS (kind node) || bool_decide (trim (kind node) = []).

Definition is_command node : bool := is_named node && kind_is (lit "command") node.

(** The walk with a stack, whose top is the head; it ends when every node was visited. *)
Fixpoint walk_plain (fuel : nat) (stack commands : list Node) src : option (list Node) :=
  match stack with
  | [] => Some commands
  | node :: stack =>
      match fuel with
      | O => None
      | S fuel =>
          if permitted node src
          then walk_plain fuel (rev (children node) ++ stack)
                 (if is_command node then commands ++ [node] else commands) src
          else None
      end
  end.

(** [sort_by_key], which is stable. *)
Fixpoint insert_by_start node (l : list Node) : list Node :=
  match l with
  | [] => [node]
  | n :: l' => if start_byte node <=? start_byte n then node :: l else n :: insert_by_start node l'
  end.
Definition sort_by_start (l : list Node) : list Node := foldr insert_by_start [] l.

Definition try_parse_word_only_commands_sequence root src : option (list (list str)) :=
  if has_error root then None
  else
    command_nodes ← walk_plain (descendant_count root) [root] [] src;
    sequence (λ node, parse_plain_command_from_node node src) (sort_by_start command_nodes).

Definition parse_shell_script_into_commands (script : str) : option (list (list str)) :=
  tree ← try_parse_shell script; try_parse_word_only_commands_sequence tree script.

Definition extract_bash_command (command : list str) : option (str * str) :=
  match command with
  | [shell; flag; script] =>
      if negb (one_of [lit "-lc"; lit "-c"] flag)
         || negb (match detect_shell_type shell with Some Zsh | Some Bash | Some Sh => true | _ => false end)
      then None else Some (shell, script)
  | _ => None
  end.

Definition parse_shell_lc_plain_commands (command : list str) : option (list (list str)) :=
  '(_, script) ← extract_bash_command command; parse_shell_script_into_commands script.

(** ** Literal words *)

(** The recursion goes down the tree, so the count of nodes is fuel enough. *)
Fixpoint literal_word (fuel : nat) node src : option str :=
  match fuel with
  | O => None
  | S fuel =>
      if is_word_kind (kind node) && is_literal_word_or_number node src then utf8_text node src
      else if kind_is (lit "string") node then parse_double_quoted_string node src
      else if kind_is (lit "raw_string") node then parse_raw_string node src
      else if kind_is (lit "concatenation") node then
        parts ← sequence (λ part, literal_word fuel part src) (named_children node); nonempty_text (mjoin parts)
      else None
  end.
Definition parse_literal_shell_word node src : option str := literal_word (descendant_count node) node src.

(** The loop over the children; the inner [None] is an early return. *)
Fixpoint literal_children (found_command_name : bool) (nodes : list Node) src : option (bool * list str) :=
  match nodes with
  | [] => Some (found_command_name, [])
  | child :: nodes =>
      if kind_is (lit "command_name") child then
        word_node ← head (named_children child);
        command_name ← parse_literal_shell_word word_node src;
        '(found, words) ← literal_children true nodes src; Some (found, command_name :: words)
      else
        match (if found_command_name then parse_literal_shell_word child src else None) with
        | Some word => '(found, words) ← literal_children found_command_name nodes src; Some (found, word :: words)
        | None => literal_children found_command_name nodes src
        end
  end.

Definition parse_literal_command_from_node cmd src : option (list str) :=
  if negb (kind_is (lit "command") cmd) then None
  else '(found_command_name, words) ← literal_children false (named_children cmd) src;
       if found_command_name : bool then Some words else None.

Fixpoint walk_literal (fuel : nat) (stack : list Node) src : list (list str) :=
  match stack with
  | [] => []
  | node :: stack =>
      match fuel with
      | O => []
      | S fuel =>
          (if kind_is (lit "command") node then option_list (parse_literal_command_from_node node src) else [])
          ++ walk_literal fuel (rev (named_children node) ++ stack) src
      end
  end.

Definition parse_shell_lc_literal_commands (command : list str) : option (list (list str)) :=
  '(_, script) ← extract_bash_command command;
  root ← try_parse_shell script;
  if has_error root then None else Some (walk_literal (descendant_count root) [root] script).
End scripts.

(** ** PowerShell ([powershell.rs]) *)

Definition POWERSHELL_FLAGS : list str := [lit "-nologo"; lit "-noprofile"; lit "-command"; lit "-c"].

(** The flags up to the script, with at least one word after each. *)
Fixpoint powershell_script (args : list str) : option str :=
  match args with
  | flag :: (script :: _) as rest =>
      if negb (one_of POWERSHELL_FLAGS (to_ascii_lowercase flag)) then None
      else if eq_ignore_ascii_case flag (lit "-Command") || eq_ignore_ascii_case flag (lit "-c") then Some script
      else powershell_script rest
  | _ => None
  end.

Definition extract_powershell_command (command : list str) : option (str * str) :=
  match command with
  | shell :: (_ :: _ :: _) as args =>
      if bool_decide (detect_shell_type shell = Some PowerShell)
      then script ← powershell_script args; Some (shell, script) else None
  | _ => None
  end.

(** [prefix_powershell_script_with_utf8]; the script found replaces the last word. *)
Definition UTF8_OUTPUT_PREFIX : str :=
  lit "try { [Console]::OutputEncoding=[System.Text.Encoding]::UTF8 } catch {}" ++ [c_nl].
Definition prefix_powershell_script_with_utf8 (command : list str) : list str :=
  match extract_powershell_command command with
  | None => command
  | Some (_, script) =>
      let script := if starts_with UTF8_OUTPUT_PREFIX (trim_start script) then script else UTF8_OUTPUT_PREFIX ++ script in
      take (length command - 1) command ++ [script]
  end.

(** * What is read off a script *)

(** ** The recursion on names ends *)

Lemma split_at_all_piece {A} (p : A → bool) l piece : piece ∈ split_at_all p l → length piece ≤ length l ∧ (length piece = length l → piece = l).
Proof.
  revert piece. induction l as [|x l IH]; intros piece; simpl.
  - by intros ->%list_elem_of_singleton.
  - destruct (p x).
    + intros [->|Hin]%elem_of_cons; [simpl; split; [lia|done]|]. destruct (IH _ Hin). split; [lia|]. intros. lia.
    + destruct (split_at_all p l) as [|q rest] eqn:E; [by apply split_at_all_nonempty in E|].
      intros [->|Hin]%elem_of_cons.
      * destruct (IH q) as [H1 H2]; [left|]. simpl. split; [lia|]. intros [= H]. by rewrite H2.
      * destruct (IH piece) as [H1 H2]; [by right|]. split; [lia|]. intros. lia.
Qed.

Lemma file_name_length raw name : file_name (components raw) = Some name →
  length name ≤ length raw ∧ (length name = length raw → name = raw).
Proof.
  intros (q & Hq)%file_name_Some. assert (Normal name ∈ components raw) as Hin by (rewrite Hq; set_solver).
  apply (split_at_all_piece (is_char c_slash)). clear Hq q.
  assert (∀ pieces : list str, Normal name ∈ omap piece_component pieces → name ∈ pieces) as Hp.
  { intros pieces (piece & Hpiece & Hc)%list_elem_of_omap. unfold piece_component in Hc. repeat case_match; simplify_eq. done. }
  apply Hp. change (split_at_all (is_char c_slash) raw) with (split_char c_slash raw). unfold components in Hin.
  destruct (starts_with [c_slash] raw); [by apply elem_of_cons in Hin as [?|Hin]|].
  destruct (split_char c_slash raw) as [|piece rest]; [done|].
  case_bool_decide; [by apply elem_of_cons in Hin as [?|Hin]|done].
Qed.

(** A step of the recursion shortens the path. *)
Lemma file_stem_shorter raw stem : file_stem (components raw) = Some stem →
  components stem ≠ components raw → length stem < length raw.
Proof.
  unfold file_stem. intros (name & Hname & H)%bind_Some Hne. destruct (file_name_length _ _ Hname) as [Hle Heq].
  destruct (rsplit_once 46%N name) as [[before after]|] eqn:Hr.
  - apply rsplit_once_Some in Hr as [-> _]. rewrite length_app in Hle. simpl in Hle.
    case_bool_decide; simplify_eq; [|lia]. rewrite length_app in Heq. simpl in *.
    destruct (decide (S (length after) = length raw)); [rewrite Heq in Hne by done; done|lia].
  - injection H as ->. destruct (decide (length stem = length raw)); [rewrite Heq in Hne by done; done|lia].
Qed.

(** The length is fuel enough. *)
Lemma detect_loop_enough n m raw : length raw < n → length raw < m → detect_loop n raw = detect_loop m raw.
Proof.
  revert m raw. induction n as [|n IH]; intros [|m] raw Hn Hm; try lia. simpl.
  destruct (shell_of_name raw); [done|]. destruct (file_stem (components raw)) as [stem|] eqn:Hs; [|done].
  case_bool_decide as Hne; [|done]. pose proof (file_stem_shorter _ _ Hs Hne). apply IH; lia.
Qed.

(** ** Walks *)

Section walks.
Context {T : SyntaxTree} {Laws : SyntaxTreeLaws T}.
Implicit Types (node n : Node) (src : str).

(** What a walk with a stack visits. *)
Fixpoint visit (next : Node → list Node) (fuel : nat) (stack : list Node) : list Node :=
  match stack, fuel with
  | node :: stack, S fuel => node :: visit next fuel (rev (next node) ++ stack)
  | _, _ => []
  end.

Definition size (l : list Node) : nat := sum_list (map descendant_count l).

Lemma sum_list_perm (l k : list nat) : l ≡ₚ k → sum_list l = sum_list k.
Proof. induction 1; simpl; lia. Qed.

Lemma size_app l k : size (l ++ k) = size l + size k.
Proof. unfold size. induction l as [|n l IH]; simpl; [done|]. rewrite IH. lia. Qed.

Lemma size_rev l : size (rev l) = size l.
Proof. unfold size. rewrite map_rev. apply sum_list_perm. symmetry. apply Permutation_rev. Qed.

Lemma size_filter (P : Node → Prop) `{∀ n, Decision (P n)} l : size (filter P l) ≤ size l.
Proof.
  unfold size. induction l as [|n l IH]; [done|]. rewrite filter_cons. case_decide; simpl; lia.
Qed.

Lemma filter_rev_list (P : Node → Prop) `{∀ n, Decision (P n)} l : filter P (rev l) = rev (filter P l).
Proof.
  induction l as [|n l IH]; [done|]. simpl. rewrite filter_app, IH, !filter_cons, filter_nil. by case_decide; [|rewrite app_nil_r].
Qed.

Lemma elem_of_rev_list (n : Node) l : n ∈ rev l ↔ n ∈ l.
Proof. by rewrite <- (Permutation_rev l). Qed.

Definition within (next : Node → list Node) : Node → Node → Prop := rtc (λ n c, c ∈ next n).

(** A walk over [children], or fewer, visits what is below the stack, and only that. *)
Lemma visit_elem next fuel stack n : (∀ m, size (next m) ≤ size (children m)) → size stack ≤ fuel →
  n ∈ visit next fuel stack ↔ ∃ s, s ∈ stack ∧ within next s n.
Proof.
  intros Hnext. revert stack. induction fuel as [|fuel IH]; intros [|node stack] Hf; simpl.
  - split; [by intros ?%elem_of_nil|]. by intros (s & ?%elem_of_nil & _).
  - unfold size in Hf. simpl in Hf. rewrite descendant_count_eq in Hf. lia.
  - split; [by intros ?%elem_of_nil|]. by intros (s & ?%elem_of_nil & _).
  - assert (size (rev (next node) ++ stack) ≤ fuel) as Hf'.
    { rewrite size_app, size_rev. specialize (Hnext node). unfold size in *. simpl in Hf.
      rewrite descendant_count_eq in Hf. lia. }
    rewrite elem_of_cons, (IH _ Hf'). setoid_rewrite elem_of_app. setoid_rewrite elem_of_rev_list. split.
    + intros [->|(s & [Hs|Hs] & Hn)].
      * exists node. split; [left|apply rtc_refl].
      * exists node. split; [left|]. by eapply rtc_l.
      * exists s. split; [by right|done].
    + intros (s & [->|Hs]%elem_of_cons & Hn); [|right; eauto].
      inversion Hn as [|? m ? Hm Hrest]; subst; [by left|]. right. exists m. auto.
Qed.

Lemma walk_plain_visit fuel stack commands src : size stack ≤ fuel →
  walk_plain fuel stack commands src =
  if forallb (λ n, permitted n src) (visit children fuel stack)
  then Some (commands ++ filter (λ n, is_command n = true) (visit children fuel stack)) else None.
Proof.
  revert stack commands. induction fuel as [|fuel IH]; intros [|node stack] commands Hf; simpl.
  - by rewrite app_nil_r.
  - unfold size in Hf. simpl in Hf. rewrite descendant_count_eq in Hf. lia.
  - by rewrite app_nil_r.
  - destruct (permitted node src); [|done]. simpl. rewrite IH.
    + destruct (forallb _ _); [|done]. rewrite filter_cons.
      destruct (is_command node) eqn:Hc; case_decide; try done. by rewrite <- app_assoc.
    + rewrite size_app, size_rev. unfold size in *. simpl in Hf. rewrite descendant_count_eq in Hf. lia.
Qed.

Lemma walk_literal_visit fuel stack src :
  walk_literal fuel stack src =
  flat_map (λ n, if kind_is (lit "command") n then option_list (parse_literal_command_from_node n src) else [])
    (visit named_children fuel stack).
Proof.
  revert stack. induction fuel as [|fuel IH]; intros [|node stack]; simpl; try done. by rewrite IH.
Qed.

(** Where anonymous nodes are leaves, the walk over named children visits the named nodes. *)
Lemma visit_named fuel fuel' stack : (∀ n, is_named n = false → children n = []) →
  size stack ≤ fuel → size (filter (λ n, is_named n = true) stack) ≤ fuel' →
  filter (λ n, is_named n = true) (visit children fuel stack) =
  visit named_children fuel' (filter (λ n, is_named n = true) stack).
Proof.
  intros Hleaf. revert fuel' stack. induction fuel as [|fuel IH]; intros fuel' [|node stack] Hf Hf'; try (by destruct fuel').
  - unfold size in Hf. simpl in Hf. rewrite descendant_count_eq in Hf. lia.
  - assert (size (rev (children node) ++ stack) ≤ fuel) as Hs.
    { rewrite size_app, size_rev. unfold size in *. simpl in Hf. rewrite descendant_count_eq in Hf. lia. }
    cbn [visit]. rewrite !filter_cons in *. destruct (is_named node) eqn:Hn; case_decide; try done.
    + destruct fuel' as [|fuel'].
      { unfold size in Hf'. simpl in Hf'. rewrite descendant_count_eq in Hf'. lia. }
      cbn [visit]. f_equal. rewrite (IH fuel'); [|done|].
      * by rewrite filter_app, filter_rev_list.
      * rewrite filter_app, size_app, filter_rev_list, size_rev. unfold size in *. simpl in Hf'.
        rewrite descendant_count_eq in Hf'. pose proof (size_filter (λ n, is_named n = true) (children node)).
        unfold size in *. lia.
    + rewrite (Hleaf node Hn). cbn [rev app]. apply IH; [|done]. rewrite Hleaf in Hs by done. done.
Qed.
End walks.

(** ** Plain scripts *)

(** The shape of the trees of the grammar: tokens are leaves, and the name of a command
    comes once, after assignments and redirections only. *)
Class BashGrammar (T : SyntaxTree) := {
  root_named src (n : Node) : try_parse_shell src = Some n → is_named n = true;
  token_leaf (n : Node) : is_named n = false → children n = [];
  command_shape (n : Node) : is_command n = true →
    ∃ before name args, named_children n = before ++ name :: args ∧ kind name = lit "command_name" ∧
      (∀ b, b ∈ before → one_of ALLOWED_KINDS (kind b) = false) ∧ ∀ a, a ∈ args → kind a ≠ lit "command_name";
}.

Section plain.
Context {T : SyntaxTree} {Laws : SyntaxTreeLaws T}.
Implicit Types (node n : Node) (src : str).

Lemma sequence_Some {A B} (f : A → option B) l ys : sequence f l = Some ys ↔ Forall2 (λ x y, f x = Some y) l ys.
Proof.
  revert ys. induction l as [|x l IH]; intros ys; simpl.
  - split; [intros [= <-]; constructor|]. by intros ->%Forall2_nil_inv_l.
  - split.
    + intros (y & Hy & (ys' & Hys & [= <-])%bind_Some)%bind_Some. constructor; [done|]. by apply IH.
    + intros (y & ys' & Hy & Hys%IH & ->)%Forall2_cons_inv_l. by rewrite Hy, Hys.
Qed.

Lemma Forall2_impl_elem {A B} (P Q : A → B → Prop) l k :
  Forall2 P l k → (∀ x y, x ∈ l → P x y → Q x y) → Forall2 Q l k.
Proof. induction 1; intros H'; constructor; [apply H'; [left|done]|]. apply IHForall2. intros. apply H'; [by right|done]. Qed.

Lemma insert_by_start_perm node l : insert_by_start node l ≡ₚ node :: l.
Proof.
  induction l as [|n l IH]; simpl; [done|]. destruct (_ <=? _); [done|]. rewrite IH. apply Permutation_swap.
Qed.

Lemma sort_by_start_perm l : sort_by_start l ≡ₚ l.
Proof. induction l as [|n l IH]; [done|]. simpl. by rewrite insert_by_start_perm, IH. Qed.

(** The command nodes of a tree, in the order of the walk. *)
Definition command_nodes root : list Node := filter (λ n, is_command n = true) (visit children (descendant_count root) [root]).

Lemma size_one root : size [root] = descendant_count root.
Proof. unfold size. simpl. lia. Qed.

Lemma visit_root root n : n ∈ visit children (descendant_count root) [root] ↔ within children root n.
Proof.
  rewrite visit_elem; [|done|by rewrite size_one]. split.
  - by intros (s & ->%list_elem_of_singleton & ?).
  - intros. exists root. by rewrite list_elem_of_singleton.
Qed.

Lemma word_only_commands root src cmds :
  try_parse_word_only_commands_sequence root src = Some cmds ↔
  has_error root = false ∧ (∀ n, within children root n → permitted n src = true) ∧
  Forall2 (λ n words, parse_plain_command_from_node n src = Some words) (sort_by_start (command_nodes root)) cmds.
Proof.
  unfold try_parse_word_only_commands_sequence. destruct (has_error root); [naive_solver|].
  rewrite walk_plain_visit by by rewrite size_one. setoid_rewrite <- visit_root.
  destruct (forallb _ _) eqn:Hall; cbn [mbind option_bind app].
  - rewrite sequence_Some. rewrite forallb_forall in Hall. setoid_rewrite list_elem_of_In. naive_solver.
  - split; [done|]. intros (_ & H & _). apply not_true_iff_false in Hall. destruct Hall.
    apply forallb_forall. intros n Hn. by apply H, list_elem_of_In.
Qed.

(** ** Plain and literal readings *)

Lemma permitted_word n src : permitted n src = true → is_named n = true → is_word_kind (kind n) = true →
  is_literal_word_or_number n src = true.
Proof. unfold permitted. intros H Hn Hk. rewrite Hn, Hk in H. by apply andb_true_iff in H as [_ H]. Qed.

Lemma permitted_kind n src : permitted n src = true → is_named n = true → one_of ALLOWED_KINDS (kind n) = true.
Proof. unfold permitted. intros H Hn. rewrite Hn in H. by apply andb_true_iff in H as [H _]. Qed.

Lemma kind_is_true k n : kind_is k n = true ↔ kind n = k.
Proof. apply bool_decide_eq_true. Qed.

Lemma plain_part_literal k n src w : permitted n src = true → is_named n = true →
  plain_part n src = Some w → literal_word (S k) n src = Some w.
Proof.
  intros Hp Hn. unfold plain_part. simpl. destruct (is_word_kind (kind n)) eqn:Hk.
  - by rewrite (permitted_word n src).
  - destruct (kind_is (lit "string") n); [done|]. by destruct (kind_is (lit "raw_string") n).
Qed.

Lemma named_child_elem n c : c ∈ named_children n → is_named c = true ∧ c ∈ children n.
Proof. unfold named_children. by intros [? ?]%list_elem_of_filter. Qed.

Lemma descendant_count_S n : ∃ k, descendant_count n = S k ∧ ∀ c, c ∈ named_children n → 0 < k.
Proof.
  rewrite descendant_count_eq. eexists. split; [done|]. intros c [_ Hc]%named_child_elem.
  induction (children n) as [|d l IH]; [by apply elem_of_nil in Hc|]. simpl.
  apply elem_of_cons in Hc as [->|Hc]; [rewrite descendant_count_eq; lia|]. specialize (IH Hc). lia.
Qed.

Lemma plain_child_literal n src w : (∀ m, within children n m → permitted m src = true) → is_named n = true →
  kind n ≠ lit "command_name" → plain_child n src = Some w → parse_literal_shell_word n src = Some w.
Proof.
  intros Hp Hn Hk. unfold plain_child, parse_literal_shell_word.
  destruct (kind_is (lit "command_name") n) eqn:Hc; [by apply kind_is_true in Hc|].
  destruct (descendant_count_S n) as (k & -> & Hpos).
  destruct (kind_is (lit "concatenation") n) eqn:Hcat.
  - apply kind_is_true in Hcat. intros (parts & Hparts & Hw)%bind_Some. simpl.
    assert (is_word_kind (kind n) = false) as -> by (rewrite Hcat; reflexivity).
    assert (kind_is (lit "string") n = false) as -> by (unfold kind_is; rewrite Hcat; reflexivity).
    assert (kind_is (lit "raw_string") n = false) as -> by (unfold kind_is; rewrite Hcat; reflexivity).
    assert (kind_is (lit "concatenation") n = true) as -> by by apply kind_is_true. simpl.
    assert (sequence (λ part, literal_word k part src) (named_children n) = Some parts) as ->; [|done].
    apply sequence_Some in Hparts. apply sequence_Some.
    eapply Forall2_impl_elem; [exact Hparts|]. intros c part Hin Hc'.
    destruct k as [|k]; [specialize (Hpos c Hin); lia|]. destruct (named_child_elem _ _ Hin) as [Hcn Hcc].
    apply plain_part_literal; [|done..]. apply Hp. by apply rtc_once.
  - intros Hw. apply plain_part_literal; [|done..]. apply Hp. apply rtc_refl.
Qed.

Lemma literal_children_args src args ws :
  Forall2 (λ a w, kind a ≠ lit "command_name" ∧ parse_literal_shell_word a src = Some w) args ws →
  literal_children true args src = Some (true, ws).
Proof.
  induction 1 as [|a w args ws [Hk Hw] _ IH]; [done|]. simpl.
  destruct (kind_is (lit "command_name") a) eqn:E; [by apply kind_is_true in E|].
  by rewrite Hw, IH.
Qed.

Lemma plain_command_literal {G : BashGrammar T} n src words : (∀ m, within children n m → permitted m src = true) →
  is_command n = true → parse_plain_command_from_node n src = Some words →
  parse_literal_command_from_node n src = Some words.
Proof.
  intros Hp Hcmd. unfold parse_plain_command_from_node, parse_literal_command_from_node.
  destruct (kind_is (lit "command") n); [|done]. cbn [negb].
  destruct (command_shape n Hcmd) as (before & name & args & Hshape & Hname & Hbefore & Hargs).
  assert (∀ c, c ∈ named_children n → is_named c = true ∧ ∀ m, within children c m → permitted m src = true) as Hall.
  { intros c [Hc1 Hc2]%named_child_elem. split; [done|]. intros m Hm. apply Hp. by eapply rtc_l. }
  destruct before as [|b before].
  2: { exfalso. destruct (Hall b) as [Hb Hbp]; [rewrite Hshape; left|].
       assert (one_of ALLOWED_KINDS (kind b) = true) as Hk by (eapply permitted_kind; [apply Hbp, rtc_refl|done]).
       rewrite Hbefore in Hk; [done|left]. }
  rewrite Hshape in *. cbn [app] in *. intros H%sequence_Some.
  apply Forall2_cons_inv_l in H as (w & ws & Hw & Hws & ->).
  assert (kind_is (lit "command_name") name = true) as Hkn by by apply kind_is_true.
  unfold plain_child in Hw. rewrite Hkn in Hw. apply bind_Some in Hw as (word & Hword & Hw).
  cbn [literal_children]. rewrite Hkn, Hword. cbn [mbind option_bind].
  destruct (kind_is (lit "word") word) eqn:Hkw; [|done]. apply kind_is_true in Hkw.
  assert (word ∈ named_children name) as Hin.
  { destruct (named_children name); [done|]. injection Hword as ->. left. }
  destruct (Hall name) as [_ Hnp]; [left|]. destruct (named_child_elem _ _ Hin) as [Hwn Hwc].
  assert (parse_literal_shell_word word src = Some w) as ->.
  { unfold parse_literal_shell_word. destruct (descendant_count_S word) as (k & -> & _). simpl.
    assert (is_word_kind (kind word) = true) as Hk by (rewrite Hkw; reflexivity).
    rewrite Hk, (permitted_word word src); [done| |done|done]. apply Hnp. by apply rtc_once. }
  cbn [mbind option_bind]. rewrite (literal_children_args src args ws); [done|].
  eapply Forall2_impl_elem; [exact Hws|]. intros a w' Ha Hw'. cbn beta. split; [by apply Hargs|].
  destruct (Hall a) as [Han Hap]; [by right|]. apply plain_child_literal; auto.
Qed.

Lemma flat_map_command (g : Node → list (list str)) l :
  flat_map (λ n, if kind_is (lit "command") n then g n else []) (filter (λ n, is_named n = true) l) =
  flat_map g (filter (λ n, is_command n = true) l).
Proof.
  induction l as [|n l IH]; [done|]. rewrite !filter_cons.
  assert (is_command n = is_named n && kind_is (lit "command") n) as Hc by done.
  destruct (decide (is_named n = true)) as [Hn|Hn], (decide (is_command n = true)) as [Hd|Hd];
    cbn [flat_map]; rewrite ?IH; rewrite Hc in Hd; try done.
  - by apply andb_true_iff in Hd as [_ ->].
  - rewrite Hn in Hd. by destruct (kind_is (lit "command") n).
  - by apply andb_true_iff in Hd as [? _].
Qed.

Lemma sorted_in_order l : Sorted (λ m n, start_byte m ≤ start_byte n) (sort_by_start l).
Proof.
  induction l as [|n l IH]; [constructor|]. simpl.
  induction IH as [|m k Hk IHk Hhd]; simpl; [repeat constructor|].
  destruct (Nat.leb_spec (start_byte n) (start_byte m)); [by repeat constructor|].
  constructor; [done|]. destruct k as [|j k]; simpl; [constructor; lia|]. apply HdRel_inv in Hhd.
  destruct (_ <=? _); constructor; lia.
Qed.

(** C21.  A script is read as plain commands only if its tree is without error and all of it
    is words, quotes without expansion and the operators that join commands; the result
    is then the words of every command node, in the order of the source, and the reading
    that looks for dangerous commands sees exactly the same commands. *)
Theorem plain_script_read {G : BashGrammar T} script cmds :
  parse_shell_script_into_commands script = Some cmds →
  ∃ root ns, try_parse_shell script = Some root ∧ has_error root = false ∧
    (∀ n, within children root n → permitted n script = true) ∧
    Sorted (λ m n, start_byte m ≤ start_byte n) ns ∧
    (∀ n, n ∈ ns ↔ within children root n ∧ is_command n = true) ∧
    Forall2 (λ n words, parse_plain_command_from_node n script = Some words) ns cmds ∧
    walk_literal (descendant_count root) [root] script ≡ₚ cmds.
Proof.
  unfold parse_shell_script_into_commands. intros (root & Hroot & (He & Hp & Hcmds)%word_only_commands)%bind_Some.
  exists root, (sort_by_start (command_nodes root)).
  assert (∀ n, n ∈ sort_by_start (command_nodes root) ↔ within children root n ∧ is_command n = true) as Hns.
  { intros n. rewrite (sort_by_start_perm (command_nodes root)). unfold command_nodes.
    rewrite list_elem_of_filter, visit_root. tauto. }
  split_and!; [done..|apply sorted_in_order|done|done|].
  rewrite walk_literal_visit. pose proof (root_named _ _ Hroot) as Hnamed.
  assert (filter (λ n, is_named n = true) [root] = [root]) as Hfil by (by rewrite filter_cons_True by done).
  rewrite <- Hfil at 1. rewrite <- (visit_named (descendant_count root) (descendant_count root)).
  - rewrite flat_map_command. fold (command_nodes root).
    rewrite <- (Permutation_flat_map _ (sort_by_start_perm (command_nodes root))).
    assert (∀ n, n ∈ sort_by_start (command_nodes root) → is_command n = true ∧
      ∀ m, within children n m → permitted m script = true) as Hall.
    { intros n [Hw Hc]%Hns. split; [done|]. intros m Hm. apply Hp. unfold within in *. by etrans. }
    clear Hns. induction Hcmds as [|n words ns cmds Hn _ IH]; [done|]. simpl.
    destruct (Hall n) as [Hc Hpn]; [left|]. rewrite (plain_command_literal n script words) by done. simpl.
    constructor. apply IH. intros. apply Hall. by right.
  - apply token_leaf.
  - by rewrite size_one.
  - by rewrite Hfil, size_one.
Qed.
End plain.

(** ** A small grammar: plain words joined by [&&] *)

Module ShellMem.

Abbreviation Words := (list (nat * str)) (only parsing).

Inductive MemNode :=
| NWord (start : nat) (text : str)
| NName (start : nat) (text : str)
| NCommand (start : nat) (name : str) (args : Words)
| NAnd (start : nat)
| NProgram (script : str) (commands : list (nat * str * Words)).

Definition plain_char (c : N) : bool :=
  is_ascii_alphabetic c || is_ascii_digit c || existsb (λ d, is_char d c) (lit "-._/:=,").

(** The words with their places, and the commands between the [&&]. *)
Fixpoint place (start : nat) (ws : list str) : Words :=
  match ws with [] => [] | w :: ws => (start, w) :: place (start + length w + 1) ws end.
Fixpoint group (ws : Words) (current : Words) : list Words :=
  match ws with
  | [] => [current]
  | (start, w) :: ws => if bool_decide (w = lit "&&") then current :: group ws [] else group ws (current ++ [(start, w)])
  end.
Definition command_of (ws : Words) : option (nat * str * Words) :=
  match ws with [] => None | (start, name) :: args => Some (start, name, args) end.

Definition mem_children (n : MemNode) : list MemNode :=
  match n with
  | NWord _ _ | NAnd _ => []
  | NName start text => [NWord start text]
  | NCommand start name args => NName start name :: map (λ '(start, text), NWord start text) args
  | NProgram _ commands =>
      flat_map (λ '(start, name, args), [NCommand start name args; NAnd start]) commands
  end.

Definition mem_count (n : MemNode) : nat :=
  match n with
  | NWord _ _ | NAnd _ => 1
  | NName _ _ => 2
  | NCommand _ _ args => 3 + length args
  | NProgram _ commands => S (sum_list (map (λ '(_, args), 4 + length args) commands))
  end.

Definition mem_parse (script : str) : MemNode := NProgram script (omap command_of (group (place 0 (split_char 32%N script)) [])).

#[export] Instance mem_tree : SyntaxTree := {
  Node := MemNode;
  try_parse_shell script := Some (mem_parse script);
  kind n := match n with
            | NWord _ _ => lit "word" | NName _ _ => lit "command_name" | NCommand _ _ _ => lit "command"
            | NAnd _ => lit "&&" | NProgram _ _ => lit "program"
            end;
  is_named n := match n with NAnd _ => false | _ => true end;
  has_error n :=
    match n with
    | NProgram script _ =>
        let groups := group (place 0 (split_char 32%N script)) [] in
        existsb (λ g, bool_decide (g = [])) groups
        || existsb (existsb (λ '(_, w), bool_decide (w = []) || negb (forallb plain_char w))) groups
    | _ => false
    end;
  start_byte n := match n with NWord s _ | NName s _ | NCommand s _ _ | NAnd s => s | NProgram _ _ => 0 end;
  children := mem_children;
  descendant_count := mem_count;
  utf8_text n _ := match n with NWord _ text | NName _ text => Some text | NProgram script _ => Some script | _ => None end;
}.

#[export] Instance mem_tree_laws : SyntaxTreeLaws mem_tree.
Proof.
  split. intros [| |s name args| |script commands]; [done..| |done|]; simpl; f_equal.
  - rewrite map_map. do 2 f_equal. induction args as [|[] args IH]; simpl; congruence.
  - induction commands as [|[[s name] args] commands IH]; simpl; [done|]. rewrite IH. lia.
Qed.

#[export] Instance mem_grammar : BashGrammar mem_tree.
Proof.
  split.
  - by intros src n [= <-].
  - by intros [].
  - intros [| |s name args| |] Hc; try done. exists [], (NName s name), (map (λ '(start, text), NWord start text) args).
    split_and!; [|done|by intros ? ?%elem_of_nil|].
    + unfold named_children. simpl. rewrite filter_cons_True by done. f_equal.
      induction args as [|[] args IH]; [done|]. simpl. rewrite filter_cons_True by done. by rewrite IH.
    + intros a Ha. apply elem_of_map in Ha as ([] & -> & _). done.
Qed.

Definition sample_script : str := lit "git status && ls -l".

Lemma plain_script_read_witness :
  ∃ root, try_parse_shell (SyntaxTree := mem_tree) sample_script = Some root ∧
    walk_literal (descendant_count root) [root] sample_script ≡ₚ [[lit "git"; lit "status"]; [lit "ls"; lit "-l"]].
Proof.
  destruct (plain_script_read (T := mem_tree) sample_script [[lit "git"; lit "status"]; [lit "ls"; lit "-l"]])
    as (root & ns & H & _ & _ & _ & _ & _ & Hp); [vm_compute; reflexivity|].
  exists root. split; [exact H|exact Hp].
Defined.

(** The script is the word after the flag, but its prefixed form takes the place of the last
    word: with words after the script, the script stays and the last of them is lost. *)
Example trailing_words_lost :
  extract_powershell_command [lit "pwsh"; lit "-Command"; lit "ls"; lit "a"; lit "b"] = Some (lit "pwsh", lit "ls") ∧
  prefix_powershell_script_with_utf8 [lit "pwsh"; lit "-Command"; lit "ls"; lit "a"; lit "b"] =
    [lit "pwsh"; lit "-Command"; lit "ls"; lit "a"; UTF8_OUTPUT_PREFIX ++ lit "ls"].
Proof. vm_compute. done. Qed.
End ShellMem.
