(* ===== verification/DangerousCommand.v ===== *)
(** * DangerousCommand: commands that are never run unasked
    ([shell-command/src/command_safety/is_dangerous_command.rs],
    [windows_dangerous_commands.rs])

    The search for forced removals through wrappers, and on Windows for forced deletion and
    the opening of URLs.  [shlex], the [regex] of URL-like tokens and [url] are an interface. *)
From S2P Require Import Prelude RustStr UnixPath ShellScript.

(** ** Data *)

Inductive DangerousCommandPlatform := PosixCommands | WindowsCommands.
Inductive DangerousCommandMatch := ForcedRm | OtherDanger.

#[export] Instance DangerousCommandPlatform_eq_dec : EqDecision DangerousCommandPlatform.
Proof. solve_decision. Defined.
#[export] Instance DangerousCommandMatch_eq_dec : EqDecision DangerousCommandMatch.
Proof. solve_decision. Defined.

Definition MAX_DANGEROUS_COMMAND_WRAPPER_DEPTH : nat := 8.

(** [shlex::split], the first group of the regex of [looks_like_url], and the scheme of
    [Url::parse]. *)
Class CommandText := {
  shlex_split : str → option (list str);
  url_token : str → option str;
  url_scheme_of : str → option str;
}.

(** [char::is_ascii_alphabetic] and a colon after it: a drive. *)
Definition strip_drive (name : str) : str :=
  match name with
  | drive :: colon :: rest => if is_ascii_alphabetic drive && is_char 58%N colon then rest else name
  | _ => name
  end.

Definition is_either_slash (c : N) : bool := is_char c_slash c || is_char 92%N c.

(** [raw.rsplit(..).next().filter(non-empty)]. *)
Definition last_piece (p : N → bool) (raw : str) : option str :=
  name ← last (split_at_all p raw); if bool_decide (name = []) then None else Some name.

Fixpoint strip_executable_suffix (suffixes : list str) (name : str) : option str :=
  match suffixes with
  | [] => None
  | suffix :: suffixes =>
      match strip_suffix suffix name with
      | Some stripped => Some stripped
      | None => strip_executable_suffix suffixes name
      end
  end.

Definition executable_name_lookup_key (raw : str) (platform : DangerousCommandPlatform) : option str :=
  match platform with
  | PosixCommands => last_piece (is_char c_slash) raw
  | WindowsCommands =>
      name ← last_piece is_either_slash raw;
      let name := to_ascii_lowercase (strip_drive name) in
      match strip_executable_suffix [lit ".exe"; lit ".cmd"; lit ".bat"; lit ".com"] name with
      | Some stripped => Some stripped
      | None => if bool_decide (name = []) then None else Some name
      end
  end.

(** The arguments before [--]. *)
Fixpoint before_double_dash (args : list str) : list str :=
  match args with
  | [] => []
  | arg :: args => if bool_decide (arg = lit "--") then [] else arg :: before_double_dash args
  end.

Definition is_force_option (arg : str) : bool :=
  bool_decide (arg = lit "--force")
  || match strip_prefix (lit "-") arg with
     | Some flags => negb (starts_with (lit "-") flags) && contains (lit "f") flags
     | None => false
     end.
Definition rm_args_include_force_option (args : list str) : bool := existsb is_force_option (before_double_dash args).

(** What [env] runs: options to clear the environment and assignments are skipped. *)
Definition is_assignment (argument : str) : bool :=
  match split_once 61%N argument with
  | Some (name, _) => negb (bool_decide (name = [])) && negb (starts_with (lit "-") name)
  | None => false
  end.
Fixpoint env_command (args : list str) : list str :=
  match args with
  | [] => []
  | argument :: args' =>
      if bool_decide (argument = lit "--") then args'
      else if one_of [lit "-i"; lit "--ignore-environment"] argument || is_assignment argument then env_command args'
      else args
  end.

Definition trap_action (args : list str) : option str :=
  let args := match args with argument :: rest => if bool_decide (argument = lit "--") then rest else args | [] => [] end in
  action ← head args; if starts_with (lit "-") action then None else Some action.

(** ** Windows *)

Definition executable_basename (exe : str) : option str :=
  name ← last_piece is_either_slash exe;
  let name := strip_drive name in
  if bool_decide (name = []) then None else Some (to_ascii_lowercase name).

Definition is_powershell_executable (exe : str) : bool :=
  match executable_basename exe with
  | Some name => one_of [lit "powershell"; lit "powershell.exe"; lit "pwsh"; lit "pwsh.exe"] name
  | None => false
  end.
Definition is_browser_executable (name : str) : bool :=
  one_of [lit "chrome"; lit "chrome.exe"; lit "msedge"; lit "msedge.exe"; lit "firefox"; lit "firefox.exe";
          lit "iexplore"; lit "iexplore.exe"] name.

Definition has_flag_cmd (flag : str) (args : list str) : bool := existsb (λ arg, eq_ignore_ascii_case arg flag) args.

(** [trim_matches]. *)
Definition trim_char (c : N) (s : str) : str := drop_while_end (is_char c) (drop_while (is_char c) s).

(** [a&b] as [a], [&], [b]; the operator may be doubled. *)
Definition is_cmd_operator (c : N) : bool := is_char 38%N c || is_char 124%N c.
Definition nonempty_piece (s : str) : list str := if bool_decide (s = []) then [] else [s].
Fixpoint split_operators (cur token : str) : list str :=
  match token with
  | [] => nonempty_piece cur
  | ch :: token' =>
      if is_cmd_operator ch then
        nonempty_piece cur ++
        match token' with
        | next :: token'' => if is_char ch next then [ch; next] :: split_operators [] token''
                             else [ch] :: split_operators [] token'
        | [] => [[ch]]
        end
      else split_operators (cur ++ [ch]) token'
  end.
Definition split_embedded_cmd_operators (token : str) : list str :=
  filter (λ s, trim s ≠ []) (split_operators [] token).

(** [has_force_delete_cmdlet]: rough segments, and the atoms of each. *)
Definition is_segment_separator (c : N) : bool := existsb (λ d, is_char d c) [59%N; 124%N; 38%N; 10%N; 13%N; 9%N].
Definition is_soft_separator (c : N) : bool := existsb (λ d, is_char d c) (lit "{}()[],;").
Definition DELETE_CMDLETS : list str :=
  [lit "remove-item"; lit "ri"; lit "rm"; lit "del"; lit "erase"; lit "rd"; lit "rmdir"].

(** The finished segments and the last one; [cur] is the text since the last separator. *)
Definition push_trimmed (s : str) (segment : list str) : list str :=
  if bool_decide (trim s = []) then segment else segment ++ [trim s].
Fixpoint segment_token (segments : list (list str)) (segment : list str) (cur tok : str) : list (list str) * list str :=
  match tok with
  | [] => (segments, push_trimmed cur segment)
  | ch :: tok =>
      if is_segment_separator ch then
        match push_trimmed cur segment with
        | [] => segment_token segments [] [] tok
        | segment => segment_token (segments ++ [segment]) [] [] tok
        end
      else segment_token segments segment (cur ++ [ch]) tok
  end.
Definition command_segments (tokens : list str) : list (list str) :=
  let '(segments, segment) := foldl (λ '(segments, segment) tok, segment_token segments segment [] tok) ([], []) tokens in
  segments ++ [segment].

Definition segment_atoms (segment : list str) : list str :=
  filter (λ s, s ≠ []) (map trim (flat_map (split_at_all is_soft_separator) segment)).
Definition is_force_atom (a : str) : bool :=
  eq_ignore_ascii_case a (lit "-force") || eq_ignore_ascii_case (take 7 a) (lit "-force:").
Definition has_force_delete_cmdlet (tokens : list str) : bool :=
  existsb (λ segment,
    let atoms := segment_atoms segment in
    existsb (λ a, existsb (λ cmd, eq_ignore_ascii_case a cmd) DELETE_CMDLETS) atoms && existsb is_force_atom atoms)
    (command_segments tokens).

Section windows.
Context {CT : CommandText}.

Definition looks_like_url (token : str) : bool :=
  let lowercase_token := to_ascii_lowercase token in
  let urlish := match find (lit "https://") lowercase_token with
                | Some idx => drop idx token
                | None => match find (lit "http://") lowercase_token with
                          | Some idx => drop idx token
                          | None => token
                          end
                end in
  let candidate := default urlish (url_token urlish) in
  match url_scheme_of candidate with
  | Some scheme => one_of [lit "http"; lit "https"] scheme
  | None => false
  end.
Definition args_have_url (args : list str) : bool := existsb looks_like_url args.

Definition is_dangerous_powershell_words (words : list str) : bool :=
  let tokens_lc := map (λ t, to_ascii_lowercase (trim_char 34%N (trim_char 39%N t))) words in
  let has_url := args_have_url words in
  if has_url && existsb (λ t, one_of [lit "start-process"; lit "start"; lit "saps"; lit "invoke-item"; lit "ii"] t
                              || contains (lit "start-process") t || contains (lit "invoke-item") t) tokens_lc
  then true
  else if has_url && existsb (λ t, contains (lit "shellexecute") t || contains (lit "shell.application") t) tokens_lc
  then true
  else if match tokens_lc with
          | [] => false
          | first :: _ =>
              bool_decide (first = lit "rundll32") && existsb (contains (lit "url.dll,fileprotocolhandler")) tokens_lc && has_url
              || bool_decide (first = lit "mshta") && has_url
              || is_browser_executable first && has_url
              || one_of [lit "explorer"; lit "explorer.exe"] first && has_url
          end
  then true
  else has_force_delete_cmdlet tokens_lc.

(** The script of an invocation as tokens. *)
Fixpoint parse_powershell_invocation (args : list str) : option (list str) :=
  match args with
  | [] => None
  | arg :: rest =>
      let lower := to_ascii_lowercase arg in
      if one_of [lit "-command"; lit "/command"; lit "-c"] lower then
        match rest with [script] => shlex_split script | _ => None end
      else if starts_with (lit "-command:") lower || starts_with (lit "/command:") lower then
        match rest with [] => '(_, script) ← split_once 58%N arg; shlex_split script | _ => None end
      else if starts_with (lit "-") lower then parse_powershell_invocation rest
      else Some args
  end.

Definition is_dangerous_powershell (command : list str) : bool :=
  match command with
  | [] => false
  | exe :: rest =>
      is_powershell_executable exe
      && match parse_powershell_invocation rest with
         | Some tokens => is_dangerous_powershell_words tokens
         | None => false
         end
  end.

(** The words after [/c]. *)
Fixpoint cmd_body (args : list str) : option (list str) :=
  match args with
  | [] => Some []
  | arg :: args =>
      let lower := to_ascii_lowercase arg in
      if one_of [lit "/c"; lit "/r"; lit "-c"] lower then Some args
      else if starts_with (lit "/") lower then cmd_body args
      else None
  end.

Definition CMD_SEPARATORS : list str := [lit "&"; lit "&&"; lit "|"; lit "||"].

Definition is_dangerous_cmd_segment (segment : list str) : bool :=
  match segment with
  | [] => false
  | cmd :: _ =>
      eq_ignore_ascii_case cmd (lit "start") && args_have_url segment
      || (eq_ignore_ascii_case cmd (lit "del") || eq_ignore_ascii_case cmd (lit "erase")) && has_flag_cmd (lit "/f") segment
      || (eq_ignore_ascii_case cmd (lit "rd") || eq_ignore_ascii_case cmd (lit "rmdir"))
         && has_flag_cmd (lit "/s") segment && has_flag_cmd (lit "/q") segment
  end.

Definition is_dangerous_cmd (command : list str) : bool :=
  match command with
  | [] => false
  | exe :: rest =>
      match executable_basename exe with
      | None => false
      | Some base =>
          if negb (one_of [lit "cmd"; lit "cmd.exe"] base) then false
          else match cmd_body rest with
               | None | Some [] => false
               | Some remaining =>
                   let cmd_tokens := match remaining with
                                     | [only] => default [only] (shlex_split only)
                                     | _ => remaining
                                     end in
                   let tokens := flat_map split_embedded_cmd_operators cmd_tokens in
                   existsb is_dangerous_cmd_segment (split_at_all (one_of CMD_SEPARATORS) tokens)
               end
      end
  end.

Definition is_direct_gui_launch (command : list str) : bool :=
  match command with
  | [] => false
  | exe :: rest =>
      match executable_basename exe with
      | None => false
      | Some base =>
          one_of [lit "explorer"; lit "explorer.exe"] base && args_have_url rest
          || one_of [lit "mshta"; lit "mshta.exe"] base && args_have_url rest
          || one_of [lit "rundll32"; lit "rundll32.exe"] base
             && existsb (λ t, contains (lit "url.dll,fileprotocolhandler") (to_ascii_lowercase t)) rest && args_have_url rest
          || is_browser_executable base && args_have_url rest
      end
  end.

Definition is_dangerous_command_windows (command : list str) : bool :=
  is_dangerous_powershell command || is_dangerous_cmd command || is_direct_gui_launch command.

(** [dangerous_powershell_words_match]. *)
Definition dangerous_powershell_words_match (command : list str) (platform : DangerousCommandPlatform) :
    option DangerousCommandMatch :=
  match platform with
  | WindowsCommands => if is_dangerous_powershell_words command then Some OtherDanger else None
  | PosixCommands => None
  end.
End windows.

(** ** The search through wrappers *)

Section search.
Context {T : SyntaxTree} {CT : CommandText}.

(** [iter().find_map]. *)
Fixpoint find_map {A B} (f : A → option B) (l : list A) : option B :=
  match l with [] => None | x :: l => match f x with Some y => Some y | None => find_map f l end end.

(** [inner] is the search one level deeper. *)
Definition dangerous_command_match_for_exec (inner : list str → option DangerousCommandMatch)
    (command : list str) (platform : DangerousCommandPlatform) : option DangerousCommandMatch :=
  match command with
  | [] => None
  | cmd :: args =>
      match executable_name_lookup_key cmd platform with
      | None => None
      | Some cmd0 =>
          if bool_decide (cmd0 = lit "rm") && rm_args_include_force_option args then Some ForcedRm
          else if bool_decide (cmd0 = lit "sudo") then inner args
          else if bool_decide (cmd0 = lit "env") then inner (env_command args)
          else if bool_decide (cmd0 = lit "trap") then
            action ← trap_action args; inner [lit "sh"; lit "-c"; action]
          else None
      end
  end.

(** [levels] is [MAX_DANGEROUS_COMMAND_WRAPPER_DEPTH + 1 - wrapper_depth]: at zero the
    depth is past the maximum. *)
Fixpoint dangerous_command_match_with_depth (levels : nat) (command : list str)
    (platform : DangerousCommandPlatform) : option DangerousCommandMatch :=
  match levels with
  | O => Some OtherDanger
  | S levels =>
      let inner command := dangerous_command_match_with_depth levels command platform in
      match dangerous_command_match_for_exec inner command platform with
      | Some dangerous_match => Some dangerous_match
      | None =>
          match parse_shell_lc_literal_commands command ≫= find_map inner with
          | Some dangerous_match => Some dangerous_match
          | None =>
              if bool_decide (platform = WindowsCommands) && is_dangerous_command_windows command
              then Some OtherDanger else None
          end
      end
  end.

Definition dangerous_command_match_for_platform (command : list str) (platform : DangerousCommandPlatform) :
    option DangerousCommandMatch :=
  dangerous_command_match_with_depth (S MAX_DANGEROUS_COMMAND_WRAPPER_DEPTH) command platform.
End search.

(** * What the search finds *)

Section facts.
Context {T : SyntaxTree} {CT : CommandText}.
Implicit Types (command inner args : list str) (platform : DangerousCommandPlatform).

(** A command that runs another one. *)
Inductive wraps platform : list str → list str → Prop :=
| wraps_sudo cmd args : executable_name_lookup_key cmd platform = Some (lit "sudo") → wraps platform (cmd :: args) args
| wraps_env cmd args : executable_name_lookup_key cmd platform = Some (lit "env") →
    wraps platform (cmd :: args) (env_command args)
| wraps_trap cmd args action : executable_name_lookup_key cmd platform = Some (lit "trap") →
    trap_action args = Some action → wraps platform (cmd :: args) [lit "sh"; lit "-c"; action]
| wraps_script command commands inner : parse_shell_lc_literal_commands command = Some commands → inner ∈ commands →
    wraps platform command inner.

Definition forced_rm platform command : Prop :=
  ∃ cmd args, command = cmd :: args ∧ executable_name_lookup_key cmd platform = Some (lit "rm") ∧
    rm_args_include_force_option args = true.

(** A command that is dangerous by itself. *)
Definition dangerous platform command : Prop :=
  forced_rm platform command ∨ platform = WindowsCommands ∧ is_dangerous_command_windows command = true.

Lemma find_map_None {A B} (f : A → option B) l : find_map f l = None ↔ ∀ x, x ∈ l → f x = None.
Proof.
  induction l as [|x l IH]; simpl.
  - split; [|done]. by intros _ x ?%elem_of_nil.
  - setoid_rewrite elem_of_cons. destruct (f x) eqn:Hf; [|naive_solver]. split; [done|].
    intros H. specialize (H x (or_introl eq_refl)). congruence.
Qed.

Lemma find_map_Some {A B} (f : A → option B) l y : find_map f l = Some y → ∃ x, x ∈ l ∧ f x = Some y.
Proof.
  induction l as [|x l IH]; simpl; [done|]. setoid_rewrite elem_of_cons. destruct (f x) eqn:Hf; naive_solver.
Qed.

(** The commands the head of a command leads to. *)
Lemma exec_None f command platform : dangerous_command_match_for_exec f command platform = None ↔
  ¬ forced_rm platform command ∧
  ∀ cmd args, command = cmd :: args →
    (executable_name_lookup_key cmd platform = Some (lit "sudo") → f args = None) ∧
    (executable_name_lookup_key cmd platform = Some (lit "env") → f (env_command args) = None) ∧
    (∀ action, executable_name_lookup_key cmd platform = Some (lit "trap") → trap_action args = Some action →
       f [lit "sh"; lit "-c"; action] = None).
Proof.
  unfold forced_rm. destruct command as [|cmd args]; simpl; [naive_solver|].
  destruct (executable_name_lookup_key cmd platform) as [cmd0|] eqn:Hk; [|naive_solver].
  destruct (bool_decide (cmd0 = lit "rm") && rm_args_include_force_option args) eqn:Hrm.
  { apply andb_true_iff in Hrm as [->%bool_decide_eq_true Hf]. split; [done|]. intros [H _]. destruct H. eauto 10. }
  assert (¬ (cmd0 = lit "rm" ∧ rm_args_include_force_option args = true)) as Hn.
  { intros [H1 H2]. rewrite bool_decide_true, H2 in Hrm by done. done. }
  clear Hrm. assert (lit "sudo" ≠ lit "env" ∧ lit "sudo" ≠ lit "trap" ∧ lit "env" ≠ lit "trap") as (Hd1 & Hd2 & Hd3) by done.
  split.
  - intros Hf. split.
    { intros (? & ? & [= <- <-] & Hk' & ?). apply Hn. rewrite Hk' in Hk. by injection Hk as <-. }
    intros cmd' args' [= <- <-]. rewrite Hk.
    split_and!; [intros [= ->]|intros [= ->]|intros action [= ->] Ha].
    + by rewrite bool_decide_true in Hf.
    + by rewrite bool_decide_false, bool_decide_true in Hf by done.
    + rewrite !bool_decide_false, bool_decide_true, Ha in Hf by done. done.
  - intros [_ H]. destruct (H cmd args eq_refl) as (H1 & H2 & H3). rewrite Hk in *.
    case_bool_decide; [subst; by apply H1|]. case_bool_decide; [subst; by apply H2|].
    case_bool_decide; [|done]. subst. destruct (trap_action args) as [action|]; [|done]. by apply H3.
Qed.

Lemma match_None levels command platform : dangerous_command_match_with_depth (S levels) command platform = None ↔
  ¬ dangerous platform command ∧
  ∀ inner, wraps platform command inner → dangerous_command_match_with_depth levels inner platform = None.
Proof.
  cbn [dangerous_command_match_with_depth]. set (f := λ command, dangerous_command_match_with_depth levels command platform).
  unfold dangerous. split.
  - destruct (dangerous_command_match_for_exec f command platform) eqn:He; [done|].
    destruct (parse_shell_lc_literal_commands command ≫= find_map f) eqn:Hs; [done|].
    intros Hw. apply exec_None in He as [Hrm He]. split.
    + intros [?|[-> Hd]]; [done|]. rewrite Hd, bool_decide_true in Hw by done. done.
    + intros inner Hi. destruct Hi as [cmd args Hk|cmd args Hk|cmd args action Hk Ha|command commands inner Hc Hin].
      * by eapply He.
      * by eapply He.
      * by eapply He.
      * rewrite Hc in Hs. simpl in Hs. rewrite find_map_None in Hs. by apply Hs.
  - intros [Hd Hall]. assert (dangerous_command_match_for_exec f command platform = None) as ->.
    { apply exec_None. split; [tauto|]. intros cmd args ->. split_and!; intros; apply Hall; by econstructor. }
    assert (parse_shell_lc_literal_commands command ≫= find_map f = None) as ->.
    { destruct (parse_shell_lc_literal_commands command) as [commands|] eqn:Hc; [|done]. simpl. apply find_map_None.
      intros inner Hin. apply Hall. by eapply wraps_script. }
    case_bool_decide; [|done]. destruct (is_dangerous_command_windows command); [tauto|done].
Qed.

Lemma match_ForcedRm levels command platform : dangerous_command_match_with_depth levels command platform = Some ForcedRm →
  ∃ k inner, k < levels ∧ nsteps (wraps platform) k command inner ∧ forced_rm platform inner.
Proof.
  revert command. induction levels as [|levels IH]; intros command; [done|].
  cbn [dangerous_command_match_with_depth]. set (f := λ command, dangerous_command_match_with_depth levels command platform).
  assert (∀ inner, wraps platform command inner → f inner = Some ForcedRm →
    ∃ k inner, k < S levels ∧ nsteps (wraps platform) k command inner ∧ forced_rm platform inner) as Hstep.
  { intros inner Hw (k & inner' & ? & ? & ?)%IH. exists (S k), inner'. split_and!; [lia|by eapply nsteps_l|done]. }
  destruct (dangerous_command_match_for_exec f command platform) as [m|] eqn:He.
  - intros [= ->]. destruct command as [|cmd args]; [done|]. simpl in He.
    destruct (executable_name_lookup_key cmd platform) as [cmd0|] eqn:Hk; [|done].
    destruct (bool_decide (cmd0 = lit "rm") && rm_args_include_force_option args) eqn:Hrm.
    { apply andb_true_iff in Hrm as [->%bool_decide_eq_true Hf]. exists 0, (cmd :: args).
      split_and!; [lia|constructor|]. by exists cmd, args. }
    repeat case_bool_decide; subst; try done.
    + apply (Hstep args); [by apply wraps_sudo|done].
    + apply (Hstep (env_command args)); [by apply wraps_env|done].
    + apply bind_Some in He as (action & Ha & He). eapply Hstep; [by eapply wraps_trap|done].
  - destruct (_ ≫= _) as [m|] eqn:Hs; [|by destruct (_ && _)]. intros [= ->].
    apply bind_Some in Hs as (commands & Hc & (inner & Hin & Hf)%find_map_Some).
    apply (Hstep inner); [by eapply wraps_script|done].
Qed.

(** Levels of the search and lengths of the chains. *)
Lemma match_None_chains levels command platform : dangerous_command_match_with_depth levels command platform = None ↔
  ∀ k inner, nsteps (wraps platform) k command inner → k < levels ∧ ¬ dangerous platform inner.
Proof.
  revert command. induction levels as [|levels IH]; intros cmd.
  - split; [done|]. intros H. destruct (H 0 cmd); [constructor|lia].
  - rewrite match_None. setoid_rewrite IH. split.
    + intros [Hd Hw] k inner Hk. inversion Hk as [|k' ? mid ? Hm Hrest]; subst; [split; [lia|done]|].
      destruct (Hw _ Hm _ _ Hrest). split; [lia|done].
    + intros H. split; [apply (H 0); constructor|]. intros inner Hw k inner' Hk.
      destruct (H (S k) inner'); [by eapply nsteps_l|]. split; [lia|done].
Qed.

(** A command passes exactly when no chain of wrappers ([sudo], [env], [trap], a shell's
    [-c]) leads from it to a dangerous one, and none is longer than the maximum, past
    which everything is refused; a forced [rm] is only reported where a chain leads to one. *)
Theorem dangerous_command_exact command platform :
  (dangerous_command_match_for_platform command platform = None ↔
     ∀ k inner, nsteps (wraps platform) k command inner →
       k ≤ MAX_DANGEROUS_COMMAND_WRAPPER_DEPTH ∧ ¬ dangerous platform inner) ∧
  (dangerous_command_match_for_platform command platform = Some ForcedRm →
     ∃ k inner, k ≤ MAX_DANGEROUS_COMMAND_WRAPPER_DEPTH ∧
       nsteps (wraps platform) k command inner ∧ forced_rm platform inner).
Proof.
  unfold dangerous_command_match_for_platform. split.
  - rewrite match_None_chains. unfold MAX_DANGEROUS_COMMAND_WRAPPER_DEPTH. by setoid_rewrite Nat.lt_succ_r.
  - intros (k & inner & ? & ? & ?)%match_ForcedRm. exists k, inner. split; [lia|done].
Qed.
End facts.
