(* ===== verification/AuthPath.v ===== *)
(** * AuthPath: the paths a hook may authorize ([network-proxy/src/authorization_path.rs])

    The bytes the code looks at are ASCII; a char outside ASCII stands for its bytes,
    which all take the last branch of the scan, so the scan runs over chars. *)
From S2P Require Import Prelude RustStr UnixPath.

Local Open Scope N_scope.

Definition c_percent : char := 37.
Definition c_backslash : char := 92.
Definition c_period : char := 46.

Definition decode_hex_digit (byte : N) : option N :=
  if (48 <=? byte) && (byte <=? 57) then Some (byte - 48)
  else if (97 <=? byte) && (byte <=? 102) then Some (byte - 97 + 10)
  else if (65 <=? byte) && (byte <=? 70) then Some (byte - 65 + 10)
  else None.

(** The bytes an escape may not stand for. *)
Definition is_reserved (decoded : N) : bool :=
  (decoded =? c_percent) || (decoded =? c_slash) || (decoded =? c_backslash).

(** The scan of a segment. *)
Fixpoint scan_segment (s : str) (decoded_dots : nat) (has_non_dot : bool) : bool :=
  match s with
  | [] => has_non_dot || negb ((decoded_dots =? 1)%nat || (decoded_dots =? 2)%nat)
  | c :: s =>
      if c =? c_period then scan_segment s (S decoded_dots) has_non_dot
      else if c =? c_backslash then false
      else if c =? c_percent then
        match s with
        | h :: l :: s =>
            match decode_hex_digit h, decode_hex_digit l with
            | Some high, Some low =>
                let decoded := N.lor (N.shiftl high 4) low in
                if is_reserved decoded then false
                else if decoded =? c_period then scan_segment s (S decoded_dots) has_non_dot
                else scan_segment s decoded_dots true
            | _, _ => false
            end
        | _ => false
        end
      else scan_segment s decoded_dots true
  end.
Definition is_safe_segment_for_authorization (segment : str) : bool := scan_segment segment 0 false.
Definition is_safe_for_authorization (path : str) : bool :=
  forallb is_safe_segment_for_authorization (split_char c_slash path).

(** The tests of [authorization_path_tests.rs]. *)
Example accepts_unambiguous_paths : forallb is_safe_for_authorization (map lit
  ["/openai/openai"; "/openai/openai/a..b"; "/openai/openai/%20space"; "/openai/openai/%E2%9C%93";
   "/openai/openai/contents/%2Egitignore"; "/openai/openai/contents/.%2Egithub";
   "/openai/openai/%2e%2efoo"; "/openai/openai/%2e%2e%2e"]%string) = true.
Proof. vm_compute. reflexivity. Qed.
Example rejects_ambiguous_paths : existsb is_safe_for_authorization (map lit
  ["/openai/openai/../codex"; "/openai/openai/./issues"; "/openai/openai\..\codex";
   "/openai/openai/%2e%2e/codex"; "/openai/openai/%2f..%2fcodex"; "/openai/openai/%5c..%5ccodex";
   "/openai/openai/%252e%252e/codex"; "/openai/openai/%"; "/openai/openai/%2"; "/openai/openai/%zz"]%string)
  = false.
Proof. vm_compute. reflexivity. Qed.

(** * A path that may be authorized has one reading

    The reference is percent-decoding; the readings of an upstream server are any
    sequence of decoding, folding of backslashes and removal of dot segments. *)

Local Open Scope N_scope.

(** Percent-decoding: nothing when an escape is malformed. *)
Fixpoint percent_decode (s : str) : option str :=
  match s with
  | [] => Some []
  | c :: s =>
      if c =? c_percent then
        match s with
        | h :: l :: s =>
            match decode_hex_digit h, decode_hex_digit l with
            | Some high, Some low => cons (N.lor (N.shiftl high 4) low) <$> percent_decode s
            | _, _ => None
            end
        | _ => None
        end
      else cons c <$> percent_decode s
  end.

(** A decoded name that no further reading changes. *)
Definition plain_name (d : str) : Prop :=
  Forall (λ b, is_reserved b = false) d ∧ d ≠ dot ∧ d ≠ dotdot.

(** What an upstream server may do to a path before it looks the resource up. *)
Inductive reading := Decode | FoldBackslashes | RemoveDots.

#[export] Instance reading_eq_dec : EqDecision reading.
Proof. solve_decision. Defined.

Definition remove_dot_step (acc : list str) (segment : str) : list str :=
  if bool_decide (segment = dot) then acc
  else if bool_decide (segment = dotdot) then removelast acc
  else acc ++ [segment].
Definition remove_dots (segments : list str) : list str := foldl remove_dot_step [] segments.

Definition read_path (path : str) (r : reading) : option str :=
  match r with
  | Decode => percent_decode path
  | FoldBackslashes => Some (map (λ c, if c =? c_backslash then c_slash else c) path)
  | RemoveDots => Some (join [c_slash] (remove_dots (split_char c_slash path)))
  end.
Definition read_all (path : str) (rs : list reading) : option str :=
  foldl (λ p r, p ≫= λ p, read_path p r) (Some path) rs.

(** ** The scan *)

Lemma escape_ind (P : str → Prop) :
  P [] → (∀ c s, c ≠ c_percent → P s → P (c :: s)) →
  (∀ h l s, P s → P (c_percent :: h :: l :: s)) →
  (∀ s, (length s < 2)%nat → P (c_percent :: s)) → ∀ s, P s.
Proof.
  intros Hnil Hc He Hs s.
  enough (∀ n s, (length s < n)%nat → P s) by eauto.
  clear s. induction n as [|n IH]; intros s Hn; [lia|].
  destruct s as [|c s]; [done|]. simpl in Hn.
  destruct (decide (c = c_percent)) as [->|Hne]; [|apply Hc, IH; [done|lia]].
  destruct s as [|h [|l s]]; [by apply Hs; simpl; lia..|].
  apply He, IH. simpl in Hn. lia.
Qed.

Lemma percent_decode_other c s : c ≠ c_percent → percent_decode (c :: s) = cons c <$> percent_decode s.
Proof. intros Hc. simpl. by rewrite (proj2 (N.eqb_neq _ _) Hc). Qed.
Lemma percent_decode_short s : (length s < 2)%nat → percent_decode (c_percent :: s) = None.
Proof. by destruct s as [|? [|? ?]]; simpl; [..|lia]. Qed.

(** What is left to check when the scan ends. *)
Definition ends_ok (dots : nat) (has_non_dot : bool) (d : str) : bool :=
  has_non_dot || existsb (λ b, negb (b =? c_period)) d
  || negb ((dots + count_char c_period d =? 1) || (dots + count_char c_period d =? 2))%nat.

Lemma ends_ok_cons dots nd b d :
  ends_ok dots nd (b :: d) = if b =? c_period then ends_ok (S dots) nd d else ends_ok dots true d.
Proof.
  unfold ends_ok, count_char. destruct (N.eqb_spec b c_period) as [->|Hb].
  - rewrite filter_cons_True by done. cbn [existsb length]. by rewrite Nat.add_succ_r, N.eqb_refl.
  - rewrite filter_cons_False by done. cbn [existsb]. rewrite (proj2 (N.eqb_neq _ _) Hb).
    simpl. by rewrite orb_true_r.
Qed.

Lemma scan_segment_spec s : c_slash ∉ s → ∀ dots nd,
  scan_segment s dots nd =
  match percent_decode s with
  | Some d => forallb (negb ∘ is_reserved) d && ends_ok dots nd d
  | None => false
  end.
Proof.
  induction s as [|c s Hc IH|h l s IH|s Hs] using escape_ind; intros Hn dots nd.
  - unfold ends_ok. simpl. by rewrite orb_false_r, Nat.add_0_r.
  - apply not_elem_of_cons in Hn as [Hsl Hn]. rewrite percent_decode_other by done.
    simpl. rewrite !IH by done. rewrite (proj2 (N.eqb_neq c c_percent)) by done.
    destruct (percent_decode s) as [d|]; [|by case_all].
    simpl. rewrite ends_ok_cons. unfold is_reserved.
    rewrite (proj2 (N.eqb_neq c c_percent)), (proj2 (N.eqb_neq c c_slash)) by done.
    destruct (N.eqb_spec c c_period) as [->|]; [done|].
    by destruct (c =? c_backslash).
  - apply not_elem_of_cons in Hn as [_ Hn]. do 2 apply not_elem_of_cons in Hn as [_ Hn].
    cbn -[N.lor N.shiftl is_reserved].
    destruct (decode_hex_digit h) as [high|], (decode_hex_digit l) as [low|]; try done.
    rewrite !IH by done. destruct (percent_decode s) as [d|]; [|by case_all].
    cbn -[N.lor N.shiftl is_reserved]. rewrite ends_ok_cons.
    destruct (is_reserved _); [done|]. by destruct (_ =? c_period).
  - rewrite percent_decode_short by done. by destruct s as [|? [|? ?]]; simpl in *; [..|lia].
Qed.

Lemma ends_ok_spec d : ends_ok 0 false d = true ↔ d ≠ dot ∧ d ≠ dotdot.
Proof.
  unfold ends_ok, count_char. simpl. destruct (existsb _ d) eqn:Hd; simpl.
  - apply existsb_exists in Hd as (b & Hb%list_elem_of_In & Hne%negb_true_iff%N.eqb_neq).
    split; [intros _|done]. change dot with [c_period]. change dotdot with [c_period; c_period].
    split; intros ->; rewrite ?elem_of_cons, elem_of_nil in Hb; naive_solver.
  - assert (d = replicate (length d) c_period) as Hr.
    { induction d as [|b d IH]; simpl in *; [done|].
      apply orb_false_iff in Hd as [Hb%negb_false_iff%N.eqb_eq Hd]. subst b. f_equal. auto. }
    assert (∀ n, length (filter (λ b, b = c_period) (replicate n c_period)) = n) as Hn.
    { induction n as [|n IH]; [done|]. cbn [replicate]. rewrite filter_cons_True by done.
      cbn [length]. by rewrite IH. }
    rewrite Hr, Hn. clear. destruct (length d) as [|[|[|n]]]; simpl; split; try done; naive_solver.
Qed.

Lemma forallb_plain d : forallb (negb ∘ is_reserved) d = true ↔ Forall (λ b, is_reserved b = false) d.
Proof.
  rewrite forallb_forall, Forall_forall. setoid_rewrite <- list_elem_of_In. simpl.
  by setoid_rewrite negb_true_iff.
Qed.

Lemma safe_segment_spec s : c_slash ∉ s →
  is_safe_segment_for_authorization s = true ↔ ∃ d, percent_decode s = Some d ∧ plain_name d.
Proof.
  intros Hs. unfold is_safe_segment_for_authorization, plain_name. rewrite scan_segment_spec by done.
  destruct (percent_decode s) as [d|]; [|naive_solver].
  rewrite andb_true_iff, ends_ok_spec, forallb_plain. naive_solver.
Qed.

Lemma segments_no_slash path : Forall (λ s, c_slash ∉ s) (split_char c_slash path).
Proof.
  eapply Forall_impl; [apply split_at_all_pieces|]. simpl. intros s Hs Hin.
  apply list_elem_of_In in Hin. rewrite forallb_forall in Hs. apply Hs in Hin. done.
Qed.

(** A path is safe when each of its segments decodes to a plain name. *)
Lemma safe_path_iff path :
  is_safe_for_authorization path = true ↔
  ∃ ds, mapM percent_decode (split_char c_slash path) = Some ds ∧ Forall plain_name ds.
Proof.
  unfold is_safe_for_authorization. pose proof (segments_no_slash path) as Hs.
  induction Hs as [|s l Hs Hl IH]; simpl; [naive_solver|].
  rewrite andb_true_iff, IH, safe_segment_spec by done. split.
  - intros [(d & -> & Hd) (ds & -> & Hds)]. exists (d :: ds). split; [done|by constructor].
  - intros (ds & Hds & Hall). destruct (percent_decode s) as [d|]; [|done]. simpl in Hds.
    destruct (mapM _ l) as [ds'|]; simpl in Hds; [|done].
    injection Hds as <-. apply Forall_cons in Hall. naive_solver.
Qed.

(** ** Decoding a whole path *)

Lemma percent_decode_slash a b :
  percent_decode (a ++ c_slash :: b) =
  match percent_decode a, percent_decode b with Some d, Some e => Some (d ++ c_slash :: e) | _, _ => None end.
Proof.
  induction a as [|c a Hc IH|h l a IH|a Ha] using escape_ind.
  - simpl. by destruct (percent_decode b).
  - cbn [app]. rewrite !percent_decode_other, IH by done.
    by destruct (percent_decode a), (percent_decode b).
  - cbn -[N.lor N.shiftl]. rewrite IH.
    by destruct (decode_hex_digit h), (decode_hex_digit l), (percent_decode a), (percent_decode b).
  - rewrite percent_decode_short by done. destruct a as [|h [|? ?]]; simpl in Ha; [..|lia].
    + by destruct b.
    + cbn. by destruct (decode_hex_digit h).
Qed.

Lemma percent_decode_join ss :
  percent_decode (join [c_slash] ss) = join [c_slash] <$> mapM percent_decode ss.
Proof.
  induction ss as [|s ss IH]; [done|]. destruct ss as [|s' ss].
  - cbn [mapM join join_with]. destruct (percent_decode s); reflexivity.
  - change (join [c_slash] (s :: s' :: ss)) with (s ++ c_slash :: join [c_slash] (s' :: ss)).
    rewrite percent_decode_slash, IH. cbn [mapM].
    destruct (percent_decode s) as [d|]; [|done]. cbn [mbind option_bind].
    destruct (percent_decode s') as [d'|]; [|done]. cbn [mbind option_bind].
    by destruct (mapM percent_decode ss).
Qed.

Lemma percent_decode_plain q s : c_percent ∉ q →
  percent_decode (q ++ s) = (q ++.) <$> percent_decode s.
Proof.
  induction q as [|c q IH]; intros Hq; simpl app.
  - by destruct (percent_decode s).
  - apply not_elem_of_cons in Hq as [Hc Hq]. rewrite percent_decode_other, IH by done.
    by destruct (percent_decode s).
Qed.
Lemma percent_decode_id s : c_percent ∉ s → percent_decode s = Some s.
Proof. intros Hs. rewrite <- (app_nil_r s) at 1. rewrite percent_decode_plain by done. simpl. by rewrite app_nil_r. Qed.

(** A backslash is not a hexadecimal digit: it stays when the rest is decoded. *)
Lemma percent_decode_backslash s d :
  percent_decode s = Some d → c_backslash ∈ s → c_backslash ∈ d.
Proof.
  revert d. induction s as [|c s Hc IH|h l s IH|s Hs] using escape_ind; intros d.
  - by intros _ ?%not_elem_of_nil.
  - rewrite percent_decode_other by done. intros (d' & Hd' & ->)%fmap_Some.
    rewrite !elem_of_cons. naive_solver.
  - cbn -[N.lor N.shiftl].
    destruct (decode_hex_digit h) eqn:Hh, (decode_hex_digit l) eqn:Hl; try done.
    intros (d' & Hd' & ->)%fmap_Some. rewrite !elem_of_cons.
    intros [[=]|[<-|[<-|Hin]]]; [done..|]. right. auto.
  - by rewrite percent_decode_short.
Qed.

(** ** Readings *)

(** A text that folding of backslashes and removal of dots leave alone. *)
Definition settled (p : str) : Prop :=
  c_backslash ∉ p ∧ Forall (λ s, s ≠ dot ∧ s ≠ dotdot) (split_char c_slash p).

Lemma remove_dots_id acc l :
  Forall (λ s, s ≠ dot ∧ s ≠ dotdot) l → foldl remove_dot_step acc l = acc ++ l.
Proof.
  intros Hl. revert acc. induction Hl as [|s l [H1 H2] _ IH]; intros acc; simpl; [by rewrite app_nil_r|].
  unfold remove_dot_step at 2. rewrite !bool_decide_eq_false_2 by done.
  by rewrite IH, <- app_assoc.
Qed.

Lemma settled_read p r : settled p → r ≠ Decode → read_path p r = Some p.
Proof.
  intros [Hb Hd]. destruct r; [done|intros _..]; simpl; f_equal.
  - clear Hd. induction p as [|c p IH]; simpl; [done|].
    apply not_elem_of_cons in Hb as [Hc Hb].
    rewrite (proj2 (N.eqb_neq c c_backslash)) by done. f_equal. auto.
  - unfold remove_dots. rewrite remove_dots_id by done. apply join_split_char.
Qed.

Lemma read_all_None (rs : list reading) : foldl (λ p r, p ≫= λ p, read_path p r) None rs = None.
Proof. by induction rs. Qed.

(** A decoded path with no percent sign left stays as it is. *)
Lemma read_all_settled d rs : settled d → c_percent ∉ d → read_all d rs = Some d.
Proof.
  intros Hd Hp. unfold read_all. induction rs as [|r rs IH]; [done|]. cbn [foldl mbind option_bind].
  destruct (decide (r = Decode)) as [->|Hr]; [simpl; by rewrite percent_decode_id|].
  by rewrite settled_read.
Qed.

Lemma plain_names_settled ds :
  ds ≠ [] → Forall plain_name ds → settled (join [c_slash] ds) ∧ c_percent ∉ join [c_slash] ds.
Proof.
  intros Hne Hds.
  assert (∀ c, is_reserved c = true → c ≠ c_slash → c ∉ join [c_slash] ds) as Hin.
  { intros c Hc Hsl Hin. clear Hne. induction Hds as [|d ds [Hd _] Hds IH]; [by apply elem_of_nil in Hin|].
    rewrite Forall_forall in Hd.
    destruct ds as [|d' ds]; simpl in Hin.
    - apply Hd in Hin. congruence.
    - apply elem_of_app in Hin as [Hin|[Heq|Hin]%elem_of_cons]; [|done|by apply IH].
      apply Hd in Hin. congruence. }
  split; [split|]; [by apply Hin| |by apply Hin].
  rewrite split_char_join; [|done|].
  - eapply Forall_impl; [done|]. by intros d (_ & ? & ?).
  - eapply Forall_impl; [done|]. intros d (Hd & _). apply forallb_forall. intros c Hc%list_elem_of_In.
    rewrite Forall_forall in Hd. apply Hd in Hc. unfold is_reserved in Hc. unfold compose, is_char.
    by destruct (c =? c_slash), (c =? c_percent).
Qed.

(** Decoding a safe path: the text decoded, which nothing changes further, and the path
    itself, which only decoding changes. *)
Lemma safe_path_decoded path : is_safe_for_authorization path = true →
  ∃ d, percent_decode path = Some d ∧ settled d ∧ c_percent ∉ d ∧ settled path.
Proof.
  intros (ds & Hds & Hplain)%safe_path_iff.
  assert (percent_decode path = Some (join [c_slash] ds)) as Hd.
  { rewrite <- (join_split_char c_slash path), percent_decode_join, Hds. done. }
  apply mapM_Some in Hds.
  assert (ds ≠ []) as Hne.
  { intros ->. apply Forall2_nil_inv_r in Hds. by eapply split_at_all_nonempty. }
  destruct (plain_names_settled ds Hne Hplain) as [Hs Hp].
  exists (join [c_slash] ds). split_and!; [done..|]. split.
  - intros Hin. eapply percent_decode_backslash in Hin; [|done]. by destruct Hs.
  - rewrite Forall_forall. intros s Hs'. apply list_elem_of_lookup in Hs' as [i Hi].
    destruct (Forall2_lookup_l _ _ _ _ _ Hds Hi) as (d & Hi' & Hsd).
    rewrite Forall_forall in Hplain. destruct (Hplain d) as (_ & H1 & H2).
    { by eapply list_elem_of_lookup_2. }
    by split; intros ->; vm_compute in Hsd; injection Hsd as <-.
Qed.

Lemma safe_path_reads path :
  is_safe_for_authorization path = true →
  ∃ d, percent_decode path = Some d ∧
    ∀ rs, read_all path rs = Some (if decide (Decode ∈ rs) then d else path).
Proof.
  intros (d & Hdec & Hd & Hp & Hpath)%safe_path_decoded. exists d. split; [done|].
  unfold read_all. induction rs as [|r rs IH]; [done|]. cbn [foldl mbind option_bind].
  destruct (decide (r = Decode)) as [->|Hr].
  - cbn [read_path]. rewrite Hdec, decide_True by set_solver. by apply read_all_settled.
  - rewrite settled_read, IH by done. do 2 case_decide; set_solver.
Qed.

(** Characters of a path that decoding keeps: a prefix without escapes is a prefix of
    every reading. *)
Lemma safe_path_prefix path q rs p :
  is_safe_for_authorization path = true → q `prefix_of` path → c_percent ∉ q →
  read_all path rs = Some p → q `prefix_of` p.
Proof.
  intros (d & Hd & Hall)%safe_path_reads [t ->] Hq Hp. rewrite Hall in Hp. simplify_eq.
  case_decide; [|by exists t]. rewrite percent_decode_plain in Hd by done.
  apply fmap_Some in Hd as (e & _ & ->). by exists e.
Qed.

(** The paths a hook may authorize are exactly those each of whose segments decodes to a
    plain name, and such a path has one reading: whatever an upstream server does to it,
    decoding escapes, folding backslashes and removing dot segments in any order and any
    number of times, gives the path itself or, once it was decoded, its decoded text. *)
Theorem safe_path_exact path :
  (is_safe_for_authorization path = true ↔
   ∃ ds, mapM percent_decode (split_char c_slash path) = Some ds ∧ Forall plain_name ds)
  ∧ (is_safe_for_authorization path = true →
     ∃ d, percent_decode path = Some d ∧
       ∀ rs, read_all path rs = Some (if decide (Decode ∈ rs) then d else path)).
Proof. split; [apply safe_path_iff|apply safe_path_reads]. Qed.

Lemma safe_path_exact_witness :
  read_all (lit "/a/%2egit") [RemoveDots; Decode; Decode; FoldBackslashes] = Some (lit "/a/.git").
Proof.
  destruct (proj2 (safe_path_exact (lit "/a/%2egit")) ltac:(vm_compute; reflexivity)) as (d & Hd & Hall).
  rewrite Hall, decide_True by (right; left). rewrite <- Hd. vm_compute. reflexivity.
Defined.
