(* ===== verification/IpAddr.v ===== *)
(** * IpAddr: the parts of [std::net] the program uses

    An IPv4 address is its 32-bit value and an IPv6 address its 128-bit value, in
    network order; [parse_ip] is the parser behind [str::parse::<IpAddr>()]. *)
From S2P Require Import Prelude RustStr.

Local Open Scope N_scope.

Inductive IpAddr := V4 (ip : N) | V6 (ip : N).

#[export] Instance IpAddr_eq_dec : EqDecision IpAddr.
Proof. solve_decision. Defined.

(** ** Parts of an address *)

(** [Ipv4Addr::octets], by index. *)
Definition octet (ip : N) (i : N) : N := N.land (N.shiftr ip (8 * (3 - i))) 255.
(** [Ipv6Addr::segments], by index. *)
Definition segment (ip : N) (i : N) : N := N.land (N.shiftr ip (16 * (7 - i))) 65535.

Definition from_octets (a b c d : N) : N := ((a * 256 + b) * 256 + c) * 256 + d.
Definition from_segments (l : list N) : N := foldl (λ acc s, acc * 65536 + s) 0 l.

(** ** Classification *)

Definition v4_is_loopback (ip : N) : bool := octet ip 0 =? 127.
Definition v4_is_private (ip : N) : bool :=
  (octet ip 0 =? 10) || (octet ip 0 =? 172) && (16 <=? octet ip 1) && (octet ip 1 <=? 31)
  || (octet ip 0 =? 192) && (octet ip 1 =? 168).
Definition v4_is_link_local (ip : N) : bool := (octet ip 0 =? 169) && (octet ip 1 =? 254).
Definition v4_is_unspecified (ip : N) : bool := ip =? 0.
Definition v4_is_multicast (ip : N) : bool := (224 <=? octet ip 0) && (octet ip 0 <=? 239).
Definition v4_is_broadcast (ip : N) : bool := ip =? from_octets 255 255 255 255.

Definition v6_is_loopback (ip : N) : bool := ip =? 1.
Definition v6_is_unspecified (ip : N) : bool := ip =? 0.
Definition v6_is_multicast (ip : N) : bool := N.land (segment ip 0) 0xff00 =? 0xff00.
Definition v6_is_unique_local (ip : N) : bool := N.land (segment ip 0) 0xfe00 =? 0xfc00.
Definition v6_is_unicast_link_local (ip : N) : bool := N.land (segment ip 0) 0xffc0 =? 0xfe80.

(** [Ipv6Addr::to_ipv4]: an IPv4-compatible or IPv4-mapped address. *)
Definition to_ipv4 (ip : N) : option N :=
  if (N.shiftr ip 32 =? 0) || (N.shiftr ip 32 =? 0xffff) then Some (N.land ip 0xffffffff) else None.

Definition is_loopback (a : IpAddr) : bool :=
  match a with V4 ip => v4_is_loopback ip | V6 ip => v6_is_loopback ip end.

(** ** Parsing

    Every reader gives the value read and the text left, or nothing, having consumed
    nothing ([read_atomically]). *)

Definition digit_of (radix : N) (c : char) : option N :=
  let d :=
    if is_ascii_digit c then Some (c - 48)
    else if (97 <=? c) && (c <=? 122) then Some (c - 87)
    else if (65 <=? c) && (c <=? 90) then Some (c - 55) else None in
  match d with Some d => if d <? radix then Some d else None | None => None end.

Definition read_given_char (c : char) (s : str) : option str :=
  match s with d :: s' => if d =? c then Some s' else None | [] => None end.

(** The digits of [read_number]: their value, their number and the text left.  The
    number is limited to [max_digits], so [bound] is not exceeded before that. *)
Fixpoint read_digits (radix bound : N) (max_digits count : nat) (acc : N) (s : str) :
    option (N * nat * str) :=
  match s with
  | c :: s' =>
      match digit_of radix c with
      | Some d =>
          let acc := acc * radix + d in
          if bound <? acc then None
          else if (max_digits <? S count)%nat then None
          else read_digits radix bound max_digits (S count) acc s'
      | None => Some (acc, count, s)
      end
  | [] => Some (acc, count, [])
  end.

Definition read_number (radix bound : N) (max_digits : nat) (allow_zero_prefix : bool) (s : str) :
    option (N * str) :=
  let has_leading_zero := match s with c :: _ => c =? 48 | [] => false end in
  '(v, count, rest) ← read_digits radix bound max_digits 0 0 s;
  if (count =? 0)%nat then None
  else if negb allow_zero_prefix && has_leading_zero && (1 <? count)%nat then None
  else Some (v, rest).

(** [read_separator]: the separator comes before every item but the first. *)
Definition read_separator {A} (sep : char) (index : nat) (inner : str → option A) (s : str) : option A :=
  match index with
  | 0%nat => inner s
  | S _ => read_given_char sep s ≫= inner
  end.

Definition c_dot : char := 46.
Definition c_colon : char := 58.

Definition read_octet (index : nat) (s : str) : option (N * str) :=
  read_separator c_dot index (read_number 10 255 3 false) s.
Definition read_ipv4_addr (s : str) : option (N * str) :=
  '(a, s) ← read_octet 0 s;
  '(b, s) ← read_octet 1 s;
  '(c, s) ← read_octet 2 s;
  '(d, s) ← read_octet 3 s;
  Some (from_octets a b c d, s).

(** [read_groups] into [left] slots, [i] having been read: the groups, and whether they
    end in an IPv4 address. *)
Fixpoint read_groups (left i : nat) (s : str) : list N * bool * str :=
  match left with
  | 0%nat => ([], false, s)
  | S left' =>
      match (if (1 <=? left')%nat then read_separator c_colon i read_ipv4_addr s else None) with
      | Some (v4, s) => ([N.shiftr v4 16; N.land v4 65535], true, s)
      | None =>
          match read_separator c_colon i (read_number 16 65535 4 true) s with
          | Some (g, s) =>
              let '(gs, ipv4, s) := read_groups left' (S i) s in (g :: gs, ipv4, s)
          | None => ([], false, s)
          end
      end
  end.

Definition read_ipv6_addr (s : str) : option (N * str) :=
  let '(head, head_ipv4, s) := read_groups 8 0 s in
  if (length head =? 8)%nat then Some (from_segments head, s)
  else if head_ipv4 then None
  else
    s ← read_given_char c_colon s;
    s ← read_given_char c_colon s;
    let '(tail, _, s) := read_groups (8 - S (length head)) 0 s in
    Some (from_segments (head ++ replicate (8 - length head - length tail) 0 ++ tail), s).

(** The whole text must be an address. *)
Definition parse_ip (s : str) : option IpAddr :=
  match read_ipv4_addr s with
  | Some (ip, rest) => if bool_decide (rest = []) then Some (V4 ip) else None
  | None =>
      '(ip, rest) ← read_ipv6_addr s; if bool_decide (rest = []) then Some (V6 ip) else None
  end.

Example parse_v4 : parse_ip (lit "192.168.0.1") = Some (V4 0xc0a80001).
Proof. vm_compute. reflexivity. Qed.
Example parse_octal : parse_ip (lit "192.168.0.01") = None.
Proof. vm_compute. reflexivity. Qed.
Example parse_v6 : parse_ip (lit "fe80::1") = Some (V6 0xfe800000000000000000000000000001).
Proof. vm_compute. reflexivity. Qed.
Example parse_mapped : parse_ip (lit "::ffff:127.0.0.1") = Some (V6 0xffff7f000001).
Proof. vm_compute. reflexivity. Qed.
Example parse_v6_full : parse_ip (lit "2001:DB8:0:0:0:0:0:1") = Some (V6 0x20010db8000000000000000000000001).
Proof. vm_compute. reflexivity. Qed.
Example parse_v6_long : parse_ip (lit "1::2:3:4:5:6:7:8") = None.
Proof. vm_compute. reflexivity. Qed.
Example parse_v6_any : parse_ip (lit "::") = Some (V6 0).
Proof. vm_compute. reflexivity. Qed.
