(* ===== verification/NetPolicy.v ===== *)
(** * NetPolicy: hosts, address classes and domain patterns of the network proxy
    ([network-proxy/src/policy.rs])

    The glob engine and the host parser of the [url] crate are interfaces. *)
From S2P Require Import Prelude RustStr IpAddr.

(** ** Hosts *)

(** [split_once(delimiter)] of a text delimiter. *)
Definition split_once_str (d s : str) : option (str * str) :=
  match find d s with Some n => Some (take n s, drop (n + length d) s) | None => None end.

Definition is_ip (s : str) : bool := match parse_ip s with Some _ => true | None => false end.

Definition unscoped_ip_literal (host : str) : option str :=
  '(ip, _) ← split_once 37 host; if is_ip ip then Some ip else None.

(** The loop over the two spellings of the scope delimiter. *)
Fixpoint scoped_literal (delimiters : list str) (host : str) : option str :=
  match delimiters with
  | [] => None
  | d :: delimiters =>
      match split_once_str d host with
      | Some (ip, scope) =>
          if is_ip ip then Some (ip ++ lit "%" ++ scope) else scoped_literal delimiters host
      | None => scoped_literal delimiters host
      end
  end.
Definition normalize_ip_literal (host : str) : option str :=
  if is_ip host then Some host else scoped_literal [lit "%25"; lit "%"] host.

Definition normalize_dns_host_or_ip_literal (host : str) : str :=
  let host := to_ascii_lowercase host in
  let host := trim_end_matches c_dot host in
  match normalize_ip_literal host with Some ip => ip | None => host end.

Definition normalize_host (host : str) : str :=
  let host := trim host in
  match (if starts_with (lit "[") host then find (lit "]") host else None) with
  | Some end_ => normalize_dns_host_or_ip_literal (drop 1 (take end_ host))
  | None =>
      if (count_char c_colon host =? 1) then
        let host := default [] (head (split_char c_colon host)) in
        normalize_dns_host_or_ip_literal host
      else normalize_dns_host_or_ip_literal host
  end.

(** [Host::parse]; a [Host] is its normalized text. *)
Definition host_parse (input : str) : option str :=
  let normalized := normalize_host input in
  if bool_decide (normalized = []) then None else Some normalized.

Definition is_loopback_host (host : str) : bool :=
  let host := default host (unscoped_ip_literal host) in
  if bool_decide (host = lit "localhost") then true
  else match parse_ip host with Some ip => is_loopback ip | None => false end.

(** ** Address classes *)

Definition ipv4_in_cidr (ip : N) (base : N * N * N * N) (prefix : N) : bool :=
  let '(a, b, c, d) := base in
  let base := from_octets a b c d in
  let mask := if (prefix =? 0)%N then 0%N else (N.shiftl 4294967295 (32 - prefix) mod 2 ^ 32)%N in
  (N.land ip mask =? N.land base mask)%N.

Definition is_non_public_ipv4 (ip : N) : bool :=
  v4_is_loopback ip
  || v4_is_private ip
  || v4_is_link_local ip
  || v4_is_unspecified ip
  || v4_is_multicast ip
  || v4_is_broadcast ip
  || ipv4_in_cidr ip (0, 0, 0, 0)%N 8
  || ipv4_in_cidr ip (100, 64, 0, 0)%N 10
  || ipv4_in_cidr ip (192, 0, 0, 0)%N 24
  || ipv4_in_cidr ip (192, 0, 2, 0)%N 24
  || ipv4_in_cidr ip (198, 18, 0, 0)%N 15
  || ipv4_in_cidr ip (198, 51, 100, 0)%N 24
  || ipv4_in_cidr ip (203, 0, 113, 0)%N 24
  || ipv4_in_cidr ip (240, 0, 0, 0)%N 4.

Definition is_non_public_ipv6 (ip : N) : bool :=
  match to_ipv4 ip with
  | Some v4 => is_non_public_ipv4 v4 || v6_is_loopback ip
  | None =>
      v6_is_loopback ip || v6_is_unspecified ip || v6_is_multicast ip || v6_is_unique_local ip
      || v6_is_unicast_link_local ip
  end.

Definition is_non_public_ip (ip : IpAddr) : bool :=
  match ip with V4 ip => is_non_public_ipv4 ip | V6 ip => is_non_public_ipv6 ip end.

Definition is_default_proxy_bypass_host (host : str) : bool :=
  let host := normalize_host host in
  match parse_ip host with
  | Some (V4 ip) => (ip =? from_octets 127 0 0 1)%N || v4_is_private ip
  | Some (V6 ip) => (ip =? 1)%N
  | None => bool_decide (host = lit "localhost") || ends_with (lit ".localhost") host
  end.

(** ** Patterns *)

Definition normalize_pattern (pattern : str) : str :=
  let pattern := trim pattern in
  if bool_decide (pattern = lit "*") then lit "*"
  else
    let '(prefix, remainder) :=
      match strip_prefix (lit "**.") pattern with
      | Some domain => (lit "**.", domain)
      | None =>
          match strip_prefix (lit "*.") pattern with
          | Some domain => (lit "*.", domain)
          | None => ([], pattern)
          end
      end in
    let remainder := normalize_host remainder in
    if bool_decide (prefix = []) then remainder else prefix ++ remainder.

Inductive DomainPattern :=
| ApexAndSubdomains (domain : str)
| SubdomainsOnly (domain : str)
| Exact (domain : str).

#[export] Instance DomainPattern_eq_dec : EqDecision DomainPattern.
Proof. solve_decision. Defined.

Definition parse_domain (domain : str) (build : str → DomainPattern) : DomainPattern :=
  let domain := trim domain in if bool_decide (domain = []) then Exact [] else build domain.

Definition parse_pattern (input : str) : DomainPattern :=
  let input := trim input in
  if bool_decide (input = []) then Exact []
  else match strip_prefix (lit "**.") input with
       | Some domain => parse_domain domain ApexAndSubdomains
       | None =>
           match strip_prefix (lit "*.") input with
           | Some domain => parse_domain domain SubdomainsOnly
           | None => Exact input
           end
       end.

Definition expand_domain_pattern (pattern : str) : list str :=
  match parse_pattern pattern with
  | Exact domain => [domain]
  | SubdomainsOnly domain => [lit "?*." ++ domain]
  | ApexAndSubdomains domain => [domain; lit "?*." ++ domain]
  end.

Definition is_global_wildcard_domain_pattern (pattern : str) : bool :=
  let normalized := normalize_pattern pattern in
  existsb (λ candidate, bool_decide (candidate = lit "*")) (expand_domain_pattern normalized).

Definition normalize_domain (domain : str) : str :=
  to_ascii_lowercase (trim_end_matches c_dot domain).
Definition domain_eq (left right : str) : bool :=
  bool_decide (normalize_domain left = normalize_domain right).
Definition is_subdomain_or_equal (child parent : str) : bool :=
  let child := normalize_domain child in
  let parent := normalize_domain parent in
  if bool_decide (child = parent) then true else ends_with (lit "." ++ parent) child.
Definition is_strict_subdomain (child parent : str) : bool :=
  let child := normalize_domain child in
  let parent := normalize_domain parent in
  bool_decide (child ≠ parent) && ends_with (lit "." ++ parent) child.

(** [DomainPattern::allows]. *)
Definition allows (managed candidate : DomainPattern) : bool :=
  match managed, candidate with
  | Exact domain, Exact candidate => domain_eq candidate domain
  | Exact _, _ => false
  | SubdomainsOnly domain, Exact candidate => is_strict_subdomain candidate domain
  | SubdomainsOnly domain, SubdomainsOnly candidate => is_subdomain_or_equal candidate domain
  | SubdomainsOnly domain, ApexAndSubdomains candidate => is_strict_subdomain candidate domain
  | ApexAndSubdomains domain, Exact candidate => is_subdomain_or_equal candidate domain
  | ApexAndSubdomains domain, SubdomainsOnly candidate => is_subdomain_or_equal candidate domain
  | ApexAndSubdomains domain, ApexAndSubdomains candidate => is_subdomain_or_equal candidate domain
  end.

(** ** The [url] crate's host parser *)

(** [url::Host::parse(host).map(to_string)]. *)
Class UrlHost := { url_host_parse : str → option str }.

Section constraints.
Context `{UrlHost}.

Definition parse_domain_for_constraints (domain : str) : str :=
  let domain := trim_end_matches c_dot (trim domain) in
  if bool_decide (domain = []) then []
  else
    let host :=
      if starts_with (lit "[") domain && ends_with (lit "]") domain
      then drop 1 (take (length domain - 1) domain) else domain in
    if contains (lit "*") host || contains (lit "?") host || contains (lit "%") host then domain
    else default [] (url_host_parse host).

Definition parse_for_constraints (input : str) : DomainPattern :=
  let input := trim input in
  if bool_decide (input = []) then Exact []
  else match strip_prefix (lit "**.") input with
       | Some domain => ApexAndSubdomains (parse_domain_for_constraints domain)
       | None =>
           match strip_prefix (lit "*.") input with
           | Some domain => SubdomainsOnly (parse_domain_for_constraints domain)
           | None => Exact (parse_domain_for_constraints input)
           end
       end.
End constraints.

(** ** Compiled sets of patterns *)

(** The globset crate: a glob built with [case_insensitive(true)], and a set of them. *)
Class GlobEngine := {
  Glob : Type;
  GlobSet : Type;
  glob_build : str → option Glob;
  globset_build : list Glob → option GlobSet;
  is_match : GlobSet → str → bool;
}.

Inductive GlobalWildcard := AllowGlobal | RejectGlobal.

Inductive GlobsetError :=
| UnsupportedGlobalWildcard
| InvalidGlobPattern (candidate : str)
| GlobsetBuild.

Section globset.
Context `{GlobEngine}.

(** The inner loop, over the expansions of a pattern not seen before. *)
Fixpoint add_candidates (candidates : list str) (seen : gset str) (builder : list Glob) :
    result GlobsetError (gset str * list Glob) :=
  match candidates with
  | [] => Ok (seen, builder)
  | candidate :: candidates =>
      if bool_decide (candidate ∈ seen) then add_candidates candidates seen builder
      else
        glob ← ok_or (InvalidGlobPattern candidate) (glob_build candidate);
        add_candidates candidates ({[candidate]} ∪ seen) (builder ++ [glob])
  end.
Fixpoint add_patterns (global_wildcard : GlobalWildcard) (patterns : list str) (seen : gset str)
    (builder : list Glob) : result GlobsetError (list Glob) :=
  match patterns with
  | [] => Ok builder
  | pattern :: patterns =>
      if match global_wildcard with RejectGlobal => true | AllowGlobal => false end
         && is_global_wildcard_domain_pattern pattern
      then Err UnsupportedGlobalWildcard
      else
        '(seen, builder) ← add_candidates (expand_domain_pattern (normalize_pattern pattern)) seen builder;
        add_patterns global_wildcard patterns seen builder
  end.
Definition compile_globset_with_policy (patterns : list str) (global_wildcard : GlobalWildcard) :
    result GlobsetError GlobSet :=
  builder ← add_patterns global_wildcard patterns ∅ [];
  ok_or GlobsetBuild (globset_build builder).
Definition compile_allowlist_globset (patterns : list str) : result GlobsetError GlobSet :=
  compile_globset_with_policy patterns AllowGlobal.
Definition compile_denylist_globset (patterns : list str) : result GlobsetError GlobSet :=
  compile_globset_with_policy patterns RejectGlobal.
End globset.

Example normalize_host_ex : map normalize_host
    [lit "  ExAmPlE.CoM  "; lit "example.com:1234"; lit "2001:db8::1"; lit "example.com.:443";
     lit "[::1]:443"; lit "[fe80::1%25lo0]"] =
    [lit "example.com"; lit "example.com"; lit "2001:db8::1"; lit "example.com"; lit "::1";
     lit "fe80::1%lo0"].
Proof. vm_compute. reflexivity. Qed.
Example is_non_public_ex : map (λ s, is_non_public_ip <$> parse_ip (lit s))
    ["127.0.0.1"; "10.0.0.1"; "192.168.0.1"; "100.64.0.1"; "198.18.0.1"; "240.0.0.1"; "8.8.8.8";
     "::ffff:127.0.0.1"; "::ffff:8.8.8.8"; "::1"; "fe80::1"; "fc00::1"; "2001:db8::1"]%string =
    Some <$> [true; true; true; true; true; true; false; true; false; true; true; true; false].
Proof. vm_compute. reflexivity. Qed.
