(* ===== verification/NetPolicyFacts.v ===== *)
(** * NetPolicyFacts: what a list of domain patterns covers

    [GlobLaws] states what the globset crate documents of the globs the policy builds;
    against it, a compiled list matches the hosts its patterns cover, and
    [DomainPattern::allows] is inclusion of the hosts covered. *)
From Stdlib Require Import ZifyBool.
From Stdlib Require Import ZifyBool ZifyN.
From S2P Require Import Prelude RustStr IpAddr NetPolicy.

Local Open Scope N_scope.

(** ** The globs of the policy *)

(** A text without glob metacharacters. *)
Definition glob_plain (s : str) : bool :=
  forallb (λ c, negb (existsb (N.eqb c) (lit "*?[]{}\"))) s.

(** [h] is a name below [d]. *)
Definition below (h d : str) : Prop := ∃ x, x ≠ [] ∧ h = x ++ lit "." ++ d.

Class GlobLaws `{GlobEngine} := {
  glob_matches : Glob → str → bool;
  globset_matches gs set h :
    globset_build gs = Some set → is_match set h = existsb (λ g, glob_matches g h) gs;
  glob_text p g h : glob_plain p = true → glob_build p = Some g →
    glob_matches g h = true ↔ to_ascii_lowercase h = to_ascii_lowercase p;
  glob_below d g h : glob_plain d = true → glob_build (lit "?*." ++ d) = Some g →
    glob_matches g h = true ↔ below (to_ascii_lowercase h) (to_ascii_lowercase d);
}.

(** The normalized hosts a pattern covers. *)
Definition covers (p : DomainPattern) (h : str) : Prop :=
  match p with
  | Exact d => h = normalize_domain d
  | SubdomainsOnly d => below h (normalize_domain d)
  | ApexAndSubdomains d => h = normalize_domain d ∨ below h (normalize_domain d)
  end.

Definition pattern_domain (p : DomainPattern) : str :=
  match p with Exact d | SubdomainsOnly d | ApexAndSubdomains d => d end.

(** ** [allows] is inclusion *)

Lemma below_trans h c d : below h c → below c d → below h d.
Proof.
  intros (x & Hx & ->) (y & Hy & ->). exists (x ++ lit "." ++ y). split.
  - by destruct x.
  - by rewrite <- !app_assoc.
Qed.

Lemma ends_with_below c d :
  ends_with (lit "." ++ d) c = true → head c ≠ Some c_dot → below c d.
Proof.
  intros [x ->]%ends_with_spec Hh. exists x. split; [|done]. by intros ->.
Qed.

Lemma is_strict_subdomain_below c d :
  is_strict_subdomain c d = true → head (normalize_domain c) ≠ Some c_dot →
  below (normalize_domain c) (normalize_domain d).
Proof. unfold is_strict_subdomain. rewrite andb_true_iff. intros [_ ?] ?. by apply ends_with_below. Qed.

Lemma is_subdomain_or_equal_spec c d :
  is_subdomain_or_equal c d = true → head (normalize_domain c) ≠ Some c_dot →
  normalize_domain c = normalize_domain d ∨ below (normalize_domain c) (normalize_domain d).
Proof.
  unfold is_subdomain_or_equal. case_bool_decide; [by left|]. intros ? ?. right. by apply ends_with_below.
Qed.

(** A managed pattern that allows a candidate covers every host the candidate covers. *)
Lemma allows_sound managed candidate h :
  head (normalize_domain (pattern_domain candidate)) ≠ Some c_dot →
  allows managed candidate = true → covers candidate h → covers managed h.
Proof.
  intros Hh Hallow Hc.
  destruct managed as [m|m|m], candidate as [c|c|c]; simpl in *; try done.
  - apply is_subdomain_or_equal_spec in Hallow as [<-|Hb]; [| |done].
    + destruct Hc as [->|?]; auto.
    + destruct Hc as [->|?]; right; eauto using below_trans.
  - apply is_subdomain_or_equal_spec in Hallow as [<-|Hb]; eauto using below_trans.
  - apply is_subdomain_or_equal_spec in Hallow as [<-|Hb]; subst; auto.
  - apply is_strict_subdomain_below in Hallow; [|done]. destruct Hc as [->|?]; eauto using below_trans.
  - apply is_subdomain_or_equal_spec in Hallow as [<-|Hb]; eauto using below_trans.
  - apply is_strict_subdomain_below in Hallow; subst; done.
  - unfold domain_eq in Hallow. bool_hyps. congruence.
Qed.

(** ** Compiled lists *)

Section compiled.
Context `{Globs : GlobEngine, !GlobLaws}.

(** The globs of a builder are those of the candidates seen. *)
Definition built (seen : gset str) (builder : list Glob) : Prop :=
  (∀ c, c ∈ seen → ∃ g, glob_build c = Some g ∧ g ∈ builder)
  ∧ ∀ g, g ∈ builder → ∃ c, c ∈ seen ∧ glob_build c = Some g.

Lemma add_candidates_built cs seen builder seen' builder' :
  built seen builder → add_candidates cs seen builder = Ok (seen', builder') →
  built seen' builder' ∧ ∀ c, c ∈ seen' ↔ c ∈ seen ∨ c ∈ cs.
Proof.
  revert seen builder. induction cs as [|c cs IH]; intros seen builder Hb; simpl.
  - intros [= <- <-]. split; [done|]. set_solver.
  - case_bool_decide as Hc.
    + intros Ha. destruct (IH _ _ Hb Ha) as [Hb' Hin]. split; [done|]. set_solver.
    + destruct (glob_build c) as [g|] eqn:Hg; [|done]. intros Ha.
      apply IH in Ha as [Hb' Hin]; [split; [done|]; set_solver|].
      destruct Hb as [H1 H2]. split.
      * intros c'. rewrite elem_of_union, elem_of_singleton. setoid_rewrite elem_of_app.
        intros [->|Hc']; [exists g; set_solver|]. destruct (H1 c' Hc') as (g' & ? & ?). eauto.
      * intros g'. rewrite elem_of_app, list_elem_of_singleton. intros [Hg'| ->]; [|exists c; set_solver].
        destruct (H2 g' Hg') as (c' & ? & ?). set_solver.
Qed.

Lemma add_patterns_built w ps seen builder builder' :
  built seen builder → add_patterns w ps seen builder = Ok builder' →
  ∃ seen', built seen' builder' ∧
    ∀ c, c ∈ seen' ↔ c ∈ seen ∨ ∃ p, p ∈ ps ∧ c ∈ expand_domain_pattern (normalize_pattern p).
Proof.
  revert seen builder. induction ps as [|p ps IH]; intros seen builder Hb; simpl.
  - intros [= <-]. exists seen. split; [done|]. set_solver.
  - destruct (_ && _); [done|]. intros Ha.
    destruct (add_candidates _ seen builder) as [[seen1 builder1]|] eqn:E; [|done].
    apply add_candidates_built in E as [Hb1 Hin1]; [|done].
    apply IH in Ha as (seen' & Hb' & Hin'); [|done]. exists seen'. split; [done|].
    intros c. rewrite Hin', Hin1. set_solver.
Qed.

(** A compiled list matches a host when a glob of one of its patterns does. *)
Lemma compiled_matches w ps set h :
  compile_globset_with_policy ps w = Ok set →
  is_match set h = true ↔
  ∃ p c g, p ∈ ps ∧ c ∈ expand_domain_pattern (normalize_pattern p) ∧ glob_build c = Some g ∧
    glob_matches g h = true.
Proof.
  unfold compile_globset_with_policy. intros Hc.
  destruct (add_patterns w ps ∅ []) as [builder|] eqn:E; [|done].
  apply add_patterns_built in E as (seen & [H1 H2] & Hseen); [|split; set_solver].
  simpl in Hc. destruct (globset_build builder) as [set'|] eqn:Hs; simplify_eq/=.
  rewrite (globset_matches _ _ h Hs), existsb_exists. split.
  - intros (g & Hg%list_elem_of_In & Hm). destruct (H2 g Hg) as (c & Hc & Hgc).
    apply Hseen in Hc as [Hc|(p & Hp & Hc)]; [set_solver|]. by exists p, c, g.
  - intros (p & c & g & Hp & Hc & Hg & Hm). destruct (H1 c) as (g' & Hg' & Hin).
    { apply Hseen. right. eauto. }
    assert (g' = g) as -> by congruence. exists g. split; [by apply list_elem_of_In|done].
Qed.

(** Every expansion of a pattern of a compiled list is a glob. *)
Lemma compiled_builds w ps set p c :
  compile_globset_with_policy ps w = Ok set → p ∈ ps →
  c ∈ expand_domain_pattern (normalize_pattern p) → ∃ g, glob_build c = Some g.
Proof.
  unfold compile_globset_with_policy. intros Hc Hp Hin.
  destruct (add_patterns w ps ∅ []) as [builder|] eqn:E; [|done].
  apply add_patterns_built in E as (seen & [H1 H2] & Hseen); [|split; set_solver].
  destruct (H1 c) as (g & ? & ?); [|eauto]. apply Hseen. right. eauto.
Qed.
End compiled.

(** ** Names and hosts *)

Definition dns_char (c : char) : bool := is_ascii_alphabetic c || is_ascii_digit c || (c =? 45).

(** A DNS name: labels of letters, digits and hyphens that start with a letter. *)
Definition dns_name (d : str) : bool :=
  forallb (λ c, dns_char c || is_char c_dot c) d
  && forallb (λ l, match l with c :: _ => is_ascii_alphabetic c | [] => false end) (split_char c_dot d).

(** A host whose text no normalization changes, free of glob metacharacters. *)
Definition canonical_host (h : str) : bool :=
  bool_decide (h ≠ []) && bool_decide (normalize_host h = h) && bool_decide (trim h = h)
  && bool_decide (normalize_domain h = h) && glob_plain h.

Lemma to_ascii_lower_idemp c : to_ascii_lower (to_ascii_lower c) = to_ascii_lower c.
Proof. unfold to_ascii_lower. case_all; try done; lia. Qed.
Lemma to_ascii_lowercase_idemp s : to_ascii_lowercase (to_ascii_lowercase s) = to_ascii_lowercase s.
Proof.
  unfold to_ascii_lowercase. rewrite map_map. apply map_ext. apply to_ascii_lower_idemp.
Qed.

(** What the chars of a name are not. *)
Definition name_excluded (c : char) : bool := negb (dns_char c || is_char c_dot c).

Lemma dns_name_excluded d c : dns_name d = true → name_excluded c = true → c ∉ d.
Proof.
  unfold dns_name, name_excluded. intros [Hd _]%andb_true_iff Hc%negb_true_iff Hin%list_elem_of_In.
  rewrite forallb_forall in Hd. rewrite (Hd _ Hin) in Hc. done.
Qed.

Lemma dns_name_cons d : dns_name d = true → ∃ c d', d = c :: d' ∧ is_ascii_alphabetic c = true.
Proof.
  unfold dns_name, split_char. intros [_ Hd]%andb_true_iff. destruct d as [|c d]; [done|].
  exists c, d. split; [done|]. simpl in Hd. destruct (is_char c_dot c); [done|].
  destruct (split_at_all _ d); simpl in Hd; by apply andb_true_iff in Hd as [? _].
Qed.

Lemma split_at_all_snoc {A} (p : A → bool) l x :
  p x = true → split_at_all p (l ++ [x]) = split_at_all p l ++ [[]].
Proof.
  intros Hx. induction l as [|y l IH]; simpl; [by rewrite Hx|]. rewrite IH.
  destruct (p y); [done|]. destruct (split_at_all p l) eqn:E; [|done].
  by apply split_at_all_nonempty in E.
Qed.

Lemma dns_name_last d : dns_name d = true → last d ≠ Some c_dot.
Proof.
  unfold dns_name. intros [_ Hd]%andb_true_iff [d' ->]%last_Some.
  unfold split_char in Hd. rewrite split_at_all_snoc, forallb_app in Hd by done.
  simpl in Hd. by rewrite andb_false_r in Hd.
Qed.

Lemma forallb_elem {A} (p : A → bool) l : (∀ x, x ∈ l → p x = true) → forallb p l = true.
Proof. intros Hl. apply forallb_forall. intros x Hx%list_elem_of_In. auto. Qed.

Ltac char_lia :=
  unfold name_excluded, dns_char, is_ascii_alphabetic, is_ascii_digit, is_char, is_whitespace,
    to_ascii_lower, c_dot, c_colon in *; lia.

Lemma dns_name_trim d : dns_name d = true → trim d = d.
Proof.
  intros Hd. apply trim_none, Forall_forall. intros c Hc.
  destruct (is_whitespace c) eqn:Hw; [|done]. exfalso.
  eapply dns_name_excluded; [done| |done]. char_lia.
Qed.

Lemma dns_name_glob_plain d : dns_name d = true → glob_plain d = true.
Proof.
  intros Hd. apply forallb_elem. intros c Hc. apply negb_true_iff.
  destruct (existsb _ _) eqn:He; [|done]. exfalso.
  apply existsb_exists in He as (m & Hm & ->%N.eqb_eq).
  eapply dns_name_excluded; [done| |done].
  change (lit "*?[]{}\") with [42; 63; 91; 93; 123; 125; 92] in Hm. simpl in Hm.
  by repeat destruct Hm as [<-|Hm].
Qed.

(** An address starts with a digit or has a colon. *)
Lemma digit_of_letter c : is_ascii_alphabetic c = true → digit_of 10 c = None.
Proof.
  intros Hc. unfold digit_of. assert (is_ascii_digit c = false) as -> by char_lia.
  destruct ((97 <=? c) && (c <=? 122)) eqn:E1; [|destruct ((65 <=? c) && (c <=? 90)) eqn:E2; [|done]].
  - by assert (c - 87 <? 10 = false) as -> by lia.
  - by assert (c - 55 <? 10 = false) as -> by lia.
Qed.

Lemma read_ipv4_addr_letter c s : is_ascii_alphabetic c = true → read_ipv4_addr (c :: s) = None.
Proof.
  intros Hc. unfold read_ipv4_addr, read_octet, read_separator, read_number. cbn [read_digits].
  by rewrite digit_of_letter.
Qed.

Lemma read_digits_sub radix bound max count acc s v n rest :
  read_digits radix bound max count acc s = Some (v, n, rest) → rest ⊆ s.
Proof.
  revert count acc. induction s as [|c s IH]; intros count acc; simpl; [by intros [= _ _ <-]|].
  destruct (digit_of radix c); [|by intros [= _ _ <-]].
  do 2 (case_match; [done|]). intros Hr%IH. set_solver.
Qed.
Lemma read_number_sub radix bound max zero s v rest :
  read_number radix bound max zero s = Some (v, rest) → rest ⊆ s.
Proof.
  unfold read_number. destruct (read_digits radix bound max 0 0 s) as [[[v' n] rest']|] eqn:E; [|done].
  simpl. do 2 (case_match; [done|]). intros [= _ <-]. by eapply read_digits_sub.
Qed.

Lemma read_given_char_none c s : c ∉ s → read_given_char c s = None.
Proof.
  destruct s as [|d s]; [done|]. intros [Hd _]%not_elem_of_cons. simpl.
  destruct (N.eqb_spec d c); [congruence|done].
Qed.

Lemma read_groups_S left i s :
  read_groups (S left) i s =
  match (if (1 <=? left)%nat then read_separator c_colon i read_ipv4_addr s else None) with
  | Some (v4, s) => ([N.shiftr v4 16; N.land v4 65535], true, s)
  | None =>
      match read_separator c_colon i (read_number 16 65535 4 true) s with
      | Some (g, s) => let '(gs, ipv4, s) := read_groups left (S i) s in (g :: gs, ipv4, s)
      | None => ([], false, s)
      end
  end.
Proof. reflexivity. Qed.

Lemma read_groups_no_colon left i s : c_colon ∉ s → read_groups left (S i) s = ([], false, s).
Proof.
  intros Hs. destruct left as [|left]; [done|]. cbn [read_groups].
  unfold read_separator. rewrite read_given_char_none by done. by destruct (1 <=? left)%nat.
Qed.

Lemma parse_ip_letter c s :
  is_ascii_alphabetic c = true → c_colon ∉ c :: s → parse_ip (c :: s) = None.
Proof.
  intros Hc Hs. unfold parse_ip. rewrite read_ipv4_addr_letter by done.
  unfold read_ipv6_addr. rewrite (read_groups_S 7 0). cbn [Nat.leb read_separator].
  rewrite read_ipv4_addr_letter by done.
  destruct (read_number 16 65535 4 true (c :: s)) as [[g rest]|] eqn:Hn.
  - apply read_number_sub in Hn. assert (c_colon ∉ rest) by set_solver.
    rewrite read_groups_no_colon by done. simpl. by rewrite read_given_char_none.
  - cbn [length Nat.eqb]. by rewrite read_given_char_none.
Qed.

Lemma dns_name_parse_ip d : dns_name d = true → parse_ip d = None.
Proof.
  intros Hd. destruct (dns_name_cons d Hd) as (c & d' & -> & Hc).
  apply parse_ip_letter; [done|]. by eapply dns_name_excluded.
Qed.

(** ** Normal forms of names *)

Lemma to_ascii_lower_is c x :
  ¬ (97 <= x <= 122) → is_char x (to_ascii_lower c) = true ↔ is_char x c = true ∧ ¬ (65 <= c <= 90).
Proof. unfold is_char, to_ascii_lower. intros Hx. case_match; lia. Qed.

Lemma split_dot_lower d : split_char c_dot (to_ascii_lowercase d) = map to_ascii_lowercase (split_char c_dot d).
Proof.
  unfold split_char. induction d as [|c d IH]; [done|]. simpl. rewrite IH.
  assert (is_char c_dot (to_ascii_lower c) = is_char c_dot c) as ->.
  { unfold is_char, to_ascii_lower. case_match; unfold c_dot; lia. }
  destruct (is_char c_dot c); [done|]. by destruct (split_at_all _ d).
Qed.

Lemma forallb_map {A B} (f : A → B) (p : B → bool) l : forallb p (map f l) = forallb (p ∘ f) l.
Proof. induction l as [|x l IH]; simpl; by rewrite ?IH. Qed.
Lemma forallb_same {A} (p q : A → bool) l : (∀ x, p x = q x) → forallb p l = forallb q l.
Proof. intros Hpq. induction l as [|x l IH]; simpl; by rewrite ?IH, ?Hpq. Qed.

Lemma dns_name_lower d : dns_name (to_ascii_lowercase d) = dns_name d.
Proof.
  unfold dns_name. rewrite split_dot_lower. unfold to_ascii_lowercase at 1.
  rewrite !forallb_map. f_equal; apply forallb_same.
  - intros c. simpl. unfold dns_char, is_ascii_alphabetic, is_ascii_digit, is_char, to_ascii_lower, c_dot.
    case_match; lia.
  - intros [|c l]; [done|]. simpl. unfold is_ascii_alphabetic, to_ascii_lower. case_match; lia.
Qed.

Lemma trim_end_matches_id c s : last s ≠ Some c → trim_end_matches c s = s.
Proof.
  intros Hs. destruct s as [|d s _] using rev_ind; [done|]. rewrite last_snoc in Hs.
  apply drop_while_end_last. unfold is_char. apply N.eqb_neq. congruence.
Qed.

Lemma dns_name_normalize_domain d : dns_name d = true → normalize_domain d = to_ascii_lowercase d.
Proof. intros Hd. unfold normalize_domain. by rewrite trim_end_matches_id by by apply dns_name_last. Qed.

Lemma find_none_char p s c : c ∈ p → c ∉ s → find p s = None.
Proof.
  intros Hp Hs. destruct (find p s) as [n|] eqn:Hf; [|done]. exfalso. apply Hs.
  apply (contains_elem p); [|done]. unfold contains. by rewrite Hf.
Qed.

Lemma dns_name_normalize_dns d :
  dns_name d = true → normalize_dns_host_or_ip_literal d = to_ascii_lowercase d.
Proof.
  intros Hd. unfold normalize_dns_host_or_ip_literal.
  assert (dns_name (to_ascii_lowercase d) = true) as Hl by by rewrite dns_name_lower.
  rewrite trim_end_matches_id by by apply dns_name_last.
  unfold normalize_ip_literal, is_ip. rewrite dns_name_parse_ip by done. cbn [scoped_literal].
  unfold split_once_str.
  assert (37 ∉ to_ascii_lowercase d) as Hp by by eapply dns_name_excluded.
  by rewrite !(find_none_char _ _ 37) by (done || by apply (bool_decide_unpack (_ ∈ _)); vm_compute).
Qed.

Lemma dns_name_normalize_host d : dns_name d = true → normalize_host d = to_ascii_lowercase d.
Proof.
  intros Hd. unfold normalize_host. rewrite dns_name_trim by done.
  assert (starts_with (lit "[") d = false) as ->.
  { apply starts_with_false. intros [t ->]. by apply (dns_name_excluded _ 91 Hd); [|left]. }
  rewrite count_char_none by by eapply dns_name_excluded. by apply dns_name_normalize_dns.
Qed.

Lemma dns_name_canonical d : dns_name d = true → canonical_host (to_ascii_lowercase d) = true.
Proof.
  intros Hd. assert (dns_name (to_ascii_lowercase d) = true) as Hl by by rewrite dns_name_lower.
  unfold canonical_host. rewrite !andb_true_iff, !bool_decide_eq_true.
  split_and!.
  - intros E. rewrite E in Hl. by vm_compute in Hl.
  - by rewrite dns_name_normalize_host, to_ascii_lowercase_idemp.
  - by apply dns_name_trim.
  - by rewrite dns_name_normalize_domain, to_ascii_lowercase_idemp.
  - by apply dns_name_glob_plain.
Qed.

(** ** Entries *)

(** An entry of a list, as it is written. *)
Definition pattern_text (p : DomainPattern) : str :=
  match p with
  | Exact d => d
  | SubdomainsOnly d => lit "*." ++ d
  | ApexAndSubdomains d => lit "**." ++ d
  end.

(** Entries whose globs [GlobLaws] describes: names, and hosts already normalized. *)
Definition simple_pattern (p : DomainPattern) : bool :=
  match p with
  | Exact d => dns_name d || canonical_host d
  | SubdomainsOnly d | ApexAndSubdomains d => dns_name d
  end.

Definition pattern_globs (p : DomainPattern) : list str :=
  match p with
  | Exact d => [normalize_domain d]
  | SubdomainsOnly d => [lit "?*." ++ normalize_domain d]
  | ApexAndSubdomains d => [normalize_domain d; lit "?*." ++ normalize_domain d]
  end.

Lemma canonical_hostE h : canonical_host h = true →
  h ≠ [] ∧ normalize_host h = h ∧ trim h = h ∧ normalize_domain h = h ∧ glob_plain h = true.
Proof. unfold canonical_host. intros Hh. bool_hyps. done. Qed.

Lemma glob_plain_not s c : glob_plain s = true → existsb (N.eqb c) (lit "*?[]{}\") = true → c ∉ s.
Proof.
  unfold glob_plain. rewrite forallb_forall. intros Hs Hc Hin%list_elem_of_In.
  apply Hs in Hin. by rewrite Hc in Hin.
Qed.

Lemma star_prefix_none s p : 42 ∉ s → strip_prefix (42 :: p) s = None.
Proof.
  intros Hs. apply strip_prefix_None. intros [t ->]. apply Hs. by left.
Qed.

Lemma normalize_pattern_plain s :
  42 ∉ s → trim s = s → normalize_pattern s = normalize_host s.
Proof.
  intros Hs Ht. unfold normalize_pattern. rewrite Ht.
  rewrite bool_decide_eq_false_2 by (intros ->; apply Hs; by left).
  change (lit "**.") with (42 :: lit "*."). change (lit "*.") with (42 :: lit ".").
  by rewrite !star_prefix_none.
Qed.

Lemma parse_pattern_plain s : s ≠ [] → 42 ∉ s → trim s = s → parse_pattern s = Exact s.
Proof.
  intros Hne Hs Ht. unfold parse_pattern. rewrite Ht, bool_decide_eq_false_2 by done.
  change (lit "**.") with (42 :: lit "*."). change (lit "*.") with (42 :: lit ".").
  by rewrite !star_prefix_none.
Qed.

Lemma dns_name_ne d : dns_name d = true → d ≠ [].
Proof. intros Hd ->. by vm_compute in Hd. Qed.

Lemma trim_star pre d :
  dns_name d = true → trim (lit "*" ++ pre ++ d) = lit "*" ++ pre ++ d.
Proof.
  intros Hd. apply (trim_between 42 pre d); [done|by apply dns_name_ne|].
  rewrite <- (dns_name_trim d) at 1 by done. rewrite trim_end_trim. by apply dns_name_trim.
Qed.

Lemma expand_pattern_text p :
  simple_pattern p = true → expand_domain_pattern (normalize_pattern (pattern_text p)) = pattern_globs p.
Proof.
  destruct p as [d|d|d]; cbn [simple_pattern pattern_text pattern_globs]; intros Hd.
  - (* ** *)
    assert (dns_name (to_ascii_lowercase d) = true) as Hl by by rewrite dns_name_lower.
    unfold normalize_pattern. rewrite (trim_star (lit "*.") d Hd : trim (lit "**." ++ d) = lit "**." ++ d).
    rewrite bool_decide_eq_false_2 by done. rewrite (strip_prefix_app (lit "**.") d).
    rewrite bool_decide_eq_false_2 by done. rewrite dns_name_normalize_host by done.
    unfold expand_domain_pattern, parse_pattern.
    rewrite (trim_star (lit "*.") _ Hl : trim (lit "**." ++ to_ascii_lowercase d) = lit "**." ++ _).
    rewrite bool_decide_eq_false_2 by done. rewrite (strip_prefix_app (lit "**.")).
    unfold parse_domain. rewrite dns_name_trim, bool_decide_eq_false_2 by by try apply dns_name_ne.
    by rewrite dns_name_normalize_domain.
  - (* * *)
    assert (dns_name (to_ascii_lowercase d) = true) as Hl by by rewrite dns_name_lower.
    unfold normalize_pattern. rewrite (trim_star (lit ".") d Hd : trim (lit "*." ++ d) = lit "*." ++ d).
    rewrite bool_decide_eq_false_2 by done.
    change (strip_prefix (lit "**.") (lit "*." ++ d)) with (@None str).
    rewrite (strip_prefix_app (lit "*.") d).
    rewrite bool_decide_eq_false_2 by done. rewrite dns_name_normalize_host by done.
    unfold expand_domain_pattern, parse_pattern.
    rewrite (trim_star (lit ".") _ Hl : trim (lit "*." ++ to_ascii_lowercase d) = lit "*." ++ _).
    rewrite bool_decide_eq_false_2 by done.
    change (strip_prefix (lit "**.") (lit "*." ++ to_ascii_lowercase d)) with (@None str).
    rewrite (strip_prefix_app (lit "*.")).
    unfold parse_domain. rewrite dns_name_trim, bool_decide_eq_false_2 by by try apply dns_name_ne.
    by rewrite dns_name_normalize_domain.
  - assert (42 ∉ d ∧ trim d = d) as [Hs Ht].
    { apply orb_true_iff in Hd as [Hd|(_ & _ & Ht & _ & Hg)%canonical_hostE].
      - split; [by eapply dns_name_excluded|by apply dns_name_trim].
      - split; [by eapply glob_plain_not|done]. }
    rewrite normalize_pattern_plain by done. unfold expand_domain_pattern.
    apply orb_true_iff in Hd as [Hd|(Hne & Hn & _ & Hdom & _)%canonical_hostE].
    + assert (dns_name (to_ascii_lowercase d) = true) as Hl by by rewrite dns_name_lower.
      rewrite dns_name_normalize_host, parse_pattern_plain, dns_name_normalize_domain; try done.
      * by apply dns_name_ne.
      * by eapply dns_name_excluded.
      * by apply dns_name_trim.
    + by rewrite Hn, parse_pattern_plain, Hdom.
Qed.

Section covering.
Context `{Globs : GlobEngine, !GlobLaws}.

Lemma simple_pattern_plain p : simple_pattern p = true → glob_plain (normalize_domain (pattern_domain p)) = true.
Proof.
  assert (∀ d, dns_name d = true → glob_plain (normalize_domain d) = true) as Hdns.
  { intros d Hd. rewrite dns_name_normalize_domain by done. apply dns_name_glob_plain.
    by rewrite dns_name_lower. }
  destruct p as [d|d|d]; simpl; [auto..|].
  intros [Hd|(_ & _ & _ & Hd & Hg)%canonical_hostE]%orb_true_iff; [auto|]. by rewrite Hd.
Qed.

Lemma normalize_domain_lower d : to_ascii_lowercase (normalize_domain d) = normalize_domain d.
Proof. apply to_ascii_lowercase_idemp. Qed.

(** The globs of an entry match the hosts it covers. *)
Lemma pattern_globs_match p h :
  simple_pattern p = true → to_ascii_lowercase h = h →
  (∀ c, c ∈ pattern_globs p → ∃ g, glob_build c = Some g) →
  (∃ c g, c ∈ pattern_globs p ∧ glob_build c = Some g ∧ glob_matches g h = true) ↔ covers p h.
Proof.
  intros Hp Hh Hb. pose proof (simple_pattern_plain p Hp) as Hg.
  assert (∀ c g, c = normalize_domain (pattern_domain p) → glob_build c = Some g →
    glob_matches g h = true ↔ h = normalize_domain (pattern_domain p)) as Htext.
  { intros c g -> Hc. rewrite (glob_text _ _ h Hg Hc), Hh, normalize_domain_lower. done. }
  assert (∀ c g, c = lit "?*." ++ normalize_domain (pattern_domain p) → glob_build c = Some g →
    glob_matches g h = true ↔ below h (normalize_domain (pattern_domain p))) as Hbelow.
  { intros c g -> Hc. rewrite (glob_below _ _ h Hg Hc), Hh, normalize_domain_lower. done. }
  destruct p as [d|d|d]; cbn [pattern_globs covers pattern_domain] in *.
  - setoid_rewrite elem_of_cons. setoid_rewrite list_elem_of_singleton. split.
    + intros (c & g & [Hc|Hc] & Hcg & Hm); [left; by eapply Htext|right; by eapply Hbelow].
    + intros [Hh'|Hh'].
      * destruct (Hb (normalize_domain d)) as [g Hgb]; [set_solver|]. exists (normalize_domain d), g.
        split_and!; [by left|exact Hgb|by apply (Htext _ _ eq_refl Hgb)].
      * destruct (Hb (lit "?*." ++ normalize_domain d)) as [g Hgb]; [set_solver|].
        exists (lit "?*." ++ normalize_domain d), g.
        split_and!; [by right|exact Hgb|by apply (Hbelow _ _ eq_refl Hgb)].
  - setoid_rewrite list_elem_of_singleton. split.
    + intros (c & g & Hc & Hcg & Hm). by eapply Hbelow.
    + intros Hh'. destruct (Hb (lit "?*." ++ normalize_domain d)) as [g Hgb]; [set_solver|].
      exists (lit "?*." ++ normalize_domain d), g.
      split_and!; [done|exact Hgb|by apply (Hbelow _ _ eq_refl Hgb)].
  - setoid_rewrite list_elem_of_singleton. split.
    + intros (c & g & Hc & Hcg & Hm). by eapply Htext.
    + intros Hh'. destruct (Hb (normalize_domain d)) as [g Hgb]; [set_solver|].
      exists (normalize_domain d), g.
      split_and!; [done|exact Hgb|by apply (Htext _ _ eq_refl Hgb)].
Qed.

(** A compiled list of such entries matches exactly the hosts they cover. *)
Lemma compiled_covers w ps set h :
  Forall (λ p, simple_pattern p = true) ps → to_ascii_lowercase h = h →
  compile_globset_with_policy (map pattern_text ps) w = Ok set →
  is_match set h = true ↔ ∃ p, p ∈ ps ∧ covers p h.
Proof.
  rewrite Forall_forall. intros Hps Hh Hc. rewrite (compiled_matches _ _ _ h Hc). split.
  - intros (t & c & g & (p & -> & Hp)%list_elem_of_fmap & Hin & Hg & Hm).
    exists p. split; [done|]. apply pattern_globs_match; [auto|done| |].
    + intros c' Hc'. eapply compiled_builds; [done|by apply list_elem_of_fmap_2|].
      by rewrite expand_pattern_text by auto.
    + rewrite expand_pattern_text in Hin by auto. eauto.
  - intros (p & Hp & Hcov). apply pattern_globs_match in Hcov as (c & g & Hin & Hg & Hm); [|auto|done|].
    + exists (pattern_text p), c, g. rewrite expand_pattern_text by auto.
      split; [by apply list_elem_of_fmap_2|done].
    + intros c' Hc'. eapply compiled_builds; [done|by apply list_elem_of_fmap_2|].
      by rewrite expand_pattern_text by auto.
Qed.

(** A canonical host is matched by a compiled list that has it as an entry. *)
Lemma compiled_has w ps set h :
  canonical_host h = true → h ∈ ps → compile_globset_with_policy ps w = Ok set → is_match set h = true.
Proof.
  intros Hh Hin Hc. destruct (canonical_hostE h Hh) as (_ & _ & _ & Hd & Hg).
  assert (simple_pattern (Exact h) = true) as Hs by (simpl; by rewrite Hh, orb_true_r).
  pose proof (expand_pattern_text _ Hs) as He. simpl in He. rewrite Hd in He.
  destruct (compiled_builds _ _ _ h h Hc Hin) as [g Hgb]; [rewrite He; by left|].
  apply (compiled_matches _ _ _ h Hc). exists h, h, g. split_and!; [done| |done|].
  - rewrite He. by left.
  - by apply (glob_text h g h Hg Hgb).
Qed.
End covering.

(** ** Entries of a managed list *)

(** The [url] crate's parser on names: lower case.  Labels with two hyphens may be
    internationalized names. *)
Class UrlLaws `{UrlHost} := {
  url_host_name d : dns_name d = true → contains (lit "--") d = false →
    url_host_parse d = Some (to_ascii_lowercase d);
}.

Definition managed_pattern (p : DomainPattern) : bool :=
  dns_name (pattern_domain p) && negb (contains (lit "--") (pattern_domain p)).

Definition lower_pattern (p : DomainPattern) : DomainPattern :=
  match p with
  | Exact d => Exact (to_ascii_lowercase d)
  | SubdomainsOnly d => SubdomainsOnly (to_ascii_lowercase d)
  | ApexAndSubdomains d => ApexAndSubdomains (to_ascii_lowercase d)
  end.

Lemma managed_simple p : managed_pattern p = true → simple_pattern p = true.
Proof. unfold managed_pattern. intros [Hd _]%andb_true_iff. destruct p; simpl in *; by rewrite Hd. Qed.

Lemma covers_lower p h : managed_pattern p = true → covers (lower_pattern p) h ↔ covers p h.
Proof.
  intros [Hd _]%andb_true_iff.
  assert (normalize_domain (to_ascii_lowercase (pattern_domain p)) = normalize_domain (pattern_domain p)) as Hn.
  { rewrite !dns_name_normalize_domain by by rewrite ?dns_name_lower. apply to_ascii_lowercase_idemp. }
  destruct p; simpl in *; by rewrite Hn.
Qed.

Lemma lower_pattern_head p :
  managed_pattern p = true → head (normalize_domain (pattern_domain (lower_pattern p))) ≠ Some c_dot.
Proof.
  intros [Hd _]%andb_true_iff.
  assert (pattern_domain (lower_pattern p) = to_ascii_lowercase (pattern_domain p)) as -> by by destruct p.
  rewrite dns_name_normalize_domain, to_ascii_lowercase_idemp by by rewrite dns_name_lower.
  destruct (dns_name_cons _ Hd) as (c & d & -> & Hc). simpl. intros [= Hl].
  unfold to_ascii_lower in Hl. case_match; char_lia.
Qed.

Section managed.
Context `{Url : UrlHost, !UrlLaws}.

Lemma parse_domain_for_constraints_name d :
  dns_name d = true → contains (lit "--") d = false → parse_domain_for_constraints d = to_ascii_lowercase d.
Proof.
  intros Hd Hh. unfold parse_domain_for_constraints.
  rewrite dns_name_trim, trim_end_matches_id by (done || by apply dns_name_last).
  rewrite bool_decide_eq_false_2 by by apply dns_name_ne.
  assert (starts_with (lit "[") d = false) as ->.
  { apply starts_with_false. intros [t ->]. by apply (dns_name_excluded _ 91 Hd); [|left]. }
  cbn [andb].
  assert (∀ c, name_excluded c = true → contains [c] d = false) as Hc.
  { intros c Hc. apply contains_char_false. by eapply dns_name_excluded. }
  change (lit "*") with [42]. change (lit "?") with [63]. change (lit "%") with [37].
  rewrite !Hc by done. cbn [orb]. by rewrite url_host_name.
Qed.

Lemma parse_for_constraints_text p :
  managed_pattern p = true → parse_for_constraints (pattern_text p) = lower_pattern p.
Proof.
  unfold managed_pattern. intros [Hd Hh%negb_true_iff]%andb_true_iff.
  destruct p as [d|d|d]; cbn [pattern_domain pattern_text lower_pattern] in *; unfold parse_for_constraints.
  - rewrite (trim_star (lit "*.") d Hd : trim (lit "**." ++ d) = lit "**." ++ d).
    rewrite bool_decide_eq_false_2 by done. rewrite (strip_prefix_app (lit "**.") d).
    by rewrite parse_domain_for_constraints_name.
  - rewrite (trim_star (lit ".") d Hd : trim (lit "*." ++ d) = lit "*." ++ d).
    rewrite bool_decide_eq_false_2 by done.
    change (strip_prefix (lit "**.") (lit "*." ++ d)) with (@None str).
    rewrite (strip_prefix_app (lit "*.") d). by rewrite parse_domain_for_constraints_name.
  - rewrite dns_name_trim, bool_decide_eq_false_2 by (done || by apply dns_name_ne).
    assert (42 ∉ d) by by eapply dns_name_excluded.
    change (lit "**.") with (42 :: lit "*."). change (lit "*.") with (42 :: lit ".").
    rewrite !star_prefix_none by done. by rewrite parse_domain_for_constraints_name.
Qed.

(** A candidate list that each managed pattern allows covers only what the managed list
    covers. *)
Lemma allowed_subset ms cs p h :
  Forall (λ p, managed_pattern p = true) ms → Forall (λ p, managed_pattern p = true) cs →
  filter (λ entry, existsb (λ managed, allows managed (parse_for_constraints entry))
    (map parse_for_constraints (map pattern_text ms)) = false) (map pattern_text cs) = [] →
  p ∈ cs → covers p h → ∃ m, m ∈ ms ∧ covers m h.
Proof.
  intros Hms Hcs Hf Hp Hcov. rewrite Forall_forall in Hms, Hcs.
  destruct (existsb (λ managed, allows managed (parse_for_constraints (pattern_text p)))
    (map parse_for_constraints (map pattern_text ms))) eqn:He.
  - apply existsb_exists in He as (m' & Hm'%list_elem_of_In & Hallow).
    rewrite map_map in Hm'. apply list_elem_of_fmap in Hm' as (m & -> & Hm).
    exists m. split; [done|]. rewrite !parse_for_constraints_text in Hallow by auto.
    apply covers_lower; [auto|]. eapply allows_sound; [|exact Hallow|].
    + apply lower_pattern_head. auto.
    + apply covers_lower; auto.
  - exfalso. apply (not_elem_of_nil (pattern_text p)). rewrite <- Hf.
    apply list_elem_of_filter. split; [done|]. by apply list_elem_of_fmap_2.
Qed.
End managed.

(** * The IPv4 ranges the policy treats as local *)

Local Open Scope N_scope.
Ltac Zify.zify_post_hook ::= Z.to_euclidean_division_equations.

(** The registries' ranges, first and last address. *)
Definition non_public_ranges : list (N * N) :=
  [(from_octets 0 0 0 0, from_octets 0 255 255 255);
   (from_octets 10 0 0 0, from_octets 10 255 255 255);
   (from_octets 100 64 0 0, from_octets 100 127 255 255);
   (from_octets 127 0 0 0, from_octets 127 255 255 255);
   (from_octets 169 254 0 0, from_octets 169 254 255 255);
   (from_octets 172 16 0 0, from_octets 172 31 255 255);
   (from_octets 192 0 0 0, from_octets 192 0 0 255);
   (from_octets 192 0 2 0, from_octets 192 0 2 255);
   (from_octets 192 168 0 0, from_octets 192 168 255 255);
   (from_octets 198 18 0 0, from_octets 198 19 255 255);
   (from_octets 198 51 100 0, from_octets 198 51 100 255);
   (from_octets 203 0 113 0, from_octets 203 0 113 255);
   (from_octets 224 0 0 0, from_octets 239 255 255 255);
   (from_octets 240 0 0 0, from_octets 255 255 255 255)].

Definition in_ranges (ip : N) (rs : list (N * N)) : bool :=
  existsb (λ '(lo, hi), (lo <=? ip) && (ip <=? hi)) rs.

Lemma octet_div ip i : octet ip i = ip / 2 ^ (8 * (3 - i)) mod 256.
Proof. unfold octet. change 255 with (N.ones 8). by rewrite N.land_ones, N.shiftr_div_pow2. Qed.

Lemma land_high_mask ip p k :
  N.land ip (N.shiftl (N.ones p) k) = N.shiftl (N.land (N.shiftr ip k) (N.ones p)) k.
Proof.
  apply N.bits_inj. intros i. rewrite N.land_spec. destruct (N.le_gt_cases k i) as [Hk|Hk].
  - rewrite !N.shiftl_spec_high', N.land_spec, N.shiftr_spec' by lia.
    by replace (i - k + k) with i by lia.
  - by rewrite !N.shiftl_spec_low, andb_false_r by lia.
Qed.

(** A CIDR test is a comparison of prefixes. *)
Lemma ipv4_in_cidr_spec ip a b c d p k :
  ip < 2 ^ 32 → from_octets a b c d < 2 ^ 32 → p + k = 32 →
  (if p =? 0 then 0 else N.shiftl 4294967295 (32 - p) mod 2 ^ 32) = N.shiftl (N.ones p) k →
  ipv4_in_cidr ip (a, b, c, d) p = (ip / 2 ^ k =? from_octets a b c d / 2 ^ k).
Proof.
  intros Hip Hbase Hp Hmask. unfold ipv4_in_cidr. rewrite Hmask, !land_high_mask, !N.land_ones, !N.shiftr_div_pow2.
  assert (∀ x, x < 2 ^ 32 → x / 2 ^ k < 2 ^ p) as Hlt.
  { intros x Hx. apply N.Div0.div_lt_upper_bound. by rewrite <- N.pow_add_r, N.add_comm, Hp. }
  rewrite !N.mod_small by by apply Hlt. rewrite !N.shiftl_mul_pow2.
  destruct (N.eqb_spec (ip / 2 ^ k) (from_octets a b c d / 2 ^ k)) as [->|Hne]; [by rewrite N.eqb_refl|].
  apply N.eqb_neq. intros Heq. apply Hne. eapply N.mul_cancel_r; [|exact Heq]. by apply N.pow_nonzero.
Qed.

(** Try each disjunct in turn, so that each attempt is small. *)
Ltac pick_lia :=
  lazymatch goal with
  | |- _ ∨ _ => first [left; pick_lia | right; pick_lia]
  | |- _ => lia
  end.

(** An IPv4 address is non-public exactly when it is in one of the ranges, whatever the
    tests the code splits them into. *)
Lemma non_public_ipv4_ranges ip :
  ip < 2 ^ 32 → is_non_public_ipv4 ip = in_ranges ip non_public_ranges.
Proof.
  intros Hip. unfold is_non_public_ipv4.
  rewrite (ipv4_in_cidr_spec ip 0 0 0 0 8 24), (ipv4_in_cidr_spec ip 100 64 0 0 10 22),
    (ipv4_in_cidr_spec ip 192 0 0 0 24 8), (ipv4_in_cidr_spec ip 192 0 2 0 24 8),
    (ipv4_in_cidr_spec ip 198 18 0 0 15 17), (ipv4_in_cidr_spec ip 198 51 100 0 24 8),
    (ipv4_in_cidr_spec ip 203 0 113 0 24 8), (ipv4_in_cidr_spec ip 240 0 0 0 4 28) by done.
  unfold v4_is_loopback, v4_is_private, v4_is_link_local, v4_is_unspecified, v4_is_multicast,
    v4_is_broadcast, in_ranges, non_public_ranges. rewrite !octet_div. cbn [existsb].
  unfold from_octets.
  change (2 ^ (8 * (3 - 0))) with 16777216. change (2 ^ (8 * (3 - 1))) with 65536.
  change (2 ^ 24) with 16777216. change (2 ^ 22) with 4194304. change (2 ^ 8) with 256.
  change (2 ^ 17) with 131072. change (2 ^ 28) with 268435456. change (2 ^ 32) with 4294967296 in Hip.
  repeat match goal with |- context [?x / ?y =? ?z] => let v := eval vm_compute in z in change z with v end.
  apply eq_true_iff_eq. rewrite !orb_true_iff, !andb_true_iff, !N.eqb_eq, !N.leb_le.
  split; intros Hc.
  - repeat destruct Hc as [Hc|Hc]; lia.
  - repeat destruct Hc as [Hc|Hc]; first [discriminate | pick_lia].
Qed.

(** The IPv4-mapped IPv6 address of an IPv4 address. *)
Definition mapped (ip : N) : N := 0xffff * 2 ^ 32 + ip.

Lemma mapped_class ip : ip < 2 ^ 32 → is_non_public_ipv6 (mapped ip) = is_non_public_ipv4 ip.
Proof.
  intros Hip. unfold is_non_public_ipv6, to_ipv4, mapped.
  assert (N.shiftr (0xffff * 2 ^ 32 + ip) 32 = 0xffff) as ->.
  { rewrite N.shiftr_div_pow2. change (2 ^ 32) with 4294967296 in *. lia. }
  change 0xffffffff with (N.ones 32). rewrite N.land_ones.
  assert ((0xffff * 2 ^ 32 + ip) mod 2 ^ 32 = ip) as ->.
  { change (2 ^ 32) with 4294967296 in *. lia. }
  cbn [N.eqb orb Pos.eqb]. unfold v6_is_loopback.
  assert (0xffff * 2 ^ 32 + ip =? 1 = false) as ->; [|by rewrite orb_false_r].
  apply N.eqb_neq. change (2 ^ 32) with 4294967296. lia.
Qed.

(** The same for IPv6: the IPv4 ranges, IPv4-compatible and IPv4-mapped, the unique local,
    the link-local and the multicast addresses. *)
Definition non_public_ranges6 : list (N * N) :=
  non_public_ranges ++ map (λ '(lo, hi), (mapped lo, mapped hi)) non_public_ranges
  ++ [(0xfc00 * 2 ^ 112, 0xfe00 * 2 ^ 112 - 1); (0xfe80 * 2 ^ 112, 0xfec0 * 2 ^ 112 - 1);
      (0xff00 * 2 ^ 112, 2 ^ 128 - 1)].

Lemma in_ranges_spec ip rs :
  in_ranges ip rs = true ↔ ∃ lo hi, (lo, hi) ∈ rs ∧ lo ≤ ip ∧ ip ≤ hi.
Proof.
  unfold in_ranges. rewrite existsb_exists. split.
  - intros ([lo hi] & Hin%list_elem_of_In & [Hlo%N.leb_le Hhi%N.leb_le]%andb_true_iff). by exists lo, hi.
  - intros (lo & hi & Hin & Hlo & Hhi). exists (lo, hi). split; [by apply list_elem_of_In|].
    apply andb_true_iff. by rewrite !N.leb_le.
Qed.

Lemma in_ranges_app ip l1 l2 : in_ranges ip (l1 ++ l2) = in_ranges ip l1 || in_ranges ip l2.
Proof. apply existsb_app. Qed.

(** A list of ranges all of which are outside a bound. *)
Lemma in_ranges_outside ip rs :
  forallb (λ '(lo, hi), (ip <? lo) || (hi <? ip)) rs = true → in_ranges ip rs = false.
Proof.
  intros H. apply not_true_iff_false. intros (lo & hi & Hin & ? & ?)%in_ranges_spec.
  rewrite forallb_forall in H. apply list_elem_of_In, H, orb_true_iff in Hin.
  rewrite !N.ltb_lt in Hin. lia.
Qed.

Lemma in_ranges_mapped ip : in_ranges (mapped ip) (map (λ '(lo, hi), (mapped lo, mapped hi)) non_public_ranges)
  = in_ranges ip non_public_ranges.
Proof.
  unfold in_ranges. induction non_public_ranges as [|[lo hi] rs IH]; [done|]. cbn [map existsb]. rewrite IH.
  f_equal. unfold mapped. apply eq_true_iff_eq. rewrite !andb_true_iff, !N.leb_le. lia.
Qed.

(** A test of the high bits of the first 16-bit group is a range of addresses. *)
Lemma segment_prefix ip p k base :
  ip < 2 ^ 128 → p + k = 16 →
  (N.land (segment ip 0) (N.shiftl (N.ones p) k) =? base * 2 ^ k) =
  (base * 2 ^ k * 2 ^ 112 <=? ip) && (ip <=? (base + 1) * 2 ^ k * 2 ^ 112 - 1).
Proof.
  intros Hip Hp. unfold segment. change (16 * (7 - 0)) with 112. change 65535 with (N.ones 16).
  rewrite N.land_ones, N.shiftr_div_pow2, land_high_mask, N.land_ones, N.shiftr_div_pow2, N.shiftl_mul_pow2.
  assert (ip / 2 ^ 112 < 2 ^ 16) as H16.
  { apply N.Div0.div_lt_upper_bound. by rewrite <- N.pow_add_r. }
  rewrite (N.mod_small _ (2 ^ 16)) by done.
  rewrite (N.mod_small _ (2 ^ p)).
  2: { apply N.Div0.div_lt_upper_bound. by rewrite <- N.pow_add_r, N.add_comm, Hp. }
  rewrite N.Div0.div_div. set (m := 2 ^ 112 * 2 ^ k).
  assert (m ≠ 0) as Hm by (apply N.neq_mul_0; split; by apply N.pow_nonzero).
  assert (2 ^ k ≠ 0) as Hk by by apply N.pow_nonzero.
  replace (base * 2 ^ k * 2 ^ 112) with (m * base) by (unfold m; lia).
  replace ((base + 1) * 2 ^ k * 2 ^ 112) with (m * base + m) by (unfold m; lia).
  pose proof (N.div_mod ip m Hm) as Hdiv. pose proof (N.mod_lt ip m Hm) as Hlt.
  apply eq_true_iff_eq. rewrite andb_true_iff, !N.leb_le, N.eqb_eq, N.mul_cancel_r by done.
  generalize dependent (ip / m). generalize dependent (ip mod m). clearbody m. intros r Hr q Hq. split.
  - intros ->. lia.
  - intros [H1 H2]. nia.
Qed.

Lemma to_ipv4_mapped ip : ip < 2 ^ 128 →
  ip < 2 ^ 32 ∧ to_ipv4 ip = Some ip ∨
  (∃ v4, v4 < 2 ^ 32 ∧ ip = mapped v4 ∧ to_ipv4 ip = Some v4) ∨
  2 ^ 32 ≤ ip ∧ (ip < mapped 0 ∨ mapped (2 ^ 32) ≤ ip) ∧ to_ipv4 ip = None.
Proof.
  intros _. unfold to_ipv4, mapped. rewrite N.shiftr_div_pow2. change 0xffffffff with (N.ones 32).
  rewrite N.land_ones. change (2 ^ 32) with 4294967296.
  destruct (N.eqb_spec (ip / 4294967296) 0) as [H|H]; cbn [orb].
  - left. split; [lia|]. f_equal. lia.
  - right. destruct (N.eqb_spec (ip / 4294967296) 0xffff) as [H'|H'].
    + left. exists (ip mod 4294967296). split_and!; [lia|lia|done].
    + right. split_and!; [lia|lia|done].
Qed.

Lemma ranges_width lo hi : (lo, hi) ∈ non_public_ranges → hi < 2 ^ 32.
Proof.
  intros Hin%list_elem_of_In. assert (forallb (λ '(_, hi), hi <? 2 ^ 32) non_public_ranges = true) as H by by vm_compute.
  rewrite forallb_forall in H. by apply H, N.ltb_lt in Hin.
Qed.
Lemma ipv4_ranges_small ip : 2 ^ 32 ≤ ip → in_ranges ip non_public_ranges = false.
Proof. intros Hip. apply not_true_iff_false. intros (lo & hi & Hin%ranges_width & _ & ?)%in_ranges_spec. lia. Qed.

Lemma non_public_ipv6_ranges ip :
  ip < 2 ^ 128 → is_non_public_ipv6 ip = in_ranges ip non_public_ranges6.
Proof.
  intros Hip. unfold non_public_ranges6. rewrite !in_ranges_app.
  destruct (to_ipv4_mapped ip Hip) as [[H4 Ht]|[(v4 & H4 & -> & Ht)|(H4 & Hm & Ht)]];
    unfold is_non_public_ipv6; rewrite Ht.
  - rewrite non_public_ipv4_ranges by done.
    assert (in_ranges ip (map (λ '(lo, hi), (mapped lo, mapped hi)) non_public_ranges) = false) as ->.
    { apply not_true_iff_false. intros (lo & hi & ([x y] & [= -> ->] & _)%list_elem_of_fmap & Hlo & _)%in_ranges_spec.
      unfold mapped in Hlo. change (2 ^ 32) with 4294967296 in *. lia. }
    rewrite (in_ranges_outside ip [_; _; _]), !orb_false_r.
    + unfold v6_is_loopback. destruct (N.eqb_spec ip 1) as [->|]; [done|apply orb_false_r].
    + cbn [forallb]. change (2 ^ 32) with 4294967296 in *. rewrite !andb_true_iff, !orb_true_iff, !N.ltb_lt. lia.
  - rewrite non_public_ipv4_ranges, in_ranges_mapped, (ipv4_ranges_small (mapped v4)) by (done || by unfold mapped; lia).
    rewrite (in_ranges_outside _ [_; _; _]), orb_false_r.
    + unfold v6_is_loopback, mapped. destruct (N.eqb_spec (0xffff * 2 ^ 32 + v4) 1); [lia|apply orb_false_r].
    + cbn [forallb]. unfold mapped. change (2 ^ 32) with 4294967296 in *.
      rewrite !andb_true_iff, !orb_true_iff, !N.ltb_lt. lia.
  - rewrite ipv4_ranges_small by done.
    assert (in_ranges ip (map (λ '(lo, hi), (mapped lo, mapped hi)) non_public_ranges) = false) as ->.
    { apply not_true_iff_false. intros (lo & hi & ([x y] & [= -> ->] & Hin)%list_elem_of_fmap & Hlo & Hhi)%in_ranges_spec.
      apply ranges_width in Hin. unfold mapped in *. change (2 ^ 32) with 4294967296 in *. lia. }
    cbn [orb]. unfold v6_is_loopback, v6_is_unspecified, v6_is_multicast, v6_is_unique_local, v6_is_unicast_link_local.
    assert (ip =? 1 = false) as -> by (apply N.eqb_neq; lia). assert (ip =? 0 = false) as -> by (apply N.eqb_neq; lia).
    pose proof (segment_prefix ip 8 8 255 Hip eq_refl) as Hmul. pose proof (segment_prefix ip 7 9 126 Hip eq_refl) as Hul.
    pose proof (segment_prefix ip 10 6 1018 Hip eq_refl) as Hll.
    change (N.shiftl (N.ones 8) 8) with 0xff00 in Hmul. change (N.shiftl (N.ones 7) 9) with 0xfe00 in Hul.
    change (N.shiftl (N.ones 10) 6) with 0xffc0 in Hll.
    change (255 * 2 ^ 8) with 0xff00 in Hmul. change (126 * 2 ^ 9) with 0xfc00 in Hul. change (1018 * 2 ^ 6) with 0xfe80 in Hll.
    rewrite Hmul, Hul, Hll. cbn [in_ranges existsb].
    change ((255 + 1) * 2 ^ 8 * 2 ^ 112) with (2 ^ 128). change ((126 + 1) * 2 ^ 9 * 2 ^ 112) with (0xfe00 * 2 ^ 112).
    change ((1018 + 1) * 2 ^ 6 * 2 ^ 112) with (0xfec0 * 2 ^ 112).
    by destruct (_ && _), (_ && _), (_ && _).
Qed.

(** An address outside the listed ranges; a number wider than an address is none. *)
Definition public_address (a : IpAddr) : Prop :=
  match a with
  | V4 ip => ip < 2 ^ 32 → in_ranges ip non_public_ranges = false
  | V6 ip => ip < 2 ^ 128 → in_ranges ip non_public_ranges6 = false
  end.

Lemma public_address_spec a : is_non_public_ip a = false → public_address a.
Proof.
  destruct a as [ip|ip]; cbn [is_non_public_ip public_address]; intros H Hip.
  - by rewrite <- non_public_ipv4_ranges.
  - by rewrite <- non_public_ipv6_ranges.
Qed.

(** The class of an IPv4 address, written as such or mapped into IPv6, is membership in
    the listed ranges, whatever the tests the code splits them into. *)
Theorem non_public_ranges_exact ip :
  ip < 2 ^ 32 →
  is_non_public_ip (V4 ip) = in_ranges ip non_public_ranges
  ∧ is_non_public_ip (V6 (mapped ip)) = in_ranges ip non_public_ranges.
Proof.
  intros Hip. cbn [is_non_public_ip]. by rewrite mapped_class, non_public_ipv4_ranges.
Qed.

Lemma non_public_ranges_exact_witness :
  is_non_public_ip (V4 (from_octets 100 64 0 1)) = true ∧ is_non_public_ip (V6 (mapped (from_octets 8 8 8 8))) = false.
Proof.
  destruct (non_public_ranges_exact (from_octets 100 64 0 1) ltac:(vm_compute; reflexivity)) as [H1 _].
  destruct (non_public_ranges_exact (from_octets 8 8 8 8) ltac:(vm_compute; reflexivity)) as [_ H2].
  rewrite H1, H2. vm_compute. done.
Defined.
