(* ===== verification/MitmHook.v ===== *)
(** * MitmHook: the hooks on intercepted requests ([network-proxy/src/mitm_hook.rs])

    Header names and values, requests and their query strings are those of the HTTP
    crates, and globs those of the globset crate: interfaces.  The environment and the
    secret files are arguments, as they are of [compile_mitm_hooks_with_resolvers]. *)
From S2P Require Import Prelude RustStr PatchErrors UnixPath AbsolutePath AuthPath IpAddr NetPolicy.

(** ** Interfaces *)

Class HttpTypes := {
  HeaderName : Type;
  HeaderValue : Type;
  header_name_from_bytes : str → option HeaderName;
  header_value_from_str : str → option HeaderValue;
  header_value_to_str : HeaderValue → option str;
  Request : Type;
  req_method : Request → str;
  uri_path : Request → str;
  uri_query : Request → option str;
  headers_get_all : HeaderName → Request → list HeaderValue;
  form_urlencoded_parse : str → list (str * str);
  JsonValue : Type;
  JsonValue_eq_dec :: EqDecision JsonValue;
}.

(** [GlobBuilder::new(pattern).backslash_escape(true).literal_separator(b).build()] and
    [compile_matcher]. *)
Class GlobMatchers := {
  GlobMatcher : Type;
  glob_matcher_build : bool → str → option GlobMatcher;
  glob_matches : GlobMatcher → str → bool;
}.

Definition PATTERN_PREFIX : str := lit "pattern:".
Definition LITERAL_PREFIX : str := lit "literal:".

Definition to_ascii_upper (c : char) : char :=
  if ((97 <=? c) && (c <=? 122))%N then (c - 32)%N else c.
Definition to_ascii_uppercase (s : str) : str := map to_ascii_upper s.

(** ** Configuration *)

Record InjectedHeaderConfig := mkInjected {
  i_name : str;
  secret_env_var : option str;
  secret_file : option str;
  i_prefix : option str;
}.

#[export] Instance InjectedHeaderConfig_eq_dec : EqDecision InjectedHeaderConfig.
Proof. solve_decision. Defined.

Inductive MatcherPattern := PatLiteral (text : str) | PatGlob (pattern : str).

Inductive HookErrorKind :=
| HostEmpty
| HostWildcard
| EmptyMethod
| EmptyPathPrefix
| EmptyGlob
| InvalidGlob (pattern : str)
| QueryKeyEmpty
| QueryValuesEmpty (name : str)
| InvalidMatcher (name : str) (e : HookErrorKind)
| InvalidHeaderName (name : str)
| SecretEnvVarEmpty
| SecretFileEmpty
| SecretFileRelative (path : str)
| SecretSourceNotOne
| MissingEnvVar (name : str)
| SecretFileUnread (e : str)
| InvalidHeaderValue (name : str)
| FailedInjected (name : str) (e : HookErrorKind).

Inductive HookField :=
| FHost | FMethods | FPathPrefixes | FQuery | FHeaders | FStrip | FInject.

Inductive HookError :=
| HooksRequireMitm
| InvalidField (hook_index : nat) (field : HookField) (e : HookErrorKind)
| FieldEmpty (hook_index : nat) (field : HookField)
| BodyReserved (hook_index : nat)
| CompileError (e : HookErrorKind).

(** A [for] loop whose body is a check. *)
Fixpoint check_all {E A} (f : A → result E unit) (l : list A) : result E unit :=
  match l with
  | [] => Ok tt
  | x :: l => f x;; check_all f l
  end.

Section config.
Context `{HttpTypes}.

(** The maps are association lists in key order ([BTreeMap]). *)
Record MitmHookMatchConfig := mkMatch {
  m_methods : list str;
  m_path_prefixes : list str;
  m_query : list (str * list str);
  m_headers : list (str * list str);
  m_body : option JsonValue;
}.
Record MitmHookConfig := mkHook {
  h_host : str;
  matcher : MitmHookMatchConfig;
  strip_request_headers : list str;
  inject_request_headers : list InjectedHeaderConfig;
}.

#[export] Instance MitmHookMatchConfig_eq_dec : EqDecision MitmHookMatchConfig.
Proof. solve_decision. Defined.
#[export] Instance MitmHookConfig_eq_dec : EqDecision MitmHookConfig.
Proof. solve_decision. Defined.
End config.

Definition parse_matcher_pattern (pattern : str) : result HookErrorKind MatcherPattern :=
  match strip_prefix LITERAL_PREFIX pattern with
  | Some literal => Ok (PatLiteral literal)
  | None =>
      match strip_prefix PATTERN_PREFIX pattern with
      | None => Ok (PatLiteral pattern)
      | Some glob_pattern =>
          if bool_decide (glob_pattern = []) then Err EmptyGlob else Ok (PatGlob glob_pattern)
      end
  end.

Definition normalize_hook_host (host : str) : result HookErrorKind str :=
  let normalized := normalize_host host in
  if bool_decide (normalized = []) then Err HostEmpty
  else if contains (lit "*") normalized then Err HostWildcard
  else Ok normalized.

Definition normalize_methods (methods : list str) : result HookErrorKind (list str) :=
  collect (λ method,
    let normalized := to_ascii_uppercase (trim method) in
    if bool_decide (normalized = []) then Err EmptyMethod else Ok normalized) methods.

Definition normalize_query_name (name : str) : result HookErrorKind str :=
  if bool_decide (name = []) then Err QueryKeyEmpty else Ok name.

Section hooks.
Context `{HttpTypes, GlobMatchers, ProcessEnv}.

(** ** Compiled hooks *)

Record CompiledGlobMatcher := mkGlob { g_pattern : str; g_matcher : GlobMatcher }.

Inductive PathMatcher := Prefix (prefix : str) | PathGlob (glob : CompiledGlobMatcher).
Inductive ValueMatcher := ExactValue (value : str) | ValueGlob (glob : CompiledGlobMatcher).
Inductive SecretSource := EnvVar (name : str) | File (path : AbsolutePathBuf).

Record ResolvedInjectedHeader := mkResolved {
  r_name : HeaderName;
  r_value : HeaderValue;
  r_source : SecretSource;
}.
Record MitmHookActions := mkActions {
  strip_headers : list HeaderName;
  inject_headers : list ResolvedInjectedHeader;
}.
(** A compiled hook; its body matcher is always [None]. *)
Record MitmHook := mkMitmHook {
  hook_host : str;
  hook_methods : list str;
  hook_path_prefixes : list PathMatcher;
  hook_query : list (str * list ValueMatcher);
  hook_headers : list (HeaderName * list ValueMatcher);
  hook_actions : MitmHookActions;
}.


Inductive HookEvaluation :=
| NoHooksForHost
| Matched (actions : MitmHookActions)
| HookedHostNoMatch.

(** ** Parts of a hook *)

Definition compile_glob_matcher (pattern : str) (literal_separator : bool) :
    result HookErrorKind CompiledGlobMatcher :=
  glob ← ok_or (InvalidGlob pattern) (glob_matcher_build literal_separator pattern);
  Ok (mkGlob pattern glob).

Definition compile_path_matchers (path_prefixes : list str) : result HookErrorKind (list PathMatcher) :=
  collect (λ prefix,
    p ← parse_matcher_pattern prefix;
    match p with
    | PatLiteral prefix =>
        if bool_decide (prefix = []) then Err EmptyPathPrefix else Ok (Prefix prefix)
    | PatGlob glob_pattern => PathGlob <$> compile_glob_matcher glob_pattern true
    end) path_prefixes.

Definition compile_value_matchers (values : list str) : result HookErrorKind (list ValueMatcher) :=
  collect (λ value,
    p ← parse_matcher_pattern value;
    match p with
    | PatLiteral value => Ok (ExactValue value)
    | PatGlob glob_pattern => ValueGlob <$> compile_glob_matcher glob_pattern false
    end) values.

Definition parse_header_name (name : str) : result HookErrorKind HeaderName :=
  ok_or (InvalidHeaderName name) (header_name_from_bytes name).

Definition parse_secret_file (path : str) : result HookErrorKind AbsolutePathBuf :=
  if bool_decide (trim path = []) then Err SecretFileEmpty
  else if negb (is_absolute (components path)) then Err (SecretFileRelative path)
  else map_err (λ _, SecretFileRelative path) (from_absolute_path initial_locals path).

Definition validate_query_constraints (query : list (str * list str)) : result HookErrorKind unit :=
  check_all (λ '(name, values),
    normalized ← normalize_query_name name;
    if bool_decide (normalized = []) then Err QueryKeyEmpty
    else if bool_decide (values = []) then Err (QueryValuesEmpty name)
    else map_err (InvalidMatcher name) (compile_value_matchers values);; Ok tt) query.

Definition validate_header_constraints (headers : list (str * list str)) : result HookErrorKind unit :=
  check_all (λ '(name, values),
    parse_header_name name;;
    map_err (InvalidMatcher name) (compile_value_matchers values);; Ok tt) headers.

Definition validate_strip_request_headers (header_names : list str) : result HookErrorKind unit :=
  check_all (λ name, parse_header_name name;; Ok tt) header_names.

Definition validate_injected_headers (headers : list InjectedHeaderConfig) : result HookErrorKind unit :=
  check_all (λ header,
    parse_header_name (i_name header);;
    match secret_env_var header, secret_file header with
    | Some env_var, None => if bool_decide (trim env_var = []) then Err SecretEnvVarEmpty else Ok tt
    | None, Some file => parse_secret_file file;; Ok tt
    | _, _ => Err SecretSourceNotOne
    end) headers.

(** ** Validation *)

(** The checks of one hook. *)
Definition validate_hook (hook_index : nat) (hook : MitmHookConfig) : result HookError unit :=
  let m := matcher hook in
  host ← map_err (InvalidField hook_index FHost) (normalize_hook_host (h_host hook));
  methods ← map_err (InvalidField hook_index FMethods) (normalize_methods (m_methods m));
  (if bool_decide (methods = []) then Err (FieldEmpty hook_index FMethods) else Ok tt);;
  path_prefixes ← map_err (InvalidField hook_index FPathPrefixes) (compile_path_matchers (m_path_prefixes m));
  match path_prefixes with [] => Err (FieldEmpty hook_index FPathPrefixes) | _ => Ok tt end;;
  match m_body m with Some _ => Err (BodyReserved hook_index) | None => Ok tt end;;
  map_err (InvalidField hook_index FQuery) (validate_query_constraints (m_query m));;
  map_err (InvalidField hook_index FHeaders) (validate_header_constraints (m_headers m));;
  map_err (InvalidField hook_index FStrip) (validate_strip_request_headers (strip_request_headers hook));;
  map_err (InvalidField hook_index FInject) (validate_injected_headers (inject_request_headers hook));;
  if bool_decide (host = []) then Err (FieldEmpty hook_index FHost) else Ok tt.

Fixpoint validate_hooks (hook_index : nat) (hooks : list MitmHookConfig) : result HookError unit :=
  match hooks with
  | [] => Ok tt
  | hook :: hooks => validate_hook hook_index hook;; validate_hooks (S hook_index) hooks
  end.

(** [mitm] and [hooks] are the fields of the network configuration. *)
Definition validate_mitm_hook_config (mitm : bool) (hooks : list MitmHookConfig) : result HookError unit :=
  match hooks with
  | [] => Ok tt
  | _ => if negb mitm then Err HooksRequireMitm else validate_hooks 0 hooks
  end.

(** ** Compilation *)

Section resolvers.
Variable resolve_env_var : str → option str.
Variable read_secret_file : AbsolutePathBuf → result str str.

Definition compile_injected_header (header : InjectedHeaderConfig) :
    result HookErrorKind ResolvedInjectedHeader :=
  name ← parse_header_name (i_name header);
  '(secret, source) ←
    match secret_env_var header, secret_file header with
    | Some env_var, None =>
        value ← ok_or (MissingEnvVar env_var) (resolve_env_var env_var); Ok (value, EnvVar env_var)
    | None, Some file =>
        path ← parse_secret_file file;
        value ← map_err SecretFileUnread (read_secret_file path); Ok (value, File path)
    | _, _ => Err SecretSourceNotOne
    end;
  let prefix := default [] (i_prefix header) in
  value ← ok_or (InvalidHeaderValue (i_name header)) (header_value_from_str (prefix ++ secret));
  Ok (mkResolved name value source).

(** The body of the loop, up to the insertion. *)
Definition compile_hook (hook : MitmHookConfig) : result HookErrorKind MitmHook :=
  let m := matcher hook in
  host ← normalize_hook_host (h_host hook);
  methods ← normalize_methods (m_methods m);
  path_prefixes ← compile_path_matchers (m_path_prefixes m);
  query ← collect (λ '(name, values),
    name ← normalize_query_name name; values ← compile_value_matchers values; Ok (name, values)) (m_query m);
  headers ← collect (λ '(name, values),
    name ← parse_header_name name; values ← compile_value_matchers values; Ok (name, values)) (m_headers m);
  strip ← collect parse_header_name (strip_request_headers hook);
  inject ← collect (λ header,
    map_err (FailedInjected (i_name header)) (compile_injected_header header)) (inject_request_headers hook);
  Ok (mkMitmHook host methods path_prefixes query headers (mkActions strip inject)).

(** [entry(host).or_default().push(hook)]. *)
Definition push_hook (hook : MitmHook) (hooks_by_host : gmap str (list MitmHook)) :
    gmap str (list MitmHook) :=
  <[hook_host hook := default [] (hooks_by_host !! hook_host hook) ++ [hook]]> hooks_by_host.

Fixpoint compile_hooks (hooks : list MitmHookConfig) (hooks_by_host : gmap str (list MitmHook)) :
    result HookErrorKind (gmap str (list MitmHook)) :=
  match hooks with
  | [] => Ok hooks_by_host
  | hook :: hooks => h ← compile_hook hook; compile_hooks hooks (push_hook h hooks_by_host)
  end.

Definition compile_mitm_hooks_with_resolvers (mitm : bool) (hooks : list MitmHookConfig) :
    result HookError (gmap str (list MitmHook)) :=
  validate_mitm_hook_config mitm hooks;;
  map_err CompileError (compile_hooks hooks ∅).
End resolvers.

(** [compile_mitm_hooks]: a secret file's text is trimmed. *)
Definition compile_mitm_hooks (env_var : str → option str) (read_to_string : AbsolutePathBuf → result str str)
    (mitm : bool) (hooks : list MitmHookConfig) : result HookError (gmap str (list MitmHook)) :=
  compile_mitm_hooks_with_resolvers env_var (λ path, trim <$> read_to_string path) mitm hooks.

(** ** Evaluation *)

Definition path_matcher_matches (m : PathMatcher) (candidate : str) : bool :=
  match m with
  | Prefix prefix => starts_with prefix candidate
  | PathGlob glob => glob_matches (g_matcher glob) candidate
  end.
Definition value_matches (m : ValueMatcher) (candidate : str) : bool :=
  match m with
  | ExactValue value => bool_decide (value = candidate)
  | ValueGlob glob => glob_matches (g_matcher glob) candidate
  end.

Definition path_matches (path_prefixes : list PathMatcher) (path : str) : bool :=
  existsb (λ matcher, path_matcher_matches matcher path) path_prefixes.

(** The values of each name of the query, in order. *)
Definition query_values (pairs : list (str * str)) : gmap str (list str) :=
  foldl (λ actual '(name, value), <[name := default [] (actual !! name) ++ [value]]> actual) ∅ pairs.
Definition query_matches (query_constraints : list (str * list ValueMatcher)) (req : Request) : bool :=
  match query_constraints with
  | [] => true
  | _ =>
      let actual_values := query_values (form_urlencoded_parse (default [] (uri_query req))) in
      forallb (λ '(name, allowed_values),
        match actual_values !! name with
        | Some actual =>
            existsb (λ candidate, existsb (λ allowed, value_matches allowed candidate) allowed_values) actual
        | None => false
        end) query_constraints
  end.

Definition headers_match (header_constraints : list (HeaderName * list ValueMatcher)) (req : Request) : bool :=
  forallb (λ '(name, allowed_values),
    match headers_get_all name req with
    | [] => false
    | actual =>
        match allowed_values with
        | [] => true
        | _ =>
            existsb (λ value,
              match header_value_to_str value with
              | Some candidate => existsb (λ allowed, value_matches allowed candidate) allowed_values
              | None => false
              end) actual
        end
    end) header_constraints.

Definition hook_matches (hook : MitmHook) (req : Request) : bool :=
  let method := to_ascii_uppercase (req_method req) in
  if negb (existsb (λ allowed, bool_decide (allowed = method)) (hook_methods hook)) then false
  else
    let path := uri_path req in
    if negb (is_safe_for_authorization path) || negb (path_matches (hook_path_prefixes hook) path)
    then false
    else if negb (query_matches (hook_query hook) req) then false
    else headers_match (hook_headers hook) req.

Fixpoint first_match (hooks : list MitmHook) (req : Request) : HookEvaluation :=
  match hooks with
  | [] => HookedHostNoMatch
  | hook :: hooks => if hook_matches hook req then Matched (hook_actions hook) else first_match hooks req
  end.
Definition evaluate_mitm_hooks (hooks_by_host : gmap str (list MitmHook)) (host : str) (req : Request) : HookEvaluation :=
  match hooks_by_host !! normalize_host host with
  | None => NoHooksForHost
  | Some hooks => first_match hooks req
  end.
End hooks.

(** * A hook acts only where it was configured to *)

Lemma Forall2_in_r {A B} (P : A → B → Prop) l k y : Forall2 P l k → y ∈ k → ∃ x, x ∈ l ∧ P x y.
Proof.
  intros Hl [i Hi]%list_elem_of_lookup. destruct (Forall2_lookup_r _ _ _ _ _ Hl Hi) as (x & Hx & HP).
  exists x. split; [by eapply list_elem_of_lookup_2|done].
Qed.

Lemma Forall2_in_l {A B} (P : A → B → Prop) l k x : Forall2 P l k → x ∈ l → ∃ y, y ∈ k ∧ P x y.
Proof.
  intros Hl [i Hi]%list_elem_of_lookup. destruct (Forall2_lookup_l _ _ _ _ _ Hl Hi) as (y & Hy & HP).
  exists y. split; [by eapply list_elem_of_lookup_2|done].
Qed.

Section facts.
Context `{Http : HttpTypes, Globs : GlobMatchers, Env : ProcessEnv}.

(** What an entry is, as it is written: a marked or unmarked literal, or a marked glob. *)
Inductive entry_means : str → MatcherPattern → Prop :=
| means_literal q : entry_means (LITERAL_PREFIX ++ q) (PatLiteral q)
| means_glob g : g ≠ [] → entry_means (PATTERN_PREFIX ++ g) (PatGlob g)
| means_plain q : ¬ LITERAL_PREFIX `prefix_of` q → ¬ PATTERN_PREFIX `prefix_of` q → entry_means q (PatLiteral q).

Lemma parse_means entry p : parse_matcher_pattern entry = Ok p ↔ entry_means entry p.
Proof.
  unfold parse_matcher_pattern. split.
  - destruct (strip_prefix LITERAL_PREFIX entry) as [l|] eqn:Hl.
    { intros [= <-]. apply strip_prefix_Some in Hl as ->. constructor. }
    destruct (strip_prefix PATTERN_PREFIX entry) as [g|] eqn:Hg.
    + apply strip_prefix_Some in Hg as ->. case_bool_decide; [done|]. intros [= <-]. by constructor.
    + intros [= <-]. constructor; intros [k ->]; by rewrite strip_prefix_app in *.
  - intros [q|g Hg|q Hl Hp].
    + by rewrite strip_prefix_app.
    + replace (strip_prefix LITERAL_PREFIX (PATTERN_PREFIX ++ g)) with (@None str) by reflexivity.
      rewrite strip_prefix_app. by rewrite bool_decide_false.
    + destruct (strip_prefix LITERAL_PREFIX q) as [l|] eqn:E; [apply strip_prefix_Some in E as ->; by destruct Hl; exists l|].
      destruct (strip_prefix PATTERN_PREFIX q) as [l|] eqn:E'; [apply strip_prefix_Some in E' as ->; by destruct Hp; exists l|done].
Qed.

(** What an entry of the path prefixes and one of the allowed values admits. *)
Definition path_entry_admits (entry path : str) : Prop :=
  ∃ p, entry_means entry p ∧
    match p with
    | PatLiteral q => q ≠ [] ∧ q `prefix_of` path
    | PatGlob g => ∃ m, glob_matcher_build true g = Some m ∧ glob_matches m path = true
    end.
Definition value_entry_admits (entry value : str) : Prop :=
  ∃ p, entry_means entry p ∧
    match p with
    | PatLiteral q => q = value
    | PatGlob g => ∃ m, glob_matcher_build false g = Some m ∧ glob_matches m value = true
    end.

(** The query and the headers a hook asks for: each name with one of its values admitted; a
    header without values must only be there. *)
Definition query_admits (constraint : str * list str) (req : Request) : Prop :=
  ∃ value, (constraint.1, value) ∈ form_urlencoded_parse (default [] (uri_query req)) ∧
    ∃ entry, entry ∈ constraint.2 ∧ value_entry_admits entry value.
Definition header_admits (constraint : str * list str) (req : Request) : Prop :=
  ∃ name value, header_name_from_bytes constraint.1 = Some name ∧ value ∈ headers_get_all name req ∧
    (constraint.2 = [] ∨ ∃ text entry, header_value_to_str value = Some text ∧ entry ∈ constraint.2 ∧ value_entry_admits entry text).

(** The requests a hook is configured for. *)
Definition hook_admits (cfg : MitmHookConfig) (host : str) (req : Request) : Prop :=
  normalize_host (h_host cfg) = normalize_host host
  ∧ (∃ m, m ∈ m_methods (matcher cfg) ∧ to_ascii_uppercase (trim m) = to_ascii_uppercase (req_method req))
  ∧ (∃ entry, entry ∈ m_path_prefixes (matcher cfg) ∧ path_entry_admits entry (uri_path req))
  ∧ Forall (λ c, query_admits c req) (m_query (matcher cfg))
  ∧ Forall (λ c, header_admits c req) (m_headers (matcher cfg)).

Lemma Forall2_existsb {A B} (P : A → B → Prop) (f : B → bool) (Q : A → Prop) l k : Forall2 P l k →
  (∀ x y, P x y → f y = true ↔ Q x) → existsb f k = true ↔ ∃ x, x ∈ l ∧ Q x.
Proof.
  intros Hl Hf. induction Hl as [|x y l k Hxy _ IH]; simpl; [setoid_rewrite elem_of_nil; naive_solver|].
  rewrite orb_true_iff, IH, (Hf _ _ Hxy). setoid_rewrite elem_of_cons. naive_solver.
Qed.

Lemma Forall2_forallb {A B} (P : A → B → Prop) (f : B → bool) (Q : A → Prop) l k : Forall2 P l k →
  (∀ x y, P x y → f y = true ↔ Q x) → forallb f k = true ↔ Forall Q l.
Proof.
  intros Hl Hf. induction Hl as [|x y l k Hxy _ IH]; simpl; [by split|]. by rewrite andb_true_iff, IH, (Hf _ _ Hxy), Forall_cons.
Qed.

Lemma compile_path_matchers_admit entries ms path :
  compile_path_matchers entries = Ok ms →
  path_matches ms path = true ↔ ∃ entry, entry ∈ entries ∧ path_entry_admits entry path.
Proof.
  unfold compile_path_matchers, path_matches. rewrite collect_ok. intros Hms. eapply Forall2_existsb; [exact Hms|].
  intros entry m (p & Hp & Hc)%bind_ok. unfold path_entry_admits. setoid_rewrite <- parse_means. rewrite Hp. destruct p as [q|g].
  - case_bool_decide; [done|]. injection Hc as <-. simpl. rewrite starts_with_spec. naive_solver.
  - unfold compile_glob_matcher in Hc. destruct (glob_matcher_build true g) as [gm|] eqn:Hg; [|done]. injection Hc as <-. simpl.
    split; [|naive_solver]. intros Hm. exists (PatGlob g). split; [done|]. by exists gm.
Qed.

Lemma compile_value_matchers_admit entries ms value :
  compile_value_matchers entries = Ok ms →
  existsb (λ allowed, value_matches allowed value) ms = true ↔ ∃ entry, entry ∈ entries ∧ value_entry_admits entry value.
Proof.
  unfold compile_value_matchers. rewrite collect_ok. intros Hms. eapply Forall2_existsb; [exact Hms|].
  intros entry m (p & Hp & Hc)%bind_ok. unfold value_entry_admits. setoid_rewrite <- parse_means. rewrite Hp. destruct p as [q|g].
  - injection Hc as <-. simpl. rewrite bool_decide_eq_true. naive_solver.
  - unfold compile_glob_matcher in Hc. destruct (glob_matcher_build false g) as [gm|] eqn:Hg; [|done]. injection Hc as <-. simpl.
    split; [|naive_solver]. intros Hm. exists (PatGlob g). split; [done|]. by exists gm.
Qed.

(** The values collected of a name are those of the pairs. *)
Lemma query_values_spec pairs name :
  (∀ v, v ∈ default [] (query_values pairs !! name) ↔ (name, v) ∈ pairs).
Proof.
  intros v. unfold query_values. induction pairs as [|[n w] pairs IH] using rev_ind.
  { simpl. rewrite lookup_empty. simpl. by rewrite !elem_of_nil. }
  rewrite foldl_app, elem_of_app, list_elem_of_singleton. simpl. set (actual := foldl _ ∅ pairs) in *.
  destruct (decide (n = name)) as [->|Hn].
  - rewrite lookup_insert_eq. simpl. rewrite elem_of_app, list_elem_of_singleton, IH. naive_solver.
  - rewrite lookup_insert_ne by done. rewrite IH. naive_solver.
Qed.

Lemma query_matches_admit configured compiled req :
  collect (λ '(name, values),
    name ← normalize_query_name name; values ← compile_value_matchers values; Ok (name, values)) configured = Ok compiled →
  query_matches compiled req = true ↔ Forall (λ c, query_admits c req) configured.
Proof.
  rewrite collect_ok. intros Hc. set (pairs := form_urlencoded_parse (default [] (uri_query req))).
  assert (query_matches compiled req = forallb (λ '(name, allowed_values),
        match query_values pairs !! name with
        | Some actual => existsb (λ candidate, existsb (λ allowed, value_matches allowed candidate) allowed_values) actual
        | None => false
        end) compiled) as -> by by destruct compiled.
  eapply Forall2_forallb; [exact Hc|]. intros [name values] [name' ms] (n & Hn & Hm)%bind_ok. apply bind_ok in Hm as (vs & Hvs & [= <- <-]).
  assert (n = name) as -> by (unfold normalize_query_name in Hn; case_bool_decide; congruence).
  transitivity (∃ candidate, candidate ∈ default [] (query_values pairs !! name) ∧ existsb (λ allowed, value_matches allowed candidate) vs = true).
  - destruct (query_values pairs !! name) as [actual|]; simpl; [|setoid_rewrite elem_of_nil; naive_solver].
    rewrite existsb_exists. by setoid_rewrite list_elem_of_In.
  - unfold query_admits. simpl. fold pairs. by setoid_rewrite query_values_spec; setoid_rewrite (compile_value_matchers_admit _ _ _ Hvs).
Qed.

Lemma headers_match_admit configured compiled req :
  collect (λ '(name, values),
    name ← parse_header_name name; values ← compile_value_matchers values; Ok (name, values)) configured = Ok compiled →
  headers_match compiled req = true ↔ Forall (λ c, header_admits c req) configured.
Proof.
  rewrite collect_ok. intros Hc. unfold headers_match. eapply Forall2_forallb; [exact Hc|].
  intros [name values] [name' ms] (n & Hn & Hm)%bind_ok. apply bind_ok in Hm as (vs & Hvs & [= <- <-]). apply ok_or_ok in Hn.
  cbn [fst snd].
  assert (vs = [] ↔ values = []) as Hnil.
  { unfold compile_value_matchers in Hvs. apply collect_ok, Forall2_length in Hvs. rewrite <- !length_zero_iff_nil. by rewrite Hvs. }
  unfold header_admits. cbn [fst snd]. transitivity (∃ value, value ∈ headers_get_all n req ∧
    (vs = [] ∨ ∃ text, header_value_to_str value = Some text ∧ existsb (λ allowed, value_matches allowed text) vs = true)).
  - destruct (headers_get_all n req) as [|v actual]; [setoid_rewrite elem_of_nil; naive_solver|].
    destruct vs as [|m vs]; [split; [|done]; intros _; exists v; split; [by left|by left]|].
    set (fits := λ value, _). match goal with |- _ ↔ ?R => change (existsb fits (v :: actual) = true ↔ R) end. rewrite existsb_exists. setoid_rewrite <- list_elem_of_In.
    unfold fits. split.
    + intros (x & Hx & Hm). exists x. split; [done|]. right. destruct (header_value_to_str x) as [text|]; [|done]. by exists text.
    + intros (x & Hx & [?|(text & Ht & Hm)]); [done|]. exists x. by rewrite Ht.
  - setoid_rewrite Hnil. setoid_rewrite (compile_value_matchers_admit _ _ _ Hvs). rewrite Hn. naive_solver.
Qed.

Lemma normalize_methods_spec ms ns :
  normalize_methods ms = Ok ns → ns = map (λ m, to_ascii_uppercase (trim m)) ms.
Proof.
  unfold normalize_methods. rewrite collect_ok. intros Hall.
  induction Hall as [|m n ms ns Hm Hall IH]; [done|].
  cbn zeta in Hm. case_bool_decide; [done|]. by simplify_eq.
Qed.

Lemma normalize_hook_host_spec host h :
  normalize_hook_host host = Ok h → h = normalize_host host.
Proof. unfold normalize_hook_host. case_bool_decide; [done|]. case_match; congruence. Qed.

Section resolvers.
Variable resolve_env_var : str → option str.
Variable read_secret_file : AbsolutePathBuf → result str str.

(** Where the value of an injected header comes from. *)
Definition injected_from (h : InjectedHeaderConfig) (r : ResolvedInjectedHeader) : Prop :=
  header_name_from_bytes (i_name h) = Some (r_name r) ∧
  ∃ secret, header_value_from_str (default [] (i_prefix h) ++ secret) = Some (r_value r) ∧
    match r_source r with
    | EnvVar v => secret_env_var h = Some v ∧ secret_file h = None ∧ resolve_env_var v = Some secret
    | File p => secret_env_var h = None ∧ (∃ f, secret_file h = Some f ∧ parse_secret_file f = Ok p)
        ∧ read_secret_file p = Ok secret
    end.

Lemma compile_injected_header_spec h r :
  compile_injected_header resolve_env_var read_secret_file h = Ok r → injected_from h r.
Proof.
  unfold compile_injected_header. intros (name & Hn & Hc)%bind_ok. apply ok_or_ok in Hn.
  apply bind_ok in Hc as ([secret source] & Hs & Hc). apply bind_ok in Hc as (v & Hv & [= <-]).
  apply ok_or_ok in Hv. split; [done|]. exists secret. split; [done|]. simpl.
  destruct (secret_env_var h) as [ev|], (secret_file h) as [f|]; try done.
  - apply bind_ok in Hs as (w & Hw & [= <- <-]). by apply ok_or_ok in Hw.
  - apply bind_ok in Hs as (p & Hp & Hs). apply bind_ok in Hs as (w & Hw & [= <- <-]).
    split_and!; [done|eauto|]. by destruct (read_secret_file p); simplify_eq/=.
Qed.

(** What a compiled hook keeps of its configuration. *)
Lemma compile_hook_spec cfg hook :
  compile_hook resolve_env_var read_secret_file cfg = Ok hook →
  hook_host hook = normalize_host (h_host cfg)
  ∧ (∀ req, is_safe_for_authorization (uri_path req) = true →
       ∀ host, hook_host hook = normalize_host host → hook_matches hook req = true ↔ hook_admits cfg host req)
  ∧ Forall2 (λ n h, header_name_from_bytes n = Some h) (strip_request_headers cfg)
      (strip_headers (hook_actions hook))
  ∧ Forall2 injected_from (inject_request_headers cfg) (inject_headers (hook_actions hook)).
Proof.
  unfold compile_hook. intros (host & Hhost & Hc)%bind_ok. apply bind_ok in Hc as (methods & Hm & Hc).
  apply bind_ok in Hc as (prefixes & Hp & Hc). apply bind_ok in Hc as (query & Hq & Hc).
  apply bind_ok in Hc as (headers & Hh & Hc). apply bind_ok in Hc as (strip & Hs & Hc).
  apply bind_ok in Hc as (inject & Hi & [= <-]). simpl. apply normalize_hook_host_spec in Hhost as ->.
  apply normalize_methods_spec in Hm as ->. split_and!; [done| | |].
  - intros req Hsafe host Hhost. unfold hook_matches, hook_admits. cbn [hook_methods hook_path_prefixes hook_query hook_headers].
    rewrite <- (compile_path_matchers_admit _ _ _ Hp), <- (query_matches_admit _ _ _ Hq), <- (headers_match_admit _ _ _ Hh), Hsafe. simpl.
    transitivity (existsb (λ allowed, bool_decide (allowed = to_ascii_uppercase (req_method req)))
      (map (λ m, to_ascii_uppercase (trim m)) (m_methods (matcher cfg))) = true ∧ path_matches prefixes (uri_path req) = true ∧
      query_matches query req = true ∧ headers_match headers req = true).
    { destruct (existsb _ _), (path_matches _ _), (query_matches _ _); simpl; naive_solver. }
    rewrite existsb_exists. setoid_rewrite <- list_elem_of_In. setoid_rewrite list_elem_of_fmap. setoid_rewrite bool_decide_eq_true. naive_solver.
  - apply collect_ok in Hs. eapply Forall2_impl; [done|]. intros n h Hn. by apply ok_or_ok in Hn.
  - apply collect_ok in Hi. eapply Forall2_impl; [done|]. intros h r Hr.
    by apply compile_injected_header_spec, (proj1 (map_err_ok _ _ _) Hr).
Qed.

(** The map built by the loop: for each host its hooks, in the order of the
    configuration. *)
Lemma compile_hooks_spec hooks m hs :
  compile_hooks resolve_env_var read_secret_file hooks m = Ok hs →
  ∃ cs, collect (compile_hook resolve_env_var read_secret_file) hooks = Ok cs ∧
    ∀ h, default [] (hs !! h) = default [] (m !! h) ++ filter (λ c, hook_host c = h) cs
      ∧ (hs !! h = Some [] → m !! h = Some []).
Proof.
  revert m. induction hooks as [|cfg hooks IH]; intros m; simpl.
  - intros [= <-]. exists []. split; [done|]. intros h. simpl. by rewrite app_nil_r.
  - intros (c & Hc & Hrest)%bind_ok. apply IH in Hrest as (cs & Hcs & Hspec). exists (c :: cs).
    split; [by rewrite Hc; simpl; rewrite Hcs|]. intros h. destruct (Hspec h) as [Hd He].
    unfold push_hook in *. destruct (decide (hook_host c = h)) as [Hh|Hh].
    + subst h. rewrite lookup_insert_eq in Hd, He. rewrite filter_cons_True by done. split.
      * rewrite Hd. simpl. by rewrite <- app_assoc.
      * intros Hs%He. injection Hs as Hs. by destruct (default [] (m !! hook_host c)).
    + rewrite lookup_insert_ne in Hd, He by done. by rewrite filter_cons_False.
Qed.
End resolvers.

(** ** Evaluation *)

(** The reference: the compiled hooks of the configuration, in order. *)
Definition evaluate_reference (cs : list MitmHook) (host : str) (req : Request) : HookEvaluation :=
  match filter (λ c, hook_host c = normalize_host host) cs with
  | [] => NoHooksForHost
  | l => first_match l req
  end.

Lemma compile_mitm_hooks_ok env files mitm hooks hs :
  compile_mitm_hooks env files mitm hooks = Ok hs →
  validate_mitm_hook_config mitm hooks = Ok tt ∧
  compile_hooks env (λ path, trim <$> files path) hooks ∅ = Ok hs.
Proof.
  unfold compile_mitm_hooks, compile_mitm_hooks_with_resolvers.
  intros ([] & Hv & Hc)%bind_ok. by apply map_err_ok in Hc.
Qed.

(** Looking the host up in the compiled map and trying its hooks is trying, in the order
    of the configuration, the hooks written for that host; a host without hooks is told
    from one whose hooks all refuse. *)
Theorem evaluate_in_order env files mitm hooks hs host req :
  compile_mitm_hooks env files mitm hooks = Ok hs →
  ∃ cs, collect (compile_hook env (λ path, trim <$> files path)) hooks = Ok cs ∧
    evaluate_mitm_hooks hs host req = evaluate_reference cs host req.
Proof.
  intros [_ (cs & Hcs & Hspec)%compile_hooks_spec]%compile_mitm_hooks_ok. exists cs. split; [done|].
  destruct (Hspec (normalize_host host)) as [Hd He]. rewrite lookup_empty in Hd, He. simpl in Hd.
  unfold evaluate_mitm_hooks, evaluate_reference. rewrite <- Hd.
  destruct (hs !! normalize_host host) as [[|c l]|]; [|done..]. discriminate (He eq_refl).
Qed.

Lemma first_match_Matched l req actions :
  first_match l req = Matched actions →
  ∃ before c after, l = before ++ c :: after ∧ Forall (λ c, hook_matches c req = false) before ∧
    hook_matches c req = true ∧ hook_actions c = actions.
Proof.
  induction l as [|c l IH]; simpl; [done|]. destruct (hook_matches c req) eqn:Hm.
  - intros [= <-]. by exists [], c, l.
  - intros (before & c' & after & -> & ? & ? & ?)%IH. exists (c :: before), c', after. split_and!; [done|by constructor|done..].
Qed.

Lemma hook_matches_safe hook req : hook_matches hook req = true → is_safe_for_authorization (uri_path req) = true.
Proof. unfold hook_matches. destruct (negb (existsb _ _)); [done|]. by destruct (is_safe_for_authorization _). Qed.

(** A filtered list split at an element is the list split at it. *)
Lemma filter_first_split {A} (P : A → Prop) `{∀ x, Decision (P x)} l before c after : filter P l = before ++ c :: after →
  ∃ l1 l2, l = l1 ++ c :: l2 ∧ filter P l1 = before.
Proof.
  revert before. induction l as [|x l IH]; intros before; [by destruct before|]. rewrite filter_cons. case_decide as Hx.
  - destruct before as [|y before]; simpl; intros [= -> Hf].
    + by exists [], l.
    + apply IH in Hf as (l1 & l2 & -> & <-). exists (y :: l1), l2. split; [done|]. by rewrite filter_cons_True.
  - intros (l1 & l2 & -> & <-)%IH. exists (x :: l1), l2. split; [done|]. by rewrite filter_cons_False.
Qed.

(** A hook's actions are applied only to a request it was configured for: same host, one of
    its methods, a path one of its entries admits and that has a single reading, and the
    query and headers it asks for; it is the first such hook of the configuration.  The
    literal prefix that admitted the path, when it has no escape, is a prefix of whatever
    the upstream server makes of the path.  The headers stripped are those the hook names,
    and those injected come from the sources it names. *)
Lemma hook_confined env files mitm hooks hs host req actions :
  compile_mitm_hooks env files mitm hooks = Ok hs →
  evaluate_mitm_hooks hs host req = Matched actions →
  ∃ before cfg after, hooks = before ++ cfg :: after ∧ mitm = true
  ∧ Forall (λ c, ¬ hook_admits c host req) before ∧ hook_admits cfg host req
  ∧ (∀ entry q rs p, entry ∈ m_path_prefixes (matcher cfg) → path_entry_admits entry (uri_path req) →
       entry_means entry (PatLiteral q) → c_percent ∉ q → read_all (uri_path req) rs = Some p → q `prefix_of` p)
  ∧ (∃ d, percent_decode (uri_path req) = Some d ∧
      ∀ rs, read_all (uri_path req) rs = Some (if decide (Decode ∈ rs) then d else uri_path req))
  ∧ Forall2 (λ n h, header_name_from_bytes n = Some h) (strip_request_headers cfg) (strip_headers actions)
  ∧ Forall2 (injected_from env (λ path, trim <$> files path)) (inject_request_headers cfg) (inject_headers actions).
Proof.
  intros [Hv (cs & Hcs & Hspec)%compile_hooks_spec]%compile_mitm_hooks_ok He.
  destruct (Hspec (normalize_host host)) as [Hd _]. rewrite lookup_empty in Hd. simpl in Hd.
  unfold evaluate_mitm_hooks in He. destruct (hs !! normalize_host host) as [l|] eqn:Hl; [|done].
  simpl in Hd. subst l. apply first_match_Matched in He as (fb & c & fa & Hf & Hbefore & Hm & <-).
  assert (hook_host c = normalize_host host) as Hhost.
  { assert (c ∈ filter (λ c, hook_host c = normalize_host host) cs) as Hin by (rewrite Hf; set_solver).
    by apply list_elem_of_filter in Hin as [? _]. }
  apply filter_first_split in Hf as (cb & ca & -> & <-). apply collect_ok, Forall2_app_inv_r in Hcs as (before & rest & Hcb & Hrest & ->).
  apply Forall2_cons_inv_r in Hrest as (cfg & after & Hcomp & _ & ->).
  apply hook_matches_safe in Hm as Hsafe. apply compile_hook_spec in Hcomp as (Hh & Hadmit & Hstrip & Hinject).
  exists before, cfg, after. split; [done|]. split.
  { destruct before; by destruct mitm. }
  split; [|split; [by apply Hadmit|split; [|split; [by apply safe_path_reads|done]]]].
  - apply Forall_forall. intros x Hx Hax. destruct (Forall2_in_l _ _ _ _ Hcb Hx) as (cx & Hcx & Hcompx).
    apply compile_hook_spec in Hcompx as (Hhx & Hadx & _). assert (hook_host cx = normalize_host host) as Hhostx by (rewrite Hhx; apply Hax).
    rewrite Forall_forall in Hbefore. specialize (Hbefore cx ltac:(by apply list_elem_of_filter)).
    rewrite <- (Hadx req Hsafe host Hhostx), Hbefore in Hax. done.
  - intros entry q rs p _ (x & Hx & Had) Hq Hesc Hread. rewrite <- parse_means in Hx, Hq. rewrite Hx in Hq. injection Hq as ->.
    eapply safe_path_prefix; [done| |done..]. apply Had.
Qed.
End facts.
