(* ===== verification/NetConfig.v ===== *)
(** * NetConfig: the network settings and their domain permissions
    ([network-proxy/src/config.rs])

    The settings of the credential broker are an interface. *)
From S2P Require Import Prelude RustStr MitmHook.

Inductive NetworkDomainPermission := PermNone | PermAllow | PermDeny.

#[export] Instance NetworkDomainPermission_eq_dec : EqDecision NetworkDomainPermission.
Proof. solve_decision. Defined.

(** The order of the variants. *)
Definition permission_rank (p : NetworkDomainPermission) : nat :=
  match p with PermNone => 0 | PermAllow => 1 | PermDeny => 2 end.

Record NetworkDomainPermissionEntry := mkEntry {
  pattern : str;
  permission : NetworkDomainPermission;
}.

#[export] Instance NetworkDomainPermissionEntry_eq_dec : EqDecision NetworkDomainPermissionEntry.
Proof. solve_decision. Defined.

(** [NetworkDomainPermissions] is the list of its entries. *)
Abbreviation NetworkDomainPermissions := (list NetworkDomainPermissionEntry) (only parsing).

(** The loop of [effective_entries]: the patterns in the order they first occur, and the
    permission of each. *)
Definition effective_step (acc : list str * gmap str NetworkDomainPermission)
    (entry : NetworkDomainPermissionEntry) : list str * gmap str NetworkDomainPermission :=
  let '(order, effective) := acc in
  match effective !! pattern entry with
  | None => (order ++ [pattern entry], <[pattern entry := permission entry]> effective)
  | Some p =>
      (order, if permission_rank p <? permission_rank (permission entry)
              then <[pattern entry := permission entry]> effective else effective)
  end.

(** [filter_map] with [remove]. *)
Fixpoint take_effective (order : list str) (effective : gmap str NetworkDomainPermission) :
    list NetworkDomainPermissionEntry :=
  match order with
  | [] => []
  | p :: order =>
      match effective !! p with
      | Some perm => mkEntry p perm :: take_effective order (delete p effective)
      | None => take_effective order effective
      end
  end.
Definition effective_entries (entries : NetworkDomainPermissions) : list NetworkDomainPermissionEntry :=
  let '(order, effective) := foldl effective_step ([], ∅) entries in take_effective order effective.

Inductive NetworkMode := Limited | Full.

#[export] Instance NetworkMode_eq_dec : EqDecision NetworkMode.
Proof. solve_decision. Defined.

Definition allows_method (mode : NetworkMode) (method : str) : bool :=
  match mode with
  | Full => true
  | Limited => bool_decide (method ∈ [lit "GET"; lit "HEAD"; lit "OPTIONS"])
  end.

Inductive NetworkUnixSocketPermission := SocketAllow | SocketDeny.

#[export] Instance NetworkUnixSocketPermission_eq_dec : EqDecision NetworkUnixSocketPermission.
Proof. solve_decision. Defined.

(** What the policy only carries along: the settings of the credential broker but its
    switch, which are those of [credential_broker.rs]. *)
Class CredentialBroker := {
  CredentialSettings : Type;
  CredentialSettings_eq_dec :: EqDecision CredentialSettings;
}.

Section config.
Context `{HttpTypes, CredentialBroker}.

(** [credentials] stands for the fields of the credential broker but its switch.  A
    [BTreeMap] of unix sockets is an association list in key order. *)
Record NetworkProxyConfig := mkConfig {
  enabled : bool;
  proxy_url : str;
  enable_socks5 : bool;
  socks_url : str;
  enable_socks5_udp : bool;
  allow_upstream_proxy : bool;
  dangerously_allow_non_loopback_proxy : bool;
  dangerously_allow_all_unix_sockets : bool;
  mode : NetworkMode;
  domains : option NetworkDomainPermissions;
  unix_sockets : option (list (str * NetworkUnixSocketPermission));
  allow_local_binding : bool;
  mitm : bool;
  credential_broker : bool;
  credentials : CredentialSettings;
  mitm_hooks : list MitmHookConfig;
}.

#[export] Instance NetworkProxyConfig_eq_dec : EqDecision NetworkProxyConfig.
Proof. solve_decision. Defined.

Definition set_domains ds c := mkConfig (enabled c) (proxy_url c) (enable_socks5 c) (socks_url c)
  (enable_socks5_udp c) (allow_upstream_proxy c) (dangerously_allow_non_loopback_proxy c)
  (dangerously_allow_all_unix_sockets c) (mode c) ds (unix_sockets c) (allow_local_binding c)
  (mitm c) (credential_broker c) (credentials c) (mitm_hooks c).
Definition set_mode m c := mkConfig (enabled c) (proxy_url c) (enable_socks5 c) (socks_url c)
  (enable_socks5_udp c) (allow_upstream_proxy c) (dangerously_allow_non_loopback_proxy c)
  (dangerously_allow_all_unix_sockets c) m (domains c) (unix_sockets c) (allow_local_binding c)
  (mitm c) (credential_broker c) (credentials c) (mitm_hooks c).
Definition set_enabled b c := mkConfig b (proxy_url c) (enable_socks5 c) (socks_url c)
  (enable_socks5_udp c) (allow_upstream_proxy c) (dangerously_allow_non_loopback_proxy c)
  (dangerously_allow_all_unix_sockets c) (mode c) (domains c) (unix_sockets c)
  (allow_local_binding c) (mitm c) (credential_broker c) (credentials c) (mitm_hooks c).
Definition set_credential_broker b c := mkConfig (enabled c) (proxy_url c) (enable_socks5 c)
  (socks_url c) (enable_socks5_udp c) (allow_upstream_proxy c)
  (dangerously_allow_non_loopback_proxy c) (dangerously_allow_all_unix_sockets c) (mode c)
  (domains c) (unix_sockets c) (allow_local_binding c) (mitm c) b (credentials c) (mitm_hooks c).

Definition domain_entries (p : NetworkDomainPermission) (c : NetworkProxyConfig) : option (list str) :=
  entries ← domains c;
  let entries := map pattern (filter (λ entry, permission entry = p) (effective_entries entries)) in
  if bool_decide (entries = []) then None else Some entries.
Definition allowed_domains (c : NetworkProxyConfig) : option (list str) := domain_entries PermAllow c.
Definition denied_domains (c : NetworkProxyConfig) : option (list str) := domain_entries PermDeny c.

Definition allow_unix_sockets (c : NetworkProxyConfig) : list str :=
  match unix_sockets c with
  | Some entries => map fst (filter (λ kv, kv.2 = SocketAllow) entries)
  | None => []
  end.

(** [(!entries.is_empty()).then_some(entries)]. *)
Definition some_entries (entries : NetworkDomainPermissions) : option NetworkDomainPermissions :=
  if bool_decide (entries = []) then None else Some entries.

Definition upsert_domain_permission (host : str) (p : NetworkDomainPermission) (normalize : str → str)
    (c : NetworkProxyConfig) : NetworkProxyConfig :=
  let entries := default [] (domains c) in
  let normalized_host := normalize host in
  let entries := filter (λ entry, normalize (pattern entry) ≠ normalized_host) entries in
  let entries := entries ++ [mkEntry host p] in
  set_domains (some_entries entries) c.

(** The loop of [set_domain_entries]. *)
Definition add_entry (p : NetworkDomainPermission) (entries : NetworkDomainPermissions) (entry : str) :
    NetworkDomainPermissions :=
  if existsb (λ existing, bool_decide (pattern existing = entry ∧ permission existing = p)) entries
  then entries else entries ++ [mkEntry entry p].
Definition set_domain_entries (new : list str) (p : NetworkDomainPermission) (c : NetworkProxyConfig) :
    NetworkProxyConfig :=
  let entries := default [] (domains c) in
  let entries := filter (λ entry, permission entry ≠ p) entries in
  set_domains (some_entries (foldl (add_entry p) entries new)) c.
Definition set_allowed_domains (new : list str) (c : NetworkProxyConfig) : NetworkProxyConfig :=
  set_domain_entries new PermAllow c.
Definition set_denied_domains (new : list str) (c : NetworkProxyConfig) : NetworkProxyConfig :=
  set_domain_entries new PermDeny c.
End config.

(** * The permission of each domain *)

(** The permission of a pattern: the strongest its entries give. *)
Definition effective_for (es : list NetworkDomainPermissionEntry) (p : str) (perm : NetworkDomainPermission) : Prop :=
  mkEntry p perm ∈ es ∧
  ∀ perm', mkEntry p perm' ∈ es → permission_rank perm' ≤ permission_rank perm.

Lemma permission_rank_inj a b : permission_rank a = permission_rank b → a = b.
Proof. by destruct a, b. Qed.

Lemma effective_for_unique es p a b : effective_for es p a → effective_for es p b → a = b.
Proof.
  intros [Ha Ha'] [Hb Hb']. apply permission_rank_inj.
  apply Ha' in Hb. apply Hb' in Ha. lia.
Qed.

(** The loop, for one pattern. *)
Definition strongest_step (p : str) (acc : option NetworkDomainPermission) (e : NetworkDomainPermissionEntry) :
    option NetworkDomainPermission :=
  if bool_decide (pattern e = p) then
    match acc with
    | None => Some (permission e)
    | Some q => Some (if permission_rank q <? permission_rank (permission e) then permission e else q)
    end
  else acc.
Definition strongest (es : list NetworkDomainPermissionEntry) (p : str) : option NetworkDomainPermission :=
  foldl (strongest_step p) None es.

Lemma strongest_snoc es e p : strongest (es ++ [e]) p = strongest_step p (strongest es p) e.
Proof. unfold strongest. by rewrite foldl_app. Qed.

Lemma strongest_spec es p :
  match strongest es p with
  | Some perm => effective_for es p perm
  | None => ∀ perm, mkEntry p perm ∉ es
  end.
Proof.
  induction es as [|[q qp] es IH] using rev_ind; [intros perm; apply not_elem_of_nil|].
  rewrite strongest_snoc. unfold strongest_step, effective_for in *. simpl.
  assert (∀ perm, mkEntry p perm ∈ es ++ [mkEntry q qp] ↔
    mkEntry p perm ∈ es ∨ mkEntry p perm = mkEntry q qp) as Hin.
  { intros perm. by rewrite elem_of_app, list_elem_of_singleton. }
  case_bool_decide as Hq; destruct (strongest es p) as [r|]; setoid_rewrite Hin.
  - subst q. destruct IH as [Hr Hmax]. destruct (Nat.ltb_spec (permission_rank r) (permission_rank qp)).
    + split; [by right|]. intros perm' [Hp|[= ->]]; [|done]. apply Hmax in Hp. lia.
    + split; [by left|]. intros perm' [Hp|[= ->]]; auto.
  - subst q. split; [by right|]. intros perm' [Hp|[= ->]]; [by apply IH in Hp|done].
  - destruct IH as [Hr Hmax]. split; [by left|]. intros perm' [Hp|[= <- _]]; [auto|done].
  - intros perm [Hp|[= <- _]]; [by apply IH in Hp|done].
Qed.

Lemma strongest_iff es p perm : strongest es p = Some perm ↔ effective_for es p perm.
Proof.
  pose proof (strongest_spec es p) as Hs. split; [by intros E; rewrite E in Hs|].
  intros He. destruct (strongest es p) as [r|]; [f_equal; by eapply effective_for_unique|].
  destruct He as [Hin _]. by apply Hs in Hin.
Qed.

(** The state of the loop after the entries [es]. *)
Definition effective_inv (es : list NetworkDomainPermissionEntry)
    (acc : list str * gmap str NetworkDomainPermission) : Prop :=
  NoDup acc.1 ∧ (∀ p, p ∈ acc.1 ↔ is_Some (acc.2 !! p)) ∧ ∀ p, acc.2 !! p = strongest es p.

Lemma effective_step_inv es e acc :
  effective_inv es acc → effective_inv (es ++ [e]) (effective_step acc e).
Proof.
  destruct acc as [order eff]. intros (Hnd & Hdom & Heff). unfold effective_step. simpl in *.
  assert (∀ v, (∀ p, strongest (es ++ [e]) p = if decide (pattern e = p) then Some v else strongest es p) →
    ∀ p, <[pattern e:=v]> eff !! p = strongest (es ++ [e]) p) as Hins.
  { intros v Hv p. rewrite Hv. case_decide as Hp; [subst; by rewrite lookup_insert_eq|].
    by rewrite lookup_insert_ne, Heff. }
  assert (∀ p, strongest (es ++ [e]) p = if decide (pattern e = p) then strongest_step p (strongest es p) e
    else strongest es p) as Hst.
  { intros p. rewrite strongest_snoc. unfold strongest_step. case_decide as Hp; [done|].
    by rewrite bool_decide_eq_false_2. }
  destruct (eff !! pattern e) as [q|] eqn:Hq.
  - assert (∀ r, r = (if permission_rank q <? permission_rank (permission e) then permission e else q) →
      ∀ p, strongest (es ++ [e]) p = if decide (pattern e = p) then Some r else strongest es p) as Hr.
    { intros r -> p. rewrite Hst. case_decide as Hp; [|done]. subst p. unfold strongest_step.
      by rewrite bool_decide_eq_true_2, <- Heff, Hq. }
    destruct (permission_rank q <? permission_rank (permission e)).
    + split_and!; simpl; [done| |auto].
      intros p. rewrite Hdom, lookup_insert_is_Some'. split; [by right|].
      intros [<-|?]; [by rewrite Hq; eauto|done].
    + split_and!; simpl; [done..|]. intros p. rewrite (Hr q) by done. case_decide; [by subst|auto].
  - split_and!; simpl.
    + apply NoDup_app. split_and!; [done| |apply NoDup_singleton].
      intros p Hp ->%list_elem_of_singleton. apply Hdom in Hp as [? Hp]. congruence.
    + intros p. rewrite elem_of_app, list_elem_of_singleton, Hdom, lookup_insert_is_Some'. naive_solver.
    + apply Hins. intros p. rewrite Hst. case_decide as Hp; [|done]. subst p. unfold strongest_step.
      by rewrite bool_decide_eq_true_2, <- Heff, Hq.
Qed.

Lemma effective_fold_inv es : effective_inv es (foldl effective_step ([], ∅) es).
Proof.
  induction es as [|e es IH] using rev_ind.
  - split_and!; [constructor| |]; intros p; simpl; rewrite lookup_empty; [|done].
    split; [by intros ?%not_elem_of_nil|by intros [? ?]].
  - rewrite foldl_app. by apply effective_step_inv.
Qed.

Lemma take_effective_elem order eff e :
  NoDup order → e ∈ take_effective order eff ↔ pattern e ∈ order ∧ eff !! pattern e = Some (permission e).
Proof.
  intros Hnd. revert eff. induction Hnd as [|p order Hp Hnd IH]; intros eff; simpl.
  - rewrite !elem_of_nil. naive_solver.
  - destruct (eff !! p) as [perm|] eqn:Hperm; rewrite ?elem_of_cons, ?IH, ?elem_of_cons.
    + destruct e as [q qp]. simpl. destruct (decide (q = p)) as [->|Hq].
      * rewrite lookup_delete_eq. split; [intros [[= ->]|[_ ?]]; auto; done|].
        intros [_ Hqp]. left. f_equal. congruence.
      * rewrite lookup_delete_ne by done. split; [intros [[= ? ?]|[? ?]]; [done|]; auto|].
        intros [[?|?] ?]; [done|]. auto.
    + split; [intros [? ?]; auto|]. intros [[Heq|?] ?]; [|done]. congruence.
Qed.

(** The effective entries: one per pattern, with the strongest permission its entries
    give, deny winning over allow. *)
Lemma effective_entries_spec es e :
  e ∈ effective_entries es ↔ effective_for es (pattern e) (permission e).
Proof.
  unfold effective_entries. pose proof (effective_fold_inv es) as (Hnd & Hdom & Heff).
  destruct (foldl effective_step ([], ∅) es) as [order eff]. simpl in *.
  rewrite take_effective_elem by done. rewrite Hdom, Heff, strongest_iff. split; [by intros [_ ?]|].
  intros He. split; [|done]. apply strongest_iff in He as ->. eauto.
Qed.

Section config.
Context `{HttpTypes, CredentialBroker}.

Definition listed (p : NetworkDomainPermission) (c : NetworkProxyConfig) : list str :=
  default [] (domain_entries p c).

Lemma listed_spec p c d : d ∈ listed p c ↔ effective_for (default [] (domains c)) d p.
Proof.
  unfold listed, domain_entries. destruct (domains c) as [es|]; simpl.
  - assert (d ∈ map pattern (filter (λ entry, permission entry = p) (effective_entries es)) ↔
      effective_for es d p) as Hd.
    { rewrite list_elem_of_fmap. setoid_rewrite list_elem_of_filter. setoid_rewrite effective_entries_spec.
      split; [by intros (e & -> & <- & He)|]. intros He. by exists (mkEntry d p). }
    case_bool_decide as Hn; simpl; [|done]. rewrite Hn in Hd. rewrite elem_of_nil in *. done.
  - split; [by intros ?%not_elem_of_nil|]. by intros [?%not_elem_of_nil _].
Qed.

(** A domain is in at most one of the lists. *)
Lemma listed_disjoint p q c d : d ∈ listed p c → d ∈ listed q c → p = q.
Proof. rewrite !listed_spec. apply effective_for_unique. Qed.

Lemma domain_entries_None p c : domain_entries p c = None ↔ ∀ d, d ∉ listed p c.
Proof.
  unfold listed, domain_entries. destruct (domains c) as [es|]; simpl.
  - case_bool_decide as Hn; simpl; [split; [intros _ d; apply not_elem_of_nil|done]|].
    split; [done|]. intros Hd. destruct (map _ _) as [|x l] eqn:E; [done|]. exfalso. apply (Hd x). by left.
  - split; [intros _ d; apply not_elem_of_nil|done].
Qed.

Lemma domain_entries_Some p c l : domain_entries p c = Some l → listed p c = l.
Proof. unfold listed. by intros ->. Qed.

Lemma default_some_entries es : default [] (some_entries es) = es.
Proof. unfold some_entries. by case_bool_decide. Qed.

(** [upsert_domain_permission]: the entries of the host are replaced by one. *)
Lemma upsert_entries host p normalize c e :
  e ∈ default [] (domains (upsert_domain_permission host p normalize c)) ↔
  (normalize (pattern e) ≠ normalize host ∧ e ∈ default [] (domains c)) ∨ e = mkEntry host p.
Proof.
  unfold upsert_domain_permission, set_domains. simpl. rewrite default_some_entries.
  by rewrite elem_of_app, list_elem_of_filter, list_elem_of_singleton.
Qed.

Lemma upsert_listed host p q normalize c d :
  d ∈ listed q (upsert_domain_permission host p normalize c) ↔
  if decide (normalize d = normalize host) then d = host ∧ q = p else d ∈ listed q c.
Proof.
  case_decide as Hd; rewrite !listed_spec; unfold effective_for; setoid_rewrite upsert_entries; simpl.
  - split; [by intros [[[? ?]|[= -> ->]] _]|]. intros [-> ->]. split; [by right|].
    by intros perm' [[? ?]|[= ->]].
  - assert (∀ r, mkEntry d r = mkEntry host p ↔ False) as Hne by naive_solver.
    setoid_rewrite Hne. split.
    + intros [[[_ Hin]|[]] Hm]. split; [done|]. intros perm' Hp. apply Hm. by left.
    + intros [Hin Hm]. split; [by left|]. intros perm' [[_ Hp]|[]]. by apply Hm.
Qed.

(** [set_domain_entries], for a list and permissions it does not hold. *)
Lemma add_entry_elem p es new e :
  e ∈ foldl (add_entry p) es new ↔ e ∈ es ∨ (permission e = p ∧ pattern e ∈ new).
Proof.
  revert es. induction new as [|d new IH]; intros es; simpl.
  - rewrite elem_of_nil. naive_solver.
  - rewrite IH. unfold add_entry. destruct e as [q qp]. simpl.
    destruct (existsb _ es) eqn:He; rewrite ?elem_of_app, ?list_elem_of_singleton, !elem_of_cons.
    + apply existsb_exists in He as ([r rp] & Hr%list_elem_of_In & Heq%bool_decide_eq_true).
      simpl in Heq. destruct Heq as [-> ->]. naive_solver.
    + naive_solver.
Qed.

Lemma set_domain_entries_elem new p c e :
  e ∈ default [] (domains (set_domain_entries new p c)) ↔
  (permission e ≠ p ∧ e ∈ default [] (domains c)) ∨ (permission e = p ∧ pattern e ∈ new).
Proof.
  unfold set_domain_entries, set_domains. simpl. rewrite default_some_entries, add_entry_elem.
  by rewrite list_elem_of_filter.
Qed.
End config.
