(* ===== verification/NetState.v ===== *)
(** * NetState: what the network proxy lets through
    ([network-proxy/src/state.rs], the policy part of [runtime.rs])

    The validation of a configuration against managed constraints, the compiled state,
    the decision on a host, and the updates of the domain lists, which other tasks may
    interleave with. *)
From S2P Require Import Prelude RustInt RustStr PatchErrors UnixPath AbsolutePath IpAddr NetPolicy NetPolicyFacts MitmHook NetConfig.

(** The certificates of [mitm.rs], and where the hooks' secrets are read from. *)
Class MitmEnv := {
  MitmState : Type;
  mitm_state_new : bool → result str MitmState;
  env_var : str → option str;
  read_to_string : AbsolutePathBuf → result str str;
}.

Record NetworkProxyConstraints := mkConstraints {
  c_enabled : option bool;
  c_mode : option NetworkMode;
  c_allow_upstream_proxy : option bool;
  c_dangerously_allow_non_loopback_proxy : option bool;
  c_dangerously_allow_all_unix_sockets : option bool;
  c_allowed_domains : option (list str);
  c_allowlist_expansion_enabled : option bool;
  c_denied_domains : option (list str);
  c_denylist_expansion_enabled : option bool;
  c_allow_unix_sockets : option (list str);
  c_allow_local_binding : option bool;
}.

#[export] Instance NetworkProxyConstraints_eq_dec : EqDecision NetworkProxyConstraints.
Proof. solve_decision. Defined.

(** A text of an error: written out, or the [Debug] text of a value. *)
Inductive shown :=
| Shown (text : str)
| ShownMode (m : NetworkMode) (suffix : str)
| ShownList (entries : list str)
| ShownSet (entries : gset str)
| ShownHook (e : HookError).

Inductive NetworkProxyConstraintError := InvalidValue (field_name : str) (candidate allowed : shown).

Definition network_mode_rank (m : NetworkMode) : nat := match m with Limited => 0 | Full => 1 end.

(** The lower-case entries of a list, as a set. *)
Definition lower_set (entries : list str) : gset str := list_to_set (map to_ascii_lowercase entries).

Definition validate_non_global_wildcard_domain_patterns (field_name : str) (patterns : list str) :
    result NetworkProxyConstraintError unit :=
  match list_find (λ p, is_global_wildcard_domain_pattern p = true) patterns with
  | Some (_, p) =>
      Err (InvalidValue field_name (Shown (trim p))
             (Shown (lit "exact hosts or scoped wildcards like *.example.com or **.example.com")))
  | None => Ok tt
  end.

(** A switch that managed configuration may turn off. *)
Definition validate_switch (field_name : str) (candidate forbidden : bool) :
    result NetworkProxyConstraintError unit :=
  if candidate && forbidden then
    Err (InvalidValue field_name (Shown (lit "true")) (Shown (lit "false (disabled by managed config)")))
  else Ok tt.

Definition is_false (o : option bool) : bool := match o with Some false => true | _ => false end.

Section constraints.
Context `{UrlHost, HttpTypes, GlobMatchers, CredentialBroker, ProcessEnv}.

Definition invalid_mitm_hook_configuration (err : HookError) : NetworkProxyConstraintError :=
  InvalidValue (lit "network.mitm_hooks") (ShownHook err) (Shown (lit "valid MITM hook configuration")).

(** The allowed domains under a managed list. *)
Definition validate_allowed_domains (expansion : option bool) (managed candidate : list str)
    (denied_domain_overrides : gset str) : result NetworkProxyConstraintError unit :=
  validate_non_global_wildcard_domain_patterns (lit "network.allowed_domains") managed;;
  match expansion with
  | Some true =>
      let required_set := lower_set managed in
      let missing := required_set ∖ lower_set candidate ∖ denied_domain_overrides in
      if bool_decide (missing = ∅) then Ok tt
      else Err (InvalidValue (lit "network.allowed_domains")
                  (Shown (lit "missing managed allowed_domains entries")) (ShownSet missing))
  | Some false =>
      let expected_set := lower_set managed ∖ denied_domain_overrides in
      if bool_decide (lower_set candidate = expected_set) then Ok tt
      else Err (InvalidValue (lit "network.allowed_domains") (ShownList candidate)
                  (Shown (lit "must match managed allowed_domains")))
  | None =>
      let managed_patterns := map parse_for_constraints managed in
      let invalid := filter (λ entry,
        existsb (λ managed, allows managed (parse_for_constraints entry)) managed_patterns = false)
        candidate in
      if bool_decide (invalid = []) then Ok tt
      else Err (InvalidValue (lit "network.allowed_domains") (ShownList invalid)
                  (Shown (lit "subset of managed allowed_domains")))
  end.

Definition validate_denied_domains (expansion : option bool) (managed candidate : list str) :
    result NetworkProxyConstraintError unit :=
  validate_non_global_wildcard_domain_patterns (lit "network.denied_domains") managed;;
  let required_set := lower_set managed in
  match expansion with
  | Some false =>
      if bool_decide (lower_set candidate = required_set) then Ok tt
      else Err (InvalidValue (lit "network.denied_domains") (ShownList candidate)
                  (Shown (lit "must match managed denied_domains")))
  | Some true | None =>
      let missing := required_set ∖ lower_set candidate in
      if bool_decide (missing = ∅) then Ok tt
      else Err (InvalidValue (lit "network.denied_domains")
                  (Shown (lit "missing managed denied_domains entries")) (ShownSet missing))
  end.

Definition validate_unix_sockets (managed candidate : list str) :
    result NetworkProxyConstraintError unit :=
  let invalid := filter (λ entry, to_ascii_lowercase entry ∉ lower_set managed) candidate in
  if bool_decide (invalid = []) then Ok tt
  else Err (InvalidValue (lit "network.allow_unix_sockets") (ShownList invalid)
              (Shown (lit "subset of managed allow_unix_sockets"))).

Definition validate_policy_against_constraints (config : NetworkProxyConfig)
    (constraints : NetworkProxyConstraints) : result NetworkProxyConstraintError unit :=
  let config_allowed_domains := default [] (allowed_domains config) in
  let config_denied_domains := default [] (denied_domains config) in
  let denied_domain_overrides := lower_set config_denied_domains in
  map_err invalid_mitm_hook_configuration (validate_mitm_hook_config (mitm config) (mitm_hooks config));;
  validate_non_global_wildcard_domain_patterns (lit "network.denied_domains") config_denied_domains;;
  match c_enabled constraints with
  | Some max_enabled => validate_switch (lit "network.enabled") (enabled config) (negb max_enabled)
  | None => Ok tt
  end;;
  match c_mode constraints with
  | Some max_mode =>
      if network_mode_rank max_mode <? network_mode_rank (mode config) then
        Err (InvalidValue (lit "network.mode") (ShownMode (mode config) [])
               (ShownMode max_mode (lit " or more restrictive")))
      else Ok tt
  | None => Ok tt
  end;;
  validate_switch (lit "network.allow_upstream_proxy") (allow_upstream_proxy config)
    (is_false (c_allow_upstream_proxy constraints));;
  validate_switch (lit "network.dangerously_allow_non_loopback_proxy")
    (dangerously_allow_non_loopback_proxy config)
    (is_false (c_dangerously_allow_non_loopback_proxy constraints));;
  let allow_all_unix_sockets :=
    default (bool_decide (c_allow_unix_sockets constraints = None))
      (c_dangerously_allow_all_unix_sockets constraints) in
  validate_switch (lit "network.dangerously_allow_all_unix_sockets")
    (dangerously_allow_all_unix_sockets config) (negb allow_all_unix_sockets);;
  match c_allow_local_binding constraints with
  | Some b => validate_switch (lit "network.allow_local_binding") (allow_local_binding config) (negb b)
  | None => Ok tt
  end;;
  match c_allowed_domains constraints with
  | Some managed =>
      validate_allowed_domains (c_allowlist_expansion_enabled constraints) managed
        config_allowed_domains denied_domain_overrides
  | None => Ok tt
  end;;
  match c_denied_domains constraints with
  | Some managed =>
      validate_denied_domains (c_denylist_expansion_enabled constraints) managed config_denied_domains
  | None => Ok tt
  end;;
  match c_allow_unix_sockets constraints with
  | Some managed => validate_unix_sockets managed (allow_unix_sockets config)
  | None => Ok tt
  end.
End constraints.

(** ** The compiled state *)

Record BlockedRequest := mkBlocked {
  b_host : str;
  b_reason : str;
  b_client : option str;
  b_method : option str;
  b_mode : option NetworkMode;
  b_protocol : str;
  b_execution_id : option str;
  b_decision : option str;
  b_source : option str;
  b_port : option N;
  b_timestamp : Z;
}.
Definition set_execution_id e b := mkBlocked (b_host b) (b_reason b) (b_client b) (b_method b)
  (b_mode b) (b_protocol b) e (b_decision b) (b_source b) (b_port b) (b_timestamp b).

Inductive HostBlockReason := Denied | NotAllowed | NotAllowedLocal.

(** [HostBlockReason::as_str], with the texts of [reasons.rs]. *)
Definition reason_str (r : HostBlockReason) : str :=
  match r with
  | Denied => lit "denied"
  | NotAllowed => lit "not_allowed"
  | NotAllowedLocal => lit "not_allowed_local"
  end.

Inductive HostBlockDecision := Allowed | Blocked (reason : HostBlockReason).

#[export] Instance HostBlockReason_eq_dec : EqDecision HostBlockReason.
Proof. solve_decision. Defined.
#[export] Instance HostBlockDecision_eq_dec : EqDecision HostBlockDecision.
Proof. solve_decision. Defined.

Inductive BuildError :=
| InvalidUnixSocket (index : nat)
| CredentialBrokerNeedsMitm
| Constraint (e : NetworkProxyConstraintError)
| GlobsetFailed (e : GlobsetError)
| HooksFailed (e : HookError)
| MitmFailed (e : str).

Section state.
Context `{UrlHost, HttpTypes, GlobMatchers, CredentialBroker, ProcessEnv, MitmEnv, GlobEngine}.

Record ConfigState := mkState {
  config : NetworkProxyConfig;
  brokerage_created_default_allowlist : bool;
  allow_set : GlobSet;
  deny_set : GlobSet;
  mitm_state : option MitmState;
  compiled_hooks : gmap str (list MitmHook);
  constraints : NetworkProxyConstraints;
  blocked : list BlockedRequest;
  blocked_total : N;
}.
Definition set_config c s := mkState c (brokerage_created_default_allowlist s) (allow_set s)
  (deny_set s) (mitm_state s) (compiled_hooks s) (constraints s) (blocked s) (blocked_total s).
Definition set_blocked b n s := mkState (config s) (brokerage_created_default_allowlist s)
  (allow_set s) (deny_set s) (mitm_state s) (compiled_hooks s) (constraints s) b n.

(** A path of the unix socket allowlist; a path that is absolute in the Unix style only
    is kept as its text. *)
Inductive ValidatedUnixSocketPath :=
| Native (path : AbsolutePathBuf)
| UnixStyleAbsolute (path : str).

Definition parse_socket_path (socket_path : str) : option ValidatedUnixSocketPath :=
  if is_absolute (components socket_path) then
    Native <$> ok (from_absolute_path initial_locals socket_path)
  else if starts_with [c_slash] socket_path then Some (UnixStyleAbsolute socket_path)
  else None.

Fixpoint validate_socket_paths (index : nat) (paths : list str) : result BuildError unit :=
  match paths with
  | [] => Ok tt
  | p :: paths =>
      match parse_socket_path p with
      | Some _ => validate_socket_paths (S index) paths
      | None => Err (InvalidUnixSocket index)
      end
  end.
Definition validate_unix_socket_allowlist_paths (cfg : NetworkProxyConfig) : result BuildError unit :=
  validate_socket_paths 0 (allow_unix_sockets cfg).

(** What the credential broker changes of a configuration, with whether it made up the
    allowlist. *)
Definition brokered (config : NetworkProxyConfig) (constraints : NetworkProxyConstraints) :
    NetworkProxyConfig * bool :=
  let config := if is_false (c_enabled constraints) then set_credential_broker false config else config in
  let brokerage_created_proxy := credential_broker config && negb (enabled config) in
  let created_default :=
    brokerage_created_proxy && bool_decide (allowed_domains config = None)
    && bool_decide (c_allowed_domains constraints = None) in
  let config := if brokerage_created_proxy then set_enabled true config else config in
  let config := if created_default then set_allowed_domains [lit "*"] config else config in
  (config, created_default).

Definition build_config_state (config : NetworkProxyConfig) (constraints : NetworkProxyConstraints) :
    result BuildError ConfigState :=
  let '(config, created_default) := brokered config constraints in
  validate_unix_socket_allowlist_paths config;;
  (if negb (credential_broker config) || mitm config then Ok tt else Err CredentialBrokerNeedsMitm);;
  let allowed := default [] (allowed_domains config) in
  let denied := default [] (denied_domains config) in
  map_err Constraint (validate_non_global_wildcard_domain_patterns (lit "network.denied_domains") denied);;
  deny_set ← map_err GlobsetFailed (compile_denylist_globset denied);
  allow_set ← map_err GlobsetFailed (compile_allowlist_globset allowed);
  hooks ← map_err HooksFailed
    (compile_mitm_hooks env_var read_to_string (mitm config) (mitm_hooks config));
  mitm_st ←
    (if mitm config then Some <$> map_err MitmFailed (mitm_state_new (allow_upstream_proxy config))
     else Ok None);
  Ok (mkState config created_default allow_set deny_set mitm_st hooks constraints [] 0).

(** ** Reloading *)

Inductive RuntimeError :=
| ReloadFailed (e : str)
| InvalidHost
| Constrained (field : str) (e : NetworkProxyConstraintError)
| CompileFailed (list_name : str) (e : BuildError).

(** What the reloader answers: nothing new, a new state, or an error. *)
Definition reloaded : Type := result str (option ConfigState).

Definition reload_if_needed (r : reloaded) (s : ConfigState) : ConfigState * result RuntimeError unit :=
  match r with
  | Err e => (s, Err (ReloadFailed e))
  | Ok None => (s, Ok tt)
  | Ok (Some new_state) => (set_blocked (blocked s) (blocked_total s) new_state, Ok tt)
  end.
Definition force_reload (r : result str ConfigState) (s : ConfigState) :
    ConfigState * result RuntimeError unit :=
  match r with
  | Ok new_state => (set_blocked (blocked s) (blocked_total new_state) new_state, Ok tt)
  | Err e => (s, Err (ReloadFailed e))
  end.

(** ** The decision on a host *)

(** A question is answered once the reload is made. *)
Definition ask {A} (question : ConfigState → A) (r : reloaded) (s : ConfigState) :
    ConfigState * result RuntimeError A :=
  match reload_if_needed r s with
  | (s, Err e) => (s, Err e)
  | (s, Ok _) => (s, Ok (question s))
  end.

Definition globset_matches_host_or_unscoped (set : GlobSet) (host : str) : bool :=
  is_match set host || match unscoped_ip_literal host with Some ip => is_match set ip | None => false end.

Definition is_explicit_local_allowlisted (allowed_domains : list str) (host : str) : bool :=
  let unscoped_host := unscoped_ip_literal host in
  existsb (λ pattern,
    let pattern := trim pattern in
    if bool_decide (pattern = lit "*") || starts_with (lit "*.") pattern
       || starts_with (lit "**.") pattern then false
    else if contains (lit "*") pattern || contains (lit "?") pattern then false
    else
      let normalized_pattern := normalize_host pattern in
      bool_decide (normalized_pattern = host)
      || match unscoped_host with Some ip => bool_decide (normalized_pattern = ip) | None => false end)
    allowed_domains.

(** [lookup] is [lookup_host] under its timeout: [None] when it fails or times out. *)
Definition host_resolves_to_non_public_ip (lookup : str → N → option (list IpAddr)) (host : str)
    (port : N) : bool :=
  match parse_ip host with
  | Some ip => is_non_public_ip ip
  | None => match lookup host port with None => true | Some addrs => existsb is_non_public_ip addrs end
  end.

Definition is_local_literal (host : str) : bool :=
  let host_no_scope := default host (unscoped_ip_literal host) in
  if is_loopback_host host then true
  else match parse_ip host_no_scope with Some ip => is_non_public_ip ip | None => false end.

(** [host_blocked] in a state, the reload having been made. *)
Definition decide_host (lookup : str → N → option (list IpAddr)) (host : str) (port : N)
    (s : ConfigState) : HostBlockDecision :=
  match host_parse host with
  | None => Blocked NotAllowed
  | Some host =>
      let allowed := allowed_domains (config s) in
      let allowed_domains_empty := bool_decide (allowed = None) in
      let allowed := default [] allowed in
      if globset_matches_host_or_unscoped (deny_set s) host then Blocked Denied
      else
        let is_allowlisted := globset_matches_host_or_unscoped (allow_set s) host in
        if negb (allow_local_binding (config s))
           && (if is_local_literal host then negb (is_explicit_local_allowlisted allowed host)
               else host_resolves_to_non_public_ip lookup host port)
        then Blocked NotAllowedLocal
        else if allowed_domains_empty || negb is_allowlisted then Blocked NotAllowed else Allowed
  end.
Definition host_blocked (lookup : str → N → option (list IpAddr)) (r : reloaded) (host : str)
    (port : N) (s : ConfigState) : ConfigState * result RuntimeError HostBlockDecision :=
  ask (decide_host lookup host port) r s.

(** ** Blocked requests *)

Definition MAX_BLOCKED_EVENTS : nat := 200.

(** [while blocked.len() > MAX_BLOCKED_EVENTS { blocked.pop_front(); }] *)
Fixpoint pop_excess (fuel : nat) (l : list BlockedRequest) : list BlockedRequest :=
  match fuel with
  | 0 => l
  | S fuel => if MAX_BLOCKED_EVENTS <? length l then pop_excess fuel (tl l) else l
  end.
Definition record_blocked (r : reloaded) (execution_id : option str) (entry : BlockedRequest)
    (s : ConfigState) : ConfigState * result RuntimeError unit :=
  match reload_if_needed r s with
  | (s, Err e) => (s, Err e)
  | (s, Ok _) =>
      let b := blocked s ++ [set_execution_id execution_id entry] in
      (set_blocked (pop_excess (length b) b) (sat_add (blocked_total s) 1) s, Ok tt)
  end.
Definition drain_blocked (r : reloaded) (s : ConfigState) :
    ConfigState * result RuntimeError (list BlockedRequest) :=
  match reload_if_needed r s with
  | (s, Err e) => (s, Err e)
  | (s, Ok _) => (set_blocked [] (blocked_total s) s, Ok (blocked s))
  end.

(** ** Questions about the state *)

Definition blocked_snapshot := ask blocked.
Definition is_enabled := ask (λ s, enabled (config s)).
Definition method_allowed (method : str) := ask (λ s, allows_method (mode (config s)) method).
Definition upstream_proxy_allowed := ask (λ s, allow_upstream_proxy (config s)).
Definition local_binding_allowed := ask (λ s, allow_local_binding (config s)).
Definition network_mode := ask (λ s, mode (config s)).
Definition get_mitm_state := ask mitm_state.
Definition evaluate_mitm_hook_request (host : str) (req : Request) :=
  ask (λ s, evaluate_mitm_hooks (compiled_hooks s) host req).

(** [is_unix_socket_allowed]; [supported] is [unix_socket_permissions_supported] and
    [canonicalize] the file system's. *)
Definition socket_allowed (canonicalize : Path → option Path) (requested_abs : Path) (allowed : str) : bool :=
  match parse_socket_path allowed with
  | Some (Native allowed_path) =>
      if bool_decide (allowed_path = requested_abs) then true
      else
        match canonicalize requested_abs, canonicalize allowed_path with
        | Some requested_canonical, Some allowed_canonical =>
            bool_decide (allowed_canonical = requested_canonical)
        | _, _ => false
        end
  | Some (UnixStyleAbsolute _) | None => false
  end.
Definition is_unix_socket_allowed (supported : bool) (canonicalize : Path → option Path) (path : str) :=
  ask (λ s,
    if negb supported then false
    else if negb (is_absolute (components path)) then false
    else if dangerously_allow_all_unix_sockets (config s) then true
    else
      match from_absolute_path initial_locals path with
      | Err _ => false
      | Ok requested_abs =>
          existsb (socket_allowed canonicalize requested_abs) (allow_unix_sockets (config s))
      end).

(** ** Updates *)

Inductive DomainListKind := ListAllow | ListDeny.

Definition list_name (k : DomainListKind) : str :=
  match k with ListAllow => lit "allowlist" | ListDeny => lit "denylist" end.
Definition constraint_field (k : DomainListKind) : str :=
  match k with ListAllow => lit "network.allowed_domains" | ListDeny => lit "network.denied_domains" end.
Definition kind_permission (k : DomainListKind) : NetworkDomainPermission :=
  match k with ListAllow => PermAllow | ListDeny => PermDeny end.
Definition entries (k : DomainListKind) (c : NetworkProxyConfig) : list str :=
  match k with
  | ListAllow => default [] (allowed_domains c)
  | ListDeny => default [] (denied_domains c)
  end.
Definition opposite_entries (k : DomainListKind) (c : NetworkProxyConfig) : list str :=
  match k with
  | ListAllow => default [] (denied_domains c)
  | ListDeny => default [] (allowed_domains c)
  end.

(** One turn of an optimistic loop: what the reloader answers, and what other tasks do to
    the state between the reload and the read, and between the read and the write. *)
Record turn := mkTurn {
  turn_reload : reloaded;
  before_read : ConfigState → ConfigState;
  others : ConfigState → ConfigState
}.

Definition has_host (normalized_host : str) (es : list str) : bool :=
  existsb (λ entry, bool_decide (normalize_host entry = normalized_host)) es.

(** The new state of an update, from the state read. *)
Definition updated_state (k : DomainListKind) (normalized_host : str) (s : ConfigState) :
    result RuntimeError ConfigState :=
  let candidate := upsert_domain_permission normalized_host (kind_permission k) normalize_host (config s) in
  map_err (Constrained (constraint_field k))
    (validate_policy_against_constraints candidate (constraints s));;
  new_state ← map_err (CompileFailed (list_name k)) (build_config_state candidate (constraints s));
  Ok (set_blocked (blocked s) (blocked_total s) new_state).

(** [update_domain_list]; [None] when the turns end before the loop does. *)
Fixpoint update_loop (k : DomainListKind) (normalized_host : str) (turns : list turn) (s : ConfigState) :
    option (ConfigState * result RuntimeError unit) :=
  match turns with
  | [] => None
  | t :: turns =>
      match reload_if_needed (turn_reload t) s with
      | (s, Err e) => Some (s, Err e)
      | (s, Ok _) =>
          let s := before_read t s in
          if has_host normalized_host (entries k (config s))
             && negb (has_host normalized_host (opposite_entries k (config s)))
          then Some (s, Ok tt)
          else
            match updated_state k normalized_host s with
            | Err e => Some (others t s, Err e)
            | Ok new_state =>
                let guard := others t s in
                if bool_decide (constraints guard ≠ constraints s ∨ config guard ≠ config s)
                then update_loop k normalized_host turns guard
                else Some (new_state, Ok tt)
            end
      end
  end.
Definition update_domain_list (k : DomainListKind) (host : str) (turns : list turn) (s : ConfigState) :
    option (ConfigState * result RuntimeError unit) :=
  match host_parse host with
  | None => Some (s, Err InvalidHost)
  | Some normalized_host => update_loop k normalized_host turns s
  end.

Fixpoint set_network_mode (m : NetworkMode) (turns : list turn) (s : ConfigState) :
    option (ConfigState * result RuntimeError unit) :=
  match turns with
  | [] => None
  | t :: turns =>
      match reload_if_needed (turn_reload t) s with
      | (s, Err e) => Some (s, Err e)
      | (s, Ok _) =>
          let s := before_read t s in
          match validate_policy_against_constraints (set_mode m (config s)) (constraints s) with
          | Err e => Some (others t s, Err (Constrained (lit "network.mode") e))
          | Ok _ =>
              let guard := others t s in
              if bool_decide (constraints guard ≠ constraints s) then set_network_mode m turns guard
              else Some (set_config (set_mode m (config guard)) guard, Ok tt)
          end
      end
  end.

(** [replace_config_state]. *)
Definition replace_config_state (r : reloaded) (new_state s : ConfigState) :
    ConfigState * result RuntimeError unit :=
  match reload_if_needed r s with
  | (s, Err e) => (s, Err e)
  | (s, Ok _) => (set_blocked (blocked s) (blocked_total s) new_state, Ok tt)
  end.
End state.

(** * The state of the network proxy stays within its policy *)

Lemma lower_set_ext l l' : (∀ d, d ∈ l ↔ d ∈ l') → lower_set l = lower_set l'.
Proof.
  intros Hl. apply set_eq. intros x. unfold lower_set. rewrite !elem_of_list_to_set, !list_elem_of_fmap.
  by setoid_rewrite Hl.
Qed.

Lemma non_global_ok field ps :
  validate_non_global_wildcard_domain_patterns field ps = Ok tt ↔
  ∀ p, p ∈ ps → is_global_wildcard_domain_pattern p = false.
Proof.
  unfold validate_non_global_wildcard_domain_patterns. destruct (list_find _ ps) as [[i p]|] eqn:Hf.
  - split; [done|]. apply list_find_Some in Hf as (Hp & Ht & _). intros Hall.
    apply list_elem_of_lookup_2, Hall in Hp. congruence.
  - split; [|done]. intros _ p Hp. apply list_find_None in Hf. rewrite Forall_forall in Hf.
    apply not_true_is_false. by apply Hf.
Qed.

Section facts.
Context `{Url : UrlHost, Http : HttpTypes, Globs : GlobMatchers, Broker : CredentialBroker, Env : ProcessEnv}.

(** The checks of the policy, in the order they are made. *)
Definition policy_checks (c : NetworkProxyConfig) (k : NetworkProxyConstraints) :
    list (result NetworkProxyConstraintError unit) :=
  [map_err invalid_mitm_hook_configuration (validate_mitm_hook_config (mitm c) (mitm_hooks c));
   validate_non_global_wildcard_domain_patterns (lit "network.denied_domains") (listed PermDeny c);
   match c_enabled k with
   | Some max_enabled => validate_switch (lit "network.enabled") (enabled c) (negb max_enabled)
   | None => Ok tt
   end;
   match c_mode k with
   | Some max_mode =>
       if network_mode_rank max_mode <? network_mode_rank (mode c) then
         Err (InvalidValue (lit "network.mode") (ShownMode (mode c) [])
                (ShownMode max_mode (lit " or more restrictive")))
       else Ok tt
   | None => Ok tt
   end;
   validate_switch (lit "network.allow_upstream_proxy") (allow_upstream_proxy c)
     (is_false (c_allow_upstream_proxy k));
   validate_switch (lit "network.dangerously_allow_non_loopback_proxy")
     (dangerously_allow_non_loopback_proxy c) (is_false (c_dangerously_allow_non_loopback_proxy k));
   validate_switch (lit "network.dangerously_allow_all_unix_sockets")
     (dangerously_allow_all_unix_sockets c)
     (negb (default (bool_decide (c_allow_unix_sockets k = None)) (c_dangerously_allow_all_unix_sockets k)));
   match c_allow_local_binding k with
   | Some b => validate_switch (lit "network.allow_local_binding") (allow_local_binding c) (negb b)
   | None => Ok tt
   end;
   match c_allowed_domains k with
   | Some managed =>
       validate_allowed_domains (c_allowlist_expansion_enabled k) managed (listed PermAllow c)
         (lower_set (listed PermDeny c))
   | None => Ok tt
   end;
   match c_denied_domains k with
   | Some managed => validate_denied_domains (c_denylist_expansion_enabled k) managed (listed PermDeny c)
   | None => Ok tt
   end;
   match c_allow_unix_sockets k with
   | Some managed => validate_unix_sockets managed (allow_unix_sockets c)
   | None => Ok tt
   end].

Lemma validate_checks c k :
  validate_policy_against_constraints c k = Ok tt ↔ Forall (λ r, r = Ok tt) (policy_checks c k).
Proof.
  unfold validate_policy_against_constraints, policy_checks. rewrite !seq_ok, !Forall_cons, Forall_nil.
  unfold listed, allowed_domains, denied_domains. tauto.
Qed.

(** ** The credential broker's changes *)

Lemma listed_deny c d : d ∈ listed PermDeny c ↔ mkEntry d PermDeny ∈ default [] (domains c).
Proof.
  rewrite listed_spec. unfold effective_for. split; [by intros [? _]|]. intros Hd. split; [done|].
  intros perm _. destruct perm; simpl; lia.
Qed.

Record same_but_domains (c c' : NetworkProxyConfig) : Prop := {
  same_mitm : mitm c' = mitm c;
  same_hooks : mitm_hooks c' = mitm_hooks c;
  same_mode : mode c' = mode c;
  same_upstream : allow_upstream_proxy c' = allow_upstream_proxy c;
  same_loopback : dangerously_allow_non_loopback_proxy c' = dangerously_allow_non_loopback_proxy c;
  same_all_sockets : dangerously_allow_all_unix_sockets c' = dangerously_allow_all_unix_sockets c;
  same_sockets : unix_sockets c' = unix_sockets c;
  same_binding : allow_local_binding c' = allow_local_binding c;
}.

Lemma brokered_spec c k :
  let '(c', created) := brokered c k in
  same_but_domains c c' ∧
  (enabled c' = true → enabled c = true ∨ is_false (c_enabled k) = false) ∧
  (∀ d, d ∈ listed PermDeny c' ↔ d ∈ listed PermDeny c) ∧
  (if created
   then c_allowed_domains k = None ∧ (∀ d, d ∉ listed PermAllow c) ∧ ∀ d, d ∈ listed PermAllow c' → d = lit "*"
   else domains c' = domains c).
Proof.
  unfold brokered. set (b := is_false (c_enabled k)).
  set (c1 := if b then set_credential_broker false c else c).
  assert (same_but_domains c c1 ∧ domains c1 = domains c ∧ enabled c1 = enabled c
    ∧ (b = true → credential_broker c1 = false)) as (Hs1 & Hd1 & He1 & Hb1).
  { unfold c1. destruct b; by split_and!. }
  clearbody c1. set (p := credential_broker c1 && negb (enabled c1)).
  set (created := p && bool_decide (allowed_domains c1 = None) && bool_decide (c_allowed_domains k = None)).
  set (c2 := if p then set_enabled true c1 else c1).
  assert (same_but_domains c c2 ∧ domains c2 = domains c ∧ (enabled c2 = true → enabled c = true ∨ b = false))
    as (Hs2 & Hd2 & He2).
  { unfold c2. destruct p eqn:Hp; [|rewrite He1; by eauto].
    split_and!; [destruct Hs1; by split|done|]. intros _. right. unfold p in Hp.
    destruct b; [|done]. by rewrite Hb1 in Hp. }
  clearbody c2. destruct created eqn:Hc.
  - split; [destruct Hs2; by split|]. split; [done|]. split.
    + intros d. rewrite !listed_deny. unfold set_allowed_domains. rewrite set_domain_entries_elem, Hd2.
      simpl. naive_solver.
    + unfold created in Hc. bool_hyps. split; [done|]. split.
      { apply domain_entries_None. unfold domain_entries. rewrite <- Hd1. done. }
      intros d. rewrite listed_spec. unfold effective_for, set_allowed_domains.
      rewrite set_domain_entries_elem. simpl. rewrite list_elem_of_singleton.
      intros [[[? _]|[_ ?]] _]; done.
  - split; [done|]. split; [done|]. split; [|done]. intros d. unfold listed, domain_entries. by rewrite Hd2.
Qed.

(** The broker's changes keep a configuration within its constraints. *)
Lemma brokered_valid c k :
  validate_policy_against_constraints c k = Ok tt →
  validate_policy_against_constraints (brokered c k).1 k = Ok tt.
Proof.
  rewrite !validate_checks. pose proof (brokered_spec c k) as Hb. destruct (brokered c k) as [c' created].
  destruct Hb as (Hs & He & Hd & Hdom). simpl. unfold policy_checks. rewrite !Forall_cons, Forall_nil.
  destruct Hs as [-> -> -> -> -> -> Hsock ->].
  assert (lower_set (listed PermDeny c') = lower_set (listed PermDeny c)) as Hl by by apply lower_set_ext.
  assert (allow_unix_sockets c' = allow_unix_sockets c) as -> by (unfold allow_unix_sockets; by rewrite Hsock).
  rewrite Hl, !non_global_ok. setoid_rewrite Hd.
  intros (? & ? & Hen & ? & ? & ? & ? & ? & Hal & Hde & ? & _). split_and!; try done.
  - destruct (c_enabled k) as [[]|]; [unfold validate_switch; by rewrite andb_false_r| |done]. simpl in He.
    unfold validate_switch in *. destruct (enabled c') eqn:Hc'; [|done].
    destruct (He eq_refl) as [Hc|?]; [|done]. by rewrite Hc in Hen.
  - destruct created.
    + destruct Hdom as [-> _]. done.
    + assert (listed PermAllow c' = listed PermAllow c) as ->; [|done].
      unfold listed, domain_entries. by rewrite Hdom.
  - destruct (c_denied_domains k); [|done]. unfold validate_denied_domains in *. rewrite Hl.
    apply seq_ok in Hde as [-> Hde]. simpl. destruct (c_denylist_expansion_enabled k) as [[]|]; try done.
    by case_bool_decide.
Qed.

(** The mode is checked on its own. *)
Lemma mode_valid m c1 c2 k :
  validate_policy_against_constraints (set_mode m c1) k = Ok tt →
  validate_policy_against_constraints c2 k = Ok tt →
  validate_policy_against_constraints (set_mode m c2) k = Ok tt.
Proof.
  rewrite !validate_checks. unfold policy_checks. rewrite !Forall_cons. tauto.
Qed.
End facts.

Section sound.
Context `{Url : UrlHost, Http : HttpTypes, Globs : GlobMatchers, Broker : CredentialBroker, Env : ProcessEnv}.
Context `{Mitm : MitmEnv, Engine : GlobEngine}.

(** ** The invariant *)

(** The compiled parts are those of the configuration, the configuration is within its
    constraints, and the buffer of blocked requests is bounded. *)
Record sound (s : ConfigState) : Prop := {
  sound_deny : compile_denylist_globset (listed PermDeny (config s)) = Ok (deny_set s);
  sound_allow : compile_allowlist_globset (listed PermAllow (config s)) = Ok (allow_set s);
  sound_hooks : compile_mitm_hooks env_var read_to_string (mitm (config s)) (mitm_hooks (config s))
    = Ok (compiled_hooks s);
  sound_policy : validate_policy_against_constraints (config s) (constraints s) = Ok tt;
  sound_blocked : length (blocked s) ≤ MAX_BLOCKED_EVENTS;
}.

Lemma build_config_state_inv c k s :
  build_config_state c k = Ok s →
  config s = (brokered c k).1 ∧ constraints s = k ∧ blocked s = [] ∧ blocked_total s = 0%N
  ∧ compile_denylist_globset (listed PermDeny (config s)) = Ok (deny_set s)
  ∧ compile_allowlist_globset (listed PermAllow (config s)) = Ok (allow_set s)
  ∧ compile_mitm_hooks env_var read_to_string (mitm (config s)) (mitm_hooks (config s)) = Ok (compiled_hooks s).
Proof.
  unfold build_config_state. destruct (brokered c k) as [c' created]. rewrite seq_ok. intros [_ Hb].
  apply seq_ok in Hb as [_ Hb]. apply seq_ok in Hb as [_ Hb].
  change (default [] (denied_domains c')) with (listed PermDeny c') in Hb.
  change (default [] (allowed_domains c')) with (listed PermAllow c') in Hb.
  destruct (compile_denylist_globset _) as [d|] eqn:Hd; [|done].
  destruct (compile_allowlist_globset _) as [a|] eqn:Ha; [|done].
  destruct (compile_mitm_hooks _ _ _ _) as [h|] eqn:Hh; [|done].
  simpl in Hb. destruct (if mitm c' then _ else _) as [m|]; simplify_eq/=. done.
Qed.

(** A state built from a configuration within its constraints. *)
Lemma build_config_state_sound c k s :
  validate_policy_against_constraints c k = Ok tt → build_config_state c k = Ok s → sound s.
Proof.
  intros Hv (Hc & Hk & Hbl & _ & Hd & Ha & Hh)%build_config_state_inv. split; [done..| |].
  - rewrite Hc, Hk. by apply brokered_valid.
  - rewrite Hbl. simpl. lia.
Qed.

Lemma set_blocked_sound b n s : length b ≤ MAX_BLOCKED_EVENTS → sound s → sound (set_blocked b n s).
Proof. intros Hb []. by split. Qed.

(** ** Reloading *)

Definition reloads_sound (r : reloaded) : Prop :=
  match r with Ok (Some s) => sound s | _ => True end.

Lemma reload_sound r s s' res :
  reloads_sound r → sound s → reload_if_needed r s = (s', res) → sound s'.
Proof.
  intros Hr Hs. destruct r as [[n|]|e]; simpl; intros [= <- <-]; [|done..].
  apply set_blocked_sound; [apply Hs|apply Hr].
Qed.

Lemma ask_sound {A} (q : ConfigState → A) r s s' res :
  reloads_sound r → sound s → ask q r s = (s', res) → sound s'.
Proof.
  unfold ask. intros Hr Hs. destruct (reload_if_needed r s) as [s1 [[]|e]] eqn:E; intros [= <- <-];
    by eapply reload_sound.
Qed.

(** ** Blocked requests *)

Lemma pop_excess_spec fuel l :
  length l ≤ fuel → pop_excess fuel l = drop (length l - MAX_BLOCKED_EVENTS) l.
Proof.
  revert l. induction fuel as [|fuel IH]; intros l Hl; simpl.
  - destruct l; [done|simpl in Hl; lia].
  - destruct (Nat.ltb_spec MAX_BLOCKED_EVENTS (length l)) as [Hlt|Hge].
    + destruct l as [|x l]; [simpl in Hlt; lia|]. simpl in Hl. simpl tl. rewrite IH by lia.
      replace (length (x :: l) - MAX_BLOCKED_EVENTS) with (S (length l - MAX_BLOCKED_EVENTS)).
      * done.
      * change (length (x :: l)) with (S (length l)) in *. lia.
    + by replace (length l - MAX_BLOCKED_EVENTS) with 0 by lia.
Qed.

(** The buffer keeps the last requests recorded. *)
Lemma pop_excess_suffix b : pop_excess (length b) b `suffix_of` b ∧ length (pop_excess (length b) b) ≤ MAX_BLOCKED_EVENTS.
Proof.
  rewrite pop_excess_spec by done. split; [apply suffix_drop|]. rewrite length_drop. lia.
Qed.

Lemma record_blocked_sound r e b s s' res :
  reloads_sound r → sound s → record_blocked r e b s = (s', res) → sound s'.
Proof.
  unfold record_blocked. intros Hr Hs. destruct (reload_if_needed r s) as [s1 [[]|]] eqn:E; intros [= <- <-].
  - apply set_blocked_sound; [apply pop_excess_suffix|by eapply reload_sound].
  - by eapply reload_sound.
Qed.

Lemma drain_blocked_sound r s s' res :
  reloads_sound r → sound s → drain_blocked r s = (s', res) → sound s'.
Proof.
  unfold drain_blocked. intros Hr Hs. destruct (reload_if_needed r s) as [s1 [[]|]] eqn:E; intros [= <- <-].
  - apply set_blocked_sound; [simpl; lia|by eapply reload_sound].
  - by eapply reload_sound.
Qed.

(** ** Updates *)

(** What the other tasks may do between the steps of an update. *)
Definition turn_sound (t : turn) : Prop :=
  reloads_sound (turn_reload t) ∧
  ∀ s, sound s → sound (before_read t s) ∧ sound (others t s).

Lemma updated_state_inv k h s s' :
  updated_state k h s = Ok s' →
  let candidate := upsert_domain_permission h (kind_permission k) normalize_host (config s) in
  validate_policy_against_constraints candidate (constraints s) = Ok tt
  ∧ ∃ st, build_config_state candidate (constraints s) = Ok st ∧ s' = set_blocked (blocked s) (blocked_total s) st.
Proof.
  unfold updated_state. intros [Hv Hb]%seq_ok. apply map_err_ok in Hv. split; [done|].
  destruct (build_config_state _ _) as [st|]; simplify_eq/=. eauto.
Qed.

Lemma updated_state_sound k h s s' : sound s → updated_state k h s = Ok s' → sound s'.
Proof.
  intros Hs (Hv & st & Hb & ->)%updated_state_inv.
  apply set_blocked_sound; [apply Hs|]. by eapply build_config_state_sound.
Qed.

(** How an update ends well: the list already has the host, or the new state is the one
    computed from a state of an earlier turn. *)
Lemma update_loop_ok k h turns s s' :
  Forall turn_sound turns → sound s → update_loop k h turns s = Some (s', Ok tt) →
  sound s' ∧
  ((has_host h (entries k (config s')) = true ∧ has_host h (opposite_entries k (config s')) = false)
   ∨ ∃ s0, sound s0 ∧ updated_state k h s0 = Ok s').
Proof.
  intros Ht. revert s. induction Ht as [|t turns [Hr Ho] Ht IH]; intros s Hs; simpl; [done|].
  destruct (reload_if_needed (turn_reload t) s) as [s2 [[]|e]] eqn:E; [|done].
  apply reload_sound in E as [E _]%Ho; [|done..]. set (s1 := before_read t s2) in *.
  destruct (has_host h (entries k (config s1)) && negb (has_host h (opposite_entries k (config s1)))) eqn:Hin.
  - intros [= <-]. bool_hyps. split; [done|]. by left.
  - destruct (updated_state k h s1) as [new|e] eqn:Hu; [|done].
    case_bool_decide; [intros Hl; eapply IH; [|exact Hl]; by apply Ho|]. intros [= <-].
    split; [by eapply updated_state_sound|]. right. eauto.
Qed.

Lemma update_loop_sound k h turns s s' res :
  Forall turn_sound turns → sound s → update_loop k h turns s = Some (s', res) → sound s'.
Proof.
  intros Ht. revert s. induction Ht as [|t turns [Hr Ho] Ht IH]; intros s Hs; simpl; [done|].
  destruct (reload_if_needed (turn_reload t) s) as [s2 [[]|e]] eqn:E; apply reload_sound in E; try done.
  - apply Ho in E as [E _]. set (s1 := before_read t s2) in *. case_match; [by intros [= <- _]|].
    destruct (updated_state k h s1) as [new|e] eqn:Hu; [|intros [= <- _]; by apply Ho].
    case_bool_decide; [intros Hl; eapply IH; [|exact Hl]; by apply Ho|]. intros [= <- _]. by eapply updated_state_sound.
  - by intros [= <- _].
Qed.

Lemma set_network_mode_sound m turns s s' res :
  Forall turn_sound turns → sound s → set_network_mode m turns s = Some (s', res) → sound s'.
Proof.
  intros Ht. revert s. induction Ht as [|t turns [Hr Ho] Ht IH]; intros s Hs; simpl; [done|].
  destruct (reload_if_needed (turn_reload t) s) as [s2 [[]|e]] eqn:E; apply reload_sound in E; try done.
  - apply Ho in E as [E _]. set (s1 := before_read t s2) in *.
    destruct (validate_policy_against_constraints _ _) as [[]|e] eqn:Hv; [|intros [= <- _]; by apply Ho].
    case_bool_decide as Hk; [intros Hl; eapply IH; [|exact Hl]; by apply Ho|]. intros [= <- _].
    destruct (Ho s1 E) as [_ [Hd Ha Hh Hp Hb]]. split; [exact Hd|exact Ha|exact Hh| |exact Hb].
    simpl. eapply mode_valid; [|done]. rewrite Hk. exact Hv.
  - by intros [= <- _].
Qed.

(** ** Every operation *)

Inductive net_step : ConfigState → ConfigState → Prop :=
| step_ask A (q : ConfigState → A) r s s' res :
    reloads_sound r → ask q r s = (s', res) → net_step s s'
| step_force_reload r s s' res :
    (∀ st, r = Ok st → sound st) → force_reload r s = (s', res) → net_step s s'
| step_replace r new s s' res :
    reloads_sound r → sound new → replace_config_state r new s = (s', res) → net_step s s'
| step_record r e b s s' res :
    reloads_sound r → record_blocked r e b s = (s', res) → net_step s s'
| step_drain r s s' res : reloads_sound r → drain_blocked r s = (s', res) → net_step s s'
| step_update k host turns s s' res :
    Forall turn_sound turns → update_domain_list k host turns s = Some (s', res) → net_step s s'
| step_mode m turns s s' res :
    Forall turn_sound turns → set_network_mode m turns s = Some (s', res) → net_step s s'.

Lemma net_step_sound s s' : net_step s s' → sound s → sound s'.
Proof.
  intros Hstep Hs. destruct Hstep as [A q r s s' res Hr Hq|r s s' res Hr Hf|r new s s' res Hr Hn Hf
    |r e b s s' res Hr Hf|r s s' res Hr Hf|k host turns s s' res Ht Hf|m turns s s' res Ht Hf].
  - by eapply ask_sound.
  - unfold force_reload in Hf. destruct r as [st|]; simplify_eq; [|done].
    apply set_blocked_sound; [apply Hs|auto].
  - unfold replace_config_state in Hf. destruct (reload_if_needed r s) as [s1 [[]|]] eqn:E; simplify_eq;
      apply reload_sound in E; try done. apply set_blocked_sound; [apply E|done].
  - by eapply record_blocked_sound.
  - by eapply drain_blocked_sound.
  - unfold update_domain_list in Hf. destruct (host_parse host); [|by simplify_eq].
    by eapply update_loop_sound.
  - by eapply set_network_mode_sound.
Qed.

(** C19.  Whatever operations run, and whatever other tasks do between the reads and the
    writes of an update, a state built from a configuration within its constraints stays
    sound: what is compiled is what the configuration says, and the configuration stays
    within the constraints managed for it. *)
Theorem reachable_sound c k s0 s :
  validate_policy_against_constraints c k = Ok tt → build_config_state c k = Ok s0 →
  rtc net_step s0 s → sound s.
Proof.
  intros Hv Hb Hr. assert (sound s0) as Hs by by eapply build_config_state_sound.
  clear Hb. induction Hr; eauto using net_step_sound.
Qed.
End sound.
