(* ===== verification/NetDecisionFacts.v ===== *)
(** * NetDecisionFacts: what the lists of domains decide *)
From Stdlib Require Import ZifyBool.
From S2P Require Import Prelude RustStr AbsolutePath.
From S2P Require Import IpAddr NetPolicy NetPolicyFacts MitmHook NetConfig NetState.

(** ** Normalized hosts *)

Lemma lower_take n s : to_ascii_lowercase s = s → to_ascii_lowercase (take n s) = take n s.
Proof. intros Hs. rewrite <- Hs at 2. unfold to_ascii_lowercase. by rewrite <- fmap_take. Qed.
Lemma lower_drop n s : to_ascii_lowercase s = s → to_ascii_lowercase (drop n s) = drop n s.
Proof. intros Hs. rewrite <- Hs at 2. unfold to_ascii_lowercase. by rewrite <- fmap_drop. Qed.

Lemma lower_app s t : to_ascii_lowercase (s ++ t) = to_ascii_lowercase s ++ to_ascii_lowercase t.
Proof. apply map_app. Qed.

Lemma scoped_literal_lower ds h ip :
  to_ascii_lowercase h = h → scoped_literal ds h = Some ip → to_ascii_lowercase ip = ip.
Proof.
  intros Hh. induction ds as [|d ds IH]; simpl; [done|]. unfold split_once_str.
  destruct (find d h) as [n|]; [|done]. destruct (is_ip (take n h)); [|done]. intros [= <-].
  rewrite lower_app, lower_take by done. f_equal.
  exact (f_equal (cons 37%N) (lower_drop (n + length d) h Hh)).
Qed.

Lemma normalize_dns_lower h :
  to_ascii_lowercase (normalize_dns_host_or_ip_literal h) = normalize_dns_host_or_ip_literal h.
Proof.
  unfold normalize_dns_host_or_ip_literal. set (t := trim_end_matches c_dot (to_ascii_lowercase h)).
  assert (to_ascii_lowercase t = t) as Ht.
  { destruct (drop_while_end_prefix (is_char c_dot) (to_ascii_lowercase h)) as [u Hu].
    change (to_ascii_lowercase h = t ++ u) in Hu.
    assert (t = take (length t) (to_ascii_lowercase h)) as -> by (rewrite Hu; by rewrite take_app_length).
    apply lower_take, to_ascii_lowercase_idemp. }
  unfold normalize_ip_literal. destruct (is_ip t); [done|].
  destruct (scoped_literal _ t) as [ip|] eqn:E; [|done]. by eapply scoped_literal_lower.
Qed.

Lemma normalize_host_lower host : to_ascii_lowercase (normalize_host host) = normalize_host host.
Proof. unfold normalize_host. repeat case_match; apply normalize_dns_lower. Qed.

Lemma normalize_host_trim host : normalize_host (trim host) = normalize_host host.
Proof. unfold normalize_host. by rewrite trim_idemp. Qed.

(** A text that starts with a star keeps it. *)
Lemma parse_ip_star s : parse_ip (42%N :: s) = None.
Proof.
  unfold parse_ip. assert (read_ipv4_addr (42%N :: s) = None) as -> by done.
  unfold read_ipv6_addr. rewrite (read_groups_S 7 0). cbn [Nat.leb read_separator].
  by assert (read_ipv4_addr (42%N :: s) = None) as -> by done.
Qed.

Lemma normalize_dns_star s : head (normalize_dns_host_or_ip_literal (42%N :: s)) = Some 42%N.
Proof.
  unfold normalize_dns_host_or_ip_literal.
  change (to_ascii_lowercase (42%N :: s)) with (42%N :: to_ascii_lowercase s).
  set (r := to_ascii_lowercase s). clearbody r.
  assert (∃ r', trim_end_matches c_dot (42%N :: r) = 42%N :: r') as [r' ->].
  { unfold trim_end_matches. simpl. destruct (drop_while_end _ r); simpl; eauto. }
  unfold normalize_ip_literal, is_ip. rewrite parse_ip_star. cbn [scoped_literal].
  assert (∀ n, is_ip (take n (42%N :: r')) = false) as Ht.
  { intros [|n]; [done|]. unfold is_ip. simpl take. by rewrite parse_ip_star. }
  unfold split_once_str. by repeat (destruct (find _ _) as [?|]; rewrite ?Ht).
Qed.

Lemma normalize_host_star e : head (trim e) = Some 42%N → 42%N ∈ normalize_host e.
Proof.
  unfold normalize_host. intros He. destruct (trim e) as [|c s]; [done|]. injection He as ->.
  change (starts_with (lit "[") (42%N :: s)) with false. cbn iota.
  assert (∀ t, head t = Some 42%N → (42%N : N) ∈ t) as Hh by (intros [|x t]; [done|]; intros [= ->]; by left).
  case_match; [|apply Hh, normalize_dns_star].
  assert (∃ s', default [] (head (split_char c_colon (42%N :: s))) = 42%N :: s') as [s' ->].
  { unfold split_char. simpl. destruct (split_at_all _ s) eqn:E; [|eauto]. by apply split_at_all_nonempty in E. }
  apply Hh, normalize_dns_star.
Qed.

(** An entry whose host is canonical is compiled to that host. *)
Lemma normalize_pattern_host e h :
  canonical_host h = true → normalize_host e = h → normalize_pattern e = h.
Proof.
  intros Hh He. apply canonical_hostE in Hh as (_ & _ & _ & _ & Hg).
  assert (head (trim e) ≠ Some 42%N) as Hs.
  { intros Hs%normalize_host_star. rewrite He in Hs. by apply (glob_plain_not h 42 Hg). }
  unfold normalize_pattern. rewrite bool_decide_eq_false_2 by (intros Hst; by rewrite Hst in Hs).
  assert (∀ p, strip_prefix (42%N :: p) (trim e) = None) as Hp.
  { intros p. apply strip_prefix_None. intros [t Ht]. by rewrite Ht in Hs. }
  change (lit "**.") with (42%N :: lit "*."). change (lit "*.") with (42%N :: lit ".").
  rewrite !Hp. simpl. by rewrite normalize_host_trim.
Qed.

Lemma has_host_spec h es : has_host h es = true ↔ ∃ e, e ∈ es ∧ normalize_host e = h.
Proof.
  unfold has_host. rewrite existsb_exists. setoid_rewrite <- list_elem_of_In.
  by setoid_rewrite bool_decide_eq_true.
Qed.

Section decisions.
Context `{Url : UrlHost, Http : HttpTypes, Globs : GlobMatchers, Broker : CredentialBroker, Env : ProcessEnv}.
Context `{Mitm : MitmEnv, Engine : GlobEngine}.

Lemma entries_listed k c : entries k c = listed (kind_permission k) c.
Proof. by destruct k. Qed.
Definition opposite (k : DomainListKind) : DomainListKind :=
  match k with ListAllow => ListDeny | ListDeny => ListAllow end.
Lemma opposite_listed k c : opposite_entries k c = listed (kind_permission (opposite k)) c.
Proof. by destruct k. Qed.

Lemma canonical_not_star h : canonical_host h = true → h ≠ lit "*".
Proof. intros (_ & _ & _ & _ & Hg)%canonical_hostE ->. by vm_compute in Hg. Qed.

(** The lists an update writes have the host in its list only. *)
Lemma updated_state_lists k h s s' :
  canonical_host h = true → updated_state k h s = Ok s' →
  has_host h (entries k (config s')) = true ∧ has_host h (opposite_entries k (config s')) = false.
Proof.
  intros Hh (_ & st & Hb & ->)%updated_state_inv. apply build_config_state_inv in Hb as (Hc & _).
  simpl. rewrite Hc, entries_listed, opposite_listed.
  set (c := upsert_domain_permission h (kind_permission k) normalize_host (config s)).
  pose proof (brokered_spec c (constraints s)) as Hbr. destruct (brokered c (constraints s)) as [c' created].
  simpl. destruct Hbr as (_ & _ & Hdeny & Hdom).
  destruct (canonical_hostE h Hh) as (_ & Hn & _).
  assert (∀ q d, d ∈ listed q c → normalize_host d = h → d = h ∧ q = kind_permission k) as Hlist.
  { intros q d Hd Hdh. apply upsert_listed in Hd. by rewrite decide_True in Hd by by rewrite Hdh. }
  assert (h ∈ listed (kind_permission k) c) as Hin.
  { apply upsert_listed. by rewrite decide_True. }
  assert (∀ q, kind_permission k ≠ q → has_host h (listed q c) = false) as Hother.
  { intros q Hq. apply not_true_is_false. intros (d & Hd & Hdh)%has_host_spec.
    by destruct (Hlist q d Hd Hdh) as [_ ?]. }
  assert (domains c' = domains c → ∀ q, listed q c' = listed q c) as Hsame.
  { intros Heq q. unfold listed, domain_entries. by rewrite Heq. }
  split.
  - apply has_host_spec. exists h. split; [|done]. destruct k; [|by apply Hdeny]. simpl in *.
    destruct created; [by apply Hdom in Hin|]. by rewrite Hsame.
  - destruct created; [|by rewrite Hsame by done; apply Hother; destruct k].
    destruct k; simpl in *; [by apply Hdom in Hin|].
    apply not_true_is_false. intros (d & Hd & Hdh)%has_host_spec.
    apply Hdom in Hd as ->. by apply (canonical_not_star h).
Qed.

(** ** Decisions in a sound state *)

Context `{!GlobLaws}.

Lemma sound_match w ps set e h :
  canonical_host h = true → compile_globset_with_policy ps w = Ok set → e ∈ ps → normalize_host e = h →
  is_match set h = true.
Proof.
  intros Hh Hc Hin He. destruct (canonical_hostE h Hh) as (Hne & _ & Ht & _ & Hg).
  assert (expand_domain_pattern (normalize_pattern e) = [h]) as Hexp.
  { rewrite (normalize_pattern_host e h) by done. unfold expand_domain_pattern.
    rewrite parse_pattern_plain; [done|done| |done]. by eapply glob_plain_not. }
  destruct (compiled_builds _ _ _ e h Hc Hin) as [g Hgb]; [rewrite Hexp; by left|].
  apply (compiled_matches _ _ _ h Hc). exists e, h, g. split_and!; [done| |done|].
  - rewrite Hexp. by left.
  - by apply (glob_text h g h Hg Hgb).
Qed.

Lemma host_parse_normalize host h : host_parse host = Some h ↔ h = normalize_host host ∧ h ≠ [].
Proof. unfold host_parse. case_bool_decide; naive_solver. Qed.

(** A host with an entry in the denylist is denied; with an entry in the allowlist it is
    never reported as missing from it. *)
Lemma listed_decision lookup port s host e k :
  sound s → canonical_host (normalize_host host) = true →
  e ∈ entries k (config s) → normalize_host e = normalize_host host →
  match k with
  | ListDeny => decide_host lookup host port s = Blocked Denied
  | ListAllow => decide_host lookup host port s ≠ Blocked NotAllowed
  end.
Proof.
  intros Hs Hh Hin He. rewrite entries_listed in Hin.
  destruct (canonical_hostE _ Hh) as (Hne & _). unfold decide_host.
  assert (host_parse host = Some (normalize_host host)) as -> by by apply host_parse_normalize.
  destruct k; simpl in Hin.
  - unfold globset_matches_host_or_unscoped at 2.
    rewrite (sound_match _ _ _ _ _ Hh (sound_allow _ Hs) Hin He). simpl.
    case_match; [done|]. case_match; [done|]. case_bool_decide as Hn; [|done]. exfalso.
    apply (domain_entries_None PermAllow (config s)) in Hin; [done|exact Hn].
  - unfold globset_matches_host_or_unscoped at 1.
    by rewrite (sound_match _ _ _ _ _ Hh (sound_deny _ Hs) Hin He).
Qed.

(** C26.  An update of a domain list that returns [Ok] takes effect, whatever other tasks did
    meanwhile: a host added to the denylist is denied; one added to the allowlist is no
    longer missing from it and has no entry of its own in the denylist.  The state is
    sound again. *)
Theorem update_takes_effect k host turns s s' lookup port :
  sound s → Forall turn_sound turns → canonical_host (normalize_host host) = true →
  update_domain_list k host turns s = Some (s', Ok tt) →
  sound s' ∧
  match k with
  | ListDeny => decide_host lookup host port s' = Blocked Denied
  | ListAllow =>
      decide_host lookup host port s' ≠ Blocked NotAllowed
      ∧ ∀ e, e ∈ listed PermDeny (config s') → normalize_host e ≠ normalize_host host
  end.
Proof.
  intros Hs Ht Hh Hu. destruct (canonical_hostE _ Hh) as (Hne & _). unfold update_domain_list in Hu.
  rewrite (proj2 (host_parse_normalize host _) (conj eq_refl Hne)) in Hu.
  apply update_loop_ok in Hu as [Hs' Hl]; [|done..]. split; [done|].
  assert (has_host (normalize_host host) (entries k (config s')) = true
    ∧ has_host (normalize_host host) (opposite_entries k (config s')) = false) as [Hin Hout].
  { destruct Hl as [?|(s0 & _ & Hup)]; [done|]. by eapply updated_state_lists. }
  apply has_host_spec in Hin as (e & Hin & He).
  pose proof (listed_decision lookup port s' host e k Hs' Hh Hin He) as Hd. destruct k; [|done].
  split; [done|]. intros e' He' Heq. apply not_true_iff_false in Hout. apply Hout, has_host_spec. eauto.
Qed.

(** ** Ending *)

(** A turn in which nobody else changes the configuration or its constraints between the
    read and the write. *)
Definition uncontended (t : turn) : Prop :=
  ∀ s, constraints (others t s) = constraints s ∧ config (others t s) = config s.

(** An update ends as soon as a turn is left alone. *)
Theorem update_ends k host turns s :
  Exists uncontended turns → is_Some (update_domain_list k host turns s).
Proof.
  unfold update_domain_list. destruct (host_parse host) as [h|]; [|by eauto].
  intros Ht. revert s. induction turns as [|t turns IH]; intros s; [by inversion Ht|]. simpl.
  destruct (reload_if_needed (turn_reload t) s) as [s1 [[]|]]; [|by eauto].
  case_match; [by eauto|]. destruct (updated_state k h (before_read t s1)); [|by eauto].
  case_bool_decide as Hc; [|by eauto]. apply IH. inversion Ht as [? ? Hu|]; subst; [|done].
  destruct (Hu (before_read t s1)) as [H1 H2]. exfalso. by destruct Hc.
Qed.

(** ** What an allowed host satisfies *)

(** A host, and the address of a scoped literal. *)
Definition spellings (h : str) : list str :=
  h :: match unscoped_ip_literal h with Some ip => [ip] | None => [] end.

Lemma matches_spellings set h :
  globset_matches_host_or_unscoped set h = true ↔ ∃ x, x ∈ spellings h ∧ is_match set x = true.
Proof.
  unfold globset_matches_host_or_unscoped, spellings. rewrite orb_true_iff.
  setoid_rewrite elem_of_cons. destruct (unscoped_ip_literal h) as [ip|].
  - setoid_rewrite list_elem_of_singleton. naive_solver.
  - setoid_rewrite elem_of_nil. naive_solver.
Qed.

Lemma spellings_lower h x : to_ascii_lowercase h = h → x ∈ spellings h → to_ascii_lowercase x = x.
Proof.
  intros Hh. unfold spellings. rewrite elem_of_cons. intros [->|Hx]; [done|].
  unfold unscoped_ip_literal, split_once in Hx. destruct (find [37%N] h) as [n|]; simpl in Hx.
  - destruct (is_ip (take n h)); [|by apply not_elem_of_nil in Hx].
    apply list_elem_of_singleton in Hx as ->. by apply lower_take.
  - by apply not_elem_of_nil in Hx.
Qed.

(** The host is a public address, or a name that resolves, to such addresses only; it is not
    [localhost], nor a scoped literal of an address that is not public. *)
Definition reaches_public (lookup : str → N → option (list IpAddr)) (h : str) (port : N) : Prop :=
  match parse_ip h with
  | Some ip => public_address ip
  | None => ∃ addrs, lookup h port = Some addrs ∧ Forall public_address addrs
  end
  ∧ h ≠ lit "localhost"
  ∧ ∀ literal ip, unscoped_ip_literal h = Some literal → parse_ip literal = Some ip → public_address ip.

Lemma resolves_public lookup h port :
  is_local_literal h = false → host_resolves_to_non_public_ip lookup h port = false →
  reaches_public lookup h port.
Proof.
  intros Hl Hr. split; [|split].
  - unfold host_resolves_to_non_public_ip in Hr. destruct (parse_ip h); [by apply public_address_spec|].
    destruct (lookup h port) as [addrs|]; [|done]. exists addrs. split; [done|].
    induction addrs as [|a l IH]; [constructor|]. simpl in Hr. apply orb_false_iff in Hr as [? ?].
    constructor; [by apply public_address_spec|auto].
  - intros ->. by vm_compute in Hl.
  - intros literal ip Hu Hp. apply public_address_spec. unfold is_local_literal in Hl. rewrite Hu in Hl. simpl in Hl.
    destruct (is_loopback_host h); [done|]. by rewrite Hp in Hl.
Qed.

Lemma explicit_local_spec l h :
  is_explicit_local_allowlisted l h = true → ∃ e, e ∈ l ∧ normalize_host e ∈ spellings h.
Proof.
  unfold is_explicit_local_allowlisted, spellings. rewrite existsb_exists.
  intros (e & He%list_elem_of_In & Hm). exists e. split; [done|].
  do 2 (case_match; [done|]). rewrite normalize_host_trim in Hm. apply orb_true_iff in Hm as [Hm|Hm].
  - bool_hyps. rewrite Hm. by left.
  - destruct (unscoped_ip_literal h); [|done]. bool_hyps. rewrite Hm. right. by left.
Qed.

(** The answer [Allowed], opened. *)
Lemma decide_host_allowed lookup host port s :
  decide_host lookup host port s = Allowed →
  let h := normalize_host host in
  globset_matches_host_or_unscoped (deny_set s) h = false
  ∧ globset_matches_host_or_unscoped (allow_set s) h = true
  ∧ (allow_local_binding (config s) = false →
     if is_local_literal h
     then is_explicit_local_allowlisted (listed PermAllow (config s)) h = true
     else host_resolves_to_non_public_ip lookup h port = false).
Proof.
  unfold decide_host. destruct (host_parse host) as [h|] eqn:Hp; [|done].
  apply host_parse_normalize in Hp as [-> _]. cbn zeta.
  change (default [] (allowed_domains (config s))) with (listed PermAllow (config s)).
  destruct (globset_matches_host_or_unscoped (deny_set s) _); [done|].
  destruct (negb (allow_local_binding (config s)) && _) eqn:Hl; [done|].
  destruct (globset_matches_host_or_unscoped (allow_set s) _); rewrite ?orb_true_r; [|done].
  intros _. split_and!; [done..|]. intros Hb. rewrite Hb in Hl. simpl in Hl.
  destruct (is_local_literal _); [by apply negb_false_iff|done].
Qed.

(** C27.  A host is let through only when no entry of the denylist covers it, the entries being
    names or wildcards of names ([simple_pattern]), and, unless local binding is on, when it
    is a local literal that the allowlist names itself, or when it is outside the local
    ranges: an address in none of [non_public_ranges] or, of IPv6, [non_public_ranges6], or a
    name other than [localhost] that resolves, to such addresses only.  The IPv6 ranges are
    those of the code: reserved ranges such as [fec0::/10] and [2001:db8::/32] are not
    among them. *)
Theorem allowed_host_safe lookup host port s ds :
  sound s → listed PermDeny (config s) = map pattern_text ds →
  Forall (λ p, simple_pattern p = true) ds →
  decide_host lookup host port s = Allowed →
  let h := normalize_host host in
  (∀ p x, p ∈ ds → x ∈ spellings h → ¬ covers p x)
  ∧ (allow_local_binding (config s) = false →
     if is_local_literal h then ∃ e, e ∈ listed PermAllow (config s) ∧ normalize_host e ∈ spellings h
     else reaches_public lookup h port).
Proof.
  intros Hs Hds Hsimple (Hdeny & _ & Hlocal)%decide_host_allowed. cbn zeta. split.
  - intros p x Hp Hx Hcov. apply not_true_iff_false in Hdeny. apply Hdeny, matches_spellings.
    exists x. split; [done|]. pose proof (sound_deny _ Hs) as Hc. rewrite Hds in Hc.
    apply (compiled_covers _ _ _ x Hsimple (spellings_lower _ _ (normalize_host_lower host) Hx) Hc). eauto.
  - intros Hb. specialize (Hlocal Hb). destruct (is_local_literal _) eqn:Hlit.
    + by apply explicit_local_spec.
    + by apply resolves_public.
Qed.

(** C24.  A managed allowlist is enforced: when the administrator lists domains and does not
    speak of expansion, a host is let through only if an entry of the administrator's
    list covers it, whatever the user's list says.  The entries of both lists are names
    or wildcards of names ([managed_pattern]); for entries the [url] crate does not parse,
    such as those with a port, it fails ([port_entries_escape]). *)
Theorem managed_allowlist_enforced `{!UrlLaws} lookup host port s ms cs :
  sound s → c_allowed_domains (constraints s) = Some (map pattern_text ms) →
  c_allowlist_expansion_enabled (constraints s) = None →
  listed PermAllow (config s) = map pattern_text cs →
  Forall (λ p, managed_pattern p = true) ms → Forall (λ p, managed_pattern p = true) cs →
  decide_host lookup host port s = Allowed →
  ∃ m x, m ∈ ms ∧ x ∈ spellings (normalize_host host) ∧ covers m x.
Proof.
  intros Hs Hk He Hl Hms Hcs (_ & Hallow & _)%decide_host_allowed.
  apply matches_spellings in Hallow as (x & Hx & Hm).
  pose proof (sound_allow _ Hs) as Hc. rewrite Hl in Hc.
  assert (Forall (λ p, simple_pattern p = true) cs) as Hsimple.
  { eapply Forall_impl; [done|]. intros p. apply managed_simple. }
  apply (compiled_covers _ _ _ x Hsimple (spellings_lower _ _ (normalize_host_lower host) Hx) Hc) in Hm
    as (p & Hp & Hcov).
  pose proof (sound_policy _ Hs) as Hv. rewrite validate_checks in Hv. unfold policy_checks in Hv.
  rewrite !Forall_cons in Hv. destruct Hv as (_ & _ & _ & _ & _ & _ & _ & _ & Hv & _).
  rewrite Hk, He, Hl in Hv. unfold validate_allowed_domains in Hv. apply seq_ok in Hv as [_ Hv].
  case_bool_decide as Hf; [|done].
  destruct (allowed_subset ms cs p x Hms Hcs Hf Hp Hcov) as (m & Hm & Hcm). eauto.
Qed.

(** ** Entries the [url] crate does not parse *)

Lemma name_port_host d : dns_name d = true → normalize_host (d ++ lit ":443") = to_ascii_lowercase d.
Proof.
  intros Hd. unfold normalize_host.
  destruct (dns_name_cons d Hd) as (c & d' & Heq & Hc).
  assert (trim (d ++ lit ":443") = d ++ lit ":443") as ->.
  { rewrite Heq. apply (trim_between c d' (lit ":443")); [char_lia|done|done]. }
  assert (starts_with (lit "[") (d ++ lit ":443") = false) as ->.
  { apply starts_with_false. intros [t Ht]. rewrite Heq in Ht. injection Ht as -> _. by vm_compute in Hc. }
  assert (c_colon ∉ d) as Hcol by by eapply dns_name_excluded.
  rewrite count_char_app, count_char_none by done. change (0 + count_char c_colon (lit ":443") =? 1) with true.
  cbn iota. unfold split_char. change (d ++ lit ":443") with (d ++ c_colon :: lit "443").
  rewrite split_at_all_app_sep; [by apply dns_name_normalize_dns| |done].
  apply forallb_elem. intros x Hx. unfold compose, is_char. apply negb_true_iff, N.eqb_neq. by intros ->.
Qed.

(** An entry with a port is read in two ways.  The check against the managed list parses
    it as a URL host, which fails, and takes it for the empty name; the compiled list
    drops the port.  So two such entries always allow each other, and the candidate's
    host is let through although the managed list names another. *)
Theorem port_entries_escape m c overrides set :
  dns_name m = true → dns_name c = true →
  url_host_parse (m ++ lit ":443") = None → url_host_parse (c ++ lit ":443") = None →
  validate_allowed_domains None [m ++ lit ":443"] [c ++ lit ":443"] overrides = Ok tt
  ∧ (compile_allowlist_globset [c ++ lit ":443"] = Ok set → is_match set (to_ascii_lowercase c) = true).
Proof.
  intros Hm Hc Hum Huc.
  assert (∀ d, dns_name d = true → normalize_pattern (d ++ lit ":443") = to_ascii_lowercase d) as Hn.
  { intros d Hd. apply normalize_pattern_host; [by apply dns_name_canonical|by apply name_port_host]. }
  assert (∀ d, dns_name d = true → url_host_parse (d ++ lit ":443") = None →
    parse_for_constraints (d ++ lit ":443") = Exact []) as Hp.
  { intros d Hd Hu. destruct (dns_name_cons d Hd) as (x & d' & Heq & Hx).
    assert (∀ y, name_excluded y = true → y ∉ lit ":443" → y ∉ d ++ lit ":443") as Hnot.
    { intros y Hy Hy'. apply not_elem_of_app. split; [by eapply dns_name_excluded|done]. }
    assert (trim (d ++ lit ":443") = d ++ lit ":443") as Ht.
    { rewrite Heq. apply (trim_between x d' (lit ":443")); [char_lia|done|done]. }
    assert (∀ y, name_excluded y = true → y ∉ lit ":443" → contains [y] (d ++ lit ":443") = false) as Hcont.
    { intros y Hy Hy'. apply contains_char_false. auto. }
    unfold parse_for_constraints. rewrite Ht, bool_decide_eq_false_2 by by destruct d.
    assert (42%N ∉ d ++ lit ":443") by by apply Hnot; [|apply (bool_decide_unpack _); vm_compute].
    change (lit "**.") with (42%N :: lit "*."). change (lit "*.") with (42%N :: lit ".").
    rewrite !star_prefix_none by done. unfold parse_domain_for_constraints. rewrite Ht.
    assert (trim_end_matches c_dot (d ++ lit ":443") = d ++ lit ":443") as ->.
    { apply trim_end_matches_id. by rewrite last_app. }
    rewrite bool_decide_eq_false_2 by by destruct d.
    assert (starts_with (lit "[") (d ++ lit ":443") = false) as ->.
    { apply starts_with_false. intros [t Hbr]. rewrite Heq in Hbr. injection Hbr as -> _. by vm_compute in Hx. }
    cbn [andb]. change (lit "*") with [42%N]. change (lit "?") with [63%N]. change (lit "%") with [37%N].
    rewrite !Hcont by (done || by apply (bool_decide_unpack _); vm_compute). cbn [orb]. by rewrite Hu. }
  split.
  - unfold validate_allowed_domains. apply seq_ok. split.
    + apply non_global_ok. intros p ->%list_elem_of_singleton.
      unfold is_global_wildcard_domain_pattern. rewrite !Hn by done.
      assert (dns_name (to_ascii_lowercase m) = true) as Hl by by rewrite dns_name_lower.
      unfold expand_domain_pattern. rewrite parse_pattern_plain.
      * simpl. rewrite bool_decide_eq_false_2; [done|]. intros Hst. rewrite Hst in Hl. by vm_compute in Hl.
      * by apply dns_name_ne.
      * by eapply dns_name_excluded.
      * by apply dns_name_trim.
    + cbn [map]. rewrite Hp by done. rewrite filter_cons_False; [done|]. rewrite Hp by done. done.
  - intros Hset. eapply (sound_match _ _ set (c ++ lit ":443")); [by apply dns_name_canonical|done|by left|].
    by apply name_port_host.
Qed.
End decisions.
