(* ===== verification/NetDecide.v ===== *)
(** * NetDecide: who decides on a connection and on an intercepted request
    ([network-proxy/src/network_policy.rs], [connect_policy.rs] and the policy part of
    [mitm.rs])

    Other tasks may change the state before each question, and the reloader may answer
    each with a new state: every question of the code takes a [turn]. *)
From S2P Require Import Prelude RustInt RustStr AbsolutePath AuthPath IpAddr NetPolicy NetPolicyFacts MitmHook NetConfig NetState NetDecisionFacts.

(** ** Decisions *)

Inductive NetworkProtocol := Http | HttpsConnect | Socks5Tcp | Socks5Udp.
Inductive NetworkPolicyDecision := PolicyDeny | PolicyAsk.
Inductive NetworkDecisionSource := BaselinePolicy | ModeGuard | ProxyState | Decider.

Inductive NetworkDecision :=
| NetAllow
| NetDeny (reason : str) (source : NetworkDecisionSource) (decision : NetworkPolicyDecision).

Definition decision_str (d : NetworkPolicyDecision) : str :=
  match d with PolicyDeny => lit "deny" | PolicyAsk => lit "ask" end.
Definition source_str (s : NetworkDecisionSource) : str :=
  match s with
  | BaselinePolicy => lit "baseline_policy"
  | ModeGuard => lit "mode_guard"
  | ProxyState => lit "proxy_state"
  | Decider => lit "decider"
  end.

Definition deny_with_source (reason : str) (source : NetworkDecisionSource) : NetworkDecision :=
  let reason := if bool_decide (reason = []) then lit "policy_denied" else reason in
  NetDeny reason source PolicyDeny.
Definition ask_with_source (reason : str) (source : NetworkDecisionSource) : NetworkDecision :=
  let reason := if bool_decide (reason = []) then lit "policy_denied" else reason in
  NetDeny reason source PolicyAsk.

Definition map_decider_decision (d : NetworkDecision) : NetworkDecision :=
  match d with
  | NetAllow => NetAllow
  | NetDeny reason _ decision => NetDeny reason Decider decision
  end.

(** [NetworkPolicyRequest]; the two handles on the transport are left out. *)
Record NetworkPolicyRequest := mkRequest {
  q_protocol : NetworkProtocol;
  q_host : str;
  q_port : N;
  q_environment_id : option str;
  q_client_addr : option str;
  q_method : option str;
  q_command : option str;
  q_exec_policy_hint : option str;
  q_execution_id : option str;
}.

(** What the decision is reported as: decision, source, reason and whether the decider
    overrode the policy. *)
Record PolicyAudit := mkAudit {
  a_decision : str;
  a_source : str;
  a_reason : str;
  a_override : bool;
}.

(** [target_matches_non_public_addr], of the target of a connection. *)
Inductive TargetHost := Address (ip : IpAddr) | Name (name : str).
Definition is_localhost_name (name : str) : bool :=
  eq_ignore_ascii_case (trim_end_matches c_dot name) (lit "localhost").
Definition is_non_public_target (host : TargetHost) : bool :=
  match host with
  | Address ip => is_non_public_ip ip
  | Name name => is_localhost_name name
  end.
Definition target_matches_non_public_addr (host : TargetHost) (addr : IpAddr) : bool :=
  match host with
  | Address ip => bool_decide (ip = addr)
  | Name name => is_localhost_name name && is_loopback addr
  end.

(** ** Requests inside an intercepted connection *)

(** The parts of a request and of its headers that the policy reads or changes. *)
Class HttpParts `{HttpTypes} := {
  Scheme : Type;
  Scheme_eq_dec :: EqDecision Scheme;
  SCHEME_HTTP : Scheme;
  scheme_str : Scheme → str;
  Authority : Type;
  authority_str : Authority → str;
  authority_host : Authority → str;
  port_u16 : Authority → option N;
  parse_authority : str → option Authority;
  uri_scheme : Request → option Scheme;
  uri_authority : Request → option Authority;
  peer_addr : Request → option str;
  HOST : HeaderName;
  UPGRADE : HeaderName;
  HeaderMap : Type;
  map_get_all : HeaderName → HeaderMap → list HeaderValue;
  map_remove : HeaderName → HeaderMap → HeaderMap;
  map_insert : HeaderName → HeaderValue → HeaderMap → HeaderMap;
}.

Inductive BlockResponse := TextResponse (status : N) (text : str) | BlockedText (reason : str).

Definition BAD_REQUEST : N := 400.
Definition METHOD_NOT_ALLOWED : N := 405.

Section decide.
Context `{UrlHost, HttpTypes, GlobMatchers, CredentialBroker, ProcessEnv, MitmEnv, GlobEngine}.
Context `{!HttpParts}.

(** What other tasks do before a question. *)
Definition before {A} (t : turn) (question : reloaded → M ConfigState RuntimeError A) :
    M ConfigState RuntimeError A :=
  λ s, question (turn_reload t) (others t (before_read t s)).

(** ** Hosts *)

(** [evaluate_host_policy]: the decision, with what is reported of it.  [environment_id]
    and [execution_id] are those of the state. *)
Definition decide_policy (decider : option (NetworkPolicyRequest → NetworkDecision))
    (environment_id execution_id : option str) (request : NetworkPolicyRequest)
    (host_decision : HostBlockDecision) : NetworkDecision * bool :=
  match host_decision with
  | Allowed => (NetAllow, false)
  | Blocked NotAllowed =>
      match decider with
      | Some decide =>
          let request := mkRequest (q_protocol request) (q_host request) (q_port request)
            (match q_environment_id request with None => environment_id | e => e end)
            (q_client_addr request) (q_method request) (q_command request)
            (q_exec_policy_hint request) execution_id in
          let decider_decision := map_decider_decision (decide request) in
          (decider_decision, match decider_decision with NetAllow => true | _ => false end)
      | None => (deny_with_source (reason_str NotAllowed) BaselinePolicy, false)
      end
  | Blocked reason => (deny_with_source (reason_str reason) BaselinePolicy, false)
  end.
Definition audit_of (decision : NetworkDecision) (policy_override : bool) : PolicyAudit :=
  match decision with
  | NetAllow =>
      mkAudit (lit "allow") (source_str (if policy_override then Decider else BaselinePolicy))
        (if policy_override then reason_str NotAllowed else lit "allow") policy_override
  | NetDeny reason source decision =>
      mkAudit (decision_str decision) (source_str source) reason policy_override
  end.
Definition evaluate_host_policy (lookup : str → N → option (list IpAddr))
    (decider : option (NetworkPolicyRequest → NetworkDecision))
    (environment_id execution_id : option str) (t : turn) (request : NetworkPolicyRequest) :
    M ConfigState RuntimeError (NetworkDecision * PolicyAudit) :=
  host_decision ← before t (λ r, host_blocked lookup r (q_host request) (q_port request));
  let '(decision, policy_override) :=
    decide_policy decider environment_id execution_id request host_decision in
  mret (decision, audit_of decision policy_override).

(** ** Connections *)

(** [allows_non_public_target]; [target_str] is the target's text. *)
Definition allows_non_public_target (lookup : str → N → option (list IpAddr)) (t1 t2 : turn)
    (target : TargetHost) (target_str : str) (port : N) (addr : IpAddr) :
    M ConfigState RuntimeError bool :=
  local ← before t1 local_binding_allowed;
  if local : bool then mret true
  else if negb (target_matches_non_public_addr target addr) then mret false
  else
    decision ← before t2 (λ r, host_blocked lookup r target_str port);
    mret (bool_decide (decision = Allowed)).
(** The check before the connection of [TargetCheckedStreamConnector::connect]. *)
Definition connect_permitted (lookup : str → N → option (list IpAddr)) (t1 t2 : turn)
    (target : TargetHost) (target_str : str) (port : N) (addr : IpAddr) :
    M ConfigState RuntimeError bool :=
  if is_non_public_ip addr then allows_non_public_target lookup t1 t2 target target_str port addr
  else mret true.

(** ** Intercepted requests *)

Record MitmPolicyContext := mkPolicy {
  target_host : str;
  target_port : N;
  policy_scheme : Scheme;
  policy_mode : NetworkMode;
}.

Inductive MitmPolicyDecision :=
| MitmAllow (hook_actions : option MitmHookActions)
| MitmBlock (response : BlockResponse).

Definition matches_target (policy : MitmPolicyContext) (authority : Authority) : bool :=
  negb (contains (lit "@") (authority_str authority))
  && bool_decide (normalize_host (authority_host authority) = target_host policy)
  && (default 80%N (port_u16 authority) =? target_port policy)%N.

(** The destinations a plain HTTP request may name. *)
Definition invalid_destination (req : Request) (policy : MitmPolicyContext) : bool :=
  match uri_scheme req with Some scheme => bool_decide (scheme ≠ SCHEME_HTTP) | None => false end
  || match uri_authority req with Some authority => negb (matches_target policy authority) | None => false end
  || existsb (λ value,
       match header_value_to_str value ≫= parse_authority with
       | Some authority => negb (matches_target policy authority)
       | None => true
       end) (headers_get_all HOST req).

Definition extract_request_host (req : Request) : option str :=
  match head (headers_get_all HOST req) ≫= header_value_to_str with
  | Some host => Some host
  | None => authority_str <$> uri_authority req
  end.

(** [record_blocked] with the arguments of the policy; its error is dropped. *)
Definition record_mitm_block (t : turn) (execution_id : option str) (now : Z) (req : Request)
    (policy : MitmPolicyContext) (reason : str) : M ConfigState RuntimeError unit :=
  λ s,
    let entry := mkBlocked (target_host policy) reason (peer_addr req) (Some (req_method req))
      (Some (policy_mode policy))
      (scheme_str (policy_scheme policy))
      None None None (Some (target_port policy)) now in
    let '(s, _) := before t (λ r, record_blocked r execution_id entry) s in (s, Ok tt).

Definition opaque_http_upgrade (req : Request) (policy : MitmPolicyContext) : bool :=
  bool_decide (policy_scheme policy = SCHEME_HTTP) && bool_decide (policy_mode policy = Limited)
  && match headers_get_all UPGRADE req with [] => false | _ => true end.

Definition evaluate_mitm_policy (lookup : str → N → option (list IpAddr)) (t1 t2 t3 : turn)
    (execution_id : option str) (now : Z) (req : Request) (policy : MitmPolicyContext) :
    M ConfigState RuntimeError MitmPolicyDecision :=
  if bool_decide (policy_scheme policy = SCHEME_HTTP) && invalid_destination req policy
  then mret (MitmBlock (TextResponse BAD_REQUEST (lit "tunnel destination mismatch")))
  else if bool_decide (req_method req = lit "CONNECT")
  then mret (MitmBlock (TextResponse METHOD_NOT_ALLOWED (lit "CONNECT not supported inside MITM")))
  else if match extract_request_host req with
          | Some request_host =>
              let normalized := normalize_host request_host in
              bool_decide (normalized ≠ []) && bool_decide (normalized ≠ target_host policy)
          | None => false
          end
  then mret (MitmBlock (TextResponse BAD_REQUEST (lit "host mismatch")))
  else
    host_decision ← before t1 (λ r, host_blocked lookup r (target_host policy) (target_port policy));
    if bool_decide (host_decision = Blocked NotAllowedLocal) then
      record_mitm_block t2 execution_id now req policy (reason_str NotAllowedLocal);;
      mret (MitmBlock (BlockedText (reason_str NotAllowedLocal)))
    else
      evaluation ← before t2 (evaluate_mitm_hook_request (target_host policy) req);
      match evaluation with
      | HookedHostNoMatch =>
          record_mitm_block t3 execution_id now req policy (lit "mitm_hook_denied");;
          mret (MitmBlock (BlockedText (lit "mitm_hook_denied")))
      | Matched _ | NoHooksForHost =>
          if negb (allows_method (policy_mode policy) (req_method req)) || opaque_http_upgrade req policy
          then
            record_mitm_block t3 execution_id now req policy (lit "method_not_allowed");;
            mret (MitmBlock (BlockedText (lit "method_not_allowed")))
          else
            mret (MitmAllow (match evaluation with Matched actions => Some actions | _ => None end))
      end.

(** ** Actions *)

Definition apply_mitm_hook_actions (actions : option MitmHookActions) (headers : HeaderMap) : HeaderMap :=
  match actions with
  | None => headers
  | Some actions =>
      let headers := foldl (λ headers name, map_remove name headers) headers (strip_headers actions) in
      foldl (λ headers injected, map_insert (r_name injected) (r_value injected) headers) headers
        (inject_headers actions)
  end.

(** [authority_header_value]. *)
Definition authority_header_value (host : str) (port : N) (scheme : Scheme) : str :=
  let default_port := if bool_decide (scheme = SCHEME_HTTP) then 80%N else 443%N in
  if contains (lit ":") host then
    if (port =? default_port)%N then lit "[" ++ host ++ lit "]"
    else lit "[" ++ host ++ lit "]:" ++ fmt_N port
  else if (port =? default_port)%N then host
  else host ++ lit ":" ++ fmt_N port.
End decide.

(** * Nothing overrides the policy *)

(** What the HTTP crate documents of a header map. *)
Class HeaderLaws `{Http : HttpTypes, !HttpParts} := {
  HeaderName_eq_dec :: EqDecision HeaderName;
  get_remove n m : map_get_all n (map_remove n m) = [];
  get_remove_ne n n' m : n ≠ n' → map_get_all n (map_remove n' m) = map_get_all n m;
  get_insert n v m : map_get_all n (map_insert n v m) = [v];
  get_insert_ne n n' v m : n ≠ n' → map_get_all n (map_insert n' v m) = map_get_all n m;
}.

Section facts.
Context `{Url : UrlHost, Http : HttpTypes, Globs : GlobMatchers, Broker : CredentialBroker, Env : ProcessEnv}.
Context `{Mitm : MitmEnv, Engine : GlobEngine, !HttpParts}.

Lemma ask_ok {A} (q : ConfigState → A) r s s' a :
  ask q r s = (s', Ok a) ↔ reload_if_needed r s = (s', Ok tt) ∧ a = q s'.
Proof. unfold ask. destruct (reload_if_needed r s) as [s1 [[]|e]]; naive_solver. Qed.

(** Asking again in the state just loaded gives the same answer. *)
Lemma before_ok {A} (q : ConfigState → A) t s s' a :
  before t (λ r, ask q r) s = (s', Ok a) → a = q s'.
Proof. unfold before. by intros [_ ->]%ask_ok. Qed.

(** ** Hosts *)

(** The decider is asked only about hosts that are on neither list: a request is let
    through when the policy lets it through, or when it is merely not listed and the
    decider says so, which the audit event reports as an override.  A denied or local
    host is refused whatever the decider says. *)
Theorem decider_only_widens lookup decider environment_id execution_id t request s s' audit :
  evaluate_host_policy lookup decider environment_id execution_id t request s = (s', Ok (NetAllow, audit)) →
  (decide_host lookup (q_host request) (q_port request) s' = Allowed ∧ a_override audit = false)
  ∨ (decide_host lookup (q_host request) (q_port request) s' = Blocked NotAllowed ∧ a_override audit = true
     ∧ ∃ decide q, decider = Some decide ∧ decide q = NetAllow
         ∧ q_host q = q_host request ∧ q_port q = q_port request).
Proof.
  unfold evaluate_host_policy. intros [(d & s1 & Hd & Hr)|(e & _ & He)]%M_bind_inv; [|done].
  apply before_ok in Hd. unfold decide_policy in Hr. destruct d as [|[]].
  - injection Hr as <- <-. by left.
  - done.
  - right. destruct decider as [decide|]; [|done].
    set (q := mkRequest _ _ _ _ _ _ _ _ _) in Hr.
    destruct (decide q) eqn:Hq; simpl in Hr; [|done]. injection Hr as <- <-.
    split_and!; [done..|]. exists decide, q. done.
  - done.
Qed.

(** ** Connections *)

(** A connection to a local address is made only when local binding is on, or when the
    target itself names that address (or is localhost and the address a loopback one)
    and the policy allows the target: a name that resolves to a local address is not
    followed there. *)
Theorem connect_local_named lookup t1 t2 target target_str port addr s s' :
  connect_permitted lookup t1 t2 target target_str port addr s = (s', Ok true) →
  is_non_public_ip addr = true →
  allow_local_binding (config s') = true
  ∨ (decide_host lookup target_str port s' = Allowed ∧
     match target with
     | Address ip => ip = addr
     | Name name => is_localhost_name name = true ∧ is_loopback addr = true
     end).
Proof.
  unfold connect_permitted. intros Hc Hip. rewrite Hip in Hc. unfold allows_non_public_target in Hc.
  apply M_bind_inv in Hc as [(local & s1 & Hl & Hc)|(e & _ & He)]; [|done].
  apply before_ok in Hl. destruct local; [left; injection Hc as <-; done|].
  destruct (target_matches_non_public_addr target addr) eqn:Ht; [|done]. simpl in Hc.
  apply M_bind_inv in Hc as [(d & s2 & Hd & Hc)|(e & _ & He)]; [|done].
  apply before_ok in Hd. right. injection Hc as <- Hc. bool_hyps. subst d. split; [done|].
  destruct target; simpl in Ht; by bool_hyps.
Qed.

(** ** Intercepted requests *)

Lemma before_sound {A} (q : ConfigState → A) t s s' res :
  turn_sound t → sound s → before t (λ r, ask q r) s = (s', res) → sound s'.
Proof. intros [Hr Ho] Hs. unfold before. apply ask_sound; [done|]. by apply Ho, Ho. Qed.

(** A request that is forwarded passed every check, in the states the questions were
    asked in; its actions are those its host's hooks give it. *)
Lemma mitm_allow_checked lookup t1 t2 t3 e now req policy s s' actions :
  evaluate_mitm_policy lookup t1 t2 t3 e now req policy s = (s', Ok (MitmAllow actions)) →
  req_method req ≠ lit "CONNECT"
  ∧ allows_method (policy_mode policy) (req_method req) = true
  ∧ (policy_scheme policy = SCHEME_HTTP →
     invalid_destination req policy = false ∧ opaque_http_upgrade req policy = false)
  ∧ (∀ host, extract_request_host req = Some host →
     normalize_host host = [] ∨ normalize_host host = target_host policy)
  ∧ (∃ s1, decide_host lookup (target_host policy) (target_port policy) s1 ≠ Blocked NotAllowedLocal)
  ∧ evaluate_mitm_hooks (compiled_hooks s') (target_host policy) req =
      match actions with Some a => Matched a | None => NoHooksForHost end.
Proof.
  unfold evaluate_mitm_policy. destruct (bool_decide (policy_scheme policy = SCHEME_HTTP) && _) eqn:Hd; [done|].
  destruct (bool_decide (req_method req = lit "CONNECT")) eqn:Hm; [done|].
  apply bool_decide_eq_false in Hm.
  destruct (match extract_request_host req with Some _ => _ | None => _ end) eqn:Hh; [done|].
  intros [(d & s1 & H1 & Hr)|(? & _ & ?)]%M_bind_inv; [|done]. apply before_ok in H1.
  destruct (bool_decide (d = Blocked NotAllowedLocal)) eqn:Hl; bool_hyps.
  { apply M_bind_inv in Hr as [(? & ? & _ & ?)|(? & _ & ?)]; done. }
  apply M_bind_inv in Hr as [(ev & s2 & H2 & Hr)|(? & _ & ?)]; [|done]. apply before_ok in H2.
  assert (negb (allows_method (policy_mode policy) (req_method req)) || opaque_http_upgrade req policy = false
    ∧ s2 = s' ∧ actions = match ev with Matched a => Some a | _ => None end ∧ ev ≠ HookedHostNoMatch)
    as (Hpass & -> & -> & Hev).
  { destruct ev; [| |by apply M_bind_inv in Hr as [(? & ? & _ & ?)|(? & _ & ?)]].
    all: destruct (negb _ || _); [by apply M_bind_inv in Hr as [(? & ? & _ & ?)|(? & _ & ?)]|].
    all: by injection Hr as <- <-. }
  apply orb_false_iff in Hpass as [Hmode%negb_false_iff Hup].
  split_and!; [done..| | | |].
  - intros Hs. rewrite bool_decide_eq_true_2 in Hd by done. done.
  - intros host Hhost. rewrite Hhost in Hh. apply andb_false_iff in Hh as [Hh|Hh]; bool_hyps.
    + left. by apply dec_stable in Hh.
    + right. by apply dec_stable in Hh.
  - exists s1. congruence.
  - rewrite <- H2. by destruct ev.
Qed.

Lemma evaluate_mitm_policy_sound lookup t1 t2 t3 e now req policy s s' actions :
  turn_sound t1 → turn_sound t2 → sound s →
  evaluate_mitm_policy lookup t1 t2 t3 e now req policy s = (s', Ok (MitmAllow (Some actions))) →
  sound s'.
Proof.
  unfold evaluate_mitm_policy. intros Ht1 Ht2 Hs. do 3 (case_match; [done|]).
  intros [(d & s1 & Hq1 & Hr)|(? & _ & ?)]%M_bind_inv; [|done]. apply before_sound in Hq1; [|done..].
  case_match; [by apply M_bind_inv in Hr as [(? & ? & _ & ?)|(? & _ & ?)]|].
  apply M_bind_inv in Hr as [(ev & s2 & Hq2 & Hr)|(? & _ & ?)]; [|done]. apply before_sound in Hq2; [|done..].
  destruct ev; [| |by apply M_bind_inv in Hr as [(? & ? & _ & ?)|(? & _ & ?)]].
  all: destruct (negb _ || _); [by apply M_bind_inv in Hr as [(? & ? & _ & ?)|(? & _ & ?)]|].
  all: by injection Hr as <- _.
Qed.

(** C18.  Secrets are added to a forwarded request only where the configuration says so: in a
    sound state the request was checked against the connection's host and mode, and its
    actions are those of the first configured hook that admits it, by its host, one of its
    methods and path entries, and every value of the query and header it asks for; the path has
    one reading, which a literal entry that admitted it is still a prefix of; the headers
    stripped are those the hook names; and every injected value comes from the source the
    hook names. *)
Theorem intercepted_request_confined lookup t1 t2 t3 e now req policy s s' actions :
  turn_sound t1 → turn_sound t2 → sound s → normalize_host (target_host policy) = target_host policy →
  evaluate_mitm_policy lookup t1 t2 t3 e now req policy s = (s', Ok (MitmAllow (Some actions))) →
  allows_method (policy_mode policy) (req_method req) = true
  ∧ (policy_scheme policy = SCHEME_HTTP → invalid_destination req policy = false)
  ∧ ∃ before cfg after, mitm_hooks (config s') = before ++ cfg :: after ∧ mitm (config s') = true
  ∧ normalize_host (h_host cfg) = target_host policy
  ∧ Forall (λ c, ¬ hook_admits c (target_host policy) req) before ∧ hook_admits cfg (target_host policy) req
  ∧ (∀ entry q rs p, entry ∈ m_path_prefixes (matcher cfg) → path_entry_admits entry (uri_path req) →
       entry_means entry (PatLiteral q) → c_percent ∉ q → read_all (uri_path req) rs = Some p → q `prefix_of` p)
  ∧ (∃ d, percent_decode (uri_path req) = Some d ∧
      ∀ rs, read_all (uri_path req) rs = Some (if decide (Decode ∈ rs) then d else uri_path req))
  ∧ Forall2 (λ n h, header_name_from_bytes n = Some h) (strip_request_headers cfg) (strip_headers actions)
  ∧ Forall2 (injected_from env_var (λ path, trim <$> read_to_string path)) (inject_request_headers cfg)
      (inject_headers actions).
Proof.
  intros Ht1 Ht2 Hs Hhost He. assert (sound s') as Hs' by by eapply (evaluate_mitm_policy_sound _ t1 t2).
  apply mitm_allow_checked in He as (_ & Hmode & Hdest & _ & _ & Hev).
  split; [done|]. split; [intros ?; by apply Hdest|].
  destruct (hook_confined _ _ _ _ _ _ _ _ (sound_hooks _ Hs') Hev) as (before & cfg & after & Hin & Hm & Hb & Ha & Hrest).
  exists before, cfg, after. split; [done|]. split; [done|]. split; [|done].
  destruct Ha as [-> _]. exact Hhost.
Qed.

(** ** Actions *)

Lemma strip_get `{!HeaderLaws} n ns m :
  map_get_all n (foldl (λ m n, map_remove n m) m ns) = if decide (n ∈ ns) then [] else map_get_all n m.
Proof.
  revert m. induction ns as [|n' ns IH]; intros m; simpl; [done|]. rewrite IH.
  destruct (decide (n = n')) as [->|Hn].
  - rewrite get_remove, (decide_True (P := n' ∈ n' :: ns)) by by left. by case_decide.
  - rewrite get_remove_ne by done. do 2 case_decide; set_solver.
Qed.

Lemma inject_get `{!HeaderLaws} n rs m :
  map_get_all n (foldl (λ m r, map_insert (r_name r) (r_value r) m) m rs) =
  match last (filter (λ r, r_name r = n) rs) with Some r => [r_value r] | None => map_get_all n m end.
Proof.
  induction rs as [|r rs IH] using rev_ind; [done|]. rewrite foldl_app, filter_app. simpl foldl.
  destruct (decide (r_name r = n)) as [<-|Hn].
  - rewrite filter_cons_True, filter_nil, last_snoc by done. apply get_insert.
  - rewrite filter_cons_False, filter_nil, app_nil_r by done. by rewrite get_insert_ne by congruence.
Qed.

(** The headers of a forwarded request: an injected header has the one value its last
    injection gives, replacing what the client sent; a stripped one is gone; the others
    are the client's. *)
Theorem actions_on_headers `{!HeaderLaws} actions headers n :
  map_get_all n (apply_mitm_hook_actions (Some actions) headers) =
  match last (filter (λ r, r_name r = n) (inject_headers actions)) with
  | Some r => [r_value r]
  | None => if decide (n ∈ strip_headers actions) then [] else map_get_all n headers
  end.
Proof. unfold apply_mitm_hook_actions. by rewrite inject_get, strip_get. Qed.

(** ** The buffer of blocked requests *)

(** Recording keeps the newest requests, at most the bound of them, the new one last, and
    counts it. *)
Theorem record_blocked_keeps r e b s s' :
  record_blocked r e b s = (s', Ok tt) →
  ∃ s1, reload_if_needed r s = (s1, Ok tt)
  ∧ blocked s' = drop (S (length (blocked s1)) - MAX_BLOCKED_EVENTS) (blocked s1 ++ [set_execution_id e b])
  ∧ length (blocked s') = min (S (length (blocked s1))) MAX_BLOCKED_EVENTS
  ∧ last (blocked s') = Some (set_execution_id e b)
  ∧ blocked_total s' = N.min usize_max (blocked_total s1 + 1)
  ∧ config s' = config s1 ∧ constraints s' = constraints s1.
Proof.
  unfold record_blocked. destruct (reload_if_needed r s) as [s1 [[]|]] eqn:E; [|done].
  intros [= <-]. exists s1. rewrite pop_excess_spec by done. rewrite length_app. simpl length.
  rewrite Nat.add_1_r. split; [done|]. unfold set_blocked. cbn [blocked blocked_total config constraints].
  assert (S (length (blocked s1)) - MAX_BLOCKED_EVENTS ≤ length (blocked s1)) as Hle by (unfold MAX_BLOCKED_EVENTS; lia).
  split; [done|]. rewrite length_drop, length_app. simpl length.
  split; [unfold MAX_BLOCKED_EVENTS; lia|]. split; [|done].
  rewrite drop_app_le by done. by rewrite last_snoc.
Qed.
End facts.
