(* ===== verification/NetMem.v ===== *)
(** * NetMem: instances of the network proxy's interfaces, and the theorems at them

    Globs without classes or alternatives, names as the only URL hosts, headers as texts:
    enough of the interfaces to run the policy on examples. *)
From Stdlib Require Import ZifyBool.
From S2P Require Import Prelude RustStr RustInt UnixPath PatchErrors AbsolutePath AuthPath.
From S2P Require Import IpAddr NetPolicy NetPolicyFacts MitmHook NetConfig.
From S2P Require Import NetState NetDecisionFacts NetDecide.

Module NetMem.

#[export] Instance mem_env : ProcessEnv := {| current_dir := Ok [RootDir]; home_dir := None |}.

(** ** Globs *)

Definition match_glob (g h : str) : bool :=
  if bool_decide (g = lit "*") then true
  else match strip_prefix (lit "?*.") g with
       | Some d =>
           ends_with (lit "." ++ to_ascii_lowercase d) (to_ascii_lowercase h)
           && (S (length d) <? length h)
       | None => bool_decide (to_ascii_lowercase g = to_ascii_lowercase h)
       end.

#[export] Instance mem_globs : GlobEngine := {|
  Glob := str;
  GlobSet := list str;
  glob_build p := if existsb (λ c, existsb (N.eqb c) (lit "[]{}\")) p then None else Some p;
  globset_build gs := Some gs;
  is_match set h := existsb (λ g, match_glob g h) set;
|}.

Lemma length_lower s : length (to_ascii_lowercase s) = length s.
Proof. apply length_map. Qed.

Lemma mem_glob_text p g h : glob_plain p = true → glob_build p = Some g →
  match_glob g h = true ↔ to_ascii_lowercase h = to_ascii_lowercase p.
Proof.
  intros Hp Hb. simpl in Hb. case_match; [done|]. injection Hb as <-. unfold match_glob.
  assert (42%N ∉ p ∧ 63%N ∉ p) as [Hs Hq] by by split; eapply glob_plain_not.
  rewrite bool_decide_eq_false_2 by (intros ->; apply Hs; by left).
  assert (strip_prefix (lit "?*.") p = None) as ->.
  { apply strip_prefix_None. intros [t ->]. apply Hq. by left. }
  rewrite bool_decide_eq_true. naive_solver.
Qed.

Lemma mem_glob_below d g h : glob_plain d = true → glob_build (lit "?*." ++ d) = Some g →
  match_glob g h = true ↔ below (to_ascii_lowercase h) (to_ascii_lowercase d).
Proof.
  intros Hp Hb. unfold glob_build, mem_globs in Hb. case_match; [done|]. apply (inj Some) in Hb as <-. unfold match_glob.
  rewrite bool_decide_eq_false_2 by done.
  rewrite strip_prefix_app, andb_true_iff, ends_with_spec, Nat.ltb_lt. unfold below.
  rewrite <- (length_lower h), <- (length_lower d). split.
  - intros [[x Hx] Hlen]. exists x. split; [|done]. intros ->. rewrite Hx in Hlen.
    rewrite !length_app in Hlen. simpl in Hlen. lia.
  - intros (x & Hx & ->). split; [by exists x|]. rewrite !length_app.
    destruct x; [done|]. simpl. lia.
Qed.

#[export] Instance mem_glob_laws : GlobLaws.
Proof.
  refine {| NetPolicyFacts.glob_matches := (match_glob : Glob → str → bool) |}.
  - intros gs set h [= <-]. done.
  - apply mem_glob_text.
  - apply mem_glob_below.
Defined.

(** ** Names, headers, hooks *)

#[export] Instance mem_url : UrlHost :=
  {| url_host_parse d := if dns_name d then Some (to_ascii_lowercase d) else None |}.
#[export] Instance mem_url_laws : UrlLaws.
Proof. split. intros d Hd _. simpl. by rewrite Hd. Qed.

Record MemRequest := mkMemRequest {
  mr_method : str;
  mr_path : str;
  mr_host : option str;
}.

#[export] Instance mem_http : HttpTypes := {|
  HeaderName := str;
  HeaderValue := str;
  header_name_from_bytes n := if bool_decide (n = []) then None else Some (to_ascii_lowercase n);
  header_value_from_str v := Some v;
  header_value_to_str v := Some v;
  Request := MemRequest;
  req_method := mr_method;
  uri_path := mr_path;
  uri_query _ := None;
  headers_get_all n r :=
    if bool_decide (n = lit "host") then match mr_host r with Some h => [h] | None => [] end else [];
  form_urlencoded_parse _ := [];
  JsonValue := unit;
|}.
#[export] Instance mem_matchers : GlobMatchers := {|
  GlobMatcher := str;
  glob_matcher_build _ p := Some p;
  glob_matches p s := bool_decide (p = s);
|}.
#[export] Instance mem_broker : CredentialBroker := {| CredentialSettings := unit |}.
#[export] Instance mem_mitm : MitmEnv := {|
  MitmState := unit;
  mitm_state_new _ := Ok tt;
  env_var n := if bool_decide (n = lit "TOKEN") then Some (lit "secret") else None;
  read_to_string _ := Err [];
|}.
#[export] Instance mem_parts : HttpParts := {|
  Scheme := bool;
  SCHEME_HTTP := true;
  scheme_str b := if b : bool then lit "http" else lit "https";
  Authority := str;
  authority_str a := a;
  authority_host a := a;
  port_u16 _ := None;
  parse_authority a := Some a;
  uri_scheme _ := None;
  uri_authority _ := None;
  peer_addr _ := None;
  HOST := lit "host";
  UPGRADE := lit "upgrade";
  HeaderMap := str → list str;
  map_get_all n m := m n;
  map_remove n m := λ n', if decide (n' = n) then [] else m n';
  map_insert n v m := λ n', if decide (n' = n) then [v] else m n';
|}.
#[export] Instance mem_header_laws : HeaderLaws.
Proof.
  refine {| HeaderName_eq_dec := (_ : EqDecision str) |}; simpl; intros; by case_decide.
Defined.

(** ** A state *)

Definition hook : MitmHookConfig :=
  mkHook (lit "api.example.com") (mkMatch [lit "get"] [lit "/repos/"] [] [] None) [lit "authorization"]
    [mkInjected (lit "authorization") (Some (lit "TOKEN")) None (Some (lit "Bearer "))].

Definition config0 : NetworkProxyConfig :=
  mkConfig true [] false [] false true false false Full
    (Some [mkEntry (lit "**.evil.com") PermDeny; mkEntry (lit "**.example.com") PermAllow;
           mkEntry (lit "evil.com") PermAllow])
    None false true false (tt : CredentialSettings) [hook].
Definition constraints0 : NetworkProxyConstraints :=
  mkConstraints None None None None None (Some [lit "**.example.com"; lit "*.com"]) None None None None None.

Definition state0 : ConfigState :=
  match build_config_state config0 constraints0 with
  | Ok s => s
  | Err _ => mkState config0 false [] [] None ∅ constraints0 [] 0
  end.

Example state0_built : is_ok (build_config_state config0 constraints0) = true.
Proof. vm_compute. reflexivity. Qed.
Example config0_valid : validate_policy_against_constraints config0 constraints0 = Ok tt.
Proof. vm_compute. reflexivity. Qed.

Lemma state0_sound : sound state0.
Proof.
  apply (build_config_state_sound config0 constraints0); [exact config0_valid|].
  unfold state0. pose proof state0_built as Hb. by destruct (build_config_state config0 constraints0).
Qed.

Definition public (host : str) (port : N) : option (list IpAddr) := Some [V4 (from_octets 8 8 8 8)].
Definition alone : turn := mkTurn (Ok None) (λ s, s) (λ s, s).

Lemma alone_sound : turn_sound alone.
Proof. by split. Qed.

Example decisions : map (λ h, decide_host public (lit h) 443 state0)
    ["API.example.com"; "www.evil.com"; "evil.com"; "other.org"; "127.0.0.1"]%string =
  [Allowed; Blocked Denied; Blocked Denied; Blocked NotAllowed; Blocked NotAllowedLocal].
Proof. vm_compute. reflexivity. Qed.

(** ** The theorems at the state *)

Definition blocked0 : BlockedRequest :=
  mkBlocked (lit "evil.com") [] None None None [] None None None None 0.
Definition recorded : ConfigState := (record_blocked (Ok None) None blocked0 state0).1.

Lemma reachable_sound_witness : sound (drain_blocked (Ok None) recorded).1.
Proof.
  apply (reachable_sound config0 constraints0 state0).
  - exact config0_valid.
  - unfold state0. pose proof state0_built as Hb. by destruct (build_config_state config0 constraints0).
  - apply (rtc_l _ _ recorded).
    + exact (step_record (Ok None) None blocked0 state0 recorded (Ok tt) I eq_refl).
    + apply rtc_once. exact (step_drain (Ok None) recorded _ _ I eq_refl).
Defined.

(** The state after an update made alone. *)
Definition after (k : DomainListKind) (host : str) : ConfigState :=
  match update_domain_list k host [alone] state0 with Some (s, _) => s | None => state0 end.

Lemma update_takes_effect_witness : decide_host public (lit "www.example.com:80") 80 (after ListDeny (lit "WWW.example.com.")) = Blocked Denied.
Proof.
  assert (update_domain_list ListDeny (lit "WWW.example.com.") [alone] state0
    = Some (after ListDeny (lit "WWW.example.com."), Ok tt)) as Hu by by vm_compute.
  destruct (update_takes_effect ListDeny (lit "WWW.example.com.") [alone] state0 _ public 80
    state0_sound (proj2 (Forall_singleton turn_sound alone) alone_sound) ltac:(by vm_compute) Hu) as [_ Hd].
  transitivity (decide_host public (lit "WWW.example.com.") 80 (after ListDeny (lit "WWW.example.com."))); [|exact Hd].
  vm_compute. reflexivity.
Defined.

Lemma update_ends_witness :
  is_Some (update_domain_list ListAllow (lit "a.example.com")
    [mkTurn (Ok None) (λ s, s) (set_config (set_mode Limited config0)); alone] state0).
Proof. apply update_ends. right. left. by split. Defined.

Lemma deny0 : listed PermDeny (config state0) = map pattern_text [ApexAndSubdomains (lit "evil.com")].
Proof. vm_compute. reflexivity. Qed.
Lemma allow0 : listed PermAllow (config state0) =
  map pattern_text [ApexAndSubdomains (lit "example.com"); Exact (lit "evil.com")].
Proof. vm_compute. reflexivity. Qed.

Lemma allowed_host_safe_witness :
  ¬ covers (ApexAndSubdomains (lit "evil.com")) (normalize_host (lit "API.example.com"))
  ∧ reaches_public public (normalize_host (lit "API.example.com")) 443.
Proof.
  destruct (allowed_host_safe public (lit "API.example.com") 443 state0 _ state0_sound deny0
    ltac:(by repeat constructor) ltac:(by vm_compute)) as [Hd Hl].
  split; [apply Hd; by left|]. specialize (Hl eq_refl).
  change (is_local_literal (normalize_host (lit "API.example.com"))) with false in Hl. exact Hl.
Defined.

Lemma managed_allowlist_enforced_witness :
  ∃ m x, m ∈ [ApexAndSubdomains (lit "example.com"); SubdomainsOnly (lit "com")]
    ∧ x ∈ spellings (normalize_host (lit "API.example.com")) ∧ covers m x.
Proof.
  apply (managed_allowlist_enforced public (lit "API.example.com") 443 state0
    [ApexAndSubdomains (lit "example.com"); SubdomainsOnly (lit "com")]
    [ApexAndSubdomains (lit "example.com"); Exact (lit "evil.com")] state0_sound);
    try (by repeat constructor); vm_compute; reflexivity.
Defined.

Lemma port_entries_escape_witness :
  validate_allowed_domains None [lit "corp.com:443"] [lit "evil.com:443"] ∅ = Ok tt.
Proof.
  refine (proj1 (port_entries_escape (lit "corp.com") (lit "evil.com") ∅ [] _ _ _ _)); by vm_compute.
Defined.

(** ** Decisions *)

Definition request0 : NetworkPolicyRequest :=
  mkRequest Http (lit "other.org") 443 None None None None None None.
Definition yes : NetworkPolicyRequest → NetworkDecision := λ _, NetAllow.

Lemma decider_only_widens_witness :
  ∃ s' audit, evaluate_host_policy public (Some yes) None None alone request0 state0 = (s', Ok (NetAllow, audit))
    ∧ a_override audit = true.
Proof.
  destruct (evaluate_host_policy public (Some yes) None None alone request0 state0) as [s' r] eqn:E.
  assert (r = Ok (NetAllow, audit_of NetAllow true)) as ->.
  { apply (f_equal snd) in E. simpl in E. rewrite <- E. vm_compute. reflexivity. }
  exists s', (audit_of NetAllow true). split; [done|].
  destruct (decider_only_widens _ _ _ _ _ _ _ _ _ E) as [[_ ?]|(_ & ? & _)]; done.
Defined.

(** A state whose allowlist names a loopback address. *)
Definition state1 : ConfigState :=
  match build_config_state (set_domains (Some [mkEntry (lit "127.0.0.1") PermAllow]) config0)
          (mkConstraints None None None None None None None None None None None) with
  | Ok s => s
  | Err _ => state0
  end.

Lemma connect_local_named_witness :
  decide_host public (lit "127.0.0.1") 80 state1 = Allowed.
Proof.
  destruct (connect_local_named public alone alone (Address (V4 (from_octets 127 0 0 1))) (lit "127.0.0.1") 80
    (V4 (from_octets 127 0 0 1)) state1 state1 ltac:(vm_compute; reflexivity) ltac:(vm_compute; reflexivity))
    as [Hb|[Hd _]]; [by vm_compute in Hb|exact Hd].
Defined.

(** ** Hooks *)

Definition policy0 : MitmPolicyContext := mkPolicy (lit "api.example.com") 443 false Full.
Definition good_request : Request := mkMemRequest (lit "GET") (lit "/repos/x") (Some (lit "api.example.com")).
Definition bad_request : Request := mkMemRequest (lit "GET") (lit "/repos/../x") (Some (lit "api.example.com")).

Example mitm_answers : map (λ r : Request,
    match (evaluate_mitm_policy public alone alone alone None 0 r policy0 state0).2 with
    | Ok (MitmAllow (Some a)) => map r_value (inject_headers a)
    | Ok (MitmBlock (BlockedText reason)) => [reason]
    | _ => []
    end) [good_request; bad_request] = [[lit "Bearer secret"]; [lit "mitm_hook_denied"]].
Proof. vm_compute. reflexivity. Qed.

Definition actions0 : MitmHookActions :=
  match evaluate_mitm_hooks (compiled_hooks state0) (lit "api.example.com") good_request with
  | Matched a => a
  | _ => mkActions [] []
  end.

Lemma intercepted_request_confined_witness :
  ∃ d, percent_decode (uri_path good_request) = Some d.
Proof.
  destruct (intercepted_request_confined public alone alone alone None 0 good_request policy0 state0 state0 actions0
    alone_sound alone_sound state0_sound ltac:(vm_compute; reflexivity) ltac:(vm_compute; reflexivity))
    as (_ & _ & _ & _ & _ & _ & _ & _ & _ & _ & _ & (d & Hd & _) & _).
  exists d. exact Hd.
Defined.

Lemma evaluate_in_order_witness :
  ∃ cs, evaluate_mitm_hooks (compiled_hooks state0) (lit "api.example.com") good_request
    = evaluate_reference cs (lit "api.example.com") good_request.
Proof.
  destruct (evaluate_in_order _ _ _ _ (compiled_hooks state0)
    (lit "api.example.com") good_request (sound_hooks _ state0_sound)) as (cs & _ & Heq).
  exists cs. exact Heq.
Defined.

Definition headers0 : HeaderMap := λ _ : str, [lit "mine"].
Lemma actions_on_headers_witness :
  map_get_all (lit "authorization" : HeaderName) (apply_mitm_hook_actions (Some actions0) headers0) = [lit "Bearer secret"].
Proof. rewrite (actions_on_headers actions0 headers0 (lit "authorization")). vm_compute. reflexivity. Defined.

Lemma record_blocked_keeps_witness :
  ∃ s', record_blocked (Ok None) None blocked0 state0
    = (s', Ok tt) ∧ length (blocked s') = 1.
Proof.
  destruct (record_blocked (Ok None) None blocked0 state0) as [s' r] eqn:E.
  assert (r = Ok tt) as -> by by (apply (f_equal snd) in E).
  exists s'. split; [done|]. destruct (record_blocked_keeps _ _ _ _ _ E) as (s1 & Hr & _ & Hl & _).
  injection Hr as <-. rewrite Hl. vm_compute. reflexivity.
Defined.
End NetMem.
