(* ===== verification/MultiMap.v ===== *)
(** * MultiMap: the [multimap] crate's map as an interface

    The operations the policy uses, their documented laws, and an implementation on
    finite maps that discharges them. *)
From S2P Require Import Prelude RustStr.

Class MultiMapOps (V MM : Type) := {
  (** [MultiMap::new]. *)
  mm_new : MM;
  (** [MultiMap::insert]: the value is added after the others of its key. *)
  mm_insert : str → V → MM → MM;
  (** [MultiMap::get_vec]. *)
  get_vec : str → MM → option (list V);
  (** [MultiMap::iter_all]: every key with its values, in no particular order. *)
  iter_all : MM → list (str * list V);
}.

Class MultiMap (V MM : Type) `{MultiMapOps V MM} := {
  get_vec_new k : get_vec k mm_new = None;
  get_vec_insert k v m : get_vec k (mm_insert k v m) = Some (default [] (get_vec k m) ++ [v]);
  get_vec_insert_ne k j v m : j ≠ k → get_vec j (mm_insert k v m) = get_vec j m;
  iter_all_NoDup m : NoDup (iter_all m).*1;
  elem_of_iter_all m k vs : (k, vs) ∈ iter_all m ↔ get_vec k m = Some vs;
}.

#[export] Instance gmap_multimap_ops V : MultiMapOps V (gmap str (list V)) := {|
  mm_new := ∅;
  mm_insert k v m := <[k := default [] (m !! k) ++ [v]]> m;
  get_vec k m := m !! k;
  iter_all := map_to_list;
|}.

#[export] Instance gmap_multimap V : MultiMap V (gmap str (list V)).
Proof.
  split; simpl.
  - intros k. apply lookup_empty.
  - intros k v m. apply lookup_insert_eq.
  - intros k j v m Hne. by rewrite lookup_insert_ne.
  - intros m. apply NoDup_fst_map_to_list.
  - intros m k vs. apply elem_of_map_to_list.
Qed.

(** Inserting the values of a list of entries, entry by entry: the two nested loops
    of the callers. *)
Definition insert_all {V MM} `{MultiMapOps V MM} (k : str) (vs : list V) (m : MM) : MM :=
  foldl (λ m v, mm_insert k v m) m vs.
Definition extend_map {V MM} `{MultiMapOps V MM} (entries : list (str * list V)) (m : MM) : MM :=
  foldl (λ m '(k, vs), insert_all k vs m) m entries.

Section facts.
Context {V MM : Type} {Ops : MultiMapOps V MM} {Laws : MultiMap V MM}.
Implicit Types m : MM.

(** The values of a key, none when it is absent. *)
Definition values (k : str) m : list V := default [] (get_vec k m).

(** The values of all keys. *)
Definition all_values m : list V := iter_all m ≫= snd.

Lemma values_new k : values k (mm_new : MM) = [].
Proof. unfold values. by rewrite get_vec_new. Qed.

Lemma values_insert k j v m :
  values j (mm_insert k v m) = values j m ++ (if decide (j = k) then [v] else []).
Proof.
  unfold values. case_decide as Hjk; [subst; by rewrite get_vec_insert|].
  by rewrite get_vec_insert_ne, app_nil_r.
Qed.

Lemma values_insert_all k j vs m :
  values j (insert_all k vs m) = values j m ++ (if decide (j = k) then vs else []).
Proof.
  unfold insert_all. revert m. induction vs as [|v vs IH]; intros m; simpl.
  - case_decide; by rewrite app_nil_r.
  - rewrite IH, values_insert. case_decide; [by rewrite <- app_assoc|by rewrite !app_nil_r].
Qed.

Lemma values_extend_map entries j m :
  NoDup entries.*1 →
  values j (extend_map entries m) = values j m ++ default [] ((list_to_map entries : gmap str (list V)) !! j).
Proof.
  unfold extend_map. revert m. induction entries as [|[k vs] entries IH]; intros m; simpl.
  - intros _. by rewrite lookup_empty, app_nil_r.
  - intros [Hk Hnd]%NoDup_cons. rewrite IH, values_insert_all by done. rewrite <- app_assoc. f_equal.
    case_decide as Hjk; [subst|].
    + rewrite lookup_insert_eq. rewrite not_elem_of_list_to_map_1 by done. by rewrite app_nil_r.
    + by rewrite lookup_insert_ne.
Qed.

(** Extending a map with another one appends the values key by key. *)
Lemma values_extend j m1 m2 :
  values j (extend_map (iter_all m2) m1) = values j m1 ++ values j m2.
Proof.
  rewrite values_extend_map by apply iter_all_NoDup. f_equal. unfold values. f_equal.
  destruct (get_vec j m2) as [vs|] eqn:Hj.
  - apply elem_of_list_to_map_1; [apply iter_all_NoDup|]. by apply elem_of_iter_all.
  - apply not_elem_of_list_to_map_1. intros ([k vs] & -> & Hin)%list_elem_of_fmap_1.
    apply elem_of_iter_all in Hin. simpl in *. congruence.
Qed.

Lemma elem_of_all_values v m : v ∈ all_values m ↔ ∃ k, v ∈ values k m.
Proof.
  unfold all_values, values. rewrite list_elem_of_bind. split.
  - intros ([k vs] & Hv & Hin). apply elem_of_iter_all in Hin. exists k. by rewrite Hin.
  - intros [k Hv]. destruct (get_vec k m) as [vs|] eqn:Hk; [|by apply not_elem_of_nil in Hv].
    exists (k, vs). split; [done|]. by apply elem_of_iter_all.
Qed.
End facts.
