(* ===== verification/ExecRule.v ===== *)
(** * ExecRule: decisions, patterns and rules of the execution policy
    ([execpolicy/src/decision.rs], [error.rs], [executable_name.rs], [rule.rs]) *)
From S2P Require Import Prelude RustStr UnixPath.

(** ** Decisions *)

(** Ordered as declared: [Allow < Prompt < Forbidden]. *)
Inductive Decision := Allow | Prompt | Forbidden.

#[export] Instance Decision_eq_dec : EqDecision Decision.
Proof. solve_decision. Defined.

Definition severity (d : Decision) : nat :=
  match d with Allow => 0 | Prompt => 1 | Forbidden => 2 end.

(** [Ord] of [Decision] and [Iterator::max]. *)
Definition decision_max (a b : Decision) : Decision := if severity a <=? severity b then b else a.
Definition max_decision (ds : list Decision) : option Decision :=
  match ds with [] => None | d :: ds => Some (foldl decision_max d ds) end.

(** ** Errors *)

Record TextPosition := mkPosition { line : nat; column : nat }.
Record TextRange := mkRange { range_start : TextPosition; range_end : TextPosition }.
Record ErrorLocation := mkLocation { location_path : str; range : TextRange }.

(** [Error]; a Starlark error is carried by its message. *)
Inductive Error :=
| InvalidDecision (raw : str)
| InvalidPattern (msg : str)
| InvalidExample (msg : str)
| InvalidRule (msg : str)
| ExampleDidNotMatch (rules examples : list str) (location : option ErrorLocation)
| ExampleDidMatch (rule example : str) (location : option ErrorLocation)
| Starlark (msg : str).

Definition with_location (location : ErrorLocation) (e : Error) : Error :=
  match e with
  | ExampleDidNotMatch rules examples None => ExampleDidNotMatch rules examples (Some location)
  | ExampleDidMatch rule example None => ExampleDidMatch rule example (Some location)
  | other => other
  end.

Definition Decision_parse (raw : str) : result Error Decision :=
  if bool_decide (raw = lit "allow") then Ok Allow
  else if bool_decide (raw = lit "prompt") then Ok Prompt
  else if bool_decide (raw = lit "forbidden") then Ok Forbidden
  else Err (InvalidDecision raw).

(** ** Executable names *)

(** [executable_lookup_key] as compiled for Windows, and elsewhere. *)
Definition WINDOWS_EXECUTABLE_SUFFIXES : list str := [lit ".exe"; lit ".cmd"; lit ".bat"; lit ".com"].
Fixpoint strip_first_suffix (suffixes : list str) (raw : str) : str :=
  match suffixes with
  | [] => raw
  | suffix :: suffixes =>
      match strip_suffix suffix raw with
      | Some stripped => stripped
      | None => strip_first_suffix suffixes raw
      end
  end.
Definition executable_lookup_key_windows (raw : str) : str :=
  strip_first_suffix WINDOWS_EXECUTABLE_SUFFIXES (to_ascii_lowercase raw).
Definition executable_lookup_key (raw : str) : str := raw.

Definition executable_path_lookup_key (path : Path) : option str :=
  executable_lookup_key <$> file_name path.

(** ** Patterns *)

Inductive PatternToken := Single (expected : str) | Alts (alts : list str).

#[export] Instance PatternToken_eq_dec : EqDecision PatternToken.
Proof. solve_decision. Defined.

Definition token_matches (t : PatternToken) (token : str) : bool :=
  match t with
  | Single expected => bool_decide (expected = token)
  | Alts alternatives => existsb (λ alt, bool_decide (alt = token)) alternatives
  end.
Definition alternatives (t : PatternToken) : list str :=
  match t with Single expected => [expected] | Alts alternatives => alternatives end.

Record PrefixPattern := mkPattern { first : str; rest : list PatternToken }.

#[export] Instance PrefixPattern_eq_dec : EqDecision PrefixPattern.
Proof. solve_decision. Defined.

(** The loop over [rest.iter().zip(..)]. *)
Fixpoint zip_matches (rest : list PatternToken) (cmd : list str) : bool :=
  match rest, cmd with
  | pattern_token :: rest, cmd_token :: cmd =>
      if negb (token_matches pattern_token cmd_token) then false else zip_matches rest cmd
  | _, _ => true
  end.

(** [cmd[0]] is read after the length test, so it exists. *)
Definition matches_prefix (p : PrefixPattern) (cmd : list str) : option (list str) :=
  let pattern_length := length (rest p) + 1 in
  if (length cmd <? pattern_length) || negb (bool_decide (head cmd = Some (first p))) then None
  else if negb (zip_matches (rest p) (take (pattern_length - 1) (drop 1 cmd))) then None
  else Some (take pattern_length cmd).

Inductive RuleMatch :=
| PrefixRuleMatch (matched_prefix : list str) (decision : Decision)
    (resolved_program : option Path) (justification : option str)
| HeuristicsRuleMatch (command : list str) (decision : Decision).

#[export] Instance RuleMatch_eq_dec : EqDecision RuleMatch.
Proof. solve_decision. Defined.

Definition match_decision (m : RuleMatch) : Decision :=
  match m with PrefixRuleMatch _ decision _ _ => decision | HeuristicsRuleMatch _ decision => decision end.

Definition with_resolved_program (resolved_program : Path) (m : RuleMatch) : RuleMatch :=
  match m with
  | PrefixRuleMatch matched_prefix decision _ justification =>
      PrefixRuleMatch matched_prefix decision (Some resolved_program) justification
  | other => other
  end.

(** ** Rules *)

Record PrefixRule := mkPrefixRule {
  pattern : PrefixPattern;
  decision : Decision;
  justification : option str;
}.

#[export] Instance PrefixRule_eq_dec : EqDecision PrefixRule.
Proof. solve_decision. Defined.

(** The [Rule] trait; [as_prefix_rule] is [as_any().downcast_ref::<PrefixRule>()]. *)
Class Rule (R : Type) := {
  program : R → str;
  rule_matches : R → list str → option RuleMatch;
  as_prefix_rule : R → option PrefixRule;
}.

#[export] Instance prefix_rule_Rule : Rule PrefixRule := {|
  program r := first (pattern r);
  rule_matches r cmd :=
    (λ matched_prefix, PrefixRuleMatch matched_prefix (decision r) None (justification r))
      <$> matches_prefix (pattern r) cmd;
  as_prefix_rule := Some;
|}.

(** [Arc<dyn Rule>]: [PrefixRule] is the only implementation. *)
Abbreviation RuleRef := PrefixRule (only parsing).

(** ** Network rules *)

Inductive NetworkRuleProtocol := Http | Https | Socks5Tcp | Socks5Udp.

#[export] Instance NetworkRuleProtocol_eq_dec : EqDecision NetworkRuleProtocol.
Proof. solve_decision. Defined.

Definition NetworkRuleProtocol_parse (raw : str) : result Error NetworkRuleProtocol :=
  if bool_decide (raw = lit "http") then Ok Http
  else if bool_decide (raw ∈ [lit "https"; lit "https_connect"; lit "http-connect"]) then Ok Https
  else if bool_decide (raw = lit "socks5_tcp") then Ok Socks5Tcp
  else if bool_decide (raw = lit "socks5_udp") then Ok Socks5Udp
  else Err (InvalidRule (lit "network_rule protocol must be one of http, https, socks5_tcp, socks5_udp (got "
                         ++ raw ++ lit ")")).

Definition as_policy_string (p : NetworkRuleProtocol) : str :=
  match p with
  | Http => lit "http" | Https => lit "https"
  | Socks5Tcp => lit "socks5_tcp" | Socks5Udp => lit "socks5_udp"
  end.

Record NetworkRule := mkNetworkRule {
  host : str;
  protocol : NetworkRuleProtocol;
  network_decision : Decision;
  network_justification : option str;
}.

#[export] Instance NetworkRule_eq_dec : EqDecision NetworkRule.
Proof. solve_decision. Defined.

(** A port: not empty, ASCII digits only. *)
Definition is_port (port : str) : bool := negb (bool_decide (port = [])) && forallb is_ascii_digit port.

(** The host of [[inside]rest], or of [candidate:port]. *)
Definition strip_port (raw host : str) : result Error str :=
  match strip_prefix (lit "[") host with
  | Some stripped =>
      match split_once 93%N stripped with
      | None => Err (InvalidRule (lit "network_rule host has an invalid bracketed IPv6 literal"))
      | Some (inside, rest) =>
          let port_ok := match strip_prefix (lit ":") rest with Some port => is_port port | None => false end in
          if negb (bool_decide (rest = [])) && negb port_ok
          then Err (InvalidRule (lit "network_rule host contains an unsupported suffix: " ++ raw))
          else Ok inside
      end
  | None =>
      if count_char 58%N host =? 1 then
        match rsplit_once 58%N host with
        | Some (candidate, port) =>
            if negb (bool_decide (candidate = [])) && is_port port then Ok candidate else Ok host
        | None => Ok host
        end
      else Ok host
  end.

Definition normalize_network_rule_host (raw : str) : result Error str :=
  let host := trim raw in
  if bool_decide (host = []) then Err (InvalidRule (lit "network_rule host cannot be empty"))
  else if contains (lit "://") host || contains (lit "/") host || contains (lit "?") host
          || contains (lit "#") host
  then Err (InvalidRule (lit "network_rule host must be a hostname or IP literal (without scheme or path)"))
  else
    host ← strip_port raw host;
    let normalized := to_ascii_lowercase (trim (trim_end_matches 46%N host)) in
    if bool_decide (normalized = []) then Err (InvalidRule (lit "network_rule host cannot be empty"))
    else if contains (lit "*") normalized
    then Err (InvalidRule (lit "network_rule host must be a specific host; wildcards are not allowed"))
    else if existsb is_whitespace normalized
    then Err (InvalidRule (lit "network_rule host cannot contain whitespace"))
    else Ok normalized.

Example host_port : normalize_network_rule_host (lit " API.Github.com.:443 ") = Ok (lit "api.github.com").
Proof. reflexivity. Qed.
Example host_v6 : normalize_network_rule_host (lit "[::1]:8080") = Ok (lit "::1").
Proof. reflexivity. Qed.
Example host_bare_v6 : normalize_network_rule_host (lit "fe80::1") = Ok (lit "fe80::1").
Proof. reflexivity. Qed.
Example host_bracket_port : normalize_network_rule_host (lit "[a:80]") = Ok (lit "a:80").
Proof. reflexivity. Qed.

(** ** Matching *)

Lemma zip_matches_spec rest cmd :
  length cmd = length rest →
  zip_matches rest cmd = true ↔ Forall2 (λ p t, t ∈ alternatives p) rest cmd.
Proof.
  assert (∀ p t, token_matches p t = true ↔ t ∈ alternatives p) as Htok.
  { intros [e|alts] t; simpl.
    - rewrite bool_decide_eq_true, list_elem_of_singleton. naive_solver.
    - rewrite existsb_exists. split.
      + intros (x & Hx & ->%bool_decide_eq_true). by apply list_elem_of_In.
      + intros Hx. exists t. split; [by apply list_elem_of_In|by apply bool_decide_eq_true]. }
  revert cmd. induction rest as [|p rest IH]; intros [|t cmd]; simpl; try done.
  intros [= Hlen]. rewrite Forall2_cons, <- IH, <- Htok by done. destruct (token_matches p t); naive_solver.
Qed.

Lemma matches_prefix_Some p cmd m :
  matches_prefix p cmd = Some m ↔
  ∃ args more, m = first p :: args ∧ cmd = m ++ more ∧ Forall2 (λ q t, t ∈ alternatives q) (rest p) args.
Proof.
  unfold matches_prefix. destruct (Nat.ltb_spec (length cmd) (length (rest p) + 1)) as [Hlt|Hge]; simpl.
  { split; [done|]. intros (args & more & -> & -> & Hf%Forall2_length). simpl in Hlt.
    rewrite length_app in Hlt. lia. }
  destruct cmd as [|c cmd]; [simpl in Hge; lia|]. simpl in Hge. rewrite Nat.add_sub. simpl.
  rewrite drop_0, Nat.add_comm. simpl.
  assert (length (take (length (rest p)) cmd) = length (rest p)) as Hlen by (rewrite length_take; lia).
  case_bool_decide as Hc; simpl.
  - injection Hc as ->. destruct (zip_matches _ _) eqn:Hz; simpl.
    + apply zip_matches_spec in Hz; [|done]. split.
      * intros [= <-]. exists (take (length (rest p)) cmd), (drop (length (rest p)) cmd).
        simpl. by rewrite take_drop.
      * intros (args & more & -> & [= ->] & Hf%Forall2_length). by rewrite Hf, take_app_length.
    + split; [done|]. intros (args & more & -> & [= ->] & Hf). pose proof (Forall2_length _ _ _ Hf) as Hl.
      rewrite Hl, take_app_length in Hz. apply zip_matches_spec in Hf; [congruence|done].
  - split; [done|]. intros (args & more & -> & [= -> ->] & _). done.
Qed.

(** ** Decisions as numbers *)

Lemma severity_inj a b : severity a = severity b → a = b.
Proof. by destruct a, b. Qed.

Lemma severity_max a b : severity (decision_max a b) = severity a `max` severity b.
Proof. unfold decision_max. destruct (Nat.leb_spec (severity a) (severity b)); lia. Qed.

Lemma max_decision_spec ds d :
  max_decision ds = Some d ↔ d ∈ ds ∧ ∀ d', d' ∈ ds → severity d' ≤ severity d.
Proof.
  assert (∀ ds a, foldl decision_max a ds ∈ a :: ds ∧
            ∀ d', d' ∈ a :: ds → severity d' ≤ severity (foldl decision_max a ds)) as Hfold.
  { clear ds d. induction ds as [|b ds IH]; intros a; simpl.
    - split; [by apply list_elem_of_singleton|]. by intros d' ->%list_elem_of_singleton.
    - destruct (IH (decision_max a b)) as [Hin Hmax]. split.
      + apply elem_of_cons in Hin as [Hin|Hin]; [|set_solver]. rewrite Hin. unfold decision_max.
        case_match; set_solver.
      + intros d' Hd'. specialize (Hmax (decision_max a b) ltac:(set_solver)).
        rewrite severity_max in Hmax. rewrite !elem_of_cons in Hd'. destruct Hd' as [->|[->|Hd']]; [lia|lia|].
        destruct (IH (decision_max a b)) as [_ Hm]. apply Hm. set_solver. }
  destruct ds as [|a ds]; simpl.
  { split; [done|]. by intros [?%not_elem_of_nil _]. }
  destruct (Hfold ds a) as [Hin Hmax]. split; [by intros [= <-]|].
  intros [Hd Hdm]. f_equal. apply severity_inj. specialize (Hmax d Hd). specialize (Hdm _ Hin). lia.
Qed.

(** * The normal form of network hosts *)

Lemma trim_end_matches_app c s dots :
  forallb (is_char c) dots = true → last s ≠ Some c → trim_end_matches c (s ++ dots) = s.
Proof.
  intros Hd Hs. unfold trim_end_matches. rewrite drop_while_end_app, drop_while_end_all by done.
  destruct s as [|d s _] using rev_ind; [done|]. rewrite last_snoc in Hs.
  apply drop_while_end_last. unfold is_char. apply N.eqb_neq. congruence.
Qed.

(** ** Hosts *)

(** A char of a normalized host. *)
Definition host_char (c : char) : Prop :=
  is_whitespace c = false ∧ (c < 65 ∨ 90 < c)%N ∧ c ∉ lit "/?#*".

Lemma upper_dec c : ((65 <=? c) && (c <=? 90))%N = true ↔ (65 <= c <= 90)%N.
Proof. by rewrite andb_true_iff, !N.leb_le. Qed.

Lemma upper_dec_false c : ((65 <=? c) && (c <=? 90))%N = false ↔ (c < 65 ∨ 90 < c)%N.
Proof. rewrite andb_false_iff, !N.leb_gt. lia. Qed.

Lemma lower_idemp s : to_ascii_lowercase (to_ascii_lowercase s) = to_ascii_lowercase s.
Proof.
  unfold to_ascii_lowercase. rewrite map_map. apply map_ext. intros c. unfold to_ascii_lower.
  destruct ((65 <=? c) && (c <=? 90))%N eqn:E; [|by rewrite E].
  destruct ((65 <=? c + 32) && (c + 32 <=? 90))%N eqn:E2; [|done].
  apply upper_dec in E, E2. lia.
Qed.

Lemma to_ascii_lower_other c d :
  (d < 97 ∨ 122 < d)%N → (d < 65 ∨ 90 < d)%N → to_ascii_lower c = d ↔ c = d.
Proof.
  unfold to_ascii_lower. intros H1 H2. destruct ((65 <=? c) && (c <=? 90))%N eqn:E; [|done].
  apply upper_dec in E. split; lia.
Qed.

Lemma lower_upper c : (to_ascii_lower c < 65 ∨ 90 < to_ascii_lower c)%N.
Proof.
  unfold to_ascii_lower.
  destruct ((65 <=? c) && (c <=? 90))%N eqn:E; [apply upper_dec in E|apply upper_dec_false in E]; lia.
Qed.

Lemma lower_id s : Forall (λ c, (c < 65 ∨ 90 < c)%N) s → to_ascii_lowercase s = s.
Proof.
  induction 1 as [|c s Hc Hs IH]; [done|]. simpl. rewrite IH. unfold to_ascii_lower.
  apply upper_dec_false in Hc. by rewrite Hc.
Qed.

Lemma elem_of_lower d s :
  (d < 97 ∨ 122 < d)%N → (d < 65 ∨ 90 < d)%N → d ∈ to_ascii_lowercase s ↔ d ∈ s.
Proof.
  intros H1 H2. unfold to_ascii_lowercase. rewrite !list_elem_of_In, in_map_iff. split.
  - intros (c & Hc & Hin). apply (to_ascii_lower_other c d H1 H2) in Hc as ->. exact Hin.
  - intros Hin. exists d. split; [|done]. by apply to_ascii_lower_other.
Qed.

(** Chars of the stripped host come from the host. *)
Lemma strip_port_sub raw s h c : strip_port raw s = Ok h → c ∈ h → c ∈ s.
Proof.
  unfold strip_port. destruct (strip_prefix (lit "[") s) as [t|] eqn:Hp.
  - apply strip_prefix_Some in Hp as ->. destruct (split_once 93%N t) as [[inside rest]|] eqn:Hs; [|done].
    apply split_once_Some in Hs as [-> _]. destruct (_ && _); [done|]. intros [= ->] Hc.
    apply elem_of_app; right. apply elem_of_app. by left.
  - destruct (_ =? 1); [|by intros [= ->]]. destruct (rsplit_once 58%N s) as [[a b]|] eqn:Hs; [|by intros [= ->]].
    apply rsplit_once_Some in Hs as [-> _]. destruct (_ && _); intros [= <-]; set_solver.
Qed.

Lemma trim_sub c s : c ∈ trim s → c ∈ s.
Proof.
  unfold trim. intros Hc. destruct (trim_end_prefix (trim_start s)) as [t Ht].
  destruct (drop_while_suffix is_whitespace s) as [u Hu]. fold (trim_start s) in Hu. rewrite Hu, Ht. set_solver.
Qed.

Lemma trim_end_matches_sub d c s : c ∈ trim_end_matches d s → c ∈ s.
Proof. intros Hc. destruct (drop_while_end_prefix (is_char d) s) as [t ->]. set_solver. Qed.

(** The last tests of the function: what they accept. *)
Lemma normalize_inv raw h :
  normalize_network_rule_host raw = Ok h →
  h ≠ [] ∧ Forall host_char h.
Proof.
  unfold normalize_network_rule_host. case_bool_decide as Hne; [done|].
  destruct (_ || _) eqn:Hbad; [done|]. rewrite !orb_false_iff in Hbad.
  destruct Hbad as [[[_ Hslash] Hq] Hhash]. apply contains_char_false in Hslash, Hq, Hhash.
  unfold mbind, result_bind. destruct (strip_port raw (trim raw)) as [host|] eqn:Hs; [|done].
  case_bool_decide as Hn; [done|]. destruct (contains (lit "*") _) eqn:Hstar; [done|].
  apply contains_char_false in Hstar. destruct (existsb _ _) eqn:Hws; [done|]. intros [= <-].
  split; [done|]. apply Forall_forall. intros c Hc. split_and!.
  - apply not_true_iff_false. intros Hcw. apply not_true_iff_false in Hws. apply Hws, existsb_exists.
    exists c. by rewrite <- list_elem_of_In.
  - unfold to_ascii_lowercase in Hc. apply list_elem_of_In, in_map_iff in Hc as (c0 & <- & _). apply lower_upper.
  - intros Hin. assert (c = 47 ∨ c = 63 ∨ c = 35 ∨ c = 42)%N as Hcs.
    { change (lit "/?#*") with [47; 63; 35; 42]%N in Hin. set_solver. }
    destruct Hcs as [-> |[-> |[-> | ->]]]; [apply Hslash|apply Hq|apply Hhash|by apply Hstar].
    all: eapply strip_port_sub; [done|]; eapply trim_end_matches_sub, trim_sub;
      match type of Hc with ?d ∈ _ => exact (proj1 (elem_of_lower d _ ltac:(lia) ltac:(lia)) Hc) end.
Qed.

(** The tests of the function, as far as a host passes them. *)
Lemma normalize_core raw mid host h :
  trim raw = mid → mid ≠ [] → (47 ∉ mid)%N → (63 ∉ mid)%N → (35 ∉ mid)%N →
  strip_port raw mid = Ok host → to_ascii_lowercase (trim (trim_end_matches 46%N host)) = h →
  h ≠ [] → Forall host_char h → normalize_network_rule_host raw = Ok h.
Proof.
  intros Hmid Hne Hslash Hq Hhash Hport Hh Hhne Hchars. unfold normalize_network_rule_host.
  rewrite Hmid, bool_decide_eq_false_2 by done.
  assert (contains (lit "://") mid = false) as ->.
  { apply not_true_iff_false. intros Hc. apply Hslash. eapply contains_elem; [done|].
    change (lit "://") with [58; 47; 47]%N. set_solver. }
  apply contains_char_false in Hslash, Hq, Hhash. cbn [orb].
  change (lit "/") with [47%N]. change (lit "?") with [63%N]. change (lit "#") with [35%N].
  rewrite Hslash, Hq, Hhash. cbn [orb]. unfold mbind, result_bind. rewrite Hport, Hh.
  rewrite bool_decide_eq_false_2 by done.
  rewrite Forall_forall in Hchars.
  assert (contains (lit "*") h = false) as ->.
  { apply (contains_char_false 42%N). intros Hin. destruct (Hchars _ Hin) as (_ & _ & Hn). apply Hn.
    change (lit "/?#*") with [47; 63; 35; 42]%N. set_solver. }
  assert (existsb is_whitespace h = false) as ->; [|done].
  apply not_true_iff_false. intros (c & Hin%list_elem_of_In & Hc)%existsb_exists.
  destruct (Hchars _ Hin) as (Hw & _). congruence.
Qed.

Lemma host_char_not c : host_char c → c ≠ 47%N ∧ c ≠ 63%N ∧ c ≠ 35%N ∧ is_whitespace c = false.
Proof.
  intros (Hw & _ & Hn). change (lit "/?#*") with [47; 63; 35; 42]%N in Hn. set_solver.
Qed.

Lemma host_chars_not s : Forall host_char s → (47 ∉ s ∧ 63 ∉ s ∧ 35 ∉ s)%N.
Proof.
  rewrite Forall_forall. intros Hs. split_and!; intros Hin; by destruct (host_char_not _ (Hs _ Hin)) as (? & ? & ? & ?).
Qed.

Lemma host_chars_trim s : Forall host_char s → trim s = s.
Proof. intros Hs. apply trim_none. eapply Forall_impl; [done|]. intros c Hc. apply Hc. Qed.

Lemma strip_bracket_None s : head s ≠ Some 91%N → strip_prefix (lit "[") s = None.
Proof.
  intros Hs. apply strip_prefix_None. intros [t ->]. by apply Hs.
Qed.

(** What [normalize_network_rule_host] accepts is a non-empty text without white
    space, upper-case ASCII letters, and the chars [/?#*]; and normalizing it again
    gives it back unless it reads as one of the decorated forms: a bracket at its
    start, exactly one colon, or a dot at its end. *)
Theorem normalize_host_output raw h :
  normalize_network_rule_host raw = Ok h →
  h ≠ [] ∧ Forall host_char h ∧
  (head h ≠ Some 91%N → count_char 58%N h ≠ 1 → last h ≠ Some 46%N → normalize_network_rule_host h = Ok h).
Proof.
  intros [Hne Hh]%normalize_inv. split_and!; [done..|]. intros Hb Hc Hd.
  destruct (host_chars_not h Hh) as (H1 & H2 & H3).
  apply (normalize_core h h h); try done; [by apply host_chars_trim| |].
  - unfold strip_port. rewrite strip_bracket_None by done. by destruct (Nat.eqb_spec (count_char 58%N h) 1).
  - rewrite <- (app_nil_r h) at 1. rewrite trim_end_matches_app by done.
    rewrite host_chars_trim by done. apply lower_id. eapply Forall_impl; [done|]. intros c Hch. apply Hch.
Qed.

Lemma normalize_host_output_witness :
  lit "api.example.com" ≠ [] ∧ normalize_network_rule_host (lit "api.example.com") = Ok (lit "api.example.com").
Proof.
  destruct (normalize_host_output (lit " API.example.com:8080 ") (lit "api.example.com")) as (Hne & _ & Hs);
    [reflexivity|]. split; [exact Hne|]. apply Hs; by vm_compute.
Defined.

(** ** The spellings of a host *)

(** A char of a host as written: any case, no colon, no bracket. *)
Definition name_char (c : char) : bool :=
  negb (is_whitespace c) && negb (existsb (is_char c) (lit "/?#*:[]")).

Lemma name_char_spec c :
  name_char c = true ↔ is_whitespace c = false ∧ c ∉ lit "/?#*:[]".
Proof.
  unfold name_char. rewrite andb_true_iff, !negb_true_iff, <- (not_true_iff_false (existsb _ _)).
  rewrite existsb_exists. split; intros [Hw Hn]; (split; [done|]).
  - intros Hin. apply Hn. exists c. split; [by apply list_elem_of_In|apply N.eqb_refl].
  - intros (d & Hd%list_elem_of_In & ->%N.eqb_eq). done.
Qed.

Lemma name_char_lower c : name_char c = true → host_char (to_ascii_lower c).
Proof.
  intros [Hw Hn]%name_char_spec. change (lit "/?#*:[]") with [47; 63; 35; 42; 58; 91; 93]%N in Hn.
  split_and!; [|apply lower_upper|].
  - unfold to_ascii_lower. destruct ((65 <=? c) && (c <=? 90))%N eqn:E; [|done]. apply upper_dec in E.
    apply not_true_iff_false. unfold is_whitespace.
    rewrite !orb_true_iff, !andb_true_iff, !N.leb_le, !N.eqb_eq. lia.
  - change (lit "/?#*") with [47; 63; 35; 42]%N. rewrite !elem_of_cons, elem_of_nil.
    intros [Hc|[Hc|[Hc|[Hc|[]]]]]; apply Hn;
      match type of Hc with _ = ?d =>
        apply (to_ascii_lower_other c d ltac:(lia) ltac:(lia)) in Hc as -> end; set_solver.
Qed.

(** A host name as a user writes it, and one with colons between brackets. *)
Definition plain_host (t : str) : Prop :=
  t ≠ [] ∧ forallb name_char t = true ∧ last t ≠ Some 46%N.
Definition bracket_host (t : str) : Prop :=
  t ≠ [] ∧ forallb (λ c, name_char c || is_char 58%N c) t = true ∧ last t ≠ Some 46%N.

(** The chars of a text of a host: everything the function tests for is absent. *)
Lemma name_chars_lower t :
  forallb (λ c, name_char c || is_char 58%N c) t = true → Forall host_char (to_ascii_lowercase t).
Proof.
  induction t as [|c t IH]; [constructor|]. cbn [forallb]. intros [Hc Ht]%andb_true_iff.
  constructor; [|by apply IH]. apply orb_true_iff in Hc as [Hc|Hc]; [by apply name_char_lower|].
  apply N.eqb_eq in Hc as ->. split_and!; [done|by left|]. apply (bool_decide_unpack _). by vm_compute.
Qed.

Lemma name_chars_not d t :
  forallb (λ c, name_char c || is_char 58%N c) t = true →
  (is_whitespace d = true ∨ d ∈ lit "/?#*[]") → d ∉ t.
Proof.
  intros Ht Hd Hin. apply list_elem_of_In in Hin. rewrite forallb_forall in Ht. specialize (Ht d Hin).
  apply orb_true_iff in Ht as [[Hw Hn]%name_char_spec|Hc].
  - destruct Hd as [Hd|Hd]; [congruence|]. apply Hn.
    change (lit "/?#*[]") with [47; 63; 35; 42; 91; 93]%N in Hd.
    change (lit "/?#*:[]") with [47; 63; 35; 42; 58; 91; 93]%N. set_solver.
  - apply N.eqb_eq in Hc as ->. destruct Hd as [Hd|Hd]; [done|]. revert Hd. apply (bool_decide_unpack (58%N ∉ _)). by vm_compute.
Qed.

Lemma name_chars_visible t :
  forallb (λ c, name_char c || is_char 58%N c) t = true → Forall (λ c, is_whitespace c = false) t.
Proof.
  intros Ht. apply Forall_forall. intros c Hc. apply not_true_iff_false. intros Hw.
  apply (name_chars_not c t); auto.
Qed.

Lemma plain_name_chars t : forallb name_char t = true → forallb (λ c, name_char c || is_char 58%N c) t = true.
Proof. rewrite !forallb_forall. intros Ht c Hc. by rewrite Ht. Qed.

Lemma digit_chars port d :
  forallb is_ascii_digit port = true → d ∈ port → (48 <= d <= 57)%N ∧ is_whitespace d = false.
Proof.
  rewrite forallb_forall. intros Hp Hd%list_elem_of_In. specialize (Hp d Hd). unfold is_ascii_digit in Hp.
  apply andb_true_iff in Hp as [H1%N.leb_le H2%N.leb_le]. split; [done|]. apply not_true_iff_false.
  unfold is_whitespace. rewrite !orb_true_iff, !andb_true_iff, !N.leb_le, !N.eqb_eq. lia.
Qed.

Lemma count_char_split c a b : c ∉ a → c ∉ b → count_char c (a ++ c :: b) = 1.
Proof.
  intros Ha Hb. apply count_char_none in Ha, Hb. unfold count_char in *.
  rewrite filter_app, filter_cons_True, length_app by done. simpl. lia.
Qed.

(** A visible char the function does not refuse. *)
Definition quiet (c : char) : Prop := is_whitespace c = false ∧ c ≠ 47%N ∧ c ≠ 63%N ∧ c ≠ 35%N.

Lemma name_chars_quiet t :
  forallb (λ c, name_char c || is_char 58%N c) t = true → Forall quiet t.
Proof.
  intros Ht. apply Forall_forall. intros c Hc.
  pose proof (name_chars_not c t Ht) as Hn. change (lit "/?#*[]") with [47; 63; 35; 42; 91; 93]%N in Hn.
  split_and!; [|intros ->; apply Hn; set_solver..].
  apply not_true_iff_false. intros Hw. apply Hn; auto.
Qed.

Lemma dots_quiet dots : forallb (is_char 46%N) dots = true → Forall quiet dots.
Proof.
  rewrite forallb_forall, Forall_forall. intros Hd c Hc%list_elem_of_In.
  apply Hd, N.eqb_eq in Hc as ->. done.
Qed.

Lemma port_quiet port : is_port port = true → Forall quiet port ∧ (58 ∉ port)%N.
Proof.
  intros [_ Hp]%andb_true_iff. rewrite Forall_forall. split.
  - intros c Hc. destruct (digit_chars port c Hp Hc). split_and!; [done|lia..].
  - intros Hc. destruct (digit_chars port 58%N Hp Hc). lia.
Qed.

Lemma trim_quiet ws1 m ws2 :
  forallb is_whitespace ws1 = true → forallb is_whitespace ws2 = true → m ≠ [] → Forall quiet m →
  trim (ws1 ++ m ++ ws2) = m.
Proof.
  intros H1 H2 Hne Hm. rewrite Forall_forall in Hm. destruct m as [|c m]; [done|].
  destruct (last (c :: m)) as [d|] eqn:Hl; [|by apply last_None in Hl].
  apply (trim_around ws1 (c :: m) ws2 c d); try done; apply Hm; [set_solver|].
  apply last_Some in Hl as [l ->]. set_solver.
Qed.

Lemma spelled ws1 mid ws2 t dots :
  forallb is_whitespace ws1 = true → forallb is_whitespace ws2 = true → mid ≠ [] → Forall quiet mid →
  strip_port (ws1 ++ mid ++ ws2) mid = Ok (t ++ dots) →
  bracket_host t → forallb (is_char 46%N) dots = true →
  normalize_network_rule_host (ws1 ++ mid ++ ws2) = Ok (to_ascii_lowercase t).
Proof.
  intros H1 H2 Hne Hq Hport (Htne & Ht & Htl) Hdots.
  rewrite Forall_forall in Hq.
  assert (∀ d, (d = 47 ∨ d = 63 ∨ d = 35)%N → d ∉ mid) as Hno.
  { intros d Hd Hin. destruct (Hq d Hin) as (_ & ? & ? & ?). naive_solver. }
  apply (normalize_core _ mid (t ++ dots)); [|done|apply Hno; lia..|done| | |by apply name_chars_lower].
  - apply trim_quiet; [done..|]. by apply Forall_forall.
  - rewrite trim_end_matches_app by done. by rewrite trim_none by by apply name_chars_visible.
  - by destruct t.
Qed.

(** The spellings of a host.  A host name in any letter case, with any trailing
    dots, with or without a port, and a name or an address with colons in brackets,
    with or without a port, each with white space around it, are all accepted and
    normalized to the host in lower case. *)
Theorem host_spellings ws1 ws2 t dots port :
  forallb is_whitespace ws1 = true → forallb is_whitespace ws2 = true →
  forallb (is_char 46%N) dots = true → is_port port = true →
  (plain_host t →
     normalize_network_rule_host (ws1 ++ (t ++ dots) ++ ws2) = Ok (to_ascii_lowercase t) ∧
     normalize_network_rule_host (ws1 ++ ((t ++ dots) ++ lit ":" ++ port) ++ ws2) = Ok (to_ascii_lowercase t)) ∧
  (bracket_host t →
     normalize_network_rule_host (ws1 ++ (lit "[" ++ t ++ lit "]") ++ ws2) = Ok (to_ascii_lowercase t) ∧
     normalize_network_rule_host (ws1 ++ (lit "[" ++ t ++ lit "]:" ++ port) ++ ws2) = Ok (to_ascii_lowercase t)).
Proof.
  intros H1 H2 Hdots Hport. destruct (port_quiet port Hport) as [Hpq Hpc].
  pose proof (dots_quiet dots Hdots) as Hdq.
  split.
  - intros (Htne & Ht & Htl). pose proof (plain_name_chars t Ht) as Htc.
    pose proof (name_chars_quiet t Htc) as Htq.
    assert ((58 ∉ t ++ dots)%N) as Hcolon.
    { intros [Hin|Hin]%elem_of_app.
      - rewrite forallb_forall in Ht. apply list_elem_of_In, Ht in Hin. done.
      - rewrite forallb_forall in Hdots. apply list_elem_of_In, Hdots in Hin. done. }
    assert (head (t ++ dots) ≠ Some 91%N) as Hhead.
    { destruct t as [|c t]; [done|]. intros [= ->]. apply (name_chars_not 91%N (91%N :: t) Htc); [|set_solver].
      right. apply (bool_decide_unpack _). by vm_compute. }
    split; (eapply spelled; [done|done|..|done|done]).
    + by destruct t.
    + by apply Forall_app.
    + unfold strip_port. rewrite strip_bracket_None by done. by rewrite count_char_none.
    + by destruct t.
    + rewrite !Forall_app. split_and!; [done|done| |done]. by repeat constructor.
    + unfold strip_port. rewrite strip_bracket_None; [|by destruct t].
      change (lit ":" ++ port) with (58%N :: port). rewrite count_char_split by done. cbn [Nat.eqb].
      assert (rsplit_once 58%N ((t ++ dots) ++ 58%N :: port) = Some (t ++ dots, port)) as ->
        by by apply rsplit_once_Some.
      rewrite Hport, bool_decide_eq_false_2 by by destruct t. done.
  - intros Hb. pose proof Hb as (Htne & Ht & Htl). pose proof (name_chars_quiet t Ht) as Htq.
    assert ((93 ∉ t)%N) as Hclose.
    { apply (name_chars_not 93%N t Ht). right. apply (bool_decide_unpack _). by vm_compute. }
    assert (∀ rest, split_once 93%N (t ++ 93%N :: rest) = Some (t, rest)) as Hsplit
      by (intros rest; by apply split_once_Some).
    split; (eapply (spelled _ _ _ t []); [done|done|..|done|done]).
    + done.
    + rewrite !Forall_app. split_and!; [by repeat constructor|done|by repeat constructor].
    + unfold strip_port. rewrite strip_prefix_app. change (lit "]") with [93%N]. by rewrite Hsplit, app_nil_r.
    + done.
    + rewrite !Forall_app. split_and!; [by repeat constructor|done|by repeat constructor|done].
    + unfold strip_port. rewrite strip_prefix_app. change (lit "]:" ++ port) with (93%N :: lit ":" ++ port).
      rewrite Hsplit, strip_prefix_app, Hport. simpl. by rewrite app_nil_r.
Qed.

Lemma host_spellings_witness :
  normalize_network_rule_host (lit "  API.Example.com..:443 ") = Ok (lit "api.example.com") ∧
  normalize_network_rule_host (lit "  [FE80::1]:443 ") = Ok (lit "fe80::1").
Proof.
  split.
  - apply (host_spellings (lit "  ") (lit " ") (lit "API.Example.com") (lit "..") (lit "443")); [reflexivity..|].
    split_and!; [done|reflexivity|done].
  - apply (host_spellings (lit "  ") (lit " ") (lit "FE80::1") (lit "..") (lit "443")); [reflexivity..|].
    split_and!; [done|reflexivity|done].
Defined.

(** A host that normalization leaves decorated changes when it is normalized again. *)
Lemma normalize_host_not_stable :
  normalize_network_rule_host (lit "[a:80]") = Ok (lit "a:80") ∧
  normalize_network_rule_host (lit "a:80") = Ok (lit "a").
Proof. split; reflexivity. Qed.
