(* ===== verification/ExecPolicy.v ===== *)
(** * ExecPolicy: the execution policy ([execpolicy/src/policy.rs], and the example
    validation of [rule.rs])

    The multimap of rules is used through its interface; a [HashMap] is a finite map
    whose iteration order no result depends on. *)
From stdpp Require Import sorting.
From S2P Require Import Prelude RustStr PatchErrors UnixPath AbsolutePath MultiMap ExecRule.

Record MatchOptions := mkOptions { resolve_host_executables : bool }.
Definition default_match_options : MatchOptions := mkOptions false.

Record Policy (MM : Type) := mkPolicy {
  rules_by_program : MM;
  network_rules : list NetworkRule;
  host_executables_by_name : gmap str (list Path);
}.
Arguments mkPolicy {MM}.
Arguments rules_by_program {MM}.
Arguments network_rules {MM}.
Arguments host_executables_by_name {MM}.

Record Evaluation := mkEvaluation { evaluation_decision : Decision; matched_rules : list RuleMatch }.

(** [Evaluation::is_match]. *)
Definition is_heuristic (m : RuleMatch) : bool :=
  match m with HeuristicsRuleMatch _ _ => true | PrefixRuleMatch _ _ _ _ => false end.
Definition is_match (e : Evaluation) : bool := existsb (negb ∘ is_heuristic) (matched_rules e).

(** [Evaluation::from_matches]; [None] is the panic of [expect]. *)
Definition from_matches (matched_rules : list RuleMatch) : option Evaluation :=
  decision ← max_decision (match_decision <$> matched_rules);
  Some (mkEvaluation decision matched_rules).

Definition render_pattern_token (t : PatternToken) : str :=
  match t with
  | Single value => value
  | Alts alternatives => lit "[" ++ join (lit "|") alternatives ++ lit "]"
  end.

Definition upsert_domain (entries : list str) (host : str) : list str :=
  filter (λ entry, entry ≠ host) entries ++ [host].

(** One rule of [compiled_network_domains]. *)
Definition compile_network_rule (s : list str * list str) (rule : NetworkRule) : list str * list str :=
  let '(allowed, denied) := s in
  match network_decision rule with
  | Allow => (upsert_domain allowed (host rule), filter (λ entry, entry ≠ host rule) denied)
  | Forbidden => (filter (λ entry, entry ≠ host rule) allowed, upsert_domain denied (host rule))
  | Prompt => (allowed, denied)
  end.

(** The order of [String] and of [Vec<String>]: by code points, which is the order of
    the UTF-8 bytes. *)
Fixpoint lex_le {A} (lt : A → A → bool) (eq : A → A → bool) (s t : list A) : bool :=
  match s, t with
  | [], _ => true
  | _ :: _, [] => false
  | a :: s, b :: t => lt a b || (eq a b && lex_le lt eq s t)
  end.
Definition str_le (s t : str) : bool := lex_le N.ltb N.eqb s t.
Definition str_eqb (s t : str) : bool := bool_decide (s = t).
Definition str_ltb (s t : str) : bool := str_le s t && negb (str_eqb s t).
Definition strs_le (s t : list str) : bool := lex_le str_ltb str_eqb s t.

#[export] Instance str_le_dec : RelDecision (λ s t, Is_true (str_le s t)).
Proof. intros s t. apply _. Defined.
#[export] Instance strs_le_dec : RelDecision (λ s t, Is_true (strs_le s t)).
Proof. intros s t. apply _. Defined.

Definition sort_strs : list str → list str := merge_sort (λ s t, Is_true (str_le s t)).
Definition sort_prefixes : list (list str) → list (list str) := merge_sort (λ s t, Is_true (strs_le s t)).

(** [Vec::dedup]: consecutive equal elements are removed. *)
Fixpoint dedup {A} `{EqDecision A} (l : list A) : list A :=
  match l with
  | [] => []
  | x :: l => match dedup l with
              | y :: l' => if decide (x = y) then y :: l' else x :: y :: l'
              | [] => [x]
              end
  end.

(** The derived [Debug] of rules and matches; [debug_str] is the escaping [Debug] of
    [str]. *)
Section debug.
Variable debug_str : str → str.

Definition debug_list {A} (f : A → str) (l : list A) : str := lit "[" ++ join (lit ", ") (f <$> l) ++ lit "]".
Definition debug_option {A} (f : A → str) (o : option A) : str :=
  match o with Some a => lit "Some(" ++ f a ++ lit ")" | None => lit "None" end.
Definition debug_decision (d : Decision) : str :=
  match d with Allow => lit "Allow" | Prompt => lit "Prompt" | Forbidden => lit "Forbidden" end.
Definition debug_token (t : PatternToken) : str :=
  match t with
  | Single s => lit "Single(" ++ debug_str s ++ lit ")"
  | Alts l => lit "Alts(" ++ debug_list debug_str l ++ lit ")"
  end.
Definition debug_rule (r : RuleRef) : str :=
  lit "PrefixRule { pattern: PrefixPattern { first: " ++ debug_str (first (pattern r)) ++
  lit ", rest: " ++ debug_list debug_token (rest (pattern r)) ++ lit " }, decision: " ++
  debug_decision (decision r) ++ lit ", justification: " ++ debug_option debug_str (justification r) ++ lit " }".
Definition debug_match (m : RuleMatch) : str :=
  match m with
  | PrefixRuleMatch matched_prefix decision resolved_program justification =>
      lit "PrefixRuleMatch { matched_prefix: " ++ debug_list debug_str matched_prefix ++
      lit ", decision: " ++ debug_decision decision ++ lit ", resolved_program: " ++
      debug_option (λ p, lit "AbsolutePathBuf(" ++ debug_str (path_str p) ++ lit ")") resolved_program ++
      lit ", justification: " ++ debug_option debug_str justification ++ lit " }"
  | HeuristicsRuleMatch command decision =>
      lit "HeuristicsRuleMatch { command: " ++ debug_list debug_str command ++
      lit ", decision: " ++ debug_decision decision ++ lit " }"
  end.
End debug.

Section policy.
Context {MM : Type} {MapOps : MultiMapOps RuleRef MM}.
Implicit Types p : Policy MM.

(** [Policy::new] and [Policy::empty]. *)
Definition policy_new (rules_by_program : MM) : Policy MM := mkPolicy rules_by_program [] ∅.
Definition policy_empty : Policy MM := policy_new mm_new.

(** The prefix of one rule in [get_allowed_prefixes]. *)
Definition allowed_prefix (rule : RuleRef) : option (list str) :=
  match as_prefix_rule rule with
  | None => None
  | Some prefix_rule =>
      if bool_decide (decision prefix_rule ≠ Allow) then None
      else Some (first (pattern prefix_rule) :: (render_pattern_token <$> rest (pattern prefix_rule)))
  end.

Definition get_allowed_prefixes p : list (list str) :=
  dedup (sort_prefixes (iter_all (rules_by_program p) ≫= λ '(_, rules), omap allowed_prefix rules)).

Definition add_prefix_rule (prefix : list str) (decision : Decision) : M (Policy MM) Error unit := λ p,
  match prefix with
  | [] => (p, Err (InvalidPattern (lit "prefix cannot be empty")))
  | first_token :: rest =>
      let rule := mkPrefixRule (mkPattern first_token (Single <$> rest)) decision None in
      (mkPolicy (mm_insert first_token rule (rules_by_program p)) (network_rules p)
                (host_executables_by_name p), Ok tt)
  end.

(** A justification that is given is not blank. *)
Definition check_justification {E} (e : E) (justification : option str) : result E (option str) :=
  match justification with
  | Some raw => if bool_decide (trim raw = []) then Err e else Ok (Some raw)
  | None => Ok None
  end.

Definition add_network_rule (host : str) (protocol : NetworkRuleProtocol) (decision : Decision)
    (justification : option str) : M (Policy MM) Error unit := λ p,
  match normalize_network_rule_host host with
  | Err e => (p, Err e)
  | Ok host =>
      match check_justification (InvalidRule (lit "justification cannot be empty")) justification with
      | Err e => (p, Err e)
      | Ok justification =>
          (mkPolicy (rules_by_program p)
             (network_rules p ++ [mkNetworkRule host protocol decision justification])
             (host_executables_by_name p), Ok tt)
      end
  end.

Definition set_host_executable_paths (name : str) (paths : list Path) p : Policy MM :=
  mkPolicy (rules_by_program p) (network_rules p) (<[name := paths]> (host_executables_by_name p)).

(** [HashMap::extend] lets the entries of the overlay win. *)
Definition merge_overlay p (overlay : Policy MM) : Policy MM :=
  mkPolicy (extend_map (iter_all (rules_by_program overlay)) (rules_by_program p))
           (network_rules p ++ network_rules overlay)
           (host_executables_by_name overlay ∪ host_executables_by_name p).

Definition compiled_network_domains p : list str * list str :=
  foldl compile_network_rule ([], []) (network_rules p).

(** [RequirementsExecPolicy]: a policy compared by its fingerprint. *)
Definition fingerprint (debug_str : str → str) p : list str :=
  sort_strs (iter_all (rules_by_program p) ≫= λ '(program, rules),
    (λ rule, program ++ lit ":" ++ debug_rule debug_str rule) <$> rules).
Definition requirements_eq (debug_str : str → str) p (other : Policy MM) : bool :=
  bool_decide (fingerprint debug_str p = fingerprint debug_str other).

(** ** Matching *)

Context {Env : ProcessEnv}.
Variable locals : PathLocals.

Definition match_exact_rules p (cmd : list str) : option (list RuleMatch) :=
  first ← head cmd;
  Some (match get_vec first (rules_by_program p) with
        | Some rules => omap (λ rule, rule_matches rule cmd) rules
        | None => []
        end).

(** [AbsolutePathBuf::try_from(first)] is [from_absolute_path]. *)
Definition match_host_executable_rules p (cmd : list str) : list RuleMatch :=
  match cmd with
  | [] => []
  | first :: args =>
      match from_absolute_path locals first with
      | Err _ => []
      | Ok program =>
          match executable_path_lookup_key program with
          | None => []
          | Some basename =>
              match get_vec basename (rules_by_program p) with
              | None => []
              | Some rules =>
                  let listed := match host_executables_by_name p !! basename with
                                | Some paths => existsb (λ path, bool_decide (path = program)) paths
                                | None => true
                                end in
                  if negb listed then []
                  else with_resolved_program program <$>
                         omap (λ rule, rule_matches rule (basename :: args)) rules
              end
          end
      end
  end.

(** [Option::filter] of a non-empty vector. *)
Definition non_empty {A} (o : option (list A)) : option (list A) :=
  match o with Some [] => None | _ => o end.

Definition matches_for_command_with_options p (cmd : list str)
    (heuristics_fallback : option (list str → Decision)) (options : MatchOptions) : list RuleMatch :=
  let matched_rules :=
    match non_empty (match_exact_rules p cmd) with
    | Some matched_rules => matched_rules
    | None =>
        default [] (non_empty (if resolve_host_executables options
                               then Some (match_host_executable_rules p cmd) else None))
    end in
  match matched_rules, heuristics_fallback with
  | [], Some heuristics_fallback => [HeuristicsRuleMatch cmd (heuristics_fallback cmd)]
  | _, _ => matched_rules
  end.

Definition matches_for_command p (cmd : list str)
    (heuristics_fallback : option (list str → Decision)) : list RuleMatch :=
  matches_for_command_with_options p cmd heuristics_fallback default_match_options.

Definition check_with_options p (cmd : list str) (heuristics_fallback : list str → Decision)
    (options : MatchOptions) : option Evaluation :=
  from_matches (matches_for_command_with_options p cmd (Some heuristics_fallback) options).
Definition check p (cmd : list str) (heuristics_fallback : list str → Decision) : option Evaluation :=
  from_matches (matches_for_command_with_options p cmd (Some heuristics_fallback) default_match_options).

Definition check_multiple_with_options p (commands : list (list str))
    (heuristics_fallback : list str → Decision) (options : MatchOptions) : option Evaluation :=
  from_matches (commands ≫= λ command,
    matches_for_command_with_options p command (Some heuristics_fallback) options).
Definition check_multiple p (commands : list (list str)) (heuristics_fallback : list str → Decision) :
    option Evaluation :=
  check_multiple_with_options p commands heuristics_fallback default_match_options.

(** ** Validation of examples ([rule.rs]) *)

(** [shlex::try_join], and the [Debug] of strings in messages. *)
Variable try_join : list str → option str.
Variable debug_str : str → str.

Definition render_example (example : list str) : str :=
  default (lit "unable to render example") (try_join example).

Definition validation_options : MatchOptions := mkOptions true.

(** The loop collecting the examples no rule matches. *)
Definition unmatched_examples p (examples : list (list str)) : list str :=
  omap (λ example,
          match matches_for_command_with_options p example None validation_options with
          | [] => Some (render_example example)
          | _ => None
          end) examples.

Definition validate_match_examples p (rules : list RuleRef) (examples : list (list str)) :
    result Error unit :=
  match unmatched_examples p examples with
  | [] => Ok tt
  | unmatched => Err (ExampleDidNotMatch (debug_rule debug_str <$> rules) unmatched None)
  end.

Fixpoint validate_not_match_examples p (not_matches : list (list str)) : result Error unit :=
  match not_matches with
  | [] => Ok tt
  | example :: not_matches =>
      match matches_for_command_with_options p example None validation_options with
      | rule :: _ => Err (ExampleDidMatch (debug_match debug_str rule) (render_example example) None)
      | [] => validate_not_match_examples p not_matches
      end
  end.

End policy.

(** * What a policy answers

    The theorems are stated for every implementation of the multimap interface; the
    witnesses use the one on finite maps. *)

(** ** Rules and matches *)

Section policy.
Context {MM : Type} {MapOps : MultiMapOps RuleRef MM} {MapLaws : MultiMap RuleRef MM}.
Implicit Types p : Policy MM.

(** The rules filed under a program, and all of them. *)
Definition rules_of p (k : str) : list RuleRef := values k (rules_by_program p).
Definition all_rules p : list RuleRef := all_values (rules_by_program p).

(** The invariant of the map: a rule is filed under its own program. *)
Definition keyed p : Prop := ∀ k r, r ∈ rules_of p k → program r = k.

Definition matching (rules : list RuleRef) (cmd : list str) : list RuleMatch :=
  omap (λ rule, rule_matches rule cmd) rules.

Lemma elem_of_matching rules cmd m :
  m ∈ matching rules cmd ↔ ∃ r, r ∈ rules ∧ rule_matches r cmd = Some m.
Proof. unfold matching. rewrite list_elem_of_omap. naive_solver. Qed.

Lemma matching_app l k cmd : matching (l ++ k) cmd = matching l cmd ++ matching k cmd.
Proof. apply omap_app. Qed.

Lemma rule_matches_Some (r : RuleRef) cmd m :
  rule_matches r cmd = Some m ↔
  ∃ matched, matches_prefix (pattern r) cmd = Some matched ∧
    m = PrefixRuleMatch matched (decision r) None (justification r).
Proof. simpl. rewrite fmap_Some. naive_solver. Qed.

(** A rule only matches commands of its program. *)
Lemma rule_matches_head (r : RuleRef) cmd m : rule_matches r cmd = Some m → head cmd = Some (program r).
Proof.
  intros (matched & Hm & _)%rule_matches_Some.
  apply matches_prefix_Some in Hm as (args & more & -> & -> & _). done.
Qed.

(** The matches of the rules of the first token. *)
Definition exact_matches p (cmd : list str) : list RuleMatch :=
  match cmd with [] => [] | first :: _ => matching (rules_of p first) cmd end.

Lemma match_exact_rules_eq p cmd :
  match_exact_rules p cmd = match cmd with [] => None | _ => Some (exact_matches p cmd) end.
Proof.
  destruct cmd as [|first args]; [done|]. unfold match_exact_rules, exact_matches, rules_of, values. simpl.
  by destruct (get_vec first (rules_by_program p)).
Qed.

Lemma exact_matches_elem p cmd m :
  keyed p → m ∈ exact_matches p cmd ↔ ∃ r, r ∈ all_rules p ∧ rule_matches r cmd = Some m.
Proof.
  intros Hk. unfold exact_matches, all_rules. setoid_rewrite elem_of_all_values. destruct cmd as [|first args].
  - split; [by intros ?%not_elem_of_nil|]. by intros (r & _ & Hr%rule_matches_head).
  - rewrite elem_of_matching. split.
    + intros (r & Hr & Hm). exists r. split; [|done]. by exists first.
    + intros (r & [k Hr] & Hm). exists r. split; [|done].
      pose proof (rule_matches_head _ _ _ Hm) as Hh. specialize (Hk _ _ Hr).
      assert (first = k) as ->; [|exact Hr]. simpl in *. congruence.
Qed.

(** ** The map invariant *)

Lemma keyed_empty : keyed (policy_empty : Policy MM).
Proof. intros k r Hr. unfold rules_of in Hr. simpl in Hr. by rewrite values_new in Hr; apply not_elem_of_nil in Hr. Qed.

Lemma keyed_insert m r nets hosts :
  keyed (mkPolicy m nets hosts) → keyed (mkPolicy (mm_insert (program r) r m) nets hosts).
Proof.
  unfold keyed, rules_of. simpl. intros Hk k r'. rewrite values_insert, elem_of_app.
  intros [Hr|Hr]; [by apply Hk|]. case_decide as Hd; [|by apply not_elem_of_nil in Hr].
  apply list_elem_of_singleton in Hr. by subst.
Qed.

Lemma keyed_merge p overlay : keyed p → keyed overlay → keyed (merge_overlay p overlay).
Proof.
  unfold keyed, rules_of. intros Hp Ho k r. simpl. rewrite values_extend, elem_of_app. intros [Hr|Hr]; [by apply Hp|by apply Ho].
Qed.

Lemma rules_of_merge p overlay k : rules_of (merge_overlay p overlay) k = rules_of p k ++ rules_of overlay k.
Proof. apply values_extend. Qed.

Lemma exact_matches_merge p overlay cmd :
  exact_matches (merge_overlay p overlay) cmd = exact_matches p cmd ++ exact_matches overlay cmd.
Proof.
  destruct cmd as [|first args]; [done|]. unfold exact_matches. by rewrite rules_of_merge, matching_app.
Qed.

(** ** The three stages of matching *)

Context {Env : ProcessEnv}.
Variable locals : PathLocals.

Lemma matches_stages p cmd fallback options :
  matches_for_command_with_options locals p cmd fallback options =
  match exact_matches p cmd with
  | (_ :: _) as ms => ms
  | [] =>
      match (if resolve_host_executables options then match_host_executable_rules locals p cmd else []) with
      | (_ :: _) as ms => ms
      | [] => match fallback with Some f => [HeuristicsRuleMatch cmd (f cmd)] | None => [] end
      end
  end.
Proof.
  unfold matches_for_command_with_options. rewrite match_exact_rules_eq.
  generalize (match_host_executable_rules locals p cmd) as hosts. intros hosts.
  destruct cmd as [|first args]; [|destruct (exact_matches p (first :: args)) as [|m ms]];
    simpl; destruct (resolve_host_executables options); try by destruct fallback.
  all: destruct hosts; simpl; by destruct fallback.
Qed.

(** The rules the fallback to the executable's name uses. *)
Definition host_listed p (basename : str) (program : Path) : Prop :=
  match host_executables_by_name p !! basename with Some paths => program ∈ paths | None => True end.

#[global] Instance host_listed_dec p basename program : base.Decision (host_listed p basename program).
Proof. unfold host_listed. destruct (_ !! _); apply _. Defined.

Lemma host_rules_eq p first args program basename :
  from_absolute_path locals first = Ok program → file_name program = Some basename →
  match_host_executable_rules locals p (first :: args) =
  if decide (host_listed p basename program)
  then with_resolved_program program <$> matching (rules_of p basename) (basename :: args) else [].
Proof.
  intros Hp Hb. unfold match_host_executable_rules, executable_path_lookup_key, executable_lookup_key.
  rewrite Hp, Hb. simpl. unfold rules_of, values.
  destruct (get_vec basename (rules_by_program p)) as [rules|]; [|by case_decide].
  assert (∀ paths, existsb (λ path, bool_decide (path = program)) paths = true ↔ program ∈ paths) as Hex.
  { intros paths. rewrite existsb_exists, list_elem_of_In. split.
    - by intros (q & Hq & ->%bool_decide_eq_true).
    - intros Hin. exists program. by rewrite bool_decide_eq_true. }
  case_decide as Hl; unfold host_listed in Hl; destruct (host_executables_by_name p !! basename) as [paths|]; try done.
  - apply Hex in Hl. by rewrite Hl.
  - rewrite <- Hex, not_true_iff_false in Hl. by rewrite Hl.
Qed.

Lemma host_rules_elem p cmd m :
  m ∈ match_host_executable_rules locals p cmd ↔
  ∃ first args program basename r m',
    cmd = first :: args ∧ from_absolute_path locals first = Ok program ∧
    file_name program = Some basename ∧ host_listed p basename program ∧ r ∈ rules_of p basename ∧
    rule_matches r (basename :: args) = Some m' ∧ m = with_resolved_program program m'.
Proof.
  split.
  - destruct cmd as [|first args]; [by intros ?%not_elem_of_nil|].
    destruct (from_absolute_path locals first) as [program|e] eqn:Hp.
    2: { simpl. rewrite Hp. by intros ?%not_elem_of_nil. }
    destruct (file_name program) as [basename|] eqn:Hb.
    2: { simpl. rewrite Hp. unfold executable_path_lookup_key. rewrite Hb. by intros ?%not_elem_of_nil. }
    rewrite (host_rules_eq p first args program basename) by done. case_decide as Hl; [|by intros ?%not_elem_of_nil].
    intros (m' & -> & (r & Hr & Hm)%elem_of_matching)%list_elem_of_fmap. eauto 15.
  - intros (first & args & program & basename & r & m' & -> & Hp & Hb & Hl & Hr & Hm & ->).
    rewrite (host_rules_eq p first args program basename), decide_True by done.
    apply list_elem_of_fmap. exists m'. split; [done|]. apply elem_of_matching. eauto.
Qed.

Lemma decision_resolved program m : match_decision (with_resolved_program program m) = match_decision m.
Proof. by destruct m. Qed.

(** With a fallback the answer is never empty, so evaluating it does not panic. *)
Lemma matches_fallback_ne p cmd f options :
  matches_for_command_with_options locals p cmd (Some f) options ≠ [].
Proof. rewrite matches_stages. destruct (exact_matches p cmd); [|done]. by case_match. Qed.

Lemma from_matches_Some ms e :
  from_matches ms = Some e ↔
  matched_rules e = ms ∧ evaluation_decision e ∈ match_decision <$> ms ∧
  ∀ m, m ∈ ms → severity (match_decision m) ≤ severity (evaluation_decision e).
Proof.
  unfold from_matches, mbind, option_bind.
  assert (∀ d, max_decision (match_decision <$> ms) = Some d ↔
    d ∈ match_decision <$> ms ∧ ∀ m, m ∈ ms → severity (match_decision m) ≤ severity d) as Hmax.
  { intros d. rewrite max_decision_spec. split; intros [Hd Hall]; (split; [done|]).
    - intros m Hm. apply Hall. by apply list_elem_of_fmap_2.
    - intros d' (m & -> & Hm)%list_elem_of_fmap. by apply Hall. }
  split.
  - destruct (max_decision _) as [d|] eqn:Hd; [|done]. intros [= <-]. simpl. split; [done|]. by apply Hmax.
  - destruct e as [d ms']. simpl. intros (-> & Hd). apply Hmax in Hd. by rewrite Hd.
Qed.

Lemma from_matches_is_Some ms : ms ≠ [] → is_Some (from_matches ms).
Proof. destruct ms as [|m ms]; [done|]. intros _. unfold from_matches. simpl. eauto. Qed.
End policy.
