(* ===== verification/ExecPolicySpec.v ===== *)
(** * ExecPolicySpec: the policy's answers against their documentation
    ([execpolicy/README.md]) *)
From S2P Require Import Prelude RustStr UnixPath PatchErrors AbsolutePath.
From S2P Require Import MultiMap ExecRule ExecPolicy.

(** ** The documented meaning *)

(** A rule matches a command that starts with its pattern: the fixed first token, then
    one of the alternatives of each element, in order. *)
Definition prefix_matches (r : RuleRef) (cmd : list str) (m : RuleMatch) : Prop :=
  ∃ args more, cmd = (first (pattern r) :: args) ++ more ∧
    Forall2 (λ q t, t ∈ alternatives q) (rest (pattern r)) args ∧
    m = PrefixRuleMatch (first (pattern r) :: args) (decision r) None (justification r).

Lemma prefix_matches_spec (r : RuleRef) cmd m : rule_matches r cmd = Some m ↔ prefix_matches r cmd m.
Proof.
  rewrite rule_matches_Some. unfold prefix_matches. setoid_rewrite matches_prefix_Some. naive_solver.
Qed.

(** The last rule for a host that allows or denies it. *)
Definition verdict (rules : list NetworkRule) (h : str) (d : Decision) : Prop :=
  d ≠ Prompt ∧ ∃ before r after, rules = before ++ r :: after ∧ host r = h ∧ network_decision r = d ∧
    ∀ r', r' ∈ after → host r' = h → network_decision r' = Prompt.

Lemma verdict_nil h d : ¬ verdict [] h d.
Proof. by intros (_ & [] & ? & ? & ? & _). Qed.

Lemma verdict_snoc rules r h d :
  verdict (rules ++ [r]) h d ↔
  (host r = h ∧ network_decision r = d ∧ d ≠ Prompt) ∨
  ((host r = h → network_decision r = Prompt) ∧ verdict rules h d).
Proof.
  split.
  - intros (Hd & before & r0 & after & Heq & Hh & Hdec & Hafter).
    destruct after as [|a after _] using rev_ind.
    + apply app_inj_tail in Heq as [-> ->]. by left.
    + rewrite app_comm_cons, app_assoc in Heq. apply app_inj_tail in Heq as [-> ->]. right. split.
      * intros Hr. apply Hafter; [|done]. set_solver.
      * split; [done|]. exists before, r0, after. split_and!; [done..|]. intros r' Hr'. apply Hafter. set_solver.
  - intros [(<- & <- & Hd)|[Hr (Hd & before & r0 & after & -> & Hh & Hdec & Hafter)]].
    + split; [done|]. exists rules, r, []. split_and!; [done..|]. by intros r' ?%not_elem_of_nil.
    + split; [done|]. exists before, r0, (after ++ [r]). split_and!; [by rewrite <- app_assoc|done..|].
      intros r' [Hr'|Hr']%elem_of_app; [by apply Hafter|]. apply list_elem_of_singleton in Hr' as ->. done.
Qed.

Lemma verdict_app l1 l2 h d :
  verdict (l1 ++ l2) h d ↔
  verdict l2 h d ∨ ((∀ d', ¬ verdict l2 h d') ∧ verdict l1 h d).
Proof.
  revert d. induction l2 as [|r l2 IH] using rev_ind; intros d.
  - rewrite app_nil_r. pose proof (verdict_nil h). naive_solver.
  - rewrite app_assoc, !verdict_snoc. setoid_rewrite verdict_snoc. rewrite IH.
    destruct (decide (host r = h)) as [Hh|Hh]; [|naive_solver].
    destruct (decide (network_decision r = Prompt)) as [Hp|Hp]; [naive_solver congruence|].
    split; [naive_solver|]. intros [[?|?]|[Hno _]]; [naive_solver..|].
    exfalso. apply (Hno (network_decision r)). by left.
Qed.

(** ** Compiling the network rules *)

Definition compiled (rules : list NetworkRule) : list str * list str := foldl compile_network_rule ([], []) rules.

Lemma elem_of_upsert l h x : x ∈ upsert_domain l h ↔ x = h ∨ x ∈ l.
Proof.
  unfold upsert_domain. rewrite elem_of_app, list_elem_of_filter, list_elem_of_singleton.
  destruct (decide (x = h)); naive_solver.
Qed.

Lemma NoDup_upsert l h : NoDup l → NoDup (upsert_domain l h).
Proof.
  intros Hl. unfold upsert_domain. apply NoDup_app. split_and!; [by apply NoDup_filter| |by apply NoDup_singleton].
  intros x [Hx _]%list_elem_of_filter ->%list_elem_of_singleton. done.
Qed.

Lemma compiled_spec rules :
  let '(allowed, denied) := compiled rules in
  NoDup allowed ∧ NoDup denied ∧
  (∀ h, h ∈ allowed ↔ verdict rules h Allow) ∧ (∀ h, h ∈ denied ↔ verdict rules h Forbidden).
Proof.
  unfold compiled. induction rules as [|r rules IH] using rev_ind; simpl.
  - pose proof verdict_nil. split_and!; [by constructor..| |]; intros h; rewrite elem_of_nil; naive_solver.
  - rewrite foldl_app. simpl. destruct (foldl compile_network_rule ([], []) rules) as [allowed denied].
    destruct IH as (Hna & Hnd & Ha & Hd). unfold compile_network_rule.
    destruct (network_decision r) eqn:Hdec; (split_and!;
      [try done; try (by apply NoDup_upsert); by apply NoDup_filter
      |try done; try (by apply NoDup_upsert); by apply NoDup_filter| |]);
      intros h; rewrite verdict_snoc, ?elem_of_upsert, ?list_elem_of_filter, ?Ha, ?Hd, ?Hdec;
      destruct (decide (h = host r)); naive_solver congruence.
Qed.

(** ** The answers *)

Section answers.
Context {MM : Type} {MapOps : MultiMapOps RuleRef MM} {MapLaws : MultiMap RuleRef MM}.
Context {Env : ProcessEnv}.
Variable locals : PathLocals.
Implicit Types p : Policy MM.

Definition exact_match p (cmd : list str) (m : RuleMatch) : Prop :=
  ∃ r, r ∈ all_rules p ∧ prefix_matches r cmd m.

(** The fallback to the name of the executable the first token resolves to, when no
    paths are listed for that name or this path is listed. *)
Definition host_match p (cmd : list str) (m : RuleMatch) : Prop :=
  ∃ first args program basename r m',
    cmd = first :: args ∧ from_absolute_path locals first = Ok program ∧
    file_name program = Some basename ∧ host_listed p basename program ∧
    r ∈ all_rules p ∧ prefix_matches r (basename :: args) m' ∧ m = with_resolved_program program m'.

Lemma exact_match_elem p cmd m : keyed p → m ∈ exact_matches p cmd ↔ exact_match p cmd m.
Proof.
  intros Hk. rewrite exact_matches_elem by done. unfold exact_match. by setoid_rewrite prefix_matches_spec.
Qed.

Lemma host_match_elem p cmd m :
  keyed p → m ∈ match_host_executable_rules locals p cmd ↔ host_match p cmd m.
Proof.
  intros Hk. rewrite host_rules_elem. unfold host_match. split.
  - intros (fst & args & prog & basename & r & m' & -> & Hp & Hb & Hl & Hr & Hm & ->).
    exists fst, args, prog, basename, r, m'. split_and!; try done; [|by apply prefix_matches_spec].
    apply elem_of_all_values. by exists basename.
  - intros (fst & args & prog & basename & r & m' & -> & Hp & Hb & Hl & Hr & Hm & ->).
    exists fst, args, prog, basename, r, m'. split_and!; try done; [|by apply prefix_matches_spec].
    apply elem_of_all_values in Hr as [k Hr]. specialize (Hk k r Hr).
    assert (basename = k) as ->; [|exact Hr].
    destruct Hm as (? & ? & [= -> _] & _). exact Hk.
Qed.

(** The matching semantics of the README.  When rules match the tokens of the
    command, the answer lists exactly the match of every such rule.  When none does,
    basename fallback is enabled and rules match through the executable's name (its
    path listed, or none listed), the answer lists exactly those matches, with the
    resolved program.  Otherwise the answer is the caller's heuristic, if there is one,
    and nothing if not. *)
Theorem matches_documented p cmd fallback resolve :
  keyed p →
  let ms := matches_for_command_with_options locals p cmd fallback (mkOptions resolve) in
  ((∃ m, exact_match p cmd m) → ∀ m, m ∈ ms ↔ exact_match p cmd m) ∧
  ((∀ m, ¬ exact_match p cmd m) → resolve = true → (∃ m, host_match p cmd m) →
     ∀ m, m ∈ ms ↔ host_match p cmd m) ∧
  ((∀ m, ¬ exact_match p cmd m) → (resolve = true → ∀ m, ¬ host_match p cmd m) →
     ms = match fallback with Some f => [HeuristicsRuleMatch cmd (f cmd)] | None => [] end).
Proof.
  intros Hk ms. subst ms. rewrite matches_stages. simpl.
  pose proof (λ m, exact_match_elem p cmd m Hk) as Hexact.
  pose proof (λ m, host_match_elem p cmd m Hk) as Hhost.
  setoid_rewrite <- Hexact. setoid_rewrite <- Hhost.
  assert (∀ l : list RuleMatch, (∀ m, m ∉ l) → l = []) as Hnil.
  { intros [|x l] Hl; [done|]. exfalso. apply (Hl x). set_solver. }
  split_and!.
  - intros [m Hm]. destruct (exact_matches p cmd); [by apply not_elem_of_nil in Hm|done].
  - intros Hno -> [m Hm]. rewrite (Hnil _ Hno).
    destruct (match_host_executable_rules locals p cmd); [by apply not_elem_of_nil in Hm|done].
  - intros Hno Hh. rewrite (Hnil _ Hno). destruct resolve; [|done]. by rewrite (Hnil _ (Hh eq_refl)).
Qed.

(** Rules only give rule matches. *)
Lemma matches_not_heuristic p cmd options m :
  m ∈ matches_for_command_with_options locals p cmd None options → is_heuristic m = false.
Proof.
  rewrite matches_stages.
  assert (m ∈ exact_matches p cmd → is_heuristic m = false) as He.
  { unfold exact_matches. destruct cmd; [by intros ?%not_elem_of_nil|].
    intros (r & _ & (mt & _ & ->)%rule_matches_Some)%elem_of_matching. done. }
  assert (m ∈ match_host_executable_rules locals p cmd → is_heuristic m = false) as Hh.
  { intros (? & ? & ? & ? & r & m' & _ & _ & _ & _ & _ & (mt & _ & ->)%rule_matches_Some & ->)%host_rules_elem. done. }
  destruct (exact_matches p cmd); [|done]. destruct (resolve_host_executables options); [|by intros ?%not_elem_of_nil].
  destruct (match_host_executable_rules locals p cmd); [by intros ?%not_elem_of_nil|done].
Qed.

Lemma matches_fallback p cmd f options :
  matches_for_command_with_options locals p cmd (Some f) options =
  match matches_for_command_with_options locals p cmd None options with
  | [] => [HeuristicsRuleMatch cmd (f cmd)]
  | ms => ms
  end.
Proof.
  rewrite !matches_stages. destruct (exact_matches p cmd); [|done].
  destruct (resolve_host_executables options); [|done]. by destruct (match_host_executable_rules locals p cmd).
Qed.

Lemma is_match_spec ms d :
  (∀ m, m ∈ ms → is_heuristic m = false) → is_match (mkEvaluation d ms) = negb (bool_decide (ms = [])).
Proof.
  intros Hms. unfold is_match. simpl. destruct ms as [|m ms]; [done|]. simpl.
  by rewrite (Hms m) by set_solver.
Qed.

(** Evaluation never panics and takes the strictest decision: every check of a
    command has an evaluation, whose decision is the most severe of its matches
    ([forbidden > prompt > allow]); it is a match exactly when a rule matched, and
    otherwise the decision is the heuristic's.  A check of several commands panics only
    when there are none, and its decision is the most severe of the commands'. *)
Theorem check_strictest p f options :
  (∀ cmd, ∃ e, check_with_options locals p cmd f options = Some e ∧
     matched_rules e = matches_for_command_with_options locals p cmd (Some f) options ∧
     evaluation_decision e ∈ match_decision <$> matched_rules e ∧
     (∀ m, m ∈ matched_rules e → severity (match_decision m) ≤ severity (evaluation_decision e)) ∧
     (is_match e = true ↔ matches_for_command_with_options locals p cmd None options ≠ []) ∧
     (is_match e = false → evaluation_decision e = f cmd)) ∧
  (∀ commands, check_multiple_with_options locals p commands f options = None ↔ commands = []) ∧
  (∀ commands e, check_multiple_with_options locals p commands f options = Some e →
     (∀ cmd, cmd ∈ commands → ∃ e', check_with_options locals p cmd f options = Some e' ∧
        severity (evaluation_decision e') ≤ severity (evaluation_decision e)) ∧
     (∃ cmd e', cmd ∈ commands ∧ check_with_options locals p cmd f options = Some e' ∧
        evaluation_decision e' = evaluation_decision e)).
Proof.
  assert (∀ cmd, ∃ e, check_with_options locals p cmd f options = Some e) as Htotal.
  { intros cmd. apply from_matches_is_Some, matches_fallback_ne. }
  split_and!.
  - intros cmd. destruct (Htotal cmd) as [e He]. exists e. split; [done|].
    apply from_matches_Some in He as (Hms & Hin & Hmax). rewrite <- Hms in Hin, Hmax.
    split_and!; [done..| |]; destruct e as [d ms]; simpl in *; rewrite matches_fallback in Hms;
      pose proof (matches_not_heuristic p cmd options) as Hnh;
      destruct (matches_for_command_with_options locals p cmd None options) as [|m ms'].
    + subst. by split.
    + subst. rewrite is_match_spec by done. by rewrite bool_decide_eq_false_2.
    + subst. intros _. by apply list_elem_of_singleton in Hin.
    + subst. rewrite is_match_spec by done. by rewrite bool_decide_eq_false_2.
  - intros commands. unfold check_multiple_with_options. split; [|by intros ->].
    destruct commands as [|cmd commands]; [done|]. intros Hn. exfalso.
    destruct (from_matches_is_Some ((cmd :: commands) ≫= λ c, matches_for_command_with_options locals p c (Some f) options))
      as [e He]; [|congruence].
    simpl. intros [Hnil _]%app_nil. by apply matches_fallback_ne in Hnil.
  - intros commands e (Hms & Hin & Hmax)%from_matches_Some. split.
    + intros cmd Hc. destruct (Htotal cmd) as [e' He']. exists e'. split; [done|].
      apply from_matches_Some in He' as (Hms' & Hin' & _).
      apply list_elem_of_fmap in Hin' as (m & -> & Hm). apply Hmax. apply list_elem_of_bind. eauto.
    + apply list_elem_of_fmap in Hin as (m & Hd & Hm). apply list_elem_of_bind in Hm as (cmd & Hm & Hc).
      destruct (Htotal cmd) as [e' He']. exists cmd, e'. split_and!; [done..|].
      apply from_matches_Some in He' as (Hms' & Hin' & Hmax'). apply severity_inj.
      apply list_elem_of_fmap in Hin' as (m' & Hd' & Hm').
      assert (severity (match_decision m') ≤ severity (evaluation_decision e)).
      { apply Hmax, list_elem_of_bind. eauto. }
      specialize (Hmax' m Hm). rewrite Hd, Hd' in *. lia.
Qed.

Lemma merge_exact_answer p overlay cmd f e :
  check locals p cmd f = Some e → is_match e = true →
  matches_for_command_with_options locals (merge_overlay p overlay) cmd (Some f) default_match_options =
  matched_rules e ++ exact_matches overlay cmd.
Proof.
  unfold check. intros (Hms & _)%from_matches_Some Hmatch. rewrite matches_stages in *. simpl in *.
  rewrite exact_matches_merge.
  destruct (exact_matches p cmd) as [|m ms]; [|by rewrite Hms].
  destruct e as [d ms']. simpl in Hms. subst. done.
Qed.

(** An overlay adds to a policy and never weakens it.  The merged policy has the
    rules of both, those of the base first, and stays keyed; a command that rules of the
    base match has in the merged policy the same matches followed by those of the
    overlay, and a decision at least as severe: what the base forbids stays forbidden.
    Of the executables' paths and of the verdicts on a host, the overlay's win. *)
Theorem merge_overlay_strengthens p overlay :
  keyed p → keyed overlay →
  let merged := merge_overlay p overlay in
  keyed merged ∧
  (∀ r, r ∈ all_rules merged ↔ r ∈ all_rules p ∨ r ∈ all_rules overlay) ∧
  (∀ cmd f e, check locals p cmd f = Some e → is_match e = true →
     ∃ e', check locals merged cmd f = Some e' ∧
       matched_rules e' = matched_rules e ++ exact_matches overlay cmd ∧
       severity (evaluation_decision e) ≤ severity (evaluation_decision e')) ∧
  (∀ name, host_executables_by_name merged !! name =
     match host_executables_by_name overlay !! name with
     | Some paths => Some paths | None => host_executables_by_name p !! name end) ∧
  (∀ h d, verdict (network_rules merged) h d ↔
     verdict (network_rules overlay) h d ∨
     ((∀ d', ¬ verdict (network_rules overlay) h d') ∧ verdict (network_rules p) h d)).
Proof.
  intros Hp Ho merged. split_and!.
  - by apply keyed_merge.
  - intros r. unfold all_rules. rewrite !elem_of_all_values. unfold merged, merge_overlay. simpl.
    setoid_rewrite values_extend. setoid_rewrite elem_of_app. naive_solver.
  - intros cmd f e He Hm. pose proof (merge_exact_answer p overlay cmd f e He Hm) as Hans.
    unfold check. unfold merged. rewrite Hans.
    pose proof He as (Hms & Hin & _)%from_matches_Some.
    destruct (from_matches_is_Some (matched_rules e ++ exact_matches overlay cmd)) as [e' He'].
    { intros [Hnil _]%app_nil. rewrite <- Hms, Hnil in Hin. by apply not_elem_of_nil in Hin. }
    exists e'. split; [done|]. apply from_matches_Some in He' as (Hms' & _ & Hmax). split; [done|].
    rewrite <- Hms in Hin. apply list_elem_of_fmap in Hin as (m & -> & Hmm). apply Hmax. set_solver.
  - intros name. unfold merged, merge_overlay. simpl. rewrite lookup_union.
    destruct (host_executables_by_name overlay !! name), (host_executables_by_name p !! name); done.
  - intros h d. apply verdict_app.
Qed.

(** The compiled network domains.  A host is allowed, respectively denied, exactly
    when the last rule for it that is not a prompt allows, respectively forbids it; no
    host is listed twice or in both lists. *)
Theorem compiled_network_domains_last p :
  let '(allowed, denied) := compiled_network_domains p in
  NoDup allowed ∧ NoDup denied ∧ (∀ h, h ∈ allowed → h ∉ denied) ∧
  (∀ h, h ∈ allowed ↔ verdict (network_rules p) h Allow) ∧
  (∀ h, h ∈ denied ↔ verdict (network_rules p) h Forbidden).
Proof.
  pose proof (compiled_spec (network_rules p)) as Hc. unfold compiled, compiled_network_domains in *.
  destruct (foldl compile_network_rule ([], []) (network_rules p)) as [allowed denied].
  destruct Hc as (Hna & Hnd & Ha & Hd). split_and!; try done.
  intros h Hha%Ha Hhd%Hd. clear -Hha Hhd. induction (network_rules p) as [|r rules IH] using rev_ind.
  - by apply verdict_nil in Hha.
  - rewrite !verdict_snoc in *. naive_solver congruence.
Qed.

(** [./name] under the working directory. *)
Lemma dot_name_resolves cwd name :
  current_dir = Ok cwd → abs_normal cwd → component_ok (Normal name) →
  from_absolute_path locals (lit "./" ++ name) = Ok (cwd ++ [Normal name]).
Proof.
  intros Hcwd Habs Hname. unfold from_absolute_path, normalize_path_for_platform.
  change (lit "./" ++ name) with ([46%N] ++ c_slash :: name).
  rewrite expand_plain by done.
  unfold absolutize. rewrite components_not_absolute by done. rewrite Hcwd. simpl. f_equal.
  change (46%N :: c_slash :: name) with ([46%N] ++ c_slash :: name).
  rewrite absolutize_from_relative by (by apply abs_normal_is_absolute || by apply components_not_absolute).
  rewrite normalize_path_id by done. rewrite fold_components by done. rewrite body_slash.
  assert (body name = [Normal name]) as ->; [|done].
  unfold body, split_char. rewrite split_at_all_none by apply Hname.
  apply (omap_piece_names [name]). by constructor.
Qed.

(** The decision does not depend on the program a match was resolved to. *)
Lemma from_matches_resolved program ms d ms' :
  from_matches ms = Some (mkEvaluation d ms') →
  from_matches (with_resolved_program program <$> ms) =
  Some (mkEvaluation d (with_resolved_program program <$> ms')).
Proof.
  assert (match_decision <$> (with_resolved_program program <$> ms) = match_decision <$> ms) as Hd.
  { induction ms as [|m ms IH]; [done|]. csimpl. by rewrite IH, decision_resolved. }
  unfold from_matches. rewrite Hd. destruct (max_decision (match_decision <$> ms)); [|done]. simpl.
  by intros [= -> ->].
Qed.

(** Basename fallback is not limited to absolute program paths: with the fallback
    enabled, a command given as [./name] in any absolute working directory, that no rule
    matches as written, is decided by the rules that match the same command given as
    [name], when no paths are listed for it. *)
Theorem relative_program_falls_back p cwd name args f :
  current_dir = Ok cwd → abs_normal cwd → component_ok (Normal name) →
  host_executables_by_name p !! name = None →
  exact_matches p ((lit "./" ++ name) :: args) = [] → exact_matches p (name :: args) ≠ [] →
  ∃ e e', check_with_options locals p ((lit "./" ++ name) :: args) f (mkOptions true) = Some e ∧
    check_with_options locals p (name :: args) f (mkOptions true) = Some e' ∧
    evaluation_decision e = evaluation_decision e' ∧
    matched_rules e = with_resolved_program (cwd ++ [Normal name]) <$> matched_rules e'.
Proof.
  intros Hcwd Habs Hname Hhost Hno Hyes.
  pose proof (host_rules_eq locals p (lit "./" ++ name) args (cwd ++ [Normal name]) name
    (dot_name_resolves cwd name Hcwd Habs Hname) (file_name_snoc _ _)) as Hrules.
  rewrite decide_True in Hrules by (unfold host_listed; by rewrite Hhost).
  change (matching (rules_of p name) (name :: args)) with (exact_matches p (name :: args)) in Hrules.
  unfold check_with_options. rewrite !matches_stages, Hno, Hrules. cbn [resolve_host_executables].
  destruct (exact_matches p (name :: args)) as [|m ms]; [done|].
  destruct (from_matches_is_Some (m :: ms)) as [[d ms'] He]; [done|].
  apply (from_matches_resolved (cwd ++ [Normal name])) in He as Hr.
  exists (mkEvaluation d (with_resolved_program (cwd ++ [Normal name]) <$> ms')), (mkEvaluation d ms').
  by split_and!.
Qed.

End answers.

(** ** Concrete policies *)

Abbreviation RuleMap := (gmap str (list RuleRef)) (only parsing).

Definition rule_of (tokens : list str) (d : Decision) : RuleRef :=
  mkPrefixRule (mkPattern (hd [] tokens) (Single <$> tl tokens)) d None.

(** [git status] is allowed, [git push] needs approval, [rm] is forbidden. *)
Definition sample_rules : list RuleRef :=
  [rule_of [lit "git"; lit "status"] Allow; rule_of [lit "git"; lit "push"] Prompt; rule_of [lit "rm"] Forbidden].
Definition sample_policy : Policy RuleMap :=
  policy_new (foldl (λ m r, mm_insert (program r) r m) mm_new sample_rules).
Definition sample_overlay : Policy RuleMap :=
  policy_new (foldl (λ m r, mm_insert (program r) r m) mm_new [rule_of [lit "git"] Forbidden]).

Definition heuristic (cmd : list str) : Decision := Prompt.

Lemma keyed_list (rules : list RuleRef) :
  keyed (policy_new (foldl (λ m r, mm_insert (program r) r m) mm_new rules) : Policy RuleMap).
Proof.
  unfold policy_new. induction rules as [|r rules IH] using rev_ind; [apply keyed_empty|].
  rewrite foldl_app. by apply keyed_insert.
Qed.

Lemma matches_documented_witness :
  let ms := matches_for_command_with_options (Env := sample_env) initial_locals sample_policy
              [lit "python"] (Some heuristic) (mkOptions true) in
  ms = [HeuristicsRuleMatch [lit "python"] Prompt].
Proof.
  destruct (matches_documented (Env := sample_env) initial_locals sample_policy [lit "python"] (Some heuristic) true)
    as (_ & _ & Hnone); [apply keyed_list|].
  apply Hnone.
  - intros m Hm. apply exact_match_elem in Hm; [|apply keyed_list]. vm_compute in Hm. by apply not_elem_of_nil in Hm.
  - intros _ m Hm. apply host_match_elem in Hm; [|apply keyed_list]. vm_compute in Hm. by apply not_elem_of_nil in Hm.
Defined.

Lemma merge_overlay_strengthens_witness :
  let merged := merge_overlay sample_policy sample_overlay in
  ∃ e', check (Env := sample_env) initial_locals merged [lit "git"; lit "status"] heuristic = Some e' ∧
    evaluation_decision e' = Forbidden.
Proof.
  destruct (merge_overlay_strengthens (Env := sample_env) initial_locals sample_policy sample_overlay)
    as (_ & _ & Hcheck & _); [apply keyed_list..|].
  destruct (Hcheck [lit "git"; lit "status"] heuristic
    (mkEvaluation Allow [PrefixRuleMatch [lit "git"; lit "status"] Allow None None])) as (e' & He' & _ & _);
    [reflexivity..|].
  exists e'. split; [exact He'|]. vm_compute in He'. by injection He' as <-.
Defined.

Lemma relative_program_falls_back_witness :
  ∃ e e', check_with_options (Env := sample_env) initial_locals sample_policy
            ((lit "./" ++ lit "git") :: [lit "status"]) heuristic (mkOptions true) = Some e ∧
    check_with_options (Env := sample_env) initial_locals sample_policy
            (lit "git" :: [lit "status"]) heuristic (mkOptions true) = Some e' ∧
    evaluation_decision e = evaluation_decision e' ∧
    matched_rules e = with_resolved_program (components (lit "/work") ++ [Normal (lit "git")]) <$> matched_rules e'.
Proof.
  apply (relative_program_falls_back (Env := sample_env) initial_locals sample_policy
    (components (lit "/work")) (lit "git") [lit "status"] heuristic).
  - reflexivity.
  - by repeat constructor.
  - by split_and!.
  - reflexivity.
  - reflexivity.
  - by vm_compute.
Defined.

Lemma check_strictest_witness :
  ∃ e, check_with_options (Env := sample_env) initial_locals sample_policy [lit "rm"; lit "-r"] heuristic
         default_match_options = Some e ∧
    evaluation_decision e = Forbidden ∧ is_match e = true.
Proof.
  destruct (check_strictest (Env := sample_env) initial_locals sample_policy heuristic default_match_options)
    as (Hcheck & _ & _).
  destruct (Hcheck [lit "rm"; lit "-r"]) as (e & He & _ & _ & _ & Hmatch & _).
  exists e. split; [exact He|]. split.
  - vm_compute in He. by injection He as <-.
  - apply Hmatch. by vm_compute.
Defined.
