(* ===== verification/PolicyParser.v ===== *)
(** * PolicyParser: building a policy from its source ([execpolicy/src/parser.rs])

    Starlark is a third-party engine: an interface gives the calls of the policy's
    builtins that running a source makes, in order, and the error it ends with.  The
    builtins, the builder they change and the validation of the examples are the
    code's own. *)
From S2P Require Import Prelude RustStr PatchErrors UnixPath AbsolutePath MultiMap ExecRule ExecPolicy ExecPolicySpec.

(** ** Starlark values *)

(** A [Value] as the code looks at it: [unpack_str], [ListRef::from_value] and
    [get_type]. *)
Inductive Value := VStr (s : str) | VList (items : list Value) | VOther (type_name : str).

Definition get_type (v : Value) : str :=
  match v with VStr _ => lit "string" | VList _ => lit "list" | VOther type_name => type_name end.
Definition unpack_str (v : Value) : option str := match v with VStr s => Some s | _ => None end.

Definition parse_pattern_token (value : Value) : result Error PatternToken :=
  match value with
  | VStr s => Ok (Single s)
  | VList items =>
      tokens ← collect (λ v, ok_or (InvalidPattern (lit "pattern alternative must be a string (got "
                                      ++ get_type v ++ lit ")")) (unpack_str v)) items;
      match tokens with
      | [] => Err (InvalidPattern (lit "pattern alternatives cannot be empty"))
      | [single] => Ok (Single single)
      | _ => Ok (Alts tokens)
      end
  | VOther _ => Err (InvalidPattern (lit "pattern element must be a string or list of strings (got "
                                     ++ get_type value ++ lit ")"))
  end.

Definition parse_pattern (pattern : list Value) : result Error (list PatternToken) :=
  tokens ← collect parse_pattern_token pattern;
  match tokens with
  | [] => Err (InvalidPattern (lit "pattern cannot be empty"))
  | _ => Ok tokens
  end.

Definition parse_list_example (items : list Value) : result Error (list str) :=
  tokens ← collect (λ v, ok_or (InvalidExample (lit "example tokens must be strings (got "
                                  ++ get_type v ++ lit ")")) (unpack_str v)) items;
  match tokens with
  | [] => Err (InvalidExample (lit "example cannot be an empty list"))
  | _ => Ok tokens
  end.

Definition parse_network_rule_decision (raw : str) : result Error Decision :=
  if bool_decide (raw = lit "deny") then Ok Forbidden else Decision_parse raw.

Definition validate_host_executable_name (name : str) : result Error unit :=
  if bool_decide (name = []) then Err (InvalidRule (lit "host_executable name cannot be empty"))
  else
    let path := components name in
    if negb (length path =? 1) || negb (bool_decide (file_name path = Some name))
    then Err (InvalidRule (lit "host_executable name must be a bare executable name (got " ++ name ++ lit ")"))
    else Ok tt.

Definition attach_validation_location (error : Error) (location : option ErrorLocation) : Error :=
  match location with Some location => with_location location error | None => error end.

(** ** The builder *)

Record PendingExampleValidation := mkPending {
  pending_rules : list RuleRef;
  pending_matches : list (list str);
  pending_not_matches : list (list str);
  pending_location : option ErrorLocation;
}.

Record PolicyBuilder (MM : Type) := mkBuilder {
  builder_rules : MM;
  builder_network_rules : list NetworkRule;
  builder_host_executables : gmap str (list Path);
  pending_example_validations : list PendingExampleValidation;
}.
Arguments mkBuilder {MM}.
Arguments builder_rules {MM}.
Arguments builder_network_rules {MM}.
Arguments builder_host_executables {MM}.
Arguments pending_example_validations {MM}.

(** The calls a source makes, with their arguments unpacked; the location is the top
    of the call stack. *)
Inductive BuiltinCall :=
| PrefixRuleCall (pattern : list Value) (decision : option str) (matches not_match : option (list Value))
    (justification : option str) (location : option ErrorLocation)
| NetworkRuleCall (host protocol decision : str) (justification : option str)
| HostExecutableCall (name : str) (paths : list Value).

(** The Starlark engine: a source that does not parse gives a message; a run makes
    calls and may end in an error of its own.  The builtins return nothing and
    Starlark cannot catch errors, so the calls do not depend on the builder. *)
Class StarlarkEngine := {
  run_source : str → str → result str (list BuiltinCall * option str);
  wrap_error : Error → str;
}.

Section builder.
Context {MM : Type} {MapOps : MultiMapOps RuleRef MM} {Env : ProcessEnv}.
Variable locals : PathLocals.
Variable shlex_split : str → option (list str).
Variable try_join : list str → option str.
Variable debug_str : str → str.

Abbreviation B := (PolicyBuilder MM).

Definition builder_new : B := mkBuilder mm_new [] ∅ [].

Definition add_rule (rule : RuleRef) (b : B) : B :=
  mkBuilder (mm_insert (program rule) rule (builder_rules b)) (builder_network_rules b)
            (builder_host_executables b) (pending_example_validations b).
Definition builder_add_network_rule (rule : NetworkRule) (b : B) : B :=
  mkBuilder (builder_rules b) (builder_network_rules b ++ [rule])
            (builder_host_executables b) (pending_example_validations b).
Definition add_host_executable (name : str) (paths : list Path) (b : B) : B :=
  mkBuilder (builder_rules b) (builder_network_rules b)
            (<[name := paths]> (builder_host_executables b)) (pending_example_validations b).
Definition add_pending_example_validation (v : PendingExampleValidation) (b : B) : B :=
  mkBuilder (builder_rules b) (builder_network_rules b)
            (builder_host_executables b) (pending_example_validations b ++ [v]).

(** The policy one validation is run against: its own rules only. *)
Definition validation_policy (b : B) (v : PendingExampleValidation) : Policy MM :=
  mkPolicy (foldl (λ m rule, mm_insert (program rule) rule m) mm_new (pending_rules v)) []
           (builder_host_executables b).

Definition validate_pending (b : B) (v : PendingExampleValidation) : result Error unit :=
  let policy := validation_policy b v in
  _ ← map_err (λ e, attach_validation_location e (pending_location v))
        (validate_not_match_examples locals try_join debug_str policy (pending_not_matches v));
  map_err (λ e, attach_validation_location e (pending_location v))
    (validate_match_examples locals try_join debug_str policy (pending_rules v) (pending_matches v)).

Definition validate_pending_examples_from (start : nat) (b : B) : result Error unit :=
  _ ← collect (validate_pending b) (drop start (pending_example_validations b)); Ok tt.

Definition build (b : B) : Policy MM :=
  mkPolicy (builder_rules b) (builder_network_rules b) (builder_host_executables b).

(** ** Examples and paths *)

Definition parse_string_example (raw : str) : result Error (list str) :=
  match shlex_split raw with
  | None => Err (InvalidExample (lit "example string has invalid shell syntax"))
  | Some [] => Err (InvalidExample (lit "example cannot be an empty string"))
  | Some tokens => Ok tokens
  end.

Definition parse_example (value : Value) : result Error (list str) :=
  match value with
  | VStr raw => parse_string_example raw
  | VList items => parse_list_example items
  | VOther _ => Err (InvalidExample (lit "example must be a string or list of strings (got "
                                     ++ get_type value ++ lit ")"))
  end.

(** [examples.map(parse_examples).transpose()?.unwrap_or_default()]. *)
Definition parse_examples (examples : option (list Value)) : result Error (list (list str)) :=
  match examples with Some items => collect parse_example items | None => Ok [] end.

Definition parse_literal_absolute_path (raw : str) : result Error Path :=
  if negb (is_absolute (components raw))
  then Err (InvalidRule (lit "host_executable paths must be absolute (got " ++ raw ++ lit ")"))
  else map_err (λ error, InvalidRule (lit "invalid absolute path `" ++ raw ++ lit "`: " ++ message error))
         (from_absolute_path locals raw).

(** ** The builtins *)

(** The checks of [prefix_rule] before it changes the builder: the rules it adds, one
    for each alternative of the first token, and the validation of its examples. *)
Definition prefix_rule_args (pattern : list Value) (decision : option str)
    (matches not_match : option (list Value)) (justification : option str)
    (location : option ErrorLocation) : result Error PendingExampleValidation :=
  decision ← match decision with Some raw => Decision_parse raw | None => Ok Allow end;
  justification ← check_justification (InvalidRule (lit "justification cannot be empty")) justification;
  pattern_tokens ← parse_pattern pattern;
  matches ← parse_examples matches;
  not_matches ← parse_examples not_match;
  match pattern_tokens with
  | [] => Err (InvalidPattern (lit "pattern cannot be empty"))
  | first_token :: remaining_tokens =>
      let rules := (λ head, mkPrefixRule (mkPattern head remaining_tokens) decision justification)
                     <$> alternatives first_token in
      Ok (mkPending rules matches not_matches location)
  end.

Definition prefix_rule (pattern : list Value) (decision : option str)
    (matches not_match : option (list Value)) (justification : option str)
    (location : option ErrorLocation) : M B Error unit := λ b,
  match prefix_rule_args pattern decision matches not_match justification location with
  | Err e => (b, Err e)
  | Ok pending =>
      (foldl (λ b rule, add_rule rule b) (add_pending_example_validation pending b) (pending_rules pending), Ok tt)
  end.

Definition network_rule_args (host protocol decision : str) (justification : option str) :
    result Error NetworkRule :=
  protocol ← NetworkRuleProtocol_parse protocol;
  decision ← parse_network_rule_decision decision;
  justification ← check_justification (InvalidRule (lit "justification cannot be empty")) justification;
  host ← normalize_network_rule_host host;
  Ok (mkNetworkRule host protocol decision justification).

Definition network_rule (host protocol decision : str) (justification : option str) :
    M B Error unit := λ b,
  match network_rule_args host protocol decision justification with
  | Err e => (b, Err e)
  | Ok rule => (builder_add_network_rule rule b, Ok tt)
  end.

(** One path of [host_executable], and the loop over the paths. *)
Definition host_executable_path (name : str) (value : Value) : result Error Path :=
  raw ← ok_or (InvalidRule (lit "host_executable paths must be strings (got " ++ get_type value ++ lit ")"))
          (unpack_str value);
  path ← parse_literal_absolute_path raw;
  let basename_error := InvalidRule (lit "host_executable path `" ++ raw ++ lit "` must have basename `"
                                     ++ name ++ lit "`") in
  match executable_path_lookup_key path with
  | None => Err basename_error
  | Some path_name =>
      if bool_decide (path_name ≠ executable_lookup_key name) then Err basename_error else Ok path
  end.
Fixpoint host_executable_paths (name : str) (paths : list Value) (parsed_paths : list Path) :
    result Error (list Path) :=
  match paths with
  | [] => Ok parsed_paths
  | value :: paths =>
      path ← host_executable_path name value;
      host_executable_paths name paths
        (if existsb (λ existing, bool_decide (existing = path)) parsed_paths then parsed_paths
         else parsed_paths ++ [path])
  end.

Definition host_executable (name : str) (paths : list Value) : M B Error unit := λ b,
  match (_ ← validate_host_executable_name name; host_executable_paths name paths []) with
  | Err e => (b, Err e)
  | Ok parsed_paths => (add_host_executable (executable_lookup_key name) parsed_paths b, Ok tt)
  end.

(** ** Running a source *)

Definition run_call (call : BuiltinCall) : M B Error unit :=
  match call with
  | PrefixRuleCall pattern decision matches not_match justification location =>
      prefix_rule pattern decision matches not_match justification location
  | NetworkRuleCall host protocol decision justification => network_rule host protocol decision justification
  | HostExecutableCall name paths => host_executable name paths
  end.

Context {Engine : StarlarkEngine}.

(** [eval_module]: an error of a builtin comes out as a Starlark error. *)
Definition eval_call (call : BuiltinCall) : M B Error unit := λ b,
  let '(b, r) := run_call call b in (b, map_err (λ e, Starlark (wrap_error e)) r).

Definition eval_module (calls : list BuiltinCall) (end_error : option str) : M B Error unit := λ b,
  match for_each eval_call calls b with
  | (b, Ok _) => (b, match end_error with Some msg => Err (Starlark msg) | None => Ok tt end)
  | (b, Err e) => (b, Err e)
  end.

(** [PolicyParser::parse]. *)
Definition parse (policy_identifier policy_file_contents : str) : M B Error unit := λ b,
  let pending_validation_count := length (pending_example_validations b) in
  match run_source policy_identifier policy_file_contents with
  | Err msg => (b, Err (Starlark msg))
  | Ok (calls, end_error) =>
      match eval_module calls end_error b with
      | (b, Err e) => (b, Err e)
      | (b, Ok _) => (b, validate_pending_examples_from pending_validation_count b)
      end
  end.

(** [load_policies] of the contents of the files: one parser for all of them. *)
Definition load_sources (sources : list (str * str)) : M B Error unit :=
  for_each (λ '(identifier, contents), parse identifier contents) sources.

End builder.

(** * What loading a policy source guarantees *)

Section builder.
Context {MM : Type} {MapOps : MultiMapOps RuleRef MM} {MapLaws : MultiMap RuleRef MM}.
Context {Env : ProcessEnv}.
Variable locals : PathLocals.
Variable shlex_split : str → option (list str).
Variable try_join : list str → option str.
Variable debug_str : str → str.

Abbreviation B := (PolicyBuilder MM).
Implicit Types b : B.

(** ** The effect of one call *)

(** The validation, respectively the network rule, that an accepted call adds. *)
Definition call_validation (call : BuiltinCall) : option PendingExampleValidation :=
  match call with
  | PrefixRuleCall pattern decision matches not_match justification location =>
      ok (prefix_rule_args shlex_split pattern decision matches not_match justification location)
  | _ => None
  end.
Definition call_network_rule (call : BuiltinCall) : option NetworkRule :=
  match call with
  | NetworkRuleCall host protocol decision justification =>
      ok (network_rule_args host protocol decision justification)
  | _ => None
  end.

(** The paths listed for an executable: absolute, named like it, none twice. *)
Definition hosts_ok (hosts : gmap str (list Path)) : Prop :=
  ∀ name paths, hosts !! name = Some paths →
    NoDup paths ∧ ∀ q, q ∈ paths → abs_normal q ∧ file_name q = Some name.

Definition builder_ok b : Prop := keyed (build b) ∧ hosts_ok (builder_host_executables b).

(** What a sequence of accepted calls has made of a builder. *)
Definition built_from (calls : list BuiltinCall) b b' : Prop :=
  pending_example_validations b' = pending_example_validations b ++ omap call_validation calls ∧
  builder_network_rules b' = builder_network_rules b ++ omap call_network_rule calls ∧
  ∀ k, rules_of (build b') k =
       rules_of (build b) k ++ filter (λ r, program r = k) (omap call_validation calls ≫= pending_rules).

Lemma add_rules_spec rules b :
  let b' := foldl (λ b rule, add_rule rule b) b rules in
  builder_network_rules b' = builder_network_rules b ∧
  builder_host_executables b' = builder_host_executables b ∧
  pending_example_validations b' = pending_example_validations b ∧
  ∀ k, rules_of (build b') k = rules_of (build b) k ++ filter (λ r, program r = k) rules.
Proof.
  induction rules as [|r rules IH] using rev_ind; simpl.
  - split_and!; [done..|]. intros k. by rewrite app_nil_r.
  - rewrite foldl_app. simpl. destruct IH as (Hn & Hh & Hp & Hr). split_and!; [done..|].
    intros k. rewrite filter_app, app_assoc, <- Hr. unfold rules_of, build. simpl. rewrite values_insert.
    f_equal. rewrite filter_cons. simpl. destruct (decide (k = _)), (decide (_ = k)); naive_solver.
Qed.

Lemma keyed_filter b b' (rules : list RuleRef) :
  keyed (build b) → (∀ k, rules_of (build b') k = rules_of (build b) k ++ filter (λ r, program r = k) rules) →
  keyed (build b').
Proof.
  intros Hk Hr k r. rewrite Hr, elem_of_app, list_elem_of_filter. intros [Hin|[Hin _]]; [by apply Hk|done].
Qed.

(** ** The paths of an executable *)

Lemma literal_path_ok raw q : parse_literal_absolute_path locals raw = Ok q → abs_normal q.
Proof.
  unfold parse_literal_absolute_path. destruct (is_absolute (components raw)) eqn:Habs; [|done]. simpl.
  destruct (starts_with [c_slash] raw) eqn:Hs; [|by rewrite components_not_absolute in Habs].
  apply starts_with_spec in Hs as [rest ->].
  unfold from_absolute_path, normalize_path_for_platform, absolutize. rewrite expand_plain by done.
  rewrite Habs. intros [= <-]. by apply normalize_path_abs.
Qed.

Lemma host_paths_ok name values parsed paths :
  host_executable_paths locals name values parsed = Ok paths →
  NoDup parsed → (∀ q, q ∈ parsed → abs_normal q ∧ file_name q = Some name) →
  NoDup paths ∧ ∀ q, q ∈ paths → abs_normal q ∧ file_name q = Some name.
Proof.
  revert parsed. induction values as [|v values IH]; intros parsed; simpl; [by intros [= <-]|].
  unfold mbind, result_bind. destruct (host_executable_path locals name v) as [q|] eqn:Hq; [|done].
  assert (abs_normal q ∧ file_name q = Some name) as Hqok.
  { unfold host_executable_path, mbind, result_bind in Hq. destruct (ok_or _ (unpack_str v)) as [raw|]; [|done].
    destruct (parse_literal_absolute_path locals raw) as [q'|] eqn:Hl; [|done].
    unfold executable_path_lookup_key, executable_lookup_key in Hq.
    destruct (file_name q') as [base|] eqn:Hf; [|done]. simpl in Hq. case_bool_decide as Hne; [done|].
    injection Hq as <-. rewrite Hne in Hf. split; [by eapply literal_path_ok|done]. }
  intros Hrun Hnd Hall. apply IH in Hrun; [done|..].
  - destruct (existsb _ parsed) eqn:Hex; [done|]. apply NoDup_app. split_and!; [done| |by apply NoDup_singleton].
    intros x Hx ->%list_elem_of_singleton. apply not_true_iff_false in Hex. apply Hex, existsb_exists.
    exists q. by rewrite <- list_elem_of_In, bool_decide_eq_true.
  - destruct (existsb _ parsed); [done|]. intros x [Hx|Hx]%elem_of_app; [by apply Hall|].
    by apply list_elem_of_singleton in Hx as ->.
Qed.

Lemma run_call_spec call b b' :
  run_call locals shlex_split call b = (b', Ok tt) → builder_ok b → builder_ok b' ∧ built_from [call] b b'.
Proof.
  intros Hrun [Hk Hh]. destruct call as [pat d ms nms j loc|h pr d j|name paths]; simpl in Hrun.
  - unfold prefix_rule in Hrun. unfold built_from. simpl.
    destruct (prefix_rule_args shlex_split pat d ms nms j loc) as [v|]; [|done]. injection Hrun as <-. simpl.
    destruct (add_rules_spec (pending_rules v) (add_pending_example_validation v b)) as (Hn & Hhe & Hp & Hr).
    rewrite Hn, Hp, app_nil_r. split_and!; [split|done|done|]; [|by rewrite Hhe|].
    + by eapply keyed_filter; [|exact Hr].
    + intros k. by rewrite Hr, app_nil_r.
  - unfold network_rule in Hrun. unfold built_from. simpl.
    destruct (network_rule_args h pr d j) as [r|]; [|done]. injection Hrun as <-. simpl.
    split_and!; [by split|by rewrite app_nil_r|done|]. intros k. by rewrite app_nil_r.
  - unfold host_executable in Hrun. unfold built_from. simpl.
    destruct (_ ← validate_host_executable_name name; _) as [parsed|] eqn:Hp; [|done]. injection Hrun as <-. simpl.
    split_and!; [split; [done|]|by rewrite app_nil_r..|intros k; by rewrite app_nil_r].
    unfold mbind, result_bind in Hp. destruct (validate_host_executable_name name); [|done].
    apply host_paths_ok in Hp; [|constructor|by intros q ?%not_elem_of_nil].
    intros n ps. unfold add_host_executable, executable_lookup_key. simpl.
    destruct (decide (n = name)) as [->|Hne]; [rewrite lookup_insert_eq; by intros [= <-]|].
    rewrite lookup_insert_ne by done. apply Hh.
Qed.

Context {Engine : StarlarkEngine}.

Lemma built_from_trans calls1 calls2 b1 b2 b3 :
  built_from calls1 b1 b2 → built_from calls2 b2 b3 → built_from (calls1 ++ calls2) b1 b3.
Proof.
  intros (Hp1 & Hn1 & Hr1) (Hp2 & Hn2 & Hr2). unfold built_from.
  rewrite Hp2, Hp1, Hn2, Hn1, !omap_app, <- !app_assoc. split_and!; [done..|].
  intros k. by rewrite Hr2, Hr1, bind_app, filter_app, app_assoc.
Qed.

Lemma eval_calls_spec calls b b' :
  for_each (eval_call locals shlex_split) calls b = (b', Ok tt) → builder_ok b →
  builder_ok b' ∧ built_from calls b b'.
Proof.
  revert b. induction calls as [|call calls IH]; intros b; simpl.
  - intros [= <-] Hb. split; [done|]. unfold built_from. simpl.
    split_and!; [by rewrite app_nil_r..|]. intros k. by rewrite app_nil_r.
  - intros [([] & b1 & Hc & Hrest)|(e & _ & ?)]%M_bind_inv; [|done]. intros Hb.
    unfold eval_call in Hc. destruct (run_call locals shlex_split call b) as [b2 [[]|e]] eqn:Hrun; [|done].
    injection Hc as <-. apply run_call_spec in Hrun as [Hb1 Hf1]; [|done].
    apply IH in Hrest as [Hb' Hf]; [|done]. split; [done|]. by apply (built_from_trans [call] calls b b2 b').
Qed.

(** ** The examples *)

Lemma no_matches policy ex :
  keyed policy →
  matches_for_command_with_options locals policy ex None (mkOptions true) = [] ↔
  ∀ m, ¬ exact_match policy ex m ∧ ¬ host_match locals policy ex m.
Proof.
  intros Hk. rewrite matches_stages. simpl.
  assert (∀ l : list RuleMatch, l = [] ↔ ∀ m, m ∉ l) as Hnil.
  { intros [|x l]; split; try done; [intros _ m; apply not_elem_of_nil|]. intros Hl. exfalso. apply (Hl x). set_solver. }
  setoid_rewrite <- exact_match_elem; [|done]. setoid_rewrite <- host_match_elem; [|done].
  destruct (exact_matches policy ex) as [|m ms].
  - rewrite <- (forall_proper (λ m, m ∉ match_host_executable_rules locals policy ex)).
    + rewrite <- Hnil. by destruct (match_host_executable_rules locals policy ex).
    + intros m. rewrite elem_of_nil. naive_solver.
  - split; [done|]. intros Hm. exfalso. apply (Hm m). set_solver.
Qed.

Lemma validation_policy_spec b v :
  keyed (validation_policy b v) ∧ (∀ r, r ∈ all_rules (validation_policy b v) ↔ r ∈ pending_rules v).
Proof.
  unfold validation_policy. induction (pending_rules v) as [|r rules IH] using rev_ind; simpl.
  - split.
    + intros k r. unfold rules_of. simpl. rewrite values_new. by intros ?%not_elem_of_nil.
    + intros r. unfold all_rules. rewrite elem_of_all_values. simpl. setoid_rewrite values_new.
      setoid_rewrite elem_of_nil. naive_solver.
  - rewrite foldl_app. destruct IH as [Hk Hr]. split; [by apply keyed_insert|].
    intros r'. unfold all_rules in *. rewrite elem_of_all_values. simpl in *.
    setoid_rewrite values_insert. setoid_rewrite elem_of_app. specialize (Hr r').
    rewrite elem_of_all_values in Hr. rewrite <- Hr, list_elem_of_singleton. split.
    + intros [k [Hin|Hin]]; [left; by exists k|]. right. case_decide; [by apply list_elem_of_singleton|set_solver].
    + intros [[k Hin]| ->]; [exists k; by left|]. exists (first (pattern r)). right. rewrite decide_True by done. set_solver.
Qed.

Lemma unmatched_nil policy examples :
  unmatched_examples locals try_join policy examples = [] →
  ∀ ex, ex ∈ examples → matches_for_command_with_options locals policy ex None validation_options ≠ [].
Proof.
  induction examples as [|e examples IH]; [by intros _ ex ?%not_elem_of_nil|].
  unfold unmatched_examples. csimpl. intros Hnil ex [->|Hex]%elem_of_cons.
  - by destruct (matches_for_command_with_options _ _ _ _ _).
  - destruct (matches_for_command_with_options _ _ e _ _); [done|]. by apply IH.
Qed.

Lemma not_matches_ok policy examples :
  validate_not_match_examples locals try_join debug_str policy examples = Ok tt →
  ∀ ex, ex ∈ examples → matches_for_command_with_options locals policy ex None validation_options = [].
Proof.
  induction examples as [|e examples IH]; [by intros _ ex ?%not_elem_of_nil|]. simpl.
  destruct (matches_for_command_with_options locals policy e None validation_options) eqn:He; [|done].
  intros Hok ex [->|Hex]%elem_of_cons; [done|]. by apply IH.
Qed.

Lemma validate_pending_ok b v :
  validate_pending locals try_join debug_str b v = Ok tt →
  let policy := validation_policy b v in
  (∀ ex, ex ∈ pending_matches v → ∃ m, exact_match policy ex m ∨ host_match locals policy ex m) ∧
  (∀ ex, ex ∈ pending_not_matches v → ∀ m, ¬ exact_match policy ex m ∧ ¬ host_match locals policy ex m).
Proof.
  destruct (validation_policy_spec b v) as [Hk _]. unfold validate_pending, mbind, result_bind, map_err.
  destruct (validate_not_match_examples _ _ _ _ _) as [[]|] eqn:Hnot; [|done].
  unfold validate_match_examples. destruct (unmatched_examples _ _ _ _) eqn:Hun; [|done]. intros _. split.
  - intros ex Hex. pose proof (unmatched_nil _ _ Hun ex Hex) as Hne.
    destruct (matches_for_command_with_options _ _ ex None _) as [|m ms] eqn:Hms; [done|]. exists m.
    assert (m ∈ matches_for_command_with_options locals (validation_policy b v) ex None validation_options) as Hm
      by (rewrite Hms; set_solver).
    rewrite matches_stages in Hm. simpl in Hm. rewrite <- exact_match_elem, <- host_match_elem by done.
    destruct (exact_matches (validation_policy b v) ex); [|by left].
    destruct (match_host_executable_rules _ _ _); [by apply not_elem_of_nil in Hm|by right].
  - intros ex Hex. apply no_matches; [done|]. by apply (not_matches_ok _ _ Hnot).
Qed.

(** Loading a policy source.  A source that loads is exactly the sequence of its
    calls, all of them accepted: the builder gains the rules of each [prefix_rule] under
    their own program, in order, and each network rule, and loses nothing; the paths of
    an executable are absolute, named like it and listed once; and every example holds:
    with the executables known at the end of the source, each [match] is matched by a
    rule of its own [prefix_rule], and no [not_match] by any of them. *)
Theorem parse_policy_source identifier contents b b' :
  builder_ok b →
  parse locals shlex_split try_join debug_str identifier contents b = (b', Ok tt) →
  ∃ calls, run_source identifier contents = Ok (calls, None) ∧ builder_ok b' ∧ built_from calls b b' ∧
    ∀ v, v ∈ omap call_validation calls →
      let policy := validation_policy b' v in
      (∀ r, r ∈ all_rules policy ↔ r ∈ pending_rules v) ∧
      (∀ ex, ex ∈ pending_matches v → ∃ m, exact_match policy ex m ∨ host_match locals policy ex m) ∧
      (∀ ex, ex ∈ pending_not_matches v → ∀ m, ¬ exact_match policy ex m ∧ ¬ host_match locals policy ex m).
Proof.
  intros Hb. unfold parse. destruct (run_source identifier contents) as [[calls end_error]|]; [|done].
  unfold eval_module. destruct (for_each _ calls b) as [b1 [[]|e]] eqn:Hrun; [|done].
  destruct end_error as [msg|]; [done|]. intros [= -> Hval].
  apply eval_calls_spec in Hrun as [Hb' Hf]; [|done]. exists calls. split_and!; [done..|].
  destruct Hf as (Hp & _). unfold validate_pending_examples_from in Hval. rewrite Hp, drop_app_length in Hval.
  unfold mbind, result_bind in Hval. destruct (collect _ _) as [us|] eqn:Hc; [|done]. apply collect_ok in Hc.
  intros v Hv. apply list_elem_of_lookup_1 in Hv as [i Hv].
  destruct (Forall2_lookup_l _ _ _ _ _ Hc Hv) as ([] & _ & Hok).
  split; [apply validation_policy_spec|]. by apply validate_pending_ok.
Qed.
End builder.

(** A source that allows [git status] and lists its path. *)
Definition sample_calls : list BuiltinCall :=
  [HostExecutableCall (lit "git") [VStr (lit "/usr/bin/git")];
   PrefixRuleCall [VStr (lit "git"); VList [VStr (lit "status"); VStr (lit "log")]] (Some (lit "allow"))
     (Some [VList [VStr (lit "git"); VStr (lit "log")]; VList [VStr (lit "/usr/bin/git"); VStr (lit "status")]])
     (Some [VList [VStr (lit "git"); VStr (lit "push")]]) None None;
   NetworkRuleCall (lit "Example.com:443") (lit "https") (lit "deny") None].
Definition sample_engine : StarlarkEngine := {|
  run_source _ _ := Ok (sample_calls, None);
  wrap_error _ := [];
|}.
Definition no_split (_ : str) : option (list str) := None.
Definition no_join (_ : list str) : option str := None.
Definition sample_parsed : PolicyBuilder (gmap str (list RuleRef)) * result Error unit :=
  parse (Env := sample_env) (Engine := sample_engine) initial_locals no_split no_join id [] [] builder_new.

Lemma builder_new_ok : builder_ok (builder_new : PolicyBuilder (gmap str (list RuleRef))).
Proof.
  split; [apply keyed_empty|]. intros name paths. simpl. by rewrite lookup_empty.
Qed.

Lemma parse_policy_source_witness :
  sample_parsed.2 = Ok tt ∧ builder_ok sample_parsed.1.
Proof.
  split; [vm_compute; reflexivity|].
  destruct (parse_policy_source (Env := sample_env) (Engine := sample_engine) initial_locals no_split no_join id
    [] [] builder_new sample_parsed.1 builder_new_ok) as (calls & _ & Hok & _); [|exact Hok].
  vm_compute. reflexivity.
Defined.
