(* ===== verification/PolicyAmend.v ===== *)
(** * PolicyAmend: appending rules to a policy file and the one-shot migration
    ([execpolicy/src/amend.rs], [sandbox_migration.rs])

    Text as in the code; the operations of the file system are an interface, every one
    may fail; [serde_json] is an interface of two functions. *)
From S2P Require Import Prelude RustStr PatchErrors UnixPath ExecRule ExecPolicy.

(** A double quote. *)
Definition quote : str := [34%N].

Inductive AmendError :=
| EmptyPrefix
| InvalidNetworkRule (msg : str)
| MissingParent (path : Path)
| CreatePolicyDir (dir : Path) (source : io_error)
| SerializePrefix (source : str)
| SerializeNetworkRule (source : str)
| OpenPolicyFile (path : Path) (source : io_error)
| WritePolicyFile (path : Path) (source : io_error)
| LockPolicyFile (path : Path) (source : io_error)
| SeekPolicyFile (path : Path) (source : io_error)
| ReadPolicyFile (path : Path) (source : io_error)
| PolicyMetadata (path : Path) (source : io_error).

(** [Display] of the errors [normalize_network_rule_host] returns. *)
Definition error_to_string (e : Error) : str :=
  match e with InvalidRule msg => lit "invalid rule: " ++ msg | _ => [] end.

(** [serde_json::to_string] of a string and [from_str::<Vec<String>>]. *)
Class SerdeJson := {
  json_string : str → result str str;
  json_strings : str → option (list str);
}.

(** The operations on files; a handle is named by the path it was opened at, and an
    open file in append mode writes at its end. *)
Class PolicyFs (W : Type) := {
  create_dir : Path → M W io_error bool;      (** [false]: it existed already *)
  open_append : Path → M W io_error unit;     (** create, read, append *)
  lock : Path → M W io_error unit;
  seek_start : Path → M W io_error unit;
  read_handle : Path → M W io_error str;
  append_all : Path → str → M W io_error unit;
  read_to_string : Path → M W io_error str;
  open_rw : Path → M W io_error unit;
  write_start : Path → str → M W io_error unit;
  set_len : Path → nat → M W io_error unit;
  try_exists : Path → M W io_error bool;
  create_dir_all : Path → M W io_error unit;
  (** A temporary file written and renamed unless the target exists ([false]). *)
  persist_noclobber : Path → str → M W io_error bool;
}.

(** An operation whose error is mapped. *)
Definition or_amend {W A} (f : io_error → AmendError) (m : M W io_error A) : M W AmendError A := λ w,
  let '(w, r) := m w in (w, map_err f r).

Section amend.
Context {Json : SerdeJson} {W : Type} {Fs : PolicyFs W}.

(** ** The lines *)

Definition allow_rule_prefix : str := lit "prefix_rule(pattern=".
Definition allow_rule_suffix : str := lit ", decision=" ++ quote ++ lit "allow" ++ quote ++ lit ")".

Fixpoint serialize_tokens (prefix : list str) : result str (list str) :=
  match prefix with
  | [] => Ok []
  | token :: prefix => s ← json_string token; rest ← serialize_tokens prefix; Ok (s :: rest)
  end.

Definition allow_rule_line (prefix : list str) : result AmendError str :=
  match prefix with
  | [] => Err EmptyPrefix
  | _ =>
      tokens ← map_err SerializePrefix (serialize_tokens prefix);
      let pattern := lit "[" ++ join (lit ", ") tokens ++ lit "]" in
      Ok (allow_rule_prefix ++ pattern ++ allow_rule_suffix)
  end.

Definition network_decision_str (decision : Decision) : str :=
  match decision with Allow => lit "allow" | Prompt => lit "prompt" | Forbidden => lit "deny" end.

Definition network_rule_line (host : str) (protocol : NetworkRuleProtocol) (decision : Decision)
    (justification : option str) : result AmendError str :=
  host ← map_err (InvalidNetworkRule ∘ error_to_string) (normalize_network_rule_host host);
  justification ← check_justification (InvalidNetworkRule (lit "justification cannot be empty")) justification;
  host ← map_err SerializeNetworkRule (json_string host);
  protocol ← map_err SerializeNetworkRule (json_string (as_policy_string protocol));
  decision ← map_err SerializeNetworkRule (json_string (network_decision_str decision));
  let args := [lit "host=" ++ host; lit "protocol=" ++ protocol; lit "decision=" ++ decision] in
  args ← match justification with
         | Some justification =>
             justification ← map_err SerializeNetworkRule (json_string justification);
             Ok (args ++ [lit "justification=" ++ justification])
         | None => Ok args
         end;
  Ok (lit "network_rule(" ++ join (lit ", ") args ++ lit ")").

(** ** Appending *)

Definition append_locked_line (policy_path : Path) (line : str) : M W AmendError unit :=
  _ ← or_amend (OpenPolicyFile policy_path) (open_append policy_path);
  _ ← or_amend (LockPolicyFile policy_path) (lock policy_path);
  _ ← or_amend (SeekPolicyFile policy_path) (seek_start policy_path);
  contents ← or_amend (ReadPolicyFile policy_path) (read_handle policy_path);
  if existsb (λ existing, bool_decide (existing = line)) (lines contents) then mret tt
  else
    _ ← (if negb (bool_decide (contents = [])) && negb (ends_with [c_nl] contents)
         then or_amend (WritePolicyFile policy_path) (append_all policy_path [c_nl])
         else mret tt);
    or_amend (WritePolicyFile policy_path) (append_all policy_path (line ++ [c_nl])).

Definition append_rule_line (policy_path : Path) (rule : str) : M W AmendError unit :=
  match parent policy_path with
  | None => throw (MissingParent policy_path)
  | Some dir =>
      _ ← or_amend (CreatePolicyDir dir) (create_dir dir);
      append_locked_line policy_path rule
  end.

Definition blocking_append_allow_prefix_rule (policy_path : Path) (prefix : list str) : M W AmendError unit :=
  rule ← lift (allow_rule_line prefix); append_rule_line policy_path rule.

Definition blocking_append_network_rule (policy_path : Path) (host : str) (protocol : NetworkRuleProtocol)
    (decision : Decision) (justification : option str) : M W AmendError unit :=
  rule ← lift (network_rule_line host protocol decision justification); append_rule_line policy_path rule.

(** ** The migration *)

Definition MIGRATION_MARKER_FILENAME : str := lit ".sandbox_migration".

(** [str::split_inclusive]: pieces keep their line feed, the last one when not empty. *)
Fixpoint split_inclusive_pieces (pieces : list str) : list str :=
  match pieces with
  | [] => []
  | [l] => if bool_decide (l = []) then [] else [l]
  | l :: pieces => (l ++ [c_nl]) :: split_inclusive_pieces pieces
  end.
Definition split_inclusive (s : str) : list str := split_inclusive_pieces (split_char c_nl s).

(** One suffix removed if it is there: [strip_suffix(..).unwrap_or(line)]. *)
Definition strip_opt (suffix line : str) : str := default line (strip_suffix suffix line).

Definition lower_prefix (prefix : list str) : list str := to_ascii_lowercase <$> prefix.

Definition should_remove_rule (line : str) (banned_prefixes : gset (list str)) : bool :=
  let line := strip_opt [c_cr] (strip_opt [c_nl] line) in
  match strip_prefix allow_rule_prefix line with
  | None => false
  | Some line =>
      match strip_suffix allow_rule_suffix line with
      | None => false
      | Some pattern =>
          match json_strings pattern with
          | None => false
          | Some prefix => bool_decide (lower_prefix prefix ∈ banned_prefixes)
          end
      end
  end.

Definition strip_banned_allow_rules (contents : str) (banned_prefixes : list (list str)) : str :=
  let banned_prefixes : gset (list str) :=
    list_to_set (lower_prefix <$> banned_prefixes) in
  mjoin (M := list)
    (filter (λ line, should_remove_rule line banned_prefixes = false) (split_inclusive contents)).

(** A failing operation whose [NotFound] is a result of its own. *)
Definition or_not_found {A} (m : M W io_error A) : M W io_error (option A) := λ w,
  match m w with
  | (w, Ok a) => (w, Ok (Some a))
  | (w, Err e) => (w, if bool_decide (kind e = NotFound) then Ok None else Err e)
  end.

(** The second read is of the file as opened for writing. *)
Definition clean_rules_file (policy_path : Path) (banned_prefixes : list (list str)) : M W io_error unit :=
  contents ← or_not_found (read_to_string policy_path);
  match contents with
  | None => mret tt
  | Some contents =>
      if bool_decide (strip_banned_allow_rules contents banned_prefixes = contents) then mret tt
      else
        opened ← or_not_found (open_rw policy_path);
        match opened with
        | None => mret tt
        | Some _ =>
            contents ← read_handle policy_path;
            let retained := strip_banned_allow_rules contents banned_prefixes in
            if bool_decide (retained = contents) then mret tt
            else
              _ ← seek_start policy_path;
              _ ← write_start policy_path retained;
              set_len policy_path (str_len retained)
        end
  end.

Definition write_migration_marker (codex_home marker_path : Path) : M W io_error unit :=
  _ ← create_dir_all codex_home;
  _ ← persist_noclobber marker_path (lit "v1" ++ [c_nl]);
  mret tt.

Definition prefix_rule_migration (codex_home policy_path : Path) (banned_prefixes : list (list str)) :
    M W io_error unit :=
  let marker_path := path_concat codex_home (components MIGRATION_MARKER_FILENAME) in
  exists_ ← try_exists marker_path;
  if exists_ : bool then mret tt
  else
    _ ← clean_rules_file policy_path banned_prefixes;
    write_migration_marker codex_home marker_path.

End amend.

(** * The lines of a policy file *)

(** ** Texts as lines *)

Lemma split_char_app c a b : split_char c (a ++ c :: b) = split_char c a ++ split_char c b.
Proof.
  unfold split_char. induction a as [|d a IH]; simpl; [by rewrite (N.eqb_refl c : is_char c c = true)|].
  rewrite IH. destruct (is_char c d); [done|].
  pose proof (split_at_all_nonempty (is_char c) a) as Hne. by destruct (split_at_all (is_char c) a).
Qed.

Lemma split_char_none c s : forallb (negb ∘ is_char c) s = true → split_char c s = [s].
Proof. apply split_at_all_none. Qed.

Lemma lines_of_pieces_snoc ls l :
  lines_of_pieces (ls ++ [l]) = (strip_cr <$> ls) ++ (if bool_decide (l = []) then [] else [l]).
Proof.
  induction ls as [|k ls IH]; simpl; [done|]. rewrite IH. by destruct (ls ++ [l]) eqn:E; [destruct ls|].
Qed.

(** The lines of a text whose last line is ended. *)
Lemma lines_snoc_nl s : lines (s ++ [c_nl]) = strip_cr <$> split_char c_nl s.
Proof.
  unfold lines. rewrite split_char_app. change (split_char c_nl []) with [[] : str].
  by rewrite lines_of_pieces_snoc, app_nil_r.
Qed.

Lemma split_last s : ∃ ls l, split_char c_nl s = ls ++ [l] ∧ (last s ≠ Some c_nl → s ≠ [] → l ≠ [] ∧ last l = last s).
Proof.
  induction s as [|c s IH]; [by exists [], []|]. destruct IH as (ls & l & Hs & Hl).
  unfold split_char in *. simpl. rewrite Hs. unfold is_char at 1. destruct (N.eqb_spec c c_nl) as [->|Hc].
  - exists ([] :: ls), l. split; [done|]. intros Hlast _. destruct s as [|d s]; [done|]. by apply Hl.
  - destruct ls as [|k ls]; simpl.
    + exists [], (c :: l). split; [done|]. intros Hlast _. split; [done|].
      destruct s as [|d s]; [injection Hs as <-; done|].
      destruct Hl as [Hne Heq]; [done..|]. change (last (c :: d :: s)) with (last (d :: s)). rewrite <- Heq.
      by destruct l.
    + exists ((c :: k) :: ls), l. split; [done|]. intros Hlast _.
      destruct s as [|d s]; [by destruct ls|]. by apply Hl.
Qed.

Lemma lines_end s :
  s ≠ [] → last s ≠ Some c_nl → last s ≠ Some c_cr → lines (s ++ [c_nl]) = lines s.
Proof.
  intros Hne Hnl Hcr. rewrite lines_snoc_nl. unfold lines.
  destruct (split_last s) as (ls & l & -> & Hl). destruct (Hl Hnl Hne) as [Hlne Hlast].
  rewrite lines_of_pieces_snoc, bool_decide_eq_false_2 by done.
  rewrite fmap_app. simpl. by rewrite strip_cr_id by by rewrite Hlast.
Qed.

(** A text whose last line is ended, if there is one. *)
Definition ended (s : str) : Prop := s = [] ∨ ∃ t, s = t ++ [c_nl].

Lemma lines_add s line :
  ended s → no_nl line = true → lines (s ++ line ++ [c_nl]) = lines s ++ [strip_cr line].
Proof.
  intros Hs Hline. rewrite app_assoc, lines_snoc_nl. destruct Hs as [->|[t ->]].
  - simpl. by rewrite split_char_none.
  - rewrite lines_snoc_nl, <- app_assoc. simpl. rewrite split_char_app, fmap_app.
    by rewrite (split_char_none _ line).
Qed.

(** ** Appending a line *)

Definition finish_last (s : str) : str :=
  if negb (bool_decide (s = [])) && negb (ends_with [c_nl] s) then s ++ [c_nl] else s.

(** The text of the file afterwards. *)
Definition append_line (s line : str) : str :=
  if existsb (λ existing, bool_decide (existing = line)) (lines s) then s
  else finish_last s ++ line ++ [c_nl].

Lemma finish_last_ended s : ended (finish_last s).
Proof.
  unfold finish_last. case_bool_decide as Hs; [by left|]. simpl. destruct (ends_with [c_nl] s) eqn:He; simpl.
  - apply ends_with_spec in He as [t ->]. right. by exists t.
  - right. by exists s.
Qed.

Lemma ends_with_last s : ends_with [c_nl] s = true ↔ last s = Some c_nl.
Proof.
  rewrite ends_with_spec, last_Some. unfold suffix. naive_solver.
Qed.

Lemma finish_last_lines s : last s ≠ Some c_cr → lines (finish_last s) = lines s.
Proof.
  intros Hcr. unfold finish_last. case_bool_decide as Hs; [done|]. simpl.
  destruct (ends_with [c_nl] s) eqn:He; [done|]. simpl. apply lines_end; [done| |done].
  rewrite <- ends_with_last. by rewrite He.
Qed.

Lemma existsb_line (line : str) (ls : list str) : existsb (λ existing, bool_decide (existing = line)) ls = true ↔ line ∈ ls.
Proof.
  rewrite existsb_exists, list_elem_of_In. split.
  - by intros (x & Hx & ->%bool_decide_eq_true).
  - intros Hin. exists line. by rewrite bool_decide_eq_true.
Qed.

(** A line that ends in no carriage return is a line of the text it is appended to,
    and appending it again changes nothing. *)
Lemma append_line_in s line :
  no_nl line = true → last line ≠ Some c_cr → line ∈ lines (append_line s line).
Proof.
  intros Hn Hcr. unfold append_line. destruct (existsb _ _) eqn:He; [by apply existsb_line|].
  rewrite lines_add, strip_cr_id by (done || apply finish_last_ended). set_solver.
Qed.

Lemma append_line_idemp s line :
  no_nl line = true → last line ≠ Some c_cr → append_line (append_line s line) line = append_line s line.
Proof.
  intros Hn Hcr. pose proof (append_line_in s line Hn Hcr) as Hin. apply existsb_line in Hin.
  unfold append_line at 1. by rewrite Hin.
Qed.

Lemma append_line_lines s line :
  no_nl line = true → last line ≠ Some c_cr → last s ≠ Some c_cr →
  lines (append_line s line) = lines s ++ (if decide (line ∈ lines s) then [] else [line]).
Proof.
  intros Hn Hl Hs. unfold append_line. case_decide as Hin.
  - apply existsb_line in Hin as ->. by rewrite app_nil_r.
  - rewrite <- existsb_line, not_true_iff_false in Hin. rewrite Hin.
    by rewrite lines_add, finish_last_lines, strip_cr_id by (done || apply finish_last_ended).
Qed.

Lemma append_line_prefix s line : s `prefix_of` append_line s line.
Proof.
  unfold append_line, finish_last. destruct (existsb _ _); [done|].
  destruct (negb _ && _); rewrite <- ?app_assoc; by eexists.
Qed.

(** ** Laws *)

(** What the documentation of [serde_json] gives: a serialized string has its control
    characters escaped, and a list of serialized strings is read back. *)
Class SerdeJsonLaws {Json : SerdeJson} := {
  json_no_nl s t : json_string s = Ok t → no_nl t = true;
  json_strings_spec tokens ts :
    serialize_tokens tokens = Ok ts → json_strings (lit "[" ++ join (lit ", ") ts ++ lit "]") = Some tokens;
}.
Arguments SerdeJsonLaws : clear implicits.

(** Files as texts: [text w p] is the text of the file at [p], if there is one.  The
    laws say what successful operations do; a failing one may do anything. *)
Class PolicyFsLaws (W : Type) {Fs : PolicyFs W} := {
  text : W → Path → option str;
  create_dir_text d w w' r : create_dir d w = (w', Ok r) → text w' = text w;
  open_append_text p w w' : open_append p w = (w', Ok tt) → 
    text w' p = Some (default [] (text w p)) ∧ ∀ q, q ≠ p → text w' q = text w q;
  lock_text p w w' : lock p w = (w', Ok tt) → text w' = text w;
  seek_text p w w' : seek_start p w = (w', Ok tt) → text w' = text w;
  read_handle_text p w w' s : read_handle p w = (w', Ok s) → text w' = text w ∧ text w p = Some s;
  append_all_text p s w w' old : append_all p s w = (w', Ok tt) → text w p = Some old →
    text w' p = Some (old ++ s) ∧ ∀ q, q ≠ p → text w' q = text w q;
  read_to_string_text p w w' s : read_to_string p w = (w', Ok s) → text w' = text w ∧ text w p = Some s;
  read_to_string_missing p w w' e :
    read_to_string p w = (w', Err e) → kind e = NotFound → text w' = text w ∧ text w p = None;
  open_rw_text p w w' : open_rw p w = (w', Ok tt) → text w' = text w;
  open_rw_missing p w w' e : open_rw p w = (w', Err e) → kind e = NotFound → text w' = text w ∧ text w p = None;
  (** Writing at the start leaves what was beyond the new text, and cutting the file at
      the length of the new text removes that. *)
  write_start_text p s w w' : write_start p s w = (w', Ok tt) →
    (∃ more, text w' p = Some (s ++ more)) ∧ ∀ q, q ≠ p → text w' q = text w q;
  set_len_text p s more w w' : set_len p (str_len s) w = (w', Ok tt) → text w p = Some (s ++ more) →
    text w' p = Some s ∧ ∀ q, q ≠ p → text w' q = text w q;
  try_exists_text p w w' r : try_exists p w = (w', Ok r) → text w' = text w ∧ r = bool_decide (is_Some (text w p));
  create_dir_all_text p w w' : create_dir_all p w = (w', Ok tt) → text w' = text w;
  persist_text p s w w' r : persist_noclobber p s w = (w', Ok r) →
    is_Some (text w' p) ∧ ∀ q, q ≠ p → text w' q = text w q;
}.

Lemma or_amend_inv {W A} (f : io_error → AmendError) (m : M W io_error A) w w' a :
  or_amend f m w = (w', Ok a) → m w = (w', Ok a).
Proof. unfold or_amend. destruct (m w) as [w1 [x|e]]; simpl; naive_solver. Qed.

(** A sequence that succeeds: its first step succeeded. *)
Lemma M_bind_ok {S E A B} (m : M S E A) (f : A → M S E B) s s' b :
  (m ≫= f) s = (s', Ok b) → ∃ a s1, m s = (s1, Ok a) ∧ f a s1 = (s', Ok b).
Proof. intros [?|(e & _ & ?)]%M_bind_inv; [done|done]. Qed.

(** Injectivity of [Ok] without simplifying the result. *)
Lemma Ok_inj {E A} (a b : A) : @Ok E A a = Ok b → a = b.
Proof. by intros [= ->]. Qed.

(** ** The rule lines *)

Lemma no_nl_join sep ls : no_nl sep = true → Forall (λ l, no_nl l = true) ls → no_nl (join sep ls) = true.
Proof.
  intros Hsep Hls. unfold join. induction Hls as [|l ls Hl Hls IH]; [done|].
  destruct ls as [|k ls]; [done|]. rewrite join_with_cons by done. by rewrite !no_nl_app, Hl, Hsep, IH.
Qed.

Lemma last_app_snoc (s : str) c : last (s ++ [c]) = Some c.
Proof. apply last_snoc. Qed.

Section amend.
Context {Json : SerdeJson} {JsonLaws : SerdeJsonLaws Json}.

Lemma serialize_no_nl tokens ts : serialize_tokens tokens = Ok ts → Forall (λ l, no_nl l = true) ts.
Proof.
  revert ts. induction tokens as [|t tokens IH]; intros ts; simpl; [by intros [= <-]|].
  unfold mbind, result_bind. destruct (json_string t) as [s|] eqn:Hs; [|done].
  destruct (serialize_tokens tokens) as [rest|]; [|done]. intros [= <-].
  constructor; [by eapply json_no_nl|]. by apply IH.
Qed.

Lemma allow_rule_line_Ok prefix line :
  allow_rule_line prefix = Ok line →
  prefix ≠ [] ∧ ∃ ts, serialize_tokens prefix = Ok ts ∧
    line = allow_rule_prefix ++ (lit "[" ++ join (lit ", ") ts ++ lit "]") ++ allow_rule_suffix.
Proof.
  unfold allow_rule_line. destruct prefix as [|t prefix]; [done|]. unfold mbind, result_bind, map_err.
  destruct (serialize_tokens (t :: prefix)) as [ts|]; [|done]. intros [= <-]. split; [done|]. by exists ts.
Qed.

(** A line of the program: no line feed, and a closing parenthesis at its end. *)
Definition rule_line (line : str) : Prop := no_nl line = true ∧ last line = Some 41%N.

Lemma allow_rule_line_shape prefix line : allow_rule_line prefix = Ok line → rule_line line.
Proof.
  intros (_ & ts & Hts & ->)%allow_rule_line_Ok. split.
  - rewrite !no_nl_app. rewrite (no_nl_join (lit ", ") ts) by (done || by eapply serialize_no_nl). done.
  - rewrite !last_app. reflexivity.
Qed.

Lemma network_rule_line_shape host protocol decision justification line :
  network_rule_line host protocol decision justification = Ok line → rule_line line.
Proof.
  unfold network_rule_line, mbind, result_bind, map_err.
  destruct (normalize_network_rule_host host) as [h|]; [|done].
  destruct (check_justification _ _) as [j|]; [|done].
  destruct (json_string h) as [hs|] eqn:Hh; [|done]. destruct (json_string (as_policy_string _)) as [ps|] eqn:Hp; [|done].
  destruct (json_string (network_decision_str _)) as [ds|] eqn:Hd; [|done].
  apply json_no_nl in Hh, Hp, Hd.
  assert (∀ args, Forall (λ l, no_nl l = true) args → rule_line (lit "network_rule(" ++ join (lit ", ") args ++ lit ")")) as Hshape.
  { intros args Hargs. split; [|rewrite !last_app; reflexivity].
    rewrite !no_nl_app. by rewrite (no_nl_join (lit ", ") args) by done. }
  assert (∀ key s, no_nl key = true → no_nl s = true → no_nl (key ++ s) = true) as Harg.
  { intros key s Hk Hs. by rewrite no_nl_app, Hk, Hs. }
  assert (Forall (λ l, no_nl l = true) [lit "host=" ++ hs; lit "protocol=" ++ ps; lit "decision=" ++ ds]) as Hargs.
  { rewrite !Forall_cons, Forall_nil. split_and!; [by apply Harg..|done]. }
  destruct j as [j|].
  - destruct (json_string j) as [js|] eqn:Hj; [|done]. apply json_no_nl in Hj. intros <-%Ok_inj.
    refine (Hshape _ _). apply Forall_app. split; [exact Hargs|]. apply Forall_singleton. by apply Harg.
  - intros <-%Ok_inj. refine (Hshape _ _). exact Hargs.
Qed.

Lemma rule_line_no_cr line : rule_line line → no_nl line = true ∧ last line ≠ Some c_cr.
Proof. intros [Hn Hl]. split; [done|]. by rewrite Hl. Qed.

Context {W : Type} {Fs : PolicyFs W} {FsLaws : PolicyFsLaws W}.

Lemma append_rule_line_spec p line (w w' : W) :
  append_rule_line p line w = (w', Ok tt) →
  text w' p = Some (append_line (default [] (text w p)) line) ∧ ∀ q, q ≠ p → text w' q = text w q.
Proof.
  unfold append_rule_line. destruct (parent p) as [dir|]; [|done].
  intros (r & w1 & Hd%or_amend_inv%create_dir_text & Ha)%M_bind_ok. rewrite <- Hd. clear Hd.
  unfold append_locked_line in Ha.
  apply M_bind_ok in Ha as ([] & w2 & [Ho1 Ho2]%or_amend_inv%open_append_text & Ha).
  apply M_bind_ok in Ha as ([] & w3 & Hl%or_amend_inv%lock_text & Ha).
  apply M_bind_ok in Ha as ([] & w4 & Hs%or_amend_inv%seek_text & Ha).
  apply M_bind_ok in Ha as (contents & w5 & [Hr1 Hr2]%or_amend_inv%read_handle_text & Ha).
  rewrite Hs, Hl, Ho1 in Hr2. injection Hr2 as Hc. rewrite Hc.
  assert (text w5 = text w2) as H5 by congruence. clear Hs Hl Hr1.
  unfold append_line. destruct (existsb _ _) eqn:Hex.
  - injection Ha as <-. rewrite H5, Ho1, Hc. done.
  - apply M_bind_ok in Ha as ([] & w6 & Hn & Ha%or_amend_inv).
    assert (text w6 p = Some (finish_last contents) ∧ ∀ q, q ≠ p → text w6 q = text w1 q) as [H6 H6'].
    { unfold finish_last. destruct (negb _ && negb _).
      - apply or_amend_inv in Hn. apply (append_all_text p _ _ _ contents) in Hn as [Hn1 Hn2]; [|by rewrite H5, Ho1, Hc].
        split; [done|]. intros q Hq. by rewrite Hn2, H5, Ho2.
      - injection Hn as <-. rewrite H5, Ho1, Hc. split; [done|]. intros q Hq. by rewrite Ho2. }
    apply (append_all_text p _ _ _ (finish_last contents)) in Ha as [Ha1 Ha2]; [|done]. split; [done|].
    intros q Hq. by rewrite Ha2, H6'.
Qed.

(** The calls that append a rule line. *)
Definition appends (p : Path) (line : str) (w w' : W) : Prop :=
  (∃ prefix, allow_rule_line prefix = Ok line ∧ blocking_append_allow_prefix_rule p prefix w = (w', Ok tt)) ∨
  (∃ host protocol decision justification,
     network_rule_line host protocol decision justification = Ok line ∧
     blocking_append_network_rule p host protocol decision justification w = (w', Ok tt)).

Lemma appends_inv p line w w' : appends p line w w' → rule_line line ∧ append_rule_line p line w = (w', Ok tt).
Proof.
  intros [(prefix & Hl & Ha)|(h & pr & d & j & Hl & Ha)].
  - split; [by eapply allow_rule_line_shape|]. unfold blocking_append_allow_prefix_rule in Ha. m_unfold. by rewrite Hl in Ha.
  - split; [by eapply network_rule_line_shape|]. unfold blocking_append_network_rule in Ha. m_unfold. by rewrite Hl in Ha.
Qed.

(** Appending a rule to the policy file.  A successful append keeps the text of the
    file as a prefix and makes the rule one of its lines; a rule already there adds
    nothing, any other rule adds exactly one line (the last line, ended or not, stays a
    line of its own); doing it again changes nothing; and no other file changes. *)
Theorem append_rule_adds_line p line w w' :
  appends p line w w' →
  let old := default [] (text w p) in
  ∃ new, text w' p = Some new ∧ old `prefix_of` new ∧ line ∈ lines new ∧
    (last old ≠ Some c_cr → lines new = lines old ++ (if decide (line ∈ lines old) then [] else [line])) ∧
    (∀ w'', appends p line w' w'' → text w'' p = Some new) ∧
    (∀ q, q ≠ p → text w' q = text w q).
Proof.
  intros [Hline Happ]%appends_inv. apply append_rule_line_spec in Happ as [Hp Hq]. simpl.
  apply rule_line_no_cr in Hline as [Hn Hc]. eexists. split_and!; [exact Hp|..].
  - apply append_line_prefix.
  - by apply append_line_in.
  - intros Hold. by apply append_line_lines.
  - intros w'' [_ Happ]%appends_inv. apply append_rule_line_spec in Happ as [Hp' _].
    rewrite Hp', Hp. simpl. by rewrite append_line_idemp.
  - exact Hq.
Qed.

(** ** Pieces with their line feed *)

Definition piece_ok (l : str) : Prop := ∃ b, no_nl b = true ∧ l = b ++ [c_nl].

(** What [split_inclusive] gives: only the last piece may lack its line feed. *)
Fixpoint chunked (ls : list str) : Prop :=
  match ls with
  | [] => True
  | [l] => l ≠ [] ∧ (no_nl l = true ∨ piece_ok l)
  | l :: ls => piece_ok l ∧ chunked ls
  end.

Lemma piece_ok_ne l : piece_ok l → l ≠ [].
Proof. intros ([|c b] & _ & ->); done. Qed.

Lemma chunked_cons l ls : piece_ok l → chunked ls → chunked (l :: ls).
Proof. intros Hl Hls. destruct ls; [|done]. split; [by apply piece_ok_ne|by right]. Qed.

Lemma chunked_tail l ls : chunked (l :: ls) → chunked ls.
Proof. destruct ls; [done|]. by intros [_ ?]. Qed.

Lemma chunked_filter (P : str → Prop) `{∀ l, base.Decision (P l)} ls : chunked ls → chunked (filter P ls).
Proof.
  induction ls as [|l ls IH]; [done|]. intros Hc. pose proof (chunked_tail _ _ Hc) as Ht%IH.
  rewrite filter_cons. case_decide; [|done]. destruct ls as [|k ls]; [done|]. destruct Hc as [Hl _].
  by apply chunked_cons.
Qed.

Lemma pieces_chunked pieces :
  Forall (λ l, no_nl l = true) pieces → chunked (split_inclusive_pieces pieces).
Proof.
  induction 1 as [|l pieces Hl Hp IH]; [done|]. destruct pieces as [|k pieces].
  - simpl. case_bool_decide; [done|]. split; [done|]. by left.
  - apply chunked_cons; [by exists l|done].
Qed.

Lemma split_inclusive_chunked s : chunked (split_inclusive s).
Proof. apply pieces_chunked, split_at_all_pieces. Qed.

Lemma split_inclusive_join s : mjoin (split_inclusive s) = s.
Proof.
  unfold split_inclusive. rewrite <- (join_split_char c_nl s) at 2. unfold join.
  pose proof (split_at_all_nonempty (is_char c_nl) s) as Hne. change (split_at_all (is_char c_nl) s) with (split_char c_nl s) in Hne.
  induction (split_char c_nl s) as [|l pieces IH]; [done|]. destruct pieces as [|k pieces].
  - simpl. case_bool_decide; subst; simpl; by rewrite ?app_nil_r.
  - change (split_inclusive_pieces (l :: k :: pieces)) with ((l ++ [c_nl]) :: split_inclusive_pieces (k :: pieces)).
    rewrite join_with_cons by done. rewrite <- IH by done. simpl. by rewrite <- app_assoc.
Qed.

Lemma split_inclusive_piece l rest : piece_ok l → split_inclusive (l ++ rest) = l :: split_inclusive rest.
Proof.
  intros (b & Hb & ->). unfold split_inclusive. rewrite <- app_assoc. simpl. rewrite split_char_app, split_char_none by done.
  pose proof (split_at_all_nonempty (is_char c_nl) rest) as Hne. unfold split_char.
  by destruct (split_at_all (is_char c_nl) rest).
Qed.

Lemma split_inclusive_mjoin ls : chunked ls → split_inclusive (mjoin ls) = ls.
Proof.
  induction ls as [|l ls IH]; [done|]. intros Hc. change (mjoin (l :: ls)) with (l ++ mjoin ls).
  destruct ls as [|k ls].
  - simpl. destruct Hc as [Hne [Hn|Hp]].
    + rewrite app_nil_r. unfold split_inclusive. rewrite split_char_none by done. simpl.
      by rewrite bool_decide_eq_false_2.
    + by rewrite split_inclusive_piece.
  - destruct Hc as [Hl Hc]. rewrite split_inclusive_piece by done. by rewrite IH.
Qed.

Lemma split_inclusive_ended s rest : ended s → split_inclusive (s ++ rest) = split_inclusive s ++ split_inclusive rest.
Proof.
  intros [->|[t ->]]; [done|]. rewrite <- app_assoc. simpl. unfold split_inclusive. rewrite !split_char_app.
  change (split_char c_nl []) with [[] : str]. pose proof (split_at_all_nonempty (is_char c_nl) rest) as Hne.
  unfold split_char in *. generalize dependent (split_at_all (is_char c_nl) rest). intros ps Hps.
  induction (split_at_all (is_char c_nl) t) as [|l ls IH]; [done|].
  change ((l :: ls) ++ ps) with (l :: (ls ++ ps)). change ((l :: ls) ++ [[]]) with (l :: (ls ++ [[] : str])).
  assert (∀ k ks, ks ≠ [] → split_inclusive_pieces (k :: ks) = (k ++ [c_nl]) :: split_inclusive_pieces ks) as Hc
    by by intros k [|].
  rewrite !Hc by by destruct ls. by rewrite IH.
Qed.

(** ** Removing banned rules *)

Definition banned_set (banned : list (list str)) : gset (list str) := list_to_set (lower_prefix <$> banned).
Definition kept (banned : list (list str)) (line : str) : Prop := should_remove_rule line (banned_set banned) = false.

#[local] Instance kept_dec banned line : base.Decision (kept banned line).
Proof. unfold kept. apply _. Defined.

Lemma strip_pieces contents banned :
  split_inclusive (strip_banned_allow_rules contents banned) = filter (kept banned) (split_inclusive contents).
Proof.
  change (strip_banned_allow_rules contents banned) with (mjoin (filter (kept banned) (split_inclusive contents))).
  apply split_inclusive_mjoin, chunked_filter, split_inclusive_chunked.
Qed.

Lemma strip_ended a b banned :
  ended a → strip_banned_allow_rules (a ++ b) banned =
            strip_banned_allow_rules a banned ++ strip_banned_allow_rules b banned.
Proof.
  intros Ha. unfold strip_banned_allow_rules. rewrite split_inclusive_ended by done.
  rewrite filter_app. by rewrite join_app.
Qed.

(** An appended allow rule is recognised whatever its tokens are. *)
Lemma should_remove_allow_rule prefix line banned :
  allow_rule_line prefix = Ok line →
  should_remove_rule (line ++ [c_nl]) banned = bool_decide (lower_prefix prefix ∈ banned).
Proof.
  intros Hl. pose proof (allow_rule_line_shape _ _ Hl) as [_ Hlast].
  apply allow_rule_line_Ok in Hl as (_ & ts & Hts & ->). unfold should_remove_rule, strip_opt.
  assert (∀ s, strip_suffix [c_nl] (s ++ [c_nl]) = Some s) as Hnl by (intros s; by apply strip_suffix_Some).
  rewrite Hnl. cbn [from_option id].
  assert (∀ s, last s = Some 41%N → strip_suffix [c_cr] s = None) as Hcr.
  { intros s Hs. destruct (strip_suffix [c_cr] s) as [u|] eqn:Hu; [|done].
    apply strip_suffix_Some in Hu as ->. by rewrite last_snoc in Hs. }
  rewrite Hcr by done. cbn [from_option id]. rewrite strip_prefix_app.
  assert (∀ s, strip_suffix allow_rule_suffix (s ++ allow_rule_suffix) = Some s) as Hsuf
    by (intros s; by apply strip_suffix_Some).
  rewrite Hsuf. by rewrite (json_strings_spec prefix ts).
Qed.

Lemma strip_allow_rule prefix line banned :
  allow_rule_line prefix = Ok line →
  strip_banned_allow_rules (line ++ [c_nl]) banned =
  if decide (lower_prefix prefix ∈ lower_prefix <$> banned) then [] else line ++ [c_nl].
Proof.
  intros Hl. pose proof (allow_rule_line_shape _ _ Hl) as [Hn _].
  change (strip_banned_allow_rules (line ++ [c_nl]) banned)
    with (mjoin (filter (kept banned) (split_inclusive (line ++ [c_nl])))).
  assert (split_inclusive (line ++ [c_nl]) = [line ++ [c_nl]]) as ->.
  { rewrite <- (app_nil_r (line ++ [c_nl])), split_inclusive_piece by by exists line. by rewrite app_nil_r. }
  assert (kept banned (line ++ [c_nl]) ↔ lower_prefix prefix ∉ lower_prefix <$> banned) as Hkept.
  { unfold kept, banned_set. rewrite (should_remove_allow_rule prefix line), bool_decide_eq_false by done.
    by rewrite elem_of_list_to_set. }
  rewrite filter_cons, filter_nil. case_decide as Hk; case_decide as Hin; try done; try naive_solver.
  simpl. by rewrite app_nil_r.
Qed.

(** Removing banned rules.  The lines of the stripped policy, with their ends, are
    the lines of the policy that are not banned allow rules, in order, byte for byte, so
    stripping again changes nothing; and an allow rule that was appended to a policy
    with complete lines is removed exactly when its prefix, letter case aside, is one of
    the banned ones, and kept as it is otherwise. *)
Theorem strip_banned_rules banned contents :
  split_inclusive (strip_banned_allow_rules contents banned) = filter (kept banned) (split_inclusive contents) ∧
  strip_banned_allow_rules (strip_banned_allow_rules contents banned) banned =
    strip_banned_allow_rules contents banned ∧
  (∀ prefix line, allow_rule_line prefix = Ok line → ended contents →
     strip_banned_allow_rules (contents ++ line ++ [c_nl]) banned =
     strip_banned_allow_rules contents banned ++
       (if decide (lower_prefix prefix ∈ lower_prefix <$> banned) then [] else line ++ [c_nl])).
Proof.
  split_and!.
  - apply strip_pieces.
  - change (strip_banned_allow_rules (strip_banned_allow_rules contents banned) banned)
      with (mjoin (filter (kept banned) (split_inclusive (strip_banned_allow_rules contents banned)))).
    rewrite strip_pieces, list_filter_filter_l; [done|]. done.
  - intros prefix line Hl Hend. rewrite strip_ended by done. by rewrite (strip_allow_rule prefix).
Qed.

(** ** The migration *)

Lemma or_not_found_inv {A} (m : M W io_error A) (w w' : W) o :
  or_not_found m w = (w', Ok o) →
  match o with Some a => m w = (w', Ok a) | None => ∃ e, m w = (w', Err e) ∧ kind e = NotFound end.
Proof.
  unfold or_not_found. destruct (m w) as [w1 [a|e]]; [naive_solver|].
  case_bool_decide; [|done]. intros [= -> <-]. by exists e.
Qed.

Lemma clean_rules_file_spec p banned (w w' : W) :
  clean_rules_file p banned w = (w', Ok tt) →
  text w' p = (λ s, strip_banned_allow_rules s banned) <$> text w p ∧ ∀ q, q ≠ p → text w' q = text w q.
Proof.
  unfold clean_rules_file. intros (o & w1 & Hr%or_not_found_inv & Ha)%M_bind_ok.
  destruct o as [contents|].
  2: { destruct Hr as (e & Hr & Hk). apply read_to_string_missing in Hr as [Ht Hn]; [|done].
       injection Ha as <-. by rewrite Ht, Hn. }
  apply read_to_string_text in Hr as [Ht1 Ht]. case_bool_decide as Hsame.
  { injection Ha as <-. rewrite Ht1, Ht. simpl. by rewrite Hsame. }
  apply M_bind_ok in Ha as (o & w2 & Ho%or_not_found_inv & Ha). destruct o as [[]|].
  2: { destruct Ho as (e & Ho & Hk). apply open_rw_missing in Ho as [_ Hn]; [|done]. rewrite Ht1, Ht in Hn. done. }
  apply open_rw_text in Ho. apply M_bind_ok in Ha as (c2 & w3 & [Hr1 Hr2]%read_handle_text & Ha).
  rewrite Ho, Ht1, Ht in Hr2. injection Hr2 as <-. rewrite bool_decide_eq_false_2 in Ha by done.
  apply M_bind_ok in Ha as ([] & w4 & Hs%seek_text & Ha).
  apply M_bind_ok in Ha as ([] & w5 & [[more Hw] Hw']%write_start_text & Ha).
  apply (set_len_text p _ more) in Ha as [Hl Hl']; [|done].
  rewrite Ht. split; [done|]. intros q Hq. rewrite Hl', Hw' by done. congruence.
Qed.

(** The one-shot migration.  A successful migration leaves the marker; if the marker
    was not there, the policy file, when it exists, has lost its banned rules and nothing
    else, and if it was there nothing has changed; no other file changes, and migrating
    again, with any list of banned rules, changes no file. *)
Theorem migration_once home p banned (w w' : W) :
  let marker := path_concat home (components MIGRATION_MARKER_FILENAME) in
  p ≠ marker → prefix_rule_migration home p banned w = (w', Ok tt) →
  is_Some (text w' marker) ∧
  text w' p = (match text w marker with
               | Some _ => text w p
               | None => (λ s, strip_banned_allow_rules s banned) <$> text w p
               end) ∧
  (∀ q, q ≠ p → q ≠ marker → text w' q = text w q) ∧
  (∀ p' banned' w'', prefix_rule_migration home p' banned' w' = (w'', Ok tt) → text w'' = text w').
Proof.
  intros marker Hp Hm.
  assert (∀ w1 w2 p' banned', is_Some (text w1 marker) →
    prefix_rule_migration home p' banned' w1 = (w2, Ok tt) → text w2 = text w1) as Honce.
  { intros w1 w2 p' banned' Hs (e & w3 & [Ht ->]%try_exists_text & Ha)%M_bind_ok. fold marker in Ha.
    rewrite bool_decide_eq_true_2 in Ha by done. injection Ha as <-. done. }
  destruct (text w marker) as [m|] eqn:Hmark.
  - assert (text w' = text w) as Ht by (apply (Honce w w' p banned); [by rewrite Hmark|done]).
    rewrite Ht, Hmark. split_and!; [done..|]. intros p' b' w'' Hr. rewrite <- Ht.
    eapply Honce; [|exact Hr]. by rewrite Ht, Hmark.
  - unfold prefix_rule_migration in Hm. apply M_bind_ok in Hm as (e & w1 & [Ht ->]%try_exists_text & Ha).
    fold marker in Ha. rewrite Hmark in Ha. rewrite bool_decide_eq_false_2 in Ha by by intros [].
    apply M_bind_ok in Ha as ([] & w2 & [Hc Hc']%clean_rules_file_spec & Ha).
    apply M_bind_ok in Ha as ([] & w3 & Hd%create_dir_all_text & Ha).
    apply M_bind_ok in Ha as (r & w4 & [Hk Hk']%persist_text & Ha). injection Ha as <-.
    split_and!; [done| | |intros p' b' w''; by apply Honce].
    + rewrite Hk', Hd, Hc, Ht by done. done.
    + intros q Hq Hqm. by rewrite Hk', Hd, Hc', Ht by done.
Qed.
End amend.
