(* ===== verification/PolicyMem.v ===== *)
(** * PolicyMem: implementations of the interfaces of PolicyAmend

    JSON strings and arrays of strings as [serde_json] writes them, and files in memory,
    with their laws; and the theorems applied to them. *)
From S2P Require Import Prelude RustStr UnixPath PatchErrors ExecRule ExecPolicy PolicyAmend.

(** ** JSON *)

Definition hex (n : N) : char := if (n <? 10)%N then (48 + n)%N else (87 + n)%N.
Definition unhex (c : char) : option N :=
  if ((48 <=? c) && (c <=? 57))%N then Some (c - 48)%N
  else if ((97 <=? c) && (c <=? 102))%N then Some (c - 87)%N else None.

Definition escape (c : char) : str :=
  if (c =? 34)%N then [92; 34]%N else if (c =? 92)%N then [92; 92]%N
  else if (c <? 32)%N then [92; 117; 48; 48; hex (c / 16); hex (c mod 16)]%N else [c].
Definition json_text (s : str) : str := quote ++ mjoin (escape <$> s) ++ quote.

(** The rest of a string after its opening quote. *)
Fixpoint read_body (s : str) : option (str * str) :=
  match s with
  | [] => None
  | c :: s1 =>
      if (c =? 34)%N then Some ([], s1)
      else if (c =? 92)%N then
        match s1 with
        | d :: s2 =>
            if (d =? 117)%N then
              match s2 with
              | _ :: _ :: h :: l :: s3 =>
                  match unhex h, unhex l, read_body s3 with
                  | Some h, Some l, Some (body, rest) => Some ((h * 16 + l)%N :: body, rest)
                  | _, _, _ => None
                  end
              | _ => None
              end
            else match read_body s2 with Some (body, rest) => Some (d :: body, rest) | None => None end
        | [] => None
        end
      else match read_body s1 with Some (body, rest) => Some (c :: body, rest) | None => None end
  end.

(** The strings of an array after its first bracket; one unit of fuel per string. *)
Fixpoint read_items (fuel : nat) (s : str) : option (list str) :=
  match fuel, strip_prefix quote s with
  | S fuel, Some s =>
      match read_body s with
      | Some (item, rest) =>
          if bool_decide (rest = lit "]") then Some [item]
          else match strip_prefix (lit ", ") rest with
               | Some rest => cons item <$> read_items fuel rest
               | None => None
               end
      | None => None
      end
  | _, _ => None
  end.
Definition read_strings (s : str) : option (list str) :=
  match strip_prefix (lit "[") s with
  | Some rest => if bool_decide (rest = lit "]") then Some [] else read_items (length rest) rest
  | None => None
  end.

#[export] Instance json_impl : SerdeJson := {|
  json_string s := Ok (json_text s);
  json_strings := read_strings;
|}.

Lemma unhex_hex n : (n < 16)%N → unhex (hex n) = Some n.
Proof.
  intros Hn. unfold hex, unhex. destruct (N.ltb_spec n 10).
  - assert (((48 <=? 48 + n) && (48 + n <=? 57))%N = true) as -> by (rewrite andb_true_iff, !N.leb_le; lia).
    f_equal. lia.
  - assert (((48 <=? 87 + n) && (87 + n <=? 57))%N = false) as -> by (rewrite andb_false_iff, !N.leb_gt; lia).
    assert (((97 <=? 87 + n) && (87 + n <=? 102))%N = true) as -> by (rewrite andb_true_iff, !N.leb_le; lia).
    f_equal. lia.
Qed.

Lemma read_body_text s rest : read_body (mjoin (escape <$> s) ++ quote ++ rest) = Some (s, rest).
Proof.
  induction s as [|c s IH]; [done|].
  change (mjoin (escape <$> (c :: s))) with (escape c ++ mjoin (escape <$> s)). rewrite <- app_assoc.
  unfold escape at 1. destruct (N.eqb_spec c 34) as [->|H34]; [cbn [app read_body N.eqb Pos.eqb]; by rewrite IH|].
  destruct (N.eqb_spec c 92) as [->|H92]; [cbn [app read_body N.eqb Pos.eqb]; by rewrite IH|].
  destruct (N.ltb_spec c 32).
  - assert (c / 16 < 16)%N by (apply N.Div0.div_lt_upper_bound; lia).
    assert (c mod 16 < 16)%N by (apply N.mod_lt; lia).
    cbn [app read_body N.eqb Pos.eqb]. rewrite !unhex_hex, IH by done.
    do 3 f_equal. rewrite (N.div_mod c 16) at 3 by done. lia.
  - cbn [app read_body]. rewrite (proj2 (N.eqb_neq c 34) H34), (proj2 (N.eqb_neq c 92) H92). by rewrite IH.
Qed.

Lemma json_text_no_nl s : no_nl (json_text s) = true.
Proof.
  unfold json_text. rewrite !no_nl_app. change (no_nl quote) with true. rewrite andb_true_r. simpl.
  induction s as [|c s IH]; [done|]. change (mjoin (escape <$> (c :: s))) with (escape c ++ mjoin (escape <$> s)).
  rewrite no_nl_app, IH, andb_true_r. unfold escape.
  destruct (N.eqb_spec c 34); [done|]. destruct (N.eqb_spec c 92); [done|].
  assert (∀ d, d ≠ c_nl → negb (is_char c_nl d) = true) as Hne.
  { intros d Hd. unfold is_char. by rewrite (proj2 (N.eqb_neq d c_nl) Hd). }
  assert (∀ n, hex n ≠ c_nl) as Hhex by (intros k; unfold hex, c_nl; case_match; lia).
  destruct (N.ltb_spec c 32).
  - unfold no_nl. cbn [forallb compose]. unfold compose. by rewrite !Hne by (done || apply Hhex).
  - unfold no_nl. cbn [forallb]. unfold compose. rewrite Hne; [done|]. unfold c_nl. lia.
Qed.

Lemma serialize_tokens_text tokens : serialize_tokens tokens = Ok (json_text <$> tokens).
Proof. induction tokens as [|t tokens IH]; [done|]. simpl. by rewrite IH. Qed.

Lemma read_items_text fuel t tokens :
  length tokens < fuel →
  read_items fuel (join (lit ", ") (json_text <$> (t :: tokens)) ++ lit "]") = Some (t :: tokens).
Proof.
  revert t tokens. induction fuel as [|fuel IH]; intros t tokens Hf; [lia|]. destruct tokens as [|u tokens].
  - change (join (lit ", ") (json_text <$> [t])) with (json_text t). unfold json_text. rewrite <- !app_assoc. cbn [read_items]. rewrite strip_prefix_app.
    by rewrite read_body_text.
  - change (join (lit ", ") (json_text <$> (t :: u :: tokens)))
      with (json_text t ++ lit ", " ++ join (lit ", ") (json_text <$> (u :: tokens))).
    unfold json_text at 1. rewrite <- !app_assoc. cbn [read_items]. rewrite strip_prefix_app, read_body_text.
    rewrite bool_decide_eq_false_2 by done. rewrite strip_prefix_app.
    rewrite IH by (simpl in Hf; lia). done.
Qed.

#[export] Instance json_laws : SerdeJsonLaws json_impl.
Proof.
  split.
  - intros s t [= <-]. apply json_text_no_nl.
  - intros tokens ts. rewrite serialize_tokens_text. intros <-%Ok_inj. cbn [json_strings json_impl]. unfold read_strings.
    rewrite strip_prefix_app. destruct tokens as [|t tokens]; [done|].
    assert (join (lit ", ") (json_text <$> (t :: tokens)) ++ lit "]" ≠ lit "]") as Hne.
    { destruct tokens; unfold join; simpl; unfold json_text; done. }
    rewrite bool_decide_eq_false_2 by done. apply read_items_text.
    assert (∀ ls : list str, Forall (λ l, l ≠ []) ls → length ls ≤ length (join (lit ", ") ls)) as Hlen.
    { intros ls Hls. unfold join. induction Hls as [|l ls Hl Hls IH]; [done|]. destruct ls as [|k ls].
      - destruct l; [done|]. simpl. lia.
      - rewrite join_with_cons, !length_app by done. simpl in *. lia. }
    rewrite length_app. specialize (Hlen (json_text <$> (t :: tokens))). rewrite length_fmap in Hlen. simpl length in *.
    assert (Forall (λ l, l ≠ []) (json_text <$> t :: tokens)) as Hall; [|specialize (Hlen Hall); lia].
    apply Forall_fmap, Forall_true. done.
Qed.

(** ** Files in memory *)

(** The texts of the files; every directory exists and every operation that names an
    existing file succeeds. *)
Definition MemFiles : Type := Path → option str.

Definition set_file (p : Path) (s : str) (w : MemFiles) : MemFiles :=
  λ q, if decide (q = p) then Some s else w q.
Definition not_found : io_error := mkIo NotFound (lit "not found").

#[export] Instance mem_policy_fs : PolicyFs MemFiles := {|
  create_dir _ w := (w, Ok false);
  open_append p w := (set_file p (default [] (w p)) w, Ok tt);
  lock _ w := (w, Ok tt);
  seek_start _ w := (w, Ok tt);
  read_handle p w := (w, ok_or not_found (w p));
  append_all p s w := (set_file p (default [] (w p) ++ s) w, Ok tt);
  read_to_string p w := (w, ok_or not_found (w p));
  open_rw p w := (w, match w p with Some _ => Ok tt | None => Err not_found end);
  write_start p s w := (set_file p (s ++ drop (length s) (default [] (w p))) w, Ok tt);
  (** Cut at the last char that ends within [n] bytes. *)
  set_len p n w := (set_file p ((fix cut (n : nat) (s : str) := match s with
                                  | c :: s => if len_utf8 c <=? n then c :: cut (n - len_utf8 c) s else []
                                  | [] => [] end) n (default [] (w p))) w, Ok tt);
  try_exists p w := (w, Ok (bool_decide (is_Some (w p))));
  create_dir_all _ w := (w, Ok tt);
  persist_noclobber p s w := match w p with
                             | Some _ => (w, Ok false)
                             | None => (set_file p s w, Ok true)
                             end;
|}.

Lemma set_file_spec p s w : set_file p s w p = Some s ∧ ∀ q, q ≠ p → set_file p s w q = w q.
Proof. unfold set_file. split; [by rewrite decide_True|]. intros q Hq. by rewrite decide_False. Qed.


(** Cutting a text at the length of its beginning. *)
Lemma cut_prefix (s more : str) :
  (fix cut (n : nat) (s : str) := match s with
     | c :: s => if len_utf8 c <=? n then c :: cut (n - len_utf8 c) s else []
     | [] => [] end) (str_len s) (s ++ more) = s.
Proof.
  induction s as [|c s IH]; simpl.
  - destruct more as [|c more]; [done|]. destruct (Nat.leb_spec (len_utf8 c) 0) as [Hc|Hc]; [|done].
    exfalso. unfold len_utf8 in Hc. repeat case_match; lia.
  - destruct (Nat.leb_spec (len_utf8 c) (len_utf8 c + str_len s)); [|lia]. f_equal.
    replace (len_utf8 c + str_len s - len_utf8 c) with (str_len s) by lia. exact IH.
Qed.

#[export] Instance mem_policy_fs_laws : PolicyFsLaws MemFiles.
Proof.
  refine {| text w := w |}; simpl.
  - by intros d w w' r [= <- _].
  - intros p w w' [= <-]. apply set_file_spec.
  - by intros p w w' [= <-].
  - by intros p w w' [= <-].
  - by intros p w w' s [= <- ?%ok_or_ok].
  - intros p s w w' old [= <-] Hold. rewrite Hold. apply set_file_spec.
  - by intros p w w' s [= <- ?%ok_or_ok].
  - intros p w w' e [= <- He] _. by destruct (w p).
  - intros p w w' [= <- _]. done.
  - intros p w w' e [= <- He] _. by destruct (w p).
  - intros p s w w' [= <-]. destruct (set_file_spec p (s ++ drop (length s) (default [] (w p))) w) as [H1 H2].
    split; [by eexists|done].
  - intros p s more w w' Hset Hw. injection Hset as <-. rewrite Hw. simpl.
    rewrite cut_prefix. apply set_file_spec.
  - by intros p w w' r [= <- <-].
  - by intros p w w' [= <-].
  - intros p s w w' r Hp. destruct (w p) as [old|] eqn:Hw.
    + injection Hp as <- _. by rewrite Hw.
    + injection Hp as <- _. destruct (set_file_spec p s w) as [H1 H2]. split; [by rewrite H1|done].
Defined.

(** ** The theorems on a policy file *)

Definition sample_home : Path := components (lit "/home/u/.codex").
Definition sample_policy_path : Path := components (lit "/home/u/.codex/default.rules").
Definition sample_prefix : list str := [lit "git"; lit "push"].
Definition sample_line : str := Eval vm_compute in
  match allow_rule_line sample_prefix with Ok line => line | Err _ => [] end.
Definition sample_files : MemFiles := set_file sample_policy_path (lit "# rules") (λ _, None).
Definition sample_appended : MemFiles :=
  (blocking_append_allow_prefix_rule sample_policy_path sample_prefix sample_files).1.

Lemma append_rule_adds_line_witness :
  ∃ new, text sample_appended sample_policy_path = Some new ∧ sample_line ∈ lines new.
Proof.
  destruct (append_rule_adds_line sample_policy_path sample_line sample_files sample_appended)
    as (new & Hnew & _ & Hin & _).
  - left. exists sample_prefix. split; reflexivity.
  - exists new. split; [exact Hnew|exact Hin].
Defined.

Definition sample_migrated : MemFiles * result io_error unit :=
  prefix_rule_migration sample_home sample_policy_path [[lit "Git"; lit "push"]] sample_appended.

Lemma migration_once_witness :
  sample_migrated.2 = Ok tt ∧
  text sample_migrated.1 sample_policy_path = Some (lit "# rules" ++ [c_nl]).
Proof.
  split; [reflexivity|].
  destruct (migration_once sample_home sample_policy_path [[lit "Git"; lit "push"]] sample_appended sample_migrated.1)
    as (_ & Hp & _).
  - by apply (bool_decide_unpack _).
  - reflexivity.
  - rewrite Hp. reflexivity.
Defined.

Lemma strip_banned_rules_witness :
  strip_banned_allow_rules (lit "# rules" ++ [c_nl] ++ sample_line ++ [c_nl]) [[lit "Git"; lit "push"]] =
  lit "# rules" ++ [c_nl].
Proof.
  destruct (strip_banned_rules [[lit "Git"; lit "push"]] (lit "# rules" ++ [c_nl])) as (_ & _ & Happ).
  specialize (Happ sample_prefix sample_line). rewrite <- app_assoc in Happ.
  rewrite Happ; [reflexivity|reflexivity|]. right. by exists (lit "# rules").
Defined.
