(* ===== verification/ExecApproval.v ===== *)
(** * ExecApproval: whether a command runs, asks or is refused
    ([core/src/exec_policy.rs], [core/src/exec_policy/model_policy.rs],
    [core/src/exec_policy/executable_identity.rs])

    The requirement a command gets from the execution policy, the heuristics for commands
    no rule matches, and the amendments it proposes; changing the policy in use; loading it
    from the layers of the configuration. *)
From S2P Require Import Prelude RustStr UnixPath Utf8Stream PatchErrors FsInterface PathUri FsPolicy PermProfile AbsolutePath MultiMap ExecRule ExecPolicy PolicyParser PolicyAmend ShellScript DangerousCommand.

(** ** Texts *)

Definition PROMPT_CONFLICT_REASON : str := lit "approval required by policy, but AskForApproval is set to Never".
Definition REJECT_SANDBOX_APPROVAL_REASON : str :=
  lit "approval required by policy, but AskForApproval::Granular.sandbox_approval is false".
Definition REJECT_RULES_APPROVAL_REASON : str :=
  lit "approval required by policy rule, but AskForApproval::Granular.rules is false".
Definition RULES_DIR_NAME : str := lit "rules".
Definition RULE_EXTENSION : str := lit "rules".
Definition DEFAULT_POLICY_FILE : str := lit "default.rules".

Definition words (s : str) : list str := split_char c_space s.

(** The prefixes never proposed, one text each. *)
Definition BANNED_PREFIX_SUGGESTIONS : list (list str) :=
  map words
    [lit "/bin/bash"; lit "/bin/bash -c"; lit "/bin/bash -lc"; lit "/bin/sh"; lit "/bin/sh -c"; lit "/bin/sh -lc";
     lit "/bin/zsh"; lit "/bin/zsh -c"; lit "/bin/zsh -lc"; lit "Rscript"; lit "bash"; lit "bash -c"; lit "bash -lc";
     lit "bun"; lit "bun -e"; lit "bun run"; lit "cmd"; lit "cmd /c"; lit "cmd /k"; lit "cmd.exe"; lit "cmd.exe /c";
     lit "cmd.exe /k"; lit "dash"; lit "dash -c"; lit "deno"; lit "deno eval"; lit "env"; lit "fish"; lit "fish -c";
     lit "git"; lit "julia"; lit "julia -e"; lit "ksh"; lit "ksh -c"; lit "lua"; lit "lua -e"; lit "node"; lit "node -e";
     lit "nodejs"; lit "nodejs -e"; lit "npm run"; lit "osascript"; lit "perl"; lit "perl -e"; lit "php"; lit "php -r";
     lit "pnpm run"; lit "powershell"; lit "powershell -Command"; lit "powershell -EncodedCommand"; lit "powershell -File";
     lit "powershell -c"; lit "powershell.exe"; lit "powershell.exe -Command"; lit "powershell.exe -EncodedCommand";
     lit "powershell.exe -File"; lit "powershell.exe -c"; lit "pwsh"; lit "pwsh -Command"; lit "pwsh -EncodedCommand";
     lit "pwsh -File"; lit "pwsh -c"; lit "pwsh -e"; lit "pwsh -ec"; lit "pwsh -f"; lit "py"; lit "py -3"; lit "pypy";
     lit "pypy3"; lit "python"; lit "python -"; lit "python -c"; lit "python3"; lit "python3 -"; lit "python3 -c";
     lit "pythonw"; lit "pyw"; lit "rm"; lit "ruby"; lit "ruby -e"; lit "sh"; lit "sh -c"; lit "sh -lc"; lit "sudo";
     lit "yarn run"; lit "zsh"; lit "zsh -c"; lit "zsh -lc"].

(** ** Data *)

Inductive ExecPolicyCommandOrigin := GenericOrigin | PowerShellOrigin.

Record ExecPolicyCommands := mkCommands {
  policy_commands : list (list str);
  command_origin : ExecPolicyCommandOrigin;
}.

(** [ExecPolicyAmendment]: the prefix a rule would allow. *)
Abbreviation ExecPolicyAmendment := (list str) (only parsing).

Inductive ExecApprovalRequirement :=
| ReqSkip (bypass_sandbox : bool) (proposed : option ExecPolicyAmendment)
| NeedsApproval (reason : option str) (proposed : option ExecPolicyAmendment)
| ReqForbidden (reason : str).

Definition proposed_execpolicy_amendment (r : ExecApprovalRequirement) : option ExecPolicyAmendment :=
  match r with ReqSkip _ proposed | NeedsApproval _ proposed => proposed | ReqForbidden _ => None end.

Inductive AllowPrefixRules := Honor | IgnoreForCyberModel.

#[export] Instance AllowPrefixRules_eq_dec : EqDecision AllowPrefixRules.
Proof. solve_decision. Defined.

(** [is_policy_match]. *)
Definition is_policy_match (m : RuleMatch) : bool :=
  match m with PrefixRuleMatch _ _ _ _ => true | HeuristicsRuleMatch _ _ => false end.

(** When the settings do not let a prompt reach the user. *)
Definition prompt_is_rejected_by_policy (approval_policy : AskForApproval) (prompt_is_rule : bool) : option str :=
  match approval_policy with
  | Never => Some PROMPT_CONFLICT_REASON
  | OnRequest | UnlessTrusted => None
  | Granular config =>
      if prompt_is_rule then
        if negb (rules_approval config) then Some REJECT_RULES_APPROVAL_REASON else None
      else if negb (sandbox_approval config) then Some REJECT_SANDBOX_APPROVAL_REASON else None
  end.

(** [cfg!(windows)]. *)
Definition cfg_windows : bool := bool_decide (native_convention = Windows).

(** The lowering of a PowerShell script to plain commands. *)
Class PowerShellParser := { try_parse_powershell_commands : str → option (list (list str)) }.

Section unmatched.
Context {U : Type} {UO : UrlOps U} {UC : UrlCoding} {T : SyntaxTree} {CT : CommandText}.

Record UnmatchedCommandContext := mkUnmatched {
  approval_policy : AskForApproval;
  permission_profile : PermissionProfile U;
  windows_sandbox_level : WindowsSandboxLevel;
  sandbox_permissions : SandboxPermissions;
  origin : ExecPolicyCommandOrigin;
}.

Definition dangerous_command_match_for_origin (command : list str) (o : ExecPolicyCommandOrigin)
    (platform : DangerousCommandPlatform) : option DangerousCommandMatch :=
  match o with
  | GenericOrigin => dangerous_command_match_for_platform command platform
  | PowerShellOrigin => dangerous_powershell_words_match command platform
  end.

Definition profile_has_managed_filesystem_restrictions (profile : PermissionProfile U) : bool :=
  let policy := file_system_sandbox_policy profile in
  match profile with Managed _ _ => true | _ => false end
  && is_restricted policy && negb (has_full_disk_write_access policy).

(** The decision where no rule matches. *)
Definition render_decision_for_unmatched_command_for_platform (command : list str) (context : UnmatchedCommandContext)
    (platform : DangerousCommandPlatform) : Decision :=
  let dangerous_command_match := dangerous_command_match_for_origin command (origin context) platform in
  let policy := file_system_sandbox_policy (permission_profile context) in
  let windows_managed_fs_restrictions_without_sandbox_backend :=
    cfg_windows && bool_decide (windows_sandbox_level context = LevelDisabled)
    && profile_has_managed_filesystem_restrictions (permission_profile context) in
  if bool_decide (is_Some dangerous_command_match) || windows_managed_fs_restrictions_without_sandbox_backend then
    match approval_policy context with Never => Forbidden | OnRequest | UnlessTrusted | Granular _ => Prompt end
  else
    match approval_policy context with
    | Never => Allow
    | UnlessTrusted => Prompt
    | OnRequest | Granular _ =>
        match policy_kind policy with
        | Unrestricted | ExternalSandbox => Allow
        | Restricted => if requests_sandbox_override (sandbox_permissions context) then Prompt else Allow
        end
    end.
End unmatched.

Arguments UnmatchedCommandContext U : clear implicits.

(** ** Reasons *)

(** [Iterator::max_by_key]: the last of the greatest. *)
Definition max_by_length {A} (key : A → nat) (l : list A) : option A :=
  foldl (λ best x, match best with
                   | None => Some x
                   | Some b => if key x <? key b then Some b else Some x
                   end) None l.

Definition c_backtick : str := [96%N].

Section reasons.
Variable try_join : list str → option str.

Definition render_shlex_command (args : list str) : str := default (join [c_space] args) (try_join args).

(** The prefix and justification of the matches of one decision. *)
Definition matched_with (d : Decision) (ms : list RuleMatch) : list (list str * option str) :=
  omap (λ m, match m with
             | PrefixRuleMatch matched_prefix decision _ justification =>
                 if bool_decide (decision = d) then Some (matched_prefix, justification) else None
             | HeuristicsRuleMatch _ _ => None
             end) ms.

Definition derive_prompt_reason (command_args : list str) (e : Evaluation) : option str :=
  let command := render_shlex_command command_args in
  match max_by_length (length ∘ fst) (matched_with Prompt (matched_rules e)) with
  | Some (_, Some justification) =>
      Some (c_backtick ++ command ++ c_backtick ++ lit " requires approval: " ++ justification)
  | Some (_, None) => Some (c_backtick ++ command ++ c_backtick ++ lit " requires approval by policy")
  | None => None
  end.

Definition dangerous_command_rejection_reason (m : DangerousCommandMatch) : str :=
  match m with
  | ForcedRm => lit "rm -f style commands are not permitted. Use a safer approach"
  | OtherDanger => lit "blocked by policy"
  end.

Definition derive_forbidden_reason (command_args : list str) (e : Evaluation) (danger : option DangerousCommandMatch) : str :=
  let command := render_shlex_command command_args in
  let rejected reason := c_backtick ++ command ++ c_backtick ++ lit " rejected: " ++ reason in
  match max_by_length (length ∘ fst) (matched_with Forbidden (matched_rules e)) with
  | Some (_, Some justification) => rejected justification
  | Some (matched_prefix, None) =>
      rejected (lit "policy forbids commands starting with " ++ c_backtick ++ render_shlex_command matched_prefix ++ c_backtick)
  | None => rejected (match danger with
                      | Some m => dangerous_command_rejection_reason m
                      | None => lit "blocked by policy"
                      end)
  end.

Definition derive_rejected_prompt_reason (fallback_reason : str) (danger : option DangerousCommandMatch) : str :=
  match danger with
  | Some ForcedRm => dangerous_command_rejection_reason ForcedRm
  | Some OtherDanger | None => fallback_reason
  end.
End reasons.

(** ** Amendments *)

Definition is_policy_match_with (d : Decision) (m : RuleMatch) : bool :=
  is_policy_match m && bool_decide (match_decision m = d).

(** The first command whose heuristic decision is [d]. *)
Definition first_heuristic (d : Decision) (ms : list RuleMatch) : option ExecPolicyAmendment :=
  find_map (λ m, match m with
                 | HeuristicsRuleMatch command decision => if bool_decide (decision = d) then Some command else None
                 | PrefixRuleMatch _ _ _ _ => None
                 end) ms.

Definition try_derive_execpolicy_amendment_for_prompt_rules (ms : list RuleMatch) : option ExecPolicyAmendment :=
  if existsb (is_policy_match_with Prompt) ms then None else first_heuristic Prompt ms.
Definition try_derive_execpolicy_amendment_for_allow_rules (ms : list RuleMatch) : option ExecPolicyAmendment :=
  if existsb is_policy_match ms then None else first_heuristic Allow ms.

Definition approval_match_options : MatchOptions := mkOptions true.

Section policy.
Context {MM : Type} {MapOps : MultiMapOps RuleRef MM} {Env : ProcessEnv}.
Variable locals : PathLocals.
Implicit Types p : Policy MM.

(** [None] is the panic of an evaluation without matches, which a fallback excludes. *)
Definition prefix_rule_would_approve_all_commands p (prefix_rule : list str) (commands : list (list str))
    (fallback : list str → Decision) : bool :=
  match add_prefix_rule prefix_rule Allow p with
  | (_, Err _) => false
  | (p', Ok _) =>
      forallb (λ command,
        match check_with_options locals p' command fallback approval_match_options with
        | Some e => bool_decide (evaluation_decision e = Allow)
        | None => false
        end) commands
  end.

Definition derive_requested_execpolicy_amendment_from_prefix_rule (prefix_rule : option (list str))
    (ms : list RuleMatch) p (commands : list (list str)) (fallback : list str → Decision) : option ExecPolicyAmendment :=
  prefix_rule ← prefix_rule;
  if bool_decide (prefix_rule = []) then None
  else if existsb (λ banned, bool_decide (prefix_rule = banned)) BANNED_PREFIX_SUGGESTIONS then None
  else if existsb is_policy_match ms then None
  else if prefix_rule_would_approve_all_commands p prefix_rule commands fallback then Some prefix_rule else None.

(** ** The policy in use ([model_policy.rs]) *)

Definition is_allow_prefix (rule : RuleRef) : bool :=
  match as_prefix_rule rule with Some prefix => bool_decide (decision prefix = Allow) | None => false end.

Definition kept_rules p : list (str * RuleRef) :=
  flat_map (λ '(program, rules),
    omap (λ rule, if negb (is_allow_prefix rule) then Some (program, rule) else None) rules) (iter_all (rules_by_program p)).

Definition current_for_prefix_rules p (allow_prefix_rules : AllowPrefixRules) : Policy MM :=
  if bool_decide (allow_prefix_rules = Honor) then p
  else ExecPolicy.mkPolicy (foldl (λ m '(program, rule), mm_insert program rule m) mm_new (kept_rules p))
         (network_rules p) (host_executables_by_name p).

Definition current_for_environment p (environment_policy : option (Policy MM)) (allow_prefix_rules : AllowPrefixRules) :
    Policy MM :=
  let policy := current_for_prefix_rules p allow_prefix_rules in
  match environment_policy with Some environment_policy => merge_overlay policy environment_policy | None => policy end.

(** ** The requirement of a command *)

Context {U : Type} {UO : UrlOps U} {UC : UrlCoding} {T : SyntaxTree} {CT : CommandText} {PS : PowerShellParser}.
Variable try_join : list str → option str.

Record ExecApprovalRequest := mkApprovalRequest {
  req_command : list str;
  req_approval_policy : AskForApproval;
  req_permission_profile : PermissionProfile U;
  req_environment_policy : option (Policy MM);
  req_windows_sandbox_level : WindowsSandboxLevel;
  req_sandbox_permissions : SandboxPermissions;
  req_prefix_rule : option (list str);
  req_allow_prefix_rules : AllowPrefixRules;
}.

(** The words evaluated for a command. *)
Definition commands_for_exec_policy_for_platform (command : list str) (platform : DangerousCommandPlatform) :
    ExecPolicyCommands :=
  match parse_shell_lc_plain_commands command with
  | Some ((_ :: _) as commands) => mkCommands commands GenericOrigin
  | _ =>
      match (if bool_decide (platform = WindowsCommands)
             then '(_, script) ← extract_powershell_command command; try_parse_powershell_commands script
             else None) with
      | Some ((_ :: _) as commands) => mkCommands commands PowerShellOrigin
      | _ => mkCommands [command] GenericOrigin
      end
  end.

(** The danger behind a heuristic decision. *)
Definition dangerous_command_match_for_heuristics (e : Evaluation) (d : Decision) (o : ExecPolicyCommandOrigin)
    (platform : DangerousCommandPlatform) : option DangerousCommandMatch :=
  find_map (λ m, match m with
                 | HeuristicsRuleMatch command decision =>
                     if bool_decide (decision = d) then dangerous_command_match_for_origin command o platform else None
                 | PrefixRuleMatch _ _ _ _ => None
                 end) (matched_rules e).

Definition request_context (req : ExecApprovalRequest) (o : ExecPolicyCommandOrigin) : UnmatchedCommandContext U :=
  mkUnmatched (req_approval_policy req) (req_permission_profile req) (req_windows_sandbox_level req)
    (req_sandbox_permissions req) o.

(** Whether rules alone allow every command. *)
Definition allowed_by_rules p (commands : list (list str)) : bool :=
  forallb (λ command,
    existsb (is_policy_match_with Allow)
      (matches_for_command_with_options locals p command None approval_match_options)) commands.

Definition create_exec_approval_requirement_for_parsed_commands p (req : ExecApprovalRequest)
    (parsed : ExecPolicyCommands) (platform : DangerousCommandPlatform) : option ExecApprovalRequirement :=
  let commands := policy_commands parsed in
  let o := command_origin parsed in
  let exec_policy := current_for_environment p (req_environment_policy req) (req_allow_prefix_rules req) in
  let auto_amendment_allowed := bool_decide (req_allow_prefix_rules req = Honor) in
  let fallback cmd := render_decision_for_unmatched_command_for_platform cmd (request_context req o) platform in
  evaluation ← check_multiple_with_options locals exec_policy commands fallback approval_match_options;
  let ms := matched_rules evaluation in
  let requested_amendment :=
    if auto_amendment_allowed
    then derive_requested_execpolicy_amendment_from_prefix_rule (req_prefix_rule req) ms exec_policy commands fallback
    else None in
  let danger d := dangerous_command_match_for_heuristics evaluation d o platform in
  Some
    match evaluation_decision evaluation with
    | Forbidden => ReqForbidden (derive_forbidden_reason try_join (req_command req) evaluation (danger Forbidden))
    | Prompt =>
        let prompt_is_rule := existsb (is_policy_match_with Prompt) ms in
        match prompt_is_rejected_by_policy (req_approval_policy req) prompt_is_rule with
        | Some reason =>
            ReqForbidden (if prompt_is_rule then reason else derive_rejected_prompt_reason reason (danger Prompt))
        | None =>
            NeedsApproval (derive_prompt_reason try_join (req_command req) evaluation)
              (match requested_amendment with
               | Some amendment => Some amendment
               | None => if auto_amendment_allowed then try_derive_execpolicy_amendment_for_prompt_rules ms else None
               end)
        end
    | Allow =>
        ReqSkip (allowed_by_rules exec_policy commands)
          (if auto_amendment_allowed then try_derive_execpolicy_amendment_for_allow_rules ms else None)
    end.

Definition create_exec_approval_requirement_for_command_platform p (req : ExecApprovalRequest)
    (platform : DangerousCommandPlatform) : option ExecApprovalRequirement :=
  create_exec_approval_requirement_for_parsed_commands p req
    (commands_for_exec_policy_for_platform (req_command req) platform) platform.

(** ** Unfamiliar shells ([executable_identity.rs], on Unix) *)

Definition shell_approval_command (command : list str) (configured_shell : Path) (zsh_fork : bool) : list str :=
  match command with
  | [] => command
  | executable :: _ =>
      let executable_path := components executable in
      let is_system_shell :=
        match parent executable_path with
        | Some directory => bool_decide (directory = components (lit "/bin")) || bool_decide (directory = components (lit "/usr/bin"))
        | None => false
        end in
      let is_configured_shell := bool_decide (executable_path = configured_shell) in
      if is_configured_shell || is_system_shell || zsh_fork then command else [executable]
  end.

Definition with_command (req : ExecApprovalRequest) (command : list str) : ExecApprovalRequest :=
  mkApprovalRequest command (req_approval_policy req) (req_permission_profile req) (req_environment_policy req)
    (req_windows_sandbox_level req) (req_sandbox_permissions req) (req_prefix_rule req) (req_allow_prefix_rules req).

Definition commands_of_unfamiliar_shell (command : list str) (platform : DangerousCommandPlatform) : ExecPolicyCommands :=
  match platform with
  | WindowsCommands =>
      match extract_powershell_command command with
      | Some (_, script) =>
          mkCommands (default [command] (try_parse_powershell_commands script)) PowerShellOrigin
      | None => commands_for_exec_policy_for_platform command platform
      end
  | PosixCommands => commands_for_exec_policy_for_platform command platform
  end.

Definition create_exec_approval_requirement_for_shell p (req : ExecApprovalRequest) (configured_shell : Path)
    (zsh_fork : bool) (platform : DangerousCommandPlatform) : option ExecApprovalRequirement :=
  let command := req_command req in
  let executable := shell_approval_command command configured_shell zsh_fork in
  if length executable =? length command then create_exec_approval_requirement_for_command_platform p req platform
  else
    let parsed := commands_of_unfamiliar_shell command platform in
    create_exec_approval_requirement_for_parsed_commands p (with_command req executable)
      (mkCommands (executable :: policy_commands parsed) (command_origin parsed)) platform.
End policy.

(** ** Changing the policy in use *)

(** [ExecPolicyUpdateError]; the semaphore is never closed and a blocking task that
    appends does not panic, so their errors do not arise. *)
Inductive ExecPolicyUpdateError :=
| AppendRule (path : Path) (source : AmendError)
| AddRule (source : ExecRule.Error).

Definition default_policy_path (codex_home : Path) : Path :=
  path_concat (path_concat codex_home (components RULES_DIR_NAME)) (components DEFAULT_POLICY_FILE).

(** The file system and the policy of [ExecPolicyManager]; the update lock makes an update
    one step for the others that update. *)
Record ManagerState (W MM : Type) := mkManager { manager_world : W; manager_policy : Policy MM }.
Arguments mkManager {W MM}.
Arguments manager_world {W MM}.
Arguments manager_policy {W MM}.

Section manager.
Context {MM : Type} {MapOps : MultiMapOps RuleRef MM} {Env : ProcessEnv} {Json : SerdeJson} {W : Type} {Fs : PolicyFs W}.
Variable locals : PathLocals.

(** A step on the file system only. *)
Definition on_world {E A} (m : M W E A) : M (ManagerState W MM) E A := λ s,
  let '(w, r) := m (manager_world s) in (mkManager w (manager_policy s), r).
Definition or_update {S E A} (f : E → ExecPolicyUpdateError) (m : M S E A) : M S ExecPolicyUpdateError A := λ s,
  let '(s, r) := m s in (s, map_err f r).

(** The clone is stored only if the rule was added to it. *)
Definition update_policy (change : M (Policy MM) ExecRule.Error unit) : M (ManagerState W MM) ExecPolicyUpdateError unit := λ s,
  match change (manager_policy s) with
  | (p, Ok _) => (mkManager (manager_world s) p, Ok tt)
  | (_, Err e) => (s, Err (AddRule e))
  end.

Definition already_allowed (p : Policy MM) (command : list str) : bool :=
  match check_multiple_with_options locals p [command] (λ _, Forbidden) approval_match_options with
  | Some e => bool_decide (evaluation_decision e = Allow) && existsb (is_policy_match_with Allow) (matched_rules e)
  | None => false
  end.

Definition append_amendment_and_update (codex_home : Path) (amendment : ExecPolicyAmendment) :
    M (ManagerState W MM) ExecPolicyUpdateError unit :=
  let policy_path := default_policy_path codex_home in
  _ ← or_update (AppendRule policy_path) (on_world (blocking_append_allow_prefix_rule policy_path amendment));
  s ← get;
  if already_allowed (manager_policy s) amendment then mret tt
  else update_policy (add_prefix_rule amendment Allow).

Definition append_network_rule_and_update (codex_home : Path) (host : str) (protocol : NetworkRuleProtocol)
    (decision : Decision) (justification : option str) : M (ManagerState W MM) ExecPolicyUpdateError unit :=
  let policy_path := default_policy_path codex_home in
  _ ← or_update (AppendRule policy_path)
        (on_world (blocking_append_network_rule policy_path host protocol decision justification));
  update_policy (add_network_rule host protocol decision justification).
End manager.

(** ** Loading *)

(** What loading uses of a layer of the configuration and of the stack, lowest first. *)
Record ConfigLayer := mkLayer { is_user_or_project : bool; config_folder : option Path }.
Record ConfigLayerStack (MM : Type) := mkStack {
  layers_low_to_high : list ConfigLayer;
  ignore_user_and_project_exec_policy_rules : bool;
  required_exec_policy : option (Policy MM);
}.
Arguments mkStack {MM}.
Arguments layers_low_to_high {MM}.
Arguments ignore_user_and_project_exec_policy_rules {MM}.
Arguments required_exec_policy {MM}.

Inductive ExecPolicyError :=
| ReadDir (dir : Path) (source : io_error)
| ReadFile (path : Path) (source : io_error)
| ParsePolicy (path : str) (source : ExecRule.Error).

(** An entry read from a directory, with the result of asking for its type. *)
Record DirEntry := mkDirEntry { entry_file : Path; entry_is_file : result io_error bool }.

Class RulesDir := {
  (** [read_dir] and its entries up to the first that cannot be read. *)
  read_dir : Path → result io_error (list (result io_error DirEntry));
  read_rules : Path → result io_error str;
}.

(** [Path::extension]. *)
Definition path_extension (path : Path) : option str :=
  name ← file_name path;
  match rsplit_once 46%N name with
  | Some (before, after) => if bool_decide (before = []) then None else Some after
  | None => None
  end.

(** The order of paths is that of their components. *)
Definition component_rank (c : Component) : nat * str :=
  match c with RootDir => (0, []) | CurDir => (1, []) | ParentDir => (2, []) | Normal name => (3, name) end.
Definition component_lt (a b : Component) : bool :=
  let '(n, s) := component_rank a in
  let '(m, t) := component_rank b in
  (n <? m) || (n =? m) && str_ltb s t.
Definition path_le (p q : Path) : bool := lex_le component_lt (λ a b, bool_decide (a = b)) p q.

Fixpoint insert_path (p : Path) (l : list Path) : list Path :=
  match l with [] => [p] | q :: l' => if path_le p q then p :: l else q :: insert_path p l' end.
(** [Vec::sort]. *)
Definition sort_paths (l : list Path) : list Path := foldr insert_path [] l.

Section load.
Context {MM : Type} {MapOps : MultiMapOps RuleRef MM} {Env : ProcessEnv} {Dir : RulesDir} {Engine : StarlarkEngine}.
Variable locals : PathLocals.
Variable shlex_split : str → option (list str).
Variable try_join : list str → option str.
Variable debug_str : str → str.

Fixpoint collect_entries (dir : Path) (entries : list (result io_error DirEntry)) : result ExecPolicyError (list Path) :=
  match entries with
  | [] => Ok []
  | entry :: entries =>
      entry ← map_err (ReadDir dir) entry;
      is_file ← map_err (ReadDir dir) (entry_is_file entry);
      rest ← collect_entries dir entries;
      Ok (if bool_decide (path_extension (entry_file entry) = Some RULE_EXTENSION) && is_file
          then entry_file entry :: rest else rest)
  end.

Definition collect_policy_files (dir : Path) : result ExecPolicyError (list Path) :=
  match read_dir dir with
  | Err e => if bool_decide (PatchErrors.kind e = NotFound) then Ok [] else Err (ReadDir dir e)
  | Ok entries => paths ← collect_entries dir entries; Ok (sort_paths paths)
  end.

Definition layer_policy_files (ignore : bool) (layer : ConfigLayer) : result ExecPolicyError (list Path) :=
  if ignore && is_user_or_project layer then Ok []
  else match config_folder layer with
       | Some config_folder => collect_policy_files (path_concat config_folder (components RULES_DIR_NAME))
       | None => Ok []
       end.

(** The loop that reads and parses the files, with one parser. *)
Fixpoint parse_files (paths : list Path) (b : PolicyBuilder MM) : result ExecPolicyError (PolicyBuilder MM) :=
  match paths with
  | [] => Ok b
  | path :: paths =>
      contents ← map_err (ReadFile path) (read_rules path);
      match parse locals shlex_split try_join debug_str (path_str path) contents b with
      | (_, Err e) => Err (ParsePolicy (path_str path) e)
      | (b, Ok _) => parse_files paths b
      end
  end.

Definition load_exec_policy (config_stack : ConfigLayerStack MM) : result ExecPolicyError (Policy MM) :=
  paths ← collect (layer_policy_files (ignore_user_and_project_exec_policy_rules config_stack))
            (layers_low_to_high config_stack);
  b ← parse_files (mjoin paths) builder_new;
  Ok (match required_exec_policy config_stack with
      | None => build b
      | Some requirements_policy => merge_overlay (build b) requirements_policy
      end).

(** A file that does not parse leaves the managed requirements alone, with a warning. *)
Definition load_exec_policy_with_warning (config_stack : ConfigLayerStack MM) :
    result ExecPolicyError (Policy MM * option ExecPolicyError) :=
  match load_exec_policy config_stack with
  | Ok policy => Ok (policy, None)
  | Err (ParsePolicy _ _ as err) => Ok (default policy_empty (required_exec_policy config_stack), Some err)
  | Err err => Err err
  end.

Definition check_execpolicy_for_warnings (config_stack : ConfigLayerStack MM) : result ExecPolicyError (option ExecPolicyError) :=
  '(_, warning) ← load_exec_policy_with_warning config_stack; Ok warning.

Definition config_folders (config_stack : ConfigLayerStack MM) : list Path := omap config_folder (layers_low_to_high config_stack).
Definition child_uses_parent_exec_policy (parent child : ConfigLayerStack MM) : bool :=
  bool_decide (config_folders parent = config_folders child)
  && Bool.eqb (ignore_user_and_project_exec_policy_rules parent) (ignore_user_and_project_exec_policy_rules child)
  && match required_exec_policy parent, required_exec_policy child with
     | Some p, Some q => requirements_eq debug_str p q
     | None, None => true
     | _, _ => false
     end.
End load.
