(* ===== verification/ExecApprovalSpec.v ===== *)
(** * ExecApprovalSpec: what the requirement of a command means

    The requirement is decided by the verdicts of the rules on each command, or of the
    heuristics where no rule matches; commands that run unasked are not dangerous, a
    sandbox is bypassed only for commands every one of which rules allow, an accepted
    amendment settles the request it was proposed for. *)
From S2P Require Import Prelude RustStr UnixPath Utf8Stream PatchErrors FsInterface PathUri FsPolicy PermProfile AbsolutePath MultiMap ExecRule ExecPolicy PolicyParser PolicyAmend ShellScript DangerousCommand ExecApproval.

Section verdicts.
Context {MM : Type} {MapOps : MultiMapOps RuleRef MM} {MapLaws : MultiMap RuleRef MM} {Env : ProcessEnv}.
Variable locals : PathLocals.
Implicit Types (p q : Policy MM) (cmd : list str) (f : list str → Decision).

(** What the rules say of a command. *)
Definition ruled p cmd : list RuleMatch :=
  matches_for_command_with_options locals p cmd None approval_match_options.

(** The verdicts on a command: those of the rules that match it, or the heuristic one. *)
Definition verdicts p f cmd : list Decision :=
  match ruled p cmd with [] => [f cmd] | ms => match_decision <$> ms end.

Lemma matching_policy (rules : list RuleRef) cmd m : m ∈ matching rules cmd → is_policy_match m = true.
Proof. by intros (r & _ & (? & _ & ->)%rule_matches_Some)%elem_of_matching. Qed.

Lemma ruled_policy p cmd m : m ∈ ruled p cmd → is_policy_match m = true.
Proof.
  unfold ruled. rewrite matches_stages.
  destruct (exact_matches p cmd) as [|m0 ms] eqn:He.
  - cbn [resolve_host_executables approval_match_options].
    destruct (match_host_executable_rules locals p cmd) as [|m0 ms] eqn:Hh; [by intros ?%elem_of_nil|].
    rewrite <- Hh. rewrite host_rules_elem.
    by intros (? & ? & ? & ? & r & m' & _ & _ & _ & _ & _ & (? & _ & ->)%rule_matches_Some & ->).
  - rewrite <- He. destruct cmd as [|first args]; [done|]. apply matching_policy.
Qed.

Lemma matches_with_fallback p cmd f :
  matches_for_command_with_options locals p cmd (Some f) approval_match_options =
  match ruled p cmd with [] => [HeuristicsRuleMatch cmd (f cmd)] | ms => ms end.
Proof.
  unfold ruled. rewrite !matches_stages. destruct (exact_matches p cmd); [|done]. cbn [resolve_host_executables approval_match_options].
  by destruct (match_host_executable_rules locals p cmd).
Qed.

Lemma match_verdicts p cmd f :
  match_decision <$> matches_for_command_with_options locals p cmd (Some f) approval_match_options = verdicts p f cmd.
Proof. rewrite matches_with_fallback. unfold verdicts. by destruct (ruled p cmd). Qed.

Lemma verdicts_ne p f cmd : verdicts p f cmd ≠ [].
Proof. unfold verdicts. by destruct (ruled p cmd). Qed.

(** All the matches an evaluation holds. *)
Definition all_matches p f (commands : list (list str)) : list RuleMatch :=
  commands ≫= λ cmd, matches_for_command_with_options locals p cmd (Some f) approval_match_options.

Lemma all_matches_decisions p f commands d :
  d ∈ match_decision <$> all_matches p f commands ↔ ∃ cmd, cmd ∈ commands ∧ d ∈ verdicts p f cmd.
Proof.
  unfold all_matches. rewrite list_elem_of_fmap. setoid_rewrite list_elem_of_bind.
  setoid_rewrite <- match_verdicts. setoid_rewrite list_elem_of_fmap. naive_solver.
Qed.

Lemma check_multiple_total p f commands : commands ≠ [] →
  ∃ e, check_multiple_with_options locals p commands f approval_match_options = Some e ∧
    matched_rules e = all_matches p f commands ∧
    (∃ cmd, cmd ∈ commands ∧ evaluation_decision e ∈ verdicts p f cmd) ∧
    ∀ cmd d, cmd ∈ commands → d ∈ verdicts p f cmd → severity d ≤ severity (evaluation_decision e).
Proof.
  intros Hne. unfold check_multiple_with_options. fold (all_matches p f commands).
  destruct (from_matches_is_Some (all_matches p f commands)) as [e He].
  { destruct commands as [|cmd commands]; [done|]. unfold all_matches. simpl.
    pose proof (matches_fallback_ne locals p cmd f approval_match_options) as Hn.
    by destruct (matches_for_command_with_options locals p cmd (Some f) approval_match_options). }
  exists e. split; [done|]. apply from_matches_Some in He as (Hm & Hd & Hmax). split; [done|].
  rewrite all_matches_decisions in Hd. split; [done|]. intros cmd d Hc Hv.
  assert (d ∈ match_decision <$> all_matches p f commands) as (m & -> & Hin)%list_elem_of_fmap
    by (apply all_matches_decisions; eauto).
  by apply Hmax.
Qed.

(** The decision on commands: the strictest verdict. *)
Lemma decision_cases p f commands e : commands ≠ [] →
  check_multiple_with_options locals p commands f approval_match_options = Some e →
  match evaluation_decision e with
  | Forbidden => ∃ cmd, cmd ∈ commands ∧ Forbidden ∈ verdicts p f cmd
  | Prompt => (∃ cmd, cmd ∈ commands ∧ Prompt ∈ verdicts p f cmd) ∧ ∀ cmd, cmd ∈ commands → Forbidden ∉ verdicts p f cmd
  | Allow => ∀ cmd d, cmd ∈ commands → d ∈ verdicts p f cmd → d = Allow
  end.
Proof.
  intros Hne He. destruct (check_multiple_total p f commands Hne) as (e' & He' & _ & Hd & Hmax).
  rewrite He in He'. injection He' as <-. destruct (evaluation_decision e).
  - intros cmd d Hc Hv. specialize (Hmax cmd d Hc Hv). by destruct d; simpl in Hmax; try lia.
  - split; [done|]. intros cmd Hc Hv. specialize (Hmax cmd Forbidden Hc Hv). simpl in Hmax. lia.
  - done.
Qed.

(** A prompt a rule asks for. *)
Lemma prompt_rule_exists p f commands :
  existsb (is_policy_match_with Prompt) (all_matches p f commands) = true ↔
  ∃ cmd m, cmd ∈ commands ∧ m ∈ ruled p cmd ∧ match_decision m = Prompt.
Proof.
  rewrite existsb_elem. unfold all_matches, is_policy_match_with. setoid_rewrite list_elem_of_bind.
  setoid_rewrite matches_with_fallback. split.
  - intros (m & (cmd & Hm & Hc) & [Hp Hd]%andb_true_iff). bool_hyps. exists cmd, m.
    destruct (ruled p cmd); [|done]. apply list_elem_of_singleton in Hm as ->. done.
  - intros (cmd & m & Hc & Hm & Hd). exists m. split.
    + exists cmd. split; [|done]. destruct (ruled p cmd); [by apply elem_of_nil in Hm|done].
    + apply andb_true_iff. split; [by eapply ruled_policy|by apply bool_decide_true].
Qed.

Lemma allowed_by_rules_spec p commands :
  allowed_by_rules locals p commands = true ↔ ∀ cmd, cmd ∈ commands → ∃ m, m ∈ ruled p cmd ∧ match_decision m = Allow.
Proof.
  unfold allowed_by_rules. rewrite forallb_forall. setoid_rewrite existsb_elem. unfold is_policy_match_with.
  split.
  - intros H cmd Hc. apply list_elem_of_In, H in Hc as (m & Hm & [_ Hd]%andb_true_iff). bool_hyps. by exists m.
  - intros H cmd Hc. apply list_elem_of_In, H in Hc as (m & Hm & Hd). exists m. split; [done|].
    apply andb_true_iff. split; [by eapply ruled_policy|by apply bool_decide_true].
Qed.
End verdicts.

(** ** Commands no rule matches *)

Section unmatched.
Context {U : Type} {UO : UrlOps U} {UC : UrlCoding} {T : SyntaxTree} {CT : CommandText}.
Implicit Types (context : UnmatchedCommandContext U).

(** Managed restrictions that nothing enforces. *)
Definition unenforced context : bool :=
  cfg_windows && bool_decide (windows_sandbox_level context = LevelDisabled)
  && profile_has_managed_filesystem_restrictions (permission_profile context).

(** The user is asked before the sandbox is left. *)
Definition stays_sandboxed context : Prop :=
  approval_policy context = Never ∨
  policy_kind (file_system_sandbox_policy (permission_profile context)) ≠ Restricted ∨
  requests_sandbox_override (sandbox_permissions context) = false.

Lemma unmatched_allow cmd context platform :
  render_decision_for_unmatched_command_for_platform cmd context platform = Allow ↔
  dangerous_command_match_for_origin cmd (origin context) platform = None ∧ unenforced context = false ∧
  approval_policy context ≠ UnlessTrusted ∧ stays_sandboxed context.
Proof.
  unfold render_decision_for_unmatched_command_for_platform, stays_sandboxed. fold (unenforced context).
  destruct (dangerous_command_match_for_origin cmd (origin context) platform) as [m|].
  { rewrite bool_decide_true by eauto. simpl. destruct (approval_policy context); naive_solver. }
  rewrite bool_decide_false by apply is_Some_None. destruct (unenforced context); simpl.
  { destruct (approval_policy context); naive_solver. }
  destruct (approval_policy context); [naive_solver| | |naive_solver];
    destruct (policy_kind _); try (destruct (requests_sandbox_override _)); naive_solver.
Qed.

Lemma unmatched_forbidden cmd context platform :
  render_decision_for_unmatched_command_for_platform cmd context platform = Forbidden → approval_policy context = Never.
Proof.
  unfold render_decision_for_unmatched_command_for_platform. destruct (_ || _).
  - by destruct (approval_policy context).
  - destruct (approval_policy context); try done; destruct (policy_kind _); try done; by destruct (requests_sandbox_override _).
Qed.

Lemma unmatched_prompt cmd context platform :
  render_decision_for_unmatched_command_for_platform cmd context platform = Prompt → approval_policy context ≠ Never.
Proof. unfold render_decision_for_unmatched_command_for_platform. intros Hr Hn. rewrite Hn in Hr. by destruct (_ || _). Qed.
End unmatched.

(** ** The requirement *)

Section requirement.
Context {MM : Type} {MapOps : MultiMapOps RuleRef MM} {Env : ProcessEnv}.
Context {U : Type} {UO : UrlOps U} {UC : UrlCoding} {T : SyntaxTree} {CT : CommandText} {PS : PowerShellParser}.
Variable locals : PathLocals.
Variable try_join : list str → option str.
Implicit Types (p q : Policy MM) (cmd : list str) (f : list str → Decision) (req : ExecApprovalRequest (MM := MM) (U := U)).

Definition policy_for p req : Policy MM :=
  current_for_environment p (req_environment_policy req) (req_allow_prefix_rules req).
Definition heuristics req (o : ExecPolicyCommandOrigin) (platform : DangerousCommandPlatform) (cmd : list str) : Decision :=
  render_decision_for_unmatched_command_for_platform cmd (request_context req o) platform.

(** The commands a shell command is judged by: those of its script, and the executable
    alone before them when the shell is not known. *)
Definition evaluated_commands (command : list str) (configured_shell : Path) (zsh_fork : bool)
    (platform : DangerousCommandPlatform) : ExecPolicyCommands :=
  let executable := shell_approval_command command configured_shell zsh_fork in
  if length executable =? length command then commands_for_exec_policy_for_platform command platform
  else let parsed := commands_of_unfamiliar_shell command platform in
       mkCommands (executable :: policy_commands parsed) (command_origin parsed).

Lemma evaluated_ne command configured_shell zsh_fork platform :
  policy_commands (evaluated_commands command configured_shell zsh_fork platform) ≠ [].
Proof.
  unfold evaluated_commands. destruct (_ =? _); [|done]. unfold commands_for_exec_policy_for_platform.
  destruct (parse_shell_lc_plain_commands command) as [[|]|]; [|done|].
  all: destruct (if bool_decide _ then _ else _) as [[|]|]; done.
Qed.

(** The requirement of a shell command is the one of the commands it is judged by. *)
Lemma for_shell_eq req configured_shell zsh_fork platform : ∃ shown, ∀ p,
  create_exec_approval_requirement_for_shell locals try_join p req configured_shell zsh_fork platform =
  create_exec_approval_requirement_for_parsed_commands locals try_join p (with_command req shown)
    (evaluated_commands (req_command req) configured_shell zsh_fork platform) platform.
Proof.
  unfold create_exec_approval_requirement_for_shell, evaluated_commands.
  destruct (_ =? _); [|by eexists].
  exists (req_command req). by destruct req.
Qed.

(** What the verdicts ask for. *)
Definition someone p f (commands : list (list str)) (d : Decision) : Prop := ∃ cmd, cmd ∈ commands ∧ d ∈ verdicts locals p f cmd.
Definition rule_prompts p (commands : list (list str)) : Prop :=
  ∃ cmd m, cmd ∈ commands ∧ m ∈ ruled locals p cmd ∧ match_decision m = Prompt.

Definition classified p f (commands : list (list str)) (settings : AskForApproval) (r : ExecApprovalRequirement) : Prop :=
  match r with
  | ReqForbidden _ =>
      someone p f commands Forbidden ∨
      someone p f commands Prompt ∧ ∃ b, (b = true ↔ rule_prompts p commands) ∧ is_Some (prompt_is_rejected_by_policy settings b)
  | NeedsApproval _ _ =>
      ¬ someone p f commands Forbidden ∧ someone p f commands Prompt ∧
      ∃ b, (b = true ↔ rule_prompts p commands) ∧ prompt_is_rejected_by_policy settings b = None
  | ReqSkip bypass_sandbox _ =>
      (∀ cmd d, cmd ∈ commands → d ∈ verdicts locals p f cmd → d = Allow) ∧
      (bypass_sandbox = true ↔ ∀ cmd, cmd ∈ commands → ruled locals p cmd ≠ [])
  end.

Lemma parsed_classified p req parsed platform : policy_commands parsed ≠ [] →
  ∃ r, create_exec_approval_requirement_for_parsed_commands locals try_join p req parsed platform = Some r ∧
    classified (policy_for p req) (heuristics req (command_origin parsed) platform) (policy_commands parsed)
      (req_approval_policy req) r.
Proof.
  intros Hne. unfold create_exec_approval_requirement_for_parsed_commands.
  fold (policy_for p req). set (f := heuristics req (command_origin parsed) platform).
  destruct (check_multiple_total locals (policy_for p req) f _ Hne) as (e & He & Hm & _).
  pose proof (decision_cases locals (policy_for p req) f _ e Hne He) as Hd.
  change (λ cmd, render_decision_for_unmatched_command_for_platform cmd (request_context req (command_origin parsed)) platform) with f.
  rewrite He. cbv zeta. simpl. eexists. split; [reflexivity|].
  assert (existsb (is_policy_match_with Prompt) (matched_rules e) = true ↔ rule_prompts (policy_for p req) (policy_commands parsed)) as Hp
    by (rewrite Hm; apply prompt_rule_exists).
  destruct (evaluation_decision e).
  - split; [done|]. rewrite allowed_by_rules_spec. split.
    + intros H cmd Hc. destruct (H cmd Hc) as (m & Hin & _). by intros Hnil; rewrite Hnil in Hin; apply elem_of_nil in Hin.
    + intros H cmd Hc. destruct (ruled locals (policy_for p req) cmd) as [|m ms] eqn:Hr; [by destruct (H cmd Hc)|].
      exists m. split; [left|]. apply (Hd cmd); [done|]. unfold verdicts. rewrite Hr. left.
  - destruct Hd as [Hsome Hnone]. destruct (prompt_is_rejected_by_policy (req_approval_policy req) _) as [reason|] eqn:Hr.
    + right. split; [done|]. eexists. split; [exact Hp|]. by rewrite Hr.
    + split; [by intros (cmd & Hc & ?); apply (Hnone cmd)|]. split; [done|]. eexists. split; [exact Hp|done].
  - by left.
Qed.

(** C16.  Every shell command gets a requirement, and the verdicts on the commands it is
    judged by decide which: it is forbidden exactly when one verdict is, or when one asks and
    the settings refuse to ask (as a rule's prompt when a rule asks, else as the
    sandbox's); it asks exactly when a verdict asks, none forbids and the settings let it; it
    runs unasked exactly when all verdicts allow it, and outside the sandbox exactly when
    moreover a rule matches every one of the commands. *)
Theorem shell_requirement_exact p req configured_shell zsh_fork platform :
  let parsed := evaluated_commands (req_command req) configured_shell zsh_fork platform in
  ∃ r,
    create_exec_approval_requirement_for_shell locals try_join p req configured_shell zsh_fork platform = Some r ∧
    classified (policy_for p req) (heuristics req (command_origin parsed) platform) (policy_commands parsed)
      (req_approval_policy req) r.
Proof.
  cbv zeta. destruct (for_shell_eq req configured_shell zsh_fork platform) as [shown Hshown]. rewrite Hshown.
  destruct (parsed_classified p (with_command req shown) (evaluated_commands (req_command req) configured_shell zsh_fork platform)
    platform (evaluated_ne _ _ _ _)) as (r & Hr & Hc). by exists r.
Qed.

(** A command without danger: for the words of a shell script, no chain of wrappers leads
    from it to a dangerous command. *)
Definition harmless (o : ExecPolicyCommandOrigin) (platform : DangerousCommandPlatform) cmd : Prop :=
  match o with
  | GenericOrigin => ∀ k inner, nsteps (wraps platform) k cmd inner → ¬ dangerous platform inner
  | PowerShellOrigin => dangerous_powershell_words_match cmd platform = None
  end.

Lemma origin_None o platform cmd : dangerous_command_match_for_origin cmd o platform = None → harmless o platform cmd.
Proof.
  destruct o; simpl; [|done]. unfold dangerous_command_match_for_platform. rewrite match_None_chains.
  intros H k inner Hk. by destruct (H k inner Hk).
Qed.

(** C2.  Commands that run without asking are safe to.  Each one is allowed by all the rules
    that match it, or no rule matches it and then it is harmless, the settings do not ask for
    every untrusted command, it does not ask to leave a sandbox that restricts it (unless
    the settings never ask), and the sandbox is kept.  Settings that never ask are never
    answered by a prompt. *)
Theorem unasked_commands_safe p req configured_shell zsh_fork platform :
  let parsed := evaluated_commands (req_command req) configured_shell zsh_fork platform in
  match create_exec_approval_requirement_for_shell locals try_join p req configured_shell zsh_fork platform with
  | Some (ReqSkip bypass_sandbox _) =>
      ∀ cmd, cmd ∈ policy_commands parsed →
        (ruled locals (policy_for p req) cmd ≠ [] ∧
         ∀ m, m ∈ ruled locals (policy_for p req) cmd → match_decision m = Allow) ∨
        (ruled locals (policy_for p req) cmd = [] ∧ bypass_sandbox = false ∧
         harmless (command_origin parsed) platform cmd ∧ req_approval_policy req ≠ UnlessTrusted ∧
         stays_sandboxed (request_context req (command_origin parsed)))
  | Some (NeedsApproval _ _) => req_approval_policy req ≠ Never
  | _ => True
  end.
Proof.
  cbv zeta. destruct (for_shell_eq req configured_shell zsh_fork platform) as [shown Hshown]. rewrite Hshown.
  set (parsed := evaluated_commands (req_command req) configured_shell zsh_fork platform).
  destruct (parsed_classified p (with_command req shown) parsed platform (evaluated_ne _ _ _ _)) as (r & -> & Hc).
  destruct r as [bypass proposed|reason proposed|reason]; [| |done].
  - destruct Hc as [Hall Hbypass]. intros cmd Hin. specialize (Hall cmd). unfold verdicts in Hall.
    change (policy_for p (with_command req shown)) with (policy_for p req) in *.
    destruct (ruled locals (policy_for p req) cmd) as [|m ms] eqn:Hr.
    + right. split; [done|]. split.
      { destruct bypass; [|done]. by destruct (proj1 Hbypass eq_refl cmd Hin). }
      specialize (Hall _ Hin (list_elem_of_here _ _)).
      apply unmatched_allow in Hall as (Hd%origin_None & _ & Ht & Hs). done.
    + left. split; [done|]. intros m' Hm. apply Hall; [done|]. by apply list_elem_of_fmap_2.
  - destruct Hc as (_ & _ & b & _ & Hp). intros Hn. simpl in Hp. by rewrite Hn in Hp.
Qed.
End requirement.
