(* ===== verification/ExecAmend.v ===== *)
(** * ExecAmend: what accepting an amendment changes
    ([core/src/exec_policy.rs], [append_amendment_and_update])

    Policies whose rules are the same up to their order answer alike; an accepted
    amendment is in the policy in use afterwards, and settles the request it was
    proposed for as far as the proposal promised. *)
From S2P Require Import Prelude RustStr UnixPath Utf8Stream PatchErrors FsInterface PathUri PathMem FsPolicy FsMem PermProfile AbsolutePath MultiMap ExecRule ExecPolicy ExecPolicySpec PolicyParser PolicyAmend PolicyMem ShellScript DangerousCommand ExecApproval ExecApprovalSpec.

(** ** Prefixes *)

(** A rule that matches a command matches what begins with it. *)
Lemma rule_matches_extend (r : RuleRef) (cmd cmd' : list str) m :
  rule_matches r cmd = Some m → cmd `prefix_of` cmd' → rule_matches r cmd' = Some m.
Proof.
  intros (matched & (args & more & -> & -> & Hf)%matches_prefix_Some & ->)%rule_matches_Some [k ->].
  apply rule_matches_Some. exists (first (pattern r) :: args). split; [|done]. apply matches_prefix_Some.
  exists args, (more ++ k). split_and!; [done|by rewrite <- app_assoc|done].
Qed.

(** The rule an amendment adds. *)
Definition allow_rule (amendment : list str) : RuleRef :=
  mkPrefixRule (mkPattern (hd [] amendment) (Single <$> tl amendment)) Allow None.

Lemma allow_rule_matches amendment cmd : amendment ≠ [] → amendment `prefix_of` cmd →
  rule_matches (allow_rule amendment) cmd = Some (PrefixRuleMatch amendment Allow None None).
Proof.
  intros Hne [k ->]. destruct amendment as [|t ts]; [done|]. apply rule_matches_Some. exists (t :: ts).
  split; [|done]. apply matches_prefix_Some. exists ts, k. split_and!; [done..|]. simpl.
  apply Forall2_fmap_l, Forall_Forall2_diag, Forall_forall. intros x _. simpl. by apply list_elem_of_singleton.
Qed.

Lemma allow_rule_Allow amendment cmd m : rule_matches (allow_rule amendment) cmd = Some m → match_decision m = Allow.
Proof. by intros (? & _ & ->)%rule_matches_Some. Qed.

Lemma decision_with_resolved program m : match_decision (with_resolved_program program m) = match_decision m.
Proof. by destruct m. Qed.

Section amend.
Context {MM : Type} {MapOps : MultiMapOps RuleRef MM} {MapLaws : MultiMap RuleRef MM} {Env : ProcessEnv}.
Variable locals : PathLocals.
Implicit Types (p q : Policy MM) (cmd : list str) (f : list str → Decision).

(** ** Policies with the same rules *)

(** The rules of every program up to their order, and the same host executables. *)
#[global] Instance policy_equiv : Equiv (Policy MM) := λ p q,
  (∀ k, rules_of p k ≡ₚ rules_of q k) ∧ host_executables_by_name p = host_executables_by_name q.

#[global] Instance policy_equivalence : Equivalence (≡@{Policy MM}).
Proof.
  split.
  - by intros p.
  - intros p q [H ?]. split; [by intros k; rewrite H|done].
  - intros p q r [H1 ?] [H2 ?]. split; [intros k; by rewrite H1|congruence].
Qed.

Lemma elem_of_exact p cmd m :
  m ∈ exact_matches p cmd ↔ ∃ first args r, cmd = first :: args ∧ r ∈ rules_of p first ∧ rule_matches r cmd = Some m.
Proof.
  destruct cmd as [|first args]; simpl.
  - split; [by intros ?%elem_of_nil|]. by intros (? & ? & ? & ? & _).
  - rewrite elem_of_matching. naive_solver.
Qed.

(** More rules, more matches. *)
Lemma exact_matches_mono p q cmd m :
  (∀ k r, r ∈ rules_of p k → r ∈ rules_of q k) → m ∈ exact_matches p cmd → m ∈ exact_matches q cmd.
Proof. rewrite !elem_of_exact. naive_solver. Qed.

Lemma host_matches_mono p q cmd m :
  (∀ k r, r ∈ rules_of p k → r ∈ rules_of q k) → host_executables_by_name p = host_executables_by_name q →
  m ∈ match_host_executable_rules locals p cmd → m ∈ match_host_executable_rules locals q cmd.
Proof.
  intros Hr Hh. rewrite !host_rules_elem. unfold host_listed. rewrite Hh.
  intros (first & args & program & basename & r & m' & H). exists first, args, program, basename, r, m'. naive_solver.
Qed.

Lemma elem_of_ruled p cmd m :
  m ∈ ruled locals p cmd ↔
  m ∈ exact_matches p cmd ∨ exact_matches p cmd = [] ∧ m ∈ match_host_executable_rules locals p cmd.
Proof.
  unfold ruled. rewrite matches_stages. cbn [resolve_host_executables approval_match_options].
  destruct (exact_matches p cmd) as [|m0 ms].
  - rewrite elem_of_nil. destruct (match_host_executable_rules locals p cmd); naive_solver.
  - naive_solver.
Qed.

Lemma elem_of_verdicts p f cmd d :
  d ∈ verdicts locals p f cmd ↔
  (∃ m, m ∈ ruled locals p cmd ∧ d = match_decision m) ∨ ruled locals p cmd = [] ∧ d = f cmd.
Proof.
  unfold verdicts. destruct (ruled locals p cmd) as [|m ms].
  - rewrite list_elem_of_singleton. setoid_rewrite elem_of_nil. naive_solver.
  - rewrite list_elem_of_fmap. naive_solver.
Qed.

Lemma nil_elem {A} (l : list A) : l = [] ↔ ∀ x, x ∉ l.
Proof. split; [intros -> x; apply not_elem_of_nil|]. destruct l as [|x l]; [done|]. intros H. destruct (H x). left. Qed.

Lemma ruled_equiv p q cmd m : p ≡ q → m ∈ ruled locals p cmd → m ∈ ruled locals q cmd.
Proof.
  intros [Hr Hh]. rewrite !elem_of_ruled, !nil_elem.
  assert (∀ k r, r ∈ rules_of p k ↔ r ∈ rules_of q k) as Hin by (intros k r; by rewrite Hr).
  intros [He|[He Hm]].
  - left. eapply exact_matches_mono; [|exact He]. naive_solver.
  - right. split.
    + intros x Hx. apply (He x). eapply exact_matches_mono; [|exact Hx]. naive_solver.
    + eapply host_matches_mono; [|exact Hh|exact Hm]. naive_solver.
Qed.

#[global] Instance verdicts_proper d : Proper ((≡) ==> (=) ==> (=) ==> iff) (λ p f cmd, d ∈ verdicts locals p f cmd).
Proof.
  assert (∀ p q f cmd, p ≡ q → d ∈ verdicts locals p f cmd → d ∈ verdicts locals q f cmd) as H.
  { intros p q f cmd Hpq. rewrite !elem_of_verdicts, !nil_elem. intros [(m & Hm & ->)|[Hn ->]].
    - left. exists m. split; [by eapply ruled_equiv|done].
    - right. split; [|done]. intros m Hm. apply (Hn m). by eapply ruled_equiv. }
  intros p q Hpq f _ <- cmd _ <-. split; by apply H.
Qed.

(** ** Adding a rule *)

Definition added (amendment : list str) p : Policy MM := fst (add_prefix_rule amendment Allow p).

Lemma added_eq amendment p : amendment ≠ [] → add_prefix_rule amendment Allow p = (added amendment p, Ok tt).
Proof. by destruct amendment. Qed.

Lemma rules_of_added amendment p k : amendment ≠ [] →
  rules_of (added amendment p) k = rules_of p k ++ (if decide (k = hd [] amendment) then [allow_rule amendment] else []).
Proof. destruct amendment as [|t ts]; [done|]. intros _. apply values_insert. Qed.

Lemma elem_of_added amendment p k r : amendment ≠ [] →
  r ∈ rules_of (added amendment p) k ↔ r ∈ rules_of p k ∨ k = hd [] amendment ∧ r = allow_rule amendment.
Proof.
  intros Hne. rewrite rules_of_added, elem_of_app by done. case_decide; [rewrite list_elem_of_singleton|rewrite elem_of_nil]; naive_solver.
Qed.

Lemma hosts_added amendment p : host_executables_by_name (added amendment p) = host_executables_by_name p.
Proof. by destruct amendment. Qed.

(** The new matches allow. *)
Lemma exact_added amendment p cmd m : amendment ≠ [] →
  m ∈ exact_matches (added amendment p) cmd → m ∈ exact_matches p cmd ∨ match_decision m = Allow.
Proof.
  intros Hne. rewrite !elem_of_exact. intros (first & args & r & -> & Hr & Hm).
  apply elem_of_added in Hr as [Hr|[_ ->]]; [|right; by eapply allow_rule_Allow|done].
  left. by exists first, args, r.
Qed.

Lemma host_added amendment p cmd m : amendment ≠ [] →
  m ∈ match_host_executable_rules locals (added amendment p) cmd →
  m ∈ match_host_executable_rules locals p cmd ∨ match_decision m = Allow.
Proof.
  intros Hne. rewrite !host_rules_elem. unfold host_listed. rewrite hosts_added.
  intros (first & args & program & basename & r & m' & -> & Hp & Hf & Hl & Hr & Hm & ->).
  apply elem_of_added in Hr as [Hr|[_ ->]]; [| |done].
  - left. by exists first, args, program, basename, r, m'.
  - right. rewrite decision_with_resolved. by eapply allow_rule_Allow.
Qed.

Lemma added_more amendment p k r : amendment ≠ [] → r ∈ rules_of p k → r ∈ rules_of (added amendment p) k.
Proof. intros Hne Hr. apply elem_of_added; [done|]. by left. Qed.

Lemma ruled_added amendment p cmd m : amendment ≠ [] →
  m ∈ ruled locals (added amendment p) cmd → m ∈ ruled locals p cmd ∨ match_decision m = Allow.
Proof.
  intros Hne. rewrite !elem_of_ruled, !nil_elem. intros [Hm|[Hn Hm]].
  - apply exact_added in Hm; [|done]. naive_solver.
  - apply host_added in Hm as [Hm|]; [|by right|done]. left. right. split; [|done].
    intros x Hx. apply (Hn x). eapply exact_matches_mono; [|exact Hx]. intros k r. by apply added_more.
Qed.

(** A rule more to allow only allows more. *)
Lemma verdicts_added amendment p f cmd d : amendment ≠ [] →
  d ∈ verdicts locals (added amendment p) f cmd → d ∈ verdicts locals p f cmd ∨ d = Allow.
Proof.
  intros Hne. rewrite !elem_of_verdicts. intros [(m & Hm & ->)|[Hn ->]].
  - apply ruled_added in Hm; [|done]. naive_solver.
  - left. right. split; [|done]. apply nil_elem. intros m Hm. rewrite nil_elem in Hn.
    apply elem_of_ruled in Hm as [Hm|[_ Hm]].
    + apply (Hn m), elem_of_ruled. left. eapply exact_matches_mono; [|exact Hm]. intros k r. by apply added_more.
    + destruct (exact_matches (added amendment p) cmd) as [|x l] eqn:Hx.
      * apply (Hn m), elem_of_ruled. right. split; [done|].
        eapply host_matches_mono; [|symmetry; apply hosts_added|exact Hm]. intros k r. by apply added_more.
      * apply (Hn x), elem_of_ruled. left. rewrite Hx. left.
Qed.

(** What begins with the amendment and had no rule is allowed. *)
Lemma verdicts_added_prefix amendment p f cmd d : amendment ≠ [] → amendment `prefix_of` cmd →
  ruled locals p cmd = [] → d ∈ verdicts locals (added amendment p) f cmd → d = Allow.
Proof.
  intros Hne Hpre Hn. assert (PrefixRuleMatch amendment Allow None None ∈ exact_matches (added amendment p) cmd) as Hin.
  { apply elem_of_exact. destruct amendment as [|t ts]; [done|]. destruct Hpre as [k ->].
    exists t, (ts ++ k), (allow_rule (t :: ts)). split_and!; [done| |].
    - apply elem_of_added; [done|]. by right.
    - apply allow_rule_matches; [done|by exists k]. }
  rewrite elem_of_verdicts. intros [(m & Hm & ->)|[Hn' _]].
  - apply ruled_added in Hm as [Hm|]; [by rewrite Hn in Hm; apply elem_of_nil in Hm|done|done].
  - rewrite nil_elem in Hn'. destruct (Hn' _ (proj2 (elem_of_ruled _ _ _) (or_introl Hin))).
Qed.

(** The environment's rules come after the amendment or before it. *)
Lemma merge_added amendment p overlay : amendment ≠ [] →
  merge_overlay (added amendment p) overlay ≡ added amendment (merge_overlay p overlay).
Proof.
  intros Hne. split.
  - intros k. rewrite rules_of_merge, !rules_of_added, rules_of_merge by done.
    rewrite <- !app_assoc. f_equiv. apply Permutation_app_comm.
  - rewrite hosts_added. simpl. by rewrite hosts_added.
Qed.

Lemma would_approve_spec p amendment commands f :
  prefix_rule_would_approve_all_commands locals p amendment commands f = true ↔
  amendment ≠ [] ∧ ∀ cmd d, cmd ∈ commands → d ∈ verdicts locals (added amendment p) f cmd → d = Allow.
Proof.
  unfold prefix_rule_would_approve_all_commands. destruct amendment as [|t ts]; [naive_solver|].
  rewrite added_eq by done. rewrite forallb_forall. setoid_rewrite <- list_elem_of_In.
  assert (∀ cmd, match check_with_options locals (added (t :: ts) p) cmd f approval_match_options with
                 | Some e => bool_decide (evaluation_decision e = Allow) | None => false end = true ↔
                 ∀ d, d ∈ verdicts locals (added (t :: ts) p) f cmd → d = Allow) as Hcmd; [|naive_solver].
  intros cmd. rewrite <- match_verdicts. unfold check_with_options.
  set (ms := matches_for_command_with_options _ _ _ _ _).
  destruct (from_matches_is_Some ms) as [e He]; [apply matches_fallback_ne|]. rewrite He.
  apply from_matches_Some in He as (_ & Hd & Hmax). rewrite bool_decide_eq_true. split.
  - intros Ha d (m & -> & Hm)%list_elem_of_fmap. specialize (Hmax m Hm). rewrite Ha in Hmax.
    by destruct (match_decision m); simpl in Hmax; try lia.
  - auto.
Qed.

(** ** Whether the amendment is added *)

Lemma allow_rule_prefix amendment cmd m : amendment ≠ [] → rule_matches (allow_rule amendment) cmd = Some m →
  amendment `prefix_of` cmd ∧ head cmd = Some (hd [] amendment).
Proof.
  destruct amendment as [|t ts]; [done|]. intros _ (matched & (args & more & -> & -> & Hf)%matches_prefix_Some & _)%rule_matches_Some.
  split; [|done]. simpl in *. apply Forall2_fmap_l in Hf.
  assert (ts = args) as ->; [|by exists more].
  clear -Hf. induction Hf as [|x y xs ys Hxy _ IH]; [done|]. apply list_elem_of_singleton in Hxy. by subst.
Qed.

Lemma already_allowed_ruled p amendment : already_allowed locals p amendment = true → ruled locals p amendment ≠ [].
Proof.
  unfold already_allowed. destruct (check_multiple_total locals p (λ _, Forbidden) [amendment]) as (e & -> & Hm & _); [done|].
  intros [_ Hex]%andb_true_iff. apply existsb_elem in Hex as (m & Hin & Hp). rewrite Hm in Hin. unfold all_matches in Hin.
  rewrite list_elem_of_bind in Hin. destruct Hin as (cmd & Hin & ->%list_elem_of_singleton).
  rewrite matches_with_fallback in Hin. destruct (ruled locals p amendment); [|done].
  apply list_elem_of_singleton in Hin as ->. done.
Qed.

(** A command without rules that the amendment allows: no rule allowed the amendment. *)
Lemma not_already_allowed p q f amendment cmd : amendment ≠ [] →
  (∀ k r, r ∈ rules_of p k → r ∈ rules_of q k) →
  (exact_matches p amendment = [] → match_host_executable_rules locals p amendment = []) →
  ruled locals q cmd = [] → f cmd ≠ Allow → (∀ d, d ∈ verdicts locals (added amendment q) f cmd → d = Allow) →
  already_allowed locals p amendment = false.
Proof.
  intros Hne Hsub Hhost Hn Hf Hall. apply not_true_iff_false. intros Ha%already_allowed_ruled.
  assert (∃ r m, r ∈ rules_of p (hd [] amendment) ∧ rule_matches r amendment = Some m) as (r & m & Hr & Hm).
  { destruct (exact_matches p amendment) as [|m ms] eqn:He.
    - destruct Ha. apply nil_elem. intros m. rewrite elem_of_ruled, He, Hhost by done. intros [Hm|[_ Hm]]; by apply elem_of_nil in Hm.
    - assert (m ∈ exact_matches p amendment) as (first & args & r & -> & Hr & Hm)%elem_of_exact by (rewrite He; left).
      by exists r, m. }
  assert (∀ x, x ∉ ruled locals q cmd) as Hnone by (by apply nil_elem).
  destruct (ruled locals (added amendment q) cmd) as [|m' ms'] eqn:Hadd.
  { apply Hf, Hall, elem_of_verdicts. by right. }
  assert (m' ∈ ruled locals (added amendment q) cmd) as Hm' by (rewrite Hadd; left). clear Hadd Hall Hf ms' Ha Hhost.
  apply elem_of_ruled in Hm' as [Hm'|[_ Hm']].
  - apply elem_of_exact in Hm' as (first & args & r' & -> & Hr' & Hm'). apply elem_of_added in Hr' as [Hr'|[-> ->]]; [| |done].
    + apply (Hnone m'), elem_of_ruled. left. apply elem_of_exact. by exists first, args, r'.
    + apply allow_rule_prefix in Hm' as [Hpre _]; [|done].
      apply (Hnone m), elem_of_ruled. left. apply elem_of_exact. exists (hd [] amendment), args, r.
      split_and!; [done|by apply Hsub|by eapply rule_matches_extend].
  - apply host_rules_elem in Hm' as (first & args & program & basename & r' & m0 & -> & Hp & Hb & Hl & Hr' & Hm' & ->).
    unfold host_listed in Hl. rewrite hosts_added in Hl.
    assert (∀ r m, r ∈ rules_of q basename → rule_matches r (basename :: args) = Some m → False) as Hno.
    { intros r1 m1 Hr1 Hm1. destruct (exact_matches q (first :: args)) as [|x l] eqn:Hx.
      - apply (Hnone (with_resolved_program program m1)), elem_of_ruled. right. split; [done|].
        apply host_rules_elem. by exists first, args, program, basename, r1, m1.
      - apply (Hnone x), elem_of_ruled. left. rewrite Hx. left. }
    apply elem_of_added in Hr' as [Hr'|[-> ->]]; [by eapply Hno| |done].
    apply allow_rule_prefix in Hm' as [Hpre _]; [|done].
    apply (Hno r m); [by apply Hsub|by eapply rule_matches_extend].
Qed.
End amend.

(** ** The request an amendment was proposed for *)

Section settles.
Context {MM : Type} {MapOps : MultiMapOps RuleRef MM} {MapLaws : MultiMap RuleRef MM} {Env : ProcessEnv}.
Context {U : Type} {UO : UrlOps U} {UC : UrlCoding} {T : SyntaxTree} {CT : CommandText} {PS : PowerShellParser}.
Context {Json : SerdeJson} {W : Type} {Fs : PolicyFs W}.
Variable locals : PathLocals.
Variable try_join : list str → option str.
Implicit Types (p q : Policy MM) (cmd : list str) (req : ExecApprovalRequest (MM := MM) (U := U)).

Lemma unruled_matches q f commands : existsb is_policy_match (all_matches locals q f commands) = false →
  ∀ cmd, cmd ∈ commands → ruled locals q cmd = [].
Proof.
  intros Hex cmd Hc. destruct (ruled locals q cmd) as [|m ms] eqn:Hr; [done|].
  assert (existsb is_policy_match (all_matches locals q f commands) = true) as Ht; [|congruence].
  apply existsb_elem. exists m. split.
  - apply list_elem_of_bind. exists cmd. split; [|done]. rewrite matches_with_fallback, Hr. left.
  - apply (ruled_policy locals q cmd). rewrite Hr. left.
Qed.

Lemma first_heuristic_Some q f commands amendment d :
  first_heuristic d (all_matches locals q f commands) = Some amendment →
  amendment ∈ commands ∧ ruled locals q amendment = [] ∧ f amendment = d.
Proof.
  intros (m & Hin & Hm)%find_map_Some. apply list_elem_of_bind in Hin as (cmd & Hin & Hc).
  rewrite matches_with_fallback in Hin. destruct (ruled locals q cmd) as [|m0 ms] eqn:Hr.
  - apply list_elem_of_singleton in Hin as ->. case_bool_decide; [|done]. by injection Hm as <-.
  - rewrite <- Hr in Hin. apply ruled_policy in Hin. by destruct m.
Qed.

Lemma requested_Some prefix_rule ms q commands f amendment :
  derive_requested_execpolicy_amendment_from_prefix_rule locals prefix_rule ms q commands f = Some amendment →
  prefix_rule = Some amendment ∧ existsb is_policy_match ms = false ∧
  prefix_rule_would_approve_all_commands locals q amendment commands f = true.
Proof.
  unfold derive_requested_execpolicy_amendment_from_prefix_rule. generalize BANNED_PREFIX_SUGGESTIONS as banned.
  intros banned. destruct prefix_rule as [rule|]; [|done]. cbn [mbind option_bind]. case_bool_decide; [done|].
  destruct (existsb (λ banned, _) banned); [done|]. destruct (existsb is_policy_match ms); [done|].
  destruct (prefix_rule_would_approve_all_commands locals q rule commands f) eqn:Hw; [|done]. by intros [= <-].
Qed.

(** What a proposal says: some command no rule matches asks, and the amendment allows it. *)
Lemma proposal p req parsed platform reason amendment : policy_commands parsed ≠ [] → amendment ≠ [] →
  create_exec_approval_requirement_for_parsed_commands locals try_join p req parsed platform =
    Some (NeedsApproval reason (Some amendment)) →
  let q := policy_for p req in
  let f := heuristics req (command_origin parsed) platform in
  req_allow_prefix_rules req = Honor ∧ ¬ rule_prompts locals q (policy_commands parsed) ∧
  ∃ cmd, cmd ∈ policy_commands parsed ∧ ruled locals q cmd = [] ∧ f cmd = Prompt ∧
    ∀ d, d ∈ verdicts locals (added amendment q) f cmd → d = Allow.
Proof.
  intros Hcs Hne. unfold create_exec_approval_requirement_for_parsed_commands. fold (policy_for p req).
  set (q := policy_for p req). set (f := heuristics req (command_origin parsed) platform).
  destruct (check_multiple_total locals q f _ Hcs) as (e & He & Hm & _).
  pose proof (decision_cases locals q f _ e Hcs He) as Hd.
  change (λ cmd, render_decision_for_unmatched_command_for_platform cmd (request_context req (command_origin parsed)) platform) with f.
  rewrite He. cbv zeta. simpl. rewrite Hm. intros [= Hreq]. destruct (evaluation_decision e); try done.
  destruct (prompt_is_rejected_by_policy _ _); [done|]. injection Hreq as _ Hreq.
  case_bool_decide as Hh; [|done]. split; [done|]. destruct Hd as [(asking & Hin & Hask) _].
  assert (∀ commands, existsb is_policy_match (all_matches locals q f commands) = false → ¬ rule_prompts locals q commands) as Hnr.
  { intros commands Hex (cmd & m & Hc & Hr & _). rewrite (unruled_matches q f commands) in Hr by done. by apply elem_of_nil in Hr. }
  destruct (derive_requested_execpolicy_amendment_from_prefix_rule _ _ _ _ _ _) as [requested|] eqn:Hr.
  - injection Hreq as ->. apply requested_Some in Hr as (_ & Hex & Hw).
    apply would_approve_spec in Hw as [_ Hw]. split; [by apply Hnr|]. exists asking.
    pose proof (unruled_matches _ _ _ Hex asking Hin) as Hun. split_and!; [done..| |].
    + apply elem_of_verdicts in Hask as [(m & Hm' & _)|[_ <-]]; [by rewrite Hun in Hm'; apply elem_of_nil in Hm'|done].
    + intros d. by apply Hw.
  - unfold try_derive_execpolicy_amendment_for_prompt_rules in Hreq.
    destruct (existsb (is_policy_match_with Prompt) _) eqn:Hex; [done|].
    apply first_heuristic_Some in Hreq as (Ha & Hun & Hf). split.
    + intros Hp%(prompt_rule_exists locals q f). congruence.
    + exists amendment. split_and!; [done..|]. intros d. by apply verdicts_added_prefix.
Qed.

(** A successful update. *)
Lemma append_amendment_ok codex_home amendment (s s' : ManagerState W MM) :
  append_amendment_and_update locals codex_home amendment s = (s', Ok tt) →
  amendment ≠ [] ∧
  manager_policy s' = if already_allowed locals (manager_policy s) amendment then manager_policy s
                      else added amendment (manager_policy s).
Proof.
  unfold append_amendment_and_update. intros ([] & s1 & Ha & Hu)%M_bind_ok.
  assert (amendment ≠ [] ∧ manager_policy s1 = manager_policy s) as [Hne Hp].
  { unfold or_update, on_world in Ha. destruct (blocking_append_allow_prefix_rule _ _ _) as [w1 [[]|err]] eqn:Hb; [|done].
    injection Ha as <-. split; [|done]. by intros ->. }
  split; [done|]. apply M_bind_ok in Hu as (s2 & s3 & Hg & Hu). injection Hg as <- <-. rewrite Hp in Hu.
  destruct (already_allowed locals (manager_policy s) amendment); [injection Hu as <-; done|].
  unfold update_policy in Hu. rewrite Hp, added_eq in Hu by done. by injection Hu as <-.
Qed.

Lemma policy_for_added p req amendment : amendment ≠ [] → req_allow_prefix_rules req = Honor →
  policy_for (added amendment p) req ≡ added amendment (policy_for p req).
Proof.
  intros Hne Hh. unfold policy_for, current_for_environment, current_for_prefix_rules. rewrite Hh.
  destruct (req_environment_policy req) as [overlay|]; [by apply merge_added|done].
Qed.

Lemma policy_for_more p req k r : req_allow_prefix_rules req = Honor →
  r ∈ rules_of p k → r ∈ rules_of (policy_for p req) k.
Proof.
  intros Hh Hr. unfold policy_for, current_for_environment, current_for_prefix_rules. rewrite Hh.
  destruct (req_environment_policy req) as [overlay|]; [|done]. simpl. rewrite rules_of_merge, elem_of_app. by left.
Qed.

(** After the update nothing is forbidden, and no rule asks, that was not and did not. *)
Lemma not_stricter q q' f amendment commands : amendment ≠ [] → q' ≡ added amendment q →
  (∀ cmd d, d ∈ verdicts locals q' f cmd → d ∈ verdicts locals q f cmd ∨ d = Allow) ∧
  (someone locals q' f commands Forbidden → someone locals q f commands Forbidden) ∧
  (rule_prompts locals q' commands → rule_prompts locals q commands).
Proof.
  intros Hne Heq. assert (∀ cmd d, d ∈ verdicts locals q' f cmd → d ∈ verdicts locals q f cmd ∨ d = Allow) as Hv.
  { intros cmd d Hd. apply (verdicts_proper locals d _ _ Heq f f eq_refl cmd cmd eq_refl) in Hd. by apply verdicts_added in Hd. }
  split_and!; [exact Hv| |].
  - intros (cmd & Hc & [?|?]%Hv); [by exists cmd|done].
  - intros (cmd & m & Hc & Hm & Hd). exists cmd, m. split_and!; [done| |done].
    apply (ruled_equiv locals _ _ _ _ Heq), ruled_added in Hm as [|Hm]; [done| |done]. by rewrite Hd in Hm.
Qed.

(** C10.  Accepting the amendment a prompt proposes settles the prompt.  Once it is appended and
    the policy updated, the same command is never forbidden; it runs unasked exactly when
    the rule was found to approve all its commands (as it was for a rule the caller
    requested), and otherwise it still asks, but not for a command the first prompt asked
    for; and no command is judged more strictly than before.  The amendment itself must not
    be one that rules reach only through the paths of host executables. *)
Theorem accepted_amendment_settles req configured_shell zsh_fork platform reason amendment codex_home (s s' : ManagerState W MM) :
  let p := manager_policy s in
  let parsed := evaluated_commands (req_command req) configured_shell zsh_fork platform in
  let f := heuristics req (command_origin parsed) platform in
  (exact_matches p amendment = [] → match_host_executable_rules locals p amendment = []) →
  create_exec_approval_requirement_for_shell locals try_join p req configured_shell zsh_fork platform =
    Some (NeedsApproval reason (Some amendment)) →
  append_amendment_and_update locals codex_home amendment s = (s', Ok tt) →
  let q := policy_for p req in
  let q' := policy_for (manager_policy s') req in
  (∃ cmd, cmd ∈ policy_commands parsed ∧ Prompt ∈ verdicts locals q f cmd ∧
     ∀ d, d ∈ verdicts locals q' f cmd → d = Allow) ∧
  (∀ cmd d, d ∈ verdicts locals q' f cmd → d ∈ verdicts locals q f cmd ∨ d = Allow) ∧
  ∃ r, create_exec_approval_requirement_for_shell locals try_join (manager_policy s') req configured_shell zsh_fork platform = Some r ∧
    if prefix_rule_would_approve_all_commands locals q amendment (policy_commands parsed) f
    then ∃ bypass_sandbox proposed, r = ReqSkip bypass_sandbox proposed
    else ∃ reason proposed, r = NeedsApproval reason proposed.
Proof.
  intros p parsed f Hhost Hask [Hne Hup]%append_amendment_ok q q'.
  destruct (for_shell_eq locals try_join req configured_shell zsh_fork platform) as [shown Hs]. fold parsed in Hs.
  rewrite Hs in Hask. rewrite Hs. pose proof (evaluated_ne (req_command req) configured_shell zsh_fork platform) as Hcs. fold parsed in Hcs.
  destruct (proposal p (with_command req shown) parsed platform reason amendment Hcs Hne Hask) as (Hh & Hnr & cmd & Hin & Hun & Hf & Hall).
  change (policy_for p (with_command req shown)) with q in *. change (heuristics (with_command req shown) _ _) with f in *.
  rewrite (not_already_allowed locals p q f amendment cmd) in Hup; try done.
  2: { intros k r. by apply policy_for_more. } 2: { by rewrite Hf. }
  assert (q' ≡ added amendment q) as Heq by (unfold q', q; rewrite Hup; by apply policy_for_added).
  assert (∀ cmd d, d ∈ verdicts locals q' f cmd ↔ d ∈ verdicts locals (added amendment q) f cmd) as Hq'
    by (intros c d; by apply (verdicts_proper locals d)).
  destruct (not_stricter q q' f amendment (policy_commands parsed) Hne Heq) as (Hv & Hnf' & Hnr').
  split_and!; [|exact Hv|].
  - exists cmd. split; [done|]. split; [apply elem_of_verdicts; by right|]. intros d. rewrite Hq'. apply Hall.
  - destruct (parsed_classified locals try_join p (with_command req shown) parsed platform Hcs) as (r0 & Hr0 & Hc0).
    rewrite Hask in Hr0. injection Hr0 as <-. destruct Hc0 as (Hnf & _ & b & Hb & Hrej).
    destruct (parsed_classified locals try_join (manager_policy s') (with_command req shown) parsed platform Hcs) as (r & -> & Hc).
    exists r. split; [done|].
    change (policy_for (manager_policy s') (with_command req shown)) with q' in Hc.
    change (policy_for p (with_command req shown)) with q in *. change (heuristics (with_command req shown) _ _) with f in *.
    destruct b; [destruct Hnr; by apply Hb|]. clear Hb.
    assert (∀ b, (b = true ↔ rule_prompts locals q' (policy_commands parsed)) → b = false) as Hb
      by (intros [|] Hb; [destruct Hnr; apply Hnr'; by apply Hb|done]).
    destruct (prefix_rule_would_approve_all_commands locals q amendment (policy_commands parsed) f) eqn:Hw.
    + apply would_approve_spec in Hw as [_ Hw].
      assert (¬ someone locals q' f (policy_commands parsed) Prompt) as Hnp.
      { intros (c & Hc' & Hp). rewrite Hq' in Hp. by apply Hw in Hp. }
      destruct r as [bypass proposed|reason' proposed|reason']; [by eauto|naive_solver|naive_solver].
    + destruct r as [bypass proposed|reason' proposed|reason']; [|by eauto|].
      * apply not_true_iff_false in Hw. destruct Hw. apply would_approve_spec. split; [done|].
        intros c d Hc' Hp. rewrite <- Hq' in Hp. destruct Hc as [Hc _]. by apply (Hc c).
      * destruct Hc as [?%Hnf'|(_ & b & ->%Hb & Hr)]; [done|]. rewrite Hrej in Hr. by destruct Hr.
Qed.

(** ** A model for which prefix rules do not count *)

Lemma values_insert_pairs (l : list (str * RuleRef)) (m : MM) k r :
  r ∈ values k (foldl (λ m '(program, rule), mm_insert program rule m) m l) ↔ r ∈ values k m ∨ (k, r) ∈ l.
Proof.
  revert m. induction l as [|[j x] l IH]; intros m; simpl.
  - rewrite elem_of_nil. tauto.
  - rewrite IH, values_insert, elem_of_app, elem_of_cons.
    case_decide; [rewrite list_elem_of_singleton|rewrite elem_of_nil]; naive_solver.
Qed.

Lemma elem_of_kept p k r : (k, r) ∈ kept_rules p ↔ r ∈ rules_of p k ∧ decision r ≠ Allow.
Proof.
  unfold kept_rules, rules_of, values. rewrite elem_of_flat_map. split.
  - intros ([k' rules] & Hin & Hr). apply list_elem_of_omap in Hr as (r' & Hr' & Hk). unfold is_allow_prefix in Hk. simpl in Hk.
    case_bool_decide; [done|]. injection Hk as -> ->. apply elem_of_iter_all in Hin. by rewrite Hin.
  - intros [Hr Hd]. destruct (get_vec k (rules_by_program p)) as [rules|] eqn:Hg; [|by apply elem_of_nil in Hr].
    exists (k, rules). split; [by apply elem_of_iter_all|]. apply list_elem_of_omap. exists r. split; [done|].
    unfold is_allow_prefix. simpl. by rewrite bool_decide_false.
Qed.

Lemma kept_policy p k r :
  r ∈ rules_of (current_for_prefix_rules p IgnoreForCyberModel) k ↔ r ∈ rules_of p k ∧ decision r ≠ Allow.
Proof.
  unfold current_for_prefix_rules. rewrite bool_decide_false by done. unfold rules_of at 1. simpl.
  rewrite values_insert_pairs, values_new, elem_of_kept, elem_of_nil. tauto.
Qed.

(** No rule allows a command then. *)
Lemma kept_not_allowed p cmd m : m ∈ ruled locals (current_for_prefix_rules p IgnoreForCyberModel) cmd → match_decision m ≠ Allow.
Proof.
  rewrite elem_of_ruled, elem_of_exact, host_rules_elem. intros [Hm|[_ Hm]].
  - destruct Hm as (first & args & r & -> & [_ Hd]%kept_policy & (? & _ & ->)%rule_matches_Some). done.
  - destruct Hm as (? & ? & ? & ? & r & m' & -> & _ & _ & _ & [_ Hd]%kept_policy & (? & _ & ->)%rule_matches_Some & ->). done.
Qed.

(** For a model whose prefix rules do not count, exactly the rules that allow a prefix are
    left out: those that ask or forbid, the network rules and the host executables stay.
    No command is then answered with an amendment to keep, and without rules of the
    environment no command leaves the sandbox unasked. *)
Theorem ignored_rules_keep_sandbox p :
  let q := current_for_prefix_rules p IgnoreForCyberModel in
  (∀ k r, r ∈ rules_of q k ↔ r ∈ rules_of p k ∧ decision r ≠ Allow) ∧
  network_rules q = network_rules p ∧ host_executables_by_name q = host_executables_by_name p ∧
  ∀ req configured_shell zsh_fork platform, req_allow_prefix_rules req = IgnoreForCyberModel →
    ∃ r, create_exec_approval_requirement_for_shell locals try_join p req configured_shell zsh_fork platform = Some r ∧
      proposed_execpolicy_amendment r = None ∧
      ∀ bypass_sandbox proposed, r = ReqSkip bypass_sandbox proposed → req_environment_policy req = None → bypass_sandbox = false.
Proof.
  intros q. split_and!; [intros k r; apply kept_policy|done|done|]. intros req configured_shell zsh_fork platform Hi.
  destruct (for_shell_eq locals try_join req configured_shell zsh_fork platform) as [shown Hs]. rewrite Hs.
  set (parsed := evaluated_commands (req_command req) configured_shell zsh_fork platform).
  destruct (parsed_classified locals try_join p (with_command req shown) parsed platform (evaluated_ne _ _ _ _)) as (r & Hr & Hc).
  exists r. split; [done|]. split.
  - revert Hr. unfold create_exec_approval_requirement_for_parsed_commands. simpl. rewrite Hi, (bool_decide_false (_ = Honor)) by done.
    destruct (check_multiple_with_options _ _ _ _ _) as [e|]; [|done]. simpl. intros [= <-].
    destruct (evaluation_decision e); [done| |done]. by destruct (prompt_is_rejected_by_policy _ _).
  - intros bypass proposed -> He. destruct Hc as [Hall Hb]. destruct bypass; [|done].
    pose proof (evaluated_ne (req_command req) configured_shell zsh_fork platform) as Hne. fold parsed in Hne.
    destruct (policy_commands parsed) as [|cmd cmds] eqn:Hcmds; [done|].
    assert (cmd ∈ policy_commands parsed) as Hin by (rewrite Hcmds; left). rewrite <- Hcmds in *.
    pose proof (proj1 Hb eq_refl cmd Hin) as Hrn. 
    assert (policy_for p (with_command req shown) = q) as Hq.
    { unfold policy_for, current_for_environment. simpl. by rewrite He, Hi. }
    rewrite Hq in *. destruct (ruled locals q cmd) as [|m ms] eqn:Hm; [done|].
    destruct (kept_not_allowed p cmd m); [fold q; rewrite Hm; left|].
    apply (Hall cmd); [done|]. unfold verdicts. rewrite Hm. left.
Qed.
End settles.

(** * Concrete requests *)

Module ExecMem.
Export FsMem ShellMem.

#[export] Instance mem_text : CommandText := {
  shlex_split s := Some (words s);
  url_token _ := None;
  url_scheme_of _ := None;
}.
#[export] Instance mem_powershell : PowerShellParser := { try_parse_powershell_commands _ := None }.
#[export] Existing Instance sample_env.

Definition mem_join (l : list str) : option str := Some (join [c_space] l).

Definition sample_request (command : list str) (settings : AskForApproval) (env : option (Policy (gmap str (list RuleRef))))
    (prefix : option (list str)) (rules : AllowPrefixRules) : ExecApprovalRequest (U := MemUrl) :=
  mkApprovalRequest command settings (Managed (ManagedRestricted [new_entry (Special Root) Read] None) NetRestricted)
    env LevelDisabled UseDefault prefix rules.

Definition requirement (p : Policy (gmap str (list RuleRef))) req : option ExecApprovalRequirement :=
  create_exec_approval_requirement_for_shell initial_locals mem_join p req (components (lit "/bin/zsh")) false PosixCommands.

(** [git status] is allowed, [git push] asks and [rm] is forbidden by rules. *)
Definition build_script : list str := [lit "/bin/bash"; lit "-lc"; lit "make build && git status"].
Definition build_request := sample_request build_script UnlessTrusted None None Honor.

Example build_asks : requirement sample_policy build_request = Some (NeedsApproval None (Some [lit "make"; lit "build"])).
Proof. vm_compute. reflexivity. Qed.

Definition sample_state : ManagerState MemFiles (gmap str (list RuleRef)) := mkManager sample_files sample_policy.
Definition settled_state : ManagerState MemFiles (gmap str (list RuleRef)) :=
  (append_amendment_and_update initial_locals sample_home [lit "make"; lit "build"] sample_state).1.

Lemma accepted_amendment_settles_witness :
  ∃ r, requirement (manager_policy settled_state) build_request = Some r ∧ r = ReqSkip true None.
Proof.
  destruct (accepted_amendment_settles initial_locals mem_join build_request (components (lit "/bin/zsh")) false PosixCommands
    None [lit "make"; lit "build"] sample_home sample_state settled_state) as (_ & _ & r & Hr & _).
  - vm_compute. reflexivity.
  - exact build_asks.
  - vm_compute. reflexivity.
  - exists r. split; [exact Hr|]. vm_compute in Hr. by injection Hr as <-.
Defined.

(** A policy of two rules that allow: the model for which they do not count keeps the
    command in the sandbox, and proposes nothing. *)
Definition status_script : list str := [lit "/bin/bash"; lit "-lc"; lit "git status"].

Example status_bypasses : requirement sample_policy (sample_request status_script OnRequest None None Honor) = Some (ReqSkip true None).
Proof. vm_compute. reflexivity. Qed.

Lemma ignored_rules_keep_sandbox_witness :
  ∃ bypass_sandbox, bypass_sandbox = false ∧
    requirement sample_policy (sample_request status_script OnRequest None None IgnoreForCyberModel) = Some (ReqSkip bypass_sandbox None).
Proof.
  destruct (ignored_rules_keep_sandbox initial_locals mem_join sample_policy) as (_ & _ & _ & H).
  destruct (H (sample_request status_script OnRequest None None IgnoreForCyberModel) (components (lit "/bin/zsh")) false PosixCommands)
    as (r & Hr & Hp & Hb); [reflexivity|].
  assert (∃ bypass_sandbox, r = ReqSkip bypass_sandbox None) as [bypass_sandbox ->].
  { clear -Hr. vm_compute in Hr. injection Hr as <-. by eexists. }
  exists bypass_sandbox. split; [by eapply Hb|exact Hr].
Defined.

(** ** What modelling showed *)

(** The update looks whether the policy in use already allows the amendment, the request
    is judged by that policy under the environment's.  Where the environment lists the
    paths of an executable, an amendment its rules reach through another path is taken as
    allowed, nothing is added, and the same prompt comes back. *)
Definition git_push : list str := [lit "/usr/bin/git"; lit "push"].
Definition git_policy : Policy (gmap str (list RuleRef)) := added [lit "git"; lit "push"] policy_empty.
Definition git_environment : Policy (gmap str (list RuleRef)) :=
  set_host_executable_paths (lit "git") [components (lit "/opt/git/bin/git")] policy_empty.
Definition git_request := sample_request git_push UnlessTrusted (Some git_environment) None Honor.

Example accepted_amendment_asks_again :
  let s : ManagerState MemFiles (gmap str (list RuleRef)) := mkManager sample_files git_policy in
  let '(s', r) := append_amendment_and_update initial_locals sample_home git_push s in
  r = Ok tt ∧ requirement (manager_policy s) git_request = Some (NeedsApproval None (Some git_push)) ∧
  requirement (manager_policy s') git_request = Some (NeedsApproval None (Some git_push)).
Proof. vm_compute. done. Qed.

(** A rule of a later layer does not override one of an earlier layer: the strictest wins. *)
Example later_rule_does_not_override : ∃ reason,
  requirement (added [lit "rm"; lit "-i"] sample_policy)
    (sample_request [lit "/bin/bash"; lit "-lc"; lit "rm -i"] OnRequest None None Honor) = Some (ReqForbidden reason).
Proof. eexists. vm_compute. reflexivity. Qed.

(** One matching rule suppresses the proposal although the sandbox is not bypassed. *)
Example partly_ruled_stays_sandboxed :
  requirement sample_policy (sample_request build_script OnRequest None None Honor) = Some (ReqSkip false None) ∧
  requirement policy_empty (sample_request build_script OnRequest None None Honor) =
    Some (ReqSkip false (Some [lit "make"; lit "build"])).
Proof. vm_compute. done. Qed.
End ExecMem.
