(* ===== verification/Approvals.v ===== *)
(** * Approvals: asking, caching an answer, and choosing a sandbox
    ([core/src/tools/sandboxing.rs], [core/src/tools/approvals.rs], [core/src/command_canonicalization.rs],
    [core/src/safety.rs], [core/src/apply_patch.rs], [sandboxing/src/manager.rs])

    The decisions of a reviewer and what they mean for a tool, the answers kept for a
    session, the requirements and overrides of the sandbox, the sandbox of the platform, and
    the safety of a patch. *)
From S2P Require Import Prelude RustStr UnixPath Utf8Stream PatchErrors FsInterface Invocation PathUri FsPolicy PermProfile PolicyTransforms ShellScript DangerousCommand ExecApproval.

(** ** The keys of approvals ([command_canonicalization.rs]) *)

Definition CANONICAL_BASH_SCRIPT_PREFIX : str := lit "__codex_shell_script__".
Definition CANONICAL_POWERSHELL_SCRIPT_PREFIX : str := lit "__codex_powershell_script__".

Definition canonicalize_command_for_approval {T : SyntaxTree} (command : list str) : list str :=
  match parse_shell_lc_plain_commands command with
  | Some [single_command] => single_command
  | _ =>
      match extract_bash_command command with
      | Some (_, script) => [CANONICAL_BASH_SCRIPT_PREFIX; default [] (command !! 1); script]
      | None =>
          match extract_powershell_command command with
          | Some (_, script) => [CANONICAL_POWERSHELL_SCRIPT_PREFIX; script]
          | None => command
          end
      end
  end.

(** ** The answer of a reviewer *)

Inductive NetworkPolicyRuleAction := RuleAllow | RuleDeny.

(** [ReviewDecision]; the amendment is the prefix it allows. *)
Inductive ReviewDecision :=
| Approved
| ApprovedExecpolicyAmendment (proposed : list str)
| ApprovedForSession
| ApprovedMcpPolicyAmendment
| NetworkPolicyAmendment (host : str) (action : NetworkPolicyRuleAction)
| Denied (rejection : str)
| TimedOut
| Abort.

#[export] Instance NetworkPolicyRuleAction_eq_dec : EqDecision NetworkPolicyRuleAction.
Proof. solve_decision. Defined.
#[export] Instance ReviewDecision_eq_dec : EqDecision ReviewDecision.
Proof. solve_decision. Defined.

Inductive ApprovalResolutionSource := HookSource | GuardianSource | UserSource.

(** The errors of a tool.  Of the errors of the crate only a denial of the sandbox and an
    aborted turn matter here; [P] is the payload of a network denial. *)
Inductive CodexErr (P : Type) :=
| SandboxDenied (output : str) (network_policy_decision : option P)
| TurnAborted
| OtherCodexErr (text : str).
Arguments SandboxDenied {P}.
Arguments TurnAborted {P}.
Arguments OtherCodexErr {P}.

Inductive ToolError (P : Type) := Rejected (text : str) | Codex (err : CodexErr P).
Arguments Rejected {P}.
Arguments Codex {P}.

(** [ApprovalResolution::into_tool_result]; [timeout_message] is the guardian's. *)
Definition into_tool_result {P} (timeout_message : str) (decision : ReviewDecision) (source : ApprovalResolutionSource) :
    result (ToolError P) ReviewDecision :=
  match decision with
  | ApprovedMcpPolicyAmendment => Err (Rejected (lit "Error while requesting approval"))
  | NetworkPolicyAmendment _ RuleDeny =>
      Err (Rejected (match source with
                     | HookSource => lit "rejected by configuration"
                     | GuardianSource => lit "automatic approval review denied the action"
                     | UserSource => lit "rejected by user"
                     end))
  | Denied rejection => Err (Rejected rejection)
  | TimedOut => Err (Rejected timeout_message)
  | Abort => Err (Codex TurnAborted)
  | decision => Ok decision
  end.

(** ** Answers kept for the session *)

(** [ApprovalStore], and what the rest of the session changes. *)
Record ApprovalState (W : Type) := mkApprovals { approval_world : W; tool_approvals : gmap str ReviewDecision }.
Arguments mkApprovals {W}.
Arguments approval_world {W}.
Arguments tool_approvals {W}.

Section cached.
Context {K W : Type}.
(** [serde_json::to_string]. *)
Variable to_json : K → option str.
Implicit Types (s : ApprovalState W) (store : gmap str ReviewDecision) (key : K) (keys : list K).

Definition store_get store key : option ReviewDecision := k ← to_json key; store !! k.
Definition store_put key (value : ReviewDecision) store : gmap str ReviewDecision :=
  match to_json key with Some k => <[k := value]> store | None => store end.

Definition approved_for_session store key : bool := bool_decide (store_get store key = Some ApprovedForSession).

(** [fetch] asks, and meanwhile others may change the state. *)
Definition with_cached_approval keys (fetch : ApprovalState W → ApprovalState W * ReviewDecision) s :
    ApprovalState W * ReviewDecision :=
  match keys with
  | [] => fetch s
  | _ =>
      if forallb (approved_for_session (tool_approvals s)) keys then (s, ApprovedForSession)
      else
        let '(s, decision) := fetch s in
        (if bool_decide (decision = ApprovedForSession)
         then mkApprovals (approval_world s) (foldl (λ store key, store_put key ApprovedForSession store) (tool_approvals s) keys)
         else s, decision)
  end.
End cached.

(** ** Asking *)

(** What [Session::request_approval] uses: the hooks (a denial has its message), the guardian
    (who may leave it to the user), and the prompts of the user ([request_command_approval],
    [request_patch_approval], [request_mcp_tool_user_approval]). *)
Class Reviewers (W A C : Type) := {
  permission_hooks : A → C → W → W * option (result str unit);
  guardian_approval : A → C → W → W * option ReviewDecision;
  user_prompt : A → C → W → W * ReviewDecision;
  guardian_timeout_message : str;
}.

(** The actions, with what deciding on them uses; the keys of a command are beside the
    fingerprint of its policy.  [RequestPermissions] is put to the guardian directly and never
    comes here. *)
Inductive ApprovalAction (K : Type) :=
| ActExecCommand (cache_keys : list K)
| ActWriteStdin (stdin_permissions : SandboxPermissions)
| ActExecve
| ActApplyPatch (cache_keys : list K) (permissions_preapproved : bool)
| ActMcpToolCall
| ActNetworkAccess.
Arguments ActExecCommand {K}.
Arguments ActWriteStdin {K}.
Arguments ActExecve {K}.
Arguments ActApplyPatch {K}.
Arguments ActMcpToolCall {K}.
Arguments ActNetworkAccess {K}.

(** [turn_approval_policy] is that of the turn the review is for. *)
Record ApprovalContext (N : Type) := mkApprovalContext {
  turn_approval_policy : AskForApproval;
  strict_auto_review : bool;
  approval_reason : option str;
  retry_reason : option str;
  network_approval_context : option N;
}.
Arguments mkApprovalContext {N}.
Arguments turn_approval_policy {N}.
Arguments strict_auto_review {N}.
Arguments approval_reason {N}.
Arguments retry_reason {N}.
Arguments network_approval_context {N}.

Section asking.
Context {K N P W : Type}.
Context {R : Reviewers (ApprovalState W) (ApprovalAction K) (ApprovalContext N)}.
Variable to_json : K → option str.
Implicit Types (action : ApprovalAction K) (ctx : ApprovalContext N) (s : ApprovalState W).

Definition option_or {A} (o o' : option A) : option A := match o with Some a => Some a | None => o' end.

Definition request_user_approval action ctx s : ApprovalState W * ReviewDecision :=
  match action with
  | ActExecCommand cache_keys => with_cached_approval to_json cache_keys (user_prompt action ctx) s
  | ActApplyPatch cache_keys permissions_preapproved =>
      let reason := option_or (retry_reason ctx) (approval_reason ctx) in
      if permissions_preapproved && bool_decide (reason = None) then (s, Approved)
      else if bool_decide (reason ≠ None) then user_prompt action ctx s
      else with_cached_approval to_json cache_keys (user_prompt action ctx) s
  | ActWriteStdin _ | ActExecve | ActMcpToolCall | ActNetworkAccess => user_prompt action ctx s
  end.

(** Input of a process that exceeds its permissions, where the policy does not let it be asked for. *)
Definition stdin_rejection action ctx : option str :=
  match action with
  | ActWriteStdin stdin_permissions =>
      if requests_sandbox_override stdin_permissions
         && negb (strict_auto_review ctx && bool_decide (turn_approval_policy ctx = Never))
      then prompt_is_rejected_by_policy (turn_approval_policy ctx) false
      else None
  | _ => None
  end.

(** What is answered before the decision is turned into the result of a tool. *)
Definition early_result action (decision : ReviewDecision) (source : ApprovalResolutionSource) :
    option (result (ToolError P) ReviewDecision) :=
  match action, decision, source with
  | ActMcpToolCall, ApprovedMcpPolicyAmendment, _ => Some (Ok decision)
  | ActNetworkAccess, NetworkPolicyAmendment _ RuleDeny, _ => Some (Ok decision)
  | ActNetworkAccess, Abort, GuardianSource => Some (Err (Rejected (lit "automatic approval review was cancelled")))
  | _, _, _ => None
  end.

Definition request_approval action ctx : M (ApprovalState W) (ToolError P) ReviewDecision := λ s,
  match stdin_rejection action ctx with
  | Some reason => (s, Err (Rejected reason))
  | None =>
      let '(s, hook) := permission_hooks action ctx s in
      let '(s, (decision, source)) :=
        match hook with
        | Some (Ok _) => (s, (Approved, HookSource))
        | Some (Err message) => (s, (Denied message, HookSource))
        | None =>
            let '(s, guardian) := guardian_approval action ctx s in
            match guardian with
            | Some decision => (s, (decision, GuardianSource))
            | None => let '(s, decision) := request_user_approval action ctx s in (s, (decision, UserSource))
            end
        end in
      (s, default (into_tool_result guardian_timeout_message decision source) (early_result action decision source))
  end.
End asking.

(** ** Requirements and overrides *)

Inductive SandboxOverride := NoOverride | BypassSandboxFirstAttempt.

#[export] Instance SandboxOverride_eq_dec : EqDecision SandboxOverride.
Proof. solve_decision. Defined.

Definition should_bypass_approval (policy : AskForApproval) (already_approved : bool) : bool :=
  if already_approved then true else bool_decide (policy = Never).

(** The default of the trait, and the one of patches. *)
Definition wants_no_sandbox_approval (policy : AskForApproval) : bool :=
  match policy with UnlessTrusted => true | Never | OnRequest => false | Granular config => sandbox_approval config end.
Definition patch_wants_no_sandbox_approval (policy : AskForApproval) : bool :=
  match policy with Never => false | Granular config => sandbox_approval config | OnRequest | UnlessTrusted => true end.

Section requirements.
Context {U : Type} {UO : UrlOps U} {UC : UrlCoding}.
Implicit Types (p : FileSystemSandboxPolicy U) (profile : PermissionProfile U).

Definition default_exec_approval_requirement (policy : AskForApproval) p : ExecApprovalRequirement :=
  let needs_approval :=
    match policy with
    | Never => false
    | OnRequest | Granular _ => bool_decide (policy_kind p = Restricted)
    | UnlessTrusted => true
    end in
  let disallowed := match policy with Granular config => negb (sandbox_approval config) | _ => false end in
  if needs_approval && disallowed then ReqForbidden (lit "approval policy disallowed sandbox approval prompt")
  else if needs_approval then NeedsApproval None None
  else ReqSkip false None.

Definition unsandboxed_execution_allowed p : bool := negb (has_denied_read_restrictions p).

Definition sandbox_override_for_first_attempt (permissions : SandboxPermissions) (requirement : ExecApprovalRequirement) p :
    SandboxOverride :=
  if negb (unsandboxed_execution_allowed p) then NoOverride
  else if match requirement with ReqSkip true _ => true | _ => false end then BypassSandboxFirstAttempt
  else if requires_escalated_permissions permissions then BypassSandboxFirstAttempt
  else NoOverride.

Definition sandbox_permissions_preserving_denied_reads (permissions : SandboxPermissions) p : SandboxPermissions :=
  if requires_escalated_permissions permissions && negb (unsandboxed_execution_allowed p) then UseDefault else permissions.

Definition managed_network_for_sandbox_permissions {N} (network : option N) (permissions : SandboxPermissions) : option N :=
  if requires_escalated_permissions permissions then None else network.

Definition executor_windows_sandbox_level (level : WindowsSandboxLevel) (cwd : U) : WindowsSandboxLevel :=
  if bool_decide (level = LevelDisabled) && bool_decide (uri_convention cwd = Some Windows) then RestrictedToken else level.

(** ** The sandbox of the platform ([manager.rs]) *)

Inductive SandboxType := NoSandbox | MacosSeatbelt | LinuxSeccomp | WindowsRestrictedToken.
Inductive SandboxablePreference := Auto | Require | Forbid.
(** The targets [cfg!] tells apart. *)
Inductive TargetOs := Macos | Linux | WindowsOs | OtherOs.

Definition get_platform_sandbox (os : TargetOs) (windows_sandbox_enabled : bool) : option SandboxType :=
  match os with
  | Macos => Some MacosSeatbelt
  | Linux => Some LinuxSeccomp
  | WindowsOs => if windows_sandbox_enabled then Some WindowsRestrictedToken else None
  | OtherOs => None
  end.

Definition should_sandbox profile (pref : SandboxablePreference) (has_managed_network_requirements : bool) : bool :=
  match pref with
  | Forbid => false
  | Require => true
  | Auto =>
      let '(file_system_policy, network_policy) := to_runtime_permissions profile in
      should_require_platform_sandbox file_system_policy network_policy has_managed_network_requirements
  end.

Definition select_initial (os : TargetOs) profile (pref : SandboxablePreference) (level : WindowsSandboxLevel)
    (has_managed_network_requirements : bool) : SandboxType :=
  if should_sandbox profile pref has_managed_network_requirements
  then default NoSandbox (get_platform_sandbox os (negb (bool_decide (level = LevelDisabled))))
  else NoSandbox.

(** ** Patches ([safety.rs], [core/src/apply_patch.rs]) *)

Definition PATCH_REJECTED_OUTSIDE_PROJECT_REASON : str :=
  lit "writing outside of the project; rejected by user approval settings".
Definition PATCH_REJECTED_READ_ONLY_REASON : str :=
  lit "writing is blocked by read-only sandbox; rejected by user approval settings".

Inductive SafetyCheck := AutoApprove | AskUser | Reject (reason : str).
Inductive PatchSandboxRoute := ExecutorManaged | Platform (level : WindowsSandboxLevel).

(** The entries of the patch's map, in an order no result depends on. *)
Implicit Types (changes : list (U * ApplyPatchFileChange U)) (ctx : FileSystemSandboxPolicyContext U).

Definition is_write_patch_constrained_to_writable_paths changes p ctx : bool :=
  if has_full_disk_write_access_with_context p ctx then true
  else forallb (λ '(path, change),
         match change with
         | Change_Add _ | Change_Delete _ => can_write_path p path ctx
         | Change_Update _ move_path _ =>
             can_write_path p path ctx
             && match move_path with Some dest => can_write_path p dest ctx | None => true end
         end) changes.

Definition patch_rejection_reason profile p ctx : str :=
  let has_no_writable_roots := negb (has_configured_writable_roots p ctx) in
  match profile with
  | Managed _ _ =>
      if negb (has_full_disk_write_access_with_context p ctx) && has_no_writable_roots
      then PATCH_REJECTED_READ_ONLY_REASON else PATCH_REJECTED_OUTSIDE_PROJECT_REASON
  | Disabled | External _ => PATCH_REJECTED_OUTSIDE_PROJECT_REASON
  end.

Definition assess_patch_safety (os : TargetOs) changes (policy : AskForApproval) profile p ctx (route : PatchSandboxRoute) :
    SafetyCheck :=
  if match changes with [] => true | _ => false end then Reject (lit "empty patch")
  else
    match policy with
    | UnlessTrusted => AskUser
    | Never | OnRequest | Granular _ =>
        let rejects_sandbox_approval :=
          bool_decide (policy = Never) || match policy with Granular config => negb (sandbox_approval config) | _ => false end in
        let sandbox_available :=
          match route with
          | ExecutorManaged => true
          | Platform level => bool_decide (is_Some (get_platform_sandbox os (negb (bool_decide (level = LevelDisabled)))))
          end in
        if is_write_patch_constrained_to_writable_paths changes p ctx
           && (match profile with Disabled | External _ => true | Managed _ _ => false end || sandbox_available)
        then AutoApprove
        else if rejects_sandbox_approval then Reject (patch_rejection_reason profile p ctx)
        else AskUser
    end.

(** The action is kept beside the result. *)
Record ApplyPatchRuntimeInvocation := mkRuntimeInvocation {
  auto_approved : bool;
  invocation_requirement : ExecApprovalRequirement;
}.

Definition prepare_apply_patch (os : TargetOs) (policy : AskForApproval) profile p ctx (route : PatchSandboxRoute) changes :
    result str ApplyPatchRuntimeInvocation :=
  match assess_patch_safety os changes policy profile p ctx route with
  | AutoApprove => Ok (mkRuntimeInvocation true (ReqSkip false None))
  | AskUser => Ok (mkRuntimeInvocation false (NeedsApproval None None))
  | Reject reason => Err (lit "patch rejected: " ++ reason)
  end.
End requirements.

(** * What approvals mean *)

(** ** Answers kept for the session *)

Section history.
Context {K : Type}.
Variable to_json : K → option str.
Implicit Types (h : list (list K * bool * ReviewDecision)) (store : gmap str ReviewDecision) (keys : list K).

(** A request whose reviewer would say [d]; the world tells whether the reviewer was asked. *)
Definition request keys (d : ReviewDecision) store : ApprovalState bool * ReviewDecision :=
  with_cached_approval to_json keys (λ s, (mkApprovals true (tool_approvals s), d)) (mkApprovals false store).

(** The requests of a session: their keys, whether the reviewer was asked, and the answer. *)
Inductive history : list (list K * bool * ReviewDecision) → gmap str ReviewDecision → Prop :=
| history_start : history [] ∅
| history_request h store keys d asked store' d' : history h store →
    request keys d store = (mkApprovals asked store', d') → history (h ++ [(keys, asked, d')]) store'.

(** A key that was among those a reviewer approved for the session. *)
Definition covered h (k : str) : Prop :=
  ∃ keys key, (keys, true, ApprovedForSession) ∈ h ∧ key ∈ keys ∧ to_json key = Some k.

Lemma foldl_put keys store k d :
  foldl (λ store key, store_put to_json key ApprovedForSession store) store keys !! k = Some d ↔
  (d = ApprovedForSession ∧ ∃ key, key ∈ keys ∧ to_json key = Some k) ∨
  store !! k = Some d ∧ ¬ ∃ key, key ∈ keys ∧ to_json key = Some k.
Proof.
  revert store. induction keys as [|key keys IH]; intros store; simpl.
  - setoid_rewrite elem_of_nil. naive_solver.
  - rewrite IH. setoid_rewrite elem_of_cons. unfold store_put. destruct (to_json key) as [k'|] eqn:Hk; [|naive_solver].
    destruct (decide (k' = k)) as [->|Hne].
    + rewrite lookup_insert_eq. destruct (decide (Exists (λ key, to_json key = Some k) keys)) as [He|He].
      * apply Exists_exists in He. naive_solver.
      * rewrite Exists_exists in He. naive_solver.
    + rewrite lookup_insert_ne by done. naive_solver.
Qed.

Lemma history_store h store : history h store → ∀ k d, store !! k = Some d ↔ d = ApprovedForSession ∧ covered h k.
Proof.
  unfold covered. induction 1 as [|h store keys d asked store' d' _ IH Hreq]; intros k x.
  { rewrite lookup_empty. setoid_rewrite elem_of_nil. naive_solver. }
  setoid_rewrite elem_of_app. setoid_rewrite list_elem_of_singleton. unfold request, with_cached_approval in Hreq.
  destruct keys as [|key0 keys0] eqn:Hkeys.
  { injection Hreq as <- <- <-. rewrite IH. split; [naive_solver|].
    intros (-> & keys' & key & [?|[= -> _]] & Hin & ?); [naive_solver|by apply elem_of_nil in Hin]. }
  rewrite <- Hkeys in *. clear Hkeys. destruct (forallb _ keys).
  { injection Hreq as <- <- <-. rewrite IH. naive_solver. }
  case_bool_decide as Hd; injection Hreq as <- <- <-; simpl.
  - subst d. rewrite foldl_put, IH.
    destruct (decide (Exists (λ key, to_json key = Some k) keys)) as [He|He]; rewrite Exists_exists in He; naive_solver.
  - rewrite IH. naive_solver.
Qed.

(** C22.  In every session a request is answered without asking exactly when it has keys and every
    one of them was among the keys of an earlier request that was asked and that the
    reviewer approved for the session; any other request is asked and gets the reviewer's
    own answer. *)
Theorem cached_approval_exact h store keys d asked store' d' : history h store →
  request keys d store = (mkApprovals asked store', d') →
  (asked = false ↔ keys ≠ [] ∧ ∀ key, key ∈ keys → ∃ k, to_json key = Some k ∧ covered h k) ∧
  d' = if asked then d else ApprovedForSession.
Proof.
  intros Hh Hreq. pose proof (history_store _ _ Hh) as Hs. clear Hh. unfold request, with_cached_approval in Hreq.
  destruct keys as [|key0 keys0] eqn:Hkeys; [injection Hreq as <- <- <-; naive_solver|].
  rewrite <- Hkeys in *. assert (keys ≠ []) as Hne by (by rewrite Hkeys). clear Hkeys.
  assert (forallb (approved_for_session to_json store) keys = true ↔
    ∀ key, key ∈ keys → ∃ k, to_json key = Some k ∧ covered h k) as Hall.
  { rewrite forallb_forall. setoid_rewrite <- list_elem_of_In. unfold approved_for_session, store_get.
    assert (∀ key, bool_decide ((to_json key ≫= λ k, store !! k) = Some ApprovedForSession) = true ↔
      ∃ k, to_json key = Some k ∧ covered h k) as Hkey; [|naive_solver].
    intros key. rewrite bool_decide_eq_true, bind_Some. setoid_rewrite Hs. naive_solver. }
  simpl in Hreq. destruct (forallb _ keys); [injection Hreq as <- <- <-; naive_solver|].
  case_bool_decide; injection Hreq as <- <- <-; naive_solver.
Qed.
End history.

(** One command approved for the session, then one of its keys again. *)
Definition asked_once : list (list str * bool * ReviewDecision) := [([lit "ls"; lit "cat"], true, ApprovedForSession)].

Lemma cached_approval_exact_witness :
  ∃ store, (request Some [lit "cat"] (Denied []) store).2 = ApprovedForSession.
Proof.
  set (store := tool_approvals (request Some [lit "ls"; lit "cat"] ApprovedForSession ∅).1).
  assert (history Some asked_once store) as Hh.
  { refine (history_request Some [] ∅ [lit "ls"; lit "cat"] ApprovedForSession true store ApprovedForSession _ _); [constructor|reflexivity]. }
  exists store. destruct (request Some [lit "cat"] (Denied []) store) as [[asked store'] d'] eqn:Hr.
  destruct (cached_approval_exact Some asked_once store [lit "cat"] (Denied []) asked store' d' Hh Hr) as [Ha ->].
  assert (asked = false) as ->; [|reflexivity]. vm_compute in Hr. by injection Hr.
Defined.

(** ** Patches *)

Section patches.
Context {U : Type} {UO : UrlOps U} {UC : UrlCoding}.
Implicit Types (p : FileSystemSandboxPolicy U) (profile : PermissionProfile U) (ctx : FileSystemSandboxPolicyContext U)
  (changes : list (U * ApplyPatchFileChange U)).

(** The paths a patch writes. *)
Definition patch_writes changes (q : U) : Prop :=
  ∃ path change, (path, change) ∈ changes ∧
    (q = path ∨ ∃ unified_diff new_content, change = Change_Update unified_diff (Some q) new_content).

Lemma constrained_spec changes p ctx :
  is_write_patch_constrained_to_writable_paths changes p ctx = true ↔
  has_full_disk_write_access_with_context p ctx = true ∨ ∀ q, patch_writes changes q → can_write_path p q ctx = true.
Proof.
  unfold is_write_patch_constrained_to_writable_paths, patch_writes.
  destruct (has_full_disk_write_access_with_context p ctx); [naive_solver|].
  rewrite forallb_forall. setoid_rewrite <- list_elem_of_In. split.
  - intros H. right. intros q (path & change & Hin & Hq). specialize (H _ Hin). simpl in H.
    destruct Hq as [->|(ud & nc & ->)]; [|by apply andb_true_iff in H as [_ H]].
    destruct change; [done..|]. by apply andb_true_iff in H as [H _].
  - intros [?|H]; [done|]. intros [path change] Hin. destruct change as [| |ud mv nc]; [apply H; naive_solver..|].
    apply andb_true_iff. split; [apply H; naive_solver|]. destruct mv; [apply H; naive_solver|done].
Qed.

(** C20.  A patch is applied without asking only if it is not empty, the settings do not ask for
    everything, every path it writes, moves included, is writable under the policy (or the
    whole disk is), and the sandbox it is still run in exists or the profile has none of its
    own; it is never run outside the sandbox on that account.  Settings that refuse to ask
    are never answered by asking, and a patch is refused only for being empty or by them. *)
Theorem patch_approval_confined os policy profile p ctx route changes :
  match prepare_apply_patch os policy profile p ctx route changes with
  | Ok i =>
      changes ≠ [] ∧ (∀ bypass_sandbox proposed, invocation_requirement i = ReqSkip bypass_sandbox proposed → bypass_sandbox = false) ∧
      if auto_approved i then
        policy ≠ UnlessTrusted ∧
        (has_full_disk_write_access_with_context p ctx = true ∨ ∀ q, patch_writes changes q → can_write_path p q ctx = true) ∧
        ((∀ fs net, profile ≠ Managed fs net) ∨ route = ExecutorManaged ∨
         ∃ level, route = Platform level ∧ is_Some (get_platform_sandbox os (negb (bool_decide (level = LevelDisabled)))))
      else (∃ reason proposed, invocation_requirement i = NeedsApproval reason proposed) ∧ policy ≠ Never ∧
        (∀ config, policy = Granular config → sandbox_approval config = true)
  | Err _ => changes = [] ∨ policy = Never ∨ ∃ config, policy = Granular config ∧ sandbox_approval config = false
  end.
Proof.
  unfold prepare_apply_patch, assess_patch_safety. destruct changes as [|c changes]; [by left|].
  set (refuses := bool_decide (policy = Never) || match policy with Granular config => negb (sandbox_approval config) | _ => false end).
  set (available := match route with ExecutorManaged => true | Platform _ => _ end).
  assert (available = true → route = ExecutorManaged ∨
    ∃ level, route = Platform level ∧ is_Some (get_platform_sandbox os (negb (bool_decide (level = LevelDisabled))))) as Hav.
  { unfold available. destruct route; [by left|]. case_bool_decide; naive_solver. }
  assert (refuses = true → policy = Never ∨ ∃ config, policy = Granular config ∧ sandbox_approval config = false) as Hr.
  { unfold refuses. destruct policy as [| |config|]; simpl; try done; [|by left].
    destruct (sandbox_approval config) eqn:?; [done|]. right. by exists config. }
  assert (refuses = false → policy ≠ Never ∧ ∀ config, policy = Granular config → sandbox_approval config = true) as Hn.
  { unfold refuses. intros H. split; [by intros ->|]. intros config ->. simpl in H. by destruct (sandbox_approval config). }
  destruct (decide (policy = UnlessTrusted)) as [->|Ht].
  { simpl. split_and!; [done..| |done|done]. by do 2 eexists. }
  destruct (is_write_patch_constrained_to_writable_paths (c :: changes) p ctx && _) eqn:Hc.
  - apply andb_true_iff in Hc as [Hc Hp]. rewrite constrained_spec in Hc. apply orb_true_iff in Hp.
    assert ((∀ fs net, profile ≠ Managed fs net) ∨ available = true) as Hp'
      by (destruct Hp; [left; by destruct profile|by right]).
    destruct policy; [done|..]; (split_and!; [done|by intros ? ? [= <-]|]); naive_solver.
  - destruct refuses.
    + specialize (Hr eq_refl). destruct policy; naive_solver.
    + specialize (Hn eq_refl). destruct policy; [done|..]; (split_and!; [done|done|]); simpl; naive_solver.
Qed.
End patches.
