(* ===== verification/Orchestrator.v ===== *)
(** * Orchestrator: approval, sandbox, attempt, retry
    ([core/src/tools/orchestrator.rs], [core/src/network_policy_decision.rs])

    One run of a tool: what the requirement asks is asked first, the first attempt runs
    under the sandbox the policy and the override select, and a denial by the sandbox may
    be retried.  The tool, the reviewers and the network approvals are interfaces; the
    approvals granted and the attempts made are recorded in their order.  Telemetry is not here. *)
From S2P Require Import Prelude RustStr UnixPath Utf8Stream PatchErrors FsInterface PathUri PathMem FsPolicy FsMem PermProfile PolicyTransforms ShellScript DangerousCommand NetDecide ExecApproval Approvals.

(** ** The payload of a network denial ([network_policy_decision.rs]) *)

Inductive NetworkApprovalProtocol := ApprovalHttp | ApprovalHttps | ApprovalSocks5Tcp | ApprovalSocks5Udp.

Record NetworkPolicyDecisionPayload := mkPayload {
  payload_decision : NetworkPolicyDecision;
  payload_source : NetworkDecisionSource;
  payload_protocol : option NetworkApprovalProtocol;
  payload_host : option str;
  payload_reason : option str;
  payload_port : option N;
}.

Record NetworkApprovalContext := mkNetworkContext { context_host : str; context_protocol : NetworkApprovalProtocol }.

Definition is_ask_from_decider (payload : NetworkPolicyDecisionPayload) : bool :=
  match payload_decision payload, payload_source payload with PolicyAsk, Decider => true | _, _ => false end.

Definition network_approval_context_from_payload (payload : NetworkPolicyDecisionPayload) : option NetworkApprovalContext :=
  if negb (is_ask_from_decider payload) then None
  else
    protocol ← payload_protocol payload;
    host ← trim <$> payload_host payload;
    if bool_decide (host = []) then None else Some (mkNetworkContext host protocol).

(** ** Interfaces *)

Abbreviation Error := (ToolError NetworkPolicyDecisionPayload) (only parsing).
Abbreviation AskContext := (ApprovalContext NetworkApprovalContext) (only parsing).

(** What an attempt runs under. *)
Record SandboxAttempt (U Active : Type) := mkAttempt {
  sandbox : SandboxType;
  sandbox_requested : bool;
  permissions : PermissionProfile U;
  exec_server_permissions : PermissionProfile U;
  enforce_managed_network : bool;
  sandbox_cwd : U;
  attempt_roots : list U;
  codex_linux_sandbox_exe : option Path;
  use_legacy_landlock : bool;
  attempt_windows_level : WindowsSandboxLevel;
  private_desktop : bool;
  (** The token that cancels it and the proxy it uses. *)
  network_approval : option Active;
}.
Arguments mkAttempt {U Active}.
Arguments sandbox {U Active}.
Arguments sandbox_requested {U Active}.
Arguments permissions {U Active}.
Arguments exec_server_permissions {U Active}.
Arguments enforce_managed_network {U Active}.
Arguments sandbox_cwd {U Active}.
Arguments attempt_roots {U Active}.
Arguments codex_linux_sandbox_exe {U Active}.
Arguments use_legacy_landlock {U Active}.
Arguments attempt_windows_level {U Active}.
Arguments private_desktop {U Active}.
Arguments network_approval {U Active}.

Section with_approval.
Context {U Active : Type}.

(** The copy [run_attempt] makes. *)
Definition with_network_approval (a : SandboxAttempt U Active) (active : option Active) : SandboxAttempt U Active :=
  mkAttempt (sandbox a) (sandbox_requested a) (permissions a) (exec_server_permissions a) (enforce_managed_network a)
    (sandbox_cwd a) (attempt_roots a) (codex_linux_sandbox_exe a) (use_legacy_landlock a) (attempt_windows_level a)
    (private_desktop a) active.
End with_approval.

(** [ToolRuntime], with [Approvable] and [Sandboxable]: a tool whose requests are [Rq] and whose
    state and surroundings are in [W]. *)
Class ToolRuntime (W U K Rq Out Spec Active : Type) := {
  tool_sandbox_permissions : Rq → SandboxPermissions;
  exec_approval_requirement : Rq → option ExecApprovalRequirement;
  tool_wants_no_sandbox_approval : AskForApproval → bool;
  approval_action : Rq → result str (ApprovalAction K);
  sandbox_preference : SandboxablePreference;
  escalate_on_failure : bool;
  uses_executor_managed_process_sandbox : Rq → bool;
  network_approval_spec : Rq → W → option Spec;
  spec_additional_permissions : Spec → option (AdditionalPermissionProfile U);
  tool_sandbox_cwd : Rq → option U;
  tool_run : Rq → SandboxAttempt U Active → M W Error Out;
}.

(** Both implementations of the trait do. *)
Class ToolLaws {W U K Rq Out Spec Active} (Tool : ToolRuntime W U K Rq Out Spec Active) := {
  never_wants : tool_wants_no_sandbox_approval Never = false;
}.

(** The approvals of network access of an attempt; the errors of beginning one are rejections
    and I/O errors. *)
Inductive BeginError := BeginRejected (text : str) | BeginIo (text : str).
Definition begin_error (e : BeginError) : Error :=
  match e with BeginRejected text => Rejected text | BeginIo text => Codex (OtherCodexErr text) end.

Class NetworkApprovals (W Spec Active Deferred : Type) := {
  begin_network_approval : bool → option Spec → M W BeginError (option Active);
  into_deferred : Active → option Deferred;
  (** The rejection a call ends with, if any. *)
  finish_deferred : Deferred → W → W * option str;
}.

(** The settings of the step and of the environment the tool runs in; [turn_policy] is the
    approval policy of the turn. *)
Record StepSettings (U : Type) := mkSettings {
  approval_policy : AskForApproval;
  turn_policy : AskForApproval;
  strict_review : bool;
  owner_network_policy : bool;
  env_permission_profile : PermissionProfile U;
  env_workspace_roots : list U;
  env_cwd : U;
  env_windows_level : WindowsSandboxLevel;
  env_legacy_landlock : bool;
  env_private_desktop : bool;
  (** Whether the controller's network is configured and enabled, and whether the turn has one. *)
  controller_network_enabled : option bool;
  turn_network : bool;
  linux_sandbox_exe : option Path;
  target : TargetOs;
}.
Arguments approval_policy {U}.
Arguments turn_policy {U}.
Arguments strict_review {U}.
Arguments owner_network_policy {U}.
Arguments env_permission_profile {U}.
Arguments env_workspace_roots {U}.
Arguments env_cwd {U}.
Arguments env_windows_level {U}.
Arguments env_legacy_landlock {U}.
Arguments env_private_desktop {U}.
Arguments controller_network_enabled {U}.
Arguments turn_network {U}.
Arguments linux_sandbox_exe {U}.
Arguments target {U}.

Section run.
Context {U : Type} {UO : UrlOps U} {UC : UrlCoding} {PG : FsDeny.PathGlobs}.
Context {K W Rq Out Spec Active Deferred : Type}.
Context {R : Reviewers (ApprovalState W) (ApprovalAction K) AskContext}.
Context {Tool : ToolRuntime (ApprovalState W) U K Rq Out Spec Active}.
Context {Net : NetworkApprovals (ApprovalState W) Spec Active Deferred}.
Variable to_json : K → option str.
Variable settings : StepSettings U.
Implicit Types (req : Rq) (profile : PermissionProfile U) (p : FileSystemSandboxPolicy U).

(** An approval that was granted, and an attempt with whether the sandbox denied it. *)
Inductive Event := Granted (ctx : AskContext) | Ran (a : SandboxAttempt U Active) (denied : bool).

Record RunState := mkRun { session : ApprovalState W; events : list Event }.

Definition record (e : Event) (s : RunState) : RunState := mkRun (session s) (events s ++ [e]).
Definition on_session {E A} (m : M (ApprovalState W) E A) : M RunState E A := λ s,
  let '(w, r) := m (session s) in (mkRun w (events s), r).

(** ** Approval *)

Definition ask req (ctx : AskContext) : M RunState Error unit :=
  action ← lift (map_err (λ e, Rejected (lit "could not prepare approval action: " ++ e)) (approval_action req));
  _ ← on_session (request_approval to_json action ctx);
  modify (record (Granted ctx)).

Definition ask_context (reason retry : option str) (network : option NetworkApprovalContext) : AskContext :=
  mkApprovalContext (turn_policy settings) (strict_review settings) reason retry network.

Definition approve req (requirement : ExecApprovalRequirement) : M RunState Error bool :=
  match requirement with
  | ReqSkip _ _ =>
      if strict_review settings then _ ← ask req (ask_context None None None); mret true else mret false
  | ReqForbidden reason => throw (Rejected reason)
  | NeedsApproval reason _ => _ ← ask req (ask_context reason None None); mret true
  end.

(** ** An attempt *)

Definition is_sandbox_denied {A} (r : result Error A) : bool :=
  match r with Err (Codex (SandboxDenied _ _)) => true | _ => false end.

Definition run_attempt req (attempt : SandboxAttempt U Active) (spec : option Spec) :
    M RunState Error (Out * option Deferred) := λ s,
  match on_session (begin_network_approval (enforce_managed_network attempt) spec) s with
  | (s, Err e) => (s, Err (begin_error e))
  | (s, Ok active) =>
      let attempt := with_network_approval attempt active in
      let '(s, run_result) := on_session (tool_run req attempt) s in
      let s := record (Ran attempt (is_sandbox_denied run_result)) s in
      match run_result, active with
      | Ok out, None => (s, Ok (out, None))
      | Ok out, Some active => (s, Ok (out, into_deferred active))
      | Err e, None => (s, Err e)
      | Err e, Some active =>
          match into_deferred active with
          | None => (s, Err e)
          | Some deferred =>
              let '(w, rejection) := finish_deferred deferred (session s) in
              (mkRun w (events s), Err (match rejection with Some text => Rejected text | None => e end))
          end
      end
  end.

Definition managed_network_active (spec : option Spec) : bool :=
  if owner_network_policy settings then
    bool_decide (controller_network_enabled settings = Some true)
    || match spec with
       | Some spec =>
           net_is_enabled (effective_network_sandbox_policy (network_sandbox_policy (env_permission_profile settings))
                             (spec_additional_permissions spec))
       | None => false
       end
  else turn_network settings.

Definition attempt_of profile req (requested managed : bool) (exe : option Path) : SandboxAttempt U Active :=
  mkAttempt
    (if requested && negb (uses_executor_managed_process_sandbox req)
     then select_initial (target settings) profile sandbox_preference (env_windows_level settings) managed
     else NoSandbox)
    requested profile (env_permission_profile settings) managed
    (default (env_cwd settings) (tool_sandbox_cwd req)) (env_workspace_roots settings) exe
    (env_legacy_landlock settings) (env_windows_level settings) (env_private_desktop settings) None.

(** ** The retry *)

Definition is_needs_approval (r : ExecApprovalRequirement) : bool := match r with NeedsApproval _ _ => true | _ => false end.

(** Whether a denial may be retried. *)
Definition may_retry p (unsandboxed_allowed : bool) (decision : option NetworkPolicyDecisionPayload)
    (network : option NetworkApprovalContext) : bool :=
  negb (bool_decide (is_Some decision) && bool_decide (network = None))
  && escalate_on_failure
  && (tool_wants_no_sandbox_approval (approval_policy settings)
      || bool_decide (approval_policy settings = OnRequest) && bool_decide (network ≠ None)
         && is_needs_approval (default_exec_approval_requirement (approval_policy settings) p))
  && (unsandboxed_allowed || bool_decide (network ≠ None)).

Definition retry_text (network : option NetworkApprovalContext) : str :=
  match network with
  | Some context => lit "Network access to " ++ [34%N] ++ context_host context ++ [34%N] ++ lit " is blocked by policy."
  | None => lit "command failed; retry without sandbox?"
  end.

Definition retry profile req (requirement : ExecApprovalRequirement) (unsandboxed_allowed managed already_approved : bool)
    (network : option NetworkApprovalContext) : M RunState Error (Out * option Deferred) :=
  let bypass_retry_approval :=
    negb (strict_review settings) && should_bypass_approval (approval_policy settings) already_approved
    && bool_decide (network = None) in
  _ ← (if bypass_retry_approval then mret tt
       else
         let reason := match requirement with NeedsApproval reason _ => reason | _ => None end in
         ask req (ask_context reason (Some (retry_text network)) network));
  let retry_sandbox_requested := negb unsandboxed_allowed && should_sandbox profile sandbox_preference managed in
  let exe := if unsandboxed_allowed then None else linux_sandbox_exe settings in
  s ← get;
  run_attempt req (attempt_of profile req retry_sandbox_requested managed exe) (network_approval_spec req (session s)).

(** ** The run *)

Definition after_approval profile req (requirement : ExecApprovalRequirement) (already_approved : bool) :
    M RunState Error (Out * option Deferred) := λ s,
  let p := file_system_sandbox_policy profile in
  let unsandboxed_allowed := negb (owner_network_policy settings) && unsandboxed_execution_allowed p in
  let sandbox_override :=
    if unsandboxed_allowed then sandbox_override_for_first_attempt (tool_sandbox_permissions req) requirement p
    else NoOverride in
  let spec := network_approval_spec req (session s) in
  let managed := managed_network_active spec in
  let requested :=
    match sandbox_override with
    | BypassSandboxFirstAttempt => false
    | NoOverride => should_sandbox profile sandbox_preference managed
    end in
  let '(s, first_result) :=
    run_attempt req (attempt_of profile req requested managed (linux_sandbox_exe settings)) spec s in
  match first_result with
  | Err (Codex (SandboxDenied _ decision)) =>
      let network := if managed then decision ≫= network_approval_context_from_payload else None in
      if may_retry p unsandboxed_allowed decision network
      then retry profile req requirement unsandboxed_allowed managed already_approved network s
      else (s, first_result)
  | _ => (s, first_result)
  end.

(** [None] is the [unreachable!] of a profile that cannot be materialized. *)
Definition run_profile req : option (PermissionProfile U) :=
  if uses_executor_managed_process_sandbox req then Some (env_permission_profile settings)
  else materialize_profile (env_permission_profile settings) (env_workspace_roots settings).

Definition requirement_of profile req : ExecApprovalRequirement :=
  default (default_exec_approval_requirement (approval_policy settings) (file_system_sandbox_policy profile))
    (exec_approval_requirement req).

Definition run req (s : RunState) : option (RunState * result Error (Out * option Deferred)) :=
  if owner_network_policy settings && requires_escalated_permissions (tool_sandbox_permissions req)
  then Some (s, Err (Rejected (lit "attachment-owned network policy cannot be bypassed by sandbox escalation")))
  else
    profile ← run_profile req;
    let requirement := requirement_of profile req in
    Some ((already_approved ← approve req requirement; after_approval profile req requirement already_approved) s).
End run.

(** * What a run does *)

Section facts.
Context {U : Type} {UO : UrlOps U} {UC : UrlCoding} {PG : FsDeny.PathGlobs}.
Context {K W Rq Out Spec Active Deferred : Type}.
Context {R : Reviewers (ApprovalState W) (ApprovalAction K) AskContext}.
Context {Tool : ToolRuntime (ApprovalState W) U K Rq Out Spec Active}.
Context {Net : NetworkApprovals (ApprovalState W) Spec Active Deferred}.
Variable to_json : K → option str.
Variable settings : StepSettings U.
Implicit Types (req : Rq) (profile : PermissionProfile U) (s : RunState (U := U) (W := W) (Active := Active))
  (requirement : ExecApprovalRequirement) (a : SandboxAttempt U Active).

Lemma on_session_events {E A} (m : M (ApprovalState W) E A) s s' r : on_session m s = (s', r) → events s' = events s.
Proof. unfold on_session. destruct (m (session s)). by intros [= <- _]. Qed.

Lemma ask_events req ctx s s' r : ask to_json req ctx s = (s', r) →
  match r with Ok _ => events s' = events s ++ [Granted ctx] | Err _ => events s' = events s end.
Proof.
  unfold ask, lift, map_err. destruct (approval_action req) as [action|e]; [|by intros [= <- <-]].
  unfold mbind, M_bind, modify. destruct (on_session _ s) as [s1 [d|e]] eqn:H; apply on_session_events in H.
  - intros [= <- <-]. simpl. by rewrite H.
  - by intros [= <- <-].
Qed.

Lemma approve_events req requirement s s' r : approve to_json settings req requirement s = (s', r) →
  match r with
  | Ok already_approved =>
      (∀ reason, requirement ≠ ReqForbidden reason) ∧
      if already_approved then ∃ ctx, events s' = events s ++ [Granted ctx]
      else events s' = events s ∧ strict_review settings = false ∧ ∃ bypass proposed, requirement = ReqSkip bypass proposed
  | Err _ => events s' = events s
  end.
Proof.
  assert (∀ ctx, (_ ← ask to_json req ctx; mret true) s = (s', r) →
    match r with Ok b => b = true ∧ ∃ ctx, events s' = events s ++ [Granted ctx] | Err _ => events s' = events s end) as Hask.
  { intros ctx. unfold mbind, M_bind. destruct (ask to_json req ctx s) as [s1 [u|e]] eqn:H; apply ask_events in H.
    - intros [= <- <-]. split; [done|]. by exists ctx.
    - by intros [= <- <-]. }
  destruct requirement as [bypass proposed|reason proposed|reason]; simpl.
  - destruct (strict_review settings) eqn:Hs.
    + intros H%Hask. destruct r as [b|e]; [|done]. destruct H as [-> H]. by split.
    + intros [= <- <-]. split; [done|]. split_and!; [done..|]. by exists bypass, proposed.
  - intros H%Hask. destruct r as [b|e]; [|done]. destruct H as [-> H]. by split.
  - by intros [= <- <-].
Qed.

(** An attempt is made once, unless its network approval cannot begin. *)
Lemma run_attempt_events req a spec s s' r : run_attempt req a spec s = (s', r) →
  (events s' = events s ∧ is_sandbox_denied r = false) ∨
  ∃ active d, events s' = events s ++ [Ran (with_network_approval a active) d] ∧ (is_sandbox_denied r = true → d = true).
Proof.
  unfold run_attempt. destruct (on_session (begin_network_approval _ spec) s) as [s1 [active|e]] eqn:Hb; apply on_session_events in Hb.
  2: { intros [= <- <-]. left. split; [done|]. by destruct e. }
  destruct (on_session (tool_run req _) s1) as [s2 run_result] eqn:Hr. apply on_session_events in Hr.
  intros H. right. exists active, (is_sandbox_denied run_result).
  destruct run_result as [out|e], active as [active|]; [| | |].
  - injection H as <- <-. simpl. by rewrite Hr, Hb.
  - injection H as <- <-. simpl. by rewrite Hr, Hb.
  - destruct (into_deferred active) as [deferred|]; [|injection H as <- <-; simpl; by rewrite Hr, Hb].
    destruct (finish_deferred deferred _) as [w rejection]. injection H as <- <-. simpl. rewrite Hr, Hb. split; [done|].
    by destruct rejection.
  - injection H as <- <-. simpl. by rewrite Hr, Hb.
Qed.

(** ** The course of a run *)

(** What an attempt is made under.  Its profile is that of the run; the directory, the roots
    and the levels are those of the settings.  A sandbox is requested only where the policy
    asks for one, and one the policy asks for is left only where leaving it loses nothing.  A requested one is the
    platform's own, unless the executor brings its own; otherwise there is none. *)
Definition runs_under profile req a : Prop :=
  (permissions a = profile ∧ exec_server_permissions a = env_permission_profile settings ∧
   sandbox_cwd a = default (env_cwd settings) (tool_sandbox_cwd req) ∧ attempt_roots a = env_workspace_roots settings ∧
   use_legacy_landlock a = env_legacy_landlock settings ∧ attempt_windows_level a = env_windows_level settings ∧
   private_desktop a = env_private_desktop settings) ∧
  (∃ w, enforce_managed_network a = managed_network_active settings (network_approval_spec req w)) ∧
  (sandbox_requested a = true → codex_linux_sandbox_exe a = linux_sandbox_exe settings ∧
   should_sandbox profile sandbox_preference (enforce_managed_network a) = true) ∧
  (sandbox_requested a = false → should_sandbox profile sandbox_preference (enforce_managed_network a) = true →
   has_denied_read_restrictions (file_system_sandbox_policy profile) = false ∧ owner_network_policy settings = false) ∧
  (sandbox_requested a = true → uses_executor_managed_process_sandbox req = false →
   sandbox a = default NoSandbox (get_platform_sandbox (target settings) (negb (bool_decide (env_windows_level settings = LevelDisabled))))) ∧
  (sandbox_requested a = false ∨ uses_executor_managed_process_sandbox req = true → sandbox a = NoSandbox).

(** The approvals before the first attempt. *)
Definition may_start requirement (asked : list (Event (U := U) (Active := Active))) : Prop :=
  (∀ reason, requirement ≠ ReqForbidden reason) ∧
  (asked = [] ∧ strict_review settings = false ∧ (∃ bypass proposed, requirement = ReqSkip bypass proposed) ∨
   ∃ ctx, asked = [Granted ctx]).

(** The approvals before the retry: a new one for it, or the first one unless reviews are strict. *)
Definition may_go_on (asked again : list (Event (U := U) (Active := Active))) : Prop :=
  again = [] ∧ strict_review settings = false ∧ asked ≠ [] ∨ ∃ ctx, again = [Granted ctx] ∧ retry_reason ctx ≠ None.

Lemma unsandboxed_spec profile :
  negb (owner_network_policy settings) && unsandboxed_execution_allowed (file_system_sandbox_policy profile) = true →
  has_denied_read_restrictions (file_system_sandbox_policy profile) = false ∧ owner_network_policy settings = false.
Proof. unfold unsandboxed_execution_allowed. intros [?%negb_true_iff ?%negb_true_iff]%andb_true_iff. done. Qed.

(** An attempt as it is prepared and run. *)
Lemma attempt_runs_under profile req requested spec_world exe active :
  let managed := managed_network_active settings (network_approval_spec req spec_world) in
  (requested = true → exe = linux_sandbox_exe settings ∧ should_sandbox profile sandbox_preference managed = true) →
  (requested = false → should_sandbox profile sandbox_preference managed = true →
   has_denied_read_restrictions (file_system_sandbox_policy profile) = false ∧ owner_network_policy settings = false) →
  runs_under profile req (with_network_approval (attempt_of settings profile req requested managed exe) active).
Proof.
  intros managed Hreq Hleft. unfold runs_under.
  cbn [with_network_approval attempt_of permissions exec_server_permissions sandbox_cwd attempt_roots use_legacy_landlock
       attempt_windows_level private_desktop enforce_managed_network sandbox_requested codex_linux_sandbox_exe sandbox].
  split_and!; try done.
  - by exists spec_world.
  - intros Hr ->. rewrite Hr. simpl. unfold select_initial. by destruct (Hreq Hr) as [_ ->].
  - intros [->| ->]; simpl; [done|]. by rewrite andb_false_r.
Qed.

Lemma retry_events profile req requirement spec_world already network s s' r asked :
  let managed := managed_network_active settings (network_approval_spec req spec_world) in
  let allowed := negb (owner_network_policy settings) && unsandboxed_execution_allowed (file_system_sandbox_policy profile) in
  retry to_json settings profile req requirement allowed managed already network s = (s', r) →
  approval_policy settings ≠ Never → (already = true → asked ≠ []) →
  ∃ again more, events s' = events s ++ again ++ more ∧ (again ++ more = [] ∨ may_go_on asked again) ∧
    (more = [] ∨ ∃ a d, more = [Ran a d] ∧ runs_under profile req a).
Proof.
  intros managed allowed Hretry Hnever Hal. unfold retry in Hretry. fold allowed in Hretry.
  set (bypass := negb (strict_review settings) && _ && _) in Hretry.
  assert (∀ s1, (s ← get; run_attempt req (attempt_of settings profile req
      (negb allowed && should_sandbox profile sandbox_preference managed) managed
      (if allowed then None else linux_sandbox_exe settings)) (network_approval_spec req (session s))) s1 = (s', r) →
    ∃ more, events s' = events s1 ++ more ∧ (more = [] ∨ ∃ a d, more = [Ran a d] ∧ runs_under profile req a)) as Hrun.
  { intros s1 H. unfold mbind, M_bind, get in H. apply run_attempt_events in H as [[H _]|(active & d & H & _)].
    - exists []. rewrite app_nil_r. split; [done|by left].
    - eexists. split; [exact H|]. right. do 2 eexists. split; [done|]. apply attempt_runs_under.
      + intros [Hal' Hsh]%andb_true_iff. apply negb_true_iff in Hal'. by rewrite Hal'.
      + fold managed. intros Hreq Hsh. rewrite Hsh, andb_true_r in Hreq. apply negb_false_iff in Hreq. by apply unsandboxed_spec. }
  destruct bypass eqn:Hby.
  - apply Hrun in Hretry as (more & He & Hm). exists [], more. split; [done|]. split; [|done]. right. left.
    apply andb_true_iff in Hby as [[Hs%negb_true_iff Hb]%andb_true_iff _]. split_and!; [done..|].
    unfold should_bypass_approval in Hb. destruct already; [by apply Hal|]. by apply bool_decide_eq_true in Hb.
  - unfold mbind at 1, M_bind at 1 in Hretry. destruct (ask to_json req _ s) as [s1 [u|e]] eqn:Ha; apply ask_events in Ha.
    + apply Hrun in Hretry as (more & He & Hm). eexists [Granted _], more. split.
      { rewrite He, Ha. by rewrite <- app_assoc. }
      split; [|exact Hm]. right. right. eexists. split; [done|]. discriminate.
    + injection Hretry as <- <-. exists [], []. rewrite app_nil_r. split; [done|]. split; [by left|by left].
Qed.

Lemma after_approval_events {L : ToolLaws Tool} profile req requirement already s s' r asked :
  after_approval to_json settings profile req requirement already s = (s', r) → (already = true → asked ≠ []) →
  ∃ rest, events s' = events s ++ rest ∧
    (rest = [] ∨ ∃ a d more, rest = Ran a d :: more ∧ runs_under profile req a ∧
       (sandbox_requested a = false → should_sandbox profile sandbox_preference (enforce_managed_network a) = true →
        (∃ proposed, requirement = ReqSkip true proposed) ∨ requires_escalated_permissions (tool_sandbox_permissions req) = true) ∧
       (more = [] ∨ d = true ∧ ∃ again last, more = again ++ last ∧ may_go_on asked again ∧
          (last = [] ∨ ∃ a' d', last = [Ran a' d'] ∧ runs_under profile req a'))).
Proof.
  intros H Hal. unfold after_approval in H.
  set (allowed := negb (owner_network_policy settings) && unsandboxed_execution_allowed (file_system_sandbox_policy profile)) in *.
  set (spec := network_approval_spec req (session s)) in *. set (managed := managed_network_active settings spec) in *.
  set (override := if allowed then _ else NoOverride) in *.
  set (requested := match override with BypassSandboxFirstAttempt => false | NoOverride => _ end) in *.
  destruct (run_attempt _ _ spec s) as [s1 first_result] eqn:Hfirst.
  apply run_attempt_events in Hfirst as [[He Hnd]|(active & d & He & Hd)].
  { exists []. rewrite app_nil_r. split; [|by left]. destruct first_result as [|[|[]]]; try done; by injection H as <- _. }
  set (a := with_network_approval _ active) in He.
  assert (∀ more, Ran a d :: more = Ran a d :: more ∧ runs_under profile req a ∧
    (sandbox_requested a = false → should_sandbox profile sandbox_preference (enforce_managed_network a) = true →
     (∃ proposed, requirement = ReqSkip true proposed) ∨ requires_escalated_permissions (tool_sandbox_permissions req) = true)) as Ha.
  { intros more. split; [done|]. assert (sandbox_requested a = false → should_sandbox profile sandbox_preference (enforce_managed_network a) = true →
      allowed = true ∧ override = BypassSandboxFirstAttempt) as Hover.
    { subst a. cbn [with_network_approval attempt_of sandbox_requested enforce_managed_network]. subst requested.
      destruct override eqn:Ho; [congruence|]. intros _ _. split; [|done]. by destruct allowed. }
    split.
    - apply attempt_runs_under.
      + intros Hr. split; [done|]. revert Hr. subst requested. by destruct override.
      + intros Hr Hs. destruct (Hover Hr Hs) as [Hallow _]. by apply unsandboxed_spec.
    - intros Hr Hs. destruct (Hover Hr Hs) as [Hallow Ho]. subst override. rewrite Hallow in Ho.
      clear -Ho. unfold sandbox_override_for_first_attempt in Ho.
      destruct (negb (unsandboxed_execution_allowed (file_system_sandbox_policy profile))); [done|].
      destruct requirement as [[] proposed| |]; [left; by exists proposed|right..]; by destruct (requires_escalated_permissions _). }
  assert (s1 = s' → ∃ rest, events s' = events s ++ rest ∧ rest = [Ran a d]) as Hstop by (intros <-; by eexists).
  assert ((s1, first_result) = (s', r) → ∃ rest, events s' = events s ++ rest ∧ (rest = [] ∨ ∃ a d more, rest = Ran a d :: more ∧ runs_under profile req a ∧
       (sandbox_requested a = false → should_sandbox profile sandbox_preference (enforce_managed_network a) = true →
        (∃ proposed, requirement = ReqSkip true proposed) ∨ requires_escalated_permissions (tool_sandbox_permissions req) = true) ∧
       (more = [] ∨ d = true ∧ ∃ again last, more = again ++ last ∧ may_go_on asked again ∧
          (last = [] ∨ ∃ a' d', last = [Ran a' d'] ∧ runs_under profile req a')))) as Hend.
  { intros [= <- _]. eexists. split; [exact He|]. right. exists a, d, []. destruct (Ha []) as (_ & ? & ?). split_and!; [done..|]. by left. }
  destruct first_result as [out|[text|[output decision| |text]]]; try by apply Hend.
  specialize (Hd eq_refl). subst d. destruct (may_retry _ _ _ _ _) eqn:Hmay; [|by apply Hend].
  apply (retry_events _ _ _ _ _ _ _ _ _ asked) in H as (again & more & He' & Hag & Hm).
  - exists (Ran a true :: again ++ more). split; [rewrite He', He; by rewrite <- !app_assoc|]. right.
    exists a, true, (again ++ more). destruct (Ha (again ++ more)) as (_ & ? & ?). split_and!; [done..|].
    destruct Hag as [Hnil|Hag]; [by left|]. right. split; [done|]. exists again, more. by split_and!.
  - intros Hn. unfold may_retry in Hmay. rewrite Hn, never_wants in Hmay. simpl in Hmay. by rewrite andb_false_r in Hmay.
  - done.
Qed.

Lemma run_profile_total req : is_Some (run_profile settings req).
Proof.
  unfold run_profile, materialize_profile, materialize_project_roots_with. destruct (uses_executor_managed_process_sandbox req); [eauto|].
  destruct (env_permission_profile settings) as [fs net| |net]; [|eauto..].
  assert (∀ q roots, policy_kind q ≠ ExternalSandbox → is_Some (from_sandbox_policy (FsDeny.materialize_project_roots_with_path_uris q roots))) as Hq.
  { intros q roots Hk. unfold FsDeny.materialize_project_roots_with_path_uris, FsDeny.try_materialize_project_roots_with_path_uris, from_sandbox_policy.
    destruct (FsDeny.materialize_entries roots (entries q)) as [es|]; simpl; [|eauto]. destruct (policy_kind q); [eauto..|done]. }
  destruct (Hq (to_sandbox_policy fs) (env_workspace_roots settings)) as [fs' ->]; [by destruct fs|]. simpl. eauto.
Qed.

(** C3.  A run of a tool ends, and of approvals and attempts it makes only these, in this order.
    First the approval the requirement asks for (or a strict review), without which only a
    requirement that skips it goes on, and nothing follows a refusal.  Then one attempt, in
    the platform's sandbox when the policy asks for one (where the executor does not bring
    its own), unless rules bypass it or the caller escalated.  Then, only if the sandbox
    denied it, one retry, with an approval of its own or, where reviews are not strict, the
    one already given.  Neither attempt leaves a sandbox that the policy asks for where
    that would lift a denied read or the network policy of the owner, and both are made
    with the profile, the directory and the levels of the settings. *)
Theorem orchestrated_run_authorized {L : ToolLaws Tool} req s :
  ∃ s' r, run to_json settings req s = Some (s', r) ∧
  (events s' = events s ∨
   ∃ profile asked rest, run_profile settings req = Some profile ∧
    let requirement := requirement_of settings profile req in
    events s' = events s ++ asked ++ rest ∧ may_start requirement asked ∧
    (rest = [] ∨ ∃ a d more, rest = Ran a d :: more ∧ runs_under profile req a ∧
       (sandbox_requested a = false → should_sandbox profile sandbox_preference (enforce_managed_network a) = true →
        (∃ proposed, requirement = ReqSkip true proposed) ∨ requires_escalated_permissions (tool_sandbox_permissions req) = true) ∧
       (more = [] ∨ d = true ∧ ∃ again last, more = again ++ last ∧ may_go_on asked again ∧
          (last = [] ∨ ∃ a' d', last = [Ran a' d'] ∧ runs_under profile req a')))).
Proof.
  unfold run. destruct (_ && _); [do 2 eexists; split; [done|by left]|].
  destruct (run_profile_total req) as [profile Hp]. rewrite Hp. cbn [mbind option_bind].
  set (requirement := requirement_of settings profile req).
  unfold mbind, M_bind. destruct (approve to_json settings req requirement s) as [s1 [already|e]] eqn:Ha; apply approve_events in Ha.
  2: { do 2 eexists. split; [done|]. by left. }
  destruct Ha as [Hnf Ha]. destruct (after_approval to_json settings profile req requirement already s1) as [s' r] eqn:Hr.
  exists s', r. split; [done|]. right.
  assert (∃ asked, events s1 = events s ++ asked ∧ may_start requirement asked ∧ (already = true → asked ≠ [])) as (asked & Hs1 & Hst & Hal).
  { destruct already.
    - destruct Ha as [ctx Hs1]. exists [Granted ctx]. split_and!; [done| |done]. split; [done|]. right. by exists ctx.
    - destruct Ha as (Hs1 & Hs & Hsk). exists []. rewrite app_nil_r. split_and!; [done| |done]. split; [done|]. by left. }
  destruct (after_approval_events _ _ _ _ _ _ _ asked Hr Hal) as (rest & Hs' & Hrest).
  exists profile, asked, rest. split; [done|]. split; [by rewrite Hs', Hs1, <- app_assoc|]. by split.
Qed.
End facts.

(** * A run in memory *)

Module OrchestratorMem.
Export FsMem.

(** A tool that fails in a sandbox, and a user who approves. *)
#[export] Instance mem_reviewers : Reviewers (ApprovalState nat) (ApprovalAction str) AskContext := {
  permission_hooks _ _ s := (s, None);
  guardian_approval _ _ s := (s, None);
  user_prompt _ _ s := (mkApprovals (S (approval_world s)) (tool_approvals s), Approved);
  guardian_timeout_message := lit "timed out";
}.

#[export] Instance mem_tool : ToolRuntime (ApprovalState nat) MemUrl str str str unit unit := {
  tool_sandbox_permissions _ := UseDefault;
  exec_approval_requirement _ := None;
  tool_wants_no_sandbox_approval := wants_no_sandbox_approval;
  approval_action req := Ok (ActExecCommand [req]);
  sandbox_preference := Auto;
  escalate_on_failure := true;
  uses_executor_managed_process_sandbox _ := false;
  network_approval_spec _ _ := None;
  spec_additional_permissions _ := None;
  tool_sandbox_cwd _ := None;
  tool_run req a s := (s, if sandbox_requested a then Err (Codex (SandboxDenied (lit "denied") None)) else Ok req);
}.

#[export] Instance mem_tool_laws : ToolLaws mem_tool.
Proof. by split. Qed.

#[export] Instance mem_network : NetworkApprovals (ApprovalState nat) unit unit unit := {
  begin_network_approval _ _ := mret None;
  into_deferred := Some;
  finish_deferred _ s := (s, None);
}.

Definition settings_of (es : list (FileSystemSandboxEntry MemUrl)) : StepSettings MemUrl :=
  mkSettings _ UnlessTrusted UnlessTrusted false false (Managed (ManagedRestricted es None) NetRestricted) [] (url (lit "file:///w"))
    LevelDisabled false false None false None Linux.

Definition start : RunState (U := MemUrl) (W := nat) (Active := unit) := mkRun (mkApprovals 0 ∅) [].

(** The events, without what they hold. *)
Definition outline (e : Event (U := MemUrl) (Active := unit)) : bool * bool :=
  match e with Granted _ => (true, false) | Ran a _ => (false, sandbox_requested a) end.
Definition run_outline (es : list (FileSystemSandboxEntry MemUrl)) : option (list (bool * bool)) :=
  '(s, _) ← run Some (settings_of es) (lit "ls") start; Some (map outline (events s)).

(** Asked once, run in the sandbox, and again outside it. *)
Example retried_outside : run_outline [new_entry (Special Root) Read] = Some [(true, false); (false, true); (false, false)].
Proof. vm_compute. reflexivity. Qed.

(** A denied read keeps the command in the sandbox: there is no retry. *)
Example denied_read_not_retried :
  run_outline [new_entry (Special Root) Read; path_entry (lit "file:///w/secret") Deny] = Some [(true, false); (false, true)].
Proof. vm_compute. reflexivity. Qed.

Lemma orchestrated_run_authorized_witness :
  ∃ s' r, run Some (settings_of [new_entry (Special Root) Read]) (lit "ls") start = Some (s', r) ∧ events s' ≠ [].
Proof.
  destruct (orchestrated_run_authorized Some (settings_of [new_entry (Special Root) Read]) (lit "ls") start) as (s' & r & Hr & _).
  exists s', r. split; [exact Hr|]. intros He. vm_compute in Hr. injection Hr as <- _. discriminate He.
Defined.
End OrchestratorMem.
